(* ===== verification/_CoqProject ===== *)
-Q . S2P
Prelude.v
Token.v
Channel.v
ChannelFacts.v
ChannelSpec.v
Cell.v
Timer.v
Wait.v
WaitFacts.v
System.v
Parking.v
ParkingFacts.v
Sleep.v
Wakeups.v
Asks.v
Int64.v
ListValue.v
ListFacts.v
ListAsk.v
ListClaims.v
Exhaustive.v
ExhaustiveInts.v
ExhaustiveSem.v
ExhaustiveFacts.v
ExhaustiveSearch.v
ExhaustiveClaims.v
Layers.v
LayersFacts.v
LayersClaims.v
MapValue.v
MapFacts.v
SetFacts.v
MapClaims.v
Ops.v
OpsFacts.v
Chunk.v
Verify.v
VerifyFacts.v
VerifyClaims.v
Emit.v
EmitFacts.v
EmitClaims.v
Globals.v
GlobalsClaims.v
Float.v
Key.v
KeyWalk.v
KeyFar.v
KeyOrder.v
KeyClaims.v
KeyUses.v
Doc.v
DocFacts.v
DocMap.v
DocClaims.v
Http.v
HttpSpec.v
HttpReads.v
HttpParse.v
Tree.v
PatternCode.v
PatternFacts.v
PatternBind.v
MatchFacts.v
MatchClaims.v
Order.v
OrderScc.v
Lexer.v
LexerFacts.v
LexerClaims.v
Types.v
TypesFacts.v
Unify.v
UnifyFacts.v
UnifySpec.v
UnifyArms.v
UnifyClaims.v
TypesClaims.v
InitOrder.v
InitOrderClaims.v
