(* ===== verification/Prelude.v ===== *)
(** * Verification of silt: its runtime, values, lexer, types, checks,
    bytecode, layout and wire

    Silt (src/) is a statically typed language with a bytecode virtual
    machine.  A program is read, checked (among other things: that its
    matches leave no value out), compiled to bytecode, verified, and run
    by tasks that a scheduler moves between threads and that meet on
    channels.  This library models the parts of it that the rest of the
    program leans on, one file or a few per part, and proves what each
    promises.

    ** The parts, and the files that model them

    Concurrency core (src/src/runtime/sync/).
    - Token: token.rs, queue.rs.  One wait of one task, ended once, by
      whoever fires it first; the wakes an operation collects.
    - Channel, ChannelFacts, ChannelSpec: channel.rs.  [AChan] is the
      abstract channel (a buffer, those who take, those who offer) and
      [abs] reads it off the queues with their stale waiters.
    - Cell, Timer: cell.rs, timer.rs.  A value set once; deadlines.
    - Wait, WaitFacts: wait.rs.  A task parks on several arms at once.
    - System: one operation of anybody on all of these, as a step; a
      channel used by sends, receives and parks from its beginning.
    - Parking, ParkingFacts: parking.rs.  The registry of parked tasks,
      with park, wake, cancel and shutdown interleaved in any order.
    - Sleep, Wakeups, Asks: what follows for whole executions.
    A park takes the locks of its sources, a channel is handed wakes by
    every operation under its lock, and the registry is given them after
    the lock is let go: the interleavings are those of the steps of
    [op_step] and [wstep].  What runs without a lock in between is
    several of them.  A wake takes the entry out ([wake_take]) and the wait
    is finished later ([take_back]); a shutdown sets its flag, empties one
    map after the other and then drops one entry after the other
    ([shut_flag], [drain_shard], [drop_parked]); a round of the timer takes
    what is due and carries out one entry after the other
    ([begin_round], [carry_out], [end_round]).  An entry that was taken out
    is in the world's hands until its next step.  [wake], [shutdown] and
    [fire_due] are these steps with nobody in between.

    Values (src/src/value/, src/src/vm/arithmetic.rs).
    - Int64: the [i64] of silt and its five operations.
    - ListValue, ListFacts, ListAsk, ListClaims: list.rs.  Buffers,
      trees and ranges, against the plain list of the elements.
    - MapValue, MapFacts, SetFacts, MapClaims: map.rs.  Entries side by side or in a tree, against
      what is at a key.
    - Float: float.rs.  A Float as its 64 bits.
    - Key, KeyWalk, KeyFar, KeyOrder, KeyClaims: key.rs
      and contains_fn of mod.rs.  One walk through a value, or two side by
      side, by calls near the root and with a stack of its own below
      [NEAR]; equality, order and hash are visitors of it.
    - KeyUses: the order of values where the list and the maps use it.

    The check of matches (src/src/typechecker/exhaustiveness.rs).
    - Exhaustive: the search for a row of values no arm matches.
    - ExhaustiveSem: which values a pattern matches; the other
      Exhaustive files: that the search is right and what the checker
      therefore says.

    Tables of a session (src/src/layers.rs).
    - Layers, LayersFacts, LayersClaims: rows in layers copies share.

    Bytecode (src/src/bytecode/).
    - Ops, OpsFacts: ops.rs.  One table gives the assembler's
      and the decoded instructions, the encoder, the decoder and the
      effects; here too.
    - Chunk: mod.rs, code with its constants and its spans.
    - Emit, EmitFacts, EmitClaims: emit.rs.
    - Verify, VerifyFacts, VerifyClaims: verify.rs.
    - Globals, GlobalsClaims: mod.rs, the global slots of a session.
    The emitter writes what the decoder reads, the verifier follows what
    the decoder reads, and both take what an instruction does from the
    same row of the table.

    The layout of the formatter (src/src/format/doc.rs).
    - Doc: the document and its renderer; DocFacts: its
      loops end, what it keeps and trims; DocMap: it looks at codes of
      characters only, so that characters can carry the comment they are
      of; DocClaims: what it promises.

    The wire of the HTTP server (src/src/http_wire.rs).
    - Http: the reader of requests, a read at a time, and the writer of
      responses; HttpSpec: what the reader does, said of all the bytes at
      once; HttpReads: the one is the other;
      HttpParse: an instance of the parser of heads, the bytes of a
      response, and what reader and writer promise.

    The order definitions are checked in (src/src/typechecker/order.rs).
    - Tree: the syntax tree (src/src/ast.rs) as far as it is walked.
    - Order: what a body mentions, the graph of a module and its strongly
      connected components; OrderScc: the invariant of the search, which
      its turns keep, its end, and the groups.

    The lexer (src/src/lexer.rs).
    - Lexer: the tokens, comments and errors of a text, and what is asked
      of them; the checks the fuzzer runs on them (check_lexer_invariants
      of fuzz_invariants.rs).
    - LexerFacts: a rule of reasoning for each operation, and that the
      scanners end, and how tokens and what is between them lie in the text;
      LexerClaims: the checks hold; the text a token is written as (its
      Display), and that it is read as that token.

    Types and unification (src/src/types/, src/src/typechecker/unify.rs).
    - Types: the type language, the questions and the substitutions on it
      (mod.rs), and canonical forms with the registry of aliases and of
      associated types (canonical.rs).
    - TypesFacts: types as trees; [hom], which replaces variables, and
      [agree], equality but for what meets every type.
    - Unify: the supply of type variables with its substitution, the
      checker's state it works on, and all the arms of the unifier.
    - UnifyFacts: what the substitution stands for ([solves]), that [apply]
      computes it and [bind] adds to it; UnifySpec: what unifying does, in
      one statement for every arm ([unified]); UnifyArms: each arm does
      it, and the induction (on the open variables, then on size).
    - UnifyClaims, TypesClaims: what they promise, and where they do not
      keep it.
    The unifier is shown right for types without open rows and without
    projections ([plain]); on records with a row left open it is not
    ([open_row_resolved_twice], [open_row_of_itself]).

    The order top-level [let]s are initialised in
    (src/src/typechecker/init_order.rs).
    - InitOrder: from the graph of what each definition mentions on: what
      each [let] needs, the rings and what is reported of them, the order.
    - InitOrderClaims: the invariant of a search breadth first ([found]),
      which both searches keep, that of taking what is ready ([so_far]),
      and what they come to.

    The code of patterns and matches (src/src/compiler/patterns.rs, the
    matches, locals, scopes and labels of src/src/compiler/mod.rs).
    - PatternCode: what the instructions of patterns do (vm/run.rs), the
      compiler's context, and the code of tests, bindings, ways of an
      or-pattern under a guard, arms and matches.
    - PatternFacts: what a pattern means ([pattern_test]), and that the
      code of a test comes to it ([tests]).
    - PatternBind: the names it binds ([pattern_binds]), and that the code
      of a binding puts their values into their locals ([binds_as]).
    - MatchFacts: what a match means ([match_result]); the code of one arm.
    - MatchClaims: every form of a match, and what they promise.
    An expression in such code is compiled by the rest of the compiler; its
    instruction [IRun] reads the frame through the locals the compiler
    knows, so that a wrong slot is a wrong value.

    ** What the theorems show

    - Waits: a task that is parked is woken by what it waits for, once,
      whatever the interleaving ([no_lost_wakeup]); nobody sleeps beside
      something to take ([sleeper_has_nothing_to_take]); the registry
      never panics ([parking_never_panics]), and a shutdown that nobody
      disturbs takes everything ([shutdown_takes_everything]).
    - Channels refine the abstract channel: sends, receives and closes
      ([try_send_correct], [try_receive_correct],
      [channel_close_correct]), first in first out ([channel_fifo]).
    - Matches: a match that is accepted matches every value of its type
      ([accepted_match_is_complete]); one that is reported misses the
      value the report shows, which is of its type
      ([reported_match_misses]).
    - Code of matches: it gives the value of the first arm that matches and
      whose guard holds, and leaves the frame as it was
      ([match_is_its_arms]); a pattern's names are locals with their values
      ([pattern_names_are_bound]); of an or-pattern under a guard each way
      is tried, or there are too many ([guarded_ways_are_counted]).
    - Lists, maps, sets, layered tables and the operations of Ints are
      their plain counterparts, with the errors and the bounds where the
      code has them.
    - Keys of values: their order is total and agrees with their equality
      ([values_are_ordered]), equal values hash alike
      ([equal_values_hash_alike]), the walk with a stack is the walk by
      calls ([far_walk_is_near_walk]).
    - Layout: nothing of a document is lost ([render_loses_nothing]), no
      code is put behind a line comment
      ([line_comments_end_their_lines]), no line ends in a space.
    - Bytecode: a function that passes the verifier never reads what is
      not there ([verified_code_is_safe]); the verifier ends and does
      not panic ([verify_total]); what is emitted reads back as what was
      asked for ([emitted_code_reads_back]) or is a limit the user is
      told of; a session gives a slot to one definition.
    - Wire: a request does not depend on how its bytes arrive
      ([requests_do_not_depend_on_reads]) and has one length
      ([request_length_is_certain]); a body in chunks is read back; what a
      response's headers hold starts no other response, where the date has
      no line break ([responses_are_not_split]).
    - Order: the groups of a module are its strongly connected components,
      each after those it refers to (but through a complete signature), and
      there always are groups ([groups_are_components]).
    - Initialisation: each [let] is initialised once, after all it needs,
      the first written first ([initialised_after_its_needs]); one that
      needs its own value is in a ring that is reported
      ([rings_are_reported]).
    - Lexer: whatever the text, it ends without a panic and its tokens,
      comments and errors are as the fuzzer's checks want them
      ([lexer_keeps_its_invariants]); each character is accounted for
      ([no_character_is_lost]); tokens, Floats among them, read back from
      their texts ([written_tokens_are_read]) and every text from a literal
      ([literal_is_read]).
    - Unification, of types without open rows and projections in a checker
      that is in order: it ends ([unify_ends]), makes types equal
      ([unify_makes_equal]) and, where nothing but the types themselves can
      keep them apart, decides no more than is needed, so that a fault is of
      types that cannot be the same ([unify_most_general]); what an outer
      binding has reached is not generalised ([unify_keeps_levels]); a
      check of fresh variables and unifications can be undone
      ([forget_undoes_check]).
    - Types, without open rows and projections: instances are found and are
      instances ([instance_of_correct]); aliases come to an end
      ([canonicalize_ends]); bindings of associated types need not
      ([bindings_go_round]).

    ** How the code is modelled

    Shared objects (tokens, cells, channels, layers) live in heaps and a
    reference is a name there.  A section under a lock is one function;
    where the source lets a lock go and goes on, there are two steps.
    Two things are coarser than the source: the whole of wait.rs's [park]
    (the section under the locks of its channels, the cells it joins
    after it, the timer it arms) is one step, and so is the drop of a
    [Parked] (the queues it leaves, each under its lock, and the timer).
    In one thing the model allows more than the source: a wake that was
    collected may arrive from then on, not only when the operation is
    over.  The sixteen maps of the parking registry are one.  A closure
    that runs later is a name of it.  An integer is a [Z] or an [N] with
    its wrap or its check written out.  A panic of the source is a value
    ([None], [Panics], [EmitPanics]) and theorems say where there is
    none.  A message is a constructor with what it shows.

    Code that is not in the repository is an argument with its laws: the
    RRB vector and the B-trees of the crate imbl ([VectorLaws],
    [OrdTreeLaws]); each has an instance on plain lists, which the
    witnesses use.  What a file uses of a part that is another file's of
    the source is an argument too: the order of values and whether a
    value has a function in it (maps and sets; KeyUses puts the order of
    Key there), the registry of builtin functions and the ids of builtin
    traits (the verifier, globals).
    The parser of heads (the crate httparse) is an argument with the laws
    [ParseLaws], and so are the two closures of the HTTP reader; strings
    of a request are lists of codes.  The definitions of a module and
    which of its signatures are complete are arguments of the order.
    [Globals] is over a plain list and a plain map, which is what
    Layers proves the layered tables to be when a key is given its value
    once; that it is, is part of what GlobalsClaims shows ([grows]).  The
    references a pattern check follows are paths to the pattern.
    The lexer's names are texts (the interner is left out), which
    characters outside ASCII are letters or digits ([alphanumeric]) is an
    argument, and a text is under 4 GiB, as its offsets are 32 bits.  What
    the standard library does to read a Float ([nearest]) and to write one
    ([show_f64], the fewest digits that read back) is written out.
    Definitions, traits, fields and modules are numbers in the types, and
    what a fault says is data: the types, fields and names it shows.
    What a definition mentions and whether a [let]'s value runs nothing
    are data of the graph of initialisation ([Graph]).
    What the checker knows of records, opaque types and modules
    ([Tables]) does not change while types are unified.
    The code of a match is a list of instructions with its labels in
    place: what the emitter makes of labels, and its limits, are Emit's.
    An expression pushes one value or stops the program, and is not left by
    a [return]; in tail position the code leaves the value on top of
    whatever is there, for the return behind it.  What an expression means
    does not depend on the compiler's hidden names ([Respects]); where a
    program writes one, it does ([hidden_name_is_the_scrutinee]).  The mark
    of a pattern that cannot fail, which the exhaustiveness search sets, is
    believed; the literals a literal match asks have it unset
    ([literal_marks]).

    Fuel: the search for uncovered rows has the levels of the source,
    MAX_DEPTH and one more (1001), and its answer at the bottom is the
    source's own; [product_range] has 66 steps, since a product of more
    than 64 factors other than 0, 1 and -1 overflows; the digits of a
    Float are looked for down to the place 2^-1074 has its last at
    ([shortest_ends]); the search by halving has as many as there are entries; reading the instructions of
    a code has as many as it has bytes; the verifier's loop has [enough],
    which [verify_total] shows is enough; the walk by calls has 1 + NEAR
    levels, below which the source has none either, and the one with a
    stack twice the size of the values; the loops of the renderer have the
    size of what is on their stacks; the loops of the HTTP reader have one
    or two steps more than there are reads or bytes to come; the search for
    components has a step for each node and each edge; the loops of the
    lexer have one or two steps more than there are characters left, the one
    that collects the tokens three; [apply], [canonicalize] and the unifier
    go on as long as there is fuel, and their theorems say that from some
    fuel on there is one result ([eventually], [ends]); the searches of the
    initialisation order have a step for each definition, its walks back
    one or two more than nodes were found; every other loop is over the list
    it walks.

    ** What is not modelled

    Whatever is I/O or the work of a crate: sockets, files, processes,
    Postgres, the scheduler's threads (its part in a park and a wake is
    the registry's steps), the command line, the language server, git.
    The unsafe memory management of thin.rs and obj.rs.  Not yet
    modelled, in the order they are planned: what a definition mentions
    through the methods of its traits (the rest of
    typechecker/init_order.rs), the dictionaries of impls (bytecode/dict.rs), inference and generalisation
    (typechecker/inference.rs, scheme.rs), the compiler but for patterns and
    matches, the interpreter loop but for the instructions those use. *)

From stdpp Require Export base gmap list strings sorting.
From Stdlib Require Export ZArith Lia.

(** ** The development's hint database and tactics *)

Create HintDb silt discriminated.

(** Split every conjunction of the context. *)
Ltac splits := repeat match goal with H : _ ∧ _ |- _ => destruct H end.

(** Case analysis on every [match] and [if] of the goal, with the
    equations kept, then the usual clean-up. *)
Ltac crush_match :=
  repeat (case_match; simplify_eq/=; try done).

(** ** Lists *)

Lemma filter_Forall_id {A} (P : A → Prop) `{!∀ x, Decision (P x)} (l : list A) :
  Forall P l → filter P l = l.
Proof. induction 1 as [|x l Hx _ IH]; [done|]. by rewrite filter_cons_True, IH. Qed.

(** Dropping the elements of one key: nothing when no element has it,
    the first when only that one has. *)
Lemma filter_key_none {A B} `{!EqDecision B} (f : A → B) (k : B) (l : list A) :
  k ∉ f <$> l → filter (λ y, f y ≠ k) l = l.
Proof.
  intros Hni. apply filter_Forall_id, Forall_forall. intros y Hy <-.
  by apply Hni, list_elem_of_fmap_2.
Qed.

Lemma filter_key_head {A B} `{!EqDecision B} (f : A → B) (x : A) (l : list A) :
  NoDup (f <$> x :: l) → filter (λ y, f y ≠ f x) (x :: l) = l.
Proof.
  rewrite fmap_cons, NoDup_cons. intros [Hni _].
  rewrite filter_cons_False by naive_solver. by apply filter_key_none.
Qed.

Lemma filter_ext_in {A} (P Q : A → Prop) `{!∀ x, Decision (P x), !∀ x, Decision (Q x)} (l : list A) :
  (∀ x, x ∈ l → P x ↔ Q x) → filter P l = filter Q l.
Proof.
  induction l as [|x l IH]; intros Hpq; [done|].
  rewrite !filter_cons, IH by (intros; apply Hpq; set_solver).
  assert (P x ↔ Q x) by (apply Hpq; set_solver). repeat case_decide; tauto.
Qed.

(** An element of a list with one more at its end. *)
Lemma lookup_snoc_or {A} (l : list A) x i y :
  (l ++ [x]) !! i = Some y ↔ l !! i = Some y ∨ (i = length l ∧ x = y).
Proof.
  rewrite lookup_app_Some. split.
  - intros [?|[? H]]; [by left|]. right. destruct (i - length l)%nat as [|[]] eqn:E; simplify_eq/=.
    split; [lia|done].
  - intros [?|[-> ->]]; [by left|]. right. by rewrite Nat.sub_diag.
Qed.
