(* ===== verification/Token.v ===== *)
(** * The token of one wait (src/runtime/sync/token.rs, queue.rs)

    A token is shared: it sits on the queue of every arm of its wait, in
    the timer and in the hands of its task.  The shared objects (the
    tokens and the cancel flags of the tasks) live in a [Heap]; a
    reference to one is its name there.  An operation that takes a
    token's lock is one function on the heap. *)

From S2P Require Import Prelude.

(** The scheduler's name for a task. *)
Abbreviation TaskId := N (only parsing).
(** The name of a token, of a cancel flag: which [Arc] it is. *)
Abbreviation TokId := nat (only parsing).
Abbreviation FlagId := nat (only parsing).

(** How a channel was closed: the failure of its producer, and the task
    of the stream stage whose failure it is. *)
Record Close (E : Type) := mkClose {
  failure : option E;
  stage : option nat;
}.
Arguments mkClose {E} _ _.
Arguments failure {E} _.
Arguments stage {E} _.

(** How an arm of a wait was completed. *)
Inductive Outcome (V E : Type) :=
  | OReceived (v : V)
  | OSent
  | OClosed (c : Close E)
  | ODone
  | OAsked.
Arguments OReceived {V E} _.
Arguments OSent {V E}.
Arguments OClosed {V E} _.
Arguments ODone {V E}.
Arguments OAsked {V E}.

(** How a wait ended: an arm, by its index, or the deadline. *)
Inductive Fired (V E : Type) :=
  | FArm (arm : nat) (o : Outcome V E)
  | FDeadline.
Arguments FArm {V E} _ _.
Arguments FDeadline {V E}.

(** What a task finds when it comes back from a park. *)
Inductive Resumed (V E : Type) :=
  | RFired (f : Fired V E)
  | RCancelled
  | RExpired.
Arguments RFired {V E} _.
Arguments RCancelled {V E}.
Arguments RExpired {V E}.

(** The states of a token. *)
Inductive TState (V E : Type) :=
  | TArmed
  | TParked
  | TFired (f : Fired V E)
  | TCancelled
  | TExpired
  | TTaken.
Arguments TArmed {V E}.
Arguments TParked {V E}.
Arguments TFired {V E} _.
Arguments TCancelled {V E}.
Arguments TExpired {V E}.
Arguments TTaken {V E}.

(** One wait of one task.  [ended_by] is the arm that ended the wait:
    the source's atomic with [NO_ARM] for "none" is an option here. *)
Record Token (V E : Type) := mkToken {
  task : TaskId;
  cancel_flag : option FlagId;
  ended_by_arm : option nat;
  tstate : TState V E;
}.
Arguments mkToken {V E} _ _ _ _.
Arguments task {V E} _.
Arguments cancel_flag {V E} _.
Arguments ended_by_arm {V E} _.
Arguments tstate {V E} _.

(** The shared tokens and cancel flags. *)
Record Heap (V E : Type) := mkHeap {
  flags : gmap FlagId bool;
  tokens : gmap TokId (Token V E);
}.
Arguments mkHeap {V E} _ _.
Arguments flags {V E} _.
Arguments tokens {V E} _.

(** The tasks to wake once the locks are released: nearly every
    operation wakes one at most. *)
Record Wakes := mkWakes {
  first_wake : option TaskId;
  more_wakes : list TaskId;
}.

Definition no_wakes : Wakes := mkWakes None [].

Definition wakes_push (w : Wakes) (t : TaskId) : Wakes :=
  match first_wake w with
  | None => mkWakes (Some t) (more_wakes w)
  | Some _ => mkWakes (first_wake w) (more_wakes w ++ [t])
  end.

(** The calls of [Wake::wake] that sending the wakes makes, in order. *)
Definition wakes_send (w : Wakes) : list TaskId :=
  option_list (first_wake w) ++ more_wakes w.

Section token.
Context {V E : Type}.
Implicit Types (h : Heap V E) (t : TokId).

(** Whether a task's cancel flag is set. *)
Definition is_set (h : Heap V E) (c : option FlagId) : bool :=
  match c with
  | None => false
  | Some f => default false (flags h !! f)
  end.

(** A new token, under a name nothing has. *)
Definition token_new (h : Heap V E) (tsk : TaskId) (c : option FlagId) : Heap V E * TokId :=
  let t := fresh (dom (tokens h)) in
  (mkHeap (flags h) (<[t := mkToken tsk c None TArmed]> (tokens h)), t).

Definition state_waiting (s : TState V E) : bool :=
  match s with TArmed | TParked => true | _ => false end.

Definition state_parked (s : TState V E) : bool :=
  match s with TParked => true | _ => false end.

(** Whether the wait is still open. *)
Definition is_waiting (h : Heap V E) (t : TokId) : bool :=
  match tokens h !! t with Some k => state_waiting (tstate k) | None => false end.

(** The arm whose queue the token is on no longer. *)
Definition ended_by (h : Heap V E) (t : TokId) : option nat :=
  tokens h !! t ≫= ended_by_arm.

(** Whether the cancel flag of the token's task is set. *)
Definition is_cancelled (h : Heap V E) (t : TokId) : bool :=
  match tokens h !! t with Some k => is_set h (cancel_flag k) | None => false end.

(** Hold the token so that nobody else can end the wait: [true] when the
    caller now holds it.  (The guard the source returns is the right to
    call [fire] or [expire].) *)
Definition claim (h : Heap V E) (t : TokId) : bool :=
  match tokens h !! t with
  | None => false
  | Some k => if is_set h (cancel_flag k) then false else state_waiting (tstate k)
  end.

Definition set_tok (h : Heap V E) (t : TokId) (k : Token V E) : Heap V E :=
  mkHeap (flags h) (<[t := k]> (tokens h)).

(** End the wait of a claimed token with [fired]. *)
Definition fire (h : Heap V E) (t : TokId) (fired : Fired V E) (w : Wakes) : Heap V E * Wakes :=
  match tokens h !! t with
  | None => (h, w)
  | Some k =>
      let eb := match fired with FArm arm _ => Some arm | FDeadline => ended_by_arm k end in
      let w' := if state_parked (tstate k) then wakes_push w (task k) else w in
      (set_tok h t (mkToken (task k) (cancel_flag k) eb (TFired fired)), w')
  end.

(** End the wait of a claimed token because the time of its task is over. *)
Definition expire (h : Heap V E) (t : TokId) (w : Wakes) : Heap V E * Wakes :=
  match tokens h !! t with
  | None => (h, w)
  | Some k =>
      let w' := if state_parked (tstate k) then wakes_push w (task k) else w in
      (set_tok h t (mkToken (task k) (cancel_flag k) (ended_by_arm k) TExpired), w')
  end.

(** End the wait because its task is cancelled: the heap, the wakes sent
    and whether the wait was open. *)
Definition token_cancel (h : Heap V E) (t : TokId) : Heap V E * list TaskId * bool :=
  match tokens h !! t with
  | None => (h, [], false)
  | Some k =>
      match tstate k with
      | TArmed =>
          (set_tok h t (mkToken (task k) (cancel_flag k) (ended_by_arm k) TCancelled), [], true)
      | TParked =>
          (set_tok h t (mkToken (task k) (cancel_flag k) (ended_by_arm k) TCancelled), [task k], true)
      | TFired _ | TCancelled | TExpired | TTaken => (h, [], false)
      end
  end.

(** End the wait without a wake: its task is gone. *)
Definition abandon (h : Heap V E) (t : TokId) : Heap V E :=
  match tokens h !! t with
  | None => h
  | Some k =>
      if state_waiting (tstate k)
      then set_tok h t (mkToken (task k) (cancel_flag k) (ended_by_arm k) TCancelled)
      else h
  end.

(** Give the task up: [true] when it is parked now. *)
Definition commit (h : Heap V E) (t : TokId) : Heap V E * bool :=
  match tokens h !! t with
  | None => (h, false)
  | Some k =>
      match tstate k with
      | TArmed =>
          (set_tok h t (mkToken (task k) (cancel_flag k) (ended_by_arm k) TParked), true)
      | TParked => (h, true)
      | TFired _ | TCancelled | TExpired | TTaken => (h, false)
      end
  end.

(** What [Token::take] gives: the wait is open, it ended, or the
    result was taken before, where the source panics. *)
Inductive Take :=
  | TakeOpen
  | TakeResumed (r : Resumed V E)
  | TakePanic.

Definition take (h : Heap V E) (t : TokId) : Heap V E * Take :=
  match tokens h !! t with
  | None => (h, TakePanic)
  | Some k =>
      match tstate k with
      | TArmed | TParked => (h, TakeOpen)
      | TCancelled => (h, TakeResumed RCancelled)
      | TExpired => (h, TakeResumed RExpired)
      | TFired f =>
          (set_tok h t (mkToken (task k) (cancel_flag k) (ended_by_arm k) TTaken),
           TakeResumed (RFired f))
      | TTaken => (h, TakePanic)
      end
  end.

(** Whoever cancels a task sets its flag first. *)
Definition set_flag (h : Heap V E) (f : FlagId) : Heap V E :=
  mkHeap (<[f := true]> (flags h)) (tokens h).

End token.
Arguments TakeOpen {V E}.
Arguments TakeResumed {V E} _.
Arguments TakePanic {V E}.
Arguments Take : clear implicits.
#[global] Arguments token_new : simpl never.

(** ** How the heap changes

    [heap_le h h']: no token is lost, and none that could not be claimed
    can be claimed again.  It is what the queues rely on: a waiter that
    was passed over stays passed over. *)
Section heap_order.
Context {V E : Type}.
Implicit Types (h : Heap V E) (t : TokId).

Definition heap_le (h h' : Heap V E) : Prop :=
  ∀ t, is_Some (tokens h !! t) →
    is_Some (tokens h' !! t) ∧ (claim h' t = true → claim h t = true).

(** What one token may become in an operation: itself, or ended, with
    the arm that ended it on record. *)
Definition ended_as (k : Token V E) (s : TState V E) (eb : option nat) : Prop :=
  match s with
  | TFired (FArm a _) => eb = Some a
  | TFired FDeadline | TCancelled | TExpired => eb = ended_by_arm k
  | _ => False
  end.

Inductive tok_step (k : Token V E) : Token V E → Prop :=
  | tok_same : tok_step k k
  | tok_end s eb :
      state_waiting (tstate k) = true →
      ended_as k s eb →
      tok_step k (mkToken (task k) (cancel_flag k) eb s).

Definition is_parked (h : Heap V E) (t : TokId) : Prop :=
  ∃ k, tokens h !! t = Some k ∧ tstate k = TParked.

(** The task of a token. *)
Definition task_of (h : Heap V E) (t : TokId) : TaskId :=
  match tokens h !! t with Some k => task k | None => 0%N end.

(** [evolves h ws h']: an operation took the heap from [h] to [h'] and
    woke [ws]: flags stand, each token is as it was or was ended, no
    token became parked, and the tasks woken are exactly those of the
    parked tokens that ended, each once. *)
Record evolves (h : Heap V E) (ws : list TaskId) (h' : Heap V E) : Prop := mkEvolves {
  ev_flags : flags h' = flags h;
  ev_tok t k : tokens h !! t = Some k → ∃ k', tokens h' !! t = Some k' ∧ tok_step k k';
  ev_new t : tokens h !! t = None → ¬ is_parked h' t;
  ev_wakes : ∃ ts, NoDup ts ∧ ws = task_of h <$> ts ∧
             ∀ t, t ∈ ts ↔ is_parked h t ∧ is_waiting h' t = false;
}.

Lemma claim_true h t :
  claim h t = true ↔
  ∃ k, tokens h !! t = Some k ∧ is_set h (cancel_flag k) = false ∧ state_waiting (tstate k) = true.
Proof.
  unfold claim. split.
  - destruct (tokens h !! t) as [k|] eqn:Hk; [|done].
    destruct (is_set h (cancel_flag k)) eqn:Hset; [done|]. eauto.
  - intros (k & -> & -> & ->). done.
Qed.

Lemma claim_is_waiting h t : claim h t = true → is_waiting h t = true.
Proof. rewrite claim_true. unfold is_waiting. intros (k & -> & _ & ->). done. Qed.

Lemma claim_dom h t : claim h t = true → is_Some (tokens h !! t).
Proof. rewrite claim_true. intros (k & -> & _). eauto. Qed.

Lemma is_set_flags h h' c : flags h' = flags h → is_set h' c = is_set h c.
Proof. intros Hf. unfold is_set. by rewrite Hf. Qed.

Lemma claim_set_tok h t k t' :
  claim (set_tok h t k) t' =
  if decide (t = t') then negb (is_set h (cancel_flag k)) && state_waiting (tstate k)
  else claim h t'.
Proof.
  unfold claim, set_tok; cbn. rewrite lookup_insert. case_decide; [|done].
  subst. cbn. unfold is_set; cbn. by repeat case_match.
Qed.

Lemma is_waiting_set_tok h t k t' :
  is_waiting (set_tok h t k) t' =
  if decide (t = t') then state_waiting (tstate k) else is_waiting h t'.
Proof. unfold is_waiting, set_tok; cbn. rewrite lookup_insert. by case_decide. Qed.

#[global] Instance heap_le_preorder : PreOrder (heap_le).
Proof.
  split.
  - intros h t Ht. naive_solver.
  - intros h1 h2 h3 H12 H23 t Ht.
    destruct (H12 t Ht) as [Ht2 Hc2]. destruct (H23 t Ht2) as [Ht3 Hc3]. auto.
Qed.

Lemma heap_le_claim h h' t :
  heap_le h h' → is_Some (tokens h !! t) → claim h t = false → claim h' t = false.
Proof.
  intros Hle Ht Hc. destruct (claim h' t) eqn:Hc'; [|done].
  destruct (Hle t Ht) as [_ Himp]. naive_solver.
Qed.

Lemma tok_step_trans (k1 k2 k3 : Token V E) :
  tok_step k1 k2 → tok_step k2 k3 → tok_step k1 k3.
Proof.
  intros H12 H23. inv H12; [done|]. inv H23; [by constructor|].
  destruct s as [| |[]| | |]; naive_solver.
Qed.

Lemma tok_step_waiting (k k' : Token V E) :
  tok_step k k' → state_waiting (tstate k') = true → k' = k.
Proof. intros Hs Hw. inv Hs; [done|]. destruct s as [| |[]| | |]; cbn in *; naive_solver. Qed.

Lemma tok_step_fields (k k' : Token V E) :
  tok_step k k' → task k' = task k ∧ cancel_flag k' = cancel_flag k.
Proof. by intros []. Qed.

Lemma is_parked_dec_waiting h t : is_parked h t → is_waiting h t = true.
Proof. intros (k & Hk & Hs). unfold is_waiting. by rewrite Hk, Hs. Qed.

(** A parked token that is still waiting after an operation is still
    parked, and the task of a token never changes. *)
Lemma evolves_parked h ws h' t :
  evolves h ws h' → is_parked h t → is_waiting h' t = true → is_parked h' t.
Proof.
  intros Hev (k & Hk & Hs) Hw. destruct (ev_tok _ _ _ Hev t k Hk) as (k' & Hk' & Hst).
  unfold is_waiting in Hw. rewrite Hk' in Hw.
  rewrite (tok_step_waiting _ _ Hst Hw) in Hk'. by exists k.
Qed.

Lemma evolves_parked_inv h ws h' t : evolves h ws h' → is_parked h' t → is_parked h t.
Proof.
  intros Hev Hp. destruct (tokens h !! t) as [k|] eqn:Hk.
  - destruct (ev_tok _ _ _ Hev t k Hk) as (k' & Hk' & Hst).
    destruct Hp as (k2 & Hk2 & Hs2). simplify_eq.
    rewrite (tok_step_waiting _ _ Hst) in Hs2; [by exists k|]. by rewrite Hs2.
  - by destruct (ev_new _ _ _ Hev t Hk).
Qed.

Lemma evolves_task_of h ws h' t :
  evolves h ws h' → is_Some (tokens h !! t) → task_of h' t = task_of h t.
Proof.
  intros Hev [k Hk]. destruct (ev_tok _ _ _ Hev t k Hk) as (k' & Hk' & Hst).
  unfold task_of. rewrite Hk, Hk'. apply (tok_step_fields _ _ Hst).
Qed.

Lemma evolves_refl h : evolves h [] h.
Proof.
  split; [done| | |].
  - intros t k Hk. exists k. split; [done|constructor].
  - intros t Hn (k & Hk & _). congruence.
  - exists []. split; [constructor|]. split; [done|]. intros t. split; [set_solver|].
    intros [Hp Hw]. apply is_parked_dec_waiting in Hp. congruence.
Qed.

Lemma evolves_stays_ended h ws h' t :
  evolves h ws h' → is_Some (tokens h !! t) → is_waiting h t = false → is_waiting h' t = false.
Proof.
  intros Hev [k Hk] Hw. destruct (ev_tok _ _ _ Hev t k Hk) as (k' & Hk' & Hst).
  unfold is_waiting in *. rewrite Hk in Hw. rewrite Hk'.
  destruct (state_waiting (tstate k')) eqn:Hw'; [|done].
  rewrite (tok_step_waiting _ _ Hst Hw') in Hw'. congruence.
Qed.

Lemma evolves_trans h1 ws1 h2 ws2 h3 :
  evolves h1 ws1 h2 → evolves h2 ws2 h3 → evolves h1 (ws1 ++ ws2) h3.
Proof.
  intros H12 H23. split.
  - rewrite (ev_flags _ _ _ H23). apply (ev_flags _ _ _ H12).
  - intros t k Hk. destruct (ev_tok _ _ _ H12 t k Hk) as (k2 & Hk2 & Hs2).
    destruct (ev_tok _ _ _ H23 t k2 Hk2) as (k3 & Hk3 & Hs3).
    exists k3. split; [done|]. by eapply tok_step_trans.
  - intros t Hn Hp. eapply (ev_new _ _ _ H12 t Hn). by eapply evolves_parked_inv.
  - destruct (ev_wakes _ _ _ H12) as (ts1 & Hnd1 & -> & Hin1).
    destruct (ev_wakes _ _ _ H23) as (ts2 & Hnd2 & -> & Hin2).
    exists (ts1 ++ ts2). split; [|split].
    + apply NoDup_app. split; [done|]. split; [|done].
      intros t Ht1 Ht2. apply Hin1 in Ht1 as [_ Hw]. apply Hin2 in Ht2 as [Hp _].
      apply is_parked_dec_waiting in Hp. congruence.
    + rewrite fmap_app. f_equal. apply list_fmap_ext. intros i t Hi.
      symmetry. assert (Ht : t ∈ ts2) by (apply list_elem_of_lookup; eauto).
      apply Hin2 in Ht as [Hp _].
      apply (evolves_parked_inv _ _ _ _ H12) in Hp as (k & Hk & _).
      by rewrite <-(evolves_task_of _ _ _ _ H12 (mk_is_Some _ _ Hk)).
    + intros t. rewrite elem_of_app, Hin1, Hin2. split.
      * intros [[Hp Hw]|[Hp Hw]].
        { split; [done|]. destruct Hp as (k & Hk & Hs).
          destruct (ev_tok _ _ _ H12 t k Hk) as (k2 & Hk2 & _). eauto using evolves_stays_ended. }
        { split; [|done]. by eapply evolves_parked_inv. }
      * intros [Hp Hw]. destruct (is_waiting h2 t) eqn:Hw2.
        { right. split; [|done]. by eapply evolves_parked. }
        { by left. }
Qed.

Lemma evolves_heap_le h ws h' : evolves h ws h' → heap_le h h'.
Proof.
  intros Hev t [k Hk]. destruct (ev_tok _ _ _ Hev t k Hk) as (k' & Hk' & Hst).
  split; [by eauto|]. rewrite !claim_true. intros (k2 & Hk2 & Hset & Hw). simplify_eq.
  pose proof (tok_step_waiting _ _ Hst Hw) as ->. exists k. split; [done|].
  split; [|done]. rewrite <-Hset. symmetry. apply is_set_flags, (ev_flags _ _ _ Hev).
Qed.

End heap_order.
#[export] Hint Resolve evolves_refl evolves_heap_le : silt.

(** ** The operations on one token *)
Section token_ops.
Context {V E : Type}.
Implicit Types (h : Heap V E) (t : TokId).


(** While nothing is first there is nothing more: [wakes_push] fills
    [first_wake] first. *)
Definition wakes_ok (w : Wakes) : Prop := first_wake w = None → more_wakes w = [].

(** [moves (h, w) (h', w')]: the heap evolved, and the wakes of what
    ended were added to [w] in order. *)
Definition moves (a b : Heap V E * Wakes) : Prop :=
  ∃ ws, evolves (a.1) ws (b.1) ∧
    (wakes_ok (a.2) → wakes_ok (b.2) ∧ wakes_send (b.2) = wakes_send (a.2) ++ ws).

Lemma wakes_ok_push w tk : wakes_ok w → wakes_ok (wakes_push w tk).
Proof. unfold wakes_ok, wakes_push. destruct w as [[x|] m]; cbn; naive_solver. Qed.

Lemma wakes_send_push w tk :
  wakes_ok w → wakes_send (wakes_push w tk) = wakes_send w ++ [tk].
Proof.
  unfold wakes_ok, wakes_send, wakes_push.
  destruct w as [[x|] m]; cbn; [done|]. intros H. by rewrite H.
Qed.

#[global] Instance moves_preorder : PreOrder moves.
Proof.
  split.
  - intros [h w]. exists []. rewrite app_nil_r. auto using evolves_refl.
  - intros [h1 w1] [h2 w2] [h3 w3] (ws1 & He1 & Hs1) (ws2 & He2 & Hs2).
    exists (ws1 ++ ws2). cbn in *. split; [by eapply evolves_trans|].
    intros Hw1. destruct (Hs1 Hw1) as [Hw2 Heq1]. destruct (Hs2 Hw2) as [Hw3 Heq2].
    by rewrite app_assoc, Heq2, Heq1.
Qed.

Lemma moves_trans h1 w1 h2 w2 h3 w3 :
  moves (h1, w1) (h2, w2) → moves (h2, w2) (h3, w3) → moves (h1, w1) (h3, w3).
Proof. intros ??. by etrans. Qed.

Lemma moves_refl a : moves a a.
Proof. reflexivity. Qed.

(** An operation that starts with no wakes sends exactly those of the
    waits it ended. *)
Lemma moves_evolves h h' w' :
  moves (h, no_wakes) (h', w') → evolves h (wakes_send w') h'.
Proof. intros (ws & He & Hs). cbn in *. destruct Hs as [_ Hs]; [done|]. by rewrite Hs. Qed.

Lemma moves_heap_le h w h' w' : moves (h, w) (h', w') → heap_le h h'.
Proof. intros (ws & He & _). eauto with silt. Qed.

(** The one way a token ends in these operations. *)
Lemma evolves_end h t k s eb :
  tokens h !! t = Some k →
  state_waiting (tstate k) = true →
  ended_as k s eb →
  evolves h (if state_parked (tstate k) then [task k] else [])
            (set_tok h t (mkToken (task k) (cancel_flag k) eb s)).
Proof.
  intros Hk Hw He. split; [done| | |].
  - intros t' k' Hk'. cbn. rewrite lookup_insert. case_decide; simplify_eq.
    + eexists. split; [done|]. by constructor.
    + exists k'. split; [done|]. constructor.
  - intros t' Hn (k' & Hk' & Hs). cbn in Hk'. rewrite lookup_insert in Hk'.
    case_decide; simplify_eq.
  - exists (if state_parked (tstate k) then [t] else []). split; [|split].
    + destruct (state_parked _); auto using NoDup_nil_2, NoDup_singleton.
    + unfold task_of. destruct (state_parked (tstate k)); cbn; [|done]. by rewrite Hk.
    + intros t'. rewrite is_waiting_set_tok. split.
      * destruct (state_parked (tstate k)) eqn:Hp; [|set_solver].
        intros ->%list_elem_of_singleton. rewrite decide_True by done. split.
        { exists k. split; [done|]. by destruct (tstate k). }
        { destruct s as [| |[]| | |]; naive_solver. }
      * intros [(k' & Hk' & Hs') Hw']. case_decide; simplify_eq.
        { rewrite Hs'. cbn. set_solver. }
        { unfold is_waiting in Hw'. by rewrite Hk', Hs' in Hw'. }
Qed.

Lemma moves_end h w t k s eb :
  tokens h !! t = Some k →
  state_waiting (tstate k) = true →
  ended_as k s eb →
  moves (h, w) (set_tok h t (mkToken (task k) (cancel_flag k) eb s),
                if state_parked (tstate k) then wakes_push w (task k) else w).
Proof.
  intros Hk Hw He. eexists. split; [by apply evolves_end|]. cbn. intros Hok. split.
  - case_match; auto using wakes_ok_push.
  - case_match; [by apply wakes_send_push|by rewrite app_nil_r].
Qed.

Lemma fire_moves h t f w : claim h t = true → moves (h, w) (fire h t f w).
Proof.
  rewrite claim_true. intros (k & Hk & _ & Hw). unfold fire. rewrite Hk.
  apply moves_end; [done..|]. by destruct f.
Qed.

Lemma expire_moves h t w : claim h t = true → moves (h, w) (expire h t w).
Proof.
  rewrite claim_true. intros (k & Hk & _ & Hw). unfold expire. rewrite Hk.
  by apply moves_end.
Qed.

Lemma claim_fire h t f w t' :
  claim (fire h t f w).1 t' = if decide (t = t') then false else claim h t'.
Proof.
  unfold fire. destruct (tokens h !! t) as [k|] eqn:Hk; cbn.
  - rewrite claim_set_tok. cbn. by rewrite andb_false_r.
  - case_decide; [|done]. subst. unfold claim. by rewrite Hk.
Qed.

Lemma tokens_fire h t f w k :
  tokens h !! t = Some k →
  tokens (fire h t f w).1 !! t =
  Some (mkToken (task k) (cancel_flag k)
          match f with FArm a _ => Some a | FDeadline => ended_by_arm k end (TFired f)).
Proof. intros Hk. unfold fire. rewrite Hk. cbn. by rewrite lookup_insert_eq. Qed.

Lemma tokens_fire_ne h t f w t' :
  t ≠ t' → tokens (fire h t f w).1 !! t' = tokens h !! t'.
Proof. intros Hne. unfold fire. case_match; [|done]. cbn. by rewrite lookup_insert_ne. Qed.

Lemma token_cancel_evolves h t :
  evolves h (token_cancel h t).1.2 (token_cancel h t).1.1.
Proof.
  unfold token_cancel. destruct (tokens h !! t) as [k|] eqn:Hk; [|apply evolves_refl].
  destruct (tstate k) eqn:Hs; cbn; try apply evolves_refl.
  - pose proof (evolves_end h t k TCancelled (ended_by_arm k) Hk) as He.
    rewrite Hs in He. by apply He.
  - pose proof (evolves_end h t k TCancelled (ended_by_arm k) Hk) as He.
    rewrite Hs in He. by apply He.
Qed.

Lemma claim_is_set h t : claim h t = true → is_cancelled h t = false.
Proof. rewrite claim_true. unfold is_cancelled. by intros (k & -> & -> & _). Qed.

Lemma heap_le_set_flag h f : heap_le h (set_flag h f).
Proof.
  intros t Ht. split; [done|]. rewrite !claim_true. intros (k & Hk & Hset & Hw).
  exists k. split; [done|]. split; [|done]. unfold is_set, set_flag in *. cbn in *.
  destruct (cancel_flag k) as [g|]; [|done]. rewrite lookup_insert in Hset.
  by case_decide; simplify_eq.
Qed.

(** A change of one token that leaves it no more open than it was. *)
Lemma heap_le_set_tok h t k k' :
  tokens h !! t = Some k → cancel_flag k' = cancel_flag k →
  (state_waiting (tstate k') = true → state_waiting (tstate k) = true) →
  heap_le h (set_tok h t k').
Proof.
  intros Hk Hf Hw t' Ht'. split.
  - cbn. rewrite lookup_insert. case_decide; eauto.
  - rewrite claim_set_tok. case_decide; [|done]. subst.
    rewrite andb_true_iff, negb_true_iff, claim_true. intros [Hset Hw'].
    exists k. rewrite <-Hf. auto.
Qed.

Lemma heap_le_commit h t : heap_le h (commit h t).1.
Proof.
  unfold commit. destruct (tokens h !! t) as [k|] eqn:Hk; [|done].
  destruct (tstate k) eqn:Hs; cbn; try done.
  eapply heap_le_set_tok; [done..|]. by rewrite Hs.
Qed.

Lemma heap_le_take h t : heap_le h (take h t).1.
Proof.
  unfold take. destruct (tokens h !! t) as [k|] eqn:Hk; [|done].
  destruct (tstate k) eqn:Hs; cbn; try done. by eapply heap_le_set_tok.
Qed.

Lemma heap_le_abandon h t : heap_le h (abandon h t).
Proof.
  unfold abandon. destruct (tokens h !! t) as [k|] eqn:Hk; [|done].
  case_match; [|done]. by eapply heap_le_set_tok.
Qed.

Lemma token_new_fresh h tsk c : tokens h !! (token_new h tsk c).2 = None.
Proof. unfold token_new; cbn. apply not_elem_of_dom, is_fresh. Qed.

Lemma heap_le_token_new h tsk c : heap_le h (token_new h tsk c).1.
Proof.
  intros t [k Hk]. pose proof (token_new_fresh h tsk c) as Hf. unfold token_new in *. cbn in *.
  assert (Hne : fresh (dom (tokens h)) ≠ t) by (intros Heq; rewrite Heq in Hf; congruence).
  rewrite lookup_insert_ne by done. split; [eauto|].
  unfold claim; cbn. by rewrite lookup_insert_ne.
Qed.

End token_ops.
#[export] Hint Resolve fire_moves expire_moves moves_refl moves_trans moves_heap_le
  heap_le_set_flag heap_le_commit heap_le_take heap_le_abandon heap_le_token_new : silt.

Section token_new.
Context {V E : Type}.
Implicit Types (h : Heap V E) (t : TokId).

Lemma token_new_evolves h tsk c : evolves h [] (token_new h tsk c).1.
Proof.
  pose proof (token_new_fresh h tsk c) as Hf. unfold token_new in *. cbn in *.
  set (t0 := fresh (dom (tokens h))) in *.
  assert (Hlk : ∀ t k, tokens h !! t = Some k →
    <[t0 := mkToken tsk c None TArmed]> (tokens h) !! t = Some k).
  { intros t k Hk. rewrite lookup_insert_ne; [done|]. intros ->. congruence. }
  split; [done| | |].
  - intros t k Hk. exists k. split; [by apply Hlk|constructor].
  - intros t Hn (k & Hk & Hs). cbn in Hk. rewrite lookup_insert in Hk.
    case_decide; simplify_eq; congruence.
  - exists []. split; [constructor|]. split; [done|]. intros t. split; [set_solver|].
    intros [(k & Hk & Hs) Hw]. unfold is_waiting in Hw. cbn in Hw.
    rewrite (Hlk _ _ Hk), Hs in Hw. done.
Qed.

Lemma token_new_lookup h tsk c :
  tokens (token_new h tsk c).1 !! (token_new h tsk c).2 = Some (mkToken tsk c None TArmed).
Proof. unfold token_new. cbn. by rewrite lookup_insert_eq. Qed.

Lemma evolves_nil_l h ws1 h1 ws2 h2 :
  evolves h ws1 h1 → evolves h1 ws2 h2 → ws1 = [] → evolves h ws2 h2.
Proof. intros H1 H2 ->. by apply (evolves_trans _ _ _ _ _ H1 H2). Qed.
End token_new.

Section evolves_perm.
Context {V E : Type}.

(** In which order the wakes are sent does not matter. *)
Lemma evolves_perm (h h' : Heap V E) ws ws' :
  evolves h ws h' → ws ≡ₚ ws' → evolves h ws' h'.
Proof.
  intros [H1 H2 H3 (ts & Hnd & -> & Hin)] Hp. split; [done..|].
  symmetry in Hp. apply Permutation_map_inv in Hp as (ts' & -> & Hp).
  exists ts'. split; [by rewrite <-Hp|]. split; [done|]. intros t. by rewrite <-Hp.
Qed.
End evolves_perm.
