(* ===== verification/Channel.v ===== *)
(** * A channel (src/runtime/sync/channel.rs)

    A buffer, a queue of parked receivers, a queue of parked senders and
    a queue of feeders that wait to be asked, behind one lock.  An
    operation under the lock is one function: it takes the heap of the
    tokens, the channel's state and the wakes collected so far, and
    gives them back with its result. *)

From S2P Require Import Prelude Token.

(** A token on one queue: the arm of its wait, and the value to send. *)
Record Waiter (V : Type) := mkWaiter {
  w_token : TokId;
  w_arm : nat;
  w_payload : option V;
}.
Arguments mkWaiter {V} _ _ _.
Arguments w_token {V} _.
Arguments w_arm {V} _.
Arguments w_payload {V} _.

Inductive TrySend (V E : Type) :=
  | SendSent
  | SendFull (v : V)
  | SendClosed (c : Close E).
Arguments SendSent {V E}.
Arguments SendFull {V E} _.
Arguments SendClosed {V E} _.

Inductive TryReceive (V E : Type) :=
  | RecvValue (v : V)
  | RecvEmpty
  | RecvClosed (c : Close E).
Arguments RecvValue {V E} _.
Arguments RecvEmpty {V E}.
Arguments RecvClosed {V E} _.

(** What the lock of a channel protects. *)
Record State (V E : Type) := mkState {
  capacity : nat;
  buf : list V;
  closed : option (Close E);
  recvq : list (Waiter V);
  sendq : list (Waiter V);
  demandq : list (Waiter V);
  asked : bool;
  draining : bool;
  ahead : nat;
  stale : nat;
}.
Arguments mkState {V E} _ _ _ _ _ _ _ _ _ _.
Arguments capacity {V E} _.
Arguments buf {V E} _.
Arguments closed {V E} _.
Arguments recvq {V E} _.
Arguments sendq {V E} _.
Arguments demandq {V E} _.
Arguments asked {V E} _.
Arguments draining {V E} _.
Arguments ahead {V E} _.
Arguments stale {V E} _.

(** A channel: its lock's state and what is outside the lock.  The
    closures it was given (what stops, what drains its feeder) are the
    stream stage's; here they are their names. *)
Record Channel (V E : Type) := mkChannel {
  on_abandon : option nat;
  on_drain : option nat;
  closes_by_timer : bool;
  chan_state : State V E;
}.
Arguments mkChannel {V E} _ _ _ _.
Arguments on_abandon {V E} _.
Arguments on_drain {V E} _.
Arguments closes_by_timer {V E} _.
Arguments chan_state {V E} _.

Section channel.
Context {V E : Type}.
Implicit Types (h : Heap V E) (s : State V E) (w : Wakes) (q : list (Waiter V)).

Definition with_buf s b : State V E :=
  mkState (capacity s) b (closed s) (recvq s) (sendq s) (demandq s) (asked s) (draining s) (ahead s) (stale s).
Definition with_recvq s q : State V E :=
  mkState (capacity s) (buf s) (closed s) q (sendq s) (demandq s) (asked s) (draining s) (ahead s) (stale s).
Definition with_sendq s q : State V E :=
  mkState (capacity s) (buf s) (closed s) (recvq s) q (demandq s) (asked s) (draining s) (ahead s) (stale s).
Definition with_demandq s q : State V E :=
  mkState (capacity s) (buf s) (closed s) (recvq s) (sendq s) q (asked s) (draining s) (ahead s) (stale s).
Definition with_asked s (b : bool) : State V E :=
  mkState (capacity s) (buf s) (closed s) (recvq s) (sendq s) (demandq s) b (draining s) (ahead s) (stale s).
Definition with_closed s c : State V E :=
  mkState (capacity s) (buf s) c (recvq s) (sendq s) (demandq s) (asked s) (draining s) (ahead s) (stale s).
Definition with_draining s (b : bool) : State V E :=
  mkState (capacity s) (buf s) (closed s) (recvq s) (sendq s) (demandq s) (asked s) b (ahead s) (stale s).
Definition with_stale s n : State V E :=
  mkState (capacity s) (buf s) (closed s) (recvq s) (sendq s) (demandq s) (asked s) (draining s) (ahead s) n.

(** [Channel::fed]: the state of a new channel. *)
Definition fed (cap ahd : nat) : State V E :=
  mkState cap [] None [] [] [] false false ahd 0.

(** [Channel::new]. *)
Definition channel_new (cap : nat) : Channel V E :=
  mkChannel None None false (fed cap cap).

(** The loop [while let Some(x) = queue.pop_front()] up to the first
    waiter that can be claimed, and what is left of the queue then; the
    waiters before it are gone. *)
Fixpoint pop_claimable h q : option (Waiter V * list (Waiter V)) :=
  match q with
  | [] => None
  | x :: q' => if claim h (w_token x) then Some (x, q') else pop_claimable h q'
  end.

(** [State::send]. *)
Definition send h s (v : V) w : Heap V E * State V E * Wakes * TrySend V E :=
  match closed s with
  | Some c => (h, s, w, SendClosed c)
  | None =>
      match pop_claimable h (recvq s) with
      | Some (r, q) =>
          let '(h', w') := fire h (w_token r) (FArm (w_arm r) (OReceived v)) w in
          let asked' := match q with [] => false | _ => true end in
          (h', with_asked (with_recvq s q) asked', w', SendSent)
      | None =>
          let s1 := with_asked (with_recvq s []) false in
          if decide (length (buf s) < capacity s)
          then (h, with_buf s1 (buf s ++ [v]), w, SendSent)
          else (h, s1, w, SendFull v)
      end
  end.

(** [State::take_from_sender]. *)
Definition take_from_sender h s w : Heap V E * State V E * Wakes * option V :=
  match pop_claimable h (sendq s) with
  | Some (x, q) =>
      let '(h', w') := fire h (w_token x) (FArm (w_arm x) OSent) w in
      (h', with_sendq s q, w', w_payload x)
  | None => (h, with_sendq s [], w, None)
  end.

(** [State::demand]: what a feeder that waits to be asked finds. *)
Definition demand s : option (Outcome V E) :=
  match closed s with
  | Some c => Some (OClosed c)
  | None =>
      let room := if draining s then capacity s else ahead s in
      if asked s || bool_decide (length (buf s) < room) then Some OAsked else None
  end.

(** Claim and fire every waiter of a queue in order, each with [o]. *)
Fixpoint fire_all h q (o : Outcome V E) w : Heap V E * Wakes :=
  match q with
  | [] => (h, w)
  | x :: q' =>
      if claim h (w_token x)
      then let '(h', w') := fire h (w_token x) (FArm (w_arm x) o) w in fire_all h' q' o w'
      else fire_all h q' o w
  end.

(** [State::wake_feeders]. *)
Definition wake_feeders h s w : Heap V E * State V E * Wakes :=
  let '(h', w') := fire_all h (demandq s) OAsked w in (h', with_demandq s [], w').

(** [State::receive]. *)
Definition receive h s w : Heap V E * State V E * Wakes * TryReceive V E :=
  match buf s with
  | v :: b =>
      let '(h1, s1, w1, moved) := take_from_sender h (with_buf s b) w in
      match moved with
      | Some v' => (h1, with_buf s1 (buf s1 ++ [v']), w1, RecvValue v)
      | None =>
          match demand s1 with
          | Some _ => let '(h2, s2, w2) := wake_feeders h1 s1 w1 in (h2, s2, w2, RecvValue v)
          | None => (h1, s1, w1, RecvValue v)
          end
      end
  | [] =>
      let '(h1, s1, w1, taken) := take_from_sender h s w in
      match taken with
      | Some v => (h1, s1, w1, RecvValue v)
      | None =>
          match closed s1 with
          | Some c => (h1, s1, w1, RecvClosed c)
          | None =>
              let '(h2, s2, w2) := wake_feeders h1 (with_asked s1 true) w1 in
              (h2, s2, w2, RecvEmpty)
          end
      end
  end.

(** [State::close]: senders, receivers and feeders are told in that
    order; the buffer stays. *)
Definition close h s (c : Close E) w : Heap V E * State V E * Wakes * bool :=
  match closed s with
  | Some _ => (h, s, w, false)
  | None =>
      let '(h', w') := fire_all h (sendq s ++ recvq s ++ demandq s) (OClosed c) w in
      (h', with_closed (with_demandq (with_recvq (with_sendq s []) []) []) (Some c), w', true)
  end.

(** [Channel::try_send], [Channel::try_receive] and [Channel::close]:
    one operation under the lock, its wakes sent after. *)
Definition try_send h s (v : V) : Heap V E * State V E * list TaskId * TrySend V E :=
  let '(h', s', w, r) := send h s v no_wakes in (h', s', wakes_send w, r).

Definition try_receive h s : Heap V E * State V E * list TaskId * TryReceive V E :=
  let '(h', s', w, r) := receive h s no_wakes in (h', s', wakes_send w, r).

Definition channel_close h s (c : Close E) : Heap V E * State V E * list TaskId * bool :=
  let '(h', s', w, r) := close h s c no_wakes in (h', s', wakes_send w, r).

(** [Channel::drain]: the first drain of a channel lets its feeders go on
    and drains what feeds it (the closure called, if any). *)
Definition drain h (c : Channel V E) : Heap V E * Channel V E * list TaskId * option nat :=
  let s := chan_state c in
  if draining s then (h, c, [], None)
  else
    let s1 := with_draining s true in
    let '(h', s', w) :=
      match demand s1 with
      | Some _ => wake_feeders h s1 no_wakes
      | None => (h, s1, no_wakes)
      end in
    (h', mkChannel (on_abandon c) (on_drain c) (closes_by_timer c) s', wakes_send w, on_drain c).

(** [Channel::abandon]: the output of a feeder is closed and the feeder
    told to stop (the closure called); another channel is left alone. *)
Definition abandon_channel h (c : Channel V E) : Heap V E * Channel V E * list TaskId * option nat :=
  match on_abandon c with
  | None => (h, c, [], None)
  | Some stop =>
      let '(h', s', ws, _) := channel_close h (chan_state c) (mkClose None None) in
      (h', mkChannel (on_abandon c) (on_drain c) (closes_by_timer c) s', ws, Some stop)
  end.

(** [Channel::set_closes_by_timer], and the two closures that are set
    once, when the channel is made: a second is dropped. *)
Definition set_closes_by_timer (c : Channel V E) : Channel V E :=
  mkChannel (on_abandon c) (on_drain c) true (chan_state c).

Definition stop_feeder_with (c : Channel V E) (stop : nat) : Channel V E :=
  mkChannel (Some (default stop (on_abandon c))) (on_drain c) (closes_by_timer c) (chan_state c).

Definition drain_feeder_with (c : Channel V E) (drn : nat) : Channel V E :=
  mkChannel (on_abandon c) (Some (default drn (on_drain c))) (closes_by_timer c) (chan_state c).

(** [Channel::is_closed], [is_draining], [len], [is_empty]. *)
Definition is_closed s : bool := match closed s with Some _ => true | None => false end.
Definition is_draining s : bool := draining s.
Definition chan_len s : nat := length (buf s).
Definition chan_is_empty s : bool := bool_decide (chan_len s = 0).

(** [Channel::is_asked], [Channel::waiting]. *)
Definition is_asked s : bool :=
  match demand s with Some OAsked => true | _ => false end.

Definition waiting h s : nat * nat :=
  let open q := length (filter (λ x, is_waiting h (w_token x) = true) q) in
  (open (recvq s), open (sendq s)).

(** Up to this many waiters, a queue is searched. *)
Definition SHORT : nat := 32.

Definition without q (t : TokId) : list (Waiter V) := filter (λ x, w_token x ≠ t) q.
Definition still_waiting h q : list (Waiter V) := filter (λ x, is_waiting h (w_token x) = true) q.

(** [Channel::forget]: the wait of [t] ended elsewhere; its waiters here
    are taken off short queues at once, and swept out of long ones once
    half of what is queued is stale. *)
Definition forget h s (t : TokId) : State V E :=
  let queued := length (recvq s) + length (sendq s) + length (demandq s) in
  if decide (queued <= SHORT)
  then with_demandq (with_sendq (with_recvq s (without (recvq s) t)) (without (sendq s) t))
                    (without (demandq s) t)
  else
    let s1 := with_stale s (stale s + 1) in
    if decide (queued <= stale s1 * 2)
    then with_stale
           (with_demandq
              (with_sendq (with_recvq s1 (still_waiting h (recvq s1))) (still_waiting h (sendq s1)))
              (still_waiting h (demandq s1))) 0
    else s1.

(** [Close::raise]: the stage counts as read ([joined] collects the
    stages that were), and its failure is raised. *)
Definition raise (joined : gset nat) (c : Close E) : gset nat * option E :=
  (match stage c with Some st => {[st]} ∪ joined | None => joined end, failure c).

End channel.
#[global] Arguments without : simpl never.
#[global] Arguments still_waiting : simpl never.
