(* ===== verification/ChannelFacts.v ===== *)
(** * What the operations of a channel do

    The invariant of a channel relative to the heap of the tokens
    ([ch_ok]), that every operation keeps it and changes the heap only by
    ending waits ([moves]), and the abstract channel the queues with
    their stale waiters implement ([AChan], [abs]). *)

From S2P Require Import Prelude Token Channel.

Section structure.
Context {V E : Type}.
Implicit Types (h : Heap V E) (s : State V E) (w : Wakes) (q : list (Waiter V)).

(** The waiters of a queue whose wait can still be ended here. *)
Definition live h q : list (Waiter V) := filter (λ x, claim h (w_token x) = true) q.

Definition queued_in h q : Prop := Forall (λ x, is_Some (tokens h !! w_token x)) q.

Lemma pop_claimable_Some h q x q' :
  pop_claimable h q = Some (x, q') →
  claim h (w_token x) = true ∧
  ∃ pre, q = pre ++ x :: q' ∧ Forall (λ y, claim h (w_token y) = false) pre.
Proof.
  induction q as [|y q IH]; cbn; [done|]. destruct (claim h (w_token y)) eqn:Hc.
  - intros [= -> ->]. split; [done|]. by exists [].
  - intros (Hx & pre & -> & Hpre)%IH. split; [done|]. exists (y :: pre). auto.
Qed.

Lemma pop_claimable_None h q :
  pop_claimable h q = None → Forall (λ y, claim h (w_token y) = false) q.
Proof. induction q as [|y q IH]; cbn; [done|]. case_match; [done|]. auto. Qed.

Lemma live_nil h q : Forall (λ y, claim h (w_token y) = false) q → live h q = [].
Proof.
  induction 1 as [|y q Hy _ IH]; [done|]. unfold live in *.
  by rewrite filter_cons_False by congruence.
Qed.

Lemma live_app h q1 q2 : live h (q1 ++ q2) = live h q1 ++ live h q2.
Proof. apply filter_app. Qed.

Lemma elem_of_live h q x : x ∈ live h q ↔ claim h (w_token x) = true ∧ x ∈ q.
Proof. unfold live. by rewrite list_elem_of_filter. Qed.

Lemma pop_claimable_live h q :
  match pop_claimable h q with
  | Some (x, q') => live h q = x :: live h q' ∧ claim h (w_token x) = true
  | None => live h q = []
  end.
Proof.
  destruct (pop_claimable h q) as [[x q']|] eqn:Hp.
  - apply pop_claimable_Some in Hp as (Hx & pre & -> & Hpre). split; [|done].
    rewrite live_app, (live_nil _ pre Hpre). unfold live. by rewrite filter_cons_True.
  - by apply live_nil, pop_claimable_None.
Qed.

(** After [t] was fired, exactly its own waiters are no longer live. *)
Lemma live_fire h q t f w :
  live (fire h t f w).1 q = filter (λ x, w_token x ≠ t) (live h q).
Proof.
  unfold live. rewrite list_filter_filter. apply list_filter_iff. intros x.
  rewrite claim_fire. case_decide; naive_solver.
Qed.

Lemma fire_all_moves h q o w : moves (h, w) (fire_all h q o w).
Proof.
  revert h w. induction q as [|x q IH]; intros h w; cbn; [reflexivity|].
  destruct (claim h (w_token x)) eqn:Hc; [|done].
  pose proof (fire_moves h (w_token x) (FArm (w_arm x) o) w Hc) as Hf.
  destruct (fire h _ _ w) as [h' w']. etrans; [exact Hf|apply IH].
Qed.

(** Who is not open stays so, and nobody of a queue that was fired is
    open after. *)
Lemma fire_all_claim_false h q (o : Outcome V E) w t :
  claim h t = false → claim (fire_all h q o w).1 t = false.
Proof.
  revert h w. induction q as [|y q IH]; intros h w Hx; cbn; [done|].
  destruct (claim h (w_token y)); [|by apply IH].
  pose proof (claim_fire h (w_token y) (FArm (w_arm y) o) w t) as Hc.
  destruct (fire h _ _ w) as [h1 w1]. apply IH. cbn in *. rewrite Hc. by case_decide.
Qed.

Lemma fire_all_claim h q (o : Outcome V E) w x :
  x ∈ q → claim (fire_all h q o w).1 (w_token x) = false.
Proof.
  revert h w. induction q as [|y q IH]; intros h w Hx; [set_solver|]. cbn.
  destruct (claim h (w_token y)) eqn:Hy.
  - pose proof (claim_fire h (w_token y) (FArm (w_arm y) o) w (w_token x)) as Hc.
    destruct (fire h _ _ w) as [h1 w1]. cbn in *.
    apply list_elem_of_In in Hx as [<-|Hx%list_elem_of_In]; [|by apply IH].
    apply fire_all_claim_false. rewrite Hc. by rewrite decide_True.
  - apply list_elem_of_In in Hx as [<-|Hx%list_elem_of_In]; [|by apply IH].
    by apply fire_all_claim_false.
Qed.

Lemma send_moves h s v w h' s' w' r :
  send h s v w = (h', s', w', r) → moves (h, w) (h', w').
Proof.
  unfold send. destruct (closed s); [intros [= <- <- <- <-]; reflexivity|].
  destruct (pop_claimable h (recvq s)) as [[x q]|] eqn:Hp.
  - apply pop_claimable_Some in Hp as [Hc _].
    pose proof (fire_moves h (w_token x) (FArm (w_arm x) (OReceived v)) w Hc) as Hf.
    destruct (fire h _ _ w) as [h1 w1]. by intros [= <- <- <- <-].
  - case_decide; intros [= <- <- <- <-]; reflexivity.
Qed.

Lemma take_from_sender_moves h s w h' s' w' r :
  take_from_sender h s w = (h', s', w', r) → moves (h, w) (h', w').
Proof.
  unfold take_from_sender. destruct (pop_claimable h (sendq s)) as [[x q]|] eqn:Hp.
  - apply pop_claimable_Some in Hp as [Hc _].
    pose proof (fire_moves h (w_token x) (FArm (w_arm x) OSent) w Hc) as Hf.
    destruct (fire h _ _ w) as [h1 w1]. by intros [= <- <- <- <-].
  - intros [= <- <- <- <-]; reflexivity.
Qed.

Lemma wake_feeders_moves h s w h' s' w' :
  wake_feeders h s w = (h', s', w') → moves (h, w) (h', w').
Proof.
  unfold wake_feeders. pose proof (fire_all_moves h (demandq s) OAsked w) as Hf.
  destruct (fire_all _ _ _ _). by intros [= <- <- <-].
Qed.

Lemma receive_moves h s w h' s' w' r :
  receive h s w = (h', s', w', r) → moves (h, w) (h', w').
Proof.
  unfold receive. destruct (buf s) as [|v b] eqn:Hb;
    destruct (take_from_sender _ _ _) as [[[h1 s1] w1] o] eqn:Ht;
    apply take_from_sender_moves in Ht.
  - destruct o; [by intros [= <- <- <- <-]|].
    destruct (closed s1); [by intros [= <- <- <- <-]|].
    destruct (wake_feeders _ _ _) as [[h2 s2] w2] eqn:Hw. apply wake_feeders_moves in Hw.
    intros [= <- <- <- <-]. by etrans.
  - destruct o; [by intros [= <- <- <- <-]|].
    destruct (demand s1); [|by intros [= <- <- <- <-]].
    destruct (wake_feeders _ _ _) as [[h2 s2] w2] eqn:Hw. apply wake_feeders_moves in Hw.
    intros [= <- <- <- <-]. by etrans.
Qed.

Lemma close_moves h s c w h' s' w' r :
  close h s c w = (h', s', w', r) → moves (h, w) (h', w').
Proof.
  unfold close. destruct (closed s); [intros [= <- <- <- <-]; reflexivity|].
  pose proof (fire_all_moves h (sendq s ++ recvq s ++ demandq s) (OClosed c) w) as Hf.
  destruct (fire_all _ _ _ _). by intros [= <- <- <- <-].
Qed.

End structure.

#[global] Arguments live : simpl never.

(** ** The invariant of a channel *)
Section invariant.
Context {V E : Type}.
Implicit Types (h : Heap V E) (s : State V E) (w : Wakes) (q : list (Waiter V)).

(** The buffer is within the capacity; parked senders have their values;
    an open receiver waits only on an open channel with an empty buffer,
    an open sender only on an open channel with a full one, a feeder only
    on an open one; and when both a receiver and a sender are open they
    are two arms of one wait. *)
Record ch_ok h s : Prop := mkChOk {
  ok_buf : length (buf s) <= capacity s;
  ok_payload : Forall (λ x, is_Some (w_payload x)) (sendq s);
  ok_in_recvq : queued_in h (recvq s);
  ok_in_sendq : queued_in h (sendq s);
  ok_in_demandq : queued_in h (demandq s);
  ok_recv r : r ∈ live h (recvq s) → buf s = [] ∧ closed s = None;
  ok_send x : x ∈ live h (sendq s) → length (buf s) = capacity s ∧ closed s = None;
  ok_feed d : d ∈ live h (demandq s) → closed s = None;
  ok_pair r x : r ∈ live h (recvq s) → x ∈ live h (sendq s) → w_token r = w_token x;
}.

Lemma queued_in_subseteq h h' q q' :
  heap_le h h' → queued_in h q → q' ⊆ q → queued_in h' q'.
Proof.
  intros Hle Hq Hsub. apply Forall_forall. intros x Hx%Hsub.
  pose proof (proj1 (Forall_forall _ _) Hq x Hx) as Hd. apply (Hle _ Hd).
Qed.

Lemma live_subseteq h h' q q' :
  heap_le h h' → queued_in h q → q' ⊆ q → live h' q' ⊆ live h q.
Proof.
  intros Hle Hq Hsub x. rewrite !elem_of_live. intros [Hc Hx%Hsub].
  pose proof (proj1 (Forall_forall _ _) Hq x Hx) as Hd.
  split; [|done]. by apply (Hle _ Hd).
Qed.

(** The one way the invariant is kept: the queues only lose waiters, the
    heap only ends waits, and the buffer keeps its length while somebody
    waits on it. *)
Lemma ch_ok_weaken h h' s s' :
  ch_ok h s → heap_le h h' →
  capacity s' = capacity s → closed s' = closed s → length (buf s') <= capacity s →
  recvq s' ⊆ recvq s → sendq s' ⊆ sendq s → demandq s' ⊆ demandq s →
  (∀ x, x ∈ live h' (recvq s') ∨ x ∈ live h' (sendq s') → length (buf s') = length (buf s)) →
  ch_ok h' s'.
Proof.
  intros Hok Hle Hcap Hcl Hlen Hr Hs Hd Hbuf.
  pose proof (live_subseteq _ _ _ _ Hle (ok_in_recvq _ _ Hok) Hr) as Hlr.
  pose proof (live_subseteq _ _ _ _ Hle (ok_in_sendq _ _ Hok) Hs) as Hls.
  pose proof (live_subseteq _ _ _ _ Hle (ok_in_demandq _ _ Hok) Hd) as Hld.
  split.
  - lia.
  - apply Forall_forall. intros x Hx%Hs. revert x Hx. apply Forall_forall, (ok_payload _ _ Hok).
  - eapply queued_in_subseteq; eauto using ok_in_recvq.
  - eapply queued_in_subseteq; eauto using ok_in_sendq.
  - eapply queued_in_subseteq; eauto using ok_in_demandq.
  - intros r Hin. destruct (ok_recv _ _ Hok r (Hlr _ Hin)) as [Hb Hc].
    split; [|congruence]. apply nil_length_inv. rewrite (Hbuf r), Hb; [done|by left].
  - intros x Hin. destruct (ok_send _ _ Hok x (Hls _ Hin)) as [Hb Hc].
    split; [|congruence]. rewrite (Hbuf x), Hcap; [done|by right].
  - intros d Hin. rewrite Hcl. eapply ok_feed; eauto.
  - intros r x H1 H2. eapply ok_pair; eauto.
Qed.

Lemma ch_ok_heap_le h h' s : heap_le h h' → ch_ok h s → ch_ok h' s.
Proof. intros Hle Hok. eapply ch_ok_weaken; eauto using ok_buf. Qed.

Lemma ch_ok_fed h cap ahd : ch_ok h (fed cap ahd).
Proof. split; cbn; try constructor; try lia; intros *; unfold live; set_solver. Qed.

Lemma pop_claimable_subseteq h q x q' :
  pop_claimable h q = Some (x, q') → q' ⊆ q.
Proof. intros (_ & pre & -> & _)%pop_claimable_Some. set_solver. Qed.

Lemma live_elem_of_nil h q x : Forall (λ y, claim h (w_token y) = false) q → x ∈ live h q → False.
Proof. intros Hf. rewrite (live_nil _ _ Hf). set_solver. Qed.

(** On a channel with room no sender is open; on one with a value no
    receiver is. *)
Lemma ch_ok_room_no_sender h s x :
  ch_ok h s → length (buf s) < capacity s → x ∈ live h (sendq s) → False.
Proof. intros Hok Hlt Hx. apply (ok_send _ _ Hok) in Hx. lia. Qed.

Lemma ch_ok_value_no_receiver h s r :
  ch_ok h s → buf s ≠ [] → r ∈ live h (recvq s) → False.
Proof. intros Hok Hne Hr. apply (ok_recv _ _ Hok) in Hr. naive_solver. Qed.

Lemma send_ok h s v w h' s' w' r :
  ch_ok h s → send h s v w = (h', s', w', r) → ch_ok h' s'.
Proof.
  intros Hok Hsend. pose proof (moves_heap_le _ _ _ _ (send_moves _ _ _ _ _ _ _ _ Hsend)) as Hle.
  pose proof (ok_buf _ _ Hok) as Hb. unfold send in Hsend.
  destruct (closed s); [by simplify_eq|].
  destruct (pop_claimable h (recvq s)) as [[x q]|] eqn:Hp.
  - apply pop_claimable_subseteq in Hp. destruct (fire h _ _ w) as [h1 w1]. simplify_eq.
    by eapply ch_ok_weaken.
  - case_decide as Hlt; simplify_eq; eapply ch_ok_weaken; try done; cbn; try set_solver.
    + rewrite length_app; cbn. lia.
    + intros x [Hx|Hx]; [unfold live in Hx; set_solver|].
      by destruct (ch_ok_room_no_sender _ _ _ Hok Hlt Hx).
Qed.

Lemma take_from_sender_fields h s w h' s' w' o :
  take_from_sender h s w = (h', s', w', o) →
  s' = with_sendq s (sendq s') ∧ sendq s' ⊆ sendq s ∧
  (Forall (λ x, is_Some (w_payload x)) (sendq s) →
   match o with Some _ => ∃ x, x ∈ live h (sendq s) | None => live h (sendq s) = [] ∧ sendq s' = [] end).
Proof.
  unfold take_from_sender. pose proof (pop_claimable_live h (sendq s)) as Hlive.
  destruct (pop_claimable h (sendq s)) as [[x q]|] eqn:Hp.
  - apply pop_claimable_Some in Hp as (Hc & pre & Heq & _).
    destruct (fire h _ _ w) as [h1 w1]. intros [= <- <- <- <-]. cbn.
    split; [done|]. split; [rewrite Heq; set_solver|].
    rewrite Heq, Forall_app, Forall_cons. intros (_ & [y ->] & _).
    exists x. rewrite elem_of_live. set_solver.
  - intros [= <- <- <- <-]. cbn. split; [done|]. split; [set_solver|]. done.
Qed.

Lemma wake_feeders_fields h s w h' s' w' :
  wake_feeders h s w = (h', s', w') → s' = with_demandq s [].
Proof. unfold wake_feeders. destruct (fire_all _ _ _ _). by intros [= <- <- <-]. Qed.

Lemma receive_ok h s w h' s' w' r :
  ch_ok h s → receive h s w = (h', s', w', r) → ch_ok h' s'.
Proof.
  intros Hok Hrecv. pose proof (moves_heap_le _ _ _ _ (receive_moves _ _ _ _ _ _ _ Hrecv)) as Hle.
  pose proof (ok_buf _ _ Hok) as Hb. unfold receive in Hrecv.
  destruct (buf s) as [|v b] eqn:Hbuf;
    destruct (take_from_sender _ _ _) as [[[h1 s1] w1] o] eqn:Ht;
    apply take_from_sender_fields in Ht as (Hs1 & Hsub & Ho);
    specialize (Ho (ok_payload _ _ Hok)); cbn in *.
  - destruct o as [v|].
    { simplify_eq. rewrite Hs1. eapply ch_ok_weaken; try done; cbn; rewrite ?Hbuf; try done. }
    destruct (closed s1) eqn:Hcl.
    { simplify_eq. rewrite Hs1. eapply ch_ok_weaken; try done; cbn; rewrite ?Hbuf; try done. }
    destruct (wake_feeders _ _ _) as [[h2 s2] w2] eqn:Hw. apply wake_feeders_fields in Hw.
    simplify_eq. rewrite Hs1. eapply ch_ok_weaken; cbn; rewrite ?Hbuf; try done; set_solver.
  - assert (Hnor : ∀ x, x ∈ live h' (recvq s) → False).
    { intros x Hx. eapply (ch_ok_value_no_receiver h s x); [done|by rewrite Hbuf|].
      by apply (live_subseteq _ _ _ _ Hle (ok_in_recvq _ _ Hok) (reflexivity _)). }
    destruct o as [v'|].
    { simplify_eq. rewrite Hs1. eapply ch_ok_weaken; cbn; try done.
      - rewrite length_app; cbn. destruct Ho as [x Hx]. apply (ok_send _ _ Hok) in Hx.
        rewrite Hbuf in Hx. cbn in Hx. lia.
      - intros _ _. rewrite length_app, Hbuf; cbn. lia. }
    assert (Hnos : ∀ x, x ∈ live h' (sendq s1) → False).
    { intros x. destruct Ho as [_ ->]. unfold live. set_solver. }
    destruct (demand s1).
    { destruct (wake_feeders _ _ _) as [[h2 s2] w2] eqn:Hw. apply wake_feeders_fields in Hw.
      simplify_eq. rewrite Hs1. eapply ch_ok_weaken; cbn; try done; try set_solver; lia. }
    simplify_eq. rewrite Hs1. eapply ch_ok_weaken; cbn; try done; try lia.
    intros x [Hx|Hx]; naive_solver.
Qed.

Lemma close_ok h s c w h' s' w' r :
  ch_ok h s → close h s c w = (h', s', w', r) → ch_ok h' s'.
Proof.
  intros Hok. unfold close. destruct (closed s) eqn:Hcl; [by intros; simplify_eq|].
  destruct (fire_all _ _ _ _) as [h1 w1]. intros [= <- <- <- <-].
  split; cbn; try constructor; try apply (ok_buf _ _ Hok); intros *; unfold live; set_solver.
Qed.

Lemma forget_fields h s t :
  capacity (forget h s t) = capacity s ∧ closed (forget h s t) = closed s ∧
  buf (forget h s t) = buf s ∧ recvq (forget h s t) ⊆ recvq s ∧
  sendq (forget h s t) ⊆ sendq s ∧ demandq (forget h s t) ⊆ demandq s.
Proof.
  unfold forget, without, still_waiting. repeat case_decide; cbn;
    repeat split; try set_solver; intros x; rewrite list_elem_of_filter; tauto.
Qed.

Lemma forget_ok h s t : ch_ok h s → ch_ok h (forget h s t).
Proof.
  intros Hok. destruct (forget_fields h s t) as (H1 & H2 & H3 & H4 & H5 & H6).
  eapply ch_ok_weaken; try done; rewrite ?H3; [apply (ok_buf _ _ Hok)|done].
Qed.

End invariant.
#[export] Hint Resolve ch_ok_fed : silt.

(** ** Looks that find nothing *)
Section idle.
Context {V E : Type}.
Implicit Types (h : Heap V E) (s : State V E) (w : Wakes).

(** The channel is as it was but for waiters that left its queues. *)
Record same_but_queues s s' : Prop := mkSameButQueues {
  sbq_capacity : capacity s' = capacity s;
  sbq_buf : buf s' = buf s;
  sbq_closed : closed s' = closed s;
  sbq_recvq : recvq s' ⊆ recvq s;
  sbq_sendq : sendq s' ⊆ sendq s;
  sbq_demandq : demandq s' ⊆ demandq s;
}.

#[global] Instance same_but_queues_preorder : PreOrder same_but_queues.
Proof.
  split.
  - intros s. by split.
  - intros s1 s2 s3 [] []. split; try congruence; by etrans.
Qed.

(** A receive that finds nothing: the channel is open, its buffer empty,
    and no sender is open. *)
Lemma receive_empty h s w h' s' w' :
  Forall (λ x, is_Some (w_payload x)) (sendq s) →
  receive h s w = (h', s', w', RecvEmpty) →
  buf s = [] ∧ closed s = None ∧ sendq s' = [] ∧ live h (sendq s) = [] ∧
  recvq s' = recvq s ∧ demandq s' = [] ∧ asked s' = true ∧ same_but_queues s s'.
Proof.
  intros Hpay. unfold receive.
  destruct (buf s) as [|v b] eqn:Hb;
    destruct (take_from_sender _ _ _) as [[[h1 s1] w1] o] eqn:Ht;
    apply take_from_sender_fields in Ht as (Hs1 & Hsub & Ho); specialize (Ho Hpay); cbn in *.
  - destruct o; [by intros [= ]|]. destruct Ho as [Hl Hq].
    destruct (closed s1) eqn:Hcl; [by intros [= ]|].
    destruct (wake_feeders _ _ _) as [[h2 s2] w2] eqn:Hw. apply wake_feeders_fields in Hw.
    intros [= <- <- <-]. subst s2. rewrite Hs1 in Hcl |- *. cbn in *.
    repeat split; cbn; try done; set_solver.
  - destruct o; [by intros [= ]|]. destruct (demand s1); [|by intros [= ]].
    by destruct (wake_feeders _ _ _) as [[h2 s2] w2].
Qed.

(** A send that finds no room: the channel is open, its buffer full, and
    no receiver is open; no wait was ended. *)
Lemma send_full h s v w h' s' w' v' :
  send h s v w = (h', s', w', SendFull v') →
  h' = h ∧ w' = w ∧ v' = v ∧ capacity s <= length (buf s) ∧ closed s = None ∧
  live h (recvq s) = [] ∧ recvq s' = [] ∧ sendq s' = sendq s ∧ same_but_queues s s'.
Proof.
  unfold send. destruct (closed s) eqn:Hcl; [done|].
  pose proof (pop_claimable_live h (recvq s)) as Hlive.
  destruct (pop_claimable h (recvq s)) as [[x q]|]; [by destruct (fire h _ _ w)|].
  case_decide; [done|]. intros [= <- <- <- <-]. repeat split; try done; [lia|set_solver].
Qed.

End idle.
