(* ===== verification/ChannelSpec.v ===== *)
(** * The abstract channel, and that the channel implements it

    [AChan] is a channel without tokens, locks and stale waiters: a
    bounded buffer, the receivers that wait ([a_takers]) and the senders
    that wait with their values ([a_offers]), each oldest first.  [abs]
    reads it off a channel's state and the heap; each operation of the
    channel is the abstract one on what [abs] reads. *)

From S2P Require Import Prelude Token Channel ChannelFacts.

Record AChan (V E : Type) := mkAChan {
  a_cap : nat;
  a_buf : list V;
  a_closed : option (Close E);
  a_takers : list (TokId * nat);
  a_offers : list (TokId * nat * V);
}.
Arguments mkAChan {V E} _ _ _ _ _.
Arguments a_cap {V E} _.
Arguments a_buf {V E} _.
Arguments a_closed {V E} _.
Arguments a_takers {V E} _.
Arguments a_offers {V E} _.

Section spec.
Context {V E : Type}.
Implicit Types (h : Heap V E) (s : State V E) (a : AChan V E).

(** The wait that an operation completed: its token, arm and outcome. *)
Definition peer : Type := option (TokId * nat * Outcome V E).

(** The wait [t] is over: none of its arms takes or offers any more. *)
Definition a_withdraw a (t : TokId) : AChan V E :=
  mkAChan (a_cap a) (a_buf a) (a_closed a)
    (filter (λ x, x.1 ≠ t) (a_takers a)) (filter (λ x, x.1.1 ≠ t) (a_offers a)).

Definition a_with_buf a b : AChan V E :=
  mkAChan (a_cap a) b (a_closed a) (a_takers a) (a_offers a).

(** A send: to the oldest taker, into the buffer, or nowhere. *)
Definition a_send a (v : V) : AChan V E * TrySend V E * peer :=
  match a_closed a with
  | Some c => (a, SendClosed c, None)
  | None =>
      match a_takers a with
      | (t, arm) :: _ => (a_withdraw a t, SendSent, Some (t, arm, OReceived v))
      | [] =>
          if decide (length (a_buf a) < a_cap a)
          then (a_with_buf a (a_buf a ++ [v]), SendSent, None)
          else (a, SendFull v, None)
      end
  end.

(** A receive: the oldest value, from the buffer (whose free place the
    oldest offer takes) or from the oldest offer. *)
Definition a_receive a : AChan V E * TryReceive V E * peer :=
  match a_buf a, a_offers a with
  | v :: b, (t, arm, v') :: _ =>
      (a_withdraw (a_with_buf a (b ++ [v'])) t, RecvValue v, Some (t, arm, OSent))
  | v :: b, [] => (a_with_buf a b, RecvValue v, None)
  | [], (t, arm, v) :: _ => (a_withdraw a t, RecvValue v, Some (t, arm, OSent))
  | [], [] =>
      match a_closed a with
      | Some c => (a, RecvClosed c, None)
      | None => (a, RecvEmpty, None)
      end
  end.

(** A close: nobody takes or offers any more, the buffer stays. *)
Definition a_close a (c : Close E) : AChan V E * bool :=
  match a_closed a with
  | Some _ => (a, false)
  | None => (mkAChan (a_cap a) (a_buf a) (Some c) [] [], true)
  end.

(** The abstract channel of a state. *)
Definition taker_of (x : Waiter V) : TokId * nat := (w_token x, w_arm x).
Definition offer_of (x : Waiter V) : option (TokId * nat * V) :=
  v ← w_payload x; Some (w_token x, w_arm x, v).

Definition abs h s : AChan V E :=
  mkAChan (capacity s) (buf s) (closed s)
    (taker_of <$> live h (recvq s)) (omap offer_of (live h (sendq s))).

(** The wait [p] names was ended with its outcome, no other token was
    touched except those of [also]. *)
Definition completed h h' (p : peer) (also : list TokId) : Prop :=
  (∀ t arm o, p = Some (t, arm, o) →
     claim h t = true ∧
     ∃ k, tokens h !! t = Some k ∧
          tokens h' !! t = Some (mkToken (task k) (cancel_flag k) (Some arm) (TFired (FArm arm o)))) ∧
  (∀ t, t ∉ also → (∀ arm o, p ≠ Some (t, arm, o)) → tokens h' !! t = tokens h !! t).

Lemma taker_of_filter t (q : list (Waiter V)) :
  taker_of <$> filter (λ x, w_token x ≠ t) q = filter (λ x, x.1 ≠ t) (taker_of <$> q).
Proof.
  induction q as [|x q IH]; [done|]. rewrite fmap_cons, !filter_cons. cbn.
  by case_decide; rewrite ?fmap_cons, IH.
Qed.

Lemma offer_of_filter t (q : list (Waiter V)) :
  omap offer_of (filter (λ x, w_token x ≠ t) q) = filter (λ x, x.1.1 ≠ t) (omap offer_of q).
Proof.
  induction q as [|x q IH]; [done|]. rewrite filter_cons.
  assert (Ho : ∀ p, offer_of x = Some p → p.1.1 = w_token x).
  { unfold offer_of. intros p. destruct (w_payload x); naive_solver. }
  case_decide as Hd; cbn -[offer_of]; destruct (offer_of x) as [p|];
    rewrite ?filter_cons, ?(Ho p eq_refl), ?IH by done; by try case_decide.
Qed.

(** What [abs] reads after a token was fired. *)
Lemma abs_fire h s t f w :
  abs (fire h t f w).1 s = a_withdraw (abs h s) t.
Proof.
  unfold abs, a_withdraw. cbn. by rewrite !live_fire, taker_of_filter, offer_of_filter.
Qed.

Lemma live_fire_cons h x q f w :
  live (fire h (w_token x) f w).1 q =
  filter (λ y, w_token y ≠ w_token x) (x :: live h q).
Proof. rewrite live_fire, filter_cons_False; [done|]. naive_solver. Qed.

Lemma completed_fire h t arm o w :
  claim h t = true → completed h (fire h t (FArm arm o) w).1 (Some (t, arm, o)) [].
Proof.
  intros Hc. split.
  - intros t' arm' o' [= <- <- <-]. split; [done|]. destruct (claim_dom _ _ Hc) as [k Hk].
    exists k. split; [done|]. by rewrite (tokens_fire _ _ _ _ _ Hk).
  - intros t' _ Hne. apply tokens_fire_ne. naive_solver.
Qed.

Lemma completed_None h also : completed h h None also.
Proof. by split. Qed.

End spec.

Section refinement.
Context {V E : Type}.
Implicit Types (h : Heap V E) (s : State V E) (q : list (Waiter V)).

(** No wait both feeds the channel and receives from or sends to it. (A
    wait on [Arm::Demand] has that one arm.) *)
Definition separate s : Prop :=
  ∀ d x, d ∈ demandq s → x ∈ recvq s ++ sendq s → w_token d ≠ w_token x.

Lemma fire_all_flags h q o w : flags (fire_all h q o w).1 = flags h.
Proof.
  revert h w. induction q as [|x q IH]; intros h w; cbn; [done|].
  destruct (claim h (w_token x)); [|done].
  destruct (fire h _ _ w) as [h1 w1] eqn:Hf. rewrite IH.
  unfold fire in Hf. by destruct (tokens h !! _); simplify_eq.
Qed.

Lemma fire_all_tokens h q o w t :
  t ∉ w_token <$> q → tokens (fire_all h q o w).1 !! t = tokens h !! t.
Proof.
  revert h w. induction q as [|x q IH]; intros h w; [done|].
  rewrite fmap_cons, not_elem_of_cons. intros [Hne Hni]. cbn.
  destruct (claim h (w_token x)); [|by apply IH].
  pose proof (tokens_fire_ne h (w_token x) (FArm (w_arm x) o) w t) as Hf.
  destruct (fire h _ _ w) as [h1 w1]. rewrite IH by done. by apply Hf.
Qed.

Lemma claim_ext h h' t :
  flags h' = flags h → tokens h' !! t = tokens h !! t → claim h' t = claim h t.
Proof. intros Hf Ht. unfold claim, is_set. by rewrite Hf, Ht. Qed.

Lemma live_ext h h' q :
  (∀ x, x ∈ q → claim h' (w_token x) = claim h (w_token x)) → live h' q = live h q.
Proof.
  intros Hc. unfold live. induction q as [|x q IH]; [done|].
  rewrite !filter_cons, IH by set_solver. rewrite (Hc x) by set_solver. done.
Qed.

Lemma abs_wake_feeders h s w h' s' w' :
  separate s → wake_feeders h s w = (h', s', w') →
  abs h' s' = abs h s ∧
  ∀ t, t ∉ w_token <$> demandq s → tokens h' !! t = tokens h !! t.
Proof.
  intros Hsep. unfold wake_feeders.
  pose proof (fire_all_flags h (demandq s) OAsked w) as Hfl.
  pose proof (fire_all_tokens h (demandq s) OAsked w) as Htk.
  destruct (fire_all _ _ _ _) as [h1 w1]. intros [= <- <- <-]. cbn in *.
  split; [|done].
  assert (Hc : ∀ x, x ∈ recvq s ++ sendq s → claim h1 (w_token x) = claim h (w_token x)).
  { intros x Hx. apply claim_ext; [done|]. apply Htk.
    intros (d & Heq & Hd)%list_elem_of_fmap. by apply (Hsep d x). }
  unfold abs. cbn. by rewrite (live_ext h h1 (recvq s)), (live_ext h h1 (sendq s)) by set_solver.
Qed.

(** Every waiter of a queue that could be told was: its wait ended with [o],
    at an arm it has on that queue. *)
Definition told h h' q (o : Outcome V E) : Prop :=
  ∀ x, x ∈ live h q → ∃ y k, y ∈ q ∧ w_token y = w_token x ∧ tokens h !! w_token x = Some k ∧
    tokens h' !! w_token x = Some (mkToken (task k) (cancel_flag k) (Some (w_arm y)) (TFired (FArm (w_arm y) o))).

Lemma fire_all_ended h q (o : Outcome V E) w t : claim h t = false → tokens (fire_all h q o w).1 !! t = tokens h !! t.
Proof.
  revert h w. induction q as [|x q IH]; intros h w Hc; [done|]. cbn.
  destruct (claim h (w_token x)) eqn:Hx; [|by apply IH]. assert (w_token x ≠ t) as Hne by congruence.
  pose proof (tokens_fire_ne h (w_token x) (FArm (w_arm x) o) w t Hne) as Hf.
  pose proof (claim_fire h (w_token x) (FArm (w_arm x) o) w t) as Hc'. rewrite decide_False in Hc' by done.
  destruct (fire h _ _ w) as [h1 w1]. rewrite IH; [done|]. cbn in Hc'. by rewrite Hc'.
Qed.

Lemma fire_all_told h q (o : Outcome V E) w : told h (fire_all h q o w).1 q o.
Proof.
  revert h w. induction q as [|y q IH]; intros h w x [Hc Hx]%elem_of_live; [set_solver|]. cbn.
  destruct (decide (w_token y = w_token x)) as [He|Hne].
  - rewrite He, Hc. destruct (claim_dom _ _ Hc) as [k Hk]. exists y, k. split_and!; [by left|done|done|].
    pose proof (tokens_fire h (w_token x) (FArm (w_arm y) o) w k Hk) as Hf.
    pose proof (claim_fire h (w_token x) (FArm (w_arm y) o) w (w_token x)) as Hc'. rewrite decide_True in Hc' by done.
    destruct (fire h _ _ w) as [h1 w1]. cbn in Hf, Hc'. by rewrite fire_all_ended.
  - assert (x ∈ q) as Hq by (apply list_elem_of_In in Hx as [->|?%list_elem_of_In]; [done|done]).
    destruct (claim h (w_token y)).
    + pose proof (tokens_fire_ne h (w_token y) (FArm (w_arm y) o) w (w_token x) Hne) as Hf.
      pose proof (claim_fire h (w_token y) (FArm (w_arm y) o) w (w_token x)) as Hc'. rewrite decide_False in Hc' by done.
      destruct (fire h _ _ w) as [h1 w1]. destruct (IH h1 w1 x) as (z & k & ? & ? & Hk & Hk').
      { apply elem_of_live. cbn in Hc'. by rewrite Hc'. }
      exists z, k. cbn in Hf. split_and!; [by right|done|congruence|done].
    + destruct (IH h w x) as (z & k & ? & ? & ? & ?); [by apply elem_of_live|]. exists z, k. split_and!; [by right|done..].
Qed.

(** A receive asks when it finds nothing, and when it leaves the channel
    with less than may be made ahead; a parked sender that it serves has
    made enough. *)
Definition asks h s (s' : State V E) (r : TryReceive V E) : Prop :=
  match r with
  | RecvEmpty => True
  | RecvValue _ => live h (sendq s) = [] ∧ demand s' ≠ None
  | RecvClosed _ => False
  end.

(** A receive that asks tells every feeder that waits to be asked, and none
    of them waits on; one that does not asks nobody. *)
Lemma receive_tells h s w h' s' w' r :
  Forall (λ x, is_Some (w_payload x)) (sendq s) → separate s → receive h s w = (h', s', w', r) →
  (asks h s s' r → demandq s' = [] ∧ told h h' (demandq s) OAsked) ∧
  (¬ asks h s s' r → demandq s' = demandq s ∧ ∀ d, d ∈ demandq s → tokens h' !! w_token d = tokens h !! w_token d).
Proof.
  intros Hpay Hsep. unfold receive.
  assert (∀ s0 h1 s1 w1 o, sendq s0 = sendq s → demandq s0 = demandq s → take_from_sender h s0 w = (h1, s1, w1, o) →
    demandq s1 = demandq s ∧ match o with
    | Some _ => live h (sendq s) ≠ [] ∧ ∀ d, d ∈ demandq s → tokens h1 !! w_token d = tokens h !! w_token d
    | None => live h (sendq s) = [] ∧ h1 = h end) as Htake.
  { intros s0 h1 s1 w1 o Eq Ed. unfold take_from_sender. rewrite Eq. pose proof (pop_claimable_live h (sendq s)) as Hlive.
    destruct (pop_claimable h (sendq s)) as [[x q]|] eqn:Hp.
    - destruct Hlive as [Hlive _]. apply pop_claimable_Some in Hp as (_ & pre & Heq & _).
      assert (is_Some (w_payload x)) as [v Hv] by (rewrite Heq, Forall_app, Forall_cons in Hpay; tauto).
      pose proof (λ d, tokens_fire_ne h (w_token x) (FArm (w_arm x) OSent) w d) as Hf.
      destruct (fire h _ _ w) as [h2 w2]. intros [= <- <- <- <-]. rewrite Hv. split; [done|]. split; [by rewrite Hlive|].
      intros d Hd. apply Hf. intros E'. apply (Hsep d x Hd); [rewrite Heq; set_solver|done].
    - by intros [= <- <- <- <-]. }
  destruct (buf s) as [|v b]; destruct (take_from_sender _ _ _) as [[[h1 s1] w1] o] eqn:Ht; apply Htake in Ht as [Hd Ho]; try done.
  - destruct o as [v|].
    { intros [= <- <- <- <-]. cbn. split; [intros [? _]; tauto|]. intros _. split; [done|apply Ho]. }
    destruct Ho as [Hl ->]. destruct (closed s1).
    { intros [= <- <- <- <-]. cbn. split; [done|]. by intros _. }
    unfold wake_feeders. cbn [demandq with_asked]. rewrite Hd. pose proof (fire_all_told h (demandq s) OAsked w1) as Htold.
    destruct (fire_all _ _ _ _). intros [= <- <- <- <-]. cbn. split; [done|tauto].
  - destruct o as [v'|].
    { intros [= <- <- <- <-]. cbn. split; [intros [? _]; tauto|]. intros _. split; [done|apply Ho]. }
    destruct Ho as [Hl ->]. destruct (demand s1) eqn:Hdm.
    + unfold wake_feeders. rewrite Hd. pose proof (fire_all_told h (demandq s) OAsked w1) as Htold.
      destruct (fire_all _ _ _ _). intros [= <- <- <- <-]. split; [done|]. intros Hna. destruct Hna. split; [done|].
      change (demand s1 ≠ None). by rewrite Hdm.
    + intros [= <- <- <- <-]. split; [|done]. intros [_ Hx]. by rewrite Hdm in Hx.
Qed.

Lemma abs_no_receivers h s b :
  live h (recvq s) = [] → abs h (with_asked (with_recvq s []) b) = abs h s.
Proof. intros Hl. unfold abs. cbn. by rewrite Hl. Qed.

(** A send on a channel is the send of the abstract channel: the same
    result, the same channel after, and if a parked receiver took the
    value, it is the oldest that is open, its wait ended with that value
    and no other token was touched.  Waiters whose wait has ended are
    passed over whatever their number. *)
Lemma send_refines h s v w h' s' w' r :
  send h s v w = (h', s', w', r) →
  ∃ p, a_send (abs h s) v = (abs h' s', r, p) ∧ completed h h' p [].
Proof.
  unfold send, a_send. cbn [a_closed a_takers a_buf a_cap abs]. destruct (closed s) eqn:Hcl.
  { intros [= <- <- <- <-]. eauto using completed_None. }
  pose proof (pop_claimable_live h (recvq s)) as Hlive.
  destruct (pop_claimable h (recvq s)) as [[x q]|] eqn:Hp.
  - destruct Hlive as [Hlive Hc].
    pose proof (completed_fire h (w_token x) (w_arm x) (OReceived v) w Hc) as Hdone.
    pose proof (abs_fire h s (w_token x) (FArm (w_arm x) (OReceived v)) w) as Habs.
    pose proof (live_fire_cons h x q (FArm (w_arm x) (OReceived v)) w) as Hq.
    pose proof (live_fire h (recvq s) (w_token x) (FArm (w_arm x) (OReceived v)) w) as Hr.
    destruct (fire h _ _ w) as [h1 w1]. intros [= <- <- <- <-]. cbn in *.
    rewrite Hlive. cbn. eexists. split; [|done]. repeat f_equal.
    rewrite <-Habs. unfold abs. cbn. by rewrite Hq, Hr, Hlive.
  - rewrite Hlive. cbn. case_decide; intros [= <- <- <- <-]; eexists;
      (split; [|apply completed_None]); unfold abs; cbn; by rewrite Hlive.
Qed.

(** What [take_from_sender] takes is the oldest offer. *)
Lemma take_from_sender_refines h s w h' s' w' o :
  Forall (λ x, is_Some (w_payload x)) (sendq s) →
  take_from_sender h s w = (h', s', w', o) →
  match o with
  | Some v => ∃ t arm os, a_offers (abs h s) = (t, arm, v) :: os ∧
                abs h' s' = a_withdraw (abs h s) t ∧ completed h h' (Some (t, arm, OSent)) []
  | None => a_offers (abs h s) = [] ∧ abs h' s' = abs h s ∧ h' = h
  end.
Proof.
  intros Hpay. unfold take_from_sender. pose proof (pop_claimable_live h (sendq s)) as Hlive.
  destruct (pop_claimable h (sendq s)) as [[x q]|] eqn:Hp.
  - destruct Hlive as [Hlive Hc]. apply pop_claimable_Some in Hp as (_ & pre & Heq & _).
    assert (is_Some (w_payload x)) as [v Hv].
    { rewrite Heq, Forall_app, Forall_cons in Hpay. tauto. }
    pose proof (completed_fire h (w_token x) (w_arm x) OSent w Hc) as Hdone.
    pose proof (abs_fire h s (w_token x) (FArm (w_arm x) OSent) w) as Habs.
    pose proof (live_fire_cons h x q (FArm (w_arm x) OSent) w) as Hq.
    pose proof (live_fire h (sendq s) (w_token x) (FArm (w_arm x) OSent) w) as Hr.
    destruct (fire h _ _ w) as [h1 w1]. intros [= <- <- <- <-]. cbn in *.
    rewrite Hv. eexists _, _, _. rewrite Hlive. cbn. unfold offer_of at 1. rewrite Hv. cbn.
    split; [done|]. split; [|done]. rewrite <-Habs. unfold abs. cbn. by rewrite Hq, Hr, Hlive.
  - intros [= <- <- <- <-]. unfold abs. cbn. by rewrite Hlive.
Qed.

Lemma completed_then_feeders h h1 h' p also :
  completed h h1 p [] →
  (∀ t, t ∉ also → tokens h' !! t = tokens h1 !! t) →
  (∀ t arm o, p = Some (t, arm, o) → t ∉ also) →
  completed h h' p also.
Proof.
  intros [Hp Hrest] Hfeed Hni. split.
  - intros t arm o Heq. destruct (Hp _ _ _ Heq) as (Hc & k & Hk & Hk'). split; [done|].
    exists k. split; [done|]. by rewrite Hfeed by eauto.
  - intros t Ht Hne. rewrite Hfeed by done. apply Hrest; [set_solver|done].
Qed.

(** A receive on a channel is the receive of the abstract channel:
    the oldest value of the buffer, or of the oldest parked sender whose
    wait is open, which moves up into the buffer or is received; the
    channel's close when there is nothing and it is closed. *)
Lemma receive_refines h s w h' s' w' r :
  Forall (λ x, is_Some (w_payload x)) (sendq s) → separate s →
  receive h s w = (h', s', w', r) →
  ∃ p, a_receive (abs h s) = (abs h' s', r, p) ∧ completed h h' p (w_token <$> demandq s).
Proof.
  intros Hpay Hsep. unfold receive, a_receive. cbn [a_buf a_closed a_offers abs].
  destruct (buf s) as [|v b] eqn:Hbuf;
    destruct (take_from_sender _ _ _) as [[[h1 s1] w1] o] eqn:Ht;
    pose proof (take_from_sender_fields _ _ _ _ _ _ _ Ht) as (Hs1 & Hsub & _);
    apply take_from_sender_refines in Ht; try done; cbn in *.
  - destruct o as [v|].
    + destruct Ht as (t & arm & os & Hos & Habs & Hdone). intros [= <- <- <- <-].
      rewrite Hos. eexists. split; [by rewrite Habs|].
      split; [apply Hdone|]. intros t' _ Hne. apply Hdone; [set_solver|done].
    + destruct Ht as (Hos & Habs & ->). rewrite Hos.
      assert (Hcl : closed s1 = closed s) by (by rewrite Hs1). rewrite Hcl.
      destruct (closed s).
      { intros [= <- <- <- <-]. rewrite Habs. eauto using completed_None. }
      destruct (wake_feeders _ _ _) as [[h2 s2] w2] eqn:Hw.
      apply abs_wake_feeders in Hw as [Hw1 Hw2].
      * intros [= <- <- <- <-]. exists None. rewrite Hw1. split; [by rewrite <-Habs|].
        rewrite Hs1 in Hw2. eapply completed_then_feeders; [apply completed_None| |done]. done.
      * rewrite Hs1. intros d x Hd Hx. apply Hsep; cbn in *; set_solver.
  - destruct o as [v'|].
    + destruct Ht as (t & arm & os & Hos & Habs & Hdone). intros [= <- <- <- <-].
      unfold abs in Hos; cbn in Hos. rewrite Hos. eexists. split.
      * repeat f_equal. rewrite Hs1 in *. unfold abs, a_withdraw in *. cbn in *.
        by injection Habs as -> ->.
      * split; [apply Hdone|]. intros t' _ Hne. apply Hdone; [set_solver|done].
    + destruct Ht as (Hos & Habs & ->). unfold abs in Hos; cbn in Hos. rewrite Hos.
      destruct (demand s1).
      * destruct (wake_feeders _ _ _) as [[h2 s2] w2] eqn:Hw.
        apply abs_wake_feeders in Hw as [Hw1 Hw2].
        { intros [= <- <- <- <-]. exists None. rewrite Hw1, Habs. split; [done|].
          rewrite Hs1 in Hw2. eapply completed_then_feeders; [apply completed_None| |done]. done. }
        rewrite Hs1. intros d x Hd Hx. apply Hsep; cbn in *; set_solver.
      * intros [= <- <- <- <-]. rewrite Habs. eauto using completed_None.
Qed.

(** A close ends the wait of everybody on the channel's queues and
    keeps the buffer; a second close changes nothing. *)
Lemma close_refines h s c w h' s' w' r :
  close h s c w = (h', s', w', r) →
  a_close (abs h s) c = (abs h' s', r) ∧
  (r = true → recvq s' = [] ∧ sendq s' = [] ∧ demandq s' = []).
Proof.
  unfold close, a_close. cbn. destruct (closed s) eqn:Hcl.
  { intros [= <- <- <- <-]. done. }
  destruct (fire_all _ _ _ _). by intros [= <- <- <- <-].
Qed.

(** Taking the waiters of an ended wait off the queues is invisible:
    whether they are removed, left for later or swept out with others,
    the abstract channel is the same. *)
Lemma forget_refines h s t :
  claim h t = false → abs h (forget h s t) = abs h s.
Proof.
  intros Hc.
  assert (Hw : ∀ q, live h (without q t) = live h q).
  { intros q. unfold live, without. rewrite list_filter_filter. apply list_filter_iff.
    intros x. split; [by intros []|]. intros Hx. split; [done|]. intros Heq.
    rewrite Heq in Hx. congruence. }
  assert (Hs : ∀ q, live h (still_waiting h q) = live h q).
  { intros q. unfold live, still_waiting. rewrite list_filter_filter. apply list_filter_iff.
    intros x. split; [by intros []|]. eauto using claim_is_waiting. }
  unfold forget. repeat case_decide; unfold abs; cbn; by rewrite ?Hw, ?Hs.
Qed.

(** ** The operations of a channel as a whole *)

(** C8. A send that does not wait, on a channel that keeps its invariant,
    is the send of the abstract channel: the same result, the same channel
    after; if a parked receiver took the value it is the oldest whose wait
    is open, that wait ended with the value and no other token was
    touched.  Waiters whose wait has ended are passed over whatever their
    number.  The invariant is kept, and exactly the tasks whose parked
    wait ended are woken. *)
Theorem try_send_correct h s v h' s' ws r :
  ch_ok h s → try_send h s v = (h', s', ws, r) →
  (∃ p, a_send (abs h s) v = (abs h' s', r, p) ∧ completed h h' p []) ∧
  ch_ok h' s' ∧ evolves h ws h'.
Proof.
  intros Hok. unfold try_send. destruct (send h s v no_wakes) as [[[h1 s1] w1] r1] eqn:Hs.
  intros [= <- <- <- <-]. split; [by eapply send_refines|]. split; [by eapply send_ok|].
  by eapply moves_evolves, send_moves.
Qed.

(** C29. A receive that does not wait is the receive of the abstract
    channel: the oldest value of the buffer, whose place the oldest open
    parked sender's value takes, or else the value of that sender; or the
    channel's close when there is nothing and it is closed.  The feeders
    that wait to be asked are the only other waits it may end: one that
    asks (it found nothing, or left less than may be made ahead) ends the
    wait of every one of them with that word, one that does not leaves them
    queued as they were.  The invariant is kept, and exactly the tasks whose
    parked wait ended are woken. *)
Theorem try_receive_correct h s h' s' ws r :
  ch_ok h s → separate s → try_receive h s = (h', s', ws, r) →
  (∃ p, a_receive (abs h s) = (abs h' s', r, p) ∧ completed h h' p (w_token <$> demandq s)) ∧
  (asks h s s' r → demandq s' = [] ∧ told h h' (demandq s) OAsked) ∧
  (¬ asks h s s' r → demandq s' = demandq s ∧ ∀ d, d ∈ demandq s → tokens h' !! w_token d = tokens h !! w_token d) ∧
  ch_ok h' s' ∧ evolves h ws h'.
Proof.
  intros Hok Hsep. unfold try_receive. destruct (receive h s no_wakes) as [[[h1 s1] w1] r1] eqn:Hs.
  intros [= <- <- <- <-]. split; [by eapply receive_refines; eauto using ok_payload|].
  destruct (receive_tells _ _ _ _ _ _ _ (ok_payload _ _ Hok) Hsep Hs) as [Ha Hn]. split; [done|]. split; [done|].
  split; [by eapply receive_ok|]. by eapply moves_evolves, receive_moves.
Qed.

(** A close ends the wait of everybody on the channel's queues, keeps
    the buffer for later receives, and wakes exactly the parked of them;
    a second close changes nothing and says so. *)
Theorem channel_close_correct h s c h' s' ws r :
  ch_ok h s → channel_close h s c = (h', s', ws, r) →
  a_close (abs h s) c = (abs h' s', r) ∧
  (r = true → Forall (λ x, claim h' (w_token x) = false) (sendq s ++ recvq s ++ demandq s)) ∧
  (r = false → h' = h ∧ s' = s) ∧
  ch_ok h' s' ∧ evolves h ws h'.
Proof.
  intros Hok. unfold channel_close. destruct (close h s c no_wakes) as [[[h1 s1] w1] r1] eqn:Hs.
  intros [= <- <- <- <-]. split; [by eapply close_refines|]. split; [|split; [|split]].
  - intros ->. unfold close in Hs. destruct (closed s); [done|].
    pose proof (fire_all_claim h (sendq s ++ recvq s ++ demandq s) (OClosed c) no_wakes) as Hall.
    destruct (fire_all _ _ _ _) as [h2 w2]. simplify_eq. by apply Forall_forall.
  - intros ->. unfold close in Hs. destruct (closed s); [by simplify_eq|].
    by destruct (fire_all _ _ _ _) as [h2 w2].
  - by eapply close_ok.
  - by eapply moves_evolves, close_moves.
Qed.

(** Taking the waiters of an ended wait off a channel's queues is
    invisible: whether they are removed at once, left for later or swept
    out with others, the abstract channel is the same and the invariant
    is kept; on short queues they are gone. *)
Theorem forget_correct h s t :
  ch_ok h s → claim h t = false →
  abs h (forget h s t) = abs h s ∧ ch_ok h (forget h s t) ∧
  (length (recvq s) + length (sendq s) + length (demandq s) <= SHORT →
   t ∉ w_token <$> (recvq (forget h s t) ++ sendq (forget h s t) ++ demandq (forget h s t))).
Proof.
  intros Hok Hc. split; [by apply forget_refines|]. split; [by apply forget_ok|].
  intros Hshort. unfold forget. rewrite decide_True by done. cbn.
  intros (x & -> & Hx)%list_elem_of_fmap.
  rewrite !elem_of_app in Hx. unfold without in Hx. rewrite !list_elem_of_filter in Hx. tauto.
Qed.

End refinement.

(** ** What the abstract operations do to the values held

    Sends and receives that do not wait, and waits with one arm (a send
    that finds no room is parked with its value, a receive that finds
    nothing is parked), with the values the channel took over and those it
    handed out. *)
Section fifo.
Context {V E : Type}.
Implicit Types (a : AChan V E).

Inductive a_op :=
  | OpSend (v : V)
  | OpRecv
  | OpParkSend (t : TokId) (v : V)
  | OpParkRecv (t : TokId).

Definition delivered_by (p : @peer V E) : list V :=
  match p with Some (_, _, OReceived v) => [v] | _ => [] end.

Definition a_add_offer a t v : AChan V E :=
  mkAChan (a_cap a) (a_buf a) (a_closed a) (a_takers a) (a_offers a ++ [(t, 0, v)]).
Definition a_add_taker a t : AChan V E :=
  mkAChan (a_cap a) (a_buf a) (a_closed a) (a_takers a ++ [(t, 0)]) (a_offers a).

(** One operation: the channel after, the values it took over and the
    values it handed out. *)
Definition a_exec1 a (o : a_op) : AChan V E * list V * list V :=
  match o with
  | OpSend v =>
      match a_send a v with
      | (a', SendSent, p) => (a', [v], delivered_by p)
      | (a', _, _) => (a', [], [])
      end
  | OpParkSend t v =>
      match a_send a v with
      | (a', SendSent, p) => (a', [v], delivered_by p)
      | (a', SendFull _, _) => (a_add_offer a' t v, [v], [])
      | (a', SendClosed _, _) => (a', [], [])
      end
  | OpRecv =>
      match a_receive a with
      | (a', RecvValue v, _) => (a', [], [v])
      | (a', _, _) => (a', [], [])
      end
  | OpParkRecv t =>
      match a_receive a with
      | (a', RecvValue v, _) => (a', [], [v])
      | (a', RecvEmpty, _) => (a_add_taker a' t, [], [])
      | (a', RecvClosed _, _) => (a', [], [])
      end
  end.

(** The values the channel holds, oldest first. *)
Definition a_pending a : list V := a_buf a ++ (snd <$> a_offers a).

(** The tokens an operation parks. *)
Definition op_tok (o : a_op) : list TokId :=
  match o with OpParkSend t _ | OpParkRecv t => [t] | _ => [] end.

Definition a_toks a : list TokId := (fst <$> a_takers a) ++ ((λ x, x.1.1) <$> a_offers a).

(** While somebody waits to receive there is nothing to receive, while
    somebody waits to send there is no room, and every wait is on the
    channel once. *)
Record a_ok a : Prop := mkAOk {
  a_ok_takers : a_takers a ≠ [] → a_buf a = [] ∧ a_offers a = [];
  a_ok_offers : a_offers a ≠ [] → a_cap a <= length (a_buf a);
  a_ok_toks : NoDup (a_toks a);
}.

(** Completing the oldest offer, or the oldest taker, takes away that one
    only. *)
Lemma a_withdraw_offer a t arm v os :
  NoDup (a_toks a) → a_offers a = (t, arm, v) :: os →
  a_withdraw a t = mkAChan (a_cap a) (a_buf a) (a_closed a) (a_takers a) os.
Proof.
  unfold a_toks, a_withdraw. intros Hnd Hos. rewrite Hos in *.
  apply NoDup_app in Hnd as (_ & Hdisj & Hnd2). f_equal.
  - apply (filter_key_none fst). intros Hin. apply (Hdisj t Hin). cbn. set_solver.
  - by apply (filter_key_head (λ x : TokId * nat * V, x.1.1) (t, arm, v)).
Qed.

Lemma a_withdraw_taker a t arm ts :
  NoDup (a_toks a) → a_takers a = (t, arm) :: ts →
  a_withdraw a t = mkAChan (a_cap a) (a_buf a) (a_closed a) ts (a_offers a).
Proof.
  unfold a_toks, a_withdraw. intros Hnd Hts. rewrite Hts in *.
  apply NoDup_app in Hnd as (Hnd1 & Hdisj & _). f_equal.
  - by apply (filter_key_head fst (t, arm)).
  - apply (filter_key_none (λ x : TokId * nat * V, x.1.1)). apply Hdisj. cbn. set_solver.
Qed.

(** What one send and one receive do to the values held. *)
Lemma a_send_pending a v a' r p :
  a_ok a → a_send a v = (a', r, p) →
  a_ok a' ∧ a_toks a' ⊆ a_toks a ∧
  match r with
  | SendSent => a_pending a ++ [v] = delivered_by p ++ a_pending a'
  | SendFull _ => a' = a ∧ a_takers a = [] ∧ a_cap a <= length (a_buf a)
  | SendClosed _ => a' = a
  end.
Proof.
  intros Hok. pose proof Hok as [Htk Hof Hnd]. unfold a_send.
  destruct (a_closed a); [by intros [= <- <- <-]|].
  destruct (a_takers a) as [|[t arm] ts] eqn:Hts.
  - case_decide as Hlt; intros [= <- <- <-].
    + assert (Hno : a_offers a = []).
      { destruct (a_offers a) eqn:Ho; [done|]. specialize (Hof ltac:(done)). lia. }
      unfold a_pending, a_toks in *. cbn. rewrite Hno, Hts in *. rewrite !app_nil_r.
      split; [|done]. split; cbn; rewrite ?Hno, ?Hts; done.
    + split; [done|]. split; [done|]. split; [done|]. split; [done|lia].
  - intros [= <- <- <-]. rewrite (a_withdraw_taker a t arm ts) by done.
    destruct Htk as [Hb Ho]; [done|]. unfold a_pending, a_toks in *. cbn.
    rewrite Hb, Ho, Hts in *. cbn in *. apply NoDup_cons in Hnd as [_ Hnd].
    split; [by split|]. split; [set_solver|done].
Qed.

Lemma a_receive_pending a a' r p :
  a_ok a → a_receive a = (a', r, p) →
  a_ok a' ∧ a_toks a' ⊆ a_toks a ∧
  match r with
  | RecvValue v => a_pending a = v :: a_pending a'
  | RecvEmpty => a' = a ∧ a_buf a = [] ∧ a_offers a = []
  | RecvClosed _ => a' = a
  end.
Proof.
  intros Hok. pose proof Hok as [Htk Hof Hnd]. unfold a_receive.
  destruct (a_buf a) as [|v b] eqn:Hb; destruct (a_offers a) as [|[[t arm] v'] os] eqn:Ho.
  - destruct (a_closed a); by intros [= <- <- <-].
  - intros [= <- <- <-]. rewrite (a_withdraw_offer a t arm v' os) by done.
    unfold a_pending, a_toks in *. cbn. rewrite Hb, Ho in *. cbn in *.
    destruct (a_takers a); [|by destruct Htk]. cbn in *.
    apply NoDup_cons in Hnd as [_ Hnd]. specialize (Hof ltac:(done)).
    split; [by split|]. split; [set_solver|done].
  - intros [= <- <- <-]. unfold a_pending, a_toks in *. cbn. rewrite Ho in *.
    destruct (a_takers a) eqn:Hts; [|by destruct Htk].
    split; [by split; unfold a_toks; cbn; rewrite ?Ho, ?Hts|]. by rewrite Hb.
  - intros [= <- <- <-].
    rewrite (a_withdraw_offer (a_with_buf a (b ++ [v'])) t arm v' os) by done.
    unfold a_pending, a_toks in *. cbn. rewrite Hb, Ho in *. cbn in *.
    destruct (a_takers a); [|by destruct Htk]. cbn in *.
    apply NoDup_cons in Hnd as [_ Hnd]. specialize (Hof ltac:(done)).
    split; [split; cbn; [done|rewrite length_app; cbn; lia|done]|].
    split; [set_solver|by rewrite <-app_assoc].
Qed.

Lemma a_exec1_pending a o a' i d :
  a_ok a → (∀ t, t ∈ op_tok o → t ∉ a_toks a) → a_exec1 a o = (a', i, d) →
  a_ok a' ∧ a_toks a' ⊆ op_tok o ++ a_toks a ∧ a_pending a ++ i = d ++ a_pending a'.
Proof.
  intros Hok Hfr. destruct o as [v| |t v|t]; cbn in *.
  - destruct (a_send a v) as [[a1 r] p] eqn:Hs.
    apply a_send_pending in Hs as (H1 & H2 & H3); [|done].
    destruct r; intros [= <- <- <-]; rewrite ?app_nil_r; splits; subst; naive_solver.
  - destruct (a_receive a) as [[a1 r] p] eqn:Hs.
    apply a_receive_pending in Hs as (H1 & H2 & H3); [|done].
    destruct r; intros [= <- <- <-]; rewrite ?app_nil_r; splits; subst; naive_solver.
  - destruct (a_send a v) as [[a1 r] p] eqn:Hs.
    apply a_send_pending in Hs as (H1 & H2 & H3); [|done].
    destruct r; intros [= <- <- <-]; rewrite ?app_nil_r; try (splits; subst; set_solver).
    destruct H3 as (-> & Hts & Hfull). destruct H1 as [_ _ Hnd].
    unfold a_toks, a_pending in *. cbn. rewrite !fmap_app, Hts in *. cbn in *. split; [split|].
    + cbn. by rewrite Hts.
    + done.
    + unfold a_toks. cbn. rewrite Hts, fmap_app. cbn. apply NoDup_app.
      split; [done|]. split; [|apply NoDup_singleton]. set_solver.
    + split; [set_solver|]. by rewrite app_assoc.
  - destruct (a_receive a) as [[a1 r] p] eqn:Hs.
    apply a_receive_pending in Hs as (H1 & H2 & H3); [|done].
    destruct r; intros [= <- <- <-]; rewrite ?app_nil_r; try (splits; subst; set_solver).
    destruct H3 as (-> & Hb & Ho). destruct H1 as [_ _ Hnd].
    unfold a_toks, a_pending in *. cbn. rewrite !fmap_app, Ho in *. cbn in *.
    rewrite app_nil_r in *. split; [split|].
    + done.
    + done.
    + unfold a_toks. cbn. rewrite Ho, fmap_app, app_nil_r. cbn. apply NoDup_app.
      split; [done|]. split; [|apply NoDup_singleton]. set_solver.
    + split; [set_solver|done].
Qed.

End fifo.

(** Witnesses: a channel of capacity 1. *)
Module Small.
Definition h0 : Heap nat nat := mkHeap ∅ {[0 := mkToken 7%N None None TParked]}.
Definition empty : State nat nat := fed 1 1.
(** task 7 is parked on it to receive *)
Definition awaited : State nat nat := with_asked (with_recvq (fed 1 1) [mkWaiter 0 0 None]) true.

(** with a value in its buffer and task 8 parked on it to be asked *)
Definition h1 : Heap nat nat := mkHeap ∅ {[1 := mkToken 8%N None None TParked]}.
Definition waited : State nat nat := with_demandq (with_buf (fed 1 1) [5]) [mkWaiter 1 0 None].

Lemma waited_ok : ch_ok h1 waited.
Proof.
  split; cbn; try constructor; try done; try lia; try set_solver; try constructor.
Qed.
Lemma waited_separate : separate waited.
Proof. unfold separate. cbn. set_solver. Qed.

Lemma awaited_ok : ch_ok h0 awaited.
Proof.
  split; cbn; try constructor; try done; try lia; try set_solver; try constructor.
Qed.
End Small.

Lemma try_send_correct_witness :
  ch_ok Small.h0 Small.awaited ∧
  let r := try_send Small.h0 Small.awaited 5 in
  (∃ p, a_send (abs Small.h0 Small.awaited) 5 = (abs r.1.1.1 r.1.1.2, r.2, p) ∧
        completed Small.h0 r.1.1.1 p []) ∧
  ch_ok r.1.1.1 r.1.1.2 ∧ evolves Small.h0 [7%N] r.1.1.1.
Proof.
  split; [exact Small.awaited_ok|]. cbn zeta.
  apply (try_send_correct Small.h0 Small.awaited 5); [exact Small.awaited_ok|].
  vm_compute. reflexivity.
Defined.

Lemma try_receive_correct_witness :
  ch_ok Small.h1 Small.waited ∧ separate Small.waited ∧
  let '(h', s', ws, r) := try_receive Small.h1 Small.waited in
  r = RecvValue 5 ∧ ws = [8%N] ∧ asks Small.h1 Small.waited s' r ∧
  (∃ p, a_receive (abs Small.h1 Small.waited) = (abs h' s', r, p) ∧ completed Small.h1 h' p [1]) ∧
  (asks Small.h1 Small.waited s' r → demandq s' = [] ∧ told Small.h1 h' (demandq Small.waited) OAsked) ∧
  (¬ asks Small.h1 Small.waited s' r → demandq s' = demandq Small.waited ∧
     ∀ d, d ∈ demandq Small.waited → tokens h' !! w_token d = tokens Small.h1 !! w_token d) ∧
  ch_ok h' s' ∧ evolves Small.h1 ws h'.
Proof.
  split; [exact Small.waited_ok|]. split; [exact Small.waited_separate|].
  destruct (try_receive Small.h1 Small.waited) as [[[h' s'] ws] r] eqn:E.
  pose proof (try_receive_correct Small.h1 Small.waited h' s' ws r Small.waited_ok Small.waited_separate E) as H.
  vm_compute in E. injection E as <- <- <- <-.
  split; [reflexivity|]. split; [reflexivity|]. split; [split; [reflexivity|discriminate]|]. exact H.
Defined.

Lemma channel_close_correct_witness :
  ch_ok Small.h0 Small.awaited ∧
  let r := channel_close Small.h0 Small.awaited (mkClose None None) in
  a_close (abs Small.h0 Small.awaited) (mkClose None None) = (abs r.1.1.1 r.1.1.2, true) ∧
  (true = true → Forall (λ x, claim r.1.1.1 (w_token x) = false)
    (sendq Small.awaited ++ recvq Small.awaited ++ demandq Small.awaited)) ∧
  (true = false → r.1.1.1 = Small.h0 ∧ r.1.1.2 = Small.awaited) ∧
  ch_ok r.1.1.1 r.1.1.2 ∧ evolves Small.h0 [7%N] r.1.1.1.
Proof.
  split; [exact Small.awaited_ok|]. cbn zeta.
  apply (channel_close_correct Small.h0 Small.awaited (mkClose None None)); [exact Small.awaited_ok|].
  vm_compute. reflexivity.
Defined.

Lemma forget_correct_witness :
  let h := (token_cancel Small.h0 0).1.1 in
  claim h 0 = false ∧
  abs h (forget h Small.awaited 0) = abs h Small.awaited ∧ ch_ok h (forget h Small.awaited 0) ∧
  (1 + 0 + 0 <= SHORT → 0 ∉ w_token <$> (recvq (forget h Small.awaited 0) ++
     sendq (forget h Small.awaited 0) ++ demandq (forget h Small.awaited 0))).
Proof.
  cbn zeta. split; [vm_compute; reflexivity|].
  apply (forget_correct (token_cancel Small.h0 0).1.1 Small.awaited 0); [|vm_compute; reflexivity].
  eapply ch_ok_heap_le; [|exact Small.awaited_ok].
  eapply evolves_heap_le, token_cancel_evolves.
Defined.
