(* ===== verification/Cell.v ===== *)
(** * A cell (src/runtime/sync/cell.rs)

    A value that is set once, with the queue of those who wait for it.
    [complete] is two steps in the source, between which others may run:
    the value is set, and then the queue is drained. *)

From S2P Require Import Prelude Token Channel ChannelFacts.

Record Cell (V : Type) := mkCell {
  cell_label : option string;
  cell_value : option V;
  cell_waiters : list (Waiter V);
}.
Arguments mkCell {V} _ _ _.
Arguments cell_label {V} _.
Arguments cell_value {V} _.
Arguments cell_waiters {V} _.

Section cell.
Context {V E : Type}.
Implicit Types (h : Heap V E) (c : Cell V) (w : Wakes).

Definition cell_new : Cell V := mkCell None None [].
Definition cell_labelled (l : string) : Cell V := mkCell (Some l) None [].

Definition cell_is_done c : bool := match cell_value c with Some _ => true | None => false end.

Definition cell_get c : option V := cell_value c.

(** [self.value.set(value)?]: [inr] gives the value back. *)
Definition cell_set c (v : V) : Cell V + V :=
  match cell_value c with
  | None => inl (mkCell (cell_label c) (Some v) (cell_waiters c))
  | Some _ => inr v
  end.

(** The rest of [Cell::complete]: take the queue and fire who is on it. *)
Definition cell_drain h c w : Heap V E * Cell V * Wakes :=
  let '(h', w') := fire_all h (cell_waiters c) ODone w in
  (h', mkCell (cell_label c) (cell_value c) [], w').

(** [Cell::complete]: the wakes sent; [inr] when it was complete. *)
Definition complete h c (v : V) : (Heap V E * Cell V * list TaskId) + V :=
  match cell_set c v with
  | inr v => inr v
  | inl c1 => let '(h', c', w) := cell_drain h c1 no_wakes in inl (h', c', wakes_send w)
  end.

(** [Completion::waiting]. *)
Definition cell_waiting h c : nat := length (still_waiting h (cell_waiters c)).

(** [Completion::enqueue]. *)
Definition cell_enqueue h c (x : Waiter V) w : Heap V E * Cell V * Wakes :=
  if cell_is_done c
  then
    if claim h (w_token x)
    then let '(h', w') := fire h (w_token x) (FArm (w_arm x) ODone) w in (h', c, w')
    else (h, c, w)
  else (h, mkCell (cell_label c) (cell_value c) (cell_waiters c ++ [x]), w).

(** [Completion::forget]. *)
Definition cell_forget c (t : TokId) : Cell V :=
  mkCell (cell_label c) (cell_value c) (without (cell_waiters c) t).

Lemma cell_enqueue_moves h c x w h' c' w' :
  cell_enqueue h c x w = (h', c', w') → moves (h, w) (h', w').
Proof.
  unfold cell_enqueue. destruct (cell_is_done c); [|intros [= <- <- <-]; reflexivity].
  destruct (claim h (w_token x)) eqn:Hc; [|intros [= <- <- <-]; reflexivity].
  pose proof (fire_moves h (w_token x) (FArm (w_arm x) ODone) w Hc) as Hf.
  destruct (fire h _ _ w). by intros [= <- <- <-].
Qed.

Lemma cell_drain_moves h c w h' c' w' :
  cell_drain h c w = (h', c', w') → moves (h, w) (h', w').
Proof.
  unfold cell_drain. pose proof (fire_all_moves h (cell_waiters c) ODone w) as Hf.
  destruct (fire_all _ _ _ _). by intros [= <- <- <-].
Qed.

(** Joining a cell that is complete ends the wait. *)
Lemma cell_enqueue_done h c x w :
  cell_is_done c = true →
  claim (cell_enqueue h c x w).1.1 (w_token x) = false ∧ (cell_enqueue h c x w).1.2 = c.
Proof.
  intros Hd. unfold cell_enqueue. rewrite Hd. destruct (claim h (w_token x)) eqn:Hc; [|done].
  pose proof (claim_fire h (w_token x) (FArm (w_arm x) ODone) w (w_token x)) as Hf.
  destruct (fire h _ _ w) as [h1 w1]. cbn in *. rewrite Hf. by rewrite decide_True.
Qed.

Lemma cell_drain_claim h c w t :
  (claim h t = false ∨ t ∈ w_token <$> cell_waiters c) →
  claim (cell_drain h c w).1.1 t = false ∧ cell_waiters (cell_drain h c w).1.2 = [].
Proof.
  intros Ht. unfold cell_drain.
  pose proof (fire_all_claim_false h (cell_waiters c) ODone w t) as H1.
  pose proof (fire_all_claim h (cell_waiters c) ODone w) as H2.
  destruct (fire_all _ _ _ _) as [h1 w1]. cbn in *. split; [|done].
  destruct Ht as [Ht|(x & -> & Hx)%list_elem_of_fmap]; auto.
Qed.

(** The three places of a join in a completion of the cell: before the
    value is set, between that and the drain, after both. *)
Inductive join_at := JoinBefore | JoinBetween | JoinAfter.

Definition complete_with_join h c (v : V) (x : Waiter V) (at_ : join_at) : Heap V E * Cell V :=
  let set c := match cell_set c v with inl c' => c' | inr _ => c end in
  let join (p : Heap V E * Cell V) := (cell_enqueue p.1 p.2 x no_wakes).1 in
  let drain (p : Heap V E * Cell V) := (cell_drain p.1 p.2 no_wakes).1 in
  match at_ with
  | JoinBefore => let '(h1, c1) := join (h, c) in drain (h1, set c1)
  | JoinBetween => drain (join (h, set c))
  | JoinAfter => join (drain (h, set c))
  end.

(** A waiter that joins a cell's queue is either drained or sees the
    value, wherever between the two steps of a completion it comes: once
    both are over its wait has ended and the queue is empty. *)
Theorem cell_no_lost_waiter h c v x at_ :
  cell_value c = None →
  claim (complete_with_join h c v x at_).1 (w_token x) = false ∧
  cell_waiters (complete_with_join h c v x at_).2 = [].
Proof.
  intros Hn. unfold complete_with_join, cell_set. destruct at_.
  - unfold cell_enqueue, cell_is_done. cbn. rewrite Hn. cbn.
    apply cell_drain_claim. right. cbn. rewrite fmap_app. set_solver.
  - rewrite Hn. cbn -[cell_drain cell_enqueue].
    destruct (cell_enqueue_done h (mkCell (cell_label c) (Some v) (cell_waiters c)) x no_wakes)
      as [Hc _]; [done|]. apply cell_drain_claim. by left.
  - rewrite Hn. set (p := (cell_drain _ _ _).1).
    assert (cell_is_done p.2 = true ∧ cell_waiters p.2 = []) as [Hd Hw].
    { subst p. unfold cell_drain. by destruct (fire_all _ _ _ _). }
    destruct (cell_enqueue_done p.1 p.2 x no_wakes Hd) as [Hc Heq]. by rewrite Heq.
Qed.

End cell.

Lemma cell_no_lost_waiter_witness :
  let h := mkHeap ∅ {[3 := mkToken 9%N None None TParked]} : Heap nat nat in
  claim h 3 = true ∧
  claim (complete_with_join h cell_new 42 (mkWaiter 3 0 None) JoinBetween).1 3 = false ∧
  cell_waiters (complete_with_join h cell_new 42 (mkWaiter 3 0 None) JoinBetween).2 = [].
Proof.
  cbn zeta. split; [reflexivity|].
  apply (cell_no_lost_waiter (mkHeap ∅ {[3 := mkToken 9%N None None TParked]} : Heap nat nat)
    cell_new 42 (mkWaiter 3 0 None) JoinBetween). reflexivity.
Defined.
