(* ===== verification/Timer.v ===== *)
(** * Deadlines on the VM's clock (src/runtime/sync/timer.rs)

    The timer keeps what is to happen at which reading of the clock.  The
    clock itself is the embedder's: an operation that reads it takes the
    reading as an argument, in nanoseconds. *)

From S2P Require Import Prelude Token Channel ChannelFacts.

(** An armed entry: its deadline and a number that tells entries of one
    deadline apart. *)
Abbreviation TimerId := (N * N)%type (only parsing).

Definition timer_deadline (id : TimerId) : N := id.1.

Inductive Action :=
  | ActFire (t : TokId)
  | ActExpire (t : TokId)
  | ActClose (c : nat).

(** The derived order of [TimerId]. *)
Definition tid_ltb (a b : TimerId) : bool :=
  (a.1 <? b.1)%N || ((a.1 =? b.1)%N && (a.2 <? b.2)%N).

(** A [BTreeMap] from timer ids: its entries in the order of their keys. *)
Abbreviation TMap := (list (N * N * Action)) (only parsing).

Fixpoint tmap_insert (m : TMap) (k : TimerId) (a : Action) : TMap :=
  match m with
  | [] => [(k, a)]
  | (k', a') :: m' =>
      if tid_ltb k k' then (k, a) :: m
      else if tid_ltb k' k then (k', a') :: tmap_insert m' k a
      else (k, a) :: m'
  end.

Definition tmap_remove (m : TMap) (k : TimerId) : TMap * bool :=
  (filter (λ e, e.1 ≠ k) m, bool_decide (k ∈ m.*1)).

(** [split_off]: what stays (the keys below [k]) and what is returned. *)
Definition tmap_split_off (m : TMap) (k : TimerId) : TMap * TMap :=
  (filter (λ e, tid_ltb e.1 k = true) m, filter (λ e, tid_ltb e.1 k = false) m).

(** The timer, with the rounds under way: the calls of [fire_due] that took
    what was due and are carrying it out, with no lock held.  Of each what is
    left to do, and how many entries it took. *)
Record Timer := mkTimer {
  t_next : N;
  t_entries : TMap;
  t_pending : nat;
  t_rounds : list (list Action * nat);
}.

Definition timer_new : Timer := mkTimer 0 [] 0 [].

(** [Timer::arm]. *)
Definition timer_arm (tm : Timer) (deadline : N) (a : Action) : Timer * TimerId :=
  let id := (deadline, t_next tm) in
  (mkTimer (t_next tm + 1) (tmap_insert (t_entries tm) id a) (t_pending tm + 1) (t_rounds tm), id).

Definition fire_at (tm : Timer) (deadline : N) (t : TokId) : Timer * TimerId :=
  timer_arm tm deadline (ActFire t).

Definition expire_at (tm : Timer) (deadline : N) (t : TokId) : Timer * TimerId :=
  timer_arm tm deadline (ActExpire t).

(** [Timer::close_at]: the channel says from now on that a timer closes
    it. *)
Definition close_at {V E} (chs : gmap nat (Channel V E)) (tm : Timer) (deadline : N) (c : nat) :
    gmap nat (Channel V E) * Timer * TimerId :=
  let '(tm', id) := timer_arm tm deadline (ActClose c) in
  (alter set_closes_by_timer c chs, tm', id).

(** [Timer::disarm]: [false] when the entry has fired. *)
Definition disarm (tm : Timer) (id : TimerId) : Timer * bool :=
  let '(m, removed) := tmap_remove (t_entries tm) id in
  (mkTimer (t_next tm) m (if removed then t_pending tm - 1 else t_pending tm) (t_rounds tm), removed).

(** [Timer::next_deadline]. *)
Definition next_deadline (tm : Timer) : option N := timer_deadline ∘ fst <$> head (t_entries tm).

(** [Timer::real_wait] and [HostIo::real_wait]: on an embedder's clock a
    poll of a millisecond. *)
Definition real_wait (tm : Timer) (now : N) (system_clock : bool) : option N :=
  deadline ← next_deadline tm;
  let left := (deadline - now)%N in
  Some (if system_clock then left else N.min left 1000000%N).

Definition u64_max : N := 18446744073709551615.

(** Under the lock [fire_due] takes the entries it will carry out. *)
Definition take_due (tm : Timer) (now : N) (failed : bool) : TMap * Timer :=
  if failed then (t_entries tm, mkTimer (t_next tm) [] (t_pending tm) (t_rounds tm))
  else
    let '(due, later) := tmap_split_off (t_entries tm) (now, u64_max) in
    (due, mkTimer (t_next tm) later (t_pending tm) (t_rounds tm)).

(** A round goes on with what it took, one entry after the other, and when
    all is done and sent the entries are no longer pending. *)
Definition begin_round (tm : Timer) (now : N) (failed : bool) : Timer :=
  let '(due, tm1) := take_due tm now failed in
  mkTimer (t_next tm1) (t_entries tm1) (t_pending tm1) (t_rounds tm1 ++ [(due.*2, length due)]).

Definition with_rounds (tm : Timer) rounds : Timer :=
  mkTimer (t_next tm) (t_entries tm) (t_pending tm) rounds.

Definition end_round (tm : Timer) (i count : nat) : Timer :=
  mkTimer (t_next tm) (t_entries tm) (t_pending tm - count) (delete i (t_rounds tm)).

Section fire_due.
Context {V E : Type}.
Implicit Types (h : Heap V E) (chs : gmap nat (Channel V E)).

Definition set_state (ch : Channel V E) (s : State V E) : Channel V E :=
  mkChannel (on_abandon ch) (on_drain ch) (closes_by_timer ch) s.

(** One due entry.  The wakes of a token wait for the end of the round
    ([w]); those of a channel's close are sent at once ([sent]). *)
Definition carry_out h chs w (sent : list TaskId) (a : Action) :
    Heap V E * gmap nat (Channel V E) * Wakes * list TaskId :=
  match a with
  | ActFire t =>
      if claim h t then let '(h', w') := fire h t FDeadline w in (h', chs, w', sent)
      else (h, chs, w, sent)
  | ActExpire t =>
      if claim h t then let '(h', w') := expire h t w in (h', chs, w', sent)
      else (h, chs, w, sent)
  | ActClose c =>
      match chs !! c with
      | None => (h, chs, w, sent)
      | Some ch =>
          let '(h', s', ws, _) := channel_close h (chan_state ch) (mkClose None None) in
          (h', <[c := set_state ch s']> chs, w, sent ++ ws)
      end
  end.

Fixpoint carry_out_all h chs w sent (due : list Action) :
    Heap V E * gmap nat (Channel V E) * Wakes * list TaskId :=
  match due with
  | [] => (h, chs, w, sent)
  | a :: due' =>
      let '(h', chs', w', sent') := carry_out h chs w sent a in carry_out_all h' chs' w' sent' due'
  end.

(** The whole of [Timer::fire_due], with nobody in between: the wakes in the
    order they are sent, and the number of entries carried out. *)
Definition fire_due h chs (tm : Timer) (now : N) (failed : bool) :
    Heap V E * gmap nat (Channel V E) * Timer * list TaskId * nat :=
  let '(due, tm1) := take_due tm now failed in
  let '(h', chs', w, sent) := carry_out_all h chs no_wakes [] due.*2 in
  let count := length due in
  (h', chs', mkTimer (t_next tm1) (t_entries tm1) (t_pending tm1 - count) (t_rounds tm1),
   sent ++ wakes_send w, count).

End fire_due.

(** ** The timer's invariant and what is due *)

Definition tid_lt (a b : TimerId) : Prop := tid_ltb a b = true.

(** How many entries the rounds under way took. *)
Definition under_way (rounds : list (list Action * nat)) : nat := sum_list rounds.*2.
Arguments under_way : simpl never.

(** Keys ascend, each was handed out before [t_next], and [t_pending]
    counts the entries and those of the rounds under way. *)
Record timer_ok (tm : Timer) : Prop := mkTimerOk {
  tok_sorted : StronglySorted (λ a b, tid_lt a.1 b.1) (t_entries tm);
  tok_next : Forall (λ e, (e.1.2 < t_next tm)%N) (t_entries tm);
  tok_pending : t_pending tm = length (t_entries tm) + under_way (t_rounds tm);
  tok_rounds : Forall (λ r, length r.1 <= r.2) (t_rounds tm);
}.

Lemma tid_lt_spec a b : tid_lt a b ↔ (a.1 < b.1 ∨ a.1 = b.1 ∧ a.2 < b.2)%N.
Proof.
  unfold tid_lt, tid_ltb. rewrite orb_true_iff, andb_true_iff, !N.ltb_lt, N.eqb_eq. done.
Qed.

Lemma tid_lt_trans a b c : tid_lt a b → tid_lt b c → tid_lt a c.
Proof. rewrite !tid_lt_spec. lia. Qed.

Lemma tid_lt_irrefl a : ¬ tid_lt a a.
Proof. rewrite tid_lt_spec. lia. Qed.

(** Of a key that is new the insert keeps the order and adds one. *)
Lemma tmap_insert_spec m k a :
  StronglySorted (λ a b, tid_lt a.1 b.1) m → Forall (λ e, e.1 ≠ k) m →
  StronglySorted (λ a b, tid_lt a.1 b.1) (tmap_insert m k a) ∧
  tmap_insert m k a ≡ₚ (k, a) :: m.
Proof.
  induction m as [|[k' a'] m IH]; cbn; intros Hs Hn.
  - split; [|done]. by repeat constructor.
  - apply StronglySorted_cons in Hs as [Hall Hs]. apply Forall_cons in Hn as [Hne Hn].
    destruct (IH Hs Hn) as [IHs IHp]. clear IH.
    destruct (tid_ltb k k') eqn:Hlt.
    + split; [|done]. apply StronglySorted_cons. split.
      * constructor; [done|]. eapply Forall_impl; [exact Hall|].
        cbn. intros e He. by eapply tid_lt_trans.
      * by apply StronglySorted_cons.
    + destruct (tid_ltb k' k) eqn:Hgt.
      * split.
        { apply StronglySorted_cons. split; [|done]. rewrite IHp. by constructor. }
        { rewrite IHp. apply perm_swap. }
      * exfalso. apply Hne. cbn. destruct k as [d n], k' as [d' n'].
        assert (¬ tid_lt (d, n) (d', n')) as H1 by (unfold tid_lt; congruence).
        assert (¬ tid_lt (d', n') (d, n)) as H2 by (unfold tid_lt; congruence).
        rewrite tid_lt_spec in H1, H2. cbn in *. f_equal; lia.
Qed.

Lemma timer_ok_fresh tm d :
  timer_ok tm → Forall (λ e, e.1 ≠ (d, t_next tm)) (t_entries tm).
Proof.
  intros [_ Hn _ _]. eapply Forall_impl; [exact Hn|]. intros [[d' n'] a']. cbn.
  intros Hlt Heq. injection Heq. lia.
Qed.

Lemma timer_arm_ok tm d a : timer_ok tm → timer_ok (timer_arm tm d a).1.
Proof.
  intros Hok. pose proof Hok as [Hs Hn Hp Hr]. unfold timer_arm. cbn.
  destruct (tmap_insert_spec (t_entries tm) (d, t_next tm) a Hs (timer_ok_fresh _ _ Hok)) as [Hs' Hp'].
  split; cbn.
  - done.
  - rewrite Hp'. constructor; cbn; [lia|]. eapply Forall_impl; [exact Hn|]. cbn. intros e He. lia.
  - rewrite Hp', Hp. cbn [length]. lia.
  - done.
Qed.

Lemma filter_sorted {A} (R : A → A → Prop) (P : A → Prop) `{!∀ x, Decision (P x)} (l : list A) :
  StronglySorted R l → StronglySorted R (filter P l).
Proof.
  induction 1 as [|x l Hs IH Hall]; [constructor|]. rewrite filter_cons. case_decide; [|done].
  apply StronglySorted_cons. split; [|done].
  apply Forall_forall. intros y [_ Hy]%list_elem_of_filter. by apply (proj1 (Forall_forall _ _) Hall).
Qed.

(** Taking an entry out before its time undoes arming it: the timer's
    entries and its count are what they were. *)
Theorem disarm_arm tm d a :
  timer_ok tm →
  let '(tm1, id) := timer_arm tm d a in
  let '(tm2, removed) := disarm tm1 id in
  removed = true ∧ t_entries tm2 = t_entries tm ∧ t_pending tm2 = t_pending tm ∧
  (disarm tm2 id).2 = false.
Proof.
  intros Hok. pose proof Hok as [Hs Hn Hp _]. pose proof (timer_ok_fresh tm d Hok) as Hfr.
  destruct (tmap_insert_spec (t_entries tm) (d, t_next tm) a Hs Hfr) as [Hs' Hp'].
  unfold timer_arm, disarm, tmap_remove. cbn.
  assert (Hin : bool_decide ((d, t_next tm) ∈ (tmap_insert (t_entries tm) (d, t_next tm) a).*1) = true).
  { apply bool_decide_eq_true. rewrite Hp'. cbn. set_solver. }
  assert (Hback : filter (λ e, e.1 ≠ (d, t_next tm)) (tmap_insert (t_entries tm) (d, t_next tm) a)
                  = t_entries tm).
  { clear Hs Hs' Hp Hp' Hin Hok Hn. induction (t_entries tm) as [|[k' a'] m IH]; cbn [tmap_insert].
    - rewrite filter_cons_False; [done|]. naive_solver.
    - apply Forall_cons in Hfr as [Hne Hfr]. cbn in Hne.
      pose proof (filter_Forall_id (λ e : TimerId * Action, e.1 ≠ (d, t_next tm)) m Hfr) as Hm.
      destruct (tid_ltb (d, t_next tm) k') eqn:H12; [|destruct (tid_ltb k' (d, t_next tm)) eqn:H21].
      + rewrite filter_cons_False, filter_cons_True, Hm; naive_solver.
      + rewrite filter_cons_True, IH; naive_solver.
      + exfalso. apply Hne. destruct k' as [d' n'].
        assert (¬ tid_lt (d, t_next tm) (d', n')) as H1 by (unfold tid_lt; congruence).
        assert (¬ tid_lt (d', n') (d, t_next tm)) as H2 by (unfold tid_lt; congruence).
        rewrite tid_lt_spec in H1, H2. cbn in *. f_equal; lia. }
  rewrite Hin, Hback. split; [done|]. split; [done|]. split; [lia|].
  apply bool_decide_eq_false. cbn. intros (e & Heq & He)%list_elem_of_fmap.
  apply (proj1 (Forall_forall _ _) Hfr) in He. naive_solver.
Qed.

(** What is due at a reading of the clock: everything once the clock has
    failed. *)
Definition due_at (tm : Timer) (now : N) (failed : bool) : TMap :=
  filter (λ e, failed = true ∨ (timer_deadline e.1 <= now)%N) (t_entries tm).
Definition later_than (tm : Timer) (now : N) (failed : bool) : TMap :=
  filter (λ e, failed = false ∧ (now < timer_deadline e.1)%N) (t_entries tm).

Lemma tid_ltb_due (d n now : N) :
  (n < u64_max)%N → tid_ltb (d, n) (now, u64_max) = bool_decide (d <= now)%N.
Proof.
  intros Hn. apply eq_bool_prop_intro. rewrite bool_decide_spec.
  rewrite Is_true_true. change (tid_lt (d, n) (now, u64_max) ↔ (d <= now)%N).
  rewrite tid_lt_spec. cbn. lia.
Qed.

Lemma take_due_spec tm now failed :
  timer_ok tm → (t_next tm <= u64_max)%N →
  take_due tm now failed =
  (due_at tm now failed, mkTimer (t_next tm) (later_than tm now failed) (t_pending tm) (t_rounds tm)).
Proof.
  intros [_ Hn _ _] Hmax. unfold take_due, tmap_split_off, due_at, later_than. destruct failed.
  - f_equal; [|f_equal].
    + symmetry. apply filter_Forall_id, Forall_true. by left.
    + symmetry. induction (t_entries tm) as [|e m IH]; [done|].
      rewrite filter_cons_False by naive_solver. apply IH. by inv Hn.
  - assert (Hx : ∀ e, e ∈ t_entries tm →
      tid_ltb e.1 (now, u64_max) = bool_decide (timer_deadline e.1 <= now)%N).
    { intros [[d n] a] He. apply (proj1 (Forall_forall _ _) Hn) in He. cbn in *.
      apply tid_ltb_due. lia. }
    f_equal; [|f_equal]; apply filter_ext_in; intros e He; rewrite (Hx e He),
      ?bool_decide_eq_true, ?bool_decide_eq_false; naive_solver lia.
Qed.

Lemma due_later_length tm now failed :
  length (due_at tm now failed) + length (later_than tm now failed) = length (t_entries tm).
Proof.
  unfold due_at, later_than. induction (t_entries tm) as [|e m IH]; [done|].
  rewrite !filter_cons. unfold timer_deadline.
  destruct failed, (N.lt_ge_cases now e.1.1) as [Hlt|Hge].
  all: repeat first [rewrite decide_True by (auto || lia) | rewrite decide_False by (intuition (done || lia))].
  all: cbn; unfold timer_deadline in *; lia.
Qed.

Lemma later_than_ok tm now failed :
  timer_ok tm →
  timer_ok (mkTimer (t_next tm) (later_than tm now failed)
              (t_pending tm - length (due_at tm now failed)) (t_rounds tm)).
Proof.
  intros [Hs Hn Hp Hr]. pose proof (due_later_length tm now failed) as Hlen.
  split; cbn; [by apply filter_sorted| |lia|done].
  apply Forall_forall. intros e [_ He]%list_elem_of_filter. by apply (proj1 (Forall_forall _ _) Hn).
Qed.

(** A round keeps the invariant when it begins, goes on and ends. *)
Lemma begin_round_ok tm now failed :
  timer_ok tm → (t_next tm <= u64_max)%N → timer_ok (begin_round tm now failed).
Proof.
  intros Hok Hmax. unfold begin_round. rewrite take_due_spec by done.
  pose proof (due_later_length tm now failed) as Hlen.
  destruct (later_than_ok tm now failed Hok) as [Hs Hn _ Hr]. pose proof (tok_pending _ Hok) as Hp.
  split; cbn in *; [done|done| |].
  - unfold under_way in *. rewrite fmap_app, sum_list_with_app. cbn. lia.
  - apply Forall_app. split; [done|]. constructor; [|constructor]. apply Nat.eq_le_incl, length_fmap.
Qed.

Lemma rounds_ok tm i a due count :
  timer_ok tm → t_rounds tm !! i = Some (a :: due, count) →
  timer_ok (with_rounds tm (<[i := (due, count)]> (t_rounds tm))).
Proof.
  intros [Hs Hn Hp Hr] Hi. split; cbn; [done|done| |].
  - rewrite Hp. unfold under_way. by rewrite list_fmap_insert, list_insert_id by (by rewrite list_lookup_fmap, Hi).
  - apply Forall_insert; [done|]. eapply Forall_lookup in Hr; [|done]. cbn in *. lia.
Qed.

Lemma end_round_ok tm i due count :
  timer_ok tm → t_rounds tm !! i = Some (due, count) → timer_ok (end_round tm i count).
Proof.
  intros [Hs Hn Hp Hr] Hi. split; cbn; [done|done| |by apply Forall_delete].
  rewrite Hp. unfold under_way. rewrite delete_take_drop.
  rewrite <-(take_drop_middle (t_rounds tm) i _ Hi) at 1.
  rewrite !fmap_app, !sum_list_with_app. cbn. lia.
Qed.

(** Nothing is pending only when nothing is armed and no round under way
    has anything left: no wake is on its way from the timer. *)
Theorem nothing_pending tm :
  timer_ok tm → t_pending tm = 0 → t_entries tm = [] ∧ Forall (λ r, r.1 = []) (t_rounds tm).
Proof.
  intros [_ _ Hp Hr] H0. split; [apply nil_length_inv; lia|].
  assert (Hz : under_way (t_rounds tm) = 0) by lia. clear Hp H0. unfold under_way in Hz.
  induction Hr as [|r rs Hle Hr IH]; constructor; cbn in Hz; [apply nil_length_inv; lia|].
  apply IH. lia.
Qed.

(** A round of the timer carries out exactly the entries whose
    deadline the clock has reached, in the order of their deadlines (and
    of their arming where those are equal), all of them when the clock
    has failed; the others stay in order and the count is right. *)
Theorem fire_due_exact {V E} (h : Heap V E) chs tm now failed :
  timer_ok tm → (t_next tm <= u64_max)%N →
  let due := due_at tm now failed in
  let later := later_than tm now failed in
  let '(h', chs', w, sent) := carry_out_all h chs no_wakes [] due.*2 in
  let tm' := mkTimer (t_next tm) later (length later + under_way (t_rounds tm)) (t_rounds tm) in
  fire_due h chs tm now failed = (h', chs', tm', sent ++ wakes_send w, length due) ∧
  timer_ok tm' ∧ StronglySorted (λ a b, tid_lt a.1 b.1) due.
Proof.
  intros Hok Hmax. cbn zeta. unfold fire_due. rewrite take_due_spec by done.
  pose proof (due_later_length tm now failed) as Hlen. pose proof (tok_pending _ Hok) as Hp.
  pose proof (later_than_ok tm now failed Hok) as Hlater.
  replace (t_pending tm - length (due_at tm now failed))
    with (length (later_than tm now failed) + under_way (t_rounds tm)) in * by lia.
  destruct (carry_out_all _ _ _ _ _) as [[[h' chs'] w] sent]. cbn. split; [|split].
  - repeat f_equal. lia.
  - done.
  - apply filter_sorted, Hok.
Qed.

(** Two entries, armed out of order; the clock reaches the first. *)
Lemma fire_due_exact_witness :
  let h := mkHeap ∅ {[0 := mkToken 5%N None None TParked; 1 := mkToken 6%N None None TParked]}
    : Heap nat nat in
  let tm := (fire_at (fire_at timer_new 30 0).1 10 1).1 in
  timer_ok tm ∧ (t_next tm <= u64_max)%N ∧
  due_at tm 20 false = [((10, 1)%N, ActFire 1)] ∧
  (fire_due h ∅ tm 20 false).1.2 = [6%N] ∧
  StronglySorted (λ a b, tid_lt a.1 b.1) (due_at tm 20 false).
Proof.
  cbn zeta.
  assert (Hok : timer_ok (fire_at (fire_at timer_new 30 0).1 10 1).1).
  { split; vm_compute; repeat constructor. }
  split; [exact Hok|]. split; [vm_compute; discriminate|].
  split; [vm_compute; reflexivity|]. split; [vm_compute; reflexivity|].
  pose proof (fire_due_exact (mkHeap ∅ {[0 := mkToken 5%N None None TParked;
    1 := mkToken 6%N None None TParked]} : Heap nat nat) ∅ _ 20 false Hok) as Hx.
  cbn zeta in Hx. destruct (carry_out_all _ _ _ _ _) as [[[h' chs'] w] sent].
  apply Hx. vm_compute. discriminate.
Defined.

Lemma disarm_arm_witness :
  timer_ok (fire_at timer_new 30 0).1 ∧
  let tm := (fire_at timer_new 30 0).1 in
  let '(tm1, id) := timer_arm tm 10 (ActExpire 4) in
  let '(tm2, removed) := disarm tm1 id in
  removed = true ∧ t_entries tm2 = t_entries tm ∧ t_pending tm2 = t_pending tm ∧
  (disarm tm2 id).2 = false.
Proof.
  assert (Hok : timer_ok (fire_at timer_new 30 0).1) by (split; vm_compute; repeat constructor).
  split; [exact Hok|]. apply (disarm_arm _ 10 (ActExpire 4) Hok).
Defined.
