(* ===== verification/Wait.v ===== *)
(** * What a task waits for, and the park that starts the wait
      (src/runtime/sync/wait.rs)

    The objects of the concurrency core are shared by reference; a [Sys]
    is the store of all of them.  [park] is total in the source but for
    its [expect]s: a panic is [None] here, and [park_total] (WaitFacts)
    shows there is none. *)

From S2P Require Import Prelude Token Channel Cell Timer.

(** One thing a wait can end on. *)
Inductive Arm (V : Type) :=
  | ArmRecv (c : nat)
  | ArmSend (c : nat) (v : V)
  | ArmCell (c : nat)
  | ArmDemand (c : nat).
Arguments ArmRecv {V} _.
Arguments ArmSend {V} _ _.
Arguments ArmCell {V} _.
Arguments ArmDemand {V} _.

(** An arm without its value: what a parked task is queued on. *)
Inductive Source :=
  | SrcRecv (c : nat)
  | SrcSend (c : nat)
  | SrcCell (c : nat)
  | SrcDemand (c : nat).

#[global] Instance Source_eq_dec : EqDecision Source.
Proof. solve_decision. Defined.

Record Wait (V : Type) := mkWait {
  arms : list (Arm V);
  deadline : option N;
  first : nat;
  cancel : option FlagId;
  task_deadline : option N;
  bounded : bool;
}.
Arguments mkWait {V} _ _ _ _ _ _.
Arguments arms {V} _.
Arguments deadline {V} _.
Arguments first {V} _.
Arguments cancel {V} _.
Arguments task_deadline {V} _.
Arguments bounded {V} _.

(** The two times that can end a wait, and whether each had come when the
    wait began. *)
Record Times := mkTimes {
  tm_deadline : option N;
  tm_expired : bool;
  tm_task_deadline : option N;
  tm_task_expired : bool;
}.

(** A task's place on the queues of its wait. *)
Record ParkedAt := mkParkedAt {
  p_token : TokId;
  p_sources : list Source;
  p_timer : option TimerId;
}.

(** The result of [park]. *)
Inductive Park (V E : Type) :=
  | PkReady (f : Fired V E)
  | PkParked (p : ParkedAt)
  | PkCancelled
  | PkExpired.
Arguments PkReady {V E} _.
Arguments PkParked {V E} _.
Arguments PkCancelled {V E}.
Arguments PkExpired {V E}.

(** The shared objects. *)
Record Sys (V E : Type) := mkSys {
  heap : Heap V E;
  chans : gmap nat (Channel V E);
  cells : gmap nat (Cell V);
  timer : Timer;
}.
Arguments mkSys {V E} _ _ _ _.
Arguments heap {V E} _.
Arguments chans {V E} _.
Arguments cells {V E} _.
Arguments timer {V E} _.

Section wait.
Context {V E : Type}.
Implicit Types (sys : Sys V E) (w : Wakes).

(** [Arm::split]. *)
Definition split_arm (a : Arm V) : Source * option V :=
  match a with
  | ArmRecv c => (SrcRecv c, None)
  | ArmSend c v => (SrcSend c, Some v)
  | ArmCell c => (SrcCell c, None)
  | ArmDemand c => (SrcDemand c, None)
  end.

(** [Source::channel]. *)
Definition source_channel (s : Source) : option nat :=
  match s with
  | SrcRecv c | SrcSend c | SrcDemand c => Some c
  | SrcCell _ => None
  end.

(** [Source::closes_by_timer]. *)
Definition source_closes_by_timer sys (s : Source) : bool :=
  match source_channel s ≫= λ c, chans sys !! c with
  | Some ch => closes_by_timer ch
  | None => false
  end.

(** [Wait::new] and the builders. *)
Definition wait_new (l : list (Arm V)) : Wait V := mkWait l None 0 None None true.
Definition unbounded (x : Wait V) : Wait V :=
  mkWait (arms x) (deadline x) (first x) (cancel x) (task_deadline x) false.
Definition with_task_deadline (x : Wait V) (d : option N) : Wait V :=
  if bounded x then mkWait (arms x) (deadline x) (first x) (cancel x) d (bounded x) else x.
Definition with_deadline (x : Wait V) (d : option N) : Wait V :=
  mkWait (arms x) d (first x) (cancel x) (task_deadline x) (bounded x).
Definition with_first (x : Wait V) (n : nat) : Wait V :=
  mkWait (arms x) (deadline x) n (cancel x) (task_deadline x) (bounded x).
Definition with_cancel (x : Wait V) (c : option FlagId) : Wait V :=
  mkWait (arms x) (deadline x) (first x) c (task_deadline x) (bounded x).

(** Whether the task of a wait that begins takes nothing new. *)
Definition takes_nothing_new (cancelled task_expired : bool) : bool := cancelled || task_expired.

(** [Times::arm]: one entry at the earlier of the two times; when both
    are the same reading it is the task's. *)
Definition times_arm (tm : Timer) (ts : Times) (t : TokId) : Timer * option TimerId :=
  match tm_deadline ts, tm_task_deadline ts with
  | Some own, Some tsk =>
      if (own <? tsk)%N
      then let '(tm', id) := fire_at tm own t in (tm', Some id)
      else let '(tm', id) := expire_at tm tsk t in (tm', Some id)
  | None, Some tsk => let '(tm', id) := expire_at tm tsk t in (tm', Some id)
  | Some own, None => let '(tm', id) := fire_at tm own t in (tm', Some id)
  | None, None => (tm, None)
  end.

Definition with_heap sys h : Sys V E := mkSys h (chans sys) (cells sys) (timer sys).

(** Put back what an operation made of the heap and of channel [c]. *)
Definition put_state sys (c : nat) h (s : State V E) : Sys V E :=
  mkSys h (alter (λ ch, set_state ch s) c (chans sys)) (cells sys) (timer sys).

Definition state_of sys (c : nat) : option (State V E) := chan_state <$> chans sys !! c.

Definition outcome_of_receive (r : TryReceive V E) : option (Outcome V E) :=
  match r with
  | RecvValue v => Some (OReceived v)
  | RecvClosed c => Some (OClosed c)
  | RecvEmpty => None
  end.

(** The outcome of a send, and the value that came back. *)
Definition outcome_of_send (r : TrySend V E) : option (Outcome V E) * option V :=
  match r with
  | SendSent => (Some OSent, None)
  | SendClosed c => (Some (OClosed c), None)
  | SendFull v => (None, Some v)
  end.

(** The look at one arm: the outcome if it could be completed, and what
    is left of its payload. *)
Definition try_arm sys (no_takes : bool) (src : Source) (payload : option V) w :
    option (Sys V E * Wakes * option (Outcome V E) * option V) :=
  match src with
  | SrcRecv c =>
      if no_takes then Some (sys, w, None, payload)
      else
        s ← state_of sys c;
        let '(h', s', w', r) := receive (heap sys) s w in
        Some (put_state sys c h' s', w', outcome_of_receive r, payload)
  | SrcDemand c =>
      if no_takes then Some (sys, w, None, payload)
      else s ← state_of sys c; Some (sys, w, demand s, payload)
  | SrcSend c =>
      v ← payload;
      s ← state_of sys c;
      let '(h', s', w', r) := send (heap sys) s v w in
      Some (put_state sys c h' s', w', (outcome_of_send r).1, (outcome_of_send r).2)
  | SrcCell c =>
      cell ← cells sys !! c;
      Some (sys, w, if cell_is_done cell then Some ODone else None, payload)
  end.

(** The loop over the arms, in the order given. *)
Fixpoint try_arms sys (no_takes : bool) (srcs : list Source) (payloads : list (option V)) w
    (order : list nat) : option (Sys V E * Wakes * option (Fired V E) * list (option V)) :=
  match order with
  | [] => Some (sys, w, None, payloads)
  | i :: order' =>
      src ← srcs !! i;
      payload ← payloads !! i;
      '(sys', w', o, payload') ← try_arm sys no_takes src payload w;
      let payloads' := <[i := payload']> payloads in
      match o with
      | Some out => Some (sys', w', Some (FArm i out), payloads')
      | None => try_arms sys' no_takes srcs payloads' w' order'
      end
  end.

(** [(0..count).map(|i| (first + i) % count)]. *)
Definition arm_order (start count : nat) : list nat :=
  (λ i, (start + i) mod count) <$> seq 0 count.

(** The channels of a wait, in the order their locks are taken: by
    address, each once. *)
Fixpoint dedup_adjacent (l : list nat) : list nat :=
  match l with
  | x :: ((y :: _) as l') => if decide (x = y) then dedup_adjacent l' else x :: dedup_adjacent l'
  | _ => l
  end.

Definition lock_order (srcs : list Source) : list nat :=
  dedup_adjacent (merge_sort le (omap source_channel srcs)).

(** Put the waiter of one arm on its channel's queue; a cell's comes
    later. *)
Definition push_waiter sys (src : Source) (x : Waiter V) : option (Sys V E) :=
  match src with
  | SrcRecv c =>
      s ← state_of sys c; Some (put_state sys c (heap sys) (with_recvq s (recvq s ++ [x])))
  | SrcSend c =>
      s ← state_of sys c; Some (put_state sys c (heap sys) (with_sendq s (sendq s ++ [x])))
  | SrcDemand c =>
      s ← state_of sys c; Some (put_state sys c (heap sys) (with_demandq s (demandq s ++ [x])))
  | SrcCell _ => Some sys
  end.

Fixpoint push_waiters sys (t : TokId) (arm : nat) (srcs : list Source) (payloads : list (option V)) :
    option (Sys V E) :=
  match srcs, payloads with
  | src :: srcs', p :: payloads' =>
      sys' ← push_waiter sys src (mkWaiter t arm p);
      push_waiters sys' t (S arm) srcs' payloads'
  | _, _ => Some sys
  end.

(** Join the queue of every cell of the wait. *)
Fixpoint join_cells sys (t : TokId) (arm : nat) (srcs : list Source) w : option (Sys V E * Wakes) :=
  match srcs with
  | [] => Some (sys, w)
  | SrcCell c :: srcs' =>
      cell ← cells sys !! c;
      let '(h', cell', w') := cell_enqueue (heap sys) cell (mkWaiter t arm None) w in
      join_cells (mkSys h' (chans sys) (<[c := cell']> (cells sys)) (timer sys)) t (S arm) srcs' w'
  | _ :: srcs' => join_cells sys t (S arm) srcs' w
  end.

(** What [park] does once no arm could be completed and nothing refuses
    the wait: the locked part up to the queues, then the cells, the wakes
    and the timer. *)
Definition enter_queues sys (tsk : TaskId) (c : option FlagId) (ts : Times)
    (srcs : list Source) (payloads : list (option V)) w :
    option (Sys V E * list TaskId * Park V E) :=
  let '(h1, t) := token_new (heap sys) tsk c in
  sys2 ← push_waiters (with_heap sys h1) t 0 srcs payloads;
  '(sys3, w3) ← join_cells sys2 t 0 srcs w;
  let '(tm', id) := times_arm (timer sys3) ts t in
  Some (mkSys (heap sys3) (chans sys3) (cells sys3) tm', wakes_send w3,
        PkParked (mkParkedAt t srcs id)).

(** [park] for a wait of any arms. *)
Definition park_many sys (tsk : TaskId) (l : list (Arm V)) (start : nat) (ts : Times)
    (c : option FlagId) : option (Sys V E * list TaskId * Park V E) :=
  let srcs := (split_arm <$> l).*1 in
  let payloads := (split_arm <$> l).*2 in
  let cancelled := is_set (heap sys) c in
  let no_takes := takes_nothing_new cancelled (tm_task_expired ts) in
  '(sys1, w1, ready, payloads1) ←
    try_arms sys no_takes srcs payloads no_wakes (arm_order start (length srcs));
  match ready with
  | Some fired => Some (sys1, wakes_send w1, PkReady fired)
  | None =>
      if cancelled then Some (sys1, [], PkCancelled)
      else if tm_task_expired ts then Some (sys1, [], PkExpired)
      else if tm_expired ts then Some (sys1, wakes_send w1, PkReady FDeadline)
      else enter_queues sys1 tsk c ts srcs payloads1 w1
  end.

(** [park_one]: the wait whose one arm is on a channel. *)
Definition park_one sys (tsk : TaskId) (a : Arm V) (ts : Times) (c : option FlagId) :
    option (Sys V E * list TaskId * Park V E) :=
  let finish sys1 w1 outcome (enqueue : Heap V E → TokId → option (Sys V E)) src :=
    match outcome with
    | Some o => Some (sys1, wakes_send w1, PkReady (FArm 0 o))
    | None =>
        if is_set (heap sys) c then Some (sys1, [], PkCancelled)
        else if tm_task_expired ts then Some (sys1, [], PkExpired)
        else if tm_expired ts then Some (sys1, wakes_send w1, PkReady FDeadline)
        else
          let '(h2, t) := token_new (heap sys1) tsk c in
          sys2 ← enqueue h2 t;
          let '(tm', id) := times_arm (timer sys2) ts t in
          Some (mkSys (heap sys2) (chans sys2) (cells sys2) tm', wakes_send w1,
                PkParked (mkParkedAt t [src] id))
    end in
  match split_arm a with
  | (SrcRecv ch, _) =>
      s ← state_of sys ch;
      let '(h1, s1, w1, outcome) :=
        if takes_nothing_new (is_set (heap sys) c) (tm_task_expired ts)
        then (heap sys, s, no_wakes, None)
        else let '(h1, s1, w1, r) := receive (heap sys) s no_wakes in
             (h1, s1, w1, outcome_of_receive r) in
      finish (put_state sys ch h1 s1) w1 outcome
        (λ h2 t, Some (put_state sys ch h2 (with_recvq s1 (recvq s1 ++ [mkWaiter t 0 None]))))
        (SrcRecv ch)
  | (SrcDemand ch, _) =>
      s ← state_of sys ch;
      let outcome :=
        if takes_nothing_new (is_set (heap sys) c) (tm_task_expired ts) then None else demand s in
      finish sys no_wakes outcome
        (λ h2 t, Some (put_state sys ch h2 (with_demandq s (demandq s ++ [mkWaiter t 0 None]))))
        (SrcDemand ch)
  | (SrcSend ch, Some v) =>
      s ← state_of sys ch;
      let '(h1, s1, w1, r) := send (heap sys) s v no_wakes in
      let '(outcome, back) := outcome_of_send r in
      finish (put_state sys ch h1 s1) w1 outcome
        (λ h2 t, Some (put_state sys ch h2 (with_sendq s1 (sendq s1 ++ [mkWaiter t 0 back]))))
        (SrcSend ch)
  | _ => None
  end.

(** [park].  [now] is what the clock reads if it is read; [at_once] is
    [Timer::ends_passed_deadlines_at_once], which only a test clears. *)
Definition wait_times (x : Wait V) (now : N) (at_once : bool) : Times :=
  let over at_ := match at_ with Some d => (d <=? now)%N | None => false end in
  mkTimes (deadline x) (over (deadline x) && at_once) (task_deadline x) (over (task_deadline x)).

Definition park sys (tsk : TaskId) (x : Wait V) (now : N) (at_once : bool) :
    option (Sys V E * list TaskId * Park V E) :=
  let ts := wait_times x now at_once in
  match arms x with
  | [ArmRecv _ as a] | [ArmSend _ _ as a] | [ArmDemand _ as a] =>
      park_one sys tsk a ts (cancel x)
  | l => park_many sys tsk l (first x) ts (cancel x)
  end.

(** [Parked::commit], [Parked::finish]. *)
Definition parked_commit sys (p : ParkedAt) : Sys V E * bool :=
  let '(h', b) := commit (heap sys) (p_token p) in (with_heap sys h', b).

Definition parked_finish sys (p : ParkedAt) : Sys V E * Take V E :=
  let '(h', r) := take (heap sys) (p_token p) in (with_heap sys h', r).

(** [Parked::deadline]. *)
Definition parked_deadline (p : ParkedAt) : option N := timer_deadline <$> p_timer p.

(** Take a token off the queue of one source. *)
Definition forget_source sys (t : TokId) (src : Source) : Sys V E :=
  match src with
  | SrcRecv c | SrcSend c | SrcDemand c =>
      match state_of sys c with
      | Some s => put_state sys c (heap sys) (forget (heap sys) s t)
      | None => sys
      end
  | SrcCell c =>
      mkSys (heap sys) (chans sys) (alter (λ x, cell_forget x t) c (cells sys)) (timer sys)
  end.

Fixpoint forget_sources sys (t : TokId) (ended : option nat) (arm : nat) (srcs : list Source) :
    Sys V E :=
  match srcs with
  | [] => sys
  | src :: srcs' =>
      let sys' := if decide (ended = Some arm) then sys else forget_source sys t src in
      forget_sources sys' t ended (S arm) srcs'
  end.

(** [Drop for Parked]: the wait ends, the task leaves every queue but
    that of the arm that ended it, and its deadline is disarmed. *)
Definition drop_parked sys (p : ParkedAt) : Sys V E :=
  let t := p_token p in
  let sys1 := with_heap sys (abandon (heap sys) t) in
  let sys2 := forget_sources sys1 t (ended_by (heap sys1) t) 0 (p_sources p) in
  match p_timer p with
  | Some id => mkSys (heap sys2) (chans sys2) (cells sys2) (disarm (timer sys2) id).1
  | None => sys2
  end.

End wait.
#[global] Arguments put_state : simpl never.
#[global] Arguments state_of : simpl never.
#[global] Arguments enter_queues : simpl never.
