(* ===== verification/WaitFacts.v ===== *)
(** * What a park does

    The invariant of the shared objects ([sys_ok]) is kept by [park]; a
    park wakes exactly the tasks of the parked waits it ended; [park_one]
    is [park_many] on one arm; a park that is refused has no effect; and
    the locks of a wait are taken in one order. *)

From S2P Require Import Prelude Token Channel ChannelFacts ChannelSpec Cell Timer Wait.

(** ** Reading and writing one channel *)
Section store.
Context {V E : Type}.
Implicit Types (sys : Sys V E).

Lemma state_of_put_eq sys c h s :
  is_Some (state_of sys c) → state_of (put_state sys c h s) c = Some s.
Proof.
  unfold state_of, put_state. cbn. rewrite lookup_alter_eq.
  intros [x Hx]. destruct (chans sys !! c); [done|]. discriminate.
Qed.

Lemma state_of_put_ne sys c c' h s :
  c ≠ c' → state_of (put_state sys c h s) c' = state_of sys c'.
Proof. intros Hne. unfold state_of, put_state. cbn. by rewrite lookup_alter_ne. Qed.

Lemma state_of_with_heap sys h c : state_of (with_heap sys h) c = state_of sys c.
Proof. done. Qed.

Lemma heap_put sys c h s : heap (put_state sys c h s) = h.
Proof. done. Qed.

Lemma put_put sys c h s h' s' :
  put_state (put_state sys c h s) c h' s' = put_state sys c h' s'.
Proof.
  unfold put_state. cbn. f_equal. apply map_eq. intros c'.
  destruct (decide (c = c')) as [->|]; [|by rewrite !lookup_alter_ne].
  rewrite !lookup_alter_eq. by destruct (chans sys !! c').
Qed.

Lemma put_with_heap sys c h h' s : put_state (with_heap sys h) c h' s = put_state sys c h' s.
Proof. done. Qed.

Lemma with_heap_put sys c h h' s : with_heap (put_state sys c h s) h' = put_state sys c h' s.
Proof. done. Qed.

Lemma put_same sys c s : state_of sys c = Some s → put_state sys c (heap sys) s = sys.
Proof.
  unfold state_of, put_state. destruct sys as [h chs cls tm]. cbn. intros Hs. f_equal.
  destruct (chs !! c) as [ch|] eqn:Hc; [|done]. cbn in Hs. simplify_eq.
  apply map_eq. intros c'. rewrite lookup_alter. case_decide; subst; [|done].
  rewrite Hc. cbn. by destruct ch.
Qed.

End store.

(** ** [park_one] is [park_many] *)
Section park_one.
Context {V E : Type}.
Implicit Types (sys : Sys V E).

Definition arm_channel (a : Arm V) : option nat := source_channel (split_arm a).1.

Lemma token_new_heap (h : Heap V E) tsk c :
  ∃ h' t, token_new h tsk c = (h', t).
Proof. unfold token_new. eauto. Qed.

(** The short path for a wait with one arm on a channel is the
    general one: the same state, the same wakes, the same result, for
    every arm, flag and pair of times, and whatever arm is to be tried
    first. *)
Lemma park_one_many sys tsk (a : Arm V) start ts c ch :
  arm_channel a = Some ch → is_Some (chans sys !! ch) →
  park_one sys tsk a ts c = park_many sys tsk [a] start ts c.
Proof.
  unfold arm_channel. intros Hch [x Hx].
  assert (Hs : state_of sys ch = Some (chan_state x)) by (unfold state_of; by rewrite Hx).
  assert (Hin : is_Some (state_of sys ch)) by eauto.
  assert (Ho : arm_order start 1 = [0]).
  { unfold arm_order. cbn [seq fmap list_fmap]. by rewrite Nat.mod_1_r. }
  unfold park_one, park_many. destruct a as [c0|c0 v|c0|c0]; cbn in Hch; simplify_eq;
    cbn [split_arm fmap list_fmap fst snd length]; rewrite Ho; cbn [try_arms lookup list_lookup mbind option_bind];
    unfold try_arm; rewrite Hs; cbn [mbind option_bind].
  - destruct (takes_nothing_new _ _) eqn:Hnt.
    + cbn. unfold takes_nothing_new in Hnt. rewrite put_same by done.
      destruct (is_set (heap sys) c); [done|]. cbn in Hnt. by rewrite Hnt.
    + destruct (receive _ _ _) as [[[h1 s1] w1] r]. cbn.
      destruct (outcome_of_receive r); cbn; [done|].
      destruct (is_set (heap sys) c), (tm_task_expired ts), (tm_expired ts); try done.
      unfold enter_queues. rewrite heap_put.
      destruct (token_new h1 tsk c) as [h2 t]. cbn.
      rewrite with_heap_put, state_of_put_eq by done. cbn. by rewrite put_put.
  - destruct (send _ _ _ _) as [[[h1 s1] w1] r]. cbn.
    destruct (outcome_of_send r) as [[o|] back]; cbn; [done|].
    destruct (is_set (heap sys) c), (tm_task_expired ts), (tm_expired ts); try done.
      unfold enter_queues. rewrite heap_put.
    destruct (token_new h1 tsk c) as [h2 t]. cbn.
    rewrite with_heap_put, state_of_put_eq by done. cbn. by rewrite put_put.
  - destruct (takes_nothing_new _ _) eqn:Hnt.
    + cbn. unfold takes_nothing_new in Hnt.
      destruct (is_set (heap sys) c); [done|]. cbn in Hnt. by rewrite Hnt.
    + cbn. destruct (demand (chan_state x)); cbn; [done|].
      destruct (is_set (heap sys) c), (tm_task_expired ts), (tm_expired ts); try done.
      unfold enter_queues.
      destruct (token_new (heap sys) tsk c) as [h2 t]. cbn.
      by rewrite state_of_with_heap, Hs.
Qed.

End park_one.

(** ** The invariant of the shared objects *)
Section sys_invariant.
Context {V E : Type}.
Implicit Types (sys : Sys V E) (w : Wakes).

Record sys_ok sys : Prop := mkSysOk {
  so_chans c s : state_of sys c = Some s → ch_ok (heap sys) s;
  so_cells c cell : cells sys !! c = Some cell → queued_in (heap sys) (cell_waiters cell);
  so_timer : timer_ok (timer sys);
}.

Lemma sys_ok_put sys c h s :
  sys_ok sys → heap_le (heap sys) h → ch_ok h s → sys_ok (put_state sys c h s).
Proof.
  intros [Hc Hl Ht] Hle Hs. split; [| |done].
  - intros c' s'. destruct (decide (c = c')) as [<-|Hne].
    + intros Heq. assert (Hin : is_Some (state_of sys c)).
      { unfold state_of, put_state in *. cbn in Heq. rewrite lookup_alter_eq in Heq.
        destruct (chans sys !! c); [|discriminate]. eauto. }
      rewrite (state_of_put_eq _ _ _ _ Hin) in Heq. by simplify_eq.
    + rewrite state_of_put_ne by done. intros Heq. eapply ch_ok_heap_le; [done|]. eauto.
  - intros c' cell Hc'. eapply queued_in_subseteq; eauto.
Qed.

Lemma sys_ok_with_heap sys h : sys_ok sys → heap_le (heap sys) h → sys_ok (with_heap sys h).
Proof.
  intros [Hc Hl Ht] Hle. split; [| |done].
  - intros c s Hs. eapply ch_ok_heap_le; [done|]. by eapply Hc.
  - intros c cell Hs. eapply queued_in_subseteq; [done|by eapply Hl|done].
Qed.

(** From one look to the next a channel that was seen idle stays so. *)
Record quiet sys sys' : Prop := mkQuiet {
  q_heap : heap_le (heap sys) (heap sys');
  q_state c s : state_of sys c = Some s →
    ∃ s', state_of sys' c = Some s' ∧ same_but_queues s s';
  q_cells : cells sys' = cells sys;
  q_timer : timer sys' = timer sys;
}.

#[global] Instance quiet_preorder : PreOrder quiet.
Proof.
  split.
  - intros sys. split; [done| |done|done]. intros c s Hs. exists s. by split.
  - intros s1 s2 s3 [H1 H2 H3 H4] [H5 H6 H7 H8]. split; [by etrans| |congruence|congruence].
    intros c s Hs. destruct (H2 c s Hs) as (s' & Hs' & Hq).
    destruct (H6 c s' Hs') as (s'' & Hs'' & Hq'). exists s''. split; [done|]. by etrans.
Qed.

Lemma quiet_put sys c h s s' :
  state_of sys c = Some s → heap_le (heap sys) h → same_but_queues s s' →
  quiet sys (put_state sys c h s').
Proof.
  intros Hs Hle Hq. split; [done| |done|done]. intros c' s0 Hs0.
  destruct (decide (c = c')) as [<-|Hne].
  - exists s'. rewrite state_of_put_eq by eauto. by simplify_eq.
  - exists s0. rewrite state_of_put_ne by done. by split.
Qed.

(** What a look that found nothing shows of an arm's source. *)
Definition arm_idle sys (src : Source) : Prop :=
  match src with
  | SrcRecv c => ∃ s, state_of sys c = Some s ∧ buf s = [] ∧ closed s = None ∧
                      live (heap sys) (sendq s) = []
  | SrcSend c => ∃ s, state_of sys c = Some s ∧ capacity s <= length (buf s) ∧ closed s = None ∧
                      live (heap sys) (recvq s) = []
  | SrcDemand c => ∃ s, state_of sys c = Some s ∧ closed s = None
  | SrcCell c => is_Some (cells sys !! c)
  end.

Lemma live_nil_quiet h h' (q q' : list (Waiter V)) :
  heap_le h h' → queued_in (E:=E) h q → q' ⊆ q → live h q = [] → live h' q' = [].
Proof.
  intros Hle Hq Hsub Hl. pose proof (live_subseteq _ _ _ _ Hle Hq Hsub) as Hs.
  rewrite Hl in Hs. destruct (live h' q') as [|x l]; [done|].
  exfalso. specialize (Hs x). set_solver.
Qed.

Lemma arm_idle_quiet sys sys' src :
  sys_ok sys → quiet sys sys' → arm_idle sys src → arm_idle sys' src.
Proof.
  intros Hok Hq. destruct src as [c|c|c|c]; cbn.
  - intros (s & Hs & Hb & Hcl & Hl). destruct (q_state _ _ Hq c s Hs) as (s' & Hs' & Hsame).
    exists s'. destruct Hsame as [H1 H2 H3 H4 H5 H6]. repeat split; try congruence.
    eapply live_nil_quiet; eauto using q_heap. eapply ok_in_sendq, so_chans; eauto.
  - intros (s & Hs & Hb & Hcl & Hl). destruct (q_state _ _ Hq c s Hs) as (s' & Hs' & Hsame).
    exists s'. destruct Hsame as [H1 H2 H3 H4 H5 H6]. repeat split; try congruence.
    eapply live_nil_quiet; eauto using q_heap. eapply ok_in_recvq, so_chans; eauto.
  - by rewrite (q_cells _ _ Hq).
  - intros (s & Hs & Hcl). destruct (q_state _ _ Hq c s Hs) as (s' & Hs' & Hsame).
    exists s'. destruct Hsame. split; congruence.
Qed.

(** One look: the invariant is kept, the wakes are those of the waits it
    ended, and when it found nothing the arm is idle. *)
Lemma try_arm_spec sys nt src p w sys' w' o p' :
  sys_ok sys → try_arm sys nt src p w = Some (sys', w', o, p') →
  sys_ok sys' ∧ moves (heap sys, w) (heap sys', w') ∧
  (o = None → p' = p ∧ quiet sys sys' ∧ (nt = false → arm_idle sys' src)) ∧
  (o = None → nt = true → heap sys' = heap sys ∧ w' = w).
Proof.
  intros Hok. destruct src as [c|c|c|c]; cbn.
  - destruct nt; [intros [= <- <- <- <-]; naive_solver|].
    destruct (state_of sys c) as [s|] eqn:Hs; [|done]. cbn.
    pose proof (so_chans _ Hok _ _ Hs) as Hch.
    destruct (receive _ _ _) as [[[h1 s1] w1] r] eqn:Hr. intros [= <- <- <- <-].
    pose proof (receive_moves _ _ _ _ _ _ _ Hr) as Hm.
    pose proof (moves_heap_le _ _ _ _ Hm) as Hle.
    split; [eauto using sys_ok_put, receive_ok|]. split; [done|]. split; [|done].
    destruct r; try done. intros _. split; [done|].
    apply receive_empty in Hr as (Hb & Hcl & Hq' & Hl & _ & _ & _ & Hsame); [|by apply Hch].
    split; [by eapply quiet_put|]. intros _. exists s1. rewrite state_of_put_eq by eauto.
    destruct Hsame. rewrite Hq'. repeat split; congruence.
  - destruct p as [v|]; [|done]. cbn.
    destruct (state_of sys c) as [s|] eqn:Hs; [|done]. cbn.
    pose proof (so_chans _ Hok _ _ Hs) as Hch.
    destruct (send _ _ _ _) as [[[h1 s1] w1] r] eqn:Hr. intros [= <- <- <- <-].
    pose proof (send_moves _ _ _ _ _ _ _ _ Hr) as Hm.
    pose proof (moves_heap_le _ _ _ _ Hm) as Hle.
    split; [eauto using sys_ok_put, send_ok|]. split; [done|].
    destruct r; try done. apply send_full in Hr as (-> & -> & -> & Hb & Hcl & Hl & Hq' & _ & Hsame).
    split; [|done]. intros _. split; [done|].
    split; [by eapply quiet_put|]. intros _. exists s1. rewrite state_of_put_eq by eauto.
    destruct Hsame. rewrite Hq'. repeat split; congruence.
  - destruct (cells sys !! c) as [cell|] eqn:Hc; [|done]. cbn. intros [= <- <- <- <-].
    split; [done|]. split; [reflexivity|]. split; [|done]. intros _. split; [done|].
    split; [reflexivity|]. by eauto.
  - destruct nt; [intros [= <- <- <- <-]; naive_solver|].
    destruct (state_of sys c) as [s|] eqn:Hs; [|done]. cbn. intros [= <- <- <- <-].
    split; [done|]. split; [reflexivity|]. split; [|done]. intros Hd. split; [done|].
    split; [reflexivity|]. intros _. exists s. split; [done|].
    unfold demand in Hd. by destruct (closed s).
Qed.

End sys_invariant.

(** ** The loop over the arms and the queues *)
Section park_ok.
Context {V E : Type}.
Implicit Types (sys : Sys V E) (w : Wakes).

Lemma try_arms_spec sys nt srcs ps w order sys' w' r ps' :
  sys_ok sys → try_arms sys nt srcs ps w order = Some (sys', w', r, ps') →
  sys_ok sys' ∧ moves (heap sys, w) (heap sys', w') ∧
  (r = None → ps' = ps ∧ quiet sys sys' ∧
     (nt = false → ∀ i src, i ∈ order → srcs !! i = Some src → arm_idle sys' src)) ∧
  (r = None → nt = true → heap sys' = heap sys ∧ w' = w).
Proof.
  revert sys ps w. induction order as [|i order IH]; intros sys ps w Hok; cbn.
  { intros [= <- <- <- <-]. split; [done|]. split; [reflexivity|]. split; [|done].
    intros _. split; [done|]. split; [reflexivity|]. set_solver. }
  destruct (srcs !! i) as [src|] eqn:Hi; [|done]. cbn.
  destruct (ps !! i) as [p|] eqn:Hp; [|done]. cbn.
  destruct (try_arm sys nt src p w) as [[[[sys1 w1] o] p1]|] eqn:Ht; [|done]. cbn.
  apply try_arm_spec in Ht as (Hok1 & Hm1 & Hq1 & Hnt1); [|done].
  destruct o as [out|].
  { intros [= <- <- <- <-]. naive_solver. }
  destruct Hq1 as (-> & Hq1 & Hi1); [done|]. rewrite list_insert_id by done.
  intros (Hok2 & Hm2 & Hq2 & Hnt2)%IH; [|done].
  split; [done|]. split; [by etrans|]. split.
  - intros Hr. destruct (Hq2 Hr) as (-> & Hq & Hall). split; [done|]. split; [by etrans|].
    intros Hf j srcj Hj Hsj. apply list_elem_of_In in Hj as [<-|Hj%list_elem_of_In]; [|by eauto].
    simplify_eq. eapply arm_idle_quiet; [exact Hok1|exact Hq|by apply Hi1].
  - intros Hr Hf. destruct (Hnt1 eq_refl Hf) as [Heq1 ->]. destruct (Hnt2 Hr Hf) as [Heq2 ->].
    split; congruence.
Qed.

(** Idle, but for waiters of [t] itself. *)
Definition idle_for (t : TokId) sys (src : Source) : Prop :=
  match src with
  | SrcRecv c => ∃ s, state_of sys c = Some s ∧ buf s = [] ∧ closed s = None ∧
                      ∀ x, x ∈ live (heap sys) (sendq s) → w_token x = t
  | SrcSend c => ∃ s, state_of sys c = Some s ∧ capacity s <= length (buf s) ∧ closed s = None ∧
                      ∀ x, x ∈ live (heap sys) (recvq s) → w_token x = t
  | SrcDemand c => ∃ s, state_of sys c = Some s ∧ closed s = None
  | SrcCell c => True
  end.

Lemma arm_idle_for t sys src : arm_idle sys src → idle_for t sys src.
Proof.
  destruct src; cbn; try naive_solver.
  - intros (s & ? & ? & ? & Hl). exists s. rewrite Hl. set_solver.
  - intros (s & ? & ? & ? & Hl). exists s. rewrite Hl. set_solver.
Qed.

(** The arm's payload is there exactly where it is needed. *)
Definition payload_fits (src : Source) (p : option V) : Prop :=
  match src with SrcSend _ => is_Some p | _ => True end.

(** A waiter of [t] more on one queue: what else waits there is as it
    was. *)
Lemma ch_ok_push_recv h (s : State V E) x :
  ch_ok h s → is_Some (tokens h !! w_token x) → buf s = [] → closed s = None →
  (∀ y, y ∈ live h (sendq s) → w_token y = w_token x) →
  ch_ok h (with_recvq s (recvq s ++ [x])).
Proof.
  intros Hok Hx Hb Hcl Hl. pose proof Hok as []. split; cbn; try done.
  - apply Forall_app. split; [done|]. by constructor.
  - intros r x' Hr Hx'. rewrite live_app in Hr. apply elem_of_app in Hr as [Hr|Hr]; [by eauto|].
    apply elem_of_live in Hr as [_ ->%list_elem_of_singleton]. symmetry. by apply Hl.
Qed.

Lemma ch_ok_push_send h (s : State V E) x :
  ch_ok h s → is_Some (tokens h !! w_token x) → is_Some (w_payload x) →
  capacity s <= length (buf s) → closed s = None →
  (∀ y, y ∈ live h (recvq s) → w_token y = w_token x) →
  ch_ok h (with_sendq s (sendq s ++ [x])).
Proof.
  intros Hok Hx Hp Hb Hcl Hl. pose proof Hok as []. split; cbn; try done.
  - apply Forall_app. split; [done|]. by constructor.
  - apply Forall_app. split; [done|]. by constructor.
  - intros y _. split; [lia|done].
  - intros r x' Hr Hx'. rewrite live_app in Hx'. apply elem_of_app in Hx' as [Hx'|Hx']; [by eauto|].
    apply elem_of_live in Hx' as [_ ->%list_elem_of_singleton]. by apply Hl.
Qed.

Lemma ch_ok_push_demand h (s : State V E) x :
  ch_ok h s → is_Some (tokens h !! w_token x) → closed s = None →
  ch_ok h (with_demandq s (demandq s ++ [x])).
Proof.
  intros Hok Hx Hcl. pose proof Hok as []. split; cbn; try done.
  apply Forall_app. split; [done|]. by constructor.
Qed.

Lemma push_waiter_spec sys src t arm p sys' :
  sys_ok sys → is_Some (tokens (heap sys) !! t) → idle_for t sys src → payload_fits src p →
  push_waiter sys src (mkWaiter t arm p) = Some sys' →
  sys_ok sys' ∧ heap sys' = heap sys ∧ cells sys' = cells sys ∧ timer sys' = timer sys ∧
  ∀ src', idle_for t sys src' → idle_for t sys' src'.
Proof.
  intros Hok Ht Hidle Hfit.
  assert (Hput : ∀ c s s', state_of sys c = Some s → ch_ok (heap sys) s' →
    capacity s' = capacity s → buf s' = buf s → closed s' = closed s →
    (∀ x, x ∈ live (heap sys) (recvq s') → x ∈ live (heap sys) (recvq s) ∨ w_token x = t) →
    (∀ x, x ∈ live (heap sys) (sendq s') → x ∈ live (heap sys) (sendq s) ∨ w_token x = t) →
    let sys2 := put_state sys c (heap sys) s' in
    sys_ok sys2 ∧ heap sys2 = heap sys ∧ cells sys2 = cells sys ∧ timer sys2 = timer sys ∧
    ∀ src', idle_for t sys src' → idle_for t sys2 src').
  { intros c s s' Hs Hch Hc1 Hc2 Hc3 Hr Hq. cbn zeta. split; [by apply sys_ok_put|].
    split; [done|]. split; [done|]. split; [done|].
    intros src'. destruct src' as [c'|c'|c'|c']; cbn; try done.
    all: destruct (decide (c = c')) as [<-|Hne]; [|by rewrite state_of_put_ne].
    all: rewrite state_of_put_eq by eauto.
    all: intros (s0 & Hs0 & Hrest); simplify_eq; exists s'; rewrite ?Hc1, ?Hc2, ?Hc3.
    all: naive_solver. }
  assert (Hlive : ∀ q x, x ∈ live (heap sys) (q ++ [mkWaiter t arm p]) →
    x ∈ live (heap sys) q ∨ w_token x = t).
  { intros q x. rewrite live_app. intros [Hx|Hx]%elem_of_app; [by left|right].
    apply elem_of_live in Hx as [_ Hx]. set_solver. }
  destruct src as [c|c|c|c]; cbn in *.
  - destruct Hidle as (s & Hs & Hb & Hcl & Hl). rewrite Hs. cbn. intros [= <-].
    eapply Hput; cbn; eauto. by apply ch_ok_push_recv; eauto using so_chans.
  - destruct Hidle as (s & Hs & Hb & Hcl & Hl). rewrite Hs. cbn. intros [= <-].
    eapply Hput; cbn; eauto. by apply ch_ok_push_send; eauto using so_chans.
  - by intros [= <-].
  - destruct Hidle as (s & Hs & Hcl). rewrite Hs. cbn. intros [= <-].
    eapply Hput; cbn; eauto. by apply ch_ok_push_demand; eauto using so_chans.
Qed.

Lemma push_waiters_spec sys t arm srcs ps sys' :
  sys_ok sys → is_Some (tokens (heap sys) !! t) → Forall (idle_for t sys) srcs →
  Forall2 payload_fits srcs ps →
  push_waiters sys t arm srcs ps = Some sys' →
  sys_ok sys' ∧ heap sys' = heap sys ∧ cells sys' = cells sys ∧ timer sys' = timer sys.
Proof.
  intros Hok Ht Hidle Hfit. revert sys arm Hok Ht Hidle.
  induction Hfit as [|src p srcs ps Hp Hfit IH]; intros sys arm Hok Ht Hidle; cbn.
  { by intros [= <-]. }
  apply Forall_cons in Hidle as [Hi Hidle].
  destruct (push_waiter sys src _) as [sys1|] eqn:Hpush; [|done]. cbn.
  apply push_waiter_spec in Hpush as (Hok1 & Hh & Hc & Htm & Hkeep); [|done..].
  intros (Hok' & H1 & H2 & H3)%IH; [|done|by rewrite Hh|].
  - split; [done|]. repeat split; congruence.
  - eapply Forall_impl; [exact Hidle|]. done.
Qed.

Lemma join_cells_spec sys t arm srcs w sys' w' :
  sys_ok sys → is_Some (tokens (heap sys) !! t) →
  join_cells sys t arm srcs w = Some (sys', w') →
  sys_ok sys' ∧ moves (heap sys, w) (heap sys', w') ∧ chans sys' = chans sys ∧ timer sys' = timer sys.
Proof.
  revert sys arm w. induction srcs as [|src srcs IH]; intros sys arm w Hok Ht; cbn.
  { intros [= <- <-]. split; [done|]. split; [reflexivity|]. done. }
  destruct src as [c|c|c|c]; [by apply IH|by apply IH| |by apply IH].
  destruct (cells sys !! c) as [cell|] eqn:Hc; [|done]. cbn.
  destruct (cell_enqueue _ _ _ _) as [[h1 cell1] w1] eqn:He.
  pose proof (cell_enqueue_moves _ _ _ _ _ _ _ He) as Hm.
  pose proof (moves_heap_le _ _ _ _ Hm) as Hle.
  intros (Hok' & Hm' & H1 & H2)%IH.
  - split; [done|]. split; [by etrans|]. done.
  - pose proof Hok as [Hch Hcl Htm]. split; [| |done].
    + intros c' s Hs. eapply ch_ok_heap_le; [done|]. by eapply Hch.
    + intros c' cell' Hc'. cbn in Hc'. rewrite lookup_insert in Hc'. case_decide; simplify_eq.
      * eapply queued_in_subseteq; [exact Hle| |reflexivity].
        unfold cell_enqueue in He. repeat case_match; simplify_eq; cbn; try by eapply Hcl.
        apply Forall_app. split; [by eapply Hcl|]. by constructor.
      * eapply queued_in_subseteq; [exact Hle|by eapply Hcl|done].
  - cbn. apply (Hle t Ht).
Qed.

End park_ok.

(** ** The park as a whole *)
Section park_spec.
Context {V E : Type}.
Implicit Types (sys : Sys V E) (w : Wakes).

(** Every arm is looked at, whichever is first. *)
Lemma elem_of_arm_order start n i : i < n → i ∈ arm_order start n.
Proof.
  intros Hi. apply list_elem_of_fmap. exists ((i + (n - start mod n)) mod n). split.
  - assert (Hn : n ≠ 0) by lia. pose proof (Nat.mod_upper_bound start n Hn) as Hb.
    rewrite Nat.Div0.add_mod_idemp_r, <-Nat.Div0.add_mod_idemp_l.
    replace (start mod n + (i + (n - start mod n))) with (i + 1 * n) by lia.
    rewrite Nat.Div0.mod_add. by rewrite Nat.mod_small.
  - apply elem_of_seq. pose proof (Nat.mod_upper_bound (i + (n - start mod n)) n). lia.
Qed.

Lemma split_arms_fit (l : list (Arm V)) :
  Forall2 payload_fits ((split_arm <$> l).*1) ((split_arm <$> l).*2).
Proof. induction l as [|[] l IH]; cbn; constructor; cbn; eauto. Qed.

Lemma times_arm_ok tm ts t : timer_ok tm → timer_ok (times_arm tm ts t).1.
Proof.
  intros Hok. unfold times_arm, fire_at, expire_at.
  destruct (tm_deadline ts) as [d1|], (tm_task_deadline ts) as [d2|]; try done.
  - case_match; cbn; by apply timer_arm_ok.
  - cbn; by apply timer_arm_ok.
  - cbn; by apply timer_arm_ok.
Qed.

Lemma enter_queues_spec sys tsk c ts srcs ps w sys' ws r :
  sys_ok sys → Forall (arm_idle sys) srcs → Forall2 payload_fits srcs ps →
  enter_queues sys tsk c ts srcs ps w = Some (sys', ws, r) →
  sys_ok sys' ∧ ∃ w', ws = wakes_send w' ∧ moves (heap sys, w) (heap sys', w').
Proof.
  intros Hok Hidle Hfit. unfold enter_queues.
  pose proof (token_new_evolves (heap sys) tsk c) as Hev.
  pose proof (token_new_lookup (heap sys) tsk c) as Hlk.
  destruct (token_new (heap sys) tsk c) as [h1 t]. cbn in *.
  pose proof (evolves_heap_le _ _ _ Hev) as Hle.
  destruct (push_waiters _ t 0 srcs ps) as [sys2|] eqn:Hpush; [|done]. cbn.
  assert (Hok1 : sys_ok (with_heap sys h1)) by by apply sys_ok_with_heap.
  apply push_waiters_spec in Hpush as (Hok2 & Hh2 & Hc2 & Ht2); [|done|cbn; eauto| |done].
  2:{ eapply Forall_impl; [exact Hidle|]. intros src Hs. apply arm_idle_for.
      eapply arm_idle_quiet; [exact Hok| |exact Hs].
      split; [done| |done|done]. intros c' s Hs'. exists s. by split. }
  destruct (join_cells sys2 t 0 srcs w) as [[sys3 w3]|] eqn:Hj; [|done]. cbn.
  apply join_cells_spec in Hj as (Hok3 & Hm3 & Hch3 & Ht3); [|done|rewrite Hh2; cbn; eauto].
  pose proof (times_arm_ok (timer sys3) ts t (so_timer _ Hok3)) as Htok.
  destruct (times_arm (timer sys3) ts t) as [tm' id]. intros [= <- <- <-]. cbn in *.
  split; [by destruct Hok3; split|]. exists w3. split; [done|].
  rewrite Hh2 in Hm3. cbn in Hm3. etrans; [|exact Hm3].
  exists []. rewrite app_nil_r. by split.
Qed.

(** A park keeps the invariant of every channel, cell and the timer,
    whatever its arms, and wakes exactly the tasks of the parked waits it
    ended, each once; the wakes of a park that is refused are none. *)
Lemma park_many_sound sys tsk (l : list (Arm V)) start ts c sys' ws r :
  sys_ok sys → park_many sys tsk l start ts c = Some (sys', ws, r) →
  sys_ok sys' ∧ evolves (heap sys) ws (heap sys').
Proof.
  intros Hok. unfold park_many.
  destruct (try_arms _ _ _ _ _ _) as [[[[sys1 w1] ready] ps1]|] eqn:Ht; [|done]. cbn.
  apply try_arms_spec in Ht as (Hok1 & Hm1 & Hq1 & Hnt); [|done].
  pose proof (moves_evolves _ _ _ Hm1) as Hev. destruct ready as [fired|].
  { by intros [= <- <- <-]. }
  destruct (Hq1 eq_refl) as (-> & Hq & Hidle). unfold takes_nothing_new in *.
  assert (Hrefused : is_set (heap sys) c || tm_task_expired ts = true →
    sys_ok sys1 ∧ evolves (heap sys) [] (heap sys1)).
  { intros Hn. destruct (Hnt eq_refl Hn) as [Hh ->]. done. }
  destruct (is_set (heap sys) c); [intros [= <- <- <-]; by apply Hrefused|].
  destruct (tm_task_expired ts); [intros [= <- <- <-]; by apply Hrefused|].
  destruct (tm_expired ts); [by intros [= <- <- <-]|].
  intros (Hok' & w' & -> & Hm')%enter_queues_spec.
  - split; [done|]. apply moves_evolves. by etrans.
  - done.
  - apply Forall_lookup. intros i src Hi. eapply Hidle; [done| |done].
    apply elem_of_arm_order. by eapply lookup_lt_Some.
  - apply split_arms_fit.
Qed.

(** Nothing that anybody can see has changed. *)
Record unchanged sys sys' : Prop := mkUnchanged {
  un_heap : heap sys' = heap sys;
  un_cells : cells sys' = cells sys;
  un_timer : timer sys' = timer sys;
  un_abs c s : state_of sys c = Some s →
    ∃ s', state_of sys' c = Some s' ∧ abs (heap sys') s' = abs (heap sys) s;
}.

#[global] Instance unchanged_preorder : PreOrder unchanged.
Proof.
  split.
  - intros sys. split; try done. eauto.
  - intros s1 s2 s3 [H1 H2 H3 H4] [H5 H6 H7 H8]. split; [congruence..|].
    intros c s Hs. destruct (H4 c s Hs) as (s' & Hs' & Ha).
    destruct (H8 c s' Hs') as (s'' & Hs'' & Ha'). exists s''. split; congruence.
Qed.

Lemma send_full_abs h (s : State V E) v w h' s' w' v' :
  send h s v w = (h', s', w', SendFull v') → abs h' s' = abs h s.
Proof.
  intros (p & Hs & _)%send_refines. unfold a_send in Hs.
  destruct (a_closed _); [done|]. destruct (a_takers _) as [|[t arm] ts]; [|done].
  case_decide; [done|]. by apply (f_equal (λ x, x.1.1)) in Hs.
Qed.

Lemma try_arm_unchanged sys src p w sys' w' p' :
  try_arm sys true src p w = Some (sys', w', None, p') → unchanged sys sys'.
Proof.
  destruct src as [c|c|c|c]; cbn.
  - by intros [= <- <- <-].
  - destruct p as [v|]; [|done]. cbn. destruct (state_of sys c) as [s|] eqn:Hs; [|done]. cbn.
    destruct (send _ _ _ _) as [[[h1 s1] w1] r] eqn:Hr. destruct r; cbn; try done.
    intros [= <- <- <-]. pose proof (send_full_abs _ _ _ _ _ _ _ _ Hr) as Habs.
    apply send_full in Hr as (-> & _). split; [done..|]. intros c' s' Hs'.
    destruct (decide (c = c')) as [<-|Hne].
    + exists s1. rewrite state_of_put_eq by eauto. assert (s' = s) as -> by congruence. done.
    + exists s'. by rewrite state_of_put_ne.
  - destruct (cells sys !! c); [|done]. cbn. intros Heq. by simplify_eq.
  - by intros [= <- <- <-].
Qed.

Lemma try_arms_unchanged sys srcs ps w order sys' w' ps' :
  try_arms sys true srcs ps w order = Some (sys', w', None, ps') → unchanged sys sys'.
Proof.
  revert sys ps w. induction order as [|i order IH]; intros sys ps w; cbn.
  { by intros [= <- <- <-]. }
  destruct (srcs !! i) as [src|]; [|done]. cbn. destruct (ps !! i) as [p|]; [|done]. cbn.
  destruct (try_arm sys true src p w) as [[[[sys1 w1] o] p1]|] eqn:Ht; [|done]. cbn.
  destruct o; [done|]. apply try_arm_unchanged in Ht. intros ?%IH. by etrans.
Qed.

(** A wait that is refused, because its task was cancelled or the
    task's time was over when it began, leaves no trace: nothing was taken
    or sent, no wait was ended, nobody is queued, and nothing else was
    woken; and a wait is refused only for those two reasons. *)
Lemma park_many_refused sys tsk (l : list (Arm V)) start ts c sys' ws r :
  park_many sys tsk l start ts c = Some (sys', ws, r) →
  r = PkCancelled ∨ r = PkExpired →
  unchanged sys sys' ∧ ws = [] ∧
  (r = PkCancelled → is_set (heap sys) c = true) ∧
  (r = PkExpired → is_set (heap sys) c = false ∧ tm_task_expired ts = true).
Proof.
  unfold park_many.
  destruct (try_arms _ _ _ _ _ _) as [[[[sys1 w1] ready] ps1]|] eqn:Ht; [|done]. cbn.
  destruct ready as [fired|]; [intros [= <- <- <-]; naive_solver|].
  unfold takes_nothing_new in Ht.
  destruct (is_set (heap sys) c) eqn:Hset; cbn in Ht.
  { intros [= <- <- <-] _. apply try_arms_unchanged in Ht. naive_solver. }
  destruct (tm_task_expired ts) eqn:Hx; cbn in Ht.
  { intros [= <- <- <-] _. apply try_arms_unchanged in Ht. naive_solver. }
  destruct (tm_expired ts); [intros [= <- <- <-]; naive_solver|].
  unfold enter_queues. destruct (token_new (heap sys1) tsk c) as [h1 t].
  destruct (push_waiters _ _ _ _ _) as [sys2|]; [|done]. cbn.
  destruct (join_cells _ _ _ _ _) as [[sys3 w3]|]; [|done]. cbn.
  destruct (times_arm _ _ _). intros [= <- <- <-]. naive_solver.
Qed.

End park_spec.

(** ** A park always has a result *)
Section park_total.
Context {V E : Type}.
Implicit Types (sys : Sys V E) (w : Wakes).

Definition source_exists sys (src : Source) : Prop :=
  match src with
  | SrcRecv c | SrcSend c | SrcDemand c => is_Some (chans sys !! c)
  | SrcCell c => is_Some (cells sys !! c)
  end.

Lemma state_of_is_Some sys c : is_Some (state_of sys c) ↔ is_Some (chans sys !! c).
Proof. unfold state_of. by rewrite fmap_is_Some. Qed.

Lemma quiet_exists sys sys' src : quiet sys sys' → source_exists sys src → source_exists sys' src.
Proof.
  intros Hq. destruct src; cbn; rewrite ?(q_cells _ _ Hq); try done;
    rewrite <-!state_of_is_Some; intros [s Hs]; destruct (q_state _ _ Hq _ _ Hs) as (s' & -> & _); eauto.
Qed.

Lemma try_arm_total sys nt src p w :
  source_exists sys src → payload_fits src p → is_Some (try_arm sys nt src p w).
Proof.
  destruct src as [c|c|c|c]; cbn; rewrite <-?state_of_is_Some; intros [s Hs] Hfit; rewrite ?Hs; cbn.
  - destruct nt; [eauto|]. destruct (receive _ _ _) as [[[h1 s1] w1] r]. eauto.
  - destruct Hfit as [v ->]. cbn.
    destruct (send _ _ _ _) as [[[h1 s1] w1] r]. eauto.
  - eauto.
  - destruct nt; eauto.
Qed.

Lemma try_arms_total sys nt srcs ps w order :
  sys_ok sys → Forall (source_exists sys) srcs → Forall2 payload_fits srcs ps →
  Forall (λ i, i < length srcs) order → is_Some (try_arms sys nt srcs ps w order).
Proof.
  intros Hok Hex Hfit Hord. revert sys w Hok Hex.
  induction Hord as [|i order Hi _ IH]; intros sys w Hok Hex; cbn; [eauto|].
  destruct (lookup_lt_is_Some_2 srcs i Hi) as [src Hsrc]. rewrite Hsrc. cbn.
  destruct (Forall2_lookup_l _ _ _ _ _ Hfit Hsrc) as (p & Hp & Hf). rewrite Hp. cbn.
  pose proof (Forall_lookup_1 _ _ _ _ Hex Hsrc) as Hsx.
  destruct (try_arm_total sys nt src p w Hsx Hf) as [[[[sys1 w1] o] p1] Ht]. rewrite Ht. cbn.
  apply try_arm_spec in Ht as (Hok1 & _ & Hq & _); [|done]. destruct o; [eauto|].
  destruct (Hq eq_refl) as (-> & Hq1 & _). rewrite list_insert_id by done. apply IH; [done|].
  eapply Forall_impl; [exact Hex|]. intros x. by apply quiet_exists.
Qed.

Lemma push_waiters_total sys t arm srcs ps :
  Forall (source_exists sys) srcs → is_Some (push_waiters sys t arm srcs ps).
Proof.
  revert sys arm ps. induction srcs as [|src srcs IH]; intros sys arm ps Hex; cbn; [eauto|].
  destruct ps as [|p ps]; [eauto|]. apply Forall_cons in Hex as [Hx Hex].
  assert (Hkeep : ∀ c s s' src', state_of sys c = Some s →
    source_exists sys src' → source_exists (put_state sys c (heap sys) s') src').
  { intros c s s' src' Hs. destruct src' as [c'|c'|c'|c']; cbn; try done;
      rewrite <-!state_of_is_Some; (destruct (decide (c = c')) as [<-|Hne];
      [by rewrite state_of_put_eq by eauto | by rewrite state_of_put_ne]). }
  destruct src as [c|c|c|c]; cbn in *; [| |by apply IH|];
    apply state_of_is_Some in Hx as [s Hs]; rewrite Hs; cbn; apply IH;
    eapply Forall_impl; [exact Hex| |exact Hex| |exact Hex|]; eauto.
Qed.

Lemma join_cells_total sys t arm srcs w :
  (∀ c, SrcCell c ∈ srcs → is_Some (cells sys !! c)) → is_Some (join_cells sys t arm srcs w).
Proof.
  revert sys arm w. induction srcs as [|src srcs IH]; intros sys arm w Hex; cbn; [eauto|].
  destruct src as [c|c|c|c]; try (apply IH; intros c' Hc'; apply Hex; set_solver).
  destruct (Hex c) as [cell Hc]; [set_solver|]. rewrite Hc. cbn.
  destruct (cell_enqueue _ _ _ _) as [[h1 cell1] w1]. apply IH. cbn. intros c' Hc'.
  rewrite lookup_insert. case_decide; [eauto|]. apply Hex. set_solver.
Qed.

Lemma push_waiters_cells sys t arm srcs ps sys' :
  push_waiters sys t arm srcs ps = Some sys' → cells sys' = cells sys.
Proof.
  revert sys arm ps. induction srcs as [|src srcs IH]; intros sys arm ps; cbn; [by intros [= <-]|].
  destruct ps as [|p ps]; [by intros [= <-]|].
  destruct (push_waiter sys src _) as [sys1|] eqn:Hp; [|done]. cbn. intros ->%IH.
  destruct src; cbn in Hp; try (destruct (state_of sys c); [|done]); by simplify_eq/=.
Qed.

Definition arms_exist sys (l : list (Arm V)) : Prop :=
  Forall (source_exists sys) ((split_arm <$> l).*1).

Lemma park_many_total sys tsk (l : list (Arm V)) start ts c :
  sys_ok sys → arms_exist sys l → is_Some (park_many sys tsk l start ts c).
Proof.
  intros Hok Hex. unfold park_many.
  destruct (try_arms_total sys (takes_nothing_new (is_set (heap sys) c) (tm_task_expired ts))
    _ _ no_wakes (arm_order start (length (split_arm <$> l).*1)) Hok Hex (split_arms_fit l))
    as [[[[sys1 w1] ready] ps1] Ht].
  { apply Forall_fmap, Forall_forall. cbn. intros i [_ Hi]%elem_of_seq.
    apply Nat.mod_upper_bound. lia. }
  rewrite Ht. cbn. apply try_arms_spec in Ht as (Hok1 & _ & Hq & _); [|done].
  destruct ready; [eauto|]. destruct (Hq eq_refl) as (-> & Hq1 & _).
  destruct (is_set (heap sys) c), (tm_task_expired ts), (tm_expired ts); try by eauto.
  unfold enter_queues.
  destruct (token_new (heap sys1) tsk c) as [h1 t].
  assert (Hex1 : Forall (source_exists (with_heap sys1 h1)) ((split_arm <$> l).*1)).
  { eapply Forall_impl; [exact Hex|]. intros x Hx%(quiet_exists _ _ _ Hq1). by destruct x. }
  destruct (push_waiters_total _ t 0 _ ((split_arm <$> l).*2) Hex1) as [sys2 Hpush].
  rewrite Hpush. cbn. apply push_waiters_cells in Hpush.
  destruct (join_cells_total sys2 t 0 ((split_arm <$> l).*1) w1) as [[sys3 w3] Hj].
  { intros c' Hc'. rewrite Hpush. by apply (proj1 (Forall_forall _ _) Hex1 _ Hc'). }
  rewrite Hj. cbn. destruct (times_arm _ _ _). eauto.
Qed.

End park_total.

(** ** The claims about [park] *)
Section park_claims.
Context {V E : Type}.
Implicit Types (sys : Sys V E).

(** [park] on any wait is [park_many] on its arms. *)
Lemma park_is_park_many sys tsk (x : Wait V) now at_once :
  arms_exist sys (arms x) →
  park sys tsk x now at_once =
  park_many sys tsk (arms x) (first x) (wait_times x now at_once) (cancel x).
Proof.
  intros Hex. unfold park, arms_exist in *. destruct (arms x) as [|a l]; [done|].
  destruct l; [|by destruct a].
  destruct a as [c|c v|c|c]; try done; apply Forall_cons in Hex as [Hex _];
    by apply (park_one_many _ _ _ _ _ _ c).
Qed.

(** The short path of [park] for a wait with one arm on a channel is
    the general one: the same state, the same wakes, the same result, for
    every arm, flag and pair of times and whatever arm is to be tried
    first. *)
Theorem park_one_equiv sys tsk (a : Arm V) start ts c ch :
  arm_channel a = Some ch → is_Some (chans sys !! ch) →
  park_one sys tsk a ts c = park_many sys tsk [a] start ts c.
Proof. apply park_one_many. Qed.

(** C31. A wait whose channels and cells exist is always parked, ended or
    refused (no [expect] of [park] fails); every channel, every cell and
    the timer keep their invariants; and the tasks woken are exactly those
    whose parked wait the park ended, each once. *)
Theorem park_sound sys tsk (x : Wait V) now at_once :
  sys_ok sys → arms_exist sys (arms x) →
  ∃ sys' ws r, park sys tsk x now at_once = Some (sys', ws, r) ∧
    sys_ok sys' ∧ evolves (heap sys) ws (heap sys').
Proof.
  intros Hok Hex. rewrite park_is_park_many by done.
  destruct (park_many_total sys tsk (arms x) (first x) (wait_times x now at_once) (cancel x) Hok Hex)
    as [[[sys' ws] r] Hp].
  exists sys', ws, r. split; [done|]. by eapply park_many_sound.
Qed.

(** A wait that is refused, because its task was cancelled or the
    task's time was over when it began, leaves no trace: nothing was taken
    or sent, no wait was ended, nobody is queued and nobody is woken.  It
    is refused only for those two reasons. *)
Theorem park_refused sys tsk (x : Wait V) now at_once sys' ws r :
  arms_exist sys (arms x) → park sys tsk x now at_once = Some (sys', ws, r) →
  r = PkCancelled ∨ r = PkExpired →
  unchanged sys sys' ∧ ws = [] ∧
  (r = PkCancelled → is_set (heap sys) (cancel x) = true) ∧
  (r = PkExpired → is_set (heap sys) (cancel x) = false ∧
     ∃ d, task_deadline x = Some d ∧ (d <= now)%N).
Proof.
  intros Hex. rewrite park_is_park_many by done. intros Hp Hr.
  apply park_many_refused in Hp as (H1 & H2 & H3 & H4); [|done]. do 3 (split; [done|]).
  intros He. destruct (H4 He) as [Hset Hx]. split; [done|]. unfold wait_times in Hx. cbn in Hx.
  destruct (task_deadline x) as [d|]; [|done]. exists d. split; [done|]. by apply N.leb_le.
Qed.

End park_claims.

(** ** The order of the locks *)
Section locks.

Lemma dedup_adjacent_elem l x : x ∈ dedup_adjacent l ↔ x ∈ l.
Proof.
  induction l as [|a l IH]; [done|]. cbn. destruct l as [|b l]; [done|].
  case_decide; subst; rewrite ?elem_of_cons, IH, ?elem_of_cons; tauto.
Qed.

Lemma dedup_adjacent_sorted l : Sorted le l → StronglySorted lt (dedup_adjacent l).
Proof.
  intros Hs. apply Sorted_StronglySorted in Hs; [|intros ???; lia].
  induction l as [|a l IH]; [constructor|]. apply StronglySorted_cons in Hs as [Hall Hs].
  cbn. destruct l as [|b l]; [by repeat constructor|]. specialize (IH Hs).
  case_decide as Hab; [done|]. apply StronglySorted_cons. split; [|done].
  apply Forall_forall. intros x Hx. rewrite dedup_adjacent_elem in Hx.
  apply StronglySorted_cons in Hs as [Hb _].
  pose proof (proj1 (Forall_forall _ _) Hall b ltac:(set_solver)) as Hab'.
  apply elem_of_cons in Hx as [->|Hx]; [lia|].
  pose proof (proj1 (Forall_forall _ _) Hb x Hx). lia.
Qed.

(** A wait takes the locks of its channels in one global order, each
    channel's once, and of every channel it has an arm on: two parks never
    wait for each other's locks. *)
Theorem lock_order_correct (srcs : list Source) :
  StronglySorted lt (lock_order srcs) ∧
  ∀ c, c ∈ lock_order srcs ↔ ∃ src, src ∈ srcs ∧ source_channel src = Some c.
Proof.
  unfold lock_order. split.
  - apply dedup_adjacent_sorted. apply Sorted_merge_sort. intros x y. lia.
  - intros c. rewrite dedup_adjacent_elem, (merge_sort_Permutation le), list_elem_of_omap. done.
Qed.

End locks.

(** Witnesses: a store with one channel of capacity 1. *)
Module OneChannel.
Definition sys0 : Sys nat nat :=
  mkSys (mkHeap {[3 := true]} ∅) {[0 := mkChannel None None false (fed 1 1)]} ∅ timer_new.

Lemma sys0_ok : sys_ok sys0.
Proof.
  split.
  - intros c s (ch & Hc & ->)%fmap_Some. cbn in Hc. apply lookup_singleton_Some in Hc as [_ <-].
    apply ch_ok_fed.
  - intros c cell Hc. cbn in Hc. by rewrite lookup_empty in Hc.
  - split; repeat constructor.
Qed.

Lemma recv_exists : arms_exist sys0 [ArmRecv 0].
Proof. repeat constructor. vm_compute. eauto. Qed.
End OneChannel.

Lemma park_one_equiv_witness :
  park_one OneChannel.sys0 7%N (ArmSend 0 5) (mkTimes None false None false) None =
  park_many OneChannel.sys0 7%N [ArmSend 0 5] 0 (mkTimes None false None false) None.
Proof.
  apply (park_one_equiv OneChannel.sys0 7%N (ArmSend 0 5) 0 _ None 0); [reflexivity|].
  vm_compute. eauto.
Defined.

Lemma park_sound_witness :
  sys_ok OneChannel.sys0 ∧
  ∃ sys' ws r, park OneChannel.sys0 7%N (wait_new [ArmRecv 0]) 0 true = Some (sys', ws, r) ∧
    sys_ok sys' ∧ evolves (heap OneChannel.sys0) ws (heap sys').
Proof.
  split; [exact OneChannel.sys0_ok|].
  apply (park_sound OneChannel.sys0 7%N (wait_new [ArmRecv 0]) 0 true);
    [exact OneChannel.sys0_ok|exact OneChannel.recv_exists].
Defined.

Lemma park_refused_witness :
  let x := with_cancel (wait_new [ArmRecv 0]) (Some 3) in
  park OneChannel.sys0 7%N x 0 true = Some (OneChannel.sys0, [], PkCancelled) ∧
  unchanged OneChannel.sys0 OneChannel.sys0 ∧ [] = @nil TaskId ∧
  (@PkCancelled nat nat = PkCancelled → is_set (heap OneChannel.sys0) (cancel x) = true) ∧
  (@PkCancelled nat nat = PkExpired → is_set (heap OneChannel.sys0) (cancel x) = false ∧
     ∃ d, task_deadline x = Some d ∧ (d <= 0)%N).
Proof.
  cbn zeta. split; [vm_compute; reflexivity|].
  apply (park_refused OneChannel.sys0 7%N (with_cancel (wait_new [ArmRecv 0]) (Some 3)) 0 true
    OneChannel.sys0 [] PkCancelled);
    [exact OneChannel.recv_exists|vm_compute; reflexivity|left; reflexivity].
Defined.
