(* ===== verification/System.v ===== *)
(** * The operations of the concurrency core as steps

    [op_step] is one operation of anybody (a running task, an I/O thread,
    the timer, a canceller) on the shared objects, with the wakes it
    sends.  Every step keeps [sys_ok] and ends waits as [evolves] says:
    that is all the holder of the parked tasks (Parking) relies on.  At the
    end: what a channel takes over comes out of it in order
    ([channel_fifo]). *)

From S2P Require Import Prelude Token Channel ChannelFacts ChannelSpec Cell Timer Wait WaitFacts.

Section system.
Context {V E : Type}.
Implicit Types (sys : Sys V E).

Definition put_cell sys (c : nat) h (cell : Cell V) : Sys V E :=
  mkSys h (chans sys) (<[c := cell]> (cells sys)) (timer sys).

Definition put_channel sys (c : nat) h (ch : Channel V E) : Sys V E :=
  mkSys h (<[c := ch]> (chans sys)) (cells sys) (timer sys).

Inductive op_step sys : list TaskId → Sys V E → Prop :=
  | op_new_channel c cap ahd stop drn :
      chans sys !! c = None →
      op_step sys [] (put_channel sys c (heap sys) (mkChannel stop drn false (fed cap ahd)))
  | op_new_cell c l :
      cells sys !! c = None →
      op_step sys [] (put_cell sys c (heap sys) (cell_labelled l))
  | op_send c s v h' s' ws r :
      state_of sys c = Some s →
      try_send (heap sys) s v = (h', s', ws, r) →
      op_step sys ws (put_state sys c h' s')
  | op_receive c s h' s' ws r :
      state_of sys c = Some s →
      try_receive (heap sys) s = (h', s', ws, r) →
      op_step sys ws (put_state sys c h' s')
  | op_close c s cl h' s' ws r :
      state_of sys c = Some s →
      channel_close (heap sys) s cl = (h', s', ws, r) →
      op_step sys ws (put_state sys c h' s')
  | op_drain c ch h' ch' ws called :
      chans sys !! c = Some ch →
      drain (heap sys) ch = (h', ch', ws, called) →
      op_step sys ws (put_channel sys c h' ch')
  | op_abandon c ch h' ch' ws called :
      chans sys !! c = Some ch →
      abandon_channel (heap sys) ch = (h', ch', ws, called) →
      op_step sys ws (put_channel sys c h' ch')
  | op_cell_set c cell cell' v :
      cells sys !! c = Some cell →
      cell_set cell v = inl cell' →
      op_step sys [] (put_cell sys c (heap sys) cell')
  | op_cell_drain c cell h' cell' w :
      cells sys !! c = Some cell → cell_is_done cell = true →
      cell_drain (heap sys) cell no_wakes = (h', cell', w) →
      op_step sys (wakes_send w) (put_cell sys c h' cell')
  | op_stop_feeder_with c ch stop :
      chans sys !! c = Some ch →
      op_step sys [] (put_channel sys c (heap sys) (stop_feeder_with ch stop))
  | op_drain_feeder_with c ch drn :
      chans sys !! c = Some ch →
      op_step sys [] (put_channel sys c (heap sys) (drain_feeder_with ch drn))
  | op_close_at c d chs' tm' id :
      close_at (chans sys) (timer sys) d c = (chs', tm', id) →
      op_step sys [] (mkSys (heap sys) chs' (cells sys) tm')
  | op_take_due now failed :
      (t_next (timer sys) <= u64_max)%N →
      op_step sys [] (mkSys (heap sys) (chans sys) (cells sys) (begin_round (timer sys) now failed))
  | op_carry_out i a due count h' chs' w sent :
      t_rounds (timer sys) !! i = Some (a :: due, count) →
      carry_out (heap sys) (chans sys) no_wakes [] a = (h', chs', w, sent) →
      op_step sys (sent ++ wakes_send w)
        (mkSys h' chs' (cells sys) (with_rounds (timer sys) (<[i := (due, count)]> (t_rounds (timer sys)))))
  | op_round_over i count :
      t_rounds (timer sys) !! i = Some ([], count) →
      op_step sys [] (mkSys (heap sys) (chans sys) (cells sys) (end_round (timer sys) i count))
  | op_cancel t h' ws b :
      token_cancel (heap sys) t = (h', ws, b) →
      op_step sys ws (with_heap sys h').

Lemma sys_ok_put_channel sys c h ch :
  sys_ok sys → heap_le (heap sys) h → ch_ok h (chan_state ch) → sys_ok (put_channel sys c h ch).
Proof.
  intros [Hc Hl Ht] Hle Hs. split; [| |done].
  - intros c' s. unfold state_of. cbn. rewrite lookup_insert. case_decide.
    + intros [= <-]. done.
    + intros Heq. eapply ch_ok_heap_le; [done|]. by eapply Hc.
  - intros c' cell Hc'. eapply queued_in_subseteq; [done|by eapply Hl|done].
Qed.

Lemma sys_ok_put_cell sys c h cell :
  sys_ok sys → heap_le (heap sys) h → queued_in h (cell_waiters cell) → sys_ok (put_cell sys c h cell).
Proof.
  intros [Hc Hl Ht] Hle Hs. split; [| |done].
  - intros c' s Hs'. eapply ch_ok_heap_le; [done|]. by eapply Hc.
  - intros c' cell' Hc'. cbn in Hc'. rewrite lookup_insert in Hc'. case_decide; [by simplify_eq|].
    eapply queued_in_subseteq; [done|by eapply Hl|done].
Qed.

Lemma so_channel sys c ch : sys_ok sys → chans sys !! c = Some ch → ch_ok (heap sys) (chan_state ch).
Proof. intros Hok Hc. apply (so_chans _ Hok c). unfold state_of. by rewrite Hc. Qed.

Lemma drain_sound h (ch : Channel V E) h' ch' ws called :
  ch_ok h (chan_state ch) → drain h ch = (h', ch', ws, called) →
  ch_ok h' (chan_state ch') ∧ evolves h ws h'.
Proof.
  intros Hok. unfold drain. destruct (draining (chan_state ch)).
  { intros [= <- <- <- <-]. auto using evolves_refl. }
  set (s1 := with_draining (chan_state ch) true).
  assert (Hok1 : ch_ok h s1) by (destruct Hok; by split).
  destruct (demand s1).
  - destruct (wake_feeders h s1 no_wakes) as [[h2 s2] w] eqn:Hw.
    pose proof (wake_feeders_moves _ _ _ _ _ _ Hw) as Hm. apply wake_feeders_fields in Hw.
    intros [= <- <- <- <-]. subst s2. cbn. split; [|by apply moves_evolves].
    eapply ch_ok_weaken; cbn; try done; [by eapply moves_heap_le|apply (ok_buf _ _ Hok)|set_solver].
  - intros [= <- <- <- <-]. cbn. auto using evolves_refl.
Qed.

Lemma channel_close_sound h (s : State V E) c h' s' ws r :
  ch_ok h s → channel_close h s c = (h', s', ws, r) → ch_ok h' s' ∧ evolves h ws h'.
Proof.
  intros Hok. unfold channel_close. destruct (close h s c no_wakes) as [[[h1 s1] w1] r1] eqn:Hs.
  intros [= <- <- <- <-]. split; [by eapply close_ok|]. by eapply moves_evolves, close_moves.
Qed.

(** One due entry: the wakes of its token are kept, those of its channel
    are sent. *)
Lemma carry_out_sound h (chs : gmap nat (Channel V E)) w sent a h' chs' w' sent' :
  (∀ c ch, chs !! c = Some ch → ch_ok h (chan_state ch)) →
  carry_out h chs w sent a = (h', chs', w', sent') →
  (∀ c ch, chs' !! c = Some ch → ch_ok h' (chan_state ch)) ∧
  ∃ ws1 ws2, evolves h (ws1 ++ ws2) h' ∧ sent' = sent ++ ws1 ∧
    (wakes_ok w → wakes_ok w' ∧ wakes_send w' = wakes_send w ++ ws2).
Proof.
  intros Hch. destruct a as [t|t|c]; cbn.
  - destruct (claim h t) eqn:Hc.
    + pose proof (fire_moves h t FDeadline w Hc) as Hm. destruct (fire h t FDeadline w) as [h1 w1].
      intros [= <- <- <- <-]. pose proof (moves_heap_le _ _ _ _ Hm) as Hle.
      split; [intros; eapply ch_ok_heap_le; eauto|]. destruct Hm as (ws & He & Hw).
      exists [], ws. rewrite app_nil_r. done.
    + intros [= <- <- <- <-]. split; [done|]. exists [], []. rewrite !app_nil_r.
      auto using evolves_refl.
  - destruct (claim h t) eqn:Hc.
    + pose proof (expire_moves h t w Hc) as Hm. destruct (expire h t w) as [h1 w1].
      intros [= <- <- <- <-]. pose proof (moves_heap_le _ _ _ _ Hm) as Hle.
      split; [intros; eapply ch_ok_heap_le; eauto|]. destruct Hm as (ws & He & Hw).
      exists [], ws. rewrite app_nil_r. done.
    + intros [= <- <- <- <-]. split; [done|]. exists [], []. rewrite !app_nil_r.
      auto using evolves_refl.
  - destruct (chs !! c) as [ch|] eqn:Hc.
    + destruct (channel_close h (chan_state ch) _) as [[[h1 s1] ws] r] eqn:Hcl.
      apply channel_close_sound in Hcl as [Hok He]; [|by eauto]. intros [= <- <- <- <-]. split.
      * intros c' ch'. rewrite lookup_insert. case_decide; [by intros [= <-]|].
        intros Hc'. eapply ch_ok_heap_le; eauto with silt.
      * exists ws, []. rewrite !app_nil_r. auto.
    + intros [= <- <- <- <-]. split; [done|]. exists [], []. rewrite !app_nil_r.
      auto using evolves_refl.
Qed.

(** Every operation keeps the invariant and ends waits only as the
    contract [evolves] says. *)
Lemma op_step_sound sys ws sys' :
  sys_ok sys → op_step sys ws sys' → sys_ok sys' ∧ evolves (heap sys) ws (heap sys').
Proof.
  intros Hok Hstep. inv Hstep.
  - split; [|apply evolves_refl]. apply sys_ok_put_channel; [done..|]. apply ch_ok_fed.
  - split; [|apply evolves_refl]. apply sys_ok_put_cell; [done..|]. constructor.
  - unfold try_send in *. destruct (send _ _ _ _) as [[[h1 s1] w1] r1] eqn:Hs. simplify_eq.
    pose proof (send_moves _ _ _ _ _ _ _ _ Hs) as Hm.
    split; [|by apply moves_evolves]. apply sys_ok_put; [done|by eapply moves_heap_le|].
    eapply send_ok; eauto using so_chans.
  - unfold try_receive in *. destruct (receive _ _ _) as [[[h1 s1] w1] r1] eqn:Hs. simplify_eq.
    pose proof (receive_moves _ _ _ _ _ _ _ Hs) as Hm.
    split; [|by apply moves_evolves]. apply sys_ok_put; [done|by eapply moves_heap_le|].
    eapply receive_ok; eauto using so_chans.
  - match goal with H : channel_close _ _ _ = _ |- _ =>
      apply channel_close_sound in H as [Hc He]; [|by eauto using so_chans] end.
    split; [|done]. apply sys_ok_put; eauto with silt.
  - match goal with H : drain _ _ = _ |- _ =>
      apply drain_sound in H as [Hc He]; [|by eauto using so_channel] end.
    split; [|done]. apply sys_ok_put_channel; eauto with silt.
  - unfold abandon_channel in *. destruct (on_abandon ch).
    + destruct (channel_close _ _ _) as [[[h1 s1] ws1] r1] eqn:Hs. simplify_eq.
      apply channel_close_sound in Hs as [Hc He]; [|by eauto using so_channel].
      split; [|done]. apply sys_ok_put_channel; eauto with silt.
    + simplify_eq. split; [|apply evolves_refl].
      apply sys_ok_put_channel; [done|done|by eapply so_channel].
  - split; [|apply evolves_refl]. apply sys_ok_put_cell; [done..|].
    unfold cell_set in *. destruct (cell_value cell); simplify_eq/=. by eapply so_cells.
  - match goal with H : cell_drain _ _ _ = _ |- _ =>
      pose proof (cell_drain_moves _ _ _ _ _ _ H) as Hm; unfold cell_drain in H end.
    split; [|by apply moves_evolves].
    apply sys_ok_put_cell; [done|by eapply moves_heap_le|].
    destruct (fire_all _ _ _ _). simplify_eq/=. constructor.
  - split; [|apply evolves_refl]. apply sys_ok_put_channel; [done..|]. cbn. by eapply so_channel.
  - split; [|apply evolves_refl]. apply sys_ok_put_channel; [done..|]. cbn. by eapply so_channel.
  - unfold close_at in *. pose proof (timer_arm_ok (timer sys) d (ActClose c) (so_timer _ Hok)) as Ht.
    destruct (timer_arm _ _ _) as [tm1 id1]. simplify_eq. split; [|apply evolves_refl].
    destruct Hok as [Hc Hl _]. split; cbn; [|done..]. intros c' s. unfold state_of. cbn.
    rewrite lookup_alter. case_decide; [|by apply Hc]. subst. intros Heq. apply (Hc c').
    unfold state_of. by destruct (chans sys !! c').
  - split; [|apply evolves_refl]. destruct Hok as [Hc Hl Ht]. split; cbn; [done..|].
    by apply begin_round_ok.
  - match goal with H : carry_out _ _ _ _ _ = _ |- _ =>
      apply carry_out_sound in H as (Hch & ws1 & ws2 & He & -> & Hw); [|intros; by eapply so_channel] end.
    destruct (Hw ltac:(done)) as [_ ->]. cbn. split; [|done]. split; cbn.
    + intros c s. unfold state_of. cbn. intros Hs. apply fmap_Some in Hs as (ch & Hch' & ->). by eapply Hch.
    + intros c cell Hcell. eapply queued_in_subseteq; eauto with silt. by eapply so_cells.
    + eapply rounds_ok; [apply Hok|done].
  - split; [|apply evolves_refl]. destruct Hok as [Hc Hl Ht]. split; cbn; [done..|].
    by eapply end_round_ok.
  - match goal with H : token_cancel _ _ = _ |- _ =>
      pose proof (token_cancel_evolves (heap sys) t) as He; rewrite H in He end. cbn in He.
    split; [|done]. apply sys_ok_with_heap; eauto with silt.
Qed.

(** Several operations one after the other. *)
Inductive op_steps sys : list TaskId → Sys V E → Prop :=
  | ops_done : op_steps sys [] sys
  | ops_more ws1 sys1 ws2 sys2 :
      op_step sys ws1 sys1 → op_steps sys1 ws2 sys2 → op_steps sys (ws1 ++ ws2) sys2.

(** What an entry does and wakes does not depend on the wakes that wait
    for the end of the round. *)
Lemma carry_out_wakes h (chs : gmap nat (Channel V E)) w sent a h' chs' w' sent' :
  wakes_ok w → carry_out h chs w sent a = (h', chs', w', sent') →
  wakes_ok w' ∧ ∃ w1 sent1, carry_out h chs no_wakes [] a = (h', chs', w1, sent1) ∧
    sent' = sent ++ sent1 ∧ wakes_send w' = wakes_send w ++ wakes_send w1.
Proof.
  intros Hw. assert (H1 : wakes_ok no_wakes) by done.
  assert (Hnone : wakes_send w = wakes_send w ++ wakes_send no_wakes) by (cbn; by rewrite app_nil_r).
  destruct a as [t|t|c]; cbn.
  - destruct (claim h t); [|intros [= <- <- <- <-]; eauto 10 using app_nil_r].
    unfold fire. destruct (tokens h !! t) as [k|]; [|intros [= <- <- <- <-]; eauto 10 using app_nil_r].
    intros [= <- <- <- <-]. destruct (state_parked (tstate k)); [|eauto 10 using app_nil_r].
    split; [by apply wakes_ok_push|]. eexists _, _. split; [done|]. rewrite app_nil_r.
    split; [done|]. by rewrite !wakes_send_push.
  - destruct (claim h t); [|intros [= <- <- <- <-]; eauto 10 using app_nil_r].
    unfold expire. destruct (tokens h !! t) as [k|]; [|intros [= <- <- <- <-]; eauto 10 using app_nil_r].
    intros [= <- <- <- <-]. destruct (state_parked (tstate k)); [|eauto 10 using app_nil_r].
    split; [by apply wakes_ok_push|]. eexists _, _. split; [done|]. rewrite app_nil_r.
    split; [done|]. by rewrite !wakes_send_push.
  - destruct (chs !! c); [|intros [= <- <- <- <-]; eauto 10 using app_nil_r].
    destruct (channel_close _ _ _) as [[[h1 s1] ws1] r1]. intros [= <- <- <- <-]. eauto 10.
Qed.

Lemma delete_insert_list {A} (l : list A) i x : delete i (<[i := x]> l) = delete i l.
Proof. revert i. induction l; intros [|i]; f_equal/=; auto. Qed.

Lemma round_steps (cls : gmap nat (Cell V)) tm i due count h (chs : gmap nat (Channel V E)) w sent h' chs' w' sent' :
  t_rounds tm !! i = Some (due, count) → wakes_ok w →
  carry_out_all h chs w sent due = (h', chs', w', sent') →
  ∃ ws, op_steps (mkSys h chs cls tm) ws (mkSys h' chs' cls (end_round tm i count)) ∧
    ws ++ sent ++ wakes_send w ≡ₚ sent' ++ wakes_send w'.
Proof.
  revert tm h chs w sent. induction due as [|a due IH]; intros tm h chs w sent Hi Hw; cbn.
  { intros [= <- <- <- <-]. exists []. split; [|done].
    apply (ops_more _ [] _ [] _ (op_round_over (mkSys h chs cls tm) i count Hi)), ops_done. }
  destruct (carry_out h chs w sent a) as [[[h1 chs1] w1] sent1] eqn:Hc.
  apply carry_out_wakes in Hc as (Hw1 & w2 & sent2 & Hc & -> & Heq); [|done]. intros Hrest.
  eapply (IH (with_rounds tm (<[i := (due, count)]> (t_rounds tm)))) in Hrest as (ws & Hws & Hperm);
    [|by apply list_lookup_insert_eq; eapply lookup_lt_Some|done].
  exists ((sent2 ++ wakes_send w2) ++ ws). split.
  - eapply ops_more; [by eapply (op_carry_out _ i)|]. cbn. revert Hws. unfold with_rounds. cbn.
    unfold end_round. cbn. by rewrite delete_insert_list.
  - rewrite <-Hperm, Heq. solve_Permutation.
Qed.

(** A round of the timer with nobody in between is its steps one after the
    other: what is due taken, each entry carried out, the count put right. *)
Theorem fire_due_is_its_steps sys now failed h' chs' tm' ws n :
  (t_next (timer sys) <= u64_max)%N →
  fire_due (heap sys) (chans sys) (timer sys) now failed = (h', chs', tm', ws, n) →
  ∃ ws', op_steps sys ws' (mkSys h' chs' (cells sys) tm') ∧ ws' ≡ₚ ws.
Proof.
  intros Hmax. unfold fire_due. pose proof (op_take_due sys now failed Hmax) as Hbegin. unfold begin_round in Hbegin.
  destruct (take_due (timer sys) now failed) as [due tm1].
  destruct (carry_out_all _ _ _ _ _) as [[[h1 chs1] w] sent] eqn:Hc. intros [= <- <- <- <- <-].
  set (tm2 := mkTimer _ _ _ (t_rounds tm1 ++ [(due.*2, length due)])) in *.
  eapply (round_steps (cells sys) tm2 (length (t_rounds tm1))) in Hc as (ws & Hws & Hperm);
    [|by apply list_lookup_middle|done].
  exists ([] ++ ws). rewrite app_nil_r in Hperm. split; [|done]. eapply ops_more; [exact Hbegin|].
  revert Hws. unfold end_round. cbn. by rewrite delete_middle, app_nil_r.
Qed.

End system.

(** ** Order: what goes in comes out, once, in order

    A run of one channel by the operations of the code: sends and receives
    that do not wait, waits with the one arm of a send or of a receive (which
    park when there is no room, or nothing), and a worker giving its task
    up.  The log of a run is the values the channel took over and the values
    it handed out. *)
Section fifo.
Context {V E : Type}.
Implicit Types (h : Heap V E) (s : State V E) (sys : Sys V E) (q : list (Waiter V)).

Inductive run_op :=
  | RunSend (v : V)
  | RunRecv
  | RunParkSend (tsk : TaskId) (v : V)
  | RunParkRecv (tsk : TaskId)
  | RunCommit (t : TokId).

(** The value a parked receive was completed with. *)
Definition received_by h (t : TokId) : option V :=
  match tstate <$> tokens h !! t with Some (TFired (FArm _ (OReceived v))) => Some v | _ => None end.
(** What an operation handed to those parked on a queue. *)
Definition handed h h' q : list V :=
  omap (λ x, if claim h (w_token x) then received_by h' (w_token x) else None) q.

(** One operation on channel [c]: what is then, the values it took over
    (a parked send's are the channel's) and the values it handed out, to
    its caller and to who was parked. *)
Definition run1 (c : nat) sys (o : run_op) : option (Sys V E * list V * list V) :=
  s ← state_of sys c;
  match o with
  | RunSend v =>
      let '(h', s', _, r) := try_send (heap sys) s v in
      Some (put_state sys c h' s', match r with SendSent => [v] | _ => [] end, handed (heap sys) h' (recvq s))
  | RunRecv =>
      let '(h', s', _, r) := try_receive (heap sys) s in
      Some (put_state sys c h' s', [], match r with RecvValue v => [v] | _ => [] end ++ handed (heap sys) h' (recvq s))
  | RunParkSend tsk v =>
      '(sys', _, r) ← park sys tsk (wait_new [ArmSend c v]) 0 true;
      Some (sys', match r with PkReady (FArm _ OSent) | PkParked _ => [v] | _ => [] end, handed (heap sys) (heap sys') (recvq s))
  | RunParkRecv tsk =>
      '(sys', _, r) ← park sys tsk (wait_new [ArmRecv c]) 0 true;
      Some (sys', [], match r with PkReady (FArm _ (OReceived v)) => [v] | _ => [] end ++ handed (heap sys) (heap sys') (recvq s))
  | RunCommit t => Some (with_heap sys (commit (heap sys) t).1, [], handed (heap sys) (commit (heap sys) t).1 (recvq s))
  end.
Fixpoint run (c : nat) sys (os : list run_op) : option (Sys V E * list V * list V) :=
  match os with
  | [] => Some (sys, [], [])
  | o :: os' =>
      '(sys1, i1, d1) ← run1 c sys o;
      '(sys2, i2, d2) ← run c sys1 os';
      Some (sys2, i1 ++ i2, d1 ++ d2)
  end.

(** *** What is handed out *)
Lemma handed_live h h' q : handed h h' q = omap (λ x, received_by h' (w_token x)) (live h q).
Proof.
  induction q as [|x q IH]; [done|]. unfold handed, live in *. rewrite filter_cons. cbn [omap list_omap].
  case_decide as Hd; cbn [omap list_omap]; [by rewrite Hd, IH|]. destruct (claim h (w_token x)); [done|exact IH].
Qed.
Lemma handed_nil h h' q : (∀ x, x ∈ live h q → received_by h' (w_token x) = None) → handed h h' q = [].
Proof.
  rewrite handed_live. induction (live h q) as [|x l IH]; intros Hx; [done|]. cbn [omap list_omap].
  rewrite (Hx x) by set_solver. apply IH. intros; apply Hx; set_solver.
Qed.
Lemma waiting_received h t : is_waiting h t = true → received_by h t = None.
Proof. unfold is_waiting, received_by. destruct (tokens h !! t) as [k|]; [|done]. cbn. by destruct (tstate k). Qed.
Lemma same_received h h' t : claim h t = true → tokens h' !! t = tokens h !! t → received_by h' t = None.
Proof. intros Hc%claim_is_waiting He. unfold received_by. rewrite He. by apply waiting_received in Hc. Qed.

(** What a completed wait was handed: nothing, or one value. *)
Lemma handed_completed h h' q p : NoDup (w_token <$> live h q) → completed h h' p [] →
  (∀ t arm v, p = Some (t, arm, OReceived v) → t ∈ w_token <$> live h q) →
  handed h h' q = delivered_by p.
Proof.
  intros Hnd [Hp Hrest] Hin. rewrite handed_live.
  assert (∀ x, x ∈ live h q → (∀ arm o, p ≠ Some (w_token x, arm, o)) → received_by h' (w_token x) = None) as Hnone.
  { intros x [Hc _]%elem_of_live Hne. apply (same_received h); [done|]. apply Hrest; [set_solver|done]. }
  destruct p as [[[t arm] o]|]; cbn.
  - destruct (Hp t arm o eq_refl) as (_ & k & Hk & Hk').
    assert (received_by h' t = match o with OReceived v => Some v | _ => None end) as Ht by (unfold received_by; by rewrite Hk').
    assert (∀ l, l ⊆ live h q → NoDup (w_token <$> l) →
      omap (λ x, received_by h' (w_token x)) l = if decide (t ∈ w_token <$> l) then option_list (received_by h' t) else []) as H.
    { induction l as [|x l IH]; intros Hsub Hl; [done|]. rewrite fmap_cons in Hl |- *. apply NoDup_cons in Hl as [Hni Hl]. cbn [omap list_omap].
      rewrite IH by (set_solver || done). destruct (decide (w_token x = t)) as [<-|Hne].
      - rewrite (decide_False (P := w_token x ∈ w_token <$> l)), (decide_True (P := w_token x ∈ _ :: _)) by set_solver. by destruct (received_by _ _).
      - rewrite Hnone by (set_solver || congruence). repeat case_decide; try done; set_solver. }
    rewrite H by done. rewrite Ht. destruct o as [v| | | |]; try (by case_decide). rewrite decide_True by (by eapply Hin). done.
  - clear Hin Hp. induction (live h q) as [|x l IH]; [done|]. cbn [omap list_omap]. rewrite Hnone by (set_solver || done).
    rewrite fmap_cons in Hnd. apply NoDup_cons in Hnd as [_ Hnd]. apply IH; [done|]. intros; apply Hnone; set_solver.
Qed.

(** *** Each operation is the abstract one *)
Record run_ok (c : nat) sys s : Prop := mkRunOk {
  ro_state : state_of sys c = Some s;
  ro_ch : ch_ok (heap sys) s;
  ro_feed : demandq s = [];
  ro_abs : a_ok (abs (heap sys) s);
}.

Lemma live_takers h s : a_ok (abs h s) → NoDup (w_token <$> live h (recvq s)).
Proof.
  intros [_ _ Hnd]. unfold a_toks, abs in Hnd. cbn in Hnd. apply NoDup_app in Hnd as [Hnd _].
  by rewrite <-list_fmap_compose in Hnd.
Qed.

(** What a send makes of a channel nobody feeds. *)
Lemma run_send h s v h' s' w' r : ch_ok h s → demandq s = [] → a_ok (abs h s) → send h s v no_wakes = (h', s', w', r) →
  ch_ok h' s' ∧ demandq s' = [] ∧ a_ok (abs h' s') ∧ recvq s' ⊆ recvq s ∧
  match r with
  | SendSent => a_pending (abs h s) ++ [v] = handed h h' (recvq s) ++ a_pending (abs h' s')
  | _ => abs h' s' = abs h s ∧ handed h h' (recvq s) = []
  end.
Proof.
  intros Hch Hd Ha Hs. pose proof (send_ok _ _ _ _ _ _ _ _ Hch Hs) as Hch'.
  destruct (send_refines _ _ _ _ _ _ _ _ Hs) as (p & Hsend & Hc).
  destruct (a_send_pending _ _ _ _ _ Ha Hsend) as (Ha' & _ & Hp).
  assert (handed h h' (recvq s) = delivered_by p) as Hh.
  { apply handed_completed; [by apply live_takers|done|]. intros t arm v' ->. unfold a_send, abs in Hsend. cbn in Hsend.
    destruct (closed s); [done|]. destruct (live h (recvq s)) as [|x l] eqn:El; cbn in Hsend; [by case_decide|]. simplify_eq. rewrite fmap_cons. by left. }
  assert (demandq s' = demandq s ∧ recvq s' ⊆ recvq s) as [-> Hsub].
  { unfold send in Hs. destruct (closed s); [by simplify_eq|]. destruct (pop_claimable h (recvq s)) as [[x q]|] eqn:Hq.
    - apply pop_claimable_subseteq in Hq. destruct (fire h _ _ no_wakes). by simplify_eq.
    - case_decide; simplify_eq; cbn; split; (done || set_solver). }
  split_and!; try done. rewrite Hh. destruct r; [done|..].
  - destruct Hp as [He _]. split; [done|]. unfold a_send in Hsend. destruct (a_closed _); [done|]. destruct (a_takers _) as [|[??]?]; [|done].
    case_decide; by simplify_eq.
  - split; [done|]. unfold a_send in Hsend. destruct (a_closed _); [by simplify_eq|]. destruct (a_takers _) as [|[??]?]; [by case_decide|done].
Qed.

Lemma run_receive h s h' s' w' r : ch_ok h s → demandq s = [] → a_ok (abs h s) → receive h s no_wakes = (h', s', w', r) →
  ch_ok h' s' ∧ demandq s' = [] ∧ a_ok (abs h' s') ∧ handed h h' (recvq s) = [] ∧
  match r with
  | RecvValue v => a_pending (abs h s) = v :: a_pending (abs h' s')
  | _ => abs h' s' = abs h s
  end.
Proof.
  intros Hch Hd Ha Hs. pose proof (receive_ok _ _ _ _ _ _ _ Hch Hs) as Hch'.
  assert (separate s) as Hsep by (intros d x; rewrite Hd; set_solver).
  destruct (receive_refines _ _ _ _ _ _ _ (ok_payload _ _ Hch) Hsep Hs) as (p & Hrecv & Hc). rewrite Hd in Hc.
  destruct (a_receive_pending _ _ _ _ Ha Hrecv) as (Ha' & _ & Hp).
  assert (∀ t arm o, p = Some (t, arm, o) → o = OSent) as Ho.
  { intros t arm o ->. unfold a_receive in Hrecv. destruct (a_buf _), (a_offers _) as [|[[??]?]?]; try destruct (a_closed _); by simplify_eq. }
  assert (demandq s' = []) as Hd'.
  { destruct (receive_tells _ _ _ _ _ _ _ (ok_payload _ _ Hch) Hsep Hs) as [H1 H2].
    apply dec_stable. intros Hne. apply Hne. rewrite <-Hd. apply H2. intros Hask. apply Hne. by apply H1. }
  split_and!; try done.
  - assert (handed h h' (recvq s) = delivered_by p) as ->.
    { apply handed_completed; [by apply live_takers|done|]. intros t arm v ->. by specialize (Ho _ _ _ eq_refl). }
    destruct p as [[[t arm] o]|]; [|done]. by rewrite (Ho t arm o eq_refl).
  - destruct r; [done|apply Hp|done].
Qed.

(** A new token on a queue. *)
Lemma live_new h tsk c q t p : t = (token_new h tsk c).2 → is_set h c = false → queued_in h q →
  live (token_new h tsk c).1 q = live h q ∧
  live (token_new h tsk c).1 (q ++ [mkWaiter t 0 p]) = live h q ++ [mkWaiter t 0 p].
Proof.
  intros -> Hset Hq. set (h2 := (token_new h tsk c).1).
  assert (live h2 q = live h q) as Hl.
  { apply live_ext. intros x Hx. pose proof (proj1 (Forall_forall _ _) Hq x Hx) as [k Hk]. apply claim_ext; [done|]. unfold h2, token_new. cbn.
    rewrite lookup_insert_ne; [done|]. intros He. pose proof (token_new_fresh h tsk c) as Hf. unfold token_new in Hf. cbn in Hf. rewrite He in Hf. congruence. }
  split; [done|]. rewrite live_app, Hl. f_equal. unfold live. rewrite filter_cons_True; [done|]. cbn.
  unfold claim, h2. rewrite token_new_lookup. cbn. unfold is_set in *. unfold token_new. cbn. by rewrite Hset.
Qed.
Lemma new_token_fresh h s tsk c : queued_in h (recvq s) → queued_in h (sendq s) → (token_new h tsk c).2 ∉ a_toks (abs h s).
Proof.
  intros Hr Hs. pose proof (token_new_fresh h tsk c) as Hf. unfold a_toks, abs. cbn. rewrite elem_of_app, <-list_fmap_compose. intros [H|H].
  - apply list_elem_of_fmap in H as (x & Hx & [_ Hq]%elem_of_live). cbn in Hx. destruct (proj1 (Forall_forall _ _) Hr x Hq) as [k Hk]. congruence.
  - apply list_elem_of_fmap in H as (y & Hy & (x & [_ Hq]%elem_of_live & Ho)%list_elem_of_omap). destruct (proj1 (Forall_forall _ _) Hs x Hq) as [k Hk].
    unfold offer_of in Ho. destruct (w_payload x); [|done]. simplify_eq/=. congruence.
Qed.
Lemma handed_new h h1 tsk c q : queued_in h1 q → handed h (token_new h1 tsk c).1 q = handed h h1 q.
Proof.
  intros Hq. unfold handed. induction q as [|x q IH]; [done|]. apply Forall_cons in Hq as [[k Hk] Hq]. cbn [omap list_omap]. rewrite IH by done.
  assert (received_by (token_new h1 tsk c).1 (w_token x) = received_by h1 (w_token x)) as ->; [|done].
  unfold received_by, token_new. cbn. rewrite lookup_insert_ne; [done|]. intros He. pose proof (token_new_fresh h1 tsk c) as Hf.
  unfold token_new in Hf. cbn in Hf. rewrite He in Hf. congruence.
Qed.

#[local] Opaque token_new.
(** The channel after an operation that queues nobody. *)
Lemma run_now c sys s h1 s1 i d : state_of sys c = Some s → ch_ok h1 s1 → demandq s1 = [] → a_ok (abs h1 s1) →
  a_pending (abs (heap sys) s) ++ i = d ++ a_pending (abs h1 s1) →
  run_ok c (put_state sys c h1 s1) s1 ∧ a_pending (abs (heap sys) s) ++ i = d ++ a_pending (abs (heap (put_state sys c h1 s1)) s1).
Proof. intros Hst Hch Hd Ha He. split; [|done]. by split; [apply state_of_put_eq|..]. Qed.

Lemma run_park_send c sys s tsk v : run_ok c sys s → ∃ sys' s' i d, run1 c sys (RunParkSend tsk v) = Some (sys', i, d) ∧ run_ok c sys' s' ∧
  a_pending (abs (heap sys) s) ++ i = d ++ a_pending (abs (heap sys') s').
Proof.
  intros [Hst Hch Hd Ha]. unfold run1, park, park_one, wait_new, wait_times. cbn. rewrite Hst. cbn.
  destruct (send (heap sys) s v no_wakes) as [[[h1 s1] w1] r] eqn:Hs.
  destruct (run_send _ _ _ _ _ _ _ Hch Hd Ha Hs) as (Hch1 & Hd1 & Ha1 & Hsub & Hr). destruct r as [|v'|cl]; cbn.
  - exists (put_state sys c h1 s1), s1, [v], (handed (heap sys) h1 (recvq s)). split; [reflexivity|]. by apply run_now.
  - destruct (send_refines _ _ _ _ _ _ _ _ Hs) as (p & Hsend & _). destruct Hr as [Habs Hh].
    destruct (send_full _ _ _ _ _ _ _ _ Hs) as (-> & _ & -> & Hcap & Hcl & Hlr & Hr1 & Hs1 & Hsame).
    pose proof (live_new (heap sys) tsk None (sendq s1) _ (Some v) eq_refl eq_refl (ok_in_sendq _ _ Hch1)) as [_ Hlive].
    pose proof (live_new (heap sys) tsk None (recvq s1) _ None eq_refl eq_refl (ok_in_recvq _ _ Hch1)) as [Hlr1 _].
    pose proof (handed_new (heap sys) (heap sys) tsk None _ (ok_in_recvq _ _ Hch)) as Hhn.
    pose proof (new_token_fresh (heap sys) s tsk None (ok_in_recvq _ _ Hch) (ok_in_sendq _ _ Hch)) as Hfr.
    pose proof (heap_le_token_new (heap sys) tsk None) as Hle. pose proof (token_new_lookup (heap sys) tsk None) as Hlk.
    rewrite heap_put. destruct (token_new (heap sys) tsk None) as [h2 t]. cbn [fst snd] in *. set (s2 := with_sendq s1 (sendq s1 ++ [mkWaiter t 0 (Some v)])).
    assert (abs h2 s2 = a_add_offer (abs (heap sys) s1) t v) as Habs2.
    { unfold abs, a_add_offer. cbn. rewrite Hlr1, Hlive, omap_app. done. }
    exists (mkSys h2 (chans (put_state sys c h2 s2)) (cells sys) (timer sys)), s2, [v], (handed (heap sys) h2 (recvq s)). split; [reflexivity|].
    cbn [heap]. rewrite Hhn, Hh. split.
    + split; cbn [heap].
      * unfold state_of, put_state. cbn. rewrite lookup_alter_eq. unfold state_of in Hst. by destruct (chans sys !! c).
      * apply ch_ok_push_send; [by eapply ch_ok_heap_le|by eexists|by eexists|..].
        -- destruct Hsame as [-> -> _ _ _ _]. done.
        -- by destruct Hsame as [_ _ -> _ _ _].
        -- intros y. rewrite Hlr1, Hr1. unfold live. set_solver.
      * done.
      * rewrite Habs2. eapply (a_exec1_pending (abs (heap sys) s) (OpParkSend t v)); [done|by intros ? ->%list_elem_of_singleton|]. cbn [a_exec1]. by rewrite Hsend.
    + change (a_pending (abs (heap sys) s) ++ [v] = [] ++ a_pending (abs h2 s2)). rewrite Habs2. eapply (a_exec1_pending (abs (heap sys) s) (OpParkSend t v)); [done|by intros ? ->%list_elem_of_singleton|]. cbn [a_exec1]. by rewrite Hsend.
  - destruct Hr as [Habs Hh]. exists (put_state sys c h1 s1), s1, [], (handed (heap sys) h1 (recvq s)). split; [reflexivity|].
    apply run_now; try done. by rewrite Hh, Habs, app_nil_r.
Qed.

Lemma run_park_recv c sys s tsk : run_ok c sys s → ∃ sys' s' i d, run1 c sys (RunParkRecv tsk) = Some (sys', i, d) ∧ run_ok c sys' s' ∧
  a_pending (abs (heap sys) s) ++ i = d ++ a_pending (abs (heap sys') s').
Proof.
  intros [Hst Hch Hd Ha]. unfold run1, park, park_one, wait_new, wait_times. cbn. rewrite Hst. cbn.
  destruct (receive (heap sys) s no_wakes) as [[[h1 s1] w1] r] eqn:Hs.
  destruct (run_receive _ _ _ _ _ _ Hch Hd Ha Hs) as (Hch1 & Hd1 & Ha1 & Hh & Hr). destruct r as [v| |cl]; cbn.
  - exists (put_state sys c h1 s1), s1, [], ([v] ++ handed (heap sys) h1 (recvq s)). split; [reflexivity|].
    apply run_now; try done. by rewrite Hh, !app_nil_r, Hr.
  - destruct (receive_refines _ _ _ _ _ _ _ (ok_payload _ _ Hch) ltac:(intros ? ?; rewrite Hd; set_solver) Hs) as (p & Hrecv & _).
    destruct (receive_empty _ _ _ _ _ _ (ok_payload _ _ Hch) Hs) as (Hb & Hcl & Hs1 & Hls & Hr1 & _ & _ & Hsame).
    pose proof (receive_moves _ _ _ _ _ _ _ Hs) as Hm%moves_heap_le.
    pose proof (live_new h1 tsk None (recvq s1) _ None eq_refl eq_refl (ok_in_recvq _ _ Hch1)) as [_ Hlive].
    pose proof (live_new h1 tsk None (sendq s1) _ None eq_refl eq_refl (ok_in_sendq _ _ Hch1)) as [Hls1 _].
    pose proof (handed_new (heap sys) h1 tsk None (recvq s) ltac:(rewrite <-Hr1; apply Hch1)) as Hhn.
    pose proof (new_token_fresh h1 s1 tsk None (ok_in_recvq _ _ Hch1) (ok_in_sendq _ _ Hch1)) as Hfr. rewrite Hr in Hfr.
    pose proof (heap_le_token_new h1 tsk None) as Hle. pose proof (token_new_lookup h1 tsk None) as Hlk.
    rewrite heap_put. destruct (token_new h1 tsk None) as [h2 t]. cbn [fst snd] in *. set (s2 := with_recvq s1 (recvq s1 ++ [mkWaiter t 0 None])).
    assert (abs h2 s2 = a_add_taker (abs h1 s1) t) as Habs2.
    { unfold abs, a_add_taker. cbn. rewrite Hls1, Hlive, fmap_app. done. }
    exists (mkSys h2 (chans (put_state sys c h2 s2)) (cells sys) (timer sys)), s2, [], (handed (heap sys) h2 (recvq s)). split; [reflexivity|].
    cbn [heap]. rewrite Hhn, Hh. split.
    + split; cbn [heap].
      * unfold state_of, put_state. cbn. rewrite lookup_alter_eq. unfold state_of in Hst. by destruct (chans sys !! c).
      * destruct Hsame as [_ Hb1 Hc1 _ _ _]. apply ch_ok_push_recv; [by eapply ch_ok_heap_le|by eexists|congruence|congruence|].
        intros y. rewrite Hls1, Hs1. unfold live. set_solver.
      * done.
      * rewrite Habs2. eapply (a_exec1_pending (abs (heap sys) s) (OpParkRecv t)); [done|by intros ? ->%list_elem_of_singleton|]. cbn [a_exec1]. by rewrite Hrecv.
    + change (a_pending (abs (heap sys) s) ++ [] = [] ++ a_pending (abs h2 s2)). rewrite Habs2. eapply (a_exec1_pending (abs (heap sys) s) (OpParkRecv t)); [done|by intros ? ->%list_elem_of_singleton|]. cbn [a_exec1]. by rewrite Hrecv.
  - exists (put_state sys c h1 s1), s1, [], ([] ++ handed (heap sys) h1 (recvq s)). split; [reflexivity|].
    apply run_now; try done. by rewrite Hh, Hr, app_nil_r.
Qed.

Lemma claim_commit h t t' : claim (commit h t).1 t' = claim h t'.
Proof.
  unfold commit. destruct (tokens h !! t) as [k|] eqn:Hk; [|done]. destruct (tstate k) eqn:Hs; try done. cbn.
  rewrite claim_set_tok. case_decide; [|done]. subst. unfold claim. rewrite Hk, Hs. cbn. by destruct (is_set _ _).
Qed.

Lemma run_commit c sys s t : run_ok c sys s → ∃ sys' s' i d, run1 c sys (RunCommit t) = Some (sys', i, d) ∧ run_ok c sys' s' ∧
  a_pending (abs (heap sys) s) ++ i = d ++ a_pending (abs (heap sys') s').
Proof.
  intros [Hst Hch Hd Ha]. unfold run1. rewrite Hst. set (h1 := (commit (heap sys) t).1).
  assert (∀ x : Waiter V, claim h1 (w_token x) = claim (heap sys) (w_token x)) as Hc by (intros x; apply claim_commit).
  assert (abs h1 s = abs (heap sys) s) as Habs by (unfold abs; by rewrite !(live_ext (heap sys) h1) by done).
  exists (with_heap sys h1), s, [], (handed (heap sys) h1 (recvq s)). split; [reflexivity|]. change (heap (with_heap sys h1)) with h1. split.
  - split; [by rewrite state_of_with_heap|eapply ch_ok_heap_le; [apply heap_le_commit|done]|done|]. change (heap (with_heap sys h1)) with h1. by rewrite Habs.
  - rewrite Habs, app_nil_r, handed_nil; [done|]. intros x [Hx _]%elem_of_live. apply waiting_received, claim_is_waiting. by rewrite Hc.
Qed.

Lemma run1_pending c sys s o : run_ok c sys s → ∃ sys' s' i d, run1 c sys o = Some (sys', i, d) ∧ run_ok c sys' s' ∧
  a_pending (abs (heap sys) s) ++ i = d ++ a_pending (abs (heap sys') s').
Proof.
  intros Hok. destruct o as [v| |tsk v|tsk|t]; [| |by apply run_park_send|by apply run_park_recv|by apply run_commit].
  - destruct Hok as [Hst Hch Hd Ha]. unfold run1, try_send. rewrite Hst. cbn. destruct (send (heap sys) s v no_wakes) as [[[h1 s1] w1] r] eqn:Hs.
    destruct (run_send _ _ _ _ _ _ _ Hch Hd Ha Hs) as (Hch1 & Hd1 & Ha1 & _ & Hr).
    exists (put_state sys c h1 s1), s1, (match r with SendSent => [v] | _ => [] end), (handed (heap sys) h1 (recvq s)). split; [reflexivity|].
    apply run_now; try done. destruct r; [done|..]; destruct Hr as [Habs Hh]; by rewrite Hh, Habs, app_nil_r.
  - destruct Hok as [Hst Hch Hd Ha]. unfold run1, try_receive. rewrite Hst. cbn. destruct (receive (heap sys) s no_wakes) as [[[h1 s1] w1] r] eqn:Hs.
    destruct (run_receive _ _ _ _ _ _ Hch Hd Ha Hs) as (Hch1 & Hd1 & Ha1 & Hh & Hr).
    exists (put_state sys c h1 s1), s1, [], (match r with RecvValue v => [v] | _ => [] end ++ handed (heap sys) h1 (recvq s)). split; [reflexivity|].
    apply run_now; try done. rewrite Hh, !app_nil_r. destruct r; by rewrite Hr.
Qed.

Lemma run_pending c sys s os : run_ok c sys s → ∃ sys' s' i d, run c sys os = Some (sys', i, d) ∧ run_ok c sys' s' ∧
  a_pending (abs (heap sys) s) ++ i = d ++ a_pending (abs (heap sys') s').
Proof.
  revert sys s. induction os as [|o os IH]; intros sys s Hok; cbn [run].
  { eexists _, s, _, _. split; [done|]. split; [done|]. by rewrite app_nil_r. }
  destruct (run1_pending c sys s o Hok) as (sys1 & s1 & i1 & d1 & -> & Hok1 & E1). cbn [mbind option_bind].
  destruct (IH sys1 s1 Hok1) as (sys2 & s2 & i2 & d2 & -> & Hok2 & E2). cbn [mbind option_bind].
  eexists _, s2, _, _. split; [done|]. split; [done|]. by rewrite app_assoc, E1, <-!app_assoc, E2.
Qed.

(** C30. First in, first out, nothing lost and nothing twice.  Every run of
    sends and receives on a new channel of any capacity that nobody feeds,
    waiting or not, with tasks given up in between, goes through; and the
    values it handed out (to callers and to parked receivers) and those it
    still holds (its buffer, then those of the parked senders whose wait is
    open) are, in order, exactly the values it took over. *)
Theorem channel_fifo (c cap ahd : nat) sys (os : list run_op) : state_of sys c = Some (fed cap ahd) →
  ∃ sys' s' i d, run c sys os = Some (sys', i, d) ∧ state_of sys' c = Some s' ∧
    i = d ++ buf s' ++ omap w_payload (live (heap sys') (sendq s')).
Proof.
  intros Hst. destruct (run_pending c sys (fed cap ahd) os) as (sys' & s' & i & d & Hr & Hok & He).
  { split; [done|apply ch_ok_fed|done|]. split; cbn; [done..|]. apply NoDup_nil_2. }
  exists sys', s', i, d. split; [done|]. split; [apply Hok|]. change (a_pending (abs (heap sys) (fed cap ahd))) with (@nil V) in He. cbn [app] in He. rewrite He. f_equal. unfold a_pending, abs. cbn. f_equal.
  induction (live (heap sys') (sendq s')) as [|x l IH]; [done|]. cbn [omap list_omap]. unfold offer_of at 1. destruct (w_payload x); [|exact IH]. cbn. f_equal. exact IH.
Qed.
End fifo.

(** A run: two sends fill the buffer, a third is parked and given up, three
    receives take the values in order, a fourth is parked, and a send hands
    it its value. *)
Lemma channel_fifo_witness :
  let sys : Sys nat nat := mkSys (mkHeap ∅ ∅) {[0 := mkChannel None None false (fed 2 2)]} ∅ timer_new in
  let os := [RunSend 10; RunSend 11; RunParkSend 7%N 12; RunCommit 0; RunRecv; RunRecv; RunRecv; RunParkRecv 8%N; RunCommit 1; RunSend 13; RunSend 14] in
  state_of sys 0 = Some (fed 2 2) ∧
  (∃ sys', run 0 sys os = Some (sys', [10; 11; 12; 13; 14], [10; 11; 12; 13])) ∧
  ∃ sys' s' i d, run 0 sys os = Some (sys', i, d) ∧ state_of sys' 0 = Some s' ∧
    i = d ++ buf s' ++ omap w_payload (live (heap sys') (sendq s')).
Proof.
  cbv zeta. split; [reflexivity|]. split; [eexists; vm_compute; reflexivity|].
  apply (channel_fifo 0 2 2 (mkSys (mkHeap ∅ ∅) {[0 := mkChannel None None false (fed 2 2)]} ∅ timer_new : Sys nat nat)). reflexivity.
Defined.
