(* ===== verification/Parking.v ===== *)
(** * The registry of parked tasks (src/runtime/sync/parking.rs)

    A [Parking] holds a task while it waits and is the [Wake] of every
    operation.  The sixteen maps of the source, each behind a lock of its
    own, are one map here: a task's name picks its map ([shard_of]).  What
    the source does under one lock is one definition, and one step of a
    [World]; what it goes on to do after the lock is let go is another: a
    wake takes its entry out and then finishes the wait, a shutdown sets
    the flag, empties one map after the other and then drops what it took,
    one entry after the other.  [inspect] alone holds all the locks. *)

From S2P Require Import Prelude Token Channel ChannelFacts ChannelSpec Cell Timer Wait WaitFacts System.

(** A parked task: [e_committed] once its worker has given it up. *)
Record Entry (T : Type) := mkEntry {
  e_task : T;
  e_parked : ParkedAt;
  e_committed : bool;
}.
Arguments mkEntry {T} _ _ _.
Arguments e_task {T} _.
Arguments e_parked {T} _.
Arguments e_committed {T} _.

Record Parking (T V E : Type) := mkParking {
  pk_sys : Sys V E;
  pk_tasks : gmap TaskId (Entry T);
  pk_waiting : nat;
  pk_shut_down : bool;
}.
Arguments mkParking {T V E} _ _ _ _.
Arguments pk_sys {T V E} _.
Arguments pk_tasks {T V E} _.
Arguments pk_waiting {T V E} _.
Arguments pk_shut_down {T V E} _.

(** The shard of a task's name. *)
Definition SHARDS : N := 16.
Definition shard_of (id : TaskId) : N := (id mod SHARDS)%N.

(** The hash of a task's name: the name, spread over the word. *)
Definition name_hash (name : N) : N := (name * 11400714819323198485 mod 2 ^ 64)%N.

Section parking.
Context {T V E : Type}.
Implicit Types (pk : Parking T V E) (sys : Sys V E).

Definition with_sys pk sys : Parking T V E :=
  mkParking sys (pk_tasks pk) (pk_waiting pk) (pk_shut_down pk).

Definition parking_new sys : Parking T V E := mkParking sys ∅ 0 false.

(** [finish]: how the wait of a task that is taken back ended; the
    [Parked] is dropped with it.  [None]: the source panics, the wait is
    open. *)
Definition finish sys (p : ParkedAt) : option (Sys V E * Resumed V E) :=
  match parked_finish sys p with
  | (sys1, TakeResumed r) => Some (drop_parked sys1 p, r)
  | (_, TakeOpen) | (_, TakePanic) => None
  end.

(** The task of an entry that was taken out, with how its wait ended. *)
Definition take_back pk (e : Entry T) : option (Parking T V E * (T * Resumed V E)) :=
  '(sys', r) ← finish (pk_sys pk) (e_parked e); Some (with_sys pk sys', (e_task e, r)).

(** [Wake::wake] of the registry, under the lock: the entry comes out. *)
Definition wake_take pk (id : TaskId) : Parking T V E * option (Entry T) :=
  match pk_tasks pk !! id with
  | None => (pk, None)
  | Some e =>
      (mkParking (pk_sys pk) (delete id (pk_tasks pk)) (pk_waiting pk - 1) (pk_shut_down pk), Some e)
  end.

(** The whole of it, with nobody in between: what it hands to [ready]. *)
Definition wake pk (id : TaskId) : option (Parking T V E * option (T * Resumed V E)) :=
  let '(pk1, oe) := wake_take pk id in
  match oe with
  | None => Some (pk1, None)
  | Some e => '(pk2, b) ← take_back pk1 e; Some (pk2, Some b)
  end.

(** The steps of [Parking::park] once the wait is on the queues.

    Under the lock the entry is put in, unless the runtime is ending
    ([false]).  [None]: the assertion that the task is not parked
    already. *)
Definition insert_entry pk (id : TaskId) (tk : T) (p : ParkedAt) : option (Parking T V E * bool) :=
  if pk_shut_down pk then Some (pk, false)
  else
    match pk_tasks pk !! id with
    | Some _ => None
    | None =>
        Some (mkParking (pk_sys pk) (<[id := mkEntry tk p false]> (pk_tasks pk))
                (pk_waiting pk) (pk_shut_down pk), true)
    end.

(** When it is ending the wait is given up, and the task comes back as
    cancelled. *)
Definition park_insert pk (id : TaskId) (tk : T) (p : ParkedAt) :
    option (Parking T V E * option (T * Resumed V E)) :=
  '(pk1, ok) ← insert_entry pk id tk p;
  if ok : bool then Some (pk1, None)
  else Some (with_sys pk1 (drop_parked (pk_sys pk1) p), Some (tk, RCancelled)).

(** A cancel that came before the entry was there is found by the flag. *)
Definition park_recheck pk (p : ParkedAt) (refused : bool) : Parking T V E * list TaskId :=
  if refused || is_cancelled (heap (pk_sys pk)) (p_token p)
  then let '(h', ws, _) := token_cancel (heap (pk_sys pk)) (p_token p) in
       (with_sys pk (with_heap (pk_sys pk) h'), ws)
  else (pk, []).

(** The worker gives the task up, or takes its entry out again ([Some])
    when its wait has ended meanwhile: both under the lock. *)
Definition commit_entry pk (id : TaskId) (p : ParkedAt) : Parking T V E * option (Entry T) :=
  let '(sys1, ok) := parked_commit (pk_sys pk) p in
  if ok
  then
    (match pk_tasks pk !! id with
     | Some e =>
         mkParking sys1 (<[id := mkEntry (e_task e) (e_parked e) true]> (pk_tasks pk))
           (pk_waiting pk + 1) (pk_shut_down pk)
     | None => with_sys pk sys1
     end, None)
  else (mkParking sys1 (delete id (pk_tasks pk)) (pk_waiting pk) (pk_shut_down pk), pk_tasks pk !! id).

(** The end of a park, with nobody in between. *)
Definition park_commit pk (id : TaskId) (p : ParkedAt) :
    option (Parking T V E * option (T * Resumed V E)) :=
  let '(pk1, oe) := commit_entry pk id p in
  match oe with
  | None => Some (pk1, None)
  | Some e => '(pk2, b) ← take_back pk1 e; Some (pk2, Some b)
  end.

(** The wakes of an operation, one after the other. *)
Fixpoint wake_all pk (ws : list TaskId) : option (Parking T V E * list (T * Resumed V E)) :=
  match ws with
  | [] => Some (pk, [])
  | id :: ws' =>
      '(pk1, r) ← wake pk id;
      '(pk2, rs) ← wake_all pk1 ws';
      Some (pk2, option_list r ++ rs)
  end.

(** [Parking::park] run through with nobody in between: what the caller
    gets, and what was handed to [ready]. *)
Definition parking_park pk (id : TaskId) (tk : T) (x : Wait V) (refused : bool) (now : N) :
    option (Parking T V E * option (T * Resumed V E) * list (T * Resumed V E)) :=
  if refused then Some (pk, Some (tk, RCancelled), [])
  else
    '(sys1, ws, r) ← park (pk_sys pk) id x now true;
    '(pk1, rs) ← wake_all (with_sys pk sys1) ws;
    match r with
    | PkReady f => Some (pk1, Some (tk, RFired f), rs)
    | PkCancelled => Some (pk1, Some (tk, RCancelled), rs)
    | PkExpired => Some (pk1, Some (tk, RExpired), rs)
    | PkParked p =>
        '(pk2, back) ← park_insert pk1 id tk p;
        match back with
        | Some b => Some (pk2, Some b, rs)
        | None =>
            let '(pk3, ws3) := park_recheck pk2 p refused in
            '(pk4, rs4) ← wake_all pk3 ws3;
            '(pk5, back5) ← park_commit pk4 id p;
            Some (pk5, back5, rs ++ rs4)
        end
    end.

(** [Parking::cancel].  Between the look for the token, which is under the
    lock, and the cancel of it anybody may come: that is [op_cancel] of a
    token whose entry is gone meanwhile. *)
Definition parking_cancel pk (id : TaskId) : Parking T V E * list TaskId * bool :=
  match pk_tasks pk !! id with
  | None => (pk, [], false)
  | Some e =>
      let '(h', ws, b) := token_cancel (heap (pk_sys pk)) (p_token (e_parked e)) in
      (with_sys pk (with_heap (pk_sys pk) h'), ws, b)
  end.

(** [Parking::is_parked]. *)
Definition parking_is_parked pk (id : TaskId) : bool :=
  match pk_tasks pk !! id with Some e => e_committed e | None => false end.

Definition committed_in (m : gmap TaskId (Entry T)) : gmap TaskId (Entry T) :=
  filter (λ p, e_committed p.2 = true) m.

(** The order of the names. *)
Definition by_id (a b : TaskId * Entry T) : Prop := (a.1 <= b.1)%N.
#[global] Instance by_id_dec : RelDecision by_id.
Proof. intros a b. unfold by_id. apply _. Defined.

(** [Parking::inspect]: the committed entries by id, with what each waits
    on and its deadline. *)
Definition inspect pk : list (TaskId * T * list Source * option N) :=
  let l := merge_sort by_id (map_to_list (committed_in (pk_tasks pk))) in
  (λ a, (a.1, e_task a.2, p_sources (e_parked a.2), parked_deadline (e_parked a.2))) <$> l.

(** [Parking::shutdown].  The flag is set; then one map after the other is
    emptied, each under its lock; then, with no lock held, the [Parked] of
    each entry is dropped, and the tasks come back by id. *)
Definition shut_flag pk : Parking T V E := mkParking (pk_sys pk) (pk_tasks pk) (pk_waiting pk) true.

Definition shard_entries pk (i : N) : gmap TaskId (Entry T) :=
  filter (λ a, shard_of a.1 = i) (pk_tasks pk).

Definition drain_shard pk (i : N) : Parking T V E * list (TaskId * Entry T) :=
  (mkParking (pk_sys pk) (filter (λ a, shard_of a.1 ≠ i) (pk_tasks pk))
     (pk_waiting pk - size (committed_in (shard_entries pk i))) (pk_shut_down pk),
   map_to_list (shard_entries pk i)).

Fixpoint drain_shards pk (shards : list N) : Parking T V E * list (TaskId * Entry T) :=
  match shards with
  | [] => (pk, [])
  | i :: shards' =>
      let '(pk1, l1) := drain_shard pk i in
      let '(pk2, l2) := drain_shards pk1 shards' in (pk2, l1 ++ l2)
  end.

Definition drop_all sys (l : list (TaskId * Entry T)) : Sys V E :=
  foldl (λ s e, drop_parked s (e_parked e.2)) sys l.

(** The whole of it, with nobody in between. *)
Definition shutdown pk : Parking T V E * list (TaskId * T) :=
  let '(pk1, l) := drain_shards (shut_flag pk) (N.of_nat <$> seq 0 (N.to_nat SHARDS)) in
  (with_sys pk1 (drop_all (pk_sys pk1) l), (λ e, (e.1, e_task e.2)) <$> merge_sort by_id l).

End parking.

(** ** Every interleaving

    A [World] is the registry with what is under way: the workers that
    are parking a task ([Holding]: its wait is on the queues, [Entered]:
    its entry is in), the wakes that have not arrived ([inflight]: collected
    by an operation, sent when it is over), and the entries that were taken
    out and are still in somebody's hands: those of tasks that are taken
    back, whose wait is to be finished ([ToFinish]), and those whose wait is
    given up, by a shutdown or by a worker it refused, and whose [Parked] is
    to be dropped ([ToDrop]).  A task of which an entry is in somebody's hands
    is there, and parks nowhere.  Any operation of anybody may come between
    two steps. *)
Inductive Phase (T : Type) :=
  | Holding (tk : T) (p : ParkedAt)
  | Entered (p : ParkedAt).
Arguments Holding {T} _ _.
Arguments Entered {T} _.

Definition phase_parked {T} (ph : Phase T) : ParkedAt :=
  match ph with Holding _ p | Entered p => p end.

Variant Hold := ToFinish | ToDrop.

Record World (T V E : Type) := mkWorld {
  w_pk : Parking T V E;
  w_workers : gmap TaskId (Phase T);
  w_inflight : list TaskId;
  w_hands : gmap TaskId (Hold * Entry T);
}.
Arguments mkWorld {T V E} _ _ _ _.
Arguments w_pk {T V E} _.
Arguments w_workers {T V E} _.
Arguments w_inflight {T V E} _.
Arguments w_hands {T V E} _.

Section world.
Context {T V E : Type}.
Implicit Types (W : World T V E) (pk : Parking T V E).

Definition w_heap W : Heap V E := heap (pk_sys (w_pk W)).

(** The hands after an entry was taken back, or was not there. *)
Definition to_finish (id : TaskId) (oe : option (Entry T)) (hands : gmap TaskId (Hold * Entry T)) :
    gmap TaskId (Hold * Entry T) :=
  match oe with Some e => <[id := (ToFinish, e)]> hands | None => hands end.

Inductive wstep W : World T V E → Prop :=
  | ws_op ws sys' :
      op_step (pk_sys (w_pk W)) ws sys' →
      wstep W (mkWorld (with_sys (w_pk W) sys') (w_workers W) (w_inflight W ++ ws) (w_hands W))
  | ws_set_flag f :
      wstep W (mkWorld (with_sys (w_pk W) (with_heap (pk_sys (w_pk W)) (set_flag (w_heap W) f)))
                 (w_workers W) (w_inflight W) (w_hands W))
  | ws_park id tk x now at_once sys' ws r :
      w_workers W !! id = None → pk_tasks (w_pk W) !! id = None → w_hands W !! id = None →
      arms_exist (pk_sys (w_pk W)) (arms x) →
      park (pk_sys (w_pk W)) id x now at_once = Some (sys', ws, r) →
      wstep W (mkWorld (with_sys (w_pk W) sys')
                 match r with PkParked p => <[id := Holding tk p]> (w_workers W) | _ => w_workers W end
                 (w_inflight W ++ ws) (w_hands W))
  | ws_insert id tk p pk' (ok : bool) :
      w_workers W !! id = Some (Holding tk p) →
      insert_entry (w_pk W) id tk p = Some (pk', ok) →
      wstep W (mkWorld pk'
                 (if ok then <[id := Entered p]> (w_workers W) else delete id (w_workers W))
                 (w_inflight W)
                 (if ok then w_hands W else <[id := (ToDrop, mkEntry tk p false)]> (w_hands W)))
  | ws_recheck id p refused pk' ws :
      w_workers W !! id = Some (Entered p) →
      park_recheck (w_pk W) p refused = (pk', ws) →
      wstep W (mkWorld pk' (w_workers W) (w_inflight W ++ ws) (w_hands W))
  | ws_commit id p pk' oe :
      w_workers W !! id = Some (Entered p) →
      commit_entry (w_pk W) id p = (pk', oe) →
      wstep W (mkWorld pk' (delete id (w_workers W)) (w_inflight W) (to_finish id oe (w_hands W)))
  | ws_cancel id pk' ws b :
      parking_cancel (w_pk W) id = (pk', ws, b) →
      wstep W (mkWorld pk' (w_workers W) (w_inflight W ++ ws) (w_hands W))
  | ws_wake pre id post pk' oe :
      w_inflight W = pre ++ id :: post →
      wake_take (w_pk W) id = (pk', oe) →
      wstep W (mkWorld pk' (w_workers W) (pre ++ post) (to_finish id oe (w_hands W)))
  | ws_take_back id e pk' b :
      w_hands W !! id = Some (ToFinish, e) →
      take_back (w_pk W) e = Some (pk', b) →
      wstep W (mkWorld pk' (w_workers W) (w_inflight W) (delete id (w_hands W)))
  | ws_shut_flag :
      wstep W (mkWorld (shut_flag (w_pk W)) (w_workers W) (w_inflight W) (w_hands W))
  | ws_drain i pk' l :
      pk_shut_down (w_pk W) = true →
      drain_shard (w_pk W) i = (pk', l) →
      wstep W (mkWorld pk' (w_workers W) (w_inflight W)
                 ((pair ToDrop <$> list_to_map l) ∪ w_hands W))
  | ws_drop id e :
      w_hands W !! id = Some (ToDrop, e) →
      wstep W (mkWorld (with_sys (w_pk W) (drop_parked (pk_sys (w_pk W)) (e_parked e)))
                 (w_workers W) (w_inflight W) (delete id (w_hands W))).

Definition w_init : World T V E :=
  mkWorld (parking_new (mkSys (mkHeap ∅ ∅) ∅ ∅ timer_new)) ∅ [] ∅.

Definition reachable W : Prop := rtc wstep w_init W.

End world.
