(* ===== verification/ParkingFacts.v ===== *)
(** * No wake is lost, none comes twice, nothing is left behind

    The invariant of the registry of parked tasks over every
    interleaving of parks, operations, cancels, wakes and a shutdown, and
    what follows from it. *)

From S2P Require Import Prelude Token Channel ChannelFacts ChannelSpec Cell Timer Wait WaitFacts System Parking.

(** ** Dropping a [Parked] *)
Section drop_parked.
Context {V E : Type}.
Implicit Types (sys : Sys V E).

Lemma heap_forget_sources sys t ended arm srcs :
  heap (forget_sources sys t ended arm srcs) = heap sys.
Proof.
  revert sys arm. induction srcs as [|src srcs IH]; intros sys arm; [done|]. cbn. rewrite IH.
  case_decide; [done|]. destruct src; cbn; try destruct (state_of sys c); done.
Qed.

Lemma heap_drop_parked sys p : heap (drop_parked sys p) = abandon (heap sys) (p_token p).
Proof.
  unfold drop_parked. destruct (p_timer p); cbn; by rewrite heap_forget_sources.
Qed.

Lemma disarm_ok tm id : timer_ok tm → timer_ok (disarm tm id).1.
Proof.
  intros [Hs Hn Hp Hr]. unfold disarm, tmap_remove. cbn. split; cbn; [| | |done].
  - by apply filter_sorted.
  - apply Forall_forall. intros e [_ He]%list_elem_of_filter. by apply (proj1 (Forall_forall _ _) Hn).
  - assert (Hnd : NoDup (t_entries tm).*1).
    { clear Hn Hp. induction Hs as [|e l Hs IH Hall]; cbn; constructor; [|done].
      intros (e' & Heq & He')%list_elem_of_fmap. apply (proj1 (Forall_forall _ _) Hall) in He'.
      rewrite Heq in He'. by apply tid_lt_irrefl in He'. }
    rewrite Hp. clear Hs Hn Hp. case_bool_decide as Hin.
    + induction (t_entries tm) as [|e l IH]; [set_solver|]. rewrite fmap_cons in *.
      apply NoDup_cons in Hnd as [Hni Hnd]. rewrite filter_cons. case_decide as Hd.
      * assert (Hl : id ∈ l.*1) by set_solver. specialize (IH Hnd Hl).
        destruct l; [set_solver|]. cbn [length] in *. lia.
      * subst. rewrite (filter_key_none fst) by done. cbn [length]. lia.
    + by rewrite (filter_key_none fst).
Qed.

Lemma forget_source_ok sys t src : sys_ok sys → sys_ok (forget_source sys t src).
Proof.
  intros Hok. destruct src as [c|c|c|c]; cbn.
  1, 2, 4: destruct (state_of sys c) as [s|] eqn:Hs; [|done]; apply sys_ok_put; [done|done|];
    apply forget_ok; by eapply so_chans.
  destruct Hok as [Hc Hl Ht]. split; [done| |done]. intros c' cell. cbn. rewrite lookup_alter.
  case_decide; [|by apply Hl]. subst. destruct (cells sys !! c') as [cell0|] eqn:Hc'; [|done].
  intros [= <-]. apply Forall_forall. cbn. intros x [_ Hx]%list_elem_of_filter.
  by apply (proj1 (Forall_forall _ _) (Hl _ _ Hc')).
Qed.

Lemma forget_sources_ok sys t ended arm srcs :
  sys_ok sys → sys_ok (forget_sources sys t ended arm srcs).
Proof.
  revert sys arm. induction srcs as [|src srcs IH]; intros sys arm Hok; [done|]. cbn. apply IH.
  case_decide; [done|]. by apply forget_source_ok.
Qed.

Lemma drop_parked_ok sys p : sys_ok sys → sys_ok (drop_parked sys p).
Proof.
  intros Hok. unfold drop_parked.
  assert (Hok1 : sys_ok (forget_sources (with_heap sys (abandon (heap sys) (p_token p))) (p_token p)
     (ended_by (heap (with_heap sys (abandon (heap sys) (p_token p)))) (p_token p)) 0 (p_sources p))).
  { apply forget_sources_ok, sys_ok_with_heap; [done|]. apply heap_le_abandon. }
  destruct (p_timer p); [|done]. destruct Hok1 as [Hc Hl Ht]. split; cbn; [done|done|].
  by apply disarm_ok.
Qed.

(** What abandoning some tokens does to the heap. *)
Lemma abandon_lookup h (t t' : TokId) (k : Token V E) :
  tokens h !! t' = Some k →
  tokens (abandon h t) !! t' =
  Some (if decide (t = t' ∧ state_waiting (tstate k) = true)
        then mkToken (task k) (cancel_flag k) (ended_by_arm k) TCancelled else k).
Proof.
  intros Hk. unfold abandon. destruct (decide (t = t')) as [->|Hne].
  - rewrite Hk. destruct (state_waiting (tstate k)) eqn:Hw; cbn.
    + rewrite lookup_insert_eq. rewrite decide_True by done. done.
    + rewrite decide_False by naive_solver. done.
  - rewrite decide_False by naive_solver.
    destruct (tokens h !! t); [|done]. case_match; [|done]. cbn. by rewrite lookup_insert_ne.
Qed.

Lemma heap_drop_all {T} sys (l : list (TaskId * Entry T)) t (k : Token V E) :
  tokens (heap sys) !! t = Some k →
  tokens (heap (drop_all sys l)) !! t =
  Some (if decide (t ∈ (λ e, p_token (e_parked e.2)) <$> l ∧ state_waiting (tstate k) = true)
        then mkToken (task k) (cancel_flag k) (ended_by_arm k) TCancelled else k).
Proof.
  unfold drop_all. revert sys k. induction l as [|e l IH]; intros sys k Hk; cbn.
  - rewrite decide_False by set_solver. done.
  - erewrite IH; [|rewrite heap_drop_parked; by apply abandon_lookup].
    repeat case_decide; try done; exfalso; set_solver.
Qed.

End drop_parked.

(** ** The invariant *)
Section invariant.
Context {T V E : Type}.
Implicit Types (W : World T V E) (pk : Parking T V E) (h : Heap V E).

Definition tok_at h (t : TokId) (id : TaskId) (Q : TState V E → Prop) : Prop :=
  ∃ k, tokens h !! t = Some k ∧ task k = id ∧ Q (tstate k).

(** Ended, and the result not taken yet. *)
Definition over (s : TState V E) : Prop :=
  match s with TFired _ | TCancelled | TExpired => True | _ => False end.

(** On the queues, not given up, or over. *)
Definition unparked (s : TState V E) : Prop := s = TArmed ∨ over s.

Implicit Types (workers : gmap TaskId (Phase T)) (inflight : list TaskId).
Implicit Types (hands : gmap TaskId (Hold * Entry T)).

Record winv pk workers inflight hands : Prop := mkWinv {
  (** the shared objects *)
  wi_sys : sys_ok (pk_sys pk);
  (** a worker that parks a task has a wait nobody wakes it for *)
  wi_worker id ph : workers !! id = Some ph →
    tok_at (heap (pk_sys pk)) (p_token (phase_parked ph)) id unparked;
  (** a task on its way in has no entry *)
  wi_holding id tk p : workers !! id = Some (Holding tk p) → pk_tasks pk !! id = None ∧ hands !! id = None;
  (** an entry that is not committed has its worker *)
  wi_entered id e : pk_tasks pk !! id = Some e → e_committed e = false →
    workers !! id = Some (Entered (e_parked e));
  (** and the worker its entry, unless a shutdown took it: then it is to be
      dropped, or was *)
  wi_entry id p : workers !! id = Some (Entered p) →
    (∃ tk, pk_tasks pk !! id = Some (mkEntry tk p false)) ∨
    (pk_shut_down pk = true ∧ pk_tasks pk !! id = None ∧
     ((∃ tk, hands !! id = Some (ToDrop, mkEntry tk p false)) ∧ id ∉ inflight ∨
      hands !! id = None ∧ tok_at (heap (pk_sys pk)) (p_token p) id over));
  (** a committed task is parked with no wake on its way, or its wait is
      over with one *)
  wi_committed id e : pk_tasks pk !! id = Some e → e_committed e = true →
    workers !! id = None ∧
    (tok_at (heap (pk_sys pk)) (p_token (e_parked e)) id (λ s, s = TParked) ∧ id ∉ inflight ∨
     tok_at (heap (pk_sys pk)) (p_token (e_parked e)) id over ∧ id ∈ inflight);
  (** an entry in somebody's hands is not in the registry; what is taken back
      has its wait over, what is given up nobody is sent a wake for *)
  wi_hand id f e : hands !! id = Some (f, e) → pk_tasks pk !! id = None ∧
    match f with
    | ToFinish => workers !! id = None ∧ tok_at (heap (pk_sys pk)) (p_token (e_parked e)) id over
    | ToDrop => pk_shut_down pk = true ∧
        (tok_at (heap (pk_sys pk)) (p_token (e_parked e)) id unparked ∨
         tok_at (heap (pk_sys pk)) (p_token (e_parked e)) id (λ s, s = TParked) ∧ id ∉ inflight)
    end;
  (** no wake is sent twice, and each has its task unless a shutdown took
      it *)
  wi_nodup : NoDup inflight;
  wi_inflight id : id ∈ inflight →
    (∃ e, pk_tasks pk !! id = Some e ∧ e_committed e = true) ∨
    (pk_shut_down pk = true ∧ pk_tasks pk !! id = None);
  (** who is parked is in the registry, or is being given up *)
  wi_parked t : is_parked (heap (pk_sys pk)) t →
    ∃ id e, (pk_tasks pk !! id = Some e ∧ e_committed e = true ∨ hands !! id = Some (ToDrop, e)) ∧
      p_token (e_parked e) = t;
  wi_waiting : pk_waiting pk = size (committed_in (pk_tasks pk));
}.

Lemma tok_at_impl h t id (Q Q' : TState V E → Prop) :
  tok_at h t id Q → (∀ s, Q s → Q' s) → tok_at h t id Q'.
Proof. intros (k & Hk & Ht & Hq) Himp. exists k. auto. Qed.

(** A token across an operation: as it was, or over. *)
Lemma tok_at_evolves h ws h' t id (Q : TState V E → Prop) :
  evolves h ws h' → tok_at h t id Q →
  tok_at h' t id Q ∨ (is_waiting h' t = false ∧ tok_at h' t id over ∧
                      tok_at h t id (λ s, Q s ∧ state_waiting s = true)).
Proof.
  intros Hev (k & Hk & Ht & Hq). destruct (ev_tok _ _ _ Hev t k Hk) as (k' & Hk' & Hs).
  destruct Hs as [|s eb Hw He].
  - left. by exists k.
  - right. split.
    + unfold is_waiting. rewrite Hk'. cbn. by destruct s as [| |[]| | |].
    + split; [|by exists k]. eexists. split; [done|]. split; [done|]. cbn.
      by destruct s as [| |[]| | |].
Qed.

Lemma tok_at_parked h t id : tok_at h t id (λ s, s = TParked) → is_parked h t ∧ task_of h t = id.
Proof.
  intros (k & Hk & Ht & Hs). split; [by exists k|]. unfold task_of. by rewrite Hk.
Qed.

(** Who is parked has no wake on its way, and is in the registry or being
    given up. *)
Lemma parked_owner pk workers inflight hands t :
  winv pk workers inflight hands → is_parked (heap (pk_sys pk)) t →
  ∃ e, (pk_tasks pk !! task_of (heap (pk_sys pk)) t = Some e ∧ e_committed e = true ∨
        hands !! task_of (heap (pk_sys pk)) t = Some (ToDrop, e)) ∧
    p_token (e_parked e) = t ∧ task_of (heap (pk_sys pk)) t ∉ inflight.
Proof.
  intros Hinv Hp. destruct (wi_parked _ _ _ _ Hinv t Hp) as (id & e & Hor & <-).
  assert (Hat : tok_at (heap (pk_sys pk)) (p_token (e_parked e)) id (λ s, s = TParked) ∧ id ∉ inflight).
  { assert (Hno : ∀ Q, (∀ s, Q s → unparked s) → ¬ tok_at (heap (pk_sys pk)) (p_token (e_parked e)) id Q).
    { intros Q HQ (k & Hk & _ & Hq). destruct Hp as (k' & Hk' & Hs'). simplify_eq.
      destruct (HQ _ Hq) as [Ho|Ho]; by rewrite Hs' in Ho. }
    destruct Hor as [[He Hc]|He].
    - destruct (wi_committed _ _ _ _ Hinv id e He Hc) as (_ & [?|[Hat _]]); [done|].
      exfalso. eapply Hno; [|exact Hat]. by right.
    - destruct (wi_hand _ _ _ _ Hinv id _ e He) as (_ & _ & [Hat|?]); [|done].
      exfalso. by eapply Hno; [|exact Hat]. }
  destruct Hat as [Hat Hni]. pose proof (tok_at_parked _ _ _ Hat) as [_ ->]. by exists e.
Qed.

(** Any operation that keeps to [evolves] keeps the invariant, with its
    wakes on their way. *)
Lemma winv_evolves pk workers inflight hands ws sys' :
  winv pk workers inflight hands → sys_ok sys' → evolves (heap (pk_sys pk)) ws (heap sys') →
  winv (with_sys pk sys') workers (inflight ++ ws) hands.
Proof.
  intros Hinv Hok Hev. pose proof Hev as [_ _ _ (ts & Hnd & -> & Hin)].
  assert (Hts : ∀ t, t ∈ ts → ∃ e,
    (pk_tasks pk !! task_of (heap (pk_sys pk)) t = Some e ∧ e_committed e = true ∨
     hands !! task_of (heap (pk_sys pk)) t = Some (ToDrop, e)) ∧
    p_token (e_parked e) = t ∧ task_of (heap (pk_sys pk)) t ∉ inflight).
  { intros t Ht. apply Hin in Ht as [Hp _]. by eapply parked_owner. }
  assert (Hmem : ∀ id, id ∈ task_of (heap (pk_sys pk)) <$> ts → id ∉ inflight ∧
    ∃ e, (pk_tasks pk !! id = Some e ∧ e_committed e = true ∨ hands !! id = Some (ToDrop, e)) ∧
      p_token (e_parked e) ∈ ts ∧ is_parked (heap (pk_sys pk)) (p_token (e_parked e))).
  { intros id (t & -> & Ht)%list_elem_of_fmap. destruct (Hts t Ht) as (e & Hor & Heq & Hni).
    split; [done|]. exists e. rewrite Heq. split; [done|]. split; [done|]. by apply Hin. }
  (* a wait that goes on was not promised a wake *)
  assert (Hstill : ∀ id e, pk_tasks pk !! id = Some e ∧ e_committed e = true ∨ hands !! id = Some (ToDrop, e) →
    tok_at (heap sys') (p_token (e_parked e)) id (λ s, s = TParked) → id ∉ inflight →
    id ∉ inflight ++ (task_of (heap (pk_sys pk)) <$> ts)).
  { intros id e Hor Hat Hni [?|Hi]%elem_of_app; [done|].
    destruct (Hmem id Hi) as (_ & e' & Hor' & Ht & _).
    assert (e' = e) as ->.
    { destruct Hor as [[? ?]|Hh], Hor' as [[? ?]|Hh']; simplify_eq; try done.
      - destruct (wi_hand _ _ _ _ Hinv _ _ _ Hh'). congruence.
      - destruct (wi_hand _ _ _ _ Hinv _ _ _ Hh). congruence. }
    apply Hin in Ht as [_ Hw]. apply tok_at_parked in Hat as [Hp _].
    apply is_parked_dec_waiting in Hp. congruence. }
  split; cbn.
  - done.
  - intros id ph Hph. pose proof (wi_worker _ _ _ _ Hinv id ph Hph) as Hat.
    apply (tok_at_evolves _ _ _ _ _ _ Hev) in Hat as [Hat|(_ & Hat & _)]; [done|].
    eapply tok_at_impl; [done|]. by right.
  - apply (wi_holding _ _ _ _ Hinv).
  - apply (wi_entered _ _ _ _ Hinv).
  - intros id p Hp. destruct (wi_entry _ _ _ _ Hinv id p Hp) as [He|(Hs & Hno & Hor)]; [by left|right].
    split; [done|]. split; [done|]. destruct Hor as [[[tk Hh] Hni]|[Hh Hat]]; [left|right].
    + split; [by exists tk|]. intros [?|Hi]%elem_of_app; [done|].
      destruct (Hmem id Hi) as (_ & e & [[He _]|He] & _ & Hpk); [congruence|]. simplify_eq/=.
      destruct (wi_worker _ _ _ _ Hinv id _ Hp) as (k & Hk & _ & Hst). cbn in Hk.
      destruct Hpk as (k' & Hk' & Hs'). simplify_eq. destruct Hst as [Ho|Ho]; by rewrite Hs' in Ho.
    + split; [done|]. by apply (tok_at_evolves _ _ _ _ _ _ Hev) in Hat as [Hat|(_ & Hat & _)].
  - intros id e He Hc. destruct (wi_committed _ _ _ _ Hinv id e He Hc) as [Hw Hst].
    split; [done|]. destruct Hst as [[Hat Hni]|[Hat Hi]].
    + pose proof (tok_at_parked _ _ _ Hat) as [Hp Hid].
      apply (tok_at_evolves _ _ _ _ _ _ Hev) in Hat as [Hat|(Hw' & Hat & _)].
      * left. split; [done|]. eapply Hstill; [by left|done|done].
      * right. split; [done|]. apply elem_of_app. right.
        rewrite <-Hid. apply list_elem_of_fmap_2, Hin. by split.
    + right. split; [|set_solver].
      by apply (tok_at_evolves _ _ _ _ _ _ Hev) in Hat as [Hat|(_ & Hat & _)].
  - intros id f e Hh. destruct (wi_hand _ _ _ _ Hinv id f e Hh) as [Hno Hf]. split; [done|].
    destruct f.
    + destruct Hf as [Hw Hat]. split; [done|].
      by apply (tok_at_evolves _ _ _ _ _ _ Hev) in Hat as [Hat|(_ & Hat & _)].
    + destruct Hf as [Hs Hat]. split; [done|].
      assert (Hov : tok_at (heap sys') (p_token (e_parked e)) id over →
        tok_at (heap sys') (p_token (e_parked e)) id unparked) by (intros; eapply tok_at_impl; [done|by right]).
      destruct Hat as [Hat|[Hat Hni]];
        apply (tok_at_evolves _ _ _ _ _ _ Hev) in Hat as [Hat|(_ & Hat & _)]; auto.
      right. split; [done|]. eapply Hstill; [by right|done|done].
  - apply NoDup_app. split; [apply (wi_nodup _ _ _ _ Hinv)|]. split.
    + intros id Hi Hi'. by destruct (Hmem id Hi') as [Hni _].
    + assert (Hinj : ∀ t1 t2, t1 ∈ ts → t2 ∈ ts →
        task_of (heap (pk_sys pk)) t1 = task_of (heap (pk_sys pk)) t2 → t1 = t2).
      { intros t1 t2 H1 H2 Heq. destruct (Hts t1 H1) as (e1 & Ho1 & <- & _).
        destruct (Hts t2 H2) as (e2 & Ho2 & <- & _). rewrite <-Heq in Ho2.
        destruct Ho1 as [[? ?]|Hh1], Ho2 as [[? ?]|Hh2]; simplify_eq; try done.
        - destruct (wi_hand _ _ _ _ Hinv _ _ _ Hh2). congruence.
        - destruct (wi_hand _ _ _ _ Hinv _ _ _ Hh1). congruence. }
      clear -Hnd Hinj. induction Hnd as [|t ts Hni Hnd IH]; cbn; constructor.
      * intros (t' & Heq & Ht')%list_elem_of_fmap. apply Hni.
        rewrite (Hinj t t'); [done|set_solver|set_solver|done].
      * apply IH. intros; apply Hinj; set_solver.
  - intros id [Hi|Hi]%elem_of_app; [by apply (wi_inflight _ _ _ _ Hinv)|].
    destruct (Hmem id Hi) as (_ & e & [[? ?]|Hh] & _); [left; eauto|right].
    destruct (wi_hand _ _ _ _ Hinv _ _ _ Hh) as (? & ? & _). done.
  - intros t Hp. apply (wi_parked _ _ _ _ Hinv). by eapply evolves_parked_inv.
  - apply (wi_waiting _ _ _ _ Hinv).
Qed.

(** A flag set leaves every token as it is. *)
Lemma winv_same_tokens pk workers inflight hands sys' :
  winv pk workers inflight hands → sys_ok sys' → tokens (heap sys') = tokens (heap (pk_sys pk)) →
  winv (with_sys pk sys') workers inflight hands.
Proof.
  intros [] Hok Heq.
  assert (Hat : ∀ t id Q, tok_at (heap sys') t id Q ↔ tok_at (heap (pk_sys pk)) t id Q).
  { intros. unfold tok_at. by rewrite Heq. }
  assert (Hpk : ∀ t, is_parked (heap sys') t ↔ is_parked (heap (pk_sys pk)) t).
  { intros. unfold is_parked. by rewrite Heq. }
  split; cbn; try done.
  - intros. rewrite Hat. eauto.
  - intros id p Hp. destruct (wi_entry0 id p Hp) as [?|(? & ? & ?)]; [by left|right]. by rewrite Hat.
  - intros. rewrite !Hat. eauto.
  - intros id f e Hh. destruct (wi_hand0 id f e Hh) as [? Hf]. split; [done|]. by destruct f; rewrite !Hat.
  - intros t. rewrite Hpk. eauto.
Qed.

(** The token of a wait that was queued: it is the task's, and nobody has
    been promised a wake for it. *)
Lemma park_parked_token (sys : Sys V E) id (x : Wait V) now at_once sys' ws p :
  sys_ok sys → arms_exist sys (arms x) →
  park sys id x now at_once = Some (sys', ws, PkParked p) →
  tok_at (heap sys') (p_token p) id unparked.
Proof.
  intros Hok Hex. rewrite park_is_park_many by done.
  generalize (wait_times x now at_once). intros ts. unfold park_many.
  destruct (try_arms _ _ _ _ _ _) as [[[[sys1 w1] ready] ps1]|] eqn:Ht; [|done]. cbn.
  apply try_arms_spec in Ht as (Hok1 & _ & Hq & _); [|done].
  destruct ready; [done|]. destruct (Hq eq_refl) as (-> & _ & Hidle). clear Hq.
  unfold takes_nothing_new in *.
  destruct (is_set (heap sys) (cancel x)); [done|].
  destruct (tm_task_expired ts); [done|]. cbn in Hidle.
  destruct (tm_expired ts); [done|]. unfold enter_queues.
  pose proof (token_new_evolves (heap sys1) id (cancel x)) as Hev.
  pose proof (token_new_lookup (heap sys1) id (cancel x)) as Hlk.
  destruct (token_new (heap sys1) id (cancel x)) as [h1 t]. cbn in *.
  destruct (push_waiters _ t 0 _ _) as [sys2|] eqn:Hpush; [|done]. cbn.
  apply push_waiters_spec in Hpush as (Hok2 & Hh2 & _ & _).
  - destruct (join_cells sys2 t 0 _ w1) as [[sys3 w3]|] eqn:Hj; [|done]. cbn.
    apply join_cells_spec in Hj as (_ & (ws3 & Hev3 & _) & _ & _); [|done|rewrite Hh2; cbn; eauto].
    destruct (times_arm _ _ _). intros [= <- <- <-]. cbn in *. rewrite Hh2 in Hev3. cbn in Hev3.
    assert (Hat : tok_at h1 t id unparked) by (eexists; split; [done|]; split; [done|by left]).
    apply (tok_at_evolves _ _ _ _ _ _ Hev3) in Hat as [Hat|(_ & Hat & _)]; [done|].
    eapply tok_at_impl; [done|]. by right.
  - apply sys_ok_with_heap; [done|]. by eapply evolves_heap_le.
  - cbn. eauto.
  - apply Forall_lookup. intros i src Hi. apply arm_idle_for.
    apply (arm_idle_quiet sys1); [done| |eapply Hidle; [done| |done]].
    + split; [by eapply evolves_heap_le| |done|done]. intros c s Hs. exists s. by split.
    + apply elem_of_arm_order. by eapply lookup_lt_Some.
  - apply split_arms_fit.
Qed.

Lemma winv_park pk workers inflight hands id tk (x : Wait V) now at_once sys' ws r :
  winv pk workers inflight hands →
  workers !! id = None → pk_tasks pk !! id = None → hands !! id = None →
  arms_exist (pk_sys pk) (arms x) → park (pk_sys pk) id x now at_once = Some (sys', ws, r) →
  winv (with_sys pk sys')
    match r with PkParked p => <[id := Holding tk p]> workers | _ => workers end (inflight ++ ws) hands.
Proof.
  intros Hinv Hw Ht Hh Hex Hp. pose proof Hp as Hp'. rewrite park_is_park_many in Hp' by done.
  apply park_many_sound in Hp' as [Hok Hev]; [|apply Hinv].
  pose proof (winv_evolves _ _ _ _ _ _ Hinv Hok Hev) as Hinv'.
  destruct r as [|p| |]; try done.
  apply park_parked_token in Hp as Hat; [|apply Hinv|done].
  pose proof Hinv' as []. cbn in *. split; cbn; try done.
  - intros id' ph. rewrite lookup_insert. case_decide; [|by eauto]. intros [= <-]. by subst.
  - intros id' tk' p'. rewrite lookup_insert. case_decide; [|by eauto]. by subst.
  - intros id' e He Hc. rewrite lookup_insert_ne; [by eauto|]. intros ->. congruence.
  - intros id' p'. rewrite lookup_insert. case_decide; [done|]. eauto.
  - intros id' e He Hc. rewrite lookup_insert_ne; [by eauto|]. intros ->. congruence.
  - intros id' f e He. destruct (wi_hand0 id' f e He) as [? Hf]. split; [done|].
    rewrite lookup_insert_ne; [done|]. intros ->. congruence.
Qed.

(** A task on its way in finds its place free, and gets it unless the
    runtime is ending. *)
Lemma winv_insert pk workers inflight hands id tk p pk' (ok : bool) :
  winv pk workers inflight hands → workers !! id = Some (Holding tk p) →
  insert_entry pk id tk p = Some (pk', ok) →
  winv pk' (if ok then <[id := Entered p]> workers else delete id workers) inflight
    (if ok then hands else <[id := (ToDrop, mkEntry tk p false)]> hands).
Proof.
  intros Hinv Hw. destruct (wi_holding _ _ _ _ Hinv _ _ _ Hw) as [Hno Hnh].
  pose proof (wi_worker _ _ _ _ Hinv _ _ Hw) as Hat. cbn in Hat. unfold insert_entry.
  destruct (pk_shut_down pk) eqn:Hsd.
  - intros [= <- <-]. pose proof Hinv as []. split; cbn; try done.
    + intros id' ph. rewrite lookup_delete. case_decide; [done|]. eauto.
    + intros id' tk' p'. rewrite lookup_delete, lookup_insert. case_decide; [done|]. eauto.
    + intros id' e He Hc. rewrite lookup_delete_ne; [by eauto|]. intros ->. congruence.
    + intros id' p'. rewrite lookup_delete, lookup_insert. case_decide; [done|]. eauto.
    + intros id' e He Hc. rewrite lookup_delete. case_decide; [congruence|]. eauto.
    + intros id' f e. rewrite lookup_insert. case_decide.
      * intros [= <- <-]. subst id'. cbn. auto.
      * rewrite lookup_delete_ne by done. eauto.
    + intros t Hp. destruct (wi_parked0 _ Hp) as (id' & e & Hor & Heq). exists id', e.
      split; [|done]. rewrite lookup_insert_ne; [done|]. naive_solver.
  - rewrite Hno. intros [= <- <-]. pose proof Hinv as []. split; cbn; try done.
    + intros id' ph. rewrite lookup_insert. case_decide; [|by eauto]. intros [= <-]. by subst.
    + intros id' tk' p'. rewrite !lookup_insert. case_decide; [done|]. eauto.
    + intros id' e. rewrite !lookup_insert. case_decide; [|by eauto]. by intros [= <-].
    + intros id' p'. rewrite !lookup_insert. case_decide; [intros [= <-]; by eauto|].
      intros Hp. destruct (wi_entry0 _ _ Hp) as [?|[? ?]]; [by left|congruence].
    + intros id' e. rewrite !lookup_insert. case_decide; [by intros [= <-]|]. eauto.
    + intros id' f e He. rewrite !lookup_insert. case_decide; [congruence|].
      pose proof (wi_hand0 id' f e He) as Hf. by rewrite Hsd in Hf.
    + intros id' Hi. destruct (wi_inflight0 _ Hi) as [(e & He & Hc)|[? ?]]; [left|congruence].
      exists e. rewrite lookup_insert_ne; [done|]. intros ->. congruence.
    + intros t Hp. destruct (wi_parked0 _ Hp) as (id' & e & Hor & Heq). exists id', e.
      split; [|done]. destruct Hor as [[? ?]|?]; [left|by right].
      rewrite lookup_insert_ne; [done|]. intros ->. congruence.
    + rewrite wi_waiting0. unfold committed_in. by rewrite map_filter_insert_False, delete_id.
Qed.

(** [others id h h']: the tokens of every task but [id] are as they were,
    and none is parked that was not. *)
Definition others (id : TaskId) h h' : Prop :=
  (∀ t' id' Q, id' ≠ id → tok_at h t' id' Q → tok_at h' t' id' Q) ∧
  (∀ t', is_parked h' t' → is_parked h t').

Lemma others_refl id h : others id h h.
Proof. done. Qed.

Lemma others_trans id h1 h2 h3 : others id h1 h2 → others id h2 h3 → others id h1 h3.
Proof. intros [H1 H1'] [H2 H2']. split; eauto. Qed.

Lemma others_set_tok id h t k k' :
  tokens h !! t = Some k → task k = id → state_parked (tstate k') = false →
  others id h (set_tok h t k').
Proof.
  intros Hk Hid Hp. split.
  - intros t' id' Q Hne (k0 & Hk0 & Ht0 & Hq). exists k0. cbn. rewrite lookup_insert_ne; [done|].
    intros ->. congruence.
  - intros t' (k0 & Hk0 & Hs). cbn in Hk0. rewrite lookup_insert in Hk0. case_decide.
    + simplify_eq. by rewrite Hs in Hp.
    + by exists k0.
Qed.

Lemma others_abandon id h t Q : tok_at h t id Q → others id h (abandon h t).
Proof.
  intros (k & Hk & Hid & _). unfold abandon. rewrite Hk. destruct (state_waiting (tstate k)); [|done].
  by eapply others_set_tok.
Qed.

(** A wait that is over has a result, and it is taken without a trace on
    anybody else. *)
Lemma finish_over (sys : Sys V E) p id :
  sys_ok sys → tok_at (heap sys) (p_token p) id over →
  ∃ sys' r, finish sys p = Some (sys', r) ∧ sys_ok sys' ∧ others id (heap sys) (heap sys').
Proof.
  intros Hok Hat. unfold finish, parked_finish.
  pose proof (heap_le_take (heap sys) (p_token p)) as Hle.
  destruct Hat as (k & Hk & Hid & Hover). unfold take in *. rewrite Hk in *.
  destruct (tstate k) eqn:Hs; try done; cbn in *; eexists _, _; (split; [done|]);
    rewrite heap_drop_parked; split;
    try (by apply drop_parked_ok, sys_ok_with_heap);
    (eapply others_trans; [|eapply (others_abandon _ _ _ (λ _, True))]); cbn.
  all: try apply others_refl; try (by exists k).
  - by eapply others_set_tok.
  - eexists. split; [apply lookup_insert_eq|]. by split.
Qed.

Lemma committed_delete_False (m : gmap TaskId (Entry T)) id :
  (∀ e, m !! id = Some e → e_committed e = false) →
  committed_in (delete id m) = committed_in m.
Proof.
  intros Hm. unfold committed_in. apply map_filter_delete_not. intros e He. cbn. by rewrite (Hm e He).
Qed.

Lemma committed_delete_size (m : gmap TaskId (Entry T)) id e :
  m !! id = Some e → e_committed e = true →
  size (committed_in (delete id m)) = size (committed_in m) - 1.
Proof.
  intros He Hc. unfold committed_in. rewrite map_filter_delete, map_size_delete.
  assert (Hin : filter (λ p, e_committed p.2 = true) m !! id = Some e)
    by (by apply map_lookup_filter_Some).
  rewrite Hin. lia.
Qed.

(** A task whose wait is over is taken out: its entry, its worker and the
    wake on its way to it. *)
Lemma winv_take pk workers inflight hands id e n inflight' :
  winv pk workers inflight hands → pk_tasks pk !! id = Some e →
  tok_at (heap (pk_sys pk)) (p_token (e_parked e)) id over →
  n = size (committed_in (delete id (pk_tasks pk))) → NoDup inflight' →
  (∀ id', id' ∈ inflight' ↔ id' ∈ inflight ∧ id' ≠ id) →
  winv (mkParking (pk_sys pk) (delete id (pk_tasks pk)) n (pk_shut_down pk)) (delete id workers) inflight'
    (<[id := (ToFinish, e)]> hands).
Proof.
  intros Hinv He Hat Hn Hnd Hin. pose proof Hinv as []. split; cbn; try done.
  - intros id' ph. rewrite lookup_delete. case_decide; [done|]. eauto.
  - intros id' tk p. rewrite !lookup_delete, lookup_insert. case_decide; [done|]. eauto.
  - intros id' e'. rewrite !lookup_delete. case_decide; [done|]. eauto.
  - intros id' p. rewrite !lookup_delete, lookup_insert. case_decide; [done|]. rewrite Hin.
    intros Hp. destruct (wi_entry0 _ _ Hp) as [?|(? & ? & Hor)]; [by left|right]. naive_solver.
  - intros id' e'. rewrite !lookup_delete, Hin. case_decide; [done|]. naive_solver.
  - intros id' f e'. rewrite !lookup_delete, lookup_insert. case_decide.
    + intros [= <- <-]. subst. done.
    + intros Hh. destruct (wi_hand0 _ _ _ Hh) as [? Hf]. split; [done|].
      destruct f; [done|]. rewrite Hin. naive_solver.
  - intros id' [Hi Hne]%Hin. rewrite lookup_delete_ne by done. auto.
  - intros t Hp. destruct (wi_parked0 _ Hp) as (id' & e' & Hor & <-). exists id', e'. split; [|done].
    rewrite lookup_delete, lookup_insert. case_decide; [|done]. subst id'. exfalso.
    destruct Hor as [[He' _]|Hh]; [|destruct (wi_hand0 _ _ _ Hh); congruence]. simplify_eq.
    destruct Hp as (k & Hk & Hs), Hat as (k' & Hk' & _ & Ho). simplify_eq. by rewrite Hs in Ho.
Qed.

(** What is in somebody's hands is let go of. *)
Lemma winv_let_go pk workers inflight hands id f e sys' :
  winv pk workers inflight hands → hands !! id = Some (f, e) →
  sys_ok sys' → others id (heap (pk_sys pk)) (heap sys') →
  ¬ is_parked (heap sys') (p_token (e_parked e)) →
  (f = ToDrop → tok_at (heap sys') (p_token (e_parked e)) id over) →
  winv (with_sys pk sys') workers inflight (delete id hands).
Proof.
  intros Hinv Hh Hok [Hoth Hpk] Hnp Hover. pose proof Hinv as [].
  destruct (wi_hand0 _ _ _ Hh) as [Hno Hf].
  assert (Hown : ∀ p, workers !! id = Some (Entered p) → tok_at (heap sys') (p_token p) id over).
  { intros p Hp. destruct (wi_entry0 _ _ Hp) as [[tk He]|(_ & _ & [[[tk He] _]|[He _]])];
      [congruence| |congruence]. simplify_eq/=. by apply Hover. }
  split; cbn; try done.
  - intros id' ph Hph. destruct (decide (id' = id)) as [->|]; [|by apply Hoth; eauto].
    destruct ph as [tk p|p]; [destruct (wi_holding0 _ _ _ Hph); congruence|].
    eapply tok_at_impl; [by apply Hown|by right].
  - intros id' tk p Hp. rewrite lookup_delete. destruct (wi_holding0 _ _ _ Hp). by case_decide.
  - intros id' p Hp. destruct (decide (id' = id)) as [->|Hne].
    + right. destruct (wi_entry0 _ _ Hp) as [[tk He]|(? & ? & _)]; [congruence|].
      split; [done|]. split; [done|]. right. rewrite lookup_delete_eq. auto.
    + destruct (wi_entry0 _ _ Hp) as [?|(? & ? & Hor)]; [by left|right]. split; [done|].
      split; [done|]. rewrite lookup_delete_ne by done. destruct Hor as [?|[? ?]]; auto.
  - intros id' e' He Hc. assert (id' ≠ id) by congruence.
    destruct (wi_committed0 _ _ He Hc) as (? & [[? ?]|[? ?]]); auto 6.
  - intros id' f' e'. rewrite lookup_delete. case_decide; [done|]. intros Hh'.
    destruct (wi_hand0 _ _ _ Hh') as [? Hf']. split; [done|]. destruct f'; naive_solver.
  - intros t Hp. destruct (wi_parked0 _ (Hpk _ Hp)) as (id' & e' & Hor & <-). exists id', e'.
    split; [|done]. destruct Hor as [?|Hh']; [by left|right]. rewrite lookup_delete_ne; [done|].
    intros <-. congruence.
Qed.

(** A wake that arrives takes out a task whose wait is over; only a shutdown
    comes before it. *)
Lemma winv_wake_take pk workers pre id post hands pk' oe :
  winv pk workers (pre ++ id :: post) hands → wake_take pk id = (pk', oe) →
  winv pk' workers (pre ++ post) (to_finish id oe hands) ∧
  oe = pk_tasks pk !! id ∧ pk_tasks pk' = delete id (pk_tasks pk) ∧ (oe = None → pk_shut_down pk = true).
Proof.
  intros Hinv. unfold wake_take. pose proof (wi_nodup _ _ _ _ Hinv) as Hnd.
  rewrite <-Permutation_middle in Hnd. apply NoDup_cons in Hnd as [Hni Hnd'].
  assert (Hin : ∀ id', id' ∈ pre ++ post ↔ id' ∈ pre ++ id :: post ∧ id' ≠ id) by set_solver.
  destruct (wi_inflight _ _ _ _ Hinv id) as [(e & He & Hc)|[Hsd Hno]]; [set_solver| |].
  - rewrite He. intros [= <- <-]. cbn. split; [|done].
    destruct (wi_committed _ _ _ _ Hinv id e He Hc) as (Hw & [[_ ?]|[Hat _]]); [set_solver|].
    rewrite <-(delete_id workers id Hw). eapply winv_take; eauto.
    by rewrite (committed_delete_size _ _ e), <-(wi_waiting _ _ _ _ Hinv).
  - rewrite Hno. intros [= <- <-]. cbn. rewrite delete_id by done. split; [|done].
    pose proof Hinv as []. split; try done.
    + intros id' p Hp. destruct (wi_entry0 _ _ Hp) as [?|(? & ? & Hor)]; [by left|right].
      rewrite Hin. naive_solver.
    + intros id' e He Hc. assert (id' ≠ id) by congruence. rewrite Hin. naive_solver.
    + intros id' f e Hh. destruct (wi_hand0 _ _ _ Hh) as [? Hf]. split; [done|].
      destruct f; [done|]. rewrite Hin. naive_solver.
    + intros id' [? ?]%Hin. auto.
Qed.

(** What was taken out is finished: "a wait that was ended has a result". *)
Lemma winv_take_back pk workers inflight hands id e :
  winv pk workers inflight hands → hands !! id = Some (ToFinish, e) →
  ∃ pk' r, take_back pk e = Some (pk', (e_task e, r)) ∧ pk_tasks pk' = pk_tasks pk ∧
    winv pk' workers inflight (delete id hands).
Proof.
  intros Hinv Hh. destruct (wi_hand _ _ _ _ Hinv _ _ _ Hh) as (_ & _ & Hat).
  destruct (finish_over _ _ _ (wi_sys _ _ _ _ Hinv) Hat) as (sys' & r & Hf & Hok & Hoth).
  unfold take_back. rewrite Hf. cbn. eexists _, _. split; [done|]. split; [done|].
  eapply winv_let_go; eauto; [|done]. intros Hp%Hoth.
  destruct Hp as (k & Hk & Hs), Hat as (k' & Hk' & _ & Ho). simplify_eq. by rewrite Hs in Ho.
Qed.

Lemma abandoned_over h t id (Q : TState V E → Prop) :
  tok_at h t id Q → (∀ s, Q s → s = TArmed ∨ s = TParked ∨ over s) → tok_at (abandon h t) t id over.
Proof.
  intros (k & Hk & Hid & Hq) HQ. eexists. split; [by apply abandon_lookup|].
  destruct (HQ _ Hq) as [Hs|[Hs|Ho]]; case_decide as Hd; try done; rewrite Hs in *; tauto.
Qed.

Lemma winv_drop pk workers inflight hands id e :
  winv pk workers inflight hands → hands !! id = Some (ToDrop, e) →
  winv (with_sys pk (drop_parked (pk_sys pk) (e_parked e))) workers inflight (delete id hands).
Proof.
  intros Hinv Hh. destruct (wi_hand _ _ _ _ Hinv _ _ _ Hh) as (_ & _ & Hor).
  assert (Hat : tok_at (heap (pk_sys pk)) (p_token (e_parked e)) id
    (λ s, s = TArmed ∨ s = TParked ∨ over s)).
  { destruct Hor as [Hat|[Hat _]]; eapply tok_at_impl; eauto. intros s [?|?]; auto. }
  apply abandoned_over in Hat as Hov; [|done].
  eapply winv_let_go; eauto; rewrite ?heap_drop_parked; [|by eapply others_abandon| |done].
  - apply drop_parked_ok, Hinv.
  - intros (k & Hk & Hs). destruct Hov as (k' & Hk' & _ & Ho). simplify_eq. by rewrite Hs in Ho.
Qed.

(** The whole wake, with nobody in between. *)
Lemma winv_wake pk workers pre id post hands :
  winv pk workers (pre ++ id :: post) hands →
  ∃ pk' r, wake pk id = Some (pk', r) ∧ pk_tasks pk' = delete id (pk_tasks pk) ∧
    fst <$> r = e_task <$> pk_tasks pk !! id.
Proof.
  intros Hinv. unfold wake. destruct (wake_take pk id) as [pk1 oe] eqn:Hw.
  destruct (winv_wake_take _ _ _ _ _ _ _ _ Hinv Hw) as (Hinv' & -> & Ht & _).
  destruct (pk_tasks pk !! id) as [e|]; [|by eexists _, _].
  destruct (winv_take_back _ _ _ _ id e Hinv') as (pk2 & r & -> & Ht2 & _); [apply lookup_insert_eq|].
  cbn. eexists _, _. split; [done|]. by rewrite Ht2.
Qed.

Lemma commit_over h t id : tok_at h t id over → commit h t = (h, false).
Proof. intros (k & Hk & _ & Ho). unfold commit. rewrite Hk. by destruct (tstate k). Qed.

Lemma with_heap_id (sys : Sys V E) : with_heap sys (heap sys) = sys.
Proof. by destruct sys. Qed.

Lemma tok_at_set_tok h t k k' t' id (Q : TState V E → Prop) :
  tokens h !! t = Some k → task k ≠ id → tok_at h t' id Q → tok_at (set_tok h t k') t' id Q.
Proof.
  intros Hk Hne (k0 & Hk0 & Ht0 & Hq). exists k0. cbn. rewrite lookup_insert_ne; [done|].
  intros <-. congruence.
Qed.

(** The worker gives up a task whose wait is open. *)
Lemma winv_committed pk workers inflight hands id tk p k :
  winv pk workers inflight hands → workers !! id = Some (Entered p) →
  pk_tasks pk !! id = Some (mkEntry tk p false) →
  tokens (heap (pk_sys pk)) !! p_token p = Some k → task k = id → tstate k = TArmed →
  winv (mkParking
          (with_heap (pk_sys pk)
             (set_tok (heap (pk_sys pk)) (p_token p)
                (mkToken id (cancel_flag k) (ended_by_arm k) TParked)))
          (<[id := mkEntry tk p true]> (pk_tasks pk)) (pk_waiting pk + 1) (pk_shut_down pk))
    (delete id workers) inflight hands.
Proof.
  intros Hinv Hw He Hk Hid Harm. pose proof Hinv as [].
  assert (Hnh : hands !! id = None).
  { destruct (hands !! id) as [[f e]|] eqn:Hh; [|done]. destruct (wi_hand0 _ _ _ Hh). congruence. }
  assert (Hni : id ∉ inflight).
  { intros [(e & He' & Hc)|[_ ?]]%wi_inflight0; [|congruence]. simplify_eq. }
  assert (Hoth : ∀ t' id' Q, id' ≠ id → tok_at (heap (pk_sys pk)) t' id' Q →
    tok_at (set_tok (heap (pk_sys pk)) (p_token p)
      (mkToken id (cancel_flag k) (ended_by_arm k) TParked)) t' id' Q).
  { intros t' id' Q Hne. eapply tok_at_set_tok; [done|]. congruence. }
  split; cbn; try done.
  - apply sys_ok_with_heap; [done|]. eapply heap_le_set_tok; [done..|]. by rewrite Harm.
  - intros id' ph. rewrite lookup_delete. case_decide; [done|]. intros Hph. apply Hoth; eauto.
  - intros id' tk' p'. rewrite lookup_delete, lookup_insert. case_decide; [done|]. eauto.
  - intros id' e. rewrite lookup_delete, lookup_insert. case_decide; naive_solver.
  - intros id' p'. rewrite lookup_delete, lookup_insert. case_decide; [done|]. intros Hp.
    destruct (wi_entry0 _ _ Hp) as [?|(? & ? & Hor)]; [by left|right]. naive_solver.
  - intros id' e. rewrite lookup_delete, lookup_insert. case_decide.
    + intros [= <-] _. subst id'. split; [done|]. left. split; [|done].
      eexists. split; [apply lookup_insert_eq|]. done.
    + intros He' Hc. destruct (wi_committed0 _ _ He' Hc) as (Hw' & [[Hat Hn]|[Hat Hi]]); auto 6.
  - intros id' f e Hh. assert (id ≠ id') by congruence. destruct (wi_hand0 _ _ _ Hh) as [? Hf].
    rewrite lookup_insert_ne, lookup_delete_ne by done. split; [done|]. destruct f; naive_solver.
  - intros id' Hi. assert (id ≠ id') by congruence. rewrite lookup_insert_ne by done. auto.
  - intros t (k0 & Hk0 & Hs). cbn in Hk0. rewrite lookup_insert in Hk0. case_decide.
    + subst t. exists id, (mkEntry tk p true). rewrite lookup_insert_eq. auto.
    + destruct (wi_parked0 t) as (id' & e & Hor & Heq); [by exists k0|]. exists id', e.
      split; [|done]. destruct Hor as [[He' Hc]|?]; [left|by right].
      rewrite lookup_insert_ne; [done|]. intros <-. by simplify_eq.
  - rewrite wi_waiting0. unfold committed_in. rewrite map_filter_insert_True by done.
    rewrite map_size_insert_None; [lia|]. apply map_lookup_filter_None. right. naive_solver.
Qed.

(** The same of a task whose entry a shutdown took and has not dropped. *)
Lemma winv_committed_taken pk workers inflight hands id tk p k :
  winv pk workers inflight hands → workers !! id = Some (Entered p) →
  hands !! id = Some (ToDrop, mkEntry tk p false) → id ∉ inflight →
  tokens (heap (pk_sys pk)) !! p_token p = Some k → task k = id → tstate k = TArmed →
  winv (with_sys pk (with_heap (pk_sys pk)
          (set_tok (heap (pk_sys pk)) (p_token p) (mkToken id (cancel_flag k) (ended_by_arm k) TParked))))
    (delete id workers) inflight hands.
Proof.
  intros Hinv Hw Hh Hni Hk Hid Harm. pose proof Hinv as [].
  destruct (wi_hand0 _ _ _ Hh) as (Hno & Hsd & _).
  assert (Hoth : ∀ t' id' Q, id' ≠ id → tok_at (heap (pk_sys pk)) t' id' Q →
    tok_at (set_tok (heap (pk_sys pk)) (p_token p)
      (mkToken id (cancel_flag k) (ended_by_arm k) TParked)) t' id' Q).
  { intros t' id' Q Hne. eapply tok_at_set_tok; [done|]. congruence. }
  split; cbn; try done.
  - apply sys_ok_with_heap; [done|]. eapply heap_le_set_tok; [done..|]. by rewrite Harm.
  - intros id' ph. rewrite lookup_delete. case_decide; [done|]. intros Hph. apply Hoth; eauto.
  - intros id' tk' p'. rewrite lookup_delete. case_decide; [done|]. eauto.
  - intros id' e He Hc. rewrite lookup_delete_ne; [by eauto|]. congruence.
  - intros id' p'. rewrite lookup_delete. case_decide; [done|]. intros Hp.
    destruct (wi_entry0 _ _ Hp) as [?|(? & ? & Hor)]; [by left|right]. naive_solver.
  - intros id' e He Hc. assert (id ≠ id') by congruence. rewrite lookup_delete_ne by done.
    destruct (wi_committed0 _ _ He Hc) as (Hw' & [[Hat Hn]|[Hat Hi]]); auto 6.
  - intros id' f e Hh'. rewrite lookup_delete. case_decide.
    + subst id'. simplify_eq. split; [done|]. split; [done|]. right. split; [|done].
      eexists. split; [apply lookup_insert_eq|]. done.
    + destruct (wi_hand0 _ _ _ Hh') as [? Hf]. split; [done|]. destruct f; naive_solver.
  - intros t (k0 & Hk0 & Hs). cbn in Hk0. rewrite lookup_insert in Hk0. case_decide.
    + subst t. exists id, (mkEntry tk p false). auto.
    + apply wi_parked0. by exists k0.
Qed.

(** A worker leaves a task whose wait is over to who has it. *)
Lemma winv_leave pk workers inflight hands id p :
  winv pk workers inflight hands → workers !! id = Some (Entered p) → pk_tasks pk !! id = None →
  winv pk (delete id workers) inflight hands.
Proof.
  intros Hinv Hw Hno. pose proof Hinv as []. split; try done.
  - intros id' ph. rewrite lookup_delete. case_decide; [done|]. eauto.
  - intros id' tk' p'. rewrite lookup_delete. case_decide; [done|]. eauto.
  - intros id' e He Hc. rewrite lookup_delete_ne; [by eauto|]. congruence.
  - intros id' p'. rewrite lookup_delete. case_decide; [done|]. eauto.
  - intros id' e He Hc. rewrite lookup_delete_ne; [by eauto|]. congruence.
  - intros id' f e Hh. destruct (wi_hand0 _ _ _ Hh) as [? Hf]. split; [done|].
    rewrite lookup_delete. by case_decide; [destruct f; naive_solver|].
Qed.

(** The last step of a park, in every state there is. *)
Lemma winv_commit pk workers inflight hands id p pk' oe :
  winv pk workers inflight hands → workers !! id = Some (Entered p) →
  commit_entry pk id p = (pk', oe) →
  winv pk' (delete id workers) inflight (to_finish id oe hands).
Proof.
  intros Hinv Hw. pose proof (wi_worker _ _ _ _ Hinv _ _ Hw) as (k & Hk & Hid & Hst). cbn in Hk.
  unfold commit_entry, parked_commit.
  destruct Hst as [Harm|Hov].
  - unfold commit. rewrite Hk, Harm. cbn.
    destruct (wi_entry _ _ _ _ Hinv id p Hw) as [(tk & He)|(_ & Hno & [[[tk Hh] Hni]|[_ Hov]])].
    + rewrite He. intros [= <- <-]. cbn. rewrite Hid. by eapply winv_committed.
    + rewrite Hno. intros [= <- <-]. cbn. rewrite Hid. by eapply winv_committed_taken.
    + destruct Hov as (k' & Hk' & _ & Ho). simplify_eq. by rewrite Harm in Ho.
  - assert (Hat : tok_at (heap (pk_sys pk)) (p_token p) id over) by by exists k.
    rewrite commit_over with (id := id) by done. rewrite with_heap_id.
    destruct (pk_tasks pk !! id) as [e|] eqn:He; intros [= <- <-]; cbn.
    + assert (Hc : e_committed e = false).
      { destruct (e_committed e) eqn:Hc; [|done].
        destruct (wi_committed _ _ _ _ Hinv id e He Hc). congruence. }
      pose proof (wi_entered _ _ _ _ Hinv id e He Hc) as Hw'. simplify_eq.
      eapply winv_take; eauto.
      * rewrite committed_delete_False; [apply Hinv|]. intros. by simplify_eq.
      * apply Hinv.
      * intros id'. split; [|tauto]. intros Hi. split; [done|]. intros ->.
        destruct (wi_inflight _ _ _ _ Hinv _ Hi) as [(e' & ? & ?)|[? ?]]; congruence.
    + rewrite delete_id by done. destruct pk. by eapply winv_leave.
Qed.

(** ** The steps of a shutdown *)
Lemma winv_shut_flag pk workers inflight hands :
  winv pk workers inflight hands → winv (shut_flag pk) workers inflight hands.
Proof.
  intros []. split; cbn; try done.
  - intros id p Hp. destruct (wi_entry0 _ _ Hp) as [?|(? & ?)]; auto.
  - intros id f e Hh. destruct (wi_hand0 _ _ _ Hh) as [? Hf]. destruct f; tauto.
  - intros id Hi. destruct (wi_inflight0 _ Hi) as [?|[? ?]]; auto.
Qed.

Lemma lookup_not_drained (m : gmap TaskId (Entry T)) i id :
  filter (λ a : TaskId * Entry T, shard_of a.1 ≠ i) m !! id = if decide (shard_of id = i) then None else m !! id.
Proof.
  rewrite map_lookup_filter. destruct (m !! id) as [e|]; cbn; [|by case_decide].
  by repeat case_decide.
Qed.

Lemma lookup_drained pk i (hands : gmap TaskId (Hold * Entry T)) id :
  ((pair ToDrop <$> list_to_map (drain_shard pk i).2) ∪ hands) !! id =
  match pk_tasks pk !! id with
  | Some e => if decide (shard_of id = i) then Some (ToDrop, e) else hands !! id
  | None => hands !! id
  end.
Proof.
  unfold drain_shard. cbn. rewrite list_to_map_to_list, lookup_union, lookup_fmap. unfold shard_entries.
  rewrite map_lookup_filter. destruct (pk_tasks pk !! id); cbn; [|by destruct (hands !! id)].
  by repeat case_decide; destruct (hands !! id).
Qed.

Lemma drained_waiting pk i :
  pk_waiting pk = size (committed_in (pk_tasks pk)) →
  pk_waiting (drain_shard pk i).1 = size (committed_in (pk_tasks (drain_shard pk i).1)).
Proof.
  cbn. intros ->. unfold shard_entries, committed_in.
  rewrite (map_filter_comm _ (λ a, shard_of a.1 = i)), (map_filter_comm _ (λ a, shard_of a.1 ≠ i)).
  set (m := filter _ (pk_tasks pk)).
  assert (Hm : size m = size (filter (λ a, shard_of a.1 = i) m) + size (filter (λ a, shard_of a.1 ≠ i) m)); [|lia].
  rewrite <-map_size_disj_union; [|apply map_disjoint_filter_complement].
  by rewrite map_filter_union_complement.
Qed.

Lemma winv_drain pk workers inflight hands i pk' l :
  winv pk workers inflight hands → pk_shut_down pk = true → drain_shard pk i = (pk', l) →
  winv pk' workers inflight ((pair ToDrop <$> list_to_map l) ∪ hands).
Proof.
  intros Hinv Hsd Hd. pose proof (lookup_drained pk i hands) as Hl.
  pose proof (drained_waiting pk i (wi_waiting _ _ _ _ Hinv)) as Hwt. rewrite Hd in Hl, Hwt. cbn in Hl, Hwt.
  set (hands' := (pair ToDrop <$> list_to_map l) ∪ hands) in *. clearbody hands'.
  unfold drain_shard in Hd. simplify_eq/=. pose proof Hinv as []. split; cbn; try done.
  - intros id tk p Hp. rewrite Hl, lookup_not_drained. destruct (wi_holding0 _ _ _ Hp) as [-> ->]. by case_decide.
  - intros id e. rewrite lookup_not_drained. case_decide; [done|]. eauto.
  - intros id p Hp. rewrite Hl, lookup_not_drained. destruct (wi_entry0 _ _ Hp) as [(tk & He)|(_ & Hno & Hor)].
    + rewrite He. case_decide; [right|left; by eexists]. split; [done|]. split; [done|]. left.
      split; [by eexists|]. intros [(e & He' & ?)|[_ ?]]%wi_inflight0; simplify_eq.
    + right. rewrite Hno. by case_decide.
  - intros id e. rewrite lookup_not_drained. case_decide; [done|]. eauto.
  - intros id f e. rewrite Hl, lookup_not_drained. destruct (pk_tasks pk !! id) as [e0|] eqn:He.
    + case_decide; [|by intros Hh%wi_hand0; rewrite He in Hh]. intros [= <- <-]. split; [done|].
      split; [done|]. destruct (e_committed e0) eqn:Hc.
      * destruct (wi_committed0 _ _ He Hc) as (_ & [?|[? _]]); [by right|left].
        eapply tok_at_impl; [done|by right].
      * left. apply (wi_worker0 _ _ (wi_entered0 _ _ He Hc)).
    + intros Hh%wi_hand0. rewrite He in Hh. by case_decide.
  - intros id Hi. rewrite lookup_not_drained. case_decide; [by right|auto].
  - intros t Hp. destruct (wi_parked0 _ Hp) as (id & e & Hor & <-). exists id, e. split; [|done].
    rewrite Hl, lookup_not_drained. destruct Hor as [[He Hc]|Hh].
    + rewrite He. case_decide; auto.
    + destruct (wi_hand0 _ _ _ Hh) as [-> _]. by right.
Qed.

Definition inv W : Prop := winv (w_pk W) (w_workers W) (w_inflight W) (w_hands W).

Lemma inv_step W W' : inv W → wstep W W' → inv W'.
Proof.
  unfold inv. intros Hinv Hstep. inv Hstep; cbn in *.
  - destruct (op_step_sound _ _ _ (wi_sys _ _ _ _ Hinv) H) as [Hok Hev]. by apply winv_evolves.
  - apply winv_same_tokens; [done| |done]. apply sys_ok_with_heap; [apply Hinv|].
    apply heap_le_set_flag.
  - by eapply winv_park.
  - by eapply winv_insert.
  - unfold park_recheck in *. case_match; simplify_eq; [|by rewrite app_nil_r].
    pose proof (token_cancel_evolves (heap (pk_sys (w_pk W))) (p_token p)) as Hev.
    destruct (token_cancel _ _) as [[h' ws'] b]. simplify_eq/=. apply winv_evolves; [done| |done].
    apply sys_ok_with_heap; [apply Hinv|by eapply evolves_heap_le].
  - by eapply winv_commit.
  - unfold parking_cancel in *. destruct (pk_tasks (w_pk W) !! id) as [e|];
      [|simplify_eq; by rewrite app_nil_r].
    pose proof (token_cancel_evolves (heap (pk_sys (w_pk W))) (p_token (e_parked e))) as Hev.
    destruct (token_cancel _ _) as [[h' ws'] b']. simplify_eq/=. apply winv_evolves; [done| |done].
    apply sys_ok_with_heap; [apply Hinv|by eapply evolves_heap_le].
  - rewrite H in Hinv. by eapply winv_wake_take in Hinv as [? _].
  - destruct (winv_take_back _ _ _ _ _ _ Hinv H) as (pk2 & r & Heq & _ & ?). by simplify_eq.
  - by apply winv_shut_flag.
  - by eapply winv_drain.
  - by eapply winv_drop.
Qed.

Lemma inv_init : inv w_init.
Proof.
  split; cbn; try done.
  - split; cbn.
    + intros c s Hs. unfold state_of in Hs. cbn in Hs. by rewrite lookup_empty in Hs.
    + intros c cell Hc. by rewrite lookup_empty in Hc.
    + split; repeat constructor.
  - constructor.
  - intros id Hi. set_solver.
  - intros t (k & Hk & _). done.
Qed.

Lemma reachable_inv W : reachable W → inv W.
Proof.
  unfold reachable. revert W. apply rtc_ind_r.
  - apply inv_init.
  - intros W1 W2 _ Hs IH. by eapply inv_step.
Qed.

End invariant.
