(* ===== verification/Sleep.v ===== *)
(** * Nobody sleeps through what it waits for

    A task that is parked is on the queue of every source of its wait
    for as long as the wait can be ended, so that with the invariant of
    the channels there is nothing it could take there: a parked receiver
    waits on an empty open channel, a parked sender on a full one. *)

From S2P Require Import Prelude Token Channel ChannelFacts ChannelSpec Cell Timer Wait WaitFacts System Parking ParkingFacts.

(** ** What the operations leave on the queues *)
Section kept.
Context {V E : Type}.
Implicit Types (h : Heap V E) (s : State V E) (w : Wakes) (q : list (Waiter V)) (sys : Sys V E).

(** From [h] and [q] to [h'] and [q'] no waiter left the queue whose wait
    can still be ended. *)
Definition kept h h' q q' : Prop :=
  ∀ x, x ∈ q → is_Some (tokens h !! w_token x) → claim h' (w_token x) = true → x ∈ q'.

Record st_keeps h h' s s' : Prop := mkStKeeps {
  kp_recv : kept h h' (recvq s) (recvq s');
  kp_send : kept h h' (sendq s) (sendq s');
  kp_demand : kept h h' (demandq s) (demandq s');
}.

Lemma kept_same h h' q : kept h h' q q.
Proof. by intros x. Qed.

Lemma kept_app h h' q q' : kept h h' q (q ++ q').
Proof. intros x Hx _ _. set_solver. Qed.

Lemma kept_trans h1 h2 h3 q1 q2 q3 :
  heap_le h1 h2 → heap_le h2 h3 → kept h1 h2 q1 q2 → kept h2 h3 q2 q3 → kept h1 h3 q1 q3.
Proof.
  intros H12 H23 Hk1 Hk2 x Hx Hd Hc. destruct (H12 _ Hd) as [Hd2 _].
  apply Hk2; [|done|done]. apply Hk1; [done|done|]. by apply (H23 _ Hd2).
Qed.

(** A queue may be cut where nobody on the cut part can be claimed. *)
Lemma kept_pop h q x q' h' :
  pop_claimable h q = Some (x, q') → heap_le h h' → claim h' (w_token x) = false → kept h h' q q'.
Proof.
  intros (_ & pre & -> & Hpre)%pop_claimable_Some Hle Hx y Hy Hd Hc.
  apply elem_of_app in Hy as [Hy|Hy].
  - apply (Hle _ Hd) in Hc. rewrite Forall_forall in Hpre. rewrite (Hpre y Hy) in Hc. done.
  - apply list_elem_of_In in Hy as [<-|Hy%list_elem_of_In]; [congruence|done].
Qed.

Lemma kept_none h q : pop_claimable h q = None → kept h h q [].
Proof.
  intros Hn%pop_claimable_None x Hx _ Hc. rewrite Forall_forall in Hn. rewrite (Hn x Hx) in Hc. done.
Qed.

Lemma kept_fire_all h q q' (o : Outcome V E) w :
  q' ⊆ q → kept h (fire_all h q o w).1 q' [].
Proof. intros Hsub x Hx%Hsub _. rewrite (fire_all_claim h q o w x Hx). done. Qed.

Lemma st_keeps_same h h' s s' :
  recvq s' = recvq s → sendq s' = sendq s → demandq s' = demandq s → st_keeps h h' s s'.
Proof. intros H1 H2 H3. split; rewrite ?H1, ?H2, ?H3; apply kept_same. Qed.

Lemma st_keeps_trans h1 h2 h3 s1 s2 s3 :
  heap_le h1 h2 → heap_le h2 h3 → st_keeps h1 h2 s1 s2 → st_keeps h2 h3 s2 s3 →
  st_keeps h1 h3 s1 s3.
Proof. intros Ha Hb [] []. split; eapply (kept_trans h1 h2 h3); eauto. Qed.

Lemma claim_fired h t (f : Fired V E) w : claim (fire h t f w).1 t = false.
Proof. rewrite claim_fire. by rewrite decide_True. Qed.

Lemma send_keeps h s v w h' s' w' r :
  send h s v w = (h', s', w', r) → st_keeps h h' s s'.
Proof.
  intros Hs. pose proof (moves_heap_le _ _ _ _ (send_moves _ _ _ _ _ _ _ _ Hs)) as Hle.
  unfold send in Hs. destruct (closed s); [simplify_eq; by apply st_keeps_same|].
  destruct (pop_claimable h (recvq s)) as [[x q]|] eqn:Hp.
  - pose proof (claim_fired h (w_token x) (FArm (w_arm x) (OReceived v)) w) as Hf.
    destruct (fire h _ _ w) as [h1 w1]. simplify_eq/=. split; cbn; try apply kept_same.
    by eapply kept_pop.
  - apply kept_none in Hp. case_decide; simplify_eq/=; split; cbn; try apply kept_same; done.
Qed.

Lemma take_from_sender_keeps h s w h' s' w' o :
  take_from_sender h s w = (h', s', w', o) → st_keeps h h' s s'.
Proof.
  intros Hs. pose proof (moves_heap_le _ _ _ _ (take_from_sender_moves _ _ _ _ _ _ _ Hs)) as Hle.
  unfold take_from_sender in Hs. destruct (pop_claimable h (sendq s)) as [[x q]|] eqn:Hp.
  - pose proof (claim_fired h (w_token x) (FArm (w_arm x) OSent) w) as Hf.
    destruct (fire h _ _ w) as [h1 w1]. simplify_eq/=. split; cbn; try apply kept_same.
    by eapply kept_pop.
  - apply kept_none in Hp. simplify_eq/=; split; cbn; try apply kept_same; done.
Qed.

Lemma wake_feeders_keeps h s w h' s' w' :
  wake_feeders h s w = (h', s', w') → st_keeps h h' s s'.
Proof.
  unfold wake_feeders. pose proof (kept_fire_all h (demandq s) (demandq s) OAsked w) as Hf.
  destruct (fire_all _ _ _ _) as [h1 w1]. intros [= <- <- <-].
  split; cbn; try apply kept_same. by apply Hf.
Qed.

Lemma receive_keeps h s w h' s' w' r :
  receive h s w = (h', s', w', r) → st_keeps h h' s s'.
Proof.
  unfold receive. destruct (buf s) as [|v b];
    destruct (take_from_sender _ _ _) as [[[h1 s1] w1] o] eqn:Ht;
    pose proof (moves_heap_le _ _ _ _ (take_from_sender_moves _ _ _ _ _ _ _ Ht)) as Hle1;
    apply take_from_sender_keeps in Ht as [H1 H2 H3]; cbn in *.
  - destruct o; [by intros [= <- <- <- <-]|]. destruct (closed s1); [by intros [= <- <- <- <-]|].
    destruct (wake_feeders _ _ _) as [[h2 s2] w2] eqn:Hw.
    pose proof (moves_heap_le _ _ _ _ (wake_feeders_moves _ _ _ _ _ _ Hw)) as Hle2.
    apply wake_feeders_keeps in Hw as []. cbn in *. intros [= <- <- <- <-].
    split; by eapply (kept_trans h h1).
  - destruct o; [by intros [= <- <- <- <-]|]. destruct (demand s1); [|by intros [= <- <- <- <-]].
    destruct (wake_feeders _ _ _) as [[h2 s2] w2] eqn:Hw.
    pose proof (moves_heap_le _ _ _ _ (wake_feeders_moves _ _ _ _ _ _ Hw)) as Hle2.
    apply wake_feeders_keeps in Hw as []. cbn in *. intros [= <- <- <- <-].
    split; by eapply (kept_trans h h1).
Qed.

Lemma close_keeps h s c w h' s' w' r :
  close h s c w = (h', s', w', r) → st_keeps h h' s s'.
Proof.
  unfold close. destruct (closed s); [intros [= <- <- <- <-]; by apply st_keeps_same|].
  pose proof (λ q', kept_fire_all h (sendq s ++ recvq s ++ demandq s) q' (OClosed c) w) as Hf.
  destruct (fire_all _ _ _ _) as [h1 w1]. intros [= <- <- <- <-].
  split; cbn; apply Hf; set_solver.
Qed.

(** Once [t]'s wait is over. *)
Lemma forget_keeps h h' s t :
  heap_le h h' → claim h' t = false → st_keeps h h' s (forget h' s t).
Proof.
  intros Hle Ht.
  assert (H1 : ∀ q, kept h h' q (without q t)).
  { intros q x Hx _ Hc. apply list_elem_of_filter. split; [|done]. intros <-. congruence. }
  assert (H2 : ∀ q, kept h h' q (still_waiting h' q)).
  { intros q x Hx _ Hc. apply list_elem_of_filter. split; [|done]. by apply claim_is_waiting. }
  unfold forget. repeat case_decide; split; cbn; auto using kept_same.
Qed.

(** ** The store *)
Definition chans_keep h h' (chs chs' : gmap nat (Channel V E)) : Prop :=
  ∀ c ch, chs !! c = Some ch →
    ∃ ch', chs' !! c = Some ch' ∧ st_keeps h h' (chan_state ch) (chan_state ch').

Definition cells_keep h h' (cls cls' : gmap nat (Cell V)) : Prop :=
  ∀ c cell, cls !! c = Some cell →
    ∃ cell', cls' !! c = Some cell' ∧ kept h h' (cell_waiters cell) (cell_waiters cell').

Record sys_keeps sys sys' : Prop := mkSysKeeps {
  sk_heap : heap_le (heap sys) (heap sys');
  sk_chans : chans_keep (heap sys) (heap sys') (chans sys) (chans sys');
  sk_cells : cells_keep (heap sys) (heap sys') (cells sys) (cells sys');
}.

Lemma chans_keep_same h h' chs : chans_keep h h' chs chs.
Proof. intros c ch Hc. exists ch. split; [done|]. by apply st_keeps_same. Qed.

Lemma cells_keep_same h h' cls : cells_keep h h' cls cls.
Proof. intros c cell Hc. exists cell. split; [done|]. apply kept_same. Qed.

Lemma chans_keep_trans h1 h2 h3 chs1 chs2 chs3 :
  heap_le h1 h2 → heap_le h2 h3 → chans_keep h1 h2 chs1 chs2 → chans_keep h2 h3 chs2 chs3 →
  chans_keep h1 h3 chs1 chs3.
Proof.
  intros Ha Hb H1 H2 c ch Hc. destruct (H1 c ch Hc) as (ch' & Hc' & Hk).
  destruct (H2 c ch' Hc') as (ch'' & Hc'' & Hk'). exists ch''. split; [done|].
  by eapply (st_keeps_trans h1 h2 h3).
Qed.

#[global] Instance sys_keeps_preorder : PreOrder sys_keeps.
Proof.
  split.
  - intros sys. split; [done|apply chans_keep_same|apply cells_keep_same].
  - intros s1 s2 s3 [Ha H1 H2] [Hb H3 H4]. split; [by etrans|by eapply chans_keep_trans|].
    intros c cell Hc. destruct (H2 c cell Hc) as (cell' & Hc' & Hk).
    destruct (H4 c cell' Hc') as (cell'' & Hc'' & Hk'). exists cell''. split; [done|].
    by eapply (kept_trans _ (heap s2)).
Qed.

Lemma chans_keep_alter h h' chs c (f : Channel V E → Channel V E) :
  (∀ ch, chs !! c = Some ch → st_keeps h h' (chan_state ch) (chan_state (f ch))) →
  chans_keep h h' chs (alter f c chs).
Proof.
  intros Hf c' ch Hc. rewrite lookup_alter. case_decide; subst; rewrite Hc; cbn.
  - eexists. split; [done|]. by apply Hf.
  - eexists. split; [done|]. by apply st_keeps_same.
Qed.

Lemma chans_keep_insert h h' chs c ch0 :
  (∀ ch, chs !! c = Some ch → st_keeps h h' (chan_state ch) (chan_state ch0)) →
  chans_keep h h' chs (<[c := ch0]> chs).
Proof.
  intros Hf c' ch Hc. rewrite lookup_insert. case_decide; subst.
  - eexists. split; [done|]. by apply Hf.
  - eexists. split; [done|]. by apply st_keeps_same.
Qed.

Lemma sys_keeps_put sys c h s s' :
  state_of sys c = Some s → heap_le (heap sys) h → st_keeps (heap sys) h s s' →
  sys_keeps sys (put_state sys c h s').
Proof.
  unfold state_of. intros Hs Hle Hk. split; [done| |apply cells_keep_same].
  apply chans_keep_alter. intros ch Hc. rewrite Hc in Hs. simplify_eq/=. done.
Qed.

Lemma sys_keeps_put_channel sys c h ch :
  heap_le (heap sys) h →
  (∀ ch0, chans sys !! c = Some ch0 → st_keeps (heap sys) h (chan_state ch0) (chan_state ch)) →
  sys_keeps sys (put_channel sys c h ch).
Proof. intros Hle Hk. split; [done|by apply chans_keep_insert|apply cells_keep_same]. Qed.

Lemma sys_keeps_put_cell sys c h cell :
  heap_le (heap sys) h →
  (∀ cell0, cells sys !! c = Some cell0 →
     kept (heap sys) h (cell_waiters cell0) (cell_waiters cell)) →
  sys_keeps sys (put_cell sys c h cell).
Proof.
  intros Hle Hk. split; [done|apply chans_keep_same|]. intros c' cell' Hc. cbn.
  rewrite lookup_insert. case_decide; subst; eexists; (split; [done|]); [by apply Hk|].
  apply kept_same.
Qed.

Lemma sys_keeps_heap sys h : heap_le (heap sys) h → sys_keeps sys (with_heap sys h).
Proof. intros Hle. split; [done|apply chans_keep_same|apply cells_keep_same]. Qed.

End kept.

(** ** Every operation leaves those who can be woken on their queues *)
Section operations.
Context {V E : Type}.
Implicit Types (h : Heap V E) (s : State V E) (w : Wakes) (sys : Sys V E).

Lemma channel_close_keeps h s c h' s' ws r :
  channel_close h s c = (h', s', ws, r) → heap_le h h' ∧ st_keeps h h' s s'.
Proof.
  unfold channel_close. destruct (close h s c no_wakes) as [[[h1 s1] w1] r1] eqn:Hc.
  intros [= <- <- <- <-]. split; [by eapply moves_heap_le, close_moves|by eapply close_keeps].
Qed.

Lemma chans_keep_refl h (chs : gmap nat (Channel V E)) : heap_le h h ∧ chans_keep h h chs chs.
Proof. split; [done|apply chans_keep_same]. Qed.

Lemma carry_out_keeps h (chs : gmap nat (Channel V E)) w sent a h' chs' w' sent' :
  carry_out h chs w sent a = (h', chs', w', sent') →
  heap_le h h' ∧ chans_keep h h' chs chs'.
Proof.
  destruct a as [t|t|c]; cbn.
  - destruct (claim h t) eqn:Hc; [|intros [= <- <- <- <-]; by apply chans_keep_refl].
    pose proof (fire_moves h t FDeadline w Hc) as Hm. destruct (fire h t FDeadline w) as [h1 w1].
    intros [= <- <- <- <-]. split; [by eapply moves_heap_le|apply chans_keep_same].
  - destruct (claim h t) eqn:Hc; [|intros [= <- <- <- <-]; by apply chans_keep_refl].
    pose proof (expire_moves h t w Hc) as Hm. destruct (expire h t w) as [h1 w1].
    intros [= <- <- <- <-]. split; [by eapply moves_heap_le|apply chans_keep_same].
  - destruct (chs !! c) as [ch|] eqn:Hch; [|intros [= <- <- <- <-]; by apply chans_keep_refl].
    destruct (channel_close h (chan_state ch) _) as [[[h1 s1] ws1] r1] eqn:Hc.
    apply channel_close_keeps in Hc as [Hle Hk]. intros [= <- <- <- <-]. split; [done|].
    apply chans_keep_insert. intros ch0 H0. by simplify_eq.
Qed.

Lemma drain_keeps h (ch : Channel V E) h' ch' ws called :
  drain h ch = (h', ch', ws, called) →
  heap_le h h' ∧ st_keeps h h' (chan_state ch) (chan_state ch').
Proof.
  unfold drain. destruct (draining (chan_state ch)).
  { intros [= <- <- <- <-]. split; [done|by apply st_keeps_same]. }
  set (s1 := with_draining (chan_state ch) true). destruct (demand s1).
  - destruct (wake_feeders h s1 no_wakes) as [[h2 s2] w2] eqn:Hw. intros [= <- <- <- <-].
    split; [by eapply moves_heap_le, wake_feeders_moves|].
    apply wake_feeders_keeps in Hw as []. by split.
  - intros [= <- <- <- <-]. split; [done|]. by apply st_keeps_same.
Qed.

Lemma op_step_keeps sys ws sys' : op_step sys ws sys' → sys_keeps sys sys'.
Proof.
  intros Hstep. inv Hstep.
  - apply sys_keeps_put_channel; [done|]. congruence.
  - apply sys_keeps_put_cell; [done|]. congruence.
  - unfold try_send in *. destruct (send _ _ _ _) as [[[h1 s1] w1] r1] eqn:Hs. simplify_eq.
    eapply sys_keeps_put; [done|by eapply moves_heap_le, send_moves|by eapply send_keeps].
  - unfold try_receive in *. destruct (receive _ _ _) as [[[h1 s1] w1] r1] eqn:Hs. simplify_eq.
    eapply sys_keeps_put; [done|by eapply moves_heap_le, receive_moves|by eapply receive_keeps].
  - match goal with H : channel_close _ _ _ = _ |- _ => apply channel_close_keeps in H as [] end.
    by eapply sys_keeps_put.
  - match goal with H : drain _ _ = _ |- _ => apply drain_keeps in H as [] end.
    apply sys_keeps_put_channel; [done|]. naive_solver.
  - unfold abandon_channel in *. destruct (on_abandon ch).
    + destruct (channel_close _ _ _) as [[[h1 s1] ws1] r1] eqn:Hs. simplify_eq.
      apply channel_close_keeps in Hs as []. apply sys_keeps_put_channel; [done|]. naive_solver.
    + simplify_eq. apply sys_keeps_put_channel; [done|]. intros ch0 Hch0. simplify_eq.
      by apply st_keeps_same.
  - apply sys_keeps_put_cell; [done|]. intros cell0 Hc0. unfold cell_set in *.
    destruct (cell_value cell); simplify_eq/=. apply kept_same.
  - match goal with H : cell_drain _ _ _ = _ |- _ =>
      pose proof (cell_drain_moves _ _ _ _ _ _ H) as Hm; unfold cell_drain in H end.
    apply sys_keeps_put_cell; [by eapply moves_heap_le|]. intros cell0 Hc0. simplify_eq.
    pose proof (kept_fire_all (heap sys) (cell_waiters cell) (cell_waiters cell) ODone no_wakes) as Hf.
    destruct (fire_all _ _ _ _). simplify_eq/=. by apply Hf.
  - apply sys_keeps_put_channel; [done|]. intros ch0 Hc0. simplify_eq. by apply st_keeps_same.
  - apply sys_keeps_put_channel; [done|]. intros ch0 Hc0. simplify_eq. by apply st_keeps_same.
  - unfold close_at in *. destruct (timer_arm _ _ _) as [tm1 id1]. simplify_eq.
    split; [done| |apply cells_keep_same]. apply chans_keep_alter. intros ch Hc.
    by apply st_keeps_same.
  - split; [done|apply chans_keep_same|apply cells_keep_same].
  - match goal with H : carry_out _ _ _ _ _ = _ |- _ => apply carry_out_keeps in H as [] end.
    split; [done..|apply cells_keep_same].
  - split; [done|apply chans_keep_same|apply cells_keep_same].
  - match goal with H : token_cancel _ _ = _ |- _ =>
      pose proof (token_cancel_evolves (heap sys) t) as He; rewrite H in He end. cbn in He.
    apply sys_keeps_heap. by eapply evolves_heap_le.
Qed.

Lemma try_arm_keeps sys nt src p w sys' w' o p' :
  try_arm sys nt src p w = Some (sys', w', o, p') → sys_keeps sys sys'.
Proof.
  destruct src as [c|c|c|c]; cbn.
  - destruct nt; [by intros [= <- <- <- <-]|].
    destruct (state_of sys c) as [s|] eqn:Hs; [|done]. cbn.
    destruct (receive _ _ _) as [[[h1 s1] w1] r] eqn:Hr. intros [= <- <- <- <-].
    eapply sys_keeps_put; [done|by eapply moves_heap_le, receive_moves|by eapply receive_keeps].
  - destruct p as [v|]; [|done]. cbn. destruct (state_of sys c) as [s|] eqn:Hs; [|done]. cbn.
    destruct (send _ _ _ _) as [[[h1 s1] w1] r] eqn:Hr. intros [= <- <- <- <-].
    eapply sys_keeps_put; [done|by eapply moves_heap_le, send_moves|by eapply send_keeps].
  - destruct (cells sys !! c); [|done]. by intros [= <- <- <- <-].
  - destruct nt; [by intros [= <- <- <- <-]|]. destruct (state_of sys c); [|done].
    by intros [= <- <- <- <-].
Qed.

Lemma try_arms_keeps sys nt srcs ps w order sys' w' r ps' :
  try_arms sys nt srcs ps w order = Some (sys', w', r, ps') → sys_keeps sys sys'.
Proof.
  revert sys ps w. induction order as [|i order IH]; intros sys ps w; cbn.
  { by intros [= <- <- <- <-]. }
  destruct (srcs !! i) as [src|]; [|done]. cbn. destruct (ps !! i) as [p|]; [|done]. cbn.
  destruct (try_arm sys nt src p w) as [[[[sys1 w1] o] p1]|] eqn:Ht; [|done]. cbn.
  apply try_arm_keeps in Ht. destruct o; [by intros [= <- <- <- <-]|]. intros ?%IH. by etrans.
Qed.

(** ** On every queue of a wait *)

(** Waiter [arm] of [t] is on its source's queue. *)
Definition on_queue sys (t : TokId) (arm : nat) (src : Source) : Prop :=
  ∃ x, w_token x = t ∧ w_arm x = arm ∧
    match src with
    | SrcRecv c => ∃ s, state_of sys c = Some s ∧ x ∈ recvq s
    | SrcSend c => ∃ s, state_of sys c = Some s ∧ x ∈ sendq s
    | SrcDemand c => ∃ s, state_of sys c = Some s ∧ x ∈ demandq s
    | SrcCell c => ∃ cell, cells sys !! c = Some cell ∧ x ∈ cell_waiters cell
    end.

Lemma on_queue_keeps sys sys' t arm src :
  sys_keeps sys sys' → is_Some (tokens (heap sys) !! t) → claim (heap sys') t = true →
  on_queue sys t arm src → on_queue sys' t arm src.
Proof.
  intros [Hle Hch Hcl] Hd Hc (x & <- & <- & Hx). exists x. split; [done|]. split; [done|].
  destruct src as [c|c|c|c]; [| |destruct Hx as (cell & Hs & Hx);
    destruct (Hcl _ _ Hs) as (cell' & Hs' & Hk); exists cell'; split; [done|by apply Hk]|].
  all: destruct Hx as (s & Hs & Hx); unfold state_of in *; apply fmap_Some in Hs as (ch & Hch' & ->);
    destruct (Hch _ _ Hch') as (ch' & Hs' & []); rewrite Hs'; cbn; eauto.
Qed.

Lemma push_waiter_keeps sys src x sys' :
  push_waiter sys src x = Some sys' →
  sys_keeps sys sys' ∧ heap sys' = heap sys ∧
  ((∃ c, src = SrcCell c) ∨ on_queue sys' (w_token x) (w_arm x) src).
Proof.
  destruct src as [c|c|c|c]; cbn; [| |intros [= <-]; split; [done|]; eauto|].
  all: destruct (state_of sys c) as [s|] eqn:Hs; [|done]; cbn; intros [= <-].
  all: split; [eapply sys_keeps_put; [done|done|]; split; cbn; auto using kept_same, kept_app|].
  all: split; [done|right; exists x; split; [done|]; split; [done|]; eexists;
               rewrite state_of_put_eq by eauto; split; [done|]; cbn; set_solver].
Qed.

Lemma push_waiters_keeps sys t arm srcs ps sys' :
  length srcs = length ps → is_Some (tokens (heap sys) !! t) →
  push_waiters sys t arm srcs ps = Some sys' →
  sys_keeps sys sys' ∧ heap sys' = heap sys ∧
  (claim (heap sys) t = true →
   ∀ i src, srcs !! i = Some src → (∃ c, src = SrcCell c) ∨ on_queue sys' t (arm + i) src).
Proof.
  revert sys arm ps. induction srcs as [|src srcs IH]; intros sys arm [|p ps] Hlen Hd; cbn; try done.
  { by intros [= <-]. }
  destruct (push_waiter sys src _) as [sys1|] eqn:Hp; [|done]. cbn.
  apply push_waiter_keeps in Hp as (Hk1 & Hh1 & Hq1).
  intros (Hk2 & Hh2 & Hq2)%IH; [|by inv Hlen|by rewrite Hh1]. split; [by etrans|].
  split; [congruence|]. rewrite Hh1 in Hq2. intros Hc [|i] src' Hi; cbn in Hi.
  - simplify_eq. rewrite Nat.add_0_r. destruct Hq1 as [?|Hq1]; [by left|right].
    eapply on_queue_keeps; [done|by rewrite Hh1|by rewrite Hh2, Hh1|done].
  - rewrite Nat.add_succ_r. by apply Hq2.
Qed.

Lemma join_cells_keeps sys t arm srcs w sys' w' :
  is_Some (tokens (heap sys) !! t) →
  join_cells sys t arm srcs w = Some (sys', w') →
  sys_keeps sys sys' ∧
  ∀ i c, srcs !! i = Some (SrcCell c) → claim (heap sys') t = true →
    on_queue sys' t (arm + i) (SrcCell c).
Proof.
  revert sys arm w. induction srcs as [|src srcs IH]; intros sys arm w Hd; cbn.
  { by intros [= <- <-]. }
  assert (Hskip : ∀ sys1 w1, is_Some (tokens (heap sys1) !! t) → sys_keeps sys sys1 →
    (∀ c, src = SrcCell c → claim (heap sys1) t = true → on_queue sys1 t arm src) →
    join_cells sys1 t (S arm) srcs w1 = Some (sys', w') →
    sys_keeps sys sys' ∧ ∀ i c, (src :: srcs) !! i = Some (SrcCell c) → claim (heap sys') t = true →
      on_queue sys' t (arm + i) (SrcCell c)).
  { intros sys1 w1 Hd1 Hk1 Hq1 (Hk & Hq)%IH; [|done]. split; [by etrans|].
    intros [|i] c Hi Hc; cbn in Hi.
    - simplify_eq. rewrite Nat.add_0_r. eapply on_queue_keeps; [done..|].
      eapply Hq1; [done|]. by apply (sk_heap _ _ Hk).
    - rewrite Nat.add_succ_r. by apply Hq. }
  destruct src as [c|c|c|c]; [by apply Hskip|by apply Hskip| |by apply Hskip].
  destruct (cells sys !! c) as [cell|] eqn:Hcell; [|done]. cbn.
  destruct (cell_enqueue _ _ _ _) as [[h1 cell1] w1] eqn:He.
  pose proof (moves_heap_le _ _ _ _ (cell_enqueue_moves _ _ _ _ _ _ _ He)) as Hle.
  assert (Hcase : cell1 = cell ∧ claim h1 t = false ∨
    cell_waiters cell1 = cell_waiters cell ++ [mkWaiter t arm None]).
  { destruct (cell_is_done cell) eqn:Hdone.
    - destruct (cell_enqueue_done (heap sys) cell (mkWaiter t arm None) w Hdone) as [H1 H2].
      rewrite He in *. cbn in *. by left.
    - right. unfold cell_enqueue in He. rewrite Hdone in He. by simplify_eq. }
  apply Hskip; [apply (Hle t Hd)| |].
  - apply (sys_keeps_put_cell sys c h1 cell1); [done|]. intros cell0 Hc0. simplify_eq.
    destruct Hcase as [[-> _]| ->]; [apply kept_same|apply kept_app].
  - intros c' [= <-]. cbn. destruct Hcase as [[_ Hf]|Hq]; [congruence|]. intros _.
    exists (mkWaiter t arm None). split; [done|]. split; [done|]. exists cell1.
    split; [apply lookup_insert_eq|]. rewrite Hq. set_solver.
Qed.

End operations.

(** ** In every interleaving *)
Section world.
Context {T V E : Type}.
Implicit Types (W : World T V E) (pk : Parking T V E) (sys : Sys V E).

(** A wait that can still be ended is on all its queues. *)
Definition queued sys (p : ParkedAt) : Prop :=
  is_Some (tokens (heap sys) !! p_token p) ∧
  (claim (heap sys) (p_token p) = true →
   ∀ i src, p_sources p !! i = Some src → on_queue sys (p_token p) i src).

Definition all_queued pk (workers : gmap TaskId (Phase T)) : Prop :=
  (∀ id ph, workers !! id = Some ph → queued (pk_sys pk) (phase_parked ph)) ∧
  (∀ id e, pk_tasks pk !! id = Some e → queued (pk_sys pk) (e_parked e)).

Lemma queued_keeps sys sys' p : sys_keeps sys sys' → queued sys p → queued sys' p.
Proof.
  intros Hk [Hd Hq]. destruct (sk_heap _ _ Hk _ Hd) as [Hd' Hc]. split; [done|].
  intros Hc' i src Hi. eapply on_queue_keeps; [done..|]. by apply Hq; [apply Hc|].
Qed.

Lemma all_queued_keeps pk workers sys' tasks' n sd workers' :
  all_queued pk workers → sys_keeps (pk_sys pk) sys' →
  (∀ id ph, workers' !! id = Some ph → queued sys' (phase_parked ph) ∨
    ∃ ph', workers !! id = Some ph' ∧ phase_parked ph' = phase_parked ph) →
  (∀ id e, tasks' !! id = Some e → queued sys' (e_parked e) ∨
    ∃ e', pk_tasks pk !! id = Some e' ∧ e_parked e' = e_parked e) →
  all_queued (mkParking sys' tasks' n sd) workers'.
Proof.
  intros [Hw He] Hk Hw' He'. split; cbn.
  - intros id ph Hph. destruct (Hw' id ph Hph) as [?|(ph' & Hph' & <-)]; [done|].
    eapply queued_keeps; eauto.
  - intros id e He0. destruct (He' id e He0) as [?|(e' & Hee & <-)]; [done|].
    eapply queued_keeps; eauto.
Qed.

(** A wait that parks is on all its queues when the park returns. *)
Lemma park_queued sys id (x : Wait V) now at_once sys' ws r :
  sys_ok sys → arms_exist sys (arms x) → park sys id x now at_once = Some (sys', ws, r) →
  sys_keeps sys sys' ∧ match r with PkParked p => queued sys' p | _ => True end.
Proof.
  intros Hok Hex. rewrite park_is_park_many by done. unfold park_many.
  destruct (try_arms _ _ _ _ _ _) as [[[[sys1 w1] ready] ps1]|] eqn:Ht; [|done]. cbn.
  pose proof (try_arms_keeps _ _ _ _ _ _ _ _ _ _ Ht) as Hk1.
  apply try_arms_spec in Ht as (_ & _ & Hps & _); [|done].
  destruct ready; [by intros [= <- <- <-]|]. destruct (Hps eq_refl) as [-> _].
  destruct (is_set (heap sys) (cancel x)); [by intros [= <- <- <-]|].
  destruct (match task_deadline x with Some _ => _ | None => _ end); [by intros [= <- <- <-]|].
  destruct (_ && at_once); [by intros [= <- <- <-]|]. unfold enter_queues.
  pose proof (token_new_evolves (heap sys1) id (cancel x)) as Hev%evolves_heap_le.
  pose proof (token_new_lookup (heap sys1) id (cancel x)) as Hlk.
  destruct (token_new (heap sys1) id (cancel x)) as [h1 t]. cbn in Hev, Hlk.
  destruct (push_waiters _ t 0 _ _) as [sys2|] eqn:Hpush; [|done]. cbn.
  apply push_waiters_keeps in Hpush as (Hk2 & Hh2 & Hq2);
    [|by rewrite !length_fmap|cbn; by eauto].
  destruct (join_cells sys2 t 0 _ w1) as [[sys3 w3]|] eqn:Hj; [|done]. cbn.
  assert (Hd2 : is_Some (tokens (heap sys2) !! t)) by (rewrite Hh2; cbn; eauto).
  apply join_cells_keeps in Hj as (Hk3 & Hq3); [|done].
  destruct (times_arm _ _ _) as [tm tid]. intros [= <- <- <-].
  assert (Hk4 : sys_keeps sys3 (mkSys (heap sys3) (chans sys3) (cells sys3) tm)).
  { split; [done|apply chans_keep_same|apply cells_keep_same]. }
  assert (Hd3 : is_Some (tokens (heap sys3) !! t)) by apply (sk_heap _ _ Hk3 _ Hd2).
  split.
  - etrans; [exact Hk1|]. etrans; [by apply (sys_keeps_heap sys1 h1)|]. by repeat (etrans; [done|]).
  - split; [done|]. cbn. intros Hc i src Hi. eapply on_queue_keeps; [exact Hk4|done|done|].
    assert (Hc2 : claim (heap sys2) t = true) by by apply (sk_heap _ _ Hk3).
    rewrite Hh2 in Hc2. destruct (Hq2 Hc2 i src Hi) as [[c ->]|Hq]; [by apply (Hq3 i c)|].
    by eapply on_queue_keeps.
Qed.

(** Letting go of a wait. *)
Lemma claim_abandoned (h : Heap V E) t : claim (abandon h t) t = false.
Proof.
  unfold claim, abandon. destruct (tokens h !! t) as [k|] eqn:Hk; [|by rewrite Hk].
  destruct (state_waiting (tstate k)) eqn:Hs; cbn.
  - rewrite lookup_insert_eq. by case_match.
  - rewrite Hk, Hs. by case_match.
Qed.

Lemma forget_sources_keeps sys t ended arm srcs :
  claim (heap sys) t = false → sys_keeps sys (forget_sources sys t ended arm srcs).
Proof.
  revert sys arm. induction srcs as [|src srcs IH]; intros sys arm Hc; [done|]. cbn.
  case_decide; [by apply IH|].
  assert (Hk : sys_keeps sys (forget_source sys t src) ∧ heap (forget_source sys t src) = heap sys).
  { destruct src as [c|c|c|c]; cbn.
    1, 2, 4: destruct (state_of sys c) as [s|] eqn:Hs; (split; [|done]); [|done];
      eapply sys_keeps_put; [done|done|by apply forget_keeps].
    split; [|done]. split; [done|apply chans_keep_same|]. intros c' cell Hc'. cbn.
    rewrite lookup_alter. case_decide; subst; rewrite Hc'; eexists; (split; [done|]);
      [|apply kept_same]. intros y Hy _ Hcy. apply list_elem_of_filter. split; [|done].
    intros <-. congruence. }
  destruct Hk as [Hk Hh]. etrans; [done|]. apply IH. by rewrite Hh.
Qed.

Lemma drop_parked_keeps sys p : sys_keeps sys (drop_parked sys p).
Proof.
  unfold drop_parked.
  assert (Hk : sys_keeps sys (forget_sources (with_heap sys (abandon (heap sys) (p_token p)))
    (p_token p) (ended_by (heap (with_heap sys (abandon (heap sys) (p_token p)))) (p_token p))
    0 (p_sources p))).
  { etrans; [apply sys_keeps_heap, heap_le_abandon|]. apply forget_sources_keeps.
    apply claim_abandoned. }
  destruct (p_timer p); [|done]. etrans; [exact Hk|].
  split; [done|apply chans_keep_same|apply cells_keep_same].
Qed.

Lemma finish_keeps sys p sys' r : finish sys p = Some (sys', r) → sys_keeps sys sys'.
Proof.
  unfold finish, parked_finish. pose proof (heap_le_take (heap sys) (p_token p)) as Hle.
  destruct (take (heap sys) (p_token p)) as [h1 []]; try done. intros [= <- <-].
  etrans; [by apply (sys_keeps_heap sys h1)|apply drop_parked_keeps].
Qed.

Definition slept W : Prop := all_queued (w_pk W) (w_workers W).

Lemma slept_step W W' : inv W → slept W → wstep W W' → slept W'.
Proof.
  unfold slept. intros Hinv Hq Hstep.
  assert (Hgo : ∀ sys' tasks' n sd workers', sys_keeps (pk_sys (w_pk W)) sys' →
    (∀ id ph, workers' !! id = Some ph →
      ∃ ph', w_workers W !! id = Some ph' ∧ phase_parked ph' = phase_parked ph) →
    (∀ id e, tasks' !! id = Some e → 
      ∃ e', pk_tasks (w_pk W) !! id = Some e' ∧ e_parked e' = e_parked e) →
    all_queued (mkParking sys' tasks' n sd) workers').
  { intros. eapply all_queued_keeps; eauto. }
  inv Hstep; cbn in *.
  - apply Hgo; eauto. by eapply op_step_keeps.
  - apply Hgo; eauto. apply sys_keeps_heap, heap_le_set_flag.
  - apply park_queued in H3 as [Hk Hp]; [|apply Hinv|done].
    eapply all_queued_keeps; [done|done| |by eauto]. intros id' ph Hph.
    destruct r; eauto. rewrite lookup_insert in Hph. case_decide; [|by eauto]. simplify_eq. by left.
  - unfold insert_entry in *. destruct (pk_shut_down (w_pk W)).
    + assert (Heq : w_pk W = pk') by congruence. rewrite <-Heq. destruct (w_pk W).
      assert (ok = false) as -> by congruence. apply Hgo; [done| |by eauto]. intros id' ph.
      rewrite lookup_delete. case_decide; [done|]. eauto.
    + destruct (pk_tasks (w_pk W) !! id) eqn:He; [done|]. simplify_eq.
      eapply all_queued_keeps; [done|done| |].
      * intros id' ph. rewrite lookup_insert. case_decide; [|by eauto]. intros [= <-]. subst.
        right. eexists. split; [done|]. done.
      * intros id' e. rewrite lookup_insert. case_decide; [|by eauto]. intros [= <-]. left. cbn.
        by apply (proj1 Hq _ _ H).
  - unfold park_recheck in *. case_match; simplify_eq; [|by destruct (w_pk W)].
    pose proof (token_cancel_evolves (heap (pk_sys (w_pk W))) (p_token p)) as Hev.
    destruct (token_cancel _ _) as [[h' ws'] b]. simplify_eq/=. apply Hgo; eauto.
    by apply sys_keeps_heap, (evolves_heap_le _ _ _ Hev).
  - assert (Hw : ∀ id' ph, delete id (w_workers W) !! id' = Some ph →
      ∃ ph', w_workers W !! id' = Some ph' ∧ phase_parked ph' = phase_parked ph).
    { intros id' ph. rewrite lookup_delete. case_decide; [done|]. eauto. }
    unfold commit_entry, parked_commit in *.
    pose proof (heap_le_commit (heap (pk_sys (w_pk W))) (p_token p)) as Hle.
    destruct (commit _ _) as [h1 ok]. apply (sys_keeps_heap (pk_sys (w_pk W))) in Hle. cbn in Hle.
    destruct ok, (pk_tasks (w_pk W) !! id) as [e|] eqn:He; cbn in *; simplify_eq; apply Hgo; eauto.
    1: intros id' e'; rewrite lookup_insert; case_decide; [intros [= <-]; subst; by eauto|by eauto].
    all: intros id' e'; rewrite lookup_delete; case_decide; [done|by eauto].
  - unfold parking_cancel in *. destruct (pk_tasks (w_pk W) !! id) as [e|];
      [|by simplify_eq].
    pose proof (token_cancel_evolves (heap (pk_sys (w_pk W))) (p_token (e_parked e))) as Hev.
    destruct (token_cancel _ _) as [[h' ws'] b']. simplify_eq/=. apply Hgo; eauto.
    by apply sys_keeps_heap, (evolves_heap_le _ _ _ Hev).
  - unfold wake_take in *. destruct (pk_tasks (w_pk W) !! id) as [e|]; [|by simplify_eq].
    simplify_eq/=. apply Hgo; [done|by eauto|]. intros id' e'. rewrite lookup_delete. case_decide; [done|]. eauto.
  - unfold take_back in *. destruct (finish _ _) as [[sys2 r']|] eqn:Hf; [|done]. simplify_eq/=.
    apply Hgo; eauto. by eapply finish_keeps.
  - by apply Hgo; eauto.
  - unfold drain_shard in *. simplify_eq. apply Hgo; [done|by eauto|]. intros id e.
    rewrite lookup_not_drained. case_decide; [done|]. eauto.
  - apply Hgo; eauto. apply drop_parked_keeps.
Qed.

Lemma reachable_slept W : reachable W → slept W.
Proof.
  intros Hr. enough (inv W ∧ slept W) by tauto. revert W Hr. apply rtc_ind_r.
  - split; [apply inv_init|]. split; cbn; intros * Hl; by rewrite lookup_empty in Hl.
  - intros W1 W2 _ Hs [Hi Hq]. split; [by eapply inv_step|by eapply slept_step].
Qed.

End world.
