(* ===== verification/Wakeups.v ===== *)
(** * What the parking of tasks promises

    The statements that follow from the invariants of ParkingFacts and
    Sleep, over every interleaving of parks, operations, cancels, wakes,
    due timers and a shutdown. *)

From S2P Require Import Prelude Token Channel ChannelFacts ChannelSpec Cell Timer Wait WaitFacts System Parking ParkingFacts Sleep.

Section wakeups.
Context {T V E : Type}.
Implicit Types (W : World T V E) (pk : Parking T V E).

(** Sorted by name, with no name twice: strictly sorted. *)
Lemma by_id_sorted (l0 : list (TaskId * Entry T)) :
  NoDup l0.*1 → StronglySorted (λ a b, (a.1 < b.1)%N) (merge_sort by_id l0).
Proof.
  intros Hnd0.
  assert (Htr : Transitive (@by_id T)) by (intros x y z; unfold by_id; lia).
  assert (Htot : Total (@by_id T)) by (intros x y; unfold by_id; lia).
  pose proof (StronglySorted_merge_sort by_id l0) as Hs.
  assert (Hnd : NoDup (merge_sort by_id l0).*1) by by rewrite (merge_sort_Permutation by_id l0).
  induction Hs as [|a l Hs IH Hall]; constructor.
  - apply IH. by apply NoDup_cons in Hnd as [_ ?].
  - apply NoDup_cons in Hnd as [Hni _]. apply Forall_forall. intros b Hb.
    rewrite Forall_forall in Hall. specialize (Hall b Hb). unfold by_id in Hall.
    assert (a.1 ≠ b.1) by (intros Heq; apply Hni; rewrite Heq; by apply list_elem_of_fmap_2).
    lia.
Qed.

(** C1. No wake is lost and none comes twice.  In every state that the
    runtime can reach, a task that was given up to the registry either
    waits on with no wake on its way, or its wait is over and exactly one
    wake is on its way to it; and that wake, when it arrives, takes the
    task out of the registry and hands it back with how its wait ended. *)
Theorem no_lost_wakeup W id e :
  reachable W → pk_tasks (w_pk W) !! id = Some e → e_committed e = true →
  (tok_at (w_heap W) (p_token (e_parked e)) id (λ s, s = TParked) ∧ id ∉ w_inflight W) ∨
  (tok_at (w_heap W) (p_token (e_parked e)) id over ∧
   ∃ pre post, w_inflight W = pre ++ id :: post ∧ id ∉ pre ++ post ∧
   ∃ pk' r, wake (w_pk W) id = Some (pk', Some (e_task e, r)) ∧
            parking_is_parked pk' id = false ∧ pk_tasks pk' !! id = None).
Proof.
  intros Hinv%reachable_inv He Hc. unfold inv in Hinv.
  destruct (wi_committed _ _ _ _ Hinv id e He Hc) as (_ & [Hat|[Hat Hi]]); [by left|right].
  split; [done|]. apply list_elem_of_split in Hi as (pre & post & Heq).
  exists pre, post. split; [done|]. rewrite Heq in Hinv.
  pose proof (wi_nodup _ _ _ _ Hinv) as Hnd. rewrite <-Permutation_middle, NoDup_cons in Hnd.
  split; [tauto|]. apply winv_wake in Hinv as (pk' & r & Hw & Ht & Hr). rewrite He in Hr.
  destruct r as [[tk r]|]; [|done]. injection Hr as ->. exists pk', r. split; [done|].
  unfold parking_is_parked. by rewrite Ht, lookup_delete_eq.
Qed.


(** Nothing panics.  In every state the runtime can reach, a wake
    that arrives finds its task's wait over ("a wait that was ended has a
    result"), and so does whoever goes on with a task that was taken out,
    whatever came in between; a worker can put its task in ("a task parks
    once at a time"), and its commit finds the entry open or the result
    there; and the cancel a worker does on its own task before it commits
    wakes nobody. *)
Theorem parking_never_panics W :
  reachable W →
  (∀ id, id ∈ w_inflight W → is_Some (wake (w_pk W) id)) ∧
  (∀ id e, w_hands W !! id = Some (ToFinish, e) → is_Some (take_back (w_pk W) e)) ∧
  (∀ id tk p, w_workers W !! id = Some (Holding tk p) → is_Some (park_insert (w_pk W) id tk p)) ∧
  (∀ id p, w_workers W !! id = Some (Entered p) → is_Some (park_commit (w_pk W) id p)) ∧
  (∀ id p refused, w_workers W !! id = Some (Entered p) →
     (park_recheck (w_pk W) p refused).2 = []).
Proof.
  intros Hinv%reachable_inv. unfold inv in Hinv. split; [|split; [|split; [|split]]].
  - intros id (pre & post & Heq)%list_elem_of_split. rewrite Heq in Hinv.
    apply winv_wake in Hinv as (pk' & r & -> & _). eauto.
  - intros id e Hh. destruct (winv_take_back _ _ _ _ _ _ Hinv Hh) as (pk' & r & -> & _). eauto.
  - intros id tk p Hw. unfold park_insert, insert_entry. destruct (pk_shut_down (w_pk W)); [by eexists|].
    destruct (wi_holding _ _ _ _ Hinv _ _ _ Hw) as [-> _]. by eexists.
  - intros id p Hw. unfold park_commit. destruct (commit_entry (w_pk W) id p) as [pk' [e|]] eqn:Hc; [|eauto].
    pose proof (winv_commit _ _ _ _ _ _ _ _ Hinv Hw Hc) as Hinv'.
    destruct (winv_take_back _ _ _ _ id e Hinv') as (pk2 & r & -> & _); [apply lookup_insert_eq|]. eauto.
  - intros id p refused Hw. pose proof (wi_worker _ _ _ _ Hinv _ _ Hw) as (k & Hk & _ & Hst).
    unfold park_recheck, token_cancel. cbn in Hk. rewrite Hk.
    destruct Hst as [Harm|Hov]; [rewrite Harm; by repeat case_match|].
    destruct (tstate k); try done; by repeat case_match.
Qed.

(** The registry's count is the number of tasks that sleep, its list
    of sleepers has each of them once in the order of their names; and a
    worker whose entry a shutdown took has its wait over, or it will be
    when the shutdown drops what it holds. *)
Theorem registry_counts W :
  reachable W →
  pk_waiting (w_pk W) = length (inspect (w_pk W)) ∧
  StronglySorted (λ a b, (a.1.1.1 < b.1.1.1)%N) (inspect (w_pk W)) ∧
  (∀ id tk srcs d, (id, tk, srcs, d) ∈ inspect (w_pk W) ↔
     ∃ e, pk_tasks (w_pk W) !! id = Some e ∧ parking_is_parked (w_pk W) id = true ∧
       e_task e = tk ∧ p_sources (e_parked e) = srcs ∧ parked_deadline (e_parked e) = d) ∧
  (∀ id p, w_workers W !! id = Some (Entered p) → pk_tasks (w_pk W) !! id = None →
     tok_at (w_heap W) (p_token p) id over ∨
     ∃ e, w_hands W !! id = Some (ToDrop, e) ∧ e_parked e = p).
Proof.
  intros Hinv%reachable_inv. unfold inv in Hinv. split; [|split; [|split]].
  - rewrite (wi_waiting _ _ _ _ Hinv). unfold inspect.
    by rewrite length_fmap, (merge_sort_Permutation by_id _), length_map_to_list.
  - unfold inspect. pose proof (by_id_sorted (map_to_list (committed_in (pk_tasks (w_pk W))))
      (NoDup_fst_map_to_list _)) as Hs.
    induction Hs as [|a l Hs IH Hall]; cbn; constructor; [done|].
    apply Forall_fmap. eapply Forall_impl; [exact Hall|]. done.
  - intros id tk srcs d. unfold inspect. rewrite list_elem_of_fmap. split.
    + intros ([id' e] & [= -> -> -> ->] & He).
      rewrite (merge_sort_Permutation by_id _), elem_of_map_to_list in He.
      apply map_lookup_filter_Some in He as [He Hc]. exists e. unfold parking_is_parked.
      by rewrite He.
    + intros (e & He & Hc & <- & <- & <-). exists (id, e). split; [done|].
      rewrite (merge_sort_Permutation by_id _), elem_of_map_to_list.
      unfold parking_is_parked in Hc. rewrite He in Hc. by apply map_lookup_filter_Some.
  - intros id p Hw Hno. destruct (wi_entry _ _ _ _ Hinv id p Hw) as [[tk He]|(_ & _ & [[[tk Hh] _]|[_ ?]])];
      [congruence| |by left]. right. eauto.
Qed.

(** What is left when some of the maps were emptied, and what was taken. *)
Lemma drain_shards_spec pk shards pk' l :
  NoDup shards → drain_shards pk shards = (pk', l) →
  pk_sys pk' = pk_sys pk ∧ pk_shut_down pk' = pk_shut_down pk ∧ NoDup l.*1 ∧
  (∀ id, pk_tasks pk' !! id = if decide (shard_of id ∈ shards) then None else pk_tasks pk !! id) ∧
  (∀ id e, (id, e) ∈ l ↔ pk_tasks pk !! id = Some e ∧ shard_of id ∈ shards) ∧
  (pk_waiting pk = size (committed_in (pk_tasks pk)) →
   pk_waiting pk' = size (committed_in (pk_tasks pk'))).
Proof.
  revert pk l. induction shards as [|i shards IH]; intros pk l Hnd; cbn [drain_shards].
  { intros [= <- <-]. split_and!; try done. set_solver. }
  apply NoDup_cons in Hnd as [Hi Hnd]. pose proof (drained_waiting pk i) as Hwt.
  destruct (drain_shard pk i) as [pk1 l1] eqn:Hd. unfold drain_shard in Hd. simplify_eq/=.
  set (pk1 := mkParking _ _ _ _) in *.
  destruct (drain_shards pk1 shards) as [pk2 l2] eqn:Hds. intros [= <- <-].
  destruct (IH _ _ Hnd Hds) as (-> & -> & Hnd2 & Ht & Hl & Hw).
  assert (Hm1 : ∀ id e, (id, e) ∈ map_to_list (shard_entries pk i) ↔ pk_tasks pk !! id = Some e ∧ shard_of id = i).
  { intros id e. rewrite elem_of_map_to_list. unfold shard_entries. by rewrite map_lookup_filter_Some. }
  split_and!; try done.
  - rewrite fmap_app. apply NoDup_app. split; [apply NoDup_fst_map_to_list|]. split; [|done].
    intros id ((id' & e) & -> & H1)%list_elem_of_fmap ((id2 & e2) & Heq & H2)%list_elem_of_fmap.
    cbn in Heq. subst id2. apply Hm1 in H1 as [_ <-]. by apply Hl in H2 as [_ ?].
  - intros id. rewrite Ht. cbn. rewrite lookup_not_drained. repeat case_decide; set_solver.
  - intros id e. rewrite elem_of_app, Hm1, Hl, elem_of_cons. cbn. rewrite lookup_not_drained.
    case_decide; naive_solver.
  - intros Heq. by apply Hw, Hwt.
Qed.

(** A shutdown with nobody in between takes every task, each once and in
    the order of their names; nothing is left in the registry, and no
    wait of a task it took goes on. *)
Theorem shutdown_takes_everything pk pk' l :
  pk_waiting pk = size (committed_in (pk_tasks pk)) → shutdown pk = (pk', l) →
  pk_tasks pk' = ∅ ∧ pk_waiting pk' = 0 ∧ pk_shut_down pk' = true ∧
  StronglySorted (λ a b, (a.1 < b.1)%N) l ∧
  (∀ id tk, (id, tk) ∈ l ↔ ∃ e, pk_tasks pk !! id = Some e ∧ e_task e = tk) ∧
  (∀ id e, pk_tasks pk !! id = Some e → is_waiting (heap (pk_sys pk')) (p_token (e_parked e)) = false ∨
     tokens (heap (pk_sys pk)) !! p_token (e_parked e) = None).
Proof.
  intros Hwt. unfold shutdown.
  destruct (drain_shards _ _) as [pk1 l1] eqn:Hd. intros [= <- <-].
  apply drain_shards_spec in Hd as (Hsys & Hsd & Hnd & Ht & Hl & Hw);
    [|apply NoDup_fmap_2; [intros ???; lia|apply NoDup_seq]].
  assert (Hin : ∀ id, shard_of id ∈ N.of_nat <$> seq 0 (N.to_nat SHARDS)).
  { intros id. apply list_elem_of_fmap. exists (N.to_nat (shard_of id)). split; [lia|].
    apply elem_of_seq. assert (shard_of id < SHARDS)%N by (by apply N.mod_lt). lia. }
  assert (He : pk_tasks pk1 = ∅).
  { apply map_eq. intros id. rewrite Ht, lookup_empty. by rewrite decide_True. }
  cbn in *. split; [done|]. split; [rewrite Hw, He by done; done|]. split; [done|]. split; [|split].
  - pose proof (by_id_sorted l1 Hnd) as Hs. induction Hs as [|a l Hs IH Hall]; cbn; constructor; [done|].
    apply Forall_fmap. eapply Forall_impl; [exact Hall|]. done.
  - intros id tk. rewrite list_elem_of_fmap. split.
    + intros ([id' e] & [= -> ->] & Hel). rewrite (merge_sort_Permutation by_id _) in Hel.
      apply Hl in Hel as [? _]. eauto.
    + intros (e & Hee & <-). exists (id, e). split; [done|].
      rewrite (merge_sort_Permutation by_id _). by apply Hl.
  - intros id e Hee. destruct (tokens (heap (pk_sys pk)) !! p_token (e_parked e)) as [k|] eqn:Hk; [left|by right].
    unfold is_waiting. rewrite Hsys, (heap_drop_all _ _ _ k Hk).
    assert (Hmem : p_token (e_parked e) ∈ (λ a : TaskId * Entry T, p_token (e_parked a.2)) <$> l1).
    { apply list_elem_of_fmap. exists (id, e). split; [done|]. by apply Hl. }
    case_decide as Hdec; [done|]. cbn. destruct (state_waiting (tstate k)) eqn:Hs; [tauto|done].
Qed.

End wakeups.

(** ** A world with a sleeper: task 7 waits to receive on channel 0. *)
Module Sleeper.
Definition sys0 : Sys nat nat :=
  put_channel (mkSys (mkHeap ∅ ∅) ∅ ∅ timer_new) 0 (mkHeap ∅ ∅) (mkChannel None None false (fed 1 1)).
Definition parked : Sys nat nat * list TaskId * Park nat nat :=
  default (sys0, [], PkCancelled) (park sys0 7%N (wait_new [ArmRecv 0]) 0 true).
Definition place : ParkedAt := mkParkedAt 0 [SrcRecv 0] None.
Definition pk1 : Parking nat nat nat := mkParking parked.1.1 {[7%N := mkEntry 42 place false]} 0 false.
Definition pk2 : Parking nat nat nat :=
  default pk1 (fst <$> park_commit pk1 7%N place).
(** asleep *)
Definition W1 : World nat nat nat := mkWorld pk2 ∅ [] ∅.
(** a value was sent: its wake is on its way *)
Definition sent := try_send (heap (pk_sys pk2)) (default (fed 0 0) (state_of (pk_sys pk2) 0)) 5.
Definition W2 : World nat nat nat :=
  mkWorld (with_sys pk2 (put_state (pk_sys pk2) 0 sent.1.1.1 sent.1.1.2)) ∅ [7%N] ∅.

Lemma W1_reachable : reachable W1.
Proof.
  unfold reachable. eapply rtc_l.
  { eapply (ws_op _ [] sys0), op_new_channel. reflexivity. }
  eapply rtc_l.
  { eapply (ws_park _ 7%N 42 (wait_new [ArmRecv 0]) 0 true parked.1.1 [] (PkParked place));
      [reflexivity|reflexivity|reflexivity| |].
    - repeat constructor. vm_compute. eauto.
    - vm_compute. reflexivity. }
  eapply rtc_l.
  { eapply (ws_insert _ 7%N 42 place pk1 true); vm_compute; reflexivity. }
  eapply rtc_l.
  { eapply (ws_commit _ 7%N place pk2 None); vm_compute; reflexivity. }
  vm_compute. apply rtc_refl.
Qed.

Lemma W2_reachable : reachable W2.
Proof.
  unfold reachable. eapply rtc_r; [exact W1_reachable|].
  eapply (ws_op W1 [7%N]).
  eapply (op_send _ 0 (default (fed 0 0) (state_of (pk_sys pk2) 0)) 5 _ _ _ SendSent);
    vm_compute; reflexivity.
Qed.

Definition e2 : Entry nat := mkEntry 42 place true.

End Sleeper.

Lemma no_lost_wakeup_witness :
  reachable Sleeper.W2 ∧ pk_tasks (w_pk Sleeper.W2) !! 7%N = Some Sleeper.e2 ∧
  ((tok_at (w_heap Sleeper.W2) 0 7%N (λ s, s = TParked) ∧ 7%N ∉ w_inflight Sleeper.W2) ∨
   (tok_at (w_heap Sleeper.W2) 0 7%N over ∧
    ∃ pre post, w_inflight Sleeper.W2 = pre ++ 7%N :: post ∧ 7%N ∉ pre ++ post ∧
    ∃ pk' r, wake (w_pk Sleeper.W2) 7%N = Some (pk', Some (42, r)) ∧
             parking_is_parked pk' 7%N = false ∧ pk_tasks pk' !! 7%N = None)).
Proof.
  split; [exact Sleeper.W2_reachable|]. split; [vm_compute; reflexivity|].
  apply (no_lost_wakeup Sleeper.W2 7%N Sleeper.e2);
    [exact Sleeper.W2_reachable|vm_compute; reflexivity|reflexivity].
Defined.


Lemma parking_never_panics_witness :
  7%N ∈ w_inflight Sleeper.W2 ∧ is_Some (wake (w_pk Sleeper.W2) 7%N).
Proof.
  split; [apply list_elem_of_singleton; reflexivity|].
  apply (parking_never_panics Sleeper.W2 Sleeper.W2_reachable).
  apply list_elem_of_singleton. reflexivity.
Defined.

Lemma registry_counts_witness :
  inspect (w_pk Sleeper.W1) = [(7%N, 42, [SrcRecv 0], None)] ∧
  pk_waiting (w_pk Sleeper.W1) = length (inspect (w_pk Sleeper.W1)).
Proof.
  split; [vm_compute; reflexivity|]. apply (registry_counts Sleeper.W1 Sleeper.W1_reachable).
Defined.
