(* ===== verification/Asks.v ===== *)
(** * Feeders that wait to be asked

    A stream stage parks on its output channel's [demandq] until a reader
    asks.  The promise of the queue ("one whose wait is open is here only
    while nobody asks") is kept by every operation and by every wait that
    has at most one arm on a channel; a wait that may both receive from
    and send to one channel can take the mark of its own asking back. *)

From S2P Require Import Prelude Token Channel ChannelFacts ChannelSpec Cell Timer Wait WaitFacts System Parking ParkingFacts Sleep.

Section asks.
Context {V E : Type}.
Implicit Types (h : Heap V E) (s : State V E) (w : Wakes) (sys : Sys V E).

Record ask_ok h s : Prop := mkAskOk {
  (** a feeder that can be woken is not asked for anything *)
  ak_feeder d : d ∈ live h (demandq s) → demand s = None;
  (** whoever is on the queue of the receivers has asked *)
  ak_asked : recvq s ≠ [] → asked s = true;
  ak_in : queued_in h (demandq s);
}.

Lemma demand_None s :
  demand s = None ↔
  closed s = None ∧ asked s = false ∧ (if draining s then capacity s else ahead s) <= length (buf s).
Proof.
  unfold demand. destruct (closed s); [naive_solver|]. destruct (asked s); [naive_solver|]. cbn.
  case_bool_decide; [naive_solver lia|]. split; [|done]. intros _. split_and!; try done. lia.
Qed.

(** The queues lose waiters, and nothing is asked that was not. *)
Lemma ask_ok_weaken h h' s s' :
  ask_ok h s → heap_le h h' → demandq s' ⊆ demandq s →
  (demandq s' ≠ [] → demand s = None → demand s' = None) →
  (recvq s' ≠ [] → asked s' = true) → ask_ok h' s'.
Proof.
  intros [Hf Ha Hin] Hle Hsub Hd Hr. split; [|done|].
  - intros d Hd'. apply Hd; [intros Hn; rewrite Hn in Hd'; unfold live in Hd'; set_solver|].
    eapply Hf. by eapply live_subseteq.
  - by eapply queued_in_subseteq.
Qed.

Lemma ask_ok_heap_le h h' s : heap_le h h' → ask_ok h s → ask_ok h' s.
Proof. intros Hle Hok. eapply ask_ok_weaken; eauto using ak_asked. Qed.

Lemma ask_ok_fed h cap ahd : ask_ok h (fed cap ahd).
Proof. split; cbn; try done; [|constructor]. intros d. unfold live. set_solver. Qed.

Lemma send_asks h s v w h' s' w' r :
  ask_ok h s → send h s v w = (h', s', w', r) → ask_ok h' s'.
Proof.
  intros Hok Hs. pose proof (moves_heap_le _ _ _ _ (send_moves _ _ _ _ _ _ _ _ Hs)) as Hle.
  unfold send in Hs. destruct (closed s); [by simplify_eq|].
  destruct (pop_claimable h (recvq s)) as [[x q]|] eqn:Hp.
  - assert (Hne : recvq s ≠ []) by (intros Hn; by rewrite Hn in Hp).
    destruct (fire h _ _ w) as [h1 w1]. simplify_eq. eapply ask_ok_weaken; [done|done|done| |].
    + rewrite !demand_None. rewrite (ak_asked _ _ Hok Hne). naive_solver.
    + cbn. by destruct q.
  - case_decide; simplify_eq; (eapply ask_ok_weaken; [done|done|done| |done]).
    + rewrite !demand_None. cbn. rewrite length_app. naive_solver lia.
    + rewrite !demand_None. cbn. naive_solver.
Qed.

Lemma take_from_sender_asks h s w h' s' w' o :
  ask_ok h s → take_from_sender h s w = (h', s', w', o) → ask_ok h' s'.
Proof.
  intros Hok Ht. pose proof (moves_heap_le _ _ _ _ (take_from_sender_moves _ _ _ _ _ _ _ Ht)) as Hle.
  apply take_from_sender_fields in Ht as (-> & _).
  eapply ask_ok_weaken; [done|done|done|..]; [by rewrite !demand_None|apply (ak_asked _ _ Hok)].
Qed.

Lemma wake_feeders_asks h s w h' s' w' :
  (recvq s ≠ [] → asked s = true) → wake_feeders h s w = (h', s', w') → ask_ok h' s'.
Proof.
  intros Ha Hw. apply wake_feeders_fields in Hw as ->. split; cbn; [|done|constructor].
  intros d. unfold live. set_solver.
Qed.

Lemma receive_asks h s w h' s' w' r :
  ask_ok h s → receive h s w = (h', s', w', r) →
  ask_ok h' s' ∧ (r = RecvEmpty → asked s' = true).
Proof.
  intros Hok. unfold receive. destruct (buf s) as [|v b] eqn:Hb;
    destruct (take_from_sender _ _ _) as [[[h1 s1] w1] o] eqn:Ht;
    pose proof (moves_heap_le _ _ _ _ (take_from_sender_moves _ _ _ _ _ _ _ Ht)) as Hle.
  - pose proof (take_from_sender_asks _ _ _ _ _ _ _ Hok Ht) as Hok1.
    destruct o; [by intros [= <- <- <- <-]|]. destruct (closed s1); [by intros [= <- <- <- <-]|].
    destruct (wake_feeders _ _ _) as [[h2 s2] w2] eqn:Hw. intros [= <- <- <- <-].
    split; [eapply wake_feeders_asks; [|exact Hw]; done|]. apply wake_feeders_fields in Hw. by subst.
  - apply take_from_sender_fields in Ht as (Hs1 & _). destruct o.
    { intros [= <- <- <- <-]. split; [|done]. rewrite Hs1.
      eapply ask_ok_weaken; [done|done|done|..]; [|apply (ak_asked _ _ Hok)].
      rewrite !demand_None. cbn. rewrite Hb, length_app. cbn. naive_solver lia. }
    destruct (demand s1) eqn:Hd.
    { destruct (wake_feeders _ _ _) as [[h2 s2] w2] eqn:Hw. intros [= <- <- <- <-].
      split; [|done]. eapply wake_feeders_asks; [|done]. rewrite Hs1. apply (ak_asked _ _ Hok). }
    intros [= <- <- <- <-]. split; [|done].
    eapply ask_ok_weaken; [done|done|by rewrite Hs1|done|]. rewrite Hs1. apply (ak_asked _ _ Hok).
Qed.

Lemma close_asks h s c w h' s' w' r :
  ask_ok h s → close h s c w = (h', s', w', r) → ask_ok h' s'.
Proof.
  intros Hok. unfold close. destruct (closed s); [by intros; simplify_eq|].
  destruct (fire_all _ _ _ _) as [h1 w1]. intros [= <- <- <- <-].
  split; cbn; [|done|constructor]. intros d. unfold live. set_solver.
Qed.

Lemma drain_asks h (ch : Channel V E) h' ch' ws called :
  ask_ok h (chan_state ch) → drain h ch = (h', ch', ws, called) → ask_ok h' (chan_state ch').
Proof.
  intros Hok. unfold drain. destruct (draining (chan_state ch)).
  { by intros [= <- <- <- <-]. }
  set (s1 := with_draining (chan_state ch) true). destruct (demand s1) eqn:Hd.
  - destruct (wake_feeders h s1 no_wakes) as [[h2 s2] w] eqn:Hw. intros [= <- <- <- <-]. cbn.
    eapply wake_feeders_asks; [|done]. apply (ak_asked _ _ Hok).
  - intros [= <- <- <- <-]. cbn.
    eapply ask_ok_weaken; [done|done|done|done|]. apply (ak_asked _ _ Hok).
Qed.

Lemma forget_asks h s t : ask_ok h s → ask_ok h (forget h s t).
Proof.
  intros Hok. destruct (forget_fields h s t) as (H1 & H2 & H3 & H4 & H5 & H6).
  assert (Hsame : asked (forget h s t) = asked s ∧ draining (forget h s t) = draining s ∧
    ahead (forget h s t) = ahead s) by (unfold forget; by repeat case_decide).
  destruct Hsame as (Ha & Hdr & Hah). eapply ask_ok_weaken; [done|done|done|..].
  - rewrite !demand_None. by rewrite H1, H2, H3, Ha, Hdr, Hah.
  - intros Hne. rewrite Ha. apply (ak_asked _ _ Hok). intros Hn. rewrite Hn in H4.
    destruct (recvq (forget h s t)) as [|x q]; [done|]. specialize (H4 x). set_solver.
Qed.

(** ** The store *)
Definition sys_asks sys : Prop :=
  ∀ c ch, chans sys !! c = Some ch → ask_ok (heap sys) (chan_state ch).

Lemma sys_asks_put sys c h s :
  sys_asks sys → heap_le (heap sys) h → ask_ok h s → sys_asks (put_state sys c h s).
Proof.
  intros Hok Hle Hs c' ch. unfold put_state. cbn. rewrite lookup_alter. case_decide.
  - intros (ch0 & _ & ->)%fmap_Some. done.
  - intros Hc. eapply ask_ok_heap_le; eauto.
Qed.

Lemma sys_asks_put_channel sys c h ch :
  sys_asks sys → heap_le (heap sys) h → ask_ok h (chan_state ch) → sys_asks (put_channel sys c h ch).
Proof.
  intros Hok Hle Hs c' ch'. unfold put_channel. cbn. rewrite lookup_insert. case_decide.
  - by intros [= <-].
  - intros Hc. eapply ask_ok_heap_le; eauto.
Qed.

Lemma sys_asks_state sys c s : sys_asks sys → state_of sys c = Some s → ask_ok (heap sys) s.
Proof. unfold state_of. intros Hok (ch & Hc & ->)%fmap_Some. eauto. Qed.

Lemma sys_asks_heap sys sys' :
  sys_asks sys → heap_le (heap sys) (heap sys') → chans sys' = chans sys → sys_asks sys'.
Proof. intros Hok Hle Heq c ch. rewrite Heq. intros Hc. eapply ask_ok_heap_le; eauto. Qed.

Lemma carry_out_asks h (chs : gmap nat (Channel V E)) w sent a h' chs' w' sent' :
  (∀ c ch, chs !! c = Some ch → ask_ok h (chan_state ch)) →
  carry_out h chs w sent a = (h', chs', w', sent') →
  ∀ c ch, chs' !! c = Some ch → ask_ok h' (chan_state ch).
Proof.
  intros Hch Hc. destruct a as [t|t|c]; cbn in Hc.
  - destruct (claim h t) eqn:Hcl; [|by simplify_eq].
    pose proof (moves_heap_le h w _ _ (fire_moves h t FDeadline w Hcl)) as Hle.
    destruct (fire h t FDeadline w). simplify_eq/=. intros. eapply ask_ok_heap_le; eauto.
  - destruct (claim h t) eqn:Hcl; [|by simplify_eq].
    pose proof (moves_heap_le h w _ _ (expire_moves h t w Hcl)) as Hle.
    destruct (expire h t w). simplify_eq/=. intros. eapply ask_ok_heap_le; eauto.
  - destruct (chs !! c) as [ch|] eqn:Hch0; [|by simplify_eq]. unfold channel_close in Hc.
    destruct (close h _ _ _) as [[[h2 s2] w2] r2] eqn:Hcl. simplify_eq/=.
    pose proof (moves_heap_le _ _ _ _ (close_moves _ _ _ _ _ _ _ _ Hcl)) as Hle.
    apply close_asks in Hcl; [|by eauto]. intros c' ch'. rewrite lookup_insert.
    case_decide; [by intros [= <-]|]. intros. eapply ask_ok_heap_le; eauto.
Qed.

Lemma op_step_asks sys ws sys' : sys_asks sys → op_step sys ws sys' → sys_asks sys'.
Proof.
  intros Hok Hstep. inv Hstep.
  - apply sys_asks_put_channel; [done|done|apply ask_ok_fed].
  - by eapply sys_asks_heap.
  - unfold try_send in *. destruct (send _ _ _ _) as [[[h1 s1] w1] r1] eqn:Hs. simplify_eq.
    apply sys_asks_put; [done|by eapply moves_heap_le, send_moves|].
    eapply send_asks; [by eapply sys_asks_state|done].
  - unfold try_receive in *. destruct (receive _ _ _) as [[[h1 s1] w1] r1] eqn:Hs. simplify_eq.
    apply sys_asks_put; [done|by eapply moves_heap_le, receive_moves|].
    eapply receive_asks; [by eapply sys_asks_state|done].
  - unfold channel_close in *. destruct (close _ _ _ _) as [[[h1 s1] w1] r1] eqn:Hs. simplify_eq.
    apply sys_asks_put; [done|by eapply moves_heap_le, close_moves|].
    eapply close_asks; [by eapply sys_asks_state|done].
  - assert (Hle : heap_le (heap sys) h').
    { unfold drain in *. destruct (draining _); [by simplify_eq|].
      destruct (demand _); [|by simplify_eq].
      destruct (wake_feeders _ _ _) as [[h2 s2] w] eqn:Hw. simplify_eq.
      by eapply moves_heap_le, wake_feeders_moves. }
    apply sys_asks_put_channel; [done|done|]. eapply drain_asks; [|done]. by eapply Hok.
  - unfold abandon_channel, channel_close in *. destruct (on_abandon ch).
    + destruct (close _ _ _ _) as [[[h1 s1] w1] r1] eqn:Hs. simplify_eq.
      apply sys_asks_put_channel; [done|by eapply moves_heap_le, close_moves|].
      eapply close_asks; [|done]. by eapply Hok.
    + simplify_eq. apply sys_asks_put_channel; [done|done|]. by eapply Hok.
  - by eapply sys_asks_heap.
  - eapply sys_asks_heap; [done| |done]. by eapply moves_heap_le, cell_drain_moves.
  - apply sys_asks_put_channel; [done|done|]. cbn. by eapply Hok.
  - apply sys_asks_put_channel; [done|done|]. cbn. by eapply Hok.
  - unfold close_at in *. destruct (timer_arm _ _ _) as [tm1 id1]. simplify_eq.
    intros c' ch'. cbn. rewrite lookup_alter. case_decide; [|by apply Hok].
    intros (ch0 & Hc0 & ->)%fmap_Some. cbn. subst. by eapply Hok.
  - by eapply sys_asks_heap.
  - intros c' ch'. cbn. eapply carry_out_asks; [|done]. apply Hok.
  - by eapply sys_asks_heap.
  - match goal with H : token_cancel _ _ = _ |- _ =>
      pose proof (token_cancel_evolves (heap sys) t) as He; rewrite H in He end. cbn in He.
    eapply sys_asks_heap; [done| |done]. by eapply evolves_heap_le.
Qed.

End asks.

(** ** Waits with one arm on a channel *)
Section plain_waits.
Context {V E : Type}.
Implicit Types (h : Heap V E) (s : State V E) (w : Wakes) (sys : Sys V E).

(** No channel has two arms. *)
Definition one_arm_each (srcs : list Source) : Prop := NoDup (omap source_channel srcs).

(** What the look at an arm left behind. *)
Definition settled sys (src : Source) : Prop :=
  match src with
  | SrcRecv c => ∃ s, state_of sys c = Some s ∧ asked s = true
  | SrcDemand c => ∃ s, state_of sys c = Some s ∧ demand s = None
  | SrcSend _ | SrcCell _ => True
  end.

Lemma settled_same sys sys' src :
  (∀ c, source_channel src = Some c → state_of sys' c = state_of sys c) →
  settled sys src → settled sys' src.
Proof. intros Heq. destruct src; cbn in *; try done; by rewrite Heq. Qed.

Lemma one_arm_each_ne srcs i j src src' c :
  one_arm_each srcs → srcs !! i = Some src → srcs !! j = Some src' → i ≠ j →
  source_channel src = Some c → source_channel src' ≠ Some c.
Proof.
  unfold one_arm_each. revert i j. induction srcs as [|a srcs IH]; intros i j Hnd Hi Hj Hne Hc; [done|].
  assert (Htl : NoDup (omap source_channel srcs)).
  { cbn in Hnd. destruct (source_channel a); [by apply NoDup_cons in Hnd as [_ ?]|done]. }
  assert (Hin : ∀ k b, srcs !! k = Some b → source_channel b = source_channel a →
    source_channel b ≠ None → False).
  { intros k b Hk Heq Hb. cbn in Hnd. rewrite <-Heq in Hnd. destruct (source_channel b) as [cb|] eqn:Hcb; [|done].
    apply NoDup_cons in Hnd as [Hni _]. apply Hni, list_elem_of_omap. exists b.
    split; [by eapply list_elem_of_lookup_2|done]. }
  destruct i as [|i], j as [|j]; cbn in Hi, Hj; simplify_eq.
  - intros Hc'. eapply (Hin j src'); [done|congruence|congruence].
  - intros Hc'. eapply (Hin i src); [done|congruence|congruence].
  - eapply IH; eauto.
Qed.

Lemma try_arm_asks sys nt src p w sys' w' o p' :
  sys_asks sys → try_arm sys nt src p w = Some (sys', w', o, p') →
  sys_asks sys' ∧ (nt = false → o = None → settled sys' src) ∧
  (∀ c, source_channel src ≠ Some c → state_of sys' c = state_of sys c).
Proof.
  intros Hok. destruct src as [c|c|c|c]; cbn.
  - destruct nt; [by intros [= <- <- <- <-]|].
    destruct (state_of sys c) as [s|] eqn:Hs; [|done]. cbn.
    destruct (receive _ _ _) as [[[h1 s1] w1] r] eqn:Hr. intros [= <- <- <- <-].
    pose proof (moves_heap_le _ _ _ _ (receive_moves _ _ _ _ _ _ _ Hr)) as Hle.
    apply receive_asks in Hr as [Hok1 Ha]; [|by eapply sys_asks_state].
    split; [by apply sys_asks_put|]. split.
    + intros _. destruct r; try done. intros _. exists s1. rewrite state_of_put_eq by eauto. auto.
    + intros c' Hne. apply state_of_put_ne. congruence.
  - destruct p as [v|]; [|done]. cbn. destruct (state_of sys c) as [s|] eqn:Hs; [|done]. cbn.
    destruct (send _ _ _ _) as [[[h1 s1] w1] r] eqn:Hr. intros [= <- <- <- <-].
    pose proof (moves_heap_le _ _ _ _ (send_moves _ _ _ _ _ _ _ _ Hr)) as Hle.
    apply send_asks in Hr; [|by eapply sys_asks_state].
    split; [by apply sys_asks_put|]. split; [done|].
    intros c' Hne. apply state_of_put_ne. congruence.
  - destruct (cells sys !! c); [|done]. by intros [= <- <- <- <-].
  - destruct nt; [by intros [= <- <- <- <-]|].
    destruct (state_of sys c) as [s|] eqn:Hs; [|done]. cbn. intros [= <- <- <- <-].
    split; [done|]. split; [|done]. intros _ Hd. eauto.
Qed.

Lemma try_arms_asks sys nt srcs ps w order sys' w' r ps' :
  one_arm_each srcs → sys_asks sys →
  try_arms sys nt srcs ps w order = Some (sys', w', r, ps') →
  sys_asks sys' ∧
  (nt = false → r = None → ∀ i src, srcs !! i = Some src →
     i ∈ order ∨ settled sys src → settled sys' src).
Proof.
  intros Hone. revert sys ps w. induction order as [|j order IH]; intros sys ps w Hok; cbn.
  { intros [= <- <- <- <-]. split; [done|]. intros _ _ i src _ [?|?]; [set_solver|done]. }
  destruct (srcs !! j) as [srcj|] eqn:Hj; [|done]. cbn. destruct (ps !! j) as [p|]; [|done]. cbn.
  destruct (try_arm sys nt srcj p w) as [[[[sys1 w1] o] p1]|] eqn:Ht; [|done]. cbn.
  apply try_arm_asks in Ht as (Hok1 & Hset & Hoth); [|done].
  destruct o; [by intros [= <- <- <- <-]|]. intros (Hok2 & Hset2)%IH; [|done]. split; [done|].
  intros Hnt Hr i src Hi Hor. apply (Hset2 Hnt Hr i src Hi).
  destruct (decide (i = j)) as [->|Hne]; [simplify_eq; right; by apply Hset|].
  destruct Hor as [Hin|Hs]; [left; set_solver|right]. eapply settled_same; [|done].
  intros c Hc. apply Hoth. eapply (one_arm_each_ne srcs i j); eauto.
Qed.

Lemma push_waiter_asks sys src x sys' :
  sys_asks sys → is_Some (tokens (heap sys) !! w_token x) → settled sys src →
  push_waiter sys src x = Some sys' →
  sys_asks sys' ∧ heap sys' = heap sys ∧
  (∀ c, source_channel src ≠ Some c → state_of sys' c = state_of sys c).
Proof.
  intros Hok Hd Hset. destruct src as [c|c|c|c]; cbn in *; [| |by intros [= <-]|].
  - destruct Hset as (s & Hs & Ha). rewrite Hs. cbn. intros [= <-].
    destruct (sys_asks_state _ _ _ Hok Hs) as [Hf _ Hin].
    split; [apply sys_asks_put; [done|done|by split]|]. split; [done|].
    intros c' Hne. apply state_of_put_ne. congruence.
  - destruct (state_of sys c) as [s|] eqn:Hs; [|done]. cbn. intros [= <-].
    destruct (sys_asks_state _ _ _ Hok Hs) as [Hf Ha Hin].
    split; [apply sys_asks_put; [done|done|by split]|]. split; [done|].
    intros c' Hne. apply state_of_put_ne. congruence.
  - destruct Hset as (s & Hs & Hdn). rewrite Hs. cbn. intros [= <-].
    destruct (sys_asks_state _ _ _ Hok Hs) as [Hf Ha Hin].
    split; [apply sys_asks_put; [done|done|]; split; cbn; [done|done|]|].
    { apply Forall_app. split; [done|]. by constructor. }
    split; [done|]. intros c' Hne. apply state_of_put_ne. congruence.
Qed.

Lemma push_waiters_asks sys t arm srcs ps sys' :
  one_arm_each srcs → sys_asks sys → is_Some (tokens (heap sys) !! t) →
  Forall (settled sys) srcs → push_waiters sys t arm srcs ps = Some sys' → sys_asks sys' ∧ heap sys' = heap sys.
Proof.
  revert sys arm ps. induction srcs as [|src srcs IH]; intros sys arm [|p ps] Hone Hok Hd Hset;
    cbn; try by intros [= <-].
  apply Forall_cons in Hset as [Hs Hset].
  destruct (push_waiter sys src _) as [sys1|] eqn:Hp; [|done]. cbn.
  apply push_waiter_asks in Hp as (Hok1 & Hh1 & Hoth); [|done..].
  intros [H1 H2]%IH; [split; [done|congruence]|..]; [|done|by rewrite Hh1|].
  - unfold one_arm_each in *. cbn in Hone.
    destruct (source_channel src); [by apply NoDup_cons in Hone as [_ ?]|done].
  - apply Forall_lookup. intros i src' Hi. eapply settled_same; [|by eapply Forall_lookup in Hset].
    intros c Hc. apply Hoth. by eapply (one_arm_each_ne (src :: srcs) (S i) 0).
Qed.

Lemma join_cells_chans sys t arm srcs w sys' w' :
  join_cells sys t arm srcs w = Some (sys', w') →
  chans sys' = chans sys ∧ heap_le (heap sys) (heap sys').
Proof.
  revert sys arm w. induction srcs as [|src srcs IH]; intros sys arm w; cbn.
  { by intros [= <- <-]. }
  destruct src as [c|c|c|c]; [by apply IH|by apply IH| |by apply IH].
  destruct (cells sys !! c) as [cell|]; [|done]. cbn.
  destruct (cell_enqueue _ _ _ _) as [[h1 cell1] w1] eqn:He.
  apply cell_enqueue_moves, moves_heap_le in He. intros [H1 H2]%IH. cbn in *.
  split; [done|]. by etrans.
Qed.

Lemma park_many_asks sys tsk (l : list (Arm V)) start ts c sys' ws r :
  one_arm_each (split_arm <$> l).*1 → sys_asks sys →
  park_many sys tsk l start ts c = Some (sys', ws, r) → sys_asks sys'.
Proof.
  intros Hone Hok. unfold park_many.
  destruct (try_arms _ _ _ _ _ _) as [[[[sys1 w1] ready] ps1]|] eqn:Ht; [|done]. cbn.
  apply try_arms_asks in Ht as (Hok1 & Hset); [|done|done].
  destruct ready; [by intros [= <- <- <-]|]. unfold takes_nothing_new in *.
  destruct (is_set (heap sys) c); [by intros [= <- <- <-]|].
  destruct (tm_task_expired ts); [by intros [= <- <- <-]|].
  destruct (tm_expired ts); [by intros [= <- <- <-]|]. unfold enter_queues.
  pose proof (token_new_evolves (heap sys1) tsk c) as Hev%evolves_heap_le.
  pose proof (token_new_lookup (heap sys1) tsk c) as Hlk.
  destruct (token_new (heap sys1) tsk c) as [h1 t]. cbn in *.
  destruct (push_waiters _ t 0 _ _) as [sys2|] eqn:Hpush; [|done]. cbn.
  apply push_waiters_asks in Hpush as [Hok2 Hh2]; [|done|by eapply sys_asks_heap|cbn; by eauto|].
  - destruct (join_cells sys2 t 0 _ w1) as [[sys3 w3]|] eqn:Hj; [|done]. cbn.
    apply join_cells_chans in Hj as [Hch Hle]. destruct (times_arm _ _ _) as [tm' id].
    intros [= <- <- <-]. by eapply sys_asks_heap.
  - apply Forall_lookup. intros i src Hi. apply (settled_same sys1); [done|].
    eapply Hset; [done..|]. left. apply elem_of_arm_order. by eapply lookup_lt_Some.
Qed.

(** From [sys] to [sys'], with the tasks [ws] woken: a feeder that waits to be
    asked and can be told stays queued and can be told, or its wait ended,
    and if it was asleep its task was woken. *)
Definition feeders_told sys (ws : list TaskId) sys' : Prop :=
  ∀ c s d, state_of sys c = Some s → d ∈ demandq s → claim (heap sys) (w_token d) = true →
    (claim (heap sys') (w_token d) = true ∧ ∃ s', state_of sys' c = Some s' ∧ d ∈ demandq s') ∨
    (is_waiting (heap sys') (w_token d) = false ∧
     (is_parked (heap sys) (w_token d) → task_of (heap sys) (w_token d) ∈ ws)).

Lemma keeps_told sys ws sys' :
  sys_asks sys → sys_keeps sys sys' → evolves (heap sys) ws (heap sys') → feeders_told sys ws sys'.
Proof.
  intros Hok Hk Hev c s d Hs Hd Hc. destruct (claim (heap sys') (w_token d)) eqn:Hc'.
  - left. split; [done|]. unfold state_of in *. apply fmap_Some in Hs as (ch & Hch & ->).
    destruct (sk_chans _ _ Hk c ch Hch) as (ch' & Hch' & Hst). exists (chan_state ch').
    rewrite Hch'. split; [done|]. by apply (kp_demand _ _ _ _ Hst); [|eapply claim_dom|].
  - right. apply claim_true in Hc as (k & Hk0 & Hset & Hw). destruct (ev_tok _ _ _ Hev _ k Hk0) as (k' & Hk' & Hst).
    assert (Hw' : is_waiting (heap sys') (w_token d) = false).
    { unfold claim in Hc'. unfold is_waiting. rewrite Hk' in *. destruct (tok_step_fields _ _ Hst) as [_ Hf].
      rewrite Hf, (is_set_flags (heap sys)), Hset in Hc' by apply (ev_flags _ _ _ Hev). done. }
    split; [done|]. intros Hp. destruct (ev_wakes _ _ _ Hev) as (ts & _ & -> & Hin).
    apply list_elem_of_fmap_2, Hin. by split.
Qed.

(** C32. A feeder sleeps only while nobody asks, and is told when somebody
    does.  On every channel a feeder whose wait can still be ended is parked
    only while its channel is open, no reader has asked for a value that was
    not sent, and the buffer holds all it may hold unasked.  Every operation
    keeps that, and so does every park whose wait has at most one arm on a
    channel; and none of them takes such a feeder off its queue but by
    ending its wait, and then its task, if asleep, is woken. *)
Theorem feeder_sleeps_unasked sys :
  sys_ok sys → sys_asks sys →
  (∀ ws sys', op_step sys ws sys' → sys_asks sys' ∧ feeders_told sys ws sys') ∧
  (∀ tsk (x : Wait V) now at_once sys' ws r,
     arms_exist sys (arms x) → one_arm_each (split_arm <$> arms x).*1 →
     park sys tsk x now at_once = Some (sys', ws, r) → sys_asks sys' ∧ feeders_told sys ws sys') ∧
  (∀ c s d, state_of sys c = Some s → d ∈ demandq s → claim (heap sys) (w_token d) = true →
     closed s = None ∧ asked s = false ∧ is_asked s = false ∧
     (if draining s then capacity s else ahead s) <= length (buf s)).
Proof.
  intros Hsys Hok. split; [|split].
  - intros ws sys' Hstep. split; [by eapply op_step_asks|].
    apply keeps_told; [done|by eapply op_step_keeps|by eapply op_step_sound].
  - intros tsk x now at_once sys' ws r Hex Hone Hp.
    pose proof (park_queued _ _ _ _ _ _ _ _ Hsys Hex Hp) as [Hk _].
    rewrite park_is_park_many in Hp by done. split; [by eapply park_many_asks|].
    apply keeps_told; [done..|]. by eapply park_many_sound.
  - intros c s d Hs Hd Hc. pose proof (ak_feeder _ _ (sys_asks_state _ _ _ Hok Hs) d) as Hn.
    rewrite elem_of_live in Hn. specialize (Hn (conj Hc Hd)). unfold is_asked. rewrite Hn.
    apply demand_None in Hn. tauto.
Qed.

End plain_waits.

(** A send that is refused takes the mark of an asking reader back:
    the channel that found no room for the value, on which a receive had
    found nothing and asked, is no longer asked for one although no value
    was sent. *)
Theorem refused_send_unasks {V E} (h : Heap V E) s v h' s' ws v' :
  try_send h s v = (h', s', ws, SendFull v') →
  h' = h ∧ ws = [] ∧ v' = v ∧ buf s' = buf s ∧ asked s' = false.
Proof.
  unfold try_send, send. destruct (closed s); [done|].
  destruct (pop_claimable h (recvq s)) as [[x q]|]; [by destruct (fire h _ _ _)|].
  case_decide; [done|]. by intros [= <- <- <- <-].
Qed.

(** A channel with no room: the receive asks, the send is refused. *)
Lemma refused_send_unasks_witness :
  let h := mkHeap ∅ ∅ : Heap nat nat in
  let s1 := (try_receive h (fed 0 0)).1.1.2 in
  asked s1 = true ∧ is_asked s1 = true ∧
  let s2 := (try_send h s1 5).1.1.2 in
  h = h ∧ [] = @nil TaskId ∧ 5 = 5 ∧ buf s2 = buf s1 ∧ asked s2 = false.
Proof.
  cbn zeta. split; [reflexivity|]. split; [reflexivity|].
  apply (refused_send_unasks (mkHeap ∅ ∅ : Heap nat nat)
    ((try_receive (mkHeap ∅ ∅ : Heap nat nat) (fed 0 0)).1.1.2) 5). vm_compute. reflexivity.
Defined.

(** ** Two arms on one channel *)
Module Both.
Definition sys0 : Sys nat nat :=
  mkSys (mkHeap ∅ ∅) {[0 := mkChannel None None false (fed 0 0)]} ∅ timer_new.
(** task 1 waits to receive from channel 0 or to send 5 to it *)
Definition chooser := default (sys0, [], PkCancelled) (park sys0 1%N (wait_new [ArmRecv 0; ArmSend 0 5]) 0 true).
(** task 2 waits to be asked for a value of channel 0 *)
Definition feeder :=
  default (sys0, [], PkCancelled) (park chooser.1.1 2%N (wait_new [ArmDemand 0]) 0 true).
Definition state : State nat nat := default (fed 0 0) (state_of feeder.1.1 0).
End Both.

(** A wait with a receive and a send on one channel of no capacity
    forgets that it asked: the look at the send arm takes back the mark
    the look at the receive arm set, so that a feeder that comes after
    goes to sleep on a channel where a reader is parked. *)
Theorem both_arms_forget_the_asking :
  (∃ p1 p2, Both.chooser.2 = PkParked p1 ∧ Both.feeder.2 = PkParked p2) ∧
  (∃ r, r ∈ recvq Both.state ∧ claim (heap Both.feeder.1.1) (w_token r) = true) ∧
  (∃ d, d ∈ demandq Both.state ∧ claim (heap Both.feeder.1.1) (w_token d) = true) ∧
  is_asked Both.state = false.
Proof.
  split; [eexists _, _; split; vm_compute; reflexivity|].
  split; [exists (mkWaiter 0 0 None); split; [|vm_compute; reflexivity]; vm_compute; left|].
  split; [exists (mkWaiter 1 0 None); split; [|vm_compute; reflexivity]; vm_compute; left|].
  vm_compute. reflexivity.
Qed.

(** ** A feeder asleep on a channel of no capacity, and a receive that asks *)
Module Asleep.
Definition parked : Sys nat nat * list TaskId * Park nat nat :=
  default (Both.sys0, [], PkCancelled) (park Both.sys0 2%N (wait_new [ArmDemand 0]) 0 true).
(** given up by its worker *)
Definition sys1 : Sys nat nat := with_heap parked.1.1 (commit (heap parked.1.1) 0).1.
Definition asked_by := try_receive (heap sys1) (default (fed 0 0) (state_of sys1 0)).

Lemma both_ok : sys_ok Both.sys0.
Proof.
  split.
  - intros c s. unfold state_of. intros (ch & Hc & ->)%fmap_Some. cbn in Hc. apply lookup_singleton_Some in Hc as [_ <-]. apply ch_ok_fed.
  - intros c cell Hc. cbn in Hc. by rewrite lookup_empty in Hc.
  - split; repeat constructor.
Qed.
Lemma sys0_asks : sys_asks Both.sys0.
Proof. intros c ch Hc. cbn in Hc. apply lookup_singleton_Some in Hc as [_ <-]. apply ask_ok_fed. Qed.
Lemma feeder_exists : arms_exist Both.sys0 (arms (wait_new (V := nat) [ArmDemand 0])).
Proof. repeat constructor. vm_compute. eauto. Qed.
Lemma parks : park_many Both.sys0 2%N [ArmDemand 0] 0 (wait_times (wait_new (V := nat) [ArmDemand 0]) 0 true) None = Some parked.
Proof. vm_compute. reflexivity. Qed.
Lemma sys1_ok : sys_ok sys1 ∧ sys_asks sys1.
Proof.
  pose proof parks as Hp. unfold sys1. destruct parked as [[sys' ws] r]. cbn [fst].
  pose proof (heap_le_commit (heap sys') 0) as Hle.
  split; [apply sys_ok_with_heap|eapply sys_asks_heap]; try done.
  - by apply park_many_sound in Hp as [? _]; [|apply both_ok].
  - apply park_many_asks in Hp; [done| |apply sys0_asks]. cbn. apply NoDup_singleton.
Qed.
End Asleep.

Lemma feeder_sleeps_unasked_witness :
  sys_ok Asleep.sys1 ∧ sys_asks Asleep.sys1 ∧ is_parked (heap Asleep.sys1) 0 ∧
  let sys' := put_state Asleep.sys1 0 Asleep.asked_by.1.1.1 Asleep.asked_by.1.1.2 in
  Asleep.asked_by.2 = RecvEmpty ∧ Asleep.asked_by.1.2 = [2%N] ∧
  sys_asks sys' ∧ feeders_told Asleep.sys1 [2%N] sys'.
Proof.
  destruct Asleep.sys1_ok as [Hok Ha]. split; [exact Hok|]. split; [exact Ha|].
  split; [eexists; split; vm_compute; reflexivity|]. split; [vm_compute; reflexivity|].
  split; [vm_compute; reflexivity|]. apply (feeder_sleeps_unasked Asleep.sys1 Hok Ha).
  apply (op_receive _ 0 (default (fed 0 0) (state_of Asleep.sys1 0)) _ _ [2%N] RecvEmpty); vm_compute; reflexivity.
Defined.
