(* ===== verification/Int64.v ===== *)
(** * Machine integers

    An [Int] of silt is an [i64]; a length or an index is a [usize] of 64
    bits.  Both are [Z] here, and every operation of the source that
    wraps, checks or converts is written out. *)

From S2P Require Import Prelude.

Open Scope Z_scope.

Definition i64_min : Z := -9223372036854775808.
Definition i64_max : Z := 9223372036854775807.
Definition usize_max : Z := 18446744073709551615.
Definition i128_min : Z := -170141183460469231731687303715884105728.
Definition i128_max : Z := 170141183460469231731687303715884105727.

Definition in_i64 (n : Z) : bool := (i64_min <=? n) && (n <=? i64_max).
Definition in_i128 (n : Z) : bool := (i128_min <=? n) && (n <=? i128_max).
Definition in_usize (n : Z) : bool := (0 <=? n) && (n <=? usize_max).

(** [i64::checked_add] and its kin: the exact result, if it is an [i64]. *)
Definition checked (n : Z) : option Z := if in_i64 n then Some n else None.
Definition checked_add (a b : Z) : option Z := checked (a + b).
Definition checked_sub (a b : Z) : option Z := checked (a - b).
Definition checked_mul (a b : Z) : option Z := checked (a * b).
Definition checked_mul_i128 (a b : Z) : option Z := if in_i128 (a * b) then Some (a * b) else None.

(** [i64::wrapping_add], and [n as i64] of a [usize]: modulo 2^64. *)
Definition wrap_i64 (n : Z) : Z := (n - i64_min) mod (usize_max + 1) + i64_min.
Definition wrapping_add (a b : Z) : Z := wrap_i64 (a + b).
Definition as_i64 (n : Z) : Z := wrap_i64 n.

(** [i64::abs_diff]: a [u64]. *)
Definition abs_diff (a b : Z) : Z := Z.abs (a - b).

(** [i64::checked_div], and the operators [/] and [%], which truncate and
    panic ([None]) on a divisor of 0 and where the quotient is no [i64]. *)
Definition checked_div (a b : Z) : option Z :=
  if b =? 0 then None else checked (Z.quot a b).
Definition rem_i64 (a b : Z) : option Z :=
  if (b =? 0) || ((a =? i64_min) && (b =? -1)) then None else Some (Z.rem a b).

(** [a + b] and [a - b] where an overflow is a panic. *)
Definition add_i64 (a b : Z) : option Z := checked (a + b).
Definition sub_i64 (a b : Z) : option Z := checked (a - b).

Lemma in_i64_spec n : in_i64 n = true ↔ i64_min <= n <= i64_max.
Proof. unfold in_i64. rewrite andb_true_iff, !Z.leb_le. done. Qed.

Lemma in_i64_false n : in_i64 n = false ↔ n < i64_min ∨ i64_max < n.
Proof. unfold in_i64. rewrite andb_false_iff, !Z.leb_gt. done. Qed.

Lemma in_usize_spec n : in_usize n = true ↔ 0 <= n <= usize_max.
Proof. unfold in_usize. rewrite andb_true_iff, !Z.leb_le. done. Qed.

Lemma checked_in n : i64_min <= n <= i64_max → checked n = Some n.
Proof. intros Hn. unfold checked. by rewrite (proj2 (in_i64_spec n) Hn). Qed.

Lemma checked_out n : n < i64_min ∨ i64_max < n → checked n = None.
Proof. intros Hn. unfold checked. by rewrite (proj2 (in_i64_false n) Hn). Qed.

Lemma checked_Some n m : checked n = Some m ↔ m = n ∧ i64_min <= n <= i64_max.
Proof.
  unfold checked. destruct (in_i64 n) eqn:Hn.
  - apply in_i64_spec in Hn. naive_solver.
  - apply in_i64_false in Hn. split; [done|]. lia.
Qed.

Lemma wrap_i64_id n : i64_min <= n <= i64_max → wrap_i64 n = n.
Proof.
  intros Hn. unfold wrap_i64, i64_min, i64_max, usize_max in *. rewrite Z.mod_small by lia. lia.
Qed.

(** Wrapping a sum may be done at the end. *)
Lemma wrap_add_generic a b m M :
  M ≠ 0 → (a + ((b - m) mod M + m) - m) mod M + m = (a + b - m) mod M + m.
Proof.
  intros HM. replace (a + ((b - m) mod M + m) - m) with (a + (b - m) mod M) by lia.
  rewrite Z.add_mod_idemp_r by done. by replace (a + (b - m)) with (a + b - m) by lia.
Qed.

Lemma wrap_i64_add a b : wrap_i64 (a + wrap_i64 b) = wrap_i64 (a + b).
Proof. unfold wrap_i64. apply wrap_add_generic. done. Qed.

(** * The arithmetic of Ints (src/vm/arithmetic.rs)

    The five arithmetic instructions on two Ints.  A panic of the
    machine operations is [None] of the whole; an error the program sees
    is an [ArithErr]. *)

(** The arithmetic instructions of [Op]. *)
Inductive ArithOp := Add | Sub | Mul | Div | Mod.

Inductive ArithErr :=
  | DivisionByZero
  | ModuloByZero
  | IntOverflow (op : ArithOp) (a b : Z).

(** [symbol]. *)
Definition symbol (op : ArithOp) : string :=
  match op with Add => "+" | Sub => "-" | Mul => "*" | Div => "/" | Mod => "%" end.

(** [floored_div]: the outer [option] is a panic, the inner the result. *)
Definition floored_div (a b : Z) : option (option Z) :=
  match checked_div a b with
  | None => Some None
  | Some q =>
      r ← rem_i64 a b;
      if negb (r =? 0) && negb (Bool.eqb (a <? 0) (b <? 0))
      then q' ← sub_i64 q 1; Some (Some q')
      else Some (Some q)
  end.

(** [floored_mod]. *)
Definition floored_mod (a b : Z) : option Z :=
  if b =? -1 then Some 0
  else
    r ← rem_i64 a b;
    if negb (r =? 0) && negb (Bool.eqb (r <? 0) (b <? 0)) then add_i64 r b else Some r.

(** [int_arithmetic]. *)
Definition int_arithmetic (op : ArithOp) (a b : Z) : option (Z + ArithErr) :=
  let finish (result : option Z) : option (Z + ArithErr) :=
    Some (match result with Some v => inl v | None => inr (IntOverflow op a b) end) in
  match op with
  | Add => finish (checked_add a b)
  | Sub => finish (checked_sub a b)
  | Mul => finish (checked_mul a b)
  | Div => if b =? 0 then Some (inr DivisionByZero) else q ← floored_div a b; finish q
  | Mod => if b =? 0 then Some (inr ModuloByZero) else r ← floored_mod a b; finish (Some r)
  end.

(** ** What they are to compute *)

(** The exact result: [Z.div] rounds down and [Z.modulo] has the sign of
    the divisor. *)
Definition exact (op : ArithOp) (a b : Z) : Z :=
  match op with
  | Add => a + b | Sub => a - b | Mul => a * b | Div => a / b | Mod => a mod b
  end.

Definition arith_spec (op : ArithOp) (a b : Z) : Z + ArithErr :=
  match op with
  | Div => if b =? 0 then inr DivisionByZero
           else if in_i64 (a / b) then inl (a / b) else inr (IntOverflow op a b)
  | Mod => if b =? 0 then inr ModuloByZero else inl (a mod b)
  | _ => if in_i64 (exact op a b) then inl (exact op a b) else inr (IntOverflow op a b)
  end.

(** The remainder that truncates, in terms of the one that rounds down. *)
Lemma rem_floor a b :
  b ≠ 0 →
  Z.rem a b = (if bool_decide (a mod b ≠ 0) && negb (Bool.eqb (a <? 0) (b <? 0))
               then a mod b - b else a mod b) ∧
  Z.quot a b = (if bool_decide (a mod b ≠ 0) && negb (Bool.eqb (a <? 0) (b <? 0))
                then a / b + 1 else a / b).
Proof.
  intros Hb. pose proof (Z.div_mod a b Hb) as Hdm. pose proof (Z.quot_rem' a b) as Hqr.
  pose proof (Z.mod_bound_or a b Hb) as Hm.
  assert (Hr : Z.abs (Z.rem a b) < Z.abs b) by (apply Z.rem_bound_abs; done).
  assert (Hs : 0 <= Z.rem a b * a) by (apply Z.rem_sign_mul; done).
  assert (Hsa : (0 <= a → 0 <= Z.rem a b) ∧ (a <= 0 → Z.rem a b <= 0)).
  { split; [apply Z.rem_nonneg; done|apply Z.rem_nonpos; done]. }
  generalize dependent (Z.rem a b). generalize dependent (Z.quot a b).
  generalize dependent (a mod b). generalize dependent (a / b). intros d m Hdm Hm q r Hqr Hr _ [Hp Hn].
  assert (Heq : b * (q - d) = m - r) by lia.
  assert (Hcase : q - d = 0 ∨ q - d = 1 ∨ q - d = -1) by nia.
  assert (Hbb : b * (q - d) = 0 ∨ b * (q - d) = b ∨ b * (q - d) = - b) by (destruct Hcase as [-> | [-> | ->]]; lia).
  case_bool_decide as Hz; destruct (Z.ltb_spec a 0), (Z.ltb_spec b 0); cbn;
    destruct Hcase as [Hc|[Hc|Hc]]; rewrite Hc in Heq; try lia.
Qed.

(** The truncated quotient of two Ints is an Int, but for the smallest
    over -1; one less is too where it was rounded up. *)
Lemma quot_in a b :
  i64_min <= a <= i64_max → b ≠ 0 → ¬ (a = i64_min ∧ b = -1) →
  i64_min <= Z.quot a b <= i64_max ∧ (Z.rem a b ≠ 0 → i64_min <= Z.quot a b - 1).
Proof.
  intros Ha Hb Hno. pose proof (Z.quot_rem' a b) as Hqr.
  assert (Hr : Z.abs (Z.rem a b) < Z.abs b) by (apply Z.rem_bound_abs; done).
  assert (Hsa : (0 <= a → 0 <= Z.rem a b) ∧ (a <= 0 → Z.rem a b <= 0)).
  { split; [apply Z.rem_nonneg; done|apply Z.rem_nonpos; done]. }
  generalize dependent (Z.rem a b). generalize dependent (Z.quot a b). intros q r Hqr Hr [Hp Hn].
  unfold i64_min, i64_max in *.
  destruct (decide (b = -1)) as [->|]; [lia|]. destruct (decide (b = 1)) as [->|]; [lia|].
  assert (2 * Z.abs q <= Z.abs a) by nia. lia.
Qed.

(** When a truncated quotient is to be corrected. *)
Lemma correct_quot a b :
  b ≠ 0 →
  negb (Z.rem a b =? 0) && negb (Bool.eqb (a <? 0) (b <? 0)) =
  bool_decide (a mod b ≠ 0) && negb (Bool.eqb (a <? 0) (b <? 0)).
Proof.
  intros Hb. destruct (rem_floor a b Hb) as [Hr _]. pose proof (Z.mod_bound_or a b Hb) as Hm.
  destruct (negb (Bool.eqb _ _)); [|by rewrite !andb_false_r]. rewrite !andb_true_r in *. rewrite Hr.
  case_bool_decide as Hz; destruct (Z.eqb_spec (a mod b - b) 0), (Z.eqb_spec (a mod b) 0); try done; lia.
Qed.

Lemma floored_div_spec a b :
  in_i64 a = true → in_i64 b = true → b ≠ 0 →
  floored_div a b = Some (checked (a / b)).
Proof.
  rewrite !in_i64_spec. intros Ha Hb Hz. unfold floored_div, checked_div, rem_i64, sub_i64.
  rewrite (proj2 (Z.eqb_neq b 0) Hz). cbn [orb].
  destruct (decide (a = i64_min ∧ b = -1)) as [[-> ->]|Hno]; [reflexivity|].
  destruct (quot_in a b Ha Hz Hno) as [Hq Hq1]. rewrite checked_in by done.
  assert (Hp : (a =? i64_min) && (b =? -1) = false).
  { destruct (Z.eqb_spec a i64_min), (Z.eqb_spec b (-1)); try done. by destruct Hno. }
  rewrite Hp. cbn [mbind option_bind]. rewrite correct_quot by done.
  destruct (rem_floor a b Hz) as [Hr Hqd]. pose proof (Z.mod_bound_or a b Hz) as Hm.
  destruct (bool_decide _ && _) eqn:Hc.
  - apply andb_true_iff in Hc as [Hmz%bool_decide_eq_true _]. rewrite Hqd in *.
    replace (a / b + 1 - 1) with (a / b) in * by lia.
    rewrite checked_in; [done|]. split; [|lia]. apply Hq1. lia.
  - rewrite Hqd in *. by rewrite checked_in.
Qed.

Lemma floored_mod_spec a b :
  in_i64 a = true → in_i64 b = true → b ≠ 0 → floored_mod a b = Some (a mod b).
Proof.
  rewrite !in_i64_spec. intros Ha Hb Hz. unfold floored_mod, rem_i64, add_i64.
  destruct (Z.eqb_spec b (-1)) as [->|Hn1].
  { f_equal. symmetry. apply Z.mod_divide; [done|]. exists (- a). lia. }
  rewrite (proj2 (Z.eqb_neq b 0) Hz), andb_false_r. cbn [orb mbind option_bind].
  destruct (rem_floor a b Hz) as [Hr _]. pose proof (Z.mod_bound_or a b Hz) as Hm.
  assert (Hsa : (0 <= a → 0 <= Z.rem a b) ∧ (a <= 0 → Z.rem a b <= 0)).
  { split; [apply Z.rem_nonneg; done|apply Z.rem_nonpos; done]. }
  generalize dependent (Z.rem a b). intros r Hr [Hp Hn]. unfold i64_min, i64_max in *.
  destruct (Z.eqb_spec r 0), (Z.ltb_spec a 0), (Z.ltb_spec b 0), (Z.ltb_spec r 0);
    cbn in *; case_bool_decide; cbn in Hr; try (f_equal; lia);
    (rewrite checked_in; [f_equal; lia|unfold i64_min, i64_max; lia]).
Qed.

(** C39. The arithmetic of two Ints is exact or an error: no machine
    operation inside it panics; a sum, difference, product or quotient is
    the exact one whenever that is an Int, and an overflow error that
    names the operands otherwise; [/] rounds down, [%] has the sign of
    its divisor (so that [a = a / b * b + a % b]), and both refuse a
    divisor of 0. *)
Theorem int_arithmetic_correct op a b :
  in_i64 a = true → in_i64 b = true →
  int_arithmetic op a b = Some (arith_spec op a b) ∧
  (∀ q r, int_arithmetic Div a b = Some (inl q) → int_arithmetic Mod a b = Some (inl r) →
     a = q * b + r ∧ (r = 0 ∨ 0 < r < b ∨ b < r < 0)).
Proof.
  intros Ha Hb.
  assert (Hall : ∀ op, int_arithmetic op a b = Some (arith_spec op a b)).
  { intros []; unfold int_arithmetic, arith_spec, checked_add, checked_sub, checked_mul, checked;
      cbn -[floored_div floored_mod].
    - by destruct (in_i64 (a + b)).
    - by destruct (in_i64 (a - b)).
    - by destruct (in_i64 (a * b)).
    - destruct (Z.eqb_spec b 0) as [|Hz]; [done|]. rewrite floored_div_spec by done.
      cbn -[checked]. unfold checked. by destruct (in_i64 (a / b)).
    - destruct (Z.eqb_spec b 0) as [|Hz]; [done|]. by rewrite floored_mod_spec. }
  split; [done|]. intros q r. rewrite !Hall. unfold arith_spec.
  destruct (Z.eqb_spec b 0) as [|Hz]; [done|]. destruct (in_i64 (a / b)); [|done].
  intros [= <-] [= <-]. pose proof (Z.div_mod a b Hz). pose proof (Z.mod_bound_or a b Hz). lia.
Qed.

Lemma int_arithmetic_correct_witness :
  int_arithmetic Div i64_min 3 = Some (inl (-3074457345618258603)) ∧
  int_arithmetic Mod i64_min 3 = Some (inl 1) ∧
  int_arithmetic Div i64_min (-1) = Some (inr (IntOverflow Div i64_min (-1))) ∧
  i64_min = -3074457345618258603 * 3 + 1 ∧ (1 = 0 ∨ 0 < 1 < 3 ∨ 3 < 1 < 0).
Proof.
  split; [reflexivity|]. split; [reflexivity|].
  split; [apply (int_arithmetic_correct Div i64_min (-1)); reflexivity|].
  apply (int_arithmetic_correct Div i64_min 3); reflexivity.
Defined.
