(* ===== verification/ListValue.v ===== *)
(** * The list value (src/value/list.rs)

    A list is a run of shared storage (a buffer, or a long list side by
    side or in a tree) or the two ends of a range.  The tree is the RRB
    vector of the crate [imbl]: a parameter, with what the list relies on
    stated as the laws of [VectorLaws]. *)

From S2P Require Import Prelude Int64.

Open Scope Z_scope.

(** ** The vector of [imbl] *)
Class Vector (A T : Type) := {
  (** [iter().collect()] both ways *)
  vec_of : list A → T;
  vec_items : T → list A;
  vec_len : T → nat;
  (** [vec[i]]: [None] is its panic *)
  vec_index : T → nat → option A;
  (** [leaves()]: the elements as the slices of its leaves *)
  vec_leaves : T → list (list A);
  (** [focus().chunk_at(i)]: the leaf of element [i], where it begins and
      ends *)
  vec_chunk_at : T → nat → nat * nat * list A;
  vec_push_front : A → T → T;
  vec_push_back : T → A → T;
  vec_set : T → nat → A → T;
  vec_remove : T → nat → T;
  vec_skip : T → nat → T;
  vec_truncate : T → nat → T;
  vec_append : T → T → T;
}.

(** The documented behaviour of those operations. *)
Class VectorLaws (A T : Type) `{Vector A T} : Prop := {
  law_of l : vec_items (vec_of l) = l;
  law_len t : vec_len t = length (vec_items t);
  law_index t i : vec_index t i = vec_items t !! i;
  law_leaves t : concat (vec_leaves t) = vec_items t;
  law_chunk t i : (i < vec_len t)%nat →
    let '(from, to, leaf) := vec_chunk_at t i in
    (from <= i)%nat ∧ (i < to)%nat ∧ (to <= vec_len t)%nat ∧
    leaf = take (to - from) (drop from (vec_items t));
  law_push_front x t : vec_items (vec_push_front x t) = x :: vec_items t;
  law_push_back t x : vec_items (vec_push_back t x) = vec_items t ++ [x];
  law_set t i x : (i < vec_len t)%nat → vec_items (vec_set t i x) = <[i := x]> (vec_items t);
  law_remove t i : (i < vec_len t)%nat →
    vec_items (vec_remove t i) = take i (vec_items t) ++ drop (S i) (vec_items t);
  law_skip t n : (n <= vec_len t)%nat → vec_items (vec_skip t n) = drop n (vec_items t);
  law_truncate t n : vec_items (vec_truncate t n) = take n (vec_items t);
  law_append t u : vec_items (vec_append t u) = vec_items t ++ vec_items u;
}.

(** ** Constants *)
Definition MAX_COLLECTION_LEN : Z := 10000000.
Definition FLAT_MOST : nat := 64.
Definition PUSHED_MOST : Z := 1024.
Definition MAX_LEN : Z := usize_max.

(** A value: an Int, or any other. *)
Inductive Value (X : Type) :=
  | Int (n : Z)
  | Else (x : X).
Arguments Int {X} _.
Arguments Else {X} _.

(** [TooLong]: why a list could not be made or written out. *)
Record TooLong := mkTooLong { tl_lo : Z; tl_hi : Z; tl_most : Z }.

Inductive Res (A : Type) :=
  | Ok (a : A)
  | Err (e : TooLong).
Arguments Ok {A} _.
Arguments Err {A} _.

Definition res_bind {A B} (r : Res A) (f : A → Res B) : Res B :=
  match r with Ok a => f a | Err e => Err e end.
Notation "x ⇐ r ; k" := (res_bind r (λ x, k))
  (at level 20, r at level 100, k at level 200, right associativity).

(** [IntTotal]. *)
Inductive IntTotal := Total (n : Z) | Overflow | NotInts.

(** The [len] elements of [l] from [start]. *)
Definition sub {A} (start len : nat) (l : list A) : list A := take len (drop start l).

(** [nth]. *)
Definition nth_int (lo index : Z) : Z := wrapping_add lo (as_i64 index).

Section list_value.
Context {X T : Type} `{Vector (Value X) T}.
Notation V := (Value X).

(** [LongItems]: side by side, with the tree once a change has made it,
    or in a tree. *)
Inductive LongItems :=
  | Side (items : list V) (tree : option T)
  | Tree (tree : T).

(** [Stored], [Other] and [Form]. *)
Inductive List :=
  | Items (buf : list V) (start len : nat)
  | Long (long : LongItems) (start len : nat)
  | Ints (lo hi : Z).

Definition long_len (long : LongItems) : nat :=
  match long with Side items _ => length items | Tree tree => vec_len tree end.

(** [List::flat], [List::of_tree], [From<Vec<Value>>] (and with it
    [FromIterator]: where the number of elements is known and small they
    go into the buffer directly). *)
Definition flat (items : list V) : List := Items items 0 (length items).
Definition of_tree (tree : T) : List := Long (Tree tree) 0 (vec_len tree).
Definition from_vec (items : list V) : List :=
  if decide (length items <= FLAT_MOST)%nat then flat items
  else Long (Side items None) 0 (length items).

(** [List::new]. *)
Definition list_new : List := from_vec [].

(** [List::ints]. *)
Definition ints (lo hi : Z) : Res List :=
  if hi <? lo then Ok list_new
  else
    if in_usize (abs_diff hi lo) && in_usize (abs_diff hi lo + 1)
    then Ok (Ints lo hi) else Err (mkTooLong lo hi MAX_LEN).

(** [List::len], [is_empty]. *)
Definition list_len (l : List) : Z :=
  match l with
  | Items _ _ len | Long _ _ len => Z.of_nat len
  | Ints lo hi => abs_diff hi lo + 1
  end.
Definition is_empty (l : List) : bool := list_len l =? 0.

(** [List::get], [first], [last]. *)
Definition get (l : List) (index : Z) : option V :=
  match l with
  | Items buf start len => sub start len buf !! Z.to_nat index
  | Long long start len =>
      if index <? Z.of_nat len
      then match long with
           | Side items _ => items !! (start + Z.to_nat index)%nat
           | Tree tree => vec_index tree (start + Z.to_nat index)
           end
      else None
  | Ints lo _ => if index <? list_len l then Some (Int (nth_int lo index)) else None
  end.
Definition first (l : List) : option V := get l 0.
Definition last_item (l : List) : option V :=
  if 1 <=? list_len l then get l (list_len l - 1) else None.

(** *** Iterators *)

(** [IterOf]: what is left of a slice or of a focus is a list; [IntsLeft]
    counts. *)
Inductive Iter :=
  | ItItems (items : list V)
  | ItTree (items : list V)
  | ItInts (next more : Z).

Definition iter_part (l : List) (from to : Z) : Iter :=
  let part items := sub (Z.to_nat from) (Z.to_nat (to - from)) items in
  match l with
  | Items buf start len => ItItems (part (sub start len buf))
  | Long (Side items _) start len => ItItems (part (sub start len items))
  | Long (Tree tree) start _ =>
      ItTree (sub (start + Z.to_nat from) (Z.to_nat (to - from)) (vec_items tree))
  | Ints lo _ => ItInts (nth_int lo from) (to - from)
  end.
Definition iter (l : List) : Iter := iter_part l 0 (list_len l).

(** [Iter::next], [Iter::next_back], [Iter::size_hint]. *)
Definition iter_next (it : Iter) : option (V * Iter) :=
  match it with
  | ItItems [] | ItTree [] => None
  | ItItems (x :: items) => Some (x, ItItems items)
  | ItTree (x :: items) => Some (x, ItTree items)
  | ItInts next more =>
      if 1 <=? more then Some (Int next, ItInts (wrapping_add next 1) (more - 1)) else None
  end.

Definition iter_next_back (it : Iter) : option (V * Iter) :=
  match it with
  | ItItems items =>
      match rev items with [] => None | x :: items' => Some (x, ItItems (rev items')) end
  | ItTree items =>
      match rev items with [] => None | x :: items' => Some (x, ItTree (rev items')) end
  | ItInts next more =>
      if 1 <=? more
      then Some (Int (nth_int next (more - 1)), ItInts next (more - 1)) else None
  end.

Definition size_hint (it : Iter) : Z :=
  match it with
  | ItItems items | ItTree items => Z.of_nat (length items)
  | ItInts _ more => more
  end.

(** [collect]: [next] until there is none; [size_hint] is how often. *)
Fixpoint collect_fuel (fuel : nat) (it : Iter) : list V :=
  match fuel with
  | 0%nat => []
  | S fuel =>
      match iter_next it with Some (x, it') => x :: collect_fuel fuel it' | None => [] end
  end.
Definition collect (it : Iter) : list V := collect_fuel (Z.to_nat (size_hint it)) it.

(** *** Runs *)

(** [Leaves]. *)
Record Leaves := mkLeaves {
  lv_leaves : list (list V);
  lv_passed : nat;
  lv_skip : nat;
  lv_left : nat;
}.

(** [Leaves::next]: a loop over the leaves. *)
Fixpoint leaves_next_from (leaves : list (list V)) (passed skip more : nat) :
    option (nat * list V * Leaves) :=
  match more, leaves with
  | 0%nat, _ => None
  | _, [] => None
  | _, leaf :: rest =>
      let passed' := (passed + length leaf)%nat in
      if decide (length leaf <= skip)%nat
      then leaves_next_from rest passed' (skip - length leaf) more
      else
        let run := sub skip (length leaf `min` (skip + more) - skip)%nat leaf in
        Some ((passed + skip)%nat, run, mkLeaves rest passed' 0 (more - length run))
  end.
Definition leaves_next (lv : Leaves) : option (nat * list V * Leaves) :=
  leaves_next_from (lv_leaves lv) (lv_passed lv) (lv_skip lv) (lv_left lv).

(** [Runs], [List::runs], [Runs::next], [Runs::is_done]. *)
Record Runs := mkRuns { rn_left : list V; rn_leaves : option Leaves }.

Definition runs (l : List) : Runs :=
  match l with
  | Items buf start len => mkRuns (sub start len buf) None
  | Long (Side items _) start len => mkRuns (sub start len items) None
  | Long (Tree tree) start len => mkRuns [] (Some (mkLeaves (vec_leaves tree) 0 start len))
  | Ints _ _ => mkRuns [] None
  end.

Definition runs_next (r : Runs) : option (list V * Runs) :=
  match rn_left r with
  | [] =>
      lv ← rn_leaves r;
      '(_, run, lv') ← leaves_next lv;
      Some (run, mkRuns [] (Some lv'))
  | more => Some (more, mkRuns [] (rn_leaves r))
  end.

Definition is_done (r : Runs) : bool :=
  match rn_left r, rn_leaves r with
  | [], None => true
  | [], Some lv => bool_decide (lv_left lv = 0%nat)
  | _ :: _, _ => false
  end.

(** [runs.flatten()]: a run of what is at hand and one of each leaf at
    most. *)
Fixpoint flatten_fuel (fuel : nat) (r : Runs) : list V :=
  match fuel with
  | 0%nat => []
  | S fuel => match runs_next r with Some (run, r') => run ++ flatten_fuel fuel r' | None => [] end
  end.
Definition flatten (r : Runs) : list V :=
  flatten_fuel (S (match rn_leaves r with Some lv => length (lv_leaves lv) | None => 0%nat end)) r.

(** [List::range_ends]. *)
Definition range_ends (l : List) : option (Z * Z) :=
  match l with Ints lo hi => Some (lo, hi) | _ => None end.

(** [List::elements]. *)
Inductive Elements := Held (r : Runs) | EInts (lo hi : Z).
Definition elements (l : List) : Elements :=
  match l with Ints lo hi => EInts lo hi | _ => Held (runs l) end.

(** *** Changes *)

(** [List::writable]. *)
Definition writable (l : List) : Res unit :=
  match l with
  | Ints lo hi =>
      if MAX_COLLECTION_LEN <=? abs_diff hi lo
      then Err (mkTooLong lo hi MAX_COLLECTION_LEN) else Ok tt
  | _ => Ok tt
  end.

(** [List::write_into]: what is pushed. *)
Definition write_into (l : List) : list V :=
  match l with
  | Ints lo hi => Int <$> seqZ lo (hi - lo + 1)
  | _ => flatten (runs l)
  end.

(** [List::to_vec]. *)
Definition to_vec (l : List) : Res (list V) := _ ⇐ writable l; Ok (write_into l).

(** [List::written_out], [in_long], [flat_for]. *)
Definition written_out (l : List) : bool := match l with Ints _ _ => true | _ => false end.
Definition in_long (l : List) : bool := match l with Long _ _ _ => true | _ => false end.
Definition flat_for (l : List) (len : Z) : bool :=
  match l with
  | Long (Tree _) _ _ => len <=? Z.of_nat FLAT_MOST / 2
  | _ => len <=? Z.of_nat FLAT_MOST
  end.

(** [part_of]. *)
Definition part_of (tree : T) (start len : nat) : T :=
  vec_truncate (match start with 0%nat => tree | _ => vec_skip tree start end) len.

(** [List::to_tree]: the tree that is kept, or made now. *)
Definition to_tree (l : List) : T :=
  match l with
  | Long (Tree tree) start len => part_of tree start len
  | Long (Side items tree) start len => part_of (default (vec_of items) tree) start len
  | _ => vec_of (collect (iter l))
  end.

(** [List::slice]. *)
Definition slice (l : List) (from to : Z) : List :=
  let to := Z.min to (list_len l) in
  let from := Z.min from to in
  if from =? to then list_new
  else
    let len := to - from in
    match l with
    | Items buf start _ =>
        if decide (Z.to_nat len < length buf / 4)%nat
        then flat (sub (start + Z.to_nat from) (Z.to_nat len) buf)
        else Items buf (start + Z.to_nat from) (Z.to_nat len)
    | Long long start _ =>
        if decide (Z.to_nat len < long_len long / 4)%nat
        then
          if flat_for l len then flat (collect (iter_part l from to))
          else
            match long with
            | Side items _ => from_vec (sub (start + Z.to_nat from) (Z.to_nat len) items)
            | Tree tree => of_tree (part_of tree (start + Z.to_nat from) (Z.to_nat len))
            end
        else Long long (start + Z.to_nat from) (Z.to_nat len)
    | Ints lo _ => Ints (nth_int lo from) (nth_int lo (to - 1))
    end.

(** [List::concat]. *)
Definition list_concat (l other : List) : Res List :=
  _ ⇐ writable l;
  _ ⇐ writable other;
  if is_empty other then Ok l
  else if is_empty l then Ok other
  else
    let len := list_len l + list_len other in
    let written (range rest : List) := written_out range && negb (in_long rest) in
    if (flat_for l len && flat_for other len) || written l other || written other l
    then Ok (from_vec (write_into l ++ write_into other))
    else
      let tree :=
        if (list_len l <=? PUSHED_MOST) && (list_len l <=? list_len other)
        then foldr vec_push_front (to_tree other) (collect (iter l))
        else if list_len other <=? PUSHED_MOST
        then foldl vec_push_back (to_tree l) (collect (iter other))
        else vec_append (to_tree l) (to_tree other) in
      Ok (of_tree tree).

(** [List::push_front], [List::push_back]. *)
Definition push_front (l : List) (v : V) : Res List :=
  _ ⇐ writable l;
  if flat_for l (list_len l + 1) || written_out l
  then Ok (from_vec (v :: write_into l))
  else Ok (of_tree (vec_push_front v (to_tree l))).

Definition push_back (l : List) (v : V) : Res List :=
  _ ⇐ writable l;
  if flat_for l (list_len l + 1) || written_out l
  then Ok (from_vec (write_into l ++ [v]))
  else Ok (of_tree (vec_push_back (to_tree l) v)).

(** [List::set], [List::remove_at]. *)
Definition list_set (l : List) (index : Z) (v : V) : Res (option List) :=
  if list_len l <=? index then Ok None
  else
    _ ⇐ writable l;
    if flat_for l (list_len l) || written_out l
    then items ⇐ to_vec l; Ok (Some (from_vec (<[Z.to_nat index := v]> items)))
    else Ok (Some (of_tree (vec_set (to_tree l) (Z.to_nat index) v))).

Definition remove_at (l : List) (index : Z) : Res (option List) :=
  if list_len l <=? index then Ok None
  else
    _ ⇐ writable l;
    if flat_for l (list_len l - 1) || written_out l
    then items ⇐ to_vec l;
         Ok (Some (from_vec (take (Z.to_nat index) items ++ drop (S (Z.to_nat index)) items)))
    else Ok (Some (of_tree (vec_remove (to_tree l) (Z.to_nat index)))).

End list_value.
Arguments LongItems : clear implicits.
Arguments List : clear implicits.
Arguments Iter : clear implicits.
Arguments Leaves : clear implicits.
Arguments Runs : clear implicits.
Arguments Elements : clear implicits.
#[global] Arguments sub : simpl never.
#[global] Arguments nth_int : simpl never.
