(* ===== verification/ListFacts.v ===== *)
(** * A list is its elements

    Whatever storage a list has, its reads and its changes are those of
    the plain list of its elements ([elems]), every change keeps the
    storage invariant ([list_ok]), and a list never holds more than about
    four times its elements in memory. *)

From S2P Require Import Prelude Int64 ListValue.

Open Scope Z_scope.
#[local] Arguments Nat.div : simpl never.
#[local] Arguments Z.div : simpl never.

(** ** Parts of lists *)
Section sub.
Context {A : Type}.
Implicit Types (l : list A).

Lemma length_sub s n l : (s + n <= length l)%nat → length (sub s n l) = n.
Proof. intros Hle. unfold sub. rewrite length_take, length_drop. lia. Qed.

Lemma sub_all l : sub 0 (length l) l = l.
Proof. unfold sub. by rewrite drop_0, firstn_all. Qed.

Lemma sub_sub s n s' n' l :
  (s' + n' <= n)%nat → sub s' n' (sub s n l) = sub (s + s') n' l.
Proof.
  intros Hle. unfold sub. rewrite skipn_firstn_comm, take_take, drop_drop. f_equal. lia.
Qed.

Lemma sub_prefix n l : sub 0 n l = take n l.
Proof. unfold sub. by rewrite drop_0. Qed.

Lemma lookup_sub s n l i :
  sub s n l !! i = if decide (i < n)%nat then l !! (s + i)%nat else None.
Proof.
  unfold sub. case_decide.
  - rewrite lookup_take_lt by done. apply lookup_drop.
  - apply lookup_take_ge. lia.
Qed.

Lemma sub_nil s l : sub s 0 l = [].
Proof. done. Qed.

End sub.

Section facts.
Context {X T : Type} `{VL : VectorLaws (Value X) T}.
Notation V := (Value X).
Notation List := (List X T).
Implicit Types (l : List).

(** ** The abstraction and the invariant *)
Definition elems l : list V :=
  match l with
  | Items buf start len => sub start len buf
  | Long (Side items _) start len => sub start len items
  | Long (Tree tree) start len => sub start len (vec_items tree)
  | Ints lo hi => Int <$> seqZ lo (hi - lo + 1)
  end.

(** The number of elements of the storage a list keeps alive. *)
Definition storage l : nat :=
  match l with
  | Items buf _ _ => length buf
  | Long long _ _ => long_len long
  | Ints _ _ => 0
  end.

(** A list is inside its storage, which is at most four times its length
    (and three); a buffer is short, a long list is long; the tree kept
    beside a list side by side has the same elements; a range is not
    empty and a [usize] counts it. *)
Definition list_ok l : Prop :=
  match l with
  | Items buf start len =>
      (start + len <= length buf)%nat ∧ (length buf <= FLAT_MOST)%nat ∧ (length buf / 4 <= len)%nat
  | Long long start len =>
      (start + len <= long_len long)%nat ∧ (long_len long / 4 <= len)%nat ∧
      match long with
      | Side items tree =>
          (FLAT_MOST < length items)%nat ∧ match tree with Some t => vec_items t = items | None => True end
      | Tree tree => (FLAT_MOST / 2 < vec_len tree)%nat
      end
  | Ints lo hi => i64_min <= lo ∧ lo <= hi ∧ hi <= i64_max ∧ hi - lo + 1 <= usize_max
  end.

Lemma abs_diff_le lo hi : lo <= hi → abs_diff hi lo = hi - lo.
Proof. unfold abs_diff. lia. Qed.

Lemma list_len_elems l : list_ok l → list_len l = Z.of_nat (length (elems l)).
Proof.
  destruct l as [buf s n|[items tr|t] s n|lo hi]; cbn.
  - intros (Hb & _). by rewrite length_sub.
  - intros (Hb & _). by rewrite length_sub.
  - intros (Hb & _). rewrite law_len in Hb. by rewrite length_sub.
  - intros (_ & Hle & _). rewrite length_fmap, length_seqZ, abs_diff_le by done. lia.
Qed.

Lemma list_len_nonneg l : list_ok l → 0 <= list_len l.
Proof. intros Hok. rewrite list_len_elems by done. lia. Qed.

(** The Int at [index] of a range, though [index] may be no [i64]. *)
Lemma nth_int_spec lo index :
  i64_min <= lo → lo + index <= i64_max → 0 <= index → nth_int lo index = lo + index.
Proof.
  intros H1 H2 H3. unfold nth_int, wrapping_add, as_i64. rewrite wrap_i64_add, wrap_i64_id; lia.
Qed.

Lemma lookup_ints lo hi i :
  (Int <$> seqZ lo (hi - lo + 1) : list V) !! i =
  if decide (Z.of_nat i < hi - lo + 1) then Some (Int (lo + Z.of_nat i)) else None.
Proof.
  rewrite list_lookup_fmap. case_decide.
  - by rewrite lookup_seqZ_lt by done.
  - by rewrite lookup_seqZ_ge by lia.
Qed.

Lemma get_elems l index :
  list_ok l → 0 <= index → get l index = elems l !! Z.to_nat index.
Proof.
  intros Hok Hi. destruct l as [buf s n|[items tr|t] s n|lo hi]; cbn in *; [done|..].
  - rewrite lookup_sub. destruct (Z.ltb_spec index (Z.of_nat n)); case_decide; (done || lia).
  - rewrite lookup_sub, law_index. destruct (Z.ltb_spec index (Z.of_nat n)); case_decide; (done || lia).
  - destruct Hok as (H1 & H2 & H3 & H4). rewrite lookup_ints, abs_diff_le by done.
    rewrite Z2Nat.id by done. destruct (Z.ltb_spec index (hi - lo + 1)); case_decide; try lia; [|done].
    rewrite nth_int_spec by lia. done.
Qed.

(** ** Iterators *)

(** What an iterator has left. *)
Definition iter_items (it : Iter X) : list V :=
  match it with
  | ItItems items | ItTree items => items
  | ItInts next more => Int <$> seqZ next more
  end.

Definition iter_ok (it : Iter X) : Prop :=
  match it with
  | ItInts next more =>
      0 <= more ∧ (0 < more → i64_min <= next ∧ next + more - 1 <= i64_max)
  | _ => True
  end.

Lemma seqZ_snoc m k : 0 < k → seqZ m k = seqZ m (k - 1) ++ [m + (k - 1)].
Proof.
  intros Hk. replace k with ((k - 1) + 1) at 1 by lia. rewrite seqZ_app by lia. f_equal.
Qed.

Lemma iter_next_spec it :
  iter_ok it →
  match iter_next it with
  | Some (x, it') => iter_items it = x :: iter_items it' ∧ iter_ok it' ∧ size_hint it' = size_hint it - 1
  | None => iter_items it = []
  end.
Proof.
  intros Hok. destruct it as [[|x items]|[|x items]|next more]; cbn in *; try done.
  - split; [done|]. split; [done|]. lia.
  - split; [done|]. split; [done|]. lia.
  - destruct Hok as [H0 H1]. destruct (Z.leb_spec 1 more).
    + rewrite (seqZ_cons next more) by lia. cbn. unfold wrapping_add.
      assert (Hn : 1 < more → wrap_i64 (next + 1) = next + 1) by (intros; rewrite wrap_i64_id; lia).
      destruct (decide (1 < more)) as [Hm|Hm].
      * rewrite Hn by done. replace (Z.succ next) with (next + 1) by lia.
        replace (Z.pred more) with (more - 1) by lia. split; [done|]. split; [|lia]. split; lia.
      * replace more with 1 by lia. rewrite !seqZ_nil by lia. split; [done|]. split; [|lia].
        split; [lia|]. lia.
    + by rewrite seqZ_nil by lia.
Qed.

Lemma iter_next_back_spec it :
  iter_ok it →
  match iter_next_back it with
  | Some (x, it') => iter_items it = iter_items it' ++ [x] ∧ iter_ok it' ∧ size_hint it' = size_hint it - 1
  | None => iter_items it = []
  end.
Proof.
  assert (Hrev : ∀ items : list V, match rev items with
    | [] => items = [] | x :: items' => items = rev items' ++ [x] end).
  { intros items. destruct (rev items) as [|x items'] eqn:Hr.
    - by rewrite <-(rev_involutive items), Hr.
    - by rewrite <-(rev_involutive items), Hr. }
  intros Hok. destruct it as [items|items|next more]; cbn in *.
  - specialize (Hrev items). destruct (rev items) as [|x items']; cbn; [done|].
    split; [done|]. split; [done|]. rewrite Hrev, length_app. cbn. lia.
  - specialize (Hrev items). destruct (rev items) as [|x items']; cbn; [done|].
    split; [done|]. split; [done|]. rewrite Hrev, length_app. cbn. lia.
  - destruct Hok as [H0 H1]. destruct (Z.leb_spec 1 more).
    + rewrite (seqZ_snoc next more), fmap_app by lia. rewrite nth_int_spec by lia. cbn.
      split; [done|]. split; [|lia]. split; lia.
    + by rewrite seqZ_nil by lia.
Qed.

Lemma size_hint_spec it : iter_ok it → size_hint it = Z.of_nat (length (iter_items it)).
Proof.
  intros Hok. destruct it as [items|items|next more]; cbn in *; try done.
  rewrite length_fmap, length_seqZ. lia.
Qed.

Lemma collect_spec it : iter_ok it → collect it = iter_items it.
Proof.
  intros Hok. unfold collect.
  assert (Hgen : ∀ n it, iter_ok it → (length (iter_items it) <= n)%nat → collect_fuel n it = iter_items it).
  { clear it Hok. induction n as [|n IH]; intros it Hok Hle; cbn.
    - destruct (iter_items it); [done|]. cbn in Hle. lia.
    - pose proof (iter_next_spec it Hok) as Hn. destruct (iter_next it) as [[x it']|]; [|done].
      destruct Hn as (Heq & Hok' & _). rewrite Heq in *. cbn in Hle. f_equal. apply IH; [done|lia]. }
  apply Hgen; [done|]. rewrite size_hint_spec by done. lia.
Qed.

Lemma iter_part_spec l from to :
  list_ok l → 0 <= from <= to → to <= list_len l →
  iter_ok (iter_part l from to) ∧
  iter_items (iter_part l from to) = sub (Z.to_nat from) (Z.to_nat (to - from)) (elems l).
Proof.
  intros Hok Hf Ht. destruct l as [buf s n|[items tr|t] s n|lo hi]; cbn in *; try done.
  - split; [done|]. rewrite sub_sub; [done|lia].
  - destruct Hok as (H1 & H2 & H3 & H4). rewrite abs_diff_le in Ht by done.
    destruct (decide (from = to)) as [->|Hne].
    { replace (to - to) with 0 by lia. rewrite seqZ_nil by lia. split; [|done]. split; lia. }
    rewrite nth_int_spec by lia. split; [split; lia|].
    apply list_eq. intros i. rewrite lookup_sub, lookup_ints, list_lookup_fmap. case_decide.
    + rewrite lookup_seqZ_lt by lia. rewrite decide_True by lia. cbn. do 2 f_equal. lia.
    + by rewrite lookup_seqZ_ge by lia.
Qed.

Lemma iter_spec l : list_ok l → iter_ok (iter l) ∧ iter_items (iter l) = elems l.
Proof.
  intros Hok. pose proof (list_len_nonneg l Hok) as Hn. pose proof (list_len_elems l Hok) as Hlen.
  destruct (iter_part_spec l 0 (list_len l)) as [H1 H2]; [done|lia|lia|].
  split; [done|]. unfold iter. rewrite H2, Z.sub_0_r, Hlen, Nat2Z.id. apply sub_all.
Qed.

Lemma collect_iter l : list_ok l → collect (iter l) = elems l.
Proof. intros Hok. destruct (iter_spec l Hok) as [H1 <-]. by apply collect_spec. Qed.

(** ** Runs *)

Lemma leaves_next_spec (leaves : list (list V)) passed skip more :
  (skip + more <= length (concat leaves))%nat →
  match leaves_next_from leaves passed skip more with
  | Some (at_, run, lv) =>
      run ≠ [] ∧ at_ = (passed + skip)%nat ∧
      sub skip more (concat leaves) =
        run ++ sub (lv_skip lv) (lv_left lv) (concat (lv_leaves lv)) ∧
      (lv_skip lv + lv_left lv <= length (concat (lv_leaves lv)))%nat ∧
      (length (lv_leaves lv) < length leaves)%nat
  | None => more = 0%nat
  end.
Proof.
  revert passed skip. induction leaves as [|leaf leaves IH]; intros passed skip Hle; cbn in *.
  { destruct more; [done|lia]. }
  rewrite length_app in Hle. destruct more as [|m]; [done|]. case_decide as Hd.
  - specialize (IH (passed + length leaf)%nat (skip - length leaf)%nat).
    destruct (leaves_next_from _ _ _ _) as [[[at_ run] lv]|]; [|apply IH; lia].
    destruct IH as (H1 & H2 & H3 & H4 & H5); [lia|]. split; [done|]. split; [lia|]. split; [|lia].
    rewrite <-H3. unfold sub. by rewrite drop_app_ge by lia.
  - set (k := (length leaf `min` (skip + S m) - skip)%nat).
    assert (Hk : (0 < k ∧ k <= S m ∧ skip + k <= length leaf)%nat) by (unfold k; lia).
    assert (Hlen : length (sub skip k leaf) = k) by (apply length_sub; lia).
    split; [intros Hn; rewrite Hn in Hlen; cbn in Hlen; lia|]. split; [done|].
    rewrite Hlen. cbn. split; [|lia]. unfold sub. rewrite drop_0, drop_app_le by lia.
    rewrite take_app. rewrite length_drop. f_equal.
    + unfold k. destruct (decide (length leaf <= skip + S m)%nat).
      * rewrite !take_ge; [done|..]; rewrite length_drop; lia.
      * f_equal. lia.
    + f_equal. unfold k. lia.
Qed.

Definition runs_items (r : Runs X) : list V :=
  rn_left r ++ match rn_leaves r with
               | Some lv => sub (lv_skip lv) (lv_left lv) (concat (lv_leaves lv))
               | None => []
               end.

Definition runs_ok (r : Runs X) : Prop :=
  match rn_leaves r with
  | Some lv => (lv_skip lv + lv_left lv <= length (concat (lv_leaves lv)))%nat
  | None => True
  end.

Definition runs_fuel (r : Runs X) : nat :=
  (match rn_left r with [] => 0 | _ => 1 end +
   match rn_leaves r with Some lv => length (lv_leaves lv) | None => 0 end)%nat.

(** A run is never empty; there is one as long as there are elements. *)
Lemma runs_next_spec r :
  runs_ok r →
  match runs_next r with
  | Some (run, r') => run ≠ [] ∧ runs_items r = run ++ runs_items r' ∧ runs_ok r' ∧
                      (runs_fuel r' < runs_fuel r)%nat ∧ is_done r = false
  | None => runs_items r = [] ∧ is_done r = true
  end.
Proof.
  destruct r as [[|x rest] lvs]; unfold runs_ok, runs_next, runs_items, runs_fuel, is_done; cbn.
  - destruct lvs as [[leaves passed skip more]|]; cbn; [|done]. intros Hok. unfold leaves_next. cbn.
    pose proof (leaves_next_spec leaves passed skip more Hok) as Hn.
    destruct (leaves_next_from _ _ _ _) as [[[at_ run] lv]|]; cbn.
    + destruct Hn as (H1 & H2 & H3 & H4 & H5). repeat split; try done.
      apply bool_decide_eq_false. intros ->. by destruct run.
    + subst. by rewrite sub_nil.
  - intros Hok. repeat split; try done. lia.
Qed.

Lemma flatten_spec r : runs_ok r → flatten r = runs_items r.
Proof.
  intros Hok. unfold flatten.
  assert (Hgen : ∀ n r, runs_ok r → (runs_fuel r <= n)%nat → flatten_fuel n r = runs_items r).
  { clear r Hok. induction n as [|n IH]; intros r Hok Hle.
    - pose proof (runs_next_spec r Hok) as Hn. cbn. destruct (runs_next r) as [[run r']|]; [|naive_solver].
      destruct Hn as (_ & _ & _ & Hlt & _). lia.
    - pose proof (runs_next_spec r Hok) as Hn. cbn. destruct (runs_next r) as [[run r']|]; [|naive_solver].
      destruct Hn as (_ & -> & Hok' & Hlt & _). f_equal. apply IH; [done|lia]. }
  apply Hgen; [done|]. unfold runs_fuel. destruct (rn_left r); lia.
Qed.

Lemma runs_spec l : list_ok l → range_ends l = None → runs_ok (runs l) ∧ runs_items (runs l) = elems l.
Proof.
  destruct l as [buf s n|[items tr|t] s n|lo hi]; unfold runs_ok, runs_items; cbn; try done.
  - intros _ _. by rewrite app_nil_r.
  - intros _ _. by rewrite app_nil_r.
  - intros (Hb & _) _. rewrite law_leaves. by rewrite law_len in Hb.
Qed.

Lemma write_into_elems l : list_ok l → write_into l = elems l.
Proof.
  intros Hok. destruct (range_ends l) as [[lo hi]|] eqn:Hr.
  - by destruct l; simplify_eq/=.
  - destruct (runs_spec l Hok Hr) as [H1 <-]. rewrite <-flatten_spec by done. by destruct l.
Qed.

Lemma to_vec_spec l :
  list_ok l → to_vec l = match writable l with Ok _ => Ok (elems l) | Err e => Err e end.
Proof. intros Hok. unfold to_vec. rewrite write_into_elems by done. by destruct (writable l). Qed.

(** ** Trees *)

Lemma part_of_spec t s n :
  (s + n <= vec_len t)%nat → vec_items (part_of t s n) = sub s n (vec_items t).
Proof.
  intros Hle. unfold part_of, sub. rewrite law_truncate. destruct s; [by rewrite drop_0|].
  by rewrite law_skip by lia.
Qed.

Lemma to_tree_spec l : list_ok l → vec_items (to_tree l) = elems l.
Proof.
  intros Hok. destruct l as [buf s n|[items tr|t] s n|lo hi].
  - cbn [to_tree]. rewrite law_of. by apply collect_iter.
  - destruct Hok as (Hb & _ & _ & Htr). cbn in *.
    assert (Hit : vec_items (default (vec_of items) tr) = items).
    { destruct tr; cbn; [done|apply law_of]. }
    rewrite part_of_spec; rewrite ?law_len, Hit; done.
  - destruct Hok as (Hb & _). cbn in *. by rewrite part_of_spec.
  - cbn [to_tree]. rewrite law_of. by apply collect_iter.
Qed.

Lemma vec_len_to_tree l : list_ok l → Z.of_nat (vec_len (to_tree l)) = list_len l.
Proof. intros Hok. by rewrite law_len, to_tree_spec, list_len_elems. Qed.

(** ** Making lists *)

Lemma flat_spec items : (length items <= FLAT_MOST)%nat → list_ok (flat items) ∧ elems (flat items) = items.
Proof.
  intros Hle. cbn. rewrite sub_all. split; [|done]. split; [lia|]. split; [done|].
  apply Nat.Div0.div_le_upper_bound. lia.
Qed.

Lemma from_vec_spec items : list_ok (from_vec items) ∧ elems (from_vec items) = items.
Proof.
  unfold from_vec. case_decide; [by apply flat_spec|]. cbn. rewrite sub_all. split; [|done].
  split; [lia|]. split; [apply Nat.Div0.div_le_upper_bound; lia|]. split; [lia|done].
Qed.

Lemma of_tree_spec t :
  (FLAT_MOST / 2 < vec_len t)%nat → list_ok (of_tree t) ∧ elems (of_tree t) = vec_items t.
Proof.
  intros Hlt. cbn. split; [|by rewrite law_len, sub_all]. split; [lia|].
  split; [apply Nat.Div0.div_le_upper_bound; lia|done].
Qed.

(** What is not kept flat is long. *)
Lemma not_flat_long l n : flat_for l (Z.of_nat n) = false → (FLAT_MOST / 2 < n)%nat.
Proof.
  unfold flat_for, FLAT_MOST. change (64 / 2)%nat with 32%nat. change (Z.of_nat 64 / 2) with 32.
  destruct l as [| [|] |]; rewrite Z.leb_gt; lia.
Qed.

(** ** Parts and changes *)

Lemma list_new_spec : list_ok (list_new : List) ∧ elems (list_new : List) = [].
Proof. apply from_vec_spec. Qed.

Lemma slice_spec l from to :
  list_ok l → 0 <= from → 0 <= to →
  list_ok (slice l from to) ∧
  elems (slice l from to) = sub (Z.to_nat from) (Z.to_nat to - Z.to_nat from) (elems l).
Proof.
  intros Hok Hf Ht. unfold slice. pose proof (list_len_nonneg l Hok) as Hn.
  pose proof (list_len_elems l Hok) as Hlen.
  set (to' := Z.min to (list_len l)). set (from' := Z.min from to').
  assert (Hcut : sub (Z.to_nat from) (Z.to_nat to - Z.to_nat from) (elems l) =
                 sub (Z.to_nat from') (Z.to_nat (to' - from')) (elems l)).
  { apply list_eq. intros i. rewrite !lookup_sub. repeat case_decide.
    - f_equal. lia.
    - apply lookup_ge_None. lia.
    - lia.
    - done. }
  rewrite Hcut. clear Hcut. destruct (Z.eqb_spec from' to') as [Heq|Hne].
  { rewrite Heq, Z.sub_diag. apply list_new_spec. }
  assert (Hb : 0 <= from' < to' ∧ to' <= list_len l) by lia.
  clearbody from' to'. clear from to Hf Ht Hne. rename from' into from, to' into to.
  destruct l as [buf s n|[items tr|t] s n|lo hi]; cbn [list_len elems list_ok long_len] in *.
  - rewrite sub_sub by lia. case_decide.
    + apply flat_spec. rewrite length_sub; lia.
    + split; [|done]. cbn. lia.
  - rewrite sub_sub by lia. case_decide; [|split; [cbn; split_and!; (lia || apply Hok)|done]].
    destruct (flat_for _ _) eqn:Hff.
    + destruct (iter_part_spec (Long (Side items tr) s n) from to) as [Hi1 Hi2]; [done|lia|cbn; lia|].
      rewrite collect_spec, Hi2 by done. cbn [elems]. rewrite sub_sub by lia. apply flat_spec.
      rewrite length_sub by lia. unfold flat_for in Hff. apply Z.leb_le in Hff. lia.
    + apply from_vec_spec.
  - rewrite law_len in *. rewrite sub_sub by lia. case_decide; [|split; [cbn; rewrite law_len; lia|done]].
    destruct (flat_for _ _) eqn:Hff.
    + destruct (iter_part_spec (Long (Tree t) s n) from to) as [Hi1 Hi2];
        [cbn; by rewrite law_len|lia|cbn; lia|].
      rewrite collect_spec, Hi2 by done. cbn [elems]. rewrite sub_sub by lia. apply flat_spec.
      rewrite length_sub by lia. unfold flat_for in Hff. apply Z.leb_le in Hff.
      change (Z.of_nat FLAT_MOST / 2) with 32 in Hff. unfold FLAT_MOST. lia.
    + assert (Hpart := part_of_spec t (s + Z.to_nat from) (Z.to_nat (to - from))).
      rewrite <-Hpart by (rewrite law_len; lia). apply of_tree_spec.
      rewrite law_len, Hpart by (rewrite law_len; lia). rewrite length_sub by lia.
      apply (not_flat_long (Long (Tree t) s n)). rewrite Z2Nat.id by lia. done.
  - destruct Hok as (H1 & H2 & H3 & H4). rewrite abs_diff_le in * by done.
    rewrite !nth_int_spec by lia. cbn. split; [lia|].
    apply list_eq. intros i. rewrite lookup_sub, !lookup_ints.
    repeat case_decide; try lia; [|done]. do 2 f_equal. lia.
Qed.

Lemma foldr_push_front items t :
  vec_items (foldr vec_push_front t items) = items ++ vec_items t.
Proof. induction items as [|x items IH]; cbn; [done|]. by rewrite law_push_front, IH. Qed.

Lemma foldl_push_back items t :
  vec_items (foldl vec_push_back t items) = vec_items t ++ items.
Proof.
  revert t. induction items as [|x items IH]; intros t; cbn; [by rewrite app_nil_r|].
  by rewrite IH, law_push_back, <-app_assoc.
Qed.

Lemma is_empty_spec l : list_ok l → is_empty l = bool_decide (elems l = []).
Proof.
  intros Hok. unfold is_empty. rewrite list_len_elems by done.
  destruct (elems l); cbn; [done|]. apply Z.eqb_neq. lia.
Qed.

(** A list a change makes in a tree is long enough for one. *)
Lemma changed_tree l (t : T) n :
  flat_for l n = false → Z.of_nat (vec_len t) = n →
  list_ok (of_tree t) ∧ elems (of_tree t) = vec_items t.
Proof. intros Hff <-. apply of_tree_spec. by eapply not_flat_long. Qed.

Lemma concat_spec l other :
  list_ok l → list_ok other →
  match list_concat l other with
  | Ok r => list_ok r ∧ elems r = elems l ++ elems other
  | Err e => writable l = Err e ∨ (writable l = Ok tt ∧ writable other = Err e)
  end.
Proof.
  intros Hok Hok'. unfold list_concat.
  destruct (writable l) as [[]|e]; cbn; [|by left]. destruct (writable other) as [[]|e]; cbn; [|by right].
  rewrite !is_empty_spec by done. case_bool_decide as He; [by rewrite He, app_nil_r|].
  case_bool_decide as He'; [by rewrite He'|].
  rewrite !write_into_elems by done.
  destruct (_ || _ || _) eqn:Hcase; [apply from_vec_spec|].
  apply orb_false_iff in Hcase as [[Hff _]%orb_false_iff _].
  pose proof (list_len_elems l Hok) as Hl. pose proof (list_len_elems other Hok') as Hl'.
  set (tree := if (list_len l <=? PUSHED_MOST) && (list_len l <=? list_len other) then _ else _).
  assert (Ht : vec_items tree = elems l ++ elems other).
  { subst tree. rewrite !collect_iter by done.
    destruct ((list_len l <=? PUSHED_MOST) && (list_len l <=? list_len other)).
    - by rewrite foldr_push_front, to_tree_spec.
    - destruct (list_len other <=? PUSHED_MOST).
      + by rewrite foldl_push_back, to_tree_spec.
      + by rewrite law_append, !to_tree_spec. }
  rewrite <-Ht. apply andb_false_iff in Hff.
  assert (Hn : Z.of_nat (vec_len tree) = list_len l + list_len other).
  { rewrite law_len, Ht, length_app, Hl, Hl'. lia. }
  destruct Hff as [Hff|Hff]; by eapply changed_tree.
Qed.

Lemma push_front_spec l v :
  list_ok l →
  match push_front l v with
  | Ok r => list_ok r ∧ elems r = v :: elems l
  | Err e => writable l = Err e
  end.
Proof.
  intros Hok. unfold push_front. destruct (writable l) as [[]|e]; cbn; [|done].
  rewrite write_into_elems by done. destruct (_ || _) eqn:Hcase; [apply from_vec_spec|].
  apply orb_false_iff in Hcase as [Hff _].
  rewrite <-(to_tree_spec l Hok), <-law_push_front. eapply changed_tree; [done|].
  rewrite law_len, law_push_front, to_tree_spec, list_len_elems by done. cbn. lia.
Qed.

Lemma push_back_spec l v :
  list_ok l →
  match push_back l v with
  | Ok r => list_ok r ∧ elems r = elems l ++ [v]
  | Err e => writable l = Err e
  end.
Proof.
  intros Hok. unfold push_back. destruct (writable l) as [[]|e]; cbn; [|done].
  rewrite write_into_elems by done. destruct (_ || _) eqn:Hcase; [apply from_vec_spec|].
  apply orb_false_iff in Hcase as [Hff _].
  rewrite <-(to_tree_spec l Hok), <-law_push_back. eapply changed_tree; [done|].
  rewrite law_len, law_push_back, to_tree_spec, list_len_elems, length_app by done. cbn. lia.
Qed.

Lemma set_spec l index v :
  list_ok l → 0 <= index →
  match list_set l index v with
  | Ok (Some r) => index < list_len l ∧ list_ok r ∧ elems r = <[Z.to_nat index := v]> (elems l)
  | Ok None => list_len l <= index
  | Err e => writable l = Err e ∧ index < list_len l
  end.
Proof.
  intros Hok Hi. unfold list_set. destruct (Z.leb_spec (list_len l) index); [done|].
  rewrite to_vec_spec by done. destruct (writable l) as [[]|e]; cbn; [|done].
  pose proof (list_len_elems l Hok) as Hlen.
  destruct (_ || _) eqn:Hcase; cbn; [split; [done|]; apply from_vec_spec|].
  apply orb_false_iff in Hcase as [Hff _]. split; [done|].
  assert (Hin : (Z.to_nat index < vec_len (to_tree l))%nat) by (rewrite law_len, to_tree_spec; [lia|done]).
  rewrite <-(to_tree_spec l Hok), <-law_set by done. eapply changed_tree; [done|].
  rewrite law_len, law_set, length_insert, to_tree_spec by done. lia.
Qed.

Lemma remove_at_spec l index :
  list_ok l → 0 <= index →
  match remove_at l index with
  | Ok (Some r) => index < list_len l ∧ list_ok r ∧
      elems r = take (Z.to_nat index) (elems l) ++ drop (S (Z.to_nat index)) (elems l)
  | Ok None => list_len l <= index
  | Err e => writable l = Err e ∧ index < list_len l
  end.
Proof.
  intros Hok Hi. unfold remove_at. destruct (Z.leb_spec (list_len l) index); [done|].
  rewrite to_vec_spec by done. destruct (writable l) as [[]|e]; cbn; [|done].
  pose proof (list_len_elems l Hok) as Hlen.
  destruct (_ || _) eqn:Hcase; cbn; [split; [done|]; apply from_vec_spec|].
  apply orb_false_iff in Hcase as [Hff _]. split; [done|].
  assert (Hin : (Z.to_nat index < vec_len (to_tree l))%nat) by (rewrite law_len, to_tree_spec; [lia|done]).
  rewrite <-(to_tree_spec l Hok), <-law_remove by done. eapply changed_tree; [done|].
  rewrite law_len, law_remove, length_app, length_take, length_drop, to_tree_spec by done. lia.
Qed.

End facts.
