(* ===== verification/ListAsk.v ===== *)
(** * What a list is asked (src/value/list.rs)

    The questions a range answers from its two ends, and the iterator
    that owns a list's elements. *)

From S2P Require Import Prelude Int64 ListValue ListFacts.

Open Scope Z_scope.

Section ask.
Context {X T : Type} `{Vector (Value X) T}.
Notation V := (Value X).
Notation List := (List X T).

(** The [==] and the [cmp] of two values. *)
Variable eqv : V → V → bool.
Variable cmp : V → V → comparison.

(** [List::position], [List::contains]. *)
Definition position (l : List) (v : V) : option Z :=
  match elements l with
  | Held r => (λ p, Z.of_nat p.1) <$> list_find (λ item, eqv item v = true) (flatten r)
  | EInts lo hi =>
      match v with
      | Int n => if (lo <=? n) && (n <=? hi) then Some (abs_diff n lo) else None
      | Else _ => None
      end
  end.

Definition contains (l : List) (v : V) : bool :=
  match position l v with Some _ => true | None => false end.

(** [List::contains_fn]: [is_fn] is [Value::contains_fn] of an element. *)
Definition contains_fn (is_fn : X → bool) (l : List) : bool :=
  match elements l with
  | Held r => existsb (λ item, match item with Int _ => false | Else x => is_fn x end) (flatten r)
  | EInts _ _ => false
  end.

(** [List::sum_ints]. *)
Fixpoint sum_held (sum : Z) (items : list V) : IntTotal :=
  match items with
  | [] => Total sum
  | Else _ :: _ => NotInts
  | Int n :: items' =>
      match checked_add sum n with Some next => sum_held next items' | None => Overflow end
  end.

Definition sum_ints (l : List) : IntTotal :=
  match elements l with
  | Held r => sum_held 0 (flatten r)
  | EInts lo hi =>
      let count := hi - lo + 1 in
      match checked_mul_i128 (lo + hi) count with
      | Some twice => if in_i64 (Z.quot twice 2) then Total (Z.quot twice 2) else Overflow
      | None => Overflow
      end
  end.

(** [List::product_ints]. *)
Fixpoint product_held (product : option Z) (items : list V) : IntTotal :=
  match items with
  | [] => match product with Some p => Total p | None => Overflow end
  | Else _ :: _ => NotInts
  | Int n :: items' =>
      if n =? 0 then Total 0
      else product_held (p ← product; checked_mul p n) items'
  end.

(** The loop over a range with no 0 in it; [None] is out of fuel. *)
Fixpoint product_range (fuel : nat) (product n hi : Z) : option IntTotal :=
  match fuel with
  | 0%nat => None
  | S fuel =>
      if hi <? n then Some (Total product)
      else
        match checked_mul product n with
        | None => Some Overflow
        | Some next => product_range fuel next (n + 1) hi
        end
  end.

Definition product_ints (l : List) : option IntTotal :=
  match elements l with
  | Held r => Some (product_held (Some 1) (flatten r))
  | EInts lo hi =>
      if (lo <=? 0) && (0 <=? hi) then Some (Total 0) else product_range 66 1 lo hi
  end.

(** [List::sorted]: a stable sort. *)
Fixpoint insert_sorted (x : V) (items : list V) : list V :=
  match items with
  | [] => [x]
  | y :: items' => match cmp x y with Gt => y :: insert_sorted x items' | _ => x :: items end
  end.
Definition sort (items : list V) : list V := foldr insert_sorted [] items.

Definition sorted (l : List) : List :=
  match elements l with Held r => from_vec (sort (flatten r)) | EInts _ _ => l end.

(** [List::unique]: what is equal to nothing that was seen. *)
Fixpoint unique_from (seen items : list V) : list V :=
  match items with
  | [] => []
  | x :: items' =>
      if existsb (λ y, match cmp x y with Eq => true | _ => false end) seen
      then unique_from seen items' else x :: unique_from (x :: seen) items'
  end.

Definition unique (l : List) : List :=
  match elements l with Held r => from_vec (unique_from [] (flatten r)) | EInts _ _ => l end.

(** [List::ascending_ints]. *)
Fixpoint ascending_from (last_ : Z) (items : list V) : option Z :=
  match items with
  | [] => Some last_
  | Int n :: items' => if decide (checked_add last_ 1 = Some n) then ascending_from n items' else None
  | Else _ :: _ => None
  end.

Definition ascending_ints (l : List) : option (Z * Z) :=
  match elements l with
  | EInts lo hi => Some (lo, hi)
  | Held r =>
      match flatten r with
      | Int lo :: items => hi ← ascending_from lo items; Some (lo, hi)
      | _ => None
      end
  end.

(** *** [IntoIter] *)
Inductive IntoIter :=
  | IntoItems (buf : list V) (next end_ : nat)
  | IntoSide (items : list V) (next end_ : nat)
  | IntoTree (tree : T) (next end_ : nat) (leaf : list V)
  | IntoInts (next more : Z).

Definition into_iter (l : List) : IntoIter :=
  match l with
  | Items buf start len => IntoItems buf start (start + len)
  | Long (Side items _) start len => IntoSide items start (start + len)
  | Long (Tree tree) start len => IntoTree tree start (start + len) []
  | Ints lo _ => IntoInts lo (list_len l)
  end.

(** [next_of_long] of a tree.  The leaf at hand is kept in the order it
    is given out (the source keeps it reversed and pops the last). *)
Definition next_of_long (tree : T) (next end_ : nat) : option (V * IntoIter) :=
  if decide (next = end_) then None
  else
    let '(from, to, items) := vec_chunk_at tree next in
    let upto := (to `min` end_)%nat in
    match sub (next - from) (upto - from - (next - from)) items with
    | [] => None
    | x :: leaf => Some (x, IntoTree tree upto end_ leaf)
    end.

Definition into_next (it : IntoIter) : option (V * IntoIter) :=
  match it with
  | IntoItems buf next end_ =>
      if decide (next = end_) then None
      else item ← buf !! next; Some (item, IntoItems buf (S next) end_)
  | IntoSide items next end_ =>
      if decide (next = end_) then None
      else item ← items !! next; Some (item, IntoSide items (S next) end_)
  | IntoTree tree next end_ (x :: leaf) => Some (x, IntoTree tree next end_ leaf)
  | IntoTree tree next end_ [] => next_of_long tree next end_
  | IntoInts next more =>
      if 1 <=? more then Some (Int next, IntoInts (wrapping_add next 1) (more - 1)) else None
  end.

Definition into_size_hint (it : IntoIter) : Z :=
  match it with
  | IntoItems _ next end_ | IntoSide _ next end_ => Z.of_nat end_ - Z.of_nat next
  | IntoTree _ next end_ leaf => Z.of_nat (length leaf) + (Z.of_nat end_ - Z.of_nat next)
  | IntoInts _ more => more
  end.

End ask.
Arguments IntoIter : clear implicits.
