(* ===== verification/ListClaims.v ===== *)
(** * What a list promises

    The reads, the parts, the changes and the totals of a list, for
    every way of storing one. *)

From S2P Require Import Prelude Int64 ListValue ListFacts ListAsk.

Open Scope Z_scope.

(** ** Sums of ranges *)
Section totals.
Context {X : Type}.
Notation V := (Value X).

Fixpoint sumZ (l : list Z) : Z := match l with [] => 0 | n :: l' => n + sumZ l' end.
Fixpoint productZ (l : list Z) : Z := match l with [] => 1 | n :: l' => n * productZ l' end.

Lemma sumZ_range lo n : 0 <= n → 2 * sumZ (seqZ lo n) = n * (2 * lo + n - 1).
Proof.
  intros Hn. revert lo. pattern n. apply natlike_ind; [..|done]; clear n Hn.
  - intros lo. rewrite seqZ_nil by lia. done.
  - intros n Hn IH lo. rewrite seqZ_cons by lia. cbn [sumZ].
    rewrite Z.pred_succ, Z.mul_add_distr_l, IH. lia.
Qed.

(** Adding in order gives the sum, or an overflow exactly where it is no
    Int: for elements none of which is negative, none of which is
    positive, or all of which are small. *)
Lemma sum_held_nonneg (ns : list Z) acc :
  0 <= acc <= i64_max → Forall (Z.le 0) ns →
  sum_held acc (Int <$> ns : list V) =
  if in_i64 (acc + sumZ ns) then Total (acc + sumZ ns) else Overflow.
Proof.
  intros Hacc Hns. revert acc Hacc. induction Hns as [|n ns Hn Hns IH]; intros acc Hacc.
  - cbn. rewrite Z.add_0_r. rewrite (proj2 (in_i64_spec acc)); [done|]. unfold i64_min. lia.
  - cbn. assert (Hge : 0 <= sumZ ns) by (clear -Hns; induction Hns; cbn; lia).
    unfold checked_add. destruct (decide (acc + n <= i64_max)).
    + rewrite checked_in by (unfold i64_min; lia). rewrite IH by lia.
      by replace (acc + n + sumZ ns) with (acc + (n + sumZ ns)) by lia.
    + rewrite checked_out by lia. by rewrite (proj2 (in_i64_false _)) by (cbn; lia).
Qed.

Lemma sum_held_nonpos (ns : list Z) acc :
  i64_min <= acc <= 0 → Forall (λ n, n <= 0) ns →
  sum_held acc (Int <$> ns : list V) =
  if in_i64 (acc + sumZ ns) then Total (acc + sumZ ns) else Overflow.
Proof.
  intros Hacc Hns. revert acc Hacc. induction Hns as [|n ns Hn Hns IH]; intros acc Hacc.
  - cbn. rewrite Z.add_0_r. rewrite (proj2 (in_i64_spec acc)); [done|]. unfold i64_max. lia.
  - cbn. assert (Hge : sumZ ns <= 0) by (clear -Hns; induction Hns; cbn; lia).
    unfold checked_add. destruct (decide (i64_min <= acc + n)).
    + rewrite checked_in by (unfold i64_max; lia). rewrite IH by lia.
      by replace (acc + n + sumZ ns) with (acc + (n + sumZ ns)) by lia.
    + rewrite checked_out by lia. by rewrite (proj2 (in_i64_false _)) by (cbn; lia).
Qed.

Lemma sum_held_small (ns : list Z) acc M :
  0 <= M → Z.abs acc + M * Z.of_nat (length ns) <= i64_max → Forall (λ n, Z.abs n <= M) ns →
  sum_held acc (Int <$> ns : list V) = Total (acc + sumZ ns) ∧ in_i64 (acc + sumZ ns) = true.
Proof.
  intros HM Hacc Hns. revert acc Hacc. induction Hns as [|n ns Hn Hns IH]; intros acc Hacc.
  - cbn. rewrite Z.add_0_r. split; [done|]. apply in_i64_spec. unfold i64_min, i64_max in *. lia.
  - cbn -[Z.mul] in *. unfold checked_add. rewrite checked_in by (unfold i64_min, i64_max in *; nia).
    replace (acc + (n + sumZ ns)) with (acc + n + sumZ ns) by lia. apply IH. nia.
Qed.

(** A list as long as one may be written out: its sum in order is its
    sum. *)
Lemma sum_held_range lo n :
  i64_min <= lo → lo + n - 1 <= i64_max → 0 < n <= MAX_COLLECTION_LEN →
  sum_held 0 (Int <$> seqZ lo n : list V) =
  if in_i64 (sumZ (seqZ lo n)) then Total (sumZ (seqZ lo n)) else Overflow.
Proof.
  intros Hlo Hhi Hn. rewrite <-(Z.add_0_l (sumZ _)).
  assert (Hel : ∀ m, m ∈ seqZ lo n → lo <= m <= lo + n - 1) by (intros m Hm%elem_of_seqZ; lia).
  destruct (decide (0 <= lo)); [|destruct (decide (lo + n - 1 <= 0))].
  - apply sum_held_nonneg; [unfold i64_max; lia|]. apply Forall_forall. intros m Hm%Hel. lia.
  - apply sum_held_nonpos; [unfold i64_min; lia|]. apply Forall_forall. intros m Hm%Hel. lia.
  - unfold MAX_COLLECTION_LEN in *.
    destruct (sum_held_small (seqZ lo n) 0 10000000) as [-> ->]; [lia| |..]; [| |done].
    + rewrite length_seqZ, Z2Nat.id by lia. unfold i64_max. lia.
    + apply Forall_forall. intros m Hm%Hel. lia.
Qed.

(** The formula of the two ends. *)
Lemma sum_ends lo hi :
  i64_min <= lo → lo <= hi → hi <= i64_max →
  match checked_mul_i128 (lo + hi) (hi - lo + 1) with
  | Some twice => if in_i64 (Z.quot twice 2) then Total (Z.quot twice 2) else Overflow
  | None => Overflow
  end =
  if in_i64 (sumZ (seqZ lo (hi - lo + 1))) then Total (sumZ (seqZ lo (hi - lo + 1))) else Overflow.
Proof.
  intros Hlo Hle Hhi. pose proof (sumZ_range lo (hi - lo + 1)) as Hs.
  assert (Htw : (lo + hi) * (hi - lo + 1) = sumZ (seqZ lo (hi - lo + 1)) * 2) by lia.
  generalize dependent (sumZ (seqZ lo (hi - lo + 1))). intros s _ Htw.
  unfold checked_mul_i128. rewrite Htw. destruct (in_i128 (s * 2)) eqn:Hi.
  - by rewrite Z.quot_mul by done.
  - rewrite (proj2 (in_i64_false s)); [done|]. unfold in_i128 in Hi.
    apply andb_false_iff in Hi. rewrite !Z.leb_gt in Hi.
    unfold i128_min, i128_max, i64_min, i64_max in *. lia.
Qed.

(** ** Products of ranges *)

Lemma product_held_zero (ns : list Z) p :
  0 ∈ ns → product_held p (Int <$> ns : list V) = Total 0.
Proof.
  revert p. induction ns as [|n ns IH]; intros p Hin; [set_solver|]. cbn.
  destruct (Z.eqb_spec n 0); [done|]. apply IH. set_solver.
Qed.

Lemma product_held_overflow (ns : list Z) :
  0 ∉ ns → product_held None (Int <$> ns : list V) = Overflow.
Proof.
  induction ns as [|n ns IH]; intros Hin; [done|]. cbn.
  destruct (Z.eqb_spec n 0); [set_solver|]. apply IH. set_solver.
Qed.

Lemma productZ_zero (ns : list Z) : 0 ∈ ns → productZ ns = 0.
Proof.
  induction ns as [|m ns IH]; intros H0; [set_solver|]. cbn.
  apply list_elem_of_In in H0 as [->|H0%list_elem_of_In]; [lia|]. rewrite IH by done. lia.
Qed.

(** The product of a held list, when it is one, is the product. *)
Lemma product_held_total (ns : list Z) p t :
  product_held (Some p) (Int <$> ns : list V) = Total t → t = p * productZ ns.
Proof.
  revert p. induction ns as [|n ns IH]; intros p; cbn; [intros [= <-]; lia|].
  destruct (Z.eqb_spec n 0) as [->|Hz]; [intros [= <-]; lia|].
  unfold checked_mul. destruct (checked (p * n)) as [q|] eqn:Hc.
  - apply checked_Some in Hc as [-> _]. intros ->%IH. lia.
  - destruct (decide (0 ∈ ns)) as [H0|H0].
    + rewrite (product_held_zero ns None H0), (productZ_zero ns H0). intros [= <-]. lia.
    + by rewrite (product_held_overflow ns H0).
Qed.

(** The loop over a range gives what the loop over its elements does. *)
Lemma product_range_held fuel p n hi r :
  ¬ (n <= 0 <= hi) → product_range fuel p n hi = Some r →
  product_held (Some p) (Int <$> seqZ n (hi - n + 1) : list V) = r.
Proof.
  revert p n. induction fuel as [|fuel IH]; intros p n Hz; cbn; [done|].
  destruct (Z.ltb_spec hi n) as [Hlt|Hge].
  { intros [= <-]. by rewrite seqZ_nil by lia. }
  rewrite (seqZ_cons n) by lia. cbn. destruct (Z.eqb_spec n 0); [lia|].
  replace (Z.pred (hi - n + 1)) with (hi - (n + 1) + 1) by lia. replace (Z.succ n) with (n + 1) by lia.
  unfold checked_mul. destruct (checked (p * n)) as [q|].
  - apply IH. lia.
  - intros [= <-]. apply product_held_overflow. rewrite elem_of_seqZ. lia.
Qed.

(** The loop ends: every factor but one doubles the product. *)
Lemma product_range_ends fuel p n hi :
  (1 <= fuel <= 65)%nat → 2 ^ (65 - Z.of_nat fuel) <= Z.abs p → i64_min <= p <= i64_max →
  2 <= n ∨ hi < 0 → is_Some (product_range fuel p n hi).
Proof.
  revert p n. induction fuel as [|fuel IH]; intros p n Hf Hp Hin Hn; [lia|]. cbn [product_range].
  destruct (Z.ltb_spec hi n); [eauto|]. unfold checked_mul.
  destruct (checked (p * n)) as [q|] eqn:Hc; [|eauto]. apply checked_Some in Hc as [-> Hq].
  assert (Hpow : 2 ^ (65 - Z.of_nat fuel) = 2 * 2 ^ (65 - Z.of_nat (S fuel))).
  { rewrite <-Z.pow_succ_r by lia. f_equal. lia. }
  destruct fuel as [|fuel].
  { exfalso. change (2 ^ (65 - Z.of_nat 1)) with 18446744073709551616 in Hp.
    unfold i64_min, i64_max in *. lia. }
  destruct (decide (n = -1)) as [->|].
  - cbn [product_range]. rewrite (proj2 (Z.ltb_lt hi (-1 + 1))) by lia. eauto.
  - apply IH; [lia| |lia|lia]. rewrite Hpow, Z.abs_mul. nia.
Qed.

Lemma product_range_more fuel p n hi r :
  product_range fuel p n hi = Some r → product_range (S fuel) p n hi = Some r.
Proof.
  revert p n. induction fuel as [|fuel IH]; intros p n; [done|].
  cbn [product_range]. intros Hr. destruct (hi <? n); [done|].
  destruct (checked_mul p n) as [q|]; [|done]. by apply IH.
Qed.

Lemma product_range_S fuel p n hi :
  product_range (S fuel) p n hi =
  if hi <? n then Some (Total p)
  else match checked_mul p n with
       | None => Some Overflow
       | Some next => product_range fuel next (n + 1) hi
       end.
Proof. done. Qed.

Lemma product_range_total lo hi :
  ¬ (lo <= 0 <= hi) → is_Some (product_range 66 1 lo hi).
Proof.
  intros Hz. destruct (decide (lo = 1)) as [->|].
  - rewrite (product_range_S 65). destruct (Z.ltb_spec hi 1); [eauto|].
    change (checked_mul 1 1) with (Some 1). apply product_range_ends; [lia|done|unfold i64_min, i64_max; lia|lia].
  - destruct (product_range_ends 65 1 lo hi) as [r Hr];
      [lia|done|unfold i64_min, i64_max; lia| |].
    + destruct (decide (2 <= lo)); [by left|right]. lia.
    + exists r. by apply product_range_more.
Qed.

End totals.

(** ** Iterators *)
Section iterators.
Context {X T : Type} `{VL : VectorLaws (Value X) T}.
Notation V := (Value X).
Notation List := (List X T).

(** What is taken from the front ([true]) and from the back ([false]) of
    an iterator, and of a plain list. *)
Fixpoint take_ends (it : Iter X) (ends : list bool) : list (option V) :=
  match ends with
  | [] => []
  | b :: ends' =>
      match (if b then iter_next it else iter_next_back it) with
      | Some (x, it') => Some x :: take_ends it' ends'
      | None => None :: take_ends it ends'
      end
  end.

Fixpoint list_ends (items : list V) (ends : list bool) : list (option V) :=
  match ends with
  | [] => []
  | true :: ends' => head items :: list_ends (tail items) ends'
  | false :: ends' => last items :: list_ends (removelast items) ends'
  end.

Lemma take_ends_spec it ends : iter_ok it → take_ends it ends = list_ends (iter_items it) ends.
Proof.
  revert it. induction ends as [|b ends IH]; intros it Hok; cbn; [done|]. destruct b.
  - pose proof (iter_next_spec it Hok) as Hn. destruct (iter_next it) as [[x it']|].
    + destruct Hn as (-> & Hok' & _). cbn. by rewrite IH.
    + rewrite Hn. cbn. rewrite IH by done. by rewrite Hn.
  - pose proof (iter_next_back_spec it Hok) as Hn. destruct (iter_next_back it) as [[x it']|].
    + destruct Hn as (-> & Hok' & _). rewrite last_snoc, removelast_last. by rewrite IH.
    + rewrite Hn. cbn. rewrite IH by done. by rewrite Hn.
Qed.

(** What an owning iterator has left. *)
Definition into_items (it : IntoIter X T) : list V :=
  match it with
  | IntoItems buf next end_ | IntoSide buf next end_ => sub next (end_ - next) buf
  | IntoTree tree next end_ leaf => leaf ++ sub next (end_ - next) (vec_items tree)
  | IntoInts next more => Int <$> seqZ next more
  end.

Definition into_ok (it : IntoIter X T) : Prop :=
  match it with
  | IntoItems buf next end_ | IntoSide buf next end_ => (next <= end_ <= length buf)%nat
  | IntoTree tree next end_ _ => (next <= end_ <= vec_len tree)%nat
  | IntoInts next more => 0 <= more ∧ (0 < more → i64_min <= next ∧ next + more - 1 <= i64_max)
  end.

Lemma sub_step (A : Type) (l : list A) s e x :
  (s < e)%nat → l !! s = Some x → sub s (e - s) l = x :: sub (S s) (e - S s) l.
Proof.
  intros Hlt Hx. unfold sub. rewrite (drop_S _ _ _ Hx). replace (e - s)%nat with (S (e - S s)) by lia.
  done.
Qed.

Lemma into_next_spec it :
  into_ok it →
  match into_next it with
  | Some (x, it') => into_items it = x :: into_items it' ∧ into_ok it' ∧
                     into_size_hint it' = into_size_hint it - 1
  | None => into_items it = []
  end.
Proof.
  intros Hok. destruct it as [buf next end_|buf next end_|tree next end_ [|x leaf]|next more].
  1, 2: cbn -[sub] in *; case_decide; [subst; by rewrite Nat.sub_diag|];
    destruct (buf !! next) as [x|] eqn:Hx; [|apply lookup_ge_None in Hx; lia]; cbn;
    (split; [by apply sub_step; [lia|]|]); lia.
  - cbn -[sub] in *. unfold next_of_long. case_decide; [subst; by rewrite Nat.sub_diag|].
    pose proof (law_chunk tree next) as Hch. destruct (vec_chunk_at tree next) as [[from to] leaf].
    destruct Hch as (H1 & H2 & H3 & ->); [lia|].
    remember (to `min` end_)%nat as upto eqn:Hu.
    assert (Hleaf : sub (next - from) (upto - from - (next - from))
                      (take (to - from) (drop from (vec_items tree))) =
                    sub next (upto - next) (vec_items tree)).
    { change (take (to - from) (drop from (vec_items tree))) with (sub from (to - from) (vec_items tree)).
      rewrite sub_sub by lia. f_equal; lia. }
    rewrite Hleaf. rewrite law_len in *.
    assert (Hsplit : sub next (end_ - next) (vec_items tree) =
      sub next (upto - next) (vec_items tree) ++ sub upto (end_ - upto) (vec_items tree)).
    { apply list_eq. intros i. rewrite lookup_sub, lookup_app, !lookup_sub, length_sub by lia.
      repeat case_decide; try lia; try done.
      3: by replace (upto + (i - (upto - next)))%nat with (next + i)%nat by lia.
      all: destruct (vec_items tree !! (next + i)%nat) eqn:Hl; [done|].
      all: apply lookup_ge_None in Hl; lia. }
    pose proof (length_sub next (upto - next) (vec_items tree)) as Hlen.
    destruct (sub next (upto - next) (vec_items tree)) as [|x leaf]; cbn in *; [lia|].
    split; [by rewrite Hsplit|]. rewrite law_len. split; lia.
  - cbn in *. split; [done|]. split; [done|]. lia.
  - pose proof (iter_next_spec (ItInts next more : Iter X) Hok) as Hn. cbn in *.
    destruct (Z.leb_spec 1 more); [|done]. by destruct Hn as (? & ? & ?).
Qed.

Lemma into_iter_ok (l : List) : list_ok l → into_ok (into_iter l) ∧ into_items (into_iter l) = elems l.
Proof.
  intros Hok. destruct l as [buf s n|[items tr|t] s n|lo hi]; cbn in *.
  - split; [lia|]. f_equal. lia.
  - split; [lia|]. f_equal. lia.
  - split; [lia|]. f_equal. lia.
  - destruct Hok as (H1 & H2 & H3 & H4). rewrite abs_diff_le by done. split; [lia|done].
Qed.

(** [n] values of an owning iterator. *)
Fixpoint into_take (n : nat) (it : IntoIter X T) : list V :=
  match n with
  | 0%nat => []
  | S n => match into_next it with Some (x, it') => x :: into_take n it' | None => [] end
  end.

Lemma into_take_spec n it : into_ok it → into_take n it = take n (into_items it).
Proof.
  revert it. induction n as [|n IH]; intros it Hok; [done|]. cbn.
  pose proof (into_next_spec it Hok) as Hn. destruct (into_next it) as [[x it']|].
  - destruct Hn as (-> & Hok' & _). cbn. by rewrite IH.
  - by rewrite Hn.
Qed.

End iterators.

(** ** Questions *)
Section questions.
Context {X T : Type} `{VL : VectorLaws (Value X) T}.
Notation V := (Value X).
Notation List := (List X T).
Implicit Types (l : List).
Context (eqv : V → V → bool) (cmp : V → V → comparison).

(** Two Ints are equal, and ordered, as numbers; an Int is equal to
    nothing else. *)
Class IntEq : Prop := {
  eqv_int a b : eqv (Int a) (Int b) = (a =? b);
  eqv_else a x : eqv (Int a) (Else x) = false;
  cmp_int a b : cmp (Int a) (Int b) = (a ?= b);
}.

Lemma elements_held l : list_ok l → range_ends l = None → elements l = Held (runs l) ∧ flatten (runs l) = elems l.
Proof.
  intros Hok Hr. destruct (runs_spec l Hok Hr) as [H1 <-]. rewrite flatten_spec by done.
  by destruct l.
Qed.

Lemma sort_range lo n : IntEq → sort cmp (Int <$> seqZ lo n) = Int <$> seqZ lo n.
Proof.
  intros HI. destruct (decide (0 <= n)) as [Hn|]; [|by rewrite seqZ_nil by lia].
  revert lo. pattern n. apply natlike_ind; [..|done]; clear n Hn.
  - intros lo. by rewrite seqZ_nil.
  - intros n Hn IH lo. rewrite seqZ_cons, Z.pred_succ by lia. unfold sort in *. cbn. rewrite IH.
    destruct (decide (n = 0)) as [->|]; [by rewrite seqZ_nil|].
    rewrite (seqZ_cons (Z.succ lo)) by lia. cbn. rewrite cmp_int.
    by destruct (Z.compare_spec lo (Z.succ lo)); [..|lia].
Qed.

Lemma unique_range seen lo n :
  IntEq → Forall (λ y, ∃ m, y = Int m ∧ m < lo) seen →
  unique_from cmp seen (Int <$> seqZ lo n) = Int <$> seqZ lo n.
Proof.
  intros HI. destruct (decide (0 <= n)) as [Hn|]; [|by rewrite seqZ_nil by lia].
  revert lo seen. pattern n. apply natlike_ind; [..|done]; clear n Hn.
  - intros lo seen _. by rewrite seqZ_nil.
  - intros n Hn IH lo seen Hseen. rewrite seqZ_cons, Z.pred_succ by lia. cbn.
    destruct (existsb _ seen) eqn:Hex.
    + apply existsb_exists in Hex as (y & Hy%list_elem_of_In & Hc). rewrite Forall_forall in Hseen.
      destruct (Hseen y Hy) as (m & -> & Hm). rewrite cmp_int in Hc.
      destruct (Z.compare_spec lo m); [lia|done|done].
    + f_equal. apply IH. constructor; [eexists; split; [done|lia]|].
      eapply Forall_impl; [exact Hseen|]. intros y (m & -> & Hm). eexists. split; [done|lia].
Qed.

Lemma ascending_range lo n :
  0 <= n → i64_min <= lo → lo + n <= i64_max →
  ascending_from lo (Int <$> seqZ (lo + 1) n : list V) = Some (lo + n).
Proof.
  intros Hn. revert lo. pattern n. apply natlike_ind; [..|done]; clear n Hn.
  - intros lo _ _. rewrite seqZ_nil by lia. cbn. f_equal. lia.
  - intros n Hn IH lo H1 H2. rewrite seqZ_cons, Z.pred_succ by lia. cbn.
    rewrite decide_True by (unfold checked_add; rewrite checked_in; [done|lia]).
    replace (Z.succ (lo + 1)) with ((lo + 1) + 1) by lia. rewrite IH by lia. f_equal. lia.
Qed.

Lemma position_range lo hi v :
  IntEq →
  (match v with
   | Int n => if (lo <=? n) && (n <=? hi) then Some (abs_diff n lo) else None
   | Else _ => None
   end : option Z) =
  (λ p, Z.of_nat p.1) <$> list_find (λ item, eqv item v = true) (Int <$> seqZ lo (hi - lo + 1)).
Proof.
  intros HI.
  assert (Hnone : (∀ m, lo <= m <= hi → eqv (Int m) v = false) →
    list_find (λ item, eqv item v = true) (Int <$> seqZ lo (hi - lo + 1)) = None).
  { intros Hf. apply list_find_None, Forall_fmap, Forall_forall. intros m Hm%elem_of_seqZ.
    cbn. rewrite Hf by lia. done. }
  destruct v as [n|x]; [|rewrite Hnone; [done|]; intros; apply eqv_else].
  destruct (_ && _) eqn:Hin.
  - apply andb_true_iff in Hin as [H1%Z.leb_le H2%Z.leb_le]. rewrite abs_diff_le by lia.
    assert (Hf : list_find (λ item, eqv item (Int n) = true) (Int <$> seqZ lo (hi - lo + 1)) =
      Some (Z.to_nat (n - lo), Int n)).
    { apply list_find_Some. split_and!.
      - rewrite lookup_ints, decide_True by lia. do 2 f_equal. lia.
      - rewrite eqv_int. lia.
      - intros j y Hj Hlt. rewrite lookup_ints in Hj. case_decide; simplify_eq.
        rewrite eqv_int, Z.eqb_eq. lia. }
    rewrite Hf. cbn. f_equal. lia.
  - rewrite Hnone; [done|]. intros m Hm. rewrite eqv_int. apply Z.eqb_neq. intros <-.
    apply andb_false_iff in Hin. rewrite !Z.leb_gt in Hin. lia.
Qed.

(** Sorting keeps the elements and puts them in order. *)
Lemma insert_sorted_perm x items : insert_sorted cmp x items ≡ₚ x :: items.
Proof.
  induction items as [|y items IH]; cbn; [done|]. destruct (cmp x y); try done. rewrite IH. by constructor.
Qed.

Lemma sort_perm items : sort cmp items ≡ₚ items.
Proof.
  unfold sort. induction items as [|x items IH]; cbn; [done|]. by rewrite insert_sorted_perm, IH.
Qed.

Definition in_order (x y : V) : Prop := cmp x y ≠ Gt.

Lemma insert_sorted_sorted x items :
  (∀ x y, cmp x y = Gt → in_order y x) →
  Sorted in_order items → Sorted in_order (insert_sorted cmp x items).
Proof.
  intros Htot Hs. induction Hs as [|y items Hs IH Hhd]; cbn; [by repeat constructor|].
  destruct (cmp x y) eqn:Hc; try (constructor; [by constructor|constructor; unfold in_order; congruence]).
  constructor; [done|]. destruct items as [|z items]; cbn; [constructor; by apply Htot|].
  destruct (cmp x z); constructor; try by apply Htot. by inv Hhd.
Qed.

Lemma sort_sorted items : (∀ x y, cmp x y = Gt → in_order y x) → Sorted in_order (sort cmp items).
Proof.
  intros Htot. unfold sort. induction items as [|x items IH]; cbn; [constructor|].
  by apply insert_sorted_sorted.
Qed.

End questions.

(** ** A vector that keeps the laws: leaves of at most 64 elements. *)
Section plain.
Context {A : Type}.

Fixpoint leaves_of (fuel : nat) (l : list A) : list (list A) :=
  match fuel, l with
  | S fuel, _ :: _ => take 64 l :: leaves_of fuel (drop 64 l)
  | _, _ => []
  end.

#[local] Instance plain_vector : Vector A (list A) := {
  vec_of l := l;
  vec_items l := l;
  vec_len := length;
  vec_index l i := l !! i;
  vec_leaves l := leaves_of (length l) l;
  vec_chunk_at l i :=
    let from := (i / 64 * 64)%nat in
    let to := ((from + 64) `min` length l)%nat in (from, to, sub from (to - from) l);
  vec_push_front x l := x :: l;
  vec_push_back l x := l ++ [x];
  vec_set l i x := <[i := x]> l;
  vec_remove l i := take i l ++ drop (S i) l;
  vec_skip l n := drop n l;
  vec_truncate l n := take n l;
  vec_append l l' := l ++ l';
}.

Lemma concat_leaves fuel (l : list A) : (length l <= fuel)%nat → concat (leaves_of fuel l) = l.
Proof.
  revert l. induction fuel as [|fuel IH]; intros l Hle; cbn.
  - destruct l; [done|cbn in Hle; lia].
  - destruct l as [|x l]; [done|]. cbn [concat]. rewrite IH; [apply (take_drop 64 (x :: l))|].
    rewrite length_drop. cbn in *. lia.
Qed.

#[local] Instance plain_laws : VectorLaws A (list A).
Proof.
  split; try done.
  - intros l. by apply concat_leaves.
  - intros l i Hi. cbn -[Nat.div Nat.mul Nat.min Nat.add]. pose proof (Nat.Div0.mul_div_le i 64).
    pose proof (Nat.mul_succ_div_gt i 64). cbn in Hi. split_and!; [lia..|done].
Qed.

End plain.
#[local] Existing Instances plain_vector plain_laws.

(** ** The claims *)
Section claims.
Context {X T : Type} `{VL : VectorLaws (Value X) T}.
Notation V := (Value X).
Notation List := (List X T).
Implicit Types (l : List).

(** Every read of a list is that of the plain list of its elements,
    however it is stored: its length, its elements by index (past the end
    there is none; a range's index may be larger than any Int), what an
    iterator gives from either end in any order, what an owning iterator
    gives, and the runs of a list that holds its elements. *)
Theorem list_reads l :
  list_ok l →
  list_len l = Z.of_nat (length (elems l)) ∧
  (∀ index, 0 <= index → get l index = elems l !! Z.to_nat index) ∧
  first l = head (elems l) ∧ last_item l = last (elems l) ∧
  (∀ ends, take_ends (iter l) ends = list_ends (elems l) ends) ∧
  (∀ n, into_take n (into_iter l) = take n (elems l)) ∧
  (range_ends l = None → flatten (runs l) = elems l).
Proof.
  intros Hok. pose proof (list_len_elems l Hok) as Hlen. split_and!.
  - done.
  - intros index. by apply get_elems.
  - unfold first. rewrite get_elems by (done || lia). by destruct (elems l).
  - unfold last_item. rewrite last_lookup. destruct (Z.leb_spec 1 (list_len l)).
    + rewrite get_elems by (done || lia). f_equal. lia.
    + by destruct (elems l); cbn in *; [|lia].
  - intros ends. destruct (iter_spec l Hok) as [H1 <-]. by apply take_ends_spec.
  - intros n. destruct (into_iter_ok l Hok) as [H1 <-]. by apply into_take_spec.
  - intros Hr. by apply elements_held.
Qed.

(** A slice is the part of the elements between the two bounds, each
    cut to the end of the list, and it keeps the storage invariant: it
    never holds on to more than four times (and three) its elements,
    whatever it is a part of. *)
Theorem list_slice l from to :
  list_ok l → 0 <= from → 0 <= to →
  list_ok (slice l from to) ∧
  elems (slice l from to) = take (Z.to_nat to - Z.to_nat from) (drop (Z.to_nat from) (elems l)) ∧
  (storage (slice l from to) <= 4 * length (elems (slice l from to)) + 3)%nat.
Proof.
  intros Hok Hf Ht. destruct (slice_spec l from to Hok Hf Ht) as [Hok' He].
  split; [done|]. split; [done|]. clear He.
  pose proof (list_len_elems _ Hok') as Hlen.
  destruct (slice l from to) as [buf s n|long s n|lo hi]; cbn [storage list_len] in *.
  - destruct Hok' as (_ & _ & Hq). pose proof (Nat.div_mod_eq (length buf) 4).
    pose proof (Nat.mod_upper_bound (length buf) 4). lia.
  - destruct Hok' as (_ & Hq & _). pose proof (Nat.div_mod_eq (long_len long) 4).
    pose proof (Nat.mod_upper_bound (long_len long) 4). lia.
  - lia.
Qed.

(** C18. The changes of a list are those of the plain list of its
    elements: joined to another list, with an element more at either end,
    with one in place of another and without one.  They fail only for a
    range too long to be written out, a change at an index past the end
    makes no list, and every list they make keeps the storage invariant. *)
Theorem list_changes l other v index :
  list_ok l → list_ok other → 0 <= index →
  match list_concat l other with
  | Ok r => list_ok r ∧ elems r = elems l ++ elems other
  | Err e => writable l = Err e ∨ writable other = Err e
  end ∧
  match push_front l v with
  | Ok r => list_ok r ∧ elems r = v :: elems l | Err e => writable l = Err e
  end ∧
  match push_back l v with
  | Ok r => list_ok r ∧ elems r = elems l ++ [v] | Err e => writable l = Err e
  end ∧
  match list_set l index v with
  | Ok (Some r) => list_ok r ∧ elems r = <[Z.to_nat index := v]> (elems l) ∧ index < list_len l
  | Ok None => list_len l <= index
  | Err e => writable l = Err e ∧ index < list_len l
  end ∧
  match remove_at l index with
  | Ok (Some r) => list_ok r ∧ index < list_len l ∧
      elems r = take (Z.to_nat index) (elems l) ++ drop (S (Z.to_nat index)) (elems l)
  | Ok None => list_len l <= index
  | Err e => writable l = Err e ∧ index < list_len l
  end.
Proof.
  intros Hok Hok' Hi. split_and!.
  - pose proof (concat_spec l other Hok Hok'). destruct (list_concat l other); naive_solver.
  - by apply push_front_spec.
  - by apply push_back_spec.
  - pose proof (set_spec l index v Hok Hi). repeat case_match; naive_solver.
  - pose proof (remove_at_spec l index Hok Hi). repeat case_match; naive_solver.
Qed.

(** The list of a range expression: empty when the ends are out of
    order, the Ints from the one to the other otherwise, without an
    element in memory, and refused only when there are more of them than
    a length counts; it can be written out exactly up to ten million
    elements. *)
Theorem list_ints lo hi :
  in_i64 lo = true → in_i64 hi = true →
  match ints lo hi with
  | Ok l => list_ok l ∧ elems l = (Int <$> seqZ lo (hi - lo + 1) : list V) ∧ storage l = 0%nat ∧
            (writable l = Ok tt ↔ list_len l <= MAX_COLLECTION_LEN)
  | Err e => hi - lo + 1 = usize_max + 1 ∧ e = mkTooLong lo hi MAX_LEN
  end.
Proof.
  rewrite !in_i64_spec. intros Hlo Hhi. unfold ints. destruct (Z.ltb_spec hi lo).
  { destruct list_new_spec as [H1 H2]. split; [done|]. rewrite H2. rewrite seqZ_nil by lia.
    split_and!; try done. }
  rewrite abs_diff_le by done. destruct (_ && _) eqn:Hc.
  - apply andb_true_iff in Hc as [_ Hc]. apply in_usize_spec in Hc. cbn. split; [lia|]. split; [done|].
    split; [done|]. rewrite abs_diff_le by done. unfold MAX_COLLECTION_LEN.
    destruct (Z.leb_spec 10000000 (hi - lo)); split; (done || lia).
  - split; [|done]. apply andb_false_iff in Hc. unfold in_usize in Hc.
    rewrite !andb_false_iff, !Z.leb_gt in Hc. unfold i64_min, i64_max, usize_max in *. lia.
Qed.

(** The sum of a range is exact, though it is computed from its two
    ends: it is the sum of the elements when that is an Int and an
    overflow otherwise.  And it tells nothing of the storage: a range
    that can be written out has the sum its written-out list has. *)
Theorem sum_of_range lo hi :
  list_ok (Ints lo hi : List) →
  sum_ints (Ints lo hi : List) =
    (let s := sumZ (seqZ lo (hi - lo + 1)) in if in_i64 s then Total s else Overflow) ∧
  (∀ items, to_vec (Ints lo hi : List) = Ok items →
     sum_ints (from_vec items : List) = sum_ints (Ints lo hi : List)).
Proof.
  intros Hok. pose proof Hok as (H1 & H2 & H3 & H4). cbn zeta.
  assert (Hs : sum_ints (Ints lo hi : List) =
    if in_i64 (sumZ (seqZ lo (hi - lo + 1))) then Total (sumZ (seqZ lo (hi - lo + 1))) else Overflow).
  { unfold sum_ints. cbn -[Z.quot seqZ]. by apply sum_ends. }
  split; [done|]. intros items. rewrite to_vec_spec by done. cbn [writable].
  destruct (Z.leb_spec MAX_COLLECTION_LEN (abs_diff hi lo)) as [|Hlt]; [done|]. intros Hit.
  assert (Heq : items = elems (Ints lo hi : List)) by congruence. clear Hit.
  destruct (from_vec_spec (X:=X) (T:=T) items) as [Hok' He].
  rewrite Hs. unfold sum_ints. destruct (elements_held (from_vec items) Hok') as [-> ->].
  { unfold from_vec. by case_decide. }
  rewrite He, Heq. rewrite abs_diff_le in Hlt by done. cbn [elems]. apply sum_held_range; lia.
Qed.

(** The product of a range: the loop ends within 66 rounds however
    long the range is, and gives what the loop over the written-out list
    gives; a total is the product of the elements. *)
Theorem product_of_range lo hi :
  list_ok (Ints lo hi : List) →
  ∃ r, product_ints (Ints lo hi : List) = Some r ∧
    r = product_held (Some 1) (elems (Ints lo hi : List)) ∧
    (∀ t, r = Total t → t = productZ (seqZ lo (hi - lo + 1))).
Proof.
  intros (H1 & H2 & H3 & H4).
  assert (Hr : ∃ r, product_ints (Ints lo hi : List) = Some r ∧
    r = product_held (Some 1) (elems (Ints lo hi : List))).
  { unfold product_ints. cbn -[product_range seqZ product_held].
    destruct (_ && _) eqn:Hz.
    - apply andb_true_iff in Hz as [Hz1%Z.leb_le Hz2%Z.leb_le]. eexists. split; [done|].
      symmetry. apply product_held_zero. rewrite elem_of_seqZ. lia.
    - assert (Hnz : ¬ (lo <= 0 <= hi)).
      { apply andb_false_iff in Hz. rewrite !Z.leb_gt in Hz. lia. }
      destruct (product_range_total lo hi Hnz) as [r Hr]. exists r. split; [done|].
      symmetry. by eapply product_range_held. }
  destruct Hr as (r & Hp & Hr). exists r. split; [done|]. split; [done|]. intros t ->.
  symmetry in Hr. apply product_held_total in Hr. lia.
Qed.

(** What a list is asked is answered as the plain list of its
    elements would answer it: where a value is first, whether it is
    there, the sorted list, the list without repetitions, and the ends of
    a list of successive Ints. *)
Theorem list_questions eqv cmp l v :
  IntEq (X:=X) eqv cmp → list_ok l →
  position eqv l v = (λ p, Z.of_nat p.1) <$> list_find (λ item, eqv item v = true) (elems l) ∧
  contains eqv l v = existsb (λ item, eqv item v) (elems l) ∧
  list_ok (sorted cmp l) ∧ elems (sorted cmp l) = sort cmp (elems l) ∧
  elems (sorted cmp l) ≡ₚ elems l ∧
  ((∀ x y, cmp x y = Gt → in_order cmp y x) → Sorted (in_order cmp) (elems (sorted cmp l))) ∧
  list_ok (unique cmp l) ∧ elems (unique cmp l) = unique_from cmp [] (elems l) ∧
  ascending_ints l =
    match elems l with Int lo :: items => hi ← ascending_from lo items; Some (lo, hi) | _ => None end.
Proof.
  intros HI Hok.
  assert (Hpos : position eqv l v =
    (λ p, Z.of_nat p.1) <$> list_find (λ item, eqv item v = true) (elems l)).
  { destruct (range_ends l) as [[lo hi]|] eqn:Hr.
    - destruct l; simplify_eq. unfold position. cbn -[seqZ]. by apply (position_range eqv cmp).
    - unfold position. by destruct (elements_held l Hok Hr) as [-> ->]. }
  assert (Hsort : list_ok (sorted cmp l) ∧ elems (sorted cmp l) = sort cmp (elems l)).
  { destruct (range_ends l) as [[lo hi]|] eqn:Hr.
    - destruct l; simplify_eq. unfold sorted. cbn -[seqZ]. split; [done|]. symmetry.
      by apply (sort_range eqv cmp).
    - unfold sorted. destruct (elements_held l Hok Hr) as [-> ->]. apply from_vec_spec. }
  destruct Hsort as [Hs1 Hs2].
  split; [done|]. split.
  { unfold contains. rewrite Hpos. clear Hpos Hs1 Hs2.
    destruct (list_find _ (elems l)) as [[i x]|] eqn:Hf; cbn; symmetry.
    - apply list_find_Some in Hf as (Hl & He & _). apply existsb_exists. exists x.
      split; [by eapply list_elem_of_In, list_elem_of_lookup_2|done].
    - apply list_find_None in Hf. apply not_true_iff_false. rewrite existsb_exists.
      intros (x & Hx%list_elem_of_In & He). rewrite Forall_forall in Hf. by apply (Hf x). }
  split; [done|]. split; [done|]. rewrite Hs2. split; [apply sort_perm|].
  split; [by apply sort_sorted|].
  destruct (range_ends l) as [[lo hi]|] eqn:Hr.
  - destruct l as [| |lo' hi']; simplify_eq. injection Hr as -> ->.
    unfold unique, ascending_ints. cbn -[seqZ] in *. split; [done|].
    split; [symmetry; by apply (unique_range eqv cmp)|]. destruct Hok as (H1 & H2 & H3 & H4).
    rewrite (seqZ_cons lo) by lia. cbn -[seqZ]. replace (Z.succ lo) with (lo + 1) by lia.
    replace (Z.pred (hi - lo + 1)) with (hi - lo) by lia. rewrite ascending_range by lia. cbn.
    do 2 f_equal. lia.
  - unfold unique, ascending_ints. destruct (elements_held l Hok Hr) as [-> ->].
    destruct (from_vec_spec (X:=X) (T:=T) (unique_from cmp [] (elems l))). done.
Qed.

End claims.

(** ** On concrete lists *)
Module Lists.
Definition L := List Empty_set (list (Value Empty_set)).
Definition short : L := from_vec [Int 3; Int 1; Int 2].
Definition long : L := from_vec (Int <$> seqZ 0 100).
Definition range : L := Ints (-2) 2.
Definition eqv (a b : Value Empty_set) : bool :=
  match a, b with Int m, Int n => m =? n | _, _ => false end.
Definition cmp (a b : Value Empty_set) : comparison :=
  match a, b with Int m, Int n => m ?= n | _, _ => Eq end.

Lemma short_ok : list_ok short.
Proof. apply from_vec_spec. Qed.
Lemma long_ok : list_ok long.
Proof. apply from_vec_spec. Qed.
Lemma range_ok : list_ok range.
Proof. unfold range, list_ok, i64_min, i64_max, usize_max. lia. Qed.
Lemma int_eq : IntEq eqv cmp.
Proof. split; [done..|]. by intros a x. Qed.
End Lists.

(** A list that holds its elements is added up in order, and what
    counts as an overflow is a partial sum: the three elements here have
    a sum that is an Int, and the answer is an overflow. *)
Theorem sum_in_order_overflows :
  let l : Lists.L := from_vec [Int i64_max; Int 1; Int (-1)] in
  sum_ints l = Overflow ∧ in_i64 (sumZ [i64_max; 1; -1]) = true.
Proof. split; vm_compute; reflexivity. Qed.

Lemma list_reads_witness :
  list_len Lists.range = Z.of_nat (length (elems Lists.range)) ∧
  get Lists.range 4 = elems Lists.range !! 4%nat ∧
  take_ends (iter Lists.range) [true; false; true] = list_ends (elems Lists.range) [true; false; true].
Proof.
  destruct (list_reads Lists.range Lists.range_ok) as (H1 & H2 & _ & _ & H3 & _).
  split; [exact H1|]. split; [apply (H2 4); lia|exact (H3 [true; false; true])].
Defined.

Lemma list_slice_witness :
  elems (slice Lists.long 10 12) = [Int 10; Int 11] ∧
  list_ok (slice Lists.long 10 12) ∧
  elems (slice Lists.long 10 12) = take (12 - 10) (drop 10 (elems Lists.long)) ∧
  (storage (slice Lists.long 10 12) <= 4 * length (elems (slice Lists.long 10 12)) + 3)%nat.
Proof.
  split; [vm_compute; reflexivity|].
  apply (list_slice Lists.long 10 12 Lists.long_ok); lia.
Defined.

Lemma list_changes_witness :
  match list_concat Lists.long Lists.short with
  | Ok r => list_ok r ∧ elems r = elems Lists.long ++ elems Lists.short
  | Err e => writable Lists.long = Err e ∨ writable Lists.short = Err e
  end.
Proof.
  assert (Hi : 0 <= 3) by lia.
  destruct (list_changes Lists.long Lists.short (Int 5) 3 Lists.long_ok Lists.short_ok Hi) as [Hp _].
  exact Hp.
Defined.

Lemma list_ints_witness :
  ints (X:=Empty_set) (T:=list (Value Empty_set)) i64_min i64_max = Err (mkTooLong i64_min i64_max MAX_LEN) ∧
  i64_max - i64_min + 1 = usize_max + 1 ∧
  mkTooLong i64_min i64_max MAX_LEN = mkTooLong i64_min i64_max MAX_LEN.
Proof.
  pose proof (list_ints (X:=Empty_set) (T:=list (Value Empty_set)) i64_min i64_max eq_refl eq_refl) as Hp.
  assert (He : ints (X:=Empty_set) (T:=list (Value Empty_set)) i64_min i64_max =
    Err (mkTooLong i64_min i64_max MAX_LEN)) by (vm_compute; reflexivity).
  rewrite He in Hp. split; [exact He|exact Hp].
Defined.

Lemma sum_of_range_witness :
  sum_ints (Lists.range) = Total 0 ∧
  ∀ items, to_vec Lists.range = Ok items →
    sum_ints (from_vec items : Lists.L) = sum_ints Lists.range.
Proof.
  split; [vm_compute; reflexivity|].
  apply (sum_of_range (X:=Empty_set) (T:=list (Value Empty_set)) (-2) 2). exact Lists.range_ok.
Defined.

Lemma product_of_range_witness :
  product_ints (Ints 1 5 : Lists.L) = Some (Total 120) ∧
  ∃ r, product_ints (Ints 1 5 : Lists.L) = Some r ∧
    r = product_held (Some 1) (elems (Ints 1 5 : Lists.L)) ∧
    (∀ t, r = Total t → t = productZ (seqZ 1 (5 - 1 + 1))).
Proof.
  split; [vm_compute; reflexivity|].
  apply (product_of_range (X:=Empty_set) (T:=list (Value Empty_set)) 1 5).
  unfold list_ok, i64_min, i64_max, usize_max. lia.
Defined.

Lemma list_questions_witness :
  position Lists.eqv Lists.short (Int 2) = Some 2 ∧
  elems (sorted Lists.cmp Lists.short) = [Int 1; Int 2; Int 3] ∧
  elems (sorted Lists.cmp Lists.short) = sort Lists.cmp (elems Lists.short).
Proof.
  split; [vm_compute; reflexivity|]. split; [vm_compute; reflexivity|].
  apply (list_questions Lists.eqv Lists.cmp Lists.short (Int 2) Lists.int_eq Lists.short_ok).
Defined.
