(* ===== verification/Exhaustive.v ===== *)
(** * Which values a set of patterns matches
      (src/typechecker/exhaustiveness.rs)

    The matrix algorithm on lowered patterns: the search for a row of
    values that no row of patterns matches, with its two bounds. *)

From S2P Require Import Prelude Int64.

#[local] Open Scope nat_scope.

(** A name ([Symbol]) and an enum ([TypeRef]) are numbers. *)
Inductive CtorId :=
  | CTuple
  | CRecord (names : list nat)
  | CVariant (enum_ty i : nat)
  | CBool (b : bool)
  | CNil
  | CCons.

#[global] Instance CtorId_eq_dec : EqDecision CtorId.
Proof. solve_decision. Defined.

Inductive Pat :=
  | Wild
  | Ctor (id : CtorId) (args : list Pat)
  | Or (alts : list Pat)
  | Lit
  | IntRange (lo hi : Z).

Inductive Witness :=
  | WAny
  | WCtor (id : CtorId) (fields : list Witness)
  | WInt (n : Z).

(** [Witness::says_something]. *)
Fixpoint says_something (w : Witness) : bool :=
  match w with
  | WAny => false
  | WInt _ => true
  | WCtor CTuple fields | WCtor (CRecord _) fields => existsb says_something fields
  | WCtor _ _ => true
  end.

Definition MAX_CELLS : N := 32000000.
Definition MAX_DEPTH : nat := 1000.

(** [Pat::list], [Pat::nil]. *)
Definition pat_list (elems : list Pat) (tail : Pat) : Pat :=
  if decide (MAX_DEPTH < length elems) then Lit
  else foldr (λ elem tail, Ctor CCons [elem; tail]) tail elems.
Definition pat_nil : Pat := Ctor CNil [].

(** Where a pattern is: the static [WILD], one of the patterns the search
    is asked about, or a part of a pattern. A row holds references; the
    search compares them by address ([std::ptr::eq]) in one place. *)
Inductive Addr :=
  | AWild
  | ARoot (i : nat)
  | APart (a : Addr) (j : nat).
#[global] Instance Addr_eq_dec : EqDecision Addr.
Proof. solve_decision. Defined.

Record Ref := At { addr : Addr; pat : Pat }.
Definition WILD : Ref := At AWild Wild.

(** The patterns given, as references; [args.get(i)] of one that is a
    constructor at [a]. *)
Definition refs (pats : list Pat) : list Ref := imap (λ i p, At (ARoot i) p) pats.
Definition get_part (a : Addr) (args : list Pat) (i : nat) : option Ref :=
  At (APart a i) <$> args !! i.

(** A row of the matrix. *)
Abbreviation Row := (list Ref).

(** An enum: the name and the number of fields of each variant, in the
    order of the declaration. *)
Abbreviation EnumInfo := (list (nat * nat)).
Abbreviation Enums := (gmap nat EnumInfo).

(** [distinct_variants]: the positions and the numbers of fields. *)
Fixpoint distinct_from (seen : list nat) (i : nat) (info : EnumInfo) : list (nat * nat) :=
  match info with
  | [] => []
  | (name, arity) :: rest =>
      if decide (name ∈ seen) then distinct_from seen (S i) rest
      else (i, arity) :: distinct_from (name :: seen) (S i) rest
  end.
Definition distinct_variants (info : EnumInfo) : list (nat * nat) := distinct_from [] 0 info.

(** What a search gives, or [Unverified]. *)
Inductive Found :=
  | Unverified
  | Covered
  | Missing (row : list Witness).

Definition found_map (f : list Witness → list Witness) (r : Found) : Found :=
  match r with Missing row => Missing (f row) | r => r end.

(** [covers_nothing]. *)
Definition covers_nothing (p : Pat) : bool :=
  match p with
  | Lit => true
  | IntRange lo hi => (hi <? lo)%Z
  | Or alts => match alts with [] => true | _ => false end
  | Wild | Ctor _ _ => false
  end.

Definition is_wild (p : Pat) : bool := match p with Wild => true | _ => false end.

(** The first pattern of a row, and the others. *)
Definition row_ref (row : Row) : Ref := default WILD (head row).
Definition row_first (row : Row) : Pat := pat (row_ref row).

(** [row.swap(0, column)]. *)
Definition swap0 {A} (c : nat) (l : list A) : list A :=
  match l !! 0, l !! c with
  | Some a, Some b => <[0 := b]> (<[c := a]> l)
  | _, _ => l
  end.

(** [expand_or] of the first pattern, of a row, of the rows. *)
Fixpoint alternatives (a : Addr) (p : Pat) : list Ref :=
  match p with
  | Or alts =>
      (fix each (j : nat) (alts : list Pat) : list Ref :=
         match alts with
         | [] => []
         | alt :: alts' => alternatives (APart a j) alt ++ each (S j) alts'
         end) 0 alts
  | _ => [At a p]
  end.
Definition expand_or (row : Row) : list Row :=
  (λ r, r :: tail row) <$> alternatives (addr (row_ref row)) (row_first row).

(** [default_rows]. *)
Definition default_rows (rows : list Row) : list Row :=
  tail <$> filter (λ row, is_wild (row_first row) = true) rows.

(** [specialize]: the fields of a row's first pattern at a constructor. *)
Definition specialize_row (ctor : CtorId) (arity : nat) (row : Row) : option Row :=
  let a := addr (row_ref row) in
  match row_first row with
  | Wild => Some (replicate arity WILD ++ tail row)
  | Ctor (CRecord names) args =>
      match ctor with
      | CRecord all =>
          Some (((λ name, default WILD (i ← fst <$> list_find (λ n, n = name) names; get_part a args i))
                 <$> all) ++ tail row)
      | _ => None
      end
  | Ctor id args =>
      if decide (id = ctor)
      then Some (((λ i, default WILD (get_part a args i)) <$> seq 0 arity) ++ tail row)
      else None
  | _ => None
  end.
Definition specialize (rows : list Row) (ctor : CtorId) (arity : nat) : list Row :=
  omap (specialize_row ctor arity) rows.

(** The names of the fields that any row of the first column gives. *)
Definition add_name (names : list nat) (name : nat) : list nat :=
  if decide (name ∈ names) then names else names ++ [name].
Definition column_names (rows : list Row) : list nat :=
  foldl (λ names row,
    match row_first row with
    | Ctor (CRecord row_names) _ => foldl add_name names row_names
    | _ => names
    end) [] rows.

(** The largest number of parts of a tuple of the first column. *)
Definition tuple_arity (rows : list Row) : nat :=
  foldr (λ row n, match row_first row with Ctor CTuple args => length args `max` n | _ => n end) 0 rows.

(** [Search::signature]. *)
Definition signature (enums : Enums) (id : CtorId) (rows : list Row) : option (list (CtorId * nat)) :=
  match id with
  | CTuple => Some [(CTuple, tuple_arity rows)]
  | CRecord _ => Some [(CRecord (column_names rows), length (column_names rows))]
  | CVariant enum_ty _ =>
      info ← enums !! enum_ty;
      Some ((λ v, (CVariant enum_ty v.1, v.2)) <$> distinct_variants info)
  | CBool _ => Some [(CBool true, 0); (CBool false, 0)]
  | CNil | CCons => Some [(CNil, 0); (CCons, 2)]
  end.

(** *** The column of integers *)
#[local] Open Scope Z_scope.

Definition range_le (a b : Z * Z) : Prop := a.1 < b.1 ∨ a.1 = b.1 ∧ a.2 <= b.2.
#[global] Instance range_le_dec : RelDecision range_le.
Proof. intros a b. unfold range_le. apply _. Defined.

Definition range_of (row : Row) : option (Z * Z) :=
  match row_first row with
  | IntRange lo hi => if lo <=? hi then Some (lo, hi) else None
  | _ => None
  end.
Definition column_ranges (rows : list Row) : list (Z * Z) := merge_sort range_le (omap range_of rows).

(** The first integer not known to be in a range. *)
Fixpoint first_gap (next : Z) (ranges : list (Z * Z)) : Z :=
  match ranges with
  | [] => next
  | (lo, hi) :: ranges' => if next <? lo then next else first_gap (Z.max next (hi + 1)) ranges'
  end.

(** [outside]. *)
Definition step_up (up : Z) (r : Z * Z) : Z := if (r.1 <=? up) && (up <=? r.2) then r.2 + 1 else up.
Definition step_down (down : Z) (r : Z * Z) : Z :=
  if (r.1 <=? down) && (down <=? r.2) then r.1 - 1 else down.
Definition outside (ranges : list (Z * Z)) : Z :=
  let up := foldl step_up 0 ranges in
  if in_i64 up then up else as_i64 (foldl step_down (-1) (rev ranges)).

(** Sorted, each once. *)
Fixpoint dedup (l : list Z) : list Z :=
  match l with
  | x :: ((y :: _) as l') => if decide (x = y) then dedup l' else x :: dedup l'
  | _ => l
  end.
Definition cuts (ranges : list (Z * Z)) : list Z :=
  dedup (merge_sort Z.le (flat_map (λ r, [r.1; r.2 + 1]) ranges)).
Definition intervals (l : list Z) : list (Z * Z) :=
  zip_with (λ a b, (a, b - 1)) l (tail l).

Definition holds (row : Row) (from to : Z) : bool :=
  match row_first row with IntRange lo hi => (lo <=? from) && (to <=? hi) | _ => false end.
Definition kept_rows (rows : list Row) (from to : Z) : list Row :=
  tail <$> filter (λ row, is_wild (row_first row) || holds row from to = true) rows.

(** [0.clamp(from, to)]. *)
Definition clamp0 (from to : Z) : Z := Z.max from (Z.min 0 to).

#[local] Close Scope Z_scope.

(** *** The search *)
(** [same_rows]. *)
Fixpoint same_row (a b : Row) : bool :=
  match a, b with
  | [], [] => true
  | p :: a', q :: b' => bool_decide (addr p = addr q) && same_row a' b'
  | _, _ => false
  end.
Fixpoint same_rows (a b : list Row) : bool :=
  match a, b with
  | [], [] => true
  | x :: a', y :: b' => same_row x y && same_rows a' b'
  | _, _ => false
  end.

(** The cells so far, and what was found. *)
Abbreviation Out := (N * Found)%type.

Section search.
Variable enums : Enums.
(** The search one level deeper. *)
Variable deeper : N → list Row → nat → Out.

Definition untested (cells : N) (expanded : list Row) (width : nat) : Out :=
  let '(cells, r) := deeper cells (default_rows expanded) (width - 1) in
  (cells, found_map (cons WAny) r).

Fixpoint try_ctors (cells : N) (expanded : list Row) (width : nat) (covered : list (list Row))
    (sg : list (CtorId * nat)) : Out :=
  match sg with
  | [] => (cells, Covered)
  | (ctor, arity) :: sg' =>
      let rows := specialize expanded ctor arity in
      if existsb (λ done, same_rows done rows) covered
      then try_ctors cells expanded width covered sg'
      else
        match deeper cells rows (arity + width - 1) with
        | (cells, Unverified) => (cells, Unverified)
        | (cells, Missing fields) =>
            (cells, Missing (WCtor ctor (take arity fields) :: drop arity fields))
        | (cells, Covered) => try_ctors cells expanded width (covered ++ [rows]) sg'
        end
  end.

Fixpoint try_intervals (cells : N) (rows : list Row) (width : nat) (l : list (Z * Z)) : Out :=
  match l with
  | [] => (cells, Covered)
  | (from, to) :: l' =>
      match deeper cells (kept_rows rows from to) (width - 1) with
      | (cells, Unverified) => (cells, Unverified)
      | (cells, Missing rest) => (cells, Missing (WInt (as_i64 (clamp0 from to)) :: rest))
      | (cells, Covered) => try_intervals cells rows width l'
      end
  end.

(** [Search::uncovered_int_column]. *)
Definition uncovered_int_column (cells : N) (rows : list Row) (width : nat) : Out :=
  let ranges := column_ranges rows in
  if (first_gap i64_min ranges <? i64_max + 1)%Z
  then
    let '(cells, r) := deeper cells (default_rows rows) (width - 1) in
    (cells, found_map (cons (WInt (outside ranges))) r)
  else try_intervals cells rows width (intervals (cuts ranges)).

(** What the column tests: constructors, or integers. *)
Definition column_head (expanded : list Row) : option Pat :=
  let firsts := row_first <$> expanded in
  match list_find (λ p, match p with Ctor _ _ => true | _ => false end = true) firsts with
  | Some (_, p) => Some p
  | None => snd <$> list_find (λ p, match p with IntRange _ _ => true | _ => false end = true) firsts
  end.

Definition split_column (cells : N) (expanded : list Row) (width : nat) : Out :=
  match column_head expanded with
  | Some (Ctor id _) =>
      match signature enums id expanded with
      | None => untested cells expanded width
      | Some sg => try_ctors cells expanded width [] sg
      end
  | Some (IntRange _ _) => uncovered_int_column cells expanded width
  | _ => untested cells expanded width
  end.

End search.

(** The column to split by: the first one the first row tests. *)
Definition column_of (rows : list Row) : nat :=
  default 0 (fst <$> list_find (λ r, is_wild (pat r) = false) (default [] (head rows))).

(** [Search::uncovered]; [levels] is how many levels deeper it may go:
    [MAX_DEPTH + 1 - depth] of the source. *)
Fixpoint uncovered (enums : Enums) (levels : nat)
    (cells : N) (rows : list Row) (width : nat) : N * Found :=
  let rows := filter (λ row, existsb (λ r, covers_nothing (pat r)) row = false) rows in
  match rows with
  | [] => (cells, Missing (replicate width WAny))
  | _ =>
      if decide (width = 0) then (cells, Covered)
      else
        let cells := (cells + N.of_nat (length rows * width))%N in
        match levels with
        | 0 => (cells, Unverified)
        | S levels =>
            if (MAX_CELLS <? cells)%N then (cells, Unverified)
            else if existsb (forallb (λ r, is_wild (pat r))) rows then (cells, Covered)
            else
              let column := column_of rows in
              let expanded :=
                filter (λ row, covers_nothing (row_first row) = false)
                  (flat_map expand_or (swap0 column <$> rows)) in
              let '(cells, r) :=
                split_column enums (uncovered enums levels) cells expanded width in
              (cells, found_map (swap0 column) r)
        end
  end.

(** ** What the checker asks *)
Section checker.
Variable enums : Enums.

Definition one_column (pats : list Pat) : list Row := (λ r, [r]) <$> refs pats.

(** [TypeChecker::cover_together]: with the cells of the caller. *)
Definition cover_together (pats : list Pat) (cells : N) : N * option bool :=
  match uncovered enums (S MAX_DEPTH) cells (one_column pats) 1 with
  | (cells, Unverified) => (cells, None)
  | (cells, Covered) => (cells, Some true)
  | (cells, Missing _) => (cells, Some false)
  end.

(** [TypeChecker::irrefutable]. *)
Definition irrefutable (p : Pat) : option bool := (cover_together [p] 0).2.

(** [TypeChecker::uncovered_by]. *)
Definition uncovered_by (pats : list Pat) : option Witness :=
  match (uncovered enums (S MAX_DEPTH) 0 (one_column pats) 1).2 with
  | Missing row => last row
  | _ => None
  end.

(** [TypeChecker::stands_alone]. *)
Definition stands_alone (id : CtorId) : bool :=
  match id with
  | CTuple | CRecord _ => true
  | CVariant enum_ty _ =>
      match enums !! enum_ty with
      | Some info => bool_decide (length (distinct_variants info) = 1)
      | None => false
      end
  | CBool _ | CNil | CCons => false
  end.

(** [TypeChecker::uncovered_of_ctor]. *)
Definition uncovered_of_ctor (pats : list Pat) (ctor : CtorId) (arity : nat) :
    option (list Witness * bool) :=
  let rows := specialize (flat_map expand_or (one_column pats)) ctor arity in
  match (uncovered enums (S MAX_DEPTH) 0 rows arity).2 with
  | Missing fields => Some (fields, bool_decide (rows ≠ []))
  | _ => None
  end.

(** [TypeChecker::check_exhaustiveness]: an arm is whether it has a guard
    and its pattern; what is reported. *)
Inductive Report :=
  | NoReport
  | NonExhaustive (every_arm_guarded : bool)
  | TooLarge.

Definition unguarded (arms : list (bool * Pat)) : list Pat :=
  snd <$> filter (λ arm, arm.1 = false) arms.

Definition check_exhaustiveness (arms : list (bool * Pat)) (uninhabited : bool) : Report :=
  let rows := unguarded arms in
  if bool_decide (arms = []) && uninhabited then NoReport
  else
    match (cover_together rows 0).2 with
    | Some true => NoReport
    | Some false => NonExhaustive (negb (bool_decide (arms = [])) && bool_decide (rows = []))
    | None => TooLarge
    end.
End checker.
