(* ===== verification/ExhaustiveInts.v ===== *)
(** * The column of integers

    What the ranges of a column leave out and how they cut the integers:
    the lemmas on [first_gap], [outside], [cuts] and [intervals] of
    Exhaustive.v. *)

From S2P Require Import Prelude Int64 Exhaustive.

#[local] Open Scope Z_scope.

(** [n] is in the range, in one of the ranges. *)
Definition within (n : Z) (r : Z * Z) : Prop := r.1 <= n <= r.2.
Definition in_ranges (n : Z) (ranges : list (Z * Z)) : Prop := Exists (within n) ranges.

#[global] Instance within_dec n r : Decision (within n r).
Proof. unfold within. apply _. Defined.
#[global] Instance in_ranges_dec n ranges : Decision (in_ranges n ranges).
Proof. unfold in_ranges. apply _. Defined.

(** Sorted by the lower end. *)
Definition by_lo (a b : Z * Z) : Prop := a.1 <= b.1.

Lemma column_ranges_elem rows r :
  r ∈ column_ranges rows ↔ ∃ row, row ∈ rows ∧ row_first row = IntRange r.1 r.2 ∧ r.1 <= r.2.
Proof.
  unfold column_ranges. rewrite merge_sort_Permutation, list_elem_of_omap.
  unfold range_of. split.
  - intros (row & Hin & Hr). exists row. crush_match. split; [done|]. split; [done|]. by apply Z.leb_le.
  - intros (row & Hin & Hr & Hle). exists row. split; [done|]. rewrite Hr.
    apply Z.leb_le in Hle. rewrite Hle. by destruct r.
Qed.

#[global] Instance range_le_total : Total range_le.
Proof. intros [a b] [c d]. unfold range_le; simpl. lia. Qed.
#[global] Instance range_le_trans : Transitive range_le.
Proof. intros [a b] [c d] [e f]. unfold range_le; simpl. lia. Qed.

Lemma column_ranges_sorted rows : StronglySorted by_lo (column_ranges rows).
Proof.
  assert (Hs : StronglySorted range_le (column_ranges rows)) by apply (StronglySorted_merge_sort _ _).
  induction Hs as [|a l _ IH Hall]; constructor; [done|].
  eapply Forall_impl; [exact Hall|]. intros b. unfold range_le, by_lo. lia.
Qed.

(** ** The first integer left out *)

Lemma first_gap_covers ranges next n :
  next <= n < first_gap next ranges → in_ranges n ranges.
Proof.
  revert next. induction ranges as [|[lo hi] ranges IH]; intros next Hn; simpl in *; [lia|].
  destruct (next <? lo) eqn:Hlo; [lia|]. apply Z.ltb_ge in Hlo.
  destruct (decide (n <= hi)); [left; unfold within; simpl; lia|]. right. apply (IH (Z.max next (hi + 1))). lia.
Qed.

Lemma first_gap_ge ranges next : next <= first_gap next ranges.
Proof.
  revert next. induction ranges as [|[lo hi] ranges IH]; intros next; simpl; [lia|].
  case_match; [lia|]. specialize (IH (Z.max next (hi + 1))). lia.
Qed.

Lemma below_sorted n r ranges : n < r.1 → Forall (by_lo r) ranges → ¬ in_ranges n ranges.
Proof.
  intros Hn Hall Hex. apply Exists_exists in Hex as (x & Hin & Hx).
  rewrite Forall_forall in Hall. specialize (Hall _ Hin). unfold within, by_lo in *. lia.
Qed.

Lemma first_gap_outside ranges next :
  StronglySorted by_lo ranges → ¬ in_ranges (first_gap next ranges) ranges.
Proof.
  intros Hs. revert next. induction Hs as [|[lo hi] ranges _ IH Hall]; intros next; simpl.
  { intros Hex. by apply Exists_nil in Hex. }
  destruct (next <? lo) eqn:Hlo; intros Hex; apply Exists_cons in Hex as [Hw|Hex].
  - apply Z.ltb_lt in Hlo. unfold within in Hw. simpl in Hw. lia.
  - apply Z.ltb_lt in Hlo. by apply (below_sorted next (lo, hi) ranges).
  - unfold within in Hw. simpl in Hw. pose proof (first_gap_ge ranges (Z.max next (hi + 1))). lia.
  - by apply IH in Hex.
Qed.

(** ** The integer shown *)

Lemma step_up_spec ranges up :
  StronglySorted by_lo ranges →
  let up' := foldl step_up up ranges in
  up <= up' ∧ ¬ in_ranges up' ranges ∧ ∀ n, up <= n < up' → in_ranges n ranges.
Proof.
  intros Hs. revert up. induction Hs as [|r ranges Hs IH Hall]; intros up; simpl.
  { split_and!; [lia| |lia]. intros Hex. by apply Exists_nil in Hex. }
  destruct (IH (step_up up r)) as (Hle & Hout & Hcov). set (up' := foldl step_up (step_up up r) ranges) in *.
  assert (Hstep : up <= step_up up r ∧ (∀ n, up <= n < step_up up r → within n r)
                  ∧ (within up r → step_up up r = r.2 + 1) ∧ (¬ within up r → step_up up r = up)).
  { unfold step_up, within. destruct ((r.1 <=? up) && (up <=? r.2)) eqn:Hb; split_and!; intros; lia. }
  destruct Hstep as (Hs1 & Hs2 & Hs3 & Hs4). split_and!.
  - lia.
  - intros Hex. apply Exists_cons in Hex as [Hw|Hex]; [|done].
    destruct (decide (within up r)) as [Hu|Hu]; [specialize (Hs3 Hu); unfold within in *; lia|].
    specialize (Hs4 Hu). destruct (decide (up' = up)) as [Heq|Hne]; [by rewrite Heq in Hw|].
    apply (below_sorted up r ranges); [|done|apply Hcov; lia].
    unfold within in *. lia.
  - intros n Hn. destruct (decide (n < step_up up r)); [left; apply Hs2; lia|right; apply Hcov; lia].
Qed.

Lemma step_down_spec ranges down :
  StronglySorted by_lo ranges →
  let down' := foldr (λ r d, step_down d r) down ranges in
  down' <= down ∧ ¬ in_ranges down' ranges ∧ (∀ n, down' < n <= down → in_ranges n ranges).
Proof.
  intros Hs. induction Hs as [|r ranges Hs IH Hall]; simpl.
  { split_and!; [lia| |lia]. intros Hex. by apply Exists_nil in Hex. }
  destruct IH as (Hle & Hout & Hcov). set (d := foldr (λ r d, step_down d r) down ranges) in *.
  unfold step_down. destruct ((r.1 <=? d) && (d <=? r.2)) eqn:Hb.
  - assert (within d r) as Hw by (unfold within; lia). unfold within in Hw. split_and!; [lia| |].
    + intros Hex. apply Exists_cons in Hex as [Hx|Hex]; [unfold within in Hx; lia|].
      by apply (below_sorted (r.1 - 1) r ranges); [lia| |].
    + intros n Hn. destruct (decide (n <= d)); [left; unfold within; lia|right; apply Hcov; lia].
  - split_and!; [lia| |].
    + intros Hex. apply Exists_cons in Hex as [Hx|Hex]; [unfold within in Hx; lia|done].
    + intros n Hn. right. by apply Hcov.
Qed.

Lemma foldl_rev {A B} (f : B → A → B) (b : B) (l : list A) :
  foldl f b (rev l) = foldr (λ x y, f y x) b l.
Proof. induction l as [|x l IH]; [done|]. simpl. by rewrite foldl_app, IH. Qed.

Lemma outside_spec ranges gap :
  StronglySorted by_lo ranges → in_i64 gap = true → ¬ in_ranges gap ranges →
  in_i64 (outside ranges) = true ∧ ¬ in_ranges (outside ranges) ranges ∧
  (∀ n, in_i64 n = true → ¬ in_ranges n ranges →
     if decide (0 <= outside ranges) then n < 0 ∨ outside ranges <= n else n <= outside ranges).
Proof.
  intros Hs Hgap Hgout. apply in_i64_spec in Hgap. unfold outside.
  destruct (step_up_spec ranges 0 Hs) as (Hu1 & Hu2 & Hu3).
  set (up := foldl step_up 0 ranges) in *. destruct (in_i64 up) eqn:Hup.
  { split_and!; [done..|]. intros n Hn Hout. rewrite decide_True by lia.
    destruct (decide (n < 0 ∨ up <= n)); [done|]. exfalso. apply Hout, Hu3. lia. }
  apply in_i64_false in Hup. unfold i64_min, i64_max in *.
  assert (Hneg : ∀ n, in_i64 n = true → ¬ in_ranges n ranges → n <= -1).
  { intros n Hn Hout. apply in_i64_spec in Hn. unfold i64_min, i64_max in Hn.
    destruct (decide (n <= -1)); [done|]. exfalso. apply Hout, Hu3. lia. }
  destruct (step_down_spec ranges (-1) Hs) as (Hd1 & Hd2 & Hd3).
  rewrite foldl_rev.
  set (down := foldr (λ r d, step_down d r) (-1) ranges) in *. fold down in Hd1, Hd2, Hd3.
  assert (Hbelow : ∀ n, in_i64 n = true → ¬ in_ranges n ranges → n <= down).
  { intros n Hn Hout. specialize (Hneg n Hn Hout).
    destruct (decide (n <= down)); [done|]. exfalso. apply Hout, Hd3. lia. }
  assert (Hg : gap <= down) by (apply Hbelow; [apply in_i64_spec; unfold i64_min, i64_max; lia|done]).
  assert (Hid : as_i64 down = down) by (apply wrap_i64_id; unfold i64_min, i64_max; lia).
  rewrite Hid. split_and!; [apply in_i64_spec; unfold i64_min, i64_max; lia|done|].
  intros n Hn Hout. rewrite decide_False by lia. by apply Hbelow.
Qed.

(** ** The intervals no range divides *)

Lemma dedup_elem l x : x ∈ dedup l ↔ x ∈ l.
Proof.
  induction l as [|a l IH]; [done|]. destruct l as [|b l]; [done|].
  change (dedup (a :: b :: l)) with (if decide (a = b) then dedup (b :: l) else a :: dedup (b :: l)).
  case_decide; subst; set_solver.
Qed.

Lemma dedup_sorted l : StronglySorted Z.le l → StronglySorted Z.lt (dedup l).
Proof.
  induction 1 as [|a l Hs IH Hall]; [constructor|].
  destruct l as [|b l]; [repeat constructor|].
  change (dedup (a :: b :: l)) with (if decide (a = b) then dedup (b :: l) else a :: dedup (b :: l)).
  case_decide as Hab; [done|]. constructor; [done|].
  apply Forall_forall. intros x Hx. rewrite dedup_elem in Hx.
  apply Forall_cons in Hall as [Hab' _]. inversion Hs as [|? ? _ Hb]; subst.
  rewrite Forall_forall in Hb. apply elem_of_cons in Hx as [->|Hx]; [lia|]. specialize (Hb _ Hx). lia.
Qed.

Lemma cuts_sorted ranges : StronglySorted Z.lt (cuts ranges).
Proof. apply dedup_sorted, (StronglySorted_merge_sort _ _). Qed.

Lemma cuts_elem ranges r : r ∈ ranges → r.1 ∈ cuts ranges ∧ r.2 + 1 ∈ cuts ranges.
Proof.
  intros Hr. unfold cuts. rewrite !dedup_elem, !merge_sort_Permutation, !list_elem_of_In, !in_flat_map.
  split; (exists r; split; [by apply list_elem_of_In|simpl; tauto]).
Qed.

Lemma intervals_cons x y l : intervals (x :: y :: l) = (x, y - 1) :: intervals (y :: l).
Proof. done. Qed.

Lemma intervals_from x l n b :
  StronglySorted Z.lt (x :: l) → x <= n → b ∈ x :: l → n < b → ∃ i, i ∈ intervals (x :: l) ∧ within n i.
Proof.
  revert x. induction l as [|y l IH]; intros x Hs Hx Hb Hn.
  { apply list_elem_of_singleton in Hb. lia. }
  rewrite intervals_cons. apply StronglySorted_inv in Hs as [Hs _].
  destruct (decide (n < y)) as [Hy|Hy].
  { exists (x, y - 1). split; [set_solver|]. unfold within. simpl. lia. }
  apply elem_of_cons in Hb as [->|Hb]; [lia|].
  destruct (IH y Hs) as (i & Hi & Hw); [lia|done..|]. exists i. set_solver.
Qed.

Lemma sorted_head_le x l a : StronglySorted Z.lt (x :: l) → a ∈ x :: l → x <= a.
Proof.
  intros [_ Hall]%StronglySorted_inv [->|Ha]%elem_of_cons; [lia|].
  rewrite Forall_forall in Hall. specialize (Hall _ Ha). lia.
Qed.

Lemma intervals_undivided l i c :
  StronglySorted Z.lt l → i ∈ intervals l → c ∈ l → c <= i.1 ∨ i.2 < c.
Proof.
  intros Hs. induction l as [|x l IH]; intros Hi Hc; [set_solver|].
  destruct l as [|y l]; [set_solver|]. rewrite intervals_cons in Hi.
  pose proof Hs as [Hs' Hall]%StronglySorted_inv.
  apply elem_of_cons in Hi as [->|Hi]; apply elem_of_cons in Hc as [->|Hc]; simpl.
  - lia.
  - pose proof (sorted_head_le y l c Hs' Hc). lia.
  - left. clear IH. rewrite Forall_forall in Hall. revert Hi. revert Hs' Hall.
    assert (∀ l i, i ∈ intervals l → i.1 ∈ l) as Hin.
    { intros l' j. unfold intervals. rewrite elem_of_lookup_zip_with.
      intros (k & a & b & -> & Ha & _). simpl. by eapply list_elem_of_lookup_2. }
    intros _ Hall Hi. specialize (Hall _ (Hin _ _ Hi)). lia.
  - by apply IH.
Qed.

(** The intervals hold every integer of a range, and a range that has an
    integer of an interval holds the interval. *)
Lemma intervals_cover ranges n :
  in_ranges n ranges → ∃ i, i ∈ intervals (cuts ranges) ∧ within n i.
Proof.
  intros Hex. apply Exists_exists in Hex as (r & Hr & Hw).
  destruct (cuts_elem ranges r Hr) as [Hlo Hhi]. pose proof (cuts_sorted ranges) as Hs.
  destruct (cuts ranges) as [|x l]; [set_solver|]. unfold within in Hw.
  apply (intervals_from x l n (r.2 + 1)); [done| |done|lia].
  pose proof (sorted_head_le x l r.1 Hs Hlo). lia.
Qed.

Lemma intervals_held ranges i n r :
  i ∈ intervals (cuts ranges) → within n i → r ∈ ranges → within n r → r.1 <= i.1 ∧ i.2 <= r.2.
Proof.
  intros Hi Hn Hr Hw. destruct (cuts_elem ranges r Hr) as [Hlo Hhi].
  pose proof (intervals_undivided _ _ _ (cuts_sorted ranges) Hi Hlo).
  pose proof (intervals_undivided _ _ _ (cuts_sorted ranges) Hi Hhi).
  unfold within in *. lia.
Qed.

Lemma intervals_nonempty ranges i : i ∈ intervals (cuts ranges) → i.1 <= i.2.
Proof.
  pose proof (cuts_sorted ranges) as Hs. induction (cuts ranges) as [|x l IH]; [set_solver|].
  destruct l as [|y l]; [set_solver|]. rewrite intervals_cons, elem_of_cons.
  pose proof Hs as [Hs' Hall]%StronglySorted_inv. apply Forall_cons in Hall as [Hxy _].
  intros [->|Hi]; [simpl; lia|by apply IH].
Qed.

(** The cuts are bounds of the ranges. *)
Lemma intervals_bounds ranges lo hi i :
  Forall (λ r, lo <= r.1 ∧ r.2 <= hi ∧ r.1 <= r.2) ranges → i ∈ intervals (cuts ranges) →
  lo <= i.1 ∧ i.2 <= hi.
Proof.
  intros Hall Hi.
  assert (Hin : ∀ c, c ∈ cuts ranges → lo <= c <= hi + 1).
  { intros c. unfold cuts. rewrite dedup_elem, merge_sort_Permutation, list_elem_of_In, in_flat_map.
    intros (r & Hr & Hc). apply list_elem_of_In in Hr. rewrite Forall_forall in Hall.
    specialize (Hall _ Hr). simpl in Hc. lia. }
  unfold intervals in Hi. rewrite elem_of_lookup_zip_with in Hi.
  destruct Hi as (k & a & b & -> & Ha & Hb). apply list_elem_of_lookup_2 in Ha, Hb.
  assert (b ∈ cuts ranges) as Hb' by (destruct (cuts ranges); set_solver).
  pose proof (Hin _ Ha). pose proof (Hin _ Hb'). simpl. lia.
Qed.

Lemma clamp0_within i : i.1 <= i.2 → within (clamp0 i.1 i.2) i.
Proof. unfold clamp0, within. lia. Qed.
