(* ===== verification/ExhaustiveSem.v ===== *)
(** * The values a pattern matches

    The values of the language as patterns see them, when a lowered
    pattern matches one, when a value is of the type a pattern tests, and
    what a row found by the search stands for.  Then the steps of the
    matrix algorithm against these: or-patterns, the specialization at a
    constructor, the signature of a column. *)

From S2P Require Import Prelude Int64 Exhaustive ExhaustiveInts.

#[local] Open Scope nat_scope.

(** ** Values, and the patterns that match them *)

(** [VOther] is a value no constructor of [CtorId] builds: a float, a
    string, a map, a function. *)
Inductive Val :=
  | VTuple (vs : list Val)
  | VRecord (fs : list (nat * Val))
  | VVariant (enum_ty i : nat) (vs : list Val)
  | VBool (b : bool)
  | VNil
  | VCons (x xs : Val)
  | VInt (n : Z)
  | VOther (k : nat).

Definition lookup_field (fs : list (nat * Val)) (name : nat) : option Val :=
  (λ r, r.2.2) <$> list_find (λ f, f.1 = name) fs.

(** The fields of a value built with the constructor. *)
Definition fields_of (id : CtorId) (v : Val) : option (list Val) :=
  match id, v with
  | CTuple, VTuple vs => Some vs
  | CRecord names, VRecord fs => mapM (lookup_field fs) names
  | CVariant e i, VVariant e' j vs => if decide (e = e' ∧ i = j) then Some vs else None
  | CBool b, VBool b' => if decide (b = b') then Some [] else None
  | CNil, VNil => Some []
  | CCons, VCons x xs => Some [x; xs]
  | _, _ => None
  end.

(** The patterns of the fields, which may be fewer than the fields. *)
Fixpoint all_match {A B} (f : A → B → bool) (l : list A) (k : list B) : bool :=
  match l, k with
  | [], _ => true
  | a :: l', b :: k' => f a b && all_match f l' k'
  | _ :: _, [] => false
  end.

(** What a pattern surely matches: a [Lit] is counted on for nothing. *)
Fixpoint pmatch (p : Pat) (v : Val) : bool :=
  match p with
  | Wild => true
  | Lit => false
  | IntRange lo hi => match v with VInt n => (lo <=? n)%Z && (n <=? hi)%Z | _ => false end
  | Or alts => existsb (λ alt, pmatch alt v) alts
  | Ctor id args => match fields_of id v with Some vs => all_match pmatch args vs | None => false end
  end.

Fixpoint pairwise {A B} (R : A → B → Prop) (l : list A) (k : list B) : Prop :=
  match l, k with
  | [], [] => True
  | a :: l', b :: k' => R a b ∧ pairwise R l' k'
  | _, _ => False
  end.

Section typed.
Variable enums : Enums.

(** The value is of the type whose constructor [id] is. *)
Definition of_type (id : CtorId) (v : Val) : Prop :=
  match id with
  | CTuple => ∃ vs, v = VTuple vs
  | CRecord names => NoDup names ∧ is_Some (fields_of id v)
  | CVariant e _ =>
      ∃ j vs, v = VVariant e j vs ∧
        ∀ info, enums !! e = Some info → (j, length vs) ∈ distinct_variants info
  | CBool _ => ∃ b, v = VBool b
  | CNil | CCons => v = VNil ∨ ∃ x xs, v = VCons x xs
  end.

(** The value is of the type the pattern tests, its parts too. *)
Fixpoint fits (p : Pat) (v : Val) : Prop :=
  match p with
  | Wild | Lit => True
  | IntRange _ _ => ∃ n, v = VInt n ∧ in_i64 n = true
  | Or alts => foldr (λ alt P, fits alt v ∧ P) True alts
  | Ctor id args =>
      of_type id v ∧ match fields_of id v with Some vs => pairwise fits args vs | None => True end
  end.

(** The patterns the checker lowers to: enums that are declared, bounds
    that are [i64]. *)
Fixpoint wf_pat (p : Pat) : bool :=
  match p with
  | Wild | Lit => true
  | IntRange lo hi => in_i64 lo && in_i64 hi
  | Or alts => forallb wf_pat alts
  | Ctor id args =>
      match id with CVariant e _ => bool_decide (is_Some (enums !! e)) | _ => true end
      && forallb wf_pat args
  end.
End typed.

(** The values a witness stands for. *)
Fixpoint instance (w : Witness) (v : Val) : Prop :=
  match w with
  | WAny => True
  | WInt n => v = VInt n
  | WCtor id fields =>
      match fields_of id v with Some vs => pairwise instance fields vs | None => False end
  end.

(** Rows. *)
Definition row_matches (row : Row) (vs : list Val) : Prop :=
  Forall2 (λ r v, pmatch (pat r) v = true) row vs.
Definition row_fits (enums : Enums) (row : Row) (vs : list Val) : Prop :=
  Forall2 (λ r v, fits enums (pat r) v) row vs.

Definition matched (rows : list Row) (vs : list Val) : Prop := Exists (λ row, row_matches row vs) rows.
Definition fitting (enums : Enums) (rows : list Row) (vs : list Val) : Prop :=
  Forall (λ row, row_fits enums row vs) rows.

(** The rows match every row of values of their types. *)
Definition covers (enums : Enums) (rows : list Row) (width : nat) : Prop :=
  ∀ vs, length vs = width → fitting enums rows vs → matched rows vs.

(** No row matches what the witnesses stand for, and they stand for some
    values. *)
Definition missed (rows : list Row) (ws : list Witness) : Prop :=
  (∃ vs, Forall2 instance ws vs) ∧ ∀ vs, Forall2 instance ws vs → ¬ matched rows vs.

(** ** Generic lemmas *)

Lemma pairwise_Forall2 {A B} (R : A → B → Prop) l k : pairwise R l k ↔ Forall2 R l k.
Proof.
  revert k. induction l as [|a l IH]; intros [|b k]; simpl.
  - split; [constructor|done].
  - split; [done|]. intros H. by inversion H.
  - split; [done|]. intros H. by inversion H.
  - rewrite Forall2_cons, IH. done.
Qed.

Lemma all_match_lookup {A B} (f : A → B → bool) l k :
  all_match f l k = true ↔
  length l ≤ length k ∧ ∀ i a b, l !! i = Some a → k !! i = Some b → f a b = true.
Proof.
  revert k. induction l as [|a l IH]; intros k; simpl.
  { split; [|done]. intros _. split; [lia|done]. }
  destruct k as [|b k]; simpl.
  { split; [done|]. intros [? _]. lia. }
  rewrite andb_true_iff, IH. split.
  - intros (Hab & Hlen & Hall). split; [lia|]. intros [|i] a' b' Ha Hb; naive_solver.
  - intros (Hlen & Hall). split; [by apply (Hall 0)|]. split; [lia|].
    intros i a' b' Ha Hb. by apply (Hall (S i)).
Qed.

Lemma Forall2_app_iff {A B} (R : A → B → Prop) l1 l2 k1 k2 :
  length l1 = length k1 → Forall2 R (l1 ++ l2) (k1 ++ k2) ↔ Forall2 R l1 k1 ∧ Forall2 R l2 k2.
Proof.
  intros Hlen. split; [|intros []; by apply Forall2_app]. intros H.
  by apply Forall2_app_inv.
Qed.

(** Induction on patterns, with the parts. *)
Lemma Pat_parts_ind (P : Pat → Prop) :
  P Wild → P Lit → (∀ lo hi, P (IntRange lo hi)) →
  (∀ id args, Forall P args → P (Ctor id args)) →
  (∀ alts, Forall P alts → P (Or alts)) → ∀ p, P p.
Proof.
  intros HW HL HI HC HO. fix IH 1. intros [|id args|alts| |lo hi]; [done| | |done|done].
  - apply HC. revert args. fix IHs 1. intros [|p ps]; constructor; [apply IH|apply IHs].
  - apply HO. revert alts. fix IHs 1. intros [|p ps]; constructor; [apply IH|apply IHs].
Qed.

(** ** The swap of a column *)

Lemma length_swap0 {A} c (l : list A) : length (swap0 c l) = length l.
Proof. unfold swap0. crush_match; by rewrite ?length_insert. Qed.

Lemma swap0_lookup {A} c (l : list A) i :
  c < length l →
  swap0 c l !! i = l !! (if decide (i = 0) then c else if decide (i = c) then 0 else i).
Proof.
  intros Hc. destruct (lookup_lt_is_Some_2 l c Hc) as [b Hb].
  destruct (lookup_lt_is_Some_2 l 0 ltac:(lia)) as [a Ha].
  unfold swap0. rewrite Ha, Hb. case_decide as Hi; [subst|].
  { rewrite list_lookup_insert_eq; [done|]. rewrite length_insert. lia. }
  rewrite list_lookup_insert_ne by done. case_decide; [subst|].
  - by rewrite list_lookup_insert_eq.
  - by rewrite list_lookup_insert_ne.
Qed.

Lemma swap0_involutive {A} c (l : list A) : c < length l → swap0 c (swap0 c l) = l.
Proof.
  intros Hc. apply list_eq. intros i. rewrite !swap0_lookup by by rewrite ?length_swap0.
  repeat case_decide; simplify_eq; done.
Qed.

Lemma Forall2_swap0 {A B} (R : A → B → Prop) c l k :
  c < length l → Forall2 R l k → Forall2 R (swap0 c l) (swap0 c k).
Proof.
  intros Hc HR. pose proof (Forall2_length _ _ _ HR) as Hlen.
  apply Forall2_same_length_lookup. split; [by rewrite !length_swap0|].
  intros i a b. rewrite !swap0_lookup by lia. by apply Forall2_lookup_lr.
Qed.

Lemma Forall2_swap0_iff {A B} (R : A → B → Prop) c l k :
  c < length l → length l = length k → Forall2 R (swap0 c l) (swap0 c k) ↔ Forall2 R l k.
Proof.
  intros Hc Hlen. split; [|by apply Forall2_swap0]. intros HR.
  rewrite <- (swap0_involutive c l), <- (swap0_involutive c k) by lia.
  apply Forall2_swap0; [by rewrite length_swap0|done].
Qed.

Lemma Forall_swap0 {A} (P : A → Prop) c l : Forall P l → Forall P (swap0 c l).
Proof.
  intros HP. unfold swap0. repeat case_match; try done.
  apply Forall_insert; [apply Forall_insert; [done|]|]; by eapply Forall_lookup_1.
Qed.

(** ** Or-patterns *)

Definition alternatives_from (a : Addr) : nat → list Pat → list Ref :=
  fix each (j : nat) (alts : list Pat) : list Ref :=
    match alts with
    | [] => []
    | alt :: alts' => alternatives (APart a j) alt ++ each (S j) alts'
    end.

Lemma alternatives_from_elem a j alts r :
  r ∈ alternatives_from a j alts ↔
  ∃ i alt, alts !! i = Some alt ∧ r ∈ alternatives (APart a (j + i)) alt.
Proof.
  revert j. induction alts as [|alt alts IH]; intros j; simpl.
  { split; [set_solver|]. intros (i & alt & Hi & _). by rewrite lookup_nil in Hi. }
  rewrite elem_of_app, IH. split.
  - intros [Hr|(i & alt' & Hi & Hr)]; [exists 0, alt|exists (S i), alt'].
    + by rewrite Nat.add_0_r.
    + by rewrite Nat.add_succ_r.
  - intros ([|i] & alt' & Hi & Hr); simplify_eq/=; [left; by rewrite Nat.add_0_r in Hr|right].
    exists i, alt'. by rewrite Nat.add_succ_r in Hr.
Qed.

Lemma alternatives_elem a alts r :
  r ∈ alternatives a (Or alts) ↔ ∃ i alt, alts !! i = Some alt ∧ r ∈ alternatives (APart a i) alt.
Proof. apply (alternatives_from_elem a 0). Qed.

Lemma Forall_elem {A} (P : A → Prop) l i x : Forall P l → l !! i = Some x → P x.
Proof. intros HP Hi. by eapply Forall_lookup_1. Qed.

Lemma alternatives_match p a v :
  pmatch p v = true ↔ ∃ r, r ∈ alternatives a p ∧ pmatch (pat r) v = true.
Proof.
  revert a. induction p as [| |lo hi|id args _|alts IH] using Pat_parts_ind; intros a;
    [simpl; set_solver..|].
  change (pmatch (Or alts) v) with (existsb (λ alt, pmatch alt v) alts).
  rewrite existsb_exists. setoid_rewrite alternatives_elem. split.
  - intros (alt & Hin & Hm). apply list_elem_of_In, list_elem_of_lookup in Hin as [i Hi].
    apply (Forall_elem _ _ _ _ IH Hi (APart a i)) in Hm as (r & Hr & Hm). eauto 10.
  - intros (r & (i & alt & Hi & Hr) & Hm). exists alt. split.
    + by apply list_elem_of_In, (list_elem_of_lookup_2 _ i).
    + apply (Forall_elem _ _ _ _ IH Hi (APart a i)). eauto.
Qed.

Lemma alternatives_not_or p a r alts : r ∈ alternatives a p → pat r ≠ Or alts.
Proof.
  revert a. induction p as [| |lo hi|id args _|ps IH] using Pat_parts_ind; intros a;
    try (intros ->%list_elem_of_singleton; done).
  rewrite alternatives_elem. intros (i & alt & Hi & Hr). by eapply (Forall_elem _ _ _ _ IH Hi).
Qed.

(** A property that an or-pattern passes on to its alternatives. *)
Lemma alternatives_inherit (P : Pat → Prop) p a r :
  (∀ alts, P (Or alts) → Forall P alts) → P p → r ∈ alternatives a p → P (pat r).
Proof.
  intros Hor. revert a. induction p as [| |lo hi|id args _|ps IH] using Pat_parts_ind; intros a Hp;
    try (intros ->%list_elem_of_singleton; done).
  rewrite alternatives_elem. intros (i & alt & Hi & Hr).
  eapply (Forall_elem _ _ _ _ IH Hi); [|done]. by eapply Forall_elem, Hi; apply Hor.
Qed.

Lemma fits_or enums alts v : fits enums (Or alts) v ↔ Forall (λ alt, fits enums alt v) alts.
Proof. simpl. induction alts as [|alt alts IH]; simpl; [done|]. by rewrite Forall_cons, <- IH. Qed.

(** ** References *)

Definition parts (p : Pat) : list Pat :=
  match p with Ctor _ args => args | Or alts => alts | _ => [] end.

(** The pattern at an address, of the patterns the search was asked
    about. *)
Fixpoint resolve (roots : list Pat) (a : Addr) : option Pat :=
  match a with
  | AWild => Some Wild
  | ARoot i => roots !! i
  | APart a j => p ← resolve roots a; parts p !! j
  end.
Definition placed (roots : list Pat) (r : Ref) : Prop := resolve roots (addr r) = Some (pat r).

Lemma refs_placed roots : Forall (placed roots) (refs roots).
Proof.
  apply Forall_forall. intros r. unfold refs. rewrite elem_of_lookup_imap.
  by intros (i & p & -> & Hi).
Qed.

Lemma alternatives_placed roots p a r :
  resolve roots a = Some p → r ∈ alternatives a p → placed roots r.
Proof.
  revert a. induction p as [| |lo hi|id args _|ps IH] using Pat_parts_ind; intros a Hp;
    try (intros ->%list_elem_of_singleton; done).
  rewrite alternatives_elem. intros (i & alt & Hi & Hr).
  eapply (Forall_elem _ _ _ _ IH Hi), Hr. simpl. by rewrite Hp.
Qed.

Lemma get_part_placed roots a id args i r :
  resolve roots a = Some (Ctor id args) → get_part a args i = Some r → placed roots r.
Proof.
  unfold get_part. intros Ha (p & Hi & ->)%fmap_Some. unfold placed. simpl. by rewrite Ha.
Qed.

(** Rows of the same addresses are the same rows. *)
Lemma same_row_eq roots a b :
  Forall (placed roots) a → Forall (placed roots) b → same_row a b = true → a = b.
Proof.
  revert b. induction a as [|[x p] a IH]; intros [|[y q] b] Ha Hb; simpl; try done.
  rewrite andb_true_iff, bool_decide_eq_true. intros [-> Hrow].
  apply Forall_cons in Ha as [Hp Ha], Hb as [Hq Hb]. rewrite (IH b Ha Hb Hrow).
  unfold placed in *. simpl in *. congruence.
Qed.

Lemma same_rows_eq roots a b :
  Forall (Forall (placed roots)) a → Forall (Forall (placed roots)) b → same_rows a b = true → a = b.
Proof.
  revert b. induction a as [|x a IH]; intros [|y b] Ha Hb; simpl; try done.
  rewrite andb_true_iff. intros [Hrow Hrows].
  apply Forall_cons in Ha as [Hx Ha], Hb as [Hy Hb].
  rewrite (IH b Ha Hb Hrows). f_equal. by eapply same_row_eq.
Qed.

(** ** Specialization *)

(** The fields of one reference at a constructor. *)
Definition spec_fields (ctor : CtorId) (arity : nat) (r : Ref) : option (list Ref) :=
  match pat r with
  | Wild => Some (replicate arity WILD)
  | Ctor (CRecord names) args =>
      match ctor with
      | CRecord all =>
          Some ((λ name, default WILD
                   (i ← fst <$> list_find (λ n, n = name) names; get_part (addr r) args i)) <$> all)
      | _ => None
      end
  | Ctor id args =>
      if decide (id = ctor)
      then Some ((λ i, default WILD (get_part (addr r) args i)) <$> seq 0 arity) else None
  | _ => None
  end.

Lemma specialize_row_cons ctor arity r rest :
  specialize_row ctor arity (r :: rest) = (.++ rest) <$> spec_fields ctor arity r.
Proof.
  unfold specialize_row, spec_fields, row_first, row_ref. simpl.
  repeat case_match; simplify_eq/=; done.
Qed.

Lemma lookup_fields fs names vs k name :
  mapM (lookup_field fs) names = Some vs → names !! k = Some name → vs !! k = lookup_field fs name.
Proof.
  intros Hm Hk. apply mapM_Some_1 in Hm. destruct (Forall2_lookup_l _ _ _ _ _ Hm Hk) as (v & Hv & Hl).
  by rewrite Hv, Hl.
Qed.

(** Only a record value has the fields of two constructors. *)
Lemma fields_of_same id ctor v ws us :
  fields_of id v = Some ws → fields_of ctor v = Some us →
  match id with CRecord _ => ∃ all, ctor = CRecord all | _ => id = ctor end.
Proof.
  destruct id, v; simpl; intros; simplify_eq; destruct ctor; simpl in *; simplify_eq;
    repeat case_decide; simplify_eq; eauto; destruct_and?; subst; done.
Qed.

Section spec.
Context (ctor : CtorId) (arity : nat) (r : Ref) (fields : list Ref) (v : Val) (us : list Val).
Context (Hspec : spec_fields ctor arity r = Some fields) (Hus : fields_of ctor v = Some us).
Context (Hlen : length us = arity).

Lemma spec_fields_length : length fields = arity.
Proof.
  unfold spec_fields in Hspec. destruct (pat r) as [|id args|alts| |lo hi]; simplify_eq.
  - by rewrite length_replicate.
  - destruct id; try (case_decide; simplify_eq; by rewrite length_fmap, length_seq).
    destruct ctor as [|all|e i|b| |]; simplify_eq. rewrite length_fmap.
    destruct v; simpl in Hus; simplify_eq. apply mapM_Some_1, Forall2_length in Hus. congruence.
Qed.

(** A field is [Wild], or the pattern of that part of the value. *)
Lemma spec_fields_part id args ws k f u :
  pat r = Ctor id args → fields_of id v = Some ws → fields !! k = Some f → us !! k = Some u →
  pat f = Wild ∨ ∃ i, args !! i = Some (pat f) ∧ ws !! i = Some u.
Proof.
  intros Hp Hws Hf Hu. pose proof (fields_of_same id ctor v ws us Hws Hus) as Hid.
  unfold spec_fields in Hspec. rewrite Hp in Hspec.
  assert (Hcase : (∃ names, id = CRecord names) ∨
    (id = ctor ∧ Some ((λ i, default WILD (get_part (addr r) args i)) <$> seq 0 arity) = Some fields)).
  { destruct id; try (right; split; [done|]; by case_decide). left. eauto. }
  destruct Hcase as [[names ->]|[-> Hfields]].
  - destruct Hid as [all ->]. simplify_eq. rewrite list_lookup_fmap in Hf.
    apply fmap_Some in Hf as (name & Hname & ->).
    destruct v as [|fs| | | | | |]; simpl in Hus, Hws; simplify_eq.
    rewrite (lookup_fields _ _ _ _ _ Hus Hname) in Hu.
    destruct (list_find (λ n, n = name) names) as [[i n]|] eqn:Hfind; simpl; [|by left].
    apply list_find_Some in Hfind as (Hi & -> & _). unfold get_part.
    destruct (args !! i) as [a|] eqn:Ha; simpl; [|by left]. right. exists i.
    by rewrite (lookup_fields _ _ _ _ _ Hws Hi).
  - simplify_eq. rewrite list_lookup_fmap in Hf.
    apply fmap_Some in Hf as (i & Hi & ->). apply lookup_seq in Hi as [-> _]. simpl.
    unfold get_part. destruct (args !! k) as [a|] eqn:Ha; simpl; [right|by left]. eauto.
Qed.

(** Every part the pattern tests is a field. *)
Lemma spec_fields_all id args ws i a w :
  pat r = Ctor id args → fields_of id v = Some ws → args !! i = Some a → ws !! i = Some w →
  (∀ names all, id = CRecord names → ctor = CRecord all → NoDup names ∧ names ⊆ all) →
  ∃ k f, fields !! k = Some f ∧ us !! k = Some w ∧ pat f = a.
Proof.
  intros Hp Hws Ha Hw Hnames. pose proof (fields_of_same id ctor v ws us Hws Hus) as Hid.
  unfold spec_fields in Hspec. rewrite Hp in Hspec.
  assert (Hcase : (∃ names, id = CRecord names) ∨
    (id = ctor ∧ Some ((λ i, default WILD (get_part (addr r) args i)) <$> seq 0 arity) = Some fields)).
  { destruct id; try (right; split; [done|]; by case_decide). left. eauto. }
  destruct Hcase as [[names ->]|[-> Hfields]].
  - destruct Hid as [all ->]. destruct (Hnames names all eq_refl eq_refl) as [Hnd Hsub]. simplify_eq.
    destruct v as [|fs| | | | | |]; simpl in Hus, Hws; simplify_eq.
    apply mapM_Some_1 in Hws as Hws2. destruct (Forall2_lookup_r _ _ _ _ _ Hws2 Hw) as (name & Hname & Hl).
    assert (name ∈ all) as (k & Hk)%list_elem_of_lookup by (eapply Hsub, list_elem_of_lookup_2, Hname).
    exists k. rewrite list_lookup_fmap, Hk. simpl. eexists. split; [done|].
    rewrite (lookup_fields _ _ _ _ _ Hus Hk). split; [done|].
    assert (list_find (λ n, n = name) names = Some (i, name)) as ->.
    { apply list_find_Some. split_and!; [done..|]. intros j n Hj Hlt ->.
      pose proof (NoDup_lookup _ _ _ _ Hnd Hname Hj). lia. }
    simpl. unfold get_part. by rewrite Ha.
  - simplify_eq. exists i. rewrite list_lookup_fmap.
    rewrite lookup_seq_lt by by eapply lookup_lt_Some. simpl. eexists. split; [done|].
    split; [done|]. unfold get_part. by rewrite Ha.
Qed.
End spec.

(** ** Types

    What the checker knows of a match: the type of the value, and patterns of
    that type.  [TyOther] is a type whose values no constructor of [CtorId]
    builds. *)
Inductive Ty :=
  | TyInt
  | TyBool
  | TyTuple (ts : list Ty)
  | TyRecord (fs : list (nat * Ty))
  | TyEnum (enum_ty : nat)
  | TyList (t : Ty)
  | TyOther.

Section types.
(** The enums, and the types of the fields of each variant. *)
Context (enums : Enums) (field_types : nat → nat → list Ty).

(** The values of a type: of an enum, those of its variants. *)
Inductive has_ty : Ty → Val → Prop :=
  | ht_int n : in_i64 n = true → has_ty TyInt (VInt n)
  | ht_bool b : has_ty TyBool (VBool b)
  | ht_tuple ts vs : Forall2 has_ty ts vs → has_ty (TyTuple ts) (VTuple vs)
  | ht_record fs vs :
      Forall2 (λ f v, f.1 = v.1 ∧ has_ty f.2 v.2) fs vs → has_ty (TyRecord fs) (VRecord vs)
  | ht_variant e i vs :
      (∀ info, enums !! e = Some info → (i, length vs) ∈ distinct_variants info) →
      Forall2 has_ty (field_types e i) vs → has_ty (TyEnum e) (VVariant e i vs)
  | ht_nil t : has_ty (TyList t) VNil
  | ht_cons t x xs : has_ty t x → has_ty (TyList t) xs → has_ty (TyList t) (VCons x xs)
  | ht_other k : has_ty TyOther (VOther k).

(** The patterns of a type. *)
Fixpoint pat_ty (p : Pat) (t : Ty) : Prop :=
  match p, t with
  | Wild, _ | Lit, _ => True
  | IntRange lo hi, TyInt => in_i64 lo = true ∧ in_i64 hi = true
  | Or alts, _ => foldr (λ alt P, pat_ty alt t ∧ P) True alts
  | Ctor CTuple args, TyTuple ts => pairwise pat_ty args ts
  | Ctor (CRecord names) args, TyRecord fs =>
      NoDup fs.*1 ∧ pairwise (λ p name, ∃ t, (name, t) ∈ fs ∧ pat_ty p t) args names
  | Ctor (CVariant e i) args, TyEnum e' =>
      e = e' ∧ is_Some (enums !! e) ∧ pairwise pat_ty args (field_types e i)
  | Ctor (CBool _) args, TyBool => args = []
  | Ctor CNil args, TyList _ => args = []
  | Ctor CCons args, TyList t' => pairwise pat_ty args [t'; TyList t']
  | _, _ => False
  end.

Lemma pat_ty_or alts t : pat_ty (Or alts) t ↔ Forall (λ alt, pat_ty alt t) alts.
Proof. simpl. induction alts as [|alt alts IH]; simpl; [done|]. by rewrite Forall_cons, <- IH. Qed.

(** Such patterns are those the checker lowers to. *)
Lemma pat_ty_wf p t : pat_ty p t → wf_pat enums p = true.
Proof.
  revert t. induction p as [| |lo hi|id args IH|alts IH] using Pat_parts_ind; intros t; [done|done| | |].
  - destruct t; try done. intros [H1 H2]. simpl. by rewrite H1, H2.
  - rewrite Forall_forall in IH.
    assert (Hargs : (∀ a, a ∈ args → ∃ t, pat_ty a t) → forallb (wf_pat enums) args = true).
    { intros Ha. apply forallb_forall. intros a Hin%list_elem_of_In. destruct (Ha a Hin) as [t' Ht]. by eapply IH. }
    assert (Hpair : ∀ ts, pairwise pat_ty args ts → forallb (wf_pat enums) args = true).
    { intros ts Hp%pairwise_Forall2. apply Hargs. intros a [i Hi]%list_elem_of_lookup.
      destruct (Forall2_lookup_l _ _ _ _ _ Hp Hi) as (t' & _ & ?). eauto. }
    simpl. destruct id, t; try done; simpl.
    + apply Hpair.
    + intros [_ Hp%pairwise_Forall2]. apply Hargs. intros a [i Hi]%list_elem_of_lookup.
      destruct (Forall2_lookup_l _ _ _ _ _ Hp Hi) as (name & _ & t' & _ & ?). eauto.
    + intros (-> & He & Hp). apply andb_true_iff. split; [by apply bool_decide_eq_true|]. by eapply Hpair.
    + by intros ->.
    + by intros ->.
    + apply Hpair.
  - rewrite pat_ty_or. intros Hall. simpl. apply forallb_forall. intros a Ha%list_elem_of_In.
    rewrite Forall_forall in IH, Hall. eauto.
Qed.

(** Induction on types, with the parts. *)
Lemma Ty_parts_ind (P : Ty → Prop) :
  P TyInt → P TyBool → (∀ ts, Forall P ts → P (TyTuple ts)) → (∀ fs, Forall (λ f, P f.2) fs → P (TyRecord fs)) →
  (∀ e, P (TyEnum e)) → (∀ t, P (TyList t)) → P TyOther → ∀ t, P t.
Proof.
  intros HI HB HT HR HE HL HO. fix IH 1. intros [| |ts|fs|e|t|]; [done|done| | |done|done|done].
  - apply HT. revert ts. fix IHs 1. intros [|t ts]; constructor; [apply IH|apply IHs].
  - apply HR. revert fs. fix IHs 1. intros [|[n t] fs]; constructor; [apply IH|apply IHs].
Qed.

(** When every enum has a value every type has one. *)
Lemma inhabited_types : (∀ e, ∃ v, has_ty (TyEnum e) v) → ∀ t, ∃ v, has_ty t v.
Proof.
  intros He t. induction t as [| |ts IH|fs IH|e|t|] using Ty_parts_ind.
  - exists (VInt 0). by constructor.
  - exists (VBool true). constructor.
  - apply Forall_exists_Forall2_l in IH as [vs Hvs]. exists (VTuple vs). by constructor.
  - apply Forall_exists_Forall2_l in IH as [vs Hvs]. exists (VRecord (zip fs.*1 vs)). constructor.
    induction Hvs as [|f v fs vs Hv Hvs IHvs]; constructor; [done|exact IHvs].
  - apply He.
  - exists VNil. constructor.
  - exists (VOther 0). constructor.
Qed.

(** The types of the fields of the values of [t] built with a
    constructor. *)
Definition ctor_types (t : Ty) (ctor : CtorId) (tys : list Ty) : Prop :=
  match ctor, t with
  | CTuple, TyTuple ts => tys = ts
  | CRecord names, TyRecord fs => NoDup fs.*1 ∧ NoDup names ∧ Forall2 (λ name t, (name, t) ∈ fs) names tys
  | CVariant e i, TyEnum e' =>
      e = e' ∧ tys = field_types e i ∧ ∀ info, enums !! e = Some info → (i, length tys) ∈ distinct_variants info
  | CBool _, TyBool => tys = []
  | CNil, TyList _ => tys = []
  | CCons, TyList t => tys = [t; TyList t]
  | _, _ => False
  end.

Lemma pairwise_lookup {A B} (R : A → B → Prop) l k i a b :
  pairwise R l k → l !! i = Some a → k !! i = Some b → R a b.
Proof. intros Hp. by apply Forall2_lookup_lr, pairwise_Forall2. Qed.

(** The fields of a pattern of the type at a constructor of it. *)
Lemma spec_typed t ctor arity tys r fields :
  ctor_types t ctor tys → length tys = arity → pat_ty (pat r) t →
  spec_fields ctor arity r = Some fields → Forall2 (λ f t, pat_ty (pat f) t) fields tys.
Proof.
  intros Hc Hl Hp Hs. unfold spec_fields in Hs.
  destruct (pat r) as [|id args|alts| |lo hi] eqn:Hr; simplify_eq.
  { apply Forall2_replicate_l; [done|by apply Forall_true]. }
  assert (Hgen : ∀ ts, tys = ts → pairwise pat_ty args ts →
    Forall2 (λ f t, pat_ty (pat f) t)
      ((λ i, default WILD (get_part (addr r) args i)) <$> seq 0 (length tys)) tys).
  { intros ts -> Hpair. apply Forall2_same_length_lookup. split; [by rewrite length_fmap, length_seq|].
    intros i f t' Hf Ht. rewrite list_lookup_fmap in Hf. apply fmap_Some in Hf as (j & Hj & ->).
    apply lookup_seq in Hj as [-> _]. unfold get_part. simpl.
    destruct (args !! i) as [a|] eqn:Ha; simpl; [|done]. by eapply pairwise_lookup. }
  destruct id as [|names|e i|b| |].
  - case_decide; simplify_eq. destruct t; try done. by apply (Hgen ts).
  - destruct ctor as [|all|e i|b| |]; simplify_eq. destruct t as [| | |fs| | |]; try done.
    destruct Hc as (Hnd & _ & Hall), Hp as [_ Hp]. apply Forall2_fmap_l.
    eapply Forall2_impl; [exact Hall|]. intros name t Hin. simpl.
    destruct (list_find (λ n, n = name) names) as [[i n]|] eqn:Hfind; simpl; [|done].
    apply list_find_Some in Hfind as (Hi & -> & _). unfold get_part.
    destruct (args !! i) as [a|] eqn:Ha; simpl; [|done].
    destruct (pairwise_lookup _ _ _ _ _ _ Hp Ha Hi) as (t' & Hin' & Ht).
    assert (t' = t) as ->; [|done].
    apply list_elem_of_lookup in Hin as [j Hj], Hin' as [j' Hj'].
    assert (j = j') as <-; [|congruence].
    eapply (NoDup_lookup fs.*1); [done|by rewrite list_lookup_fmap, Hj|by rewrite list_lookup_fmap, Hj'].
  - case_decide; simplify_eq. destruct t; try done. destruct Hc as (_ & -> & _), Hp as (-> & _ & Hp). by eapply Hgen.
  - case_decide; simplify_eq. destruct t; try done. cbn in Hc. subst tys. constructor.
  - case_decide; simplify_eq. destruct t; try done. cbn in Hc. subst tys. constructor.
  - case_decide; simplify_eq. destruct t; try done. cbn in Hc. by eapply Hgen.
Qed.

(** Fields of those types are those of a value of the type. *)
Lemma ctor_built t ctor tys us :
  (∀ t, ∃ v, has_ty t v) → ctor_types t ctor tys → Forall2 has_ty tys us →
  ∃ v, has_ty t v ∧ fields_of ctor v = Some us.
Proof.
  intros Hinh Hc Hus. destruct ctor as [|names|e i|b| |], t as [| |ts|fs|e'|t|]; try done; cbn in Hc.
  - subst tys. exists (VTuple us). split; [by constructor|done].
  - destruct Hc as (Hnd & Hndn & Hall).
    assert (Hex : Forall (λ f, ∃ v, has_ty f.2 v ∧
      ∀ k u, names !! k = Some f.1 → us !! k = Some u → v = u) fs).
    { apply Forall_forall. intros [name t] Hin. simpl. destruct (decide (name ∈ names)) as [Hn|Hn].
      - apply list_elem_of_lookup in Hn as [k Hk].
        destruct (Forall2_lookup_l _ _ _ _ _ Hall Hk) as (t' & Ht' & Hin').
        destruct (Forall2_lookup_l _ _ _ _ _ Hus Ht') as (u & Hu & Hty).
        assert (t' = t) as ->.
        { apply list_elem_of_lookup in Hin as [j Hj], Hin' as [j' Hj'].
          assert (j = j') as <-; [|congruence].
          eapply (NoDup_lookup fs.*1); [done|by rewrite list_lookup_fmap, Hj|by rewrite list_lookup_fmap, Hj']. }
        exists u. split; [done|]. intros k' u' Hk' Hu'.
        pose proof (NoDup_lookup _ _ _ _ Hndn Hk Hk'). congruence.
      - destruct (Hinh t) as [v Hv]. exists v. split; [done|]. intros k u Hk. by apply list_elem_of_lookup_2 in Hk. }
    apply Forall_exists_Forall2_l in Hex as [vs Hvs]. exists (VRecord (zip fs.*1 vs)). split.
    + constructor. clear -Hvs. induction Hvs as [|f v fs vs [Hv _] Hvs IHvs]; constructor; [done|exact IHvs].
    + simpl. apply mapM_Some_2, Forall2_same_length_lookup.
      split; [by rewrite (Forall2_length _ _ _ Hall), (Forall2_length _ _ _ Hus)|].
      intros k name u Hk Hu. destruct (Forall2_lookup_l _ _ _ _ _ Hall Hk) as (t & _ & Hin).
      apply list_elem_of_lookup in Hin as [j Hj]. destruct (Forall2_lookup_l _ _ _ _ _ Hvs Hj) as (v & Hv & _ & Hvu).
      simpl in Hvu. rewrite (Hvu k u Hk Hu) in Hv. unfold lookup_field.
      assert (Hz : zip fs.*1 vs !! j = Some (name, u)).
      { apply lookup_zip_with_Some. exists name, u. by rewrite list_lookup_fmap, Hj. }
      assert (list_find (λ f, f.1 = name) (zip fs.*1 vs) = Some (j, (name, u))) as ->; [|done].
      apply list_find_Some. split_and!; [done..|]. intros j' [n w] Hj' Hlt. simpl. intros ->.
      apply lookup_zip_with_Some in Hj' as (n' & w' & [= <- <-] & Hn & _).
      assert (Hn2 : fs.*1 !! j = Some name) by by rewrite list_lookup_fmap, Hj.
      pose proof (NoDup_lookup _ _ _ _ Hnd Hn Hn2). lia.
  - destruct Hc as (<- & -> & Hin). exists (VVariant e i us). split.
    + constructor; [|done]. intros info He. rewrite <- (Forall2_length _ _ _ Hus). by apply Hin.
    + simpl. by rewrite decide_True.
  - subst tys. apply Forall2_nil_inv_l in Hus as ->. exists (VBool b). split; [constructor|].
    simpl. by rewrite decide_True.
  - subst tys. apply Forall2_nil_inv_l in Hus as ->. exists VNil. split; [constructor|done].
  - subst tys. apply Forall2_cons_inv_l in Hus as (x & us' & Hx & Hus & ->).
    apply Forall2_cons_inv_l in Hus as (xs & us'' & Hxs & Hus & ->). apply Forall2_nil_inv_l in Hus as ->.
    exists (VCons x xs). split; [by constructor|done].
Qed.
End types.
