(* ===== verification/ExhaustiveFacts.v ===== *)
(** * The search is right

    The steps of the search against the values patterns match: the rows
    left at a constructor and at an interval, the constructors of a
    column, and by induction on the depth the two answers of
    [uncovered]. *)

From S2P Require Import Prelude Int64 Exhaustive ExhaustiveInts ExhaustiveSem.

#[local] Open Scope nat_scope.

(** ** One reference at a constructor *)
Section at_ctor.
Context (enums : Enums) (ctor : CtorId) (arity : nat) (r : Ref) (v : Val) (us : list Val).
Context (Hus : fields_of ctor v = Some us) (Hlen : length us = arity).

Lemma spec_fields_transfer (R : Pat → Val → Prop) fields :
  (∀ u, R Wild u) → spec_fields ctor arity r = Some fields →
  (∀ id args, pat r = Ctor id args →
     ∃ ws, fields_of id v = Some ws ∧ ∀ i a w, args !! i = Some a → ws !! i = Some w → R a w) →
  Forall2 (λ f u, R (pat f) u) fields us.
Proof.
  intros HW Hs Hparts. pose proof (spec_fields_length _ _ _ _ _ _ Hs Hus Hlen) as Hfl.
  apply Forall2_same_length_lookup. split; [congruence|]. intros k f u Hf Hu.
  destruct (pat r) as [|id args|alts| |lo hi] eqn:Hp;
    try (unfold spec_fields in Hs; rewrite Hp in Hs; done).
  - unfold spec_fields in Hs. rewrite Hp in Hs. injection Hs as <-.
    by apply lookup_replicate in Hf as [-> _].
  - destruct (Hparts id args eq_refl) as (ws & Hws & HR).
    destruct (spec_fields_part ctor arity r fields v us Hs Hus Hlen id args ws k f u)
      as [->|(i & Ha & Hw)]; try done. by apply (HR i).
Qed.

Lemma spec_fields_match fields :
  spec_fields ctor arity r = Some fields → pmatch (pat r) v = true →
  Forall2 (λ f u, pmatch (pat f) u = true) fields us.
Proof.
  intros Hs Hm. apply (spec_fields_transfer (λ p u, pmatch p u = true)); [done..|].
  intros id args Hp. rewrite Hp in Hm. simpl in Hm. destruct (fields_of id v) as [ws|]; [|done].
  exists ws. split; [done|]. by apply all_match_lookup in Hm as [_ Hm].
Qed.

(** A value at which the pattern has fields, of the pattern's type, is
    built with its constructor. *)
Lemma spec_fields_built fields id args :
  spec_fields ctor arity r = Some fields → pat r = Ctor id args → of_type enums id v →
  is_Some (fields_of id v).
Proof.
  unfold spec_fields. intros Hs Hp Hty. rewrite Hp in Hs.
  destruct id; [|by destruct Hty|..]; case_decide; subst; done.
Qed.

Lemma spec_fields_none :
  spec_fields ctor arity r = None → (∀ alts, pat r ≠ Or alts) → pmatch (pat r) v = false.
Proof.
  unfold spec_fields. destruct (pat r) as [|id args|alts| |lo hi]; intros Hs Hor; simpl; try done.
  - destruct (fields_of id v) as [ws|] eqn:Hws; [|done].
    pose proof (fields_of_same id ctor v ws us Hws Hus) as Hid.
    destruct id; [|by destruct Hid as [all ->]|..]; by case_decide.
  - by destruct (Hor alts).
  - destruct v; try done. by destruct ctor.
Qed.

(** The names of a record pattern are distinct and among those of the
    column. *)
Definition named : Prop :=
  ∀ names args all, pat r = Ctor (CRecord names) args → ctor = CRecord all → names ⊆ all.

Lemma spec_fields_matched fields :
  spec_fields ctor arity r = Some fields → fits enums (pat r) v → named →
  Forall2 (λ f u, pmatch (pat f) u = true) fields us → pmatch (pat r) v = true.
Proof.
  intros Hs Hfit Hnamed Hall. destruct (pat r) as [|id args|alts| |lo hi] eqn:Hp; [done| |..];
    try (unfold spec_fields in Hs; rewrite Hp in Hs; done).
  destruct Hfit as [Hty Hparts]. simpl.
  destruct (spec_fields_built fields id args Hs Hp Hty) as [ws Hws]. rewrite Hws in *.
  apply pairwise_Forall2 in Hparts. apply all_match_lookup. pose proof (Forall2_length _ _ _ Hparts).
  split; [lia|]. intros i a w Ha Hw.
  destruct (spec_fields_all ctor arity r fields v us Hs Hus Hlen id args ws i a w) as (k & f & Hf & Hu & <-);
    try done; [|by apply (Forall2_lookup_lr _ _ _ _ _ _ Hall Hf Hu)].
  intros names all -> Hc. split; [by destruct Hty|]. by eapply Hnamed.
Qed.

Lemma spec_fields_fit fields :
  spec_fields ctor arity r = Some fields → fits enums (pat r) v →
  Forall2 (λ f u, fits enums (pat f) u) fields us.
Proof.
  intros Hs Hfit. apply (spec_fields_transfer (λ p u, fits enums p u)); [done..|].
  intros id args Hp. rewrite Hp in Hfit. destruct Hfit as [Hty Hparts].
  destruct (spec_fields_built fields id args Hs Hp Hty) as [ws Hws]. rewrite Hws in *.
  exists ws. split; [done|]. intros i a w. by apply Forall2_lookup_lr, pairwise_Forall2.
Qed.
End at_ctor.

(** A field is [WILD] or a part of the pattern. *)
Lemma spec_fields_inherit (P : Ref → Prop) ctor arity r fields :
  P WILD → (∀ id args i f, pat r = Ctor id args → get_part (addr r) args i = Some f → P f) →
  spec_fields ctor arity r = Some fields → Forall P fields.
Proof.
  intros HW Hpart Hs. unfold spec_fields in Hs.
  destruct (pat r) as [|id args|alts| |lo hi]; simplify_eq; [by apply Forall_replicate|].
  assert (Hd : ∀ o, (∀ f, o = Some f → ∃ i, get_part (addr r) args i = Some f) → P (default WILD o)).
  { intros [f|] Ho; [|done]. destruct (Ho f eq_refl) as [i Hi]. by eapply Hpart. }
  apply Forall_forall. intros f Hf.
  destruct id; try destruct ctor; repeat case_decide; simplify_eq;
    apply list_elem_of_fmap in Hf as (x & -> & _); apply Hd; intros f Hf; eauto.
  destruct (fst <$> list_find _ _) as [i|]; simpl in Hf; [eauto|done].
Qed.

(** ** The constructors of a column *)

Lemma add_names_spec l names :
  (∀ x, x ∈ foldl add_name names l ↔ x ∈ names ∨ x ∈ l) ∧ (NoDup names → NoDup (foldl add_name names l)).
Proof.
  revert names. induction l as [|y l IH]; intros names; simpl; [set_solver|].
  destruct (IH (add_name names y)) as [Hin Hnd]. unfold add_name in *. split.
  - intros x. rewrite Hin. case_decide; set_solver.
  - intros Hn. apply Hnd. case_decide; [done|]. apply NoDup_app. split; [done|].
    split; [set_solver|apply NoDup_singleton].
Qed.

Definition names_of (row : Row) : list nat :=
  match row_first row with Ctor (CRecord names) _ => names | _ => [] end.

Lemma column_names_spec rows :
  (∀ x, x ∈ column_names rows ↔ ∃ row, row ∈ rows ∧ x ∈ names_of row) ∧ NoDup (column_names rows).
Proof.
  unfold column_names.
  assert (Hgen : ∀ acc, NoDup acc →
    let all := foldl (λ names row, match row_first row with
                 Ctor (CRecord row_names) _ => foldl add_name names row_names | _ => names end) acc rows in
    (∀ x, x ∈ all ↔ x ∈ acc ∨ ∃ row, row ∈ rows ∧ x ∈ names_of row) ∧ NoDup all).
  { induction rows as [|row rows IH]; intros acc Hacc; simpl; [set_solver|].
    destruct (add_names_spec (names_of row) acc) as [Hin Hnd].
    assert (match row_first row with Ctor (CRecord row_names) _ => foldl add_name acc row_names | _ => acc end
            = foldl add_name acc (names_of row)) as ->.
    { unfold names_of. repeat case_match; simplify_eq/=; done. }
    destruct (IH _ (Hnd Hacc)) as [Hx Hall]. split; [|done]. intros x. rewrite Hx, Hin. set_solver. }
  destruct (Hgen [] ltac:(constructor)) as [Hx Hnd]. split; [|done]. set_solver.
Qed.

Lemma tuple_arity_cons row rows :
  tuple_arity (row :: rows) =
  match row_first row with
  | Ctor CTuple args => length args `max` tuple_arity rows
  | _ => tuple_arity rows
  end.
Proof. done. Qed.

Lemma tuple_arity_spec rows n :
  Exists (λ row, ∃ args, row_first row = Ctor CTuple args) rows →
  (∀ row args, row ∈ rows → row_first row = Ctor CTuple args → length args = n) → tuple_arity rows = n.
Proof.
  intros Hex Hall.
  assert (Hle : tuple_arity rows ≤ n).
  { clear Hex. induction rows as [|row rows IH]; [simpl; lia|]. rewrite tuple_arity_cons.
    specialize (IH ltac:(set_solver)). specialize (Hall row).
    repeat case_match; try done. rewrite (Hall _ ltac:(set_solver) eq_refl). lia. }
  enough (n ≤ tuple_arity rows) by lia. clear Hle.
  induction Hex as [row rows [args Hr]|row rows _ IH]; rewrite tuple_arity_cons.
  - rewrite Hr, (Hall row args ltac:(set_solver) Hr). lia.
  - specialize (IH ltac:(set_solver)). repeat case_match; lia.
Qed.

(** Every value of the column's type is built with one of them. *)
Lemma signature_complete enums rows row id args sg v :
  (∀ row, row ∈ rows → fits enums (row_first row) v) →
  row ∈ rows → row_first row = Ctor id args → signature enums id rows = Some sg →
  ∃ ctor arity us, (ctor, arity) ∈ sg ∧ fields_of ctor v = Some us ∧ length us = arity.
Proof.
  intros Hfit Hrow Hp Hsg. pose proof (Hfit row Hrow) as Hty. rewrite Hp in Hty.
  destruct Hty as [Hty _]. destruct id as [|names|e i|b| |]; simpl in Hty, Hsg; simplify_eq.
  - destruct Hty as [vs ->]. exists CTuple, (tuple_arity rows), vs. split_and!; [set_solver|done|].
    symmetry. apply tuple_arity_spec.
    + apply Exists_exists. eauto.
    + intros row' args' Hr' Hp'. specialize (Hfit row' Hr'). rewrite Hp' in Hfit.
      destruct Hfit as [_ Hparts]. simpl in Hparts. by apply pairwise_Forall2, Forall2_length in Hparts.
  - destruct Hty as [_ [ws Hws]]. destruct v as [|fs| | | | | |]; try done.
    assert (is_Some (mapM (lookup_field fs) (column_names rows))) as [us Hus].
    { apply mapM_is_Some, Forall_forall. intros x Hx.
      apply column_names_spec in Hx as (row' & Hr' & Hx). specialize (Hfit row' Hr').
      unfold names_of in Hx. case_match; [set_solver| |set_solver..]. case_match; try set_solver.
      destruct Hfit as [[_ [us Hus]] _]. simpl in Hus. apply mapM_Some_1 in Hus.
      apply list_elem_of_lookup in Hx as [k Hk].
      destruct (Forall2_lookup_l _ _ _ _ _ Hus Hk) as (u & _ & Hu). eauto. }
    exists (CRecord (column_names rows)), (length (column_names rows)), us.
    split_and!; [set_solver|done|]. by apply mapM_Some_1, Forall2_length in Hus.
  - destruct Hty as (j & vs & -> & Hin). destruct (enums !! e) as [info|] eqn:He; simplify_eq/=.
    specialize (Hin info eq_refl). exists (CVariant e j), (length vs), vs. split_and!; [| |done].
    + apply list_elem_of_fmap. by exists (j, length vs).
    + simpl. by rewrite decide_True.
  - destruct Hty as [b' ->]. exists (CBool b'), 0, []. destruct b'; split_and!; set_solver.
  - destruct Hty as [->|(x & xs & ->)]; [exists CNil, 0, []|exists CCons, 2, [x; xs]]; set_solver.
  - destruct Hty as [->|(x & xs & ->)]; [exists CNil, 0, []|exists CCons, 2, [x; xs]]; set_solver.
Qed.

Lemma signature_named enums rows row names args id sg all arity :
  signature enums id rows = Some sg → (CRecord all, arity) ∈ sg →
  row ∈ rows → row_first row = Ctor (CRecord names) args → names ⊆ all.
Proof.
  intros Hsg Hin Hrow Hp. destruct id as [|ns|e i|b| |]; simpl in Hsg; simplify_eq; try set_solver.
  - apply list_elem_of_singleton in Hin. simplify_eq. intros x Hx. apply column_names_spec.
    exists row. unfold names_of. by rewrite Hp.
  - apply bind_Some in Hsg as (info & _ & ?). simplify_eq. apply list_elem_of_fmap in Hin as (y & ? & _). done.
Qed.

(** Any fields are those of a value, for each of them. *)
Lemma zip_fields names us :
  NoDup names → length us = length names → mapM (lookup_field (zip names us)) names = Some us.
Proof.
  intros Hnd Hlen. apply mapM_Some_2, Forall2_same_length_lookup. split; [done|].
  intros k name u Hname Hu. unfold lookup_field.
  assert (list_find (λ f, f.1 = name) (zip names us) = Some (k, (name, u))) as ->; [|done].
  apply list_find_Some. split_and!; [|done|].
  - apply lookup_zip_with_Some. eauto 10.
  - intros j [n w] (n' & w' & ? & Hn & _)%lookup_zip_with_Some Hlt. simplify_eq/=. intros ->.
    pose proof (NoDup_lookup _ _ _ _ Hnd Hname Hn). lia.
Qed.

Lemma list_built ctor arity us :
  (ctor, arity) ∈ [(CNil, 0); (CCons, 2)] → length us = arity → ∃ v, fields_of ctor v = Some us.
Proof.
  intros [Hc|Hc%list_elem_of_singleton]%elem_of_cons Hlen; injection Hc as -> ->.
  - apply nil_length_inv in Hlen as ->. by exists VNil.
  - destruct us as [|x [|xs [|]]]; simplify_eq/=. by exists (VCons x xs).
Qed.

Lemma signature_built enums rows id sg ctor arity us :
  signature enums id rows = Some sg → (ctor, arity) ∈ sg → length us = arity →
  ∃ v, fields_of ctor v = Some us.
Proof.
  intros Hsg Hin Hlen. destruct id as [|ns|e i|b| |]; simpl in Hsg; simplify_eq.
  - apply list_elem_of_singleton in Hin. simplify_eq. by exists (VTuple us).
  - apply list_elem_of_singleton in Hin. simplify_eq. exists (VRecord (zip (column_names rows) us)).
    apply zip_fields; [apply column_names_spec|done].
  - apply bind_Some in Hsg as (info & _ & ?). simplify_eq.
    apply list_elem_of_fmap in Hin as ([j n] & ? & _). simplify_eq/=. exists (VVariant e j us).
    simpl. by rewrite decide_True.
  - apply elem_of_cons in Hin as [Hc|Hc%list_elem_of_singleton]; injection Hc as -> Hl;
      apply nil_length_inv in Hl as ->; [by exists (VBool true)|by exists (VBool false)].
  - by eapply list_built.
  - by eapply list_built.
Qed.

(** * The matrices of the search

    What each transformation of the rows keeps: their width, where their
    references are, and which rows of values they match. *)

#[local] Open Scope nat_scope.

(** Rows of one width, of references that have a property which parts
    inherit. *)
Definition ok (P : Ref → Prop) (rows : list Row) (width : nat) : Prop :=
  Forall (λ row, length row = width ∧ Forall P row) rows.

Class Inherited (P : Ref → Prop) := {
  inherited_wild : P WILD;
  inherited_part a id args i f : P (At a (Ctor id args)) → get_part a args i = Some f → P f;
  inherited_alternative a p r : P (At a p) → r ∈ alternatives a p → P r;
}.

#[global] Instance placed_inherited roots : Inherited (placed roots).
Proof.
  constructor.
  - done.
  - intros a id args i f Ha Hf. by eapply get_part_placed.
  - intros a p r Ha Hr. by eapply alternatives_placed.
Qed.

Definition wf_ref (enums : Enums) (r : Ref) : Prop := wf_pat enums (pat r) = true.

#[global] Instance wf_inherited enums : Inherited (wf_ref enums).
Proof.
  unfold wf_ref. constructor.
  - done.
  - intros a id args i f Hwf (p & Hp & ->)%fmap_Some. simpl in *.
    apply andb_true_iff in Hwf as [_ Hwf]. rewrite forallb_forall in Hwf.
    apply Hwf, list_elem_of_In. by eapply list_elem_of_lookup_2.
  - intros a p r Hwf Hr. simpl in Hwf. eapply (alternatives_inherit (λ p, wf_pat enums p = true)); [|done..].
    intros alts Halts. simpl in Halts. rewrite forallb_forall in Halts. apply Forall_forall.
    intros x Hx. by apply Halts, list_elem_of_In.
Qed.

(** A row of width [S w] is a first reference and [w] others. *)
Lemma row_cons (row : Row) w :
  length row = S w → ∃ r rest, row = r :: rest ∧ row_ref row = r ∧ length rest = w.
Proof. destruct row as [|r rest]; simpl; intros; simplify_eq. eauto. Qed.

Section rows.
Context (P : Ref → Prop) `{!Inherited P}.

Lemma ok_elem rows width row : ok P rows width → row ∈ rows → length row = width ∧ Forall P row.
Proof. intros Hok Hin. unfold ok in Hok. rewrite Forall_forall in Hok. by apply Hok. Qed.

Lemma ok_first rows w row :
  ok P rows (S w) → row ∈ rows → ∃ a p rest, row = At a p :: rest ∧ P (At a p) ∧ length rest = w ∧ Forall P rest.
Proof.
  intros Hok Hin. destruct (ok_elem _ _ _ Hok Hin) as [Hlen HP].
  destruct row as [|[a p] rest]; simplify_eq/=. apply Forall_cons in HP as [HP Hrest]. eauto 10.
Qed.

Lemma ok_filter (Q : Row → Prop) `{!∀ row, Decision (Q row)} rows width :
  ok P rows width → ok P (filter Q rows) width.
Proof. intros Hok. apply Forall_forall. intros row [_ Hin]%list_elem_of_filter. by eapply ok_elem. Qed.

Lemma ok_swap0 rows c width : ok P rows width → ok P (swap0 c <$> rows) width.
Proof.
  unfold ok. rewrite Forall_fmap. intros Hok. eapply Forall_impl; [exact Hok|]. intros row [Hlen HP]. simpl.
  split; [by rewrite length_swap0|by apply Forall_swap0].
Qed.

Lemma ok_expand rows w : ok P rows (S w) → ok P (flat_map expand_or rows) (S w).
Proof.
  intros Hok. apply Forall_forall. intros row' Hin.
  apply list_elem_of_In, in_flat_map in Hin as (row & Hrow & Hin).
  apply list_elem_of_In in Hrow, Hin. destruct (ok_first _ _ _ Hok Hrow) as (a & p & rest & -> & Hp & Hl & Hr).
  apply list_elem_of_fmap in Hin as (r & -> & Hr'). simpl in *. split; [congruence|].
  constructor; [|done]. by eapply inherited_alternative.
Qed.

Lemma ok_tails (Q : Row → Prop) `{!∀ row, Decision (Q row)} rows w :
  ok P rows (S w) → ok P (tail <$> filter Q rows) w.
Proof.
  intros Hok. apply Forall_forall. intros row' (row & -> & [_ Hrow]%list_elem_of_filter)%list_elem_of_fmap.
  by destruct (ok_first _ _ _ Hok Hrow) as (a & p & rest & -> & Hp & Hl & Hr).
Qed.

Lemma ok_specialize enums id all sg ctor arity rows w :
  signature enums id all = Some sg → (ctor, arity) ∈ sg →
  ok P rows (S w) → ok P (specialize rows ctor arity) (arity + w).
Proof.
  intros Hsg Hin Hok. destruct (signature_built _ _ _ _ _ _ (replicate arity VNil) Hsg Hin) as [v Hv];
    [by rewrite length_replicate|].
  apply Forall_forall. intros row' (row & Hrow & Hs)%list_elem_of_omap.
  destruct (ok_first _ _ _ Hok Hrow) as (a & p & rest & -> & Hp & Hl & Hr).
  rewrite specialize_row_cons in Hs. apply fmap_Some in Hs as (fields & Hs & ->).
  rewrite length_app, (spec_fields_length _ _ _ _ _ _ Hs Hv), Hl by by rewrite length_replicate.
  split; [done|]. apply Forall_app. split; [|done].
  apply (spec_fields_inherit P ctor arity (At a p)); [apply inherited_wild| |done].
  simpl. intros id' args i f -> Hf. by eapply inherited_part.
Qed.
End rows.

(** ** The rows of values matched *)

Lemma covers_nothing_match p v : covers_nothing p = true → pmatch p v = false.
Proof.
  destruct p as [|id args|[|alt alts]| |lo hi]; simpl; try done.
  intros Hlt. destruct v; try done. apply Z.ltb_lt in Hlt.
  destruct (lo <=? n)%Z eqn:H1, (n <=? hi)%Z eqn:H2; try done.
  apply Z.leb_le in H1, H2. lia.
Qed.

Lemma matched_elem rows vs : matched rows vs ↔ ∃ row, row ∈ rows ∧ row_matches row vs.
Proof. unfold matched. apply Exists_exists. Qed.

Lemma matched_retain rows vs :
  matched (filter (λ row, existsb (λ r, covers_nothing (pat r)) row = false) rows) vs ↔ matched rows vs.
Proof.
  rewrite !matched_elem. split; intros (row & Hin & Hm).
  - apply list_elem_of_filter in Hin as [_ Hin]. eauto.
  - exists row. split; [|done]. apply list_elem_of_filter. split; [|done].
    apply not_true_iff_false. intros (r & Hr & Hc)%existsb_exists.
    apply list_elem_of_In, list_elem_of_lookup in Hr as [i Hi].
    destruct (Forall2_lookup_l _ _ _ _ _ Hm Hi) as (v & _ & Hv).
    by rewrite covers_nothing_match in Hv.
Qed.

Lemma matched_retain_first rows v vs :
  matched (filter (λ row, covers_nothing (row_first row) = false) rows) (v :: vs) ↔ matched rows (v :: vs).
Proof.
  rewrite !matched_elem. split; intros (row & Hin & Hm).
  - apply list_elem_of_filter in Hin as [_ Hin]. eauto.
  - exists row. split; [|done]. apply list_elem_of_filter. split; [|done].
    apply Forall2_cons_inv_r in Hm as (r & rest & Hr & _ & ->). unfold row_first. simpl.
    apply not_true_iff_false. intros Hc. by rewrite covers_nothing_match in Hr.
Qed.

Lemma matched_swap0 rows c vs :
  c < length vs → matched (swap0 c <$> rows) (swap0 c vs) ↔ matched rows vs.
Proof.
  intros Hc. rewrite !matched_elem. split.
  - intros (row' & (row & -> & Hin)%list_elem_of_fmap & Hm). exists row. split; [done|].
    pose proof (Forall2_length _ _ _ Hm) as Hlen. rewrite !length_swap0 in Hlen.
    by apply Forall2_swap0_iff in Hm; [|lia..].
  - intros (row & Hin & Hm). exists (swap0 c row). split; [by apply list_elem_of_fmap_2|].
    apply Forall2_swap0; [|done]. pose proof (Forall2_length _ _ _ Hm). lia.
Qed.

Section matrices.
Context (P : Ref → Prop) `{!Inherited P} (enums : Enums) (rows : list Row) (w : nat).
Context (Hok : ok P rows (S w)).

Lemma matched_expand v vs : matched (flat_map expand_or rows) (v :: vs) ↔ matched rows (v :: vs).
Proof.
  rewrite !matched_elem. split.
  - intros (row' & Hin & Hm). apply list_elem_of_In, in_flat_map in Hin as (row & Hrow & Hin).
    apply list_elem_of_In in Hrow, Hin. exists row. split; [done|].
    destruct (ok_first _ _ _ _ Hok Hrow) as (a & p & rest & -> & _).
    apply list_elem_of_fmap in Hin as (r & -> & Hr). apply Forall2_cons in Hm as [Hv Hm].
    apply Forall2_cons. split; [|done]. apply (alternatives_match _ a). eauto.
  - intros (row & Hrow & Hm). destruct (ok_first _ _ _ _ Hok Hrow) as (a & p & rest & -> & _).
    apply Forall2_cons in Hm as [Hv Hm]. apply (alternatives_match _ a) in Hv as (r & Hr & Hv).
    exists (r :: rest). split; [|by constructor].
    apply list_elem_of_In, in_flat_map. exists (At a p :: rest).
    split; [by apply list_elem_of_In|]. apply list_elem_of_In, list_elem_of_fmap. by exists r.
Qed.

(** The rows that leave the first value untested match it, whatever it is;
    they are all the rows when none tests it. *)
Lemma matched_default v vs : matched (default_rows rows) vs → matched rows (v :: vs).
Proof.
  rewrite !matched_elem. intros (row' & (row & -> & [Hw Hrow]%list_elem_of_filter)%list_elem_of_fmap & Hm).
  exists row. split; [done|]. destruct (ok_first _ _ _ _ Hok Hrow) as (a & p & rest & -> & _).
  constructor; [|done]. unfold row_first in Hw. simpl in *. by destruct p.
Qed.

Lemma matched_default_inv v vs :
  (∀ row, row ∈ rows → pmatch (row_first row) v = true → row_first row = Wild) →
  matched rows (v :: vs) → matched (default_rows rows) vs.
Proof.
  intros Hwild. rewrite !matched_elem. intros (row & Hrow & Hm). specialize (Hwild row Hrow).
  destruct (ok_first _ _ _ _ Hok Hrow) as (a & p & rest & -> & _).
  apply Forall2_cons in Hm as [Hv Hm]. exists rest. split; [|done].
  apply list_elem_of_fmap. exists (At a p :: rest). split; [done|].
  apply list_elem_of_filter. split; [|done]. by rewrite (Hwild Hv).
Qed.

(** The rows of an interval match the integers of it. *)
Lemma matched_kept from to n vs :
  (from <= n <= to)%Z → matched (kept_rows rows from to) vs → matched rows (VInt n :: vs).
Proof.
  intros Hn. rewrite !matched_elem.
  intros (row' & (row & -> & [Hh Hrow]%list_elem_of_filter)%list_elem_of_fmap & Hm).
  exists row. split; [done|]. destruct (ok_first _ _ _ _ Hok Hrow) as (a & p & rest & -> & _).
  constructor; [|done]. unfold holds, row_first in Hh. simpl in *. destruct p; try done. simpl in *.
  apply andb_true_iff in Hh as [H1%Z.leb_le H2%Z.leb_le]. apply andb_true_iff. rewrite !Z.leb_le. lia.
Qed.

Lemma matched_kept_inv i n vs :
  (∀ row id args, row ∈ rows → row_first row ≠ Ctor id args) →
  (∀ row alts, row ∈ rows → row_first row ≠ Or alts) →
  i ∈ intervals (cuts (column_ranges rows)) → within n i →
  matched rows (VInt n :: vs) → matched (kept_rows rows i.1 i.2) vs.
Proof.
  intros Hctor Hor Hi Hn. rewrite !matched_elem. intros (row & Hrow & Hm).
  assert (Hk : is_wild (row_first row) || holds row i.1 i.2 = true).
  { assert (Hv : pmatch (row_first row) (VInt n) = true).
    { destruct (ok_first _ _ _ _ Hok Hrow) as (a & p & rest & -> & _). by apply Forall2_cons in Hm as [Hv _]. }
    unfold holds. destruct (row_first row) as [|id args|alts| |lo hi] eqn:Hp; try done.
    - by destruct (Hctor row id args).
    - by destruct (Hor row alts).
    - simpl in *. apply andb_true_iff in Hv as [H1%Z.leb_le H2%Z.leb_le].
      destruct (intervals_held (column_ranges rows) i n (lo, hi)) as [H3 H4]; [done..| |done|].
      + apply column_ranges_elem. exists row. simpl. split_and!; [done..|lia].
      + simpl in *. apply andb_true_iff. by rewrite !Z.leb_le. }
  destruct (ok_first _ _ _ _ Hok Hrow) as (a & p & rest & -> & _).
  apply Forall2_cons in Hm as [Hv Hm]. exists rest. split; [|done].
  apply list_elem_of_fmap. exists (At a p :: rest). split; [done|]. by apply list_elem_of_filter.
Qed.

(** The rows at a constructor match the fields of the values the rows
    match. *)
Lemma matched_specialize id sg ctor arity v us vs :
  signature enums id rows = Some sg → (ctor, arity) ∈ sg →
  fields_of ctor v = Some us → length us = arity → fitting enums rows (v :: vs) →
  matched (specialize rows ctor arity) (us ++ vs) → matched rows (v :: vs).
Proof.
  intros Hsg Hin Hus Hlen Hfit. rewrite !matched_elem. intros (row' & (row & Hrow & Hs)%list_elem_of_omap & Hm).
  exists row. split; [done|]. unfold fitting in Hfit. rewrite Forall_forall in Hfit. specialize (Hfit row Hrow).
  assert (Hn : ∀ all names args, ctor = CRecord all → row_first row = Ctor (CRecord names) args → names ⊆ all).
  { intros all names args -> Hp. by eapply signature_named. }
  destruct (ok_first _ _ _ _ Hok Hrow) as (a & p & rest & -> & _).
  rewrite specialize_row_cons in Hs. apply fmap_Some in Hs as (fields & Hs & ->).
  apply Forall2_cons in Hfit as [Hfit _].
  apply Forall2_app_iff in Hm as [Hf Hm]; [|rewrite Hlen; by eapply spec_fields_length].
  constructor; [|done]. eapply spec_fields_matched; [done..| |done].
  intros names args all Hp Hc. by eapply Hn.
Qed.

Lemma matched_specialize_inv ctor arity v us vs :
  (∀ row alts, row ∈ rows → row_first row ≠ Or alts) →
  fields_of ctor v = Some us → length us = arity →
  matched rows (v :: vs) → matched (specialize rows ctor arity) (us ++ vs).
Proof.
  intros Hor Hus Hlen. rewrite !matched_elem. intros (row & Hrow & Hm).
  specialize (λ alts, Hor row alts Hrow) as Hor'.
  destruct (ok_first _ _ _ _ Hok Hrow) as (a & p & rest & -> & _). unfold row_first in Hor'. simpl in Hor'.
  apply Forall2_cons in Hm as [Hv Hm]. simpl in Hv.
  destruct (spec_fields ctor arity (At a p)) as [fields|] eqn:Hs.
  - exists (fields ++ rest). split.
    + apply list_elem_of_omap. exists (At a p :: rest). split; [done|]. by rewrite specialize_row_cons, Hs.
    + apply Forall2_app; [|done]. by eapply (spec_fields_match ctor arity (At a p)).
  - pose proof (spec_fields_none _ _ _ _ _ Hus Hs Hor') as Hno. simpl in Hno. congruence.
Qed.

(** *** The types of the values *)

Lemma fitting_elem rs vs : fitting enums rs vs ↔ ∀ row, row ∈ rs → row_fits enums row vs.
Proof. unfold fitting. apply Forall_forall. Qed.

Lemma fitting_expand v vs : fitting enums rows (v :: vs) → fitting enums (flat_map expand_or rows) (v :: vs).
Proof.
  rewrite !fitting_elem. intros Hfit row' Hin. apply list_elem_of_In, in_flat_map in Hin as (row & Hrow & Hin).
  apply list_elem_of_In in Hrow, Hin. specialize (Hfit row Hrow).
  destruct (ok_first _ _ _ _ Hok Hrow) as (a & p & rest & -> & _).
  apply list_elem_of_fmap in Hin as (r & -> & Hr). apply Forall2_cons in Hfit as [Hv Hm].
  apply Forall2_cons. split; [|done].
  eapply (alternatives_inherit (λ p, fits enums p v)); [|done..]. intros alts. apply fits_or.
Qed.

Lemma fitting_tails (Q : Row → Prop) `{!∀ row, Decision (Q row)} v vs :
  fitting enums rows (v :: vs) → fitting enums (tail <$> filter Q rows) vs.
Proof.
  rewrite !fitting_elem. intros Hfit row' (row & -> & [_ Hrow]%list_elem_of_filter)%list_elem_of_fmap.
  specialize (Hfit row Hrow). destruct (ok_first _ _ _ _ Hok Hrow) as (a & p & rest & -> & _).
  by apply Forall2_cons in Hfit as [_ Hfit].
Qed.

Lemma fitting_specialize ctor arity v us vs :
  fields_of ctor v = Some us → length us = arity →
  fitting enums rows (v :: vs) → fitting enums (specialize rows ctor arity) (us ++ vs).
Proof.
  intros Hus Hlen. rewrite !fitting_elem. intros Hfit row' (row & Hrow & Hs)%list_elem_of_omap.
  specialize (Hfit row Hrow). destruct (ok_first _ _ _ _ Hok Hrow) as (a & p & rest & -> & _).
  rewrite specialize_row_cons in Hs. apply fmap_Some in Hs as (fields & Hs & ->).
  apply Forall2_cons in Hfit as [Hv Hfit]. apply Forall2_app; [|done]. by eapply (spec_fields_fit enums ctor arity (At a p)).
Qed.

Lemma fitting_first v vs row : fitting enums rows (v :: vs) → row ∈ rows → fits enums (row_first row) v.
Proof.
  rewrite fitting_elem. intros Hfit Hrow. specialize (Hfit row Hrow).
  destruct (ok_first _ _ _ _ Hok Hrow) as (a & p & rest & -> & _). by apply Forall2_cons in Hfit as [Hv _].
Qed.
End matrices.

Lemma fitting_filter enums (Q : Row → Prop) `{!∀ row, Decision (Q row)} rows vs :
  fitting enums rows vs → fitting enums (filter Q rows) vs.
Proof. rewrite !fitting_elem. intros Hfit row [_ Hrow]%list_elem_of_filter. by apply Hfit. Qed.

Lemma fitting_swap0 enums rows c vs :
  c < length vs → fitting enums rows vs → fitting enums (swap0 c <$> rows) (swap0 c vs).
Proof.
  intros Hc. rewrite !fitting_elem. intros Hfit row' (row & -> & Hrow)%list_elem_of_fmap.
  specialize (Hfit row Hrow). apply Forall2_swap0; [|done]. pose proof (Forall2_length _ _ _ Hfit). lia.
Qed.
