(* ===== verification/ExhaustiveSearch.v ===== *)
(** * The two answers of the search

    By induction on the depth: rows found to cover match every row of
    values of their types, and a row of witnesses stands for values that
    no row matches. *)

From S2P Require Import Prelude Int64 Exhaustive ExhaustiveInts ExhaustiveSem ExhaustiveFacts.

#[local] Open Scope nat_scope.

(** The rows of a column that is split. *)
Definition plain (rows : list Row) : Prop :=
  ∀ row, row ∈ rows → covers_nothing (row_first row) = false ∧ ∀ alts, row_first row ≠ Or alts.

Lemma expanded_plain rows :
  plain (filter (λ row, covers_nothing (row_first row) = false) (flat_map expand_or rows)).
Proof.
  intros row' [Hc Hin]%list_elem_of_filter. split; [done|].
  apply list_elem_of_In, in_flat_map in Hin as (row & _ & Hin).
  apply list_elem_of_In, list_elem_of_fmap in Hin as (r & -> & Hr). unfold row_first. simpl.
  intros alts. by eapply alternatives_not_or.
Qed.

Lemma column_head_spec rows :
  match column_head rows with
  | Some (Ctor id args) => ∃ row, row ∈ rows ∧ row_first row = Ctor id args
  | Some (IntRange lo hi) =>
      (∃ row, row ∈ rows ∧ row_first row = IntRange lo hi) ∧
      ∀ row id args, row ∈ rows → row_first row ≠ Ctor id args
  | Some _ => False
  | None =>
      ∀ row, row ∈ rows →
        (∀ id args, row_first row ≠ Ctor id args) ∧ (∀ lo hi, row_first row ≠ IntRange lo hi)
  end.
Proof.
  unfold column_head. destruct (list_find _ (row_first <$> rows)) as [[i p]|] eqn:Hf.
  { apply list_find_Some in Hf as (Hi & Hp & _). apply list_elem_of_lookup_2, list_elem_of_fmap in Hi.
    destruct Hi as (row & -> & Hrow). destruct (row_first row) eqn:Hr; try done. eauto. }
  apply list_find_None in Hf. rewrite Forall_fmap, Forall_forall in Hf. simpl in Hf.
  assert (Hc : ∀ row id args, row ∈ rows → row_first row ≠ Ctor id args).
  { intros row id args Hrow Hr. apply (Hf row Hrow). simpl. by rewrite Hr. }
  destruct (list_find _ (row_first <$> rows)) as [[i p]|] eqn:Hg; simpl.
  - apply list_find_Some in Hg as (Hi & Hp & _). apply list_elem_of_lookup_2, list_elem_of_fmap in Hi.
    destruct Hi as (row & -> & Hrow). destruct (row_first row) eqn:Hr; try done. eauto.
  - apply list_find_None in Hg. rewrite Forall_fmap, Forall_forall in Hg. simpl in Hg.
    intros row Hrow. split; [eauto|]. intros lo hi Hr. apply (Hg row Hrow). simpl. by rewrite Hr.
Qed.

(** The untested column: every row leaves it alone. *)
Lemma plain_wild rows :
  plain rows →
  (∀ row, row ∈ rows →
     (∀ id args, row_first row ≠ Ctor id args) ∧ (∀ lo hi, row_first row ≠ IntRange lo hi)) →
  ∀ row, row ∈ rows → row_first row = Wild.
Proof.
  intros Hplain Hno row Hrow. destruct (Hplain row Hrow) as [Hc Hor], (Hno row Hrow) as [Hct Hint].
  destruct (row_first row) as [|id args|alts| |lo hi]; try done; naive_solver.
Qed.

Lemma column_of_lt rows width P : ok P rows (S width) → column_of rows < S width.
Proof.
  intros Hok. unfold column_of. destruct rows as [|row rows]; simpl; [lia|].
  apply Forall_cons in Hok as [[Hlen _] _].
  destruct (list_find _ row) as [[i r]|] eqn:Hf; simpl; [|lia].
  apply list_find_Some in Hf as (Hi & _). apply lookup_lt_Some in Hi. lia.
Qed.

(** ** Covered *)

(** No values are needed to see that no rows cover nothing. *)
Lemma covers_nil enums width : ¬ covers enums [] width.
Proof.
  intros Hc. specialize (Hc (replicate width VNil)). rewrite length_replicate in Hc.
  specialize (Hc eq_refl ltac:(constructor)). by apply Exists_nil in Hc.
Qed.

Section sound.
Context (enums : Enums) (roots : list Pat) (deeper : N → list Row → nat → N * Found).
Context (IH : ∀ cells rows width,
  ok (placed roots) rows width → (deeper cells rows width).2 = Covered → covers enums rows width).
Context (rows : list Row) (w : nat) (Hok : ok (placed roots) rows (S w)).

Lemma default_sound : covers enums (default_rows rows) w → covers enums rows (S w).
Proof.
  intros Hc [|v vs] Hlen Hfit; [done|]; injection Hlen as Hlen. eapply matched_default; [done|].
  apply Hc; [done|]. by eapply fitting_tails.
Qed.

Lemma untested_sound cells : (untested deeper cells rows (S w)).2 = Covered → covers enums rows (S w).
Proof.
  unfold untested. simpl. rewrite Nat.sub_0_r.
  destruct (deeper _ _ _) as [c r] eqn:Hd. destruct r; simpl; try done. intros _.
  apply default_sound, (IH cells); [by apply ok_tails|by rewrite Hd].
Qed.

Lemma try_ctors_sound sg cells covered :
  (∀ ctor arity, (ctor, arity) ∈ sg → ok (placed roots) (specialize rows ctor arity) (arity + w)) →
  Forall (λ done, ∃ width, ok (placed roots) done width ∧ covers enums done width) covered →
  (try_ctors deeper cells rows (S w) covered sg).2 = Covered →
  ∀ ctor arity, (ctor, arity) ∈ sg → covers enums (specialize rows ctor arity) (arity + w).
Proof.
  revert cells covered. induction sg as [|[ctor arity] sg IHsg]; intros cells covered Hsg Hcov Hres;
    [set_solver|].
  assert (Hsg' : ∀ ctor arity, (ctor, arity) ∈ sg → ok (placed roots) (specialize rows ctor arity) (arity + w)).
  { intros. apply Hsg. set_solver. }
  specialize (Hsg ctor arity ltac:(set_solver)). simpl in Hres.
  destruct (existsb _ covered) eqn:Hdone.
  - apply existsb_exists in Hdone as (seen & Hin & Hsame). apply list_elem_of_In in Hin.
    rewrite Forall_forall in Hcov. destruct (Hcov seen Hin) as (width & Hd & Hc).
    assert (seen = specialize rows ctor arity) as ->.
    { apply (same_rows_eq roots); [..|done]; (eapply Forall_impl; [eassumption|]); naive_solver. }
    intros ctor' arity' [Heq|Hin']%elem_of_cons; [simplify_eq|].
    + assert (width = arity + w) as ->; [|done].
      destruct (specialize rows ctor arity) as [|row l]; [by apply covers_nil in Hc|].
      apply Forall_cons in Hd as [[? _] _], Hsg as [[? _] _]. congruence.
    + eapply IHsg; [done| |done..]. by apply Forall_forall.
  - rewrite Nat.add_succ_r, Nat.sub_succ, Nat.sub_0_r in Hres.
    destruct (deeper _ _ _) as [c r] eqn:Hd. destruct r; simpl in Hres; try done.
    assert (Hc : covers enums (specialize rows ctor arity) (arity + w)).
    { apply (IH cells); [done|by rewrite Hd]. }
    intros ctor' arity' [Heq|Hin']%elem_of_cons; [by simplify_eq|].
    eapply IHsg; [done| |done..]. apply Forall_app. split; [done|]. apply Forall_singleton. eauto.
Qed.

Lemma ctors_sound cells id args row sg :
  row ∈ rows → row_first row = Ctor id args → signature enums id rows = Some sg →
  (try_ctors deeper cells rows (S w) [] sg).2 = Covered → covers enums rows (S w).
Proof.
  intros Hrow Hp Hsg Hres [|v vs] Hlen Hfit; [done|]; injection Hlen as Hlen.
  destruct (signature_complete enums rows row id args sg v) as (ctor & arity & us & Hin & Hus & Hl);
    [intros; by eapply fitting_first|done..|].
  eapply matched_specialize; [done..|].
  eapply (try_ctors_sound sg cells []); [|constructor|done|done| |].
  - intros. eapply (ok_specialize (placed roots)); done.
  - rewrite length_app. lia.
  - by eapply fitting_specialize.
Qed.

Lemma try_intervals_sound l cells :
  (try_intervals deeper cells rows (S w) l).2 = Covered →
  ∀ i, i ∈ l → covers enums (kept_rows rows i.1 i.2) w.
Proof.
  revert cells. induction l as [|[from to] l IHl]; intros cells Hres; [set_solver|].
  simpl in Hres. rewrite Nat.sub_0_r in Hres.
  destruct (deeper _ _ _) as [c r] eqn:Hd. destruct r; simpl in Hres; try done.
  intros i [->|Hi]%elem_of_cons; [|by eapply IHl]. simpl.
  apply (IH cells); [by apply ok_tails|by rewrite Hd].
Qed.

Lemma int_column_sound cells lo hi row :
  row ∈ rows → row_first row = IntRange lo hi →
  (uncovered_int_column deeper cells rows (S w)).2 = Covered → covers enums rows (S w).
Proof.
  intros Hrow Hp. unfold uncovered_int_column. destruct (first_gap _ _ <? _)%Z eqn:Hgap.
  - simpl. rewrite Nat.sub_0_r. destruct (deeper _ _ _) as [c r] eqn:Hd. destruct r; simpl; try done.
    intros _. apply default_sound, (IH cells); [by apply ok_tails|by rewrite Hd].
  - intros Hres [|v vs] Hlen Hfit; [done|]; injection Hlen as Hlen.
    pose proof (fitting_first _ _ _ _ Hok _ _ _ Hfit Hrow) as Hv. rewrite Hp in Hv.
    destruct Hv as (n & -> & Hn). apply in_i64_spec in Hn. apply Z.ltb_ge in Hgap.
    destruct (intervals_cover (column_ranges rows) n) as (i & Hi & Hw).
    { apply (first_gap_covers _ i64_min). lia. }
    eapply (matched_kept _ _ _ Hok); [exact Hw|].
    eapply try_intervals_sound; [done..|]. by eapply fitting_tails.
Qed.

Lemma split_column_sound cells :
  plain rows → (split_column enums deeper cells rows (S w)).2 = Covered → covers enums rows (S w).
Proof.
  intros Hplain. unfold split_column. pose proof (column_head_spec rows) as Hhead.
  destruct (column_head rows) as [[|id args|alts| |lo hi]|]; try done; [..|apply untested_sound].
  - destruct Hhead as (row & Hrow & Hp). destruct (signature enums id rows) as [sg|] eqn:Hsg.
    + by eapply ctors_sound.
    + apply untested_sound.
  - destruct Hhead as [(row & Hrow & Hp) _]. by eapply int_column_sound.
Qed.
End sound.

(** ** A row of witnesses *)

(** Which constructor, and which interval, a row of witnesses begins with. *)
Section chosen.
Context (deeper : N → list Row → nat → N * Found) (rows : list Row) (w : nat).

Lemma try_ctors_missed sg cells covered ws :
  (try_ctors deeper cells rows (S w) covered sg).2 = Missing ws →
  ∃ ctor arity cells fields, (ctor, arity) ∈ sg ∧
    (deeper cells (specialize rows ctor arity) (arity + w)).2 = Missing fields ∧
    ws = WCtor ctor (take arity fields) :: drop arity fields.
Proof.
  revert cells covered. induction sg as [|[ctor arity] sg IHsg]; intros cells covered Hres; [done|].
  simpl in Hres. rewrite Nat.add_succ_r, Nat.sub_succ, Nat.sub_0_r in Hres.
  destruct (existsb _ covered) eqn:Hdone;
    [destruct (IHsg _ _ Hres) as (c & a & n & f & ? & ?); exists c, a, n, f; set_solver|].
  destruct (deeper _ _ _) as [c r] eqn:Hd. destruct r as [| |fields]; simpl in Hres; [done|..].
  - destruct (IHsg _ _ Hres) as (c' & a & n & f & ? & ?). exists c', a, n, f. set_solver.
  - injection Hres as <-. exists ctor, arity, cells, fields. rewrite Hd. set_solver.
Qed.

Lemma try_intervals_missed l cells ws :
  (try_intervals deeper cells rows (S w) l).2 = Missing ws →
  ∃ i cells rest, i ∈ l ∧ (deeper cells (kept_rows rows i.1 i.2) w).2 = Missing rest ∧
    ws = WInt (as_i64 (clamp0 i.1 i.2)) :: rest.
Proof.
  revert cells. induction l as [|[from to] l IHl]; intros cells Hres; [done|].
  simpl in Hres. rewrite Nat.sub_0_r in Hres.
  destruct (deeper _ _ _) as [c r] eqn:Hd. destruct r as [| |rest]; simpl in Hres; [done|..].
  - destruct (IHl _ Hres) as (i & n & rest & ? & ?). exists i, n, rest. set_solver.
  - injection Hres as <-. exists (from, to), cells, rest. simpl. rewrite Hd. set_solver.
Qed.

End chosen.

Section genuine.
Context (enums : Enums) (deeper : N → list Row → nat → N * Found).
#[local] Abbreviation wf := (wf_ref enums).
Context (IH : ∀ cells rows width ws,
  ok wf rows width → (deeper cells rows width).2 = Missing ws → length ws = width ∧ missed rows ws).
Context (rows : list Row) (w : nat) (Hok : ok wf rows (S w)) (Hplain : plain rows).

Lemma rows_not_or row alts : row ∈ rows → row_first row ≠ Or alts.
Proof. intros Hrow. by destruct (Hplain row Hrow) as [_ Hor]. Qed.

(** A first value that only the rows that leave it untested match. *)
Lemma default_missed first v ws :
  instance first v →
  (∀ v row, instance first v → row ∈ rows → pmatch (row_first row) v = true → row_first row = Wild) →
  length ws = w ∧ missed (default_rows rows) ws →
  length (first :: ws) = S w ∧ missed rows (first :: ws).
Proof.
  intros Hv Hwild (Hlen & [vs Hvs] & Hno). split; [simpl; congruence|]. split; [exists (v :: vs); by constructor|].
  intros vs' (v' & rest & Hi & Hrest & ->)%Forall2_cons_inv_l Hm.
  apply (Hno rest Hrest). by eapply matched_default_inv; [done|..]; eauto.
Qed.

Lemma untested_missed cells ws :
  (∀ row, row ∈ rows → row_first row = Wild) →
  (untested deeper cells rows (S w)).2 = Missing ws → length ws = S w ∧ missed rows ws.
Proof.
  intros Hwild. unfold untested. simpl. rewrite Nat.sub_0_r.
  destruct (deeper _ _ _) as [c r] eqn:Hd. destruct r; simpl; try done. intros [= <-].
  apply (default_missed WAny VNil); [done|by eauto|].
  apply (IH cells); [by apply (ok_tails wf)|by rewrite Hd].
Qed.

Lemma ctor_missed id sg ctor arity fields :
  signature enums id rows = Some sg → (ctor, arity) ∈ sg →
  length fields = arity + w → missed (specialize rows ctor arity) fields →
  let ws := WCtor ctor (take arity fields) :: drop arity fields in length ws = S w ∧ missed rows ws.
Proof.
  intros Hsg Hin Hlen [[vs Hvs] Hno]. simpl. rewrite length_drop. split; [lia|].
  rewrite <- (take_drop arity fields) in Hvs. apply Forall2_app_inv_l in Hvs as (us & rest & Hus & Hrest & ->).
  assert (Hl : length (take arity fields) = arity) by (rewrite length_take; lia). split.
  - destruct (signature_built _ _ _ _ _ _ us Hsg Hin) as [v Hv]; [by rewrite <- (Forall2_length _ _ _ Hus)|].
    exists (v :: rest). constructor; [|done]. simpl. rewrite Hv. by apply pairwise_Forall2.
  - intros vs' (v & rest' & Hi & Hrest' & ->)%Forall2_cons_inv_l Hm. simpl in Hi.
    destruct (fields_of ctor v) as [us'|] eqn:Hf; [|done]. apply pairwise_Forall2 in Hi.
    apply (Hno (us' ++ rest')).
    + rewrite <- (take_drop arity fields). by apply Forall2_app.
    + eapply matched_specialize_inv; [done| |done| |done]; [intros; by apply rows_not_or|].
      by rewrite <- (Forall2_length _ _ _ Hi).
Qed.

Lemma column_ranges_i64 :
  Forall (λ r, (i64_min <= r.1 ∧ r.2 <= i64_max ∧ r.1 <= r.2)%Z) (column_ranges rows).
Proof.
  apply Forall_forall. intros r (row & Hrow & Hp & Hle)%column_ranges_elem.
  destruct (ok_first _ _ _ _ Hok Hrow) as (a & p & rest & -> & Hwf & _).
  unfold row_first in Hp. unfold wf_ref in Hwf. simpl in Hp, Hwf. subst p. simpl in Hwf.
  apply andb_true_iff in Hwf as [H1%in_i64_spec H2%in_i64_spec]. lia.
Qed.

Lemma interval_missed i rest :
  (∀ row id args, row ∈ rows → row_first row ≠ Ctor id args) →
  i ∈ intervals (cuts (column_ranges rows)) →
  length rest = w ∧ missed (kept_rows rows i.1 i.2) rest →
  let ws := WInt (as_i64 (clamp0 i.1 i.2)) :: rest in length ws = S w ∧ missed rows ws.
Proof.
  intros Hctor Hi (Hlen & [vs Hvs] & Hno).
  pose proof (clamp0_within i (intervals_nonempty _ _ Hi)) as Hn.
  assert (as_i64 (clamp0 i.1 i.2) = clamp0 i.1 i.2) as ->.
  { apply wrap_i64_id. pose proof (intervals_bounds _ _ _ _ column_ranges_i64 Hi). unfold within in Hn. lia. }
  simpl. split; [congruence|]. split; [exists (VInt (clamp0 i.1 i.2) :: vs); by constructor|].
  intros vs' (v & rest' & Hv & Hrest & ->)%Forall2_cons_inv_l Hm. simpl in Hv. subst v.
  apply (Hno rest' Hrest). eapply matched_kept_inv; [done|done| |done..]. intros. by apply rows_not_or.
Qed.

Lemma int_column_missed cells ws :
  (∀ row id args, row ∈ rows → row_first row ≠ Ctor id args) →
  (uncovered_int_column deeper cells rows (S w)).2 = Missing ws → length ws = S w ∧ missed rows ws.
Proof.
  intros Hctor. unfold uncovered_int_column. destruct (first_gap _ _ <? _)%Z eqn:Hgap.
  - simpl. rewrite Nat.sub_0_r. destruct (deeper _ _ _) as [c r] eqn:Hd. destruct r as [| |rest]; simpl; try done.
    intros [= <-]. apply Z.ltb_lt in Hgap. pose proof (column_ranges_sorted rows) as Hs.
    pose proof (first_gap_outside _ i64_min Hs) as Hout. pose proof (first_gap_ge (column_ranges rows) i64_min).
    assert (Hin : in_i64 (first_gap i64_min (column_ranges rows)) = true) by (apply in_i64_spec; lia).
    destruct (outside_spec _ _ Hs Hin Hout) as (_ & Hno & _).
    apply (default_missed _ (VInt (outside (column_ranges rows)))); [done| |].
    + intros v row Hv Hrow Hm. simpl in Hv. subst v. pose proof (rows_not_or row) as Hor.
      destruct (row_first row) as [|id args|alts| |lo hi] eqn:Hp; try done.
      { by destruct (Hctor row id args Hrow). }
      { by destruct (Hor alts Hrow). }
      exfalso. simpl in Hm. apply andb_true_iff in Hm as [H1%Z.leb_le H2%Z.leb_le]. apply Hno, Exists_exists.
      exists (lo, hi). split; [|done]. apply column_ranges_elem. exists row. simpl. split_and!; [done..|lia].
    + apply (IH cells); [by apply (ok_tails wf)|by rewrite Hd].
  - intros (i & n & rest & Hi & Hd & ->)%try_intervals_missed. apply interval_missed; [done..|].
    apply (IH n); [by apply (ok_tails wf)|done].
Qed.

Lemma split_column_missed cells ws :
  (split_column enums deeper cells rows (S w)).2 = Missing ws → length ws = S w ∧ missed rows ws.
Proof.
  unfold split_column. pose proof (column_head_spec rows) as Hhead.
  destruct (column_head rows) as [[|id args|alts| |lo hi]|]; try done.
  - destruct Hhead as (row & Hrow & Hp). destruct (signature enums id rows) as [sg|] eqn:Hsg.
    + intros (ctor & arity & n & fields & Hin & Hd & ->)%try_ctors_missed.
      destruct (IH _ _ _ _ ltac:(by eapply (ok_specialize wf)) Hd) as [Hlen Hm]. by eapply ctor_missed.
    + exfalso. destruct (ok_first _ _ _ _ Hok Hrow) as (a & p & rest & -> & Hwf & _).
      unfold row_first in Hp. unfold wf_ref in Hwf. simpl in Hp, Hwf. subst p. destruct id; try done. simpl in *.
      apply andb_true_iff in Hwf as [[info He]%bool_decide_eq_true _]. by rewrite He in Hsg.
  - destruct Hhead as [_ Hctor]. by apply int_column_missed.
  - apply untested_missed. by apply plain_wild.
Qed.
End genuine.

(** ** The search *)

Definition retained (rows : list Row) : list Row :=
  filter (λ row, existsb (λ r, covers_nothing (pat r)) row = false) rows.
Definition expanded_at (c : nat) (rows : list Row) : list Row :=
  filter (λ row, covers_nothing (row_first row) = false) (flat_map expand_or (swap0 c <$> rows)).

Lemma uncovered_step enums levels cells rows width :
  uncovered enums levels cells rows width =
  match retained rows with
  | [] => (cells, Missing (replicate width WAny))
  | _ =>
      if decide (width = 0) then (cells, Covered)
      else
        let cells := (cells + N.of_nat (length (retained rows) * width))%N in
        match levels with
        | 0 => (cells, Unverified)
        | S levels =>
            if (MAX_CELLS <? cells)%N then (cells, Unverified)
            else if existsb (forallb (λ r, is_wild (pat r))) (retained rows) then (cells, Covered)
            else
              let column := column_of (retained rows) in
              let '(cells, r) := split_column enums (uncovered enums levels) cells
                                   (expanded_at column (retained rows)) width in
              (cells, found_map (swap0 column) r)
        end
  end.
Proof. by destruct levels. Qed.

(** How a search ends, or goes on at the column it splits by. *)
Lemma uncovered_cases enums levels cells rows width :
  let out := uncovered enums levels cells rows width in
  retained rows = [] ∧ out.2 = Missing (replicate width WAny) ∨
  retained rows ≠ [] ∧ width = 0 ∧ out.2 = Covered ∨
  out.2 = Unverified ∨
  existsb (forallb (λ r, is_wild (pat r))) (retained rows) = true ∧ out.2 = Covered ∨
  ∃ levels' cells' w, levels = S levels' ∧ width = S w ∧
    let c := column_of (retained rows) in
    out.2 = found_map (swap0 c)
      (split_column enums (uncovered enums levels') cells' (expanded_at c (retained rows)) width).2.
Proof.
  cbv zeta. rewrite uncovered_step. destruct (retained rows) as [|row rows'] eqn:Hrows; [by left|right].
  rewrite <- Hrows in *. assert (Hne : retained rows ≠ []) by by rewrite Hrows.
  case_decide as Hw; [by left|right]. cbv zeta. destruct levels as [|levels]; [by left|].
  destruct (MAX_CELLS <? _)%N; [by left|right].
  destruct (existsb _ (retained rows)); [by left|right].
  destruct width as [|w]; [done|].
  exists levels, (cells + N.of_nat (length (retained rows) * S w))%N, w. split; [done|]. split; [done|].
  by destruct (split_column _ _ _ _ _) as [n r].
Qed.

(** ** The bound on the patterns looked at *)

Definition bounded (cells : N) (out : N * Found) : Prop :=
  (cells <= out.1)%N ∧ (out.2 ≠ Unverified → out.1 <= N.max cells MAX_CELLS)%N.

Lemma bounded_trans c1 c2 out :
  bounded c1 (c2, Covered) → bounded c2 out → bounded c1 out.
Proof.
  intros [H1 H2] [H3 H4]. simpl in *. specialize (H2 ltac:(done)). split; [lia|].
  intros Hu. specialize (H4 Hu). lia.
Qed.

Lemma bounded_map f cells out : bounded cells out → bounded cells (out.1, found_map f out.2).
Proof. intros [H1 H2]. split; [done|]. simpl. intros Hu. apply H2. by destruct out.2. Qed.

Lemma bounded_missing cells c ws ws' : bounded cells (c, Missing ws) → bounded cells (c, Missing ws').
Proof. intros [H1 H2]. split; [done|]. intros _. by apply H2. Qed.

Section bound.
Context (enums : Enums) (deeper : N → list Row → nat → N * Found).
Context (Hdeep : ∀ cells rows width, bounded cells (deeper cells rows width)).

Lemma bounded_deeper cells rows width c r :
  deeper cells rows width = (c, r) → bounded cells (c, r).
Proof. intros <-. apply Hdeep. Qed.

Lemma try_ctors_bounded cells rows width covered sg :
  bounded cells (try_ctors deeper cells rows width covered sg).
Proof.
  revert cells covered. induction sg as [|[ctor arity] sg IH]; intros cells covered; simpl.
  { split; simpl; lia. }
  destruct (existsb _ covered); [apply IH|]. destruct (deeper _ _ _) as [c r] eqn:Hd.
  apply bounded_deeper in Hd. destruct r; [done| |by eapply bounded_missing].
  by eapply bounded_trans.
Qed.

Lemma try_intervals_bounded cells rows width l :
  bounded cells (try_intervals deeper cells rows width l).
Proof.
  revert cells. induction l as [|[from to] l IH]; intros cells; simpl; [split; simpl; lia|].
  destruct (deeper _ _ _) as [c r] eqn:Hd.
  apply bounded_deeper in Hd. destruct r; [done| |by eapply bounded_missing].
  by eapply bounded_trans.
Qed.

Lemma mapped_bounded f cells rows width :
  bounded cells (let '(cells, r) := deeper cells rows width in (cells, found_map f r)).
Proof. pose proof (Hdeep cells rows width) as H. destruct (deeper _ _ _). by apply (bounded_map f) in H. Qed.

Lemma split_column_bounded cells rows width : bounded cells (split_column enums deeper cells rows width).
Proof.
  unfold split_column, untested, uncovered_int_column.
  destruct (column_head rows) as [[|id args|alts| |lo hi]|]; try apply mapped_bounded.
  - destruct (signature enums id rows); [apply try_ctors_bounded|apply mapped_bounded].
  - cbv zeta. destruct (_ <? _)%Z; [apply mapped_bounded|apply try_intervals_bounded].
Qed.
End bound.

Lemma uncovered_bounded enums levels cells rows width :
  bounded cells (uncovered enums levels cells rows width).
Proof.
  revert cells rows width. induction levels as [levels IH] using lt_wf_ind. intros cells rows width.
  assert (Hid : ∀ r, bounded cells (cells, r)) by (intros r; split; simpl; lia).
  rewrite uncovered_step. destruct (retained rows) as [|row rows'] eqn:Hrows; [done|].
  rewrite <- Hrows. case_decide; [done|]. cbv zeta.
  set (cells' := (cells + N.of_nat (length (retained rows) * width))%N).
  assert (Hu : bounded cells (cells', Unverified)) by (split; [simpl; lia|done]).
  destruct levels as [|levels]; [done|]. destruct (MAX_CELLS <? cells')%N eqn:Hc; [done|].
  apply N.ltb_ge in Hc. assert (Hcov : bounded cells (cells', Covered)) by (split; simpl; lia).
  destruct (existsb _ _); [done|].
  pose proof (split_column_bounded enums (uncovered enums levels) ltac:(intros; apply IH; lia) cells'
    (expanded_at (column_of (retained rows)) (retained rows)) width) as Hb.
  destruct (split_column _ _ _ _ _) as [n r]. apply (bounded_map (swap0 (column_of (retained rows)))) in Hb.
  by eapply bounded_trans.
Qed.

Lemma wild_row_matches row vs :
  length row = length vs → forallb (λ r, is_wild (pat r)) row = true → row_matches row vs.
Proof.
  intros Hlen Hw. apply Forall2_same_length_lookup. split; [done|]. intros i r v Hr _.
  rewrite forallb_forall in Hw. specialize (Hw r ltac:(by eapply list_elem_of_In, list_elem_of_lookup_2)).
  by destruct (pat r).
Qed.

Section expanded.
Context (P : Ref → Prop) `{!Inherited P} (rows : list Row) (w : nat) (Hok : ok P rows (S w)).
Context (c : nat) (Hc : c < S w).

Lemma expanded_ok : ok P (expanded_at c rows) (S w).
Proof. by apply ok_filter, ok_expand, ok_swap0. Qed.

Lemma expanded_matched vs :
  length vs = S w → matched (expanded_at c rows) (swap0 c vs) ↔ matched rows vs.
Proof.
  intros Hlen. rewrite <- (matched_swap0 rows c vs) by lia.
  assert (Hok' : ok P (swap0 c <$> rows) (S w)) by by apply ok_swap0.
  pose proof (length_swap0 c vs) as Hl. destruct (swap0 c vs) as [|v vs']; [simpl in Hl; lia|].
  unfold expanded_at. by rewrite matched_retain_first, (matched_expand _ _ _ Hok').
Qed.

Lemma expanded_fitting enums vs :
  length vs = S w → fitting enums rows vs → fitting enums (expanded_at c rows) (swap0 c vs).
Proof.
  intros Hlen Hfit. apply (fitting_swap0 _ _ c) in Hfit; [|lia].
  assert (Hok' : ok P (swap0 c <$> rows) (S w)) by by apply ok_swap0.
  pose proof (length_swap0 c vs) as Hl. destruct (swap0 c vs) as [|v vs']; [simpl in Hl; lia|].
  by apply fitting_filter, (fitting_expand _ _ _ _ Hok').
Qed.
End expanded.

Lemma uncovered_covered enums roots levels cells rows width :
  ok (placed roots) rows width → (uncovered enums levels cells rows width).2 = Covered →
  covers enums rows width.
Proof.
  revert cells rows width. induction levels as [levels IH] using lt_wf_ind. intros cells rows width Hok Hres.
  assert (Hok' : ok (placed roots) (retained rows) width) by by apply ok_filter.
  enough (Hcov : covers enums (retained rows) width).
  { intros vs Hlen Hfit. apply matched_retain, Hcov; [done|]. by apply fitting_filter. }
  destruct (uncovered_cases enums levels cells rows width) as
    [[_ He]|[(Hne & -> & _)|[He|[[Hw _]|(levels' & cells' & w & -> & -> & He)]]]]; try congruence.
  - intros vs Hlen _. apply nil_length_inv in Hlen as ->. destruct (retained rows) as [|row l]; [done|].
    apply Forall_cons in Hok' as [[Hlen _] _]. apply nil_length_inv in Hlen as ->. left. constructor.
  - intros vs Hlen _. apply existsb_exists in Hw as (row & Hrow & Hw). apply list_elem_of_In in Hrow.
    apply matched_elem. exists row. split; [done|]. apply wild_row_matches; [|done].
    destruct (ok_elem _ _ _ _ Hok' Hrow). congruence.
  - cbv zeta in He. rewrite Hres in He. set (c := column_of (retained rows)) in *.
    assert (Hc : c < S w) by by eapply column_of_lt.
    destruct (split_column _ _ _ _ _).2 eqn:Hs; simpl in He; try done.
    intros vs Hlen Hfit. apply (expanded_matched (placed roots) _ w Hok' c Hc); [done|].
    eapply (split_column_sound enums roots (uncovered enums levels')); [|by apply (expanded_ok (placed roots))| |exact Hs| |].
    + intros ????. apply IH; [lia|done].
    + apply expanded_plain.
    + by rewrite length_swap0.
    + by apply (expanded_fitting (placed roots) _ w).
Qed.

Lemma instance_any width : Forall2 instance (replicate width WAny) (replicate width VNil).
Proof. by apply Forall2_replicate. Qed.

Lemma uncovered_missing enums levels cells rows width ws :
  ok (wf_ref enums) rows width →
  (uncovered enums levels cells rows width).2 = Missing ws → length ws = width ∧ missed rows ws.
Proof.
  revert cells rows width ws. induction levels as [levels IH] using lt_wf_ind.
  intros cells rows width ws Hok Hres.
  assert (Hok' : ok (wf_ref enums) (retained rows) width) by by apply ok_filter.
  enough (Hcov : length ws = width ∧ missed (retained rows) ws).
  { destruct Hcov as (Hlen & Hex & Hno). split; [done|]. split; [done|].
    intros vs Hvs Hm. by apply (Hno vs Hvs), matched_retain. }
  destruct (uncovered_cases enums levels cells rows width) as
    [[Hnil He]|[(Hne & -> & ?)|[He|[[Hw ?]|(levels' & cells' & w & -> & -> & He)]]]]; try congruence.
  - rewrite He in Hres. injection Hres as <-. rewrite Hnil, length_replicate. split; [done|]. split.
    + eexists. apply instance_any.
    + intros vs _ Hm. by apply Exists_nil in Hm.
  - cbv zeta in He. rewrite Hres in He. set (c := column_of (retained rows)) in *.
    assert (Hc : c < S w) by by eapply column_of_lt.
    destruct (split_column _ _ _ _ _).2 as [| |ws'] eqn:Hs; simpl in He; try done. injection He as ->.
    apply (split_column_missed enums (uncovered enums levels')) in Hs as (Hlen & [vs Hvs] & Hno).
    + rewrite length_swap0. split; [done|]. split; [exists (swap0 c vs); apply Forall2_swap0; [lia|done]|].
      intros vs' Hvs' Hm. pose proof (Forall2_length _ _ _ Hvs') as Hl. rewrite length_swap0 in Hl.
      apply (Hno (swap0 c vs')).
      * rewrite <- (swap0_involutive c ws') by lia. apply Forall2_swap0; [by rewrite length_swap0, Hlen|done].
      * apply (expanded_matched (wf_ref enums) _ w Hok' c Hc); [congruence|done].
    + intros ????. apply IH. lia.
    + by apply (expanded_ok (wf_ref enums)).
    + apply expanded_plain.
Qed.

(** ** The values a row of witnesses shows are of the columns' types *)

Section typed.
Context (enums : Enums) (field_types : nat → nat → list Ty).
(** Each variant has as many types as fields; each enum has a value. *)
Context (Harity : ∀ e info i n, enums !! e = Some info → (i, n) ∈ distinct_variants info →
  length (field_types e i) = n).
Context (Hinh : ∀ e, ∃ v, has_ty enums field_types (TyEnum e) v).
#[local] Abbreviation has := (has_ty enums field_types).
#[local] Abbreviation pty := (pat_ty enums field_types).

(** Rows of patterns of the types of the columns. *)
Definition typed (rows : list Row) (ts : list Ty) : Prop :=
  ∀ row, row ∈ rows → Forall2 (λ r t, pty (pat r) t) row ts.

(** The witnesses stand for values of the types. *)
Definition shows (ts : list Ty) (ws : list Witness) : Prop :=
  ∃ vs, Forall2 has ts vs ∧ Forall2 instance ws vs.

Lemma typed_first rows t ts row :
  typed rows (t :: ts) → row ∈ rows →
  ∃ r rest, row = r :: rest ∧ pty (pat r) t ∧ Forall2 (λ r t, pty (pat r) t) rest ts.
Proof.
  intros Hty Hrow. destruct (Forall2_cons_inv_r _ _ _ _ (Hty row Hrow)) as (r & rest & ? & ? & ->). eauto 10.
Qed.

Lemma typed_filter (Q : Row → Prop) `{!∀ row, Decision (Q row)} rows ts : typed rows ts → typed (filter Q rows) ts.
Proof. intros Hty row [_ Hrow]%list_elem_of_filter. by apply Hty. Qed.

Lemma typed_tails (Q : Row → Prop) `{!∀ row, Decision (Q row)} rows t ts :
  typed rows (t :: ts) → typed (tail <$> filter Q rows) ts.
Proof.
  intros Hty row (row' & -> & [_ Hrow]%list_elem_of_filter)%list_elem_of_fmap.
  by destruct (typed_first _ _ _ _ Hty Hrow) as (r & rest & -> & _ & ?).
Qed.

Lemma typed_swap0 rows c ts : c < length ts → typed rows ts → typed (swap0 c <$> rows) (swap0 c ts).
Proof.
  intros Hc Hty row (row' & -> & Hrow)%list_elem_of_fmap. specialize (Hty row' Hrow).
  apply Forall2_swap0; [|done]. by rewrite (Forall2_length _ _ _ Hty).
Qed.

Lemma typed_expand rows t ts : typed rows (t :: ts) → typed (flat_map expand_or rows) (t :: ts).
Proof.
  intros Hty row Hin. apply list_elem_of_In, in_flat_map in Hin as (row' & Hrow & Hin).
  apply list_elem_of_In in Hrow, Hin. destruct (typed_first _ _ _ _ Hty Hrow) as (r & rest & -> & Hr & Hrest).
  apply list_elem_of_fmap in Hin as (r' & -> & Hr'). constructor; [|done].
  eapply (alternatives_inherit (λ p, pty p t)); [|exact Hr|exact Hr']. intros alts. apply pat_ty_or.
Qed.

Lemma typed_specialize rows t ts ctor arity tys :
  ctor_types enums field_types t ctor tys → length tys = arity →
  typed rows (t :: ts) → typed (specialize rows ctor arity) (tys ++ ts).
Proof.
  intros Hc Hl Hty row' (row & Hrow & Hs)%list_elem_of_omap.
  destruct (typed_first _ _ _ _ Hty Hrow) as (r & rest & -> & Hr & Hrest).
  rewrite specialize_row_cons in Hs. apply fmap_Some in Hs as (fields & Hs & ->).
  apply Forall2_app; [|done]. by eapply spec_typed.
Qed.

(** A constructor of the signature is one of the type. *)
Lemma signature_types rows t ts row id args sg ctor arity :
  typed rows (t :: ts) → row ∈ rows → row_first row = Ctor id args →
  signature enums id rows = Some sg → (ctor, arity) ∈ sg →
  ∃ tys, ctor_types enums field_types t ctor tys ∧ length tys = arity.
Proof.
  intros Hty Hrow Hp Hsg Hin.
  assert (Hfirst : ∀ row, row ∈ rows → pty (row_first row) t).
  { intros row' Hr. by destruct (typed_first _ _ _ _ Hty Hr) as (r & rest & -> & ? & _). }
  pose proof (Hfirst row Hrow) as Hpt. rewrite Hp in Hpt.
  destruct id as [|ns|e i|b| |]; simpl in Hsg; simplify_eq.
  - destruct t as [| |tys| | | |]; try done. apply list_elem_of_singleton in Hin. simplify_eq.
    exists tys. split; [done|]. symmetry. apply tuple_arity_spec.
    + apply Exists_exists. eauto.
    + intros row' args' Hr' Hp'. specialize (Hfirst row' Hr'). rewrite Hp' in Hfirst.
      by apply pairwise_Forall2, Forall2_length in Hfirst.
  - destruct t as [| | |fs| | |]; try done. apply list_elem_of_singleton in Hin. simplify_eq.
    destruct (column_names_spec rows) as [Hnames Hnd].
    assert (Hex : Forall (λ name, ∃ t, (name, t) ∈ fs) (column_names rows)).
    { apply Forall_forall. intros name Hn. apply Hnames in Hn as (row' & Hr' & Hn). specialize (Hfirst row' Hr').
      unfold names_of in Hn. destruct (row_first row') as [|id' args'|alts| |lo hi]; try by apply elem_of_nil in Hn.
      destruct id'; try by apply elem_of_nil in Hn. destruct Hfirst as [_ Hpair%pairwise_Forall2].
      apply list_elem_of_lookup in Hn as [k Hk].
      destruct (Forall2_lookup_r _ _ _ _ _ Hpair Hk) as (p & _ & t & Ht & _). eauto. }
    apply Forall_exists_Forall2_l in Hex as [tys Htys]. exists tys.
    split; [|by rewrite (Forall2_length _ _ _ Htys)]. by destruct Hpt as [? _].
  - destruct t as [| | | |e'| |]; try done. destruct Hpt as (<- & [info He] & _). rewrite He in Hsg.
    simplify_eq/=. apply list_elem_of_fmap in Hin as ([j n] & [= -> ->] & Hj). simpl.
    exists (field_types e j). pose proof (Harity e info j n He Hj) as Hn. split; [|done].
    split; [done|]. split; [done|]. intros info' ?. by simplify_eq.
  - destruct t; try done. exists []. apply elem_of_cons in Hin as [?|?%list_elem_of_singleton]; by simplify_eq.
  - destruct t as [| | | | |t|]; try done.
    apply elem_of_cons in Hin as [?|?%list_elem_of_singleton]; simplify_eq; [by exists []|by exists [t; TyList t]].
  - destruct t as [| | | | |t|]; try done.
    apply elem_of_cons in Hin as [?|?%list_elem_of_singleton]; simplify_eq; [by exists []|by exists [t; TyList t]].
Qed.

Lemma shows_any ts : shows ts (replicate (length ts) WAny).
Proof.
  assert (Hex : Forall (λ t, ∃ v, has t v) ts) by (apply Forall_true; intros; by apply inhabited_types).
  apply Forall_exists_Forall2_l in Hex as [vs Hvs]. exists vs. split; [done|].
  apply Forall2_replicate_l; [by rewrite (Forall2_length _ _ _ Hvs)|by apply Forall_true].
Qed.

Lemma shows_cons t ts w ws v : has t v → instance w v → shows ts ws → shows (t :: ts) (w :: ws).
Proof. intros Ht Hw (vs & Hvs & Hws). exists (v :: vs). split; by constructor. Qed.

Section step.
Context (deeper : N → list Row → nat → N * Found).
Context (IH : ∀ cells rows ts ws,
  typed rows ts → (deeper cells rows (length ts)).2 = Missing ws → shows ts ws).
Context (rows : list Row) (t : Ty) (ts : list Ty) (Hty : typed rows (t :: ts)).

Lemma untested_shows cells ws :
  (untested deeper cells rows (length (t :: ts))).2 = Missing ws → shows (t :: ts) ws.
Proof.
  unfold untested. simpl. rewrite Nat.sub_0_r. destruct (deeper _ _ _) as [c r] eqn:Hd.
  destruct r as [| |rest]; simpl; try done. intros [= <-]. destruct (inhabited_types _ _ Hinh t) as [v Hv].
  apply (shows_cons _ _ _ _ v); [done|done|]. apply (IH cells (default_rows rows)); [by eapply typed_tails|by rewrite Hd].
Qed.

Lemma ctor_shows ctor arity tys fields :
  ctor_types enums field_types t ctor tys → length tys = arity →
  shows (tys ++ ts) fields → shows (t :: ts) (WCtor ctor (take arity fields) :: drop arity fields).
Proof.
  intros Hc Hl (vs & Hvs & Hws). apply Forall2_app_inv_l in Hvs as (us & rest & Hus & Hrest & ->).
  rewrite <- (take_drop arity fields) in Hws.
  apply Forall2_app_iff in Hws as [Hws1 Hws2].
  2: { pose proof (Forall2_length _ _ _ Hws) as Hlen. rewrite take_drop, length_app in Hlen.
       rewrite length_take, <- (Forall2_length _ _ _ Hus) in *. lia. }
  destruct (ctor_built _ _ t ctor tys us (inhabited_types _ _ Hinh) Hc Hus) as (v & Hv & Hf).
  apply (shows_cons _ _ _ _ v); [done| |by exists rest]. simpl. rewrite Hf. by apply pairwise_Forall2.
Qed.

Lemma in_i64_as_i64 n : in_i64 (as_i64 n) = true.
Proof.
  apply in_i64_spec. unfold as_i64, wrap_i64.
  pose proof (Z.mod_pos_bound (n - i64_min) (usize_max + 1) ltac:(done)).
  unfold i64_min, i64_max, usize_max in *. lia.
Qed.

Lemma outside_i64 ranges : in_i64 (outside ranges) = true.
Proof. unfold outside. cbv zeta. case_match; [done|apply in_i64_as_i64]. Qed.

Lemma int_column_shows cells ws :
  t = TyInt → (uncovered_int_column deeper cells rows (length (t :: ts))).2 = Missing ws → shows (t :: ts) ws.
Proof.
  intros Ht. unfold uncovered_int_column. simpl. destruct (first_gap _ _ <? _)%Z.
  - rewrite Nat.sub_0_r. destruct (deeper _ _ _) as [c r] eqn:Hd. destruct r as [| |rest]; simpl; try done.
    intros [= <-]. apply (shows_cons _ _ _ _ (VInt (outside (column_ranges rows)))).
    + subst t. constructor. apply outside_i64.
    + done.
    + apply (IH cells (default_rows rows)); [by eapply typed_tails|by rewrite Hd].
  - intros (i & n & rest & _ & Hd & ->)%try_intervals_missed.
    apply (shows_cons _ _ _ _ (VInt (as_i64 (clamp0 i.1 i.2)))).
    + subst t. constructor. apply in_i64_as_i64.
    + done.
    + apply (IH n (kept_rows rows i.1 i.2)); [by eapply typed_tails|done].
Qed.

Lemma split_column_shows cells ws :
  (split_column enums deeper cells rows (length (t :: ts))).2 = Missing ws → shows (t :: ts) ws.
Proof.
  unfold split_column. pose proof (column_head_spec rows) as Hhead.
  destruct (column_head rows) as [[|id args|alts| |lo hi]|]; try done.
  - destruct Hhead as (row & Hrow & Hp). destruct (signature enums id rows) as [sg|] eqn:Hsg;
      [|apply untested_shows].
    intros (ctor & arity & n & fields & Hin & Hd & ->)%try_ctors_missed.
    destruct (signature_types _ _ _ _ _ _ _ _ _ Hty Hrow Hp Hsg Hin) as (tys & Hc & Hl).
    eapply ctor_shows; [done..|]. apply (IH n (specialize rows ctor arity)); [by eapply typed_specialize|].
    by rewrite length_app, Hl.
  - destruct Hhead as [(row & Hrow & Hp) _]. apply int_column_shows.
    destruct (typed_first _ _ _ _ Hty Hrow) as (r & rest & -> & Hr & _). change (pat r = IntRange lo hi) in Hp.
    rewrite Hp in Hr. by destruct t.
  - apply untested_shows.
Qed.
End step.

Lemma uncovered_shows levels cells rows ts ws :
  typed rows ts → (uncovered enums levels cells rows (length ts)).2 = Missing ws → shows ts ws.
Proof.
  revert cells rows ts ws. induction levels as [levels IH] using lt_wf_ind.
  intros cells rows ts ws Hty Hres.
  assert (Hty' : typed (retained rows) ts) by by apply typed_filter.
  destruct (uncovered_cases enums levels cells rows (length ts)) as
    [[_ He]|[(Hne & _ & ?)|[He|[[Hw ?]|(levels' & cells' & w & -> & Hlen & He)]]]]; try congruence.
  - rewrite He in Hres. injection Hres as <-. apply shows_any.
  - cbv zeta in He. rewrite Hres in He. set (c := column_of (retained rows)) in *.
    assert (Hc : c < length ts).
    { rewrite Hlen. apply (column_of_lt _ _ (λ _, True)). apply Forall_forall. intros row Hrow.
      split; [by rewrite <- Hlen, (Forall2_length _ _ _ (Hty' row Hrow))|by apply Forall_true]. }
    destruct (split_column _ _ _ _ _).2 as [| |ws'] eqn:Hs; simpl in He; try done. injection He as ->.
    assert (Hex : typed (expanded_at c (retained rows)) (swap0 c ts)).
    { apply typed_filter. pose proof (typed_swap0 _ _ _ Hc Hty') as Hsw. pose proof (length_swap0 c ts) as Hl.
      destruct (swap0 c ts) as [|t ts']; [simpl in Hl; lia|]. by apply typed_expand. }
    rewrite <- (length_swap0 c ts) in Hs.
    assert (Hsh : shows (swap0 c ts) ws').
    { pose proof (length_swap0 c ts) as Hl. destruct (swap0 c ts) as [|t ts']; [simpl in Hl; lia|].
      eapply (split_column_shows (uncovered enums levels')); [|exact Hex|exact Hs]. intros ????. apply IH. lia. }
    destruct Hsh as (vs & Hvs & Hws). exists (swap0 c vs).
    pose proof (Forall2_length _ _ _ Hvs) as Hl1. pose proof (Forall2_length _ _ _ Hws) as Hl2.
    rewrite length_swap0 in Hl1. split; [|apply Forall2_swap0; [lia|done]].
    rewrite <- (swap0_involutive c ts) by done. apply Forall2_swap0; [by rewrite length_swap0|done].
Qed.
End typed.
