(* ===== verification/ExhaustiveClaims.v ===== *)
(** * What the checker says of a match

    The answers of [check_exhaustiveness] and of the questions the
    diagnostics ask, against the values the arms match. *)

From S2P Require Import Prelude Int64 Exhaustive ExhaustiveInts ExhaustiveSem ExhaustiveFacts ExhaustiveSearch.

#[local] Open Scope nat_scope.
#[local] Opaque uncovered MAX_DEPTH.

(** ** One column of patterns *)

Lemma refs_elem pats r : r ∈ refs pats → pat r ∈ pats.
Proof.
  unfold refs. rewrite elem_of_lookup_imap. intros (i & p & -> & Hi). by eapply list_elem_of_lookup_2.
Qed.

Lemma refs_of pats p : p ∈ pats → ∃ r, r ∈ refs pats ∧ pat r = p.
Proof.
  intros [i Hi]%list_elem_of_lookup. exists (At (ARoot i) p). split; [|done].
  unfold refs. rewrite elem_of_lookup_imap. eauto.
Qed.

Lemma one_column_matched pats v :
  matched (one_column pats) [v] ↔ ∃ p, p ∈ pats ∧ pmatch p v = true.
Proof.
  rewrite matched_elem. unfold one_column. split.
  - intros (row & (r & -> & Hr)%list_elem_of_fmap & Hm). exists (pat r). split; [by apply refs_elem|].
    by apply Forall2_cons in Hm as [Hm _].
  - intros (p & (r & Hr & <-)%refs_of & Hm). exists [r]. split; [apply list_elem_of_fmap; by exists r|].
    by repeat constructor.
Qed.

Lemma one_column_fitting enums pats v :
  (∀ p, p ∈ pats → fits enums p v) → fitting enums (one_column pats) [v].
Proof.
  intros Hfit. apply fitting_elem. intros row (r & -> & Hr)%list_elem_of_fmap.
  constructor; [by apply Hfit, refs_elem|constructor].
Qed.

Lemma one_column_placed pats : ok (placed pats) (one_column pats) 1.
Proof.
  apply Forall_forall. intros row (r & -> & Hr)%list_elem_of_fmap. split; [done|].
  apply Forall_singleton. pose proof (refs_placed pats) as Hp. rewrite Forall_forall in Hp. by apply Hp.
Qed.

Lemma one_column_wf enums pats :
  Forall (λ p, wf_pat enums p = true) pats → ok (wf_ref enums) (one_column pats) 1.
Proof.
  rewrite Forall_forall. intros Hwf. apply Forall_forall. intros row (r & -> & Hr)%list_elem_of_fmap.
  split; [done|]. apply Forall_singleton. by apply Hwf, refs_elem.
Qed.

(** What the searches of the checker give. *)
Lemma cover_together_true enums pats cells cells' v :
  cover_together enums pats cells = (cells', Some true) → (∀ p, p ∈ pats → fits enums p v) →
  ∃ p, p ∈ pats ∧ pmatch p v = true.
Proof.
  unfold cover_together. intros Hres Hfit. apply one_column_matched.
  destruct (uncovered _ _ _ _ _) as [c r] eqn:Hs. destruct r; simplify_eq.
  eapply (uncovered_covered enums pats (S MAX_DEPTH) cells); [apply one_column_placed|by rewrite Hs|done|].
  by apply one_column_fitting.
Qed.




Lemma unguarded_elem arms p : p ∈ unguarded arms ↔ (false, p) ∈ arms.
Proof.
  unfold unguarded. rewrite list_elem_of_fmap. setoid_rewrite list_elem_of_filter. split.
  - intros ([g q] & -> & Hg & Hin). simpl in *. by subst g.
  - intros Hin. by exists (false, p).
Qed.

(** ** The claims *)

(** C4. A match the checker accepts is complete: of every value of the
    type its patterns test, some arm without a guard matches it (unless
    the match has no arms because the type has no values). *)
Theorem accepted_match_is_complete enums arms uninhabited v :
  check_exhaustiveness enums arms uninhabited = NoReport →
  arms ≠ [] ∨ uninhabited = false →
  (∀ p, (false, p) ∈ arms → fits enums p v) →
  ∃ p, (false, p) ∈ arms ∧ pmatch p v = true.
Proof.
  setoid_rewrite <- unguarded_elem. unfold check_exhaustiveness. intros Hres Hne Hfit.
  destruct (bool_decide (arms = []) && uninhabited) eqn:He.
  { apply andb_true_iff in He as [Harms%bool_decide_eq_true ->]. by destruct Hne. }
  destruct (cover_together enums (unguarded arms) 0) as [cells [[]|]] eqn:Hc; simplify_eq/=.
  by eapply cover_together_true.
Qed.

(** An option of a [Bool]: [None], and [Some] with a guard and without. *)
Definition option_enum : Enums := {[ 0 := [(0, 0); (1, 1)] ]}.
Definition none_pat : Pat := Ctor (CVariant 0 0) [].
Definition some_pat (p : Pat) : Pat := Ctor (CVariant 0 1) [p].
Definition bool_pat (b : bool) : Pat := Ctor (CBool b) [].
Definition complete_arms : list (bool * Pat) :=
  [(true, some_pat Wild); (false, none_pat); (false, some_pat (bool_pat true));
   (false, some_pat (Or [bool_pat false; Lit]))].

Lemma accepted_match_is_complete_witness :
  check_exhaustiveness option_enum complete_arms false = NoReport ∧
  ∃ p, (false, p) ∈ complete_arms ∧ pmatch p (VVariant 0 1 [VBool false]) = true.
Proof.
  split; [vm_compute; reflexivity|].
  apply (accepted_match_is_complete option_enum complete_arms false).
  - vm_compute. reflexivity.
  - by left.
  - intros p Hp. unfold complete_arms in Hp. set_unfold in Hp.
    assert (Hty : of_type option_enum (CVariant 0 0) (VVariant 0 1 [VBool false])).
    { exists 1, [VBool false]. split; [done|]. intros info [= <-]. vm_compute. right. left. }
    destruct Hp as [?|[?|[?|[?|[]]]]]; simplify_eq; simpl; split_and!; try done; eauto.
Defined.





(** Ending with a wildcard arm always satisfies the checker, as its
    messages advise: whatever the other arms are, a match with an
    unguarded wildcard is accepted (a match of more arms than the bound on
    patterns apart). *)
Theorem wildcard_arm_accepted enums arms uninhabited :
  (false, Wild) ∈ arms → (N.of_nat (length arms) <= MAX_CELLS)%N →
  check_exhaustiveness enums arms uninhabited = NoReport.
Proof.
  intros Hin Hlen. unfold check_exhaustiveness. destruct (bool_decide (arms = []) && uninhabited); [done|].
  apply unguarded_elem in Hin. unfold cover_together. rewrite uncovered_step.
  assert (Hle : length (retained (one_column (unguarded arms))) ≤ length arms).
  { unfold retained, one_column, refs, unguarded. etransitivity; [apply length_filter|].
    rewrite length_fmap, length_imap, length_fmap. apply length_filter. }
  assert (Hw : existsb (forallb (λ r, is_wild (pat r))) (retained (one_column (unguarded arms))) = true).
  { apply refs_of in Hin as (r & Hr & Hp). apply existsb_exists. exists [r]. split.
    - apply list_elem_of_In, list_elem_of_filter. simpl. rewrite Hp. split; [done|].
      apply list_elem_of_fmap. by exists r.
    - simpl. by rewrite Hp. }
  destruct (retained _) as [|row rows] eqn:Hr; [done|]. rewrite <- Hr in *. simpl.
  rewrite Nat.mul_1_r. destruct (MAX_CELLS <? _)%N eqn:Hc; [apply N.ltb_lt in Hc; lia|]. by rewrite Hw.
Qed.

Lemma wildcard_arm_accepted_witness :
  check_exhaustiveness ∅ [(false, Lit); (true, Wild); (false, Wild)] false = NoReport.
Proof.
  apply (wildcard_arm_accepted ∅ [(false, Lit); (true, Wild); (false, Wild)] false).
  - set_solver.
  - vm_compute. discriminate.
Defined.

(** Searches that share a count of the patterns looked at share one
    bound: the count only grows, and a search that gives an answer leaves
    it within the bound (or where it was). *)
Theorem searches_share_a_bound enums pats cells cells' answer :
  cover_together enums pats cells = (cells', answer) →
  (cells <= cells')%N ∧ (answer ≠ None → (cells' <= N.max cells MAX_CELLS)%N).
Proof.
  unfold cover_together. intros Hres.
  pose proof (uncovered_bounded enums (S MAX_DEPTH) cells (one_column pats) 1) as [H1 H2].
  destruct (uncovered _ _ _ _ _) as [c r]. simpl in *.
  destruct r; injection Hres as <- <-; (split; [done|]); intros Ha; by apply H2.
Qed.

Lemma searches_share_a_bound_witness :
  (31999990 <= 31999992)%N ∧ (Some true ≠ None → (31999992 <= N.max 31999990 MAX_CELLS)%N).
Proof.
  apply (searches_share_a_bound option_enum [none_pat; Wild] 31999990 31999992 (Some true)).
  vm_compute. reflexivity.
Defined.

(** ** The values built with one constructor *)

(** Any constructor of a type's signature, with its number of fields. *)
Definition ctor_of (enums : Enums) (ctor : CtorId) (arity : nat) : Prop :=
  match ctor with
  | CTuple => True
  | CRecord names => arity = length names
  | CVariant e i => ∀ info, enums !! e = Some info → (i, arity) ∈ distinct_variants info
  | CBool _ | CNil => arity = 0
  | CCons => arity = 2
  end.

Lemma specialized_ok (P : Ref → Prop) `{!Inherited P} enums rows ctor arity w :
  ctor_of enums ctor arity → ok P rows (S w) → ok P (specialize rows ctor arity) (arity + w).
Proof.
  intros Hc Hok. apply Forall_forall. intros row' (row & Hrow & Hs)%list_elem_of_omap.
  destruct (ok_first _ _ _ _ Hok Hrow) as (a & p & rest & -> & Hp & Hl & Hr).
  rewrite specialize_row_cons in Hs. apply fmap_Some in Hs as (fields & Hs & ->).
  rewrite length_app, Hl. split.
  - f_equal. unfold spec_fields in Hs. destruct (pat (At a p)) as [|id args|alts| |lo hi]; simplify_eq.
    + apply length_replicate.
    + destruct id; try (case_decide; simplify_eq; by rewrite length_fmap, length_seq).
      destruct ctor; simplify_eq. by rewrite length_fmap.
  - apply Forall_app. split; [|done].
    apply (spec_fields_inherit P ctor arity (At a p)); [apply inherited_wild| |done].
    simpl. intros id' args i f -> Hf. by eapply inherited_part.
Qed.

(** The fields shown of a constructor are missed: of a value built
    with it from such fields none of the patterns matches, and with the
    answer that no row has the constructor, none matches any value built
    with it. *)
Theorem uncovered_of_ctor_missed enums pats ctor arity fields some_row :
  uncovered_of_ctor enums pats ctor arity = Some (fields, some_row) →
  ctor_of enums ctor arity → Forall (λ p, wf_pat enums p = true) pats →
  length fields = arity ∧
  ∀ v us, fields_of ctor v = Some us → length us = arity →
    Forall2 instance fields us ∨ some_row = false →
    ∀ p, p ∈ pats → pmatch p v = false.
Proof.
  unfold uncovered_of_ctor. intros Hres Hctor Hwf.
  set (rows := flat_map expand_or (one_column pats)) in *.
  assert (Hok : ok (wf_ref enums) rows 1) by by apply ok_expand; [apply _|apply one_column_wf].
  destruct (uncovered _ _ _ _ _).2 as [| |ws] eqn:Hs; try done. injection Hres as -> <-.
  apply uncovered_missing in Hs as (Hlen & _ & Hno).
  2: { rewrite <- (Nat.add_0_r arity) at 2. by apply (specialized_ok (wf_ref enums) enums). }
  split; [done|]. intros v us Hus Hl Hcase p Hp. apply not_true_iff_false. intros Hm.
  assert (Hmatched : matched (specialize rows ctor arity) us).
  { rewrite <- (app_nil_r us). eapply (matched_specialize_inv _ _ _ Hok); [|done..|].
    - intros row alts Hrow. apply list_elem_of_In, in_flat_map in Hrow as (row0 & _ & Hin).
      apply list_elem_of_In, list_elem_of_fmap in Hin as (r & -> & Hr). by eapply alternatives_not_or.
    - apply (matched_expand _ _ _ (one_column_wf enums pats Hwf)), one_column_matched. eauto. }
  destruct Hcase as [Hi|Hnone]; [by apply (Hno us)|].
  apply bool_decide_eq_false, dec_stable in Hnone. rewrite Hnone in Hmatched. by apply Exists_nil in Hmatched.
Qed.

Lemma uncovered_of_ctor_missed_witness :
  uncovered_of_ctor option_enum [some_pat (bool_pat true); none_pat] (CVariant 0 1) 1
    = Some ([WCtor (CBool false) []], true) ∧
  pmatch (some_pat (bool_pat true)) (VVariant 0 1 [VBool false]) = false.
Proof.
  split; [vm_compute; reflexivity|].
  eapply (uncovered_of_ctor_missed option_enum [some_pat (bool_pat true); none_pat] (CVariant 0 1) 1).
  - vm_compute. reflexivity.
  - simpl. intros info [= <-]. vm_compute. right. left.
  - repeat constructor.
  - reflexivity.
  - reflexivity.
  - left. by repeat constructor.
  - set_solver.
Defined.

Lemma distinct_from_ge seen i info : Forall (λ v, i ≤ v.1) (distinct_from seen i info).
Proof.
  revert seen i. induction info as [|[name arity] info IH]; intros seen i; simpl; [constructor|].
  assert (Hn : ∀ seen, Forall (λ v, i ≤ v.1) (distinct_from seen (S i) info)).
  { intros s. eapply Forall_impl; [apply IH|]. simpl. lia. }
  case_decide; [done|]. by constructor.
Qed.

Lemma distinct_positions info : NoDup (distinct_variants info).*1.
Proof.
  unfold distinct_variants. generalize (@nil nat) as seen, 0 as i.
  induction info as [|[name arity] info IH]; intros seen i; simpl; [constructor|].
  case_decide; [done|]. apply NoDup_cons. split; [|done].
  intros ([j n] & Hj & Hin)%list_elem_of_fmap. simpl in Hj. subst j.
  pose proof (distinct_from_ge (name :: seen) (S i) info) as Hge. rewrite Forall_forall in Hge.
  specialize (Hge _ Hin). simpl in Hge. lia.
Qed.

(** A constructor stands alone exactly when every value of its type is
    built with it: tuples, records, and the variant of an enum of one. *)
Theorem stands_alone_correct enums id :
  (∀ e i, id = CVariant e i → ∃ info, enums !! e = Some info ∧ i ∈ (distinct_variants info).*1) →
  stands_alone enums id = true ↔ ∀ v, of_type enums id v → is_Some (fields_of id v).
Proof.
  intros Hknown. destruct id as [|names|e i|b| |]; simpl.
  - split; [|done]. intros _ v [vs ->]. eauto.
  - split; [|done]. intros _ v [_ Hs]. done.
  - destruct (Hknown e i eq_refl) as (info & He & Hi). rewrite He, bool_decide_eq_true.
    apply list_elem_of_fmap in Hi as ([i' n] & -> & Hi). simpl. split.
    + intros Hone v (j & vs & -> & Hj). specialize (Hj info eq_refl).
      destruct (distinct_variants info) as [|x [|]]; simplify_eq/=.
      apply list_elem_of_singleton in Hi, Hj. simplify_eq. rewrite decide_True by done. eauto.
    + intros Hall. assert (Hsame : ∀ j m, (j, m) ∈ distinct_variants info → j = i').
      { intros j m Hj. destruct (Hall (VVariant e j (replicate m VNil))) as [us Hus].
        - exists j, (replicate m VNil). split; [done|]. intros info' He'. rewrite length_replicate. congruence.
        - case_decide; [by destruct_and!|done]. }
      pose proof (distinct_positions info) as Hnd.
      destruct (distinct_variants info) as [|[x a] [|[y b] l]]; [set_solver|done|]. exfalso.
      rewrite (Hsame x a), (Hsame y b) in Hnd by set_solver. simpl in Hnd.
      apply NoDup_cons in Hnd as [Hnd _]. set_solver.
  - split; [done|]. intros Hall. destruct (Hall (VBool (negb b))) as [us Hus]; [eauto|]. by destruct b.
  - split; [done|]. intros Hall. destruct (Hall (VCons VNil VNil)) as [us Hus]; [eauto|done].
  - split; [done|]. intros Hall. destruct (Hall VNil) as [us Hus]; [eauto|done].
Qed.

Lemma stands_alone_correct_witness :
  stands_alone option_enum (CVariant 0 1) = true
  ↔ ∀ v, of_type option_enum (CVariant 0 1) v → is_Some (fields_of (CVariant 0 1) v).
Proof.
  apply (stands_alone_correct option_enum (CVariant 0 1)). intros e i [= <- <-].
  exists [(0, 0); (1, 1)]. split; [reflexivity|]. vm_compute. right. left.
Defined.

(** ** List patterns *)

(** The list with these first elements and this rest. *)
Definition vlist (xs : list Val) (rest : Val) : Val := foldr VCons rest xs.

(** A lowered list pattern matches the lists whose first elements match
    the patterns given for them and whose rest matches the tail's; of more
    elements than the search goes deep it is counted on for nothing. *)
Theorem pat_list_matches elems tail v :
  (length elems ≤ MAX_DEPTH →
   pmatch (pat_list elems tail) v = true ↔
   ∃ xs rest, v = vlist xs rest ∧ Forall2 (λ p x, pmatch p x = true) elems xs ∧ pmatch tail rest = true) ∧
  (MAX_DEPTH < length elems → pmatch (pat_list elems tail) v = false).
Proof.
  unfold pat_list. split; intros Hlen; [rewrite decide_False by lia|by rewrite decide_True].
  clear Hlen. revert v. induction elems as [|p elems IH]; intros v.
  - simpl. split.
    + intros Hm. by exists [], v.
    + intros (xs & rest & -> & Hxs & Hm). apply Forall2_nil_inv_l in Hxs as ->. done.
  - split.
    + intros Hm. destruct v as [| | | | |x xs| |]; try done. simpl in Hm.
      rewrite andb_true_r in Hm. apply andb_true_iff in Hm as [Hx Hm].
      apply IH in Hm as (ys & rest & -> & Hys & Hm). exists (x :: ys), rest. split_and!; [done| |done].
      by constructor.
    + intros (xs & rest & -> & (x & ys & Hx & Hys & ->)%Forall2_cons_inv_l & Hm). simpl.
      rewrite Hx, andb_true_r. apply IH. eauto.
Qed.

(** ** The integer a diagnostic shows *)

(** [outside] shows an integer that no range of the column has: the
    least that is not negative, and if there is none the greatest that is
    negative. *)
Theorem outside_nearest rows gap :
  in_i64 gap = true → ¬ in_ranges gap (column_ranges rows) →
  let n := outside (column_ranges rows) in
  in_i64 n = true ∧
  (∀ row lo hi, row ∈ rows → row_first row = IntRange lo hi → ¬ (lo <= n <= hi)%Z) ∧
  (∀ m, in_i64 m = true → ¬ in_ranges m (column_ranges rows) →
     (0 <= m → 0 <= n <= m)%Z ∧ (n < 0 → m <= n)%Z).
Proof.
  intros Hgap Hout. pose proof (column_ranges_sorted rows) as Hs.
  destruct (outside_spec _ _ Hs Hgap Hout) as (Hin & Hno & Hbest). simpl. split; [done|]. split.
  - intros row lo hi Hrow Hp Hw. apply Hno, Exists_exists. exists (lo, hi). split; [|done].
    apply column_ranges_elem. exists row. simpl. split_and!; [done..|lia].
  - intros m Hm Hmo. specialize (Hbest m Hm Hmo). case_decide; lia.
Qed.

Definition range_row (lo hi : Z) : Row := [At (ARoot 0) (IntRange lo hi)].

Lemma outside_nearest_witness :
  outside (column_ranges [range_row 3 9; range_row (-5) 2]) = 10%Z ∧
  in_i64 10 = true.
Proof.
  split; [vm_compute; reflexivity|].
  apply (outside_nearest [range_row 3 9; range_row (-5) 2] 11).
  - vm_compute. reflexivity.
  - change (column_ranges [range_row 3 9; range_row (-5) 2]) with [(-5, 2); (3, 9)]%Z.
    intros Hex. unfold in_ranges in Hex. rewrite !Exists_cons, Exists_nil in Hex.
    unfold within in Hex. simpl in Hex. lia.
Defined.
