(* ===== verification/Layers.v ===== *)
(** * Tables that are cheap to copy (src/layers.rs)

    A map and a list whose rows are kept in layers that copies share.
    The layers live in a heap; how many tables hold one is its count
    ([Arc]), and the newest layer of a table is changed in place only
    when no other table holds it. *)

From S2P Require Import Prelude.

#[local] Open Scope nat_scope.

(** What [add_row] needs of a layer: [add], [alone], [len], [join]. *)
Class Layer (L R : Type) := {
  add : R → L → L;
  alone : L;
  len : L → nat;
  join : L → L → L;
}.
#[global] Hint Mode Layer + - : typeclass_instances.

(** A layer is a [HashMap] with its [insert], [len] and [extend] (of a
    key of both, the value given last), or a [Vec]. *)
#[global] Instance map_layer {K V} `{Countable K} : Layer (gmap K V) (K * V) := {|
  add row layer := <[row.1 := row.2]> layer;
  alone := ∅;
  len := size;
  join older newer := newer ∪ older;
|}.
#[global] Instance rows_layer {T} : Layer (list T) T := {|
  add row layer := layer ++ [row];
  alone := [];
  len := length;
  join older newer := older ++ newer;
|}.

(** The layers of all tables, and the layers each table has, oldest
    first. *)
Record World (L : Type) := MkWorld {
  heap : gmap nat L;
  fresh : nat;
  tables : gmap nat (list nat);
}.
Arguments MkWorld {L} _ _ _.
Arguments heap {L} _.
Arguments fresh {L} _.
Arguments tables {L} _.

(** [Arc::strong_count] of a layer. *)
Definition count (tables : gmap nat (list nat)) (l : nat) : nat :=
  size (filter (λ p, l ∈ p.2) tables).

Section table.
Context {L R : Type} `{!Layer L R}.

(** The layer at a place (every place a table has is in the heap). *)
Definition at_loc (h : gmap nat L) (l : nat) : L := default alone (h !! l).

(** The loop of [add_row]: the newest layer, and the others, the newest
    of them first. *)
Fixpoint settle (h : gmap nat L) (next : nat) (newer : nat) (rest : list nat) :
    gmap nat L * nat * list nat :=
  match rest with
  | [] => (h, next, [newer])
  | older :: rest' =>
      if decide (len (at_loc h older) <= 2 * len (at_loc h newer))
      then settle (<[next := join (at_loc h older) (at_loc h newer)]> h) (S next) next rest'
      else (h, next, newer :: rest)
  end.

(** The row in the newest layer ([Arc::get_mut]), or in one of its own;
    that layer, and the others, the newest of them first. *)
Definition put_row (w : World L) (t : nat) (row : R) : gmap nat L * nat * nat * list nat :=
  match rev (default [] (tables w !! t)) with
  | l :: older =>
      if decide (count (tables w) l = 1)
      then (<[l := add row (at_loc (heap w) l)]> (heap w), fresh w, l, older)
      else (<[fresh w := add row alone]> (heap w), S (fresh w), fresh w, l :: older)
  | [] => (<[fresh w := add row alone]> (heap w), S (fresh w), fresh w, [])
  end.

(** [add_row] of the table [t]. *)
Definition add_row (w : World L) (t : nat) (row : R) : World L :=
  let '(h, next, newest, rest) := put_row w t row in
  let '(h, next, layers) := settle h next newest rest in
  MkWorld h next (<[t := rev layers]> (tables w)).

(** A new table, a copy of a table, a table that is dropped. *)
Definition table_new (w : World L) (t : nat) : World L := MkWorld (heap w) (fresh w) (<[t := []]> (tables w)).
Definition table_clone (w : World L) (t t' : nat) : World L :=
  match tables w !! t with
  | Some layers => MkWorld (heap w) (fresh w) (<[t' := layers]> (tables w))
  | None => w
  end.
Definition table_drop (w : World L) (t : nat) : World L :=
  MkWorld (heap w) (fresh w) (delete t (tables w)).

Definition layers_of (w : World L) (t : nat) : list L := at_loc (heap w) <$> default [] (tables w !! t).
End table.

(** ** [Layers] *)
Section layers.
Context {K V : Type} `{Countable K}.
Implicit Types w : World (gmap K V).

Definition layers_get_layered w (t : nat) (key : K) : option V :=
  foldr (λ layer found, match layer !! key with Some v => Some v | None => found end) None (layers_of w t).
Definition layers_get w (t : nat) (key : K) : option V :=
  match layers_of w t with
  | [only] => only !! key
  | _ => layers_get_layered w t key
  end.
Definition layers_is_empty w (t : nat) : bool :=
  match layers_of w t with [] => true | _ => false end.
(** (The assertion that the key has no value is one of debug builds.) *)
Definition layers_insert w (t : nat) (key : K) (value : V) : World (gmap K V) := add_row w t (key, value).
End layers.

(** ** [Rows] *)
Section rows.
Context {T : Type}.

(** The world of the layers, and the length each table keeps. *)
Record RowsWorld := MkRows { world : World (list T); lens : gmap nat nat }.

Definition rows_default (r : RowsWorld) (t : nat) : RowsWorld :=
  MkRows (table_new (world r) t) (<[t := 0]> (lens r)).
Definition rows_clone (r : RowsWorld) (t t' : nat) : RowsWorld :=
  match lens r !! t with
  | Some n => MkRows (table_clone (world r) t t') (<[t' := n]> (lens r))
  | None => r
  end.
Definition rows_len (r : RowsWorld) (t : nat) : nat := default 0 (lens r !! t).
Definition rows_is_empty (r : RowsWorld) (t : nat) : bool := bool_decide (rows_len r t = 0).

Fixpoint rows_get_layered (layers : list (list T)) (index : nat) : option T :=
  match layers with
  | [] => None
  | layer :: layers' =>
      match layer !! index with
      | Some row => Some row
      | None => rows_get_layered layers' (index - length layer)
      end
  end.
Definition rows_get (r : RowsWorld) (t index : nat) : option T :=
  match layers_of (world r) t with
  | [only] => only !! index
  | layers => rows_get_layered layers index
  end.
Definition rows_push (r : RowsWorld) (t : nat) (row : T) : RowsWorld :=
  MkRows (add_row (world r) t row) (<[t := S (rows_len r t)]> (lens r)).
End rows.
