(* ===== verification/LayersFacts.v ===== *)
(** * The layered tables

    What adding a row does to the layers of a table and to those of the
    others; the list and the map the layers stand for; how few layers
    there are. *)

From S2P Require Import Prelude Layers.

#[local] Open Scope nat_scope.

Lemma fmap_rev {A B} (f : A → B) (l : list A) : f <$> rev l = rev (f <$> l).
Proof. apply map_rev. Qed.
Lemma rev_perm {A} (l : list A) : rev l ≡ₚ l.
Proof. symmetry. apply Permutation_rev. Qed.
Lemma NoDup_rev' {A} (l : list A) : NoDup l → NoDup (rev l).
Proof. by rewrite rev_perm. Qed.

(** ** Layers in general *)
Section layers.
Context {L R : Type} `{!Layer L R}.
Implicit Types (h : gmap nat L) (w : World L).

(** A layer is not empty, and more than twice as large as the one after
    it (newest first). *)
Definition larger (newer older : L) : Prop := 2 * len newer < len older.
Definition tidy (layers : list L) : Prop := Sorted larger (rev layers) ∧ Forall (λ l, 0 < len l) layers.

Definition layers_inv w : Prop :=
  ∀ t ls, tables w !! t = Some ls →
    NoDup ls ∧ Forall (λ l, l < fresh w) ls ∧ tidy (at_loc (heap w) <$> ls).

(** What a row more makes of the layers: it is added to the newest, or in
    a layer of its own, and some of the newest become one. *)
Definition with_row (row : R) (old new : list L) : Prop :=
  new = old ++ [add row alone] ∨ ∃ front l, old = front ++ [l] ∧ new = front ++ [add row l].
Definition grown (row : R) (old new : list L) : Prop :=
  ∃ a b x, with_row row old (a ++ b ++ [x]) ∧ new = a ++ [foldr join x b].

Lemma count_one tables t l ls t' ls' :
  count tables l = 1 → tables !! t = Some ls → l ∈ ls → tables !! t' = Some ls' → l ∈ ls' → t' = t.
Proof.
  unfold count. intros Hc Ht Hl Ht' Hl'. destruct (decide (t' = t)) as [|Hne]; [done|exfalso].
  assert (Hsub : {[t := ls; t' := ls']} ⊆ filter (λ p, l ∈ p.2) tables).
  { apply insert_subseteq_l; [by apply map_lookup_filter_Some|].
    apply map_singleton_subseteq_l. by apply map_lookup_filter_Some. }
  apply map_subseteq_size in Hsub. rewrite map_size_insert_None, map_size_singleton in Hsub; [lia|].
  by rewrite lookup_singleton_ne.
Qed.

Lemma at_loc_insert_ne h l l' x : l ≠ l' → at_loc (<[l := x]> h) l' = at_loc h l'.
Proof. intros Hne. unfold at_loc. by rewrite lookup_insert_ne. Qed.
Lemma at_loc_insert h l x : at_loc (<[l := x]> h) l = x.
Proof. unfold at_loc. by rewrite lookup_insert_eq. Qed.

Lemma at_loc_old h h' next ls :
  (∀ l, l < next → at_loc h' l = at_loc h l) → Forall (λ l, l < next) ls →
  at_loc h' <$> ls = at_loc h <$> ls.
Proof. intros Hh Hls. apply list_fmap_ext. intros i l Hl. apply Hh. by eapply Forall_lookup_1 in Hls. Qed.

Lemma settle_spec rest h next newer h' next' out :
  settle h next newer rest = (h', next', out) → Forall (λ l, l < next) (newer :: rest) →
  next ≤ next' ∧ (∀ l, l < next → at_loc h' l = at_loc h l) ∧
  ∃ x pre rest', out = x :: rest' ∧ rest = pre ++ rest' ∧ x < next' ∧ (x = newer ∨ next ≤ x) ∧
    at_loc h' x = foldr join (at_loc h newer) (at_loc h <$> rev pre) ∧
    match rest' with [] => True | older :: _ => larger (at_loc h' x) (at_loc h' older) end.
Proof.
  revert h next newer. induction rest as [|older rest IH]; intros h next newer Hs Hlt; simpl in Hs.
  { simplify_eq. split; [done|]. split; [done|]. exists newer, [], []. apply Forall_cons in Hlt as [? _].
    split_and!; try done. by left. }
  case_decide as Hle.
  - apply Forall_cons in Hlt as [Hn Hlt]. apply Forall_cons in Hlt as [Ho Hlt].
    apply IH in Hs as (Hnext & Hold & x & pre & rest' & -> & -> & Hx & Hcase & Hval & Hexit).
    2: { constructor; [lia|]. eapply Forall_impl; [exact Hlt|]. simpl. lia. }
    assert (Hkeep : ∀ l, l < next → at_loc h' l = at_loc h l).
    { intros l Hl. rewrite Hold by lia. apply at_loc_insert_ne. lia. }
    split; [lia|]. split; [done|]. exists x, (older :: pre), rest'.
    split_and!; [done|done|done|right; destruct Hcase; lia| |done].
    rewrite Hval, at_loc_insert. simpl. rewrite fmap_app, foldr_app. simpl. f_equal.
    apply list_fmap_ext. intros i l Hl. apply at_loc_insert_ne.
    apply Forall_app in Hlt as [Hlt _]. apply list_elem_of_lookup_2 in Hl.
    rewrite list_elem_of_In, <- in_rev, <- list_elem_of_In in Hl. rewrite Forall_forall in Hlt.
    specialize (Hlt l Hl). lia.
  - simplify_eq. split; [done|]. split; [done|]. exists newer, [], (older :: rest).
    apply Forall_cons in Hlt as [Hn Hlt]. split_and!; try done; [by left|]. unfold larger. lia.
Qed.

(** Adding a row never leaves a layer empty. *)
Class LayerLaws := {
  len_add (row : R) (l : L) : 0 < len (add row l);
  len_join (a b : L) : 0 < len b → 0 < len (join a b);
}.
Context `{!LayerLaws}.

Lemma put_row_spec w t ls row h next newest rest :
  layers_inv w → tables w !! t = Some ls → put_row w t row = (h, next, newest, rest) →
  fresh w ≤ next ∧ Forall (λ l, l < next) (newest :: rest) ∧ NoDup (newest :: rest) ∧
  (∀ t' ls', t' ≠ t → tables w !! t' = Some ls' → at_loc h <$> ls' = at_loc (heap w) <$> ls') ∧
  with_row row (at_loc (heap w) <$> ls) (at_loc h <$> rev (newest :: rest)) ∧
  Sorted larger (at_loc h <$> rest) ∧ Forall (λ l, 0 < len l) (at_loc h <$> rest) ∧ 0 < len (at_loc h newest).
Proof.
  intros Hinv Ht Hp. destruct (Hinv t ls Ht) as (Hnd & Hlt & Hsorted & Hpos).
  unfold put_row in Hp. rewrite Ht in Hp. simpl in Hp.
  assert (Hrev : ls = rev (rev ls)) by by rewrite rev_involutive.
  rewrite <- fmap_rev in Hsorted.
  assert (Hposr : Forall (λ l, 0 < len l) (at_loc (heap w) <$> rev ls)).
  { rewrite fmap_rev. by apply Forall_rev. }
  apply NoDup_rev' in Hnd as Hndr. apply Forall_rev in Hlt as Hltr.
  assert (Hcase : (∃ l older, rev ls = l :: older ∧ count (tables w) l = 1 ∧
      h = <[l := add row (at_loc (heap w) l)]> (heap w) ∧ next = fresh w ∧ newest = l ∧ rest = older) ∨
    (h = <[fresh w := add row alone]> (heap w) ∧ next = S (fresh w) ∧ newest = fresh w ∧ rest = rev ls)).
  { destruct (rev ls) as [|l older]; [simplify_eq; by right|].
    case_decide; simplify_eq; [left; by eexists _, _|by right]. }
  destruct Hcase as [(l & older & Hls & Hc & -> & -> & -> & ->)|(-> & -> & -> & ->)].
  - rewrite Hls in *. simpl in Hsorted, Hposr. apply Sorted_inv in Hsorted as [Hsorted _].
    apply Forall_cons in Hposr as [_ Hposr]. apply NoDup_cons in Hndr as Hnl. destruct Hnl as [Hnl _].
    assert (Hsame : ∀ l', l' ≠ l → at_loc (<[l := add row (at_loc (heap w) l)]> (heap w)) l' = at_loc (heap w) l')
      by (intros; by apply at_loc_insert_ne).
    assert (Hold : at_loc (<[l := add row (at_loc (heap w) l)]> (heap w)) <$> older = at_loc (heap w) <$> older).
    { apply list_fmap_ext. intros i l' Hl'. apply Hsame. intros ->. by apply Hnl, list_elem_of_lookup_2 with i. }
    split_and!; [lia|done|done| | |by rewrite Hold|by rewrite Hold|rewrite at_loc_insert; apply len_add].
    + intros t' ls' Hne Ht'. apply list_fmap_ext. intros i l' Hl'. apply Hsame. intros ->.
      apply Hne. eapply (count_one (tables w)); [done|exact Ht| |exact Ht'|by eapply list_elem_of_lookup_2].
      rewrite Hrev. rewrite list_elem_of_In, <- in_rev. left. done.
    + right. exists (at_loc (heap w) <$> rev older), (at_loc (heap w) l). rewrite Hrev. simpl.
      rewrite !fmap_app. simpl. split; [done|]. by rewrite at_loc_insert, !fmap_rev, Hold.
  - assert (Hfresh : ∀ ls', Forall (λ l, l < fresh w) ls' →
      at_loc (<[fresh w := add row alone]> (heap w)) <$> ls' = at_loc (heap w) <$> ls').
    { intros ls'. apply at_loc_old. intros l Hl. apply at_loc_insert_ne. lia. }
    split_and!; [lia| | | | |by rewrite Hfresh|by rewrite Hfresh|rewrite at_loc_insert; apply len_add].
    + constructor; [lia|]. eapply Forall_impl; [exact Hltr|]. simpl. lia.
    + apply NoDup_cons. split; [|done]. intros Hin. rewrite Forall_forall in Hltr. specialize (Hltr _ Hin). lia.
    + intros t' ls' _ Ht'. apply Hfresh. by destruct (Hinv t' ls' Ht') as (_ & ? & _).
    + left. simpl. rewrite rev_involutive, fmap_app, Hfresh by done. simpl. by rewrite at_loc_insert.
Qed.

Lemma foldr_join_pos (x : L) (b : list L) : 0 < len x → 0 < len (foldr join x b).
Proof. intros Hx. induction b as [|l b IH]; [done|]. simpl. by apply len_join. Qed.

Lemma add_row_spec w t ls row :
  layers_inv w → tables w !! t = Some ls →
  layers_inv (add_row w t row) ∧ grown row (layers_of w t) (layers_of (add_row w t row) t) ∧
  ∀ t', t' ≠ t → layers_of (add_row w t row) t' = layers_of w t'.
Proof.
  intros Hinv Ht. unfold add_row. destruct (put_row w t row) as [[[h next] newest] rest] eqn:Hp.
  destruct (put_row_spec _ _ _ _ _ _ _ _ Hinv Ht Hp) as (Hnext & Hlt & Hnd & Hother & Hrow & Hsort & Hpos & Hnew).
  destruct (settle h next newest rest) as [[h' next'] out] eqn:Hs.
  apply settle_spec in Hs as (Hnext' & Hold & x & pre & rest' & -> & -> & Hx & Hxc & Hval & Hexit); [|done].
  apply Forall_cons in Hlt as [Hlt1 Hlt]. apply Forall_app in Hlt as [Hltp Hltr].
  apply NoDup_cons in Hnd as [Hni Hnd]. apply NoDup_app in Hnd as (_ & _ & Hndr).
  assert (Hr' : at_loc h' <$> rest' = at_loc h <$> rest') by by eapply at_loc_old.
  assert (Hothers : ∀ t' ls', t' ≠ t → tables w !! t' = Some ls' → at_loc h' <$> ls' = at_loc (heap w) <$> ls').
  { intros t' ls' Hne Ht'. rewrite <- (Hother t' ls' Hne Ht'). eapply at_loc_old; [done|].
    destruct (Hinv t' ls' Ht') as (_ & Hlt' & _). eapply Forall_impl; [exact Hlt'|]. simpl. lia. }
  rewrite fmap_app in Hsort, Hpos. apply Forall_app in Hpos as [Hposp Hposr].
  assert (Hsr : Sorted larger (at_loc h <$> rest')).
  { clear -Hsort. induction pre as [|l pre IH]; [done|]. apply IH. simpl in Hsort. by apply Sorted_inv in Hsort as [? _]. }
  split; [|split].
  - intros t' ls'. simpl. destruct (decide (t' = t)) as [->|Hne].
    + rewrite lookup_insert_eq. intros [= <-]. change (rev rest' ++ [x]) with (rev (x :: rest')). split_and!.
      * apply NoDup_rev', NoDup_cons. split; [|done]. intros Hin. destruct Hxc as [->|Hxc]; [set_solver|].
        rewrite Forall_forall in Hltr. specialize (Hltr _ Hin). lia.
      * apply Forall_rev. constructor; [done|]. eapply Forall_impl; [exact Hltr|]. simpl. lia.
      * unfold tidy. rewrite fmap_rev, rev_involutive. split.
        -- rewrite fmap_cons, Hr'. constructor; [done|]. destruct rest'; simpl in *; constructor. congruence.
        -- apply Forall_rev. rewrite fmap_cons, Hr'. constructor; [|done]. rewrite Hval. by apply foldr_join_pos.
    + rewrite lookup_insert_ne by done. intros Ht'. destruct (Hinv t' ls' Ht') as (H1 & H2 & H3).
      split_and!; [done| |by rewrite (Hothers t' ls')]. eapply Forall_impl; [exact H2|]. simpl. lia.
  - unfold layers_of. simpl. rewrite lookup_insert_eq, Ht. simpl.
    exists (at_loc h <$> rev rest'), (at_loc h <$> rev pre), (at_loc h newest). split.
    + simpl in Hrow. rewrite rev_app_distr, !fmap_app, <- app_assoc in Hrow. done.
    + rewrite fmap_app. simpl. by rewrite Hval, !fmap_rev, Hr'.
  - intros t' Hne. unfold layers_of. simpl. rewrite lookup_insert_ne by done.
    destruct (tables w !! t') as [ls'|] eqn:Ht'; [|done]. simpl. by eapply Hothers.
Qed.

(** The layers of a table, if it is there. *)
Definition view w (t : nat) : option (list L) :=
  fmap (M := option) (λ ls : list nat, at_loc (heap w) <$> ls) (tables w !! t).

Lemma layers_of_view w t : layers_of w t = default [] (view w t).
Proof. unfold layers_of, view. by destruct (tables w !! t). Qed.

Lemma add_row_tables w t row : ∃ ls, tables (add_row w t row) = <[t := ls]> (tables w).
Proof.
  unfold add_row. destruct (put_row _ _ _) as [[[h n] x] rest]. destruct (settle _ _ _ _) as [[h' n'] out]. eauto.
Qed.

Lemma add_row_view w t old row :
  layers_inv w → view w t = Some old →
  layers_inv (add_row w t row) ∧ (∃ new, view (add_row w t row) t = Some new ∧ grown row old new) ∧
  ∀ t', t' ≠ t → view (add_row w t row) t' = view w t'.
Proof.
  intros Hinv Hv. apply fmap_Some in Hv as (ls & Ht & ->).
  destruct (add_row_spec w t ls row Hinv Ht) as (Hinv' & Hg & Hother).
  destruct (add_row_tables w t row) as [ls' Htab]. split; [done|]. split.
  - unfold view, layers_of in *. rewrite Htab, lookup_insert_eq, Ht in *. eauto.
  - intros t' Hne. specialize (Hother t' Hne). unfold view, layers_of in *.
    rewrite Htab, lookup_insert_ne in * by done. destruct (tables w !! t'); simpl in *; congruence.
Qed.

Lemma table_new_view w t t' : view (table_new w t) t' = if decide (t' = t) then Some [] else view w t'.
Proof.
  unfold view. simpl. case_decide; subst; [by rewrite lookup_insert_eq|by rewrite lookup_insert_ne].
Qed.

Lemma table_clone_view w t t' t1 :
  view (table_clone w t t') t1 =
  match view w t with Some l => if decide (t1 = t') then Some l else view w t1 | None => view w t1 end.
Proof.
  unfold view, table_clone. destruct (tables w !! t) as [ls|]; simpl; [|done].
  case_decide; subst; [by rewrite lookup_insert_eq|by rewrite lookup_insert_ne].
Qed.

Lemma table_drop_view w t t' : view (table_drop w t) t' = if decide (t' = t) then None else view w t'.
Proof.
  unfold view. simpl. case_decide; subst; [by rewrite lookup_delete_eq|by rewrite lookup_delete_ne].
Qed.

(** The other operations keep the invariant. *)
Lemma table_new_inv w t : layers_inv w → layers_inv (table_new w t).
Proof.
  intros Hinv t' ls'. simpl. rewrite lookup_insert_Some. intros [[<- <-]|[_ Ht']]; [|by eapply Hinv].
  split_and!; [constructor..|]. split; constructor.
Qed.

Lemma table_clone_inv w t t' : layers_inv w → layers_inv (table_clone w t t').
Proof.
  intros Hinv. unfold table_clone. destruct (tables w !! t) as [ls|] eqn:Ht; [|done].
  intros t2 ls2. simpl. rewrite lookup_insert_Some. intros [[<- <-]|[_ H2]]; by eapply Hinv.
Qed.

Lemma table_drop_inv w t : layers_inv w → layers_inv (table_drop w t).
Proof. intros Hinv t' ls'. simpl. rewrite lookup_delete_Some. intros [_ Ht]. by eapply Hinv. Qed.

(** Layers that more than double are few. *)
Definition total (layers : list L) : nat := sum_list_with len layers.

Lemma total_rev (layers : list L) : total (rev layers) = total layers.
Proof.
  unfold total. induction layers as [|x l IH]; [done|]. simpl. rewrite sum_list_with_app. simpl. lia.
Qed.

Lemma larger_power (x : L) (l : list L) :
  Sorted larger (x :: l) → 2 ^ length l * S (len x) ≤ S (total (x :: l)).
Proof.
  unfold total. revert x. induction l as [|y l IH]; intros x Hs; simpl; [lia|].
  apply Sorted_inv in Hs as [Hs Hy]. inversion Hy as [|? ? Hlarger]; subst. unfold larger in Hlarger.
  specialize (IH y Hs). simpl in IH. nia.
Qed.

Lemma tidy_few (layers : list L) : tidy layers → 2 ^ length layers ≤ S (total layers).
Proof.
  intros [Hs Hpos]. apply Forall_rev in Hpos. rewrite <- total_rev, <- length_rev.
  destruct (rev layers) as [|x l]; [simpl; lia|]. apply Forall_cons in Hpos as [Hx _].
  apply larger_power in Hs. rewrite length_cons, Nat.pow_succ_r'. nia.
Qed.

Lemma few_layers (layers : list L) : tidy layers → length layers ≤ Nat.log2 (total layers) + 1.
Proof.
  intros Ht. apply tidy_few in Ht. destruct (total layers) as [|n] eqn:Hn.
  - destruct layers as [|x l]; simpl in *; [lia|]. pose proof (Nat.pow_nonzero 2 (length l)). lia.
  - rewrite Nat.add_1_r, <- Nat.log2_double by lia. apply Nat.log2_le_pow2; lia.
Qed.

Lemma view_tidy w t layers : layers_inv w → view w t = Some layers → tidy layers.
Proof. intros Hinv (ls & Ht & ->)%fmap_Some. by destruct (Hinv t ls Ht) as (_ & _ & ?). Qed.
End layers.

#[global] Instance map_layer_laws {K V} `{Countable K} : @LayerLaws (gmap K V) (K * V) _.
Proof.
  constructor; simpl.
  - intros [k v] m. simpl. apply Nat.neq_0_lt_0. intros Hs%map_size_empty_inv. by apply insert_non_empty in Hs.
  - intros a b Hb. apply Nat.neq_0_lt_0. intros Hs%map_size_empty_inv.
    apply map_positive_l in Hs as ->. rewrite map_size_empty in Hb. lia.
Qed.
#[global] Instance rows_layer_laws {T} : @LayerLaws (list T) T _.
Proof. constructor; simpl; intros; rewrite length_app; simpl; lia. Qed.

(** ** The list *)
Section rows.
Context {T : Type}.
Implicit Types r : @RowsWorld T.

(** The rows of a list. *)
Definition contents r (t : nat) : list T := concat (layers_of (world r) t).
Definition rows_inv r : Prop :=
  layers_inv (world r) ∧ ∀ t, lens r !! t = (λ _, length (contents r t)) <$> tables (world r) !! t.

Lemma grown_concat (row : T) old new : grown row old new → concat new = concat old ++ [row].
Proof.
  intros (a & b & x & Hrow & ->).
  assert (Hj : ∀ (b : list (list T)) (x : list T), foldr join x b = concat (b ++ [x])).
  { clear. intros b x. induction b as [|y b IH]; [simpl; by rewrite app_nil_r|].
    change (foldr join x (y :: b)) with (y ++ foldr join x b). by rewrite IH. }
  rewrite concat_app, Hj. simpl. rewrite app_nil_r, <- concat_app.
  destruct Hrow as [->|(front & l & -> & ->)]; rewrite !concat_app; simpl; by rewrite ?app_nil_r, ?app_assoc.
Qed.

Lemma rows_get_layered_spec layers i : rows_get_layered layers i = concat (layers : list (list T)) !! i.
Proof.
  revert i. induction layers as [|l layers IH]; intros i; [done|]. simpl.
  destruct (l !! i) as [x|] eqn:Hl.
  - by rewrite (lookup_app_l_Some _ _ _ _ Hl).
  - rewrite lookup_app_r; [apply IH|]. by apply lookup_ge_None.
Qed.

Lemma total_concat (layers : list (list T)) : total layers = length (concat layers).
Proof. unfold total. induction layers as [|l layers IH]; [done|]. simpl. by rewrite length_app, <- IH. Qed.
End rows.

(** ** The map *)
Section maps.
Context {K V : Type} `{Countable K}.
Implicit Types w : World (gmap K V).

(** The entries of a map. *)
Definition entries w (t : nat) : gmap K V := ⋃ layers_of w t.

(** A key is in one layer of a table. *)
Fixpoint disjoint (layers : list (gmap K V)) : Prop :=
  match layers with [] => True | l :: rest => l ##ₘ ⋃ rest ∧ disjoint rest end.
Definition keys_once w : Prop := ∀ t, disjoint (layers_of w t).

Lemma unions_app (a b : list (gmap K V)) : ⋃ (a ++ b) = ⋃ a ∪ ⋃ b.
Proof. induction a as [|l a IH]; simpl; [by rewrite map_empty_union|]. by rewrite IH, map_union_assoc. Qed.

Lemma disjoint_app a b : disjoint (a ++ b) ↔ disjoint a ∧ disjoint b ∧ ⋃ a ##ₘ ⋃ b.
Proof.
  induction a as [|l a IH]; simpl.
  - split; [|tauto]. intros Hb. split_and!; [done..|apply map_disjoint_empty_l].
  - rewrite IH, unions_app, map_disjoint_union_l, map_disjoint_union_r. tauto.
Qed.

Lemma join_disjoint b x : disjoint (b ++ [x]) → foldr join x b = ⋃ (b ++ [x]).
Proof.
  induction b as [|l b IH]; [simpl; by rewrite map_union_empty|].
  intros [Hl Hb]. change (foldr join x (l :: b)) with (foldr join x b ∪ l). rewrite (IH Hb). by apply map_union_comm.
Qed.

Lemma with_row_entries k v old new :
  with_row (k, v) old new → disjoint old → ⋃ old !! k = None →
  disjoint new ∧ ⋃ new = <[k := v]> (⋃ old).
Proof.
  intros [->|(front & l & -> & ->)] Hd Hk.
  - rewrite disjoint_app, unions_app. simpl. rewrite map_union_empty.
    assert (Hdk : ⋃ old ##ₘ <[k := v]> (∅ : gmap K V)) by (apply map_disjoint_insert_r_2; [done|apply map_disjoint_empty_r]).
    split_and!; [done|apply map_disjoint_empty_r|done|done|].
    rewrite map_union_comm by done. by rewrite <- insert_union_l, map_empty_union.
  - rewrite disjoint_app, unions_app in *. simpl in *. rewrite map_union_empty in *.
    destruct Hd as (Hf & _ & Hfl). apply lookup_union_None in Hk as [Hkf Hkl].
    split_and!; [done|apply map_disjoint_empty_r|done|by apply map_disjoint_insert_r_2|].
    rewrite unions_app. simpl. rewrite map_union_empty. by rewrite insert_union_r.
Qed.

Lemma grown_entries k v old new :
  grown (k, v) old new → disjoint old → ⋃ old !! k = None →
  disjoint new ∧ ⋃ new = <[k := v]> (⋃ old).
Proof.
  intros (a & b & x & Hrow & ->) Hd Hk. destruct (with_row_entries _ _ _ _ Hrow Hd Hk) as [Hd' <-].
  apply disjoint_app in Hd' as (Ha & Hb & Hab). rewrite (join_disjoint b x Hb).
  rewrite disjoint_app, !unions_app in *. simpl in *. rewrite !map_union_empty in *.
  split_and!; [done|apply map_disjoint_empty_r|done|done|done].
Qed.

Lemma total_union layers : disjoint layers → total layers = size (⋃ layers : gmap K V).
Proof.
  induction layers as [|l layers IH]; [simpl; by rewrite map_size_empty|].
  intros [Hl Hd]. change (total (l :: layers)) with (size l + total layers). simpl.
  by rewrite map_size_disj_union, IH.
Qed.

Lemma layers_get_spec w t key : layers_get w t key = entries w t !! key.
Proof.
  assert (Hl : layers_get_layered w t key = entries w t !! key).
  { unfold layers_get_layered, entries. induction (layers_of w t) as [|l layers IH]; simpl.
    - by rewrite lookup_empty.
    - rewrite IH, lookup_union. destruct (l !! key), (⋃ layers !! key); done. }
  unfold layers_get. destruct (layers_of w t) as [|l [|l' layers]] eqn:He; [done| |done].
  unfold entries. rewrite He. simpl. by rewrite map_union_empty.
Qed.
End maps.
