(* ===== verification/LayersClaims.v ===== *)
(** * What the layered tables promise

    Any sequence of new tables, copies, rows added and tables dropped,
    against plain lists and maps that share nothing. *)

From S2P Require Import Prelude Layers LayersFacts.

#[local] Open Scope nat_scope.

(** What a program does to tables; only a table that is there is copied
    or added to. *)
Inductive TableOp (R : Type) :=
  | New (t : nat)
  | Copy (t t' : nat)
  | Add (t : nat) (row : R)
  | Drop (t : nat).
Arguments New {R} _.
Arguments Copy {R} _ _.
Arguments Add {R} _ _.
Arguments Drop {R} _.

(** The tables as plain values, none of which shares anything. *)
Definition plain_step {A R} (start : A) (grow : A → R → A) (m : gmap nat A) (op : TableOp R) : gmap nat A :=
  match op with
  | New t => <[t := start]> m
  | Copy t t' => match m !! t with Some a => <[t' := a]> m | None => m end
  | Add t row => match m !! t with Some a => <[t := grow a row]> m | None => m end
  | Drop t => delete t m
  end.

(** ** One layer *)
Section generic.
Context {L R : Type} `{!Layer L R}.
Implicit Types w : World L.

Definition world_empty : World L := MkWorld ∅ 0 ∅.
Definition world_step w (op : TableOp R) : World L :=
  match op with
  | New t => table_new w t
  | Copy t t' => table_clone w t t'
  | Add t row => match tables w !! t with Some _ => add_row w t row | None => w end
  | Drop t => table_drop w t
  end.
Definition world_run (ops : list (TableOp R)) : World L := foldl world_step world_empty ops.

Definition is_copy (op : TableOp R) : bool := match op with Copy _ _ => true | _ => false end.

(** No layer is in two tables, and no table has two. *)
Definition unshared w : Prop :=
  ∀ t ls, tables w !! t = Some ls →
    length ls ≤ 1 ∧ ∀ l, l ∈ ls → l < fresh w ∧ ∀ t' ls', tables w !! t' = Some ls' → l ∈ ls' → t' = t.

Lemma count_unshared w t l : unshared w → tables w !! t = Some [l] → count (tables w) l = 1.
Proof.
  intros Hun Ht. unfold count.
  assert (filter (λ p, l ∈ p.2) (tables w) = {[t := [l]]}) as ->; [|apply map_size_singleton].
  apply map_eq. intros t'. apply option_eq. intros ls'. rewrite map_lookup_filter_Some, lookup_singleton_Some.
  destruct (Hun t [l] Ht) as [_ Hl]. destruct (Hl l ltac:(set_solver)) as [_ Honly]. split.
  - simpl. intros [Ht' Hin]. specialize (Honly t' ls' Ht' Hin) as ->. split; congruence.
  - intros [<- <-]. simpl. set_solver.
Qed.

Lemma unshared_add w t row ls : unshared w → tables w !! t = Some ls → unshared (add_row w t row).
Proof.
  intros Hun Ht. destruct (Hun t ls Ht) as [Hlen Hls].
  assert (Hadd : ∃ h next l, add_row w t row = MkWorld h next (<[t := [l]]> (tables w)) ∧ fresh w ≤ next ∧
    l < next ∧ (l ∈ ls ∨ l = fresh w)).
  { unfold add_row, put_row. rewrite Ht. simpl. destruct ls as [|l [|]]; simpl in *; [|..|lia].
    - eexists _, _, _. split; [done|]. split_and!; [lia|lia|by right].
    - rewrite decide_True by by eapply count_unshared. simpl. eexists _, _, _. split; [done|].
      split_and!; [lia|by apply Hls; set_solver|left; set_solver]. }
  destruct Hadd as (h & next & l & -> & Hnext & Hl & Hcase). intros t1 ls1. simpl.
  rewrite lookup_insert_Some. intros [[<- <-]|[Hne H1]].
  - split; [done|]. intros l1 ->%list_elem_of_singleton. split; [done|]. intros t' ls'.
    rewrite lookup_insert_Some. intros [[<- <-]|[Hne' Ht']] Hin; [done|]. destruct Hcase as [Hcase| ->].
    + by eapply Hls.
    + destruct (Hun t' ls' Ht') as [_ Hl']. destruct (Hl' _ Hin). lia.
  - destruct (Hun t1 ls1 H1) as [Hlen1 Hl1]. split; [done|]. intros l1 Hin1.
    destruct (Hl1 l1 Hin1) as [Hlt1 Honly1]. split; [lia|]. intros t' ls'. rewrite lookup_insert_Some.
    intros [[<- <-]|[_ Ht']] Hin; [|by eapply Honly1]. apply list_elem_of_singleton in Hin as ->.
    destruct Hcase as [Hcase| ->]; [|lia]. symmetry. by eapply Hls.
Qed.

(** A table that nothing was copied from while it was built has one
    layer: as long as no table is copied, no table has two. *)
Theorem uncopied_one_layer (ops : list (TableOp R)) t :
  forallb (λ op, negb (is_copy op)) ops = true → length (layers_of (world_run ops) t) ≤ 1.
Proof.
  intros Hops. assert (Hun : unshared (world_run ops)).
  { unfold world_run. assert (H0 : unshared world_empty) by done. revert H0 Hops.
    generalize world_empty. induction ops as [|op ops IH]; intros w Hun Hops; [done|]. simpl in *.
    apply andb_true_iff in Hops as [Hop Hops]. apply IH; [|done]. destruct op as [t'|t1 t2|t' row|t']; simpl; [|done|..].
    - intros t1 ls1. simpl. rewrite lookup_insert_Some. intros [[<- <-]|[Hne H1]]; [split; [simpl; lia|set_solver]|].
      destruct (Hun t1 ls1 H1) as [Hl Honly]. split; [done|]. intros l Hin. destruct (Honly l Hin) as [? Ho].
      split; [done|]. intros t2 ls2. rewrite lookup_insert_Some. intros [[<- <-]|[_ H2]]; [set_solver|by apply Ho].
    - destruct (tables w !! t') as [ls|] eqn:Ht; [by eapply unshared_add|done].
    - intros t1 ls1. simpl. rewrite lookup_delete_Some. intros [_ H1]. destruct (Hun t1 ls1 H1) as [Hl Honly].
      split; [done|]. intros l Hin. destruct (Honly l Hin) as [? Ho]. split; [done|]. intros t2 ls2.
      rewrite lookup_delete_Some. intros [_ H2]. by apply Ho. }
  unfold layers_of. rewrite length_fmap. destruct (tables (world_run ops) !! t) as [ls|] eqn:Ht; [|simpl; lia].
  by destruct (Hun t ls Ht).
Qed.
End generic.

Lemma uncopied_one_layer_witness :
  length (layers_of (world_run (L := list nat) [New 0; Add 0 5; Add 0 6; New 1; Add 1 7; Add 0 8]) 0) ≤ 1.
Proof. apply (uncopied_one_layer (L := list nat)). vm_compute. reflexivity. Defined.

(** ** Tables and plain values *)
Section refine.
Context {L R A : Type} `{!Layer L R} `{!LayerLaws (L := L) (R := R)}.
(** What layers stand for, and the rows that may be added to it. *)
Context (start : A) (grow : A → R → A) (den : list L → A → Prop) (may : A → R → Prop).
Context (Hstart : den [] start).
Context (Hgrow : ∀ old new a row, den old a → may a row → grown row old new → den new (grow a row)).

Definition refines (w : World L) (m : gmap nat A) : Prop :=
  layers_inv w ∧ ∀ t, option_Forall2 den (view w t) (m !! t).

(** Every row added may be. *)
Definition allowed (m : gmap nat A) (op : TableOp R) : Prop :=
  match op with Add t row => ∀ a, m !! t = Some a → may a row | _ => True end.

Lemma refines_step w m op :
  refines w m → allowed m op → refines (world_step w op) (plain_step start grow m op).
Proof.
  intros [Hinv Hm] Hop. destruct op as [t|t t'|t row|t]; simpl.
  - split; [by apply table_new_inv|]. intros t1. rewrite table_new_view. case_decide; subst.
    + rewrite lookup_insert_eq. by constructor.
    + by rewrite lookup_insert_ne.
  - split; [by apply table_clone_inv|]. intros t1. rewrite table_clone_view.
    pose proof (Hm t) as Ht. destruct Ht as [old a Ha|]; [|done]. case_decide; subst.
    + rewrite lookup_insert_eq. by constructor.
    + by rewrite lookup_insert_ne.
  - pose proof (Hm t) as Ht. unfold view in Ht. destruct (tables w !! t) as [ls|] eqn:Hls; simpl in Ht.
    2: { destruct (m !! t); [inversion Ht|done]. }
    destruct (m !! t) as [a|] eqn:Ha; [|inversion Ht].
    assert (Hden : den (at_loc (heap w) <$> ls) a) by (by inversion Ht).
    destruct (add_row_view w t (at_loc (heap w) <$> ls) row) as (Hinv' & (new & Hnew & Hg) & Hother);
      [done|unfold view; by rewrite Hls|].
    split; [done|]. intros t1. destruct (decide (t1 = t)) as [->|Hne].
    + rewrite Hnew, lookup_insert_eq. constructor. eapply Hgrow; [done|by apply Hop|done].
    + by rewrite Hother, lookup_insert_ne.
  - split; [by apply table_drop_inv|]. intros t1. rewrite table_drop_view. case_decide; subst.
    + rewrite lookup_delete_eq. constructor.
    + by rewrite lookup_delete_ne.
Qed.

Fixpoint all_allowed (m : gmap nat A) (ops : list (TableOp R)) : Prop :=
  match ops with
  | [] => True
  | op :: ops' => allowed m op ∧ all_allowed (plain_step start grow m op) ops'
  end.

Lemma refines_run ops :
  all_allowed ∅ ops → refines (world_run ops) (foldl (plain_step start grow) ∅ ops).
Proof.
  assert (H0 : refines world_empty ∅).
  { split; [done|]. intros t. unfold view. simpl. rewrite !lookup_empty. constructor. }
  unfold world_run. revert H0. generalize (@world_empty L), (∅ : gmap nat A).
  induction ops as [|op ops IH]; intros w m Hw Hall; [done|]. destruct Hall as [Hop Hall].
  simpl. apply IH; [by apply refines_step|done].
Qed.
End refine.

(** ** The list *)
Section rows.
Context {T : Type}.
Implicit Types r : @RowsWorld T.

Definition rows_empty : @RowsWorld T := MkRows world_empty ∅.
Definition rows_step r (op : TableOp T) : RowsWorld :=
  match op with
  | New t => rows_default r t
  | Copy t t' => rows_clone r t t'
  | Add t row => match tables (world r) !! t with Some _ => rows_push r t row | None => r end
  | Drop t => MkRows (table_drop (world r) t) (delete t (lens r))
  end.
Definition rows_run (ops : list (TableOp T)) : RowsWorld := foldl rows_step rows_empty ops.
Definition lists_run (ops : list (TableOp T)) : gmap nat (list T) :=
  foldl (plain_step [] (λ l row, l ++ [row])) ∅ ops.

Lemma rows_refines ops : refines (λ ls l, concat ls = l) (world_run ops) (lists_run ops).
Proof.
  apply (refines_run _ _ _ (λ _ _, True)); [done| |].
  - intros old new l row <- _ Hg. by apply grown_concat.
  - generalize (∅ : gmap nat (list T)). induction ops as [|[] ops IH]; intros m; simpl; auto.
Qed.

Lemma rows_run_spec ops :
  world (rows_run ops) = world_run ops ∧ ∀ t, lens (rows_run ops) !! t = length <$> lists_run ops !! t.
Proof.
  induction ops as [|op ops IH] using rev_ind.
  { split; [done|]. intros t. unfold lists_run. simpl. by rewrite !lookup_empty. }
  unfold rows_run, lists_run, world_run in *. rewrite !foldl_app. simpl.
  destruct (rows_refines ops) as [_ Hm]. unfold world_run, lists_run in Hm.
  destruct IH as [Hw Hlen]. set (r := foldl rows_step rows_empty ops) in *.
  set (m := foldl (plain_step [] _) ∅ ops) in *. rewrite <- Hw in *.
  assert (Hin : ∀ t, is_Some (tables (world r) !! t) ↔ is_Some (m !! t)).
  { intros t. specialize (Hm t). unfold view in Hm. rewrite <- !not_eq_None_Some.
    destruct (tables (world r) !! t), (m !! t); inversion Hm; done. }
  destruct op as [t|t t'|t row|t]; simpl.
  - split; [done|]. intros t1. rewrite !lookup_insert. case_decide; [done|apply Hlen].
  - unfold rows_clone. rewrite Hlen. specialize (Hin t). destruct (m !! t) as [l|] eqn:Hl; simpl.
    + split; [done|]. intros t1. rewrite !lookup_insert. case_decide; [done|apply Hlen].
    + split; [|done]. unfold table_clone. destruct (tables (world r) !! t); [|done].
      destruct (proj1 Hin); [by eauto|done].
  - specialize (Hin t). destruct (tables (world r) !! t) as [ls|] eqn:Ht.
    + destruct (m !! t) as [l|] eqn:Hl; [|destruct (proj1 Hin); [by eauto|done]]. split; [done|].
      intros t1. simpl. unfold rows_len. rewrite Hlen, Hl, !lookup_insert. simpl.
      case_decide; [simpl; f_equal; rewrite length_app; simpl; lia|apply Hlen].
    + destruct (m !! t) as [l|] eqn:Hl; [destruct (proj2 Hin); [by eauto|done]|done].
  - split; [done|]. intros t1. rewrite !lookup_delete. case_decide; [done|apply Hlen].
Qed.

(** A layered list is a plain list of its own: after any new lists,
    copies, rows pushed and lists dropped, each list has the length and
    the rows it would have if nothing were shared, and a list of [n] rows
    has at most [log2 n + 1] layers. *)
Theorem rows_table_correct (ops : list (TableOp T)) t l :
  lists_run ops !! t = Some l →
  let r := rows_run ops in
  rows_len r t = length l ∧ rows_is_empty r t = bool_decide (l = []) ∧
  (∀ i, rows_get r t i = l !! i) ∧
  length (layers_of (world r) t) ≤ Nat.log2 (length l) + 1.
Proof.
  intros Hl. destruct (rows_run_spec ops) as [Hw Hlen]. destruct (rows_refines ops) as [Hinv Hm].
  specialize (Hm t). rewrite Hl in Hm. destruct (view (world_run ops) t) as [ls|] eqn:Hv; [|by inversion Hm].
  assert (Hc : concat ls = l) by (by inversion Hm). clear Hm.
  assert (Hof : layers_of (world (rows_run ops)) t = ls) by (by rewrite Hw, layers_of_view, Hv).
  assert (Hn : rows_len (rows_run ops) t = length l) by (unfold rows_len; by rewrite Hlen, Hl). cbv zeta.
  split; [done|]. split; [|split].
  - unfold rows_is_empty. rewrite Hn. apply bool_decide_ext. destruct l; [done|]. split; done.
  - intros i. unfold rows_get. rewrite Hof, <- Hc.
    destruct ls as [|x [|y ls]]; [done| |apply rows_get_layered_spec]. simpl. by rewrite app_nil_r.
  - rewrite Hof, <- Hc, <- total_concat. apply few_layers. eapply view_tidy; [|exact Hv]. done.
Qed.
End rows.

Lemma rows_table_correct_witness :
  let r := rows_run [New 0; Add 0 5; Add 0 6; Copy 0 1; Add 0 7; Add 1 8] in
  rows_len r 1 = length [5; 6; 8] ∧ rows_is_empty r 1 = bool_decide ([5; 6; 8] = []) ∧
  (∀ i, rows_get r 1 i = [5; 6; 8] !! i) ∧
  length (layers_of (world r) 1) ≤ Nat.log2 (length [5; 6; 8]) + 1.
Proof.
  apply (rows_table_correct [New 0; Add 0 5; Add 0 6; Copy 0 1; Add 0 7; Add 1 8] 1 [5; 6; 8]).
  vm_compute. reflexivity.
Defined.

(** ** The map *)
Section maps.
Context {K V : Type} `{Countable K}.

Definition maps_run (ops : list (TableOp (K * V))) : gmap nat (gmap K V) :=
  foldl (plain_step ∅ (λ m row, <[row.1 := row.2]> m)) ∅ ops.

(** A key is given its value once. *)
Definition given_once (ops : list (TableOp (K * V))) : Prop :=
  all_allowed (A := gmap K V) ∅ (λ m row, <[row.1 := row.2]> m) (λ m row, m !! row.1 = None) ∅ ops.

(** A layered map is a plain map of its own, when a key is given its
    value once: after any new maps, copies, rows inserted and maps
    dropped, each map has the keys and values it would have if nothing
    were shared, and a map of [n] rows has at most [log2 n + 1] layers. *)
Theorem layers_table_correct (ops : list (TableOp (K * V))) t m :
  given_once ops → maps_run ops !! t = Some m →
  let w := world_run ops in
  (∀ key, layers_get w t key = m !! key) ∧ (layers_is_empty w t = true ↔ m = ∅) ∧
  length (layers_of w t) ≤ Nat.log2 (size m) + 1.
Proof.
  intros Honce Hmt. cbv zeta.
  assert (Hr : refines (λ ls m, disjoint ls ∧ ⋃ ls = m) (world_run ops) (maps_run ops)).
  { apply (refines_run _ _ _ (λ m row, m !! row.1 = None)); [done| |done].
    intros old new a [k v] [Hd <-] Hk Hg. by apply grown_entries. }
  destruct Hr as [Hinv Hm]. specialize (Hm t). rewrite Hmt in Hm.
  destruct (view (world_run ops) t) as [ls|] eqn:Hv; [|by inversion Hm].
  assert (Hd : disjoint ls ∧ ⋃ ls = m) by (by inversion Hm). destruct Hd as [Hd <-]. clear Hm.
  assert (Hof : layers_of (world_run ops) t = ls) by (by rewrite layers_of_view, Hv).
  assert (Htidy : tidy ls) by (eapply view_tidy; [|exact Hv]; done). split; [|split].
  - intros key. rewrite layers_get_spec. unfold entries. by rewrite Hof.
  - unfold layers_is_empty. rewrite Hof. destruct ls as [|x ls]; [done|]. split; [done|].
    intros He. exfalso. destruct Htidy as [_ Hpos]. apply Forall_cons in Hpos as [Hx _]. simpl in Hx, He.
    apply map_positive_l in He as ->. rewrite map_size_empty in Hx. lia.
  - rewrite Hof, <- total_union by done. by apply few_layers.
Qed.
End maps.

Definition map_ops : list (TableOp (nat * nat)) :=
  [New 0; Add 0 (5, 50); Add 0 (6, 60); Copy 0 1; Add 0 (7, 70); Add 1 (8, 80)].

Lemma layers_table_correct_witness :
  let w := world_run map_ops in
  let m : gmap nat nat := {[5 := 50; 6 := 60; 8 := 80]} in
  (∀ key, layers_get w 1 key = m !! key) ∧ (layers_is_empty w 1 = true ↔ m = ∅) ∧
  length (layers_of w 1) ≤ Nat.log2 (size m) + 1.
Proof.
  apply (layers_table_correct map_ops 1 {[5 := 50; 6 := 60; 8 := 80]}).
  - vm_compute. split_and!; try exact I; intros a [= <-]; reflexivity.
  - vm_compute. reflexivity.
Defined.

(** The map of the layers [k2], [k3] and [k] given twice: the second time
    after a copy. *)
Definition again (k k2 k3 k4 v v' : nat) (more : bool) : World (gmap nat nat) :=
  let w := world_run [New 0; Add 0 (k, v); Add 0 (k2, 0); Add 0 (k3, 0); Copy 0 1] in
  let w := layers_insert w 0 k v' in
  if more then layers_insert w 0 k4 0 else w.

(** What happens to a key that is given a value again: in the newest
    layer it takes the new value at once; in an older one it keeps the
    old value only until the layers are made one, when the new value
    takes its place (the comment on [insert] says that it keeps it). *)
Theorem key_given_again (v v' : nat) :
  (let w := world_run [New 0; Add 0 (1, v)] in layers_get (layers_insert w 0 1 v') 0 1 = Some v') ∧
  layers_get (again 1 2 3 4 v v' false) 0 1 = Some v ∧
  layers_get (again 1 2 3 4 v v' true) 0 1 = Some v'.
Proof. vm_compute. split_and!; reflexivity. Qed.
