(* ===== verification/MapValue.v ===== *)
(** * The map value and the set value (src/value/map.rs)

    Entries, or members, in the order of their keys: side by side, side
    by side with the tree the first change makes of them, or in a tree.
    The trees are the B-trees of the crate [imbl]: a parameter, with what
    the code relies on stated as the laws of [OrdTreeLaws].  The order of
    the values ([Value::cmp]) and whether a value has a function in it are
    parameters too. *)

From S2P Require Import Prelude.

#[local] Open Scope nat_scope.

(** ** The order of values *)
Class Cmp (V : Type) := cmp : V → V → comparison.
Class CmpLaws (V : Type) `{Cmp V} : Prop := {
  cmp_antisym x y : cmp y x = CompOpp (cmp x y);
  cmp_trans x y z : cmp x y ≠ Gt → cmp y z ≠ Gt → cmp x z ≠ Gt;
}.

(** An entry has a key and a value: of a map, both; of a set, the member
    and nothing. *)
Class Entry (V W E : Type) := { key : E → V; val : E → W }.
#[global] Hint Mode Entry - - + : typeclass_instances.
#[global] Instance map_entry {V W} : Entry V W (V * W) := {| key := fst; val := snd |}.

Definition same_key {V} `{Cmp V} (x y : V) : bool := match cmp x y with Eq => true | _ => false end.

(** The entry of a key, and its value. *)
Definition seek {V W E} `{Cmp V, Entry V W E} (l : list E) (k : V) : option E :=
  List.find (λ e, same_key (key e) k) l.
Definition at_key {V W E} `{Cmp V, Entry V W E} (l : list E) (k : V) : option W := val <$> seek l k.

(** In key order, each key once. *)
Definition ordered {V W E} `{Cmp V, Entry V W E} (l : list E) : Prop :=
  StronglySorted (λ a b, cmp (key a) (key b) = Lt) l.

(** ** The trees of [imbl]: [OrdMap] and [OrdSet] *)
Class OrdTree (V E T : Type) := {
  tree_empty : T;
  tree_from : list E → T;
  tree_items : T → list E;
  tree_len : T → nat;
  tree_get : T → V → option E;
  tree_insert : E → T → T;
  tree_remove : V → T → T;
}.

Class OrdTreeLaws (V W E T : Type) `{Cmp V, Entry V W E, OrdTree V E T} : Prop := {
  law_items t : ordered (tree_items t);
  law_empty : tree_items (tree_empty : T) = [];
  law_from l : ordered l → tree_items (tree_from l : T) = l;
  law_len t : tree_len t = length (tree_items t);
  law_get t k : val <$> tree_get t k = at_key (tree_items t) k;
  law_insert e t k : at_key (tree_items (tree_insert e t)) k =
    if same_key (key e) k then Some (val e) else at_key (tree_items t) k;
  law_remove k t k' : at_key (tree_items (tree_remove k t)) k' =
    if same_key k k' then None else at_key (tree_items t) k';
}.

Definition FLAT_MOST : nat := 32.

(** *** Side by side *)
Section side.
Context {V W E : Type} `{Cmp V, Entry V W E}.

(** [binary_search_by]: the position found, or where it would go. *)
Fixpoint halve (fuel base size : nat) (l : list E) (k : V) : nat :=
  match fuel with
  | 0 => base
  | S fuel =>
      if decide (size <= 1) then base
      else
        let half := size / 2 in
        let mid := base + half in
        let base := match l !! mid with
                    | Some e => match cmp (key e) k with Gt => base | _ => mid end
                    | None => base
                    end in
        halve fuel base (size - half) l k
  end.
Definition find (l : list E) (k : V) : nat + nat :=
  match l with
  | [] => inr 0
  | _ =>
      let base := halve (length l) 0 (length l) l k in
      match l !! base with
      | Some e =>
          match cmp (key e) k with
          | Eq => inl base
          | Lt => inr (base + 1)
          | Gt => inr base
          end
      | None => inr base
      end
  end.

Definition with_at (l : list E) (at_ : nat) (e : E) : list E := take at_ l ++ [e] ++ drop at_ l.
Definition without_at (l : list E) (at_ : nat) : list E := take at_ l ++ drop (at_ + 1) l.

(** [sort_by]: the stable sort. *)
Fixpoint sort_in (e : E) (l : list E) : list E :=
  match l with
  | [] => [e]
  | x :: l' => match cmp (key e) (key x) with Gt => x :: sort_in e l' | _ => e :: l end
  end.
Definition sort_by (l : list E) : list E := foldr sort_in [] l.

(** [side_by_side]: what [each] gets, in turn. *)
Fixpoint side_by_side (first : list E) : list E → list (option E * option E) :=
  fix walk (second : list E) : list (option E * option E) :=
    match first, second with
    | a :: first', b :: second' =>
        match cmp (key a) (key b) with
        | Lt => (Some a, None) :: side_by_side first' second
        | Gt => (None, Some b) :: walk second'
        | Eq => (Some a, Some b) :: side_by_side first' second'
        end
    | a :: first', [] => (Some a, None) :: side_by_side first' []
    | [], b :: second' => (None, Some b) :: walk second'
    | [], [] => []
    end.

(** [dedup_by] of sorted entries: of those of one key the last ([Map]),
    or the first ([Set]). *)
Fixpoint dedup_last_from (cur : E) (l : list E) : list E :=
  match l with
  | [] => [cur]
  | e :: l' => if same_key (key e) (key cur) then dedup_last_from e l' else cur :: dedup_last_from e l'
  end.
Definition dedup_last (l : list E) : list E :=
  match l with [] => [] | e :: l' => dedup_last_from e l' end.
Fixpoint dedup_first_from (cur : E) (l : list E) : list E :=
  match l with
  | [] => [cur]
  | e :: l' => if same_key (key e) (key cur) then dedup_first_from cur l' else cur :: dedup_first_from e l'
  end.
Definition dedup_first (l : list E) : list E :=
  match l with [] => [] | e :: l' => dedup_first_from e l' end.
End side.

(** ** [Entries], [Members] *)
Inductive Kept (E T : Type) :=
  | Flat (entries : list E)
  | Side (entries : list E) (tree : option T)
  | Tree (tree : T).
Arguments Flat {E T} _.
Arguments Side {E T} _ _.
Arguments Tree {E T} _.

Section kept.
Context {V W E T : Type} `{Cmp V, Entry V W E, OrdTree V E T}.
Notation K := (Kept E T).

Definition kept_default : K := Flat [].

(** [of_sorted], [of_tree]. *)
Definition of_sorted (entries : list E) : K :=
  if decide (length entries <= FLAT_MOST) then Flat entries else Side entries None.
Definition of_tree (tree : T) : K :=
  if decide (FLAT_MOST / 2 < tree_len tree) then Tree tree else Flat (tree_items tree).

(** [side], [tree]. *)
Definition side (m : K) : option (list E) :=
  match m with Flat entries | Side entries _ => Some entries | Tree _ => None end.
Definition tree (m : K) : option T :=
  match m with
  | Flat _ => None
  | Side entries made => Some (default (tree_from entries) made)
  | Tree t => Some t
  end.
(** What [tree] leaves behind: the tree of a map made in one go, made. *)
Definition tree_made (m : K) : K :=
  match m with
  | Side entries made => Side entries (Some (default (tree_from entries) made))
  | m => m
  end.

Definition len (m : K) : nat :=
  match side m with
  | Some entries => length entries
  | None => from_option tree_len 0 (tree m)
  end.
Definition is_empty (m : K) : bool := bool_decide (len m = 0).

(** [iter]. *)
Definition iter (m : K) : list E :=
  match side m, m with
  | Some entries, _ => entries
  | None, Tree t => tree_items t
  | None, _ => []
  end.

(** [into_iter]: of entries side by side a map and a position. *)
Inductive IntoIter :=
  | IntoFlat (m : K) (at_ : nat)
  | IntoTree (others : list E).
Definition into_iter (m : K) : IntoIter :=
  match m with Tree t => IntoTree (tree_items t) | _ => IntoFlat m 0 end.
Definition into_next (it : IntoIter) : option (E * IntoIter) :=
  match it with
  | IntoFlat m at_ =>
      entries ← side m; e ← entries !! at_; Some (e, IntoFlat m (S at_))
  | IntoTree [] => None
  | IntoTree (e :: others) => Some (e, IntoTree others)
  end.
Definition into_hint (it : IntoIter) : nat :=
  match it with IntoFlat m at_ => len m - at_ | IntoTree others => length others end.
End kept.

(** ** [Map] *)
Section map.
Context {V W T : Type} `{Cmp V, OrdTree V (V * W) T}.
Notation Map := (Kept (V * W) T).

Definition map_new : Map := kept_default.

(** [of_unsorted], with it [from_iter]. *)
Definition of_unsorted (entries : list (V * W)) : Map := of_sorted (dedup_last (sort_by entries)).

Definition map_get (m : Map) (k : V) : option W :=
  match side m with
  | Some entries => match find entries k with inl i => snd <$> entries !! i | inr _ => None end
  | None => t ← tree m; snd <$> tree_get t k
  end.
Definition contains_key (m : Map) (k : V) : bool := match map_get m k with Some _ => true | None => false end.

Definition keys (m : Map) : list V := fst <$> iter m.
Definition values (m : Map) : list W := snd <$> iter m.

(** [made[at].1 = value]. *)
Definition set_value (l : list (V * W)) (at_ : nat) (v : W) : list (V * W) :=
  match l !! at_ with Some e => <[at_ := (e.1, v)]> l | None => l end.

Definition map_insert (m : Map) (k : V) (v : W) : Map :=
  match m with
  | Flat entries =>
      match find entries k with
      | inl i => Flat (set_value entries i v)
      | inr i =>
          if decide (length entries < FLAT_MOST) then Flat (with_at entries i (k, v))
          else Tree (tree_insert (k, v) (tree_from entries))
      end
  | Side _ _ | Tree _ => Tree (tree_insert (k, v) (default tree_empty (tree m)))
  end.

Definition map_remove (m : Map) (k : V) : Map :=
  match m with
  | Flat entries =>
      match find entries k with
      | inl i => Flat (without_at entries i)
      | inr _ => m
      end
  | Side _ _ | Tree _ =>
      if contains_key m k then of_tree (tree_remove k (default tree_empty (tree m))) else m
  end.

(** What [merge] makes of the entries of a key. *)
Definition merged (pair : option (V * W) * option (V * W)) : option (V * W) :=
  match pair with
  | (Some (k, _), Some (_, v)) => Some (k, v)
  | (Some e, None) | (None, Some e) => Some e
  | (None, None) => None
  end.

Definition merge_step (smaller_wins : bool) (t : T) (e : V * W) : T :=
  if smaller_wins || negb (match tree_get t e.1 with Some _ => true | None => false end)
  then tree_insert e t else t.

Definition merge (m other : Map) : Map :=
  if is_empty other then m
  else if is_empty m then other
  else
    let '(larger, smaller, smaller_wins) :=
      if decide (len other <= len m) then (m, other, true) else (other, m, false) in
    match tree larger with
    | None => of_sorted (omap merged (side_by_side (iter m) (iter other)))
    | Some t => Tree (foldl (merge_step smaller_wins) t (iter smaller))
    end.
End map.

(** [as_chunks::<2>] and [of_literal]: keys and values in turn. *)
Fixpoint chunks {V} (items : list V) : list (V * V) :=
  match items with
  | k :: v :: items' => (k, v) :: chunks items'
  | _ => []
  end.
Definition of_literal {V T} `{Cmp V, OrdTree V (V * V) T} (items : list V) : Kept (V * V) T :=
  of_unsorted (chunks items).

(** ** [Set] *)

(** What is known of whether a set holds a function. *)
Inductive Fns := Unknown | No | Yes.

Definition either (a b : Fns) : Fns :=
  match a, b with
  | Yes, _ | _, Yes => Yes
  | No, No => No
  | _, _ => Unknown
  end.
Definition some_of (a : Fns) : Fns := match a with No => No | _ => Unknown end.

#[global] Instance set_entry {V} : Entry V () V := {| key v := v; val _ := () |}.

Section set.
Context {V T : Type} `{Cmp V, OrdTree V V T}.
(** [Value::contains_fn], and [is_no_fn]: what is known without a walk. *)
Context (contains_fn is_no_fn : V → bool).

(** [SetOf]. *)
Record MSet := mkSet { members : Kept V T; fns : Fns }.

Definition set_of (members : Kept V T) : MSet := mkSet members Unknown.
Definition set_new : MSet := set_of kept_default.

(** [knowing]: stored in the set itself (a set that shares its storage
    has the same members, and learns the same). *)
Definition knowing (s : MSet) (f : Fns) : MSet :=
  match f with Unknown => s | f => mkSet (members s) f end.

(** [holds_fn]: the answer, and the set that has learnt it. *)
Definition holds_fn (s : MSet) : bool * MSet :=
  match fns s with
  | Yes => (true, s)
  | No => (false, s)
  | Unknown =>
      let holds := existsb contains_fn (iter (members s)) in
      (holds, knowing s (if holds then Yes else No))
  end.
Definition holds_fn_known (s : MSet) : option bool :=
  match fns s with Yes => Some true | No => Some false | Unknown => None end.

(** [from_iter], [without_fn]. *)
Definition set_from_iter (l : list V) : MSet := set_of (of_sorted (dedup_first (sort_by l))).
Definition without_fn (l : list V) : MSet := knowing (set_from_iter l) No.

Definition set_len (s : MSet) : nat := len (members s).
Definition set_contains (s : MSet) (v : V) : bool :=
  match side (members s) with
  | Some l => match find l v with inl _ => true | inr _ => false end
  | None => match tree (members s) with
            | Some t => match tree_get t v with Some _ => true | None => false end
            | None => false
            end
  end.
Definition set_iter (s : MSet) : list V := iter (members s).

Definition inserted (s : MSet) (v : V) : MSet :=
  match members s with
  | Flat l =>
      match find l v with
      | inl _ => s
      | inr i =>
          if decide (length l < FLAT_MOST) then set_of (Flat (with_at l i v))
          else set_of (Tree (tree_insert v (tree_from l)))
      end
  | Side _ _ | Tree _ =>
      if set_contains s v then s
      else set_of (Tree (tree_insert v (default tree_empty (tree (members s)))))
  end.
Definition set_insert (s : MSet) (v : V) : MSet :=
  knowing (inserted s v)
    (match fns s with Yes => Yes | No => if is_no_fn v then No else Unknown | Unknown => Unknown end).

Definition removed (s : MSet) (v : V) : MSet :=
  match members s with
  | Flat l => match find l v with inl i => set_of (Flat (without_at l i)) | inr _ => s end
  | Side _ _ | Tree _ =>
      if set_contains s v
      then set_of (of_tree (tree_remove v (default tree_empty (tree (members s))))) else s
  end.
Definition set_remove (s : MSet) (v : V) : MSet := knowing (removed s v) (some_of (fns s)).

Definition by_size (s other : MSet) : MSet * MSet :=
  if decide (set_len other <= set_len s) then (s, other) else (other, s).

Definition first_of (pair : option V * option V) : option V :=
  match pair with (Some a, _) => Some a | (None, b) => b end.
Definition only_one (pair : option V * option V) : option V :=
  match pair with (Some a, None) | (None, Some a) => Some a | _ => None end.

Definition tree_has (t : T) (v : V) : bool := match tree_get t v with Some _ => true | None => false end.

(** The loop of [united]: the members the tree lacks go into a copy, made
    when the first of them comes. *)
Definition unite_step (t : T) (made : option T) (v : V) : option T :=
  if tree_has t v then made else Some (tree_insert v (default t made)).
Definition united (s other : MSet) : MSet :=
  let '(larger, smaller) := by_size s other in
  if bool_decide (set_len smaller = 0) then larger
  else
    match tree (members larger) with
    | None => set_of (of_sorted (omap first_of (side_by_side (set_iter s) (set_iter other))))
    | Some t =>
        match foldl (unite_step t) None (set_iter smaller) with
        | Some t => set_of (Tree t)
        | None => larger
        end
    end.
Definition union (s other : MSet) : MSet := knowing (united s other) (either (fns s) (fns other)).

Definition intersection (s other : MSet) : MSet :=
  let f := match fns s, fns other with No, _ | _, No => No | _, _ => Unknown end in
  let '(larger, smaller) := by_size s other in
  knowing (set_of (of_sorted (filter (λ v, set_contains larger v = true) (set_iter smaller)))) f.

Definition differ_step (t : T) (made : option T) (v : V) : option T :=
  if tree_has t v then Some (tree_remove v (default t made)) else made.
Definition walk_difference (s other : MSet) : MSet :=
  let kept := filter (λ v, set_contains other v = false) (set_iter s) in
  if decide (length kept = set_len s) then s else set_of (of_sorted kept).
Definition differed (s other : MSet) : MSet :=
  match tree (members s) with
  | Some t =>
      if decide (set_len other < set_len s)
      then match foldl (differ_step t) None (set_iter other) with
           | Some t => set_of (of_tree t)
           | None => s
           end
      else walk_difference s other
  | None => walk_difference s other
  end.
Definition difference (s other : MSet) : MSet := knowing (differed s other) (some_of (fns s)).

Definition flip_step (t : T) (v : V) : T :=
  if tree_has t v then tree_remove v t else tree_insert v (tree_remove v t).
Definition symmetric_differed (s other : MSet) : MSet :=
  let '(larger, smaller) := by_size s other in
  if bool_decide (set_len smaller = 0) then larger
  else
    match tree (members larger) with
    | None => set_of (of_sorted (omap only_one (side_by_side (set_iter s) (set_iter other))))
    | Some t => set_of (of_tree (foldl flip_step t (set_iter smaller)))
    end.
Definition symmetric_difference (s other : MSet) : MSet :=
  knowing (symmetric_differed s other) (some_of (either (fns s) (fns other))).

Definition is_subset (s other : MSet) : bool :=
  bool_decide (set_len s <= set_len other) && forallb (set_contains other) (set_iter s).
End set.
