(* ===== verification/MapFacts.v ===== *)
(** * Entries in the order of their keys

    The order of keys, what a list of entries has at a key, the search by
    halving, and the changes and walks of entries side by side. *)

From S2P Require Import Prelude MapValue.

#[local] Open Scope nat_scope.

(** ** The order *)
Section order.
Context {V : Type} `{CmpLaws V}.
Implicit Types x y z : V.

Lemma cmp_refl x : cmp x x = Eq.
Proof. pose proof (cmp_antisym x x) as Ha. by destruct (cmp x x). Qed.

Lemma cmp_sym x y c : cmp x y = c → cmp y x = CompOpp c.
Proof. intros <-. apply cmp_antisym. Qed.

Lemma cmp_eq_l x y z : cmp x y = Eq → cmp x z = cmp y z.
Proof.
  intros Hxy. pose proof (cmp_sym _ _ _ Hxy) as Hyx. simpl in Hyx.
  pose proof (cmp_trans x y z) as H1. pose proof (cmp_trans y x z) as H2.
  pose proof (cmp_trans z x y) as H3. pose proof (cmp_trans z y x) as H4.
  rewrite (cmp_antisym x z), (cmp_antisym y z) in H3, H4. rewrite Hxy, Hyx in *.
  destruct (cmp x z), (cmp y z); simpl in *; naive_solver.
Qed.

Lemma cmp_eq_r x y z : cmp y z = Eq → cmp x y = cmp x z.
Proof.
  intros Hyz. rewrite (cmp_antisym y x), (cmp_antisym z x). by rewrite (cmp_eq_l y z x Hyz).
Qed.

Lemma cmp_lt_trans x y z : cmp x y = Lt → cmp y z = Lt → cmp x z = Lt.
Proof.
  intros Hxy Hyz. pose proof (cmp_trans x y z) as Ht. rewrite Hxy, Hyz in Ht.
  destruct (cmp x z) eqn:Hxz; [|done|naive_solver].
  pose proof (cmp_eq_l x z y Hxz) as He. rewrite Hxy, (cmp_antisym y z), Hyz in He. done.
Qed.

Lemma cmp_le_lt_trans x y z : cmp x y ≠ Gt → cmp y z = Lt → cmp x z = Lt.
Proof.
  intros Hxy Hyz. destruct (cmp x y) eqn:Hc; [|by eapply cmp_lt_trans|done].
  by rewrite (cmp_eq_l x y z Hc).
Qed.

Lemma cmp_lt_le_trans x y z : cmp x y = Lt → cmp y z ≠ Gt → cmp x z = Lt.
Proof.
  intros Hxy Hyz. destruct (cmp y z) eqn:Hc; [|by eapply cmp_lt_trans|done].
  by rewrite <- (cmp_eq_r x y z Hc).
Qed.

Lemma same_key_spec x y : same_key x y = true ↔ cmp x y = Eq.
Proof. unfold same_key. by destruct (cmp x y). Qed.

Lemma same_key_refl x : same_key x x = true.
Proof. apply same_key_spec, cmp_refl. Qed.

Lemma same_key_sym x y : same_key x y = same_key y x.
Proof. unfold same_key. rewrite (cmp_antisym x y). by destruct (cmp x y). Qed.

Lemma same_key_l x y z : cmp x y = Eq → same_key x z = same_key y z.
Proof. intros Hxy. unfold same_key. by rewrite (cmp_eq_l x y z Hxy). Qed.

Lemma same_key_r x y z : cmp y z = Eq → same_key x y = same_key x z.
Proof. intros Hyz. unfold same_key. by rewrite (cmp_eq_r x y z Hyz). Qed.

Lemma lt_not_same x y : cmp x y = Lt → same_key x y = false.
Proof. unfold same_key. by intros ->. Qed.
Lemma gt_not_same x y : cmp x y = Gt → same_key x y = false.
Proof. unfold same_key. by intros ->. Qed.
End order.

(** ** What a list has at a key *)
Section entries.
Context {V W E : Type} `{CmpLaws V, !Entry V W E}.
Implicit Types (l a b : list E) (e x : E) (k : V).

Lemma at_key_cons e l k :
  at_key (e :: l) k = if same_key (key e) k then Some (val e) else at_key l k.
Proof. unfold at_key, seek. simpl. by destruct (same_key (key e) k). Qed.

Lemma at_key_app a b k :
  at_key (a ++ b) k = match at_key a k with Some v => Some v | None => at_key b k end.
Proof.
  induction a as [|e a IH]; [done|]. rewrite <- app_comm_cons, !at_key_cons, IH. by destruct (same_key (key e) k).
Qed.

Lemma at_key_none l k : (∀ e, e ∈ l → same_key (key e) k = false) → at_key l k = None.
Proof.
  induction l as [|e l IH]; intros Hl; [done|]. rewrite at_key_cons, (Hl e) by set_solver.
  apply IH. set_solver.
Qed.

Lemma at_key_some l k v : at_key l k = Some v → ∃ e, e ∈ l ∧ cmp (key e) k = Eq ∧ val e = v.
Proof.
  induction l as [|e l IH]; [done|]. rewrite at_key_cons. destruct (same_key (key e) k) eqn:Hs.
  - intros [= <-]. exists e. split; [set_solver|]. split; [by apply same_key_spec|done].
  - intros (x & Hx & ?)%IH. exists x. set_solver.
Qed.

Lemma at_key_same l k k' : cmp k k' = Eq → at_key l k = at_key l k'.
Proof.
  intros Hk. induction l as [|e l IH]; [done|]. by rewrite !at_key_cons, IH, (same_key_r _ k k').
Qed.

Lemma ordered_app a b :
  ordered (a ++ b) ↔ ordered a ∧ ordered b ∧ ∀ x y, x ∈ a → y ∈ b → cmp (key x) (key y) = Lt.
Proof.
  induction a as [|e a IH]; simpl.
  - split; [|tauto]. intros Hb. split_and!; [constructor|done|set_solver].
  - split.
    + intros [Hs Hall]%StronglySorted_inv. apply IH in Hs as (Ha & Hb & Hab).
      rewrite Forall_forall in Hall. split_and!; [|done|].
      * constructor; [done|]. apply Forall_forall. intros x Hx. apply Hall. set_solver.
      * intros x y [->|Hx]%elem_of_cons Hy; [apply Hall; set_solver|by apply Hab].
    + intros ([Hs Hall]%StronglySorted_inv & Hb & Hab). constructor.
      * apply IH. split_and!; [done..|]. intros x y Hx Hy. apply Hab; set_solver.
      * rewrite Forall_forall in *. intros x [Hx|Hx]%elem_of_app; [by apply Hall|apply Hab; set_solver].
Qed.

Lemma ordered_cons e l : ordered (e :: l) ↔ ordered l ∧ ∀ x, x ∈ l → cmp (key e) (key x) = Lt.
Proof.
  split.
  - intros [Hs Hall]%StronglySorted_inv. by rewrite Forall_forall in Hall.
  - intros [Hs Hall]. constructor; [done|]. by apply Forall_forall.
Qed.

(** An ordered list split where a key is, or would be. *)
Definition below a k : Prop := ∀ x, x ∈ a → cmp (key x) k = Lt.
Definition above b k : Prop := ∀ x, x ∈ b → cmp k (key x) = Lt.

Lemma at_key_below a k k' : below a k → cmp k k' ≠ Gt → at_key a k' = None.
Proof. intros Ha Hk. apply at_key_none. intros e He. apply lt_not_same. by eapply cmp_lt_le_trans, Hk; apply Ha. Qed.

Lemma at_key_above b k k' : above b k → cmp k' k ≠ Gt → at_key b k' = None.
Proof.
  intros Hb Hk. apply at_key_none. intros e He. rewrite same_key_sym. apply lt_not_same.
  eapply cmp_le_lt_trans; [exact Hk|by apply Hb].
Qed.

(** The entry of a key among ordered ones is at most one. *)
Lemma at_key_mid a e b k :
  ordered (a ++ e :: b) →
  at_key (a ++ e :: b) k = if same_key (key e) k then Some (val e) else at_key (a ++ b) k.
Proof.
  intros (Ha & Hb & Hab)%ordered_app. rewrite !at_key_app, at_key_cons.
  destruct (same_key (key e) k) eqn:Hs; [|done]. apply same_key_spec in Hs.
  rewrite (at_key_below a (key e)); [done| |by rewrite Hs]. intros x Hx. apply Hab; set_solver.
Qed.

Lemma ordered_remove a e b : ordered (a ++ e :: b) → ordered (a ++ b) ∧ below a (key e) ∧ above b (key e).
Proof.
  intros (Ha & [Hb Hall]%ordered_cons & Hab)%ordered_app. split_and!.
  - apply ordered_app. split_and!; [done..|]. intros x y Hx Hy. apply Hab; set_solver.
  - intros x Hx. apply Hab; set_solver.
  - done.
Qed.

Lemma ordered_insert a e b :
  ordered (a ++ b) → below a (key e) → above b (key e) → ordered (a ++ e :: b).
Proof.
  intros (Ha & Hb & Hab)%ordered_app Hlo Hhi. apply ordered_app. split_and!; [done|by apply ordered_cons|].
  intros x y Hx [->|Hy]%elem_of_cons; [by apply Hlo|by apply Hab].
Qed.

(** A list that has every key of another is as long. *)
Lemma ordered_length a b :
  ordered a → ordered b → (∀ e, e ∈ a → is_Some (at_key b (key e))) → length a ≤ length b.
Proof.
  revert b. induction a as [|e a IH]; intros b Ha Hb Hsub; simpl; [lia|].
  apply ordered_cons in Ha as [Ha Hall].
  destruct (Hsub e) as [v (x & Hx & Hxe & _)%at_key_some]; [set_solver|].
  apply list_elem_of_split in Hx as (b1 & b2 & ->).
  assert (length a ≤ length b2); [|rewrite length_app; simpl; lia].
  pose proof (ordered_remove _ _ _ Hb) as (_ & Hlo & _). pose proof Hb as (_ & Hb2 & _)%ordered_app.
  apply ordered_cons in Hb2 as [Hb2 _]. apply IH; [done..|]. intros y Hy.
  specialize (Hsub y ltac:(set_solver)). specialize (Hall y Hy). rewrite at_key_app, at_key_cons in Hsub.
  assert (Hxy : cmp (key x) (key y) = Lt) by by rewrite (cmp_eq_l _ _ _ Hxe).
  rewrite (at_key_below b1 (key x)), lt_not_same in Hsub; [done|done|done|by rewrite Hxy].
Qed.
End entries.

(** * Entries side by side

    The search by halving, the changes of a list at the place it finds,
    the stable sort with its duplicates dropped, and the walk of two lists
    side by side. *)

#[local] Open Scope nat_scope.

Section side.
Context {V W E : Type} `{CmpLaws V, !Entry V W E}.
Implicit Types (l a b : list E) (e x y : E) (k : V).

(** ** The search by halving *)

(** Where the search is: what it looks for is not after the part that is
    left, nor before its first entry (unless that is the first of all). *)
Definition halving (base size : nat) l k : Prop :=
  1 ≤ size ∧ base + size ≤ length l ∧
  (base = 0 ∨ ∃ e, l !! base = Some e ∧ cmp (key e) k ≠ Gt) ∧
  ∀ j e, base + size ≤ j → l !! j = Some e → cmp (key e) k = Gt.

Lemma ordered_lookup l i j x y :
  ordered l → i < j → l !! i = Some x → l !! j = Some y → cmp (key x) (key y) = Lt.
Proof.
  intros Hl Hij Hx Hy. rewrite <- (take_drop_middle l i x Hx) in Hl. apply ordered_app in Hl as (_ & Hl & _).
  apply ordered_cons in Hl as [_ Hall]. apply Hall. apply list_elem_of_lookup. exists (j - S i).
  rewrite lookup_drop. by replace (S i + (j - S i)) with j by lia.
Qed.

Lemma gt_after l i j x y k :
  ordered l → i ≤ j → l !! i = Some x → l !! j = Some y → cmp (key x) k = Gt → cmp (key y) k = Gt.
Proof.
  intros Hl Hij Hx Hy Hk. destruct (decide (i = j)) as [->|Hne]; [congruence|].
  assert (Hxy : cmp (key x) (key y) = Lt) by (by eapply (ordered_lookup l i j); [|lia|..]).
  pose proof (cmp_sym _ _ _ Hk) as Hk'. simpl in Hk'.
  by pose proof (cmp_sym _ _ _ (cmp_lt_trans _ _ _ Hk' Hxy)).
Qed.

Lemma halve_spec fuel base size l k :
  ordered l → size ≤ fuel → halving base size l k → halving (halve fuel base size l k) 1 l k.
Proof.
  intros Hl. revert base size. induction fuel as [|fuel IH]; intros base size Hf (Hs & Hlen & Hbase & Hend); [lia|].
  cbn [halve]. case_decide as Hone.
  { replace size with 1 in * by lia. done. }
  assert (Hhalf : 1 ≤ size / 2 ∧ 2 * (size / 2) ≤ size).
  { pose proof (Nat.Div0.mul_div_le size 2). pose proof (Nat.div_str_pos size 2). lia. }
  set (half := size / 2) in *. destruct (lookup_lt_is_Some_2 l (base + half)) as [e He]; [lia|]. rewrite He.
  destruct (cmp (key e) k) eqn:Hc; apply IH; try lia.
  - split_and!; [lia|lia|right; exists e; by rewrite Hc|]. intros j y Hj. apply Hend. lia.
  - split_and!; [lia|lia|right; exists e; by rewrite Hc|]. intros j y Hj. apply Hend. lia.
  - split_and!; [lia|lia|done|]. intros j y Hj Hy. eapply (gt_after l (base + half) j); [done|lia|done..].
Qed.

Lemma find_spec l k :
  ordered l →
  match find l k with
  | inl i => ∃ a e b, l = a ++ e :: b ∧ length a = i ∧ cmp (key e) k = Eq
  | inr i => ∃ a b, l = a ++ b ∧ length a = i ∧ below a k ∧ above b k
  end.
Proof.
  intros Hl. unfold find. destruct l as [|e0 l0] eqn:Hl0.
  { exists [], []. split_and!; try done; intros x Hx; set_solver. }
  rewrite <- Hl0 in *. assert (Hlen : 1 ≤ length l) by (rewrite Hl0; simpl; lia). clear Hl0 e0 l0.
  assert (Hh : halving (halve (length l) 0 (length l) l k) 1 l k).
  { apply halve_spec; [done|done|]. split_and!; [done|lia|by left|].
    intros j e Hj He. apply lookup_lt_Some in He. lia. }
  set (base := halve (length l) 0 (length l) l k) in *. destruct Hh as (_ & Hb & Hbase & Hend).
  destruct (lookup_lt_is_Some_2 l base) as [e He]; [lia|]. rewrite He.
  pose proof (take_drop_middle l base e He) as Hmid.
  assert (Hlt : length (take base l) = base) by (rewrite length_take; lia).
  assert (Habove : above (drop (S base) l) k).
  { intros x (j & Hj)%list_elem_of_lookup. rewrite lookup_drop in Hj.
    specialize (Hend (S base + j) x ltac:(lia) Hj). by pose proof (cmp_sym _ _ _ Hend). }
  assert (Hbelow : cmp (key e) k ≠ Gt → below (take base l) k).
  { intros Hle x (j & Hj)%list_elem_of_lookup. apply lookup_take_Some in Hj as [Hj Hjb].
    eapply cmp_lt_le_trans; [|exact Hle]. by eapply (ordered_lookup l j base). }
  destruct (cmp (key e) k) eqn:Hc.
  - exists (take base l), e, (drop (S base) l). done.
  - exists (take base l ++ [e]), (drop (S base) l). split_and!.
    + by rewrite <- app_assoc.
    + rewrite length_app, Hlt. done.
    + intros x [Hx|Hx%list_elem_of_singleton]%elem_of_app; [by apply Hbelow|by subst].
    + done.
  - destruct Hbase as [Hz|(e' & He' & Hle)]; [|congruence]. rewrite Hz in *.
    exists [], l. split_and!; [done|done|set_solver|]. rewrite <- Hmid. simpl.
    intros x [->|Hx]%elem_of_cons; [by pose proof (cmp_sym _ _ _ Hc)|by apply Habove].
Qed.

(** What the search finds is what the list has. *)
Lemma find_at_key l k :
  ordered l →
  at_key l k = match find l k with inl i => val <$> l !! i | inr _ => None end.
Proof.
  intros Hl. pose proof (find_spec l k Hl) as Hf. destruct (find l k) as [i|i].
  - destruct Hf as (a & e & b & -> & <- & He). rewrite at_key_mid by done.
    rewrite (proj2 (same_key_spec _ _) He). by rewrite list_lookup_middle.
  - destruct Hf as (a & b & -> & _ & Ha & Hb). rewrite at_key_app, (at_key_below a k), (at_key_above b k);
      rewrite ?cmp_refl; done.
Qed.

(** ** Changes *)

Lemma with_at_spec l k i e :
  ordered l → find l k = inr i → cmp (key e) k = Eq →
  ordered (with_at l i e) ∧ length (with_at l i e) = S (length l) ∧
  ∀ k', at_key (with_at l i e) k' = if same_key (key e) k' then Some (val e) else at_key l k'.
Proof.
  intros Hl Hf He. pose proof (find_spec l k Hl) as Hs. rewrite Hf in Hs.
  destruct Hs as (a & b & -> & <- & Ha & Hb). unfold with_at. rewrite take_app_length, drop_app_length.
  assert (Ho : ordered (a ++ [e] ++ b)).
  { apply ordered_insert; [done|..].
    - intros x Hx. rewrite (cmp_eq_r _ _ _ He). by apply Ha.
    - intros x Hx. rewrite (cmp_eq_l _ _ _ He). by apply Hb. }
  split_and!; [done|rewrite !length_app; simpl; lia|]. intros k'. by apply at_key_mid.
Qed.

Lemma without_at_spec l k i :
  ordered l → find l k = inl i →
  ordered (without_at l i) ∧ S (length (without_at l i)) = length l ∧
  ∀ k', at_key (without_at l i) k' = if same_key k k' then None else at_key l k'.
Proof.
  intros Hl Hf. pose proof (find_spec l k Hl) as Hs. rewrite Hf in Hs.
  destruct Hs as (a & e & b & -> & <- & He). unfold without_at.
  rewrite take_app_length, drop_app_add. simpl. rewrite drop_0. destruct (ordered_remove _ _ _ Hl) as (Ho & Ha & Hb).
  split_and!; [done|rewrite !length_app; simpl; lia|]. intros k'.
  rewrite at_key_mid, <- (same_key_l _ _ k' He) by done. destruct (same_key (key e) k') eqn:Hk; [|done].
  apply same_key_spec in Hk. rewrite at_key_app, (at_key_below a (key e)), (at_key_above b (key e)); [done|done| |done|].
  - rewrite (cmp_sym _ _ _ Hk). done.
  - by rewrite Hk.
Qed.
End side.

Lemma set_value_spec {V W} `{CmpLaws V} (l : list (V * W)) k i v :
  ordered l → find l k = inl i →
  ordered (set_value l i v) ∧ length (set_value l i v) = length l ∧
  ∀ k', at_key (set_value l i v) k' = if same_key k k' then Some v else at_key l k'.
Proof.
  intros Hl Hf. pose proof (find_spec l k Hl) as Hs. rewrite Hf in Hs.
  destruct Hs as (a & e & b & -> & <- & He). unfold set_value. rewrite list_lookup_middle by done.
  rewrite insert_app_r_alt, Nat.sub_diag by done. simpl.
  destruct (ordered_remove _ _ _ Hl) as (Ho & Ha & Hb).
  assert (Ho' : ordered (a ++ (e.1, v) :: b)) by (by apply ordered_insert).
  split_and!; [done|rewrite !length_app; done|]. intros k'. rewrite !at_key_mid by done. simpl.
  rewrite <- (same_key_l _ _ k' He). simpl. by destruct (same_key e.1 k').
Qed.

(** ** The stable sort, and duplicates dropped *)
Section sorts.
Context {V W E : Type} `{CmpLaws V, !Entry V W E}.
Implicit Types (l a b : list E) (e x y : E) (k : V).

(** The entries of a key, in their order. *)
Definition of_key k l : list E := filter (λ e, same_key (key e) k = true) l.
Definition weakly l : Prop := StronglySorted (λ x y, cmp (key x) (key y) ≠ Gt) l.

Lemma of_key_cons k e l : of_key k (e :: l) = if same_key (key e) k then e :: of_key k l else of_key k l.
Proof. unfold of_key. rewrite filter_cons. case_decide as Hs; by destruct (same_key (key e) k). Qed.

Lemma of_key_nil k l : (∀ e, e ∈ l → same_key (key e) k = false) → of_key k l = [].
Proof.
  induction l as [|e l IH]; intros Hl; [done|]. rewrite of_key_cons, (Hl e) by set_solver. apply IH. set_solver.
Qed.

Lemma at_key_first l k : at_key l k = val <$> head (of_key k l).
Proof.
  induction l as [|e l IH]; [done|]. rewrite at_key_cons, of_key_cons, IH. by destruct (same_key (key e) k).
Qed.

Lemma at_key_last l k : at_key (rev l) k = val <$> last (of_key k l).
Proof.
  rewrite at_key_first. induction l as [|e l IH] using rev_ind; [done|].
  assert (of_key k (l ++ [e]) = of_key k l ++ of_key k [e]) as -> by apply filter_app.
  rewrite rev_unit, !of_key_cons. destruct (same_key (key e) k).
  - change (of_key k []) with (@nil E). by rewrite last_snoc.
  - change (of_key k []) with (@nil E). by rewrite IH, app_nil_r.
Qed.

Lemma weakly_cons e l : weakly (e :: l) ↔ weakly l ∧ ∀ x, x ∈ l → cmp (key e) (key x) ≠ Gt.
Proof.
  split.
  - intros [Hs Hall]%StronglySorted_inv. by rewrite Forall_forall in Hall.
  - intros [Hs Hall]. constructor; [done|]. by apply Forall_forall.
Qed.

Lemma sort_in_spec e l :
  weakly l → weakly (sort_in e l) ∧ (∀ x, x ∈ sort_in e l ↔ x = e ∨ x ∈ l) ∧
  ∀ k, of_key k (sort_in e l) = of_key k (e :: l).
Proof.
  induction l as [|y l IH]; intros Hl; simpl.
  { split_and!; [repeat constructor|set_solver|done]. }
  apply weakly_cons in Hl as Hl'. destruct Hl' as [Hl' Hy]. destruct (IH Hl') as (Hs & Hin & Hk).
  assert (Hfront : cmp (key e) (key y) ≠ Gt → weakly (e :: y :: l)).
  { intros Hey. apply weakly_cons. split; [done|]. intros x [->|Hx]%elem_of_cons; [done|].
    eapply cmp_trans; [exact Hey|by apply Hy]. }
  destruct (cmp (key e) (key y)) eqn:Hc.
  - split_and!; [by apply Hfront|set_solver|done].
  - split_and!; [by apply Hfront|set_solver|done].
  - split_and!.
    + apply weakly_cons. split; [done|]. intros x [->|Hx]%Hin; [|by apply Hy].
      pose proof (cmp_sym _ _ _ Hc) as Hye. simpl in Hye. by rewrite Hye.
    + set_solver.
    + intros k. rewrite of_key_cons, Hk, !of_key_cons. destruct (same_key (key y) k) eqn:Hyk; [|done].
      assert (same_key (key e) k = false) as ->; [|done]. apply same_key_spec in Hyk.
      rewrite <- (same_key_r (key e) _ _ Hyk). by apply gt_not_same.
Qed.

Lemma sort_by_spec l :
  weakly (sort_by l) ∧ (∀ x, x ∈ sort_by l ↔ x ∈ l) ∧ ∀ k, of_key k (sort_by l) = of_key k l.
Proof.
  unfold sort_by. induction l as [|e l (Hs & Hin & Hk)]; simpl; [split_and!; [constructor|done|done]|].
  destruct (sort_in_spec e _ Hs) as (Hs' & Hin' & Hk'). split_and!; [done| |].
  - intros x. rewrite Hin', Hin. set_solver.
  - intros k. by rewrite Hk', !of_key_cons, Hk.
Qed.

Lemma dedup_last_spec cur l :
  weakly (cur :: l) →
  ordered (dedup_last_from cur l) ∧ (∀ x, x ∈ dedup_last_from cur l → x ∈ cur :: l) ∧
  ∀ k, at_key (dedup_last_from cur l) k = val <$> last (of_key k (cur :: l)).
Proof.
  revert cur. induction l as [|e l IH]; intros cur Hl.
  { simpl. split_and!; [by repeat constructor|done|]. intros k. rewrite at_key_cons, of_key_cons.
    by destruct (same_key (key cur) k). }
  apply weakly_cons in Hl as [Hl Hcur]. destruct (IH e Hl) as (Ho & Hin & Hk). simpl.
  destruct (same_key (key e) (key cur)) eqn:Hs.
  - split_and!; [done|set_solver|]. intros k. rewrite Hk, !(of_key_cons k).
    apply same_key_spec in Hs. rewrite (same_key_l _ _ k Hs).
    by destruct (same_key (key cur) k).
  - assert (Hlt : ∀ x, x ∈ e :: l → cmp (key cur) (key x) = Lt).
    { assert (Hce : cmp (key cur) (key e) = Lt).
      { specialize (Hcur e ltac:(set_solver)). rewrite same_key_sym in Hs. unfold same_key in Hs.
        by destruct (cmp (key cur) (key e)). }
      intros x [->|Hx]%elem_of_cons; [done|]. eapply cmp_lt_le_trans; [exact Hce|].
      apply weakly_cons in Hl as [_ He]. by apply He. }
    split_and!; [|set_solver|].
    + apply ordered_cons. split; [done|]. intros x Hx. apply Hlt, Hin, Hx.
    + intros k. rewrite at_key_cons, (of_key_cons k cur), Hk. destruct (same_key (key cur) k) eqn:Hck; [|done].
      rewrite (of_key_nil k (e :: l)); [done|]. intros x Hx. apply same_key_spec in Hck.
      rewrite <- (same_key_r _ _ _ Hck). apply gt_not_same. apply (cmp_sym _ _ Lt). by apply Hlt.
Qed.

Lemma dedup_first_spec cur l :
  weakly (cur :: l) →
  ordered (dedup_first_from cur l) ∧ (∀ x, x ∈ dedup_first_from cur l → x ∈ cur :: l) ∧
  ∀ k, at_key (dedup_first_from cur l) k = at_key (cur :: l) k.
Proof.
  revert cur. induction l as [|e l IH]; intros cur Hl.
  { simpl. split_and!; [by repeat constructor|done|done]. }
  apply weakly_cons in Hl as Hl'. destruct Hl' as [Hel Hcur]. simpl.
  destruct (same_key (key e) (key cur)) eqn:Hs.
  - destruct (IH cur) as (Ho & Hin & Hk).
    { apply weakly_cons. apply weakly_cons in Hel as [Hel _]. split; [done|]. intros x Hx. apply Hcur. set_solver. }
    split_and!; [done|set_solver|]. intros k. rewrite Hk, !at_key_cons. apply same_key_spec in Hs.
    rewrite (same_key_l _ _ k Hs). by destruct (same_key (key cur) k).
  - destruct (IH e Hel) as (Ho & Hin & Hk). split_and!; [|set_solver|].
    + apply ordered_cons. split; [done|]. intros x Hx%Hin.
      assert (Hce : cmp (key cur) (key e) = Lt).
      { specialize (Hcur e ltac:(set_solver)). rewrite same_key_sym in Hs. unfold same_key in Hs.
        by destruct (cmp (key cur) (key e)). }
      apply elem_of_cons in Hx as [->|Hx]; [done|]. eapply cmp_lt_le_trans; [exact Hce|].
      apply weakly_cons in Hel as [_ He]. by apply He.
    + intros k. by rewrite at_key_cons, Hk, (at_key_cons cur).
Qed.

(** Of the entries of a key, the last one given; the first one given. *)
Lemma sorted_last l :
  ordered (dedup_last (sort_by l)) ∧ ∀ k, at_key (dedup_last (sort_by l)) k = at_key (rev l) k.
Proof.
  destruct (sort_by_spec l) as (Hs & _ & Hk). setoid_rewrite at_key_last. setoid_rewrite <- Hk.
  destruct (sort_by l) as [|e s]; [split; [constructor|done]|]. by destruct (dedup_last_spec e s Hs) as (? & _ & ?).
Qed.

Lemma sorted_first l :
  ordered (dedup_first (sort_by l)) ∧ ∀ k, at_key (dedup_first (sort_by l)) k = at_key l k.
Proof.
  destruct (sort_by_spec l) as (Hs & _ & Hk). setoid_rewrite (at_key_first l). setoid_rewrite <- Hk.
  setoid_rewrite <- at_key_first. destruct (sort_by l) as [|e s]; [split; [constructor|done]|].
  by destruct (dedup_first_spec e s Hs) as (? & _ & ?).
Qed.
End sorts.

(** ** Two lists side by side *)
Section walk.
Context {V W E : Type} `{CmpLaws V, !Entry V W E}.
Implicit Types (l a b : list E) (e x y : E) (k : V).

(** What is made of the entries of a key: nothing of none, and an entry
    of that key. *)
Context (f : option E * option E → option E) (Hnone : f (None, None) = None).
Context (Hfirst : ∀ x o e, f (Some x, o) = Some e → cmp (key e) (key x) = Eq).
Context (Hsecond : ∀ y e, f (None, Some y) = Some e → cmp (key e) (key y) = Eq).

Lemma side_by_side_nil_l b : side_by_side [] b = (λ y, (None, Some y)) <$> b.
Proof. induction b as [|y b IH]; [done|]. simpl in *. by rewrite IH. Qed.
Lemma side_by_side_nil_r a : side_by_side a [] = (λ x, (Some x, None)) <$> a.
Proof. induction a as [|x a IH]; [done|]. simpl in *. by rewrite IH. Qed.
Lemma side_by_side_cons x a y b :
  side_by_side (x :: a) (y :: b) =
  match cmp (key x) (key y) with
  | Lt => (Some x, None) :: side_by_side a (y :: b)
  | Gt => (None, Some y) :: side_by_side (x :: a) b
  | Eq => (Some x, Some y) :: side_by_side a b
  end.
Proof. done. Qed.

Definition walked a b : list E := omap f (side_by_side a b).

Lemma seek_cons e l k : seek (e :: l) k = if same_key (key e) k then Some e else seek l k.
Proof. done. Qed.

Lemma seek_above l k k' : above l k → cmp k' k ≠ Gt → seek l k' = None.
Proof.
  intros Hl Hk. pose proof (at_key_above l k k' Hl Hk) as Ha. unfold at_key in Ha. by destruct (seek l k').
Qed.

Definition walks_right a b : Prop :=
  ordered (walked a b) ∧ (∀ k, above a k → above b k → above (walked a b) k) ∧
  ∀ k, at_key (walked a b) k = val <$> f (seek a k, seek b k).

(** The next entry made, of the key [k0], and the others, of keys after
    it. *)
Lemma walk_step (p : option E * option E) (k0 : V) a b :
  (∀ e, f p = Some e → cmp (key e) k0 = Eq) → above a k0 → above b k0 → walks_right a b →
  let l := omap f (p :: side_by_side a b) in
  ordered l ∧ (∀ k, cmp k k0 = Lt → above a k → above b k → above l k) ∧
  ∀ k, at_key l k = if same_key k0 k then val <$> f p else val <$> f (seek a k, seek b k).
Proof.
  intros Hp Ha Hb (Ho & Habove & Hat). simpl. change (omap f (side_by_side a b)) with (walked a b).
  assert (Hnew : ∀ k, same_key k0 k = true → at_key (walked a b) k = None).
  { intros k Hk%same_key_spec. rewrite Hat, (seek_above a k0), (seek_above b k0), Hnone; try done;
      rewrite (cmp_sym _ _ _ Hk); done. }
  destruct (f p) as [e|] eqn:He.
  - specialize (Hp e eq_refl). split_and!.
    + apply ordered_cons. split; [done|]. intros x Hx. rewrite (cmp_eq_l _ _ _ Hp). by apply Habove.
    + intros k Hk Hka Hkb x [->|Hx]%elem_of_cons; [by rewrite (cmp_eq_r _ _ _ Hp)|by apply Habove].
    + intros k. by rewrite at_key_cons, (same_key_l _ _ k Hp), Hat.
  - split_and!; [done|by intros; apply Habove|]. intros k. rewrite Hat. destruct (same_key k0 k) eqn:Hk; [|done].
    by rewrite <- Hat, Hnew.
Qed.

Lemma above_cons x l k : ordered (x :: l) → cmp k (key x) = Lt → above (x :: l) k.
Proof.
  intros [_ Hl]%ordered_cons Hk z [->|Hz]%elem_of_cons; [done|]. eapply cmp_lt_trans; [exact Hk|by apply Hl].
Qed.

Lemma ordered_above x l : ordered (x :: l) → ordered l ∧ above l (key x).
Proof. by intros [Hs Hl]%ordered_cons. Qed.

Lemma walked_spec a b : ordered a → ordered b → walks_right a b.
Proof.
  remember (length a + length b) as n eqn:Hn. revert a b Hn.
  induction n as [n IH] using lt_wf_ind. intros a b -> Ha Hb.
  assert (Hnil : ∀ k, above ([] : list E) k) by (intros k x Hx; set_solver).
  destruct a as [|x a], b as [|y b].
  - split_and!; [constructor|set_solver|]. intros k. unfold walked. simpl. by rewrite Hnone.
  - destruct (ordered_above _ _ Hb) as [Hb' Hy].
    assert (HIH : walks_right [] b) by (eapply IH; [|done..]; simpl; lia).
    destruct (walk_step (None, Some y) (key y) [] b) as (Ho & Hab & Hat); [by apply Hsecond|done..|].
    unfold walks_right, walked. change (side_by_side [] (y :: b)) with ((None, Some y) :: side_by_side [] b).
    split_and!; [done| |].
    + intros k _ Hk. apply Hab; [apply Hk; set_solver|done|]. intros z Hz. apply Hk. set_solver.
    + intros k. rewrite (Hat k), seek_cons. by destruct (same_key (key y) k).
  - destruct (ordered_above _ _ Ha) as [Ha' Hx].
    assert (HIH : walks_right a []) by (eapply IH; [|done..]; simpl; lia).
    destruct (walk_step (Some x, None) (key x) a []) as (Ho & Hab & Hat); [by apply Hfirst|done..|].
    unfold walks_right, walked. change (side_by_side (x :: a) []) with ((Some x, None) :: side_by_side a []).
    split_and!; [done| |].
    + intros k Hk _. apply Hab; [apply Hk; set_solver| |done]. intros z Hz. apply Hk. set_solver.
    + intros k. rewrite (Hat k), seek_cons. by destruct (same_key (key x) k).
  - destruct (ordered_above _ _ Ha) as [Ha' Hx], (ordered_above _ _ Hb) as [Hb' Hy].
    unfold walks_right, walked. rewrite side_by_side_cons. destruct (cmp (key x) (key y)) eqn:Hc.
    + assert (Hyx : above b (key x)) by (intros z Hz; rewrite (cmp_eq_l _ _ _ Hc); by apply Hy).
      assert (HIH : walks_right a b) by (eapply IH; [|done..]; simpl; lia).
      destruct (walk_step (Some x, Some y) (key x) a b) as (Ho & Hab & Hat); [by apply Hfirst|done..|].
      split_and!; [done| |].
      * intros k Hka Hkb. apply Hab; [apply Hka; set_solver|..]; intros z Hz; [apply Hka|apply Hkb]; set_solver.
      * intros k. rewrite (Hat k), !seek_cons, (same_key_l _ _ k Hc). by destruct (same_key (key y) k).
    + assert (HIH : walks_right a (y :: b)) by (eapply IH; [|done..]; simpl; lia).
      destruct (walk_step (Some x, None) (key x) a (y :: b)) as (Ho & Hab & Hat);
        [by apply Hfirst|done|by apply above_cons|done|].
      split_and!; [done| |].
      * intros k Hka Hkb. apply Hab; [apply Hka; set_solver| |done]. intros z Hz. apply Hka. set_solver.
      * intros k. rewrite (Hat k), (seek_cons x). destruct (same_key (key x) k) eqn:Hk; [|done].
        rewrite (seek_above (y :: b) (key x)); [done|by apply above_cons|].
        apply same_key_spec in Hk. by rewrite (cmp_sym _ _ _ Hk).
    + pose proof (cmp_sym _ _ _ Hc) as Hc'. simpl in Hc'.
      assert (HIH : walks_right (x :: a) b) by (eapply IH; [|done..]; simpl; lia).
      destruct (walk_step (None, Some y) (key y) (x :: a) b) as (Ho & Hab & Hat);
        [by apply Hsecond|by apply above_cons|done|done|].
      split_and!; [done| |].
      * intros k Hka Hkb. apply Hab; [apply Hkb; set_solver|done|]. intros z Hz. apply Hkb. set_solver.
      * intros k. rewrite (Hat k), (seek_cons y). destruct (same_key (key y) k) eqn:Hk; [|done].
        rewrite (seek_above (x :: a) (key y)); [done|by apply above_cons|].
        apply same_key_spec in Hk. by rewrite (cmp_sym _ _ _ Hk).
Qed.
End walk.

(** * Maps and sets however they are kept

    What the three ways of keeping entries have in common: the entries in
    order, and what is at a key. *)

#[local] Open Scope nat_scope.

(** Arithmetic with the numbers of entries kept side by side. *)
Ltac flat_lia := unfold FLAT_MOST, iter in *; simpl in *; lia.

Section kept.
Context {V W E T : Type} `{CmpLaws V, !Entry V W E, !OrdTree V E T, !OrdTreeLaws V W E T}.
Implicit Types (m : Kept E T) (l : list E) (k : V).

(** How entries may be kept. *)
Definition kept_ok m : Prop :=
  match m with
  | Flat l => ordered l ∧ length l ≤ FLAT_MOST
  | Side l made => ordered l ∧ FLAT_MOST < length l ∧ ∀ t, made = Some t → t = tree_from l
  | Tree t => FLAT_MOST / 2 < tree_len t
  end.

(** What is at a key. *)
Definition look m k : option W := at_key (iter m) k.

Lemma iter_ordered m : kept_ok m → ordered (iter m).
Proof. destruct m as [l|l made|t]; simpl; [by intros []|by intros (? & _)|intros _; apply law_items]. Qed.

Lemma len_iter m : len m = length (iter m).
Proof. destruct m; simpl; [done|done|apply law_len]. Qed.

Lemma is_empty_iter m : is_empty m = bool_decide (iter m = []).
Proof. unfold is_empty. rewrite len_iter. apply bool_decide_ext. destruct (iter m); [done|]. split; done. Qed.

Lemma kept_default_ok : kept_ok kept_default ∧ iter kept_default = [].
Proof. split; [|done]. split; [constructor|simpl; unfold FLAT_MOST; lia]. Qed.

Lemma of_sorted_ok l : ordered l → kept_ok (of_sorted l) ∧ iter (of_sorted l) = l.
Proof.
  intros Hl. unfold of_sorted. case_decide; [done|]. split; [|done]. split_and!; [done|lia|done].
Qed.

Lemma of_tree_ok (t : T) : kept_ok (of_tree t) ∧ iter (of_tree t) = tree_items t.
Proof.
  unfold of_tree. case_decide as Hlen; [done|]. split; [|done]. split; [apply law_items|].
  rewrite law_len in Hlen. flat_lia.
Qed.

(** The tree of a map that is not small has its entries. *)
Lemma tree_entries m t : kept_ok m → tree m = Some t → tree_items t = iter m ∧ FLAT_MOST / 2 < length (iter m).
Proof.
  destruct m as [l|l made|t']; simpl; [done| |].
  - intros (Hl & Hlen & Hmade) [= <-]. assert (default (tree_from l) made = tree_from l) as ->.
    { destruct made as [t|]; [by apply Hmade|done]. }
    rewrite law_from by done. split; [done|]. flat_lia.
  - intros Hlen [= ->]. unfold iter. simpl. by rewrite <- law_len.
Qed.

(** Making the tree changes nothing that can be seen. *)
Lemma tree_made_same m :
  kept_ok m → kept_ok (tree_made m) ∧ iter (tree_made m) = iter m ∧ tree (tree_made m) = tree m.
Proof.
  destruct m as [l|l made|t]; simpl; [done| |done]. intros (Hl & Hlen & Hmade). split_and!; [done..| |done|done].
  intros t [= <-]. destruct made as [t|]; [by apply Hmade|done].
Qed.

(** A tree that has every key of entries that are not few is not small. *)
Lemma tree_grown_ok l (t : T) :
  ordered l → FLAT_MOST / 2 < length l → (∀ k, is_Some (at_key l k) → is_Some (at_key (tree_items t) k)) →
  kept_ok (Tree t).
Proof.
  intros Hl Hlen Hsub. simpl. rewrite law_len. eapply Nat.lt_le_trans; [exact Hlen|].
  apply ordered_length; [done|apply law_items|]. intros e He. apply Hsub.
  apply list_elem_of_split in He as (a & b & ->). rewrite at_key_mid by done. by rewrite same_key_refl.
Qed.

(** [into_iter] gives the entries in order, and knows how many are left. *)
Fixpoint into_all (fuel : nat) (it : IntoIter (E := E) (T := T)) : list E :=
  match fuel with
  | 0 => []
  | S fuel => match into_next it with Some (e, it) => e :: into_all fuel it | None => [] end
  end.

Lemma into_flat_all m l n :
  side m = Some l → n ≤ length l → into_all (S (length l - n)) (IntoFlat m n) = drop n l.
Proof.
  intros Hl. remember (length l - n) as left eqn:Hleft. revert n Hleft.
  induction left as [|left IH]; intros n Hleft Hn.
  - simpl. rewrite Hl. simpl. rewrite lookup_ge_None_2 by lia. by rewrite drop_ge by lia.
  - destruct (lookup_lt_is_Some_2 l n) as [e He]; [lia|]. rewrite (drop_S l e n He), <- (IH (S n)) by lia.
    assert (Hnext : into_next (IntoFlat m n) = Some (e, IntoFlat m (S n))).
    { simpl. rewrite Hl. simpl. by rewrite He. }
    change (into_all (S (S left)) (IntoFlat m n)) with
      (match into_next (IntoFlat m n) with Some (e, it) => e :: into_all (S left) it | None => [] end).
    by rewrite Hnext.
Qed.

Lemma into_tree_all l : into_all (S (length l)) (IntoTree l) = l.
Proof. induction l as [|e l IH]; [done|]. cbn [into_all into_next length]. f_equal. exact IH. Qed.

Lemma into_iter_all m :
  into_hint (into_iter m) = length (iter m) ∧ into_all (S (length (iter m))) (into_iter m) = iter m.
Proof.
  assert (Hflat : ∀ m l, side m = Some l → len m = length l →
    into_hint (IntoFlat m 0) = length l ∧ into_all (S (length l)) (IntoFlat m 0) = l).
  { intros m' l Hs Hl. split; [simpl; lia|]. rewrite <- (Nat.sub_0_r (length l)).
    by rewrite (into_flat_all m' l 0 Hs) by lia. }
  destruct m as [l|l made|t]; [by apply Hflat..|]. split; [done|]. apply into_tree_all.
Qed.
End kept.

(** ** Maps *)
Section map.
Context {V W T : Type} `{CmpLaws V, !OrdTree V (V * W) T, !OrdTreeLaws V W (V * W) T}.
Implicit Types m : Kept (V * W) T.

Lemma map_get_look m k : kept_ok m → map_get m k = look m k.
Proof.
  intros Hm. destruct m as [l|l made|t]; unfold map_get, look; simpl.
  - change (iter (Flat l)) with l. rewrite find_at_key by by destruct Hm. by destruct (find l k).
  - change (iter (Side l made)) with l. rewrite find_at_key by by destruct Hm. by destruct (find l k).
  - exact (law_get t k).
Qed.

Lemma contains_key_look m k : kept_ok m → contains_key m k = bool_decide (is_Some (look m k)).
Proof.
  intros Hm. unfold contains_key. rewrite map_get_look by done. by destruct (look m k).
Qed.

(** A tree one entry is put into. *)
Lemma tree_insert_ok l (t : T) k v :
  ordered l → FLAT_MOST / 2 < length l → tree_items t = l →
  kept_ok (Tree (tree_insert (k, v) t)) ∧
  ∀ k', look (Tree (tree_insert (k, v) t)) k' = if same_key k k' then Some v else at_key l k'.
Proof.
  intros Hl Hlen <-. assert (Hlook : ∀ k', look (Tree (tree_insert (k, v) t)) k' =
    if same_key k k' then Some v else at_key (tree_items t) k') by (intros k'; exact (law_insert (k, v) t k')).
  split; [|done]. apply (tree_grown_ok (tree_items t)); [done..|]. intros k' Hk'.
  unfold look in Hlook. simpl in Hlook. rewrite Hlook. by destruct (same_key k k').
Qed.

Lemma map_insert_ok m k v :
  kept_ok m →
  kept_ok (map_insert m k v) ∧ ∀ k', look (map_insert m k v) k' = if same_key k k' then Some v else look m k'.
Proof.
  intros Hm. pose proof (iter_ordered m Hm) as Ho.
  assert (Hbig : ∀ t, tree m = Some t → kept_ok (Tree (tree_insert (k, v) t)) ∧
    ∀ k', look (Tree (tree_insert (k, v) t)) k' = if same_key k k' then Some v else look m k').
  { intros t Ht. destruct (tree_entries m t Hm Ht) as [Hi Hlen]. by apply tree_insert_ok. }
  destruct m as [l|l made|t]; simpl; [|by apply Hbig..]. destruct Hm as [Hl Hlen].
  destruct (find l k) as [i|i] eqn:Hf.
  - destruct (set_value_spec l k i v Hl Hf) as (Ho' & Hlen' & Hat). split; [|done]. split; [done|lia].
  - case_decide as Hsmall.
    + destruct (with_at_spec l k i (k, v) Hl Hf) as (Ho' & Hlen' & Hat); [apply cmp_refl|].
      split; [|done]. split; [done|lia].
    + apply tree_insert_ok; [done|flat_lia|by apply law_from].
Qed.

Lemma map_remove_ok m k :
  kept_ok m →
  kept_ok (map_remove m k) ∧ ∀ k', look (map_remove m k) k' = if same_key k k' then None else look m k'.
Proof.
  intros Hm. assert (Habsent : look m k = None → ∀ k', look m k' = if same_key k k' then None else look m k').
  { intros Hn k'. destruct (same_key k k') eqn:Hk; [|done]. apply same_key_spec in Hk.
    unfold look in *. by rewrite <- (at_key_same _ _ _ Hk). }
  assert (Hbig : ∀ t, tree m = Some t →
    let m' := if contains_key m k then of_tree (tree_remove k t) else m in
    kept_ok m' ∧ ∀ k', look m' k' = if same_key k k' then None else look m k').
  { intros t Ht. destruct (tree_entries m t Hm Ht) as [Hi _]. cbv zeta.
    rewrite contains_key_look by done. case_bool_decide as Hk.
    - destruct (of_tree_ok (tree_remove k t)) as [Hok Hiter]. split; [done|]. intros k'.
      unfold look. rewrite Hiter, law_remove. by rewrite Hi.
    - split; [done|]. apply Habsent. by apply eq_None_not_Some. }
  destruct m as [l|l made|t]; simpl; [|by apply Hbig..]. destruct Hm as [Hl Hlen].
  destruct (find l k) as [i|i] eqn:Hf.
  - destruct (without_at_spec l k i Hl Hf) as (Ho' & Hlen' & Hat). split; [|done]. split; [done|lia].
  - split; [done|]. apply Habsent. unfold look. change (iter (Flat l)) with l. by rewrite find_at_key, Hf.
Qed.
End map.
