(* ===== verification/SetFacts.v ===== *)
(** * Sets however they are kept

    The members of what each operation makes, by the lookups of the
    entries. *)

From S2P Require Import Prelude MapValue MapFacts.

#[local] Open Scope nat_scope.

Section set.
Context {V T : Type} `{CmpLaws V, !OrdTree V V T, !OrdTreeLaws V () V T}.
Implicit Types (s other : MSet (V := V) (T := T)) (l : list V) (t : T) (v k : V).

(** Whether a list has a value, up to the order's equality. *)
Definition has l k : bool := match at_key l k with Some _ => true | None => false end.
Definition set_ok s : Prop := kept_ok (members s).
Definition mem s k : bool := has (set_iter s) k.

Lemma has_cons v l k : has (v :: l) k = same_key v k || has l k.
Proof. unfold has. rewrite at_key_cons. by destruct (same_key (key v) k) eqn:Hs; simpl in Hs; rewrite Hs. Qed.

Lemma has_same l k k' : cmp k k' = Eq → has l k = has l k'.
Proof. intros Hk. unfold has. by rewrite (at_key_same _ _ _ Hk). Qed.

Lemma has_at_key l k : has l k = true ↔ at_key l k = Some ().
Proof. unfold has. destruct (at_key l k) as [[]|]; done. Qed.

Lemma has_elem l k : has l k = true ↔ ∃ v, v ∈ l ∧ cmp v k = Eq.
Proof.
  induction l as [|v l IH]; [split; [done|set_solver]|]. rewrite has_cons, orb_true_iff, IH, same_key_spec.
  set_solver.
Qed.

Lemma tree_has_spec t k : tree_has t k = has (tree_items t) k.
Proof.
  unfold tree_has, has. rewrite <- law_get. by destruct (tree_get t k).
Qed.

Lemma has_insert v t k : has (tree_items (tree_insert v t)) k = same_key v k || has (tree_items t) k.
Proof. unfold has. rewrite law_insert. simpl. by destruct (same_key v k). Qed.

Lemma has_remove v t k : has (tree_items (tree_remove v t)) k = negb (same_key v k) && has (tree_items t) k.
Proof. unfold has. rewrite law_remove. by destruct (same_key v k). Qed.

Lemma set_contains_mem s k : set_ok s → set_contains s k = mem s k.
Proof.
  unfold set_ok, set_contains, mem, set_iter, has. intros Hs.
  destruct (members s) as [l|l made|t]; simpl.
  - change (iter (Flat l)) with l. rewrite find_at_key by by destruct Hs.
    pose proof (find_spec l k (proj1 Hs)) as Hf. destruct (find l k) as [i|i]; [|done].
    destruct Hf as (a & e & b & -> & <- & _). by rewrite list_lookup_middle.
  - change (iter (Side l made)) with l. rewrite find_at_key by by destruct Hs.
    pose proof (find_spec l k (proj1 Hs)) as Hf. destruct (find l k) as [i|i]; [|done].
    destruct Hf as (a & e & b & -> & <- & _). by rewrite list_lookup_middle.
  - change (iter (Tree t)) with (tree_items t). rewrite <- law_get. by destruct (tree_get t k).
Qed.

Lemma mem_same s k k' : cmp k k' = Eq → mem s k = mem s k'.
Proof. apply has_same. Qed.

Lemma mem_empty s k : set_len s = 0 → mem s k = false.
Proof.
  unfold set_len, mem, set_iter. rewrite len_iter. by intros ->%nil_length_inv.
Qed.

Lemma knowing_members s f : members (knowing s f) = members s.
Proof. by destruct f. Qed.

(** A set made of members in order, of a tree, of a tree that has grown. *)
Lemma of_sorted_set l :
  ordered l → set_ok (set_of (of_sorted l)) ∧ ∀ k, mem (set_of (of_sorted l)) k = has l k.
Proof.
  intros Hl. destruct (of_sorted_ok (T := T) l Hl) as [Hok Hit]. split; [done|]. intros k.
  unfold mem, set_iter. simpl. by rewrite Hit.
Qed.

Lemma of_tree_set t : set_ok (set_of (of_tree t)) ∧ ∀ k, mem (set_of (of_tree t)) k = has (tree_items t) k.
Proof.
  destruct (of_tree_ok t) as [Hok Hit]. split; [done|]. intros k. unfold mem, set_iter. simpl. by rewrite Hit.
Qed.

Lemma grown_set l t :
  ordered l → FLAT_MOST / 2 < length l → (∀ k, has l k = true → has (tree_items t) k = true) →
  set_ok (set_of (Tree t)) ∧ ∀ k, mem (set_of (Tree t)) k = has (tree_items t) k.
Proof.
  intros Hl Hlen Hsub. split; [|done]. apply (tree_grown_ok l); [done..|]. intros k [[] Hk].
  rewrite (proj1 (has_at_key (tree_items t) k)); [done|]. by apply Hsub, has_at_key.
Qed.

(** The members of a set that is not small, in its tree. *)
Lemma set_tree s t :
  set_ok s → tree (members s) = Some t →
  tree_items t = set_iter s ∧ FLAT_MOST / 2 < length (set_iter s) ∧ ∀ k, has (tree_items t) k = mem s k.
Proof.
  intros Hs Ht. destruct (tree_entries (members s) t Hs Ht) as [Hi Hlen]. split_and!; [done|done|].
  intros k. by rewrite Hi.
Qed.

Lemma set_iter_ordered s : set_ok s → ordered (set_iter s).
Proof. apply iter_ordered. Qed.

(** ** One member more, one less *)

Lemma inserted_spec s v :
  set_ok s → set_ok (inserted s v) ∧ ∀ k, mem (inserted s v) k = same_key v k || mem s k.
Proof.
  intros Hs. assert (Hin : mem s v = true → ∀ k, mem s k = same_key v k || mem s k).
  { intros Hv k. destruct (same_key v k) eqn:Hk; [|done]. apply same_key_spec in Hk.
    by rewrite <- (mem_same _ _ _ Hk). }
  assert (Hgrow : ∀ t, tree_items t = set_iter s → FLAT_MOST / 2 < length (set_iter s) →
    set_ok (set_of (Tree (tree_insert v t))) ∧
    ∀ k, mem (set_of (Tree (tree_insert v t))) k = same_key v k || mem s k).
  { intros t Ht Hlen. destruct (grown_set (set_iter s) (tree_insert v t)) as [Hok Hm];
      [by apply set_iter_ordered|done| |].
    - intros k Hk. rewrite has_insert, Ht, Hk. by destruct (same_key v k).
    - split; [done|]. intros k. by rewrite Hm, has_insert, Ht. }
  unfold inserted. pose proof (set_contains_mem s v Hs) as Hc. unfold set_contains in Hc.
  assert (Hbig : ∀ t, tree (members s) = Some t →
    let s' := if set_contains s v then s else set_of (Tree (tree_insert v (default tree_empty (tree (members s))))) in
    set_ok s' ∧ ∀ k, mem s' k = same_key v k || mem s k).
  { intros t Ht. cbv zeta. rewrite set_contains_mem by done. destruct (mem s v) eqn:Hv; [by auto|].
    rewrite Ht. simpl. destruct (set_tree s t Hs Ht) as (Hi & Hlen & _). by apply Hgrow. }
  pose proof Hs as Hs'. unfold set_ok in Hs'. destruct (members s) as [l|l made|t] eqn:Hmem; [|by eapply Hbig..].
  simpl in Hc. destruct (find l v) as [i|i] eqn:Hf; [by auto|]. destruct Hs' as [Hl Hlen].
  assert (Hit : set_iter s = l) by (unfold set_iter; by rewrite Hmem).
  case_decide as Hsmall.
  - destruct (with_at_spec l v i v Hl Hf) as (Ho & Hlen' & Hat); [apply cmp_refl|]. split; [split; [done|lia]|].
    intros k. unfold mem, has, set_iter at 1. simpl. change (iter (Flat (with_at l i v))) with (with_at l i v).
    rewrite Hat, Hit. simpl. by destruct (same_key v k).
  - apply Hgrow; rewrite Hit; [by apply law_from|flat_lia].
Qed.

Lemma removed_spec s v :
  set_ok s → set_ok (removed s v) ∧ ∀ k, mem (removed s v) k = negb (same_key v k) && mem s k.
Proof.
  intros Hs. assert (Hout : mem s v = false → ∀ k, mem s k = negb (same_key v k) && mem s k).
  { intros Hv k. destruct (same_key v k) eqn:Hk; [|done]. apply same_key_spec in Hk.
    by rewrite <- (mem_same _ _ _ Hk). }
  unfold removed. pose proof (set_contains_mem s v Hs) as Hc. unfold set_contains in Hc.
  assert (Hbig : ∀ t, tree (members s) = Some t →
    let s' := if set_contains s v then set_of (of_tree (tree_remove v (default tree_empty (tree (members s))))) else s in
    set_ok s' ∧ ∀ k, mem s' k = negb (same_key v k) && mem s k).
  { intros t Ht. cbv zeta. rewrite set_contains_mem by done. destruct (mem s v) eqn:Hv; [|by auto].
    rewrite Ht. simpl. destruct (set_tree s t Hs Ht) as (_ & _ & Hi).
    destruct (of_tree_set (tree_remove v t)) as [Hok Hm]. split; [done|]. intros k. by rewrite Hm, has_remove, Hi. }
  pose proof Hs as Hs'. unfold set_ok in Hs'. destruct (members s) as [l|l made|t] eqn:Hmem; [|by eapply Hbig..].
  simpl in Hc. destruct (find l v) as [i|i] eqn:Hf; [|by auto]. destruct Hs' as [Hl Hlen].
  destruct (without_at_spec l v i Hl Hf) as (Ho & Hlen' & Hat). split; [split; [done|lia]|].
  intros k. unfold mem, has, set_iter. rewrite Hmem. simpl.
  change (iter (Flat (without_at l i))) with (without_at l i). change (iter (Flat l)) with l.
  rewrite Hat. by destruct (same_key v k).
Qed.

(** ** Two sets *)

(** Walked side by side. *)
Lemma walked_set (f : option V * option V → option V) (g : bool → bool → bool) s other :
  set_ok s → set_ok other →
  f (None, None) = None → g false false = false →
  (∀ x o e, f (Some x, o) = Some e → cmp e x = Eq) →
  (∀ y e, f (None, Some y) = Some e → cmp e y = Eq) →
  (∀ a b, match f (a, b) with Some _ => true | None => false end =
     g (match a with Some _ => true | None => false end) (match b with Some _ => true | None => false end)) →
  let made := set_of (of_sorted (omap f (side_by_side (set_iter s) (set_iter other)))) in
  set_ok made ∧ ∀ k, mem made k = g (mem s k) (mem other k).
Proof.
  intros Hs Ho Hn Hg H1 H2 Hfg. cbv zeta.
  destruct (walked_spec (W := ()) (E := V) f Hn H1 H2 (set_iter s) (set_iter other)) as (Hord & _ & Hat);
    [by apply set_iter_ordered..|]. unfold walked in *.
  destruct (of_sorted_set _ Hord) as [Hok Hm]. split; [done|]. intros k. rewrite Hm. unfold mem, has. rewrite Hat.
  unfold at_key. specialize (Hfg (seek (set_iter s) k) (seek (set_iter other) k)). revert Hfg.
  destruct (seek (set_iter s) k), (seek (set_iter other) k); match goal with |- context [f ?p] => destruct (f p) end; simpl; auto.
Qed.

(** The part of a set that a test keeps, which does not tell equal values
    apart. *)
Lemma filter_ordered (P : V → Prop) `{!∀ v, Decision (P v)} l : ordered l → ordered (filter P l).
Proof.
  induction l as [|v l IH]; [done|]. intros [Hl Hv]%ordered_cons. rewrite filter_cons.
  case_decide; [|by apply IH]. apply ordered_cons. split; [by apply IH|].
  intros x [_ Hx]%list_elem_of_filter. by apply Hv.
Qed.

Lemma has_filter (P : V → bool) l k :
  (∀ x y, cmp x y = Eq → P x = P y) → has (filter (λ v, P v = true) l) k = P k && has l k.
Proof.
  intros HP. induction l as [|v l IH]; [by rewrite andb_false_r|]. rewrite filter_cons.
  case_decide as Hv; rewrite ?has_cons, IH; destruct (same_key v k) eqn:Hs; try done;
    apply same_key_spec in Hs; rewrite <- (HP _ _ Hs).
  - by rewrite Hv.
  - by destruct (P v).
Qed.

(** *** Union *)

Lemma unite_spec t l made :
  (∀ k, has (tree_items t) k = true → has (tree_items (default t made)) k = true) →
  ∀ k, has (tree_items (default t (foldl (unite_step t) made l))) k = has (tree_items (default t made)) k || has l k.
Proof.
  revert made. induction l as [|v l IH]; intros made Hsub k; simpl; [by rewrite orb_false_r|].
  unfold unite_step at 2. rewrite tree_has_spec. destruct (has (tree_items t) v) eqn:Hv.
  - rewrite IH, has_cons by done. destruct (same_key v k) eqn:Hs; [|done]. apply same_key_spec in Hs.
    rewrite (Hsub k); [done|]. by rewrite <- (has_same _ _ _ Hs).
  - rewrite IH; simpl; [|intros k' Hk'; rewrite has_insert, Hsub by done; apply orb_true_r].
    rewrite has_insert, has_cons. destruct (same_key v k), (has (tree_items (default t made)) k), (has l k); done.
Qed.

Lemma united_spec s other :
  set_ok s → set_ok other → set_ok (united s other) ∧ ∀ k, mem (united s other) k = mem s k || mem other k.
Proof.
  intros Hs Ho. unfold united.
  destruct (walked_set first_of orb s other Hs Ho) as [Hwok Hwm]; try done.
  { intros x [y|] e [= <-]; apply cmp_refl. }
  { intros y e [= <-]. apply cmp_refl. }
  { by intros [] []. }
  set (both := set_of _) in *.
  assert (Hcase : ∀ larger smaller, set_ok larger → set_ok smaller →
    (∀ k, mem larger k || mem smaller k = mem s k || mem other k) →
    let r := if bool_decide (set_len smaller = 0) then larger
             else match tree (members larger) with
                  | None => both
                  | Some t => match foldl (unite_step t) None (set_iter smaller) with
                              | Some t => set_of (Tree t) | None => larger end
                  end in
    set_ok r ∧ ∀ k, mem r k = mem s k || mem other k).
  { intros larger smaller Hl Hsm Heq. cbv zeta. case_bool_decide as He.
    { split; [done|]. intros k. by rewrite <- Heq, (mem_empty smaller) , orb_false_r. }
    destruct (tree (members larger)) as [t|] eqn:Ht; [|done].
    destruct (set_tree larger t Hl Ht) as (Hi & Hlen & Hm).
    pose proof (unite_spec t (set_iter smaller) None ltac:(done)) as Hu. simpl in Hu.
    destruct (foldl (unite_step t) None (set_iter smaller)) as [t'|]; simpl in Hu.
    - destruct (grown_set (set_iter larger) t') as [Hok Hm']; [by apply set_iter_ordered|done| |].
      + intros k Hk. rewrite Hu, Hi, Hk. done.
      + split; [done|]. intros k. by rewrite Hm', Hu, Hm, <- Heq.
    - split; [done|]. intros k. rewrite <- Heq, <- Hm. rewrite Hu at 1. done. }
  unfold by_size. case_decide; apply Hcase; try done. intros k. apply orb_comm.
Qed.

Lemma intersected_spec s other :
  set_ok s → set_ok other →
  let '(larger, smaller) := by_size s other in
  let made := set_of (of_sorted (filter (λ v, set_contains larger v = true) (set_iter smaller))) in
  set_ok made ∧ ∀ k, mem made k = mem s k && mem other k.
Proof.
  intros Hs Ho.
  assert (Hcase : ∀ larger smaller, set_ok larger → set_ok smaller →
    let made := set_of (of_sorted (filter (λ v, set_contains larger v = true) (set_iter smaller))) in
    set_ok made ∧ ∀ k, mem made k = mem larger k && mem smaller k).
  { intros larger smaller Hl Hsm. cbv zeta.
    destruct (of_sorted_set (filter (λ v, set_contains larger v = true) (set_iter smaller))) as [Hok Hm];
      [by apply filter_ordered, set_iter_ordered|]. split; [done|]. intros k. rewrite Hm, has_filter.
    - by rewrite set_contains_mem.
    - intros x y Hxy. rewrite !set_contains_mem by done. by apply mem_same. }
  unfold by_size. case_decide; [by apply Hcase|].
  destruct (Hcase other s Ho Hs) as [Hok Hm]. split; [done|]. intros k. by rewrite Hm, andb_comm.
Qed.

(** *** Difference *)

Lemma differ_spec t l made :
  (∀ k, has (tree_items (default t made)) k = true → has (tree_items t) k = true) →
  ∀ k, has (tree_items (default t (foldl (differ_step t) made l))) k =
    has (tree_items (default t made)) k && negb (has l k).
Proof.
  revert made. induction l as [|v l IH]; intros made Hsub k; simpl; [by rewrite andb_true_r|].
  unfold differ_step at 2. rewrite tree_has_spec. destruct (has (tree_items t) v) eqn:Hv.
  - rewrite IH; simpl.
    + rewrite has_remove, has_cons. destruct (same_key v k), (has (tree_items (default t made)) k), (has l k); done.
    + intros k'. rewrite has_remove, andb_true_iff. intros [_ Hk']. by apply Hsub.
  - rewrite IH, has_cons by done. destruct (same_key v k) eqn:Hs; [|done]. apply same_key_spec in Hs.
    destruct (has (tree_items (default t made)) k) eqn:Hk; [|done]. apply Hsub in Hk.
    rewrite <- (has_same _ _ _ Hs) in Hk. congruence.
Qed.

Lemma walk_difference_spec s other :
  set_ok s → set_ok other →
  set_ok (walk_difference s other) ∧ ∀ k, mem (walk_difference s other) k = mem s k && negb (mem other k).
Proof.
  intros Hs Ho. unfold walk_difference.
  assert (Hf : filter (λ v, set_contains other v = false) (set_iter s) =
    filter (λ v, negb (mem other v) = true) (set_iter s)).
  { apply filter_ext_in. intros v _. rewrite set_contains_mem by done. by destruct (mem other v). }
  rewrite Hf. assert (Hhas : ∀ k, has (filter (λ v, negb (mem other v) = true) (set_iter s)) k
    = mem s k && negb (mem other k)).
  { intros k. rewrite has_filter, andb_comm; [done|]. intros x y Hxy. by rewrite (mem_same _ _ _ Hxy). }
  case_decide as Hlen.
  - split; [done|]. intros k. rewrite <- Hhas. unfold set_len in Hlen. rewrite len_iter in Hlen.
    assert (filter (λ v, negb (mem other v) = true) (set_iter s) = set_iter s) as ->; [|done].
    apply filter_Forall_id, Forall_forall. intros v Hv.
    destruct (decide (negb (mem other v) = true)) as [|Hno]; [done|exfalso].
    pose proof (length_filter_lt (λ v, negb (mem other v) = true) (set_iter s) v Hv Hno).
    unfold set_iter in *. lia.
  - destruct (of_sorted_set (filter (λ v, negb (mem other v) = true) (set_iter s))) as [Hok Hm];
      [by apply filter_ordered, set_iter_ordered|]. split; [done|]. intros k. by rewrite Hm.
Qed.

Lemma differed_spec s other :
  set_ok s → set_ok other →
  set_ok (differed s other) ∧ ∀ k, mem (differed s other) k = mem s k && negb (mem other k).
Proof.
  intros Hs Ho. unfold differed. destruct (tree (members s)) as [t|] eqn:Ht; [|by apply walk_difference_spec].
  case_decide; [|by apply walk_difference_spec]. destruct (set_tree s t Hs Ht) as (_ & _ & Hm).
  pose proof (differ_spec t (set_iter other) None ltac:(done)) as Hd. simpl in Hd.
  destruct (foldl (differ_step t) None (set_iter other)) as [t'|]; simpl in Hd.
  - destruct (of_tree_set t') as [Hok Hm']. split; [done|]. intros k. by rewrite Hm', Hd, Hm.
  - split; [done|]. intros k. rewrite <- Hm. rewrite Hd at 1. done.
Qed.

(** *** Symmetric difference *)

Lemma flip_spec t l :
  ordered l → ∀ k, has (tree_items (foldl flip_step t l)) k = xorb (has (tree_items t) k) (has l k).
Proof.
  revert t. induction l as [|v l IH]; intros t Hl k; simpl; [by rewrite xorb_false_r|].
  apply ordered_cons in Hl as [Hl Hv]. rewrite IH, has_cons by done.
  assert (Hflip : has (tree_items (flip_step t v)) k = xorb (has (tree_items t) k) (same_key v k)).
  { unfold flip_step. rewrite tree_has_spec. destruct (same_key v k) eqn:Hs.
    - apply same_key_spec in Hs as Hvk. pose proof (has_same (tree_items t) _ _ Hvk) as Hk. rewrite <- Hk.
      destruct (has (tree_items t) v); rewrite ?has_insert, ?has_remove, Hs; done.
    - rewrite xorb_false_r. destruct (has (tree_items t) v); rewrite ?has_insert, has_remove, Hs; done. }
  rewrite Hflip. destruct (same_key v k) eqn:Hs; [|by rewrite xorb_false_r].
  assert (has l k = false) as ->; [|by rewrite xorb_false_r].
  apply not_true_iff_false. intros (x & Hx & Hxk)%has_elem. specialize (Hv x Hx).
  apply same_key_spec in Hs. simpl in Hv. rewrite (cmp_eq_r _ _ _ Hxk), Hs in Hv. done.
Qed.

Lemma symmetric_differed_spec s other :
  set_ok s → set_ok other →
  set_ok (symmetric_differed s other) ∧ ∀ k, mem (symmetric_differed s other) k = xorb (mem s k) (mem other k).
Proof.
  intros Hs Ho. unfold symmetric_differed.
  destruct (walked_set only_one xorb s other Hs Ho) as [Hwok Hwm]; try done.
  { intros x [y|] e [= <-]; apply cmp_refl. }
  { intros y e [= <-]. apply cmp_refl. }
  { by intros [] []. }
  set (both := set_of _) in *.
  assert (Hcase : ∀ larger smaller, set_ok larger → set_ok smaller →
    (∀ k, xorb (mem larger k) (mem smaller k) = xorb (mem s k) (mem other k)) →
    let r := if bool_decide (set_len smaller = 0) then larger
             else match tree (members larger) with
                  | None => both
                  | Some t => set_of (of_tree (foldl flip_step t (set_iter smaller)))
                  end in
    set_ok r ∧ ∀ k, mem r k = xorb (mem s k) (mem other k)).
  { intros larger smaller Hl Hsm Heq. cbv zeta. case_bool_decide as He.
    { split; [done|]. intros k. by rewrite <- Heq, (mem_empty smaller), xorb_false_r. }
    destruct (tree (members larger)) as [t|] eqn:Ht; [|done].
    destruct (set_tree larger t Hl Ht) as (_ & _ & Hm).
    destruct (of_tree_set (foldl flip_step t (set_iter smaller))) as [Hok Hm']. split; [done|]. intros k.
    rewrite Hm', flip_spec, Hm, <- Heq by by apply set_iter_ordered. done. }
  unfold by_size. case_decide; apply Hcase; try done. intros k. apply xorb_comm.
Qed.

Lemma is_subset_spec s other :
  set_ok s → set_ok other → is_subset s other = true ↔ ∀ k, mem s k = true → mem other k = true.
Proof.
  intros Hs Ho. unfold is_subset. rewrite andb_true_iff, bool_decide_eq_true, forallb_forall.
  setoid_rewrite <- list_elem_of_In. split.
  - intros [_ Hall] k (v & Hv & Hvk)%has_elem. specialize (Hall v Hv).
    rewrite set_contains_mem in Hall by done. by rewrite <- (mem_same _ _ _ Hvk).
  - intros Hsub. assert (Hall : ∀ v, v ∈ set_iter s → mem other v = true).
    { intros v Hv. apply Hsub, has_elem. exists v. split; [done|apply cmp_refl]. }
    split; [|intros v Hv; rewrite set_contains_mem by done; by apply Hall].
    unfold set_len. rewrite !len_iter. apply (ordered_length (W := ())); [by apply set_iter_ordered..|].
    intros v Hv. specialize (Hall v Hv). apply has_at_key in Hall. exists (). exact Hall.
Qed.
End set.
