(* ===== verification/MapClaims.v ===== *)
(** * What maps and sets promise

    Maps however they are kept, against what is at a key; sets against
    which values are members, and what is known of their functions. *)

From S2P Require Import Prelude MapValue MapFacts SetFacts.

#[local] Open Scope nat_scope.

(** ** Maps *)
Section map.
Context {V W T : Type} `{CmpLaws V, !OrdTree V (V * W) T, !OrdTreeLaws V W (V * W) T}.
Implicit Types m : Kept (V * W) T.

Lemma merge_wins_spec (l : list (V * W)) (t : T) k :
  ordered l →
  at_key (tree_items (foldl (merge_step true) t l)) k =
  match at_key l k with Some v => Some v | None => at_key (tree_items t) k end.
Proof.
  revert t. induction l as [|e l IH]; intros t Hl; [done|]. apply ordered_cons in Hl as [Hl He].
  simpl. rewrite IH, at_key_cons by done. change (merge_step true t e) with (tree_insert e t).
  rewrite law_insert. destruct (same_key (key e) k) eqn:Hs; [|done]. apply same_key_spec in Hs.
  rewrite (at_key_above l (key e) k); [done|done|]. by rewrite (cmp_sym _ _ _ Hs).
Qed.

Lemma merge_yields_spec (l : list (V * W)) (t : T) k :
  at_key (tree_items (foldl (merge_step false) t l)) k =
  match at_key (tree_items t) k with Some v => Some v | None => at_key l k end.
Proof.
  revert t. induction l as [|e l IH]; intros t; [simpl; by destruct (at_key _ k)|].
  simpl. rewrite IH, at_key_cons. unfold merge_step. simpl.
  pose proof (law_get t e.1) as Hget. destruct (tree_get t e.1) as [x|] eqn:Hx; simpl in Hget |- *.
  - destruct (same_key e.1 k) eqn:Hs; [|done]. apply same_key_spec in Hs.
    by rewrite <- (at_key_same _ _ _ Hs), <- Hget.
  - rewrite law_insert. simpl. destruct (same_key e.1 k) eqn:Hs; [|done]. apply same_key_spec in Hs.
    by rewrite <- (at_key_same _ _ _ Hs), <- Hget.
Qed.

Lemma merge_ok m other :
  kept_ok m → kept_ok other →
  kept_ok (merge m other) ∧
  ∀ k, look (merge m other) k = match look other k with Some v => Some v | None => look m k end.
Proof.
  intros Hm Ho. unfold merge. rewrite !is_empty_iter. unfold look.
  case_bool_decide as Heo; [rewrite Heo; done|]. case_bool_decide as Hem.
  { split; [done|]. intros k. rewrite Hem. by destruct (at_key (iter other) k). }
  pose proof (iter_ordered m Hm) as Hom. pose proof (iter_ordered other Ho) as Hoo.
  destruct (walked_spec (W := W) (E := V * W) merged) with (a := iter m) (b := iter other) as (Hord & _ & Hwalk); try done.
  { intros [x1 x2] [[y1 y2]|] e [= <-]; simpl; apply cmp_refl. }
  { intros y e [= <-]. apply cmp_refl. }
  assert (Hboth : kept_ok (of_sorted (walked merged (iter m) (iter other)) : Kept (V * W) T) ∧
    ∀ k, at_key (iter (of_sorted (walked merged (iter m) (iter other)) : Kept (V * W) T)) k =
      match at_key (iter other) k with Some v => Some v | None => at_key (iter m) k end).
  { destruct (of_sorted_ok (T := T) _ Hord) as [Hok Hit]. split; [done|]. intros k. rewrite Hit, Hwalk.
    unfold at_key. by destruct (seek (iter m) k) as [[]|], (seek (iter other) k) as [[]|]. }
  case_decide as Hle.
  - destruct (tree m) as [t|] eqn:Ht; [|exact Hboth].
    destruct (tree_entries m t Hm Ht) as [Hi Hlen].
    assert (Hat : ∀ k, at_key (tree_items (foldl (merge_step true) t (iter other))) k =
      match at_key (iter other) k with Some v => Some v | None => at_key (iter m) k end).
    { intros k. rewrite merge_wins_spec by done. by rewrite Hi. }
    split; [|exact Hat]. apply (tree_grown_ok (iter m)); [done..|]. intros k Hk. rewrite Hat.
    by destruct (at_key (iter other) k).
  - destruct (tree other) as [t|] eqn:Ht; [|exact Hboth].
    destruct (tree_entries other t Ho Ht) as [Hi Hlen].
    assert (Hat : ∀ k, at_key (tree_items (foldl (merge_step false) t (iter m))) k =
      match at_key (iter other) k with Some v => Some v | None => at_key (iter m) k end).
    { intros k. rewrite merge_yields_spec. by rewrite Hi. }
    split; [|exact Hat]. apply (tree_grown_ok (iter other)); [done..|]. intros k Hk. rewrite Hat.
    by destruct (at_key (iter other) k).
Qed.

(** C38. A map however it is kept answers and changes by its keys: a lookup
    gives what is at the key, [insert] puts the value there, [remove]
    takes the key out, and [merge] has the entries of both, of a key both
    have the value of the second; each result is kept as it may be. *)
Theorem map_updates m other k v :
  kept_ok m → kept_ok other →
  (kept_ok (map_insert m k v) ∧ kept_ok (map_remove m k) ∧ kept_ok (merge m other)) ∧
  ∀ k', map_get m k' = look m k' ∧ contains_key m k' = bool_decide (is_Some (look m k')) ∧
    map_get (map_insert m k v) k' = (if same_key k k' then Some v else map_get m k') ∧
    map_get (map_remove m k) k' = (if same_key k k' then None else map_get m k') ∧
    map_get (merge m other) k' =
      match map_get other k' with Some v => Some v | None => map_get m k' end.
Proof.
  intros Hm Ho. destruct (map_insert_ok m k v Hm) as [Hi Hil], (map_remove_ok m k Hm) as [Hr Hrl],
    (merge_ok m other Hm Ho) as [Hg Hgl].
  split; [done|]. intros k'. rewrite !map_get_look by done.
  split_and!; [done|by apply contains_key_look|apply Hil|apply Hrl|apply Hgl].
Qed.

(** A map made of entries in any order has of each key the value given
    last, however many there are, and its entries, keys and values are
    read in the order of the keys, each key once, by every walk. *)
Theorem map_made (entries : list (V * W)) k :
  let m : Kept (V * W) T := of_unsorted entries in
  kept_ok m ∧ map_get m k = at_key (rev entries) k ∧
  ordered (iter m) ∧ len m = length (iter m) ∧
  keys m = (iter m).*1 ∧ values m = (iter m).*2 ∧
  into_hint (into_iter m) = length (iter m) ∧ into_all (S (length (iter m))) (into_iter m) = iter m.
Proof.
  cbv zeta. destruct (sorted_last entries) as [Hord Hat].
  destruct (of_sorted_ok (T := T) _ Hord) as [Hok Hit]. fold (of_unsorted (T := T) entries) in Hok, Hit.
  rewrite map_get_look by done. unfold look. split_and!; [done|by rewrite Hit|by rewrite Hit|apply len_iter|done|done|..];
    apply into_iter_all.
Qed.
End map.

(** ** A tree that keeps the laws: what was put into it, in turn *)
Section list_tree.
Context {V W E : Type} `{CmpLaws V, !Entry V W E}.

Definition list_tree : OrdTree V E (list E) := {|
  tree_empty := [];
  tree_from l := l;
  tree_items t := dedup_last (sort_by t);
  tree_len t := length (dedup_last (sort_by t));
  tree_get t k := seek (dedup_last (sort_by t)) k;
  tree_insert e t := t ++ [e];
  tree_remove k t := filter (λ e, same_key k (key e) = false) t;
|}.

Lemma sort_by_ordered (l : list E) : ordered l → sort_by l = l.
Proof.
  unfold sort_by. induction l as [|e l IH]; intros Hl; [done|]. apply ordered_cons in Hl as [Hl He]. simpl.
  rewrite (IH Hl). destruct l as [|x l]; [done|]. simpl. by rewrite (He x) by set_solver.
Qed.

Lemma dedup_last_ordered cur (l : list E) : ordered (cur :: l) → dedup_last_from cur l = cur :: l.
Proof.
  revert cur. induction l as [|e l IH]; intros cur Hl; [done|]. apply ordered_cons in Hl as [Hl Hcur]. simpl.
  rewrite same_key_sym, lt_not_same by (apply Hcur; set_solver). by rewrite (IH e Hl).
Qed.

Lemma at_key_rev_cons (e : E) t k :
  at_key (rev (e :: t)) k =
  match at_key (rev t) k with Some v => Some v | None => if same_key (key e) k then Some (val e) else None end.
Proof. simpl. by rewrite at_key_app, at_key_cons. Qed.

Lemma at_key_filter_out (t : list E) k k' :
  at_key (rev (filter (λ e, same_key k (key e) = false) t)) k' =
  if same_key k k' then None else at_key (rev t) k'.
Proof.
  induction t as [|e t IH]; [simpl; by destruct (same_key k k')|]. rewrite filter_cons.
  case_decide as He; rewrite ?at_key_rev_cons, IH; destruct (same_key k k') eqn:Hk; try done.
  - apply same_key_spec in Hk. by rewrite same_key_sym, <- (same_key_l _ _ (key e) Hk), He.
  - apply not_false_is_true, same_key_spec in He. rewrite <- (same_key_l _ _ k' He), Hk.
    by destruct (at_key (rev t) k').
Qed.

Lemma list_tree_laws : @OrdTreeLaws V W E (list E) _ _ list_tree.
Proof.
  constructor; simpl.
  - intros t. apply sorted_last.
  - done.
  - intros l Hl. rewrite sort_by_ordered by done. destruct l as [|e l]; [done|]. by apply dedup_last_ordered.
  - done.
  - done.
  - intros e t k. destruct (sorted_last (t ++ [e])) as [_ Hk], (sorted_last t) as [_ Hk'].
    rewrite Hk, Hk', rev_unit, at_key_cons. done.
  - intros k t k'. destruct (sorted_last (filter (λ e, same_key k (key e) = false) t)) as [_ Hk],
      (sorted_last t) as [_ Hk']. by rewrite Hk, Hk', at_key_filter_out.
Qed.
End list_tree.

#[global] Instance nat_cmp : Cmp nat := Nat.compare.
#[global] Instance nat_cmp_laws : CmpLaws nat.
Proof.
  constructor; unfold cmp, nat_cmp.
  - intros x y. apply Nat.compare_antisym.
  - intros x y z. rewrite !Nat.compare_ngt_iff. lia.
Qed.

(** A map of some entries, and one of enough to be kept in a tree. *)
Definition small_map : Kept (nat * nat) (list (nat * nat)) := Flat [(1, 10); (4, 40)].
Definition large_map : Kept (nat * nat) (list (nat * nat)) := Tree ((λ i, (i, i)) <$> seq 0 20).

Lemma map_updates_witness :
  let _ := list_tree (V := nat) (W := nat) (E := nat * nat) in
  map_get (merge large_map small_map) 4 = Some 40 ∧ map_get (map_remove large_map 4) 4 = None.
Proof.
  pose (tr := list_tree (V := nat) (W := nat) (E := nat * nat)).
  pose proof (list_tree_laws (V := nat) (W := nat) (E := nat * nat)) as Hlaws.
  assert (Hl : kept_ok (OrdTree0 := tr) large_map) by (vm_compute; lia).
  assert (Hs : kept_ok (OrdTree0 := tr) small_map).
  { split; [repeat constructor|vm_compute; lia]. }
  destruct (map_updates large_map small_map 4 0 Hl Hs) as [_ Hget].
  destruct (Hget 4) as (_ & _ & _ & Hr & Hm). split.
  - etransitivity; [exact Hm|]. vm_compute. reflexivity.
  - etransitivity; [exact Hr|]. vm_compute. reflexivity.
Defined.

Lemma map_made_witness :
  let _ := list_tree (V := nat) (W := nat) (E := nat * nat) in
  let m : Kept (nat * nat) (list (nat * nat)) := of_unsorted [(3, 1); (1, 2); (3, 5)] in
  map_get m 3 = at_key (rev [(3, 1); (1, 2); (3, 5)]) 3 ∧ map_get m 3 = Some 5.
Proof.
  pose (tr := list_tree (V := nat) (W := nat) (E := nat * nat)).
  pose proof (list_tree_laws (V := nat) (W := nat) (E := nat * nat)) as Hlaws.
  destruct (map_made (OrdTree0 := tr) [(3, 1); (1, 2); (3, 5)] 3) as (_ & Hget & _). split; [exact Hget|].
  etransitivity; [exact Hget|]. vm_compute. reflexivity.
Defined.

(** * What sets promise

    Which values are members of what each operation makes, and that what a
    set knows of its functions is so. *)

#[local] Open Scope nat_scope.

Section set.
Context {V T : Type} `{CmpLaws V, !OrdTree V V T, !OrdTreeLaws V () V T}.
Context (contains_fn is_no_fn : V → bool).
Implicit Types (s other : MSet (V := V) (T := T)).

Lemma set_from_spec l :
  let s := set_from_iter l : MSet (V := V) (T := T) in set_ok s ∧ ∀ k, mem s k = has l k.
Proof.
  cbv zeta. destruct (sorted_first (W := ()) l) as [Hord Hat]. destruct (of_sorted_set (T := T) _ Hord) as [Hok Hm].
  split; [exact Hok|]. intros k. unfold set_from_iter. rewrite Hm. unfold has. by rewrite Hat.
Qed.

(** A set however it is kept answers and changes by its members: a set
    made of values in any order, of many or few, has those values;
    [insert] and [remove] change one member, and the operations on two
    sets are those of sets, whichever of the two is walked; each result
    is kept as it may be. *)
Theorem set_operations l s other v :
  set_ok s → set_ok other →
  let made := set_from_iter l : MSet (V := V) (T := T) in
  (set_ok made ∧ set_ok (set_insert is_no_fn s v) ∧ set_ok (set_remove s v) ∧ set_ok (union s other) ∧
   set_ok (intersection s other) ∧ set_ok (difference s other) ∧ set_ok (symmetric_difference s other)) ∧
  (∀ k, set_contains made k = existsb (λ x, same_key x k) l ∧
    set_contains (set_insert is_no_fn s v) k = same_key v k || set_contains s k ∧
    set_contains (set_remove s v) k = negb (same_key v k) && set_contains s k ∧
    set_contains (union s other) k = set_contains s k || set_contains other k ∧
    set_contains (intersection s other) k = set_contains s k && set_contains other k ∧
    set_contains (difference s other) k = set_contains s k && negb (set_contains other k) ∧
    set_contains (symmetric_difference s other) k = xorb (set_contains s k) (set_contains other k)) ∧
  (is_subset s other = true ↔ ∀ k, set_contains s k = true → set_contains other k = true).
Proof.
  intros Hs Ho. cbv zeta. destruct (set_from_spec l) as [Hm Hmk].
  destruct (inserted_spec s v Hs) as [Hi Hik], (removed_spec s v Hs) as [Hr Hrk],
    (united_spec s other Hs Ho) as [Hu Huk], (differed_spec s other Hs Ho) as [Hd Hdk],
    (symmetric_differed_spec s other Hs Ho) as [Hx Hxk].
  pose proof (intersected_spec s other Hs Ho) as Hn.
  assert (Hn' : set_ok (intersection s other) ∧ ∀ k, mem (intersection s other) k = mem s k && mem other k).
  { unfold intersection. destruct (by_size s other) as [a b]. destruct Hn as [Hok Hk].
    split; [unfold set_ok; by rewrite knowing_members|]. intros k. unfold mem, set_iter. rewrite knowing_members. apply Hk. }
  destruct Hn' as [Hnok Hnk].
  assert (Hkn : ∀ s' f, set_ok s' → set_ok (knowing s' f)).
  { intros s' f Hs'. unfold set_ok. by rewrite knowing_members. }
  assert (Hkm : ∀ s' f k, mem (knowing s' f) k = mem s' k).
  { intros s' f k. unfold mem, set_iter. by rewrite knowing_members. }
  unfold set_insert, set_remove, union, difference, symmetric_difference.
  split; [split_and!; try apply Hkn; done|]. split.
  - intros k. rewrite !set_contains_mem by (try apply Hkn; done). rewrite !Hkm, Hmk. split_and!; try done. clear. induction l as [|x l IH]; [done|]. by rewrite has_cons, IH.
  - rewrite is_subset_spec by done. by setoid_rewrite set_contains_mem.
Qed.

(** ** What is known of functions *)

(** Equal values have functions in them alike, and a value known to have
    none has none. *)
Context (Hfn : ∀ x y, cmp x y = Eq → contains_fn x = contains_fn y).
Context (Hno : ∀ x, is_no_fn x = true → contains_fn x = false).

Definition fns_right s : Prop :=
  match fns s with
  | Unknown => True
  | No => ∀ v, mem s v = true → contains_fn v = false
  | Yes => ∃ v, mem s v = true ∧ contains_fn v = true
  end.

Lemma knowing_right s f :
  fns_right s →
  match f with
  | Unknown => True
  | No => ∀ v, mem s v = true → contains_fn v = false
  | Yes => ∃ v, mem s v = true ∧ contains_fn v = true
  end → fns_right (knowing s f).
Proof. by destruct f. Qed.

Lemma walk_right s :
  existsb contains_fn (set_iter s) = true ↔ ∃ v, mem s v = true ∧ contains_fn v = true.
Proof.
  rewrite existsb_exists. setoid_rewrite <- list_elem_of_In. split.
  - intros (v & Hv & Hc). exists v. split; [|done]. apply has_elem. exists v. split; [done|apply cmp_refl].
  - intros (v & (x & Hx & Hxv)%has_elem & Hc). exists x. split; [done|]. by rewrite (Hfn _ _ Hxv).
Qed.

(** What a set knows of its functions is so: the answer of [holds_fn],
    from a walk or remembered, is whether a member has a function in it,
    and every operation hands on only what follows for the set it
    makes. *)
Theorem set_knows_functions s other v :
  set_ok s → set_ok other → fns_right s → fns_right other →
  ((holds_fn contains_fn s).1 = true ↔ ∃ v, set_contains s v = true ∧ contains_fn v = true) ∧
  fns_right (holds_fn contains_fn s).2 ∧
  fns_right (set_insert is_no_fn s v) ∧ fns_right (set_remove s v) ∧ fns_right (union s other) ∧
  fns_right (intersection s other) ∧ fns_right (difference s other) ∧ fns_right (symmetric_difference s other).
Proof.
  intros Hs Ho Hfs Hfo. pose proof (walk_right s) as Hw. setoid_rewrite set_contains_mem; [|done].
  assert (Hnone : ∀ s', (∀ v, mem s' v = true → contains_fn v = false) ↔
    ¬ ∃ v, mem s' v = true ∧ contains_fn v = true).
  { intros s'. split; [intros Hall (x & Hx & Hc); specialize (Hall x Hx); congruence|].
    intros Hn x Hx. apply not_true_iff_false. eauto. }
  unfold fns_right in Hfs, Hfo. split; [|split].
  { unfold holds_fn. destruct (fns s) eqn:Hf; simpl; [done| |].
    - apply Hnone in Hfs. split; [done|]. intros. by destruct Hfs.
    - done. }
  { unfold holds_fn. destruct (fns s) eqn:Hf; simpl; [|unfold fns_right; by rewrite Hf..].
    apply knowing_right; [unfold fns_right; by rewrite Hf|].
    change (iter (members s)) with (set_iter s). destruct (existsb contains_fn (set_iter s)) eqn:He.
    - by apply Hw.
    - apply Hnone. by rewrite <- Hw. }
  destruct (inserted_spec s v Hs) as [_ Hik], (removed_spec s v Hs) as [_ Hrk],
    (united_spec s other Hs Ho) as [_ Huk], (differed_spec s other Hs Ho) as [_ Hdk],
    (symmetric_differed_spec s other Hs Ho) as [_ Hxk].
  pose proof (intersected_spec s other Hs Ho) as Hn.
  assert (Hfresh : ∀ k : Kept V T, fns_right (set_of k)) by done.
  assert (Hself : fns_right s) by done. assert (Hother : fns_right other) by done.
  split_and!.
  - unfold set_insert. apply knowing_right.
    + unfold inserted. repeat case_match; done.
    + destruct (fns s) eqn:Hf; [done| |].
      * destruct (is_no_fn v) eqn:Hv; [|done]. intros x. rewrite Hik, orb_true_iff.
        intros [Hk%same_key_spec|Hx]; [rewrite <- (Hfn _ _ Hk); by apply Hno|by apply Hfs].
      * destruct Hfs as (x & Hx & Hc). exists x. split; [|done]. by rewrite Hik, Hx, orb_true_r.
  - unfold set_remove. apply knowing_right.
    + unfold removed. repeat case_match; done.
    + destruct (fns s) eqn:Hf; [done| |done]. intros x. simpl. rewrite Hrk, andb_true_iff. intros [_ Hx]. by apply Hfs.
  - unfold union. apply knowing_right.
    + unfold united, by_size. repeat case_match; simplify_eq; done.
    + destruct (fns s) eqn:Hf, (fns other) eqn:Hg; simpl; try done.
      * destruct Hfo as (x & Hx & Hc). exists x. by rewrite Huk, Hx, orb_true_r.
      * intros x. rewrite Huk, orb_true_iff. intros [Hx|Hx]; [by apply Hfs|by apply Hfo].
      * destruct Hfo as (x & Hx & Hc). exists x. by rewrite Huk, Hx, orb_true_r.
      * destruct Hfs as (x & Hx & Hc). exists x. by rewrite Huk, Hx.
      * destruct Hfs as (x & Hx & Hc). exists x. by rewrite Huk, Hx.
      * destruct Hfs as (x & Hx & Hc). exists x. by rewrite Huk, Hx.
  - unfold intersection. destruct (by_size s other) as [a b]. destruct Hn as [_ Hnk]. apply knowing_right; [done|].
    destruct (fns s) eqn:Hf, (fns other) eqn:Hg; simpl; try done; intros x;
      rewrite Hnk, andb_true_iff; intros [Hx Hy]; auto.
  - unfold difference. apply knowing_right.
    + unfold differed, walk_difference. repeat case_match; done.
    + destruct (fns s) eqn:Hf; simpl; try done. intros x. rewrite Hdk, andb_true_iff. intros [Hx _]. by apply Hfs.
  - unfold symmetric_difference. apply knowing_right.
    + unfold symmetric_differed, by_size. repeat case_match; simplify_eq; done.
    + destruct (fns s) eqn:Hf, (fns other) eqn:Hg; simpl; try done. intros x. rewrite Hxk.
      destruct (mem s x) eqn:Hx, (mem other x) eqn:Hy; try done; intros _; auto.
Qed.
End set.

(** A set of few members, which has a function (the even numbers), and
    one of enough to be kept in a tree. *)
Definition small_set : MSet (V := nat) (T := list nat) := mkSet (Flat [1; 4]) Yes.
Definition large_set : MSet (V := nat) (T := list nat) := mkSet (Tree (seq 20 20)) Unknown.

Lemma set_operations_witness :
  let _ := list_tree (V := nat) (W := ()) (E := nat) in
  set_contains (union large_set small_set) 4 = true ∧ set_contains (difference large_set small_set) 4 = false.
Proof.
  pose (tr := list_tree (V := nat) (W := ()) (E := nat)).
  pose proof (list_tree_laws (V := nat) (W := ()) (E := nat)) as Hlaws.
  assert (Hl : set_ok (OrdTree0 := tr) large_set) by (vm_compute; lia).
  assert (Hs : set_ok (OrdTree0 := tr) small_set) by (split; [repeat constructor|vm_compute; lia]).
  destruct (set_operations (OrdTree0 := tr) (λ _, false) [] large_set small_set 0 Hl Hs) as (_ & Hk & _).
  destruct (Hk 4) as (_ & _ & _ & Hu & _ & Hd & _). split.
  - etransitivity; [exact Hu|]. vm_compute. reflexivity.
  - etransitivity; [exact Hd|]. vm_compute. reflexivity.
Defined.

Lemma set_knows_functions_witness :
  let _ := list_tree (V := nat) (W := ()) (E := nat) in
  fns_right Nat.even (union large_set small_set) ∧ fns (union large_set small_set) = Yes.
Proof.
  pose (tr := list_tree (V := nat) (W := ()) (E := nat)).
  pose proof (list_tree_laws (V := nat) (W := ()) (E := nat)) as Hlaws.
  split; [|vm_compute; reflexivity].
  apply (set_knows_functions (OrdTree0 := tr) Nat.even Nat.odd) with (v := 0).
  - intros x y Hxy. apply Nat.compare_eq in Hxy. by subst.
  - intros x Hx. rewrite <- Nat.negb_odd. by rewrite Hx.
  - vm_compute. lia.
  - split; [repeat constructor|vm_compute; lia].
  - done.
  - exists 4. split; vm_compute; reflexivity.
Defined.
