(* ===== verification/Ops.v ===== *)
(** * The instruction table (src/bytecode/ops.rs)

    One row per instruction: its operands and what it does to the height of
    its frame.  As in the source, the assembler's instructions [Asm], the
    decoded ones [Instr], the encoder, the decoder, the effects and the
    operands the verifier checks are all read off the row: an instruction is
    its opcode with one value for each operand of the row, of the type
    [asm_ty] or [instr_ty] of the operand's kind.

    A [usize], a [u8] and a [u16] that is an operand is an [N]; the code is a
    list of bytes. *)

From S2P Require Import Prelude.
From Stdlib Require Import NArith Strings.Byte.

Open Scope N_scope.

(** ** Results *)

Inductive Result (E A : Type) := Ok (x : A) | Err (e : E).
Arguments Ok {E A} x.
Arguments Err {E A} e.

(** ** What a row is made of *)

Inductive Flow := Next | Branch | Jump | End_.

Record Effect := mkEffect { pops : N; cut : option N; pushes : N; flow : Flow }.

Definition takes (p q : N) : Effect := mkEffect p None q Next.
Definition cuts (p c q : N) : Effect := mkEffect p (Some c) q Next.
Definition branches (e : Effect) : Effect := mkEffect (pops e) (cut e) (pushes e) Branch.
Definition jumps (e : Effect) : Effect := mkEffect (pops e) (cut e) (pushes e) Jump.
Definition ends (e : Effect) : Effect := mkEffect (pops e) (cut e) (pushes e) End_.

(** A constant is its index in the pool (a [u16]), a label its place among
    the labels of the emitter, a builtin its row in the registry. *)
Definition Const := N.
Definition Label := N.
Definition BuiltinId := N.

Record UpvalueDesc := mkUpvalueDesc { is_local : bool; index : N }.

Inductive Segment := SValue | Literal (k : Const).

Inductive ConstKind := CAny | CStr | CTag | CType | CFunc | CInt | CFloat.

(** The kinds of operands. *)
Module Kind.
Inductive Kind :=
  | U8 | Byte | U16 | Slot | Cut | Upvalue | Global | Trait | Method | Builtin
  | Const | Str | Tag | Type_ | Func | Int | Float | Fwd | Rel
  | Strs | Captures | Segments.
End Kind.
Notation Kind := Kind.Kind.

(** ** Opcodes *)

Module Op.

Inductive Op :=
  | Constant | Unit | True_ | False_
  | Add | Sub | Mul | Div | Mod | AddConst | SubConst
  | Eq | Neq | Lt | Gt | Leq | Geq
  | Negate | Not
  | Interpolate | DisplayValue
  | GetLocal | SetLocal | GetGlobal | SetGlobal
  | GetUpvalue | GetClosure
  | Call | TailCall | TailCallKeep | Return | CallBuiltin
  | MakeClosure
  | MakeTuple | MakeList | MakeMap | MakeSet | MakeRecord | MakeType
  | RecordUpdate | MakeRange | ListConcat
  | GetField | GetFieldNamed
  | Jump | JumpIfFalse | JumpIfTrue | JumpIfNotLt | JumpIfNotGt | JumpIfNotLeq
  | JumpIfNotGeq | JumpIfNotEq | JumpIfNotNeq | Pop | Dup
  | TestTag | TestEqual | TestTupleLen | TestListMin | TestListExact
  | TestIntRange | TestFloatRange | DestructTuple | DestructVariant
  | DestructList | DestructListRest | DestructRecordField
  | DestructRecordFieldNamed | DestructRecordRest | TestRecordTag
  | TestMapHasKey | DestructMapValue
  | Recur
  | QuestionMark | Panic | CallMethod | TailCallMethod
  | MakeDict | CallDict | TailCallDict | CallChecked | TailCallChecked
  | FrameDict | DictMethod | DictSub | SuperDict | WhereDict | DictType
  | TypeArg | Bind | Slide.

(** Every opcode, in the order of their bytes. *)
Definition ALL : list Op := [
  Constant; Unit; True_; False_; Add; Sub; Mul; Div; Mod; AddConst; SubConst;
  Eq; Neq; Lt; Gt; Leq; Geq; Negate; Not; Interpolate; DisplayValue; GetLocal;
  SetLocal; GetGlobal; SetGlobal; GetUpvalue; GetClosure; Call; TailCall;
  TailCallKeep; Return; CallBuiltin; MakeClosure; MakeTuple; MakeList;
  MakeMap; MakeSet; MakeRecord; MakeType; RecordUpdate; MakeRange; ListConcat;
  GetField; GetFieldNamed; Jump; JumpIfFalse; JumpIfTrue; JumpIfNotLt;
  JumpIfNotGt; JumpIfNotLeq; JumpIfNotGeq; JumpIfNotEq; JumpIfNotNeq; Pop;
  Dup; TestTag; TestEqual; TestTupleLen; TestListMin; TestListExact;
  TestIntRange; TestFloatRange; DestructTuple; DestructVariant; DestructList;
  DestructListRest; DestructRecordField; DestructRecordFieldNamed;
  DestructRecordRest; TestRecordTag; TestMapHasKey; DestructMapValue; Recur;
  QuestionMark; Panic; CallMethod; TailCallMethod; MakeDict; CallDict;
  TailCallDict; CallChecked; TailCallChecked; FrameDict; DictMethod; DictSub;
  SuperDict; WhereDict; DictType; TypeArg; Bind; Slide
].

(** The opcode's byte: its place in the table ([op as u8]). *)
Definition byte_of (op : Op) : N :=
  match op with
  | Constant => 0 | Unit => 1 | True_ => 2 | False_ => 3 | Add => 4 | Sub => 5
  | Mul => 6 | Div => 7 | Mod => 8 | AddConst => 9 | SubConst => 10 | Eq => 11
  | Neq => 12 | Lt => 13 | Gt => 14 | Leq => 15 | Geq => 16 | Negate => 17
  | Not => 18 | Interpolate => 19 | DisplayValue => 20 | GetLocal => 21
  | SetLocal => 22 | GetGlobal => 23 | SetGlobal => 24 | GetUpvalue => 25
  | GetClosure => 26 | Call => 27 | TailCall => 28 | TailCallKeep => 29
  | Return => 30 | CallBuiltin => 31 | MakeClosure => 32 | MakeTuple => 33
  | MakeList => 34 | MakeMap => 35 | MakeSet => 36 | MakeRecord => 37
  | MakeType => 38 | RecordUpdate => 39 | MakeRange => 40 | ListConcat => 41
  | GetField => 42 | GetFieldNamed => 43 | Jump => 44 | JumpIfFalse => 45
  | JumpIfTrue => 46 | JumpIfNotLt => 47 | JumpIfNotGt => 48
  | JumpIfNotLeq => 49 | JumpIfNotGeq => 50 | JumpIfNotEq => 51
  | JumpIfNotNeq => 52 | Pop => 53 | Dup => 54 | TestTag => 55
  | TestEqual => 56 | TestTupleLen => 57 | TestListMin => 58
  | TestListExact => 59 | TestIntRange => 60 | TestFloatRange => 61
  | DestructTuple => 62 | DestructVariant => 63 | DestructList => 64
  | DestructListRest => 65 | DestructRecordField => 66
  | DestructRecordFieldNamed => 67 | DestructRecordRest => 68
  | TestRecordTag => 69 | TestMapHasKey => 70 | DestructMapValue => 71
  | Recur => 72 | QuestionMark => 73 | Panic => 74 | CallMethod => 75
  | TailCallMethod => 76 | MakeDict => 77 | CallDict => 78
  | TailCallDict => 79 | CallChecked => 80 | TailCallChecked => 81
  | FrameDict => 82 | DictMethod => 83 | DictSub => 84 | SuperDict => 85
  | WhereDict => 86 | DictType => 87 | TypeArg => 88 | Bind => 89
  | Slide => 90
  end.

(** The opcode's name, as disassembly shows it. *)
Definition name (op : Op) : string :=
  match op with
  | Constant => "Constant" | Unit => "Unit" | True_ => "True"
  | False_ => "False" | Add => "Add" | Sub => "Sub" | Mul => "Mul"
  | Div => "Div" | Mod => "Mod" | AddConst => "AddConst"
  | SubConst => "SubConst" | Eq => "Eq" | Neq => "Neq" | Lt => "Lt"
  | Gt => "Gt" | Leq => "Leq" | Geq => "Geq" | Negate => "Negate"
  | Not => "Not" | Interpolate => "Interpolate"
  | DisplayValue => "DisplayValue" | GetLocal => "GetLocal"
  | SetLocal => "SetLocal" | GetGlobal => "GetGlobal"
  | SetGlobal => "SetGlobal" | GetUpvalue => "GetUpvalue"
  | GetClosure => "GetClosure" | Call => "Call" | TailCall => "TailCall"
  | TailCallKeep => "TailCallKeep" | Return => "Return"
  | CallBuiltin => "CallBuiltin" | MakeClosure => "MakeClosure"
  | MakeTuple => "MakeTuple" | MakeList => "MakeList" | MakeMap => "MakeMap"
  | MakeSet => "MakeSet" | MakeRecord => "MakeRecord" | MakeType => "MakeType"
  | RecordUpdate => "RecordUpdate" | MakeRange => "MakeRange"
  | ListConcat => "ListConcat" | GetField => "GetField"
  | GetFieldNamed => "GetFieldNamed" | Jump => "Jump"
  | JumpIfFalse => "JumpIfFalse" | JumpIfTrue => "JumpIfTrue"
  | JumpIfNotLt => "JumpIfNotLt" | JumpIfNotGt => "JumpIfNotGt"
  | JumpIfNotLeq => "JumpIfNotLeq" | JumpIfNotGeq => "JumpIfNotGeq"
  | JumpIfNotEq => "JumpIfNotEq" | JumpIfNotNeq => "JumpIfNotNeq"
  | Pop => "Pop" | Dup => "Dup" | TestTag => "TestTag"
  | TestEqual => "TestEqual" | TestTupleLen => "TestTupleLen"
  | TestListMin => "TestListMin" | TestListExact => "TestListExact"
  | TestIntRange => "TestIntRange" | TestFloatRange => "TestFloatRange"
  | DestructTuple => "DestructTuple" | DestructVariant => "DestructVariant"
  | DestructList => "DestructList" | DestructListRest => "DestructListRest"
  | DestructRecordField => "DestructRecordField"
  | DestructRecordFieldNamed => "DestructRecordFieldNamed"
  | DestructRecordRest => "DestructRecordRest"
  | TestRecordTag => "TestRecordTag" | TestMapHasKey => "TestMapHasKey"
  | DestructMapValue => "DestructMapValue" | Recur => "Recur"
  | QuestionMark => "QuestionMark" | Panic => "Panic"
  | CallMethod => "CallMethod" | TailCallMethod => "TailCallMethod"
  | MakeDict => "MakeDict" | CallDict => "CallDict"
  | TailCallDict => "TailCallDict" | CallChecked => "CallChecked"
  | TailCallChecked => "TailCallChecked" | FrameDict => "FrameDict"
  | DictMethod => "DictMethod" | DictSub => "DictSub"
  | SuperDict => "SuperDict" | WhereDict => "WhereDict"
  | DictType => "DictType" | TypeArg => "TypeArg" | Bind => "Bind"
  | Slide => "Slide"
  end.

(** The opcode [byte] is, if it is one. *)
Definition from_byte (b : byte) : option Op := ALL !! N.to_nat (Byte.to_N b).

End Op.
Notation Op := Op.Op.

(** ** The table *)

(** An operand of a row: its kind and what a program has too many of when it
    does not fit. *)
Definition Field : Type := Kind * string.

Fixpoint over (fs : list Field) (T : Type) : Type :=
  match fs with [] => T | _ :: fs => N → over fs T end.

(** The expressions of a row name its operands: the effect is a function of
    one number per operand, the value of a [usize] or [u8], the count of a
    list, the count of values of the segments of an interpolation. *)
Record Row := row { fields : list Field; effect_over : over fields Effect }.

Definition table (op : Op) : Row :=
  match op with
  (* Constants & literals *)
  | Op.Constant => row [(Kind.Const, "")] (fun _ => takes 0 1)
  | Op.Unit => row [] (takes 0 1)
  | Op.True_ => row [] (takes 0 1)
  | Op.False_ => row [] (takes 0 1)
  (* Arithmetic *)
  | Op.Add => row [] (takes 2 1)
  | Op.Sub => row [] (takes 2 1)
  | Op.Mul => row [] (takes 2 1)
  | Op.Div => row [] (takes 2 1)
  | Op.Mod => row [] (takes 2 1)
  | Op.AddConst => row [(Kind.Int, "")] (fun _ => takes 1 1)
  | Op.SubConst => row [(Kind.Int, "")] (fun _ => takes 1 1)
  (* Comparison *)
  | Op.Eq => row [] (takes 2 1)
  | Op.Neq => row [] (takes 2 1)
  | Op.Lt => row [] (takes 2 1)
  | Op.Gt => row [] (takes 2 1)
  | Op.Leq => row [] (takes 2 1)
  | Op.Geq => row [] (takes 2 1)
  (* Unary *)
  | Op.Negate => row [] (takes 1 1)
  | Op.Not => row [] (takes 1 1)
  (* String interpolation *)
  | Op.Interpolate => row [(Kind.Segments, "segments of a string interpolation")]
      (fun segments => takes segments 1)
  | Op.DisplayValue => row [] (takes 1 1)
  (* Variables *)
  | Op.GetLocal => row [(Kind.Slot, "")] (fun _ => takes 0 1)
  | Op.SetLocal => row [(Kind.Slot, "")] (fun _ => takes 1 1)
  | Op.GetGlobal => row [(Kind.Global, "")] (fun _ => takes 0 1)
  | Op.SetGlobal => row [(Kind.Global, "")] (fun _ => takes 1 1)
  (* Upvalues (closures) *)
  | Op.GetUpvalue => row [(Kind.Upvalue, "values a closure captures")] (fun _ => takes 0 1)
  | Op.GetClosure => row [] (takes 0 1)
  (* Function calls *)
  | Op.Call => row [(Kind.U8, "arguments of a call")] (fun argc => takes (argc + 1) 1)
  | Op.TailCall => row [(Kind.U8, "arguments of a call")] (fun argc => takes (argc + 1) 1)
  | Op.TailCallKeep => row [(Kind.U8, "arguments of a call"); (Kind.U8, "arguments of a call")]
      (fun argc _ => takes (argc + 1) 1)
  | Op.Return => row [] (ends (takes 1 0))
  | Op.CallBuiltin => row [(Kind.Builtin, ""); (Kind.U8, "arguments of a call")]
      (fun _ argc => takes argc 1)
  (* Closures *)
  | Op.MakeClosure => row [(Kind.Func, ""); (Kind.Captures, "values a closure captures")]
      (fun _ _ => takes 0 1)
  (* Data constructors *)
  | Op.MakeTuple => row [(Kind.U8, "elements of a tuple")] (fun count => takes count 1)
  | Op.MakeList => row [(Kind.U16, "elements of a list literal")] (fun count => takes count 1)
  | Op.MakeMap => row [(Kind.U16, "entries of a map literal")]
      (fun pairs => takes (pairs * 2) 1)
  | Op.MakeSet => row [(Kind.U16, "elements of a set literal")] (fun count => takes count 1)
  | Op.MakeRecord => row [(Kind.Type_, ""); (Kind.Strs, "fields of a record")]
      (fun _ fields => takes fields 1)
  | Op.MakeType => row [(Kind.Type_, ""); (Kind.U8, "arguments of a type")]
      (fun _ count => takes count 1)
  | Op.RecordUpdate => row [(Kind.Strs, "fields of a record update")]
      (fun fields => takes (fields + 1) 1)
  | Op.MakeRange => row [] (takes 2 1)
  | Op.ListConcat => row [] (takes 2 1)
  (* Field access *)
  | Op.GetField => row [(Kind.U16, "fields of a record")] (fun _ => takes 1 1)
  | Op.GetFieldNamed => row [(Kind.Str, "")] (fun _ => takes 1 1)
  (* Control flow *)
  | Op.Jump => row [(Kind.Rel, "")] (fun _ => jumps (takes 0 0))
  | Op.JumpIfFalse => row [(Kind.Fwd, "")] (fun _ => branches (takes 1 0))
  | Op.JumpIfTrue => row [(Kind.Fwd, "")] (fun _ => branches (takes 1 0))
  | Op.JumpIfNotLt => row [(Kind.Fwd, "")] (fun _ => branches (takes 2 0))
  | Op.JumpIfNotGt => row [(Kind.Fwd, "")] (fun _ => branches (takes 2 0))
  | Op.JumpIfNotLeq => row [(Kind.Fwd, "")] (fun _ => branches (takes 2 0))
  | Op.JumpIfNotGeq => row [(Kind.Fwd, "")] (fun _ => branches (takes 2 0))
  | Op.JumpIfNotEq => row [(Kind.Fwd, "")] (fun _ => branches (takes 2 0))
  | Op.JumpIfNotNeq => row [(Kind.Fwd, "")] (fun _ => branches (takes 2 0))
  | Op.Pop => row [] (takes 1 0)
  | Op.Dup => row [] (takes 1 2)
  (* Pattern matching *)
  | Op.TestTag => row [(Kind.Tag, "")] (fun _ => takes 1 2)
  | Op.TestEqual => row [(Kind.Const, "")] (fun _ => takes 1 2)
  | Op.TestTupleLen => row [(Kind.U8, "elements of a tuple pattern")] (fun _ => takes 1 2)
  | Op.TestListMin => row [(Kind.U8, "elements of a list pattern")] (fun _ => takes 1 2)
  | Op.TestListExact => row [(Kind.U8, "elements of a list pattern")] (fun _ => takes 1 2)
  | Op.TestIntRange => row [(Kind.Int, ""); (Kind.Int, "")] (fun _ _ => takes 1 2)
  | Op.TestFloatRange => row [(Kind.Float, ""); (Kind.Float, "")] (fun _ _ => takes 1 2)
  | Op.DestructTuple => row [(Kind.U8, "elements of a tuple pattern")] (fun _ => takes 1 2)
  | Op.DestructVariant => row [(Kind.U8, "fields of a variant pattern")] (fun _ => takes 1 2)
  | Op.DestructList => row [(Kind.U8, "elements of a list pattern")] (fun _ => takes 1 2)
  | Op.DestructListRest => row [(Kind.U8, "elements of a list pattern")] (fun _ => takes 1 2)
  | Op.DestructRecordField => row [(Kind.U16, "fields of a record")] (fun _ => takes 1 2)
  | Op.DestructRecordFieldNamed => row [(Kind.Str, "")] (fun _ => takes 1 2)
  | Op.DestructRecordRest => row [(Kind.Strs, "fields of an anonymous record pattern")]
      (fun _ => takes 1 1)
  | Op.TestRecordTag => row [(Kind.Type_, "")] (fun _ => takes 1 2)
  | Op.TestMapHasKey => row [(Kind.Str, "")] (fun _ => takes 1 2)
  | Op.DestructMapValue => row [(Kind.Str, "")] (fun _ => takes 1 2)
  (* Loop *)
  | Op.Recur => row [(Kind.Byte, "bindings of a loop"); (Kind.Cut, ""); (Kind.Rel, "")]
      (fun argc first _ => jumps (cuts argc first argc))
  (* Error handling *)
  | Op.QuestionMark => row [] (takes 1 1)
  | Op.Panic => row [] (ends (takes 1 0))
  | Op.CallMethod => row [(Kind.Method, "");
      (Kind.U8, "arguments of a method call, the receiver included");
      (Kind.Trait, "");
      (Kind.U8, "the argument a method call finds its method by")]
      (fun _ argc _ _ => takes argc 1)
  | Op.TailCallMethod => row [(Kind.Method, "");
      (Kind.U8, "arguments of a method call, the receiver included");
      (Kind.Trait, "");
      (Kind.U8, "the argument a method call finds its method by")]
      (fun _ argc _ _ => takes argc 1)
  (* Dictionaries (super::dict) *)
  | Op.MakeDict => row [(Kind.Const, ""); (Kind.U8, "predicates of an impl's header")]
      (fun _ n => takes n 1)
  | Op.CallDict => row [(Kind.U16, "methods of a trait");
      (Kind.U8, "arguments of a method call, its dictionaries included");
      (Kind.Byte, "the argument a method call finds its method by")]
      (fun _ argc _ => takes (argc + 1) 1)
  | Op.TailCallDict => row [(Kind.U16, "methods of a trait");
      (Kind.U8, "arguments of a method call, its dictionaries included");
      (Kind.Byte, "the argument a method call finds its method by")]
      (fun _ argc _ => takes (argc + 1) 1)
  | Op.CallChecked => row [(Kind.U8, "arguments of a method call, its dictionaries included");
      (Kind.Byte, "the argument a method call finds its method by");
      (Kind.U16, "impls of a program's traits")]
      (fun argc _ _ => takes (argc + 1) 1)
  | Op.TailCallChecked => row [(Kind.U8, "arguments of a method call, its dictionaries included");
      (Kind.Byte, "the argument a method call finds its method by");
      (Kind.U16, "impls of a program's traits")]
      (fun argc _ _ => takes (argc + 1) 1)
  | Op.FrameDict => row [] (takes 0 1)
  | Op.DictMethod => row [(Kind.U16, "methods of a trait"); (Kind.Trait, "")]
      (fun _ _ => takes 1 2)
  | Op.DictSub => row [(Kind.U8, "predicates of an impl's header")] (fun _ => takes 1 1)
  | Op.SuperDict => row [(Kind.U8, "supertraits of a trait")] (fun _ => takes 1 1)
  | Op.WhereDict => row [(Kind.U8, "where clauses of a trait's parameters")]
      (fun _ => takes 1 1)
  | Op.DictType => row [] (takes 1 1)
  | Op.TypeArg => row [(Kind.U8, "type parameters of a type")] (fun _ => takes 1 1)
  | Op.Bind => row [(Kind.U8, "dictionaries of a definition")] (fun n => takes (n + 1) 1)
  | Op.Slide => row [(Kind.Cut, "")] (fun slot => cuts 1 slot 1)
  end.

(** ** Operands *)

(** A list operand of a decoded instruction: where its items are in the
    code. *)
Record Operands := mkOperands { o_at : N; o_count : N }.

(** The segments of an interpolation, with the count of those that are
    values as the instruction says it. *)
Record Segments := mkSegments { s_at : N; s_count : N; s_values : N }.

(** The type of an operand of the kind in [Asm]. *)
Definition asm_ty (k : Kind) : Type :=
  match k with
  | Kind.U8 | Kind.Byte | Kind.U16 | Kind.Slot | Kind.Cut | Kind.Upvalue => N
  | Kind.Global | Kind.Trait | Kind.Method => N
  | Kind.Builtin => BuiltinId
  | Kind.Const | Kind.Str | Kind.Tag | Kind.Type_ | Kind.Func | Kind.Int | Kind.Float => Const
  | Kind.Fwd | Kind.Rel => Label
  | Kind.Strs => list Const
  | Kind.Captures => list UpvalueDesc
  | Kind.Segments => list Segment
  end.

(** The type of an operand of the kind in [Instr]: a jump's is the offset it
    goes to. *)
Definition instr_ty (k : Kind) : Type :=
  match k with
  | Kind.U8 | Kind.Byte | Kind.U16 | Kind.Slot | Kind.Cut | Kind.Upvalue => N
  | Kind.Global | Kind.Trait | Kind.Method => N
  | Kind.Builtin => BuiltinId
  | Kind.Const | Kind.Str | Kind.Tag | Kind.Type_ | Kind.Func | Kind.Int | Kind.Float => Const
  | Kind.Fwd | Kind.Rel => N
  | Kind.Strs | Kind.Captures => Operands
  | Kind.Segments => Segments
  end.

(** The operands of a row, one value each. *)
Fixpoint args (ty : Kind → Type) (fs : list Field) : Type :=
  match fs with [] => unit | f :: fs => ty f.1 * args ty fs end.

Record Asm := mkAsm { asm_op : Op; asm_args : args asm_ty (fields (table asm_op)) }.
Record Instr := mkInstr { instr_op : Op; instr_args : args instr_ty (fields (table instr_op)) }.

(** The segments that are values, of the segments the compiler hands the
    emitter. *)
Definition values (l : list Segment) : N :=
  N.of_nat (length (List.filter (λ s, match s with SValue => true | Literal _ => false end) l)).

(** What the expressions of a row read of an operand. *)
Definition asm_count (k : Kind) : asm_ty k → N :=
  match k return asm_ty k → N with
  | Kind.Strs | Kind.Captures => λ l, N.of_nat (length l)
  | Kind.Segments => values
  | _ => λ v, v
  end.

Definition instr_count (k : Kind) : instr_ty k → N :=
  match k return instr_ty k → N with
  | Kind.Strs | Kind.Captures => o_count
  | Kind.Segments => s_values
  | _ => λ v, v
  end.

Fixpoint applied {T} (ty : Kind → Type) (count : ∀ k, ty k → N) (fs : list Field) :
    over fs T → args ty fs → T :=
  match fs return over fs T → args ty fs → T with
  | [] => λ e _, e
  | f :: fs => λ e '(v, vs), applied ty count fs (e (count f.1 v)) vs
  end.

(** What the instruction does to the frame: the row says it once for both. *)
Definition asm_effect (a : Asm) : Effect :=
  applied asm_ty asm_count _ (effect_over (table (asm_op a))) (asm_args a).
Definition effect (i : Instr) : Effect :=
  applied instr_ty instr_count _ (effect_over (table (instr_op i))) (instr_args i).

(** ** Limits *)

Record Limit := mkLimit { what : string; count : N; max : N }.

Definition FRAME_VALUES : string :=
  "values in the frame of a function (its local bindings plus the values of the expression being evaluated)".

Definition narrow_u8 (count : N) (what : string) : Result Limit byte :=
  match Byte.of_N count with
  | Some b => Ok b
  | None => Err (mkLimit what count 255)
  end.

Definition narrow_u16 (count : N) (what : string) : Result Limit N :=
  if count <=? 65535 then Ok count else Err (mkLimit what count 65535).

Definition slot_u16 (slot : N) : Result Limit N :=
  if slot <=? 65535 then Ok slot else Err (mkLimit FRAME_VALUES (slot + 1) (65535 + 1)).

(** ** The encoder *)

(** What an encoder writes to: the emitter, which knows where labels are. *)
Class Writer (W : Type) := {
  w_u8 : byte → W → W;
  w_fwd : Label → W → W;
  w_rel : Label → W → W * Result Limit unit;
}.

(** A step that writes to a [W] and may meet a limit: what was written before
    it stays. *)
Definition Write (W A : Type) : Type := W → W * Result Limit A.
#[export] Instance write_ret W : MRet (Write W) := λ A x w, (w, Ok x).
#[export] Instance write_bind W : MBind (Write W) := λ A B f m w,
  match m w with
  | (w', Ok x) => f x w'
  | (w', Err l) => (w', Err l)
  end.
(** [?] on a result. *)
Definition tried {W A} (r : Result Limit A) : Write W A := λ w, (w, r).

(** The byte [n] is: the cast of a number below 256. *)
Definition byte_at (n : N) : byte := default x00 (Byte.of_N (n mod 256)).

(** The bytes of numbers, little-endian: [u16::to_le_bytes] and
    [i32::to_le_bytes] (two's complement). *)
Definition u16_le (v : N) : list byte := [byte_at v; byte_at (v / 256)].
Definition i32_le (d : Z) : list byte :=
  let u := Z.to_N (d mod 2 ^ 32) in
  [byte_at u; byte_at (u / 256); byte_at (u / 65536); byte_at (u / 16777216)].

Section Encode.
Context {W : Type} `{!Writer W}.

Definition put_u8 (b : byte) : Write W unit := λ w, (w_u8 b w, Ok tt).
(** Little-endian. *)
Definition put_u16 (v : N) : Write W unit := λ w,
  (w_u8 (byte_at (v / 256)) (w_u8 (byte_at v) w), Ok tt).
Definition put_fwd (to : Label) : Write W unit := λ w, (w_fwd to w, Ok tt).

Fixpoint for_each {A} (f : A → Write W unit) (l : list A) : Write W unit :=
  match l with [] => mret tt | x :: l => _ ← f x; for_each f l end.

Definition CAPTURED_LOCAL : string :=
  "values in the frame below a local that a closure captures".

(** Write the operand [v] of the kind. *)
Definition encode_operand (k : Kind) (what : string) : asm_ty k → Write W unit :=
  match k return asm_ty k → Write W unit with
  | Kind.U8 | Kind.Byte | Kind.Upvalue => λ v, b ← tried (narrow_u8 v what); put_u8 b
  | Kind.U16 => λ v, n ← tried (narrow_u16 v what); put_u16 n
  | Kind.Slot | Kind.Cut => λ v, n ← tried (slot_u16 v); put_u16 n
  | Kind.Global | Kind.Trait | Kind.Method | Kind.Builtin
  | Kind.Const | Kind.Str | Kind.Tag | Kind.Type_ | Kind.Func | Kind.Int | Kind.Float => put_u16
  | Kind.Fwd => put_fwd
  | Kind.Rel => w_rel
  | Kind.Strs => λ l,
      b ← tried (narrow_u8 (N.of_nat (length l)) what);
      _ ← put_u8 b;
      for_each put_u16 l
  | Kind.Captures => λ l,
      b ← tried (narrow_u8 (N.of_nat (length l)) what);
      _ ← put_u8 b;
      for_each (λ c,
        _ ← put_u8 (if is_local c then x01 else x00);
        i ← tried (narrow_u8 (index c) (if is_local c then CAPTURED_LOCAL else what));
        put_u8 i) l
  | Kind.Segments => λ l,
      b ← tried (narrow_u8 (N.of_nat (length l)) what);
      _ ← put_u8 b;
      n ← tried (narrow_u8 (values l) what);
      _ ← put_u8 n;
      for_each (λ s, match s with
        | SValue => _ ← put_u8 x00; put_u16 0
        | Literal k => _ ← put_u8 x01; put_u16 k
        end) l
  end.

Fixpoint encode_args (fs : list Field) : args asm_ty fs → Write W unit :=
  match fs return args asm_ty fs → Write W unit with
  | [] => λ _, mret tt
  | (k, what) :: fs => λ '(v, vs), _ ← encode_operand k what v; encode_args fs vs
  end.

(** Write the instruction: its opcode, then its operands, each narrowed to its
    encoded width. *)
Definition encode (a : Asm) : Write W unit :=
  _ ← put_u8 (byte_at (Op.byte_of (asm_op a)));
  encode_args _ (asm_args a).

End Encode.

(** ** The decoder *)

(** An item of a list operand: [SIZE] bytes of the code. *)
Class Packed (T : Type) := { SIZE : nat; unpack : list byte → T }.
Arguments SIZE T {_}.

Definition byte_in (bytes : list byte) (i : nat) : N := Byte.to_N (default x00 (bytes !! i)).
Definition le_u16 (lo hi : N) : N := lo + 256 * hi.

#[export] Instance packed_const : Packed Const :=
  { SIZE := 2; unpack bytes := le_u16 (byte_in bytes 0) (byte_in bytes 1) }.
#[export] Instance packed_upvalue : Packed UpvalueDesc :=
  { SIZE := 2; unpack bytes := mkUpvalueDesc (negb (byte_in bytes 0 =? 0)) (byte_in bytes 1) }.
#[export] Instance packed_segment : Packed Segment :=
  { SIZE := 3; unpack bytes :=
      if negb (byte_in bytes 0 =? 0)
      then Literal (le_u16 (byte_in bytes 1) (byte_in bytes 2)) else SValue }.

Fixpoint chunks {T} `{!Packed T} (n : nat) (bytes : list byte) : list T :=
  match n with
  | O => []
  | S n => unpack (take (SIZE T) bytes) :: chunks n (drop (SIZE T) bytes)
  end.

(** The items, read from the code the instruction was decoded from. *)
Definition iter {T} `{!Packed T} (o : Operands) (code : list byte) : list T :=
  chunks (N.to_nat (o_count o)) (drop (N.to_nat (o_at o)) code).
Definition segments_iter (s : Segments) (code : list byte) : list Segment :=
  iter (mkOperands (s_at s) (s_count s)) code.

(** The decoder's place in the code.  Every read is checked: it gives the
    value and the place after it. *)
Section Decode.
Variable code : list byte.

Definition read_u8 (at_ : N) : option (N * N) :=
  b ← code !! N.to_nat at_; Some (Byte.to_N b, at_ + 1).

Definition read_u16 (at_ : N) : option (N * N) :=
  lo ← code !! N.to_nat at_; hi ← code !! N.to_nat (at_ + 1);
  Some (le_u16 (Byte.to_N lo) (Byte.to_N hi), at_ + 2).

Definition read_fwd (at_ : N) : option (N * N) :=
  '(distance, at_) ← read_u16 at_; Some (at_ + distance, at_).

(** Two's complement of four bytes, little-endian. *)
Definition le_i32 (a b c d : N) : Z :=
  let u := Z.of_N (a + 256 * (b + 256 * (c + 256 * d))) in
  if (u <? 2 ^ 31)%Z then u else (u - 2 ^ 32)%Z.

Definition read_rel (at_ : N) : option (N * N) :=
  a ← code !! N.to_nat at_; b ← code !! N.to_nat (at_ + 1);
  c ← code !! N.to_nat (at_ + 2); d ← code !! N.to_nat (at_ + 3);
  let at_ := at_ + 4 in
  let target := (Z.of_N at_ + le_i32 (Byte.to_N a) (Byte.to_N b) (Byte.to_N c) (Byte.to_N d))%Z in
  if (0 <=? target)%Z then Some (Z.to_N target, at_) else None.

Definition read_items (T : Type) `{!Packed T} (count at_ : N) : option (Operands * N) :=
  let after := at_ + count * N.of_nat (SIZE T) in
  if after <=? N.of_nat (length code) then Some (mkOperands at_ count, after) else None.

Definition read_list (T : Type) `{!Packed T} (at_ : N) : option (Operands * N) :=
  '(count, at_) ← read_u8 at_; read_items T count at_.

Definition read_segments (at_ : N) : option (Segments * N) :=
  '(count, at_) ← read_u8 at_;
  '(values, at_) ← read_u8 at_;
  '(list_, at_) ← read_items Segment count at_;
  Some (mkSegments (o_at list_) count values, at_).

(** Read an operand of the kind. *)
Definition decode_operand (k : Kind) : N → option (instr_ty k * N) :=
  match k return N → option (instr_ty k * N) with
  | Kind.U8 | Kind.Byte | Kind.Upvalue => read_u8
  | Kind.U16 | Kind.Slot | Kind.Cut => read_u16
  | Kind.Global | Kind.Trait | Kind.Method | Kind.Builtin
  | Kind.Const | Kind.Str | Kind.Tag | Kind.Type_ | Kind.Func | Kind.Int | Kind.Float => read_u16
  | Kind.Fwd => read_fwd
  | Kind.Rel => read_rel
  | Kind.Strs => read_list Const
  | Kind.Captures => read_list UpvalueDesc
  | Kind.Segments => read_segments
  end.

Fixpoint decode_args (fs : list Field) : N → option (args instr_ty fs * N) :=
  match fs return N → option (args instr_ty fs * N) with
  | [] => λ at_, Some (tt, at_)
  | (k, _) :: fs => λ at_,
      '(v, at_) ← decode_operand k at_;
      '(vs, at_) ← decode_args fs at_;
      Some ((v, vs), at_)
  end.

(** The instruction encoded at [at_] and the offset of the one after it;
    [None] when no instruction is encoded there (an unknown opcode, operands
    past the end of the code). *)
Definition decode (at_ : N) : option (Instr * N) :=
  b ← code !! N.to_nat at_;
  op ← List.find (λ op, Byte.eqb (byte_at (Op.byte_of op)) b) Op.ALL;
  '(vs, at_) ← decode_args _ (at_ + 1);
  Some (mkInstr op vs, at_).

End Decode.

(** ** The operands the verifier checks *)

Inductive Operand :=
  | Plain
  | OSlot (slot : N)
  | OUpvalue (index : N)
  | OConst (k : Const) (kind : ConstKind)
  | OBuiltin (id : BuiltinId)
  | OTarget (at_ : N)
  | OStrs (names : Operands)
  | OCaptures (captures : Operands)
  | OSegments (segments : Segments).

Definition checked_operand (k : Kind) : instr_ty k → Operand :=
  match k return instr_ty k → Operand with
  | Kind.U8 | Kind.Byte | Kind.U16 | Kind.Cut | Kind.Global | Kind.Trait | Kind.Method =>
      λ _, Plain
  | Kind.Slot => OSlot
  | Kind.Upvalue => OUpvalue
  | Kind.Builtin => OBuiltin
  | Kind.Const => λ k, OConst k CAny
  | Kind.Str => λ k, OConst k CStr
  | Kind.Tag => λ k, OConst k CTag
  | Kind.Type_ => λ k, OConst k CType
  | Kind.Func => λ k, OConst k CFunc
  | Kind.Int => λ k, OConst k CInt
  | Kind.Float => λ k, OConst k CFloat
  | Kind.Fwd | Kind.Rel => OTarget
  | Kind.Strs => OStrs
  | Kind.Captures => OCaptures
  | Kind.Segments => OSegments
  end.

Fixpoint checked_args (fs : list Field) : args instr_ty fs → list Operand :=
  match fs return args instr_ty fs → list Operand with
  | [] => λ _, []
  | f :: fs => λ '(v, vs), checked_operand f.1 v :: checked_args fs vs
  end.

(** The operands with their kinds, in the order they are handed to the
    check. *)
Definition operands (i : Instr) : list Operand := checked_args _ (instr_args i).
