(* ===== verification/OpsFacts.v ===== *)
(** * Facts about the instruction table

    Opcodes and their bytes, the bytes of numbers, and what the encoder
    writes as pieces: bytes, and the places of the two kinds of jump operands,
    whose bytes are known when their labels are placed.  [layout] is the code
    the pieces are for given places of the labels; [decode_pieces] reads an
    instruction back from it. *)

From S2P Require Import Prelude Ops.
From Stdlib Require Import NArith ZifyBool ZifyN Strings.Byte.

Open Scope N_scope.

(** ** Bytes *)

Lemma byte_at_to_N n : Byte.to_N (byte_at n) = n mod 256.
Proof.
  unfold byte_at. destruct (Byte.of_N (n mod 256)) as [b|] eqn:E; simpl.
  - by apply Byte.to_of_N.
  - apply Byte.of_N_None_iff in E.
    pose proof (N.mod_upper_bound n 256). lia.
Qed.

Lemma byte_at_small n : n < 256 → Byte.to_N (byte_at n) = n.
Proof. intros. rewrite byte_at_to_N. by apply N.mod_small. Qed.

Lemma byte_at_of_N n b : Byte.of_N n = Some b → byte_at n = b.
Proof.
  intros E. unfold byte_at. apply Byte.to_of_N in E as En.
  pose proof (Byte.to_N_bounded b). rewrite N.mod_small by lia. by rewrite E.
Qed.

Lemma of_N_small n : n <= 255 → Byte.of_N n = Some (byte_at n).
Proof.
  intros. destruct (Byte.of_N n) as [b|] eqn:E.
  - by rewrite (byte_at_of_N n b E).
  - apply Byte.of_N_None_iff in E. lia.
Qed.

Lemma of_N_large n : 255 < n → Byte.of_N n = None.
Proof. intros. apply Byte.of_N_None_iff. lia. Qed.

Lemma u16_bytes n :
  n < 65536 → le_u16 (Byte.to_N (byte_at n)) (Byte.to_N (byte_at (n / 256))) = n.
Proof.
  intros. rewrite !byte_at_to_N. unfold le_u16.
  assert (n / 256 < 256) by (apply N.Div0.div_lt_upper_bound; lia).
  rewrite (N.mod_small (n / 256)) by done. pose proof (N.div_mod n 256). lia.
Qed.

(** ** Opcodes *)

Lemma op_byte_small op : Op.byte_of op < 91.
Proof. by destruct op. Qed.

Lemma op_all_byte op : Op.ALL !! N.to_nat (Op.byte_of op) = Some op.
Proof. by destruct op. Qed.

#[export] Instance op_eq_dec : EqDecision Op.
Proof.
  refine (λ a b, match decide (Op.byte_of a = Op.byte_of b) with
                 | left E => left _ | right E => right _ end).
  - assert (Some a = Some b) as ?; [|congruence]. by rewrite <- !op_all_byte, E.
  - congruence.
Defined.

Lemma all_bytes k op : Op.ALL !! k = Some op → k = N.to_nat (Op.byte_of op).
Proof.
  intros Hk. assert (NoDup Op.ALL) as Hnd by (by apply (bool_decide_unpack _); vm_compute).
  apply (NoDup_lookup Op.ALL k _ op Hnd Hk), op_all_byte.
Qed.

Lemma from_byte_Some b op :
  Op.from_byte b = Some op ↔ b = byte_at (Op.byte_of op).
Proof.
  unfold Op.from_byte. pose proof (op_byte_small op). split.
  - intros Hb%all_bytes.
    assert (Byte.to_N b = Op.byte_of op) as E by lia. rewrite <- E.
    by apply eq_sym, byte_at_of_N, Byte.of_to_N.
  - intros ->. rewrite byte_at_small by lia. apply op_all_byte.
Qed.

Lemma from_byte_None b : Op.from_byte b = None ↔ 91 <= Byte.to_N b.
Proof. unfold Op.from_byte. rewrite lookup_ge_None. change (length Op.ALL) with 91%nat. lia. Qed.

(** The decoder's choice of opcode is [from_byte]. *)
Lemma find_from_byte b :
  List.find (λ op, Byte.eqb (byte_at (Op.byte_of op)) b) Op.ALL = Op.from_byte b.
Proof.
  destruct (List.find _ _) as [op|] eqn:E.
  - apply find_some in E as [_ E%Byte.byte_dec_bl]. symmetry. by apply from_byte_Some.
  - destruct (Op.from_byte b) as [op|] eqn:Eb; [|done].
    apply from_byte_Some in Eb.
    assert (In op Op.ALL) as Hin by (apply list_elem_of_In; eapply list_elem_of_lookup_2, op_all_byte).
    pose proof (find_none _ _ E op Hin) as Hn. simpl in Hn. rewrite <- Eb in Hn.
    by rewrite Byte.byte_dec_lb in Hn.
Qed.

(** ** Pieces of code *)

Inductive Piece := PByte (b : byte) | PFwd (to : Label) | PRel (to : Label).

#[export] Instance pieces_writer : Writer (list Piece) := {
  w_u8 b ps := ps ++ [PByte b];
  w_fwd to ps := ps ++ [PFwd to];
  w_rel to ps := (ps ++ [PRel to], Ok tt);
}.

Definition u16_pieces (v : N) : list Piece := [PByte (byte_at v); PByte (byte_at (v / 256))].

Definition capture_pieces (c : UpvalueDesc) : list Piece :=
  [PByte (if is_local c then x01 else x00); PByte (byte_at (index c))].

Definition segment_pieces (s : Segment) : list Piece :=
  match s with
  | SValue => PByte x00 :: u16_pieces 0
  | Literal k => PByte x01 :: u16_pieces k
  end.

(** What an operand is written as. *)
Definition operand_pieces (k : Kind) : asm_ty k → list Piece :=
  match k return asm_ty k → list Piece with
  | Kind.U8 | Kind.Byte | Kind.Upvalue => λ v, [PByte (byte_at v)]
  | Kind.U16 | Kind.Slot | Kind.Cut | Kind.Global | Kind.Trait | Kind.Method | Kind.Builtin
  | Kind.Const | Kind.Str | Kind.Tag | Kind.Type_ | Kind.Func | Kind.Int | Kind.Float => u16_pieces
  | Kind.Fwd => λ to, [PFwd to]
  | Kind.Rel => λ to, [PRel to]
  | Kind.Strs => λ l, PByte (byte_at (N.of_nat (length l))) :: concat (u16_pieces <$> l)
  | Kind.Captures => λ l, PByte (byte_at (N.of_nat (length l))) :: concat (capture_pieces <$> l)
  | Kind.Segments => λ l,
      PByte (byte_at (N.of_nat (length l))) :: PByte (byte_at (values l)) :: concat (segment_pieces <$> l)
  end.

Fixpoint args_pieces (fs : list Field) : args asm_ty fs → list Piece :=
  match fs return args asm_ty fs → list Piece with
  | [] => λ _, []
  | f :: fs => λ '(v, vs), operand_pieces f.1 v ++ args_pieces fs vs
  end.

Definition asm_pieces (a : Asm) : list Piece :=
  PByte (byte_at (Op.byte_of (asm_op a))) :: args_pieces _ (asm_args a).

(** The limit an operand does not keep, if it does not fit its encoding. *)
Definition past (n : N) (what : string) (count max : N) : option Limit :=
  if max <? n then Some (mkLimit what count max) else None.

Definition past_u8 (n : N) (what : string) : option Limit := past n what n 255.

Fixpoint past_captures (what : string) (l : list UpvalueDesc) : option Limit :=
  match l with
  | [] => None
  | c :: l =>
      match past_u8 (index c) (if is_local c then CAPTURED_LOCAL else what) with
      | Some lim => Some lim
      | None => past_captures what l
      end
  end.

Definition misfit (k : Kind) (what : string) : asm_ty k → option Limit :=
  match k return asm_ty k → option Limit with
  | Kind.U8 | Kind.Byte | Kind.Upvalue => λ v, past_u8 v what
  | Kind.U16 => λ v, past v what v 65535
  | Kind.Slot | Kind.Cut => λ v,
      if 65535 <? v then Some (mkLimit FRAME_VALUES (v + 1) 65536) else None
  | Kind.Strs => λ l, past_u8 (N.of_nat (length l)) what
  | Kind.Captures => λ l,
      match past_u8 (N.of_nat (length l)) what with
      | Some lim => Some lim
      | None => past_captures what l
      end
  | Kind.Segments => λ l, past_u8 (N.of_nat (length l)) what
  | _ => λ _, None
  end.

Fixpoint args_misfit (fs : list Field) : args asm_ty fs → option Limit :=
  match fs return args asm_ty fs → option Limit with
  | [] => λ _, None
  | f :: fs => λ '(v, vs),
      match misfit f.1 f.2 v with Some lim => Some lim | None => args_misfit fs vs end
  end.

Definition asm_misfit (a : Asm) : option Limit := args_misfit _ (asm_args a).

(** ** What the encoder writes, for any writer *)

Section AnyWriter.
Context {W : Type} `{!Writer W}.

Definition put_piece (p : Piece) : Write W unit :=
  match p with PByte b => put_u8 b | PFwd to => put_fwd to | PRel to => w_rel to end.

(** Write the pieces, up to the first that meets a limit. *)
Definition put_pieces : list Piece → Write W unit := for_each put_piece.

Lemma bind_assoc {A B C} (m : Write W A) (f : A → Write W B) (g : B → Write W C) w :
  ((m ≫= f) ≫= g) w = (m ≫= λ x, f x ≫= g) w.
Proof. unfold mbind, write_bind. by destruct (m w) as [w' []]. Qed.

Lemma bind_ext {A B} (m m' : Write W A) (f f' : A → Write W B) w :
  m w = m' w → (∀ x w, f x w = f' x w) → (m ≫= f) w = (m' ≫= f') w.
Proof. unfold mbind, write_bind. intros -> Hf. destruct (m' w) as [w' []]; auto. Qed.

Lemma put_pieces_app ps qs w :
  put_pieces (ps ++ qs) w = (put_pieces ps ≫= λ _, put_pieces qs) w.
Proof.
  revert w. induction ps as [|p ps IH]; intros w; [done|].
  change (put_pieces ((p :: ps) ++ qs)) with (put_piece p ≫= λ _, put_pieces (ps ++ qs)).
  change (put_pieces (p :: ps)) with (put_piece p ≫= λ _, put_pieces ps).
  rewrite bind_assoc. apply bind_ext; auto.
Qed.

Lemma put_pieces_one p w : put_pieces [p] w = put_piece p w.
Proof.
  cbn. unfold mbind, write_bind. by destruct (put_piece p w) as [w' [[]|]].
Qed.

Lemma put_pieces_u16 v w : put_pieces (u16_pieces v) w = put_u16 v w.
Proof. done. Qed.

Lemma put_pieces_each {A} (f : A → Write W unit) (g : A → list Piece) l w :
  Forall (λ x, ∀ w, f x w = put_pieces (g x) w) l →
  for_each f l w = put_pieces (concat (g <$> l)) w.
Proof.
  intros H. revert w. induction H as [|x l Hx _ IH]; intros w; [done|].
  change (concat (g <$> x :: l)) with (g x ++ concat (g <$> l)).
  rewrite put_pieces_app. by apply bind_ext.
Qed.

Lemma narrow_u8_fits n what : past_u8 n what = None → narrow_u8 n what = Ok (byte_at n).
Proof.
  unfold past_u8, past, narrow_u8. case_match eqn:E; [done|intros _].
  apply N.ltb_ge in E. by rewrite of_N_small.
Qed.

Lemma narrow_u8_past n what lim : past_u8 n what = Some lim → narrow_u8 n what = Err lim.
Proof.
  unfold past_u8, past, narrow_u8. case_match eqn:E; [|done]. intros [= <-].
  apply N.ltb_lt in E. by rewrite of_N_large.
Qed.

Lemma narrow_u16_fits n what : past n what n 65535 = None → narrow_u16 n what = Ok n.
Proof. unfold past, narrow_u16. repeat case_match; intros; try done; lia. Qed.

Lemma narrow_u16_past n what lim : past n what n 65535 = Some lim → narrow_u16 n what = Err lim.
Proof. unfold past, narrow_u16. repeat case_match; intros; simplify_eq; try done; lia. Qed.

Lemma past_captures_None what l :
  past_captures what l = None →
  Forall (λ c, past_u8 (index c) (if is_local c then CAPTURED_LOCAL else what) = None) l.
Proof. induction l as [|c l IH]; simpl; [by constructor|]. case_match; [done|]. by constructor; auto. Qed.

Lemma values_le l : values l <= N.of_nat (length l).
Proof.
  unfold values. induction l as [|s l IH]; [done|].
  cbn [List.filter]. destruct s; cbn [length]; lia.
Qed.

Lemma past_u8_mono n m what what' : m <= n → past_u8 n what = None → past_u8 m what' = None.
Proof. unfold past_u8, past. intros. repeat case_match; intros; try done; lia. Qed.

Lemma encode_operand_fits k what (v : asm_ty k) w :
  misfit k what v = None →
  encode_operand k what v w = put_pieces (operand_pieces k v) w.
Proof.
  destruct k; cbn [misfit operand_pieces encode_operand asm_ty] in *;
    try done; try (by intros E; rewrite (narrow_u8_fits _ _ E));
    try (by intros E; rewrite (narrow_u16_fits _ _ E)).
  - unfold slot_u16. repeat case_match; intros; try done; lia.
  - unfold slot_u16. repeat case_match; intros; try done; lia.
  - intros _. by rewrite put_pieces_one.
  - intros E. rewrite (narrow_u8_fits _ _ E). change (?a :: ?l) with ([a] ++ l).
    rewrite put_pieces_app. apply (bind_ext (A:=unit)); [done|]. intros _ w'.
    apply put_pieces_each, Forall_true. intros x w''. by rewrite put_pieces_u16.
  - destruct (past_u8 _ _) eqn:E1; [done|]. intros E2%past_captures_None.
    rewrite (narrow_u8_fits _ _ E1). change (?a :: ?l) with ([a] ++ l).
    rewrite put_pieces_app. apply (bind_ext (A:=unit)); [done|]. intros _ w'.
    apply put_pieces_each. eapply Forall_impl; [exact E2|]. intros c Ec w''.
    cbv beta. by rewrite (narrow_u8_fits _ _ Ec).
  - intros E. rewrite (narrow_u8_fits _ _ E).
    rewrite (narrow_u8_fits (values v) what) by (eapply past_u8_mono, E; apply values_le).
    refine (put_pieces_each (λ s, match s with
      | SValue => _ ← put_u8 x00; put_u16 0
      | Literal k => _ ← put_u8 x01; put_u16 k
      end) segment_pieces v (w_u8 (byte_at (values v)) (w_u8 (byte_at (N.of_nat (length v))) w)) _).
    apply Forall_true. by intros [|k] w''.
Qed.

(** An operand that does not fit ends the encoding. *)
Lemma bind_err {A B} (m : Write W A) (f : A → Write W B) w :
  (∀ x, (m w).2 ≠ Ok x) → ∀ y, ((m ≫= f) w).2 ≠ Ok y.
Proof.
  unfold mbind, write_bind. intros H y. destruct (m w) as [w' [x|l]]; [|done]. by destruct (H x).
Qed.

Lemma bind_ok {A B} (m : Write W A) (f : A → Write W B) w y :
  ((m ≫= f) w).2 = Ok y → ∃ x, (m w).2 = Ok x ∧ (f x (m w).1).2 = Ok y.
Proof. unfold mbind, write_bind. destruct (m w) as [w' [x|l]]; [|done]. eauto. Qed.

Lemma captures_misfit what l lim w :
  past_captures what l = Some lim →
  (for_each (λ c,
    _ ← put_u8 (if is_local c then x01 else x00);
    i ← tried (narrow_u8 (index c) (if is_local c then CAPTURED_LOCAL else what));
    put_u8 i) l w).2 = Err lim.
Proof.
  revert w. induction l as [|c l IH]; intros w; cbn [past_captures]; [done|].
  destruct (past_u8 _ _) as [lim'|] eqn:E.
  - intros [= ->]. cbn [for_each]. unfold mbind, write_bind, tried. cbn.
    by rewrite (narrow_u8_past _ _ _ E).
  - intros Hl. cbn [for_each]. unfold mbind at 1, write_bind at 1.
    unfold mbind at 1, write_bind at 1, tried. cbn. rewrite (narrow_u8_fits _ _ E).
    apply IH, Hl.
Qed.

Lemma encode_operand_misfit k what (v : asm_ty k) lim w :
  misfit k what v = Some lim → (encode_operand k what v w).2 = Err lim.
Proof.
  destruct k; cbn [misfit encode_operand asm_ty] in *; try done;
    try (by intros E; rewrite (narrow_u8_past _ _ _ E));
    try (by intros E; rewrite (narrow_u16_past _ _ _ E)).
  - unfold slot_u16. repeat case_match; intros; simplify_eq; try done. lia.
  - unfold slot_u16. repeat case_match; intros; simplify_eq; try done. lia.
  - destruct (past_u8 _ _) as [lim'|] eqn:E1.
    + intros [= ->]. by rewrite (narrow_u8_past _ _ _ E1).
    + intros E2. rewrite (narrow_u8_fits _ _ E1).
      exact (captures_misfit what v lim (w_u8 (byte_at (N.of_nat (length v))) w) E2).
Qed.

Lemma encode_args_fits fs (vs : args asm_ty fs) w :
  args_misfit fs vs = None → encode_args fs vs w = put_pieces (args_pieces fs vs) w.
Proof.
  revert w. induction fs as [|[k what] fs IH]; intros w; [done|].
  destruct vs as [v vs]. cbn [args_misfit encode_args args_pieces fst snd].
  destruct (misfit k what v) eqn:E; [done|]. intros Hvs.
  rewrite put_pieces_app. apply bind_ext; auto using encode_operand_fits.
Qed.

(** What the encoder writes of an instruction whose operands fit: its
    pieces, to any writer. *)
Lemma encode_fits a w : asm_misfit a = None → encode a w = put_pieces (asm_pieces a) w.
Proof. intros. apply (bind_ext (A:=unit)); [done|]. intros _ w'. by apply encode_args_fits. Qed.

Lemma encode_args_misfit fs (vs : args asm_ty fs) lim w x :
  args_misfit fs vs = Some lim → (encode_args fs vs w).2 ≠ Ok x.
Proof.
  revert w. induction fs as [|[k what] fs IH]; intros w; [done|].
  destruct vs as [v vs]. cbn [args_misfit encode_args fst snd].
  destruct (misfit k what v) eqn:E.
  - intros [= ->]. apply bind_err. intros y. by rewrite (encode_operand_misfit _ _ _ _ _ E).
  - intros Hvs Hok. apply bind_ok in Hok as (y & _ & Hok). by eapply IH in Hvs.
Qed.

(** A writer whose jumps meet no limit gives the limit of the operand. *)
Lemma put_pieces_ok ps w : (∀ to w, (w_rel to w).2 = Ok tt) → (put_pieces ps w).2 = Ok tt.
Proof.
  intros Hrel. revert w. induction ps as [|p ps IH]; intros w; [done|].
  change (put_pieces (p :: ps) w) with ((put_piece p ≫= λ _, put_pieces ps) w).
  unfold mbind, write_bind.
  assert ((put_piece p w).2 = Ok tt) as Hp by (destruct p; cbn; auto).
  destruct (put_piece p w) as [w' r]. cbn in Hp. subst r. apply IH.
Qed.

Lemma encode_args_limit fs (vs : args asm_ty fs) lim w :
  (∀ to w, (w_rel to w).2 = Ok tt) → args_misfit fs vs = Some lim → (encode_args fs vs w).2 = Err lim.
Proof.
  intros Hrel. revert w. induction fs as [|[k what] fs IH]; intros w; [done|].
  destruct vs as [v vs]. cbn [args_misfit encode_args fst snd]. unfold mbind, write_bind.
  destruct (misfit k what v) eqn:E.
  - intros [= ->]. pose proof (encode_operand_misfit _ _ _ _ w E) as Ho.
    destruct (encode_operand k what v w) as [w' []]; by simplify_eq/=.
  - intros Hvs. rewrite (encode_operand_fits _ _ _ _ E).
    pose proof (put_pieces_ok (operand_pieces k v) w Hrel) as Hp.
    destruct (put_pieces (operand_pieces k v) w) as [w' r]. cbn in Hp. subst r. by apply IH.
Qed.

Lemma encode_ok a w : (encode a w).2 = Ok tt → asm_misfit a = None.
Proof.
  intros Hok. destruct (asm_misfit a) as [lim|] eqn:E; [|done].
  apply bind_ok in Hok as ([] & _ & Hok). by eapply encode_args_misfit in E.
Qed.

End AnyWriter.

(** ** The pieces an encoder writes *)

Lemma put_pieces_pieces ps qs : put_pieces qs ps = (ps ++ qs, Ok tt).
Proof.
  revert ps. induction qs as [|q qs IH]; intros ps; [by rewrite app_nil_r|].
  change (put_pieces (q :: qs)) with (put_piece (W:=list Piece) q ≫= λ _, put_pieces qs).
  replace (ps ++ q :: qs) with ((ps ++ [q]) ++ qs) by by rewrite <- app_assoc.
  unfold mbind, write_bind. destruct q; cbn; apply IH.
Qed.

Lemma encode_to_pieces a ps : asm_misfit a = None → encode a ps = (ps ++ asm_pieces a, Ok tt).
Proof. intros E. by rewrite encode_fits, put_pieces_pieces. Qed.

(** * Reading back what was written

    [layout] is the code of pieces for given places of the labels, and the
    decoder reads each instruction back from it: the operands it was made
    with, and the offsets of its labels. *)

(** ** The code of pieces *)

Definition Places : Type := Label → option N.

Definition piece_size (p : Piece) : N := match p with PByte _ => 1 | PFwd _ => 2 | PRel _ => 4 end.

Fixpoint size (ps : list Piece) : N :=
  match ps with [] => 0 | p :: ps => piece_size p + size ps end.

(** The operand of a jump whose label is not placed yet is 65535, or 0. *)
Definition piece_bytes (pos : Places) (at_ : N) (p : Piece) : list byte :=
  match p with
  | PByte b => [b]
  | PFwd to => u16_le (match pos to with Some t => t - (at_ + 2) | None => 65535 end)
  | PRel to => i32_le (match pos to with Some t => Z.of_N t - Z.of_N (at_ + 4) | None => 0 end)
  end.

Fixpoint layout (pos : Places) (at_ : N) (ps : list Piece) : list byte :=
  match ps with
  | [] => []
  | p :: ps => piece_bytes pos at_ p ++ layout pos (at_ + piece_size p) ps
  end.

(** A label that is placed is where the operand can say. *)
Definition reaches (pos : Places) (at_ : N) (p : Piece) : Prop :=
  match p with
  | PByte _ => True
  | PFwd to => ∀ t, pos to = Some t → at_ + 2 <= t <= at_ + 2 + 65535
  | PRel to => ∀ t, pos to = Some t →
      (- 2 ^ 31 <= Z.of_N t - Z.of_N (at_ + 4) < 2 ^ 31)%Z
  end.

Fixpoint all_reach (pos : Places) (at_ : N) (ps : list Piece) : Prop :=
  match ps with
  | [] => True
  | p :: ps => reaches pos at_ p ∧ all_reach pos (at_ + piece_size p) ps
  end.

Definition placed (pos : Places) (p : Piece) : Prop :=
  match p with PByte _ => True | PFwd to | PRel to => is_Some (pos to) end.

Lemma piece_bytes_length pos at_ p : N.of_nat (length (piece_bytes pos at_ p)) = piece_size p.
Proof. by destruct p. Qed.

Lemma size_app ps qs : size (ps ++ qs) = size ps + size qs.
Proof. induction ps as [|p ps IH]; simpl; [done|]. rewrite IH. lia. Qed.

Lemma layout_length pos at_ ps : N.of_nat (length (layout pos at_ ps)) = size ps.
Proof.
  revert at_. induction ps as [|p ps IH]; intros at_; simpl; [done|].
  rewrite length_app, Nat2N.inj_add, piece_bytes_length, IH. done.
Qed.

Lemma layout_app pos at_ ps qs :
  layout pos at_ (ps ++ qs) = layout pos at_ ps ++ layout pos (at_ + size ps) qs.
Proof.
  revert at_. induction ps as [|p ps IH]; intros at_; simpl; [by rewrite N.add_0_r|].
  by rewrite IH, <- app_assoc, N.add_assoc.
Qed.

Lemma all_reach_app pos at_ ps qs :
  all_reach pos at_ (ps ++ qs) ↔ all_reach pos at_ ps ∧ all_reach pos (at_ + size ps) qs.
Proof.
  revert at_. induction ps as [|p ps IH]; intros at_; simpl; [rewrite N.add_0_r; tauto|].
  rewrite IH, N.add_assoc. tauto.
Qed.

(** ** Bytes at a place of the code *)

Definition has (code : list byte) (at_ : N) (bs : list byte) : Prop :=
  ∀ i b, bs !! i = Some b → code !! (N.to_nat at_ + i)%nat = Some b.

Lemma has_nil code at_ : has code at_ [].
Proof. by intros i b. Qed.

Lemma has_app code at_ bs cs :
  has code at_ (bs ++ cs) ↔ has code at_ bs ∧ has code (at_ + N.of_nat (length bs)) cs.
Proof.
  unfold has. split.
  - intros H. split; intros i b Hi.
    + apply H. by apply lookup_app_l_Some.
    + replace (N.to_nat (at_ + N.of_nat (length bs)) + i)%nat
        with (N.to_nat at_ + (length bs + i))%nat by lia.
      apply H. rewrite lookup_app_r by lia. by replace (length bs + i - length bs)%nat with i by lia.
  - intros [H1 H2] i b [Hi|[Hl Hi]]%lookup_app_Some; [by apply H1|].
    apply H2 in Hi. rewrite <- Hi. f_equal. lia.
Qed.

Lemma has_self pre bs post : has (pre ++ bs ++ post) (N.of_nat (length pre)) bs.
Proof.
  intros i b Hi. rewrite Nat2N.id, lookup_app_r by lia.
  replace (length pre + i - length pre)%nat with i by lia. by apply lookup_app_l_Some.
Qed.

Lemma has_byte_cons code at_ b bs :
  has code at_ (b :: bs) ↔ code !! N.to_nat at_ = Some b ∧ has code (at_ + 1) bs.
Proof.
  change (b :: bs) with ([b] ++ bs). rewrite has_app. apply and_iff_compat_r. split.
  - intros H. rewrite <- (Nat.add_0_r (N.to_nat at_)). by apply H.
  - intros H [|i] c; [|done]. cbn. intros [= <-]. by rewrite Nat.add_0_r.
Qed.

Lemma has_take code at_ bs :
  has code at_ bs → take (length bs) (drop (N.to_nat at_) code) = bs.
Proof.
  intros H. apply list_eq. intros i. destruct (decide (i < length bs)%nat) as [Hi|Hi].
  - destruct (lookup_lt_is_Some_2 bs i Hi) as [b Hb].
    rewrite Hb, lookup_take_lt, lookup_drop by done. by apply H.
  - rewrite (lookup_ge_None_2 bs) by lia. apply lookup_take_ge. lia.
Qed.

Lemma has_length code at_ bs :
  bs ≠ [] → has code at_ bs → at_ + N.of_nat (length bs) <= N.of_nat (length code).
Proof.
  intros Hne H. destruct bs as [|b bs]; [done|].
  destruct (lookup_lt_is_Some_2 (b :: bs) (length bs)) as [c Hc]; [simpl; lia|].
  apply H, lookup_lt_Some in Hc. simpl. lia.
Qed.

(** ** Reading numbers *)

Lemma has_u8 code at_ b : has code at_ [b] → read_u8 code at_ = Some (Byte.to_N b, at_ + 1).
Proof. rewrite has_byte_cons. intros [H _]. unfold read_u8. by rewrite H. Qed.

Lemma has_u16 code at_ v :
  v < 65536 → has code at_ (u16_le v) → read_u16 code at_ = Some (v, at_ + 2).
Proof.
  unfold u16_le. rewrite !has_byte_cons. intros Hv (H1 & H2 & _). unfold read_u16.
  rewrite H1, H2. cbn. by rewrite u16_bytes.
Qed.

Lemma i32_bytes d :
  (- 2 ^ 31 <= d < 2 ^ 31)%Z →
  let u := Z.to_N (d mod 2 ^ 32) in
  le_i32 (Byte.to_N (byte_at u)) (Byte.to_N (byte_at (u / 256)))
    (Byte.to_N (byte_at (u / 65536))) (Byte.to_N (byte_at (u / 16777216))) = d.
Proof.
  intros Hd u. unfold le_i32. rewrite !byte_at_to_N.
  assert (u < 4294967296) as Hu by (unfold u; pose proof (Z.mod_pos_bound d (2 ^ 32)); lia).
  replace (u mod 256 + 256 * (u / 256 mod 256 + 256 * (u / 65536 mod 256 + 256 * (u / 16777216 mod 256))))
    with u.
  - unfold u in *. destruct (decide (0 <= d)%Z).
    + rewrite Z.mod_small by lia. rewrite Z2N.id by lia. case_match; lia.
    + replace (d mod 2 ^ 32)%Z with (d + 2 ^ 32)%Z
        by (apply (Z.mod_unique _ _ (-1)); lia).
      rewrite Z2N.id by lia. case_match; lia.
  - change 65536 with (256 * 256). change 16777216 with (256 * (256 * 256)).
    rewrite <- !N.Div0.div_div.
    pose proof (N.div_mod u 256). pose proof (N.div_mod (u / 256) 256).
    pose proof (N.div_mod (u / 256 / 256) 256).
    assert (u / 256 / 256 / 256 < 256) by (rewrite !N.Div0.div_div; apply N.Div0.div_lt_upper_bound; lia).
    rewrite (N.mod_small (u / 256 / 256 / 256)) by done. lia.
Qed.

Lemma has_rel code at_ t :
  (- 2 ^ 31 <= Z.of_N t - Z.of_N (at_ + 4) < 2 ^ 31)%Z →
  has code at_ (i32_le (Z.of_N t - Z.of_N (at_ + 4))) → read_rel code at_ = Some (t, at_ + 4).
Proof.
  intros Hr. unfold i32_le. rewrite !has_byte_cons. intros (H1 & H2 & H3 & H4 & _).
  unfold read_rel. rewrite <- !N.add_assoc in *.
  change (1 + (1 + 1)) with 3 in H4. change (1 + 1) with 2 in H3.
  rewrite H1, H2, H3, H4. cbn [mbind option_bind]. rewrite i32_bytes by done.
  replace (Z.of_N (at_ + 4) + (Z.of_N t - Z.of_N (at_ + 4)))%Z with (Z.of_N t) by lia.
  case_match; [by rewrite N2Z.id|lia].
Qed.

(** ** Reading operands back *)

(** What the types of the operands say of them: a constant, a builtin, a
    global, a trait and a method are [u16]s. *)
Definition typed (k : Kind) : asm_ty k → Prop :=
  match k return asm_ty k → Prop with
  | Kind.Global | Kind.Trait | Kind.Method | Kind.Builtin
  | Kind.Const | Kind.Str | Kind.Tag | Kind.Type_ | Kind.Func | Kind.Int | Kind.Float =>
      λ v, v < 65536
  | Kind.Strs => Forall (λ k, k < 65536)
  | Kind.Segments => Forall (λ s, match s with SValue => True | Literal k => k < 65536 end)
  | _ => λ _, True
  end.

Fixpoint args_typed (fs : list Field) : args asm_ty fs → Prop :=
  match fs return args asm_ty fs → Prop with
  | [] => λ _, True
  | f :: fs => λ '(v, vs), typed f.1 v ∧ args_typed fs vs
  end.

Definition asm_typed (a : Asm) : Prop := args_typed _ (asm_args a).

(** The decoded operand says what the assembler's does: the same number, the
    offset of the label, the same items read from the code. *)
Definition says (pos : Places) (code : list byte) (k : Kind) : asm_ty k → instr_ty k → Prop :=
  match k return asm_ty k → instr_ty k → Prop with
  | Kind.Fwd | Kind.Rel => λ to t, pos to = Some t
  | Kind.Strs | Kind.Captures => λ l o, o_count o = N.of_nat (length l) ∧ iter o code = l
  | Kind.Segments => λ l s,
      s_count s = N.of_nat (length l) ∧ s_values s = values l ∧ segments_iter s code = l
  | _ => λ v v', v' = v
  end.

Fixpoint args_say (pos : Places) (code : list byte) (fs : list Field) :
    args asm_ty fs → args instr_ty fs → Prop :=
  match fs return args asm_ty fs → args instr_ty fs → Prop with
  | [] => λ _ _, True
  | f :: fs => λ '(v, vs) '(v', vs'), says pos code f.1 v v' ∧ args_say pos code fs vs vs'
  end.

(** The same opcode, and each operand the same. *)
Inductive instr_says (pos : Places) (code : list byte) : Asm → Instr → Prop :=
  | instr_says_intro op vs vs' :
      args_say pos code _ vs vs' → instr_says pos code (mkAsm op vs) (mkInstr op vs').

Lemma layout_bytes pos at_ (bs : list byte) : layout pos at_ (PByte <$> bs) = bs.
Proof. revert at_. induction bs as [|b bs IH]; intros at_; simpl; [done|]. by rewrite IH. Qed.

Lemma size_bytes (bs : list byte) : size (PByte <$> bs) = N.of_nat (length bs).
Proof.
  induction bs as [|b bs IH]; [done|].
  change (size (PByte <$> b :: bs)) with (1 + size (PByte <$> bs)). rewrite IH. cbn. lia.
Qed.

Section Items.
Context {T : Type} `{!Packed T}.
Variable pack : T → list byte.
Hypothesis pack_size : ∀ x, length (pack x) = SIZE T.

Lemma has_chunks code at_ l :
  Forall (λ x, unpack (pack x) = x) l → has code at_ (concat (pack <$> l)) →
  chunks (length l) (drop (N.to_nat at_) code) = l.
Proof.
  intros Hl. revert at_. induction Hl as [|x l Hx _ IH]; intros at_; cbn; [done|].
  rewrite has_app. intros [H1 H2]. f_equal.
  - by rewrite <- (pack_size x), has_take.
  - rewrite drop_drop.
    replace (N.to_nat at_ + SIZE T)%nat
      with (N.to_nat (at_ + N.of_nat (length (pack x)))) by (rewrite pack_size; lia).
    by apply IH.
Qed.

Lemma packed_length (l : list T) : length (concat (pack <$> l)) = (length l * SIZE T)%nat.
Proof.
  induction l as [|x l IH]; [done|].
  change (concat (pack <$> x :: l)) with (pack x ++ concat (pack <$> l)).
  rewrite length_app, IH, pack_size. cbn. lia.
Qed.

Lemma has_items code at_ l :
  Forall (λ x, unpack (pack x) = x) l → at_ <= N.of_nat (length code) →
  has code at_ (concat (pack <$> l)) →
  let o := mkOperands at_ (N.of_nat (length l)) in
  read_items code T (N.of_nat (length l)) at_ =
    Some (o, at_ + N.of_nat (length (concat (pack <$> l)))) ∧
  iter o code = l.
Proof.
  intros Hl Hat H o. unfold read_items, iter, o. cbn [o_count o_at].
  rewrite Nat2N.id, has_chunks by done. split; [|done].
  rewrite packed_length.
  assert (at_ + N.of_nat (length l * SIZE T) <= N.of_nat (length code)) as Hle.
  { destruct (decide (concat (pack <$> l) = [])) as [E|E].
    - apply (f_equal length) in E. rewrite packed_length in E. cbn in E. lia.
    - apply has_length in H; [|done]. by rewrite packed_length in H. }
  case_match; [|lia]. do 2 f_equal. lia.
Qed.
End Items.

Definition pack_capture (c : UpvalueDesc) : list byte :=
  [if is_local c then x01 else x00; byte_at (index c)].
Definition pack_segment (s : Segment) : list byte :=
  match s with SValue => x00 :: u16_le 0 | Literal k => x01 :: u16_le k end.

Lemma concat_pieces {T} (g : T → list Piece) (pack : T → list byte) l :
  (∀ x, g x = PByte <$> pack x) → concat (g <$> l) = PByte <$> concat (pack <$> l).
Proof.
  intros Hg. induction l as [|x l IH]; [done|].
  change (concat (g <$> x :: l)) with (g x ++ concat (g <$> l)).
  by rewrite IH, Hg, <- fmap_app.
Qed.

Lemma unpack_const k : k < 65536 → unpack (u16_le k) = k.
Proof. intros. cbn. unfold byte_in. cbn. by apply u16_bytes. Qed.

Lemma unpack_capture c what :
  past_u8 (index c) what = None → unpack (pack_capture c) = c.
Proof.
  unfold past_u8, past. case_match; [done|intros _]. destruct c as [l i]. cbn in *.
  unfold byte_in. cbn. rewrite byte_at_small by lia. by destruct l.
Qed.

Lemma unpack_segment s :
  (match s with SValue => True | Literal k => k < 65536 end) → unpack (pack_segment s) = s.
Proof.
  destruct s as [|k]; [done|]. intros. cbn. unfold byte_in. cbn. f_equal. by apply u16_bytes.
Qed.

Lemma has_list {T} `{!Packed T} (pack : T → list byte) code at_ what (l : list T) :
  (∀ x, length (pack x) = SIZE T) → Forall (λ x, unpack (pack x) = x) l →
  past_u8 (N.of_nat (length l)) what = None →
  has code at_ (byte_at (N.of_nat (length l)) :: concat (pack <$> l)) →
  ∃ o, read_list code T at_ = Some (o, at_ + (1 + N.of_nat (length (concat (pack <$> l))))) ∧
    o_count o = N.of_nat (length l) ∧ iter o code = l.
Proof.
  intros Hsz Hl Hp [H1 H2]%(has_app _ _ [_]). unfold past_u8, past in Hp.
  destruct (has_items pack Hsz code (at_ + 1) l) as [Hr Hi]; auto.
  { by apply has_length in H1. }
  exists (mkOperands (at_ + 1) (N.of_nat (length l))). split_and!; auto.
  unfold read_list. rewrite (has_u8 _ _ _ H1), byte_at_small by (case_match; [done|lia]).
  cbn [mbind option_bind]. rewrite Hr. do 2 f_equal. lia.
Qed.

Lemma has_segments code at_ what (l : list Segment) :
  Forall (λ s, match s with SValue => True | Literal k => k < 65536 end) l →
  past_u8 (N.of_nat (length l)) what = None →
  has code at_ (byte_at (N.of_nat (length l)) :: byte_at (values l) :: concat (pack_segment <$> l)) →
  ∃ s, read_segments code at_ = Some (s, at_ + (2 + N.of_nat (length (concat (pack_segment <$> l))))) ∧
    s_count s = N.of_nat (length l) ∧ s_values s = values l ∧ segments_iter s code = l.
Proof.
  intros Hl Hp [H1 [H2 H3]%(has_app _ _ [_])]%(has_app _ _ [_]). unfold past_u8, past in Hp.
  pose proof (values_le l). cbn [length] in *. change (N.of_nat 1) with 1 in *.
  destruct (has_items pack_segment (λ s, ltac:(by destruct s)) code (at_ + 1 + 1) l) as [Hr Hi]; auto.
  { eapply Forall_impl; [exact Hl|]. apply unpack_segment. }
  { by apply has_length in H2. }
  exists (mkSegments (at_ + 1 + 1) (N.of_nat (length l)) (values l)). split_and!; auto.
  unfold read_segments. rewrite (has_u8 _ _ _ H1), byte_at_small by (case_match; [done|lia]).
  cbn [mbind option_bind]. rewrite (has_u8 _ _ _ H2), byte_at_small by (case_match; [done|lia]).
  cbn [mbind option_bind]. rewrite Hr. cbn [mbind option_bind o_at]. do 2 f_equal. lia.
Qed.

(** Every operand that fits is read back. *)
Lemma decode_operand_says pos code at_ k what (v : asm_ty k) :
  misfit k what v = None → typed k v → Forall (placed pos) (operand_pieces k v) →
  all_reach pos at_ (operand_pieces k v) → has code at_ (layout pos at_ (operand_pieces k v)) →
  ∃ v', decode_operand code k at_ = Some (v', at_ + size (operand_pieces k v)) ∧ says pos code k v v'.
Proof.
  destruct k; cbn [misfit typed operand_pieces decode_operand says asm_ty instr_ty layout
    piece_bytes size piece_size app all_reach u16_pieces] in *;
    try (intros Hm _ _ _ H; rewrite (has_u8 _ _ _ H); unfold past_u8, past in Hm;
         rewrite byte_at_small by (case_match; [done|lia]); eexists; split; done);
    try (intros Hm Hv _ _ H; unfold past in Hm; rewrite (has_u16 code at_ v) by
           first [exact H|case_match; [done|lia]|done]; eexists; split; done).
  - intros _ _ [[t Ht] _]%Forall_cons [Hr _] H. specialize (Hr t Ht). rewrite Ht, app_nil_r in H.
    unfold read_fwd. rewrite (has_u16 _ _ (t - (at_ + 2))) by first [exact H|lia].
    cbn. eexists. split; [|done]. do 2 f_equal; lia.
  - intros _ _ [[t Ht] _]%Forall_cons [Hr _] H. specialize (Hr t Ht). rewrite Ht, app_nil_r in H.
    rewrite (has_rel _ _ t) by done. eauto.
  - rewrite (concat_pieces _ u16_le), layout_bytes, size_bytes by done. intros Hm Hv _ _ H.
    destruct (has_list u16_le code at_ what v) as (o & ? & ?); eauto.
    eapply Forall_impl; [exact Hv|]. apply unpack_const.
  - rewrite (concat_pieces _ pack_capture), layout_bytes, size_bytes by done. intros Hm _ _ _ H.
    destruct (past_u8 _ _) eqn:E; [done|]. apply past_captures_None in Hm.
    destruct (has_list pack_capture code at_ what v) as (o & ? & ?); eauto.
    eapply Forall_impl; [exact Hm|]. intros c. apply unpack_capture.
  - rewrite (concat_pieces _ pack_segment), layout_bytes, size_bytes by (by intros []). intros Hm Hv _ _ H.
    destruct (has_segments code at_ what v) as (s & Hs & ?); auto.
    exists s. split; [|done]. rewrite Hs. do 2 f_equal. lia.
Qed.

Lemma decode_args_say pos code at_ fs (vs : args asm_ty fs) :
  args_misfit fs vs = None → args_typed fs vs → Forall (placed pos) (args_pieces fs vs) →
  all_reach pos at_ (args_pieces fs vs) → has code at_ (layout pos at_ (args_pieces fs vs)) →
  ∃ vs', decode_args code fs at_ = Some (vs', at_ + size (args_pieces fs vs)) ∧
    args_say pos code fs vs vs'.
Proof.
  revert at_. induction fs as [|[k what] fs IH]; intros at_.
  { intros. exists tt. by rewrite N.add_0_r. }
  destruct vs as [v vs]. cbn [args_misfit args_typed args_pieces decode_args args_say fst snd].
  destruct (misfit k what v) eqn:E; [done|].
  rewrite Forall_app, all_reach_app, layout_app, has_app, layout_length, size_app.
  intros Hm [Ht Hts] [Hp Hps] [Hr Hrs] [H Hs].
  destruct (decode_operand_says pos code at_ k what v) as (v' & Hd & Hv); auto.
  destruct (IH vs (at_ + size (operand_pieces k v))) as (vs' & Hds & Hvs); auto.
  exists (v', vs'). rewrite Hd. cbn [mbind option_bind]. rewrite Hds. cbn [mbind option_bind].
  by rewrite N.add_assoc.
Qed.

(** The decoder reads back the instruction the pieces were written for. *)
Lemma decode_says pos code at_ a :
  asm_misfit a = None → asm_typed a → Forall (placed pos) (asm_pieces a) →
  all_reach pos at_ (asm_pieces a) → has code at_ (layout pos at_ (asm_pieces a)) →
  ∃ i, decode code at_ = Some (i, at_ + size (asm_pieces a)) ∧ instr_says pos code a i.
Proof.
  destruct a as [op vs]. unfold asm_misfit, asm_typed, asm_pieces, decode. cbn [asm_op asm_args].
  intros Hm Ht [_ Hp]%Forall_cons [_ Hr] [H Hs]%has_byte_cons.
  destruct (decode_args_say pos code (at_ + 1) _ vs) as (vs' & Hd & Hvs); auto.
  exists (mkInstr op vs'). split; [|by constructor].
  rewrite H. cbn [mbind option_bind]. rewrite find_from_byte.
  rewrite (proj2 (from_byte_Some _ op) eq_refl). cbn [mbind option_bind].
  rewrite Hd. cbn [mbind option_bind size piece_size]. do 2 f_equal. lia.
Qed.

(** An instruction and what it was made of have the same effect. *)
Lemma effect_says pos code a i : instr_says pos code a i → effect i = asm_effect a.
Proof.
  intros [op vs vs' H].
  destruct op; cbn in vs, vs', H |- *;
    repeat match goal with
    | vs : prod _ _ |- _ => destruct vs
    | H : _ ∧ _ |- _ => destruct H
    end; by simplify_eq/=; try congruence.
Qed.
