(* ===== verification/Chunk.v ===== *)
(** * Chunks and functions (src/bytecode/mod.rs)

    The code of a function with its pool of constants and the spans its bytes
    are blamed on.  A constant is a value, of which the bytecode reads: what
    it is made of where constants are told apart, the kind of it, and of a
    closure how many upvalues its function has and how many it holds. *)

From Stdlib Require Import NArith ZifyBool ZifyN Strings.Byte.
From S2P Require Import Prelude Ops.
From Stdlib Require Import NArith Strings.Byte.

Open Scope N_scope.

(** ** Values, as the pool has them *)

(** The description of a type: its id, where it is in memory, whether it is
    the one of an anonymous record, whether it is a type applied to types. *)
Record TypeInfo := mkTypeInfo { type_id : N; address : N; is_anon : bool; is_applied : bool }.

(** A float is its bits. *)
Inductive Value :=
  | VInt (n : Z)
  | VBool (b : bool)
  | VString (s : string)
  | VFloat (bits : N)
  | VVariantConstructor (type_id ordinal : N)
  | VVariant (type_id ordinal : N) (fields : list Value)
  | VTypeDescriptor (ty : TypeInfo)
  | VBuiltinFn (id : BuiltinId)
  | VPrimitiveDescriptor (name : string)
  | VVmClosure (upvalue_count upvalues : N)
  | VDict
  | VOther.

Inductive ConstantKey :=
  | KInt (n : Z)
  | KBool (b : bool)
  | KString (s : string)
  | KFloat (bits : N)
  | KVariant (type_id ordinal : N)
  | KNullary (type_id ordinal : N)
  | KType (type_id : N)
  | KAnonType (address : N)
  | KBuiltin (id : BuiltinId)
  | KPrimitive (name : string).

#[export] Instance constant_key_eq_dec : EqDecision ConstantKey.
Proof. unfold BuiltinId. solve_decision. Defined.

#[export] Instance constant_key_countable : Countable ConstantKey.
Proof.
  refine (inj_countable'
    (λ k, match k with
      | KInt n => inl (inl (inl n))
      | KBool b => inl (inl (inr b))
      | KString s => inl (inr (inl s))
      | KPrimitive s => inl (inr (inr s))
      | KFloat b => inr (inl (0, b, 0))
      | KVariant t o => inr (inl (1, t, o))
      | KNullary t o => inr (inl (2, t, o))
      | KType t => inr (inr (0, t))
      | KAnonType a => inr (inr (1, a))
      | KBuiltin i => inr (inr (2, i))
      end)
    (λ e, match e with
      | inl (inl (inl n)) => KInt n
      | inl (inl (inr b)) => KBool b
      | inl (inr (inl s)) => KString s
      | inl (inr (inr s)) => KPrimitive s
      | inr (inl (0, b, _)) => KFloat b
      | inr (inl (1, t, o)) => KVariant t o
      | inr (inl (_, t, o)) => KNullary t o
      | inr (inr (0, t)) => KType t
      | inr (inr (1, a)) => KAnonType a
      | inr (inr (_, i)) => KBuiltin i
      end) _).
  by intros [].
Defined.

(** ** Chunks *)

Record Span := mkSpan { file : N; start : N; stop : N }.
#[export] Instance span_eq_dec : EqDecision Span.
Proof. solve_decision. Defined.

Definition SPAN_BUILTIN : Span := mkSpan 0 0 0.

Record Chunk := mkChunk {
  code : list byte;
  constants : list Value;
  spans : list (N * Span);
  constant_dedup : gmap ConstantKey Const;
}.

Definition chunk_new : Chunk := mkChunk [] [] [] ∅.

Definition chunk_len (c : Chunk) : N := N.of_nat (length (code c)).

Definition with_code (c : Chunk) (code : list byte) : Chunk :=
  mkChunk code (constants c) (spans c) (constant_dedup c).

(** Append a byte of the instruction at [span]: the span is recorded when it
    is not the last one recorded. *)
Definition chunk_push (b : byte) (span : Span) (c : Chunk) : Chunk :=
  let spans' :=
    if match last (spans c) with Some (_, s) => bool_decide (s ≠ span) | None => true end
    then spans c ++ [(chunk_len c, span)] else spans c in
  mkChunk (code c ++ [b]) (constants c) spans' (constant_dedup c).

(** Pop the last span while it starts at [at_] or after it: of the spans from
    the last on, drop those. *)
Fixpoint pop_spans (at_ : N) (from_last : list (N * Span)) : list (N * Span) :=
  match from_last with
  | (offset, s) :: rest => if at_ <=? offset then pop_spans at_ rest else from_last
  | [] => []
  end.

(** Take the code from [at_] on off again, with its spans. *)
Definition chunk_truncate (at_ : N) (c : Chunk) : Chunk :=
  mkChunk (take (N.to_nat at_) (code c)) (constants c)
    (reverse (pop_spans at_ (reverse (spans c)))) (constant_dedup c).

(** The key a constant is found again by, for the values that have one. *)
Definition constant_key (v : Value) : option ConstantKey :=
  match v with
  | VInt n => Some (KInt n)
  | VBool b => Some (KBool b)
  | VString s => Some (KString s)
  | VFloat bits => Some (KFloat bits)
  | VVariantConstructor t o => Some (KVariant t o)
  | VVariant t o [] => Some (KNullary t o)
  | VTypeDescriptor ty =>
      if is_anon ty then Some (KAnonType (address ty))
      else if is_applied ty then None
      else Some (KType (type_id ty))
  | VBuiltinFn id => Some (KBuiltin id)
  | VPrimitiveDescriptor name => Some (KPrimitive name)
  | _ => None
  end.

(** Add a constant to the pool and give its index; [None] when the pool is
    full. *)
Definition add_constant (v : Value) (c : Chunk) : Chunk * option Const :=
  let key := constant_key v in
  match key ≫= λ k, constant_dedup c !! k with
  | Some index => (c, Some index)
  | None =>
      let index : Const := N.of_nat (length (constants c)) in
      if index <=? 65535 then
        (mkChunk (code c) (constants c ++ [v]) (spans c)
           (match key with
            | Some k => <[k := index]> (constant_dedup c)
            | None => constant_dedup c
            end), Some index)
      else (c, None)
  end.

(** The constant [k]; the source panics when there is none. *)
Definition constant (c : Chunk) (k : Const) : option Value := constants c !! N.to_nat k.

(** The span of the code at [offset]: of the last recorded span that starts
    there or before, found by a scan that stops at the first that starts
    after. *)
Fixpoint scan_spans (offset : N) (result : Span) (l : list (N * Span)) : Span :=
  match l with
  | [] => result
  | (off, span) :: l => if off <=? offset then scan_spans offset span l else result
  end.
Definition span_at (c : Chunk) (offset : N) : Span := scan_spans offset SPAN_BUILTIN (spans c).

(** The instructions with their offsets, in the order of the code: the
    iterator reads until nothing decodes.  An instruction has a byte at
    least, so [fuel] more than the bytes of the code reads them all. *)
Fixpoint instrs_from (fuel : nat) (code : list byte) (at_ : N) : list (N * Instr) :=
  match fuel with
  | O => []
  | S fuel =>
      match decode code at_ with
      | Some (i, next) => (at_, i) :: instrs_from fuel code next
      | None => []
      end
  end.
Definition instrs (c : Chunk) : list (N * Instr) := instrs_from (S (length (code c))) (code c) 0.

(** ** Functions *)

Record Function := mkFunction {
  f_name : string;
  arity : N;
  upvalue_count : N;
  chunk : Chunk;
  hidden : N;
  dict_slot : bool;
}.

(** * What a chunk keeps

    The constant pool holds a value once, and the run-length encoded spans
    give back the span each byte of the code was written for. *)

(** ** The pool *)

(** The table of keys and the pool agree, and the pool is no larger than a
    [u16] can index. *)
Definition pool_ok (c : Chunk) : Prop :=
  N.of_nat (length (constants c)) <= 65536 ∧
  ∀ key (i : Const), constant_dedup c !! key = Some i ↔
    ∃ v, constants c !! N.to_nat i = Some v ∧ constant_key v = Some key.

Lemma pool_new : pool_ok chunk_new.
Proof. split; [done|]. intros key i. split; [done|]. intros (v & Hv & _). done. Qed.

Lemma add_constant_fresh v c :
  pool_ok c → (constant_key v ≫= λ k, constant_dedup c !! k) = None →
  N.of_nat (length (constants c)) <= 65535 → pool_ok (add_constant v c).1.
Proof.
  intros [Hl Hd] Hn Hf. unfold add_constant. cbn zeta. rewrite Hn. case_match; [|lia]. cbn.
  split; cbn; [rewrite length_app; cbn; lia|]. intros key i.
  destruct (constant_key v) as [kv|] eqn:Ekv; cbn in Hn.
  - rewrite lookup_insert_Some. split.
    + intros [[<- <-]|[Hne Hi]].
      * exists v. split; [|done]. rewrite lookup_snoc_or. right. split; [lia|done].
      * apply Hd in Hi as (w & Hw & Hk). exists w. split; [|done]. apply lookup_snoc_or. by left.
    + intros (w & [Hw|[Hi ->]]%lookup_snoc_or & Hk).
      * right. assert (constant_dedup c !! key = Some i) as Hi by (apply Hd; eauto).
        split; [intros ->; by rewrite Hn in Hi|done].
      * left. split; [congruence|lia].
  - rewrite Hd. split.
    + intros (w & Hw & Hk). exists w. split; [|done]. apply lookup_snoc_or. by left.
    + intros (w & [Hw|[Hi ->]]%lookup_snoc_or & Hk); [eauto|congruence].
Qed.

Lemma add_constant_ok v c : pool_ok c → pool_ok (add_constant v c).1.
Proof.
  intros Hok. destruct (constant_key v ≫= λ k, constant_dedup c !! k) as [i|] eqn:E.
  - unfold add_constant. cbn zeta. by rewrite E.
  - destruct (decide (N.of_nat (length (constants c)) <= 65535)).
    + by apply add_constant_fresh.
    + unfold add_constant. cbn zeta. rewrite E. case_match; [lia|done].
Qed.

(** Add the values one after the other. *)
Definition add_constants (vs : list Value) (c : Chunk) : Chunk :=
  foldl (λ c v, (add_constant v c).1) c vs.

Lemma add_constants_ok vs c : pool_ok c → pool_ok (add_constants vs c).
Proof. revert c. induction vs as [|v vs IH]; intros c H; [done|]. apply IH. by apply add_constant_ok. Qed.

(** The constant pool holds a value that can be told apart from others
    once: whatever was added before, the constant a value is given is the
    value, or one with the same key; the constants there are keep their
    indexes; a value whose key is in the pool leaves it as it is and gets the
    index it got before; only a full pool of 65,536 constants refuses one. *)
Theorem constants_are_shared vs v :
  let c := add_constants vs chunk_new in
  let '(c', k) := add_constant v c in
  (∃ l, constants c' = constants c ++ l) ∧
  match k with
  | Some k => k < 65536 ∧ ∃ w, constant c' k = Some w ∧
      (w = v ∨ (is_Some (constant_key v) ∧ constant_key w = constant_key v)) ∧
      (is_Some (constant_key v) → ∀ k' w', constant c' k' = Some w' → constant_key w' = constant_key v → k' = k)
  | None =>
      c' = c ∧ length (constants c) = N.to_nat 65536 ∧
      ∀ k' w', constant c k' = Some w' → constant_key v = None ∨ constant_key w' ≠ constant_key v
  end.
Proof.
  intros c. pose proof (add_constants_ok vs chunk_new pool_new) as Hok. fold c in Hok.
  pose proof (add_constant_ok v c Hok) as Hok'.
  assert (∀ c (k k' : Const) kv, pool_ok c → constant_dedup c !! kv = Some k → ∀ w', constant c k' = Some w' →
    constant_key w' = Some kv → k' = k) as Honce.
  { intros c1 k k' kv [_ H] Hk w' Hw' Hkw.
    assert (constant_dedup c1 !! kv = Some k') as Hk' by (apply H; eauto). congruence. }
  destruct Hok as [Hl Hd].
  destruct (constant_key v ≫= λ k, constant_dedup c !! k) as [i|] eqn:E; unfold add_constant in *; cbn zeta in *; rewrite E in *.
  - split; [exists []; by rewrite app_nil_r|].
    destruct (constant_key v) as [kv|] eqn:Ekv; [|done]. cbn in E.
    destruct (proj1 (Hd kv i) E) as (w & Hw & Hk).
    split; [apply lookup_lt_Some in Hw; lia|]. exists w.
    split_and!; [done|right; by split|]. intros _ k' w'. by apply Honce.
  - destruct (_ <=? 65535) eqn:Ef.
    + split; [by eexists|]. split; [lia|]. exists v. unfold constant. cbn.
      split_and!; [apply lookup_snoc_or; right; split; [lia|done]|by left|].
      intros [kv Hkv] k' w' Hw' Hk'. cbn in Hok'. rewrite Hkv in Hk'. rewrite Hkv in Hok'.
      eapply (Honce _ (N.of_nat (length (constants c)))); [exact Hok'| |exact Hw'|done].
      cbn. apply lookup_insert_eq.
    + split; [exists []; by rewrite app_nil_r|]. split_and!; [done|lia|].
      intros k' w' Hw'. destruct (constant_key v) as [kv|] eqn:Ekv; [right|by left].
      cbn in E. intros Hk'. assert (constant_dedup c !! kv = Some k') by (apply Hd; eauto). congruence.
Qed.

(** ** Spans *)

Inductive Edit := Push (b : byte) (span : Span) | Truncate (at_ : N).

Definition edit (c : Chunk) (x : Edit) : Chunk :=
  match x with Push b span => chunk_push b span c | Truncate at_ => chunk_truncate at_ c end.

(** The bytes, each with the span it was written for. *)
Definition blame (l : list (byte * Span)) (x : Edit) : list (byte * Span) :=
  match x with Push b span => l ++ [(b, span)] | Truncate at_ => take (N.to_nat at_) l end.

Definition ascending : list (N * Span) → Prop := StronglySorted (λ x y, x.1 < y.1).
Definition all_before (n : N) : list (N * Span) → Prop := Forall (λ x, x.1 < n).

Lemma scan_snoc offset res l o s :
  all_before o l →
  scan_spans offset res (l ++ [(o, s)]) = if o <=? offset then s else scan_spans offset res l.
Proof.
  intros H. revert res. induction H as [|[o' s'] l Ho _ IH]; intros res; cbn in *; [done|].
  rewrite IH. repeat case_match; try done; lia.
Qed.

Lemma scan_last offset res l :
  all_before (offset + 1) l → scan_spans offset res l = default res (snd <$> last l).
Proof.
  intros H. induction l as [|x l _] using rev_ind; [done|]. apply Forall_app in H as [H Hx].
  rewrite last_snoc. destruct x as [o s]. apply Forall_cons in Hx as [Hx _]. cbn in *.
  revert res. induction H as [|[o' s'] l Ho _ IH]; intros res; cbn in *; (case_match; [|lia]); [done|apply IH].
Qed.

Lemma ascending_snoc l o s : ascending l → all_before o l → ascending (l ++ [(o, s)]).
Proof.
  intros Hs Hb. apply StronglySorted_app_2; [|done|by repeat constructor].
  intros x y Hx ->%list_elem_of_singleton. by eapply (proj1 (Forall_forall _ _) Hb).
Qed.

Lemma ascending_before l o s : ascending (l ++ [(o, s)]) → all_before o l.
Proof.
  intros H. apply Forall_forall. intros x Hx.
  apply (StronglySorted_app_1_elem_of _ _ _ x (o, s) H); set_solver.
Qed.

(** Popping leaves the spans that start before [at_]: what a byte before it
    is blamed on does not change. *)
Lemma pop_spans_ok at_ l :
  ascending l →
  let l' := reverse (pop_spans at_ (reverse l)) in
  ascending l' ∧ all_before at_ l' ∧ (∀ n, all_before n l → all_before n l') ∧
  ∀ k res, k < at_ → scan_spans k res l' = scan_spans k res l.
Proof.
  induction l as [|[o s] l IH] using rev_ind; intros Hs; [cbn; split_and!; by try constructor|].
  rewrite reverse_snoc. cbn [pop_spans].
  pose proof (ascending_before _ _ _ Hs) as Hb.
  assert (ascending l) as Hs' by (by eapply StronglySorted_app_1_l).
  destruct (at_ <=? o) eqn:E.
  - destruct (IH Hs') as (H1 & H2 & H3 & H4). split_and!; [done|done| |].
    + intros n [? _]%Forall_app. by apply H3.
    + intros k res Hk. rewrite scan_snoc by done. case_match; [lia|]. by apply H4.
  - rewrite reverse_cons, reverse_involutive. split_and!; [done| |done|done].
    apply Forall_app. split; [|constructor; [cbn; lia|done]].
    eapply Forall_impl; [exact Hb|]. cbn. lia.
Qed.

Record spans_ok (c : Chunk) (l : list (byte * Span)) : Prop := mkSpansOk {
  so_code : code c = l.*1;
  so_ascending : ascending (spans c);
  so_before : all_before (chunk_len c) (spans c);
  so_span : ∀ k b s, l !! k = Some (b, s) → span_at c (N.of_nat k) = s;
}.

Lemma push_spans c l b span : spans_ok c l → spans_ok (chunk_push b span c) (l ++ [(b, span)]).
Proof.
  intros [Hc Ha Hb Hs].
  assert (chunk_len c = N.of_nat (length l)) as Hlen by (unfold chunk_len; by rewrite Hc, length_fmap).
  assert (chunk_len (chunk_push b span c) = chunk_len c + 1) as Hlen'
    by (unfold chunk_len; cbn; rewrite length_app; cbn; lia).
  assert (all_before (chunk_len c + 1) (spans c)) as Hb' by (eapply Forall_impl; [exact Hb|]; cbn; lia).
  split.
  - cbn. by rewrite Hc, fmap_app.
  - cbn. case_match; [by apply ascending_snoc|done].
  - rewrite Hlen'. cbn. case_match; [|done]. apply Forall_app. split; [done|]. constructor; [cbn; lia|done].
  - intros k b' s [Hk|[-> [= <- <-]]]%lookup_snoc_or; unfold span_at; cbn.
    + pose proof (lookup_lt_Some _ _ _ Hk). rewrite <- (Hs _ _ _ Hk). case_match; [|done].
      rewrite scan_snoc by done. destruct (chunk_len c <=? N.of_nat k) eqn:E; [lia|done].
    + rewrite <- Hlen. case_match eqn:E.
      * rewrite scan_snoc by done. by rewrite N.leb_refl.
      * rewrite scan_last by done. destruct (last (spans c)) as [[o s]|]; [|done]. cbn.
        by case_bool_decide.
Qed.

Lemma truncate_spans c l at_ : spans_ok c l → spans_ok (chunk_truncate at_ c) (take (N.to_nat at_) l).
Proof.
  intros [Hc Ha Hb Hs]. destruct (pop_spans_ok at_ (spans c) Ha) as (H1 & H2 & H3 & H4). split.
  - cbn. by rewrite Hc, fmap_take.
  - done.
  - unfold chunk_len in *. cbn. rewrite length_take. apply H3 in Hb.
    apply Forall_forall. intros x Hx. pose proof (proj1 (Forall_forall _ _) Hb x Hx).
    pose proof (proj1 (Forall_forall _ _) H2 x Hx). cbn in *. lia.
  - intros k b s [Hk Hlt]%lookup_take_Some. unfold span_at. cbn. rewrite H4 by lia. by eapply Hs.
Qed.

(** The run-length encoded spans lose nothing: after any sequence of bytes
    pushed and ends of the code taken off again, every byte of the code is
    blamed on the span it was pushed with. *)
Theorem bytes_keep_their_spans xs :
  let c := foldl edit chunk_new xs in
  let l := foldl blame [] xs in
  code c = l.*1 ∧ ∀ k b s, l !! k = Some (b, s) → span_at c (N.of_nat k) = s.
Proof.
  assert (∀ c l, spans_ok c l → spans_ok (foldl edit c xs) (foldl blame l xs)) as H.
  { induction xs as [|[b span|at_] xs IH]; intros c l Hok; [done|apply IH..].
    - by apply push_spans.
    - by apply truncate_spans. }
  intros c l. destruct (H chunk_new []) as [? _ _ ?]; [split; by try constructor|]. by split.
Qed.
