(* ===== verification/Verify.v ===== *)
(** * The bytecode verifier (src/bytecode/verify.rs)

    [verify] decodes the code of one function and follows the height of its
    frame from instruction to instruction.  A message of the source is a
    constructor of [Wrong] with what it shows; a place where the source would
    panic (an index out of bounds, an [expect], [unreachable!]) is [Panics],
    and the fuel of a loop that runs out is [OutOfFuel]: the fuel
    [verify] starts with is enough, and no function makes it panic
    ([verify_total]). *)

From S2P Require Import Prelude Ops Chunk.
From Stdlib Require Import NArith Strings.Byte.

Open Scope N_scope.

(** ** The builtin registry (src/builtins/registry.rs) *)

(** What the verifier reads of a row of the registry. *)
Record BuiltinRow := mkBuiltinRow {
  signature : string;
  b_name : string;
  b_module : string;
  params : list string;
  dicts : N;
  enabled : bool;
}.

Definition is_constant (r : BuiltinRow) : bool := negb (String.prefix "fn " (signature r)).
Definition row_arity (r : BuiltinRow) : N := dicts r + N.of_nat (length (params r)).
Definition qualified (r : BuiltinRow) : string :=
  match b_module r with
  | "" => b_name r
  | m => (m ++ "." ++ b_name r)%string
  end.

(** ** Errors *)

Inductive Wrong :=
  | NoInstruction
  | NoCode
  | RunsOffItsEnd
  | NoneStartsAt (offset : N)
  | DifferentHeights (op : Op)
  | NoFunctionOfThisBuild (op : Op) (name : string)
  | NoBuiltin (op : Op) (id : BuiltinId)
  | NamesConstant (op : Op) (k len : N)
  | ConstantIs (op : Op) (k : N) (kind : ConstKind) (v : Value)
  | NamesSlot (op : Op) (slot height : N)
  | NamesUpvalue (op : Op) (index count : N)
  | CapturesSlot (op : Op) (slot height : N)
  | CapturesUpvalue (op : Op) (index count : N)
  | SegmentsAreValues (op : Op) (says are : N)
  | CapturesFor (op : Op) (captures upvalues : N)
  | NoReceiver (op : Op)
  | Keeps (op : Op) (keep arity : N)
  | NoDictionary (op : Op)
  | ReceiverAt (op : Op) (at_ argc : N)
  | NoDictConstant (op : Op)
  | MethodBy (op : Op) (at_ argc : N)
  | CallsWith (op : Op) (name : string) (argc takes : N)
  | TakesOff (op : Op) (pops height : N)
  | CutsBack (op : Op) (popped cut : N)
  | NamesGlobal (op : Op) (slot count : N)
  | NamesTrait (op : Op) (of_ count : N)
  | NamesMethod (op : Op) (method count : N).

Record VerifyError := mkVerifyError { error_at : N; error_what : Wrong }.

Inductive Fault := Malformed (e : VerifyError) | Panics | OutOfFuel.

Definition fail {A} (at_ : N) (what : Wrong) : Result Fault A := Err (Malformed (mkVerifyError at_ what)).

#[export] Instance result_bind E : MBind (Result E) := λ A B f r,
  match r with Ok x => f x | Err e => Err e end.

(** ** The check of one instruction *)

(** What is known about the frame where an instruction starts. *)
Record Frame := mkFrame { height : N; ragged : bool }.
#[export] Instance frame_eq_dec : EqDecision Frame.
Proof. solve_decision. Defined.

Section Verify.
Variable registry : BuiltinId → option BuiltinRow.

(** The row of the builtin that [op] names: a function that is built. *)
Definition builtin (op : Op) (id : BuiltinId) : Result Wrong BuiltinRow :=
  match registry id with
  | Some r =>
      if enabled r && negb (is_constant r) then Ok r
      else Err (NoFunctionOfThisBuild op (qualified r))
  | None => Err (NoBuiltin op id)
  end.

(** The constant is in the pool and of the kind. *)
Definition constant_fits (c : Chunk) (op : Op) (k : Const) (kind : ConstKind) : Result Wrong unit :=
  match constants c !! N.to_nat k with
  | None => Err (NamesConstant op k (N.of_nat (length (constants c))))
  | Some v =>
      let fits (b : bool) := if b then Ok tt else Err (ConstantIs op k kind v) in
      match kind with
      | CAny =>
          match v with
          | VVmClosure n upvalues => fits (n =? upvalues)
          | VBuiltinFn id => _ ← builtin op id; Ok tt
          | _ => Ok tt
          end
      | CStr => fits (match v with VString _ => true | _ => false end)
      | CTag => fits (match v with VVariantConstructor _ _ => true | _ => false end)
      | CType => fits (match v with VTypeDescriptor _ => true | _ => false end)
      | CFunc => fits (match v with VVmClosure _ _ => true | _ => false end)
      | CInt => fits (match v with VInt _ => true | _ => false end)
      | CFloat => fits (match v with VFloat _ => true | _ => false end)
      end
  end.

Fixpoint try_for_each {A} (f : A → Result Wrong unit) (l : list A) : Result Wrong unit :=
  match l with [] => Ok tt | x :: l => _ ← f x; try_for_each f l end.

Definition check_operand (f : Function) (op : Op) (frame : Frame) (o : Operand) : Result Wrong unit :=
  let c := chunk f in
  match o with
  | Plain | OTarget _ => Ok tt
  | OSlot slot => if height frame <=? slot then Err (NamesSlot op slot (height frame)) else Ok tt
  | OUpvalue i => if upvalue_count f <=? i then Err (NamesUpvalue op i (upvalue_count f)) else Ok tt
  | OConst k kind => constant_fits c op k kind
  | OBuiltin id => _ ← builtin op id; Ok tt
  | OStrs names => try_for_each (λ k, constant_fits c op k CStr) (iter names (code c))
  | OCaptures captures =>
      try_for_each (λ cap : UpvalueDesc,
        let i := index cap in
        if is_local cap
        then if height frame <=? i then Err (CapturesSlot op i (height frame)) else Ok tt
        else if upvalue_count f <=? i then Err (CapturesUpvalue op i (upvalue_count f)) else Ok tt)
        (iter captures (code c))
  | OSegments segments =>
      let l := segments_iter segments (code c) in
      if values l =? s_values segments
      then try_for_each (λ s, match s with
             | Literal k => constant_fits c op k CStr
             | SValue => Ok tt
             end) l
      else Err (SegmentsAreValues op (s_values segments) (values l))
  end.

(** Whether the instruction may run where the paths into it leave different
    heights. *)
Definition runs_ragged (op : Op) : bool :=
  match op with
  | Op.GetLocal | Op.Constant | Op.Slide | Op.Jump | Op.Return | Op.Panic => true
  | _ => false
  end.

(** What is asked of one instruction beyond its operands one by one. *)
Definition check_instr (f : Function) (at_ : N) (i : Instr) : Result Fault unit :=
  let op := instr_op i in
  match instr_op i as o return args instr_ty (fields (table o)) → Result Fault unit with
  | Op.MakeClosure => λ '(k, (captures, _)),
      match constant (chunk f) k with
      | Some (VVmClosure n _) =>
          if negb (n =? o_count captures) then fail at_ (CapturesFor op (o_count captures) n) else Ok tt
      | _ => Err Panics
      end
  | Op.CallMethod | Op.TailCallMethod => λ '(_, (argc, (_, (by_, _)))),
      if argc =? 0 then fail at_ (NoReceiver op)
      else if argc <=? by_ then fail at_ (MethodBy op by_ argc) else Ok tt
  | Op.TailCallKeep => λ '(_, (keep, _)),
      if arity f <? keep then fail at_ (Keeps op keep (arity f)) else Ok tt
  | Op.FrameDict => λ _, if negb (dict_slot f) then fail at_ (NoDictionary op) else Ok tt
  | Op.CallDict | Op.TailCallDict => λ '(_, (argc, (by_, _))),
      if (argc <=? by_) && negb (by_ =? 255) then fail at_ (ReceiverAt op by_ argc) else Ok tt
  | Op.CallChecked | Op.TailCallChecked => λ '(argc, (by_, _)),
      if (argc <=? by_) && negb (by_ =? 255) then fail at_ (ReceiverAt op by_ argc) else Ok tt
  | Op.MakeDict => λ '(k, _),
      match constant (chunk f) k with
      | Some VDict => Ok tt
      | Some _ => fail at_ (NoDictConstant op)
      | None => Err Panics
      end
  | Op.CallBuiltin => λ '(id, (argc, _)),
      match builtin op id with
      | Ok r =>
          if negb (argc =? row_arity r)
          then fail at_ (CallsWith op (qualified r) argc (row_arity r)) else Ok tt
      | Err _ => Ok tt
      end
  | _ => λ _, Ok tt
  end (instr_args i).

(** Check the instruction at [at_], which starts with [frame], and give the
    frame it leaves. *)
Definition check (f : Function) (at_ : N) (i : Instr) (frame : Frame) : Result Fault Frame :=
  let op := instr_op i in
  let e := effect i in
  if ragged frame && negb (runs_ragged op) then fail at_ (DifferentHeights op) else
  match try_for_each (check_operand f op frame) (operands i) with
  | Err w => fail at_ w
  | Ok _ =>
      _ ← check_instr f at_ i;
      if height frame <? pops e then fail at_ (TakesOff op (pops e) (height frame)) else
      let popped := height frame - pops e in
      match cut e with
      | Some c =>
          if popped <? c then fail at_ (CutsBack op popped c)
          else Ok (mkFrame (c + pushes e) false)
      | None => Ok (mkFrame (popped + pushes e) (ragged frame))
      end
  end.

(** ** The instructions of the code *)

(** The instructions, each with its offset and the next one's, and which of
    them starts at each offset. *)
Fixpoint read_instrs (fuel : nat) (code : list byte) (at_ : N)
    (instrs : list (N * Instr * N)) (starting_at : list (option nat)) :
    Result Fault (list (N * Instr * N) * list (option nat)) :=
  if N.of_nat (length code) <=? at_ then Ok (instrs, starting_at) else
  match fuel with
  | O => Err OutOfFuel
  | S fuel =>
      match decode code at_ with
      | None => fail at_ NoInstruction
      | Some (i, next) =>
          read_instrs fuel code next (instrs ++ [(at_, i, next)])
            (<[N.to_nat at_ := Some (length instrs)]> starting_at)
      end
  end.

(** ** The frames *)

(** Tell the instruction [target] that control arrives with [frame]; whether
    that is news to it. *)
Definition merged (known : option Frame) (frame : Frame) : Frame :=
  match known with
  | None => frame
  | Some known =>
      mkFrame (N.min (height known) (height frame))
        (ragged known || ragged frame || negb (height known =? height frame))
  end.

Definition arrive (frames : list (option Frame)) (target : nat) (frame : Frame) :
    Result Fault (list (option Frame) * bool) :=
  match frames !! target with
  | None => Err Panics
  | Some known =>
      let m := merged known frame in
      Ok (<[target := Some m]> frames, bool_decide (known ≠ Some m))
  end.

(** The offset an instruction that jumps goes to. *)
Definition target (i : Instr) : N :=
  foldl (λ offset o, match o with OTarget t => t | _ => offset end) 0 (operands i).

Definition may_jump (e : Effect) : bool := match flow e with Branch | Jump => true | _ => false end.
Definition goes_on (e : Effect) : bool := match flow e with Next | Branch => true | _ => false end.

Section Follow.
Variable f : Function.
Variable instrs : list (N * Instr * N).
Variable starting_at : list (option nat).

(** The jump of the instruction, when it has one: its target hears of the
    frame and goes on the work list when that is news. *)
Definition jump (at_ : N) (i : Instr) (after : Frame) (frames : list (option Frame)) (work : list nat) :
    Result Fault (list (option Frame) * list nat) :=
  if may_jump (effect i) then
    match starting_at !! N.to_nat (target i) with
    | Some (Some t) =>
        '(frames, news) ← arrive frames t after;
        Ok (frames, if (news : bool) then t :: work else work)
    | _ => fail at_ (NoneStartsAt (target i))
    end
  else Ok (frames, work).

(** The work list, from an instruction whose frame changed: it is followed on
    to the next one for as long as that one's frame changes too.  Gives the
    frames when the work list is empty. *)
Fixpoint follow (fuel : nat) (index : nat) (frames : list (option Frame)) (work : list nat) :
    Result Fault (list (option Frame)) :=
  match fuel with
  | O => Err OutOfFuel
  | S fuel =>
      let pop (frames : list (option Frame)) (work : list nat) :=
        match work with [] => Ok frames | index :: work => follow fuel index frames work end in
      match instrs !! index, frames !! index with
      | Some (at_, i, _), Some (Some frame) =>
          after ← check f at_ i frame;
          '(frames, work) ← jump at_ i after frames work;
          if goes_on (effect i) then
            '(frames, news) ← arrive frames (S index) after;
            if (news : bool) then follow fuel (S index) frames work else pop frames work
          else pop frames work
      | _, _ => Err Panics
      end
  end.

(** Enough steps: a frame changes at most as often as its height, which no
    path raises past the arity and what every instruction pushes, can fall. *)
Definition enough : nat :=
  let n := length instrs in
  let most := foldr (λ '(_, i, _) m, N.to_nat (pushes (effect i)) `max` m)%nat O instrs in
  (2 * (n * (2 * (N.to_nat (arity f) + most * n) + 2)) + 2)%nat.

(** The frames of the function's instructions. *)
Definition verify_frames : Result Fault (list (option Frame)) :=
  match last instrs with
  | None => fail 0 NoCode
  | Some (at_, i, _) =>
      if goes_on (effect i) then fail at_ RunsOffItsEnd
      else
        follow enough 0 (<[O := Some (mkFrame (arity f) false)]> (replicate (length instrs) None)) []
  end.
End Follow.

(** Check the code of a function. *)
Definition verify (f : Function) : Result Fault unit :=
  let code := code (chunk f) in
  '(instrs, starting_at) ← read_instrs (length code) code 0 [] (replicate (length code) None);
  _ ← verify_frames f instrs starting_at;
  Ok tt.

(** ** The names of the program's globals *)

(** What the verifier asks of the globals: how many slots, traits and method
    names there are. *)
Definition check_globals (slots traits methods : N) (at_ : N) (i : Instr) : Result Fault unit :=
  let op := instr_op i in
  match instr_op i as o return args instr_ty (fields (table o)) → Result Fault unit with
  | Op.GetGlobal | Op.SetGlobal => λ '(slot, _),
      if slots <=? slot then fail at_ (NamesGlobal op slot slots) else Ok tt
  | Op.CallMethod | Op.TailCallMethod => λ '(method, (_, (of_, _))),
      if traits <=? of_ then fail at_ (NamesTrait op of_ traits)
      else if methods <=? method then fail at_ (NamesMethod op method methods) else Ok tt
  | _ => λ _, Ok tt
  end (instr_args i).

Fixpoint verify_globals_from (fuel : nat) (code : list byte) (slots traits methods at_ : N) :
    Result Fault unit :=
  if N.of_nat (length code) <=? at_ then Ok tt else
  match fuel with
  | O => Err OutOfFuel
  | S fuel =>
      match decode code at_ with
      | None => fail at_ NoInstruction
      | Some (i, next) =>
          _ ← check_globals slots traits methods at_ i;
          verify_globals_from fuel code slots traits methods next
      end
  end.

(** Each global slot, trait and method name of the code is one of the
    program's. *)
Definition verify_globals (f : Function) (slots traits methods : N) : Result Fault unit :=
  verify_globals_from (length (code (chunk f))) (code (chunk f)) slots traits methods 0.
End Verify.
