(* ===== verification/VerifyFacts.v ===== *)
(** * Facts about the verifier

    The decoder moves forward; the instructions the verifier reads are the
    ones of the code from its first byte to its last; the frames it ends with
    are closed under the steps of the instructions ([closed]); its loop ends
    within the fuel it starts with. *)

From S2P Require Import Prelude Ops Chunk Verify.
From Stdlib Require Import NArith ZifyBool ZifyN Strings.Byte.

Open Scope N_scope.

(** ** The decoder moves forward *)

(** Case analysis on the reads of a decoder that gave something. *)
Ltac read_inv :=
  repeat match goal with
  | H : (_ ≫= _) = Some _ |- _ => apply bind_Some in H as (? & ? & ?)
  | H : (if _ then _ else _) = Some _ |- _ => case_match
  | x : prod _ _ |- _ => destruct x
  | H : _ !! _ = Some _ |- _ => apply lookup_lt_Some in H
  end; simplify_eq/=.

Section Forward.
Variable code : list byte.
Notation len := (N.of_nat (length code)).

Lemma read_u8_after at_ v at' : read_u8 code at_ = Some (v, at') → at_ < at' <= len.
Proof. unfold read_u8. intros. read_inv. lia. Qed.

Lemma read_u16_after at_ v at' : read_u16 code at_ = Some (v, at') → at_ < at' <= len.
Proof. unfold read_u16. intros. read_inv. lia. Qed.

Lemma read_items_after T `{!Packed T} n at_ o at' :
  read_items code T n at_ = Some (o, at') → at_ <= at' <= len.
Proof. unfold read_items. intros. read_inv. lia. Qed.

Lemma decode_operand_after k at_ v at' : decode_operand code k at_ = Some (v, at') → at_ < at' <= len.
Proof.
  destruct k; cbn [decode_operand instr_ty] in *; eauto using read_u8_after, read_u16_after;
    unfold read_fwd, read_rel, read_list, read_segments; intros; read_inv;
    repeat match goal with
    | H : read_u8 _ _ = _ |- _ => apply read_u8_after in H
    | H : read_u16 _ _ = _ |- _ => apply read_u16_after in H
    | H : read_items _ _ _ _ = _ |- _ => apply read_items_after in H
    end; lia.
Qed.

Lemma decode_args_after fs at_ vs at' :
  decode_args code fs at_ = Some (vs, at') → at_ <= at' ∧ (at_ <= len → at' <= len).
Proof.
  revert at_. induction fs as [|[k what] fs IH]; intros at_; cbn [decode_args]; intros; read_inv; [lia|].
  match goal with H : decode_operand _ _ _ = _ |- _ => apply decode_operand_after in H end.
  match goal with H : decode_args _ _ _ = _ |- _ => apply IH in H end. lia.
Qed.

Lemma decode_after at_ i next : decode code at_ = Some (i, next) → at_ < next <= len.
Proof.
  unfold decode. intros. read_inv.
  match goal with H : decode_args _ _ _ = _ |- _ => apply decode_args_after in H end. lia.
Qed.
End Forward.

(** ** The instructions of the code *)

(** Instructions one after the other, from [at_] to the end of the code. *)
Inductive chain (code : list byte) : N → list (N * Instr * N) → Prop :=
  | chain_end at_ : at_ = N.of_nat (length code) → chain code at_ []
  | chain_cons at_ i next l :
      decode code at_ = Some (i, next) → chain code next l → chain code at_ ((at_, i, next) :: l).

Lemma chain_decode code at_ l k a i next :
  chain code at_ l → l !! k = Some (a, i, next) → decode code a = Some (i, next).
Proof.
  intros H. revert k. induction H as [|at_ i' next' l Hd _ IH]; intros k Hk; [done|].
  destruct k as [|k]; [by simplify_eq/=|eauto].
Qed.

Lemma chain_next code at_ l k a i next a' i' next' :
  chain code at_ l → l !! k = Some (a, i, next) → l !! S k = Some (a', i', next') → a' = next.
Proof.
  intros H. revert k. induction H as [|at_ j nj l Hd Hc IH]; intros k Hk Hk'; [done|].
  destruct k as [|k]; [|by eapply IH]. simplify_eq/=. destruct Hc; by simplify_eq/=.
Qed.

Lemma chain_first code at_ l a i next :
  chain code at_ l → l !! O = Some (a, i, next) → a = at_.
Proof. intros [] Hk; by simplify_eq/=. Qed.

(** Which instruction starts at each offset. *)
Definition starts (instrs : list (N * Instr * N)) (starting_at : list (option nat)) : Prop :=
  ∀ offset t, starting_at !! offset = Some (Some t) →
    ∃ i next, instrs !! t = Some (N.of_nat offset, i, next).

Lemma starts_add instrs starting_at at_ i next :
  starts instrs starting_at →
  starts (instrs ++ [(at_, i, next)]) (<[N.to_nat at_ := Some (length instrs)]> starting_at).
Proof.
  intros Hs offset t [[<- [[= <-] ?]]|[? Ht]]%list_lookup_insert_Some.
  - exists i, next. rewrite lookup_app_r, Nat.sub_diag by lia. by rewrite N2Nat.id.
  - destruct (Hs _ _ Ht) as (j & nj & Hj). exists j, nj. by apply lookup_app_l_Some.
Qed.

Lemma read_instrs_ok fuel code at_ instrs starting_at :
  at_ <= N.of_nat (length code) → (length code - N.to_nat at_ <= fuel)%nat →
  starts instrs starting_at →
  match read_instrs fuel code at_ instrs starting_at with
  | Ok (instrs', starting_at') =>
      ∃ l, instrs' = instrs ++ l ∧ chain code at_ l ∧ starts instrs' starting_at'
  | Err (Malformed _) => True
  | Err _ => False
  end.
Proof.
  revert at_ instrs starting_at. induction fuel as [|fuel IH]; intros at_ instrs starting_at Hat Hf Hs;
    cbn [read_instrs]; destruct (N.of_nat (length code) <=? at_) eqn:E;
    [exists []; rewrite app_nil_r; split_and!; [done|constructor; lia|done] | lia
    |exists []; rewrite app_nil_r; split_and!; [done|constructor; lia|done] |].
  destruct (decode code at_) as [[i next]|] eqn:Hd; [|done].
  pose proof (decode_after _ _ _ _ Hd).
  specialize (IH next _ _ ltac:(lia) ltac:(lia) (starts_add _ _ at_ i next Hs)).
  destruct (read_instrs _ _ _ _ _) as [[instrs' starting_at']|[]]; [|done..].
  destruct IH as (l & -> & Hc & Hs'). exists ((at_, i, next) :: l).
  rewrite <- app_assoc in *. split_and!; [done| |done]. by constructor.
Qed.

(** ** Frames *)

(** [m] says no more than [a] does: every height [a] allows, [m] does. *)
Definition below (m a : Frame) : Prop :=
  height m <= height a ∧ (ragged m = false → ragged a = false ∧ height m = height a).

#[export] Instance below_preorder : PreOrder below.
Proof.
  split.
  - intros fr. by split.
  - intros a b c [H1 H2] [H3 H4]. split; [lia|]. intros Ha. destruct (H2 Ha) as [Hb ?].
    destruct (H4 Hb). split; [done|congruence].
Qed.

Lemma merged_below_new known fr : below (merged known fr) fr.
Proof.
  destruct known as [[h r]|]; [|reflexivity]. destruct fr as [h' r'].
  unfold below, merged. cbn. split; [lia|]. destruct r, r'; try done. cbn. intros. split; [done|lia].
Qed.

Lemma merged_below_known known fr : below (merged (Some known) fr) known.
Proof.
  destruct known as [h r], fr as [h' r']. unfold below, merged. cbn. split; [lia|].
  destruct r, r'; try done. cbn. intros. split; [done|lia].
Qed.

(** The frame of instruction [k] is known, and says no more than [fr]. *)
Definition knows (frames : list (option Frame)) (k : nat) (fr : Frame) : Prop :=
  ∃ m, frames !! k = Some (Some m) ∧ below m fr.

(** Frames only come to say less. *)
Definition descends (frames frames' : list (option Frame)) : Prop :=
  length frames' = length frames ∧
  ∀ k fr, frames !! k = Some (Some fr) → knows frames' k fr.

#[export] Instance descends_preorder : PreOrder descends.
Proof.
  split.
  - intros frames. split; [done|]. intros k fr ?. exists fr. by split.
  - intros a b c [L1 H1] [L2 H2]. split; [congruence|]. intros k fr Hk.
    destruct (H1 _ _ Hk) as (m & Hm & ?). destruct (H2 _ _ Hm) as (m' & ? & ?).
    exists m'. split; [done|]. by etrans.
Qed.

Lemma knows_descends frames frames' k fr :
  descends frames frames' → knows frames k fr → knows frames' k fr.
Proof.
  intros [_ H] (m & Hm & Hb). destruct (H _ _ Hm) as (m' & ? & ?). exists m'. split; [done|]. by etrans.
Qed.

(** How often a frame can change, when no height passes [H]. *)
Section Weight.
Variable H : nat.

Definition weight (x : option Frame) : nat :=
  match x with
  | None => 2 * H + 2
  | Some fr => 2 * N.to_nat (height fr) + (if ragged fr then 0 else 1)
  end.

Definition weights (frames : list (option Frame)) : nat := sum_list_with weight frames.

Lemma weights_insert frames k x y :
  frames !! k = Some x → (weights (<[k := y]> frames) + weight x = weights frames + weight y)%nat.
Proof.
  revert k. induction frames as [|z frames IH]; intros [|k] Hk; try done.
  - cbn in Hk. injection Hk as ->. unfold weights. cbn -[weight]. lia.
  - specialize (IH k Hk).
    change (weights (<[S k := y]> (z :: frames))) with (weight z + weights (<[k := y]> frames))%nat.
    change (weights (z :: frames)) with (weight z + weights frames)%nat. lia.
Qed.

(** A change that is news lowers the weight. *)
Lemma merged_weight known fr :
  (N.to_nat (height fr) <= H)%nat → known ≠ Some (merged known fr) →
  (weight (Some (merged known fr)) < weight known)%nat.
Proof.
  destruct known as [[h r]|], fr as [h' r']; cbn; intros Hh Hne.
  - destruct (decide (h <= h')) as [Hle|Hlt].
    + rewrite N.min_l by done. rewrite N.min_l in Hne by done.
      destruct r; cbn in *; [done|]. destruct (r' || negb (h =? h')); [lia|done].
    + rewrite N.min_r by lia. repeat case_match; lia.
  - destruct r'; lia.
Qed.
End Weight.

(** How many frames are known. *)
Definition known (frames : list (option Frame)) : nat :=
  sum_list_with (λ x, if x is Some _ then 1 else 0)%nat frames.

Lemma known_insert frames k x fr :
  frames !! k = Some x →
  (known (<[k := Some fr]> frames) = known frames + (if x is None then 1 else 0))%nat.
Proof.
  revert k. induction frames as [|z frames IH]; intros [|k] Hk; try done.
  - cbn in Hk. injection Hk as ->. unfold known. cbn. destruct x; lia.
  - specialize (IH k Hk). set (one := λ x : option Frame, (if x is Some _ then 1 else 0)%nat).
    change (known (<[S k := Some fr]> (z :: frames))) with (one z + known (<[k := Some fr]> frames))%nat.
    change (known (z :: frames)) with (one z + known frames)%nat. lia.
Qed.

Lemma known_le frames : (known frames <= length frames)%nat.
Proof. induction frames as [|[] frames IH]; unfold known in *; cbn; lia. Qed.

(** ** The check of an instruction *)

Lemma try_for_each_ok {A} (g : A → Result Wrong unit) l :
  try_for_each g l = Ok tt ↔ Forall (λ x, g x = Ok tt) l.
Proof.
  induction l as [|x l IH]; cbn; [by split|]. rewrite Forall_cons, <- IH.
  destruct (g x) as [[]|e]; cbn; naive_solver.
Qed.

Definition faultless {A} (r : Result Fault A) : Prop :=
  match r with Ok _ | Err (Malformed _) => True | Err _ => False end.

Section Check.
Variable registry : BuiltinId → option BuiltinRow.
Variable f : Function.

Notation check := (check registry f).
Notation operands_ok fr i := (Forall (λ o, check_operand registry f (instr_op i) fr o = Ok tt) (operands i)).

Lemma check_instr_faultless at_ i fr : operands_ok fr i → faultless (check_instr registry f at_ i).
Proof.
  destruct i as [op vs]. destruct op; cbn in vs |- *; try done; repeat destruct vs as [? vs];
    try (by intros; unfold fail; repeat case_match).
  - intros [Hk _]%Forall_cons. unfold check_operand, constant_fits in Hk. unfold constant.
    destruct (constants (chunk f) !! _) as [v|]; [|done]. by destruct v; try case_match.
  - intros [Hk _]%Forall_cons. unfold check_operand, constant_fits in Hk. unfold constant.
    destruct (constants (chunk f) !! _) as [v|]; [|done]. by destruct v.
Qed.

Lemma check_faultless at_ i fr : faultless (check at_ i fr).
Proof.
  unfold Verify.check. destruct (ragged fr && _); [done|].
  destruct (try_for_each _ _) as [[]|w] eqn:E; [|done]. apply try_for_each_ok in E.
  pose proof (check_instr_faultless at_ i fr E) as Hi. unfold mbind, result_bind.
  destruct (check_instr _ _ _ _) as [[]|e]; [|done]. by repeat case_match.
Qed.

(** What a check that passes has found. *)
Lemma check_ok at_ i fr after :
  check at_ i fr = Ok after →
  (ragged fr = true → runs_ragged (instr_op i) = true) ∧
  operands_ok fr i ∧ check_instr registry f at_ i = Ok tt ∧
  pops (effect i) <= height fr ∧
  match cut (effect i) with
  | Some c => c <= height fr - pops (effect i) ∧ after = mkFrame (c + pushes (effect i)) false
  | None => after = mkFrame (height fr - pops (effect i) + pushes (effect i)) (ragged fr)
  end.
Proof.
  unfold Verify.check. destruct (ragged fr && _) eqn:Er; [done|].
  destruct (try_for_each _ _) as [[]|w] eqn:E; [|done]. apply try_for_each_ok in E.
  unfold mbind, result_bind. destruct (check_instr _ _ _ _) as [[]|e]; [|done].
  destruct (height fr <? pops (effect i)) eqn:Ep; [done|]. intros Hc.
  split_and!; [|done|done|lia|].
  - intros Hr. rewrite Hr in Er. by destruct (runs_ragged _).
  - destruct (cut (effect i)) as [c|]; [|by simplify_eq]. case_match; [done|].
    simplify_eq. split; [lia|done].
Qed.

Lemma check_height at_ i fr after :
  check at_ i fr = Ok after → height after <= height fr + pushes (effect i).
Proof.
  intros (_ & _ & _ & Hp & H)%check_ok. destruct (cut _); [destruct H as [? ->]|subst]; cbn; lia.
Qed.
End Check.

(** ** The loop *)

Section Loop.
Variable registry : BuiltinId → option BuiltinRow.
Variable f : Function.
Variable instrs : list (N * Instr * N).
Variable starting_at : list (option nat).
Hypothesis Hstarts : starts instrs starting_at.
Hypothesis Hlast : ∀ at_ i next, last instrs = Some (at_, i, next) → goes_on (effect i) = false.

Notation check := (check registry f).
Notation follow := (follow registry f instrs starting_at).
Notation n := (length instrs).

Definition most : nat :=
  foldr (λ '(_, i, _) m, N.to_nat (pushes (effect i)) `max` m)%nat O instrs.

Lemma pushes_most k at_ i next :
  instrs !! k = Some (at_, i, next) → (N.to_nat (pushes (effect i)) <= most)%nat.
Proof.
  unfold most. clear. revert k. induction instrs as [|[[a j] nj] l IH]; intros [|k] Hk; try done.
  - simplify_eq/=. lia.
  - cbn. apply IH in Hk. lia.
Qed.

Lemma next_instr k at_ i next :
  instrs !! k = Some (at_, i, next) → goes_on (effect i) = true → (S k < n)%nat.
Proof.
  intros Hk Hg. pose proof (lookup_lt_Some _ _ _ Hk).
  destruct (decide (S k = n)) as [Hn|]; [|lia].
  rewrite (Hlast at_ i next) in Hg; [done|]. rewrite last_lookup, <- Hn. done.
Qed.

(** The greatest height a frame can have, with [k] frames known. *)
Definition top (k : nat) : nat := (N.to_nat (arity f) + most * k)%nat.

Definition bounded (frames : list (option Frame)) : Prop :=
  length frames = n ∧ (1 <= known frames)%nat ∧
  ∀ k fr, frames !! k = Some (Some fr) → (N.to_nat (height fr) <= top (known frames - 1))%nat.

Notation weights := (weights (top n)).

Lemma arrive_ok frames t fr :
  bounded frames → (t < n)%nat → (N.to_nat (height fr) <= top (known frames))%nat →
  ∃ frames' news, arrive frames t fr = Ok (frames', news) ∧
    bounded frames' ∧ descends frames frames' ∧ knows frames' t fr ∧
    (∀ k, k ≠ t → frames' !! k = frames !! k) ∧
    (known frames <= known frames')%nat ∧
    (if news : bool then weights frames' < weights frames else frames' = frames)%nat.
Proof.
  intros (Hl & H1 & Hb) Ht Hfr. unfold arrive.
  destruct (lookup_lt_is_Some_2 frames t) as [x Hx]; [lia|]. rewrite Hx.
  eexists _, _. split; [done|]. pose proof (known_insert frames t x (merged x fr) Hx) as Hk.
  pose proof (known_le frames).
  split_and!.
  - split_and!; [by rewrite length_insert|rewrite Hk; lia|].
    intros k fr' [[-> [[= <-] _]]|[Hne Hk']]%list_lookup_insert_Some; rewrite Hk.
    + destruct x as [fx|]; cbn.
      * specialize (Hb _ _ Hx). unfold top in *. nia.
      * unfold top in *. nia.
    + specialize (Hb _ _ Hk'). unfold top in *. destruct x; nia.
  - split; [by rewrite length_insert|]. intros k fr' Hk'.
    destruct (decide (k = t)) as [->|Hne].
    + exists (merged x fr). rewrite list_lookup_insert_eq by lia. split; [done|].
      assert (x = Some fr') as -> by congruence. apply merged_below_known.
    + exists fr'. by rewrite list_lookup_insert_ne.
  - exists (merged x fr). rewrite list_lookup_insert_eq by lia. split; [done|apply merged_below_new].
  - intros k Hne. by rewrite list_lookup_insert_ne.
  - rewrite Hk. lia.
  - case_bool_decide as Hx'.
    + pose proof (weights_insert (top n) frames t x (Some (merged x fr)) Hx).
      pose proof (merged_weight (top n) x fr).
      assert (top (known frames) <= top n)%nat by (unfold top; nia). lia.
    + by rewrite list_insert_id by congruence.
Qed.

(** The steps of instruction [k] from its frame lead to frames that are
    known. *)
Definition closed (frames : list (option Frame)) (k : nat) : Prop :=
  ∀ fr, frames !! k = Some (Some fr) →
  ∃ at_ i next after, instrs !! k = Some (at_, i, next) ∧ check at_ i fr = Ok after ∧
    (may_jump (effect i) = true →
      ∃ t, starting_at !! N.to_nat (target i) = Some (Some t) ∧ knows frames t after) ∧
    (goes_on (effect i) = true → knows frames (S k) after).

Lemma closed_descends frames frames' k :
  descends frames frames' → frames' !! k = frames !! k → closed frames k → closed frames' k.
Proof.
  intros Hd Hk Hc fr Hfr. rewrite Hk in Hfr.
  destruct (Hc fr Hfr) as (at_ & i & next & after & ? & ? & Hj & Hg).
  exists at_, i, next, after. split_and!; [done..| |].
  - intros Hm. destruct (Hj Hm) as (t & ? & ?). exists t. split; [done|]. by eapply knows_descends.
  - intros Hm. eapply knows_descends; eauto.
Qed.

Definition has_frame (frames : list (option Frame)) (k : nat) : Prop :=
  ∃ fr, frames !! k = Some (Some fr).

Lemma has_frame_descends frames frames' k : descends frames frames' → has_frame frames k → has_frame frames' k.
Proof. intros [_ H] [fr Hfr]. destruct (H _ _ Hfr) as (m & ? & _). by exists m. Qed.

(** What a part of the step of an instruction does to the frames: they only
    come to say less, those that changed are on the work list, and each that
    did has cost weight. *)
Record moves (frames : list (option Frame)) (work : list nat)
    (frames' : list (option Frame)) (work' : list nat) : Prop := mkMoves {
  moves_bounded : bounded frames';
  moves_descends : descends frames frames';
  moves_known : (known frames <= known frames')%nat;
  moves_work : ∀ j, j ∉ work' → j ∉ work ∧ frames' !! j = frames !! j;
  moves_frames : Forall (has_frame frames) work → Forall (has_frame frames') work';
  moves_weight : (2 * weights frames' + length work' <= 2 * weights frames + length work)%nat;
}.

Lemma moves_none frames work : bounded frames → moves frames work frames work.
Proof. intros. split; try done. Qed.

Lemma arrive_moves frames work t fr :
  bounded frames → (t < n)%nat → (N.to_nat (height fr) <= top (known frames))%nat →
  ∃ frames' news, arrive frames t fr = Ok (frames', news) ∧
    knows frames' t fr ∧ (news = true → has_frame frames' t) ∧
    moves frames work frames' (if news : bool then t :: work else work) ∧
    (news = true → (2 * weights frames' + 1 < 2 * weights frames)%nat).
Proof.
  intros Hb Ht Hfr.
  destruct (arrive_ok frames t fr Hb Ht Hfr) as (frames' & news & Ha & Hb' & Hd & Hk & Hne & Hkn & Hw).
  assert (has_frame frames' t) by (destruct Hk as (m & ? & _); by exists m).
  exists frames', news. split_and!; try done.
  - destruct news; [|subst; by apply moves_none]. split; try done.
    + intros j [Hj ?]%not_elem_of_cons. by rewrite Hne.
    + intros Hf. constructor; [done|]. eapply Forall_impl; [exact Hf|].
      intros. by eapply has_frame_descends.
    + cbn. lia.
  - intros ->. lia.
Qed.

Lemma jump_moves frames work at_ i after :
  bounded frames → (N.to_nat (height after) <= top (known frames))%nat →
  match jump starting_at at_ i after frames work with
  | Ok (frames', work') =>
      moves frames work frames' work' ∧
      (may_jump (effect i) = true →
        ∃ t, starting_at !! N.to_nat (target i) = Some (Some t) ∧ knows frames' t after)
  | Err (Malformed _) => True
  | Err _ => False
  end.
Proof.
  intros Hb Ha. unfold jump. destruct (may_jump (effect i)); [|by split; [apply moves_none|]].
  destruct (starting_at !! _) as [[t|]|] eqn:Ht; [|done..].
  assert (t < n)%nat as Hn
    by (destruct (Hstarts _ _ Ht) as (? & ? & ?%lookup_lt_Some); done).
  destruct (arrive_moves frames work t after Hb Hn Ha) as (frames' & news & -> & Hk & _ & Hm & _).
  cbn. split; [done|]. intros _. by exists t.
Qed.

Lemma moves_closed frames work frames' work' j :
  moves frames work frames' work' → j ∉ work' →
  (j ∉ work → closed frames j) → closed frames' j.
Proof.
  intros Hm Hj Hc. destruct (moves_work _ _ _ _ Hm j Hj) as [Hw Hf].
  eapply closed_descends; eauto using moves_descends.
Qed.

(** The frames after the parts of the step of instruction [index]: closed but
    for those on the work list. *)
Lemma step_closed frames work frames1 work1 frames2 work2 index fr at_ i next after :
  frames !! index = Some (Some fr) → instrs !! index = Some (at_, i, next) →
  check at_ i fr = Ok after →
  (∀ k, k ≠ index → k ∉ work → closed frames k) →
  moves frames work frames1 work1 →
  (may_jump (effect i) = true →
    ∃ t, starting_at !! N.to_nat (target i) = Some (Some t) ∧ knows frames1 t after) →
  moves frames1 work1 frames2 work2 →
  (goes_on (effect i) = true → knows frames2 (S index) after) →
  ∀ j, j ∉ work2 → closed frames2 j.
Proof.
  intros Hfr Hi Hck Hc Hm1 Hj Hm2 Hg j Hj2. destruct (moves_work _ _ _ _ Hm2 j Hj2) as [Hj1 Hf2].
  destruct (decide (j = index)) as [->|Hne].
  - intros fr' Hfr'. destruct (moves_work _ _ _ _ Hm1 index Hj1) as [_ Hf1].
    rewrite Hf2, Hf1, Hfr in Hfr'. simplify_eq. exists at_, i, next, after. split_and!; [done..| |done].
    intros Hmay. destruct (Hj Hmay) as (t & ? & ?). exists t. split; [done|].
    eapply knows_descends; eauto using moves_descends.
  - eapply (moves_closed frames1 work1); eauto. intros. eapply moves_closed; eauto.
Qed.

(** What the loop ends with. *)
Definition ends_well (frames : list (option Frame)) (r : Result Fault (list (option Frame))) : Prop :=
  match r with
  | Ok frames' => descends frames frames' ∧ ∀ k, closed frames' k
  | Err (Malformed _) => True
  | Err _ => False
  end.

Lemma ends_well_descends frames frames2 r :
  descends frames frames2 → ends_well frames2 r → ends_well frames r.
Proof. destruct r as [frames'|[]]; cbn; [|done..]. intros ? [? ?]. split; [by etrans|done]. Qed.

Lemma follow_ok fuel index frames work :
  bounded frames → has_frame frames index → Forall (has_frame frames) work →
  (∀ k, k ≠ index → k ∉ work → closed frames k) →
  (2 * weights frames + length work < fuel)%nat →
  ends_well frames (follow fuel index frames work).
Proof.
  revert index frames work. induction fuel as [|fuel IH]; intros index frames work Hb [fr Hfr] Hw Hc Hf; [lia|].
  cbn [Verify.follow]. rewrite Hfr.
  destruct (lookup_lt_is_Some_2 instrs index) as [[[at_ i] next] Hi].
  { destruct Hb as (<- & _). by eapply lookup_lt_Some. }
  rewrite Hi. unfold mbind at 1, result_bind at 1.
  pose proof (check_faultless registry f at_ i fr) as Hfl.
  destruct (check at_ i fr) as [after|[]] eqn:Hck; [|done..].
  assert (N.to_nat (height after) <= top (known frames))%nat as Hafter.
  { pose proof (check_height _ _ _ _ _ _ Hck). pose proof (pushes_most _ _ _ _ Hi).
    destruct Hb as (_ & ? & Hb). specialize (Hb _ _ Hfr). unfold top in *. nia. }
  pose proof (jump_moves frames work at_ i after Hb Hafter) as Hj.
  unfold mbind at 1, result_bind at 1.
  destruct (jump _ _ _ _ _ _) as [[frames1 work1]|[]]; [|done..]. destruct Hj as [Hm1 Hj].
  assert (∀ (frames2 : list (option Frame)) work2,
    moves frames1 work1 frames2 work2 → (goes_on (effect i) = true → knows frames2 (S index) after) →
    ends_well frames (match work2 with [] => Ok frames2 | k :: work => follow fuel k frames2 work end)) as Hpop.
  { intros frames2 work2 Hm2 Hg.
    pose proof (step_closed _ _ _ _ _ _ _ _ _ _ _ _ Hfr Hi Hck Hc Hm1 Hj Hm2 Hg) as Hc2.
    apply (ends_well_descends _ frames2); [etrans; eauto using moves_descends|].
    assert (Forall (has_frame frames2) work2) as Hw2 by eauto using moves_frames.
    pose proof (moves_weight _ _ _ _ Hm1). pose proof (moves_weight _ _ _ _ Hm2).
    destruct work2 as [|k work2]; [split; [done|]; intros; by apply Hc2, not_elem_of_nil|].
    apply Forall_cons in Hw2 as [Hk Hw2]. cbn in *.
    apply IH; eauto using moves_bounded; [intros; apply Hc2; set_solver|lia]. }
  destruct (goes_on (effect i)) eqn:Hgo.
  2: { apply Hpop; [apply moves_none; by eapply moves_bounded|done]. }
  destruct (arrive_moves frames1 work1 (S index) after) as (frames2 & news & -> & Hk & _ & Hm2 & Hnw);
    [by eapply moves_bounded|by eapply next_instr| |].
  { pose proof (moves_known _ _ _ _ Hm1). unfold top in *. nia. }
  cbn. destruct news; [|by apply Hpop]. exact (Hpop _ _ Hm2 (λ _, Hk)).
Qed.

(** The frames the loop starts with: the first instruction's only. *)
Definition first_frames : list (option Frame) :=
  <[0%nat := Some (mkFrame (arity f) false)]> (replicate n None).

Lemma first_frames_only k fr :
  first_frames !! k = Some (Some fr) → k = 0%nat ∧ fr = mkFrame (arity f) false.
Proof.
  intros [[<- [[= <-] _]]|[_ Hk]]%list_lookup_insert_Some; [done|].
  apply lookup_replicate in Hk as [? _]. done.
Qed.

Lemma first_frames_weight : (0 < n)%nat → (weights first_frames <= n * (2 * top n + 2))%nat.
Proof.
  intros Hn. pose proof (weights_insert (top n) (replicate n None) 0 None (Some (mkFrame (arity f) false))
    ltac:(by apply lookup_replicate_2)) as Hi.
  assert (∀ m, weights (replicate m None) = m * (2 * top n + 2))%nat as Hr.
  { intros m. induction m as [|m IHm]; [done|].
    change (weights (replicate (S m) None)) with (2 * top n + 2 + weights (replicate m None))%nat. lia. }
  rewrite Hr in Hi. cbn [weight height ragged] in Hi. unfold first_frames. unfold top in *. lia.
Qed.

Lemma first_follow_ok :
  (0 < n)%nat → ends_well first_frames (follow (enough f instrs) 0 first_frames []).
Proof.
  intros Hn.
  assert (known first_frames = 1%nat) as Hk1.
  { unfold first_frames. rewrite (known_insert _ _ None) by (by apply lookup_replicate_2).
    assert (∀ m, known (replicate m None) = 0%nat) as -> by (intros m; induction m; done). done. }
  apply follow_ok; [| |done| |].
  - split_and!; [by unfold first_frames; rewrite length_insert, length_replicate|lia|].
    intros k fr [_ ->]%first_frames_only. rewrite Hk1. unfold top. cbn. lia.
  - eexists. apply list_lookup_insert_eq. by rewrite length_replicate.
  - intros k Hne _ fr [? _]%first_frames_only. done.
  - pose proof (first_frames_weight Hn). unfold enough. change (foldr _ _ instrs) with most.
    unfold top in *. cbn [length]. lia.
Qed.
End Loop.

(** The frames the verifier ends with: the first instruction's is the
    function's arguments or says less, and the steps of each lead to
    others. *)
Lemma verify_frames_ok registry f instrs starting_at :
  starts instrs starting_at →
  match verify_frames registry f instrs starting_at with
  | Ok frames =>
      knows frames 0 (mkFrame (arity f) false) ∧
      ∀ k, closed registry f instrs starting_at frames k
  | Err (Malformed _) => True
  | Err _ => False
  end.
Proof.
  intros Hs. unfold verify_frames. destruct (last instrs) as [[[at_ i] next]|] eqn:E; [|done].
  destruct (goes_on (effect i)) eqn:Hg; [done|].
  assert (0 < length instrs)%nat as Hn by (destruct instrs; cbn in *; [done|lia]).
  pose proof (first_follow_ok registry f instrs starting_at Hs ltac:(naive_solver) Hn) as Hw.
  unfold ends_well, first_frames in Hw. destruct (follow _ _ _ _ _ _ _) as [frames'|[]]; [|done..].
  destruct Hw as [[_ Hd] Hc]. split; [|done]. apply Hd, list_lookup_insert_eq.
  by rewrite length_replicate.
Qed.
