(* ===== verification/VerifyClaims.v ===== *)
(** * What the verifier promises

    [step] is what the table says an instruction does to the height of its
    frame and where control goes, with nothing checked.  Every state a
    verified function can get to that way is [safe]: what the VM then reads
    is there. *)

From S2P Require Import Prelude Ops Chunk Verify VerifyFacts.
From Stdlib Require Import NArith ZifyBool ZifyN Strings.Byte.

Open Scope N_scope.

(** ** Frames and heights *)

(** A frame of [h] values is one the verifier knows about. *)
Definition fits (fr : Frame) (h : N) : Prop :=
  height fr <= h ∧ (ragged fr = false → h = height fr).

Lemma fits_below m fr h : below m fr → fits fr h → fits m h.
Proof.
  intros [H1 H2] [H3 H4]. split; [lia|]. intros Hm. destruct (H2 Hm) as [Hr ->]. by apply H4.
Qed.

(** ** Running code *)

Section Run.
Variable registry : BuiltinId → option BuiltinRow.
Variable f : Function.
Notation the_code := (code (chunk f)).

(** The height an instruction leaves of a frame of [h] values. *)
Definition left_height (e : Effect) (h : N) : N :=
  match cut e with Some c => c | None => h - pops e end + pushes e.

(** An offset of the code and the height of the frame there. *)
Inductive step : N * N → N * N → Prop :=
  | step_next at_ h i next :
      decode the_code at_ = Some (i, next) → goes_on (effect i) = true →
      step (at_, h) (next, left_height (effect i) h)
  | step_jump at_ h i next :
      decode the_code at_ = Some (i, next) → may_jump (effect i) = true →
      step (at_, h) (target i, left_height (effect i) h).

(** ** What is asked of a state *)

Definition callable (id : BuiltinId) : Prop :=
  ∃ r, registry id = Some r ∧ enabled r = true ∧ is_constant r = false.

Definition is_kind (kind : ConstKind) (v : Value) : Prop :=
  match kind with
  | CAny =>
      match v with
      | VVmClosure n upvalues => n = upvalues
      | VBuiltinFn id => callable id
      | _ => True
      end
  | CStr => ∃ s, v = VString s
  | CTag => ∃ t o, v = VVariantConstructor t o
  | CType => ∃ ty, v = VTypeDescriptor ty
  | CFunc => ∃ n upvalues, v = VVmClosure n upvalues
  | CInt => ∃ n, v = VInt n
  | CFloat => ∃ bits, v = VFloat bits
  end.

Definition names (k : Const) (kind : ConstKind) : Prop :=
  ∃ v, constants (chunk f) !! N.to_nat k = Some v ∧ is_kind kind v.

(** What an operand names is there, in a frame of [h] values. *)
Definition operand_safe (h : N) (o : Operand) : Prop :=
  match o with
  | Plain | OTarget _ => True
  | OSlot slot => slot < h
  | OUpvalue i => i < upvalue_count f
  | OConst k kind => names k kind
  | OBuiltin id => callable id
  | OStrs l => Forall (λ k, names k CStr) (iter l the_code)
  | OCaptures l =>
      Forall (λ c : UpvalueDesc, if is_local c then index c < h else index c < upvalue_count f)
        (iter l the_code)
  | OSegments s =>
      values (segments_iter s the_code) = s_values s ∧
      Forall (λ x, match x with SValue => True | Literal k => names k CStr end)
        (segments_iter s the_code)
  end.

Definition instr_safe (i : Instr) : Prop :=
  match instr_op i as o return args instr_ty (fields (table o)) → Prop with
  | Op.MakeClosure => λ '(k, (captures, _)),
      ∃ upvalues, constant (chunk f) k = Some (VVmClosure (o_count captures) upvalues)
  | Op.CallMethod | Op.TailCallMethod => λ '(_, (argc, (_, (by_, _)))), by_ < argc
  | Op.TailCallKeep => λ '(_, (keep, _)), keep <= arity f
  | Op.FrameDict => λ _, dict_slot f = true
  | Op.CallDict | Op.TailCallDict => λ '(_, (argc, (by_, _))), by_ < argc ∨ by_ = 255
  | Op.CallChecked | Op.TailCallChecked => λ '(argc, (by_, _)), by_ < argc ∨ by_ = 255
  | Op.MakeDict => λ '(k, _), constant (chunk f) k = Some VDict
  | Op.CallBuiltin => λ '(id, (argc, _)), ∃ r, registry id = Some r ∧ argc = row_arity r
  | _ => λ _, True
  end (instr_args i).

(** An instruction starts at [at_], its operands name what is there, the frame
    holds what it takes off, it cuts no higher than what is left, and it does
    not go on past the end of the code. *)
Definition safe (s : N * N) : Prop :=
  let '(at_, h) := s in
  ∃ i next, decode the_code at_ = Some (i, next) ∧
    Forall (operand_safe h) (operands i) ∧ instr_safe i ∧
    pops (effect i) <= h ∧
    (∀ c, cut (effect i) = Some c → c <= h - pops (effect i)) ∧
    (goes_on (effect i) = true → next < N.of_nat (length the_code)).

(** ** Checked operands are safe *)

Lemma builtin_callable op id : (_ ← builtin registry op id; Ok tt) = Ok tt → callable id.
Proof.
  unfold builtin, callable, mbind, result_bind. destruct (registry id) as [r|]; [|done].
  destruct (enabled r) eqn:E1, (is_constant r) eqn:E2; try done. eauto.
Qed.

Lemma constant_fits_names op k kind :
  constant_fits registry (chunk f) op k kind = Ok tt → names k kind.
Proof.
  unfold constant_fits, names. destruct (constants (chunk f) !! _) as [v|]; [|done].
  intros H. exists v. split; [done|].
  destruct kind, v; cbn in *; try done; eauto; try (by eapply builtin_callable).
  case_match; [lia|done].
Qed.

Lemma check_operand_safe op fr h o :
  height fr <= h → check_operand registry f op fr o = Ok tt → operand_safe h o.
Proof.
  intros Hh. destruct o; cbn [check_operand operand_safe]; try done;
    try (by eauto using constant_fits_names, builtin_callable);
    try (by case_match; intros; [done|lia]).
  - intros H%try_for_each_ok. eapply Forall_impl; [exact H|]. intros k. apply constant_fits_names.
  - intros H%try_for_each_ok. eapply Forall_impl; [exact H|]. intros c. cbv beta.
    repeat case_match; intros; try done; lia.
  - case_match eqn:E; [|done]. intros H%try_for_each_ok. split; [lia|].
    eapply Forall_impl; [exact H|]. intros []; [done|]. apply constant_fits_names.
Qed.

Lemma check_instr_safe at_ i :
  check_instr registry f at_ i = Ok tt →
  (∀ id, In (OBuiltin id) (operands i) → callable id) → instr_safe i.
Proof.
  destruct i as [op vs]. intros H Hb.
  destruct op; cbn in vs, H |- *; try done; repeat destruct vs as [? vs]; unfold fail in H;
    try (by repeat case_match; simplify_eq; lia); try (by repeat case_match; simplify_eq; eauto; lia).
  - destruct (Hb _ (or_introl eq_refl)) as (r & Hr & He & Hc).
    exists r. split; [done|]. unfold builtin in H. rewrite Hr, He, Hc in H. cbn in H.
    case_match; [done|lia].
  - unfold constant in *. destruct (constants (chunk f) !! _) as [[]|]; try done.
    case_match; [done|]. eexists. do 2 f_equal. lia.
Qed.

Lemma check_fits at_ i fr after h :
  check registry f at_ i fr = Ok after → fits fr h → fits after (left_height (effect i) h).
Proof.
  intros (_ & _ & _ & Hp & Hc)%check_ok [H1 H2]. unfold left_height, fits.
  destruct (cut (effect i)) as [c|]; [destruct Hc as [_ ->]|subst after]; cbn; [done|].
  split; [lia|]. intros Hr. rewrite (H2 Hr). done.
Qed.

Lemma check_safe at_ i fr after h next :
  decode the_code at_ = Some (i, next) → check registry f at_ i fr = Ok after → fits fr h →
  (goes_on (effect i) = true → next < N.of_nat (length the_code)) → safe (at_, h).
Proof.
  intros Hd (_ & Ho & Hi & Hp & Hc)%check_ok [Hh _] Hn. exists i, next.
  assert (Forall (operand_safe h) (operands i)) as Hs
    by (eapply Forall_impl; [exact Ho|]; intros o; by apply check_operand_safe).
  split_and!; auto; [|lia|].
  - eapply check_instr_safe; [exact Hi|]. intros id Hin.
    by eapply (proj1 (List.Forall_forall _ _) Hs) in Hin.
  - intros c Hcut. rewrite Hcut in Hc. destruct Hc. lia.
Qed.

(** Instruction [k] starts at the offset of the state, and its frame is one
    the verifier knows about. *)
Definition tracked (instrs : list (N * Instr * N)) (frames : list (option Frame)) (s : N * N) : Prop :=
  ∃ k i next fr, instrs !! k = Some (s.1, i, next) ∧ frames !! k = Some (Some fr) ∧ fits fr s.2.

Section Tracked.
Variable instrs : list (N * Instr * N).
Variable starting_at : list (option nat).
Variable frames : list (option Frame).
Hypothesis Hchain : chain the_code 0 instrs.
Hypothesis Hstarts : starts instrs starting_at.
Hypothesis Hclosed : ∀ k, closed registry f instrs starting_at frames k.

Lemma knows_tracked k at_ i next after h :
  instrs !! k = Some (at_, i, next) → knows frames k after → fits after h → tracked instrs frames (at_, h).
Proof. intros Hi (m & Hm & Hb) Hf. exists k, i, next, m. eauto using fits_below. Qed.

Lemma step_tracked s s' : step s s' → tracked instrs frames s → tracked instrs frames s'.
Proof.
  intros Hstep (k & i & next & fr & Hi & Hfr & Hfit).
  destruct (Hclosed k fr Hfr) as (a & i' & n' & after & Hi' & Hck & Hj & Hg).
  rewrite Hi in Hi'. simplify_eq. pose proof (chain_decode _ _ _ _ _ _ _ Hchain Hi) as Hd.
  destruct Hstep as [at_ h j nj Hd' Hgo|at_ h j nj Hd' Hmay]; cbn in *; simplify_eq.
  - destruct (Hg Hgo) as (m & Hm & Hb). destruct (Hclosed _ _ Hm) as (a2 & i2 & n2 & ? & Hi2 & _).
    pose proof (chain_next _ _ _ _ _ _ _ _ _ _ Hchain Hi Hi2) as ->.
    eapply knows_tracked; [exact Hi2|by exists m|]. by eapply check_fits.
  - destruct (Hj Hmay) as (t & Ht & Hk). destruct (Hstarts _ _ Ht) as (j2 & n2 & Hi2).
    rewrite N2Nat.id in Hi2. eapply knows_tracked; [exact Hi2|exact Hk|]. by eapply check_fits.
Qed.

Lemma tracked_safe s : tracked instrs frames s → safe s.
Proof.
  destruct s as [at_ h]. intros (k & i & next & fr & Hi & Hfr & Hfit). cbn in *.
  destruct (Hclosed k fr Hfr) as (a & i' & n' & after & Hi' & Hck & _ & Hg).
  rewrite Hi in Hi'. simplify_eq. pose proof (chain_decode _ _ _ _ _ _ _ Hchain Hi) as Hd.
  eapply check_safe; [exact Hd|exact Hck|exact Hfit|].
  intros Hgo. destruct (Hg Hgo) as (m & Hm & _). destruct (Hclosed _ _ Hm) as (a2 & i2 & n2 & ? & Hi2 & _).
  pose proof (chain_next _ _ _ _ _ _ _ _ _ _ Hchain Hi Hi2) as ->.
  apply (chain_decode _ _ _ _ _ _ _ Hchain), decode_after in Hi2. lia.
Qed.

(** The states the code gets to are tracked. *)
Lemma run_tracked :
  knows frames 0 (mkFrame (arity f) false) →
  ∀ s, rtc step (0, arity f) s → tracked instrs frames s.
Proof.
  intros (m & Hm & Hb) s Hrun.
  assert (tracked instrs frames (0, arity f)) as H0.
  { destruct (Hclosed _ _ Hm) as (a & i & next & after & Hi & _).
    pose proof (chain_first _ _ _ _ _ _ Hchain Hi) as ->. exists 0%nat, i, next, m. split_and!; [done..|].
    eapply fits_below; [exact Hb|]. by split. }
  clear Hm Hb. induction Hrun; eauto using step_tracked.
Qed.
End Tracked.
End Run.

(** What [verify] has found when it accepts. *)
Lemma verify_accepts registry f :
  verify registry f = Ok tt →
  ∃ instrs starting_at frames,
    chain (code (chunk f)) 0 instrs ∧ starts instrs starting_at ∧
    knows frames 0 (mkFrame (arity f) false) ∧
    ∀ k, closed registry f instrs starting_at frames k.
Proof.
  unfold verify. intros Hv.
  pose proof (read_instrs_ok (length (code (chunk f))) (code (chunk f)) 0 []
    (replicate (length (code (chunk f))) None)) as Hr.
  destruct (read_instrs _ _ _ _ _) as [[instrs starting_at]|]; [|done].
  destruct Hr as (l & -> & Hc & Hs); [lia|lia|by intros ? ? [? _]%lookup_replicate|].
  cbn [app] in *. unfold mbind, result_bind in Hv.
  pose proof (verify_frames_ok registry f l starting_at Hs) as Hf.
  destruct (verify_frames _ _ _ _) as [frames|]; [|done]. exists l, starting_at, frames. naive_solver.
Qed.

(** ** The claims *)

(** C3. Code that passes the verifier is safe to run with nothing checked:
    whatever path the instructions take from the first one with the function's
    arguments in the frame, an instruction starts where control is, it takes
    no more values off the frame than the frame holds and cuts it no higher
    than what is left, every slot, upvalue, constant and builtin it names is
    there and of the kind the table says, and control does not run off the end
    of the code. *)
Theorem verified_code_is_safe registry f s :
  verify registry f = Ok tt → rtc (step f) (0, arity f) s → safe registry f s.
Proof.
  intros (instrs & starting_at & frames & Hch & Hs & Hk & Hc)%verify_accepts Hrun.
  eapply tracked_safe; [exact Hch|exact Hc|].
  by eapply run_tracked.
Qed.

(** A function of one parameter: [GetLocal 0; JumpIfFalse (over Unit); Unit;
    Return]. Return is reached with two heights. *)
Definition two_ways : Function :=
  mkFunction "two_ways" 1 0 (mkChunk [x15; x00; x00; x2d; x01; x00; x01; x1e] [] [] ∅) 0 false.

Lemma verified_code_is_safe_witness : safe (λ _, None) two_ways (7, 1) ∧ safe (λ _, None) two_ways (7, 2).
Proof.
  split; apply verified_code_is_safe; try reflexivity;
    (eapply rtc_l; [by eapply step_next|]); cbn.
  - eapply rtc_l; [by eapply step_jump|]. reflexivity.
  - eapply rtc_l; [by eapply step_next|]. eapply rtc_l; [by eapply step_next|]. reflexivity.
Defined.

(** C10. The verifier always comes to an end with a verdict: for any function,
    whatever bytes its code is, it accepts it or reports a malformed
    instruction; its work list runs dry within the fuel, it indexes nothing
    out of bounds and unwraps nothing that is not there. *)
Theorem verify_total registry f :
  verify registry f = Ok tt ∨ ∃ e, verify registry f = Err (Malformed e).
Proof.
  unfold verify.
  pose proof (read_instrs_ok (length (code (chunk f))) (code (chunk f)) 0 []
    (replicate (length (code (chunk f))) None)) as Hr.
  destruct (read_instrs _ _ _ _ _) as [[instrs starting_at]|[]];
    [|by right; eexists|by destruct Hr; [lia|lia|intros ? ? [? _]%lookup_replicate]..].
  destruct Hr as (l & -> & Hc & Hs); [lia|lia|by intros ? ? [? _]%lookup_replicate|].
  pose proof (verify_frames_ok registry f ([] ++ l) starting_at Hs) as Hf.
  cbn in *. destruct (verify_frames _ _ _ _) as [|[]]; cbn; eauto; done.
Qed.

(** ** The globals *)

(** The globals an instruction names are among the program's. *)
Definition globals_safe (slots traits methods : N) (i : Instr) : Prop :=
  match instr_op i as o return args instr_ty (fields (table o)) → Prop with
  | Op.GetGlobal | Op.SetGlobal => λ '(slot, _), slot < slots
  | Op.CallMethod | Op.TailCallMethod => λ '(method, (_, (of_, _))), of_ < traits ∧ method < methods
  | _ => λ _, True
  end (instr_args i).

Lemma check_globals_ok slots traits methods at_ i :
  match check_globals slots traits methods at_ i with
  | Ok _ => globals_safe slots traits methods i
  | Err (Malformed _) => ¬ globals_safe slots traits methods i
  | Err _ => False
  end.
Proof.
  destruct i as [op vs]. destruct op; cbn in vs |- *; try done; repeat destruct vs as [? vs];
    repeat match goal with |- context [if ?b then _ else _] => destruct b eqn:? end; cbn; lia.
Qed.

Lemma verify_globals_from_ok slots traits methods code fuel at_ :
  at_ <= N.of_nat (length code) → (length code - N.to_nat at_ <= fuel)%nat →
  match verify_globals_from fuel code slots traits methods at_ with
  | Ok _ => ∃ l, chain code at_ l ∧ Forall (λ '(_, i, _), globals_safe slots traits methods i) l
  | Err (Malformed _) => ¬ ∃ l, chain code at_ l ∧ Forall (λ '(_, i, _), globals_safe slots traits methods i) l
  | Err _ => False
  end.
Proof.
  revert at_. induction fuel as [|fuel IH]; intros at_ Hat Hf; cbn [verify_globals_from];
    destruct (N.of_nat (length code) <=? at_) eqn:E; [exists []; split; constructor; lia|lia
    |exists []; split; constructor; lia|].
  destruct (decode code at_) as [[i next]|] eqn:Hd.
  - pose proof (decode_after _ _ _ _ Hd). specialize (IH next ltac:(lia) ltac:(lia)).
    pose proof (check_globals_ok slots traits methods at_ i) as Hc.
    unfold mbind, result_bind. destruct (check_globals _ _ _ _ _) as [[]|[]]; [|..|done|done].
    + destruct (verify_globals_from _ _ _ _ _ _) as [|[]]; [| |done..].
      * destruct IH as (l & Hl & Hg). exists ((at_, i, next) :: l). split; by constructor.
      * intros (l & Hl & Hg). apply IH. inversion Hl; simplify_eq; [lia|].
        apply Forall_cons in Hg as [_ Hg]. eauto.
    + intros (l & Hl & Hg). inversion Hl; simplify_eq; [lia|]. apply Forall_cons in Hg as [Hg _]. done.
  - intros (l & Hl & Hg). inversion Hl; simplify_eq; lia.
Qed.

Lemma chain_unique code at_ l l' : chain code at_ l → chain code at_ l' → l = l'.
Proof.
  intros H. revert l'. induction H as [at_ ->|at_ i next l Hd Hc IH]; intros l' H'; inversion H'; simplify_eq.
  - done.
  - apply decode_after in H. lia.
  - apply decode_after in Hd. lia.
  - f_equal. auto.
Qed.

(** A verified function whose globals were checked against a program's
    names, wherever its code gets to, only global slots, traits and method
    names the program has. *)
Theorem verified_globals_in_range registry f slots traits methods s :
  verify registry f = Ok tt → verify_globals f slots traits methods = Ok tt →
  rtc (step f) (0, arity f) s →
  ∃ i next, decode (code (chunk f)) s.1 = Some (i, next) ∧ globals_safe slots traits methods i.
Proof.
  intros (instrs & starting_at & frames & Hch & Hs & Hk & Hc)%verify_accepts Hg Hrun.
  pose proof (verify_globals_from_ok slots traits methods (code (chunk f)) (length (code (chunk f))) 0
    ltac:(lia) ltac:(lia)) as Hok.
  unfold verify_globals in Hg. rewrite Hg in Hok. destruct Hok as (l & Hl & Hall).
  pose proof (chain_unique _ _ _ _ Hl Hch) as ->.
  destruct (run_tracked registry f instrs starting_at frames Hch Hs Hc Hk s Hrun)
    as (k & i & next & fr & Hi & _).
  exists i, next. split; [by eapply chain_decode|].
  by eapply (Forall_lookup_1 _ _ _ _ Hall) in Hi.
Qed.

(** [GetGlobal 2; Call 0; Return], the code of a script that calls a global. *)
Definition call_global : Function :=
  mkFunction "call_global" 0 0 (mkChunk [x17; x02; x00; x1b; x00; x1e] [] [] ∅) 0 false.

Lemma verified_globals_in_range_witness :
  ∃ i next, decode (code (chunk call_global)) 3 = Some (i, next) ∧ globals_safe 3 0 0 i.
Proof.
  apply (verified_globals_in_range (λ _, None) call_global 3 0 0 (3, 1)); try reflexivity.
  eapply rtc_l; [by eapply step_next|]. reflexivity.
Defined.
