(* ===== verification/Emit.v ===== *)
(** * The emitter (src/bytecode/emit.rs)

    The state of an [Emitter] is passed along: a call gives the emitter as it
    leaves it with its result, so what a call that fails has already written
    stays.  A diagnostic is its code, its span and what its message shows; a
    panic of the source (a label that is none of the emitter's, a constant
    that is not in the pool) is [EmitPanics]. *)

From S2P Require Import Prelude Ops Chunk Verify.
From Stdlib Require Import NArith Strings.Byte.

Open Scope N_scope.

(** ** State *)

(** Where a label is, and how jumps get there. *)
Record LabelState := mkLabelState {
  bound : option (N * N);
  arriving : option N;
  waiting : list (N * bool);
}.
Definition label_default : LabelState := mkLabelState None None [].

(** An instruction that is the first of a fused pair. *)
Inductive First := FInt (k : Const) | FCompare (op : Op).

Record Last := mkLast { l_first : First; l_at : N; l_height : N; l_span : Span }.

Record Emitter := mkEmitter {
  e_function : Function;
  e_height : N;
  e_reachable : bool;
  e_ended : bool;
  e_labels : list LabelState;
  e_last : option Last;
}.

(** ** Errors *)

Inductive Bug :=
  | BTakesOff (op : Op) (pops height : N)
  | BCutsBack (op : Op) (popped cut : N)
  | BJumps (op : Op) (what : string)
  | BBoundTwice
  | BNeverBound
  | BMalformed (e : VerifyError).

Inductive Diagnostic :=
  | CompileLimit (limit : Limit) (span : Span) (help : bool)
  | CompilerBug (span : Span) (function : string) (what : Bug).

Inductive EmitFault := Diagnosed (d : Diagnostic) | EmitPanics.

(** The compile error for a limit of the bytecode. *)
Definition limit_diagnostic (limit : Limit) (span : Span) : Diagnostic :=
  CompileLimit limit span (bool_decide (what limit = FRAME_VALUES)).

Definition function_too_large (count : N) : Limit :=
  mkLimit "bytes of code in a function" count 2147483647.

(** The refusal of a function of [params] parameters and [bounds] bounds when
    the two are more than the parameters a function can have. *)
Definition bounds_past_limit (params bounds : N) (span : Span) : option Diagnostic :=
  let count := params + bounds in
  if (0 <? bounds) && (255 <? count)
  then Some (CompileLimit (mkLimit "parameters and bounds of a function" count 255) span true)
  else None.

(** A call of the emitter. *)
Definition Emit (A : Type) : Type := Emitter → Emitter * Result EmitFault A.

Definition bug (e : Emitter) (span : Span) (w : Bug) : EmitFault :=
  Diagnosed (CompilerBug span (f_name (e_function e)) w).

(** ** Fused pairs *)

(** The jump forward to [to] unless the comparison [op] holds. *)
Definition jump_unless (op : Op) (to : Label) : Asm :=
  match op with
  | Op.Lt => mkAsm Op.JumpIfNotLt (to, tt)
  | Op.Gt => mkAsm Op.JumpIfNotGt (to, tt)
  | Op.Leq => mkAsm Op.JumpIfNotLeq (to, tt)
  | Op.Geq => mkAsm Op.JumpIfNotGeq (to, tt)
  | Op.Eq => mkAsm Op.JumpIfNotEq (to, tt)
  | _ => mkAsm Op.JumpIfNotNeq (to, tt)
  end.

Definition negation (op : Op) : Op :=
  match op with
  | Op.Lt => Op.Geq
  | Op.Gt => Op.Leq
  | Op.Leq => Op.Gt
  | Op.Geq => Op.Lt
  | Op.Eq => Op.Neq
  | _ => Op.Eq
  end.

(** What [asm] is as the first of a pair, if it is one; nothing when the source
    panics, on a constant that is not in the pool. *)
Definition first_of (asm : Asm) (c : Chunk) : option (option First) :=
  match asm_op asm as o return args asm_ty (fields (table o)) → option (option First) with
  | Op.Constant => λ '(k, _),
      match constant c k with
      | Some (VInt _) => Some (Some (FInt k))
      | Some _ => Some None
      | None => None
      end
  | Op.Lt | Op.Gt | Op.Leq | Op.Geq | Op.Eq | Op.Neq => λ _, Some (Some (FCompare (asm_op asm)))
  | _ => λ _, Some None
  end (asm_args asm).

(** The one instruction that the first and [next] are, if they fuse, and
    whether it is blamed on the first's span. *)
Definition fused (first : First) (next : Asm) : option (Asm * bool) :=
  match asm_op next as o return args asm_ty (fields (table o)) → option (Asm * bool) with
  | Op.Add => λ _, match first with FInt k => Some (mkAsm Op.AddConst (k, tt), false) | _ => None end
  | Op.Sub => λ _, match first with FInt k => Some (mkAsm Op.SubConst (k, tt), false) | _ => None end
  | Op.JumpIfFalse => λ '(to, _),
      match first with FCompare op => Some (jump_unless op to, true) | _ => None end
  | Op.JumpIfTrue => λ '(to, _),
      match first with FCompare op => Some (jump_unless (negation op) to, true) | _ => None end
  | _ => λ _, None
  end (asm_args next).

(** ** What an instruction's encoder writes to *)

Record Out := mkOut {
  o_chunk : Chunk;
  o_labels : list LabelState;
  o_span : Span;
  o_arriving : option N;
  o_bug : option string;
  o_panicked : bool;
}.

Definition JUMPS_BEHIND : string := "jumps forward to a label that is behind it".
Definition JUMPS_HEIGHT : string := "jumps back with a height the loop did not start with".

Definition out_push (o : Out) (bs : list byte) : Out :=
  mkOut (foldl (λ c b, chunk_push b (o_span o) c) (o_chunk o) bs)
    (o_labels o) (o_span o) (o_arriving o) (o_bug o) (o_panicked o).

Definition out_panic (o : Out) : Out :=
  mkOut (o_chunk o) (o_labels o) (o_span o) (o_arriving o) (o_bug o) true.

(** The label waits for its place at the operand that comes next, and hears of
    the height a reachable jump arrives with. *)
Definition wait_for (o : Out) (wide : bool) (st : LabelState) : LabelState :=
  mkLabelState (bound st)
    (match o_arriving o with
     | Some a => Some (match arriving st with None => a | Some known => N.min known a end)
     | None => arriving st
     end)
    (waiting st ++ [(chunk_len (o_chunk o), wide)]).

Definition out_waits (o : Out) (to : Label) (st : LabelState) (b : option string) : Out :=
  mkOut (o_chunk o) (<[N.to_nat to := st]> (o_labels o)) (o_span o) (o_arriving o) b (o_panicked o).

Definition out_fwd (to : Label) (o : Out) : Out :=
  match o_labels o !! N.to_nat to with
  | None => out_panic o
  | Some st =>
      let b := match bound st with Some _ => Some JUMPS_BEHIND | None => o_bug o end in
      out_push (out_waits o to (wait_for o false st) b) (u16_le 65535)
  end.

Definition out_rel (to : Label) (o : Out) : Out * Result Limit unit :=
  match o_labels o !! N.to_nat to with
  | None => (out_panic o, Ok tt)
  | Some st =>
      match bound st with
      | None => (out_push (out_waits o to (wait_for o true st) (o_bug o)) (i32_le 0), Ok tt)
      | Some (target, height) =>
          let b := match o_arriving o with
                   | Some a => if a =? height then o_bug o else Some JUMPS_HEIGHT
                   | None => o_bug o
                   end in
          let o := out_waits o to st b in
          let count := chunk_len (o_chunk o) + 4 - target in
          if count <=? 2147483647
          then (out_push o (i32_le (- Z.of_N count)), Ok tt)
          else (o, Err (function_too_large count))
      end
  end.

#[export] Instance out_writer : Writer Out := {
  w_u8 b o := out_push o [b];
  w_fwd := out_fwd;
  w_rel := out_rel;
}.

(** ** The calls *)

Definition with_chunk (f : Function) (c : Chunk) : Function :=
  mkFunction (f_name f) (arity f) (upvalue_count f) c (hidden f) (dict_slot f).
Definition e_chunk (e : Emitter) : Chunk := chunk (e_function e).

Definition emitter_new (name : string) (arity : N) (span : Span) : Result EmitFault Emitter :=
  match narrow_u8 arity "parameters of a function" with
  | Err limit => Err (Diagnosed (limit_diagnostic limit span))
  | Ok narrowed =>
      Ok (mkEmitter (mkFunction name (Byte.to_N narrowed) 0 chunk_new 0 false) arity true false [] None)
  end.

(** In unreachable code: what the height would be here. *)
Definition assume_height (height : N) : Emit unit := λ e,
  if e_reachable e then (e, Ok tt)
  else (mkEmitter (e_function e) height (e_reachable e) (e_ended e) (e_labels e) (e_last e), Ok tt).

Definition ended (e : Emitter) : bool := e_ended e && negb (e_reachable e).

Definition emit_constant (v : Value) (span : Span) : Emit Const := λ e,
  let count := N.of_nat (length (constants (e_chunk e))) + 1 in
  let '(c, k) := add_constant v (e_chunk e) in
  let e := mkEmitter (with_chunk (e_function e) c) (e_height e) (e_reachable e) (e_ended e)
             (e_labels e) (e_last e) in
  match k with
  | Some k => (e, Ok k)
  | None =>
      let limit := mkLimit "constants in a function (its distinct literals, names and functions)"
                     count (65535 + 1) in
      (e, Err (Diagnosed (limit_diagnostic limit span)))
  end.

(** The instruction as it is. *)
Definition write (asm : Asm) (span : Span) : Emit unit := λ e,
  let '(at_, before) := (chunk_len (e_chunk e), e_height e) in
  let eff := asm_effect asm in
  let op := asm_op asm in
  if e_reachable e && (e_height e <? pops eff)
  then (e, Err (bug e span (BTakesOff op (pops eff) (e_height e)))) else
  let popped := e_height e - pops eff in
  if match cut eff with Some c => e_reachable e && (popped <? c) | None => false end
  then (e, Err (bug e span (BCutsBack op popped (default 0 (cut eff))))) else
  let after := match cut eff with Some c => c | None => popped end + pushes eff in
  let out := mkOut (e_chunk e) (e_labels e) span (if e_reachable e then Some after else None) None false in
  let '(out, r) := encode asm out in
  let e := mkEmitter (with_chunk (e_function e) (o_chunk out)) (e_height e) (e_reachable e) (e_ended e)
             (o_labels out) (e_last e) in
  if o_panicked out then (e, Err EmitPanics) else
  match r with
  | Err limit => (e, Err (Diagnosed (limit_diagnostic limit span)))
  | Ok _ =>
      match o_bug out with
      | Some b => (e, Err (bug e span (BJumps op b)))
      | None =>
          let reachable := match flow eff with Jump | End_ => false | _ => e_reachable e end in
          let ended := match flow eff with End_ => true | _ => false end in
          match first_of asm (e_chunk e) with
          | None =>
              (mkEmitter (e_function e) after reachable ended (e_labels e) (e_last e), Err EmitPanics)
          | Some first =>
              let last := (λ first, mkLast first at_ before span) <$> first in
              (mkEmitter (e_function e) after reachable ended (e_labels e) last, Ok tt)
          end
      end
  end.

(** Append the instruction, or the one it and the last are. *)
Definition emit (asm : Asm) (span : Span) : Emit unit := λ e,
  match e_last e ≫= λ l, (λ p, (l, p)) <$> fused (l_first l) asm with
  | Some (l, (one, on_first)) =>
      let e := mkEmitter (with_chunk (e_function e) (chunk_truncate (l_at l) (e_chunk e)))
                 (l_height l) (e_reachable e) (e_ended e) (e_labels e) (e_last e) in
      write one (if on_first : bool then l_span l else span) e
  | None => write asm span e
  end.

(** A new label, to be bound. *)
Definition label : Emit Label := λ e,
  (mkEmitter (e_function e) (e_height e) (e_reachable e) (e_ended e)
     (e_labels e ++ [label_default]) (e_last e), Ok (N.of_nat (length (e_labels e)))).

Definition copy_from_slice (code : list byte) (at_ : N) (bs : list byte) : list byte :=
  take (N.to_nat at_) code ++ bs ++ drop (N.to_nat at_ + length bs) code.

(** Write the distances to [here] of the jumps that wait: the code as far as
    they fit. *)
Fixpoint patch (here : N) (over : string) (l : list (N * bool)) (code : list byte) :
    list byte * Result Limit unit :=
  match l with
  | [] => (code, Ok tt)
  | (operand, true) :: l =>
      let count := here - (operand + 4) in
      if count <=? 2147483647
      then patch here over l (copy_from_slice code operand (i32_le (Z.of_N count)))
      else (code, Err (function_too_large count))
  | (operand, false) :: l =>
      let count := here - (operand + 2) in
      if count <=? 65535
      then patch here over l (copy_from_slice code operand (u16_le count))
      else (code, Err (mkLimit over count 65535))
  end.

(** Place the label at the next instruction: the jumps waiting for it go
    here. *)
Definition bind_over (l : Label) (over : string) (span : Span) : Emit unit := λ e,
  let here := chunk_len (e_chunk e) in
  let e := mkEmitter (e_function e) (e_height e) (e_reachable e) (e_ended e) (e_labels e) None in
  match e_labels e !! N.to_nat l with
  | None => (e, Err EmitPanics)
  | Some st =>
      match bound st with
      | Some _ => (e, Err (bug e span BBoundTwice))
      | None =>
          let '(code, r) := patch here over (waiting st) (code (e_chunk e)) in
          let f := with_chunk (e_function e) (with_code (e_chunk e) code) in
          match r with
          | Err limit =>
              (mkEmitter f (e_height e) (e_reachable e) (e_ended e)
                 (<[N.to_nat l := mkLabelState (bound st) (arriving st) []]> (e_labels e)) None,
               Err (Diagnosed (limit_diagnostic limit span)))
          | Ok _ =>
              let '(height, reachable) :=
                match arriving st with
                | Some a => (if e_reachable e then N.min (e_height e) a else a, true)
                | None => (e_height e, e_reachable e)
                end in
              (mkEmitter f height reachable (e_ended e)
                 (<[N.to_nat l := mkLabelState (Some (here, height)) (arriving st) []]> (e_labels e)) None,
               Ok tt)
          end
      end
  end.

Definition bind (l : Label) (span : Span) : Emit unit := bind_over l "bytes of code in a branch" span.

(** The first [n] of the function's parameters are hidden. *)
Definition hidden_params (n : N) : Emit unit := λ e,
  let f := e_function e in
  (mkEmitter (mkFunction (f_name f) (arity f) (upvalue_count f) (chunk f)
      (if n <=? 255 then n else 255) (dict_slot f))
     (e_height e) (e_reachable e) (e_ended e) (e_labels e) (e_last e), Ok tt).

Definition takes_dict_slot : Emit unit := λ e,
  let f := e_function e in
  (mkEmitter (mkFunction (f_name f) (arity f) (upvalue_count f) (chunk f) (hidden f) true)
     (e_height e) (e_reachable e) (e_ended e) (e_labels e) (e_last e), Ok tt).

Definition CAPTURES : string := "values a closure captures".

(** The function, with [n] upvalues, its code verified. *)
Definition finish (registry : BuiltinId → option BuiltinRow) (n : N) (e : Emitter) :
    Result EmitFault Function :=
  let span := match spans (e_chunk e) with (_, span) :: _ => span | [] => SPAN_BUILTIN end in
  if existsb (λ l, match bound l with None => negb (bool_decide (waiting l = [])) | Some _ => false end)
       (e_labels e)
  then Err (bug e span BNeverBound) else
  match narrow_u8 n CAPTURES with
  | Err limit => Err (Diagnosed (limit_diagnostic limit span))
  | Ok b =>
      let f := e_function e in
      let f := mkFunction (f_name f) (arity f) (Byte.to_N b) (chunk f) (hidden f) (dict_slot f) in
      match verify registry f with
      | Ok _ => Ok f
      | Err (Malformed error) => Err (bug e span (BMalformed error))
      | Err _ => Err EmitPanics
      end
  end.

(** ** Functions silt writes itself (src/bytecode/mod.rs) *)

(** Emit the instructions one after the other, up to the first that fails. *)
Fixpoint emit_all (asms : list Asm) (span : Span) (e : Emitter) : Result EmitFault Emitter :=
  match asms with
  | [] => Ok e
  | asm :: asms =>
      match emit asm span e with
      | (e, Ok _) => emit_all asms span e
      | (_, Err fault) => Err fault
      end
  end.

(** A function that takes [arity] arguments and returns unit; the source
    unwraps the result. *)
Definition returning_unit (registry : BuiltinId → option BuiltinRow) (name : string) (arity : N) :
    Result EmitFault Function :=
  e ← emitter_new name arity SPAN_BUILTIN;
  e ← emit_all [mkAsm Op.Unit tt; mkAsm Op.Return tt] SPAN_BUILTIN e;
  finish registry 0 e.

(** A script that calls the function in a global slot with no arguments and
    returns the result. *)
Definition call_global_script (registry : BuiltinId → option BuiltinRow) (slot : N) (name : string) :
    Result EmitFault Function :=
  e ← emitter_new ("<call:" ++ name ++ ">") 0 SPAN_BUILTIN;
  e ← emit_all [mkAsm Op.GetGlobal (slot, tt); mkAsm Op.Call (0, tt); mkAsm Op.Return tt] SPAN_BUILTIN e;
  finish registry 0 e.
