(* ===== verification/EmitFacts.v ===== *)
(** * Facts about the emitter

    What the emitter has written is the layout of the pieces of its
    instructions for the places of the labels bound so far; the operands that
    wait for a label are the pieces that jump to it; binding a label writes
    its place into them ([patch_layout]). *)

From S2P Require Import Prelude Ops OpsFacts Chunk Verify Emit.
From Stdlib Require Import NArith ZifyBool ZifyN Strings.Byte.

Open Scope N_scope.

(** ** Places of labels *)

Definition pos_of (labels : list LabelState) : Places := λ l,
  labels !! N.to_nat l ≫= λ st, fst <$> bound st.

(** The operands of the pieces that jump to [l], and whether they are four
    bytes. *)
Definition jump_to (l : Label) (at_ : N) (p : Piece) : list (N * bool) :=
  match p with
  | PFwd to => if to =? l then [(at_, false)] else []
  | PRel to => if to =? l then [(at_, true)] else []
  | PByte _ => []
  end.

Fixpoint jumps_to (l : Label) (at_ : N) (ps : list Piece) : list (N * bool) :=
  match ps with
  | [] => []
  | p :: ps => jump_to l at_ p ++ jumps_to l (at_ + piece_size p) ps
  end.

Lemma jumps_to_app l at_ ps qs :
  jumps_to l at_ (ps ++ qs) = jumps_to l at_ ps ++ jumps_to l (at_ + size ps) qs.
Proof.
  revert at_. induction ps as [|p ps IH]; intros at_; cbn [jumps_to app size]; [by rewrite N.add_0_r|].
  by rewrite IH, <- app_assoc, N.add_assoc.
Qed.

Lemma layout_ext pos pos' at_ ps : (∀ l, pos l = pos' l) → layout pos at_ ps = layout pos' at_ ps.
Proof.
  intros H. revert at_. induction ps as [|p ps IH]; intros at_; cbn [layout]; [done|].
  rewrite IH. f_equal. destruct p; cbn [piece_bytes]; by rewrite ?H.
Qed.

Lemma all_reach_ext pos pos' at_ ps : (∀ l, pos l = pos' l) → all_reach pos at_ ps → all_reach pos' at_ ps.
Proof.
  intros H. revert at_. induction ps as [|p ps IH]; intros at_; cbn [all_reach]; [done|].
  intros [Hr Hrs]. split; [|by apply IH]. destruct p; cbn [reaches] in *; [done|by rewrite <- H..].
Qed.

(** ** Pushing bytes *)

Lemma push_all span bs c :
  let c' := foldl (λ c b, chunk_push b span c) c bs in
  code c' = code c ++ bs ∧ constants c' = constants c ∧ constant_dedup c' = constant_dedup c.
Proof.
  revert c. induction bs as [|b bs IH]; intros c; cbn; [by rewrite app_nil_r|].
  destruct (IH (chunk_push b span c)) as (-> & -> & ->). cbn. by rewrite <- app_assoc.
Qed.

(** ** Writing pieces *)

(** [o'] is [o] with the pieces written. *)
Record wrote (ps : list Piece) (o o' : Out) : Prop := mkWrote {
  wrote_code : code (o_chunk o') =
    code (o_chunk o) ++ layout (pos_of (o_labels o)) (chunk_len (o_chunk o)) ps;
  wrote_constants : constants (o_chunk o') = constants (o_chunk o);
  wrote_labels : length (o_labels o') = length (o_labels o);
  wrote_waiting : ∀ l st, o_labels o !! l = Some st →
    ∃ st', o_labels o' !! l = Some st' ∧ bound st' = bound st ∧
      waiting st' = waiting st ++
        match bound st with None => jumps_to (N.of_nat l) (chunk_len (o_chunk o)) ps | Some _ => [] end;
  wrote_reach : all_reach (pos_of (o_labels o)) (chunk_len (o_chunk o)) ps;
  wrote_known : ∀ p, p ∈ ps → match p with
    | PByte _ => True | PFwd l | PRel l => (N.to_nat l < length (o_labels o))%nat end;
}.

Lemma wrote_pos ps o o' l : wrote ps o o' → pos_of (o_labels o') l = pos_of (o_labels o) l.
Proof.
  intros H. unfold pos_of. destruct (o_labels o !! N.to_nat l) as [st|] eqn:E.
  - destruct (wrote_waiting _ _ _ H _ _ E) as (st' & -> & Hb & _). cbn. by rewrite Hb.
  - rewrite lookup_ge_None_2; [done|]. apply lookup_ge_None in E. by rewrite (wrote_labels _ _ _ H).
Qed.

Lemma wrote_len ps o o' : wrote ps o o' → chunk_len (o_chunk o') = chunk_len (o_chunk o) + size ps.
Proof.
  intros H. unfold chunk_len at 1. rewrite (wrote_code _ _ _ H), length_app, Nat2N.inj_add, layout_length. done.
Qed.

Lemma wrote_nil o : wrote [] o o.
Proof.
  split; cbn; rewrite ?app_nil_r; try done; [|set_solver].
  intros l st Hl. exists st. split_and!; [done..|]. by case_match; rewrite app_nil_r.
Qed.

Lemma wrote_app ps qs o o1 o2 : wrote ps o o1 → wrote qs o1 o2 → wrote (ps ++ qs) o o2.
Proof.
  intros H1 H2. split.
  - rewrite (wrote_code _ _ _ H2), (wrote_code _ _ _ H1), layout_app, <- app_assoc.
    rewrite (wrote_len _ _ _ H1). do 2 f_equal. apply layout_ext. intros. by apply wrote_pos with ps.
  - rewrite (wrote_constants _ _ _ H2). apply H1.
  - rewrite (wrote_labels _ _ _ H2). apply H1.
  - intros l st Hl. destruct (wrote_waiting _ _ _ H1 _ _ Hl) as (st1 & Hl1 & Hb1 & Hw1).
    destruct (wrote_waiting _ _ _ H2 _ _ Hl1) as (st2 & Hl2 & Hb2 & Hw2).
    exists st2. split_and!; [done|congruence|]. rewrite Hw2, Hw1, Hb1, <- app_assoc.
    f_equal. rewrite jumps_to_app, (wrote_len _ _ _ H1). by destruct (bound st).
  - apply all_reach_app. split; [apply H1|]. rewrite <- (wrote_len _ _ _ H1).
    eapply all_reach_ext; [|apply H2]. intros. by apply wrote_pos with ps.
  - intros p [Hp|Hp]%elem_of_app; [by apply (wrote_known _ _ _ H1)|].
    pose proof (wrote_known _ _ _ H2 p Hp) as H. by rewrite (wrote_labels _ _ _ H1) in H.
Qed.

(** What a write has found wrong stays. *)
Definition clean (o : Out) : Prop := o_bug o = None ∧ o_panicked o = false.

Lemma put_piece_clean p o : clean (put_piece p o).1 → clean o.
Proof.
  unfold clean. destruct p; cbn; unfold out_fwd, out_rel; [done|..];
    repeat (case_match; cbn); intros; naive_solver.
Qed.

Lemma put_pieces_clean ps o : clean (put_pieces ps o).1 → clean o.
Proof.
  revert o. induction ps as [|p ps IH]; intros o; [done|].
  change (put_pieces (p :: ps) o) with ((put_piece p ≫= λ _, put_pieces ps) o).
  unfold mbind, write_bind. pose proof (put_piece_clean p o).
  destruct (put_piece p o) as [o' []]; cbn in *; [|done]. intros. apply H. by eapply IH.
Qed.

Lemma waits_wrote (p : Piece) (to : Label) (wide : bool) o st bs :
  o_labels o !! N.to_nat to = Some st → bound st = None →
  p = (if wide then PRel to else PFwd to) →
  bs = piece_bytes (pos_of (o_labels o)) (chunk_len (o_chunk o)) p →
  wrote [p] o (out_push (out_waits o to (wait_for o wide st) (o_bug o)) bs).
Proof.
  intros Hst Hb Hp ->.
  destruct (push_all (o_span o) (piece_bytes (pos_of (o_labels o)) (chunk_len (o_chunk o)) p) (o_chunk o))
    as (Hc & Hk & _).
  assert (pos_of (o_labels o) to = None) as Hpos by (unfold pos_of; rewrite Hst; cbn; by rewrite Hb).
  split; cbn.
  - rewrite app_nil_r. exact Hc.
  - exact Hk.
  - by rewrite length_insert.
  - intros l st' Hl. destruct (decide (l = N.to_nat to)) as [->|Hne].
    + rewrite list_lookup_insert_eq by (by eapply lookup_lt_Some). simplify_eq.
      eexists. split_and!; [done..|]. cbn. rewrite Hb, app_nil_r, N2Nat.id.
      destruct wide; cbn; by rewrite N.eqb_refl.
    + rewrite list_lookup_insert_ne by done. exists st'. split_and!; [done..|].
      assert (to =? N.of_nat l = false) as E by lia.
      destruct (bound st'); [by rewrite app_nil_r|]. destruct wide; subst p; cbn; rewrite E; by rewrite app_nil_r.
  - split; [|done]. destruct wide; subst p; cbn; congruence.
  - intros q ->%list_elem_of_singleton. apply lookup_lt_Some in Hst. by destruct wide; subst p.
Qed.

Lemma put_piece_wrote p o o' :
  (∀ l t, pos_of (o_labels o) l = Some t → t <= chunk_len (o_chunk o)) →
  put_piece p o = (o', Ok tt) → clean o' → wrote [p] o o'.
Proof.
  intros Hle Hput [Hbug Hpan]. destruct p as [b|to|to]; cbn in Hput.
  - injection Hput as <-. split; cbn; rewrite ?app_nil_r; try done.
    + intros l st Hl. exists st. split_and!; [done..|]. by case_match; rewrite app_nil_r.
    + intros q ->%list_elem_of_singleton. done.
  - unfold put_fwd, w_fwd, out_writer, out_fwd in Hput.
    destruct (o_labels o !! N.to_nat to) as [st|] eqn:Hst; [|by injection Hput as <-].
    destruct (bound st) eqn:Hb; [by injection Hput as <-|]. injection Hput as <-.
    apply waits_wrote; auto. cbn. unfold pos_of. by rewrite Hst; cbn; rewrite Hb.
  - unfold out_rel in Hput.
    destruct (o_labels o !! N.to_nat to) as [st|] eqn:Hst; [|by injection Hput as <-].
    destruct (bound st) as [[t h]|] eqn:Hb.
    + assert (pos_of (o_labels o) to = Some t) as Hpos by (unfold pos_of; rewrite Hst; cbn; by rewrite Hb).
      pose proof (Hle to t Hpos). cbn in Hput. case_match; [|done]. injection Hput as <-. cbn in Hbug.
      match goal with |- wrote _ _ (out_push _ ?bs) => destruct (push_all (o_span o) bs (o_chunk o)) as (Hc & Hk & _) end.
      split; cbn [o_chunk o_labels out_push out_waits layout app].
      * etrans; [exact Hc|]. cbn [piece_bytes]. rewrite Hpos, app_nil_r. do 2 f_equal. lia.
      * exact Hk.
      * by rewrite length_insert.
      * intros l st' Hl. rewrite list_insert_id by done. exists st'. split_and!; [done..|].
        destruct (bound st') eqn:Hb'; [by rewrite app_nil_r|]. cbn.
        assert (to =? N.of_nat l = false) as ->; [|by rewrite app_nil_r].
        destruct (decide (l = N.to_nat to)) as [->|]; [congruence|lia].
      * split; [|done]. intros t' Ht'. rewrite Hpos in Ht'. simplify_eq. lia.
      * intros q ->%list_elem_of_singleton. by apply lookup_lt_Some in Hst.
    + injection Hput as <-. apply waits_wrote; auto. cbn. unfold pos_of. by rewrite Hst; cbn; rewrite Hb.
Qed.

Lemma put_pieces_wrote ps o o' :
  (∀ l t, pos_of (o_labels o) l = Some t → t <= chunk_len (o_chunk o)) →
  put_pieces ps o = (o', Ok tt) → clean o' → wrote ps o o'.
Proof.
  revert o. induction ps as [|p ps IH]; intros o Hle Hput Hcl.
  { change (put_pieces [] o) with (o, Ok (E:=Limit) tt) in Hput. simplify_eq. apply wrote_nil. }
  change (put_pieces (p :: ps) o) with ((put_piece p ≫= λ _, put_pieces ps) o) in Hput.
  unfold mbind, write_bind in Hput.
  destruct (put_piece p o) as [o1 [[]|]] eqn:E; [|done].
  assert (clean o1) as Hcl1 by (apply (put_pieces_clean ps); by rewrite Hput).
  pose proof (put_piece_wrote p o o1 Hle E Hcl1) as H1.
  apply (wrote_app [p] ps o o1 o' H1), IH; [|done..].
  intros l t. rewrite (wrote_pos _ _ _ _ H1), (wrote_len _ _ _ H1). intros Hl. apply Hle in Hl. lia.
Qed.

(** Writing an instruction writes its pieces. *)
Lemma encode_wrote a o o' :
  (∀ l t, pos_of (o_labels o) l = Some t → t <= chunk_len (o_chunk o)) →
  encode a o = (o', Ok tt) → clean o' → asm_misfit a = None ∧ wrote (asm_pieces a) o o'.
Proof.
  intros Hle He Hcl. assert (asm_misfit a = None) as Hm by (apply (encode_ok a o); by rewrite He).
  split; [done|]. apply put_pieces_wrote; auto. by rewrite <- encode_fits.
Qed.

(** ** Binding a label *)

Lemma copy_from_slice_app pre old bs rest :
  length old = length bs →
  copy_from_slice (pre ++ old ++ rest) (N.of_nat (length pre)) bs = pre ++ bs ++ rest.
Proof.
  intros Hl. unfold copy_from_slice. rewrite Nat2N.id, take_app_length.
  rewrite <- Hl, drop_app_ge, Nat.add_comm, Nat.add_sub by lia. by rewrite drop_app_length.
Qed.

Section Patch.
Variables (here : N) (over : string) (l : Label) (pos pos' : Places).
Hypothesis Hl' : pos' l = Some here.
Hypothesis Hne : ∀ k, k ≠ l → pos' k = pos k.

Lemma patch_piece at_ pre p rest qs code' :
  at_ = N.of_nat (length pre) → at_ + piece_size p <= here →
  patch here over (jump_to l at_ p ++ qs) (pre ++ piece_bytes pos at_ p ++ rest) = (code', Ok tt) →
  patch here over qs (pre ++ piece_bytes pos' at_ p ++ rest) = (code', Ok tt) ∧
  (reaches pos at_ p → reaches pos' at_ p).
Proof.
  intros Hat Hsz. destruct p as [b|to|to]; cbn [jump_to piece_size] in *; [done|..];
    (destruct (to =? l) eqn:E; [apply N.eqb_eq in E as ->|apply N.eqb_neq in E];
     [|cbn; by rewrite Hne]); cbn [app patch piece_bytes reaches]; case_match; try done;
    rewrite Hat, copy_from_slice_app, <- Hat, Hl' by done.
  - intros Hp. split; [done|]. intros _ t [= <-]. lia.
  - replace (Z.of_N here - Z.of_N (at_ + 4))%Z with (Z.of_N (here - (at_ + 4))) by lia.
    intros Hp. split; [done|]. intros _ t [= <-]. lia.
Qed.

(** Writing the place of the label into the operands that wait for it is the
    layout with the label placed. *)
Lemma patch_layout at_ pre ps code' :
  at_ = N.of_nat (length pre) → at_ + size ps <= here →
  patch here over (jumps_to l at_ ps) (pre ++ layout pos at_ ps) = (code', Ok tt) →
  code' = pre ++ layout pos' at_ ps ∧ (all_reach pos at_ ps → all_reach pos' at_ ps).
Proof.
  revert at_ pre. induction ps as [|p ps IH]; intros at_ pre Hat Hsz; [cbn; by intros [= <-]|].
  cbn [jumps_to layout size all_reach] in *.
  intros [Hp Hr]%patch_piece; [|done|lia]. rewrite app_assoc in Hp. apply IH in Hp as [-> Hrs]; [|..|lia].
  - rewrite <- app_assoc. naive_solver.
  - by rewrite length_app, Nat2N.inj_add, <- Hat, piece_bytes_length.
Qed.
End Patch.

(** * What the emitter is asked to write

    A [Draft] is the code as the calls ask for it: the instructions, with the
    pairs that are fused as one, and for each label the instruction it is
    placed before.  It knows no bytes, no offsets and no operands that wait.
    [drafted] relates it to the emitter, and every call keeps it. *)

(** ** Drafts *)

Record Draft := mkDraft {
  d_asms : list Asm;
  d_places : list (option nat);
  (** What the last instruction is as the first of a pair, when nothing is
      placed after it. *)
  d_first : option First;
}.

Definition draft_new : Draft := mkDraft [] [] None.

Definition draft_emit (asm : Asm) (c : Chunk) (d : Draft) : Draft :=
  match d_first d ≫= λ f, fused f asm with
  | Some (one, _) =>
      mkDraft (take (pred (length (d_asms d))) (d_asms d) ++ [one]) (d_places d) (default None (first_of one c))
  | None => mkDraft (d_asms d ++ [asm]) (d_places d) (default None (first_of asm c))
  end.

Definition draft_label (d : Draft) : Draft := mkDraft (d_asms d) (d_places d ++ [None]) (d_first d).

Definition draft_bind (l : Label) (d : Draft) : Draft :=
  mkDraft (d_asms d) (<[N.to_nat l := Some (length (d_asms d))]> (d_places d)) None.

(** The calls of the emitter. *)
Inductive Call :=
  | CConstant (v : Value) (span : Span)
  | CEmit (asm : Asm) (span : Span)
  | CLabel
  | CBind (l : Label) (over : string) (span : Span)
  | CAssumeHeight (height : N)
  | CHiddenParams (n : N)
  | CTakesDictSlot.

Definition done_ {A} (r : Emitter * Result EmitFault A) : option Emitter :=
  match r with (e, Ok _) => Some e | _ => None end.

(** The emitter after a call that succeeds. *)
Definition call (c : Call) (e : Emitter) : option Emitter :=
  match c with
  | CConstant v span => done_ (emit_constant v span e)
  | CEmit asm span => done_ (emit asm span e)
  | CLabel => done_ (label e)
  | CBind l over span => done_ (bind_over l over span e)
  | CAssumeHeight h => done_ (assume_height h e)
  | CHiddenParams n => done_ (hidden_params n e)
  | CTakesDictSlot => done_ (takes_dict_slot e)
  end.

(** The draft after it; the pool tells which constants are Ints. *)
Definition draft_call (c : Call) (chunk : Chunk) (d : Draft) : Draft :=
  match c with
  | CEmit asm _ => draft_emit asm chunk d
  | CLabel => draft_label d
  | CBind l _ _ => draft_bind l d
  | _ => d
  end.

Fixpoint calls (cs : list Call) (e : Emitter) (d : Draft) : option (Emitter * Draft) :=
  match cs with
  | [] => Some (e, d)
  | c :: cs => e' ← call c e; calls cs e' (draft_call c (e_chunk e) d)
  end.

(** ** The code of instructions *)

Definition pieces (asms : list Asm) : list Piece := concat (asm_pieces <$> asms).

(** Where instruction [k] starts. *)
Definition offset (asms : list Asm) (k : nat) : N := size (pieces (take k asms)).

Lemma pieces_app xs ys : pieces (xs ++ ys) = pieces xs ++ pieces ys.
Proof. unfold pieces. by rewrite fmap_app, concat_app. Qed.

Lemma pieces_one a : pieces [a] = asm_pieces a.
Proof. unfold pieces. cbn. by rewrite app_nil_r. Qed.

Lemma offset_all asms : offset asms (length asms) = size (pieces asms).
Proof. unfold offset. by rewrite firstn_all. Qed.

Lemma offset_app xs ys k : (k <= length xs)%nat → offset (xs ++ ys) k = offset xs k.
Proof. intros. unfold offset. by rewrite take_app_le. Qed.

(** ** Drafts and emitters *)

(** The emitter has written the instructions, and the labels are where
    [places] say. *)
Record written (e : Emitter) (asms : list Asm) (places : list (option nat)) : Prop := mkWritten {
  wr_code : code (e_chunk e) = layout (pos_of (e_labels e)) 0 (pieces asms);
  wr_reach : all_reach (pos_of (e_labels e)) 0 (pieces asms);
  wr_length : length (e_labels e) = length places;
  wr_pos : ∀ l, pos_of (e_labels e) l = offset asms <$> (places !! N.to_nat l ≫= id);
  wr_places : ∀ l k, places !! l = Some (Some k) → (k <= length asms)%nat;
  wr_waiting : ∀ l st, e_labels e !! l = Some st →
    waiting st = match bound st with None => jumps_to (N.of_nat l) 0 (pieces asms) | Some _ => [] end;
  wr_known : ∀ p, p ∈ pieces asms → match p with
    | PByte _ => True | PFwd l | PRel l => (N.to_nat l < length (e_labels e))%nat end;
  wr_fits : Forall (λ a, asm_misfit a = None) asms;
}.

Lemma written_len e asms places : written e asms places → chunk_len (e_chunk e) = size (pieces asms).
Proof. intros H. unfold chunk_len. rewrite (wr_code _ _ _ H). apply layout_length. Qed.

Lemma size_take asms k : offset asms k <= size (pieces asms).
Proof.
  unfold offset. rewrite <- (take_drop k asms) at 2. rewrite pieces_app, size_app. lia.
Qed.

Lemma written_pos_le e asms places l t :
  written e asms places → pos_of (e_labels e) l = Some t → t <= chunk_len (e_chunk e).
Proof.
  intros H. rewrite (written_len _ _ _ H), (wr_pos _ _ _ H).
  intros (k & _ & ->)%fmap_Some. apply size_take.
Qed.

Lemma first_of_constants a c c' : constants c = constants c' → first_of a c = first_of a c'.
Proof. intros E. destruct a as [op vs]. unfold first_of, constant. by rewrite E. Qed.

(** The first of a pair has no jump. *)
Lemma first_of_bytes a c first :
  first_of a c = Some (Some first) → ∃ bs, asm_pieces a = PByte <$> bs.
Proof.
  destruct a as [op vs]. destruct op; cbn in vs; try done; intros _; repeat destruct vs as [? vs];
    [by eexists [_; _; _]|by eexists [_]..].
Qed.

Lemma jumps_to_bytes l at_ bs : jumps_to l at_ (PByte <$> bs) = [].
Proof. revert at_. induction bs as [|b bs IH]; intros at_; [done|]. apply IH. Qed.

Lemma jumps_to_none l at_ ps :
  (∀ p, p ∈ ps → match p with PByte _ => True | PFwd k | PRel k => k ≠ l end) → jumps_to l at_ ps = [].
Proof.
  revert at_. induction ps as [|p ps IH]; intros at_ H; [done|]. cbn [jumps_to].
  rewrite IH by (intros; apply H; set_solver). rewrite app_nil_r.
  pose proof (H p ltac:(set_solver)) as Hp. destruct p; cbn; try done; case_match; try done; lia.
Qed.

(** A write that succeeds has written the instruction. *)
Lemma write_written e asms places asm span e' :
  written e asms places → write asm span e = (e', Ok tt) →
  written e' (asms ++ [asm]) places ∧
  constants (e_chunk e') = constants (e_chunk e) ∧
  ∃ first, first_of asm (e_chunk e) = Some first ∧
    e_last e' = (λ f, mkLast f (chunk_len (e_chunk e)) (e_height e) span) <$> first.
Proof.
  intros H. unfold write. cbn zeta. destruct (e_reachable e && _); [done|].
  destruct (match cut _ with Some _ => _ | None => _ end); [done|].
  set (o := mkOut _ _ _ _ _ _). destruct (encode asm o) as [o' r] eqn:E.
  destruct (o_panicked o') eqn:Ep; [done|]. destruct r as [[]|]; [|done].
  destruct (o_bug o') eqn:Eb; [done|].
  destruct (first_of asm _) as [first|] eqn:Ef; [|done]. intros [= <-].
  destruct (encode_wrote asm o o') as [Hm Hw]; [|done|by split|].
  { intros l t. by apply (written_pos_le e asms places). }
  pose proof (written_len _ _ _ H) as Hlen. destruct Hw as [Hc Hk Hl Hwait Hr Hkn]. cbn -[asm_pieces] in *.
  split_and!; [|done|exists first; split; [|done]].
  2: { rewrite <- Ef. by apply first_of_constants. }
  assert (∀ l, pos_of (o_labels o') l = pos_of (e_labels e) l) as Hpos
    by (intros; by eapply (wrote_pos (asm_pieces asm) o o')).
  split; cbn -[asm_pieces]; rewrite ?pieces_app, ?pieces_one.
  - rewrite Hc, (wr_code _ _ _ H), layout_app, Hlen, N.add_0_l.
    f_equal; apply layout_ext; intros; by rewrite Hpos.
  - apply all_reach_app. rewrite N.add_0_l, <- Hlen.
    split; (eapply all_reach_ext; [intros; symmetry; apply Hpos|]); [apply H|done].
  - rewrite Hl. apply H.
  - intros l. rewrite Hpos, (wr_pos _ _ _ H).
    destruct (places !! N.to_nat l ≫= id) as [k|] eqn:Ek; [|done]. cbn. f_equal.
    apply bind_Some in Ek as (x & Hx & Hx'). cbn in Hx'. subst x. symmetry. apply offset_app. by eapply (wr_places _ _ _ H).
  - intros l k Hk'. apply (wr_places _ _ _ H) in Hk'. rewrite length_app. lia.
  - intros l st Hst. destruct (lookup_lt_is_Some_2 (e_labels e) l) as [st0 Hst0].
    { rewrite <- Hl. by eapply lookup_lt_Some. }
    destruct (Hwait _ _ Hst0) as (st' & Hst' & Hb & Hw'). simplify_eq.
    rewrite Hw', (wr_waiting _ _ _ H _ _ Hst0), jumps_to_app, N.add_0_l, <- Hlen, Hb.
    by destruct (bound st0).
  - intros p [Hp|Hp]%elem_of_app; rewrite Hl.
    + by apply (wr_known _ _ _ H).
    + by apply Hkn.
  - apply Forall_app. split; [apply H|]. by constructor.
Qed.

(** The last instruction is taken off again. *)
Lemma truncate_written e asms a places bs h :
  written e (asms ++ [a]) places → asm_pieces a = PByte <$> bs →
  (∀ l k, places !! l = Some (Some k) → (k <= length asms)%nat) →
  written (mkEmitter (with_chunk (e_function e) (chunk_truncate (size (pieces asms)) (e_chunk e)))
    h (e_reachable e) (e_ended e) (e_labels e) (e_last e)) asms places.
Proof.
  intros [Hc Hr Hl Hp Hpl Hw Hk Hf] Ha Hle. rewrite pieces_app, pieces_one, Ha in *.
  split; cbn; try done.
  - rewrite Hc, layout_app, <- (layout_length (pos_of (e_labels e)) 0 (pieces asms)), Nat2N.id.
    apply take_app_length.
  - by apply all_reach_app in Hr as [? _].
  - intros l. rewrite Hp. destruct (places !! N.to_nat l ≫= id) as [k|] eqn:Ek; [|done].
    cbn. f_equal. apply bind_Some in Ek as (x & Hx & Hx'). cbn in Hx'. subst x.
    apply offset_app. by eapply Hle.
  - intros l st Hst. rewrite (Hw _ _ Hst), jumps_to_app, jumps_to_bytes, app_nil_r. done.
  - intros p Hpp. apply Hk. set_solver.
  - by apply Forall_app in Hf as [? _].
Qed.

Definition drafted (e : Emitter) (d : Draft) : Prop :=
  written e (d_asms d) (d_places d) ∧
  d_first d = l_first <$> e_last e ∧
  ∀ la, e_last e = Some la → ∃ asms a bs,
    d_asms d = asms ++ [a] ∧ asm_pieces a = PByte <$> bs ∧ l_at la = size (pieces asms) ∧
    (∀ l k, d_places d !! l = Some (Some k) → (k <= length asms)%nat) ∧
    (∀ k, l_first la = FInt k → a = mkAsm Op.Constant (k, tt)).

Lemma first_of_int a c k : first_of a c = Some (Some (FInt k)) → a = mkAsm Op.Constant (k, tt).
Proof.
  destruct a as [op vs]. destruct op; try done. destruct vs as [k' []]. unfold first_of. cbn.
  intros. by repeat case_match; simplify_eq.
Qed.

Lemma write_drafted e asms places asm span e' :
  written e asms places → write asm span e = (e', Ok tt) →
  drafted e' (mkDraft (asms ++ [asm]) places (default None (first_of asm (e_chunk e)))).
Proof.
  intros H Hw. destruct (write_written _ _ _ _ _ _ H Hw) as (Hw' & Hc & first & Hf & Hl).
  rewrite Hf. split_and!; [done|by rewrite Hl; destruct first|].
  intros la. rewrite Hl. intros (f & -> & ->)%fmap_Some. cbn.
  destruct (first_of_bytes _ _ _ Hf) as [bs Hbs]. exists asms, asm, bs. split_and!; try done.
  - by apply (written_len _ _ places).
  - by apply (wr_places _ _ _ H).
  - intros k ->. by eapply first_of_int.
Qed.

#[local] Arguments write : simpl never.

Lemma emit_drafted e d asm span e' :
  drafted e d → emit asm span e = (e', Ok tt) → drafted e' (draft_emit asm (e_chunk e) d).
Proof.
  intros (Hw & Hf & Hl). unfold emit, draft_emit. rewrite Hf.
  destruct (e_last e) as [la|] eqn:E; cbn.
  - destruct (fused (l_first la) asm) as [[one b]|] eqn:Ef; cbn; [|by apply write_drafted].
    destruct (Hl la eq_refl) as (asms & a & bs & Hd & Ha & Hat & Hpl & _). rewrite Hd in *. intros Hwr.
    replace (pred (length (asms ++ [a]))) with (length asms) by (rewrite length_app; cbn; lia).
    rewrite take_app_length. rewrite Hat in Hwr.
    eapply write_drafted in Hwr; [|rewrite <- E; by eapply truncate_written].
    rewrite (first_of_constants one (e_chunk e) (chunk_truncate (size (pieces asms)) (e_chunk e))) by done.
    exact Hwr.
  - by apply write_drafted.
Qed.

Lemma label_drafted e d : drafted e d → drafted (label e).1 (draft_label d).
Proof.
  intros ([Hc Hr Hl Hp Hpl Hw Hk Hf] & Hfirst & Hlast).
  assert (∀ l, pos_of (e_labels e ++ [label_default]) l = pos_of (e_labels e) l) as Hpos.
  { intros l. unfold pos_of. destruct (decide (N.to_nat l < length (e_labels e))%nat).
    - by rewrite lookup_app_l.
    - rewrite lookup_app_r by lia. rewrite (lookup_ge_None_2 (e_labels e)) by lia.
      by destruct (N.to_nat l - length (e_labels e))%nat as [|[]]. }
  assert (∀ l k, (d_places d ++ [None]) !! l = Some (Some k) → d_places d !! l = Some (Some k)) as Hpl'.
  { intros l k [?|[? Hn]]%lookup_app_Some; [done|]. by destruct (l - length (d_places d))%nat as [|[]]. }
  split_and!; cbn; [split; cbn; try done|done|].
  - etrans; [exact Hc|]. by apply layout_ext.
  - by eapply all_reach_ext; [|exact Hr].
  - rewrite !length_app, Hl. done.
  - intros l. rewrite Hpos, Hp. destruct (decide (N.to_nat l < length (d_places d))%nat).
    + by rewrite lookup_app_l.
    + rewrite lookup_app_r by lia. rewrite (lookup_ge_None_2 (d_places d)) by lia.
      by destruct (N.to_nat l - length (d_places d))%nat as [|[]].
  - intros l k ?%Hpl'. by eapply Hpl.
  - intros l st [?|[? Hst]]%lookup_app_Some; [by apply Hw|].
    destruct (l - length (e_labels e))%nat as [|[]] eqn:El; [|done..]. injection Hst as <-. cbn.
    symmetry. apply jumps_to_none. intros p Hpp. apply Hk in Hpp. destruct p; lia.
  - intros p Hpp. apply Hk in Hpp. rewrite length_app. destruct p; lia.
  - intros la Hla. destruct (Hlast la Hla) as (asms & a & bs & ? & ? & ? & Hle & ?).
    exists asms, a, bs. split_and!; try done. intros l k ?%Hpl'. by eapply Hle.
Qed.

Lemma bind_drafted e d l over span e' :
  drafted e d → bind_over l over span e = (e', Ok tt) → drafted e' (draft_bind l d).
Proof.
  intros (Hwr & _ & _) Hb. pose proof (written_len _ _ _ Hwr) as Hlen. revert Hb.
  destruct Hwr as [Hc Hr Hl Hp Hpl Hw Hk Hf]. unfold bind_over. cbn zeta. cbn [e_labels].
  destruct (e_labels e !! N.to_nat l) as [st|] eqn:Hst; [|done].
  destruct (bound st) eqn:Hb; [done|].
  destruct (patch _ _ _ _) as [code' r] eqn:Ep. destruct r as [[]|]; [|done].
  set (hr := match arriving st with Some _ => _ | None => _ end). destruct hr as [h reach]. intros [= <-].
  set (labels' := <[N.to_nat l := _]> (e_labels e)).
  assert (Hlt : (N.to_nat l < length (e_labels e))%nat) by (by eapply lookup_lt_Some).
  assert (pos_of labels' l = Some (size (pieces (d_asms d)))) as Hpos'
    by (unfold pos_of, labels'; rewrite list_lookup_insert_eq by done; cbn; by rewrite <- Hlen).
  assert (∀ k, k ≠ l → pos_of labels' k = pos_of (e_labels e) k) as Hother
    by (intros; unfold pos_of, labels'; rewrite list_lookup_insert_ne by lia; done).
  rewrite (Hw _ _ Hst), Hb, N2Nat.id in Ep.
  change (chunk_len (e_chunk _)) with (chunk_len (e_chunk e)) in Ep.
  change (code (e_chunk _)) with (code (e_chunk e)) in Ep. rewrite Hlen, Hc in Ep.
  destruct (patch_layout _ _ l _ _ Hpos' Hother 0 [] (pieces (d_asms d)) code' eq_refl ltac:(lia) Ep)
    as [-> Hreach].
  split_and!; [|done..]. split; cbn; try done.
  - by apply Hreach.
  - unfold labels'. by rewrite !length_insert.
  - intros k. destruct (decide (k = l)) as [->|Hne].
    + rewrite Hpos', list_lookup_insert_eq by lia. cbn. by rewrite offset_all.
    + rewrite Hother, Hp by done. rewrite list_lookup_insert_ne by lia. done.
  - intros j k [[<- [[= <-] _]]|[_ Hjk]]%list_lookup_insert_Some; [done|by eapply Hpl].
  - intros j st' [[<- [<- _]]|[_ Hj]]%list_lookup_insert_Some; [done|by apply Hw].
  - intros p Hpp. apply Hk in Hpp. unfold labels'. by rewrite length_insert.
Qed.

(** A call that leaves the code, the labels and the last instruction as they
    are. *)
Lemma same_drafted e e' d :
  drafted e d → code (e_chunk e') = code (e_chunk e) → e_labels e' = e_labels e →
  e_last e' = e_last e → drafted e' d.
Proof.
  intros ([Hc Hr Hl Hp Hpl Hw Hk Hf] & Hfirst & Hlast) Ec El Ela.
  split_and!; [split; rewrite ?El, ?Ec; done|by rewrite Ela|by rewrite Ela].
Qed.

Lemma add_constant_code v c : code (add_constant v c).1 = code c.
Proof. unfold add_constant. by repeat case_match. Qed.

Lemma call_drafted c e d e' :
  drafted e d → call c e = Some e' → drafted e' (draft_call c (e_chunk e) d).
Proof.
  intros Hd. destruct c; cbn [call draft_call]; unfold done_.
  - unfold emit_constant. pose proof (add_constant_code v (e_chunk e)) as Hc.
    destruct (add_constant v (e_chunk e)) as [c [k|]]; [|done]. intros [= <-]. by eapply same_drafted.
  - destruct (emit asm span e) as [e1 [[]|]] eqn:E; [|done]. intros [= <-]. by eapply emit_drafted.
  - intros [= <-]. by apply label_drafted.
  - destruct (bind_over _ _ _ e) as [e1 [[]|]] eqn:E; [|done]. intros [= <-]. by eapply bind_drafted.
  - unfold assume_height. destruct (e_reachable e); intros [= <-]; by eapply same_drafted.
  - intros [= <-]. by eapply same_drafted.
  - intros [= <-]. by eapply same_drafted.
Qed.

Lemma calls_drafted cs e d e' d' :
  drafted e d → calls cs e d = Some (e', d') → drafted e' d'.
Proof.
  revert e d. induction cs as [|c cs IH]; intros e d Hd; cbn; [by intros [= <- <-]|].
  destruct (call c e) as [e1|] eqn:E; [|done]. cbn. apply IH. by eapply call_drafted.
Qed.

Lemma new_drafted name arity span e :
  emitter_new name arity span = Ok e → drafted e draft_new.
Proof.
  unfold emitter_new. case_match; [|done]. intros [= <-]. split_and!; [|done..].
  split; cbn; try done; try set_solver.
Qed.
