(* ===== verification/EmitClaims.v ===== *)
(** * What the emitter promises

    The code of a finished function reads back as the instructions its
    compiler asked for; an operand that does not fit is a limit and nothing is
    cut off; the fused pairs do what the two instructions do. *)

From S2P Require Import Prelude Ops OpsFacts Chunk Verify Emit EmitFacts.
From Stdlib Require Import NArith ZifyBool ZifyN Strings.Byte.

Open Scope N_scope.

(** ** Reading the code back *)

Lemma asm_size a : 1 <= size (asm_pieces a).
Proof. unfold asm_pieces. cbn [size piece_size]. lia. Qed.

Lemma length_pieces asms : N.of_nat (length asms) <= size (pieces asms).
Proof.
  induction asms as [|a asms IH]; [done|]. change (a :: asms) with ([a] ++ asms).
  rewrite pieces_app, pieces_one, size_app. pose proof (asm_size a). cbn. lia.
Qed.

Lemma instrs_read pos code asms at_ fuel :
  Forall (λ a, asm_misfit a = None) asms → Forall asm_typed asms →
  Forall (placed pos) (pieces asms) → all_reach pos at_ (pieces asms) →
  has code at_ (layout pos at_ (pieces asms)) →
  N.of_nat (length code) = at_ + size (pieces asms) → (length asms < fuel)%nat →
  let is_ := instrs_from fuel code at_ in
  length is_ = length asms ∧
  ∀ k a, asms !! k = Some a →
    ∃ i, is_ !! k = Some (at_ + offset asms k, i) ∧ instr_says pos code a i.
Proof.
  revert at_ fuel. induction asms as [|a asms IH]; intros at_ [|fuel] Hm Ht Hp Hr Hh Hl Hf; try (cbn in Hf; lia).
  - cbn. unfold decode. rewrite lookup_ge_None_2 by (cbn in Hl; lia). done.
  - apply Forall_cons in Hm as [Hma Hm], Ht as [Hta Ht].
    change (a :: asms) with ([a] ++ asms) in *. rewrite pieces_app, pieces_one in *.
    apply Forall_app in Hp as [Hpa Hp]. apply all_reach_app in Hr as [Hra Hr].
    rewrite layout_app, has_app, layout_length in Hh. destruct Hh as [Hha Hh].
    rewrite size_app in Hl.
    destruct (decode_says pos code at_ a Hma Hta Hpa Hra Hha) as (i & Hd & Hi).
    cbn [instrs_from]. rewrite Hd.
    destruct (IH (at_ + size (asm_pieces a)) fuel) as [Hlen Hall]; [done..|lia|cbn in Hf; lia|].
    split; [exact (f_equal S Hlen)|]. intros [|k] b Hk.
    + injection Hk as <-. exists i. split; [|done]. change (offset ([a] ++ asms) 0) with 0.
      by rewrite N.add_0_r.
    + destruct (Hall k b Hk) as (j & Hj & Hs). exists j. split; [|done]. etrans; [exact Hj|].
      do 2 f_equal. unfold offset. change (take (S k) ([a] ++ asms)) with ([a] ++ take k asms).
      rewrite pieces_app, pieces_one, size_app. lia.
Qed.

(** Every label the code jumps to is placed when none is left waiting. *)
Lemma all_placed e asms places :
  written e asms places →
  existsb (λ l, match bound l with None => negb (bool_decide (waiting l = [])) | Some _ => false end)
    (e_labels e) = false →
  Forall (placed (pos_of (e_labels e))) (pieces asms).
Proof.
  intros H Hex. apply Forall_forall. intros p Hp. pose proof (wr_known _ _ _ H p Hp) as Hk.
  assert (∀ l, p = PFwd l ∨ p = PRel l → (N.to_nat l < length (e_labels e))%nat →
    is_Some (pos_of (e_labels e) l)) as Hgo.
  { intros l Hl Hlt. destruct (lookup_lt_is_Some_2 _ _ Hlt) as [st Hst].
    unfold pos_of. rewrite Hst. cbn. destruct (bound st) as [[t h]|] eqn:Hb; [by eexists|exfalso].
    assert (waiting st = []) as Hw.
    { apply dec_stable. intros Hne. apply not_true_iff_false in Hex. apply Hex, existsb_exists.
      exists st. split; [by eapply list_elem_of_In, list_elem_of_lookup_2|]. rewrite Hb.
      by rewrite bool_decide_false. }
    rewrite (wr_waiting _ _ _ H _ _ Hst), Hb, N2Nat.id in Hw.
    apply list_elem_of_split in Hp as (l1 & l2 & Hps). rewrite Hps, jumps_to_app in Hw.
    apply app_eq_nil in Hw as [_ Hw]. destruct Hl as [-> | ->]; cbn in Hw; by rewrite N.eqb_refl in Hw. }
  destruct p; cbn; [done|apply Hgo; auto..].
Qed.

(** The operands of the instructions handed to the emitter are of their
    types. *)
Definition call_typed (c : Call) : Prop :=
  match c with CEmit asm _ => asm_typed asm | _ => True end.

Lemma fused_typed first asm one b :
  fused first asm = Some (one, b) →
  (∀ k, first = FInt k → k < 65536) → asm_typed one.
Proof.
  destruct asm as [op vs]. destruct op; try done; cbn in vs; try destruct vs as [to []];
    destruct first as [k|c]; try done; intros Hf Hk; unfold fused in Hf; cbn in Hf; injection Hf as <- _.
  - split; [by apply Hk|done].
  - split; [by apply Hk|done].
  - unfold jump_unless. by destruct c.
  - unfold jump_unless. by destruct c.
Qed.

Lemma draft_typed c e d :
  drafted e d → call_typed c → Forall asm_typed (d_asms d) →
  Forall asm_typed (d_asms (draft_call c (e_chunk e) d)).
Proof.
  intros (Hw & Hf & Hl) Hc Ht. destruct c; cbn; try done. unfold draft_emit.
  destruct (d_first d ≫= _) as [[one b]|] eqn:E; cbn; apply Forall_app; split; auto.
  - by apply Forall_take.
  - constructor; [|done]. rewrite Hf in E. destruct (e_last e) as [la|]; [|done].
    eapply fused_typed; [exact E|]. intros k Hk.
    destruct (Hl la eq_refl) as (asms & a & bs & Hd & _ & _ & _ & Hint). rewrite Hd in Ht.
    apply Forall_app in Ht as [_ [Ha _]%Forall_cons]. rewrite (Hint k Hk) in Ha. by destruct Ha.
Qed.

Lemma calls_typed cs e d e' d' :
  drafted e d → Forall call_typed cs → Forall asm_typed (d_asms d) →
  calls cs e d = Some (e', d') → Forall asm_typed (d_asms d').
Proof.
  intros Hd Hcs. revert e d Hd. induction Hcs as [|c cs Hc _ IH]; intros e d Hd Ht; cbn; [by intros [= <- <-]|].
  destruct (call c e) as [e1|] eqn:E; [|done]. cbn. apply IH; [by eapply call_drafted|by apply draft_typed].
Qed.

(** ** The claims *)

(** C9. The code of a function the emitter finishes is the code its compiler
    asked for.  Whatever calls were made and all succeeded, the instructions
    of the code, from its first byte to its last, are the ones that were
    emitted, the fused pairs as one: the same opcodes, the operands at full
    width, the items of list operands, and each jump goes to the instruction
    its label was bound before, though it may have been written before the
    label had a place.  An instruction has the effect on the frame the
    compiler was told. *)
Theorem emitted_code_reads_back registry name n span cs e0 e d upvalues f :
  emitter_new name n span = Ok e0 → calls cs e0 draft_new = Some (e, d) →
  Forall call_typed cs → finish registry upvalues e = Ok f →
  length (instrs (chunk f)) = length (d_asms d) ∧
  ∀ k a, d_asms d !! k = Some a → ∃ i,
    instrs (chunk f) !! k = Some (offset (d_asms d) k, i) ∧
    instr_says (λ l, offset (d_asms d) <$> (d_places d !! N.to_nat l ≫= id)) (code (chunk f)) a i ∧
    effect i = asm_effect a.
Proof.
  intros Hnew Hcs Hty Hfin. pose proof (new_drafted _ _ _ _ Hnew) as Hd0.
  pose proof (calls_drafted _ _ _ _ _ Hd0 Hcs) as (Hw & _).
  assert (Forall asm_typed (d_asms d)) as Ht by (by eapply calls_typed).
  assert (chunk f = e_chunk e ∧ Forall (placed (pos_of (e_labels e))) (pieces (d_asms d))) as [-> Hp].
  { unfold finish in Hfin. destruct (existsb _ _) eqn:Hex; [done|].
    destruct (narrow_u8 _ _); [|done]. destruct (verify _ _) as [|[]]; [|done..]. injection Hfin as <-.
    split; [done|]. by eapply all_placed. }
  set (pos := λ l, _).
  assert (∀ l, pos_of (e_labels e) l = pos l) as Hpos by apply (wr_pos _ _ _ Hw).
  pose proof (written_len _ _ _ Hw) as Hlen. unfold chunk_len in Hlen. unfold instrs.
  pose proof (length_pieces (d_asms d)).
  destruct (instrs_read pos (code (e_chunk e)) (d_asms d) 0 (S (length (code (e_chunk e))))) as [Hl Hall];
    [apply Hw|done| | | |by rewrite N.add_0_l|lia|].
  - eapply Forall_impl; [exact Hp|]. intros []; cbn; by rewrite ?Hpos.
  - eapply all_reach_ext; [exact Hpos|apply Hw].
  - rewrite (wr_code _ _ _ Hw), (layout_ext _ _ _ _ Hpos).
    by intros i b Hib.
  - split; [done|]. intros k a Hk. destruct (Hall k a Hk) as (i & Hi & Hs).
    exists i. split_and!; [done|done|]. by eapply effect_says.
Qed.

(** [fn f(x) { match x < 1 { true -> 1, false -> x + 1 } }], nearly: the
    comparison is fused with the jump over the first branch, the constant with
    the addition. *)
Definition sample_calls : list Call :=
  let span := SPAN_BUILTIN in
  [CConstant (VInt 1) span; CLabel;
   CEmit (mkAsm Op.GetLocal (0, tt)) span; CEmit (mkAsm Op.Constant (0, tt)) span;
   CEmit (mkAsm Op.Lt tt) span; CEmit (mkAsm Op.JumpIfFalse (0, tt)) span;
   CEmit (mkAsm Op.Constant (0, tt)) span; CEmit (mkAsm Op.Return tt) span;
   CBind 0 "bytes of code in a branch" span;
   CEmit (mkAsm Op.GetLocal (0, tt)) span; CEmit (mkAsm Op.Constant (0, tt)) span;
   CEmit (mkAsm Op.Add tt) span; CEmit (mkAsm Op.Return tt) span].

Definition sample_draft : Draft := mkDraft
  [mkAsm Op.GetLocal (0, tt); mkAsm Op.Constant (0, tt); mkAsm Op.JumpIfNotLt (0, tt);
   mkAsm Op.Constant (0, tt); mkAsm Op.Return tt;
   mkAsm Op.GetLocal (0, tt); mkAsm Op.AddConst (0, tt); mkAsm Op.Return tt] [Some 5%nat] None.

Definition sample_emitter : Emitter :=
  mkEmitter (mkFunction "f" 1 0 chunk_new 0 false) 1 true false [] None.

Lemma emitted_code_reads_back_witness : ∃ f i,
  instrs (chunk f) !! 2%nat = Some (6, i) ∧
  instr_says (λ l, offset (d_asms sample_draft) <$> (d_places sample_draft !! N.to_nat l ≫= id))
    (code (chunk f)) (mkAsm Op.JumpIfNotLt (0, tt)) i.
Proof.
  destruct (calls sample_calls sample_emitter draft_new) as [[e d]|] eqn:E; [|by vm_compute in E].
  assert (d = sample_draft) as -> by (vm_compute in E; by injection E as <- <-).
  destruct (finish (λ _, None) 0 e) as [f|] eqn:Ef.
  2: { exfalso. vm_compute in E. injection E as <-. by vm_compute in Ef. }
  assert (Forall call_typed sample_calls) as Ht by (repeat constructor).
  destruct (emitted_code_reads_back (λ _, None) "f" 1 SPAN_BUILTIN sample_calls sample_emitter e sample_draft 0 f
    eq_refl E Ht Ef) as [_ Hall].
  destruct (Hall 2%nat _ eq_refl) as (i & Hi & Hs & _). exists f, i. by split.
Defined.

(** C37. An operand that does not fit its encoded width is a limit and never a
    number cut off, whatever the encoder writes to: it fails when an operand of
    the instruction is past what its kind can hold, with the limit of the first
    that is where no jump met one, and else it writes the pieces of the
    instruction, each operand whole. *)
Theorem operand_past_its_width_is_a_limit {W} `{!Writer W} a (w : W) :
  match asm_misfit a with
  | None => encode a w = put_pieces (asm_pieces a) w
  | Some lim =>
      (encode a w).2 ≠ Ok tt ∧
      ((∀ to (w : W), (w_rel to w).2 = Ok tt) → (encode a w).2 = Err lim)
  end.
Proof.
  destruct (asm_misfit a) as [lim|] eqn:E; [split|by apply encode_fits].
  - intros Hok%encode_ok. congruence.
  - intros Hrel. by apply encode_args_limit.
Qed.

(** ** Fused pairs *)

(** Whether a comparison holds of two values that are ordered so. *)
Definition comparison_holds (op : Op) (c : comparison) : option bool :=
  match op with
  | Op.Lt => Some (bool_decide (c = Lt))
  | Op.Gt => Some (bool_decide (c = Gt))
  | Op.Leq => Some (bool_decide (c ≠ Gt))
  | Op.Geq => Some (bool_decide (c ≠ Lt))
  | Op.Eq => Some (bool_decide (c = Eq))
  | Op.Neq => Some (bool_decide (c ≠ Eq))
  | _ => None
  end.

(** Where a conditional jump goes that finds a Bool on the stack. *)
Definition jumps_on (b : bool) (a : Asm) : option (Label * bool) :=
  match asm_op a as o return args asm_ty (fields (table o)) → option (Label * bool) with
  | Op.JumpIfFalse => λ '(to, _), Some (to, negb b)
  | Op.JumpIfTrue => λ '(to, _), Some (to, b)
  | _ => λ _, None
  end (asm_args a).

(** Where one goes that compares the two values on the stack, ordered so. *)
Definition jumps_comparing (c : comparison) (a : Asm) : option (Label * bool) :=
  match asm_op a as o return args asm_ty (fields (table o)) → option (Label * bool) with
  | Op.JumpIfNotLt => λ '(to, _), (λ b, (to, negb b)) <$> comparison_holds Op.Lt c
  | Op.JumpIfNotGt => λ '(to, _), (λ b, (to, negb b)) <$> comparison_holds Op.Gt c
  | Op.JumpIfNotLeq => λ '(to, _), (λ b, (to, negb b)) <$> comparison_holds Op.Leq c
  | Op.JumpIfNotGeq => λ '(to, _), (λ b, (to, negb b)) <$> comparison_holds Op.Geq c
  | Op.JumpIfNotEq => λ '(to, _), (λ b, (to, negb b)) <$> comparison_holds Op.Eq c
  | Op.JumpIfNotNeq => λ '(to, _), (λ b, (to, negb b)) <$> comparison_holds Op.Neq c
  | _ => λ _, None
  end (asm_args a).

(** The height after one instruction and then the other, of a frame of [h]
    values that neither takes too many off. *)
Definition height_after (a : Asm) (h : N) : N :=
  match cut (asm_effect a) with Some c => c | None => h - pops (asm_effect a) end + pushes (asm_effect a).

Lemma fused_int k next one b :
  fused (FInt k) next = Some (one, b) →
  (next = mkAsm Op.Add tt ∧ one = mkAsm Op.AddConst (k, tt)) ∨
  (next = mkAsm Op.Sub tt ∧ one = mkAsm Op.SubConst (k, tt)).
Proof.
  destruct next as [o vs]. destruct o; try done; unfold fused; cbn; destruct vs;
    intros Hf; try done; injection Hf as <- _; auto.
Qed.

Lemma fused_compare op next one b :
  fused (FCompare op) next = Some (one, b) → ∃ to,
  (next = mkAsm Op.JumpIfFalse (to, tt) ∧ one = jump_unless op to) ∨
  (next = mkAsm Op.JumpIfTrue (to, tt) ∧ one = jump_unless (negation op) to).
Proof.
  destruct next as [o vs]. destruct o; try done; cbn in vs; destruct vs as [to []];
    unfold fused; cbn; intros [= <- _]; eauto.
Qed.

Definition is_comparison (op : Op) : Prop :=
  match op with Op.Lt | Op.Gt | Op.Leq | Op.Geq | Op.Eq | Op.Neq => True | _ => False end.

Lemma first_of_compare a chunk op :
  first_of a chunk = Some (Some (FCompare op)) →
  ∃ va, is_comparison op ∧ a = mkAsm op va.
Proof.
  destruct a as [o va]. destruct o; try done; unfold first_of; cbn; [destruct va as [k []]; cbn; by repeat case_match|..];
    intros [= <-]; by exists va.
Qed.

(** A fused pair does what its two instructions do: a comparison and the
    conditional jump after it are a jump that is taken when the pair's is, to
    the same label, however the two values are ordered; an Int constant and
    the addition or subtraction after it are one instruction with that
    constant; and the frame is left at the height the two leave it at. *)
Theorem fused_pair_is_its_instructions first next one on_first a chunk :
  first_of a chunk = Some (Some first) → fused first next = Some (one, on_first) →
  (∀ h, 2 <= h → height_after next (height_after a h) = height_after one h) ∧
  match first with
  | FCompare op => ∀ c,
      ∃ b, comparison_holds (asm_op a) c = Some b ∧ jumps_comparing c one = jumps_on b next
  | FInt k =>
      ∃ n, constant chunk k = Some (VInt n) ∧ a = mkAsm Op.Constant (k, tt) ∧
      ((next = mkAsm Op.Add tt ∧ one = mkAsm Op.AddConst (k, tt)) ∨
       (next = mkAsm Op.Sub tt ∧ one = mkAsm Op.SubConst (k, tt)))
  end.
Proof.
  intros Ha Hf. destruct first as [k|op].
  - pose proof (first_of_int _ _ _ Ha) as ->. unfold first_of in Ha. cbn in Ha.
    destruct (constant chunk k) as [[n| | | | | | | | | | |]|] eqn:Ek; try done.
    destruct (fused_int _ _ _ _ Hf) as [[-> ->]|[-> ->]];
      (split; [intros h Hh; unfold height_after; cbn; lia|eauto 8]).
  - destruct (fused_compare _ _ _ _ Hf) as (to & Hn).
    destruct (first_of_compare _ _ _ Ha) as (va & Hc & ->).
    split; [intros h Hh|intros c; cbn [asm_op]];
      destruct op; try done; destruct Hn as [[-> ->]|[-> ->]];
      try (unfold height_after; cbn; lia); destruct c; by eexists.
Qed.

Lemma fused_pair_is_its_instructions_witness :
  ∃ b, comparison_holds Op.Leq Eq = Some b ∧
    jumps_comparing Eq (mkAsm Op.JumpIfNotGt (3, tt)) = jumps_on b (mkAsm Op.JumpIfTrue (3, tt)).
Proof.
  exact (proj2 (fused_pair_is_its_instructions (FCompare Op.Leq) (mkAsm Op.JumpIfTrue (3, tt))
    (mkAsm Op.JumpIfNotGt (3, tt)) true (mkAsm Op.Leq tt) chunk_new eq_refl eq_refl) Eq).
Defined.

(** ** The functions silt writes itself *)

(** The functions silt builds itself are always well-formed, so unwrapping
    them does not panic: one that returns unit, whatever it is called and
    however many arguments a function can take, and the script that calls a
    global slot, whichever it is. *)
Theorem own_functions_are_well_formed registry name name' arity slot :
  arity <= 255 →
  (∃ f, returning_unit registry name arity = Ok f) ∧
  (∃ f, call_global_script registry slot name' = Ok f).
Proof.
  intros Ha. split.
  - assert (forallb (λ n, match returning_unit registry name (N.of_nat n) with Ok _ => true | Err _ => false end)
      (seq 0 256) = true) as H by (by vm_compute).
    rewrite forallb_forall in H. specialize (H (N.to_nat arity)). rewrite N2Nat.id in H.
    destruct (returning_unit registry name arity) as [f|]; [by eexists|].
    discriminate H. apply in_seq. lia.
  - unfold call_global_script. generalize ("<call:" ++ name' ++ ">")%string. intros s.
    set (script b1 b2 := mkChunk [x17; b1; b2; x1b; x00; x1e] [] [(0, SPAN_BUILTIN)] ∅).
    assert (∀ b1 b2, verify registry (mkFunction s 0 0 (script b1 b2) 0 false) = Ok tt) as Hv
      by (intros; by vm_compute).
    exists (mkFunction s 0 0 (script (byte_at slot) (byte_at (slot / 256))) 0 false).
    change (finish registry 0 (mkEmitter (mkFunction s 0 0 (script (byte_at slot) (byte_at (slot / 256))) 0 false)
      0 false true [] None) = Ok (mkFunction s 0 0 (script (byte_at slot) (byte_at (slot / 256))) 0 false)).
    unfold finish. cbn -[verify]. by rewrite Hv.
Qed.

Lemma own_functions_are_well_formed_witness :
  (∃ f, returning_unit (λ _, None) "unit" 255 = Ok f) ∧
  (∃ f, call_global_script (λ _, None) 65535 "test" = Ok f).
Proof. apply (own_functions_are_well_formed (λ _, None) "unit" "test" 255 65535). lia. Defined.
