(* ===== verification/Globals.v ===== *)
(** * The global slots of a program (src/bytecode/mod.rs)

    The tables of [Globals] are the layered lists and maps of [Layers], which
    are a plain list and a plain map when a key is given its value once; here
    they are those.  An id of a definition, a type, a trait and a module is an
    [N]; the trait arguments of an impl are their canonical text, a dictionary
    left to a later entry is a pair of numbers. *)

From S2P Require Import Prelude.
From Stdlib Require Import NArith.

Open Scope N_scope.

Definition DefId := N.
Definition TypeId := N.
Definition TraitId := N.
Definition ImplArgs := string.
Definition ARGS_NONE : ImplArgs := "".
Definition Late : Type := N * N.

(** ** Types of fields (src/typeinfo.rs) *)

Inductive FieldType :=
  | TInt | TFloat | TString | TBool
  | TList (t : FieldType) | TOption (t : FieldType) | TMap (t : FieldType)
  | TKeyedMap (i : N) (t : FieldType)
  | TTuple (ts : list FieldType)
  | TRecord (id : TypeId) | TEnum (id : TypeId)
  | TApplied (id : TypeId) (args : list FieldType)
  | TParam (i : N)
  | TDate | TTime | TDateTime | TBytes | TJsonValue
  | TUnsupported (declared : string).

(** [==] of two types. *)
Fixpoint field_type_eq (a b : FieldType) : bool :=
  let fix eqs (l l' : list FieldType) : bool :=
    match l, l' with
    | [], [] => true
    | x :: l, y :: l' => field_type_eq x y && eqs l l'
    | _, _ => false
    end in
  match a, b with
  | TInt, TInt | TFloat, TFloat | TString, TString | TBool, TBool
  | TDate, TDate | TTime, TTime | TDateTime, TDateTime | TBytes, TBytes
  | TJsonValue, TJsonValue => true
  | TList x, TList y | TOption x, TOption y | TMap x, TMap y => field_type_eq x y
  | TKeyedMap i x, TKeyedMap j y => (i =? j) && field_type_eq x y
  | TTuple l, TTuple l' => eqs l l'
  | TRecord i, TRecord j | TEnum i, TEnum j | TParam i, TParam j => i =? j
  | TApplied i l, TApplied j l' => (i =? j) && eqs l l'
  | TUnsupported s, TUnsupported s' => String.eqb s s'
  | _, _ => false
  end.

(** Whether [actual] is one the impl written for [pattern] stands for: each
    type parameter of the impl stands for any type. *)
Fixpoint fits (pattern actual : FieldType) : bool :=
  let fix all (l l' : list FieldType) : bool :=
    match l, l' with
    | [], [] => true
    | x :: l, y :: l' => fits x y && all l l'
    | _, _ => false
    end in
  match pattern, actual with
  | TParam _, _ => true
  | TList p, TList a | TOption p, TOption a | TMap p, TMap a => fits p a
  | TTuple ps, TTuple as_ => all ps as_
  | TApplied p ps, TApplied a as_ => (p =? a) && all ps as_
  | pattern, actual => field_type_eq pattern actual
  end.

(** ** Written methods *)

(** The slot of the method a program wrote for each type, with one bit for
    each type there, by the low bits of its id. *)
Record Written := mkWritten { w_slots : gmap TypeId N; w_bits : N }.

Definition bit (ty : TypeId) : N := N.shiftl 1 (N.land ty 63).

Definition written_get (w : Written) (ty : TypeId) : option N :=
  if N.land (w_bits w) (bit ty) =? 0 then None else w_slots w !! ty.
Definition written_any (w : Written) : bool := negb (bool_decide (w_slots w = ∅)).
Definition written_insert (ty : TypeId) (slot : N) (w : Written) : Written :=
  mkWritten (<[ty := slot]> (w_slots w)) (N.lor (w_bits w) (bit ty)).
Definition written_new : Written := mkWritten ∅ 0.

(** ** The tables *)

(** Of a dictionary template, the impl it is of and its place in the table. *)
Record Template := mkTemplate { t_index : N; t_trait : TraitId; t_type : TypeId; t_args : ImplArgs }.

Record Globals := mkGlobals {
  names : list string;
  defs : gmap DefId N;
  method_names : list string;
  method_ids : gmap string N;
  methods : gmap (TraitId * TypeId * N) N;
  arg_methods : gmap (TraitId * TypeId * ImplArgs * N) N;
  defaults : gmap (TraitId * N) (string * N);
  shown : Written;
  encoded : Written;
  decoded : Written;
  decoded_at : gmap (TypeId * N) (list FieldType * N);
  traits : list (TraitId * string);
  trait_indexes : gmap TraitId N;
  trait_methods : gmap TraitId (list (string * option N));
  templates : gmap (TraitId * TypeId * ImplArgs) Template;
  template_rows : list Template;
  pending : gmap Late N;
}.

Definition globals_default : Globals :=
  mkGlobals [] ∅ [] ∅ ∅ ∅ ∅ written_new written_new written_new ∅ [] ∅ ∅ ∅ [] ∅.

(** [u16::try_from] of a length. *)
Definition next_u16 {A} (l : list A) : option N :=
  let n := N.of_nat (length l) in if n <=? 65535 then Some n else None.

(** The globals a session goes on with after an entry that was compiled into
    [g] did not run to its end; [before] are the ones it was compiled onto. *)
Definition without_definitions_since (g before : Globals) : Globals :=
  mkGlobals (names g) (defs before) (method_names g) (method_ids g) (methods before)
    (arg_methods before) (defaults before) (shown before) (encoded before) (decoded before)
    (decoded_at before) (traits g) (trait_indexes g) (trait_methods before) (templates before)
    (template_rows g) (pending g).

(** A new slot named [name]; [None] when all 65,536 slots are taken. *)
Definition add (name : string) (g : Globals) : Globals * option N :=
  match next_u16 (names g) with
  | None => (g, None)
  | Some slot =>
      (mkGlobals (names g ++ [name]) (defs g) (method_names g) (method_ids g) (methods g)
         (arg_methods g) (defaults g) (shown g) (encoded g) (decoded g) (decoded_at g)
         (traits g) (trait_indexes g) (trait_methods g) (templates g) (template_rows g) (pending g),
       Some slot)
  end.

Definition set_defs (m : gmap DefId N) (g : Globals) : Globals :=
  mkGlobals (names g) m (method_names g) (method_ids g) (methods g)
    (arg_methods g) (defaults g) (shown g) (encoded g) (decoded g) (decoded_at g)
    (traits g) (trait_indexes g) (trait_methods g) (templates g) (template_rows g) (pending g).
Definition set_methods (m : gmap (TraitId * TypeId * N) N) (g : Globals) : Globals :=
  mkGlobals (names g) (defs g) (method_names g) (method_ids g) m
    (arg_methods g) (defaults g) (shown g) (encoded g) (decoded g) (decoded_at g)
    (traits g) (trait_indexes g) (trait_methods g) (templates g) (template_rows g) (pending g).
Definition set_arg_methods (m : gmap (TraitId * TypeId * ImplArgs * N) N) (g : Globals) : Globals :=
  mkGlobals (names g) (defs g) (method_names g) (method_ids g) (methods g)
    m (defaults g) (shown g) (encoded g) (decoded g) (decoded_at g)
    (traits g) (trait_indexes g) (trait_methods g) (templates g) (template_rows g) (pending g).
Definition set_defaults (m : gmap (TraitId * N) (string * N)) (g : Globals) : Globals :=
  mkGlobals (names g) (defs g) (method_names g) (method_ids g) (methods g)
    (arg_methods g) m (shown g) (encoded g) (decoded g) (decoded_at g)
    (traits g) (trait_indexes g) (trait_methods g) (templates g) (template_rows g) (pending g).
Definition set_written (s e d : Written) (g : Globals) : Globals :=
  mkGlobals (names g) (defs g) (method_names g) (method_ids g) (methods g)
    (arg_methods g) (defaults g) s e d (decoded_at g)
    (traits g) (trait_indexes g) (trait_methods g) (templates g) (template_rows g) (pending g).
Definition set_pending (m : gmap Late N) (g : Globals) : Globals :=
  mkGlobals (names g) (defs g) (method_names g) (method_ids g) (methods g)
    (arg_methods g) (defaults g) (shown g) (encoded g) (decoded g) (decoded_at g)
    (traits g) (trait_indexes g) (trait_methods g) (templates g) (template_rows g) m.

(** The slot of the definition [def], named [name]: a new one the first
    time. *)
Definition add_def (def : DefId) (name : string) (g : Globals) : Globals * option N :=
  match defs g !! def with
  | Some slot => (g, Some slot)
  | None =>
      match add name g with
      | (g, Some slot) => (set_defs (<[def := slot]> (defs g)) g, Some slot)
      | (g, None) => (g, None)
      end
  end.

(** The name of a pending dictionary's slot shows its number. *)
Definition pending_slot (late : Late) (name : string) (g : Globals) : Globals * option N :=
  match pending g !! late with
  | Some slot => (g, Some slot)
  | None =>
      match add name g with
      | (g, Some slot) => (set_pending (<[late := slot]> (pending g)) g, Some slot)
      | (g, None) => (g, None)
      end
  end.

(** The id of the method name [method]: a new one the first time the name is
    met; [None] when 65,536 names have ids already. *)
Definition method_id (method : string) (g : Globals) : Globals * option N :=
  match method_ids g !! method with
  | Some id => (g, Some id)
  | None =>
      match next_u16 (method_names g) with
      | None => (g, None)
      | Some id =>
          (mkGlobals (names g) (defs g) (method_names g ++ [method]) (<[method := id]> (method_ids g))
             (methods g) (arg_methods g) (defaults g) (shown g) (encoded g) (decoded g) (decoded_at g)
             (traits g) (trait_indexes g) (trait_methods g) (templates g) (template_rows g) (pending g),
           Some id)
      end
  end.

(** The [CallMethod] operand of the trait. *)
Definition trait_index (t : TraitId) (name : string) (g : Globals) : Globals * option N :=
  match trait_indexes g !! t with
  | Some k => (g, Some k)
  | None =>
      match next_u16 (traits g) with
      | None => (g, None)
      | Some k =>
          (mkGlobals (names g) (defs g) (method_names g) (method_ids g) (methods g)
             (arg_methods g) (defaults g) (shown g) (encoded g) (decoded g) (decoded_at g)
             (traits g ++ [(t, name)]) (<[t := k]> (trait_indexes g))
             (trait_methods g) (templates g) (template_rows g) (pending g),
           Some k)
      end
  end.

(** The slot of the method of the impl of the trait for the type. *)
Definition method (g : Globals) (t : TraitId) (ty : TypeId) (m : string) : option N :=
  id ← method_ids g !! m; methods g !! (t, ty, id).

Definition method_at (g : Globals) (t : TraitId) (ty : TypeId) (args : ImplArgs) (m : string) : option N :=
  if bool_decide (args = ARGS_NONE) then method g t ty m
  else id ← method_ids g !! m; arg_methods g !! (t, ty, args, id).

(** [method] for the operands of a [CallMethod]. *)
Definition call_method (g : Globals) (index : N) (ty : TypeId) (m : N) : option N :=
  '(t, _) ← traits g !! N.to_nat index; methods g !! (t, ty, m).

(** The impl of the trait for the type leaves the method out: its method is
    the trait's default, in [slot]. *)
Definition default_for (t : TraitId) (ty : TypeId) (m : string) (slot : N) (g : Globals) :
    Globals * option unit :=
  match method g t ty m with
  | Some _ => (g, Some tt)
  | None =>
      match method_id m g with
      | (g, Some id) => (set_methods (<[(t, ty, id) := slot]> (methods g)) g, Some tt)
      | (g, None) => (g, None)
      end
  end.

Definition default_for_at (t : TraitId) (ty : TypeId) (args : ImplArgs) (m : string) (slot : N)
    (g : Globals) : Globals * option unit :=
  if bool_decide (args = ARGS_NONE) then default_for t ty m slot g else
  match method_at g t ty args m with
  | Some _ => (g, Some tt)
  | None =>
      match method_id m g with
      | (g, Some id) => (set_arg_methods (<[(t, ty, args, id) := slot]> (arg_methods g)) g, Some tt)
      | (g, None) => (g, None)
      end
  end.

Section Builtin.
(** The ids of the builtin traits [Display], [Encode] and [Decode]. *)
Variable builtin_trait_id : string → option TraitId.

Definition is_method (m method : string) (t : TraitId) (tr : string) : bool :=
  bool_decide (m = method) && bool_decide (builtin_trait_id tr = Some t).

(** The slot of the method of the impl of the trait for the type, named
    [name]: a new one the first time. *)
Definition add_method (t : TraitId) (ty : TypeId) (m name : string) (g : Globals) : Globals * option N :=
  match method g t ty m with
  | Some slot => (g, Some slot)
  | None =>
      match method_id m g with
      | (g, None) => (g, None)
      | (g, Some id) =>
          match add name g with
          | (g, None) => (g, None)
          | (g, Some slot) =>
              let g := set_methods (<[(t, ty, id) := slot]> (methods g)) g in
              let put (w : Written) (b : bool) := if b then written_insert ty slot w else w in
              (set_written (put (shown g) (is_method m "display" t "Display"))
                 (put (encoded g) (is_method m "encode" t "Encode"))
                 (put (decoded g) (is_method m "decode" t "Decode")) g, Some slot)
          end
      end
  end.

Definition add_method_at (t : TraitId) (ty : TypeId) (args : ImplArgs) (m name : string) (g : Globals) :
    Globals * option N :=
  if bool_decide (args = ARGS_NONE) then add_method t ty m name g else
  match method_at g t ty args m with
  | Some slot => (g, Some slot)
  | None =>
      match method_id m g with
      | (g, None) => (g, None)
      | (g, Some id) =>
          match add name g with
          | (g, None) => (g, None)
          | (g, Some slot) => (set_arg_methods (<[(t, ty, args, id) := slot]> (arg_methods g)) g, Some slot)
          end
      end
  end.
End Builtin.

(** The rows of a table keyed by an id and a number, from the number 0 to the
    first that is not there: a table has no more than its size. *)
Fixpoint rows_from {V} (fuel : nat) (m : gmap (N * N) V) (t n : N) : list V :=
  match fuel with
  | O => []
  | S fuel => match m !! (t, n) with Some v => v :: rows_from fuel m t (n + 1) | None => [] end
  end.
Definition rows_of {V} (m : gmap (N * N) V) (t : N) : list V := rows_from (S (size m)) m t 0.

(** The slot of the default method of the trait. *)
Definition default_method (g : Globals) (t : TraitId) (m : string) : option N :=
  snd <$> List.find (λ '(name, _), bool_decide (name = m)) (rows_of (defaults g) t).

Definition add_default_method (t : TraitId) (m name : string) (g : Globals) : Globals * option N :=
  match default_method g t m with
  | Some slot => (g, Some slot)
  | None =>
      match next_u16 (rows_of (defaults g) t) with
      | None => (g, None)
      | Some k =>
          match add name g with
          | (g, None) => (g, None)
          | (g, Some slot) => (set_defaults (<[(t, k) := (m, slot)]> (defaults g)) g, Some slot)
          end
      end
  end.

(** The slot of the [decode] a program wrote for the type at the type
    arguments. *)
Definition decoded_slot (g : Globals) (ty : TypeId) (args : list FieldType) : option N :=
  match written_get (decoded g) ty with
  | Some slot => Some slot
  | None =>
      snd <$> List.find (λ '(pattern, _),
        Nat.eqb (length pattern) (length args) && forallb (λ '(p, a), fits p a) (zip pattern args))
        (rows_of (decoded_at g) ty)
  end.

Definition add_decoded_instance (ty : TypeId) (pattern : list FieldType) (slot : N) (g : Globals) : Globals :=
  if existsb (λ '(_, at_), at_ =? slot) (rows_of (decoded_at g) ty) then g else
  match next_u16 (rows_of (decoded_at g) ty) with
  | None => g
  | Some n =>
      mkGlobals (names g) (defs g) (method_names g) (method_ids g) (methods g)
        (arg_methods g) (defaults g) (shown g) (encoded g) (decoded g)
        (<[(ty, n) := (pattern, slot)]> (decoded_at g))
        (traits g) (trait_indexes g) (trait_methods g) (templates g) (template_rows g) (pending g)
  end.

(** The methods of the trait a program declares, noted once. *)
Definition note_trait_methods (t : TraitId) (ms : list (string * option N)) (g : Globals) : Globals :=
  match trait_methods g !! t with
  | Some _ => g
  | None =>
      mkGlobals (names g) (defs g) (method_names g) (method_ids g) (methods g)
        (arg_methods g) (defaults g) (shown g) (encoded g) (decoded g) (decoded_at g)
        (traits g) (trait_indexes g) (<[t := ms]> (trait_methods g)) (templates g) (template_rows g) (pending g)
  end.

(** The place of the method among those of the trait, with the place of its
    [self]. *)
Definition trait_method (g : Globals) (t : TraitId) (m : string) : option (nat * option N) :=
  ms ← trait_methods g !! t;
  '(k, (_, self)) ← list_find (λ x, x.1 = m) ms;
  Some (k, self).

(** Enter the dictionary template of an impl. *)
Definition add_template (template : Template) (g : Globals) : Globals :=
  let key := (t_trait template, t_type template, t_args template) in
  match templates g !! key with
  | Some _ => g
  | None =>
      mkGlobals (names g) (defs g) (method_names g) (method_ids g) (methods g)
        (arg_methods g) (defaults g) (shown g) (encoded g) (decoded g) (decoded_at g)
        (traits g) (trait_indexes g) (trait_methods g)
        (<[key := template]> (templates g)) (template_rows g ++ [template]) (pending g)
  end.

Definition next_template_index (g : Globals) : N :=
  let n := N.of_nat (length (template_rows g)) in if n <=? 4294967295 then n else 4294967295.
Definition template_at (g : Globals) (index : N) : option Template := template_rows g !! N.to_nat index.
