(* ===== verification/GlobalsClaims.v ===== *)
(** * What the globals of a session keep

    The tables of the globals agree with each other ([globals_ok]); what an
    operation enters is new, so no table ever changes what it says ([grows],
    which is what the layered tables ask of those who fill them); and over a
    whole session, with entries that fail and are taken back, a slot is given
    once. *)

From S2P Require Import Prelude Globals.
From Stdlib Require Import NArith ZifyBool ZifyN.

Open Scope N_scope.

Section Session.
Variable builtin_trait_id : string → option TraitId.

(** ** Growing *)

(** The tables of [g'] say what those of [g] do, and may say more. *)
Record grows (g g' : Globals) : Prop := mkGrows {
  gr_names : names g `prefix_of` names g';
  gr_defs : defs g ⊆ defs g';
  gr_method_names : method_names g `prefix_of` method_names g';
  gr_method_ids : method_ids g ⊆ method_ids g';
  gr_methods : methods g ⊆ methods g';
  gr_arg_methods : arg_methods g ⊆ arg_methods g';
  gr_defaults : defaults g ⊆ defaults g';
  gr_shown : w_slots (shown g) ⊆ w_slots (shown g');
  gr_encoded : w_slots (encoded g) ⊆ w_slots (encoded g');
  gr_decoded : w_slots (decoded g) ⊆ w_slots (decoded g');
  gr_decoded_at : decoded_at g ⊆ decoded_at g';
  gr_traits : traits g `prefix_of` traits g';
  gr_trait_indexes : trait_indexes g ⊆ trait_indexes g';
  gr_trait_methods : trait_methods g ⊆ trait_methods g';
  gr_templates : templates g ⊆ templates g';
  gr_template_rows : template_rows g `prefix_of` template_rows g';
  gr_pending : pending g ⊆ pending g';
}.

#[export] Instance grows_preorder : PreOrder grows.
Proof.
  split; [intros g; split; done|]. intros a b c [] []. split; by etrans.
Qed.

(** ** Tables that agree *)

(** The bits of the written methods leave none out. *)
Definition bits_ok (w : Written) : Prop := ∀ ty, is_Some (w_slots w !! ty) → N.land (w_bits w) (bit ty) ≠ 0.

(** What is written for a type is the method of its impl of the builtin
    trait. *)
Definition written_ok (g : Globals) (w : Written) (m tr : string) : Prop :=
  bits_ok w ∧ ∀ ty slot, w_slots w !! ty = Some slot →
    ∃ t, builtin_trait_id tr = Some t ∧ method g t ty m = Some slot.

(** A slot that a definition, a method, a default method or a dictionary
    has. *)
Definition has_slot (g : Globals) (slot : N) : Prop :=
  (∃ d, defs g !! d = Some slot) ∨ (∃ k, methods g !! k = Some slot) ∨
  (∃ k, arg_methods g !! k = Some slot) ∨ (∃ k m, defaults g !! k = Some (m, slot)) ∨
  (∃ l, pending g !! l = Some slot).

Record globals_ok (g : Globals) : Prop := mkGlobalsOk {
  go_names : (length (names g) <= N.to_nat 65536)%nat;
  go_slots : ∀ slot, has_slot g slot → (N.to_nat slot < length (names g))%nat;
  go_ids : ∀ m i, method_ids g !! m = Some i ↔ method_names g !! N.to_nat i = Some m;
  go_traits : ∀ t k, trait_indexes g !! t = Some k ↔ ∃ n, traits g !! N.to_nat k = Some (t, n);
  go_methods : ∀ t ty i slot, methods g !! (t, ty, i) = Some slot → (N.to_nat i < length (method_names g))%nat;
  go_arg_methods : ∀ t ty a i slot, arg_methods g !! (t, ty, a, i) = Some slot →
    (N.to_nat i < length (method_names g))%nat;
  go_shown : written_ok g (shown g) "display" "Display";
  go_encoded : written_ok g (encoded g) "encode" "Encode";
  go_decoded : written_ok g (decoded g) "decode" "Decode";
}.

Lemma written_new_ok g m tr : written_ok g written_new m tr.
Proof.
  split; [intros ty [x Hx]|intros ty slot Hx]; cbn in Hx; by rewrite lookup_empty in Hx.
Qed.

Lemma globals_default_ok : globals_ok globals_default.
Proof.
  split; cbn.
  - lia.
  - intros slot. unfold has_slot. cbn. set_solver.
  - intros m i. by rewrite lookup_empty.
  - intros t k. rewrite lookup_empty. split; [done|]. intros [n Hn]. done.
  - intros *. by rewrite lookup_empty.
  - intros *. by rewrite lookup_empty.
  - apply written_new_ok.
  - apply written_new_ok.
  - apply written_new_ok.
Qed.

(** A type whose bit is not set has no written method: the filter agrees with
    the table. *)
Lemma written_get_ok w ty : bits_ok w → written_get w ty = w_slots w !! ty.
Proof.
  intros H. unfold written_get. case_match eqn:E; [|done]. apply N.eqb_eq in E.
  destruct (w_slots w !! ty) eqn:Hw; [|done]. by destruct (H ty); [eexists|].
Qed.

Lemma bit_not_0 ty : bit ty ≠ 0.
Proof. unfold bit. rewrite N.shiftl_1_l. apply N.pow_nonzero. lia. Qed.

Lemma land_lor_l a b c : N.land a c ≠ 0 → N.land (N.lor a b) c ≠ 0.
Proof. rewrite N.land_lor_distr_l. intros H E. apply N.lor_eq_0_iff in E as [E _]. done. Qed.

Lemma written_insert_bits ty slot w : bits_ok w → bits_ok (written_insert ty slot w).
Proof.
  intros H ty' [s Hs]. cbn in *. apply lookup_insert_Some in Hs as [[<- _]|[_ Hs]].
  - rewrite N.land_lor_distr_l, N.land_diag. intros E. apply N.lor_eq_0_iff in E as [_ E].
    by apply bit_not_0 in E.
  - apply land_lor_l, H. by eexists.
Qed.

(** ** What each table is given *)

Lemma next_u16_Some {A} (l : list A) n :
  next_u16 l = Some n → N.to_nat n = length l ∧ (length l < N.to_nat 65536)%nat.
Proof. unfold next_u16. case_match; [|done]. intros [= <-]. lia. Qed.

Lemma next_u16_None {A} (l : list A) : next_u16 l = None → (N.to_nat 65536 <= length l)%nat.
Proof. unfold next_u16. case_match; [done|]. lia. Qed.

Lemma prefix_snoc {A} (l : list A) x : l `prefix_of` l ++ [x].
Proof. by exists [x]. Qed.

(** An operation that enters what is new in some tables leaves the others. *)
Ltac grow := split; cbn; first [done | by apply prefix_snoc | by apply insert_subseteq].

Lemma written_ok_methods g g' w m tr :
  (∀ t ty slot, method g t ty m = Some slot → method g' t ty m = Some slot) →
  written_ok g w m tr → written_ok g' w m tr.
Proof. intros Hm [Hb Hw]. split; [done|]. intros ty slot (t & ? & ?)%Hw. eauto. Qed.

Lemma add_ok name g :
  globals_ok g →
  match add name g with
  | (g', Some slot) =>
      globals_ok g' ∧ grows g g' ∧ N.to_nat slot = length (names g) ∧ names g' = names g ++ [name] ∧
      defs g' = defs g ∧ methods g' = methods g ∧ arg_methods g' = arg_methods g ∧
      defaults g' = defaults g ∧ pending g' = pending g ∧ method_ids g' = method_ids g ∧
      method_names g' = method_names g
  | (g', None) => g' = g ∧ length (names g) = N.to_nat 65536
  end.
Proof.
  intros [Hn Hs Hi Ht Hm Ha H1 H2 H3]. unfold add. destruct (next_u16 (names g)) as [slot|] eqn:E.
  - apply next_u16_Some in E as [? ?]. split_and!; try done; [|by grow].
    split; cbn; try done.
    + rewrite length_app. cbn. lia.
    + intros s Hs'. rewrite length_app. cbn. apply Hs in Hs'. lia.
  - apply next_u16_None in E. split; [done|lia].
Qed.

Lemma set_defs_ok g d slot :
  globals_ok g → (N.to_nat slot < length (names g))%nat → defs g !! d = None →
  globals_ok (set_defs (<[d := slot]> (defs g)) g) ∧ grows g (set_defs (<[d := slot]> (defs g)) g).
Proof.
  intros [Hn Hs Hi Ht Hm Ha H1 H2 H3] Hlt Hd. split; [|grow]. split; cbn; try done.
  unfold has_slot. cbn. intros s [[d' Hd']|Hr]; [|apply Hs; by right].
  apply lookup_insert_Some in Hd' as [[_ <-]|[_ ?]]; [done|]. apply Hs. left. eauto.
Qed.

Lemma set_pending_ok g l slot :
  globals_ok g → (N.to_nat slot < length (names g))%nat → pending g !! l = None →
  globals_ok (set_pending (<[l := slot]> (pending g)) g) ∧ grows g (set_pending (<[l := slot]> (pending g)) g).
Proof.
  intros [Hn Hs Hi Ht Hm Ha H1 H2 H3] Hlt Hd. split; [|grow]. split; cbn; try done.
  unfold has_slot. cbn. intros s [?|[?|[?|[?|[l' Hl']]]]]; try (apply Hs; unfold has_slot; tauto).
  apply lookup_insert_Some in Hl' as [[_ <-]|[_ ?]]; [done|]. apply Hs. unfold has_slot. naive_solver.
Qed.

Lemma set_defaults_ok g k m slot :
  globals_ok g → (N.to_nat slot < length (names g))%nat → defaults g !! k = None →
  globals_ok (set_defaults (<[k := (m, slot)]> (defaults g)) g) ∧
  grows g (set_defaults (<[k := (m, slot)]> (defaults g)) g).
Proof.
  intros [Hn Hs Hi Ht Hm Ha H1 H2 H3] Hlt Hd. split; [|grow]. split; cbn; try done.
  unfold has_slot. cbn. intros s [?|[?|[?|[(k' & m' & Hk')|?]]]]; try (apply Hs; unfold has_slot; tauto).
  apply lookup_insert_Some in Hk' as [[_ [= _ <-]]|[_ ?]]; [done|]. apply Hs. unfold has_slot. naive_solver.
Qed.

Lemma set_methods_ok g t ty i slot :
  globals_ok g → (N.to_nat slot < length (names g))%nat → (N.to_nat i < length (method_names g))%nat →
  methods g !! (t, ty, i) = None →
  globals_ok (set_methods (<[(t, ty, i) := slot]> (methods g)) g) ∧
  grows g (set_methods (<[(t, ty, i) := slot]> (methods g)) g).
Proof.
  intros [Hn Hs Hi Ht Hm Ha H1 H2 H3] Hlt Hil Hd. split; [|grow].
  assert (∀ m t' ty' s, method g t' ty' m = Some s →
    method (set_methods (<[(t, ty, i) := slot]> (methods g)) g) t' ty' m = Some s) as Hmm.
  { intros m t' ty' s. unfold method. cbn. destruct (method_ids g !! m) as [j|]; [|done]. cbn.
    intros Hj. rewrite lookup_insert_ne; [done|]. intros [= -> -> ->]. congruence. }
  split; cbn; try done; try (by eapply written_ok_methods; [intros; by apply Hmm|]).
  - unfold has_slot. cbn. intros s [?|[[k' Hk']|?]]; try (apply Hs; unfold has_slot; tauto).
    apply lookup_insert_Some in Hk' as [[_ <-]|[_ ?]]; [done|]. apply Hs. unfold has_slot. naive_solver.
  - intros t' ty' j s Hj. apply lookup_insert_Some in Hj as [[[= <- <- <-] _]|[_ Hj]]; [done|by eapply Hm].
Qed.

Lemma set_arg_methods_ok g t ty a i slot :
  globals_ok g → (N.to_nat slot < length (names g))%nat → (N.to_nat i < length (method_names g))%nat →
  arg_methods g !! (t, ty, a, i) = None →
  globals_ok (set_arg_methods (<[(t, ty, a, i) := slot]> (arg_methods g)) g) ∧
  grows g (set_arg_methods (<[(t, ty, a, i) := slot]> (arg_methods g)) g).
Proof.
  intros [Hn Hs Hi Ht Hm Ha H1 H2 H3] Hlt Hil Hd. split; [|grow]. split; cbn; try done.
  - unfold has_slot. cbn. intros s [?|[?|[[k' Hk']|?]]]; try (apply Hs; unfold has_slot; tauto).
    apply lookup_insert_Some in Hk' as [[_ <-]|[_ ?]]; [done|]. apply Hs. unfold has_slot. naive_solver.
  - intros t' ty' a' j s Hj. apply lookup_insert_Some in Hj as [[[= <- <- <- <-] _]|[_ Hj]]; [done|by eapply Ha].
Qed.

Lemma method_id_ok m g :
  globals_ok g →
  match method_id m g with
  | (g', Some id) =>
      globals_ok g' ∧ grows g g' ∧ method_ids g' !! m = Some id ∧
      (N.to_nat id < length (method_names g'))%nat ∧ names g' = names g ∧
      (∀ t ty, method g t ty m = None → methods g' !! (t, ty, id) = None) ∧
      (∀ t ty a, (i ← method_ids g !! m; arg_methods g !! (t, ty, a, i)) = None →
        arg_methods g' !! (t, ty, a, id) = None)
  | (g', None) => g' = g
  end.
Proof.
  intros Hok. pose proof Hok as [Hn Hs Hi Ht Hm Ha H1 H2 H3]. unfold method_id.
  destruct (method_ids g !! m) as [id|] eqn:E.
  - split_and!; try done.
    + apply Hi in E. by eapply lookup_lt_Some.
    + intros t ty. unfold method. by rewrite E.
  - destruct (next_u16 (method_names g)) as [id|] eqn:En; [|done].
    apply next_u16_Some in En as [Hid _].
    assert (∀ m', m' ≠ m → ∀ P : N → option N, (i ← method_ids g !! m'; P i) = (i ← <[m:=id]> (method_ids g) !! m'; P i)) as Hne
      by (intros; rewrite lookup_insert_ne by done; done).
    split_and!.
    + split; cbn; try done.
      * intros m' i. rewrite lookup_insert_Some, lookup_snoc_or, Hi. split.
        -- intros [[<- <-]|[? ?]]; [right|by left]. split; [lia|done].
        -- intros [Hl|[Hl ->]].
           ++ right. split; [|done]. intros ->. assert (method_ids g !! m' = Some i) by by apply Hi. congruence.
           ++ left. split; [done|lia].
      * intros t ty i s Hj. rewrite length_app. apply Hm in Hj. lia.
      * intros t ty a i s Hj. rewrite length_app. apply Ha in Hj. lia.
      * eapply written_ok_methods; [|exact H1]. intros t ty s. unfold method. cbn.
        destruct (decide (m = "display")) as [->|]; [by rewrite E|by rewrite Hne].
      * eapply written_ok_methods; [|exact H2]. intros t ty s. unfold method. cbn.
        destruct (decide (m = "encode")) as [->|]; [by rewrite E|by rewrite Hne].
      * eapply written_ok_methods; [|exact H3]. intros t ty s. unfold method. cbn.
        destruct (decide (m = "decode")) as [->|]; [by rewrite E|by rewrite Hne].
    + grow.
    + cbn. by rewrite lookup_insert_eq.
    + cbn. rewrite length_app. cbn. lia.
    + done.
    + intros t ty _. cbn. destruct (methods g !! (t, ty, id)) as [s|] eqn:Em; [|done]. apply Hm in Em. lia.
    + intros t ty a _. cbn. destruct (arg_methods g !! (t, ty, a, id)) as [s|] eqn:Em; [|done]. apply Ha in Em. lia.
Qed.

(** The written methods hear of a method that is new. *)
Lemma put_written g w m m' tr t ty slot :
  written_ok g w m' tr → method g t ty m = Some slot → (∀ s, w_slots w !! ty = Some s → m = m' → builtin_trait_id tr = Some t → False) →
  let w' := if is_method builtin_trait_id m m' t tr then written_insert ty slot w else w in
  written_ok g w' m' tr ∧ w_slots w ⊆ w_slots w'.
Proof.
  intros [Hb Hw] Hm Hnew. cbn. unfold is_method.
  destruct (bool_decide (m = m')) eqn:E1, (bool_decide (builtin_trait_id tr = Some t)) eqn:E2; cbn; try (by split).
  apply bool_decide_eq_true in E1 as ->, E2.
  split; [split; [by apply written_insert_bits|]|].
  - intros ty' s Hs. cbn in Hs. apply lookup_insert_Some in Hs as [[<- <-]|[_ Hs]]; eauto.
  - cbn. apply insert_subseteq. destruct (w_slots w !! ty) as [s|] eqn:E; [|done]. by destruct (Hnew s).
Qed.

Lemma add_method_ok t ty m name g :
  globals_ok g →
  match add_method builtin_trait_id t ty m name g with
  | (g', Some slot) =>
      globals_ok g' ∧ grows g g' ∧ method g' t ty m = Some slot ∧
      ((method g t ty m = Some slot ∧ names g' = names g) ∨
       (method g t ty m = None ∧ N.to_nat slot = length (names g) ∧ names g' = names g ++ [name]))
  | (g', None) => globals_ok g' ∧ grows g g' ∧ names g' = names g
  end.
Proof.
  intros Hok. unfold add_method. destruct (method g t ty m) as [slot|] eqn:Em; [split_and!; try done; by left|].
  pose proof (method_id_ok m g Hok) as Hid.
  destruct (method_id m g) as [g1 [id|]]; [|subst; by split].
  destruct Hid as (Hok1 & Hgr1 & Hids & Hlt & Hn1 & Hnew & _). specialize (Hnew t ty Em).
  pose proof (add_ok name g1 Hok1) as Hadd.
  destruct (add name g1) as [g2 [slot|]].
  2: { destruct Hadd as [-> _]. by split. }
  destruct Hadd as (Hok2 & Hgr2 & Hslot & Hn2 & _ & Hms & _ & _ & _ & Hmi & Hmn).
  destruct (set_methods_ok g2 t ty id slot Hok2) as [Hok3 Hgr3];
    [rewrite Hn2, length_app; cbn; lia|by rewrite Hmn|by rewrite Hms|].
  set (g3 := set_methods (<[(t, ty, id) := slot]> (methods g2)) g2) in *. cbn zeta.
  assert (method g3 t ty m = Some slot) as Hm3
    by (unfold method, g3; cbn; rewrite Hmi, Hids; cbn; apply lookup_insert_eq).
  assert (∀ w m' tr, written_ok g2 w m' tr → ∀ s, w_slots w !! ty = Some s → m = m' →
    builtin_trait_id tr = Some t → False) as Hfresh.
  { intros w m' tr [_ Hw] s Hs <- Htr. destruct (Hw ty s Hs) as (t' & Ht' & Hmt). simplify_eq.
    unfold method in Hmt. rewrite Hmi, Hids, Hms in Hmt. cbn in Hmt. congruence. }
  destruct Hok3 as [K1 K2 K3 K4 K5 K6 K7 K8 K9].
  destruct (put_written g3 (shown g3) m "display" "Display" t ty slot K7 Hm3 (Hfresh _ _ _ (go_shown _ Hok2))) as [Ha1 Ha2].
  destruct (put_written g3 (encoded g3) m "encode" "Encode" t ty slot K8 Hm3 (Hfresh _ _ _ (go_encoded _ Hok2))) as [Hb1 Hb2].
  destruct (put_written g3 (decoded g3) m "decode" "Decode" t ty slot K9 Hm3 (Hfresh _ _ _ (go_decoded _ Hok2))) as [Hc1 Hc2].
  split_and!.
  - split; done.
  - etrans; [exact Hgr1|]. etrans; [exact Hgr2|]. etrans; [exact Hgr3|]. split; done.
  - done.
  - right. cbn. rewrite Hn2, Hn1. split_and!; [done|congruence|done].
Qed.

(** ** Sessions *)

(** What an entry of a session does to the globals. *)
Inductive GOp :=
  | GDef (def : DefId) (name : string)
  | GPending (late : Late) (name : string)
  | GMethod (t : TraitId) (ty : TypeId) (args : ImplArgs) (m name : string)
  | GDefault (t : TraitId) (m name : string)
  | GDefaultFor (t : TraitId) (ty : TypeId) (args : ImplArgs) (m : string) (of_ : string)
  | GMethodId (m : string)
  | GTraitIndex (t : TraitId) (name : string)
  | GDecodedInstance (ty : TypeId) (pattern : list FieldType) (slot : N)
  | GTraitMethods (t : TraitId) (ms : list (string * option N))
  | GTemplate (template : Template).

(** The globals after it and the slot it gives.  An impl that leaves a method
    out gets the slot the trait's default has. *)
Definition gop (o : GOp) (g : Globals) : Globals * option N :=
  match o with
  | GDef d name => add_def d name g
  | GPending l name => pending_slot l name g
  | GMethod t ty args m name => add_method_at builtin_trait_id t ty args m name g
  | GDefault t m name => add_default_method t m name g
  | GDefaultFor t ty args m of_ =>
      match default_method g t of_ with
      | Some slot => ((default_for_at t ty args m slot g).1, None)
      | None => (g, None)
      end
  | GMethodId m => ((method_id m g).1, None)
  | GTraitIndex t name => ((trait_index t name g).1, None)
  | GDecodedInstance ty pattern slot => (add_decoded_instance ty pattern slot g, None)
  | GTraitMethods t ms => (note_trait_methods t ms g, None)
  | GTemplate template => (add_template template g, None)
  end.

(** What the slot is found by. *)
Definition slot_of (o : GOp) (g : Globals) : option N :=
  match o with
  | GDef d _ => defs g !! d
  | GPending l _ => pending g !! l
  | GMethod t ty args m _ => method_at g t ty args m
  | GDefault t m _ => default_method g t m
  | _ => None
  end.

Definition name_of (o : GOp) : string :=
  match o with
  | GDef _ name | GPending _ name | GMethod _ _ _ _ name | GDefault _ _ name => name
  | _ => ""
  end.

(** An operation keeps the tables in agreement and only enters what is new;
    the slot it gives is the one that was there, or the next one. *)
Definition gop_good (o : GOp) (g : Globals) : Prop :=
  let '(g', slot) := gop o g in
  globals_ok g' ∧ grows g g' ∧
  match slot with
  | Some slot =>
      slot_of o g' = Some slot ∧
      ((slot_of o g = Some slot ∧ names g' = names g) ∨
       (slot_of o g = None ∧ N.to_nat slot = length (names g) ∧ names g' = names g ++ [name_of o]))
  | None => names g' = names g
  end.

Lemma gdef_good d name g : globals_ok g → gop_good (GDef d name) g.
Proof.
  intros Hok. unfold gop_good. cbn. unfold add_def.
  destruct (defs g !! d) as [slot|] eqn:E; [split_and!; try done; by left|].
  pose proof (add_ok name g Hok) as H. destruct (add name g) as [g1 [slot|]]; [|destruct H as [-> _]; by split].
  destruct H as (Hok1 & Hgr & Hslot & Hn & Hd & _).
  destruct (set_defs_ok g1 d slot Hok1) as [Hok2 Hgr2]; [rewrite Hn, length_app; cbn; lia|by rewrite Hd|].
  split_and!; [done|by etrans|cbn; apply lookup_insert_eq|right; by rewrite <- Hn].
Qed.

Lemma gpending_good l name g : globals_ok g → gop_good (GPending l name) g.
Proof.
  intros Hok. unfold gop_good. cbn. unfold pending_slot.
  destruct (pending g !! l) as [slot|] eqn:E; [split_and!; try done; by left|].
  pose proof (add_ok name g Hok) as H. destruct (add name g) as [g1 [slot|]]; [|destruct H as [-> _]; by split].
  destruct H as (Hok1 & Hgr & Hslot & Hn & _ & _ & _ & _ & Hp & _).
  destruct (set_pending_ok g1 l slot Hok1) as [Hok2 Hgr2]; [rewrite Hn, length_app; cbn; lia|by rewrite Hp|].
  split_and!; [done|by etrans|cbn; apply lookup_insert_eq|right; by rewrite <- Hn].
Qed.

Lemma gmethod_good t ty args m name g : globals_ok g → gop_good (GMethod t ty args m name) g.
Proof.
  intros Hok. unfold gop_good. cbn. unfold add_method_at, method_at.
  destruct (bool_decide (args = ARGS_NONE)).
  { pose proof (add_method_ok t ty m name g Hok) as H.
    by destruct (add_method _ _ _ _ _ _) as [g' [slot|]]. }
  destruct (method_ids g !! m ≫= _) as [slot|] eqn:Em; [split_and!; try done; by left|].
  pose proof (method_id_ok m g Hok) as Hid.
  destruct (method_id m g) as [g1 [id|]]; [|subst; by split].
  destruct Hid as (Hok1 & Hgr1 & Hids & Hlt & Hn1 & _ & Hnew). specialize (Hnew t ty args Em).
  pose proof (add_ok name g1 Hok1) as Hadd.
  destruct (add name g1) as [g2 [slot|]]; [|destruct Hadd as [-> _]; by split].
  destruct Hadd as (Hok2 & Hgr2 & Hslot & Hn2 & _ & _ & Hms & _ & _ & Hmi & Hmn).
  destruct (set_arg_methods_ok g2 t ty args id slot Hok2) as [Hok3 Hgr3];
    [rewrite Hn2, length_app; cbn; lia|by rewrite Hmn|by rewrite Hms|].
  split_and!; [done|by etrans; [|etrans]| |right; cbn; rewrite Hn2, Hn1; split_and!; [done|congruence|done]].
  cbn. rewrite Hmi, Hids. cbn. apply lookup_insert_eq.
Qed.

(** Rows numbered from 0 *)

Section Rows.
Context {V : Type}.
Implicit Types (m : gmap (N * N) V).

Lemma rows_from_lookup fuel m t n i x :
  rows_from fuel m t n !! i = Some x ↔
  (i < fuel)%nat ∧ m !! (t, n + N.of_nat i) = Some x ∧ ∀ j, (j < i)%nat → is_Some (m !! (t, n + N.of_nat j)).
Proof.
  revert n i. induction fuel as [|fuel IH]; intros n i; cbn; [split; [done|lia]|].
  destruct (m !! (t, n)) as [v|] eqn:E.
  - destruct i as [|i]; cbn.
    + rewrite N.add_0_r, E. split; [intros [= <-]; split_and!; [lia|done|lia]|naive_solver].
    + rewrite IH. replace (n + N.of_nat (S i)) with (n + 1 + N.of_nat i) by lia.
      split; intros (? & ? & Hj); (split_and!; [lia|done|]); intros j Hlt.
      * destruct j as [|j]; [rewrite N.add_0_r; by eexists|].
        replace (n + N.of_nat (S j)) with (n + 1 + N.of_nat j) by lia. apply Hj. lia.
      * replace (n + 1 + N.of_nat j) with (n + N.of_nat (S j)) by lia. apply Hj. lia.
  - split; [done|]. intros (_ & Hi & Hj). destruct i as [|i].
    + rewrite N.add_0_r in Hi. congruence.
    + destruct (Hj O) as [? Hx]; [lia|]. rewrite N.add_0_r in Hx. congruence.
Qed.

(** A table has no more rows of an id than its size. *)
Lemma rows_size m t i : (∀ j, (j < i)%nat → is_Some (m !! (t, N.of_nat j))) → (i <= size m)%nat.
Proof.
  intros H. set (keys := (λ j, (t, N.of_nat j)) <$> seq 0 i).
  assert (NoDup keys) as Hnd.
  { apply NoDup_fmap_2; [|apply NoDup_seq]. intros a b [= Hab]. lia. }
  assert ((list_to_set keys : gset (N * N)) ⊆ dom m) as Hsub.
  { intros k. rewrite elem_of_list_to_set, elem_of_dom. intros (j & -> & Hj)%list_elem_of_fmap.
    apply elem_of_seq in Hj. apply H. lia. }
  apply subseteq_size in Hsub. rewrite size_dom, size_list_to_set in Hsub by done.
  unfold keys in Hsub. by rewrite length_fmap, length_seq in Hsub.
Qed.

Lemma rows_of_lookup m t i x :
  rows_of m t !! i = Some x ↔
  m !! (t, N.of_nat i) = Some x ∧ ∀ j, (j < i)%nat → is_Some (m !! (t, N.of_nat j)).
Proof.
  unfold rows_of. rewrite rows_from_lookup. split; [naive_solver|]. intros [Hx Hj].
  split_and!; [|done|done]. pose proof (rows_size m t i Hj). lia.
Qed.

Lemma rows_of_next m t : m !! (t, N.of_nat (length (rows_of m t))) = None.
Proof.
  destruct (m !! _) as [x|] eqn:E; [|done]. exfalso.
  assert (rows_of m t !! length (rows_of m t) = Some x) as H.
  { apply rows_of_lookup. split; [done|]. intros j Hj.
    destruct (lookup_lt_is_Some_2 (rows_of m t) j Hj) as [y Hy]. apply rows_of_lookup in Hy as [? _]. eauto. }
  apply lookup_lt_Some in H. lia.
Qed.

(** The rows with one more. *)
Lemma rows_of_insert m t x i y :
  let k := length (rows_of m t) in
  let m' := <[(t, N.of_nat k) := x]> m in
  rows_of m' t !! k = Some x ∧ ((i < k)%nat → rows_of m' t !! i = Some y → rows_of m t !! i = Some y).
Proof.
  intros k m'. assert (∀ j, (j < k)%nat → is_Some (m !! (t, N.of_nat j))) as Hall.
  { intros j Hj. destruct (lookup_lt_is_Some_2 (rows_of m t) j Hj) as [z Hz].
    apply rows_of_lookup in Hz as [? _]. eauto. }
  split.
  - apply rows_of_lookup. split; [apply lookup_insert_eq|]. intros j Hj.
    unfold m'. rewrite lookup_insert_ne by (intros [= E]; lia). auto.
  - intros Hi Hy. apply rows_of_lookup in Hy as [Hy _]. apply rows_of_lookup.
    unfold m' in Hy. rewrite lookup_insert_ne in Hy by (intros [= E]; lia). split; [done|].
    intros j Hj. apply Hall. lia.
Qed.
End Rows.

Lemma find_first {A} (P : A → bool) l k x :
  l !! k = Some x → P x = true → (∀ i y, (i < k)%nat → l !! i = Some y → P y = false) →
  List.find P l = Some x.
Proof.
  revert k. induction l as [|z l IH]; intros k Hk HP Hn; [done|]. cbn. destruct k as [|k].
  - injection Hk as ->. by rewrite HP.
  - rewrite (Hn 0%nat z) by (done || lia). eapply IH; [exact Hk|done|]. intros i y Hi Hy.
    by apply (Hn (S i)); [lia|].
Qed.

Lemma gdefault_good t m name g : globals_ok g → gop_good (GDefault t m name) g.
Proof.
  intros Hok. unfold gop_good. cbn. unfold add_default_method.
  destruct (default_method g t m) as [slot|] eqn:E; [split_and!; try done; by left|].
  destruct (next_u16 _) as [k|] eqn:Ek; [|by split]. apply next_u16_Some in Ek as [Hk _].
  pose proof (add_ok name g Hok) as H. destruct (add name g) as [g1 [slot|]]; [|destruct H as [-> _]; by split].
  destruct H as (Hok1 & Hgr & Hslot & Hn & _ & _ & _ & Hd & _).
  assert (k = N.of_nat (length (rows_of (defaults g1) t))) as -> by (rewrite Hd; lia).
  destruct (set_defaults_ok g1 (t, N.of_nat (length (rows_of (defaults g1) t))) m slot Hok1) as [Hok2 Hgr2];
    [rewrite Hn, length_app; cbn; lia|apply rows_of_next|].
  split_and!; [done|by etrans| |right; by rewrite <- Hn].
  unfold default_method in *. cbn. pose proof (rows_of_insert (defaults g1) t (m, slot)) as Hr.
  rewrite (find_first _ _ (length (rows_of (defaults g1) t)) (m, slot)); [done|exact (proj1 (Hr 0%nat (m, slot)))|by rewrite bool_decide_true|].
  intros i [m' s'] Hi Hy. apply (proj2 (Hr i (m', s')) Hi) in Hy. rewrite Hd in Hy.
  destruct (List.find _ _) eqn:Ef; [done|].
  apply (find_none _ _ Ef (m', s')). by eapply list_elem_of_In, list_elem_of_lookup_2.
Qed.

Lemma default_method_slot g t m slot : default_method g t m = Some slot → has_slot g slot.
Proof.
  unfold default_method. intros ([m' s] & Hf & ->)%fmap_Some. apply find_some in Hf as [Hin _].
  apply list_elem_of_In, list_elem_of_lookup_1 in Hin as [i Hi]. apply rows_of_lookup in Hi as [Hi _].
  unfold has_slot. eauto 10.
Qed.

Lemma gdefault_for_good t ty args m of_ g : globals_ok g → gop_good (GDefaultFor t ty args m of_) g.
Proof.
  intros Hok. unfold gop_good. cbn [gop slot_of name_of]. destruct (default_method g t of_) as [slot|] eqn:Ed; [|by split].
  apply default_method_slot in Ed. apply (go_slots _ Hok) in Ed.
  unfold default_for_at, default_for, method_at. pose proof (method_id_ok m g Hok) as Hid.
  destruct (bool_decide (args = ARGS_NONE)).
  - destruct (method g t ty m) as [s|] eqn:Em; [by split|].
    destruct (method_id m g) as [g1 [id|]]; [|subst; by split].
    destruct Hid as (Hok1 & Hgr1 & Hids & Hlt & Hn1 & Hnew & _).
    destruct (set_methods_ok g1 t ty id slot Hok1) as [Hok2 Hgr2]; [by rewrite Hn1|done|by apply Hnew|].
    split_and!; [done|by etrans|done].
  - destruct (method_ids g !! m ≫= _) as [s|] eqn:Em; [by split|].
    destruct (method_id m g) as [g1 [id|]]; [|subst; by split].
    destruct Hid as (Hok1 & Hgr1 & Hids & Hlt & Hn1 & _ & Hnew).
    destruct (set_arg_methods_ok g1 t ty args id slot Hok1) as [Hok2 Hgr2]; [by rewrite Hn1|done|by apply Hnew|].
    split_and!; [done|by etrans|done].
Qed.

Lemma gmethod_id_good m g : globals_ok g → gop_good (GMethodId m) g.
Proof.
  intros Hok. unfold gop_good. cbn [gop slot_of name_of]. pose proof (method_id_ok m g Hok) as H.
  destruct (method_id m g) as [g' [id|]]; cbn; [naive_solver|by subst].
Qed.

Lemma gtrait_index_good t name g : globals_ok g → gop_good (GTraitIndex t name) g.
Proof.
  intros Hok. unfold gop_good. cbn [gop slot_of name_of]. unfold trait_index.
  destruct (trait_indexes g !! t) as [k|] eqn:E; [by split|].
  destruct (next_u16 (traits g)) as [k|] eqn:Ek; [|by split]. apply next_u16_Some in Ek as [Hk _].
  destruct Hok as [Hn Hs Hi Ht Hm Ha H1 H2 H3]. cbn. split_and!; [|grow|done]. split; cbn; try done.
  intros t' k'. rewrite lookup_insert_Some, Ht. setoid_rewrite lookup_snoc_or. split.
  - intros [[<- <-]|[Hne [n Hn']]]; [exists name; right; split; [lia|done]|exists n; by left].
  - intros [n [Hn'|[Hk' [= -> ->]]]].
    + right. split; [|by eexists]. intros ->.
      assert (trait_indexes g !! t' = Some k') by (apply Ht; by eexists). congruence.
    + left. split; [done|lia].
Qed.

Lemma gdecoded_instance_good ty pattern slot g : globals_ok g → gop_good (GDecodedInstance ty pattern slot) g.
Proof.
  intros Hok. unfold gop_good. cbn [gop slot_of name_of]. unfold add_decoded_instance. destruct (existsb _ _); [by split|].
  destruct (next_u16 _) as [k|] eqn:Ek; [|by split]. apply next_u16_Some in Ek as [Hk _].
  assert (decoded_at g !! (ty, k) = None).
  { replace k with (N.of_nat (length (rows_of (decoded_at g) ty))) by lia. apply rows_of_next. }
  destruct Hok as [Hn Hs Hi Ht Hm Ha H1 H2 H3]. split_and!; [by split|grow|done].
Qed.

(** Every operation is good. *)
Lemma gop_ok o g : globals_ok g → gop_good o g.
Proof.
  intros Hok. destruct o.
  - by apply gdef_good.
  - by apply gpending_good.
  - by apply gmethod_good.
  - by apply gdefault_good.
  - by apply gdefault_for_good.
  - by apply gmethod_id_good.
  - by apply gtrait_index_good.
  - by apply gdecoded_instance_good.
  - unfold gop_good. cbn [gop slot_of name_of]. unfold note_trait_methods. destruct (trait_methods g !! t) eqn:E; [by split|].
    destruct Hok. split_and!; [by split|grow|done].
  - unfold gop_good. cbn [gop slot_of name_of]. unfold add_template. destruct (templates g !! _) eqn:E; [by split|].
    destruct Hok. split_and!; [by split|grow|done].
Qed.

(** ** Entries that are taken back *)

Lemma written_ok_back g before w m tr :
  method_ids before ⊆ method_ids g → written_ok before w m tr →
  written_ok (without_definitions_since g before) w m tr.
Proof.
  intros Hsub. apply written_ok_methods. intros t ty slot. unfold method. cbn.
  intros (id & Hid & Hm)%bind_Some. rewrite (lookup_weaken _ _ _ _ Hid Hsub). done.
Qed.

Lemma back_ok g before :
  globals_ok before → globals_ok g → grows before g → globals_ok (without_definitions_since g before).
Proof.
  intros [Hn Hs Hi Ht Hm Ha H1 H2 H3] [Gn Gs Gi Gt _ _ _ _ _] Hgr.
  pose proof (prefix_length _ _ (gr_names _ _ Hgr)). pose proof (prefix_length _ _ (gr_method_names _ _ Hgr)).
  split; cbn; try done; try (by apply written_ok_back; [apply Hgr|]).
  - unfold has_slot. cbn. intros slot Hsl.
    assert (has_slot before slot ∨ ∃ l, pending g !! l = Some slot) as [Hb|Hp]
      by (unfold has_slot; naive_solver).
    + apply Hs in Hb. lia.
    + apply Gs. unfold has_slot. tauto.
  - intros t ty i slot ?%Hm. lia.
  - intros t ty a i slot ?%Ha. lia.
Qed.

(** The slots an operation takes that nothing had. *)
Definition taken (o : GOp) (g : Globals) : list N :=
  match (gop o g).2 with
  | Some slot => if bool_decide (slot_of o g = None) then [slot] else []
  | None => []
  end.

Fixpoint gops (os : list GOp) (g : Globals) : Globals * list N :=
  match os with
  | [] => (g, [])
  | o :: os => let '(g', l) := gops os (gop o g).1 in (g', taken o g ++ l)
  end.

(** An entry of a session: what it does, and whether it ran to its end. *)
Definition entry (e : list GOp * bool) (g : Globals) : Globals * list N :=
  let '(g', l) := gops e.1 g in
  (if e.2 then g' else without_definitions_since g' g, l).

Fixpoint session (es : list (list GOp * bool)) (g : Globals) : Globals * list N :=
  match es with
  | [] => (g, [])
  | e :: es =>
      let '(g1, l) := entry e g in
      let '(g2, l') := session es g1 in (g2, l ++ l')
  end.

(** The slots from one number of names to the next. *)
Definition between (g g' : Globals) : list nat :=
  seq (length (names g)) (length (names g') - length (names g)).

Lemma between_trans a b c :
  (length (names a) <= length (names b))%nat → (length (names b) <= length (names c))%nat →
  between a b ++ between b c = between a c.
Proof.
  intros. unfold between. replace (length (names c) - length (names a))%nat
    with ((length (names b) - length (names a)) + (length (names c) - length (names b)))%nat by lia.
  rewrite seq_app. do 2 f_equal. lia.
Qed.

Lemma taken_between o g : globals_ok g → N.to_nat <$> taken o g = between g (gop o g).1.
Proof.
  intros Hok. pose proof (gop_ok o g Hok) as H. unfold gop_good in H. unfold taken, between.
  destruct (gop o g) as [g' [slot|]]; cbn [fst snd].
  - destruct H as (_ & _ & _ & [[Hs Hn]|(Hs & Hsl & Hn)]); rewrite Hs, Hn.
    + by rewrite bool_decide_false, Nat.sub_diag by done.
    + rewrite bool_decide_true, length_app by done. cbn. rewrite Hsl.
      by replace (length (names g) + 1 - length (names g))%nat with 1%nat by lia.
  - destruct H as (_ & _ & Hn). by rewrite Hn, Nat.sub_diag.
Qed.

Lemma gop_keeps o g : globals_ok g → globals_ok (gop o g).1 ∧ grows g (gop o g).1.
Proof.
  intros Hok. pose proof (gop_ok o g Hok) as H. unfold gop_good in H.
  destruct (gop o g) as [g' s]. by destruct H as (? & ? & _).
Qed.

Lemma gops_ok os g :
  globals_ok g →
  let '(g', l) := gops os g in globals_ok g' ∧ grows g g' ∧ N.to_nat <$> l = between g g'.
Proof.
  revert g. induction os as [|o os IH]; intros g Hok; cbn [gops].
  { split_and!; [done|done|]. unfold between. by rewrite Nat.sub_diag. }
  destruct (gop_keeps o g Hok) as [Hok1 Hgr1]. specialize (IH _ Hok1).
  pose proof (taken_between o g Hok) as Ht.
  destruct (gops os (gop o g).1) as [g' l]. destruct IH as (Hok' & Hgr' & Hl).
  split_and!; [done|by etrans|]. rewrite fmap_app, Ht, Hl. apply between_trans; apply prefix_length.
  - apply Hgr1.
  - apply Hgr'.
Qed.

Lemma entry_ok e g :
  globals_ok g →
  let '(g', l) := entry e g in
  globals_ok g' ∧ names g `prefix_of` names g' ∧ N.to_nat <$> l = between g g'.
Proof.
  intros Hok. unfold entry. pose proof (gops_ok e.1 g Hok) as H. destruct (gops e.1 g) as [g' l].
  destruct H as (Hok' & Hgr & Hl). destruct e.2; split_and!; try done; try apply Hgr.
  by apply back_ok.
Qed.

Lemma session_ok es g :
  globals_ok g →
  let '(g', l) := session es g in
  globals_ok g' ∧ names g `prefix_of` names g' ∧ N.to_nat <$> l = between g g'.
Proof.
  revert g. induction es as [|e es IH]; intros g Hok; cbn [session].
  { split_and!; [done|done|]. unfold between. by rewrite Nat.sub_diag. }
  pose proof (entry_ok e g Hok) as He. destruct (entry e g) as [g1 l1]. destruct He as (Hok1 & Hp1 & Hl1).
  specialize (IH g1 Hok1). destruct (session es g1) as [g2 l2]. destruct IH as (Hok2 & Hp2 & Hl2).
  split_and!; [done|by etrans|]. rewrite fmap_app, Hl1, Hl2. apply between_trans; by apply prefix_length.
Qed.

(** What is found before an operation is found after it. *)
Lemma rows_of_mono {V} (m m' : gmap (N * N) V) t : m ⊆ m' → rows_of m t `prefix_of` rows_of m' t.
Proof.
  intros Hsub. exists (drop (length (rows_of m t)) (rows_of m' t)). apply list_eq. intros i.
  destruct (decide (i < length (rows_of m t))%nat) as [Hi|Hi].
  2: { rewrite lookup_app_r, lookup_drop by lia. f_equal. lia. }
  destruct (lookup_lt_is_Some_2 (rows_of m t) i Hi) as [x Hx]. rewrite (lookup_app_l_Some _ _ _ _ Hx).
  apply rows_of_lookup in Hx as [Hx Hj]. apply rows_of_lookup. split; [by eapply lookup_weaken|].
  intros j Hlt. destruct (Hj j Hlt) as [y Hy]. exists y. by eapply lookup_weaken.
Qed.

Lemma find_prefix {A} (P : A → bool) l l' x :
  l `prefix_of` l' → List.find P l = Some x → List.find P l' = Some x.
Proof.
  intros [k ->]. induction l as [|y l IH]; cbn; [done|]. by case_match.
Qed.

Lemma slot_of_grows o g g' slot : grows g g' → slot_of o g = Some slot → slot_of o g' = Some slot.
Proof.
  intros Hgr. destruct o; cbn [slot_of]; try done.
  - intros. by eapply lookup_weaken; [|apply Hgr].
  - intros. by eapply lookup_weaken; [|apply Hgr].
  - unfold method_at, method. case_match; intros (id & Hid & Hm)%bind_Some;
      rewrite (lookup_weaken _ _ _ _ Hid (gr_method_ids _ _ Hgr)); cbn;
      (eapply lookup_weaken; [exact Hm|apply Hgr]).
  - unfold default_method. intros (x & Hf & ->)%fmap_Some.
    rewrite (find_prefix _ (rows_of (defaults g) t) (rows_of (defaults g') t) x); [done| |done].
    apply rows_of_mono, Hgr.
Qed.

(** ** The claims *)

(** Over a session of any entries, some of which fail and are taken back,
    no slot is given twice: the slots that were taken, in the order they were,
    are 0, 1, 2 and so on, those of failed entries included; every slot a
    definition, a method, a default or a pending dictionary has is among
    them; and a name of a method and its id, and a trait and its index, name
    each other, and the bits of the written methods hide none of them. *)
Theorem session_gives_a_slot_once es :
  let '(g, slots) := session es globals_default in
  N.to_nat <$> slots = seq 0 (length (names g)) ∧ (length (names g) <= N.to_nat 65536)%nat ∧
  (∀ slot, has_slot g slot → slot ∈ slots) ∧
  (∀ m i, method_ids g !! m = Some i ↔ method_names g !! N.to_nat i = Some m) ∧
  (∀ t k, trait_indexes g !! t = Some k ↔ ∃ n, traits g !! N.to_nat k = Some (t, n)) ∧
  (∀ ty, written_get (shown g) ty = w_slots (shown g) !! ty ∧
    written_get (encoded g) ty = w_slots (encoded g) !! ty ∧
    written_get (decoded g) ty = w_slots (decoded g) !! ty).
Proof.
  pose proof (session_ok es globals_default globals_default_ok) as H.
  destruct (session es globals_default) as [g slots]. destruct H as ([Hn Hs Hi Ht Hm Ha H1 H2 H3] & _ & Hl).
  unfold between in Hl. cbn in Hl. rewrite Nat.sub_0_r in Hl. split_and!; try done.
  2: { intros ty. split_and!; apply written_get_ok; [apply H1|apply H2|apply H3]. }
  intros slot Hslot%Hs. assert (N.to_nat slot ∈ N.to_nat <$> slots) as Hin.
  { rewrite Hl. apply elem_of_seq. lia. }
  apply list_elem_of_fmap in Hin as (s & Heq & ?). by replace slot with s by lia.
Qed.

(** In a session an operation finds again what it entered, and enters
    nothing over what is there: the slot it gives is the one its key has from
    then on, and it is the one the key had or else the next free one; every
    table keeps what it says, so every key that had a slot keeps it; and an
    entry that fails leaves every definition, method and default with the slot
    it had before the entry, or none. *)
Theorem definitions_keep_their_slots es o os :
  let g := (session es globals_default).1 in
  let '(g', slot) := gop o g in
  grows g g' ∧
  (∀ s, slot = Some s → slot_of o g' = Some s ∧
    (slot_of o g = Some s ∨ (slot_of o g = None ∧ N.to_nat s = length (names g)))) ∧
  (∀ o' s, slot_of o' g = Some s → slot_of o' g' = Some s) ∧
  (∀ d, defs (entry (os, false) g).1 !! d = defs g !! d) ∧
  (∀ t ty args m, is_Some (method_ids g !! m) →
    method_at (entry (os, false) g).1 t ty args m = method_at g t ty args m) ∧
  (∀ t m, default_method (entry (os, false) g).1 t m = default_method g t m).
Proof.
  cbn zeta. pose proof (session_ok es globals_default globals_default_ok) as Hs.
  destruct (session es globals_default) as [g slots]. destruct Hs as (Hok & _ & _). cbn [fst].
  pose proof (gop_ok o g Hok) as Ho. unfold gop_good in Ho. pose proof (gops_ok os g Hok) as Hops.
  unfold entry. cbn [fst snd]. destruct (gops os g) as [g1 l]. destruct Hops as (_ & Hgr1 & _).
  destruct (gop o g) as [g' slot]. destruct Ho as (_ & Hgr & Hslot). split_and!; try done.
  - intros s ->. destruct Hslot as [? [[? _]|(? & ? & _)]]; auto.
  - intros o' s. by apply slot_of_grows.
  - intros t ty args m [id Hid]. unfold method_at, method. cbn.
    by rewrite (lookup_weaken _ _ _ _ Hid (gr_method_ids _ _ Hgr1)), Hid.
Qed.
End Session.
