(* ===== verification/Float.v ===== *)
(** * The Float value (src/value/float.rs)

    An [f64] is its 64 bits, a [Z] of 0 up to 2^64: a sign, eleven bits
    of exponent and fifty-two of mantissa. *)

From S2P Require Import Prelude Int64.

Open Scope Z_scope.

(** ** What an [f64] is *)
Definition exponent (b : Z) : Z := Z.shiftr b 52 mod 2 ^ 11.
Definition mantissa (b : Z) : Z := b mod 2 ^ 52.

(** [f64::is_finite], and [f == 0.0], which both zeros are. *)
Definition is_finite (b : Z) : bool := negb (exponent b =? 2047).
Definition is_zero (b : Z) : bool := (b =? 0) || (b =? 2 ^ 63).

(** [f64::total_cmp]: the bits as an [i64], of a negative number all but
    the sign flipped, in order. *)
Definition total_key (b : Z) : Z :=
  let left := as_i64 b in
  Z.lxor left (as_i64 (Z.shiftr (Z.shiftr left 63 mod 2 ^ 64) 1)).
Definition total_cmp (a b : Z) : comparison := total_key a ?= total_key b.

(** ** [Float] *)

(** [Float::new]. *)
Definition float_new (f : Z) : option Z :=
  if is_finite f then Some (if is_zero f then 0 else f) else None.

(** [-f], and [Float::neg]. *)
Definition f64_neg (f : Z) : Z := Z.lxor f (2 ^ 63).
Definition float_neg (f : Z) : Z := if is_zero f then 0 else f64_neg f.

(** [Float::eq] (derived: of the numbers), [Float::cmp]. *)
Definition float_cmp (a b : Z) : comparison := total_cmp a b.

(** ** The number an [f64] stands for

    In units of 2^-1074, of which every finite [f64] is a whole number. *)
Definition magnitude (b : Z) : Z :=
  if exponent b =? 0 then mantissa b else (2 ^ 52 + mantissa b) * 2 ^ (exponent b - 1).
Definition negative (b : Z) : bool := Z.testbit b 63.
Definition number (b : Z) : Z := if negative b then - magnitude b else magnitude b.

(** A Float: finite, and never the negative zero. *)
Definition float_ok (b : Z) : bool :=
  (0 <=? b) && (b <? 2 ^ 64) && is_finite b && negb (b =? 2 ^ 63).

(** ** Facts *)

Lemma lxor_ones x n : 0 <= n → 0 <= x < 2 ^ n → Z.lxor x (2 ^ n - 1) = 2 ^ n - 1 - x.
Proof.
  intros Hn Hx. replace (2 ^ n - 1) with (Z.ones n) in * by (rewrite Z.ones_equiv; lia).
  assert (Z.ldiff x (Z.ones n) = 0) as Hl.
  { destruct (decide (x = 0)) as [->|]; [apply Z.ldiff_0_l|].
    apply Z.ldiff_ones_r_low; [lia|]. apply Z.log2_lt_pow2; lia. }
  rewrite Z.sub_nocarry_ldiff by done. apply Z.bits_inj. intros i.
  rewrite Z.lxor_spec, Z.ldiff_spec.
  destruct (Z.testbit x i) eqn:Ex, (Z.testbit (Z.ones n) i) eqn:Eo; try done.
  assert (Z.testbit (Z.ldiff x (Z.ones n)) i = true) as H by (rewrite Z.ldiff_spec, Ex, Eo; done).
  rewrite Hl, Z.bits_0 in H. done.
Qed.

(** The bits below the sign, whose order is the order of the numbers. *)
Definition low (b : Z) : Z := b mod 2 ^ 63.

Lemma bits_split b : 0 <= b < 2 ^ 64 →
  (negative b = false ∧ b = low b) ∨ (negative b = true ∧ b = 2 ^ 63 + low b).
Proof.
  intros Hb. unfold negative, low. rewrite Z.testbit_eqb by lia.
  assert (b / 2 ^ 63 = 0 ∨ b / 2 ^ 63 = 1) as Hq.
  { assert (0 <= b / 2 ^ 63 < 2) by (split; [apply Z.div_pos; lia|apply Z.div_lt_upper_bound; lia]). lia. }
  pose proof (Z.div_mod b (2 ^ 63) ltac:(lia)) as Hd.
  destruct Hq as [Hq|Hq]; rewrite Hq in *; [left|right]; (split; [done|lia]).
Qed.

Lemma low_bounds b : 0 <= low b < 2 ^ 63.
Proof. apply Z.mod_pos_bound. lia. Qed.

Lemma total_key_spec b : 0 <= b < 2 ^ 64 → total_key b = if negative b then - low b - 1 else low b.
Proof.
  intros Hb. unfold total_key, as_i64, wrap_i64, i64_min, usize_max. pose proof (low_bounds b) as Hl.
  destruct (bits_split b Hb) as [[-> Eb]|[-> Eb]]; rewrite Eb at 1 2.
  - rewrite Z.mod_small by lia. replace (low b - _ + _) with (low b) by lia.
    rewrite (Z.shiftr_div_pow2 (low b) 63), (Z.div_small (low b) (2 ^ 63)) by lia. cbn -[low]. apply Z.lxor_0_r.
  - replace ((2 ^ 63 + low b - -9223372036854775808)) with (low b + 1 * (18446744073709551615 + 1)) by lia.
    rewrite Z.mod_add, Z.mod_small by lia. set (k := low b) in *.
    assert (k + -9223372036854775808 = Z.lnot (2 ^ 63 - 1 - k)) as -> by (unfold Z.lnot; lia).
    assert (Z.shiftr (Z.lnot (2 ^ 63 - 1 - k)) 63 = -1) as ->.
    { rewrite Z.shiftr_div_pow2 by lia. symmetry. apply Z.div_unique with k; unfold Z.lnot; lia. }
    change ((Z.shiftr (-1 mod 2 ^ 64) 1 - _) mod _ + _) with (2 ^ 63 - 1).
    rewrite <-Z.lnot_lxor_l, lxor_ones by lia. unfold Z.lnot. lia.
Qed.

(** An [f64]'s magnitude grows with its bits. *)
Definition magnitude_of (k : Z) : Z :=
  if k / 2 ^ 52 =? 0 then k mod 2 ^ 52 else (2 ^ 52 + k mod 2 ^ 52) * 2 ^ (k / 2 ^ 52 - 1).

Lemma magnitude_low b : 0 <= b < 2 ^ 64 → magnitude b = magnitude_of (low b).
Proof.
  intros Hb. unfold magnitude, magnitude_of, exponent, mantissa. rewrite Z.shiftr_div_pow2 by lia.
  assert (b / 2 ^ 52 mod 2 ^ 11 = low b / 2 ^ 52 ∧ b mod 2 ^ 52 = low b mod 2 ^ 52) as [-> ->]; [|done].
  pose proof (low_bounds b) as Hl. destruct (bits_split b Hb) as [[_ Eb]|[_ Eb]]; rewrite Eb at 1 3.
  - split; [|done]. apply Z.mod_small. split; [apply Z.div_pos; lia|apply Z.div_lt_upper_bound; lia].
  - replace (2 ^ 63 + low b) with (low b + 2 ^ 11 * 2 ^ 52) by lia. rewrite Z.div_add, Z.mod_add by lia.
    split; [|done]. replace (low b / 2 ^ 52 + 2 ^ 11) with (low b / 2 ^ 52 + 1 * 2 ^ 11) by lia.
    rewrite Z.mod_add by lia. apply Z.mod_small.
    split; [apply Z.div_pos; lia|apply Z.div_lt_upper_bound; lia].
Qed.

Lemma magnitude_of_nonneg k : 0 <= k → 0 <= magnitude_of k.
Proof.
  intros Hk. unfold magnitude_of. pose proof (Z.mod_pos_bound k (2 ^ 52) ltac:(lia)).
  assert (0 <= k / 2 ^ 52) by (apply Z.div_pos; lia).
  case_match; [lia|]. pose proof (Z.pow_nonneg 2 (k / 2 ^ 52 - 1) ltac:(lia)). nia.
Qed.

Lemma magnitude_of_mono k k' : 0 <= k < k' → magnitude_of k < magnitude_of k'.
Proof.
  intros Hk. unfold magnitude_of. pose proof (Z.mod_pos_bound k (2 ^ 52) ltac:(lia)) as Hm.
  pose proof (Z.mod_pos_bound k' (2 ^ 52) ltac:(lia)) as Hm'.
  pose proof (Z.div_mod k (2 ^ 52) ltac:(lia)) as Hd. pose proof (Z.div_mod k' (2 ^ 52) ltac:(lia)) as Hd'.
  set (e := k / 2 ^ 52) in *. set (e' := k' / 2 ^ 52) in *. set (m := k mod 2 ^ 52) in *. set (m' := k' mod 2 ^ 52) in *.
  assert (0 <= e) by (apply Z.div_pos; lia).
  assert (e < e' ∨ (e = e' ∧ m < m')) as Hlt by nia.
  destruct (Z.eqb_spec e 0) as [E0|E0], (Z.eqb_spec e' 0) as [E0'|E0'].
  - lia.
  - assert (0 < 2 ^ (e' - 1)) by (apply Z.pow_pos_nonneg; lia). nia.
  - lia.
  - destruct Hlt as [Hlt|[-> Hlt]].
    + assert (2 ^ (e' - 1) = 2 ^ (e' - 1 - e) * (2 * 2 ^ (e - 1))) as ->.
      { rewrite <-Z.pow_succ_r, <-Z.pow_add_r by lia. f_equal. lia. }
      assert (0 < 2 ^ (e - 1)) by (apply Z.pow_pos_nonneg; lia).
      assert (0 < 2 ^ (e' - 1 - e)) by (apply Z.pow_pos_nonneg; lia). nia.
    + assert (0 < 2 ^ (e' - 1)) by (apply Z.pow_pos_nonneg; lia). nia.
Qed.

Lemma float_ok_spec b : float_ok b = true ↔ 0 <= b < 2 ^ 64 ∧ is_finite b = true ∧ b ≠ 2 ^ 63.
Proof.
  unfold float_ok. rewrite !andb_true_iff, Z.leb_le, Z.ltb_lt, negb_true_iff, Z.eqb_neq. naive_solver.
Qed.

Lemma magnitude_of_compare k k' : 0 <= k → 0 <= k' → (magnitude_of k ?= magnitude_of k') = (k ?= k').
Proof.
  intros Hk Hk'. destruct (Z.compare_spec k k') as [->|Hlt|Hlt]; [apply Z.compare_refl|..].
  - apply Z.compare_lt_iff, magnitude_of_mono. lia.
  - apply Z.compare_gt_iff, magnitude_of_mono. lia.
Qed.

(** The order of Floats is the order of their numbers, and [Eq] of the
    same Float only. *)
Lemma float_cmp_number a b : float_ok a = true → float_ok b = true → float_cmp a b = (number a ?= number b).
Proof.
  rewrite !float_ok_spec. intros (Ha & _ & Hza) (Hb & _ & Hzb).
  unfold float_cmp, total_cmp. rewrite !total_key_spec by done. unfold number. rewrite !magnitude_low by done.
  pose proof (low_bounds a). pose proof (low_bounds b).
  assert (∀ k, 0 < k → 0 < magnitude_of k) as Hpos.
  { intros k Hk. pose proof (magnitude_of_mono 0 k ltac:(lia)). pose proof (magnitude_of_nonneg 0). lia. }
  pose proof (magnitude_of_nonneg (low a)). pose proof (magnitude_of_nonneg (low b)).
  pose proof (Hpos (low a)). pose proof (Hpos (low b)).
  pose proof (magnitude_of_compare (low a) (low b) ltac:(lia) ltac:(lia)) as Hc.
  destruct (bits_split a Ha) as [[-> Ea]|[-> Ea]], (bits_split b Hb) as [[-> Eb]|[-> Eb]].
  - done.
  - transitivity Gt; [|symmetry]; apply Z.compare_gt_iff; lia.
  - transitivity Lt; [|symmetry]; apply Z.compare_lt_iff; lia.
  - rewrite !Z.compare_opp, (Z.compare_antisym (magnitude_of (low a))), Hc, <-Z.compare_antisym.
    destruct (Z.compare_spec (low b) (low a)); [apply Z.compare_eq_iff|apply Z.compare_lt_iff|apply Z.compare_gt_iff]; lia.
Qed.

Lemma total_key_inj a b : 0 <= a < 2 ^ 64 → 0 <= b < 2 ^ 64 → total_key a = total_key b → a = b.
Proof.
  intros Ha Hb. rewrite !total_key_spec by done. pose proof (low_bounds a). pose proof (low_bounds b).
  destruct (bits_split a Ha) as [[-> Ea]|[-> Ea]], (bits_split b Hb) as [[-> Eb]|[-> Eb]]; lia.
Qed.

Lemma f64_neg_spec f : 0 <= f < 2 ^ 64 →
  0 <= f64_neg f < 2 ^ 64 ∧ low (f64_neg f) = low f ∧ negative (f64_neg f) = negb (negative f).
Proof.
  intros Hf. pose proof (low_bounds f) as Hl. unfold f64_neg.
  assert (f64_neg f = if negative f then low f else 2 ^ 63 + low f) as E.
  { unfold f64_neg. destruct (bits_split f Hf) as [[-> Ef]|[-> Ef]]; rewrite Ef at 1.
    - rewrite Z.add_comm. symmetry. apply Z.add_nocarry_lxor. apply Z.bits_inj_0. intros i.
      rewrite Z.land_spec, Z.pow2_bits_eqb by lia. destruct (Z.eqb_spec 63 i) as [<-|]; [|by rewrite andb_false_r].
      rewrite Z.testbit_eqb, Z.div_small by lia. done.
    - rewrite Z.add_nocarry_lxor, Z.lxor_comm, <-Z.lxor_assoc, Z.lxor_nilpotent; [done|].
      apply Z.bits_inj_0. intros i.
      rewrite Z.land_spec, Z.pow2_bits_eqb by lia. destruct (Z.eqb_spec 63 i) as [<-|]; [|done].
      rewrite Z.testbit_eqb, Z.div_small by lia. done. }
  unfold f64_neg in E. rewrite E. destruct (bits_split f Hf) as [[-> Ef]|[-> Ef]].
  - split; [lia|]. unfold low at 1. unfold negative. replace (2 ^ 63 + low f) with (low f + 1 * 2 ^ 63) by lia.
    split; [rewrite Z.mod_add by lia; by apply Z.mod_small|].
    rewrite Z.testbit_eqb, Z.div_add, Z.div_small by lia. done.
  - split; [lia|]. unfold low at 1. unfold negative. split; [by apply Z.mod_small|].
    rewrite Z.testbit_eqb, Z.div_small by lia. done.
Qed.

Lemma is_zero_spec f : is_zero f = true ↔ f = 0 ∨ f = 2 ^ 63.
Proof. unfold is_zero. by rewrite orb_true_iff, !Z.eqb_eq. Qed.

Lemma is_finite_neg f : 0 <= f < 2 ^ 64 → is_finite (f64_neg f) = is_finite f.
Proof.
  intros Hf. destruct (f64_neg_spec f Hf) as (Hn & Hl & _). unfold is_finite, exponent.
  assert (∀ b, 0 <= b < 2 ^ 64 → Z.shiftr b 52 mod 2 ^ 11 = low b / 2 ^ 52) as He; [|by rewrite !He, Hl].
  intros b Hb. rewrite Z.shiftr_div_pow2 by lia. pose proof (low_bounds b) as Hlb.
  destruct (bits_split b Hb) as [[_ Eb]|[_ Eb]]; rewrite Eb at 1.
  - apply Z.mod_small. split; [apply Z.div_pos; lia|apply Z.div_lt_upper_bound; lia].
  - replace (2 ^ 63 + low b) with (low b + 2 ^ 11 * 2 ^ 52) by lia. rewrite Z.div_add by lia.
    replace (low b / 2 ^ 52 + 2 ^ 11) with (low b / 2 ^ 52 + 1 * 2 ^ 11) by lia. rewrite Z.mod_add by lia.
    apply Z.mod_small. split; [apply Z.div_pos; lia|apply Z.div_lt_upper_bound; lia].
Qed.

(** What makes a Float of an [f64] gives none of a NaN and of an infinity
    and else a Float of the same number; a Float negated is the Float of
    the negated number; and the order of two Floats, which is read off
    their bits, is the order of the two numbers, equal only of one and the
    same bits. *)
Theorem floats_are_their_numbers f g :
  0 <= f < 2 ^ 64 → float_ok g = true →
  match float_new f with
  | None => exponent f = 2047
  | Some h =>
      exponent f ≠ 2047 ∧ float_ok h = true ∧ number h = number f ∧
      float_cmp h g = (number h ?= number g) ∧ (float_cmp h g = Eq ↔ h = g)
  end ∧
  float_ok (float_neg g) = true ∧ number (float_neg g) = - number g.
Proof.
  intros Hf Hg. pose proof Hg as (Hg2 & Hgf & Hgz)%float_ok_spec. split.
  - unfold float_new. destruct (is_finite f) eqn:Ef.
    + assert (exponent f ≠ 2047) by (unfold is_finite in Ef; by apply Z.eqb_neq, negb_true_iff).
      assert (float_ok (if is_zero f then 0 else f) = true) as Hok.
      { apply float_ok_spec. destruct (is_zero f) eqn:Ez; [done|]. split_and!; [lia|lia|done|].
        intros ->. by rewrite (proj2 (is_zero_spec (2 ^ 63))) in Ez by auto. }
      split_and!; [done|done| |by apply float_cmp_number|].
      * destruct (is_zero f) eqn:Ez; [|done]. by apply is_zero_spec in Ez as [-> | ->].
      * unfold float_cmp, total_cmp. rewrite Z.compare_eq_iff. split; [|by intros ->].
        apply total_key_inj; [|done]. apply float_ok_spec in Hok. tauto.
    + unfold is_finite in Ef. by apply Z.eqb_eq, negb_false_iff.
  - unfold float_neg. destruct (is_zero g) eqn:Ez; [apply is_zero_spec in Ez as [E | E]; [subst g; by vm_compute|done]|].
    destruct (f64_neg_spec g Hg2) as (Hn & Hl & Hs). split.
    + apply float_ok_spec. split_and!; [lia|lia|by rewrite is_finite_neg|]. intros En.
      assert (g = 0) as ->; [|done]. destruct (bits_split g Hg2) as [[Hm Eg]|[Hm Eg]]; rewrite Hm in Hs.
      * rewrite Eg, <-Hl, En. done.
      * rewrite En in Hs. done.
    + unfold number. rewrite !magnitude_low, Hl, Hs by done. destruct (negative g); simpl; lia.
Qed.

Lemma floats_are_their_numbers_witness :
  float_ok (float_neg 4607182418800017408) = true ∧ number (float_neg 4607182418800017408) = - 2 ^ 1074.
Proof.
  assert (- number 4607182418800017408 = - 2 ^ 1074) as <- by (by vm_compute).
  refine (proj2 (floats_are_their_numbers (2 ^ 63) 4607182418800017408 _ eq_refl)). lia.
Defined.
