(* ===== verification/Key.v ===== *)
(** * The key of a value (src/value/key.rs, src/value/mod.rs)

    Whether two values are equal, which comes first, and a value's hash:
    one walk through one value, or through two side by side, with a
    visitor that says what is done at each step.

    An array of [N] things is a list of them; [N] is 1 or 2, so the first
    of an array is there.  A value that is shared ([Arc]) is named by its
    address where the source looks at it: a type ([types] says what is
    there), a closure's function.  A list is read by its runs or by its
    two ends, a map and a set by their entries in order. *)

From S2P Require Import Prelude Int64 Float.

Open Scope nat_scope.

(** ** Values *)

(** A text or a run of bytes. *)
Definition Text := list N.

(** A type's shape, of which the names of a record's fields are read. *)
Inductive Shape := SEnum | SRecord (fields : list Text) | SOpaque | SApplied.
Record TypeInfo := mkTypeInfo { ti_id : N; ti_shape : Shape }.

(** [TypeInfo::fields], [TypeInfo::is_anon], [ty::ANON_RECORD]. *)
Definition fields (ti : TypeInfo) : list Text :=
  match ti_shape ti with SRecord fs => fs | _ => [] end.
Definition ANON_RECORD : N := 28.
Definition is_anon (ti : TypeInfo) : bool := N.eqb (ti_id ti) ANON_RECORD.

(** A list: the runs of the elements it holds, or the two ends of a
    range. *)
Inductive ListOf (A : Type) := Held (runs : list (list A)) | Ints (lo hi : Z).
Arguments Held {A} _.
Arguments Ints {A} _ _.

Inductive Dict := DOf (index : N) | DBuilt (index at_ : N).

(** A set carries what is known of its functions, if anything is. *)
Inductive Value :=
  | VInt (n : Z)
  | VFloat (f : Z)
  | VBool (b : bool)
  | VString (s : Text)
  | VList (l : ListOf Value)
  | VMap (entries : list (Value * Value))
  | VSet (fns : option bool) (members : list Value)
  | VTuple (items : list Value)
  | VRecord (ty : nat) (fields : list Value)
  | VVariant (ty : nat) (ordinal : N) (fields : list Value)
  | VVmClosure (function : N) (upvalues : list Value)
  | VBuiltinFn (id : N)
  | VHostFn (name : Text)
  | VVariantConstructor (ty : nat) (ordinal : N)
  | VTypeDescriptor (ty : nat)
  | VPrimitiveDescriptor (name : Text)
  | VChannel (id : N)
  | VHandle (id : N)
  | VBytes (bytes : Text)
  | VTcpListener (id : N)
  | VTcpStream (id : N)
  | VDict (d : Dict)
  | VUnit.

(** [List::len], [List::runs], [List::range_ends], [List::ascending_ints]. *)
Definition list_len (l : ListOf Value) : Z :=
  match l with Held rs => Z.of_nat (length (concat rs)) | Ints lo hi => (abs_diff hi lo + 1)%Z end.
Definition list_runs (l : ListOf Value) : list (list Value) :=
  match l with Held rs => rs | Ints _ _ => [] end.
Definition range_ends (l : ListOf Value) : option (Z * Z) :=
  match l with Held _ => None | Ints lo hi => Some (lo, hi) end.

Fixpoint ascending_from (last_ : Z) (items : list Value) : option Z :=
  match items with
  | [] => Some last_
  | VInt n :: items' => if decide (checked_add last_ 1 = Some n) then ascending_from n items' else None
  | _ :: _ => None
  end.
Definition ascending_ints (l : ListOf Value) : option (Z * Z) :=
  match l with
  | Ints lo hi => Some (lo, hi)
  | Held rs =>
      match concat rs with VInt lo :: items => hi ← ascending_from lo items; Some (lo, hi) | _ => None end
  end.

(** ** Heads *)

Definition rank (value : Value) : N :=
  match value with
  | VUnit => 0
  | VBool _ => 1
  | VInt _ => 2
  | VFloat _ => 3
  | VString _ => 4
  | VList _ => 5
  | VTuple _ => 6
  | VMap _ => 7
  | VSet _ _ => 8
  | VRecord _ _ => 9
  | VVariant _ _ _ => 10
  | VChannel _ => 11
  | VHandle _ => 12
  | VBytes _ => 13
  | VTcpListener _ => 14
  | VTcpStream _ => 15
  | VVmClosure _ _ => 16
  | VBuiltinFn _ => 17
  | VVariantConstructor _ _ => 18
  | VTypeDescriptor _ => 19
  | VPrimitiveDescriptor _ => 20
  | VHostFn _ => 21
  | VDict _ => 22
  end.

Definition has_parts (value : Value) : bool :=
  match value with
  | VList _ | VTuple _ | VMap _ | VSet _ _ | VRecord _ _ | VVariant _ _ _ | VVmClosure _ _ => true
  | _ => false
  end.

(** [Ordering::then], and the order of sequences ([slice::cmp],
    [str::cmp], [Iterator::cmp]). *)
Definition then_ (c d : comparison) : comparison := match c with Eq => d | _ => c end.

Fixpoint lex {A} (cmp : A → A → comparison) (l m : list A) : comparison :=
  match l, m with
  | [], [] => Eq
  | [], _ :: _ => Lt
  | _ :: _, [] => Gt
  | x :: l', y :: m' => then_ (cmp x y) (lex cmp l' m')
  end.

Definition bool_cmp (a b : bool) : comparison :=
  match a, b with false, true => Lt | true, false => Gt | _, _ => Eq end.

Definition pair_cmp (a b : N * N) : comparison := then_ (a.1 ?= b.1)%N (a.2 ?= b.2)%N.

(** [dict_key]. *)
Definition dict_key (d : Dict) : N * N := match d with DOf index => (index, 0%N) | DBuilt index at_ => (index, at_) end.

Section heads.
Context (types : nat → TypeInfo).

Definition ty_id (ty : nat) : N := ti_id (types ty).

(** [cmp_record_types]; [Arc::ptr_eq] is of the addresses. *)
Definition cmp_record_types (a b : nat) : comparison :=
  if decide (a = b) then Eq
  else then_ (ty_id a ?= ty_id b)%N
    (if is_anon (types a) then lex (lex N.compare) (fields (types a)) (fields (types b)) else Eq).

(** [cmp_other_heads]. *)
Definition cmp_other_heads (a b : Value) : comparison :=
  match a, b with
  | VBytes a, VBytes b => lex N.compare a b
  | VChannel a, VChannel b | VHandle a, VHandle b
  | VTcpListener a, VTcpListener b | VTcpStream a, VTcpStream b => (a ?= b)%N
  | VVmClosure a _, VVmClosure b _ => (a ?= b)%N
  | VBuiltinFn a, VBuiltinFn b => (a ?= b)%N
  | VHostFn a, VHostFn b => lex N.compare a b
  | VVariantConstructor ta oa, VVariantConstructor tb ob => pair_cmp (ty_id ta, oa) (ty_id tb, ob)
  | VTypeDescriptor a, VTypeDescriptor b => (ty_id a ?= ty_id b)%N
  | VPrimitiveDescriptor a, VPrimitiveDescriptor b => lex N.compare a b
  | VDict a, VDict b => pair_cmp (dict_key a) (dict_key b)
  | _, _ => (rank a ?= rank b)%N
  end.

(** [cmp_heads]. *)
Definition cmp_heads (a b : Value) : comparison :=
  match a, b with
  | VInt a, VInt b => (a ?= b)%Z
  | VString a, VString b => lex N.compare a b
  | VFloat a, VFloat b => float_cmp a b
  | VBool a, VBool b => bool_cmp a b
  | VUnit, VUnit | VList _, VList _ | VTuple _, VTuple _ | VMap _, VMap _ | VSet _ _, VSet _ _ => Eq
  | VVariant ta oa _, VVariant tb ob _ => pair_cmp (ty_id ta, oa) (ty_id tb, ob)
  | VRecord a _, VRecord b _ => cmp_record_types a b
  | _, _ => cmp_other_heads a b
  end.

(** What a [Hasher] is fed, call by call. *)
Inductive Feed :=
  | FU8 (n : N)
  | FU16 (n : N)
  | FU32 (n : N)
  | FU64 (n : Z)
  | FUsize (n : Z)
  | FI64 (n : Z)
  | FStr (s : Text)
  | FBytes (bytes : Text).

(** [hash_head]: what is fed, after the rank. *)
Definition hash_head (value : Value) : list Feed :=
  FU8 (rank value) ::
  match value with
  | VUnit | VList _ | VTuple _ | VMap _ | VSet _ _ => []
  | VRecord _ _ => []
  | VVmClosure _ _ => []
  | VBool b => [FU8 (if b then 1 else 0)]
  | VInt n => [FI64 n]
  | VFloat f => [FU64 f]
  | VString s => [FStr s]
  | VVariant _ ordinal _ => [FU16 ordinal]
  | VChannel id | VHandle id => [FUsize (Z.of_N id)]
  | VBytes bytes => [FUsize (Z.of_nat (length bytes)); FBytes bytes]
  | VTcpListener id | VTcpStream id => [FUsize (Z.of_N id)]
  | VBuiltinFn id => [FU16 id]
  | VHostFn name => [FStr name]
  | VVariantConstructor ty ordinal => [FU32 (ty_id ty); FU16 ordinal]
  | VTypeDescriptor ty => [FU32 (ty_id ty)]
  | VPrimitiveDescriptor name => [FStr name]
  | VDict d => [FU32 (dict_key d).1; FUsize (Z.of_N (dict_key d).2)]
  end.

End heads.

(** ** Things taken together *)

Inductive Among (A : Type) := All (items : list A) | NoneLeft | SomeLeft (missing : list bool).
Arguments All {A} _.
Arguments NoneLeft {A}.
Arguments SomeLeft {A} _.

(** [among]. *)
Definition among {A} (items : list (option A)) : Among A :=
  let missing := (λ item, match item with Some _ => false | None => true end) <$> items in
  match last (omap id items) with
  | None => NoneLeft
  | Some any => if existsb id missing then SomeLeft missing else All (default any <$> items)
  end.

(** [next_of], of iterators that are what is left of them; [first_of]. *)
Definition next_of {A} (iters : list (list A)) : Among A * list (list A) :=
  (among (head <$> iters), tail <$> iters).
Definition first_of (slices : list (list Value)) : Among Value * list (list Value) :=
  (among (head <$> slices),
   (λ slice, match slice with _ :: rest => rest | [] => slice end) <$> slices).

(** ** The walk *)

(** [ControlFlow]; and a walk that would index out of bounds, or that
    runs out of fuel. *)
Inductive Flow (X A : Type) := Break (x : X) | Continue (a : A) | Panics | OutOfFuel.
Arguments Break {X A} _.
Arguments Continue {X A} _.
Arguments Panics {X A}.
Arguments OutOfFuel {X A}.

(** A step of a walk: it changes the visitor's state and goes on or
    stops. *)
Definition Walk (S X A : Type) : Type := S → S * Flow X A.

#[global] Instance walk_ret {S X} : MRet (Walk S X) := λ A a s, (s, Continue a).
#[global] Instance walk_bind {S X} : MBind (Walk S X) := λ A B k m s,
  match m s with
  | (s', Continue a) => k a s'
  | (s', Break x) => (s', Break x)
  | (s', Panics) => (s', Panics)
  | (s', OutOfFuel) => (s', OutOfFuel)
  end.
Definition out_of_fuel {S X A} : Walk S X A := λ s, (s, OutOfFuel).
Definition panics {S X A} : Walk S X A := λ s, (s, Panics).

(** The trait [Visit]. *)
Record Visit (S X : Type) := mkVisit {
  NAMES : bool;
  heads : list Value → Walk S X unit;
  lens : list Z → Walk S X unit;
  lists : list (ListOf Value) → Walk S X bool;
  name : Text → Walk S X unit;
  uneven : list bool → Walk S X unit;
}.
Arguments NAMES {S X} _.
Arguments heads {S X} _ _.
Arguments lens {S X} _ _.
Arguments lists {S X} _ _.
Arguments name {S X} _ _.
Arguments uneven {S X} _ _.

Definition NEAR : nat := 64.

(** [Runs]: parts in runs, with the type that names them; the runs of
    lists; lists that are answered for; maps and sets. *)
Inductive Runs :=
  | ROf (names : option nat) (runs : list (list Value))
  | RElements (more : list (list (list Value)))
  | RDone
  | RNot.

(** [Parts].  Lists of more runs than one: what is left of the run of
    each, with the runs after it. *)
Inductive Parts :=
  | PValues (values : list (list Value))
  | PElements (lists : list (list Value * list (list Value)))
  | PFields (ty : nat) (values : list (list Value))
  | PEntries (entries : list (list (Value * Value))) (values : option (list Value))
  | PMembers (members : list (list Value)).

(** The part of a value that is one run, by its kind. *)
Definition run_of (v : Value) : list Value :=
  match v with VTuple items => items | VVariant _ _ fs => fs | VVmClosure _ ups => ups | _ => [] end.
Definition fields_of (v : Value) : list Value := match v with VRecord _ fs => fs | _ => [] end.
Definition list_or (first : ListOf Value) (v : Value) : ListOf Value := match v with VList l => l | _ => first end.
Definition entries_or (first : list (Value * Value)) (v : Value) : list (Value * Value) :=
  match v with VMap es => es | _ => first end.
Definition members_or (first : list Value) (v : Value) : list Value := match v with VSet _ ms => ms | _ => first end.

Definition is_nil {A} (l : list A) : bool := match l with [] => true | _ => false end.
Definition len {A} (l : list A) : Z := Z.of_nat (length l).

(** [next_runs]. *)
Definition next_runs (ls : list (list Value * list (list Value))) : list (list Value * list (list Value)) :=
  (λ '(run, more), match run, more with [], next :: more' => (next, more') | _, _ => (run, more) end) <$> ls.

(** The size of a value: how many values it is made of. *)
Fixpoint vsize (v : Value) : nat :=
  S match v with
    | VList (Held rs) => sum_list ((λ r, sum_list (vsize <$> r)) <$> rs)
    | VTuple l | VSet _ l | VRecord _ l | VVariant _ _ l | VVmClosure _ l => sum_list (vsize <$> l)
    | VMap es => sum_list ((λ '(k, w), vsize k + vsize w) <$> es)
    | _ => 0
    end.

Section walk.
Context (types : nat → TypeInfo) {St X : Type} (visit : Visit St X).

(** [next_name]; the index wraps past any length where more fields are
    left than the type has. *)
Definition next_name (ty : nat) (left : list Value) : option Text :=
  let names := fields (types ty) in
  if decide (length left <= length names) then names !! (length names - length left) else None.

(** The name of the next part is told, if the visitor is told names. *)
Definition tell (nm : option Text) : Walk St X unit :=
  match nm with
  | Some nm => if NAMES visit then name visit nm else mret tt
  | None => mret tt
  end.

(** [runs]. *)
Definition runs (values : list Value) : Walk St X Runs :=
  match values with
  | (VTuple _ | VVariant _ _ _ | VVmClosure _ _) :: _ =>
      let rs := run_of <$> values in
      lens visit (len <$> rs);; mret (ROf None rs)
  | VRecord ty _ :: _ => mret (ROf (Some ty) (fields_of <$> values))
  | VList first :: _ =>
      let ls := list_or first <$> values in
      go ← lists visit ls;
      mret (if go : bool then RElements (list_runs <$> ls) else RDone)
  | _ => mret RNot
  end.

(** *** Near: by calls *)
Section near.
(** [through] one level down, and [through_far]. *)
Context (through : list Value → nat → Walk St X unit) (through_far : list Value → Walk St X unit).

(** [below], [part]. *)
Definition below (values : list Value) (depth : nat) : Walk St X unit :=
  if decide (depth < NEAR) then through values (1 + depth)%nat else through_far values.

Definition part (values : list Value) (depth : nat) : Walk St X unit :=
  heads visit values;;
  match values with
  | first :: _ => if has_parts first then below values depth else mret tt
  | [] => mret tt
  end.

(** The loop of [through], while the first run has a part left. *)
Fixpoint through_runs (fuel : nat) (names : option nat) (rs : list (list Value)) (depth : nat) : Walk St X unit :=
  match fuel with
  | 0 => out_of_fuel
  | S fuel =>
      tell (ty ← names; first ← head rs; next_name ty first);;
      match first_of rs with
      | (All next, rs') => part next depth;; through_runs fuel names rs' depth
      | (NoneLeft, _) => mret tt
      | (SomeLeft ended, _) => uneven visit ended
      end
  end.

(** [runs.map(|run| &run[at])]. *)
Definition at_each (at_ : nat) (ls : list (list Value * list (list Value))) : option (list Value) :=
  mapM (λ l, l.1 !! at_) ls.

Fixpoint each_part (ats : list nat) (ls : list (list Value * list (list Value))) (depth : nat) : Walk St X unit :=
  match ats with
  | [] => mret tt
  | at_ :: ats' =>
      match at_each at_ ls with
      | Some next => part next depth;; each_part ats' ls depth
      | None => panics
      end
  end.

(** [through_elements]. *)
Definition shortest (ls : list (list Value * list (list Value))) : nat :=
  N.to_nat (foldr (λ l step, N.min (N.of_nat (length l.1)) step) (2 ^ 64 - 1)%N ls).

Fixpoint through_elements (fuel : nat) (ls : list (list Value * list (list Value))) (depth : nat) : Walk St X unit :=
  match fuel with
  | 0 => out_of_fuel
  | S fuel =>
      let ls := next_runs ls in
      let ended := (λ l, is_nil l.1) <$> ls in
      let step := shortest ls in
      if decide (step = 0) then
        if existsb negb ended then uneven visit ended else mret tt
      else
        each_part (seq 0 step) ls depth;;
        through_elements fuel ((λ l, (drop step l.1, l.2)) <$> ls) depth
  end.

(** [through_many]: the loop of maps, and of sets. *)
Fixpoint through_entries (fuel : nat) (left : list (list (Value * Value))) (depth : nat) : Walk St X unit :=
  match fuel with
  | 0 => out_of_fuel
  | S fuel =>
      match next_of left with
      | (All entries, left') =>
          part (fst <$> entries) depth;;
          part (snd <$> entries) depth;;
          through_entries fuel left' depth
      | (NoneLeft, _) => mret tt
      | (SomeLeft ended, _) => uneven visit ended
      end
  end.

Fixpoint through_members (fuel : nat) (left : list (list Value)) (depth : nat) : Walk St X unit :=
  match fuel with
  | 0 => out_of_fuel
  | S fuel =>
      match next_of left with
      | (All members, left') => part members depth;; through_members fuel left' depth
      | (NoneLeft, _) => mret tt
      | (SomeLeft ended, _) => uneven visit ended
      end
  end.

Definition through_many (values : list Value) (depth : nat) : Walk St X unit :=
  match values with
  | VMap first :: _ =>
      let maps := entries_or first <$> values in
      lens visit (len <$> maps);; through_entries (1 + length first) maps depth
  | VSet _ first :: _ =>
      let sets := members_or first <$> values in
      lens visit (len <$> sets);; through_members (1 + length first) sets depth
  | _ => mret tt
  end.

End near.

(** *** Far: with a stack *)

(** [Parts::of_many], [Parts::next], [Parts::name], [Parts::is_done]. *)
Definition of_many (values : list Value) : option (list Z) * Parts :=
  match values with
  | VMap first :: _ =>
      let maps := entries_or first <$> values in (Some (len <$> maps), PEntries maps None)
  | VSet _ first :: _ =>
      let sets := members_or first <$> values in (Some (len <$> sets), PMembers sets)
  | _ => (None, PValues ((λ _, []) <$> values))
  end.

Definition parts_next (p : Parts) : Among Value * Parts :=
  match p with
  | PValues values => let '(next, values') := first_of values in (next, PValues values')
  | PFields ty values => let '(next, values') := first_of values in (next, PFields ty values')
  | PElements ls =>
      let ls := next_runs ls in
      let '(next, rs) := first_of (fst <$> ls) in
      (next, PElements (zip rs (snd <$> ls)))
  | PEntries entries (Some values) => (All values, PEntries entries None)
  | PEntries entries None =>
      match next_of entries with
      | (All next, entries') => (All (fst <$> next), PEntries entries' (Some (snd <$> next)))
      | (NoneLeft, entries') => (NoneLeft, PEntries entries' None)
      | (SomeLeft ended, entries') => (SomeLeft ended, PEntries entries' None)
      end
  | PMembers members => let '(next, members') := next_of members in (next, PMembers members')
  end.

Definition parts_name (p : Parts) : option Text :=
  match p with PFields ty values => first ← head values; next_name ty first | _ => None end.

Definition parts_is_done (p : Parts) : bool :=
  match p with
  | PValues values | PFields _ values => forallb is_nil values
  | PElements ls => forallb is_nil (fst <$> ls) && forallb is_nil (snd <$> ls)
  | PEntries entries values => match values with None => true | Some _ => false end && forallb is_nil entries
  | PMembers members => forallb is_nil members
  end.

(** [parts]. *)
Definition parts (values : list Value) : Walk St X (option Parts) :=
  r ← runs values;
  match r with
  | ROf (Some ty) rs => mret (Some (PFields ty rs))
  | ROf None rs => mret (Some (PValues rs))
  | RElements more =>
      let ls := next_runs ((λ m, ([], m)) <$> more) in
      mret (Some (if forallb is_nil (snd <$> ls) then PValues (fst <$> ls) else PElements ls))
  | RDone => mret None
  | RNot =>
      let '(ls, ps) := of_many values in
      match ls with Some ls => lens visit ls | None => mret tt end;;
      mret (Some ps)
  end.

(** The loop of [through_far]: the parts at hand, and those that wait,
    the last put aside first. *)
Fixpoint far_loop (fuel : nat) (current : Parts) (waiting : list Parts) : Walk St X unit :=
  match fuel with
  | 0 => out_of_fuel
  | S fuel =>
      tell (parts_name current);;
      match parts_next current with
      | (All next, current') =>
          heads visit next;;
          match next with
          | first :: _ =>
              if has_parts first then
                inner ← parts next;
                match inner with
                | None => far_loop fuel current' waiting
                | Some inner =>
                    far_loop fuel inner (if parts_is_done current' then waiting else current' :: waiting)
                end
              else far_loop fuel current' waiting
          | [] => far_loop fuel current' waiting
          end
      | (NoneLeft, _) =>
          match waiting with outer :: waiting' => far_loop fuel outer waiting' | [] => mret tt end
      | (SomeLeft ended, _) => uneven visit ended
      end
  end.

(** Every step visits a value or comes back to one. *)
Definition far_fuel (values : list Value) : nat := 2 * sum_list (vsize <$> values).

Definition through_far (values : list Value) : Walk St X unit :=
  current ← parts values;
  match current with None => mret tt | Some current => far_loop (far_fuel values) current [] end.

(** [through], by the levels that are left to calls, and [walk]. *)
Fixpoint through (levels : nat) (values : list Value) (depth : nat) : Walk St X unit :=
  match levels with
  | 0 => out_of_fuel
  | S levels =>
      r ← runs values;
      match r with
      | ROf names rs =>
          through_runs (through levels) through_far (1 + length (default [] (head rs))) names rs depth
      | RElements more =>
          through_elements (through levels) through_far (1 + length (concat (default [] (head more))))
            ((λ m, ([], m)) <$> more) depth
      | RDone => mret tt
      | RNot => through_many (through levels) through_far values depth
      end
  end.

Definition walk (values : list Value) : Walk St X unit :=
  heads visit values;;
  match values with
  | first :: _ => if has_parts first then through (1 + NEAR) values 0 else mret tt
  | [] => mret tt
  end.

End walk.

(** ** The three visitors *)
Section visitors.
Context (types : nat → TypeInfo).

(** The order of two values, asked of a list's elements ([None]: the
    levels of such questions are used up). *)
Section order.
Context (cmp : Value → Value → option comparison).

(** [cmp_held_ints]: the elements beside the Ints from [n] to [hi]. *)
Fixpoint held_ints (items : list Value) (n hi : Z) : option comparison :=
  match items with
  | [] => Some Eq
  | item :: items' =>
      if (hi <? n)%Z then Some Eq
      else
        ordering ← cmp item (VInt n);
        match ordering with Eq => held_ints items' (n + 1)%Z hi | unequal => Some unequal end
  end.
Definition cmp_held_ints (held : list Value) (lo hi : Z) : option comparison :=
  ordering ← held_ints held lo hi;
  Some (match ordering with Eq => (len held ?= abs_diff hi lo + 1)%Z | unequal => unequal end).

(** [cmp_without_elements]. *)
Definition cmp_without_elements (a b : ListOf Value) : option (option comparison) :=
  match a, b with
  | Held _, Held _ => Some None
  | Ints alo ahi, Ints blo bhi => Some (Some (then_ (alo ?= blo)%Z (ahi ?= bhi)%Z))
  | Held rs, Ints lo hi => Some <$> cmp_held_ints (concat rs) lo hi
  | Ints lo hi, Held rs => (λ c, Some (CompOpp c)) <$> cmp_held_ints (concat rs) lo hi
  end.

(** [Equal]. *)
Definition Equal : Visit unit unit := {|
  NAMES := false;
  heads vs := match vs with
    | [a; b] => match cmp_heads types a b with Eq => mret tt | _ => λ s, (s, Break tt) end
    | _ => panics end;
  lens ns := match ns with
    | [a; b] => if (a =? b)%Z then mret tt else λ s, (s, Break tt)
    | _ => panics end;
  lists ls := match ls with
    | [a; b] => match cmp_without_elements a b with
        | None => out_of_fuel
        | Some None => if (list_len a =? list_len b)%Z then mret true else λ s, (s, Break tt)
        | Some (Some Eq) => mret false
        | Some (Some _) => λ s, (s, Break tt)
        end
    | _ => panics end;
  name _ := mret tt;
  uneven _ := λ s, (s, Break tt);
|}.

(** [Order]. *)
Definition Order : Visit unit comparison := {|
  NAMES := false;
  heads vs := match vs with
    | [a; b] => match cmp_heads types a b with Eq => mret tt | unequal => λ s, (s, Break unequal) end
    | _ => panics end;
  lens _ := mret tt;
  lists ls := match ls with
    | [a; b] => match cmp_without_elements a b with
        | None => out_of_fuel
        | Some None => mret true
        | Some (Some Eq) => mret false
        | Some (Some unequal) => λ s, (s, Break unequal)
        end
    | _ => panics end;
  name _ := mret tt;
  uneven ended := match ended with
    | a_ended :: _ => λ s, (s, Break (if a_ended : bool then Lt else Gt))
    | [] => panics end;
|}.

End order.

(** [Value::cmp], within so many levels of questions: a question of an
    element and an Int asks no other. *)
Definition cmp_at (cmp : Value → Value → option comparison) (a b : Value) : option comparison :=
  match walk types (Order cmp) [a; b] tt with
  | (_, Break unequal) => Some unequal
  | (_, Continue _) => Some Eq
  | _ => None
  end.
Fixpoint cmp_levels (levels : nat) (a b : Value) : option comparison :=
  match levels with 0 => None | S levels => cmp_at (cmp_levels levels) a b end.
Definition value_cmp : Value → Value → option comparison := cmp_levels 2.

(** [Value::eq]. *)
Definition value_eq (a b : Value) : option bool :=
  match walk types (Equal (cmp_levels 1)) [a; b] tt with
  | (_, Continue _) => Some true
  | (_, Break _) => Some false
  | _ => None
  end.

(** [Hashed]: what is fed goes to the end. *)
Definition feed (fs : list Feed) : Walk (list Feed) Empty_set unit := λ s, (s ++ fs, Continue tt).
Definition Hashed : Visit (list Feed) Empty_set := {|
  NAMES := true;
  heads vs := match vs with [value] => feed (hash_head types value) | _ => panics end;
  lens ns := match ns with [n] => feed [FUsize n] | _ => panics end;
  lists ls := match ls with
    | [l] =>
        feed [FUsize (list_len l)];;
        match ascending_ints l with
        | Some (lo, _) => feed [FU8 1; FI64 lo];; mret false
        | None => feed [FU8 0];; mret true
        end
    | _ => panics end;
  name nm := feed [FStr nm];
  uneven ended := match ended with [_] => mret tt | _ => panics end;
|}.

(** [Value::hash]: what the hasher is fed. *)
Definition value_hash (v : Value) : option (list Feed) :=
  match walk types Hashed [v] [] with (s, Continue _) => Some s | _ => None end.

End visitors.

(** ** Functions in values (src/value/mod.rs) *)

(** [Value::is_fn]. *)
Definition is_fn (v : Value) : bool :=
  match v with VVmClosure _ _ | VBuiltinFn _ | VHostFn _ | VVariantConstructor _ _ => true | _ => false end.

(** The loop of [Value::contains_fn]: the last of [pending] is the first
    here. *)
Fixpoint fn_loop (fuel : nat) (pending : list Value) : option bool :=
  match fuel, pending with
  | _, [] => Some false
  | 0, _ => None
  | S fuel, value :: pending =>
      if is_fn value then Some true else
      match value with
      | VList l => fn_loop fuel (rev (concat (list_runs l)) ++ pending)
      | VTuple items => fn_loop fuel (rev items ++ pending)
      | VVariant _ _ fs => fn_loop fuel (rev fs ++ pending)
      | VSet (Some true) _ => Some true
      | VSet (Some false) _ => fn_loop fuel pending
      | VSet None ms => fn_loop fuel (rev ms ++ pending)
      | VMap es => fn_loop fuel (rev (concat ((λ '(k, v), [k; v]) <$> es)) ++ pending)
      | VRecord _ fs => fn_loop fuel (rev fs ++ pending)
      | _ => fn_loop fuel pending
      end
  end.

(** [Value::contains_fn]. *)
Definition contains_fn (v : Value) : option bool :=
  match v with
  | VList _ | VTuple _ | VVariant _ _ _ | VSet _ _ | VMap _ | VRecord _ _ => fn_loop (vsize v) [v]
  | other => Some (is_fn other)
  end.
