(* ===== verification/KeyWalk.v ===== *)
(** * The walk, near and far

    The parts of values side by side are lanes: the parts of each value
    in order.  Whatever keeps them (one run each, runs that end in
    different places, entries of maps, a stack of what is come back to),
    the walk goes over the lanes one part of each at a time: [full] is
    that walk without levels, stacks and runs. *)

From S2P Require Import Prelude Int64 Float Key.

Open Scope nat_scope.

(** ** Steps that do the same *)
Definition same {St X A} (m m' : Walk St X A) : Prop := ∀ s, m s = m' s.
Infix "≈" := same (at level 70).

#[global] Instance same_equivalence {St X A} : Equivalence (@same St X A).
Proof. split; [done|by intros m m' H s|intros m m' m'' H H' s; by rewrite H]. Qed.

Lemma bind_same {St X A B} (m m' : Walk St X A) (k k' : A → Walk St X B) :
  m ≈ m' → (∀ a, k a ≈ k' a) → (m ≫= k) ≈ (m' ≫= k').
Proof.
  intros Hm Hk s. unfold mbind, walk_bind. rewrite Hm. destruct (m' s) as [s' [x|a| |]]; try done. apply Hk.
Qed.

#[global] Instance bind_proper {St X A B} :
  Proper (pointwise_relation A (@same St X B) ==> @same St X A ==> @same St X B) mbind.
Proof. intros k k' Hk m m' Hm. by apply bind_same. Qed.

Lemma bind_bind {St X A B C} (m : Walk St X A) (k : A → Walk St X B) (l : B → Walk St X C) :
  ((m ≫= k) ≫= l) ≈ (m ≫= λ a, k a ≫= l).
Proof. intros s. unfold mbind, walk_bind. by destruct (m s) as [s' [x|a| |]]. Qed.

Lemma ret_bind {St X A B} (a : A) (k : A → Walk St X B) : (mret a ≫= k) ≈ k a.
Proof. done. Qed.

Lemma bind_ret {St X} (m : Walk St X unit) : (m;; mret tt) ≈ m.
Proof. intros s. unfold mbind, walk_bind. by destruct (m s) as [s' [x|[]| |]]. Qed.

(** ** The first of each *)

(** What [next_of] and [first_of] find: one of each, nothing, or some. *)
Inductive first_view {A} : list (list A) → Among A → list (list A) → Prop :=
  | fv_all x hs t ts : length hs = length ts →
      first_view (zip_with cons (x :: hs) (t :: ts)) (All (x :: hs)) (t :: ts)
  | fv_none rs : Forall (λ r, r = []) rs → first_view rs NoneLeft rs
  | fv_some rs : ¬ Forall (λ r, r = []) rs → ¬ Forall (λ r, r ≠ []) rs →
      first_view rs (SomeLeft (is_nil <$> rs)) (tail <$> rs).

Lemma first_of_next rs : first_of rs = next_of rs.
Proof. unfold first_of, next_of. f_equal. apply list_fmap_ext. by intros _ [|x r] _. Qed.

Lemma heads_or {A} (rs : list (list A)) :
  (∃ hs ts, length hs = length ts ∧ rs = zip_with cons hs ts) ∨ ¬ Forall (λ r, r ≠ []) rs.
Proof.
  induction rs as [|[|x r] rs IH]; [left; by exists [], []|right; by intros [? _]%Forall_cons|].
  destruct IH as [(hs & ts & Hl & ->)|IH]; [|right; by intros [_ ?]%Forall_cons].
  left. exists (x :: hs), (r :: ts). split; [cbn; by f_equal|done].
Qed.

Lemma omap_head_nil {A} (rs : list (list A)) : omap id (head <$> rs) = [] ↔ Forall (λ r, r = []) rs.
Proof.
  induction rs as [|[|x r] rs IH]; cbn; [done|rewrite Forall_cons; naive_solver|].
  split; [done|]. by intros [? _]%Forall_cons.
Qed.

Lemma last_nil {A} (l : list A) : last l = None ↔ l = [].
Proof. by rewrite last_None. Qed.

Lemma zip_cons_not_nil {A} (hs : list A) ts : Forall (λ r, r ≠ []) (zip_with cons hs ts).
Proof. revert ts. induction hs; intros [|t ts]; constructor; auto. Qed.

Lemma heads_tails {A} (hs : list A) ts : length hs = length ts →
  head <$> zip_with cons hs ts = Some <$> hs ∧ tail <$> zip_with cons hs ts = ts.
Proof.
  revert ts. induction hs as [|x hs IH]; intros [|t ts] Hl; simplify_eq/=; [done|].
  by destruct (IH ts Hl) as [-> ->].
Qed.

Lemma among_all {A} (x : A) hs : among (Some <$> x :: hs) = All (x :: hs).
Proof.
  unfold among. assert (omap id (Some <$> x :: hs) = x :: hs) as ->.
  { generalize (x :: hs). intros l. induction l as [|y l IH]; [done|]. cbn. by f_equal. }
  destruct (last (x :: hs)) as [any|] eqn:El; [|by apply last_nil in El].
  assert (existsb id ((λ item, match item with Some _ => false | None => true end) <$> (Some <$> x :: hs)) = false) as ->.
  { generalize (x :: hs). intros l. induction l; done. }
  f_equal. generalize (x :: hs). intros l. induction l as [|y l IH]; [done|]. cbn. by f_equal.
Qed.

Lemma next_of_all {A} (x : A) hs t ts :
  length hs = length ts → next_of (zip_with cons (x :: hs) (t :: ts)) = (All (x :: hs), t :: ts).
Proof.
  intros Hl. destruct (heads_tails (x :: hs) (t :: ts)) as [Hh Ht]; [by cbn; f_equal|].
  unfold next_of. by rewrite Hh, Ht, among_all.
Qed.

Lemma next_of_view {A} (rs : list (list A)) : first_view rs (next_of rs).1 (next_of rs).2.
Proof.
  destruct (heads_or rs) as [([|x hs] & [|t ts] & Hl & ->)|Hs]; [by constructor|done|done| |].
  { injection Hl as Hl. rewrite (next_of_all x hs t ts) by done. by constructor. }
  unfold next_of, among. cbn. destruct (last (omap id (head <$> rs))) as [any|] eqn:El.
  - assert (¬ Forall (λ r, r = []) rs) as Hn by (intros H%omap_head_nil; by rewrite H in El).
    assert ((λ item, match item with Some _ => false | None => true end) <$> (head <$> rs) = is_nil <$> rs) as ->.
    { rewrite <-list_fmap_compose. apply list_fmap_ext. by intros _ [|x r] _. }
    assert (existsb id (is_nil <$> rs) = true) as ->; [|by constructor].
    clear -Hs. induction rs as [|[|x r] rs IH]; cbn; [by destruct Hs|done|]. apply IH. intros H. apply Hs. by constructor.
  - apply last_nil, omap_head_nil in El. replace (tail <$> rs) with rs; [by constructor|].
    clear -El. induction El as [|r rs -> _ IH]; [done|]. cbn. by f_equal.
Qed.

Lemma first_of_view rs : first_view rs (first_of rs).1 (first_of rs).2.
Proof. rewrite first_of_next. apply next_of_view. Qed.

(** ** Lanes *)

(** The entries of a map as its parts: a key, its value, the next key. *)
Definition flat (es : list (Value * Value)) : list Value := concat ((λ '(k, w), [k; w]) <$> es).

(** The parts of a value, in order. *)
Definition parts_of (v : Value) : list Value :=
  match v with
  | VList l => concat (list_runs l)
  | VMap es => flat es
  | VSet _ ms => ms
  | VRecord _ fs => fs
  | _ => run_of v
  end.

(** Every run of a list it holds has an element. *)
Fixpoint runs_ok (v : Value) : bool :=
  match v with
  | VList (Held rs) => forallb (λ r, negb (is_nil r) && forallb runs_ok r) rs
  | VTuple l | VSet _ l | VRecord _ l | VVariant _ _ l | VVmClosure _ l => forallb runs_ok l
  | VMap es => forallb (λ '(k, w), runs_ok k && runs_ok w) es
  | _ => true
  end.

Lemma forallb_Forall {A} (f : A → bool) l : forallb f l = true ↔ Forall (λ x, f x = true) l.
Proof. rewrite forallb_forall, Forall_forall. setoid_rewrite list_elem_of_In. done. Qed.

Lemma forallb_concat {A} (f : A → bool) ls : Forall (λ x, f x = true) (concat ls) ↔ Forall (Forall (λ x, f x = true)) ls.
Proof. induction ls as [|l ls IH]; [done|]. by rewrite concat_cons, Forall_app, Forall_cons, IH. Qed.

Lemma flat_Forall (P : Value → Prop) es : Forall P (flat es) ↔ Forall (λ e, P e.1 ∧ P e.2) es.
Proof.
  unfold flat. induction es as [|[k w] es IH]; [done|]. cbn. rewrite !Forall_cons, IH. cbn. tauto.
Qed.

Lemma length_flat es : length (flat es) = 2 * length es.
Proof. unfold flat. induction es as [|[k w] es IH]; [done|]. cbn. cbn in IH. lia. Qed.

Lemma runs_ok_list rs : runs_ok (VList (Held rs)) = true ↔
  Forall (λ r, r ≠ []) rs ∧ Forall (λ v, runs_ok v = true) (concat rs).
Proof.
  cbn [runs_ok]. rewrite forallb_Forall, forallb_concat, <-Forall_and.
  apply Forall_iff. intros r. rewrite andb_true_iff, forallb_Forall. destruct r; cbn; naive_solver.
Qed.

Lemma runs_ok_parts v : runs_ok v = true → Forall (λ v, runs_ok v = true) (parts_of v).
Proof.
  destruct v as [| | | |[rs|lo hi]|es| | | | | | | | | | | | | | | | |]; try done; try (by intros [_ H]%runs_ok_list);
    try (by cbn; rewrite forallb_Forall).
  cbn. rewrite forallb_Forall, flat_Forall. intros H. eapply Forall_impl; [exact H|].
  intros [k w]. cbn. by rewrite andb_true_iff.
Qed.

Lemma sum_list_flat es : sum_list (vsize <$> flat es) = sum_list ((λ '(k, w), vsize k + vsize w) <$> es).
Proof. unfold flat. induction es as [|[k w] es IH]; [done|]. cbn. rewrite IH. lia. Qed.

Lemma sum_list_concat (rs : list (list Value)) :
  sum_list (vsize <$> concat rs) = sum_list ((λ r, sum_list (vsize <$> r)) <$> rs).
Proof. induction rs as [|r rs IH]; [done|]. cbn. rewrite fmap_app, sum_list_with_app, IH. done. Qed.

Lemma vsize_parts v : sum_list (vsize <$> parts_of v) < vsize v.
Proof.
  destruct v as [| | | |[rs|lo hi]|es| | | | | | | | | | | | | | | | |]; cbn [parts_of vsize run_of list_runs]; try (cbn; lia).
  - rewrite sum_list_concat. lia.
  - rewrite sum_list_flat. lia.
Qed.

Lemma vsize_pos v : 0 < vsize v.
Proof. destruct v; cbn; lia. Qed.

(** The type that names the parts of values, and their lanes. *)
Definition names_of (values : list Value) : option nat := match values with VRecord ty _ :: _ => Some ty | _ => None end.
Definition lanes_of (values : list Value) : list (list Value) :=
  match values with
  | (VTuple _ | VVariant _ _ _ | VVmClosure _ _) :: _ => run_of <$> values
  | VRecord _ _ :: _ => fields_of <$> values
  | VList first :: _ => (λ v, concat (list_runs (list_or first v))) <$> values
  | VMap first :: _ => (λ v, flat (entries_or first v)) <$> values
  | VSet _ first :: _ => members_or first <$> values
  | _ => (λ _, []) <$> values
  end.

Lemma lanes_of_head v vs : has_parts v = true → head (lanes_of (v :: vs)) = Some (parts_of v).
Proof. by destruct v. Qed.

(** A lane is the parts of its value, of the first, or none. *)
Lemma lanes_of_lane values lane :
  lane ∈ lanes_of values → (∃ v, v ∈ values ∧ lane = parts_of v) ∨ lane = [].
Proof.
  destruct values as [|v vs]; [by intros ?%elem_of_nil|].
  assert (∀ f : Value → list Value, lane ∈ f <$> v :: vs →
    (∀ w, w ∈ v :: vs → f w = parts_of w ∨ f w = parts_of v ∨ f w = []) → (∃ v', v' ∈ v :: vs ∧ lane = parts_of v') ∨ lane = []) as Hf.
  { intros f (w & -> & Hw)%list_elem_of_fmap Hc. destruct (Hc w Hw) as [->|[-> | ->]]; [left; eauto|left|by right].
    exists v. split; [apply list_elem_of_here|done]. }
  unfold lanes_of. destruct v; intros Hl; (eapply Hf; [exact Hl|]); intros w _; destruct w; cbn; eauto.
Qed.

Definition all_ok (vs : list Value) : Prop := Forall (λ v, runs_ok v = true) vs.

Lemma lanes_of_ok values : all_ok values → Forall all_ok (lanes_of values).
Proof.
  intros Hok. apply Forall_forall. intros lane [(v & Hv & ->)| ->]%lanes_of_lane; [|constructor].
  apply runs_ok_parts. by eapply Forall_forall in Hok.
Qed.

Lemma zip_cons_ok hs ts : length hs = length ts → Forall all_ok (zip_with cons hs ts) → all_ok hs ∧ Forall all_ok ts.
Proof.
  revert hs. induction ts as [|t ts IH]; intros [|x hs] Hl Hok; simplify_eq/=; [by split; constructor|].
  apply Forall_cons in Hok as [[Hx Ht]%Forall_cons Hok]. destruct (IH hs Hl Hok). split; by constructor.
Qed.

Section walks.
Context (types : nat → TypeInfo) {St X : Type} (visit : Visit St X).
Notation W := (Walk St X).

(** ** Over the lanes *)

(** The loop of [through], with the fuel it is given there. *)
Definition over (thr : list Value → nat → W unit) (far : list Value → W unit)
    (names : option nat) (rs : list (list Value)) (depth : nat) : W unit :=
  through_runs types visit thr far (1 + length (default [] (head rs))) names rs depth.

Lemma over_cons thr far names x hs t ts depth :
  length hs = length ts →
  over thr far names (zip_with cons (x :: hs) (t :: ts)) depth =
    (tell visit (ty ← names; next_name types ty (x :: t));;
     part visit thr far (x :: hs) depth;; over thr far names (t :: ts) depth).
Proof.
  intros Hl. unfold over at 1. cbn -[first_of zip_with tell part]. rewrite first_of_next, next_of_all by done.
  by destruct names.
Qed.

Lemma over_nil thr far names rs depth :
  Forall (λ r, r = []) rs → over thr far names rs depth ≈ tell visit (ty ← names; first ← head rs; next_name types ty first).
Proof.
  intros Hn. unfold over. pose proof (first_of_view rs) as Hv. cbn -[first_of tell].
  destruct (first_of rs) as [a ts]. cbn in Hv. inversion Hv; subst; cbn -[tell].
  - by apply Forall_cons in Hn as [? _].
  - apply bind_ret.
  - done.
Qed.

(** The name of a next field there is none of. *)
Lemma next_name_nil ty : next_name types ty [] = None.
Proof. unfold next_name. cbn. rewrite decide_True by lia. apply lookup_ge_None. lia. Qed.

Lemma tell_done names (rs : list (list Value)) :
  Forall (λ r, r = []) rs → tell visit (ty ← names; first ← head rs; next_name types ty first) = mret tt.
Proof. intros Hn. destruct Hn as [|r rs -> _], names; cbn; try done. by rewrite next_name_nil. Qed.

Lemma over_done thr far names rs depth : Forall (λ r, r = []) rs → over thr far names rs depth ≈ mret tt.
Proof. intros Hn. rewrite over_nil, tell_done by done. done. Qed.

Lemma over_some thr far names rs depth :
  ¬ Forall (λ r, r = []) rs → ¬ Forall (λ r, r ≠ []) rs →
  over thr far names rs depth =
    (tell visit (ty ← names; first ← head rs; next_name types ty first);; uneven visit (is_nil <$> rs)).
Proof.
  intros Hn Hs. unfold over. pose proof (first_of_view rs) as Hv. cbn -[first_of tell].
  destruct (first_of rs) as [a ts]. cbn in Hv. inversion Hv; subst; cbn -[tell]; try done.
  destruct Hs. apply zip_cons_not_nil.
Qed.

(** The three ways lanes go on, as a case analysis. *)
Lemma lanes_ind (P : list (list Value) → Prop) :
  (∀ rs, Forall (λ r, r = []) rs → P rs) →
  (∀ rs, ¬ Forall (λ r, r = []) rs → ¬ Forall (λ r, r ≠ []) rs → P rs) →
  (∀ x hs t ts, length hs = length ts → P (t :: ts) → P (zip_with cons (x :: hs) (t :: ts))) →
  ∀ rs, P rs.
Proof.
  intros Hn Hs Hc rs. remember (length (default [] (head rs))) as n eqn:Hl. revert rs Hl.
  induction n as [n IH] using lt_wf_ind. intros rs ->.
  pose proof (next_of_view rs) as Hv. destruct (next_of rs) as [a ts]. cbn in Hv. inversion Hv; subst; eauto.
  apply Hc; [done|]. eapply IH; [|reflexivity]. cbn. lia.
Qed.

(** Two walks that go on alike from the parts go over the lanes alike. *)
Lemma over_same thr far thr' far' names depth depth' (P : Value → Prop) rs :
  Forall all_ok rs → Forall P (default [] (head rs)) →
  (∀ x hs, P x → all_ok (x :: hs) → has_parts x = true →
    below thr far (x :: hs) depth ≈ below thr' far' (x :: hs) depth') →
  over thr far names rs depth ≈ over thr' far' names rs depth'.
Proof.
  intros Hok HP Hb. revert Hok HP. pattern rs. apply lanes_ind; clear rs.
  - intros rs Hn _ _. by rewrite !over_done.
  - intros rs Hn Hs _ _. by rewrite !over_some.
  - intros x hs t ts Hl IH Hok [Hx Ht]%Forall_cons. rewrite !over_cons by done.
    apply zip_cons_ok in Hok as [Hh Hts]; [|cbn; lia].
    apply bind_same; [done|intros _]. apply bind_same; [|intros _; by apply IH].
    unfold part. apply bind_same; [done|intros _]. destruct (has_parts x) eqn:Ep; [by apply Hb|done].
Qed.

(** ** The walk of the lanes *)

(** The step before the parts: whether the walk goes on to them. *)
Definition before (values : list Value) : W bool :=
  match values with
  | (VTuple _ | VVariant _ _ _ | VVmClosure _ _) :: _ => lens visit (len <$> (run_of <$> values));; mret true
  | VList first :: _ => lists visit (list_or first <$> values)
  | VMap first :: _ => lens visit (len <$> (entries_or first <$> values));; mret true
  | VSet _ first :: _ => lens visit (len <$> (members_or first <$> values));; mret true
  | _ => mret true
  end.

Fixpoint levels_down (n : nat) (values : list Value) : W unit :=
  match n with
  | 0 => out_of_fuel
  | S n =>
      go ← before values;
      if go : bool then over (λ vs _, levels_down n vs) (levels_down n) (names_of values) (lanes_of values) 0
      else mret tt
  end.

(** The walk through the parts of values: as many levels down as the
    first has. *)
Definition full (values : list Value) : W unit :=
  levels_down (match values with v :: _ => vsize v | [] => 1 end) values.

Lemma below_both (rec : list Value → W unit) values depth : below (λ vs _, rec vs) rec values depth = rec values.
Proof. unfold below. by destruct (decide _). Qed.

Lemma parts_smaller v : Forall (λ x, vsize x < vsize v) (parts_of v).
Proof.
  apply Forall_forall. intros x Hx. pose proof (vsize_parts v).
  assert (vsize x <= sum_list (vsize <$> parts_of v)); [|lia].
  clear -Hx. induction Hx as [|x y l _ IH]; cbn; lia.
Qed.

Lemma levels_down_enough n v vs :
  all_ok (v :: vs) → has_parts v = true → vsize v <= n → levels_down n (v :: vs) ≈ full (v :: vs).
Proof.
  unfold full. assert (∀ n m v vs, all_ok (v :: vs) → has_parts v = true → vsize v <= n → vsize v <= m →
    levels_down n (v :: vs) ≈ levels_down m (v :: vs)) as H; [|intros; by apply H].
  clear n v vs. induction n as [|n IH]; intros m v vs Hok Hp Hn Hm; [pose proof (vsize_pos v); lia|].
  destruct m as [|m]; [pose proof (vsize_pos v); lia|].
  cbn [levels_down]. apply bind_same; [done|intros []; [|done]].
  apply over_same with (P := λ x, vsize x < vsize v).
  - by apply lanes_of_ok.
  - rewrite lanes_of_head by done. apply parts_smaller.
  - intros x hs Hx Hxok Hxp. rewrite !below_both. apply IH; [done|done|lia|lia].
Qed.

Lemma full_step v vs :
  all_ok (v :: vs) → has_parts v = true →
  full (v :: vs) ≈
    (go ← before (v :: vs);
     if go : bool then over (λ vs _, full vs) full (names_of (v :: vs)) (lanes_of (v :: vs)) 0 else mret tt).
Proof.
  intros Hok Hp. rewrite <-(levels_down_enough (S (vsize v))) by (done || lia). cbn [levels_down].
  apply bind_same; [done|intros []; [|done]]. apply over_same with (P := λ x, vsize x < vsize v).
  - by apply lanes_of_ok.
  - rewrite lanes_of_head by done. apply parts_smaller.
  - intros x hs Hx Hxok Hxp. rewrite !below_both. apply levels_down_enough; [done|done|lia].
Qed.

End walks.

(** * What a value is, whatever keeps it

    The tree of a value: its head as a sequence of numbers, and the trees
    of its parts, a range having the Ints from its one end to its other.
    Trees have one order, a total one, in which only a tree and itself
    are equal. *)

(** ** The order of sequences *)
Section lex.
Context {A : Type} (cmp : A → A → comparison).

Lemma lex_eq l m : Forall (λ x, ∀ y, cmp x y = Eq ↔ x = y) l → lex cmp l m = Eq ↔ l = m.
Proof.
  intros Hl. revert m. induction Hl as [|x l Hx _ IH]; intros [|y m]; cbn; [done..|].
  specialize (Hx y). specialize (IH m). destruct (cmp x y); cbn; naive_solver.
Qed.

Lemma lex_antisym l m : Forall (λ x, ∀ y, cmp y x = CompOpp (cmp x y)) l → lex cmp m l = CompOpp (lex cmp l m).
Proof.
  intros Hl. revert m. induction Hl as [|x l Hx _ IH]; intros [|y m]; cbn; [done..|].
  rewrite Hx, IH. by destruct (cmp x y).
Qed.

Lemma lex_trans l m n :
  Forall (λ x, (∀ y, cmp x y = Eq → x = y) ∧ ∀ y z, cmp x y = Lt → cmp y z = Lt → cmp x z = Lt) l →
  (∀ y z, cmp y z = Eq → y = z) →
  lex cmp l m = Lt → lex cmp m n = Lt → lex cmp l n = Lt.
Proof.
  intros Hl He. revert m n. induction Hl as [|x l [Hx Ht] _ IH]; intros [|y m] [|z n]; cbn; try done.
  destruct (cmp x y) eqn:E1, (cmp y z) eqn:E2; cbn; try done.
  - apply Hx in E1 as ->. rewrite E2. cbn. eauto.
  - apply Hx in E1 as ->. by rewrite E2.
  - apply He in E2 as ->. by rewrite E1.
  - by rewrite (Ht _ _ E1 E2).
Qed.

Lemma lex_app l m l' m' : length l = length m → lex cmp (l ++ l') (m ++ m') = then_ (lex cmp l m) (lex cmp l' m').
Proof.
  revert m. induction l as [|x l IH]; intros [|y m] Hl; simplify_eq/=; [done|]. rewrite IH by done.
  by destruct (cmp x y).
Qed.
End lex.

Lemma lex_fmap {A B} (f : A → B) cmp cmp' l m :
  (∀ x y, cmp' x y = cmp (f x) (f y)) → lex cmp' l m = lex cmp (f <$> l) (f <$> m).
Proof. intros Hf. revert m. induction l as [|x l IH]; intros [|y m]; cbn; [done..|]. by rewrite Hf, IH. Qed.

Definition lexZ : list Z → list Z → comparison := lex Z.compare.

Lemma lexZ_eq l m : lexZ l m = Eq ↔ l = m.
Proof. apply lex_eq, Forall_true. intros x y. apply Z.compare_eq_iff. Qed.

Lemma lexZ_antisym l m : lexZ m l = CompOpp (lexZ l m).
Proof. apply lex_antisym, Forall_true. intros x y. apply Z.compare_antisym. Qed.

Lemma lexZ_trans l m n : lexZ l m = Lt → lexZ m n = Lt → lexZ l n = Lt.
Proof.
  apply lex_trans; [|intros y z; by apply Z.compare_eq_iff]. apply Forall_true. intros x.
  split; [intros y; by apply Z.compare_eq_iff|]. intros y z. rewrite !Z.compare_lt_iff. lia.
Qed.

(** ** Trees *)
Inductive Tree := Node (head : list Z) (parts : list Tree).

Definition tree_ind' (P : Tree → Prop) (H : ∀ h ps, Forall P ps → P (Node h ps)) : ∀ t, P t :=
  fix go t := match t with Node h ps =>
    H h ps ((fix all ps : Forall P ps := match ps with [] => Forall_nil_2 P | p :: ps => Forall_cons_2 P p ps (go p) (all ps) end) ps) end.

Fixpoint tree_cmp (t u : Tree) : comparison :=
  match t, u with Node h ps, Node g qs => then_ (lexZ h g) (lex tree_cmp ps qs) end.

Lemma tree_cmp_eq t u : tree_cmp t u = Eq ↔ t = u.
Proof.
  revert u. induction t as [h ps IH] using tree_ind'. intros [g qs]. cbn.
  pose proof (lexZ_eq h g) as Hh. pose proof (lex_eq _ _ qs IH) as Hp.
  destruct (lexZ h g); cbn; naive_solver.
Qed.

Lemma tree_cmp_antisym t u : tree_cmp u t = CompOpp (tree_cmp t u).
Proof.
  revert u. induction t as [h ps IH] using tree_ind'. intros [g qs]. cbn.
  rewrite lexZ_antisym, (lex_antisym _ _ _ IH). by destruct (lexZ h g).
Qed.

Lemma tree_cmp_lt t u v : tree_cmp t u = Lt → tree_cmp u v = Lt → tree_cmp t v = Lt.
Proof.
  revert u v. induction t as [h ps IH] using tree_ind'. intros [g qs] [k rs]. cbn.
  destruct (lexZ h g) eqn:E1, (lexZ g k) eqn:E2; cbn; try done.
  - apply lexZ_eq in E1 as ->, E2 as ->. rewrite (proj2 (lexZ_eq k k)) by done. cbn. apply lex_trans.
    + eapply Forall_impl; [exact IH|]. intros x Hx. split; [|done]. intros y. by apply tree_cmp_eq.
    + intros y z. by apply tree_cmp_eq.
  - apply lexZ_eq in E1 as ->. by rewrite E2.
  - apply lexZ_eq in E2 as ->. by rewrite E1.
  - by rewrite (lexZ_trans _ _ _ E1 E2).
Qed.

Lemma tree_cmp_trans t u v : tree_cmp t u ≠ Gt → tree_cmp u v ≠ Gt → tree_cmp t v ≠ Gt.
Proof.
  destruct (tree_cmp t u) eqn:E1, (tree_cmp u v) eqn:E2; try done; intros _ _.
  - apply tree_cmp_eq in E1 as ->, E2 as ->. by rewrite (proj2 (tree_cmp_eq v v)).
  - apply tree_cmp_eq in E1 as ->. by rewrite E2.
  - apply tree_cmp_eq in E2 as ->. by rewrite E1.
  - by rewrite (tree_cmp_lt _ _ _ E1 E2).
Qed.

(** ** The head of a value *)
Definition texts (l : list Text) : list Z := concat ((λ s, (Z.of_N <$> s) ++ [-1]%Z) <$> l).

Section heads.
Context (types : nat → TypeInfo).

Definition hkey (v : Value) : list Z :=
  Z.of_N (rank v) ::
  match v with
  | VUnit | VList _ | VTuple _ | VMap _ | VSet _ _ => []
  | VBool b => [if b then 1%Z else 0%Z]
  | VInt n => [n]
  | VFloat f => [total_key f]
  | VString s | VBytes s | VHostFn s | VPrimitiveDescriptor s => Z.of_N <$> s
  | VRecord ty _ => Z.of_N (ty_id types ty) :: if is_anon (types ty) then texts (fields (types ty)) else []
  | VVariant ty o _ | VVariantConstructor ty o => [Z.of_N (ty_id types ty); Z.of_N o]
  | VTypeDescriptor ty => [Z.of_N (ty_id types ty)]
  | VChannel id | VHandle id | VTcpListener id | VTcpStream id | VBuiltinFn id | VVmClosure id _ => [Z.of_N id]
  | VDict d => [Z.of_N (dict_key d).1; Z.of_N (dict_key d).2]
  end.

Lemma texts_lex l m : lex (lex N.compare) l m = lexZ (texts l) (texts m).
Proof.
  unfold texts. revert m. induction l as [|s l IH]; intros [|r m]; cbn; [done|by destruct r|by destruct s|].
  rewrite IH. generalize (concat ((λ s, (Z.of_N <$> s) ++ [-1]%Z) <$> l)), (concat ((λ s, (Z.of_N <$> s) ++ [-1]%Z) <$> m)).
  intros l' m'. clear. revert r. induction s as [|c s IH]; intros [|d r]; cbn; [done|by destruct d|by destruct c|].
  unfold lexZ in *. rewrite N2Z.inj_compare. destruct (N.compare c d); cbn; [apply IH|done|done].
Qed.

Lemma text_lex (s r : Text) : lex N.compare s r = lexZ (Z.of_N <$> s) (Z.of_N <$> r).
Proof. apply lex_fmap. intros. by rewrite N2Z.inj_compare. Qed.

Lemma then_eq c : then_ c Eq = c.
Proof. by destruct c. Qed.

Lemma cmp_record_types_key a b :
  cmp_record_types types a b = lexZ (hkey (VRecord a [])) (hkey (VRecord b [])).
Proof.
  unfold cmp_record_types. case_decide as E; [subst; symmetry; by apply lexZ_eq|].
  unfold hkey, lexZ. cbn -[texts]. rewrite N2Z.inj_compare. unfold ty_id.
  destruct (N.compare_spec (ti_id (types a)) (ti_id (types b))) as [Hid| |]; cbn -[texts]; [|done..].
  unfold is_anon. rewrite Hid. destruct (N.eqb _ _); [apply texts_lex|done].
Qed.

(** The order of heads is the order of their numbers. *)
Lemma cmp_heads_key a b : cmp_heads types a b = lexZ (hkey a) (hkey b).
Proof.
  destruct a, b; try done; try apply cmp_record_types_key; unfold hkey; cbn -[texts float_cmp];
    unfold lexZ, pair_cmp; rewrite ?text_lex; unfold lexZ; cbn -[texts]; rewrite ?N2Z.inj_compare, ?then_eq; try done.
  by repeat case_match.
Qed.

(** ** The tree of a value *)
Definition int_tree (n : Z) : Tree := Node [2; n]%Z [].

Fixpoint tree (v : Value) : Tree :=
  Node (hkey v)
    match v with
    | VList (Held rs) => concat ((λ r : list Value, tree <$> r) <$> rs)
    | VList (Ints lo hi) => int_tree <$> seqZ lo (hi - lo + 1)
    | VMap es => concat ((λ '(k, w), [tree k; tree w]) <$> es)
    | VTuple l | VSet _ l | VRecord _ l | VVariant _ _ l | VVmClosure _ l => tree <$> l
    | _ => []
    end.

Definition is_range (v : Value) : bool := match v with VList (Ints _ _) => true | _ => false end.

Lemma tree_parts v : is_range v = false → tree v = Node (hkey v) (tree <$> parts_of v).
Proof.
  destruct v as [| | | |[rs|]|es| | | | | | | | | | | | | | | | |]; try done; intros _; cbn; f_equal.
  - induction rs as [|r rs IH]; [done|]. cbn. by rewrite fmap_app, IH.
  - unfold flat. induction es as [|[k w] es IH]; [done|]. cbn. by rewrite IH.
Qed.

Lemma tree_int n : tree (VInt n) = int_tree n.
Proof. done. Qed.

(** What a program's values are: an Int is an [i64], a Float is one, a run
    has an element, a range has its ends in order and its length is a
    [usize]. *)
Fixpoint value_ok (v : Value) : bool :=
  match v with
  | VInt n => in_i64 n
  | VFloat f => float_ok f
  | VList (Held rs) => forallb (λ r, negb (is_nil r) && forallb value_ok r) rs
  | VList (Ints lo hi) => in_i64 lo && in_i64 hi && (lo <=? hi)%Z && (hi - lo <? usize_max)%Z
  | VTuple l | VSet _ l | VRecord _ l | VVariant _ _ l | VVmClosure _ l => forallb value_ok l
  | VMap es => forallb (λ '(k, w), value_ok k && value_ok w) es
  | _ => true
  end.

Lemma value_ok_parts v : value_ok v = true → Forall (λ v, value_ok v = true) (parts_of v).
Proof.
  destruct v as [| | | |[rs|lo hi]|es| | | | | | | | | | | | | | | | |]; try done; try (by cbn; rewrite forallb_Forall).
  - cbn. rewrite forallb_Forall, forallb_concat. intros H. eapply Forall_impl; [exact H|].
    intros r [_ Hr]%andb_true_iff. by apply forallb_Forall.
  - cbn. rewrite forallb_Forall, flat_Forall. intros H. eapply Forall_impl; [exact H|].
    intros [k w]. cbn. by rewrite andb_true_iff.
Qed.

(** Values are smaller than what they are parts of. *)
Lemma value_ind_parts (P : Value → Prop) : (∀ v, Forall P (parts_of v) → P v) → ∀ v, P v.
Proof.
  intros H v. remember (vsize v) as n eqn:Hn. revert v Hn. induction n as [n IH] using lt_wf_ind. intros v ->.
  apply H. pose proof (parts_smaller v) as Hs. eapply Forall_impl; [exact Hs|]. cbn. intros x Hx. by eapply IH.
Qed.

Lemma value_ok_runs v : value_ok v = true → runs_ok v = true.
Proof.
  induction v as [v IH] using value_ind_parts. intros Hv.
  pose proof (value_ok_parts v Hv) as Hp.
  assert (Forall (λ v, runs_ok v = true) (parts_of v)) as Hr.
  { apply Forall_forall. intros x Hx. eapply Forall_forall in IH, Hp; eauto. }
  clear IH Hp. destruct v as [| | | |[rs|lo hi]|es| | | | | | | | | | | | | | | | |]; try done; cbn in *; try (by apply forallb_Forall).
  - apply forallb_Forall. rewrite forallb_concat in Hr. rewrite forallb_Forall in Hv.
    apply Forall_forall. intros r Hin. eapply Forall_forall in Hv, Hr; try done. cbn in *.
    apply andb_true_iff in Hv as [-> _]. by apply forallb_Forall.
  - apply forallb_Forall. apply flat_Forall in Hr. eapply Forall_impl; [exact Hr|]. intros [k w]. cbn. by intros [-> ->].
Qed.

Lemma all_value_ok vs : Forall (λ v, value_ok v = true) vs → all_ok vs.
Proof. intros H. eapply Forall_impl; [exact H|]. apply value_ok_runs. Qed.

End heads.
