(* ===== verification/KeyFar.v ===== *)
(** * Near and far are one walk

    The loops over runs, entries and members, and the loop with a stack
    of its own, go over the lanes ([over]); so [walk] is [full] after the
    heads, however deep the values nest. *)

From S2P Require Import Prelude Int64 Float Key KeyWalk.

Open Scope nat_scope.

(** ** Runs that end in different places *)
Definition lane (l : list Value * list (list Value)) : list Value := l.1 ++ concat l.2.
Definition more_ok (ls : list (list Value * list (list Value))) : Prop :=
  Forall (λ l, Forall (λ r, r ≠ []) l.2) ls.

(** After [next_runs] the run of a list is empty only if the list is. *)
Definition at_hand (ls : list (list Value * list (list Value))) : Prop :=
  Forall (λ l, l.1 = [] → l.2 = []) ls.

Lemma next_runs_spec ls : more_ok ls →
  lane <$> next_runs ls = lane <$> ls ∧ more_ok (next_runs ls) ∧ at_hand (next_runs ls).
Proof.
  unfold more_ok, at_hand. induction 1 as [|[[|x run] [|r more]] ls Hl _ IH]; [by repeat constructor|..];
    destruct IH as (IH1 & IH2 & IH3); cbn; fold (next_runs ls); rewrite IH1;
    (split; [done|]); split; constructor; cbn in *; try done.
  - by apply Forall_cons in Hl as [_ ?].
  - apply Forall_cons in Hl as [? _]. done.
Qed.

Lemma at_hand_nil ls : at_hand ls → ((λ l, is_nil l.1) <$> ls) = is_nil <$> (lane <$> ls).
Proof.
  unfold lane. induction 1 as [|[[|x run] more] ls Hl _ IH]; [done|..]; cbn; rewrite IH; [|done].
  cbn in Hl. by rewrite Hl.
Qed.

Lemma shortest_le ls : Forall (λ l, shortest ls <= length l.1) ls.
Proof.
  unfold shortest. induction ls as [|l ls IH]; [done|]. cbn. constructor; [lia|].
  eapply Forall_impl; [exact IH|]. cbn. intros l' Hl'. lia.
Qed.

Lemma shortest_zero l ls : shortest (l :: ls) = 0 → ¬ Forall (λ l, l.1 ≠ []) (l :: ls).
Proof.
  unfold shortest. intros Hs Hf. revert Hs. generalize (l :: ls) Hf. clear. intros ls Hf.
  assert (0 < foldr (λ l step, N.min (N.of_nat (length l.1)) step) (2 ^ 64 - 1) ls)%N; [|lia].
  induction Hf as [|[[|x r] m] ls Hl _ IH]; cbn -[N.of_nat N.min] in *; [lia|done|]. lia.
Qed.

Section far.
Context (types : nat → TypeInfo) {St X : Type} (visit : Visit St X).
Notation W := (Walk St X).
Notation over := (over types visit).
Notation full := (full types visit).

Section near.
Context (thr : list Value → nat → W unit) (far : list Value → W unit) (depth : nat).

(** As many elements of each as the shortest run has, and then the rest. *)
Lemma each_part_over (ls : list (list Value * list (list Value))) n k :
  ls ≠ [] → Forall (λ l, k + n <= length l.1) ls →
  (each_part visit thr far (seq k n) ls depth;;
   over thr far None ((λ l, lane (drop (k + n) l.1, l.2)) <$> ls) depth) ≈
  over thr far None ((λ l, lane (drop k l.1, l.2)) <$> ls) depth.
Proof.
  intros Hne. revert k. induction n as [|n IH]; intros k Hl; cbn [seq each_part].
  { by rewrite Nat.add_0_r. }
  assert (∃ hs, at_each k ls = Some hs ∧ length hs = length ls ∧
    ((λ l, lane (drop k l.1, l.2)) <$> ls) = zip_with cons hs ((λ l, lane (drop (S k) l.1, l.2)) <$> ls)) as (hs & He & Hlen & Hz).
  { clear -Hl. unfold at_each. induction Hl as [|[run more] ls Hl _ IH]; [by exists []|].
    destruct IH as (hs & He & Hlen & Hz). cbn in Hl. destruct (lookup_lt_is_Some_2 run k ltac:(lia)) as [x Hx].
    exists (x :: hs). split; [cbn; rewrite Hx; cbn; by rewrite He|]. split; [cbn; lia|].
    rewrite !fmap_cons, Hz. cbn [zip_with]. f_equal. unfold lane. cbn. by rewrite (drop_S _ _ _ Hx). }
  rewrite He, Hz, bind_bind. replace (k + S n) with (S k + n) by lia.
  destruct hs as [|x hs]; [by destruct ls|]. destruct ls as [|l0 ls]; [done|].
  cbn [fmap list_fmap] in *. rewrite over_cons by (rewrite length_fmap; cbn in Hlen; lia).
  cbn [tell mbind option_bind]. change (tell visit _) with (mret () : W unit). rewrite ret_bind.
  apply bind_same; [done|intros _]. apply IH. eapply Forall_impl; [exact Hl|]. cbn. intros; lia.
Qed.

Lemma through_elements_over fuel ls :
  ls ≠ [] → more_ok ls → length (default [] (head (lane <$> ls))) < fuel →
  through_elements visit thr far fuel ls depth ≈ over thr far None (lane <$> ls) depth.
Proof.
  revert ls. induction fuel as [|fuel IH]; intros ls Hne Hok Hf; [lia|]. cbn [through_elements].
  destruct (next_runs_spec ls Hok) as (Hlane & Hmore & Hhand). rewrite <-Hlane in Hf. rewrite <-Hlane. clear Hlane Hok.
  assert (next_runs ls ≠ []) as Hne' by (by destruct ls as [|[[] []]]).
  revert Hf Hmore Hhand Hne'. generalize (next_runs ls). clear ls Hne. intros ls Hf Hok Hh Hne. rewrite at_hand_nil by done.
  destruct ls as [|l ls]; [done|].
  case_decide as Hs.
  - apply shortest_zero in Hs. destruct (existsb negb _) eqn:Ee.
    + rewrite over_some; [done|..].
      * intros Hn. apply existsb_exists in Ee as (b & (r & -> & Hr)%list_elem_of_In%list_elem_of_fmap & Hb).
        eapply Forall_forall in Hn; [|exact Hr]. by rewrite Hn in Hb.
      * intros Hn. apply Hs. apply Forall_forall. intros l' Hl' Hnil.
        eapply Forall_forall in Hn; [|by apply list_elem_of_fmap_2]. apply Hn.
        eapply Forall_forall in Hh; [|exact Hl']. unfold lane. by rewrite Hnil, Hh.
    + rewrite over_done; [done|]. apply Forall_forall. intros r Hr. destruct r as [|x r]; [done|].
      assert (existsb negb (is_nil <$> (lane <$> l :: ls)) = true) as E; [|by rewrite E in Ee].
      apply existsb_exists. exists false. split; [|done]. apply list_elem_of_In. by apply (list_elem_of_fmap_2 is_nil _ _ Hr).
  - pose proof (shortest_le (l :: ls)) as Hle. set (step := shortest (l :: ls)) in *.
    rewrite (bind_same _ (each_part visit thr far (seq 0 step) (l :: ls) depth) _
      (λ _, over thr far None ((λ l, lane (drop (0 + step) l.1, l.2)) <$> l :: ls) depth)); [..|intros _].
    + rewrite each_part_over by done. done.
    + done.
    + rewrite IH.
      * rewrite <-list_fmap_compose. done.
      * done.
      * apply Forall_fmap. exact Hok.
      * cbn in *. apply Forall_cons in Hle as [Hle _]. unfold lane in *. cbn in *. rewrite length_app, length_drop in *. lia.
Qed.

Lemma through_members_over fuel rs :
  length (default [] (head rs)) < fuel →
  through_members visit thr far fuel rs depth ≈ over thr far None rs depth.
Proof.
  revert fuel. pattern rs. apply lanes_ind; clear rs.
  - intros rs Hn fuel Hf. rewrite over_done by done. destruct fuel as [|fuel]; [lia|]. cbn [through_members].
    pose proof (next_of_view rs) as Hv. destruct (next_of rs). cbn in Hv. inversion Hv; subst; try done.
    by apply Forall_cons in Hn as [? _].
  - intros rs Hn Hs fuel Hf. rewrite over_some by done. destruct fuel as [|fuel]; [lia|]. cbn [through_members].
    pose proof (next_of_view rs) as Hv. destruct (next_of rs). cbn in Hv. inversion Hv as [x hs t ts Hl| |]; subst; try done.
    destruct Hs. apply zip_cons_not_nil.
  - intros x hs t ts Hl IH fuel Hf. rewrite over_cons by done. destruct fuel as [|fuel]; [cbn in Hf; lia|].
    cbn [through_members]. rewrite next_of_all by done.
    change (tell visit _) with (mret () : W unit). rewrite ret_bind.
    apply bind_same; [done|intros _]. apply IH. cbn in *. lia.
Qed.

(** The entries of maps, a key of each and then its values. *)
Lemma flat_zip es fs : length es = length fs →
  flat <$> zip_with cons es fs = zip_with cons (fst <$> es) (zip_with cons (snd <$> es) (flat <$> fs)).
Proof.
  revert fs. induction es as [|[k w] es IH]; intros [|f fs] Hl; simplify_eq/=; [done|]. by rewrite IH.
Qed.

Lemma flat_nil es : flat es = [] ↔ es = [].
Proof. by destruct es as [|[k w] es]. Qed.

Lemma flat_all_nil (rs : list (list (Value * Value))) : Forall (λ r, r = []) (flat <$> rs) ↔ Forall (λ r, r = []) rs.
Proof. rewrite Forall_fmap. apply Forall_iff. intros r. apply flat_nil. Qed.

Lemma flat_none_nil (rs : list (list (Value * Value))) : Forall (λ r, r ≠ []) (flat <$> rs) ↔ Forall (λ r, r ≠ []) rs.
Proof. rewrite Forall_fmap. apply Forall_iff. intros r. cbn. by rewrite flat_nil. Qed.

Lemma is_nil_flat (rs : list (list (Value * Value))) : is_nil <$> (flat <$> rs) = is_nil <$> rs.
Proof. rewrite <-list_fmap_compose. apply list_fmap_ext. by intros _ [|[k w] r] _. Qed.

Lemma through_entries_over fuel rs :
  length (default [] (head rs)) < fuel →
  through_entries visit thr far fuel rs depth ≈ over thr far None (flat <$> rs) depth.
Proof.
  revert rs. induction fuel as [|fuel IH]; intros rs Hf; [lia|]. cbn [through_entries].
  pose proof (next_of_view rs) as Hv. destruct (next_of rs) as [a ts'] eqn:E. cbn in Hv.
  inversion Hv as [x hs t ts Hl|rs' Hn|rs' Hn Hs]; subst; clear Hv.
  - rewrite flat_zip by (cbn; lia). rewrite !fmap_cons.
    change (zip_with cons (x.2 :: (snd <$> hs)) (flat t :: (flat <$> ts)))
      with ((x.2 :: flat t) :: zip_with cons (snd <$> hs) (flat <$> ts)).
    rewrite (over_cons types visit thr far None x.1 (fst <$> hs) (x.2 :: flat t) (zip_with cons (snd <$> hs) (flat <$> ts)))
      by (rewrite length_zip_with, !length_fmap; lia).
    change (tell visit _) with (mret () : W unit). rewrite ret_bind.
    apply bind_same; [done|intros _].
    change ((x.2 :: flat t) :: zip_with cons (snd <$> hs) (flat <$> ts))
      with (zip_with cons (x.2 :: (snd <$> hs)) (flat t :: (flat <$> ts))).
    rewrite (over_cons types visit thr far None x.2 (snd <$> hs) (flat t) (flat <$> ts)) by (rewrite !length_fmap; lia).
    change (tell visit _) with (mret () : W unit). rewrite ret_bind.
    apply bind_same; [done|intros _]. apply IH. cbn in *. lia.
  - rewrite over_done; [done|]. by apply flat_all_nil.
  - rewrite over_some by (by rewrite ?flat_all_nil, ?flat_none_nil). rewrite is_nil_flat. done.
Qed.

End near.

(** ** By calls *)

Lemma held_runs_ok (l : ListOf Value) : runs_ok (VList l) = true → Forall (λ r, r ≠ []) (list_runs l).
Proof. destruct l as [rs|lo hi]; [|by constructor]. by intros [? _]%runs_ok_list. Qed.

Lemma list_or_ok first values : runs_ok (VList first) = true → all_ok values →
  Forall (λ l, Forall (λ r, r ≠ []) (list_runs l)) (list_or first <$> values).
Proof.
  intros Hf Hok. apply Forall_fmap. eapply Forall_impl; [exact Hok|]. intros v Hv. apply held_runs_ok. by destruct v.
Qed.

Lemma lane_start first (values : list Value) :
  lane <$> ((λ m, ([], m)) <$> (list_runs <$> (list_or first <$> values))) = (λ v, concat (list_runs (list_or first v))) <$> values.
Proof. rewrite <-!list_fmap_compose. done. Qed.

Lemma more_start first values : all_ok (VList first :: values) →
  more_ok ((λ m, ([], m)) <$> (list_runs <$> (list_or first <$> VList first :: values))).
Proof.
  intros Hok. unfold more_ok. rewrite !Forall_fmap. pose proof (list_or_ok first _ (Forall_inv Hok) Hok) as H.
  by rewrite Forall_fmap in H.
Qed.

(** One level of [through]: the step before the parts, and the lanes. *)
Lemma through_step levels v vs depth :
  all_ok (v :: vs) → has_parts v = true →
  through types visit (S levels) (v :: vs) depth ≈
    (go ← before visit (v :: vs);
     if go : bool then over (through types visit levels) (through_far types visit) (names_of (v :: vs)) (lanes_of (v :: vs)) depth
     else mret tt).
Proof.
  intros Hok Hp. cbn [through].
  destruct v as [| | | |first|first|known first| | | | | | | | | | | | | | | |]; try done;
    cbn [runs before]; cbv zeta; rewrite ?bind_bind; try (apply bind_same; [done|]; intros []; done).
  - apply bind_same; [done|]. intros []; rewrite ret_bind; [|done].
    rewrite through_elements_over by (done || by apply more_start || (rewrite lane_start; cbn; lia)).
    by rewrite lane_start.
  - rewrite ret_bind. unfold through_many. cbv zeta. apply bind_same; [done|intros _].
    rewrite through_entries_over by (cbn; lia). rewrite ret_bind, <-list_fmap_compose. done.
  - rewrite ret_bind. unfold through_many. cbv zeta. apply bind_same; [done|intros _].
    rewrite through_members_over by (cbn; lia). done.
Qed.

(** ** With a stack *)

(** The lanes a [Parts] has left, and what names them. *)
Definition lanes (p : Parts) : list (list Value) :=
  match p with
  | PValues rs | PFields _ rs | PMembers rs => rs
  | PElements ls => lane <$> ls
  | PEntries es None => flat <$> es
  | PEntries es (Some vs) => zip_with cons vs (flat <$> es)
  end.
Definition names (p : Parts) : option nat := match p with PFields ty _ => Some ty | _ => None end.

Definition parts_ok (p : Parts) : Prop :=
  Forall all_ok (lanes p) ∧
  match p with
  | PElements ls => more_ok ls
  | PEntries es (Some vs) => length vs = length es ∧ vs ≠ []
  | _ => True
  end.

Lemma parts_name_lanes p : parts_name types p = (ty ← names p; first ← head (lanes p); next_name types ty first).
Proof. by destruct p as [| | | ? []|]. Qed.

Lemma parts_done p : parts_ok p → parts_is_done p = true → Forall (λ r, r = []) (lanes p).
Proof.
  assert (∀ A (rs : list (list A)), forallb is_nil rs = true → Forall (λ r, r = []) rs) as Hn.
  { intros A rs. rewrite forallb_Forall. intros H. eapply Forall_impl; [exact H|]. by intros []. }
  destruct p as [rs|ls|ty rs|es [vs|]|rs]; cbn; intros [_ Hok] Hd; try (by apply Hn); try done.
  - apply andb_true_iff in Hd as [H1%Hn H2%Hn]. rewrite Forall_fmap in H1. revert H2.
    rewrite Forall_fmap. intros H2. rewrite Forall_fmap.
    eapply Forall_impl; [apply Forall_and; split; [exact H1|exact H2]|]. intros [run more] [??]. unfold lane. cbn in *. by subst.
  - apply flat_all_nil. by apply Hn.
Qed.

(** The next of each lane: one of each, with the lanes after them; or the
    lanes end, together or not. *)
Definition next_ok (p : Parts) (next : Among Value) (p' : Parts) : Prop :=
  match next with
  | All hs => ∃ x hs' t ts, hs = x :: hs' ∧ lanes p' = t :: ts ∧ length hs' = length ts ∧
      lanes p = zip_with cons (x :: hs') (t :: ts) ∧ parts_ok p' ∧ names p' = names p
  | NoneLeft => Forall (λ r, r = []) (lanes p)
  | SomeLeft ended => ended = is_nil <$> lanes p ∧
      ¬ Forall (λ r, r = []) (lanes p) ∧ ¬ Forall (λ r, r ≠ []) (lanes p)
  end.

(** Where the lanes after a part are what [Parts] keeps next. *)
Lemma next_ok_view p p' next rs :
  Forall all_ok (lanes p) → first_view (lanes p) next rs →
  (∀ hs, next = All hs → lanes p' = rs ∧ names p' = names p ∧ (Forall all_ok rs → parts_ok p')) →
  next_ok p next p'.
Proof.
  intros Hok Hv Hp. inversion Hv as [x hs t ts Hl Hz| |]; subst; cbn; [|done|done].
  destruct (Hp _ eq_refl) as (Hlanes & Hn & Hk). exists x, hs, t, ts.
  split_and!; try done. apply Hk. rewrite <-Hz in Hok. apply (zip_cons_ok (x :: hs) (t :: ts)) in Hok as [_ ?]; [done|cbn; lia].
Qed.

Lemma zip_fst_snd {A B} (l : list A) (m : list B) : length l = length m → (zip l m).*1 = l ∧ (zip l m).*2 = m.
Proof. intros Hl. split; [apply fst_zip|apply snd_zip]; lia. Qed.

Lemma first_view_length {A} (rs rs' : list (list A)) next : first_view rs next rs' → length rs' = length rs.
Proof.
  destruct 1; [|done|by rewrite length_fmap]. rewrite length_zip_with. cbn. lia.
Qed.

Lemma is_nil_all {A B} b (rs : list (list A)) (rs' : list (list B)) :
  is_nil <$> rs = is_nil <$> rs' → Forall (λ r, is_nil r = b) rs → Forall (λ r, is_nil r = b) rs'.
Proof.
  revert rs'. induction rs as [|r rs IH]; intros [|r' rs'] He Hf; simplify_eq/=; [done|].
  apply Forall_cons in Hf as [? ?]. constructor; [congruence|auto].
Qed.

Lemma next_ok_elements ls : parts_ok (PElements ls) → next_ok (PElements ls) (parts_next (PElements ls)).1 (parts_next (PElements ls)).2.
Proof.
  intros [Hok Hm]. cbn in Hok, Hm. destruct (next_runs_spec ls Hm) as (Hl & Hm' & Hh). cbn [parts_next].
  pose proof (first_of_view (fst <$> next_runs ls)) as Hv. destruct (first_of (fst <$> next_runs ls)) as [next rs].
  cbn [fst snd] in *. pose proof (first_view_length _ _ _ Hv) as Hlen. unfold next_ok. cbn [lanes names]. rewrite <-Hl in Hok |- *.
  revert Hv Hok Hm' Hh Hlen. clear Hl Hm. generalize (next_runs ls). clear ls. intros ls Hv Hok Hm Hh Hlen.
  assert (is_nil <$> (lane <$> ls) = is_nil <$> (fst <$> ls)) as Hnil
    by (rewrite <-at_hand_nil, <-list_fmap_compose by done; done).
  assert (∀ b, Forall (λ r, is_nil r = b) (lane <$> ls) ↔ Forall (λ r, is_nil r = b) (fst <$> ls)) as Hb.
  { intros b. split; by apply is_nil_all. }
  assert (∀ rs : list (list Value), Forall (λ r, r = []) rs ↔ Forall (λ r, is_nil r = true) rs) as Ht
    by (intros; apply Forall_iff; by intros []).
  assert (∀ rs : list (list Value), Forall (λ r, r ≠ []) rs ↔ Forall (λ r, is_nil r = false) rs) as Hf
    by (intros; apply Forall_iff; by intros []).
  inversion Hv as [x hs t ts Hlt Hz|rs' Hn|rs' Hn Hs]; subst; cbn.
  - destruct ls as [|[run more] ls]; [done|]. cbn in Hz. injection Hz as Hx Hz. subst run.
    exists x, hs, (t ++ concat more), (zip_with (λ r m, r ++ concat m) ts (snd <$> ls)).
    assert (length ts = length ls) as Hll by (cbn in Hlen; rewrite length_fmap in Hlen; lia).
    assert (lane <$> ls = zip_with cons hs (zip_with (λ r m, r ++ concat m) ts ls.*2) ∧
      lane <$> zip ts ls.*2 = zip_with (λ r m, r ++ concat m) ts ls.*2) as [H1 H2].
    { clear -Hz Hlt Hll. revert hs ts Hz Hlt Hll. induction ls as [|[run more] ls IH]; intros [|y hs] [|u ts] ???; simplify_eq/=; [done|].
      destruct (IH hs ts) as [-> ->]; done. }
    split_and!; try done.
    + apply (f_equal2 cons); [done|exact H2].
    + rewrite length_zip_with, length_fmap. lia.
    + apply (f_equal2 cons); [done|exact H1].
    + split; cbn.
      * change (Forall all_ok ((t ++ concat more) :: (lane <$> zip ts ls.*2))). rewrite H2.
        change (Forall all_ok ((x :: t ++ concat more) :: (lane <$> ls))) in Hok. rewrite H1 in Hok.
        apply (zip_cons_ok (x :: hs) ((t ++ concat more) :: zip_with (λ r m, r ++ concat m) ts ls.*2)); [|done].
        cbn. rewrite length_zip_with, length_fmap. lia.
      * apply Forall_cons in Hm as [Hm1 Hm]. constructor; [done|]. clear -Hm.
        revert ts. induction Hm; intros [|? ?]; constructor; auto.
  - by apply Ht, Hb, Ht.
  - rewrite <-Hnil. split_and!; [done|..]; by rewrite ?Ht, ?Hf, Hb, <-?Ht, <-?Hf.
Qed.

Lemma parts_next_ok p : parts_ok p → next_ok p (parts_next p).1 (parts_next p).2.
Proof.
  destruct p as [rs|ls|ty rs|es [vs|]|rs]; intros Hp; [|by apply next_ok_elements|..]; pose proof Hp as [Hok Hk]; cbn in Hok.
  - cbn [parts_next]. pose proof (first_of_view rs) as Hv. destruct (first_of rs). cbn in *.
    eapply next_ok_view; [done|exact Hv|]. by intros.
  - cbn [parts_next]. pose proof (first_of_view rs) as Hv. destruct (first_of rs). cbn in *.
    eapply next_ok_view; [done|exact Hv|]. by intros.
  - cbn in Hk. destruct Hk as [Hl Hne]. destruct vs as [|x hs]; [done|]. destruct es as [|e es]; [done|]. cbn in *.
    exists x, hs, (flat e), (flat <$> es). rewrite length_fmap. split_and!; try done; [lia|].
    split; [|done]. cbn. apply (zip_cons_ok (x :: hs) (flat e :: (flat <$> es))); [cbn; rewrite length_fmap; lia|done].
  - cbn [parts_next]. pose proof (next_of_view es) as Hv. destruct (next_of es) as [next es'] eqn:E. cbn in Hv.
    inversion Hv as [x hs t ts Hlt|rs' Hn|rs' Hn Hs]; subst; cbn.
    + exists x.1, (fst <$> hs), (x.2 :: flat t), (zip_with cons (snd <$> hs) (flat <$> ts)).
      pose proof (flat_zip (x :: hs) (t :: ts) ltac:(cbn; lia)) as Hz. cbn in Hz.
      split_and!; try done.
      * rewrite length_zip_with, !length_fmap. lia.
      * split; cbn.
        -- apply (zip_cons_ok (x.1 :: (fst <$> hs)) ((x.2 :: flat t) :: zip_with cons (snd <$> hs) (flat <$> ts))).
           ++ cbn. rewrite length_zip_with, !length_fmap. lia.
           ++ cbn. rewrite <-Hz. done.
        -- split; [cbn; rewrite length_fmap; lia|done].
    + by apply flat_all_nil.
    + rewrite is_nil_flat, flat_all_nil, flat_none_nil. done.
  - cbn [parts_next]. pose proof (next_of_view rs) as Hv. destruct (next_of rs). cbn in *.
    eapply next_ok_view; [done|exact Hv|]. by intros.
Qed.

(** What [parts] makes has the lanes of the values. *)
Lemma parts_lanes v vs : all_ok (v :: vs) → has_parts v = true →
  ∃ p, parts_ok p ∧ lanes p = lanes_of (v :: vs) ∧ names p = names_of (v :: vs) ∧
    parts visit (v :: vs) ≈ (go ← before visit (v :: vs); mret (if go : bool then Some p else None)).
Proof.
  intros Hok Hp. pose proof (lanes_of_ok _ Hok) as Hlok. unfold parts.
  destruct v as [| | | |first|first|known first|items|ty fs|ty o fs|fn ups| | | | | | | | | | | |]; try done; cbn [runs before of_many] in *; cbv zeta.
  - pose proof (next_runs_spec _ (more_start _ _ Hok)) as (Hl & Hm & Hh). rewrite lane_start in Hl.
    set (ls := next_runs _) in *.
    assert (fst <$> ls = lane <$> ls ∨ forallb is_nil (snd <$> ls) = false) as Hone.
    { destruct (forallb is_nil (snd <$> ls)) eqn:E; [left|by right]. rewrite forallb_Forall, Forall_fmap in E.
      clear -E. induction E as [|[r [|]] ls' He _ IH]; [done| |done]. rewrite !fmap_cons, IH. unfold lane at 2. cbn. by rewrite app_nil_r. }
    exists (if forallb is_nil (snd <$> ls) then PValues (fst <$> ls) else PElements ls).
    split_and!.
    + destruct (forallb is_nil _) eqn:E; split; cbn [lanes]; try done; [|by rewrite Hl].
      destruct Hone as [->|]; [by rewrite Hl|done].
    + destruct (forallb is_nil _) eqn:E; cbn [lanes]; [|by rewrite Hl]. destruct Hone as [->|]; [by rewrite Hl|done].
    + by destruct (forallb is_nil _).
    + rewrite bind_bind. apply bind_same; [done|]. by intros [].
  - exists (PEntries (entries_or first <$> VMap first :: vs) None). split_and!; [split; [|done]|..]; cbn [lanes].
    + rewrite <-list_fmap_compose. done.
    + by rewrite <-list_fmap_compose.
    + done.
    + rewrite ret_bind. rewrite bind_bind. apply bind_same; [done|]. done.
  - exists (PMembers (members_or first <$> VSet known first :: vs)). split_and!; [split; done|done..|].
    rewrite ret_bind, bind_bind. apply bind_same; [done|]. done.
  - exists (PValues (run_of <$> VTuple items :: vs)). split_and!; [split; done|done..|].
    rewrite !bind_bind. apply bind_same; [done|]. done.
  - exists (PFields ty (fields_of <$> VRecord ty fs :: vs)). split_and!; [split; done|done..|]. done.
  - exists (PValues (run_of <$> VVariant ty o fs :: vs)). split_and!; [split; done|done..|].
    rewrite !bind_bind. apply bind_same; [done|]. done.
  - exists (PValues (run_of <$> VVmClosure fn ups :: vs)). split_and!; [split; done|done..|].
    rewrite !bind_bind. apply bind_same; [done|]. done.
Qed.

(** A walk ends where some values have a part left and others have
    none. *)
Hypothesis uneven_ends : ∀ ended, true ∈ ended ∧ false ∈ ended → ∀ k : W unit, (uneven visit ended;; k) ≈ uneven visit ended.

(** What is left to do of parts, and of those that wait. *)
Definition rest (p : Parts) : W unit := over (λ vs _, full vs) full (names p) (lanes p) 0.
Definition rests (ps : list Parts) : W unit := foldr (λ p k, rest p;; k) (mret tt) ps.

Definition left_size (p : Parts) : nat := sum_list (vsize <$> default [] (head (lanes p))).
Definition cost (current : Parts) (waiting : list Parts) : nat :=
  2 * left_size current + 1 + sum_list_with (λ p, 2 * left_size p + 1) waiting.

Lemma lanes_size v vs p : has_parts v = true → lanes p = lanes_of (v :: vs) → left_size p < vsize v.
Proof. intros Hp Hl. unfold left_size. rewrite Hl, lanes_of_head by done. apply vsize_parts. Qed.

Lemma is_nil_mixed (rs : list (list Value)) : ¬ Forall (λ r, r = []) rs → ¬ Forall (λ r, r ≠ []) rs →
  true ∈ is_nil <$> rs ∧ false ∈ is_nil <$> rs.
Proof.
  intros Hn Hs. split.
  - destruct (decide (true ∈ is_nil <$> rs)) as [|Hni]; [done|]. destruct Hs. apply Forall_forall.
    intros r Hr ->. apply Hni. by apply (list_elem_of_fmap_2 is_nil _ _ Hr).
  - destruct (decide (false ∈ is_nil <$> rs)) as [|Hni]; [done|]. destruct Hn. apply Forall_forall.
    intros [|x r] Hr; [done|]. destruct Hni. by apply (list_elem_of_fmap_2 is_nil _ _ Hr).
Qed.

Lemma far_loop_rest fuel current waiting :
  parts_ok current → Forall parts_ok waiting → cost current waiting <= fuel →
  far_loop types visit fuel current waiting ≈ (rest current;; rests waiting).
Proof.
  revert current waiting. induction fuel as [|fuel IH]; intros p ws Hp Hws Hc; [unfold cost in Hc; lia|].
  cbn [far_loop]. pose proof (parts_next_ok p Hp) as Hn. rewrite parts_name_lanes. unfold rest at 1.
  destruct (parts_next p) as [next p'] eqn:Ep. cbn [fst snd] in Hn. destruct next as [hs| |ended].
  2: { rewrite over_done, tell_done, !ret_bind by done.
       destruct ws as [|w ws]; [done|]. apply Forall_cons in Hws as [Hw Hws].
       rewrite IH; [done..|]. unfold cost in *. cbn [sum_list_with] in Hc. lia. }
  2: { destruct Hn as (-> & Hn & Hs). rewrite over_some, bind_bind by done. apply bind_same; [done|intros _].
       symmetry. apply uneven_ends; by apply is_nil_mixed. }
  destruct Hn as (x & hs' & t & ts & -> & Hl' & Hl & Hz & Hp' & Hnm).
  assert (left_size p = vsize x + left_size p') as Hsize by (unfold left_size; by rewrite Hz, Hl').
  pose proof (vsize_pos x) as Hx0.
  assert (∀ k : W unit, (rest p';; k) = (over (λ vs _, full vs) full (names p) (t :: ts) 0;; k)) as Hrest
    by (intros; unfold rest; by rewrite Hnm, Hl').
  rewrite Hz, over_cons, bind_bind by done. apply bind_same; [done|intros _].
  unfold part. rewrite !bind_bind. apply bind_same; [done|intros _]. rewrite <-Hrest.
  destruct (has_parts x) eqn:Ex; [|rewrite ret_bind; apply IH; unfold cost in *; (done || lia)].
  assert (all_ok (x :: hs')) as Hxok.
  { destruct Hp as [Hok _]. rewrite Hz in Hok. apply zip_cons_ok in Hok as [? _]; [done|cbn; lia]. }
  destruct (parts_lanes x hs' Hxok Ex) as (q & Hq & Hql & Hqn & ->). rewrite below_both, full_step, !bind_bind by done.
  apply bind_same; [done|]. intros []; [|rewrite !ret_bind; apply IH; unfold cost in *; (done || lia)].
  rewrite ret_bind. rewrite <-Hql, <-Hqn. fold (rest q). pose proof (lanes_size _ _ _ Ex Hql) as Hqs.
  rewrite IH; [|done|by destruct (parts_is_done p'); [|constructor]|].
  - apply bind_same; [done|intros _]. destruct (parts_is_done p') eqn:Ed; [|done].
    unfold rest. rewrite over_done by (by apply parts_done). done.
  - unfold cost in *. destruct (parts_is_done p'); cbn [sum_list_with]; lia.
Qed.

(** Going through the parts with a stack is going through them. *)
Lemma through_far_full v vs : all_ok (v :: vs) → has_parts v = true → through_far types visit (v :: vs) ≈ full (v :: vs).
Proof.
  intros Hok Hp. unfold through_far. destruct (parts_lanes v vs Hok Hp) as (q & Hq & Hql & Hqn & ->).
  rewrite full_step, bind_bind by done. apply bind_same; [done|]. intros []; [|done]. rewrite ret_bind.
  rewrite far_loop_rest; [|done|done|].
  - cbn [rests foldr]. rewrite bind_ret. unfold rest. by rewrite Hql, Hqn.
  - pose proof (lanes_size _ _ _ Hp Hql). unfold cost, far_fuel. cbn. lia.
Qed.

(** And so is going down by calls, as long as calls are left. *)
Lemma through_full levels v vs depth : all_ok (v :: vs) → has_parts v = true → NEAR < levels + depth →
  0 < levels → through types visit levels (v :: vs) depth ≈ full (v :: vs).
Proof.
  revert v vs depth. induction levels as [|levels IH]; intros v vs depth Hok Hp Hl Hpos; [lia|].
  rewrite through_step, full_step by done. apply bind_same; [done|]. intros []; [|done].
  apply over_same with (P := λ _, True).
  - by apply lanes_of_ok.
  - by apply Forall_true.
  - intros x hs _ Hxok Hxp. rewrite below_both. unfold below. case_decide; [|by apply through_far_full].
    apply IH; [done|done|lia|lia].
Qed.

(** The walk, without levels. *)
Definition whole (values : list Value) : W unit :=
  heads visit values;; match values with v :: _ => if has_parts v then full values else mret tt | [] => mret tt end.

Lemma walk_whole v vs : all_ok (v :: vs) → walk types visit (v :: vs) ≈ whole (v :: vs).
Proof.
  intros Hok. unfold walk, whole. apply bind_same; [done|intros _]. destruct (has_parts v) eqn:E; [|done].
  apply through_full; [done|done|lia|lia].
Qed.

(** One level of it. *)
Lemma whole_step v vs : all_ok (v :: vs) → has_parts v = true →
  whole (v :: vs) ≈
    (heads visit (v :: vs);;
     go ← before visit (v :: vs);
     if go : bool then over (λ vs _, full vs) full (names_of (v :: vs)) (lanes_of (v :: vs)) 0 else mret tt).
Proof. intros Hok Hp. unfold whole. rewrite Hp. apply bind_same; [done|intros _]. by apply full_step. Qed.

Lemma part_whole values depth : part visit (λ vs _, full vs) full values depth = whole values.
Proof. unfold part, whole. destruct values as [|v vs]; [done|]. by rewrite below_both. Qed.

End far.
