(* ===== verification/KeyOrder.v ===== *)
(** * The order and the equality of values

    The three visitors on the walk of the lanes ([whole]), against the
    trees of the values. *)

From S2P Require Import Prelude Int64 Float Key KeyWalk KeyFar.

Open Scope nat_scope.

(** ** Ints beside elements *)

Lemma int_tree_cmp n m : tree_cmp (int_tree n) (int_tree m) = (n ?= m)%Z.
Proof. unfold int_tree. cbn. by rewrite !then_eq. Qed.

Lemma lex_seqZ n m m' : (0 <= m)%Z → (0 <= m')%Z →
  lex tree_cmp (int_tree <$> seqZ n m) (int_tree <$> seqZ n m') = (m ?= m')%Z.
Proof.
  intros Hm. revert n m'. pattern m. apply natlike_ind; [..|done]; clear m Hm.
  - intros n m' Hm'. destruct (decide (m' = 0)%Z) as [->|]; [done|]. rewrite (seqZ_cons n m'), (seqZ_nil n 0) by lia.
    transitivity Lt; [done|]. symmetry. apply Z.compare_lt_iff. lia.
  - intros m Hm IH n m' Hm'. rewrite (seqZ_cons n (Z.succ m)) by lia.
    destruct (decide (m' = 0)%Z) as [->|]; [transitivity Gt; [done|symmetry; apply Z.compare_gt_iff; lia]|].
    rewrite (seqZ_cons n m') by lia. rewrite !fmap_cons. cbn [lex]. rewrite int_tree_cmp, Z.compare_refl. cbn [then_].
    rewrite Z.pred_succ, IH by lia.
    destruct (Z.compare_spec m (Z.pred m')); symmetry; [apply Z.compare_eq_iff|apply Z.compare_lt_iff|apply Z.compare_gt_iff]; lia.
Qed.

(** Two ranges by their ends. *)
Lemma lex_ranges alo ahi blo bhi : (alo <= ahi)%Z → (blo <= bhi)%Z →
  lex tree_cmp (int_tree <$> seqZ alo (ahi - alo + 1)) (int_tree <$> seqZ blo (bhi - blo + 1)) =
    then_ (alo ?= blo)%Z (ahi ?= bhi)%Z.
Proof.
  intros Ha Hb. destruct (Z.compare_spec alo blo) as [->|Hlt|Hlt]; cbn [then_].
  - rewrite lex_seqZ by lia.
    destruct (Z.compare_spec ahi bhi); [apply Z.compare_eq_iff|apply Z.compare_lt_iff|apply Z.compare_gt_iff]; lia.
  - rewrite (seqZ_cons alo), (seqZ_cons blo), !fmap_cons by lia. cbn [lex]. rewrite int_tree_cmp.
    by rewrite (proj2 (Z.compare_lt_iff _ _) Hlt).
  - rewrite (seqZ_cons alo), (seqZ_cons blo), !fmap_cons by lia. cbn [lex]. rewrite int_tree_cmp.
    by rewrite (proj2 (Z.compare_gt_iff _ _) Hlt).
Qed.

Section values.
Context (types : nat → TypeInfo).
Notation tree := (tree types).
Notation value_is_ok := (λ v, value_ok v = true).

(** The trees of the elements of a list. *)
Definition elem_trees (l : ListOf Value) : list Tree :=
  match l with Held rs => tree <$> concat rs | Ints lo hi => int_tree <$> seqZ lo (hi - lo + 1) end.

Lemma tree_list l : tree (VList l) = Node [5]%Z (elem_trees l).
Proof. destruct l as [rs|lo hi]; [|done]. by rewrite (tree_parts types (VList (Held rs))). Qed.

Section asked.
Context (cmp : Value → Value → option comparison).
Hypothesis cmp_int : ∀ item n, value_ok item = true → in_i64 n = true → cmp item (VInt n) = Some (tree_cmp (tree item) (int_tree n)).

Lemma held_ints_lex items n hi : Forall value_is_ok items → (i64_min <= n)%Z → (hi <= i64_max)%Z → (n <= hi + 1)%Z →
  ∃ c, held_ints cmp items n hi = Some c ∧
    match c with Eq => (len items ?= hi - n + 1)%Z | unequal => unequal end =
      lex tree_cmp (tree <$> items) (int_tree <$> seqZ n (hi - n + 1)).
Proof.
  intros Hok. revert n. induction Hok as [|x items Hx Hok IH]; intros n Hn Hhi Hle; cbn [held_ints].
  - exists Eq. split; [done|]. destruct (decide (n = hi + 1)%Z) as [->|].
    + rewrite seqZ_nil by lia. replace (hi - (hi + 1) + 1)%Z with 0%Z by lia. done.
    + rewrite seqZ_cons by lia. transitivity Lt; [apply Z.compare_lt_iff; unfold len; cbn [length]; lia|done].
  - destruct (Z.ltb_spec hi n) as [Hlt|Hge].
    + exists Eq. split; [done|]. rewrite seqZ_nil by lia. transitivity Gt; [apply Z.compare_gt_iff; unfold len; cbn [length]; lia|done].
    + rewrite cmp_int by (done || by apply in_i64_spec; lia). cbn.
      destruct (IH (n + 1)%Z) as (c & Hc & He); [lia..|]. rewrite seqZ_cons by lia. cbn [fmap list_fmap lex].
      replace (Z.succ n) with (n + 1)%Z by lia. replace (Z.pred (hi - n + 1)) with (hi - (n + 1) + 1)%Z by lia.
      destruct (tree_cmp (tree x) (int_tree n)); cbn [then_]; [|by exists Lt|by exists Gt].
      exists c. split; [done|]. rewrite <-He. destruct c; [|done..]. unfold len. cbn [length].
      destruct (Z.compare_spec (Z.of_nat (length items)) (hi - (n + 1) + 1)); [apply Z.compare_eq_iff|apply Z.compare_lt_iff|apply Z.compare_gt_iff]; lia.
Qed.

Lemma range_bounds lo hi : value_ok (VList (Ints lo hi)) = true →
  (i64_min <= lo)%Z ∧ (lo <= hi)%Z ∧ (hi <= i64_max)%Z ∧ (hi - lo < usize_max)%Z.
Proof. cbn. rewrite !andb_true_iff, !in_i64_spec, Z.leb_le, Z.ltb_lt. naive_solver. Qed.

Lemma cmp_held_ints_lex rs lo hi :
  value_ok (VList (Held rs)) = true → value_ok (VList (Ints lo hi)) = true →
  cmp_held_ints cmp (concat rs) lo hi = Some (lex tree_cmp (tree <$> concat rs) (int_tree <$> seqZ lo (hi - lo + 1))).
Proof.
  intros Hh (H1 & H2 & H3 & _)%range_bounds. apply value_ok_parts in Hh. cbn in Hh.
  destruct (held_ints_lex (concat rs) lo hi Hh) as (c & Hc & He); [lia..|].
  unfold cmp_held_ints. rewrite Hc. cbn. unfold abs_diff. rewrite Z.abs_eq by lia. by rewrite <-He.
Qed.

(** A list that holds no element is ordered by its ends as by its
    elements. *)
Lemma cmp_without_elements_lex a b : value_ok (VList a) = true → value_ok (VList b) = true →
  cmp_without_elements cmp a b =
    match a, b with
    | Held _, Held _ => Some None
    | _, _ => Some (Some (lex tree_cmp (elem_trees a) (elem_trees b)))
    end.
Proof.
  intros Ha Hb. destruct a as [rs|lo hi], b as [rs'|lo' hi']; cbn [cmp_without_elements elem_trees]; [done|..].
  - by rewrite cmp_held_ints_lex.
  - rewrite cmp_held_ints_lex by done. cbn. do 2 f_equal. symmetry. apply lex_antisym, Forall_true.
    intros. apply tree_cmp_antisym.
  - apply range_bounds in Ha, Hb. rewrite lex_ranges by lia. done.
Qed.

End asked.

(** ** Two lanes *)

(** Values of one head are of one kind. *)
Lemma same_rank a b : hkey types a = hkey types b → rank a = rank b.
Proof. unfold hkey. intros [= H _]. lia. Qed.

Lemma lanes_of_two a b : rank a = rank b → has_parts a = true → lanes_of [a; b] = [parts_of a; parts_of b].
Proof. by destruct a; try done; destruct b. Qed.

Lemma no_parts_tree v : has_parts v = false → tree v = Node (hkey types v) [].
Proof. by destruct v. Qed.

(** A visitor whose steps say what an order says: it goes on while what
    it sees is equal, and may stop early where lengths differ. *)
Section two.
Context {X : Type} (visit : Visit unit X) (stop : comparison → X).

Definition flow_of (c : comparison) : Flow X unit := match c with Eq => Continue tt | _ => Break (stop c) end.
Definition flow_if {A} (a : A) (c : comparison) : Flow X A := match c with Eq => Continue a | _ => Break (stop c) end.

(** It goes on, or stops as at any difference. *)
Definition on_or_unequal {A} (m : Walk unit X A) (a : A) (unequal : Prop) : Prop :=
  m tt = (tt, Continue a) ∨ (unequal ∧ ∀ c, c ≠ Eq → m tt = (tt, Break (stop c))).

Record tells_order : Prop := {
  t_names : NAMES visit = false;
  t_heads a b : heads visit [a; b] tt = (tt, flow_of (cmp_heads types a b));
  t_lens n m : on_or_unequal (lens visit [n; m]) tt (n ≠ m);
  t_held rs rs' : on_or_unequal (lists visit [Held rs; Held rs']) true (length (concat rs) ≠ length (concat rs'));
  t_range a b : value_ok (VList a) = true → value_ok (VList b) = true →
    range_ends a ≠ None ∨ range_ends b ≠ None →
    lists visit [a; b] tt = (tt, flow_if false (lex tree_cmp (elem_trees a) (elem_trees b)));
  t_uneven ended : true ∈ ended ∧ false ∈ ended → ∀ k : Walk unit X unit, (uneven visit ended;; k) ≈ uneven visit ended;
  t_shorter : uneven visit [true; false] tt = (tt, flow_of Lt);
  t_longer : uneven visit [false; true] tt = (tt, flow_of Gt);
}.
Context (Hv : tells_order).

Lemma tell_nothing nm : tell visit nm = mret tt.
Proof. unfold tell. rewrite (t_names Hv). by destruct nm. Qed.


Notation full := (full types visit).
Notation whole := (whole types visit).

Definition tells (a b : Value) : Prop := whole [a; b] tt = (tt, flow_of (tree_cmp (tree a) (tree b))).

Lemma over_two names la lb :
  Forall (λ x, ∀ y, value_ok x = true → value_ok y = true → tells x y) la →
  Forall value_is_ok la → Forall value_is_ok lb →
  over types visit (λ vs _, full vs) full names [la; lb] 0 tt = (tt, flow_of (lex tree_cmp (tree <$> la) (tree <$> lb))).
Proof.
  intros Hla. revert lb. induction Hla as [|x la Hx _ IH]; intros [|y lb] Ha Hb.
  - rewrite over_done by (by repeat constructor). done.
  - rewrite over_some; [|intros [_ [? _]%Forall_cons]%Forall_cons; done|intros [? _]%Forall_cons; done].
    rewrite tell_nothing. unfold mbind, walk_bind. cbn. by rewrite (t_shorter Hv).
  - rewrite over_some; [|intros [? _]%Forall_cons; done|intros [_ [? _]%Forall_cons]%Forall_cons; done].
    rewrite tell_nothing. unfold mbind, walk_bind. cbn. by rewrite (t_longer Hv).
  - apply Forall_cons in Ha as [Hax Ha], Hb as [Hby Hb].
    rewrite (over_cons types visit _ _ names x [y] la [lb]) by done. rewrite tell_nothing, part_whole.
    unfold mbind, walk_bind at 1. cbn [mret walk_ret]. unfold walk_ret, walk_bind.
    rewrite (Hx y Hax Hby), !fmap_cons. cbn [lex]. destruct (tree_cmp (tree x) (tree y)); cbn [flow_of then_]; [|done..].
    by apply IH.
Qed.

(** The sequences of parts of two values with a number of them that
    differs are unequal. *)
Lemma lex_unequal (l m : list Value) : length l ≠ length m → lex tree_cmp (tree <$> l) (tree <$> m) ≠ Eq.
Proof.
  intros Hl He. apply Hl. rewrite lex_eq in He by (apply Forall_true; intros; apply tree_cmp_eq).
  rewrite <-(length_fmap tree l), He. apply length_fmap.
Qed.

(** The step before the parts goes on to them, or has the answer. *)
Lemma before_two a b : rank a = rank b → has_parts a = true → value_ok a = true → value_ok b = true →
  is_range a || is_range b = false →
  before visit [a; b] tt = (tt, Continue true) ∨
  (length (parts_of a) ≠ length (parts_of b) ∧ ∀ c, c ≠ Eq → before visit [a; b] tt = (tt, Break (stop c))).
Proof.
  intros Hr Hp Ha Hb Hn.
  assert (∀ A (l m : list A) (k : Walk unit X bool), (k = (lens visit [len l; len m];; mret true)) →
    k tt = (tt, Continue true) ∨ (length l ≠ length m ∧ ∀ c, c ≠ Eq → k tt = (tt, Break (stop c)))) as Hlens.
  { intros A l m k ->. unfold mbind, walk_bind. destruct (t_lens Hv (len l) (len m)) as [->|[Hne Hs]]; [by left|right].
    split; [unfold len in Hne; congruence|]. intros c Hc. by rewrite (Hs c Hc). }
  assert (∀ (es fs : list (Value * Value)), length es ≠ length fs → length (flat es) ≠ length (flat fs)) as Hflat
    by (intros es fs ?; rewrite !length_flat; lia).
  destruct a as [| | | |la|es|? ms|l|? l|? ? l|? l| | | | | | | | | | | |]; try done;
    destruct b as [| | | |lb|fs|? ms'|l'|? l'|? ? l'|? l'| | | | | | | | | | | |]; try done; try (by left).
  - destruct la as [rs|], lb as [rs'|]; try done. apply (t_held Hv).
  - destruct (Hlens _ es fs (before visit [VMap es; VMap fs]) eq_refl) as [H|[Hne H]]; [by left|right].
    split; [by apply Hflat|exact H].
  - exact (Hlens _ ms ms' _ eq_refl).
  - exact (Hlens _ l l' _ eq_refl).
  - exact (Hlens _ l l' _ eq_refl).
  - exact (Hlens _ l l' _ eq_refl).
Qed.

Lemma whole_tells a b : value_ok a = true → value_ok b = true → tells a b.
Proof.
  revert b. induction a as [a IH] using value_ind_parts. intros b Ha Hb. unfold tells.
  assert (all_ok [a; b]) as Hok by (apply all_value_ok; by repeat constructor).
  unfold KeyFar.whole, mbind at 1, walk_bind at 1. rewrite (t_heads Hv), cmp_heads_key.
  assert (tree_cmp (tree a) (tree b) = then_ (lexZ (hkey types a) (hkey types b))
    (lex tree_cmp (match tree a with Node _ ps => ps end) (match tree b with Node _ ps => ps end))) as Htree by (by destruct a, b).
  rewrite Htree. destruct (lexZ (hkey types a) (hkey types b)) eqn:Eh; [|done..]. cbn [then_ flow_of].
  apply lexZ_eq, same_rank in Eh. destruct (has_parts a) eqn:Ep.
  2: { assert (has_parts b = false) as Epb by (destruct a; try done; by destruct b).
       by rewrite !no_parts_tree. }
  rewrite (full_step types visit a [b]) by done. unfold mbind, walk_bind.
  destruct (is_range a || is_range b) eqn:Er.
  - destruct a as [| | | |la| | | | | | | | | | | | | | | | | |]; try done; [|by destruct b..].
    destruct b as [| | | |lb| | | | | | | | | | | | | | | | | |]; try done.
    rewrite !tree_list. cbn [before]. change (list_or la <$> [VList la; VList lb]) with [la; lb].
    rewrite (t_range Hv) by (done || (destruct la, lb; cbn in *; by (left + right))).
    by destruct (lex tree_cmp (elem_trees la) (elem_trees lb)).
  - rewrite lanes_of_two by done. apply orb_false_iff in Er as [Er1 Er2]. rewrite !tree_parts by done.
    destruct (before_two a b Eh Ep Ha Hb) as [->|[Hne Hs]]; [by rewrite Er1, Er2|..].
    + apply over_two; [done|by apply value_ok_parts..].
    + apply lex_unequal in Hne. rewrite (Hs _ Hne). clear Hs Htree. by destruct (lex tree_cmp (tree <$> parts_of a) (tree <$> parts_of b)).
Qed.

End two.

(** ** Order and equality *)

Lemma mixed_cases ended : true ∈ ended ∧ false ∈ ended → ended ≠ [] ∧ ∀ b, ended ≠ [b].
Proof.
  intros [Ht Hf]. split; [intros ->; by apply elem_of_nil in Ht|]. intros b ->.
  apply list_elem_of_singleton in Ht, Hf. congruence.
Qed.

Section tellers.
Context (cmp : Value → Value → option comparison).
Hypothesis cmp_int : ∀ item n, value_ok item = true → in_i64 n = true → cmp item (VInt n) = Some (tree_cmp (tree item) (int_tree n)).

Lemma order_tells : tells_order (Order types cmp) id.
Proof.
  split; try done.
  - intros a b. cbn. by destruct (cmp_heads types a b).
  - intros n m. by left.
  - intros rs rs'. by left.
  - intros a b Ha Hb Hr. cbn. rewrite cmp_without_elements_lex by done.
    destruct a, b; try (by destruct Hr); by destruct (lex tree_cmp _ _).
  - intros ended [Hn _]%mixed_cases k s. by destruct ended.
Qed.

Lemma equal_tells : tells_order (Equal types cmp) (λ _, tt).
Proof.
  split; try done.
  - intros a b. cbn. by destruct (cmp_heads types a b).
  - intros n m. unfold on_or_unequal. cbn. destruct (Z.eqb_spec n m); [by left|right; by split].
  - intros rs rs'. unfold on_or_unequal. cbn. destruct (Z.eqb_spec (Z.of_nat (length (concat rs))) (Z.of_nat (length (concat rs'))));
      [by left|right; split; [congruence|done]].
  - intros a b Ha Hb Hr. cbn. rewrite cmp_without_elements_lex by done.
    destruct a, b; try (by destruct Hr); by destruct (lex tree_cmp _ _).
Qed.

Lemma cmp_at_tree a b : value_ok a = true → value_ok b = true → cmp_at types cmp a b = Some (tree_cmp (tree a) (tree b)).
Proof.
  intros Ha Hb. unfold cmp_at.
  rewrite (walk_whole types (Order types cmp)) by (apply order_tells || (apply all_value_ok; by repeat constructor)).
  rewrite (whole_tells _ _ order_tells a b Ha Hb). by destruct (tree_cmp _ _).
Qed.
End tellers.
End values.

(** * The hash of values

    What the walk feeds a hasher is told by the tree of the value: equal
    values hash alike, however their lists are kept. *)

Section hash.
Context (types : nat → TypeInfo).
Notation tree := (tree types).
Notation elem_trees := (elem_trees types).
Notation value_is_ok := (λ v, value_ok v = true).

(** Two descriptions of one declared type name the same fields. *)
Definition types_ok : Prop :=
  ∀ a b, ty_id types a = ty_id types b → is_anon (types a) = false → fields (types a) = fields (types b).

(** ** Heads *)
Lemma of_N_inj (s r : Text) : Z.of_N <$> s = Z.of_N <$> r → s = r.
Proof. apply list_fmap_eq_inj. intros ??. lia. Qed.

Lemma hash_head_key a b : value_ok a = true → value_ok b = true →
  hkey types a = hkey types b → hash_head types a = hash_head types b.
Proof.
  intros Ha Hb He. pose proof (same_rank types a b He) as Hr. destruct a; destruct b; try done; unfold hkey in He;
    cbn -[texts total_key] in He; unfold hash_head;
    try (injection He as He; apply of_N_inj in He; by subst);
    try (injection He as He; repeat f_equal; lia).
  - injection He as He. apply float_ok_spec in Ha as (Ha & _), Hb as (Hb & _). repeat f_equal. by apply total_key_inj.
  - by repeat case_match.
  - injection He as He He'. assert (ty_id types ty = ty_id types ty0) as -> by lia.
    assert (ordinal = ordinal0) as -> by lia. done.
  - injection He as He. assert (ty_id types ty = ty_id types ty0) as -> by lia. done.
  - injection He as He He'. apply N2Z.inj in He. by rewrite He, He'.
Qed.

(** ** Lists of Ints each one more than the one before *)
Lemma tree_int_inv v n : tree v = int_tree n → v = VInt n.
Proof.
  intros He. assert (hkey types v = [2; n]%Z) as Hk.
  { transitivity (match tree v with Node h _ => h end); [by destruct v|by rewrite He]. }
  unfold hkey in Hk. destruct v; simplify_eq/=; done.
Qed.

Lemma ascending_from_spec last_ items hi :
  (i64_min <= last_ <= i64_max)%Z → Forall value_is_ok items →
  ascending_from last_ items = Some hi ↔
    (last_ <= hi)%Z ∧ tree <$> items = int_tree <$> seqZ (last_ + 1) (hi - last_).
Proof.
  intros Hl Hok. revert last_ Hl. induction Hok as [|x items Hx _ IH]; intros last_ Hl; cbn [ascending_from].
  - split.
    + intros [= ->]. split; [lia|]. rewrite seqZ_nil by lia. done.
    + intros [Hle He]. destruct (decide (last_ = hi)) as [->|]; [done|]. by rewrite seqZ_cons in He by lia.
  - split.
    + destruct x as [n| | | | | | | | | | | | | | | | | | | | | |]; try done. case_decide as Ec; [|done].
      assert (n = last_ + 1)%Z as ->. { unfold checked_add, checked in Ec. by case_match; simplify_eq. }
      cbn in Hx. apply in_i64_spec in Hx. intros [Hle He]%IH; [|lia]. split; [lia|].
      rewrite seqZ_cons by lia. rewrite !fmap_cons, He. f_equal. do 2 f_equal; lia.
    + intros [Hle He]. destruct (decide (last_ = hi)) as [->|]; [by rewrite seqZ_nil in He by lia|].
      rewrite seqZ_cons in He by lia. rewrite !fmap_cons in He. injection He as He1 He2.
      apply tree_int_inv in He1 as ->. cbn in Hx. apply in_i64_spec in Hx.
      rewrite decide_True by (unfold checked_add; by rewrite checked_in by lia).
      apply IH; [lia|]. split; [lia|]. rewrite He2. do 2 f_equal; lia.
Qed.

Lemma ascending_ints_spec l lo hi : value_ok (VList l) = true →
  ascending_ints l = Some (lo, hi) ↔ (lo <= hi)%Z ∧ elem_trees l = int_tree <$> seqZ lo (hi - lo + 1).
Proof.
  intros Hok. destruct l as [rs|lo' hi']; cbn [ascending_ints KeyOrder.elem_trees].
  - apply value_ok_parts in Hok. cbn in Hok. destruct Hok as [|x items Hx Hok].
    + split; [done|]. intros [Hle He]. by rewrite seqZ_cons in He by lia.
    + split.
      * destruct x as [n| | | | | | | | | | | | | | | | | | | | | |]; try done. cbn in Hx. apply in_i64_spec in Hx.
        destruct (ascending_from n items) as [h|] eqn:Ea; [|done]. cbn. intros [= -> ->].
        apply ascending_from_spec in Ea as [Hle He]; [|done..]. split; [done|].
        rewrite seqZ_cons by lia. rewrite !fmap_cons, He. f_equal. do 2 f_equal; lia.
      * intros [Hle He]. rewrite seqZ_cons in He by lia. rewrite !fmap_cons in He. injection He as He1 He2.
        apply tree_int_inv in He1 as ->. cbn in Hx. apply in_i64_spec in Hx.
        rewrite (proj2 (ascending_from_spec lo items hi Hx Hok)); [done|]. split; [done|].
        rewrite He2. do 2 f_equal; lia.
  - apply range_bounds in Hok. split; [intros [= -> ->]; split; [lia|done]|]. intros [Hle He].
    assert (lex tree_cmp (int_tree <$> seqZ lo' (hi' - lo' + 1)) (int_tree <$> seqZ lo (hi - lo + 1)) = Eq) as Hl.
    { apply lex_eq; [|done]. apply Forall_true. intros. apply tree_cmp_eq. }
    rewrite lex_ranges in Hl by lia. destruct (Z.compare_spec lo' lo) as [->| |]; try done.
    destruct (Z.compare_spec hi' hi) as [->| |]; done.
Qed.

Lemma ascending_ints_same l l' : value_ok (VList l) = true → value_ok (VList l') = true →
  elem_trees l = elem_trees l' → ascending_ints l = ascending_ints l'.
Proof.
  intros Hl Hl' He. destruct (ascending_ints l) as [[lo hi]|] eqn:E.
  - symmetry. apply ascending_ints_spec; [done|]. rewrite <-He. by apply ascending_ints_spec.
  - destruct (ascending_ints l') as [[lo hi]|] eqn:E'; [|done]. apply ascending_ints_spec in E'; [|done].
    rewrite <-He in E'. apply ascending_ints_spec in E'; [|done]. congruence.
Qed.

Lemma list_len_trees l : value_ok (VList l) = true → list_len l = Z.of_nat (length (elem_trees l)).
Proof.
  destruct l as [rs|lo hi]; cbn [list_len KeyOrder.elem_trees]; [by rewrite length_fmap|].
  intros (_ & Hle & _)%range_bounds. rewrite length_fmap, length_seqZ. unfold abs_diff. lia.
Qed.

(** ** What is fed *)
Notation visit := (Hashed types).
Notation full := (full types visit).
Notation whole := (whole types visit).

(** The walk through a value feeds so much, and goes on. *)
Definition feeds (m : Walk (list Feed) Empty_set unit) (fs : list Feed) : Prop := ∀ s, m s = (s ++ fs, Continue tt).

Lemma feeds_bind m k fs gs : feeds m fs → feeds k gs → feeds (m;; k) (fs ++ gs).
Proof. intros Hm Hk s. unfold mbind, walk_bind. rewrite Hm, Hk. by rewrite app_assoc. Qed.

Lemma feeds_same m m' fs : m ≈ m' → feeds m' fs → feeds m fs.
Proof. intros Hm Hf s. by rewrite Hm. Qed.

Lemma feeds_nothing : feeds (mret tt) [].
Proof. intros s. by rewrite app_nil_r. Qed.

Lemma hashed_uneven ended : true ∈ ended ∧ false ∈ ended →
  ∀ k : Walk (list Feed) Empty_set unit, (uneven visit ended;; k) ≈ uneven visit ended.
Proof. intros [Hn Hs]%mixed_cases k s. destruct ended as [|b [|]]; [done| |done]. by destruct (Hs b). Qed.

(** Two values feed alike. *)
Definition alike (a b : Value) : Prop := ∃ fs, feeds (whole [a]) fs ∧ feeds (whole [b]) fs.

Lemma over_one names names' la lb :
  (∀ n, (ty ← names; next_name types ty (replicate n VUnit)) = (ty ← names'; next_name types ty (replicate n VUnit))) →
  Forall2 alike la lb →
  ∃ fs, feeds (over types visit (λ vs _, full vs) full names [la] 0) fs ∧
    feeds (over types visit (λ vs _, full vs) full names' [lb] 0) fs.
Proof.
  intros Hn. induction 1 as [|x y la lb (fs & Hx & Hy) Hl (gs & IHa & IHb)].
  - exists []. split; (eapply feeds_same; [apply over_done; by repeat constructor|apply feeds_nothing]).
  - assert (∀ (names : option nat) x l, (ty ← names; next_name types ty (x :: l)) =
      (ty ← names; next_name types ty (replicate (S (length l)) VUnit))) as Hr
      by (intros [] ? ?; [|done]; cbn [mbind option_bind]; unfold next_name; by rewrite length_replicate).
    rewrite (over_cons types visit _ _ names x [] la []), (over_cons types visit _ _ names' y [] lb []) by done.
    rewrite !part_whole, !Hr. rewrite <-(Forall2_length _ _ _ Hl). rewrite Hn.
    assert (∃ hs, feeds (tell visit (ty ← names'; next_name types ty (replicate (S (length la)) VUnit))) hs) as [hs Hh].
    { destruct (ty ← names'; _) as [nm|]; [exists [FStr nm]; done|exists []; apply feeds_nothing]. }
    exists (hs ++ fs ++ gs). split; repeat apply feeds_bind; done.
Qed.

Lemma lanes_of_one a : has_parts a = true → lanes_of [a] = [parts_of a].
Proof. by destruct a. Qed.

Lemma texts_inj l m : texts l = texts m → l = m.
Proof.
  intros He. assert (lex (lex N.compare) l m = Eq) as Hl by (rewrite texts_lex; by apply lexZ_eq).
  revert Hl. rewrite lex_eq; [done|]. apply Forall_true. intros s r. apply lex_eq. apply Forall_true. intros. apply N.compare_eq_iff.
Qed.

(** Values of one head name their fields alike. *)
Lemma names_same a b n : types_ok → hkey types a = hkey types b →
  (ty ← names_of [a]; next_name types ty (replicate n VUnit)) = (ty ← names_of [b]; next_name types ty (replicate n VUnit)).
Proof.
  intros Ht He. pose proof (same_rank types a b He) as Hr. destruct a; destruct b; try done. cbn.
  unfold hkey in He. cbn -[texts] in He. injection He as Hid He.
  assert (ty_id types ty = ty_id types ty0) as Hid' by lia.
  assert (Key.fields (types ty) = Key.fields (types ty0)) as Hf; [|unfold next_name; by rewrite Hf].
  assert (is_anon (types ty) = is_anon (types ty0)) as Ha by (unfold is_anon; unfold ty_id in Hid'; by rewrite Hid').
  destruct (is_anon (types ty)) eqn:E; [|by apply Ht]. rewrite <-Ha in He. by apply texts_inj.
Qed.

(** The step before the parts of two values feeds alike and goes on
    alike. *)
Lemma before_alike a b : rank a = rank b → has_parts a = true → value_ok a = true → value_ok b = true →
  (if is_range a || is_range b then True else length (parts_of a) = length (parts_of b)) →
  (∀ l l', a = VList l → b = VList l' → elem_trees l = elem_trees l') →
  ∃ fs go, (∀ s, before visit [a] s = (s ++ fs, Continue go)) ∧ (∀ s, before visit [b] s = (s ++ fs, Continue go)) ∧
    (go = true → is_range a || is_range b = false).
Proof.
  intros Hr Hp Ha Hb Hlen Hlist.
  assert (∀ A B (l : list A) (m : list B), length l = length m → ∃ fs go,
    (∀ s, (lens visit [len l];; mret true) s = (s ++ fs, Continue go)) ∧
    (∀ s, (lens visit [len m];; mret true) s = (s ++ fs, Continue go)) ∧ (go = true → false = false)) as Hlens.
  { intros A B l m Hl. exists [FUsize (len l)], true. unfold len. by rewrite Hl. }
  destruct a as [| | | |l|es|? ms|l|? l|? ? l|? l| | | | | | | | | | | |]; try done;
    destruct b as [| | | |l'|es'|? ms'|l'|? l'|? ? l'|? l'| | | | | | | | | | | |]; try done;
    try (by apply Hlens).
  - clear Hlens. specialize (Hlist l l' eq_refl eq_refl). pose proof (ascending_ints_same l l' Ha Hb Hlist) as Hasc.
    pose proof (list_len_trees l Ha) as Hl. pose proof (list_len_trees l' Hb) as Hl'.
    exists (FUsize (list_len l) :: match ascending_ints l with Some (lo, _) => [FU8 1; FI64 lo] | None => [FU8 0] end),
      (match ascending_ints l with Some _ => false | None => true end).
    assert (∀ l s, before visit [VList l] s = (s ++ FUsize (list_len l) :: match ascending_ints l with Some (lo, _) => [FU8 1; FI64 lo] | None => [FU8 0] end,
      Continue (match ascending_ints l with Some _ => false | None => true end))) as Hb'.
    { intros m s. cbn. unfold mbind, walk_bind, feed. destruct (ascending_ints m) as [[lo hi]|]; cbn; by rewrite <-app_assoc. }
    split; [apply Hb'|]. split.
    + intros s. by rewrite Hb', <-Hasc, Hl, Hl', Hlist.
    + destruct (ascending_ints l) eqn:E; [done|]. intros _. destruct l; [|done]. destruct l'; [done|]. by rewrite Hasc in E.
  - apply (Hlens _ _ es es'). cbn in Hlen. rewrite !length_flat in Hlen. lia.
  - exists [], true. split_and!; try done; intros s; by rewrite app_nil_r.
Qed.

Lemma hash_alike a b : types_ok → value_ok a = true → value_ok b = true → tree a = tree b → alike a b.
Proof.
  intros Ht. revert b. induction a as [a IH] using value_ind_parts. intros b Ha Hb He.
  assert (hkey types a = hkey types b) as Hk.
  { transitivity (match tree a with Node h _ => h end); [by destruct a|rewrite He; by destruct b]. }
  pose proof (same_rank types a b Hk) as Hr.
  assert (feeds (heads visit [a]) (hash_head types a) ∧ feeds (heads visit [b]) (hash_head types a)) as [Hfa Hfb].
  { rewrite (hash_head_key a b Ha Hb Hk) at 2. done. }
  destruct (has_parts a) eqn:Ep.
  2: { assert (has_parts b = false) as Epb by (destruct a; try done; by destruct b).
       exists (hash_head types a ++ []). unfold KeyFar.whole. rewrite Ep, Epb. split; (apply feeds_bind; [done|apply feeds_nothing]). }
  assert (has_parts b = true) as Epb by (destruct a; try done; by destruct b).
  assert (∀ l l', a = VList l → b = VList l' → elem_trees l = elem_trees l') as Hlist.
  { intros l l' -> ->. rewrite !tree_list in He. by injection He. }
  assert (if is_range a || is_range b then True else Forall2 alike (parts_of a) (parts_of b)) as Hparts.
  { destruct (is_range a || is_range b) eqn:Er; [done|]. apply orb_false_iff in Er as [Er1 Er2].
    rewrite !tree_parts in He by done.
    assert (∀ h g ps qs, Node h ps = Node g qs → ps = qs) as Hinj by (by intros ???? [=]). apply Hinj in He. clear Hinj. apply value_ok_parts in Ha, Hb.
    clear -IH Ha Hb He. revert IH Ha Hb He. generalize (parts_of a), (parts_of b). intros la lb. revert lb.
    induction la as [|x la IHl]; intros [|y lb] IH Ha Hb He; simplify_eq/=; [by constructor|].
    apply Forall_cons in IH as [IHx IH], Ha as [Hax Ha], Hb as [Hby Hb]. constructor; auto. }
  destruct (before_alike a b Hr Ep Ha Hb) as (fs & go & Hba & Hbb & Hgo).
  { destruct (is_range a || is_range b); [done|by eapply Forall2_length]. }
  { exact Hlist. }
  assert (all_ok [a] ∧ all_ok [b]) as [Hoka Hokb] by (split; apply all_value_ok; by repeat constructor).
  assert (∃ gs, feeds (if go then over types visit (λ vs _, full vs) full (names_of [a]) (lanes_of [a]) 0 else mret tt) gs ∧
    feeds (if go then over types visit (λ vs _, full vs) full (names_of [b]) (lanes_of [b]) 0 else mret tt) gs) as (gs & Hga & Hgb).
  { destruct go; [|exists []; split; apply feeds_nothing]. rewrite Hgo in Hparts by done. rewrite !lanes_of_one by done.
    apply over_one; [|done]. intros n. by apply names_same. }
  exists (hash_head types a ++ fs ++ gs). split; (eapply feeds_same; [apply whole_step; done|]); (apply feeds_bind; [done|]);
    intros s; unfold mbind, walk_bind; rewrite ?Hba, ?Hbb, ?Hga, ?Hgb; by rewrite app_assoc.
Qed.

End hash.
