(* ===== verification/KeyClaims.v ===== *)
(** * What the key of a value promises

    Equality, order and hash agree, whatever keeps the values' lists and
    however deep the values nest; and the values are keys a map can be
    ordered by. *)

From S2P Require Import Prelude Int64 Float Key KeyWalk KeyFar KeyOrder.

Open Scope nat_scope.

(** ** One walk *)

(** Going through values with a stack of the walk's own is going through
    them by calls: for every visitor that ends the walk where parts run
    out unevenly, from every state and however many levels are left to
    calls, [through] and [through_far] take the same steps to the same
    end. *)
Theorem far_walk_is_near_walk types {St X} (visit : Visit St X) v vs levels depth s :
  (∀ ended, true ∈ ended ∧ false ∈ ended → ∀ (k : Walk St X unit) s, (uneven visit ended;; k) s = uneven visit ended s) →
  Forall (λ v, runs_ok v = true) (v :: vs) → has_parts v = true → NEAR < levels + depth → 0 < levels →
  through types visit levels (v :: vs) depth s = through_far types visit (v :: vs) s.
Proof.
  intros Hu Hok Hp Hl Hpos. rewrite (through_full types visit Hu), (through_far_full types visit Hu) by done. done.
Qed.

Definition no_types : nat → TypeInfo := λ _, mkTypeInfo 40 (SRecord []).
Definition nested : Value := VTuple [VTuple [VInt 1; VTuple [VInt 2]]; VList (Held [[VInt 3]; [VInt 4]])].

Lemma far_walk_is_near_walk_witness :
  through no_types (Hashed no_types) 1 [nested] 64 [] = through_far no_types (Hashed no_types) [nested] [].
Proof.
  refine (far_walk_is_near_walk no_types (Hashed no_types) nested [] 1 64 [] _ _ eq_refl _ _).
  - exact (hashed_uneven no_types).
  - by repeat constructor.
  - unfold NEAR. lia.
  - lia.
Defined.

(** ** Order and equality *)
Section order.
Context (types : nat → TypeInfo).

(** A question of an element and an Int asks no other. *)
Lemma cmp_at_int cmp item n : cmp_at types cmp item (VInt n) = Some (tree_cmp (tree types item) (int_tree n)).
Proof.
  unfold cmp_at, walk, mbind, walk_bind. cbn [heads Order].
  rewrite cmp_heads_key, <-(tree_int types n).
  assert (tree_cmp (tree types item) (tree types (VInt n)) = then_ (lexZ (hkey types item) (hkey types (VInt n)))
    (lex tree_cmp (match tree types item with Node _ ps => ps end) [])) as -> by (by destruct item).
  destruct (lexZ (hkey types item) (hkey types (VInt n))) eqn:E; [|done..].
  apply lexZ_eq, same_rank in E. by destruct item.
Qed.

Lemma value_cmp_tree a b : value_ok a = true → value_ok b = true →
  value_cmp types a b = Some (tree_cmp (tree types a) (tree types b)).
Proof. intros Ha Hb. apply cmp_at_tree; [|done..]. intros item n _ _. apply cmp_at_int. Qed.

Lemma value_eq_tree a b : value_ok a = true → value_ok b = true →
  value_eq types a b = Some (match tree_cmp (tree types a) (tree types b) with Eq => true | _ => false end).
Proof.
  intros Ha Hb. pose proof (equal_tells types (cmp_levels types 1) ltac:(intros; apply cmp_at_int)) as Ht. unfold value_eq.
  rewrite (walk_whole types (Equal types (cmp_levels types 1)) (t_uneven _ _ _ Ht)) by (apply all_value_ok; by repeat constructor).
  rewrite (whole_tells types _ _ Ht a b Ha Hb). by destruct (tree_cmp _ _).
Qed.
End order.

(** C24. The order of a program's values is total, and agrees with their
    equality: two values are equal if and only if neither comes first, if
    and only if they are the same tree of heads, whatever keeps them; of
    two values the one comes first if the other comes last; and what is
    not after what is not after a third is not after the third.  Every
    question is answered. *)
Theorem values_are_ordered types a b c :
  value_ok a = true → value_ok b = true → value_ok c = true →
  (∃ o, value_cmp types a b = Some o ∧ value_cmp types b a = Some (CompOpp o) ∧
    value_eq types a b = Some (match o with Eq => true | _ => false end) ∧
    (o = Eq ↔ tree types a = tree types b)) ∧
  (value_cmp types a b ≠ Some Gt → value_cmp types b c ≠ Some Gt → value_cmp types a c ≠ Some Gt).
Proof.
  intros Ha Hb Hc. rewrite !value_cmp_tree, value_eq_tree by done. split.
  - eexists. split_and!; [done|by rewrite tree_cmp_antisym|done|apply tree_cmp_eq].
  - pose proof (tree_cmp_trans (tree types a) (tree types b) (tree types c)) as H. intros H1 H2 [= H3].
    by apply H; [congruence..|].
Qed.

Lemma values_are_ordered_witness :
  ∃ o, value_cmp no_types (VList (Held [[VInt 1]; [VInt 2]])) (VList (Ints 1 2)) = Some o ∧
    value_eq no_types (VList (Held [[VInt 1]; [VInt 2]])) (VList (Ints 1 2)) = Some (match o with Eq => true | _ => false end).
Proof.
  destruct (values_are_ordered no_types (VList (Held [[VInt 1]; [VInt 2]])) (VList (Ints 1 2)) nested eq_refl eq_refl eq_refl)
    as [(o & H1 & _ & H2 & _) _].
  by exists o.
Defined.

(** ** Hash *)

(** C25. Equal values hash alike: a hasher is fed the same by two values that
    are equal, a range and the list of its Ints among them; and every
    value has a hash. *)
Theorem equal_values_hash_alike types a b :
  types_ok types → value_ok a = true → value_ok b = true →
  ∃ fs gs, value_hash types a = Some fs ∧ value_hash types b = Some gs ∧
    (value_eq types a b = Some true → fs = gs).
Proof.
  intros Ht Ha Hb.
  assert (∀ v fs, value_ok v = true → feeds (whole types (Hashed types) [v]) fs → value_hash types v = Some fs) as Hh.
  { intros v fs Hv Hf. unfold value_hash.
    rewrite (walk_whole types (Hashed types) (hashed_uneven types)) by (apply all_value_ok; by repeat constructor).
    by rewrite Hf. }
  destruct (tree_cmp (tree types a) (tree types b)) eqn:Et.
  - apply tree_cmp_eq in Et. destruct (hash_alike types a b Ht Ha Hb Et) as (fs & Hfa & Hfb).
    exists fs, fs. split_and!; [by apply Hh..|done].
  - destruct (hash_alike types a a Ht Ha Ha eq_refl) as (fs & Hfa & _), (hash_alike types b b Ht Hb Hb eq_refl) as (gs & Hfb & _).
    exists fs, gs. split_and!; [by apply Hh..|]. by rewrite value_eq_tree, Et.
  - destruct (hash_alike types a a Ht Ha Ha eq_refl) as (fs & Hfa & _), (hash_alike types b b Ht Hb Hb eq_refl) as (gs & Hfb & _).
    exists fs, gs. split_and!; [by apply Hh..|]. by rewrite value_eq_tree, Et.
Qed.

Lemma equal_values_hash_alike_witness :
  ∃ fs gs, value_hash no_types (VList (Held [[VInt 1]; [VInt 2]])) = Some fs ∧ value_hash no_types (VList (Ints 1 2)) = Some gs ∧
    (value_eq no_types (VList (Held [[VInt 1]; [VInt 2]])) (VList (Ints 1 2)) = Some true → fs = gs).
Proof.
  exact (equal_values_hash_alike no_types (VList (Held [[VInt 1]; [VInt 2]])) (VList (Ints 1 2)) (λ a b _ _, eq_refl) eq_refl eq_refl).
Defined.

(** ** Functions in values *)

(** A value is a function, or a value it is made of has one in it. *)
Fixpoint has_fn (v : Value) : bool :=
  is_fn v ||
  match v with
  | VList (Held rs) => existsb (existsb has_fn) rs
  | VTuple l | VSet _ l | VRecord _ l | VVariant _ _ l => existsb has_fn l
  | VMap es => existsb (λ '(k, w), has_fn k || has_fn w) es
  | _ => false
  end.

(** What the sets in a value know of their functions is so. *)
Fixpoint fns_ok (v : Value) : bool :=
  match v with
  | VSet (Some known) l => Bool.eqb known (existsb has_fn l)
  | VList (Held rs) => forallb (forallb fns_ok) rs
  | VTuple l | VSet None l | VRecord _ l | VVariant _ _ l => forallb fns_ok l
  | VMap es => forallb (λ '(k, w), fns_ok k && fns_ok w) es
  | _ => true
  end.

Lemma existsb_concat {A} (f : A → bool) ls : existsb f (concat ls) = existsb (existsb f) ls.
Proof. induction ls as [|l ls IH]; [done|]. cbn. by rewrite existsb_app, IH. Qed.

Lemma existsb_flat f es : existsb f (flat es) = existsb (λ '(k, w), f k || f w) es.
Proof. unfold flat. induction es as [|[k w] es IH]; [done|]. cbn. by rewrite IH, orb_assoc. Qed.

Lemma existsb_rev {A} (f : A → bool) l : existsb f (rev l) = existsb f l.
Proof. induction l as [|x l IH]; [done|]. cbn. rewrite existsb_app, IH. cbn. by destruct (f x), (existsb f l). Qed.

Lemma has_fn_parts v : is_fn v = false → has_fn v = existsb has_fn (parts_of v).
Proof.
  destruct v as [| | | |[rs|]|es| | | | | | | | | | | | | | | | |]; try done; intros _; cbn.
  - by rewrite existsb_concat.
  - by rewrite existsb_flat.
Qed.

Lemma fns_ok_parts v : fns_ok v = true → is_fn v = false → (∀ known ms, v ≠ VSet (Some known) ms) →
  Forall (λ v, fns_ok v = true) (parts_of v).
Proof.
  intros Hv Hf Hs. destruct v as [| | | |[rs|]|es|[known|] ms| | | | | | | | | | | | | | | |]; try done; try (by apply forallb_Forall).
  - cbn in *. rewrite forallb_Forall in Hv. apply forallb_concat. eapply Forall_impl; [exact Hv|]. intros r. by rewrite forallb_Forall.
  - cbn in *. rewrite forallb_Forall in Hv. apply flat_Forall. eapply Forall_impl; [exact Hv|]. intros [k w]. cbn. by rewrite andb_true_iff.
  - by destruct (Hs known ms).
Qed.

Lemma fn_loop_spec fuel pending :
  sum_list (vsize <$> pending) <= fuel → Forall (λ v, fns_ok v = true) pending →
  fn_loop fuel pending = Some (existsb has_fn pending).
Proof.
  revert pending. induction fuel as [|fuel IH]; intros [|v pending] Hf Hok; try done.
  { cbn in Hf. pose proof (vsize_pos v). lia. }
  apply Forall_cons in Hok as [Hv Hok]. cbn in Hf.
  assert (∀ l, parts_of v = l → is_fn v = false → (∀ known ms, v ≠ VSet (Some known) ms) →
    fn_loop fuel (rev l ++ pending) = Some (has_fn v || existsb has_fn pending)) as Hgo.
  { intros l <- Hfn Hs. rewrite IH.
    - rewrite existsb_app, existsb_rev, <-has_fn_parts by done. done.
    - rewrite fmap_app, sum_list_with_app, <-Permutation_rev. pose proof (vsize_parts v). lia.
    - apply Forall_app. split; [|done]. rewrite <-Permutation_rev. by apply fns_ok_parts. }
  cbn [fn_loop existsb]. destruct (is_fn v) eqn:Efn; [by destruct v|].
  assert (fn_loop fuel pending = Some (existsb has_fn pending)) as Hrest by (apply IH; [pose proof (vsize_pos v); lia|done]).
  destruct v as [| | | |l|es|[known|] ms| | | | | | | | | | | | | | | |]; try done; try (by apply Hgo).
  destruct known; cbn in Hv |- *; destruct (existsb has_fn ms); done.
Qed.

(** Whether a value has a function in it: the worklist finds one if and
    only if the value is a function or is made, at any depth, of one, as
    long as what its sets know of their functions is so; it always
    answers. *)
Theorem contains_fn_correct v : fns_ok v = true → contains_fn v = Some (has_fn v).
Proof.
  intros Hok. assert (fn_loop (vsize v) [v] = Some (has_fn v)) as Hl.
  { rewrite fn_loop_spec; [cbn; by rewrite orb_false_r|cbn; lia|by repeat constructor]. }
  by destruct v.
Qed.

Lemma contains_fn_correct_witness : contains_fn (VTuple [VSet (Some false) [VInt 1]; VList (Held [[VBuiltinFn 3]])]) = Some true.
Proof. exact (contains_fn_correct (VTuple [VSet (Some false) [VInt 1]; VList (Held [[VBuiltinFn 3]])]) eq_refl). Defined.
