(* ===== verification/KeyUses.v ===== *)
(** * Lists and maps of values

    What the list and the map take as given of values, and what the key of
    a value takes as given of lists: a list of any storage is read by its
    runs and its ends as [Key] reads it ([seen]), and the order of values
    is one a map can be kept by ([value_cmp_laws]). *)

From S2P Require Import Prelude Int64 ListValue ListFacts ListAsk MapValue MapFacts Float Key KeyWalk KeyFar KeyOrder KeyClaims MapClaims ListClaims.

Open Scope nat_scope.

(** ** Lists *)
Section lists.
Context {T : Type} `{VL : VectorLaws (ListValue.Value Value) T}.
Notation List := (ListValue.List Value T).

(** What a list holds is a value. *)
Definition back (x : ListValue.Value Value) : Value := match x with Int n => VInt n | Else v => v end.
Definition held_ok (x : ListValue.Value Value) : Prop :=
  value_ok (back x) = true ∧ match x with Else (VInt _) => False | _ => True end.

(** The runs the iterator gives, one after the other. *)
Fixpoint runs_read (fuel : nat) (r : ListValue.Runs Value) : list (list (ListValue.Value Value)) :=
  match fuel with
  | 0 => []
  | S fuel => match runs_next r with Some (run, r') => run :: runs_read fuel r' | None => [] end
  end.

(** A list as the key of a value reads it. *)
Definition seen (l : List) : ListOf Value :=
  match l with
  | ListValue.Ints lo hi => Key.Ints lo hi
  | _ => Key.Held ((λ r : list _, back <$> r) <$> runs_read (runs_fuel (ListValue.runs l)) (ListValue.runs l))
  end.

Lemma runs_read_spec fuel r : ListFacts.runs_ok r → runs_fuel r <= fuel →
  Forall (λ run, run ≠ []) (runs_read fuel r) ∧ concat (runs_read fuel r) = runs_items r.
Proof.
  revert r. induction fuel as [|fuel IH]; intros r Hok Hf; pose proof (runs_next_spec r Hok) as Hn; cbn [runs_read].
  - destruct (runs_next r) as [[run r']|]; [destruct Hn as (_ & _ & _ & ? & _); lia|]. destruct Hn as [-> _]. by split.
  - destruct (runs_next r) as [[run r']|]; [|destruct Hn as [-> _]; by split].
    destruct Hn as (Hne & -> & Hok' & Hlt & _). destruct (IH r' Hok') as [H1 H2]; [lia|]. cbn. rewrite H2.
    split; [by constructor|done].
Qed.

Lemma seen_held (l : List) : list_ok l → ListValue.range_ends l = None →
  ∃ rs, seen l = Key.Held rs ∧ Forall (λ r, r ≠ []) rs ∧ concat rs = back <$> elems l.
Proof.
  intros Hl Hr. destruct (runs_spec l Hl Hr) as [Hok He].
  destruct (runs_read_spec (runs_fuel (ListValue.runs l)) _ Hok ltac:(lia)) as [Hne Hc].
  exists ((λ r : list _, back <$> r) <$> runs_read (runs_fuel (ListValue.runs l)) (ListValue.runs l)).
  split; [by destruct l|]. split.
  - apply Forall_fmap. eapply Forall_impl; [exact Hne|]. by intros [|? ?].
  - rewrite <-He, <-Hc. generalize (runs_read (runs_fuel (ListValue.runs l)) (ListValue.runs l)). intros rs.
    induction rs as [|r rs IH]; [done|]. cbn. by rewrite fmap_app, IH.
Qed.

Lemma ascending_from_seen last_ items : Forall held_ok items →
  Key.ascending_from last_ (back <$> items) = ListAsk.ascending_from last_ items.
Proof.
  intros Hok. revert last_. induction Hok as [|[n|v] items [Hx Hv] _ IH]; intros last_; cbn; [done|..].
  - case_decide; [apply IH|done].
  - by destruct v.
Qed.

Lemma seen_ok (l : List) : list_ok l → Forall held_ok (elems l) → value_ok (VList (seen l)) = true.
Proof.
  intros Hl He. destruct (ListValue.range_ends l) as [[lo hi]|] eqn:Er.
  - destruct l as [| |lo' hi']; try done. cbn in *. destruct Hl as (H1 & H2 & H3 & H4).
    rewrite !andb_true_iff, !in_i64_spec, Z.leb_le, Z.ltb_lt. split_and!; lia.
  - destruct (seen_held l Hl Er) as (rs & -> & Hne & Hc). cbn. apply forallb_Forall.
    assert (Forall (λ v, value_ok v = true) (concat rs)) as Hv.
    { rewrite Hc. apply Forall_fmap. eapply Forall_impl; [exact He|]. by intros x [? _]. }
    apply forallb_concat in Hv. apply Forall_forall. intros r Hr. pose proof (proj1 (Forall_forall _ _) Hne r Hr) as Hn.
    apply andb_true_iff. split; [by destruct r|]. by apply forallb_Forall, (proj1 (Forall_forall _ _) Hv r Hr).
Qed.

Lemma seen_trees types (l : List) : list_ok l → elem_trees types (seen l) = tree types <$> (back <$> elems l).
Proof.
  intros Hl. destruct (ListValue.range_ends l) as [[lo hi]|] eqn:Er.
  - destruct l as [| |lo' hi']; try done. cbn. rewrite <-!list_fmap_compose. done.
  - destruct (seen_held l Hl Er) as (rs & -> & _ & Hc). cbn. by rewrite Hc.
Qed.

(** What the key of a value reads of a list is what the list is asked: its
    length, its two ends, whether it is Ints in a row; and two lists,
    whatever storage each has, are equal if and only if their elements
    are. *)
Theorem stored_lists_compare types (l l' : List) :
  list_ok l → list_ok l' → Forall held_ok (elems l) → Forall held_ok (elems l') →
  Key.list_len (seen l) = ListValue.list_len l ∧
  Key.range_ends (seen l) = ListValue.range_ends l ∧
  Key.ascending_ints (seen l) = ListAsk.ascending_ints l ∧
  value_cmp types (VList (seen l)) (VList (seen l')) =
    Some (lex tree_cmp (tree types <$> (back <$> elems l)) (tree types <$> (back <$> elems l'))) ∧
  (value_eq types (VList (seen l)) (VList (seen l')) = Some true ↔
    tree types <$> (back <$> elems l) = tree types <$> (back <$> elems l')).
Proof.
  intros Hl Hl' He He'. pose proof (seen_ok l Hl He) as Hs. pose proof (seen_ok l' Hl' He') as Hs'.
  rewrite value_cmp_tree, value_eq_tree, !tree_list, !seen_trees by done. cbn [tree_cmp].
  rewrite (proj2 (lexZ_eq [5]%Z [5]%Z)) by done. cbn [then_].
  split_and!.
  - rewrite (list_len_trees no_types) by done. rewrite seen_trees, !length_fmap by done. by rewrite list_len_elems.
  - destruct l; done.
  - destruct (ListValue.range_ends l) as [[lo hi]|] eqn:Er; [by destruct l|].
    destruct (seen_held l Hl Er) as (rs & -> & _ & Hc). destruct (runs_spec l Hl Er) as [Hok Hit].
    unfold ListAsk.ascending_ints. assert (elements l = ListValue.Held (ListValue.runs l)) as -> by (by destruct l).
    rewrite flatten_spec, Hit by done. cbn. rewrite Hc. clear -He. destruct He as [|[n|v] items [_ Hv] He]; [done|..]; cbn.
    + by rewrite ascending_from_seen.
    + by destruct v.
  - done.
  - rewrite <-(lex_eq tree_cmp) by (apply Forall_true; intros; apply tree_cmp_eq). by destruct (lex tree_cmp _ _).
Qed.
End lists.

(** ** Maps *)
Section maps.
Context (types : nat → TypeInfo).

(** A program's value. *)
Definition OkValue : Type := { v : Value | value_ok v = true }.

#[local] Instance ok_value_cmp : Cmp OkValue := λ a b, default Eq (value_cmp types (`a) (`b)).

#[local] Instance value_cmp_laws : CmpLaws OkValue.
Proof.
  constructor; unfold cmp, ok_value_cmp.
  - intros [a Ha] [b Hb]. cbn [proj1_sig]. rewrite !value_cmp_tree by done. apply tree_cmp_antisym.
  - intros [a Ha] [b Hb] [c Hc]. cbn [proj1_sig]. rewrite !value_cmp_tree by done. apply tree_cmp_trans.
Qed.

Lemma same_key_eq (a b : OkValue) : same_key a b = bool_decide (value_eq types (`a) (`b) = Some true).
Proof.
  destruct a as [a Ha], b as [b Hb]. unfold same_key, cmp, ok_value_cmp. cbn [proj1_sig].
  rewrite value_cmp_tree, value_eq_tree by done. cbn. by destruct (tree_cmp _ _).
Qed.

Context {W T : Type} `{!OrdTree OkValue (OkValue * W) T, !OrdTreeLaws OkValue W (OkValue * W) T}.

(** A map of a program's values has at a key what was put at an equal
    one: with the order of values for the order of keys, [insert] and
    [remove] change what is at the keys that are equal to theirs
    ([Value::eq]) and at no other, however the map is kept. *)
Theorem map_of_values (m : Kept (OkValue * W) T) k v k' :
  kept_ok m →
  kept_ok (map_insert m k v) ∧ kept_ok (map_remove m k) ∧
  map_get (map_insert m k v) k' = (if bool_decide (value_eq types (`k) (`k') = Some true) then Some v else map_get m k') ∧
  map_get (map_remove m k) k' = (if bool_decide (value_eq types (`k) (`k') = Some true) then None else map_get m k').
Proof.
  intros Hm. destruct (map_insert_ok m k v Hm) as [Hi Hil], (map_remove_ok m k Hm) as [Hr Hrl].
  rewrite <-same_key_eq, !map_get_look by done. split_and!; [done|done|apply Hil|apply Hrl].
Qed.
End maps.

Definition value_of_range : ListValue.List Value (list (ListValue.Value Value)) := ListValue.Ints 3 5.
Definition value_of_items : ListValue.List Value (list (ListValue.Value Value)) := ListValue.Items [Int 2; Int 3; Int 4; Int 5]%Z 1 3.

Lemma stored_lists_compare_witness :
  let _ := plain_vector (A := ListValue.Value Value) in
  (value_eq no_types (VList (seen value_of_items)) (VList (seen value_of_range)) = Some true ↔
    tree no_types <$> (back <$> elems value_of_items) = tree no_types <$> (back <$> elems value_of_range)).
Proof.
  pose (pv := plain_vector (A := ListValue.Value Value)). pose proof (plain_laws (A := ListValue.Value Value)) as Hlaws.
  refine (proj2 (proj2 (proj2 (proj2 (stored_lists_compare (H := pv) no_types value_of_items value_of_range _ _ _ _))))).
  - vm_compute. repeat split; lia.
  - vm_compute. repeat split; discriminate.
  - repeat constructor.
  - repeat constructor.
Defined.

Definition key1 : OkValue := exist _ (VList (Held [[VInt 1]; [VInt 2]])) eq_refl.
Definition key2 : OkValue := exist _ (VList (Ints 1 2)) eq_refl.

Lemma map_of_values_witness :
  let _ := ok_value_cmp no_types in
  let _ := list_tree (V := OkValue) (W := nat) (E := OkValue * nat) in
  map_get (map_insert (Flat [(key1, 7)]) key2 8 : Kept (OkValue * nat) (list (OkValue * nat))) key1 = Some 8.
Proof.
  pose (cm := ok_value_cmp no_types). pose (tr := list_tree (V := OkValue) (W := nat) (E := OkValue * nat)).
  pose proof (value_cmp_laws no_types) as Hc. pose proof (list_tree_laws (V := OkValue) (W := nat) (E := OkValue * nat)) as Hlaws.
  assert (Hk : kept_ok (OrdTree0 := tr) (Flat [(key1, 7)])) by (split; [repeat constructor|vm_compute; lia]).
  destruct (map_of_values no_types (OrdTree0 := tr) (Flat [(key1, 7)]) key2 8 key1 Hk) as (_ & _ & Hi & _).
  etransitivity; [exact Hi|]. vm_compute. reflexivity.
Defined.
