(* ===== verification/Doc.v ===== *)
(** * The layout document and its renderer (src/format/doc.rs)

    The renderer is the same for any characters of which it can tell the
    code and of which it can write a space and a line break ([Chars]):
    the characters of the program are their codes, and what is proved of
    the places of characters is proved with characters that are marked.

    A string is a list of characters and a place in it is how many come
    before.  The top of a stack comes first.  A place that is past the end
    of the output, at which the source panics when it splits it there, is
    [None]. *)

From S2P Require Import Prelude.

Open Scope nat_scope.

Class Chars (C : Type) := { code : C → N; chr : N → C }.
Class CharsLaws (C : Type) `{Chars C} : Prop := { code_chr n : code (chr n) = n }.

(** The characters of a program. *)
#[global] Instance program_chars : Chars N := {| code c := c; chr n := n |}.
#[global] Instance program_chars_laws : CharsLaws N.
Proof. done. Qed.

Definition INDENT : nat := 2.

Section doc.
Context {C : Type} `{Chars C}.
Notation str := (list C).

Definition space : C := chr 32.
Definition line_break : C := chr 10.
Definition is_space (c : C) : bool := N.eqb (code c) 32.
Definition is_break (c : C) : bool := N.eqb (code c) 10.
Definition one_of (cs : list N) (c : C) : bool := existsb (N.eqb (code c)) cs.

(** *** Strings *)

(** [trim_start_matches], [trim_end_matches] of one character. *)
Fixpoint trim_start (p : C → bool) (s : str) : str :=
  match s with c :: s' => if p c then trim_start p s' else s | [] => [] end.
Definition trim_end (p : C → bool) (s : str) : str := rev (trim_start p (rev s)).

(** [split_once('\n')]; [rsplit_once('\n')], of which the second is used;
    [rfind('\n').map_or(0, |i| i + 1)]; [contains('\n')]. *)
Fixpoint split_once (s : str) : option (str * str) :=
  match s with
  | [] => None
  | c :: s' => if is_break c then Some ([], s') else '(first, rest) ← split_once s'; Some (c :: first, rest)
  end.
Fixpoint after_last_break (s : str) : option str :=
  match s with
  | [] => None
  | c :: s' => match after_last_break s' with Some t => Some t | None => if is_break c then Some s' else None end
  end.
Definition last_line (s : str) : str := default s (after_last_break s).
Definition line_start (s : str) : nat := length s - length (last_line s).
Definition has_break (s : str) : bool := existsb is_break s.

Fixpoint take_while (p : C → bool) (s : str) : str :=
  match s with c :: s' => if p c then c :: take_while p s' else [] | [] => [] end.

Definition starts_with (p : C → bool) (s : str) : bool := match s with c :: _ => p c | [] => false end.
Definition ends_with (p : C → bool) (s : str) : bool := match last s with Some c => p c | None => false end.
Definition ends_with_two_breaks (s : str) : bool :=
  match rev s with c :: d :: _ => is_break c && is_break d | _ => false end.

Definition spaces (n : nat) : str := replicate n space.

(** *** Documents *)
Inductive Doc :=
  | Nil
  | Text (text : str)
  | Comment (text : str)
  | Line
  | SoftLine
  | HardLine
  | BlankLine
  | Group (inner : Doc) (forced : bool)
  | Nest (inner : Doc)
  | Concat (parts : list Doc)
  | IfBreak (broken flat : Doc)
  | LineSuffix (text : str)
  | OwnLine (text : str)
  | Settle.

(** How many documents a document is made of. *)
Fixpoint size (d : Doc) : nat :=
  S match d with
    | Group d _ | Nest d => size d
    | Concat ds => sum_list (size <$> ds)
    | IfBreak b f => size b + size f
    | _ => 0
    end.

(** [Doc::forces_break]: its loop. *)
Fixpoint forces_break_loop (fuel : nat) (stack : list Doc) : option bool :=
  match fuel, stack with
  | _, [] => Some false
  | 0, _ => None
  | S fuel, d :: stack =>
      match d with
      | HardLine | BlankLine | OwnLine _ => Some true
      | Group _ forced => if forced : bool then Some true else forces_break_loop fuel stack
      | Nest inner => forces_break_loop fuel (inner :: stack)
      | Concat parts => forces_break_loop fuel (rev parts ++ stack)
      | _ => forces_break_loop fuel stack
      end
  end.
Definition forces_break (d : Doc) : option bool := forces_break_loop (size d) [d].

(** [Doc::is_nil]. *)
Fixpoint is_nil (d : Doc) : bool :=
  match d with Nil => true | Concat parts => forallb is_nil parts | _ => false end.

(** [Doc::group]. *)
Definition group (d : Doc) : option Doc := forced ← forces_break d; Some (Group d forced).

(** *** The renderer *)
Inductive Mode := Flat | Break.
Record Cmd := mkCmd { c_indent : nat; c_mode : Mode; c_doc : Doc }.
Record Suffix := mkSuffix { s_text : str; s_at : nat }.

Record Renderer := mkRenderer {
  width : nat;
  out : str;
  col : nat;
  at_line_start : bool;
  indent : nat;
  suffixes : list Suffix;
  line_is_closed : bool;
  after_comment : bool;
}.

(** [comment_before_line_break]: a document it comes to, and its loop. *)
Definition comment_look (loop : list (bool * Doc) → option bool) (broken : bool) (d : Doc) (stack : list (bool * Doc)) : option bool :=
  match d with
  | Nil => loop stack
  | Text text => if has_break text then Some true else loop stack
  | Comment _ | LineSuffix _ | Settle => Some true
  | Line | SoftLine => if broken then Some false else loop stack
  | HardLine | BlankLine | OwnLine _ => Some false
  | Group inner forced => loop ((forced, inner) :: stack)
  | Nest inner => loop ((broken, inner) :: stack)
  | Concat parts => loop (((λ part, (broken, part)) <$> parts) ++ stack)
  | IfBreak on_break flat => loop ((broken, if broken then on_break else flat) :: stack)
  end.

Fixpoint comment_loop (fuel : nat) (stack : list (bool * Doc)) (rest : list Cmd) : option bool :=
  match fuel with
  | 0 => None
  | S fuel =>
      match stack, rest with
      | (broken, d) :: stack, _ => comment_look (λ st, comment_loop fuel st rest) broken d stack
      | [], [] => Some false
      | [], c :: rest =>
          comment_look (λ st, comment_loop fuel st rest) (match c_mode c with Break => true | Flat => false end) (c_doc c) []
      end
  end.
Definition cmds_size (cs : list Cmd) : nat := sum_list_with (λ c, size (c_doc c)) cs.
Definition comment_before_line_break (rest : list Cmd) : option bool := comment_loop (1 + cmds_size rest) [] rest.

(** [Renderer::fits]. *)
Inductive Step := SDoc (c : Cmd) | GroupEnd.

(** A document it comes to: what it leaves of the line, how deep in groups
    it is, and what it puts on the stack. *)
Definition fits_look (loop : Z → Z → Z → list Step → option bool) (width : nat)
    (left depth suffix_depth : Z) (c : Cmd) (stack : list Step) : option bool :=
  let go left depth suffix_depth stack := if (left <? 0)%Z then Some false else loop left depth suffix_depth stack in
  let on d mode := SDoc (mkCmd (c_indent c) mode d) in
  match c_doc c with
  | Nil | Settle | Comment _ => go left depth suffix_depth stack
  | Text text =>
      match split_once text with
      | Some (first, more) =>
          if (left <? Z.of_nat (length first))%Z then Some false
          else go (Z.of_nat width - Z.of_nat (length (last_line more)))%Z depth suffix_depth stack
      | None => go (left - Z.of_nat (length text))%Z depth suffix_depth stack
      end
  | Line | SoftLine =>
      match c_mode c with
      | Break => Some true
      | Flat =>
          if ((0 <=? depth) && (depth <=? suffix_depth))%Z then Some false
          else go (match c_doc c with Line => left - 1 | _ => left end)%Z depth suffix_depth stack
      end
  | HardLine | BlankLine | OwnLine _ => Some true
  | Group inner forced =>
      let mode := if forced : bool then Break else c_mode c in
      if (0 <=? depth)%Z then go left (depth + 1)%Z suffix_depth (on inner mode :: GroupEnd :: stack)
      else go left depth suffix_depth (on inner mode :: stack)
  | Nest inner => go left depth suffix_depth (on inner (c_mode c) :: stack)
  | Concat parts => go left depth suffix_depth (((λ part, on part (c_mode c)) <$> parts) ++ stack)
  | IfBreak broken flat =>
      go left depth suffix_depth (on (match c_mode c with Break => broken | Flat => flat end) (c_mode c) :: stack)
  | LineSuffix _ => go left depth (if (0 <=? depth)%Z then Z.max suffix_depth depth else suffix_depth) stack
  end.

Fixpoint fits_loop (fuel : nat) (width : nat) (left depth suffix_depth : Z) (stack : list Step) (rest : list Cmd) : option bool :=
  match fuel with
  | 0 => None
  | S fuel =>
      match stack, rest with
      | SDoc c :: stack, _ => fits_look (λ l d s st, fits_loop fuel width l d s st rest) width left depth suffix_depth c stack
      | GroupEnd :: stack, _ =>
          fits_loop fuel width left (depth - 1)%Z (Z.min suffix_depth (depth - 1))%Z stack rest
      | [], [] => Some true
      | [], c :: rest => fits_look (λ l d s st, fits_loop fuel width l d s st rest) width left (-1)%Z (-1)%Z c []
      end
  end.

Definition fits (r : Renderer) (next : Cmd) (rest : list Cmd) : option bool :=
  let start := if at_line_start r then indent r else col r in
  fits_loop (1 + 2 * (size (c_doc next) + cmds_size rest)) (width r)
    (Z.of_nat (width r) - Z.of_nat start)%Z 0%Z (-1)%Z [SDoc next] rest.

(** What is written; what a line is. *)
Definition with_out (r : Renderer) (o : str) (c : nat) : Renderer :=
  mkRenderer (width r) o c (at_line_start r) (indent r) (suffixes r) (line_is_closed r) (after_comment r).
Definition with_indent (r : Renderer) (n : nat) : Renderer :=
  mkRenderer (width r) (out r) (col r) (at_line_start r) n (suffixes r) (line_is_closed r) (after_comment r).
Definition with_after_comment (r : Renderer) (b : bool) : Renderer :=
  mkRenderer (width r) (out r) (col r) (at_line_start r) (indent r) (suffixes r) (line_is_closed r) b.

(** [Renderer::newline]. *)
Definition write_suffix (ind : nat) (os : str * bool) (s : Suffix) : str * bool :=
  let '(o, start) := os in
  if start : bool then (o ++ spaces ind ++ s_text s, false) else (trim_end is_space o ++ [space] ++ s_text s, false).
Definition newline (r : Renderer) (ind : nat) : Renderer :=
  let '(o, _) := foldl (write_suffix (indent r)) (out r, at_line_start r) (suffixes r) in
  mkRenderer (width r) (trim_end is_space o ++ [line_break]) 0 true ind [] false false.

(** [Renderer::open_line]. *)
Definition open_line (r : Renderer) (ind : nat) : Renderer :=
  let r := if line_is_closed r then newline r ind else r in
  if at_line_start r
  then mkRenderer (width r) (out r ++ spaces (indent r)) (indent r) false (indent r) (suffixes r) (line_is_closed r) (after_comment r)
  else r.

(** [Renderer::push]. *)
Definition push (r : Renderer) (text : str) : Renderer :=
  with_out r (out r ++ text)
    (match after_last_break text with Some last_ => length last_ | None => col r + length text end).

(** [Renderer::settle_suffixes]. *)
Definition settle_one (start line_indent : nat) (o : option str) (s : Suffix) : option str :=
  o ← o;
  let at_ := s_at s `max` start in
  if decide (at_ <= length o) then
    let behind := trim_start is_space (drop at_ o) in
    let kept := trim_end is_space (take at_ o) in
    let kept := if decide (start < length kept) then kept ++ [space] else kept ++ spaces line_indent in
    Some (kept ++ s_text s ++ [line_break] ++
      match behind with [] => [] | _ => spaces (line_indent + INDENT) ++ behind end)
  else None.
Definition settle_suffixes (r : Renderer) : option Renderer :=
  let start := line_start (out r) in
  let line_indent := if at_line_start r then indent r else length (take_while is_space (drop start (out r))) in
  o ← foldl (settle_one start line_indent) (Some (out r)) (rev (suffixes r));
  let at_start := ends_with is_break o in
  Some (mkRenderer (width r) o (length (last_line o)) at_start
    (if at_start then line_indent + INDENT else indent r) [] (line_is_closed r) false).

(** The waiting comments are written, if any wait. *)
Definition settle_waiting (r : Renderer) : option Renderer :=
  match suffixes r with [] => Some r | _ => settle_suffixes r end.

(** [Renderer::text]. *)
Definition write_text (r : Renderer) (text : str) (ind : nat) : option Renderer :=
  let text := if at_line_start r || line_is_closed r then trim_start is_space text else text in
  match text with
  | [] => Some r
  | _ =>
      r ← (if has_break text then settle_waiting r else Some r);
      let r := open_line r ind in
      let r := if after_comment r && negb (starts_with (one_of [32; 41; 93; 125; 44]%N) text)
        then with_out r (out r ++ [space]) (col r) else r in
      Some (push (with_after_comment r false) text)
  end.

(** [Renderer::comment]. *)
Definition write_comment (r : Renderer) (text : str) (ind : nat) : option Renderer :=
  r ← settle_waiting r;
  let r := if at_line_start r then with_indent r ind else r in
  let fresh := at_line_start r || line_is_closed r in
  let r := open_line r ind in
  let o := if negb fresh && negb (ends_with (one_of [32; 40; 91; 123]%N) (out r)) then out r ++ [space] else out r in
  let r := with_out r (o ++ text) (match after_last_break text with Some last_ => length last_ | None => col r end) in
  Some (with_after_comment r true).

(** [Renderer::suffix]. *)
Definition add_suffix (r : Renderer) (text : str) (ind : nat) : option Renderer :=
  let r := if line_is_closed r then newline r ind else r in
  r ← settle_waiting r;
  Some (mkRenderer (width r) (out r) (col r) (at_line_start r) (indent r)
    (suffixes r ++ [mkSuffix text (length (out r))]) (line_is_closed r) (after_comment r)).

(** A line that has something on it, or that is to have, is ended. *)
Definition end_line (r : Renderer) (ind : nat) : Renderer :=
  if negb (at_line_start r) || line_is_closed r || negb (match suffixes r with [] => true | _ => false end)
  then newline r ind else r.

(** [Renderer::blank_line], [Renderer::own_line], [Renderer::finish]. *)
Definition blank_line (r : Renderer) (ind : nat) : Renderer :=
  let r := with_indent (end_line r ind) ind in
  match out r with
  | [] => r
  | _ => if ends_with_two_breaks (out r) then r else with_out r (out r ++ [line_break]) (col r)
  end.

Definition own_line (r : Renderer) (text : str) (ind : nat) : Renderer :=
  let r := with_indent (end_line r ind) ind in
  let r := push (open_line r ind) text in
  mkRenderer (width r) (out r) (col r) (at_line_start r) (indent r) (suffixes r) true (after_comment r).

Definition finish (r : Renderer) : str :=
  let r := if negb (at_line_start r) || negb (match suffixes r with [] => true | _ => false end) then newline r 0 else r in
  let o := trim_end is_break (out r) in
  match o with [] => [] | _ => o ++ [line_break] end.

(** One turn of the loop of [render]: what is written, and what is put on
    the stack. *)
Definition turn (r : Renderer) (c : Cmd) (stack : list Cmd) : option (Renderer * list Cmd) :=
  let ind := c_indent c in
  let mode := c_mode c in
  match c_doc c with
  | Nil => Some (r, stack)
  | Text text => r ← write_text r text ind; Some (r, stack)
  | Comment text => r ← write_comment r text ind; Some (r, stack)
  | Line | SoftLine =>
      match mode, c_doc c with
      | Break, _ => Some (newline r ind, stack)
      | Flat, Line => r ← write_text r [space] ind; Some (r, stack)
      | Flat, _ => Some (r, stack)
      end
  | HardLine => Some (newline r ind, stack)
  | BlankLine => Some (blank_line r ind, stack)
  | Group inner forced =>
      flat ← (if forced : bool then Some false else fits r (mkCmd ind Flat inner) stack);
      Some (r, mkCmd ind (if flat : bool then Flat else Break) inner :: stack)
  | Nest inner => Some (r, mkCmd (ind + INDENT) mode inner :: stack)
  | Concat parts => Some (r, (mkCmd ind mode <$> parts) ++ stack)
  | IfBreak broken flat => Some (r, mkCmd ind mode (match mode with Break => broken | Flat => flat end) :: stack)
  | LineSuffix text =>
      breaks_here ← comment_before_line_break stack;
      r ← add_suffix r text ind;
      r ← (if breaks_here : bool then settle_suffixes r else Some r);
      Some (r, stack)
  | OwnLine text => Some (own_line r text ind, stack)
  | Settle => r ← settle_waiting r; Some (r, stack)
  end.

Fixpoint render_loop (fuel : nat) (r : Renderer) (stack : list Cmd) : option Renderer :=
  match fuel, stack with
  | _, [] => Some r
  | 0, _ => None
  | S fuel, c :: stack => '(r, stack) ← turn r c stack; render_loop fuel r stack
  end.

Definition renderer_new (width : nat) : Renderer := mkRenderer width [] 0 true 0 [] false false.

(** [render]. *)
Definition render (d : Doc) (width : nat) : option str :=
  r ← render_loop (size d) (renderer_new width) [mkCmd 0 Break d];
  Some (finish r).

End doc.
Arguments Doc : clear implicits.
Arguments Cmd : clear implicits.
Arguments Renderer : clear implicits.
Arguments Suffix : clear implicits.
Arguments Step : clear implicits.
