(* ===== verification/DocFacts.v ===== *)
(** * Facts about the renderer

    Its loops end; what the strings it trims keep; what follows what in
    its output ([chain]). *)

From S2P Require Import Prelude Doc.

Open Scope nat_scope.

(** ** Neighbours in a list *)
Fixpoint chain {A} (R : A → A → Prop) (l : list A) : Prop :=
  match l with
  | x :: l' => match l' with y :: _ => R x y | [] => True end ∧ chain R l'
  | [] => True
  end.

Section chain.
Context {A : Type} (R : A → A → Prop).

Lemma chain_app l m :
  chain R (l ++ m) ↔ chain R l ∧ chain R m ∧ (∀ x y, last l = Some x → head m = Some y → R x y).
Proof.
  induction l as [|x [|z l] IH].
  - cbn. naive_solver.
  - cbn. destruct m as [|y m]; naive_solver.
  - change ((x :: z :: l) ++ m) with (x :: (z :: l) ++ m). cbn [chain app] in *.
    change (last (x :: z :: l)) with (last (z :: l)). rewrite IH. naive_solver.
Qed.

Lemma chain_app_1 l m : chain R (l ++ m) → chain R l.
Proof. by intros (? & _)%chain_app. Qed.
Lemma chain_app_2 l m : chain R (l ++ m) → chain R m.
Proof. by intros (_ & ? & _)%chain_app. Qed.

Lemma chain_snoc l x : chain R l → (∀ y, last l = Some y → R y x) → chain R (l ++ [x]).
Proof. intros Hl Hx. apply chain_app. split_and!; [done|done|]. intros y z Hy [= <-]. auto. Qed.

Lemma chain_lookup l i x y : chain R l → l !! i = Some x → l !! S i = Some y → R x y.
Proof.
  revert i. induction l as [|z l IH]; intros [|i] Hc Hx Hy; cbn in *; try done; [|naive_solver].
  destruct l; naive_solver.
Qed.

(** Where all follow all. *)
Lemma chain_all l : (∀ x y, x ∈ l → y ∈ l → R x y) → chain R l.
Proof.
  induction l as [|x l IH]; intros H; [done|]. split; [destruct l; [done|apply H; set_solver]|].
  apply IH. intros; apply H; set_solver.
Qed.
End chain.

Section strings.
Context {C : Type} `{CharsLaws C}.
Notation str := (list C).

(** ** Trimming *)
Lemma trim_start_app p (s : str) : ∃ b, s = b ++ trim_start p s ∧ Forall (λ c, p c = true) b.
Proof.
  induction s as [|c s IH]; [by exists []|]. cbn. destruct (p c) eqn:E; [|by exists []].
  destruct IH as (b & Hs & Hb). exists (c :: b). split; [cbn; by rewrite <-Hs|by constructor].
Qed.

Lemma trim_end_app p (s : str) : ∃ b, s = trim_end p s ++ b ∧ Forall (λ c, p c = true) b.
Proof.
  unfold trim_end. destruct (trim_start_app p (rev s)) as (b & Hs & Hb). exists (rev b). split.
  - rewrite <-rev_app_distr, <-Hs. by rewrite rev_involutive.
  - by rewrite <-Permutation_rev.
Qed.

Lemma trim_start_head p (s : str) c : head (trim_start p s) = Some c → p c = false.
Proof.
  induction s as [|d s IH]; [done|]. cbn. destruct (p d) eqn:E; [done|]. by intros [= <-].
Qed.

Lemma last_rev (s : str) : last s = head (rev s).
Proof. rewrite <-(rev_involutive s) at 1. destruct (rev s) as [|c t]; [done|]. cbn. by rewrite last_snoc. Qed.

Lemma trim_end_last p (s : str) c : last (trim_end p s) = Some c → p c = false.
Proof. unfold trim_end. rewrite last_rev, rev_involutive. apply trim_start_head. Qed.

(** ** The loops end *)
Lemma size_pos (d : Doc C) : 0 < size d.
Proof. destruct d; cbn; lia. Qed.

Lemma comment_loop_total fuel stack (rest : list (Cmd C)) :
  sum_list_with (λ p, size p.2) stack + cmds_size rest < fuel → is_Some (comment_loop fuel stack rest).
Proof.
  assert (∀ (b : bool) (ds : list (Doc C)) st,
    sum_list_with (λ p, size p.2) (((λ part, (b, part)) <$> ds) ++ st) = sum_list (size <$> ds) + sum_list_with (λ p, size p.2) st) as Hsum.
  { intros b ds st. induction ds as [|d ds IH]; [done|]. cbn in *. lia. }
  revert stack rest. induction fuel as [|fuel IH]; intros stack rest Hf; [lia|]. cbn [comment_loop].
  assert (∀ b d st rest', size d + sum_list_with (λ p, size p.2) st + cmds_size rest' <= fuel →
    is_Some (comment_look (λ st, comment_loop fuel st rest') b d st)) as Hlook.
  { intros b d st rest' Hd. destruct d; cbn -[fmap] in *; try (eexists; reflexivity);
      repeat case_match; try (eexists; reflexivity); apply IH; rewrite ?Hsum; cbn; lia. }
  destruct stack as [|[b d] stack]; [destruct rest as [|c rest]; [eexists; reflexivity|]|];
    apply Hlook; unfold cmds_size in *; cbn in *; lia.
Qed.

Definition step_size (s : Step C) : nat := match s with SDoc c => 2 * size (c_doc c) | GroupEnd => 1 end.

Lemma fits_loop_total fuel w left depth sd stack (rest : list (Cmd C)) :
  sum_list_with step_size stack + 2 * cmds_size rest < fuel → is_Some (fits_loop fuel w left depth sd stack rest).
Proof.
  assert (∀ i m (ds : list (Doc C)) st,
    sum_list_with step_size (((λ part, SDoc (mkCmd i m part)) <$> ds) ++ st) = 2 * sum_list (size <$> ds) + sum_list_with step_size st) as Hsum.
  { intros i m ds st. induction ds as [|d ds IH]; [done|]. cbn in *. lia. }
  revert left depth sd stack rest. induction fuel as [|fuel IH]; intros left depth sd stack rest Hf; [lia|]. cbn [fits_loop].
  assert (∀ l de s c st rest', 2 * size (c_doc c) + sum_list_with step_size st + 2 * cmds_size rest' <= fuel →
    is_Some (fits_look (λ l d s st, fits_loop fuel w l d s st rest') w l de s c st)) as Hlook.
  { intros l de s [i m d] st rest' Hd. unfold fits_look. cbn [c_doc c_mode c_indent] in *.
    destruct d; cbn in Hd; repeat case_match; try (eexists; reflexivity); apply IH; rewrite ?Hsum; cbn; lia. }
  destruct stack as [|[c|] stack]; [destruct rest as [|c rest]; [eexists; reflexivity|]|..].
  - apply Hlook. unfold cmds_size in *. cbn in *. lia.
  - apply Hlook. cbn in *. lia.
  - apply IH. cbn in Hf. lia.
Qed.

Lemma fits_total r c (rest : list (Cmd C)) : is_Some (fits r c rest).
Proof. apply fits_loop_total. cbn. lia. Qed.

Lemma comment_before_total (rest : list (Cmd C)) : is_Some (comment_before_line_break rest).
Proof. apply comment_loop_total. cbn. lia. Qed.

End strings.

(** * What the renderer keeps

    Characters are marked: those of line comments, which end their line,
    with the comment they are of ([Suff]: held back to the end of the line;
    [Own]: on a line of its own), and all others.  What is written is what was met, in order; and a
    character of a line comment is followed by the comment's next or by
    the end of its line. *)

Inductive Mark := Code | Suff (n : nat) | Own (n : nat).
#[global] Instance mark_eq_dec : EqDecision Mark.
Proof. solve_decision. Defined.

(** Characters with a mark; what the renderer writes itself has none. *)
Class Marked (C : Type) `{Chars C} := mark : C → Mark.
Class MarkedLaws (C : Type) `{Marked C} : Prop := { mark_chr n : mark (chr n : C) = Code }.

Section kept.
Context {C : Type} `{CharsLaws C, !Marked C, !MarkedLaws C}.
Notation str := (list C).

(** What is seen of a text: its characters but spaces and line breaks; of
    these, those of comments that were held back, and the others. *)
Definition blank (c : C) : bool := is_space c || is_break c.
Definition ink (s : str) : str := filter (λ c, blank c = false) s.
Definition held (c : C) : bool := match mark c with Suff _ => true | _ => false end.
Definition ink_code (s : str) : str := filter (λ c, held c = false) (ink s).
Definition ink_suff (s : str) : str := filter (λ c, held c = true) (ink s).

(** A text is all of one comment. *)
Definition all_mark (m : Mark) (s : str) : Prop := Forall (λ c, mark c = m) s.
Definition is_suffix (s : str) : Prop := ∃ n, all_mark (Suff n) s.
Definition is_own (s : str) : Prop := ∃ n, all_mark (Own n) s.

#[local] Arguments ink : simpl never.
#[local] Arguments ink_code : simpl never.
#[local] Arguments ink_suff : simpl never.
#[local] Arguments trim_end : simpl never.
#[local] Arguments trim_start : simpl never.

Lemma ink_app s t : ink (s ++ t) = ink s ++ ink t.
Proof. apply filter_app. Qed.
Lemma ink_code_app s t : ink_code (s ++ t) = ink_code s ++ ink_code t.
Proof. unfold ink_code. by rewrite ink_app, filter_app. Qed.
Lemma ink_suff_app s t : ink_suff (s ++ t) = ink_suff s ++ ink_suff t.
Proof. unfold ink_suff. by rewrite ink_app, filter_app. Qed.

Lemma ink_blank s : Forall (λ c, blank c = true) s → ink s = [].
Proof.
  induction 1 as [|c s Hc _ IH]; [done|]. unfold ink in *. by rewrite filter_cons_False, IH by congruence.
Qed.

Lemma ink_trim_end p s : (∀ c, p c = true → blank c = true) → ink (trim_end p s) = ink s.
Proof.
  intros Hp. destruct (trim_end_app p s) as (b & Hs & Hb). rewrite Hs at 2. rewrite ink_app, (ink_blank b), app_nil_r; [done|].
  eapply Forall_impl; [exact Hb|]. auto.
Qed.

Lemma ink_trim_start p s : (∀ c, p c = true → blank c = true) → ink (trim_start p s) = ink s.
Proof.
  intros Hp. destruct (trim_start_app p s) as (b & Hs & Hb). rewrite Hs at 2. rewrite ink_app, (ink_blank b); [done|].
  eapply Forall_impl; [exact Hb|]. auto.
Qed.

Lemma space_blank c : is_space c = true → blank c = true.
Proof. unfold blank. by intros ->. Qed.
Lemma break_blank c : is_break c = true → blank c = true.
Proof. unfold blank. intros ->. by rewrite orb_true_r. Qed.

Lemma space_is : is_space (space : C) = true.
Proof. unfold is_space, space. by rewrite code_chr. Qed.
Lemma break_is : is_break (line_break : C) = true.
Proof. unfold is_break, line_break. by rewrite code_chr. Qed.

Lemma ink_spaces n : ink (spaces n) = [].
Proof. apply ink_blank, Forall_replicate, space_blank, space_is. Qed.
Lemma ink_break : ink [line_break] = [].
Proof. apply ink_blank. constructor; [apply break_blank, break_is|done]. Qed.
Lemma ink_space : ink [space] = [].
Proof. apply (ink_spaces 1). Qed.

(** ** Line comments end their lines *)
Definition follows (c d : C) : Prop := mark c = Code ∨ mark d = mark c ∨ is_break d = true.
Definition safe (s : str) : Prop := chain follows s.

(** Whether the text ends in no line comment. *)
Definition open_end (s : str) : Prop := ∀ c, last s = Some c → mark c = Code.

#[local] Arguments safe : simpl never.
#[local] Arguments open_end : simpl never.

Lemma safe_app s t : safe s → safe t → open_end s → safe (s ++ t).
Proof. intros Hs Ht Ho. apply chain_app. split_and!; [done|done|]. intros x y Hx _. left. by apply Ho. Qed.

Lemma safe_break s t : safe s → safe t → safe (s ++ line_break :: t).
Proof.
  intros Hs Ht. apply chain_app. split_and!; [done|..].
  - split; [|done]. destruct t; [done|]. left. apply mark_chr.
  - intros x y _ [= <-]. right. right. apply break_is.
Qed.

Lemma safe_mark s m : Forall (λ c, mark c = m) s → safe s.
Proof.
  intros Hs. apply chain_all. intros x y Hx Hy. right. left.
  rewrite (proj1 (Forall_forall _ _) Hs x Hx). by apply (proj1 (Forall_forall _ _) Hs y).
Qed.

Lemma safe_suffix s : is_suffix s → safe s.
Proof. intros [n Hs]. by apply (safe_mark _ (Suff n)). Qed.

Lemma open_code s : Forall (λ c, mark c = Code) s → open_end s.
Proof. intros Hs c Hc. apply (proj1 (Forall_forall _ _) Hs). by apply last_Some_elem_of. Qed.

Lemma open_app s t : open_end s → open_end t → open_end (s ++ t).
Proof. intros Hs Ht c. destruct t as [|x t]; [rewrite app_nil_r; apply Hs|]. rewrite last_app_cons. apply Ht. Qed.

Lemma open_snoc s c : mark c = Code → open_end (s ++ [c]).
Proof. intros Hc d. rewrite last_snoc. by intros [= <-]. Qed.

Lemma code_spaces n : Forall (λ c, mark c = Code) (spaces n : str).
Proof. apply Forall_replicate, mark_chr. Qed.

(** A text that ends in no line comment ends in none without the spaces at
    its end. *)
Lemma open_prefix s b : safe (s ++ b) → Forall (λ c, is_break c = false) b → open_end (s ++ b) → open_end s.
Proof.
  revert s. induction b as [|x b IH]; intros s Hs Hb Ho; [by rewrite app_nil_r in Ho|].
  apply Forall_cons in Hb as [Hx Hb]. replace (s ++ x :: b) with ((s ++ [x]) ++ b) in * by (by rewrite <-app_assoc).
  pose proof (IH _ Hs Hb Ho) as Hx'. intros c Hc. specialize (Hx' x ltac:(apply last_snoc)).
  apply chain_app_1, chain_app in Hs as (_ & _ & Hf). destruct (Hf c x Hc eq_refl) as [?|[Hm|Hm]]; congruence.
Qed.

Lemma space_no_break c : is_space c = true → is_break c = false.
Proof. unfold is_space, is_break. rewrite N.eqb_eq, N.eqb_neq. intros ->. done. Qed.

Lemma open_trim s : safe s → open_end s → open_end (trim_end is_space s).
Proof.
  intros Hs Ho. destruct (trim_end_app is_space s) as (b & He & Hb). rewrite He in Hs, Ho.
  apply (open_prefix _ b); [done| |done]. eapply Forall_impl; [exact Hb|]. apply space_no_break.
Qed.

Lemma safe_trim_end p s : safe s → safe (trim_end p s).
Proof. intros Hs. destruct (trim_end_app p s) as (b & He & _). rewrite He in Hs. by apply chain_app_1 in Hs. Qed.
Lemma safe_trim_start p s : safe s → safe (trim_start p s).
Proof. intros Hs. destruct (trim_start_app p s) as (b & He & _). rewrite He in Hs. by apply chain_app_2 in Hs. Qed.

(** ** The invariant *)

(** A comment that waits: where it was met is in the output, on the line
    that is being written, and outside a line comment; what follows it is
    no comment that was held back. *)
Definition waits (o : str) (s : Suffix C) : Prop :=
  s_at s <= length o ∧ ink_suff (drop (s_at s) o) = [] ∧ Forall (λ c, is_break c = false) (drop (s_at s) o) ∧
  open_end (take (s_at s) o) ∧ is_suffix (s_text s).

(** What was met so far is [cs], and of the comments that are held back
    [ss]. *)
Record inv (r : Renderer C) (cs ss : str) : Prop := {
  i_code : ink_code (out r) = cs;
  i_suff : ink_suff (out r) ++ concat ((λ s, ink (s_text s)) <$> suffixes r) = ss;
  i_safe : safe (out r);
  i_one : length (suffixes r) <= 1;
  i_wait : Forall (waits (out r)) (suffixes r);
  i_open : line_is_closed r = false → open_end (out r);
  i_closed : line_is_closed r = true → suffixes r = [] ∧ at_line_start r = false;
}.

(** The invariant where no comment waits. *)
Lemma inv_settled r cs ss :
  suffixes r = [] → ink_code (out r) = cs → ink_suff (out r) = ss → safe (out r) →
  (line_is_closed r = false → open_end (out r)) → (line_is_closed r = true → at_line_start r = false) → inv r cs ss.
Proof. intros Hs Hc Hss Hsafe Ho Hcl. split; rewrite ?Hs; cbn; rewrite ?app_nil_r; try done; [lia|]. intros H'. split; [done|by apply Hcl]. Qed.

Lemma ink_Forall (P : C → Prop) s : Forall P s → Forall P (ink s).
Proof. rewrite !Forall_forall. intros Hs c [_ Hc]%list_elem_of_filter. by apply Hs. Qed.

Lemma ink_suff_mark s : is_suffix s → ink_suff s = ink s ∧ ink_code s = [].
Proof.
  intros [n Hs]. assert (Forall (λ c, held c = true) (ink s)) as Hi.
  { apply ink_Forall. eapply Forall_impl; [exact Hs|]. unfold held. by intros c ->. }
  unfold ink_suff, ink_code. split; [by apply filter_Forall_id|].
  induction Hi as [|c i Hc _ IH]; [done|]. by rewrite filter_cons_False, IH by congruence.
Qed.

Lemma not_held m s : all_mark m s → (∀ n, m ≠ Suff n) → Forall (λ c, held c = false) s.
Proof. intros Hs Hm. eapply Forall_impl; [exact Hs|]. intros c Hc. unfold held. rewrite Hc. destruct m as [|n|n]; [done|by destruct (Hm n)|done]. Qed.

Lemma ink_code_mark s : Forall (λ c, held c = false) s → ink_code s = ink s ∧ ink_suff s = [].
Proof.
  intros Hs. assert (Forall (λ c, held c = false) (ink s)) as Hi by (by apply ink_Forall).
  unfold ink_suff, ink_code. split; [by apply filter_Forall_id|].
  induction Hi as [|c i Hc _ IH]; [done|]. by rewrite filter_cons_False, IH by congruence.
Qed.

Lemma ink_code_trim p s : (∀ c, p c = true → blank c = true) → ink_code (trim_end p s) = ink_code s.
Proof. intros Hp. unfold ink_code. by rewrite ink_trim_end. Qed.
Lemma ink_suff_trim p s : (∀ c, p c = true → blank c = true) → ink_suff (trim_end p s) = ink_suff s.
Proof. intros Hp. unfold ink_suff. by rewrite ink_trim_end. Qed.
Lemma ink_code_blank s : ink s = [] → ink_code s = [].
Proof. unfold ink_code. by intros ->. Qed.
Lemma ink_suff_blank s : ink s = [] → ink_suff s = [].
Proof. unfold ink_suff. by intros ->. Qed.

(** What is written of a waiting comment at the end of its line. *)
Lemma write_suffix_kept r cs ss :
  inv r cs ss → line_is_closed r = false →
  let o := (foldl (write_suffix (indent r)) (out r, at_line_start r) (suffixes r)).1 in
  ink_code o = cs ∧ ink_suff o = ss ∧ safe o.
Proof.
  intros [Hc Hs Hsafe H1 Hw Ho _] Hcl. specialize (Ho Hcl). destruct (suffixes r) as [|s [|]]; cbn in *; [|..|lia].
  - by rewrite app_nil_r in Hs.
  - apply Forall_cons in Hw as [(_ & _ & _ & _ & Hm) _]. destruct (ink_suff_mark _ Hm) as [Hms Hmc].
    rewrite app_nil_r in Hs. destruct (at_line_start r); cbn.
    + rewrite !ink_code_app, !ink_suff_app, Hmc, Hms, (ink_code_blank (spaces _)), (ink_suff_blank (spaces _)) by apply ink_spaces.
      cbn. rewrite app_nil_r. split_and!; [done|done|]. apply safe_app; [done| |done].
      apply safe_app; [apply (safe_mark _ Code), code_spaces|by apply safe_suffix|apply open_code, code_spaces].
    + change (space :: s_text s) with ([space] ++ s_text s).
      rewrite !ink_code_app, !ink_suff_app, (ink_code_trim _ _ space_blank), (ink_suff_trim _ _ space_blank), Hmc, app_nil_r.
      assert (ink_code [space] = [] ∧ ink_suff [space] = []) as [H2 H3] by (split; [apply ink_code_blank|apply ink_suff_blank]; apply ink_space).
      rewrite H2, H3, Hms, app_nil_r. split_and!; [done|done|].
      apply safe_app; [by apply safe_trim_end| |by apply open_trim].
      apply (safe_app [space]); [done|by apply safe_suffix|]. apply open_code. constructor; [apply mark_chr|done].
Qed.

(** What keeps the invariant: the end of a line, *)
Lemma newline_inv r cs ss ind : inv r cs ss → inv (newline r ind) cs ss.
Proof.
  intros Hi. unfold newline. destruct (foldl _ _ _) as [o b] eqn:Ef.
  assert (ink_code o = cs ∧ ink_suff o = ss ∧ safe o) as (H1 & H2 & H3).
  { destruct (line_is_closed r) eqn:Ec.
    - destruct Hi as [Hc Hs Hsafe _ _ _ Hcl]. destruct (Hcl Ec) as [E _]. rewrite E in *. cbn in Ef. simplify_eq.
      cbn. by rewrite app_nil_r.
    - pose proof (write_suffix_kept r cs ss Hi Ec) as Hk. cbv zeta in Hk. by rewrite Ef in Hk. }
  assert (ink_code [line_break] = [] ∧ ink_suff [line_break] = []) as [Hb1 Hb2]
    by (split; [apply ink_code_blank|apply ink_suff_blank]; apply ink_break).
  apply inv_settled; cbn; try done.
  - by rewrite ink_code_app, Hb1, app_nil_r, ink_code_trim by apply space_blank.
  - by rewrite ink_suff_app, Hb2, app_nil_r, ink_suff_trim by apply space_blank.
  - apply safe_break; [by apply safe_trim_end|done].
  - intros _. apply open_snoc, mark_chr.
Qed.

(** text that is added to an open line, *)
Lemma waits_app o t s : waits o s → Forall (λ c, held c = false) t → Forall (λ c, is_break c = false) t → waits (o ++ t) s.
Proof.
  intros (Ha & Hi & Hb & Ho & Hm) Ht Htb. unfold waits. rewrite length_app, drop_app_le, take_app_le by done.
  split_and!; [lia| |by apply Forall_app|done|done]. rewrite ink_suff_app, Hi. by apply ink_code_mark.
Qed.

Lemma inv_append r r' t cs ss :
  inv r cs ss → line_is_closed r = false → Forall (λ c, mark c = Code) t →
  suffixes r = [] ∨ Forall (λ c, is_break c = false) t →
  out r' = out r ++ t → suffixes r' = suffixes r → line_is_closed r' = false →
  inv r' (cs ++ ink t) ss.
Proof.
  intros [Hc Hs Hsafe H1 Hw Ho _] Hcl Ht Hb Eo Es Ec.
  assert (Forall (λ c, held c = false) t) as Ht' by (by apply (not_held Code)).
  destruct (ink_code_mark t Ht') as [Htc Hts]. split; rewrite ?Eo, ?Es, ?Ec; try done.
  - by rewrite ink_code_app, Hc, Htc.
  - by rewrite ink_suff_app, Hts, app_nil_r.
  - apply safe_app; [done|by apply (safe_mark _ Code)|by apply Ho].
  - destruct Hb as [->|Hb]; [done|]. eapply Forall_impl; [exact Hw|]. intros s Hs'. by apply waits_app.
  - intros _. apply open_app; [by apply Ho|by apply open_code].
Qed.

Lemma inv_blank r r' t cs ss :
  inv r cs ss → line_is_closed r = false → Forall (λ c, mark c = Code) t → ink t = [] →
  suffixes r = [] ∨ Forall (λ c, is_break c = false) t →
  out r' = out r ++ t → suffixes r' = suffixes r → line_is_closed r' = false → inv r' cs ss.
Proof. intros ??? Ht ????. rewrite <-(app_nil_r cs), <-Ht. by eapply inv_append. Qed.

Lemma inv_flags r r' cs ss :
  inv r cs ss → out r' = out r → suffixes r' = suffixes r → line_is_closed r' = line_is_closed r →
  (line_is_closed r = true → at_line_start r' = false) → inv r' cs ss.
Proof.
  intros [Hc Hs Hsafe H1 Hw Ho Hcl] Eo Es Ec Ha. split; rewrite ?Eo, ?Es, ?Ec; try done.
  intros E. split; [by apply Hcl|by apply Ha].
Qed.

(** the start of a line, *)
Lemma open_line_inv r cs ss ind : inv r cs ss → inv (open_line r ind) cs ss ∧ line_is_closed (open_line r ind) = false ∧
  at_line_start (open_line r ind) = false ∧ suffixes (open_line r ind) = suffixes r.
Proof.
  intros Hi. unfold open_line.
  assert (inv (if line_is_closed r then newline r ind else r) cs ss ∧
    line_is_closed (if line_is_closed r then newline r ind else r) = false ∧
    suffixes (if line_is_closed r then newline r ind else r) = suffixes r) as (Hi' & Hc & Hs).
  { destruct (line_is_closed r) eqn:Ec; [|done]. split; [by apply newline_inv|].
    destruct (i_closed _ _ _ Hi Ec) as [-> _]. unfold newline. by destruct (foldl _ _ _). }
  cbv zeta. set (r' := if line_is_closed r then newline r ind else r) in *.
  destruct (at_line_start r') eqn:Ea; [|done]. cbn. split; [|done].
  apply (inv_blank r' _ (spaces (indent r'))); try done.
  - apply code_spaces.
  - apply ink_spaces.
  - right. apply Forall_replicate, space_no_break, space_is.
Qed.

(** comments that waited, written where they were met. *)
Lemma line_start_le (o : str) a : a <= length o → Forall (λ c, is_break c = false) (drop a o) → line_start o <= a.
Proof.
  assert (∀ s : str, Forall (λ c, is_break c = false) s → after_last_break s = None) as Hn.
  { induction 1 as [|c s Hc _ IH]; [done|]. cbn. by rewrite IH, Hc. }
  unfold line_start, last_line. revert a. induction o as [|c o IH]; intros [|a] Ha Hb; cbn in *; try lia.
  - apply Forall_cons in Hb as [Hc Hb]. rewrite (Hn o Hb), Hc. cbn. lia.
  - specialize (IH a ltac:(lia) Hb). destruct (after_last_break o) as [t|] eqn:E; cbn in *; [lia|].
    destruct (is_break c); cbn; lia.
Qed.

Lemma settle_inv r cs ss : inv r cs ss → line_is_closed r = false →
  ∃ r', settle_suffixes r = Some r' ∧ inv r' cs ss ∧ suffixes r' = [] ∧ line_is_closed r' = false.
Proof.
  intros [Hc Hs Hsafe H1 Hw Ho _] Hcl. specialize (Ho Hcl). unfold settle_suffixes.
  set (start := line_start (out r)). set (li := if at_line_start r then _ else _).
  destruct (suffixes r) as [|s [|]]; cbn in H1; [|..|lia]; cbn [rev app foldl].
  { eexists. split; [done|]. split; [|done]. apply inv_settled; cbn in *; try done; try congruence. by rewrite app_nil_r in Hs. }
  apply Forall_cons in Hw as [(Ha & Hd & Hb & Hta & Hm) _]. pose proof (line_start_le (out r) (s_at s) Ha Hb) as Hst. fold start in Hst.
  cbn in Hs. rewrite app_nil_r in Hs. destruct (ink_suff_mark _ Hm) as [Hms Hmc].
  unfold settle_one. cbn [mbind option_bind]. rewrite Nat.max_l by lia. rewrite decide_True by done.
  set (behind := trim_start is_space (drop (s_at s) (out r))).
  set (kept0 := trim_end is_space (take (s_at s) (out r))).
  assert (∃ ws, (if decide (start < length kept0) then kept0 ++ [space] else kept0 ++ spaces li) = kept0 ++ ws ∧
    Forall (λ c, mark c = Code) ws ∧ ink ws = []) as (ws & -> & Hwc & Hwi).
  { case_decide; eexists; (split; [done|]); split; try apply ink_space; try apply ink_spaces; try apply code_spaces.
    constructor; [apply mark_chr|done]. }
  assert (∃ bs, match behind with [] => [] | _ => spaces (li + INDENT) ++ behind end = bs ∧
    ink bs = ink (drop (s_at s) (out r)) ∧ safe bs ∧ open_end bs) as (bs & -> & Hbi & Hbs & Hbo).
  { assert (ink behind = ink (drop (s_at s) (out r))) as Hbe by (apply ink_trim_start, space_blank).
    assert (safe behind) as Hsb by (apply safe_trim_start; rewrite <-(take_drop (s_at s) (out r)) in Hsafe; by apply chain_app_2 in Hsafe).
    assert (open_end behind) as Hob.
    { destruct (trim_start_app is_space (drop (s_at s) (out r))) as (b & He & _). fold behind in He. intros c Hl. apply Ho.
      rewrite <-(take_drop (s_at s) (out r)), He, app_assoc. destruct behind; [done|]. by rewrite last_app_cons. }
    destruct behind as [|x b] eqn:Eb; [exists []; by rewrite <-Hbe|]. rewrite <-Eb in *. exists (spaces (li + INDENT) ++ behind).
    split; [done|]. rewrite ink_app, ink_spaces. split; [done|]. split.
    - apply safe_app; [apply (safe_mark _ Code), code_spaces|done|apply open_code, code_spaces].
    - apply open_app; [apply open_code, code_spaces|done]. }
  assert (ink kept0 = ink (take (s_at s) (out r))) as Hki by apply ink_trim_end, space_blank.
  assert (safe (take (s_at s) (out r))) as Hst2 by (rewrite <-(take_drop (s_at s) (out r)) in Hsafe; by apply chain_app_1 in Hsafe).
  eexists. split; [done|]. cbn. split; [|done]. apply inv_settled; cbn; try done; try congruence.
  - rewrite <-Hc. rewrite <-(take_drop (s_at s) (out r)).
    rewrite !ink_code_app, Hmc. change (line_break :: bs) with ([line_break] ++ bs). rewrite ink_code_app.
    rewrite (ink_code_blank ws), (ink_code_blank [line_break]) by (done || apply ink_break). cbn.
    unfold ink_code. by rewrite Hki, Hbi, app_nil_r.
  - rewrite <-Hs. rewrite <-(take_drop (s_at s) (out r)). rewrite !ink_suff_app, Hd, Hms, app_nil_r.
    change (line_break :: bs) with ([line_break] ++ bs). rewrite ink_suff_app.
    rewrite (ink_suff_blank ws), (ink_suff_blank [line_break]) by (done || apply ink_break). cbn.
    assert (ink_suff bs = []) as -> by (unfold ink_suff in *; by rewrite Hbi). unfold ink_suff. by rewrite Hki, !app_nil_r.
  - rewrite <-app_assoc. apply safe_app; [by apply safe_trim_end| |by apply open_trim].
    apply safe_app; [by apply (safe_mark _ Code)| |by apply open_code]. apply safe_break; [by apply safe_suffix|done].
  - intros _. rewrite app_assoc. change (line_break :: bs) with ([line_break] ++ bs). rewrite app_assoc.
    apply open_app; [|done]. apply open_snoc, mark_chr.
Qed.

Lemma settle_waiting_inv r cs ss : inv r cs ss →
  ∃ r', settle_waiting r = Some r' ∧ inv r' cs ss ∧ suffixes r' = [] ∧
    (line_is_closed r' = line_is_closed r) ∧ (suffixes r = [] → r' = r).
Proof.
  intros Hi. unfold settle_waiting. destruct (suffixes r) as [|s l] eqn:Es; [by exists r|].
  destruct (line_is_closed r) eqn:Ec; [destruct (i_closed _ _ _ Hi Ec); congruence|].
  destruct (settle_inv r cs ss Hi Ec) as (r' & -> & Hi' & Hs & Hc). by exists r'.
Qed.

(** ** What is written *)

Lemma has_break_false (t : str) : has_break t = false → Forall (λ c, is_break c = false) t.
Proof.
  intros Hb. apply Forall_forall. intros c Hc. destruct (is_break c) eqn:E; [|done].
  assert (has_break t = true) as Ht; [|congruence]. apply existsb_exists. exists c. by rewrite <-list_elem_of_In.
Qed.

Lemma write_text_inv r t ind cs ss : inv r cs ss → Forall (λ c, mark c = Code) t →
  ∃ r', write_text r t ind = Some r' ∧ inv r' (cs ++ ink t) ss.
Proof.
  intros Hi Ht. unfold write_text.
  set (t' := if at_line_start r || line_is_closed r then trim_start is_space t else t).
  assert (ink t' = ink t ∧ Forall (λ c, mark c = Code) t') as [Hit Ht'].
  { unfold t'. destruct (at_line_start r || line_is_closed r); [|done]. split; [apply ink_trim_start, space_blank|].
    destruct (trim_start_app is_space t) as (b & He & _). rewrite He in Ht. by apply Forall_app in Ht as [_ ?]. }
  rewrite <-Hit. cbv zeta. clearbody t'. clear t Ht Hit.
  assert (∃ r1, (if has_break t' then settle_waiting r else Some r) = Some r1 ∧ inv r1 cs ss ∧
    (suffixes r1 = [] ∨ Forall (λ c, is_break c = false) t')) as (r1 & -> & Hi1 & Hb).
  { destruct (has_break t') eqn:Eb; [|exists r; split; [done|]; split; [done|]; right; by apply has_break_false].
    destruct (settle_waiting_inv r cs ss Hi) as (r1 & -> & Hi1 & Hs & _). exists r1. split; [done|]. by split; [|left]. }
  destruct t' as [|c t']; [exists r; split; [done|]; by rewrite app_nil_r|]. cbn [mbind option_bind].
  destruct (open_line_inv r1 cs ss ind Hi1) as (Hi2 & Hc2 & _ & Hs2). set (r2 := open_line r1 ind) in *.
  set (r3 := if after_comment r2 && _ then _ else r2).
  assert (inv r3 cs ss ∧ line_is_closed r3 = false ∧ suffixes r3 = suffixes r1) as (Hi3 & Hc3 & Hs3).
  { unfold r3. destruct (after_comment r2 && _); [|done]. split; [|done].
    apply (inv_blank r2 _ [space]); try done.
    - constructor; [apply mark_chr|done].
    - apply ink_space.
    - right. constructor; [apply space_no_break, space_is|done]. }
  eexists. split; [done|]. eapply (inv_append r3); try done. by rewrite Hs3.
Qed.

Lemma write_comment_inv r t ind cs ss : inv r cs ss → Forall (λ c, mark c = Code) t →
  ∃ r', write_comment r t ind = Some r' ∧ inv r' (cs ++ ink t) ss.
Proof.
  intros Hi Ht. unfold write_comment. destruct (settle_waiting_inv r cs ss Hi) as (r1 & -> & Hi1 & Hs1 & _).
  cbn [mbind option_bind]. set (r2 := if at_line_start r1 then with_indent r1 ind else r1).
  assert (inv r2 cs ss ∧ suffixes r2 = []) as [Hi2 Hs2].
  { unfold r2. destruct (at_line_start r1) eqn:Ea; [|done]. split; [|done]. eapply inv_flags; try done.
    intros Ec. destruct (i_closed _ _ _ Hi1 Ec). congruence. }
  destruct (open_line_inv r2 cs ss ind Hi2) as (Hi3 & Hc3 & _ & Hs3). set (r3 := open_line r2 ind) in *. cbv zeta.
  set (fresh := at_line_start r2 || line_is_closed r2). clearbody fresh.
  eexists. split; [done|].
  assert (∃ ws, (if negb fresh && negb (ends_with (one_of [32; 40; 91; 123]%N) (out r3)) then out r3 ++ [space] else out r3) = out r3 ++ ws ∧
    Forall (λ c, mark c = Code) ws ∧ ink ws = []) as (ws & -> & Hw & Hwi).
  { destruct (negb fresh && _); [|exists []; by rewrite app_nil_r].
    exists [space]. split_and!; [done|constructor; [apply mark_chr|done]|apply ink_space]. }
  replace (ink t) with (ink (ws ++ t)) by (rewrite ink_app; by rewrite Hwi).
  eapply (inv_append r3); try done.
  - by apply Forall_app.
  - left. by rewrite Hs3.
  - cbn. by rewrite app_assoc.
Qed.

Lemma newline_flags (r : Renderer C) ind : suffixes (newline r ind) = [] ∧ line_is_closed (newline r ind) = false ∧ at_line_start (newline r ind) = true.
Proof. unfold newline. by destruct (foldl _ _ _). Qed.

Lemma add_suffix_inv r t ind cs ss : inv r cs ss → is_suffix t →
  ∃ r', add_suffix r t ind = Some r' ∧ inv r' cs (ss ++ ink t) ∧ line_is_closed r' = false.
Proof.
  intros Hi Ht. unfold add_suffix. set (r0 := if line_is_closed r then newline r ind else r).
  assert (inv r0 cs ss ∧ line_is_closed r0 = false) as [Hi0 Hc0].
  { unfold r0. destruct (line_is_closed r) eqn:E; [|done]. split; [by apply newline_inv|apply newline_flags]. }
  destruct (settle_waiting_inv r0 cs ss Hi0) as (r1 & -> & Hi1 & Hs1 & Hc1 & _). rewrite Hc0 in Hc1.
  eexists. split; [done|]. destruct Hi1 as [Hc Hs Hsafe _ _ Ho _]. rewrite Hs1 in *. cbn in Hs. rewrite app_nil_r in Hs.
  split; [|done]. split; cbn; try done.
  - by rewrite app_nil_r, Hs.
  - constructor; [|done]. unfold waits. cbn. rewrite drop_all, take_ge by lia.
    split_and!; [lia|done|done|by apply Ho|done].
  - congruence.
Qed.

Lemma end_line_inv r ind cs ss : inv r cs ss → inv (end_line r ind) cs ss ∧ line_is_closed (end_line r ind) = false ∧
  suffixes (end_line r ind) = [] ∧ at_line_start (end_line r ind) = true.
Proof.
  intros Hi. unfold end_line. destruct (negb (at_line_start r) || line_is_closed r || _) eqn:E.
  - pose proof (newline_flags r ind). split; [by apply newline_inv|]. naive_solver.
  - apply orb_false_iff in E as [[Ea Ec]%orb_false_iff Es]. destruct (suffixes r) eqn:E'; [|done].
    split_and!; [done|done|done|by destruct (at_line_start r)].
Qed.

Lemma blank_line_inv r ind cs ss : inv r cs ss → inv (blank_line r ind) cs ss.
Proof.
  intros Hi. destruct (end_line_inv r ind cs ss Hi) as (Hi1 & Hc1 & Hs1 & Ha1). unfold blank_line.
  set (r1 := end_line r ind) in *. cbv zeta.
  assert (inv (with_indent r1 ind) cs ss) as Hi2 by (eapply inv_flags; try done; congruence).
  destruct (out (with_indent r1 ind)) as [|x o] eqn:Eo; [done|]. rewrite <-Eo.
  destruct (ends_with_two_breaks (out (with_indent r1 ind))); [done|].
  apply (inv_blank (with_indent r1 ind) _ [line_break]); try done.
  - constructor; [apply mark_chr|done].
  - apply ink_break.
  - by left.
Qed.

Lemma own_line_inv r t ind cs ss : inv r cs ss → is_own t → inv (own_line r t ind) (cs ++ ink t) ss.
Proof.
  intros Hi Ht. destruct (end_line_inv r ind cs ss Hi) as (Hi1 & Hc1 & Hs1 & Ha1). unfold own_line.
  set (r1 := end_line r ind) in *. cbv zeta.
  assert (inv (with_indent r1 ind) cs ss) as Hi2 by (eapply inv_flags; try done; congruence).
  destruct (open_line_inv (with_indent r1 ind) cs ss ind Hi2) as (Hi3 & Hc3 & Ha3 & Hs3).
  set (r3 := open_line (with_indent r1 ind) ind) in *.
  assert (Forall (λ c, held c = false) t) as Ht' by (destruct Ht as [n Ht]; by apply (not_held (Own n))).
  destruct (ink_code_mark t Ht') as [Htc Hts]. destruct Hi3 as [Hc Hs Hsafe _ _ Ho _]. specialize (Ho Hc3).
  cbn in Hs3. rewrite Hs3, Hs1 in Hs. cbn in Hs. rewrite app_nil_r in Hs. apply inv_settled; cbn; try done.
  - by rewrite Hs3.
  - by rewrite ink_code_app, Hc, Htc.
  - by rewrite ink_suff_app, Hts, app_nil_r.
  - apply safe_app; [done|destruct Ht as [n ?]; by apply (safe_mark _ (Own n))|done].
Qed.

(** ** The loop *)

(** The texts of a document are marked for what they are. *)
Fixpoint marked (d : Doc C) : Prop :=
  match d with
  | Text t | Comment t => Forall (λ c, mark c = Code) t
  | LineSuffix t => is_suffix t
  | OwnLine t => is_own t
  | Group d _ | Nest d => marked d
  | Concat ds => foldr (λ d, and (marked d)) True ds
  | IfBreak b f => marked b ∧ marked f
  | _ => True
  end.

(** What is to be seen of documents, one after the other, one branch of
    each [IfBreak] being taken: of all but the comments that are held
    back, and of these. *)
Inductive shows : list (Doc C) → str → str → Prop :=
  | sh_nil : shows [] [] []
  | sh_none d ds cs ss : match d with Nil | Line | SoftLine | HardLine | BlankLine | Settle => True | _ => False end →
      shows ds cs ss → shows (d :: ds) cs ss
  | sh_text d t ds cs ss : d = Text t ∨ d = Comment t ∨ d = OwnLine t → shows ds cs ss → shows (d :: ds) (ink t ++ cs) ss
  | sh_suffix t ds cs ss : shows ds cs ss → shows (LineSuffix t :: ds) cs (ink t ++ ss)
  | sh_group d f ds cs ss : shows (d :: ds) cs ss → shows (Group d f :: ds) cs ss
  | sh_nest d ds cs ss : shows (d :: ds) cs ss → shows (Nest d :: ds) cs ss
  | sh_concat l ds cs ss : shows (l ++ ds) cs ss → shows (Concat l :: ds) cs ss
  | sh_broken b f ds cs ss : shows (b :: ds) cs ss → shows (IfBreak b f :: ds) cs ss
  | sh_flat b f ds cs ss : shows (f :: ds) cs ss → shows (IfBreak b f :: ds) cs ss.
End kept.

(** * The loop of the renderer

    Each turn keeps the invariant, writes what the document it takes has to
    show, and leaves less on the stack; so the loop ends, and what it wrote
    is what the document shows. *)

Section kept.
Context {C : Type} `{CharsLaws C, !Marked C, !MarkedLaws C}.
Notation str := (list C).
Notation docs := (fmap (M := list) c_doc).

Definition all_marked (stack : list (Cmd C)) : Prop := Forall (λ c, marked (c_doc c)) stack.

Lemma marked_concat (ds : list (Doc C)) : marked (Concat ds) ↔ Forall marked ds.
Proof. cbn. induction ds as [|d ds IH]; cbn; [done|]. by rewrite Forall_cons, IH. Qed.

Lemma cmds_size_app (a b : list (Cmd C)) : cmds_size (a ++ b) = cmds_size a + cmds_size b.
Proof. apply sum_list_with_app. Qed.

Lemma cmds_size_parts i m (ds : list (Doc C)) : cmds_size (mkCmd i m <$> ds) = sum_list (size <$> ds).
Proof. unfold cmds_size. induction ds as [|d ds IH]; [done|]. cbn in *. by rewrite IH. Qed.

(** One turn: what it writes is what the document at the top has to show,
    what it leaves on the stack shows the rest, and there is less of it. *)
Definition turn_ok (r : Renderer C) (c : Cmd C) (stack : list (Cmd C)) (cs ss : str) : Prop :=
  ∃ r' stack' cs1 ss1, turn r c stack = Some (r', stack') ∧ inv r' (cs ++ cs1) (ss ++ ss1) ∧ all_marked stack' ∧
    cmds_size stack' < size (c_doc c) + cmds_size stack ∧
    ∀ cs2 ss2, shows (docs stack') cs2 ss2 → shows (c_doc c :: docs stack) (cs1 ++ cs2) (ss1 ++ ss2).

Section turns.
Context (r : Renderer C) (ind : nat) (mode : Mode) (d : Doc C) (stack : list (Cmd C)) (cs ss : str) (Hs : all_marked stack).

Lemma turn_none r' : inv r' cs ss → match d with Nil | Line | SoftLine | HardLine | BlankLine | Settle => True | _ => False end →
  turn r (mkCmd ind mode d) stack = Some (r', stack) → turn_ok r (mkCmd ind mode d) stack cs ss.
Proof.
  intros Hi' Hd Ht. exists r', stack, [], []. rewrite !app_nil_r. pose proof (size_pos d).
  split_and!; try done; [cbn; lia|]. intros. by apply sh_none.
Qed.

Lemma turn_text r' t : d = Text t ∨ d = Comment t ∨ d = OwnLine t → inv r' (cs ++ ink t) ss →
  turn r (mkCmd ind mode d) stack = Some (r', stack) → turn_ok r (mkCmd ind mode d) stack cs ss.
Proof.
  intros Hd Hi' Ht. exists r', stack, (ink t), []. rewrite app_nil_r. pose proof (size_pos d).
  split_and!; try done; [cbn; lia|]. intros. by apply sh_text.
Qed.

Lemma turn_inner d' i m : inv r cs ss → turn r (mkCmd ind mode d) stack = Some (r, mkCmd i m d' :: stack) → marked d' → size d' < size d →
  (∀ cs ss, shows (d' :: docs stack) cs ss → shows (d :: docs stack) cs ss) → turn_ok r (mkCmd ind mode d) stack cs ss.
Proof.
  intros Hi Ht Hm' Hlt Hsh. exists r, (mkCmd i m d' :: stack), [], []. rewrite !app_nil_r.
  split_and!; try done; [by constructor|unfold cmds_size; cbn; lia].
Qed.
End turns.

Lemma turn_inv r c stack cs ss :
  inv r cs ss → marked (c_doc c) → all_marked stack → turn_ok r c stack cs ss.
Proof.
  intros Hi Hm Hs. destruct c as [ind mode d]. cbn [c_doc] in *.
  assert (∀ c, turn r (mkCmd ind mode d) stack = c → turn r (mkCmd ind mode d) stack = c) as Hturn by done.
  unfold turn at 1 in Hturn. cbn [c_doc c_mode c_indent] in Hturn.
  destruct d as [|t|t| | | | |inner forced|inner|ds|b f|t|t|].
  - by apply (turn_none _ _ _ _ _ _ _ Hs r).
  - destruct (write_text_inv r t ind cs ss Hi Hm) as (r' & E & Hi'). rewrite E in Hturn.
    apply (turn_text _ _ _ _ _ _ _ Hs r' t); eauto.
  - destruct (write_comment_inv r t ind cs ss Hi Hm) as (r' & E & Hi'). rewrite E in Hturn.
    apply (turn_text _ _ _ _ _ _ _ Hs r' t); eauto.
  - destruct mode.
    + destruct (write_text_inv r [space] ind cs ss Hi) as (r' & E & Hi'); [constructor; [apply mark_chr|done]|].
      rewrite ink_space, app_nil_r in Hi'. rewrite E in Hturn. apply (turn_none _ _ _ _ _ _ _ Hs r'); eauto.
    + apply (turn_none _ _ _ _ _ _ _ Hs (newline r ind)); [by apply newline_inv|done|done].
  - destruct mode; [by apply (turn_none _ _ _ _ _ _ _ Hs r)|].
    apply (turn_none _ _ _ _ _ _ _ Hs (newline r ind)); [by apply newline_inv|done|done].
  - apply (turn_none _ _ _ _ _ _ _ Hs (newline r ind)); [by apply newline_inv|done|done].
  - apply (turn_none _ _ _ _ _ _ _ Hs (blank_line r ind)); [by apply blank_line_inv|done|done].
  - assert (∃ b, (if forced then Some false else fits r (mkCmd ind Flat inner) stack) = Some b) as [b E].
    { destruct forced; [by eexists|]. destruct (fits_total r (mkCmd ind Flat inner) stack) as [b ->]. by eexists. }
    rewrite E in Hturn. eapply (turn_inner _ _ _ _ _ _ _ Hs inner); [done|by apply Hturn|done|cbn; lia|]. intros. by apply sh_group.
  - eapply (turn_inner _ _ _ _ _ _ _ Hs inner); [done|done|done|cbn; lia|]. intros. by apply sh_nest.
  - exists r, ((mkCmd ind mode <$> ds) ++ stack), [], []. rewrite !app_nil_r. apply marked_concat in Hm.
    split_and!; try done.
    + apply Forall_app. split; [|done]. by apply Forall_fmap.
    + rewrite cmds_size_app, cmds_size_parts. cbn. lia.
    + intros cs2 ss2. rewrite fmap_app. intros Hsh. apply sh_concat. cbn.
      replace ds with (docs (mkCmd ind mode <$> ds)); [done|]. rewrite <-list_fmap_compose. apply list_fmap_id.
  - destruct Hm as [Hb Hf]. destruct mode; [eapply (turn_inner _ _ _ _ _ _ _ Hs f)|eapply (turn_inner _ _ _ _ _ _ _ Hs b)];
      try done; try (cbn; lia); intros; [by apply sh_flat|by apply sh_broken].
  - destruct (comment_before_total stack) as [b E]. rewrite E in Hturn. cbn [mbind option_bind] in Hturn.
    destruct (add_suffix_inv r t ind cs ss Hi Hm) as (r1 & E1 & Hi1 & Hc1). rewrite E1 in Hturn. cbn [mbind option_bind] in Hturn.
    assert (∃ r2, (if b then settle_suffixes r1 else Some r1) = Some r2 ∧ inv r2 cs (ss ++ ink t)) as (r2 & E2 & Hi2).
    { destruct b; [|by exists r1]. destruct (settle_inv r1 _ _ Hi1 Hc1) as (r2 & -> & Hi2 & _). by exists r2. }
    rewrite E2 in Hturn. exists r2, stack, [], (ink t). rewrite app_nil_r. split_and!; try done; [by apply Hturn|cbn; lia|].
    intros. by apply sh_suffix.
  - apply (turn_text _ _ _ _ _ _ _ Hs (own_line r t ind) t); [by auto|by apply own_line_inv|done].
  - destruct (settle_waiting_inv r cs ss Hi) as (r' & E & Hi' & _). rewrite E in Hturn.
    apply (turn_none _ _ _ _ _ _ _ Hs r'); eauto.
Qed.

(** The loop. *)
Lemma render_loop_inv fuel r stack cs ss :
  inv r cs ss → all_marked stack → cmds_size stack <= fuel →
  ∃ r' cs' ss', render_loop fuel r stack = Some r' ∧ inv r' (cs ++ cs') (ss ++ ss') ∧ shows (docs stack) cs' ss'.
Proof.
  revert r stack cs ss. induction fuel as [|fuel IH]; intros r [|c stack] cs ss Hi Hm Hf.
  1, 3: exists r, [], []; rewrite !app_nil_r; split_and!; try done; constructor.
  { unfold cmds_size in Hf. cbn in Hf. pose proof (size_pos (c_doc c)). lia. }
  apply Forall_cons in Hm as [Hc Hm]. destruct (turn_inv r c stack cs ss Hi Hc Hm) as (r1 & st & cs1 & ss1 & Ht & Hi1 & Hm1 & Hlt & Hsh).
  cbn [render_loop]. rewrite Ht. cbn [mbind option_bind].
  destruct (IH r1 st _ _ Hi1 Hm1) as (r' & cs' & ss' & -> & Hi' & Hs'); [unfold cmds_size in *; cbn in Hf; lia|].
  exists r', (cs1 ++ cs'), (ss1 ++ ss'). rewrite !app_assoc. split_and!; [done|done|]. by apply Hsh.
Qed.

(** The end: the output ends in one line break, or is empty. *)
Definition one_break (s : str) : Prop := s = [] ∨ ∃ t, s = t ++ [line_break] ∧ t ≠ [] ∧ ends_with is_break t = false.

Lemma finish_inv r cs ss : inv r cs ss →
  ink_code (finish r) = cs ∧ ink_suff (finish r) = ss ∧ safe (finish r) ∧ one_break (finish r).
Proof.
  intros Hi. unfold finish. set (r1 := if negb (at_line_start r) || _ then newline r 0 else r).
  assert (inv r1 cs ss ∧ suffixes r1 = []) as [[Hc Hs Hsafe _ _ _ _] Hs1].
  { unfold r1. destruct (negb (at_line_start r) || _) eqn:E; [by split; [apply newline_inv|apply newline_flags]|].
    apply orb_false_iff in E as [_ E]. by destruct (suffixes r). }
  rewrite Hs1 in Hs. cbn in Hs. rewrite app_nil_r in Hs. cbv zeta.
  rewrite <-(ink_code_trim is_break (out r1) break_blank) in Hc. rewrite <-(ink_suff_trim is_break (out r1) break_blank) in Hs.
  apply (safe_trim_end is_break) in Hsafe.
  assert (ends_with is_break (trim_end is_break (out r1)) = false) as He.
  { unfold ends_with. destruct (last _) as [c|] eqn:El; [|done]. by apply trim_end_last in El. }
  set (o := trim_end is_break (out r1)) in *. destruct o as [|c o'] eqn:Eo; [split_and!; [done..|by left]|]. rewrite <-Eo in *.
  split_and!.
  - rewrite ink_code_app, (ink_code_blank [line_break]) by apply ink_break. by rewrite app_nil_r.
  - rewrite ink_suff_app, (ink_suff_blank [line_break]) by apply ink_break. by rewrite app_nil_r.
  - by apply safe_break.
  - right. exists o. split_and!; [done|by rewrite Eo|done].
Qed.

Lemma inv_new w : inv (renderer_new w) [] [].
Proof. apply inv_settled; try done. Qed.

(** Rendering a marked document. *)
Lemma render_marked (d : Doc C) w : marked d →
  ∃ s, render d w = Some s ∧ shows [d] (ink_code s) (ink_suff s) ∧ safe s ∧ one_break s.
Proof.
  intros Hm. destruct (render_loop_inv (size d) (renderer_new w) [mkCmd 0 Break d] [] []) as (r & cs & ss & Hr & Hi & Hs).
  - apply inv_new.
  - by constructor.
  - unfold cmds_size. cbn. lia.
  - unfold render. rewrite Hr. cbn [mbind option_bind]. destruct (finish_inv r _ _ Hi) as (Hc & Hss & Hsafe & Hb).
    exists (finish r). rewrite Hc, Hss. done.
Qed.

(** In such an output a character of a line comment has one after it: of
    the same comment, or the end of the line. *)
Lemma comment_followed s i c : safe s → one_break s → s !! i = Some c → mark c ≠ Code →
  ∃ c', s !! S i = Some c' ∧ (mark c' = mark c ∨ is_break c' = true).
Proof.
  intros Hs Hb Hi Hm. destruct (s !! S i) as [c'|] eqn:E.
  - exists c'. split; [done|]. by destruct (chain_lookup _ _ _ _ _ Hs Hi E) as [?|].
  - exfalso. apply Hm. pose proof (lookup_lt_Some _ _ _ Hi). apply lookup_ge_None in E.
    destruct Hb as [->|(t & -> & _)]; [done|]. rewrite length_app in *. cbn in *.
    rewrite lookup_app_r in Hi by lia. replace (i - length t) with 0 in Hi by lia. cbn in Hi. injection Hi as <-. apply mark_chr.
Qed.
End kept.

(** * No line ends in a space

    Where no line inside a text does: the renderer takes the spaces off
    the end of every line that it ends. *)

Section clean.
Context {C : Type} `{CharsLaws C, !Marked C, !MarkedLaws C}.
Notation str := (list C).

Definition no_space_before_break (c d : C) : Prop := is_space c = true → is_break d = false.
Definition clean (s : str) : Prop := chain no_space_before_break s.
Definition clean_text (s : str) : Prop := clean s ∧ starts_with is_break s = false.
Definition clean_suffix (s : str) : Prop := clean_text s ∧ ends_with is_space s = false ∧ s ≠ [].

Fixpoint clean_doc (d : Doc C) : Prop :=
  match d with
  | Text t | Comment t | OwnLine t => clean_text t
  | LineSuffix t => clean_suffix t
  | Group d _ | Nest d => clean_doc d
  | Concat ds => foldr (λ d, and (clean_doc d)) True ds
  | IfBreak b f => clean_doc b ∧ clean_doc f
  | _ => True
  end.

#[local] Arguments clean : simpl never.
#[local] Arguments clean_text : simpl never.
#[local] Arguments clean_suffix : simpl never.
#[local] Arguments trim_end : simpl never.
#[local] Arguments trim_start : simpl never.

Lemma clean_app (s t : str) : clean s → clean t → ends_with is_space s = false ∨ starts_with is_break t = false → clean (s ++ t).
Proof.
  intros Hs Ht Hst. apply chain_app. split_and!; [done|done|]. intros x y Hx Hy Hxs. destruct Hst as [He|He].
  - unfold ends_with in He. rewrite Hx in He. congruence.
  - destruct t; [done|]. by injection Hy as ->.
Qed.

Lemma clean_append (s t : str) : clean s → clean_text t → clean (s ++ t).
Proof. intros Hs [Ht Hb]. by apply clean_app; [..|right]. Qed.

Lemma clean_text_app (s t : str) : clean_text s → clean_text t → clean_text (s ++ t).
Proof. intros [Hs Hb] Ht. split; [by apply clean_append|]. destruct s; [apply Ht|done]. Qed.

Lemma clean_no_break (s : str) : Forall (λ c, is_break c = false) s → clean_text s.
Proof.
  intros Hs. split.
  - apply chain_all. intros x y _ Hy _. by apply (proj1 (Forall_forall _ _) Hs).
  - destruct Hs; done.
Qed.

Lemma clean_spaces n : clean_text (spaces n : str).
Proof. apply clean_no_break, Forall_replicate, space_no_break, space_is. Qed.

Lemma clean_trim_end p (s : str) : clean s → clean (trim_end p s).
Proof. intros Hs. destruct (trim_end_app p s) as (b & He & _). rewrite He in Hs. by apply chain_app_1 in Hs. Qed.

Lemma clean_trim_start (s : str) : clean_text s → clean_text (trim_start is_space s).
Proof.
  intros [Hs Hb]. destruct (trim_start_app is_space s) as (b & He & Hsp). set (t := trim_start is_space s) in *. rewrite He in Hs, Hb.
  apply chain_app in Hs as (_ & Ht & Hn). split; [done|]. destruct t as [|y t']; [done|].
  destruct (last b) as [x|] eqn:El; [|apply last_None in El; by rewrite El in Hb].
  cbn. apply (Hn x y); [done..|]. by apply (proj1 (Forall_forall _ _) Hsp), last_Some_elem_of.
Qed.

Lemma trimmed_end (s : str) : ends_with is_space (trim_end is_space s) = false.
Proof. unfold ends_with. destruct (last _) eqn:E; [|done]. by apply trim_end_last in E. Qed.

Lemma ends_snoc p (s : str) c : ends_with p (s ++ [c]) = p c.
Proof. unfold ends_with. by rewrite last_snoc. Qed.

Lemma break_no_space (c : C) : is_break c = true → is_space c = false.
Proof. intros Hb. destruct (is_space c) eqn:E; [|done]. apply space_no_break in E. congruence. Qed.

Lemma ends_break_no_space (s : str) : ends_with is_break s = true → ends_with is_space s = false.
Proof. unfold ends_with. destruct (last s); [apply break_no_space|done]. Qed.

Lemma clean_break (s : str) : clean s → ends_with is_space s = false →
  clean (s ++ [line_break]) ∧ ends_with is_space (s ++ [line_break]) = false.
Proof.
  intros Hs He. split; [apply clean_app; [done|by split|by left]|]. rewrite ends_snoc. apply break_no_space, break_is.
Qed.

Lemma ends_app p (s t : str) : t ≠ [] → ends_with p (s ++ t) = ends_with p t.
Proof. destruct t as [|x t]; [done|]. intros _. unfold ends_with. by rewrite last_app_cons. Qed.

(** ** What is written *)
Record neat (r : Renderer C) : Prop := {
  n_clean : clean (out r);
  n_start : at_line_start r = true → ends_with is_space (out r) = false;
  n_suffixes : Forall (λ s, clean_suffix (s_text s)) (suffixes r);
}.

Lemma newline_neat r ind : neat r → neat (newline r ind).
Proof.
  intros [Hc _ Hs]. unfold newline.
  assert (∀ o b, clean o → clean (foldl (write_suffix (indent r)) (o, b) (suffixes r)).1) as Hf.
  { clear Hc. induction Hs as [|s l [Ht _] _ IH]; intros o b Ho; [done|]. cbn [foldl]. destruct b; apply IH; apply clean_append.
    - done.
    - by apply clean_text_app; [apply clean_spaces|].
    - by apply clean_trim_end.
    - by apply (clean_text_app [space]); [apply (clean_spaces 1)|]. }
  specialize (Hf (out r) (at_line_start r) Hc). destruct (foldl _ _ _) as [o b]. cbn in Hf.
  destruct (clean_break (trim_end is_space o) (clean_trim_end _ _ Hf) (trimmed_end o)). by split.
Qed.

Lemma neat_append r r' t : neat r → clean_text t → out r' = out r ++ t → at_line_start r' = false → suffixes r' = suffixes r → neat r'.
Proof. intros [Hc _ Hs] Ht Eo Ea Es. split; rewrite ?Eo, ?Ea, ?Es; [by apply clean_append|done|done]. Qed.

Lemma neat_flags r r' : neat r → out r' = out r → at_line_start r' = at_line_start r → suffixes r' = suffixes r → neat r'.
Proof. intros [Hc Ha Hs] Eo Ea Es. split; rewrite ?Eo, ?Ea, ?Es; done. Qed.

Lemma if_newline_neat (b : bool) r ind : neat r → neat (if b then newline r ind else r).
Proof. destruct b; [apply newline_neat|done]. Qed.

Lemma open_line_neat r ind : neat r → neat (open_line r ind).
Proof.
  intros Hn%(if_newline_neat (line_is_closed r) _ ind). unfold open_line. cbv zeta.
  set (r' := if line_is_closed r then newline r ind else r) in *. destruct (at_line_start r'); [|done].
  by apply (neat_append r' _ _ Hn (clean_spaces (indent r'))).
Qed.

Lemma settle_neat r cs ss : neat r → inv r cs ss → ∀ r', settle_suffixes r = Some r' → neat r'.
Proof.
  intros [Hc Hst Hs] [_ _ _ H1 Hw _ _] r' E.
  assert (clean (out r') ∧ at_line_start r' = ends_with is_break (out r') ∧ suffixes r' = []) as (Hc' & Ha & Hs').
  2: { split; [done|intros Hb; apply ends_break_no_space; congruence|by rewrite Hs']. }
  unfold settle_suffixes in E. set (start := line_start (out r)) in E. set (li := if at_line_start r then _ else _) in E.
  destruct (suffixes r) as [|s [|]]; cbn in H1; [|..|lia]; cbn [rev app foldl] in E; [by injection E as <-|].
  apply Forall_cons in Hw as [(Hat & _ & Hb & _) _]. apply Forall_cons in Hs as [(Ht & He & Hne) _].
  pose proof (line_start_le (out r) (s_at s) Hat Hb) as Hle. fold start in Hle.
  unfold settle_one in E. cbn [mbind option_bind] in E. rewrite Nat.max_l in E by lia. rewrite decide_True in E by done.
  injection E as <-. cbn. split; [|done].
  set (kept0 := trim_end is_space (take (s_at s) (out r))).
  assert (∃ ws, (if decide (start < length kept0) then kept0 ++ [space] else kept0 ++ spaces li) = kept0 ++ ws ∧ clean_text ws) as (ws & -> & Hws).
  { case_decide; eexists; (split; [done|]); [apply (clean_spaces 1)|apply clean_spaces]. }
  assert (clean (kept0 ++ ws ++ s_text s)) as Hk.
  { apply clean_append; [|by apply clean_text_app]. apply clean_trim_end.
    rewrite <-(take_drop (s_at s) (out r)) in Hc. by apply chain_app_1 in Hc. }
  assert (ends_with is_space (kept0 ++ ws ++ s_text s) = false) as Hke by (by rewrite app_assoc, ends_app).
  destruct (clean_break _ Hk Hke) as [Hkb _]. rewrite <-!app_assoc in *. rewrite !app_assoc in *.
  change (?a ++ line_break :: ?b) with (a ++ [line_break] ++ b). rewrite app_assoc. apply clean_append; [done|].
  assert (clean_text (trim_start is_space (drop (s_at s) (out r)))) as Hbe by (by apply clean_trim_start, clean_no_break).
  destruct (trim_start is_space (drop (s_at s) (out r))); [done|]. by apply clean_text_app; [apply clean_spaces|].
Qed.

Lemma settle_waiting_neat r cs ss : neat r → inv r cs ss → ∀ r', settle_waiting r = Some r' → neat r'.
Proof.
  intros Hn Hi r'. unfold settle_waiting. destruct (suffixes r); [by intros [= <-]|]. by eapply settle_neat.
Qed.

Lemma opened r ind : at_line_start (open_line r ind) = false.
Proof. unfold open_line. cbv zeta. by destruct (at_line_start (if line_is_closed r then newline r ind else r)) eqn:E. Qed.

Lemma write_text_neat r t ind cs ss : neat r → inv r cs ss → clean_text t → ∀ r', write_text r t ind = Some r' → neat r'.
Proof.
  intros Hn Hi Ht r'. unfold write_text. set (t' := if at_line_start r || line_is_closed r then trim_start is_space t else t).
  assert (clean_text t') as Ht' by (unfold t'; destruct (at_line_start r || line_is_closed r); [by apply clean_trim_start|done]).
  cbv zeta. clearbody t'. destruct t' as [|c t']; [by intros [= <-]|].
  destruct (if has_break (c :: t') then settle_waiting r else Some r) as [r1|] eqn:E; [|done]. cbn [mbind option_bind]. intros [= <-].
  assert (neat r1) as Hn1 by (destruct (has_break _); [by eapply settle_waiting_neat|by injection E as <-]).
  pose proof (open_line_neat r1 ind Hn1) as Hn2. pose proof (opened r1 ind) as Ha. set (r2 := open_line r1 ind) in *. clearbody r2.
  set (r3 := if after_comment r2 && _ then _ else r2).
  assert (neat r3 ∧ at_line_start r3 = false) as [Hn3 Ha3].
  { unfold r3. destruct (after_comment r2 && _); [|done]. split; [|done]. by apply (neat_append r2 _ [space] Hn2 (clean_spaces 1)). }
  by apply (neat_append r3 _ _ Hn3 Ht').
Qed.

Lemma write_comment_neat r t ind cs ss : neat r → inv r cs ss → clean_text t → ∀ r', write_comment r t ind = Some r' → neat r'.
Proof.
  intros Hn Hi Ht r'. unfold write_comment. destruct (settle_waiting r) as [r1|] eqn:E; [|done]. cbn [mbind option_bind].
  pose proof (settle_waiting_neat _ _ _ Hn Hi _ E) as Hn1. intros [= <-].
  set (r2 := if at_line_start r1 then with_indent r1 ind else r1).
  assert (neat r2) as Hn2 by (unfold r2; destruct (at_line_start r1); [by apply (neat_flags r1)|done]).
  pose proof (open_line_neat r2 ind Hn2) as Hn3. pose proof (opened r2 ind) as Ha.
  set (r3 := open_line r2 ind) in *. set (sp := negb (at_line_start r2 || line_is_closed r2) && _). clearbody r3 sp.
  destruct sp; [|by apply (neat_append r3 _ t)].
  apply (neat_append r3 _ ([space] ++ t)); [done| |by cbn; rewrite <-app_assoc|done..].
  by apply clean_text_app; [apply (clean_spaces 1)|].
Qed.

Lemma add_suffix_neat r t ind cs ss : neat r → inv r cs ss → clean_suffix t → ∀ r', add_suffix r t ind = Some r' → neat r'.
Proof.
  intros Hn Hi Ht r'. unfold add_suffix. set (r0 := if line_is_closed r then newline r ind else r).
  assert (inv r0 cs ss) as Hi0 by (unfold r0; destruct (line_is_closed r); [by apply newline_inv|done]).
  apply (if_newline_neat (line_is_closed r) _ ind) in Hn. fold r0 in Hn. destruct (settle_waiting r0) as [r1|] eqn:E; [|done].
  destruct (settle_waiting_neat _ _ _ Hn Hi0 _ E) as [Hc Ha Hs]. intros [= <-]. split; cbn; [done|done|].
  apply Forall_app. split; [done|]. by constructor.
Qed.

Lemma end_line_neat r ind : neat r → neat (with_indent (end_line r ind) ind).
Proof. intros Hn. apply (neat_flags (end_line r ind)); [|done..]. by apply if_newline_neat. Qed.

Lemma blank_line_neat r ind : neat r → neat (blank_line r ind).
Proof.
  intros Hn%(end_line_neat _ ind). unfold blank_line. cbv zeta.
  assert (at_line_start (with_indent (end_line r ind) ind) = true) as Ha.
  { cbn. unfold end_line. destruct (at_line_start r) eqn:Ea; cbn; [|apply newline_flags].
    destruct (line_is_closed r || _); [apply newline_flags|done]. }
  set (r1 := with_indent (end_line r ind) ind) in *. clearbody r1.
  destruct (out r1) eqn:Eo; [done|]. rewrite <-Eo. destruct (ends_with_two_breaks (out r1)); [done|].
  destruct Hn as [Hc Hst Hs]. destruct (clean_break _ Hc (Hst Ha)). by split.
Qed.

Lemma own_line_neat r t ind : neat r → clean_text t → neat (own_line r t ind).
Proof.
  intros Hn%(end_line_neat _ ind)%(open_line_neat _ ind) Ht. apply (neat_append _ _ t Hn Ht); [done|apply opened|done].
Qed.

Lemma clean_concat (ds : list (Doc C)) : clean_doc (Concat ds) ↔ Forall clean_doc ds.
Proof. cbn. induction ds as [|d ds IH]; cbn; [done|]. by rewrite Forall_cons, IH. Qed.

Definition all_clean (stack : list (Cmd C)) : Prop := Forall (λ c, clean_doc (c_doc c)) stack.

Lemma turn_neat r c stack cs ss : neat r → inv r cs ss → marked (c_doc c) → all_clean (c :: stack) →
  ∀ r' stack', turn r c stack = Some (r', stack') → neat r' ∧ all_clean stack'.
Proof.
  intros Hn Hi Hm [Hd Hs]%Forall_cons r' stack'. destruct c as [ind mode d]. unfold turn. cbn [c_doc c_mode c_indent] in *.
  destruct d as [|t|t| | | | |inner forced|inner|ds|b f|t|t|]; cbn [clean_doc] in Hd.
  - by intros [= <- <-].
  - intros (r1 & E & [= <- <-])%bind_Some. split; [|done]. by eapply write_text_neat.
  - intros (r1 & E & [= <- <-])%bind_Some. split; [|done]. by eapply write_comment_neat.
  - destruct mode.
    + intros (r1 & E & [= <- <-])%bind_Some. split; [|done]. by eapply write_text_neat; [..|apply (clean_spaces 1)|].
    + intros [= <- <-]. split; [by apply newline_neat|done].
  - destruct mode; intros [= <- <-]; [done|]. split; [by apply newline_neat|done].
  - intros [= <- <-]. split; [by apply newline_neat|done].
  - intros [= <- <-]. split; [by apply blank_line_neat|done].
  - intros (fl & _ & [= <- <-])%bind_Some. split; [done|]. by constructor.
  - intros [= <- <-]. split; [done|]. by constructor.
  - intros [= <- <-]. apply clean_concat in Hd. split; [done|]. apply Forall_app. split; [|done]. by apply Forall_fmap.
  - intros [= <- <-]. split; [done|]. constructor; [by destruct mode, Hd|done].
  - intros (br & _ & (r1 & E & (r2 & E2 & [= <- <-])%bind_Some)%bind_Some)%bind_Some. split; [|done].
    pose proof (add_suffix_neat _ _ _ _ _ Hn Hi Hd _ E) as Hn1. destruct br; [|by injection E2 as <-].
    destruct (add_suffix_inv r t ind cs ss Hi Hm) as (r1' & E' & Hi1 & _). rewrite E in E'. injection E' as <-.
    by eapply settle_neat.
  - intros [= <- <-]. split; [by apply own_line_neat|done].
  - intros (r1 & E & [= <- <-])%bind_Some. split; [|done]. by eapply settle_waiting_neat.
Qed.

Lemma render_loop_neat fuel r stack cs ss : neat r → inv r cs ss → all_marked stack → all_clean stack →
  ∀ r', render_loop fuel r stack = Some r' → neat r'.
Proof.
  revert r stack cs ss. induction fuel as [|fuel IH]; intros r [|c stack] cs ss Hn Hi Hm Hd r'; cbn [render_loop];
    [by intros [= <-]|done|by intros [= <-]|].
  intros ([r1 st] & E & Hr)%bind_Some. destruct (turn_neat _ _ _ _ _ Hn Hi (Forall_inv Hm) Hd _ _ E) as [Hn1 Hd1].
  apply Forall_cons in Hm as [Hc Hm].
  destruct (turn_inv r c stack cs ss Hi Hc Hm) as (r2 & st2 & cs1 & ss1 & E2 & Hi2 & Hm2 & _). rewrite E in E2.
  injection E2 as <- <-. by eapply IH.
Qed.

(** What is before the line breaks at the end. *)
Lemma clean_trim_breaks (s : str) : clean s → ends_with is_space s = false → ends_with is_space (trim_end is_break s) = false.
Proof.
  intros Hs He. destruct (trim_end_app is_break s) as (b & Eq & Hb). set (t := trim_end is_break s) in *.
  rewrite Eq in Hs, He. destruct b as [|x b]; [by rewrite app_nil_r in He|].
  unfold ends_with. destruct (last t) as [y|] eqn:El; [|done]. destruct (is_space y) eqn:Ey; [|done].
  apply chain_app in Hs as (_ & _ & Hn). apply Forall_cons in Hb as [Hx _].
  pose proof (Hn y x El eq_refl Ey). congruence.
Qed.

Lemma finish_clean r : neat r → clean (finish r).
Proof.
  intros Hn. unfold finish. cbv zeta. set (b := negb (at_line_start r) || _).
  assert (at_line_start (if b then newline r 0 else r) = true) as Ha.
  { unfold b. destruct (at_line_start r) eqn:E; cbn; [|apply newline_flags]. destruct (suffixes r); cbn; [done|apply newline_flags]. }
  apply (if_newline_neat b _ 0) in Hn. set (r1 := if b then newline r 0 else r) in *. clearbody r1.
  destruct Hn as [Hc Hst _]. pose proof (clean_trim_breaks _ Hc (Hst Ha)) as He.
  pose proof (clean_trim_end is_break _ Hc) as Hct. destruct (trim_end is_break (out r1)) as [|x o] eqn:Eo; [done|]. rewrite <-Eo in *.
  by apply clean_break.
Qed.

Lemma render_clean (d : Doc C) w s : marked d → clean_doc d → render d w = Some s → clean s.
Proof.
  intros Hm Hd. unfold render. intros (r & Hr & [= <-])%bind_Some. apply finish_clean.
  eapply render_loop_neat; [| | | |exact Hr].
  - by split.
  - apply inv_new.
  - by constructor.
  - by constructor.
Qed.
End clean.
