(* ===== verification/DocMap.v ===== *)
(** * The renderer looks at codes only

    A map of characters that keeps their codes, and the spaces and line
    breaks the renderer writes, can be made before or after rendering. *)

From S2P Require Import Prelude Doc.

Open Scope nat_scope.

Section map.
Context {C D : Type} `{Chars C, Chars D} (f : C → D).
Hypothesis f_code : ∀ c, code (f c) = code c.
Hypothesis f_chr : ∀ n, f (chr n) = chr n.

Implicit Types (s : list C) (c : C) (d : Doc C).
Notation fmap_str := (fmap (M := list) f).

Fixpoint map_doc (d : Doc C) : Doc D :=
  match d with
  | Nil => Nil
  | Text t => Text (f <$> t)
  | Comment t => Comment (f <$> t)
  | Line => Line
  | SoftLine => SoftLine
  | HardLine => HardLine
  | BlankLine => BlankLine
  | Group d b => Group (map_doc d) b
  | Nest d => Nest (map_doc d)
  | Concat ds => Concat (map_doc <$> ds)
  | IfBreak b l => IfBreak (map_doc b) (map_doc l)
  | LineSuffix t => LineSuffix (f <$> t)
  | OwnLine t => OwnLine (f <$> t)
  | Settle => Settle
  end.

Definition map_cmd (c : Cmd C) : Cmd D := mkCmd (c_indent c) (c_mode c) (map_doc (c_doc c)).
Definition map_suffix (s : Suffix C) : Suffix D := mkSuffix (f <$> s_text s) (s_at s).
Definition map_r (r : Renderer C) : Renderer D :=
  mkRenderer (width r) (f <$> out r) (col r) (at_line_start r) (indent r) (map_suffix <$> suffixes r)
    (line_is_closed r) (after_comment r).

Lemma map_is_space c : is_space (f c) = is_space c.
Proof. unfold is_space. by rewrite f_code. Qed.
Lemma map_is_break c : is_break (f c) = is_break c.
Proof. unfold is_break. by rewrite f_code. Qed.
Lemma map_one_of cs c : one_of cs (f c) = one_of cs c.
Proof. unfold one_of. by rewrite f_code. Qed.

Lemma map_rev {A B} (g : A → B) l : rev (g <$> l) = g <$> rev l.
Proof. symmetry. apply map_rev. Qed.

Section trims.
Context (p : C → bool) (q : D → bool) (Hp : ∀ c, q (f c) = p c).
Lemma map_trim_start s : trim_start q (f <$> s) = f <$> trim_start p s.
Proof. induction s as [|c s IH]; [done|]. cbn. rewrite Hp. by destruct (p c). Qed.
Lemma map_trim_end s : trim_end q (f <$> s) = f <$> trim_end p s.
Proof. unfold trim_end. by rewrite map_rev, map_trim_start, map_rev. Qed.
Lemma map_take_while s : take_while q (f <$> s) = f <$> take_while p s.
Proof. induction s as [|c s IH]; [done|]. cbn. rewrite Hp. destruct (p c); [|done]. cbn. by rewrite IH. Qed.
Lemma map_existsb s : existsb q (f <$> s) = existsb p s.
Proof. induction s as [|c s IH]; [done|]. cbn. by rewrite Hp, IH. Qed.
Lemma map_starts_with s : starts_with q (f <$> s) = starts_with p s.
Proof. destruct s; [done|]. apply Hp. Qed.
Lemma map_ends_with s : ends_with q (f <$> s) = ends_with p s.
Proof. unfold ends_with. rewrite fmap_last. destruct (last s); [apply Hp|done]. Qed.
End trims.

Lemma map_split_once s : split_once (f <$> s) = (λ p : list C * list C, (f <$> p.1, f <$> p.2)) <$> split_once s.
Proof.
  induction s as [|c s IH]; [done|]. cbn. rewrite map_is_break. destruct (is_break c); [done|].
  cbn in IH. rewrite IH. by destruct (split_once s) as [[]|].
Qed.
Lemma map_after_last_break s : after_last_break (f <$> s) = fmap_str <$> after_last_break s.
Proof.
  induction s as [|c s IH]; [done|]. cbn. cbn in IH. rewrite IH, map_is_break. destruct (after_last_break s); [done|].
  by destruct (is_break c).
Qed.
Lemma map_last_line s : last_line (f <$> s) = f <$> last_line s.
Proof. unfold last_line. rewrite map_after_last_break. by destruct (after_last_break s). Qed.
Lemma map_line_start s : line_start (f <$> s) = line_start s.
Proof. unfold line_start. by rewrite map_last_line, !length_fmap. Qed.
Lemma map_has_break s : has_break (f <$> s) = has_break s.
Proof. apply map_existsb, map_is_break. Qed.
Lemma map_two_breaks s : ends_with_two_breaks (f <$> s) = ends_with_two_breaks s.
Proof. unfold ends_with_two_breaks. rewrite map_rev. destruct (rev s) as [|a [|b l]]; cbn; [done|done|]. by rewrite !map_is_break. Qed.
Lemma map_spaces n : spaces n = f <$> (spaces n : list C).
Proof. unfold spaces, space. by rewrite fmap_replicate, f_chr. Qed.
Lemma map_line_break : [line_break] = f <$> [line_break : C].
Proof. unfold line_break. cbn. by rewrite f_chr. Qed.
Lemma map_space : [space] = f <$> [space : C].
Proof. apply (map_spaces 1). Qed.

Lemma map_size d : size (map_doc d) = size d.
Proof.
  revert d. fix IH 1. intros [| | | | | | |d b|d|ds|b l| | |]; cbn; try done; try (by rewrite IH); [|by rewrite !IH].
  f_equal. induction ds as [|d ds IHds]; [done|]. cbn. by rewrite IH, IHds.
Qed.

Lemma map_cmds_size cs : cmds_size (map_cmd <$> cs) = cmds_size cs.
Proof. unfold cmds_size. induction cs as [|c cs IH]; [done|]. cbn. by rewrite map_size, IH. Qed.

Lemma map_comment_loop fuel stack rest :
  comment_loop fuel (prod_map id map_doc <$> stack) (map_cmd <$> rest) = comment_loop fuel stack rest.
Proof.
  revert stack rest. induction fuel as [|fuel IH]; intros stack rest; [done|].
  assert (∀ b d st rest, comment_look (λ st, comment_loop fuel st (map_cmd <$> rest)) b (map_doc d) (prod_map id map_doc <$> st) =
    comment_look (λ st, comment_loop fuel st rest) b d st) as Hl.
  { intros b d st rest'. destruct d as [|t| | | | | | | |ds|bd fd| | |]; cbn -[fmap]; try done;
      try (rewrite <-IH; by rewrite ?fmap_cons).
    - rewrite map_has_break. by rewrite IH.
    - rewrite <-IH, fmap_app, <-!list_fmap_compose. done.
    - rewrite <-IH, fmap_cons. by destruct b. }
  cbn [comment_loop]. destruct stack as [|[b d] stack]; [destruct rest as [|c rest]; [done|]|].
  - apply (Hl _ _ []).
  - apply Hl.
Qed.

Definition map_step (s : Step C) : Step D := match s with SDoc c => SDoc (map_cmd c) | GroupEnd => GroupEnd end.

Lemma map_fits_loop fuel w left depth sd stack rest :
  fits_loop fuel w left depth sd (map_step <$> stack) (map_cmd <$> rest) = fits_loop fuel w left depth sd stack rest.
Proof.
  revert left depth sd stack rest. induction fuel as [|fuel IH]; intros left depth sd stack rest; [done|].
  assert (∀ l de sd x st rest, fits_look (λ l de sd st, fits_loop fuel w l de sd st (map_cmd <$> rest)) w l de sd (map_cmd x) (map_step <$> st) =
    fits_look (λ l de sd st, fits_loop fuel w l de sd st rest) w l de sd x st) as Hl.
  { intros l de sd' [i m d] st rest'. unfold fits_look. cbn [c_doc c_mode c_indent map_cmd].
    destruct d as [|t| | | | | | | |ds|bd fd| | |]; cbn -[fmap Z.ltb Z.leb Z.of_nat]; rewrite ?IH; try done.
    - rewrite map_split_once. destruct (split_once t) as [[first more]|]; cbn [fmap option_fmap option_map fst snd];
        rewrite ?map_last_line, ?length_fmap, ?IH; done.
    - do 2 case_match; try done; by rewrite <-IH.
    - case_match; [done|]. by rewrite <-IH.
    - case_match; [done|]. rewrite <-IH, fmap_app, <-!list_fmap_compose. done.
    - case_match; [done|]. rewrite <-IH. by destruct m. }
  cbn [fits_loop]. destruct stack as [|[c|] stack]; [destruct rest as [|c rest]; [done|]|..].
  - apply (Hl _ _ _ _ []).
  - apply Hl.
  - apply IH.
Qed.

Lemma map_fits r i m d rest : fits (map_r r) (mkCmd i m (map_doc d)) (map_cmd <$> rest) = fits r (mkCmd i m d) rest.
Proof.
  unfold fits. cbn [c_doc width at_line_start indent col map_r]. rewrite map_size, map_cmds_size.
  apply (map_fits_loop _ _ _ _ _ [SDoc (mkCmd i m d)]).
Qed.

(** What is written. *)
Lemma map_newline r ind : newline (map_r r) ind = map_r (newline r ind).
Proof.
  unfold newline. cbn [indent out at_line_start suffixes width map_r].
  assert (∀ l o b, foldl (write_suffix (indent r)) (f <$> o, b) (map_suffix <$> l) =
    prod_map (fmap f) id (foldl (write_suffix (indent r)) (o, b) l)) as Hf.
  { induction l as [|s l IH]; intros o b; [done|]. rewrite fmap_cons. cbn [foldl].
    assert (write_suffix (indent r) (f <$> o, b) (map_suffix s) = prod_map (fmap f) id (write_suffix (indent r) (o, b) s)) as ->;
      [|destruct (write_suffix _ (o, b) s); apply IH].
    unfold write_suffix. cbn [s_text map_suffix]. destruct b; unfold prod_map; cbn [fst snd];
      rewrite !fmap_app, <-?map_spaces, <-?map_space, ?(map_trim_end is_space is_space map_is_space); done. }
  rewrite Hf. destruct (foldl _ (out r, at_line_start r) (suffixes r)) as [o b]. cbn [prod_map fst snd]. unfold map_r. cbn.
  f_equal. rewrite fmap_app, <-map_line_break. by rewrite (map_trim_end is_space is_space map_is_space).
Qed.

Lemma map_open_line r ind : open_line (map_r r) ind = map_r (open_line r ind).
Proof.
  unfold open_line. cbn [line_is_closed map_r].
  assert ((if line_is_closed r then newline (map_r r) ind else map_r r) = map_r (if line_is_closed r then newline r ind else r)) as ->
    by (destruct (line_is_closed r); [apply map_newline|done]).
  cbv zeta. set (r' := if line_is_closed r then newline r ind else r).
  change (at_line_start (map_r r')) with (at_line_start r'). destruct (at_line_start r'); [|done].
  unfold map_r. cbn. by rewrite fmap_app, <-map_spaces.
Qed.

Lemma map_push r t : push (map_r r) (f <$> t) = map_r (push r t).
Proof.
  unfold push, with_out, map_r. cbn [width out col at_line_start indent suffixes line_is_closed after_comment].
  rewrite map_after_last_break, fmap_app, length_fmap. destruct (after_last_break t); cbn; by rewrite ?length_fmap.
Qed.

Lemma fmap_of_some {A B} (g : A → B) x : g <$> Some x = Some (g x).
Proof. done. Qed.

Lemma map_settle_one start li (o : option (list C)) (s : Suffix C) :
  settle_one start li (fmap_str <$> o) (map_suffix s) = fmap_str <$> settle_one start li o s.
Proof.
  destruct o as [o|]; [|done]. unfold settle_one. cbn [fmap option_fmap option_map mbind option_bind s_at s_text map_suffix].
  change (list_fmap C D f o) with (f <$> o). rewrite length_fmap. case_decide; [|done].
  rewrite fmap_of_some. f_equal. rewrite <-fmap_drop, <-fmap_take, (map_trim_end is_space is_space map_is_space), (map_trim_start is_space is_space map_is_space), length_fmap.
  rewrite !fmap_app, <-map_line_break. f_equal; [|do 2 f_equal].
  - case_decide; rewrite fmap_app, <-?map_spaces, <-?map_space; done.
  - destruct (trim_start is_space (drop _ o)); [done|]. rewrite fmap_app, <-map_spaces. done.
Qed.

Lemma map_settle r : settle_suffixes (map_r r) = map_r <$> settle_suffixes r.
Proof.
  unfold settle_suffixes. cbn [out at_line_start indent suffixes width line_is_closed map_r].
  rewrite map_line_start, <-fmap_drop, (map_take_while is_space is_space map_is_space), length_fmap, map_rev.
  set (start := line_start (out r)). set (li := if at_line_start r then indent r else _).
  assert (∀ l o, foldl (settle_one start li) (fmap_str <$> o) (map_suffix <$> l) = fmap_str <$> foldl (settle_one start li) o l) as Hf.
  { induction l as [|s l IH]; intros o; [done|]. cbn [foldl fmap list_fmap]. rewrite <-IH. f_equal. apply map_settle_one. }
  rewrite (Hf _ (Some (out r))). destruct (foldl _ (Some (out r)) _) as [o|]; [|done]. cbn.
  unfold map_r. cbn. change (list_fmap C D f o) with (f <$> o).
  by rewrite map_last_line, (map_ends_with is_break is_break map_is_break), length_fmap.
Qed.

Lemma map_settle_waiting r : settle_waiting (map_r r) = map_r <$> settle_waiting r.
Proof. unfold settle_waiting. cbn [suffixes map_r]. destruct (suffixes r) eqn:E; cbn; [done|apply map_settle]. Qed.

Lemma map_write_text r t ind : write_text (map_r r) (f <$> t) ind = map_r <$> write_text r t ind.
Proof.
  unfold write_text. cbn [at_line_start line_is_closed map_r].
  assert ((if at_line_start r || line_is_closed r then trim_start is_space (f <$> t) else f <$> t) =
    f <$> (if at_line_start r || line_is_closed r then trim_start is_space t else t)) as ->.
  { destruct (_ || _); [|done]. by rewrite (map_trim_start is_space is_space map_is_space). }
  cbv zeta. set (t' := if _ || _ then trim_start is_space t else t). destruct t' as [|c t''] eqn:Et; [done|].
  change (f <$> c :: t'') with (f c :: (f <$> t'')) at 1. rewrite <-fmap_cons, map_has_break.
  assert ((if has_break (c :: t'') then settle_waiting (map_r r) else Some (map_r r)) =
    map_r <$> (if has_break (c :: t'') then settle_waiting r else Some r)) as ->
    by (destruct (has_break _); [apply map_settle_waiting|done]).
  destruct (if has_break (c :: t'') then settle_waiting r else Some r) as [r1|]; [|done].
  cbn [mbind option_bind fmap option_fmap option_map]. rewrite map_open_line. f_equal.
  set (r2 := open_line r1 ind). change (after_comment (map_r r2)) with (after_comment r2).
  change (list_fmap C D f (c :: t'')) with (f <$> c :: t'').
  rewrite (map_starts_with (one_of _) (one_of _) (map_one_of _)). rewrite <-map_push. f_equal.
  destruct (after_comment r2 && _); [|done].
  unfold with_after_comment, with_out, map_r. cbn. by rewrite fmap_app, <-map_space.
Qed.

Lemma map_write_comment r t ind : write_comment (map_r r) (f <$> t) ind = map_r <$> write_comment r t ind.
Proof.
  unfold write_comment. rewrite map_settle_waiting. destruct (settle_waiting r) as [r1|]; [|done].
  cbn [mbind option_bind fmap option_fmap option_map]. change (at_line_start (map_r r1)) with (at_line_start r1).
  assert ((if at_line_start r1 then with_indent (map_r r1) ind else map_r r1) = map_r (if at_line_start r1 then with_indent r1 ind else r1)) as ->
    by (by destruct (at_line_start r1)).
  cbv zeta. set (r2 := if at_line_start r1 then with_indent r1 ind else r1).
  change (at_line_start (map_r r2)) with (at_line_start r2). change (line_is_closed (map_r r2)) with (line_is_closed r2).
  rewrite map_open_line. set (r3 := open_line r2 ind). f_equal.
  change (out (map_r r3)) with (f <$> out r3). rewrite (map_ends_with (one_of _) (one_of _) (map_one_of _)).
  unfold with_after_comment, with_out, map_r. cbn [width out col at_line_start indent suffixes line_is_closed after_comment].
  change (list_fmap C D f t) with (f <$> t).
  rewrite map_after_last_break, fmap_app. destruct (negb _ && _); rewrite ?fmap_app, <-?map_space;
    destruct (after_last_break t); cbn; by rewrite ?length_fmap.
Qed.

Lemma map_add_suffix r t ind : add_suffix (map_r r) (f <$> t) ind = map_r <$> add_suffix r t ind.
Proof.
  unfold add_suffix. change (line_is_closed (map_r r)) with (line_is_closed r).
  assert ((if line_is_closed r then newline (map_r r) ind else map_r r) = map_r (if line_is_closed r then newline r ind else r)) as ->
    by (destruct (line_is_closed r); [apply map_newline|done]).
  cbv zeta. rewrite map_settle_waiting. destruct (settle_waiting _) as [r1|]; [|done].
  cbn [mbind option_bind fmap option_fmap option_map]. f_equal. unfold map_r. cbn. rewrite length_fmap. by rewrite fmap_app.
Qed.

Lemma map_end_line r ind : end_line (map_r r) ind = map_r (end_line r ind).
Proof.
  unfold end_line. change (at_line_start (map_r r)) with (at_line_start r). change (line_is_closed (map_r r)) with (line_is_closed r).
  assert (match suffixes (map_r r) with [] => true | _ => false end = match suffixes r with [] => true | _ => false end) as ->
    by (cbn; by destruct (suffixes r)).
  destruct (_ || _); [apply map_newline|done].
Qed.

Lemma map_blank_line r ind : blank_line (map_r r) ind = map_r (blank_line r ind).
Proof.
  unfold blank_line. rewrite map_end_line. set (r1 := end_line r ind). change (with_indent (map_r r1) ind) with (map_r (with_indent r1 ind)).
  cbv zeta. set (r2 := with_indent r1 ind). change (out (map_r r2)) with (f <$> out r2). rewrite map_two_breaks.
  assert (with_out (map_r r2) ((f <$> out r2) ++ [line_break]) (col (map_r r2)) = map_r (with_out r2 (out r2 ++ [line_break]) (col r2))) as ->.
  { unfold with_out, map_r. cbn [out width col at_line_start indent suffixes line_is_closed after_comment].
    by rewrite fmap_app, <-map_line_break. }
  destruct (ends_with_two_breaks (out r2)); by destruct (out r2).
Qed.

Lemma map_own_line r t ind : own_line (map_r r) (f <$> t) ind = map_r (own_line r t ind).
Proof.
  unfold own_line. rewrite map_end_line. change (with_indent (map_r (end_line r ind)) ind) with (map_r (with_indent (end_line r ind) ind)).
  cbv zeta. rewrite map_open_line, map_push. done.
Qed.

Lemma map_finish r : finish (map_r r) = f <$> finish r.
Proof.
  unfold finish. change (at_line_start (map_r r)) with (at_line_start r).
  assert (match suffixes (map_r r) with [] => true | _ => false end = match suffixes r with [] => true | _ => false end) as ->
    by (cbn; by destruct (suffixes r)).
  set (b := negb (at_line_start r) || _).
  assert ((if b then newline (map_r r) 0 else map_r r) = map_r (if b then newline r 0 else r)) as ->
    by (destruct b; [apply map_newline|done]).
  cbv zeta. set (r' := if b then newline r 0 else r). change (out (map_r r')) with (f <$> out r').
  rewrite (map_trim_end is_break is_break map_is_break). destruct (trim_end is_break (out r')) as [|c o]; [done|].
  rewrite fmap_app, <-map_line_break. done.
Qed.

Lemma map_turn r (c : Cmd C) (stack : list (Cmd C)) :
  turn (map_r r) (map_cmd c) (map_cmd <$> stack) = (λ p : Renderer C * list (Cmd C), (map_r p.1, map_cmd <$> p.2)) <$> turn r c stack.
Proof.
  destruct c as [i m d]. unfold turn. cbn [c_doc c_mode c_indent map_cmd].
  destruct d as [|t|t| | | | |d b|d|ds|bd fd|t|t|]; cbn [map_doc].
  - done.
  - rewrite map_write_text. by destruct (write_text r t i).
  - rewrite map_write_comment. by destruct (write_comment r t i).
  - destruct m; [|by rewrite map_newline]. rewrite map_space, map_write_text. by destruct (write_text r [space] i).
  - destruct m; [done|by rewrite map_newline].
  - by rewrite map_newline.
  - by rewrite map_blank_line.
  - rewrite map_fits. by destruct (if b then _ else _) as [[]|].
  - done.
  - cbn. rewrite fmap_app, <-!list_fmap_compose. done.
  - by destruct m.
  - unfold comment_before_line_break. rewrite map_cmds_size, (map_comment_loop _ []). destruct (comment_loop _ [] stack) as [b|]; [|done].
    cbn [mbind option_bind]. rewrite map_add_suffix. destruct (add_suffix r t i) as [r1|]; [|done]. cbn [mbind option_bind fmap option_fmap option_map].
    destruct b; [|done]. rewrite map_settle. by destruct (settle_suffixes r1).
  - by rewrite map_own_line.
  - rewrite map_settle_waiting. by destruct (settle_waiting r).
Qed.

Lemma map_render_loop fuel r stack : render_loop fuel (map_r r) (map_cmd <$> stack) = map_r <$> render_loop fuel r stack.
Proof.
  revert r stack. induction fuel as [|fuel IH]; intros r [|c stack]; [done..|]. rewrite fmap_cons. cbn [render_loop].
  rewrite map_turn. destruct (turn r c stack) as [[r' st]|]; [|done]. cbn [mbind option_bind fmap option_fmap option_map prod_map fst snd].
  apply IH.
Qed.

Lemma map_render d w : render (map_doc d) w = fmap_str <$> render d w.
Proof.
  unfold render. rewrite map_size. change (renderer_new w) with (map_r (renderer_new w)) at 1.
  change [mkCmd 0 Break (map_doc d)] with (map_cmd <$> [mkCmd 0 Break d]). rewrite map_render_loop.
  destruct (render_loop _ _ _) as [r|]; [|done]. cbn [mbind option_bind fmap option_fmap option_map]. by rewrite map_finish.
Qed.
End map.
