(* ===== verification/DocClaims.v ===== *)
(** * What the renderer promises

    It ends and does not panic; nothing of a document is lost and nothing
    is put before what it followed; what follows a line comment is on
    another line; no line ends in a space; the output ends in one line
    break.  A document of the program is numbered first: each of its line
    comments has its own number, which its characters carry. *)

From S2P Require Import Prelude Doc DocFacts DocMap.

Open Scope nat_scope.

(** ** Characters that know the comment they are of *)
#[global] Instance tagged_chars : Chars (N * Mark) := {| code c := c.1; chr n := (n, Code) |}.
#[global] Instance tagged_chars_laws : CharsLaws (N * Mark).
Proof. done. Qed.
#[global] Instance tagged_marked : Marked (N * Mark) := snd.
#[global] Instance tagged_marked_laws : MarkedLaws (N * Mark).
Proof. done. Qed.

Definition tag_text (m : Mark) (t : list N) : list (N * Mark) := (λ c, (c, m)) <$> t.

(** A document whose line comments are numbered from [n], and the number
    after the last. *)
Fixpoint tag (n : nat) (d : Doc N) : Doc (N * Mark) * nat :=
  match d with
  | Nil => (Nil, n)
  | Text t => (Text (tag_text Code t), n)
  | Comment t => (Comment (tag_text Code t), n)
  | Line => (Line, n)
  | SoftLine => (SoftLine, n)
  | HardLine => (HardLine, n)
  | BlankLine => (BlankLine, n)
  | Group d b => let '(d, n) := tag n d in (Group d b, n)
  | Nest d => let '(d, n) := tag n d in (Nest d, n)
  | Concat ds =>
      let '(ds, n) := (fix tags n ds :=
        match ds with
        | [] => ([], n)
        | d :: ds => let '(d, n) := tag n d in let '(ds, n) := tags n ds in (d :: ds, n)
        end) n ds in
      (Concat ds, n)
  | IfBreak b f => let '(b, n) := tag n b in let '(f, n) := tag n f in (IfBreak b f, n)
  | LineSuffix t => (LineSuffix (tag_text (Suff n) t), S n)
  | OwnLine t => (OwnLine (tag_text (Own n) t), S n)
  | Settle => (Settle, n)
  end.

Lemma tag_text_fst m t : fst <$> tag_text m t = t.
Proof. unfold tag_text. rewrite <-list_fmap_compose. apply list_fmap_id. Qed.

Lemma tag_text_mark m t : all_mark m (tag_text m t).
Proof. by apply Forall_fmap, Forall_true. Qed.

Lemma tag_ok n d : map_doc fst (tag n d).1 = d ∧ marked (tag n d).1.
Proof.
  revert n d. fix IH 2. intros n [|t|t| | | | |d b|d|ds|b f|t|t|]; cbn; rewrite ?tag_text_fst; try done.
  - split; [done|apply tag_text_mark].
  - split; [done|apply tag_text_mark].
  - destruct (IH n d) as [E Hm]. destruct (tag n d). cbn in *. by rewrite E.
  - destruct (IH n d) as [E Hm]. destruct (tag n d). cbn in *. by rewrite E.
  - match goal with |- context[let '(ds, n) := ?g n ds in _] => set (tags := g) end.
    assert (map_doc fst <$> (tags n ds).1 = ds ∧ foldr (λ d, and (marked d)) True (tags n ds).1) as [E Hm].
    { clear -IH. revert n. induction ds as [|d ds IHds]; intros n; [done|]. cbn. destruct (IH n d) as [E Hm].
      destruct (tag n d) as [d' n']. destruct (IHds n') as [Es Hms]. destruct (tags n' ds). cbn in *. by rewrite E, Es. }
    destruct (tags n ds). cbn in *. by rewrite E.
  - destruct (IH n b) as [Eb Hb]. destruct (tag n b) as [b' n']. destruct (IH n' f) as [Ef Hf]. destruct (tag n' f). cbn in *. by rewrite Eb, Ef.
  - split; [done|]. exists n. apply tag_text_mark.
  - split; [done|]. exists n. apply tag_text_mark.
Qed.

Lemma render_tagged d w : render d w = fmap (M := list) fst <$> render (tag 0 d).1 w.
Proof. rewrite <-(map_render fst) by done. by destruct (tag_ok 0 d) as [-> _]. Qed.

(** ** What is seen of a text without its numbers *)
Lemma ink_fst (s : list (N * Mark)) : ink s.*1 = (ink s).*1.
Proof.
  unfold ink. induction s as [|c s IH]; [done|]. cbn [fmap list_fmap]. change (list_fmap _ _ fst s) with s.*1.
  rewrite !filter_cons. change (blank c.1) with (blank c). case_decide; cbn; by rewrite IH.
Qed.

Lemma shows_fst ds cs ss : shows ds cs ss → shows (map_doc fst <$> ds) cs.*1 ss.*1.
Proof.
  induction 1 as [|d ds cs ss Hd _ IH|d t ds cs ss Hd _ IH|t ds cs ss _ IH|d f ds cs ss _ IH|d ds cs ss _ IH|l ds cs ss _ IH|b f ds cs ss _ IH|b f ds cs ss _ IH];
    rewrite ?fmap_cons; cbn [map_doc].
  - constructor.
  - apply sh_none; [by destruct d|done].
  - rewrite fmap_app, <-ink_fst. apply sh_text; [|done]. naive_solver.
  - rewrite fmap_app, <-ink_fst. by apply sh_suffix.
  - by apply sh_group.
  - by apply sh_nest.
  - apply sh_concat. by rewrite fmap_app in IH.
  - by apply sh_broken.
  - by apply sh_flat.
Qed.

(** [s] is made of [l] and [m], each in its order. *)
Inductive merged {A} : list A → list A → list A → Prop :=
  | mg_nil : merged [] [] []
  | mg_left x l m s : merged l m s → merged (x :: l) m (x :: s)
  | mg_right x l m s : merged l m s → merged l (x :: m) (x :: s).

Lemma merged_ink (s : list (N * Mark)) : merged (ink_code s).*1 (ink_suff s).*1 (ink s).*1.
Proof.
  unfold ink_code, ink_suff. induction (ink s) as [|c t IH]; [constructor|]. rewrite !filter_cons.
  destruct (held c) eqn:E.
  - rewrite decide_False, decide_True by done. by apply mg_right.
  - rewrite decide_True, decide_False by done. by apply mg_left.
Qed.

(** ** Spaces at the ends of lines *)
Lemma clean_fst (s : list (N * Mark)) : clean s.*1 ↔ clean s.
Proof.
  unfold clean. induction s as [|c s IH]; [done|]. cbn [fmap list_fmap chain]. change (list_fmap _ _ fst s) with s.*1.
  rewrite IH. by destruct s.
Qed.

Lemma clean_text_fst (s : list (N * Mark)) : clean_text s.*1 ↔ clean_text s.
Proof. unfold clean_text. rewrite clean_fst. by destruct s. Qed.

Lemma clean_suffix_fst (s : list (N * Mark)) : clean_suffix s.*1 ↔ clean_suffix s.
Proof. unfold clean_suffix, ends_with. rewrite clean_text_fst, fmap_last. destruct (last s), s; naive_solver. Qed.

Lemma clean_doc_fst d : clean_doc (map_doc fst d) ↔ clean_doc d.
Proof.
  revert d. fix IH 1. intros [|t|t| | | | |d b|d|ds|b f|t|t|]; cbn; try done.
  - apply clean_text_fst.
  - apply clean_text_fst.
  - induction ds as [|d ds IHds]; cbn; [done|]. by rewrite IH, IHds.
  - by rewrite !IH.
  - apply clean_suffix_fst.
  - apply clean_text_fst.
Qed.

(** ** Documents that break *)

(** What [forces_break] looks for. *)
Fixpoint breaks (d : Doc N) : bool :=
  match d with
  | HardLine | BlankLine | OwnLine _ => true
  | Group _ forced => forced
  | Nest d => breaks d
  | Concat ds => existsb breaks ds
  | _ => false
  end.

Lemma forces_break_loop_spec fuel stack : sum_list_with size stack <= fuel → forces_break_loop fuel stack = Some (existsb breaks stack).
Proof.
  assert (∀ ds : list (Doc N), sum_list (size <$> ds) = sum_list_with size ds) as Hsum.
  { induction ds as [|d ds IH]; [done|]. cbn in *. by rewrite IH. }
  revert stack. induction fuel as [|fuel IH]; intros [|d stack] Hf; [done| |done|].
  { pose proof (size_pos d). cbn in Hf. lia. }
  cbn [forces_break_loop existsb]. cbn [sum_list_with] in Hf.
  destruct d as [|t|t| | | | |d forced|d|ds|b f|t|t|]; cbn [breaks orb size] in *; rewrite ?Hsum in Hf; try (apply IH; lia); try done.
  - destruct forced; [done|]. apply IH. lia.
  - apply (IH (d :: stack)). cbn. lia.
  - rewrite IH by (rewrite <-Permutation_rev, sum_list_with_app; lia).
    rewrite existsb_app. do 2 f_equal. apply eq_true_iff_eq. rewrite !existsb_exists. by setoid_rewrite <-in_rev.
Qed.

Lemma forces_break_spec d : forces_break d = Some (breaks d).
Proof. unfold forces_break. rewrite forces_break_loop_spec by (cbn; lia). cbn. by rewrite orb_false_r. Qed.

(** Each group was made by [group], and what is laid out where a line does
    not break has no break in it. *)
Fixpoint well_grouped (d : Doc N) : Prop :=
  match d with
  | Group d forced => forces_break d = Some forced ∧ well_grouped d
  | Nest d => well_grouped d
  | Concat ds => foldr (λ d, and (well_grouped d)) True ds
  | IfBreak b f => well_grouped b ∧ well_grouped f ∧ forces_break f = Some false
  | _ => True
  end.

Lemma well_grouped_concat ds : well_grouped (Concat ds) ↔ Forall well_grouped ds.
Proof. cbn. induction ds as [|d ds IH]; cbn; [done|]. by rewrite Forall_cons, IH. Qed.

(** The states the loop of [render] comes to. *)
Inductive reaches (d : Doc N) (w : nat) : Renderer N → list (Cmd N) → Prop :=
  | re_start : reaches d w (renderer_new w) [mkCmd 0 Break d]
  | re_turn r c stack r' stack' : reaches d w r (c :: stack) → turn r c stack = Some (r', stack') → reaches d w r' stack'.

Definition cmd_ok (c : Cmd N) : Prop := well_grouped (c_doc c) ∧ (c_mode c = Flat → breaks (c_doc c) = false).

Lemma turn_stack r c stack r' stack' : cmd_ok c → turn r c stack = Some (r', stack') →
  ∃ pushed, stack' = pushed ++ stack ∧ Forall cmd_ok pushed.
Proof.
  destruct c as [ind mode d]. intros [Hw Hf]. unfold turn. cbn [c_doc c_mode c_indent] in *.
  destruct d as [|t|t| | | | |inner forced|inner|ds|b f|t|t|]; cbn [breaks] in Hf.
  4-5: destruct mode; intros E; simplify_option_eq; by exists [].
  1-5, 10-12: intros E; simplify_option_eq; by exists [].
  - destruct Hw as [Hb Hw]. intros (fl & E & [= <- <-])%bind_Some. eexists [_]. split; [done|]. constructor; [|done].
    split; [done|]. cbn. rewrite forces_break_spec in Hb. injection Hb as Hb. destruct fl; [|done]. intros _. rewrite Hb. by destruct forced.
  - intros [= <- <-]. eexists [_]. split; [done|]. by repeat constructor.
  - intros [= <- <-]. apply well_grouped_concat in Hw. exists (mkCmd ind mode <$> ds). split; [done|]. apply Forall_fmap.
    apply Forall_forall. intros d Hd. split; [by apply (proj1 (Forall_forall _ _) Hw)|]. cbn. intros Hm. specialize (Hf Hm).
    destruct (breaks d) eqn:E; [|done]. rewrite <-Hf. symmetry. apply existsb_exists. exists d. by rewrite <-list_elem_of_In.
  - destruct Hw as (Hb & Hff & Hn). rewrite forces_break_spec in Hn. injection Hn as Hn.
    intros [= <- <-]. eexists [_]. split; [done|]. constructor; [|done]. by destruct mode.
Qed.

Lemma reaches_ok d w r stack : well_grouped d → reaches d w r stack → Forall cmd_ok stack.
Proof.
  intros Hw. induction 1 as [|r c stack r' stack' _ IH Ht]; [by repeat constructor|].
  apply Forall_cons in IH as [Hc Hs]. destruct (turn_stack _ _ _ _ _ Hc Ht) as (p & -> & Hp). by apply Forall_app.
Qed.

(** ** Claims *)

(** C33. Rendering ends, without a panic, at every width; what is seen of the
    output is what is seen of the document (one branch of each [IfBreak])
    and nothing else, the comments that are held back to the ends of lines
    in their order and all the rest in its order. *)
Theorem render_loses_nothing (d : Doc N) (w : nat) :
  ∃ s cs ss, render d w = Some s ∧ shows [d] cs ss ∧ merged cs ss (ink s).
Proof.
  destruct (tag_ok 0 d) as [E Hm]. destruct (render_marked (tag 0 d).1 w Hm) as (s & Hr & Hs & _).
  exists s.*1, (ink_code s).*1, (ink_suff s).*1. rewrite render_tagged, Hr. split; [done|]. split.
  - apply shows_fst in Hs. cbn in Hs. by rewrite E in Hs.
  - rewrite ink_fst. apply merged_ink.
Qed.

(** C34. No code is swallowed by a line comment: with the line comments of the
    document numbered, each character of a comment is followed, in the
    output, by another of the same comment or by the end of the line. *)
Theorem line_comments_end_their_lines (d : Doc N) (w : nat) :
  ∃ s : list (N * Mark), render d w = Some s.*1 ∧ shows [(tag 0 d).1] (ink_code s) (ink_suff s) ∧
    ∀ i c m, s !! i = Some (c, m) → m ≠ Code → ∃ c' m', s !! S i = Some (c', m') ∧ (m' = m ∨ c' = 10%N).
Proof.
  destruct (tag_ok 0 d) as [E Hm]. destruct (render_marked (tag 0 d).1 w Hm) as (s & Hr & Hs & Hsafe & Hb).
  exists s. rewrite render_tagged, Hr. split_and!; [done|done|]. intros i c m Hi Hc.
  destruct (comment_followed s i (c, m) Hsafe Hb Hi Hc) as ([c' m'] & Hn & Hor). exists c', m'. split; [done|].
  destruct Hor as [?|Hbr]; [by left|right]. by apply N.eqb_eq in Hbr.
Qed.

(** Where no line inside a text ends in a space, no line of the output
    does; the output is empty or ends in exactly one line break. *)
Theorem no_line_ends_in_a_space (d : Doc N) (w : nat) (s : list N) :
  clean_doc d → render d w = Some s →
  (∀ i, s !! i = Some 32%N → s !! S i ≠ Some 10%N) ∧ (s = [] ∨ ∃ t, s = t ++ [10%N] ∧ t ≠ [] ∧ last t ≠ Some 10%N).
Proof.
  intros Hd. rewrite render_tagged. destruct (tag_ok 0 d) as [E Hm].
  destruct (render_marked (tag 0 d).1 w Hm) as (s' & Hr & _ & _ & Hb). rewrite Hr. intros [= <-]. split.
  - intros i Hi Hj. rewrite <-E in Hd. apply clean_doc_fst in Hd.
    pose proof (proj2 (clean_fst s') (render_clean _ _ _ Hm Hd Hr)) as Hc.
    by pose proof (chain_lookup _ _ _ _ _ Hc Hi Hj eq_refl).
  - destruct Hb as [->|(t & -> & Ht & He)]; [by left|right]. exists t.*1. rewrite fmap_app. split_and!; [done|by destruct t|].
    rewrite fmap_last. unfold ends_with in He. destruct (last t) as [c|]; [|done]. cbn. intros [= Hc].
    unfold is_break in He. cbn in He. by rewrite Hc in He.
Qed.

(** [a -- c], [b], in a group that would fit on one line. *)
Definition commented : Doc N :=
  Group (Concat [Text [97]; LineSuffix [45; 45; 99]; Line; Text [98; 32]])%N false.

Lemma no_line_ends_in_a_space_witness :
  ∃ s, render commented 80 = Some s ∧ (∀ i, s !! i = Some 32%N → s !! S i ≠ Some 10%N) ∧
    (s = [] ∨ ∃ t, s = t ++ [10%N] ∧ t ≠ [] ∧ last t ≠ Some 10%N).
Proof.
  exists [97; 32; 45; 45; 99; 10; 98; 10]%N. split; [by vm_compute|].
  apply (no_line_ends_in_a_space commented 80); [|by vm_compute].
  cbn. unfold clean_suffix, clean_text, clean, no_space_before_break. cbn. repeat split; done.
Defined.

(** A document whose groups were made by [group]: a hard line break is
    never met, nor a group around one entered, in a group that is laid out
    on one line. *)
Theorem hard_lines_are_met_broken (d : Doc N) (w : nat) (r : Renderer N) (c : Cmd N) (stack : list (Cmd N)) :
  well_grouped d → reaches d w r (c :: stack) → forces_break (c_doc c) = Some true → c_mode c = Break.
Proof.
  intros Hw Hr. pose proof (Forall_inv (reaches_ok _ _ _ _ Hw Hr)) as [_ Hf]. rewrite forces_break_spec.
  intros [= Hb]. destruct (c_mode c); [|done]. rewrite Hf in Hb; done.
Qed.

Definition broken_list : Doc N := Group (Nest (Concat [Text [91]; SoftLine; Group (Text [97]) false; HardLine])%N) true.

Lemma hard_lines_are_met_broken_witness :
  ∃ r stack, reaches broken_list 80 r (mkCmd 2 Break HardLine :: stack) ∧ c_mode (mkCmd 2 Break (HardLine : Doc N)) = Break.
Proof.
  assert (∃ r stack, reaches broken_list 80 r (mkCmd 2 Break HardLine :: stack)) as (r & stack & Hr).
  { pose proof (re_start broken_list 80) as Hr. do 7 (eapply re_turn in Hr; [|vm_compute; reflexivity]). by do 2 eexists. }
  exists r, stack. split; [done|]. apply (hard_lines_are_met_broken broken_list 80 r (mkCmd 2 Break HardLine) stack); [|done|done].
  cbn. repeat split.
Defined.
