(* ===== verification/Http.v ===== *)
(** * HTTP/1.1 on the wire (src/http_wire.rs)

    A byte is its number; a string is the code points of its characters.
    What the stream gives is a list of what its reads give, one after the
    other, the end of the stream behind them.  The parser of heads is that
    of the crate httparse and is an argument ([parse]); so are the two
    closures the reader is given: [room], whether the server has room for so
    many more bytes of a body, with a state of its own, and what is done
    before a body is read ([before_body]).

    An operation of the reader gives a value, or the end of reading the
    request ([Stop]); a panic of the source is [Panics], and a loop that has
    not ended when the fuel is used up is [Spins]. *)

From S2P Require Import Prelude.
From Stdlib Require Import NArith Strings.Ascii.

Open Scope N_scope.

Notation bytes := (list N).
Notation text := (list N).

(** The text of a literal. *)
Definition str (s : string) : text := (λ c, N_of_ascii c) <$> String.list_ascii_of_string s.

Definition len {A} (l : list A) : N := N.of_nat (length l).

(** *** The limits *)
Definition HEAD_MAX : N := 64 * 1024.
Definition HEADERS_MAX : N := 100.
Definition BODY_MAX : N := 10000000.
Definition METHOD_MAX : N := 32.
Definition CHUNK_LINE_MAX : N := 4 * 1024.
Definition CHUNK_FRAMING_MAX : N := 1024 * 1024.
Definition LOOKED_AT : N := 64 * 1024.

(** *** Characters and strings, as the standard library has them *)
Definition CR : N := 13.
Definition LF : N := 10.
Definition SP : N := 32.
Definition TAB : N := 9.

Definition between (lo hi b : N) : bool := (lo <=? b) && (b <=? hi).
Definition is_ascii_digit (b : N) : bool := between 48 57 b.
Definition is_ascii_alpha (b : N) : bool := between 65 90 b || between 97 122 b.
Definition is_ascii_hexdigit (b : N) : bool := is_ascii_digit b || between 65 70 b || between 97 102 b.

Definition to_ascii_lowercase (c : N) : N := if between 65 90 c then c + 32 else c.
Definition eq_ignore_ascii_case (a b : text) : bool :=
  bool_decide (to_ascii_lowercase <$> a = to_ascii_lowercase <$> b).

(** Unicode's White_Space. *)
Definition is_whitespace (c : N) : bool :=
  between 9 13 c || (c =? 32) || (c =? 133) || (c =? 160) || (c =? 5760) || between 8192 8202 c ||
  (c =? 8232) || (c =? 8233) || (c =? 8239) || (c =? 8287) || (c =? 12288).
Definition is_blank (c : N) : bool := (c =? SP) || (c =? TAB).

Fixpoint trim_start_by (p : N → bool) (s : text) : text :=
  match s with c :: s' => if p c then trim_start_by p s' else s | [] => [] end.
Definition trim_end_by (p : N → bool) (s : text) : text := rev (trim_start_by p (rev s)).
Definition trim_by (p : N → bool) (s : text) : text := trim_end_by p (trim_start_by p s).

Fixpoint take_till (p : N → bool) (s : list N) : list N :=
  match s with c :: s' => if p c then [] else c :: take_till p s' | [] => [] end.
Fixpoint split_on (sep : N) (s : text) : list text :=
  match s with
  | [] => [[]]
  | c :: s' =>
      if c =? sep then [] :: split_on sep s'
      else match split_on sep s' with part :: more => (c :: part) :: more | [] => [[c]] end
  end.

(** UTF-8: each character, or [None] for bytes that are none. *)
Definition continues (b : N) : bool := between 128 191 b.
Definition second_of_three (a b : N) : bool :=
  ((a =? 224) && between 160 191 b) || (between 225 236 a && between 128 191 b) ||
  ((a =? 237) && between 128 159 b) || (between 238 239 a && between 128 191 b).
Definition second_of_four (a b : N) : bool :=
  ((a =? 240) && between 144 191 b) || (between 241 243 a && between 128 191 b) || ((a =? 244) && between 128 143 b).
Definition tail6 (b : N) : N := N.land b 63.

Fixpoint utf8 (s : bytes) : list (option N) :=
  match s with
  | [] => []
  | a :: s1 =>
      if a <? 128 then Some a :: utf8 s1
      else if between 194 223 a then
        match s1 with
        | b :: s2 => if continues b then Some (N.land a 31 * 64 + tail6 b) :: utf8 s2 else None :: utf8 s1
        | [] => [None]
        end
      else if between 224 239 a then
        match s1 with
        | b :: s2 =>
            if second_of_three a b then
              match s2 with
              | c :: s3 =>
                  if continues c then Some (N.land a 15 * 4096 + tail6 b * 64 + tail6 c) :: utf8 s3 else None :: utf8 s2
              | [] => [None]
              end
            else None :: utf8 s1
        | [] => [None]
        end
      else if between 240 244 a then
        match s1 with
        | b :: s2 =>
            if second_of_four a b then
              match s2 with
              | c :: s3 =>
                  if continues c then
                    match s3 with
                    | d :: s4 =>
                        if continues d
                        then Some (N.land a 7 * 262144 + tail6 b * 4096 + tail6 c * 64 + tail6 d) :: utf8 s4
                        else None :: utf8 s3
                    | [] => [None]
                    end
                  else None :: utf8 s2
              | [] => [None]
              end
            else None :: utf8 s1
        | [] => [None]
        end
      else None :: utf8 s1
  end.
Definition from_utf8_lossy (s : bytes) : text := default 65533 <$> utf8 s.
Definition from_utf8 (s : bytes) : option text := mapM id (utf8 s).

(** Numbers. *)
Definition USIZE_MAX : N := 2 ^ 64 - 1.
Definition decimal (digits : text) : N := foldl (λ n c, 10 * n + (c - 48)) 0 digits.
Definition parse_usize (digits : text) : option N :=
  let n := decimal digits in if n <=? USIZE_MAX then Some n else None.
Definition hex_digit (c : N) : N :=
  if is_ascii_digit c then c - 48 else if between 65 70 c then c - 55 else c - 87.
Definition hexadecimal (digits : text) : N := foldl (λ n c, 16 * n + hex_digit c) 0 digits.
Definition parse_u64_hex (digits : text) : option N :=
  let n := hexadecimal digits in if n <=? USIZE_MAX then Some n else None.

(** *** What is read *)
Record Request := mkRequest {
  method : text;
  target : text;
  headers : list (text * text);
  body : bytes;
  close : bool;
  http10 : bool;
}.
Record Refused := refused { status : N; why : text }.

Definition HEAD_TOO_LARGE : Refused := refused 431 (str "Request Header Fields Too Large").
Definition BODY_TOO_LARGE : Refused := refused 413 (str "Payload Too Large").
Definition BAD_CHUNKS : Refused := refused 400 (str "Bad Request").
Definition NO_ROOM : Refused := refused 503 (str "Service Unavailable").
Definition BAD_REQUEST : Refused := refused 400 (str "Bad Request").

Record Head := mkHead { h_method : text; h_target : text; minor : N; h_headers : list (text * text) }.
Inductive Framing := FNone | FLength (length : N) | FChunked.

(** Whether a method or the name of a header can have this byte. *)
Definition is_token (byte : N) : bool :=
  is_ascii_digit byte || is_ascii_alpha byte || existsb (N.eqb byte) (str "!#$%&'*+-.^_`|~").

(** What httparse gives of a buffer. *)
Inductive Parsed :=
  | Complete (length : N) (method path : option text) (version : option N) (headers : list (text * bytes))
  | Partial
  | TooManyHeaders
  | Malformed.

(** What a read of the stream gives. *)
Inductive Read (E : Type) := Data (bs : bytes) | Interrupted | Failed (e : E).
Arguments Data {_} _.
Arguments Interrupted {_}.
Arguments Failed {_} _.

Inductive Next (E : Type) := NextRequest (q : Request) | End | NextRefused (r : Refused) | Broken (e : E).
Arguments NextRequest {_} _.
Arguments End {_}.
Arguments NextRefused {_} _.
Arguments Broken {_} _.

Inductive Res (E A : Type) := Done (a : A) | Stop (n : Next E) | Panics | Spins.
Arguments Done {_ _} _.
Arguments Stop {_ _} _.
Arguments Panics {_ _}.
Arguments Spins {_ _}.

(** [framing]. *)
Definition values_of (wanted : text) (hs : list (text * text)) : list text :=
  snd <$> filter (λ h, eq_ignore_ascii_case h.1 wanted = true) hs.

Definition framing {E} (head : Head) : Res E Framing :=
  let all_of wanted := trim_by is_blank <$> values_of wanted (h_headers head) in
  match all_of (str "content-length"), all_of (str "transfer-encoding") with
  | [], [] => Done FNone
  | [length_], [] =>
      if match length_ with [] => true | _ => negb (forallb is_ascii_digit length_) end
      then Stop (NextRefused BAD_REQUEST)
      else
        match parse_usize length_ with
        | Some n => if n <=? BODY_MAX then Done (FLength n) else Stop (NextRefused BODY_TOO_LARGE)
        | None => if 15 <? len length_ then Stop (NextRefused BODY_TOO_LARGE) else Stop (NextRefused BAD_REQUEST)
        end
  | [], [coding] =>
      if eq_ignore_ascii_case coding (str "chunked") && (1 <=? minor head)
      then Done FChunked else Stop (NextRefused BAD_REQUEST)
  | _, _ => Stop (NextRefused BAD_REQUEST)
  end.

(** [expects_continue]. *)
Definition expects_continue {E} (head : Head) : Res E bool :=
  match values_of (str "expect") (h_headers head) with
  | [] => Done false
  | expected :: more =>
      if negb (eq_ignore_ascii_case (trim_by is_whitespace expected) (str "100-continue")) || match more with [] => false | _ => true end
      then Stop (NextRefused (refused 417 (str "Expectation Failed")))
      else Done (1 <=? minor head)
  end.

(** Whether a header [Connection] has the token. *)
Definition asks (head : Head) (token : text) : bool :=
  existsb (λ part, eq_ignore_ascii_case (trim_by is_whitespace part) token)
    (concat (split_on 44 <$> values_of (str "connection") (h_headers head))).

(** *** The reader *)
Section reader.
Context {E R : Type} (parse : N → bytes → Parsed) (room : R → N → bool * R).

Record Reader := mkReader { stream : list (Read E); buf : bytes; begun : bool; held : R }.

Definition Act (A : Type) : Type := Reader → Res E A * Reader.
Definition ret {A} (a : A) : Act A := λ r, (Done a, r).
Definition stop {A} (n : Next E) : Act A := λ r, (Stop n, r).
Definition refuse {A} (x : Refused) : Act A := stop (NextRefused x).
Definition and_then {A A'} (m : Act A) (k : A → Act A') : Act A' := λ r,
  match m r with
  | (Done a, r) => k a r
  | (Stop n, r) => (Stop n, r)
  | (Panics, r) => (Panics, r)
  | (Spins, r) => (Spins, r)
  end.
Definition lift {A} (x : Res E A) : Act A := λ r, (x, r).
Notation "x <- m ; k" := (and_then m (λ x, k)) (at level 100, m at level 99, right associativity).

(** [Reader::has_begun], and where it is stored. *)
Definition has_begun (b : bytes) : bool :=
  match b with
  | [] => false
  | [c] => negb (c =? CR)
  | [c; d] => negb ((c =? CR) && (d =? LF))
  | _ => true
  end.
Definition store_begun (r : Reader) : Reader := mkReader (stream r) (buf r) (has_begun (buf r)) (held r).
Definition with_buf (r : Reader) (b : bytes) : Reader := mkReader (stream r) b (begun r) (held r).

(** [Reader::with_room], [Reader::feed]. *)
Definition with_room (s : list (Read E)) (x : R) : Reader := mkReader s [] false x.
Definition feed (r : Reader) (bs : bytes) : Reader := store_begun (with_buf r (buf r ++ bs)).

(** [Reader::more]. *)
Fixpoint more_from (s : list (Read E)) (r : Reader) : Res E bool * Reader :=
  let rest s := mkReader s (buf r) (begun r) (held r) in
  match s with
  | [] => (Done false, rest [])
  | Data [] :: s => (Done false, rest s)
  | Data bs :: s => (Done true, feed (rest s) bs)
  | Interrupted :: s => more_from s r
  | Failed e :: s => (Stop (Broken e), rest s)
  end.
Definition more : Act bool := λ r, more_from (stream r) r.

(** What every loop does when it needs more bytes. *)
Definition more_or_end {A} (k : Act A) : Act A := got <- more; if got : bool then k else stop End.

(** [Reader::head]: whether what comes first is no method and a space; *)
Definition no_method (b : bytes) : bool :=
  let begins := take (N.to_nat (METHOD_MAX + 1)) b in
  let method := take_till (N.eqb SP) begins in
  (METHOD_MAX <? len method) || match begins with c :: _ => c =? SP | [] => false end || negb (forallb is_token method).

(** whether an empty line is in it, where it was not looked at before; *)
Fixpoint has_empty_line (b : bytes) : bool :=
  match b with
  | c :: b' =>
      match b' with
      | d :: b'' => ((c =? LF) && (d =? LF)) || ((c =? LF) && (d =? CR) && match b'' with e :: _ => e =? LF | [] => false end) || has_empty_line b'
      | [] => false
      end
  | [] => false
  end.
Definition is_ended (searched : nat) (b : bytes) : bool :=
  has_empty_line (drop ((searched `min` length b) - 2)%nat b).

(** whether a CR or LF stands alone; *)
Fixpoint lone (before : N) (raw : bytes) : bool :=
  match raw with
  | c :: raw' =>
      ((c =? LF) && negb (before =? CR)) || ((c =? CR) && negb match raw' with d :: _ => d =? LF | [] => false end) || lone c raw'
  | [] => false
  end.

(** what is made of a head that is there; *)
Definition read_head : Act Head := λ r,
  match parse HEADERS_MAX (buf r) with
  | Complete length_ method_ path version hs =>
      if HEAD_MAX <? length_ then refuse HEAD_TOO_LARGE r
      else if len (buf r) <? length_ then (Panics, r)
      else if lone 0 (take (N.to_nat length_) (buf r)) then refuse BAD_REQUEST r
      else
        (Done (mkHead (default [] method_) (default [] path) (default 1 version) (prod_map id from_utf8_lossy <$> hs)),
         with_buf r (drop (N.to_nat length_) (buf r)))
  | TooManyHeaders => refuse (refused 431 (str "Too Many Headers")) r
  | Partial | Malformed => refuse BAD_REQUEST r
  end.

(** and the loop. *)
Fixpoint head_loop (fuel : nat) (passed_over : bool) (searched : nat) : Act Head := λ r,
  match fuel with
  | O => (Spins, r)
  | S fuel =>
      let rest :=
        if is_ended searched (buf r) then read_head
        else if HEAD_MAX <=? len (buf r) then refuse HEAD_TOO_LARGE
        else more_or_end (head_loop fuel passed_over (length (buf r))) in
      match buf r with
      | c :: d :: b =>
          if (c =? CR) && (d =? LF) && negb passed_over then head_loop fuel true searched (with_buf r b)
          else if no_method (buf r) then refuse BAD_REQUEST r else rest r
      | [c] =>
          if (c =? CR) && negb passed_over then rest r
          else if no_method (buf r) then refuse BAD_REQUEST r else rest r
      | [] => if no_method (buf r) then refuse BAD_REQUEST r else rest r
      end
  end.
Definition head : Act Head := λ r, head_loop (2 + length (stream r)) false 0 r.

(** [Reader::exactly]. *)
Fixpoint exactly_loop (fuel : nat) (n : N) : Act bytes := λ r,
  match fuel with
  | O => (Spins, r)
  | S fuel =>
      if len (buf r) <? n then more_or_end (exactly_loop fuel n) r
      else (Done (take (N.to_nat n) (buf r)), with_buf r (drop (N.to_nat n) (buf r)))
  end.
Definition exactly (n : N) : Act bytes := λ r, exactly_loop (1 + length (stream r)) n r.

(** [Reader::line]. *)
Definition control (byte : N) : bool := ((byte <? 32) && negb (byte =? TAB)) || (byte =? 127).
Fixpoint first_at (p : N → bool) (b : bytes) : option nat :=
  match b with c :: b' => if p c then Some O else S <$> first_at p b' | [] => None end.

Fixpoint line_loop (fuel : nat) (limit : N) (too_long : Refused) : Act bytes := λ r,
  match fuel with
  | O => (Spins, r)
  | S fuel =>
      match first_at (N.eqb LF) (buf r) with
      | Some end_ =>
          if limit + 1 <? N.of_nat end_ then refuse too_long r
          else
            let line := take end_ (buf r) in
            let r := with_buf r (drop (S end_) (buf r)) in
            let line' := take (end_ - 1) line in
            if match last line with Some c => negb (c =? CR) | None => true end || existsb control line'
            then refuse BAD_CHUNKS r else (Done line', r)
      | None =>
          if limit + 1 <? len (buf r) then refuse too_long r
          else more_or_end (line_loop fuel limit too_long) r
      end
  end.
Definition line (limit : N) (too_long : Refused) : Act bytes := λ r, line_loop (1 + length (stream r)) limit too_long r.

(** [Reader::chunked]: the size a line gives, the loop over the chunks,
    and the one over the trailers. *)
Definition chunk_size (line : bytes) : option N :=
  let digits := take_till (N.eqb 59) line in
  let digits := trim_end_by is_blank (default [] (from_utf8 digits)) in
  if match digits with [] => true | _ => false end || (16 <? len digits) || negb (forallb is_ascii_hexdigit digits)
  then None else parse_u64_hex digits.

Definition ask_room (n : N) : Act bool := λ r,
  let '(yes, x) := room (held r) n in (Done yes, mkReader (stream r) (buf r) (begun r) x).

Fixpoint chunk_loop (fuel : nat) (body_ : bytes) (framing_ : N) : Act bytes := λ r,
  match fuel with
  | O => (Spins, r)
  | S fuel =>
      (line_ <- line CHUNK_LINE_MAX BAD_CHUNKS;
       let framing_ := framing_ + (len line_ + 4) in
       if CHUNK_FRAMING_MAX <? framing_ then refuse BAD_CHUNKS
       else
         match chunk_size line_ with
         | None => refuse BAD_CHUNKS
         | Some size =>
             if size =? 0 then ret body_
             else if BODY_MAX <? len body_ then lift Panics
             else if BODY_MAX - len body_ <? size then refuse BODY_TOO_LARGE
             else
               yes <- ask_room size;
               if negb yes then refuse NO_ROOM
               else
                 bs <- exactly size;
                 after <- line 0 BAD_CHUNKS;
                 match after with [] => chunk_loop fuel (body_ ++ bs) framing_ | _ => refuse BAD_CHUNKS end
         end) r
  end.
Fixpoint trailer_loop (fuel : nat) (trailers : N) : Act unit := λ r,
  match fuel with
  | O => (Spins, r)
  | S fuel =>
      (line_ <- line HEAD_MAX HEAD_TOO_LARGE;
       match line_ with
       | [] => ret tt
       | _ =>
           let trailers := trailers + (len line_ + 2) in
           if HEAD_MAX <? trailers then refuse HEAD_TOO_LARGE else trailer_loop fuel trailers
       end) r
  end.

(** The bytes that are there and that will come, up to the first read that
    gives none or fails. *)
Fixpoint data (s : list (Read E)) : bytes :=
  match s with
  | [] | Data [] :: _ | Failed _ :: _ => []
  | Data bs :: s => bs ++ data s
  | Interrupted :: s => data s
  end.
Definition to_come (r : Reader) : bytes := buf r ++ data (stream r).

Definition chunked : Act bytes :=
  λ r, (body_ <- chunk_loop (1 + length (to_come r)) [] 0; _ <- trailer_loop (1 + length (to_come r)) 0; ret body_) r.

(** [Reader::request], [Reader::next].  [before_body] gives the error it
    fails with, if it does. *)
Definition announce (before_body : bool → option E) (waits : bool) : Act unit := λ r,
  match before_body (waits && match buf r with [] => true | _ => false end) with
  | Some e => (Stop (Broken e), r)
  | None => (Done tt, r)
  end.

Definition read_body (before_body : bool → option E) (waits : bool) (f : Framing) : Act bytes :=
  match f with
  | FNone => ret []
  | FLength length_ =>
      if length_ =? 0 then ret []
      else
        yes <- ask_room length_;
        if negb yes then refuse NO_ROOM else _ <- announce before_body waits; exactly length_
  | FChunked => _ <- announce before_body waits; chunked
  end.

Definition request_of (head_ : Head) (body_ : bytes) : Request :=
  mkRequest (h_method head_) (h_target head_) (h_headers head_) body_
    (if minor head_ =? 0 then negb (asks head_ (str "keep-alive")) else asks head_ (str "close"))
    (minor head_ =? 0).

Definition request (before_body : bool → option E) : Act Request := λ r,
  (head_ <- head;
   framing_ <- lift (framing head_);
   let hosts := len (values_of (str "host") (h_headers head_)) in
   if (1 <? hosts) || ((hosts =? 0) && (1 <=? minor head_)) then refuse BAD_REQUEST
   else
     waits <- lift (expects_continue head_);
     body_ <- read_body before_body waits framing_;
     ret (request_of head_ body_)) (store_begun r).

Definition next (before_body : bool → option E) (r : Reader) : Res E (Next E) * Reader :=
  match request before_body r with
  | (Done q, r) => (Done (NextRequest q), r)
  | (Stop n, r) => (Done n, r)
  | (Panics, r) => (Panics, r)
  | (Spins, r) => (Spins, r)
  end.
End reader.
Arguments Reader : clear implicits.
Arguments Act : clear implicits.

(** [Reader::buffered]: a reader with nothing behind it, and room. *)
Definition always_room (x : unit) (_ : N) : bool * unit := (true, x).
Definition never_waits {E} (waiting : E) (waits : bool) : option E := if waits then Some waiting else None.

Definition buffered {E R} (parse : N → bytes → Parsed) (waiting : E) (r : Reader E R) : Res E (option (Next E)) * Reader E R :=
  if match buf r with [] => true | _ => false end || (LOOKED_AT <? len (buf r)) then (Done None, r)
  else
    let '(x, ahead) := next parse always_room (never_waits waiting) (mkReader [] (buf r) false tt) in
    match x with
    | Done (NextRequest q) => (Done (Some (NextRequest q)), store_begun (with_buf r (buf ahead)))
    | Done (NextRefused y) => (Done (Some (NextRefused y)), store_begun (with_buf r (buf ahead)))
    | Done (End | Broken _) => (Done None, r)
    | Stop n => (Stop n, r)
    | Panics => (Panics, r)
    | Spins => (Spins, r)
    end.

(** *** Responses *)

(** [reason], [has_body]. *)
Definition reasons : list (N * string) :=
  [(100, "Continue"); (200, "OK"); (201, "Created"); (202, "Accepted"); (204, "No Content");
   (301, "Moved Permanently"); (302, "Found"); (303, "See Other"); (304, "Not Modified");
   (307, "Temporary Redirect"); (308, "Permanent Redirect"); (400, "Bad Request"); (401, "Unauthorized");
   (403, "Forbidden"); (404, "Not Found"); (405, "Method Not Allowed"); (408, "Request Timeout");
   (409, "Conflict"); (410, "Gone"); (413, "Payload Too Large"); (415, "Unsupported Media Type");
   (417, "Expectation Failed"); (422, "Unprocessable Content"); (429, "Too Many Requests");
   (431, "Request Header Fields Too Large"); (500, "Internal Server Error"); (501, "Not Implemented");
   (502, "Bad Gateway"); (503, "Service Unavailable"); (504, "Gateway Timeout")]%string.
Definition reason (status_ : N) : text :=
  str match find (λ p, p.1 =? status_) reasons with
  | Some p => p.2
  | None =>
      match status_ / 100 with
      | 1 => "Informational" | 2 => "Success" | 3 => "Redirection" | 4 => "Client Error" | _ => "Server Error"
      end
  end.
Definition has_body (status_ : N) : bool := negb (between 100 199 status_ || (status_ =? 204) || (status_ =? 304)).

Record Sending := mkSending { date : bytes; how_close : bool; keep_alive : bool; head_only : bool }.

(** A number in decimal. *)
Fixpoint decimal_loop (fuel : nat) (n : N) (digits : text) : text :=
  match fuel with
  | O => digits
  | S fuel => let digits := (48 + n mod 10) :: digits in if n / 10 =? 0 then digits else decimal_loop fuel (n / 10) digits
  end.
Definition show_decimal (n : N) : text := decimal_loop (S (N.to_nat (N.log2 n))) n [].

(** [response]: the names and values of the headers as their bytes. *)
Definition CRLF : bytes := [CR; LF].
Definition plain (value : bytes) : bool :=
  forallb (λ byte, (byte =? TAB) || ((32 <=? byte) && negb (byte =? 127))) value.
Definition own_headers : list text :=
  str <$> ["content-length"; "transfer-encoding"; "connection"; "date"]%string.
Definition sent (h : bytes * bytes) : bool :=
  match h.1 with [] => false | _ => forallb is_token h.1 end && plain h.2 && negb (existsb (eq_ignore_ascii_case h.1) own_headers).
Definition response (status_ : N) (hs : list (bytes * bytes)) (body_ : bytes) (how : Sending) : bytes :=
  let bodiless := negb (has_body status_) in
  str "HTTP/1.1 " ++ show_decimal status_ ++ [SP] ++ reason status_ ++ CRLF ++
  concat ((λ h : bytes * bytes, if sent h then h.1 ++ str ": " ++ h.2 ++ CRLF else []) <$> hs) ++
  (if match date how with [] => true | _ => false end then [] else str "Date: " ++ date how ++ CRLF) ++
  (if bodiless then [] else str "Content-Length: " ++ show_decimal (len body_) ++ CRLF) ++
  (if how_close how then str "Connection: close" ++ CRLF
   else if keep_alive how then str "Connection: keep-alive" ++ CRLF else []) ++
  CRLF ++ (if bodiless || head_only how then [] else body_).
