(* ===== verification/HttpSpec.v ===== *)
(** * What a connection says (reference for src/http_wire.rs)

    The requests of a connection, read off all of its bytes at once: there
    is no buffer, and nothing arrives in pieces.  A reading gives a value
    and the bytes behind it, or the request is refused, or the bytes end
    too early. *)

From S2P Require Import Prelude Http.

Open Scope N_scope.

Inductive Ans (R A : Type) := Got (a : A) (rest : bytes) (x : R) | Refuses | Ends.
Arguments Got {_ _} _ _ _.
Arguments Refuses {_ _}.
Arguments Ends {_ _}.

Section spec.
Context {R : Type} (parse : N → bytes → Parsed) (room : R → N → bool * R).

Definition Reading (A : Type) : Type := R → bytes → Ans R A.
Definition got {A} (a : A) : Reading A := λ x bs, Got a bs x.
Definition fails {A} : Reading A := λ _ _, Refuses.
Definition andthen {A A'} (m : Reading A) (k : A → Reading A') : Reading A' := λ x bs,
  match m x bs with
  | Got a bs x => k a x bs
  | Refuses => Refuses
  | Ends => Ends
  end.
Notation "x <- m ; k" := (andthen m (λ x, k)) (at level 100, m at level 99, right associativity).

(** A head: behind one empty line at most, a method and a space, up to an
    empty line. *)
Definition head_behind : Reading Head := λ x bs,
  if no_method bs then Refuses
  else if has_empty_line bs then
    match parse HEADERS_MAX bs with
    | Complete length_ method_ path version hs =>
        if (HEAD_MAX <? length_) || lone 0 (take (N.to_nat length_) bs) then Refuses
        else Got (mkHead (default [] method_) (default [] path) (default 1 version) (prod_map id from_utf8_lossy <$> hs))
               (drop (N.to_nat length_) bs) x
    | _ => Refuses
    end
  else if HEAD_MAX <=? len bs then Refuses else Ends.
Definition a_head : Reading Head := λ x bs,
  match bs with
  | c :: d :: bs' => if (c =? CR) && (d =? LF) then head_behind x bs' else head_behind x bs
  | [c] => if c =? CR then Ends else head_behind x bs
  | [] => head_behind x bs
  end.

Definition so_many (n : N) : Reading bytes := λ x bs,
  if len bs <? n then Ends else Got (take (N.to_nat n) bs) (drop (N.to_nat n) bs) x.

(** A line of at most [limit] bytes: what is before its CRLF. *)
Definition a_line (limit : N) : Reading bytes := λ x bs,
  match first_at (N.eqb LF) bs with
  | Some e =>
      if limit + 1 <? N.of_nat e then Refuses
      else
        let line := take e bs in
        if match last line with Some c => negb (c =? CR) | None => true end || existsb control (take (e - 1) line)
        then Refuses else Got (take (e - 1) line) (drop (S e) bs) x
  | None => if limit + 1 <? len bs then Refuses else Ends
  end.

Definition has_room (n : N) : Reading unit := λ x bs, let '(yes, x) := room x n in if yes then Got tt bs x else Refuses.

(** Chunks, of which the bodies before this one are [body_]. *)
Fixpoint chunks (fuel : nat) (body_ : bytes) (framing_ : N) : Reading bytes :=
  match fuel with
  | O => fails
  | S fuel =>
      line_ <- a_line CHUNK_LINE_MAX;
      let framing_ := framing_ + (len line_ + 4) in
      if CHUNK_FRAMING_MAX <? framing_ then fails
      else
        match chunk_size line_ with
        | None => fails
        | Some size =>
            if size =? 0 then got body_
            else if BODY_MAX <? len body_ + size then fails
            else
              _ <- has_room size;
              bs <- so_many size;
              after <- a_line 0;
              match after with [] => chunks fuel (body_ ++ bs) framing_ | _ => fails end
        end
  end.
Fixpoint trailers (fuel : nat) (n : N) : Reading unit :=
  match fuel with
  | O => fails
  | S fuel =>
      line_ <- a_line HEAD_MAX;
      match line_ with
      | [] => got tt
      | _ => let n := n + (len line_ + 2) in if HEAD_MAX <? n then fails else trailers fuel n
      end
  end.
Definition in_chunks : Reading bytes := λ x bs,
  (body_ <- chunks (S (length bs)) [] 0; _ <- trailers (S (length bs)) 0; got body_) x bs.

Definition a_body (f : Framing) : Reading bytes :=
  match f with
  | FNone => got []
  | FLength n => if n =? 0 then got [] else _ <- has_room n; so_many n
  | FChunked => in_chunks
  end.

Definition of_res {A} (m : Res unit A) : Reading A :=
  match m with Done a => got a | _ => fails end.

Definition a_request : Reading Request :=
  head_ <- a_head;
  framing_ <- of_res (framing head_);
  let hosts := len (values_of (str "host") (h_headers head_)) in
  if (1 <? hosts) || ((hosts =? 0) && (1 <=? minor head_)) then fails
  else
    _ <- of_res (expects_continue head_);
    body_ <- a_body framing_;
    got (request_of head_ body_).
End spec.

(** * What is known of a buffer when more of it comes

    What the reader decides on the bytes that are there it would decide on
    all of them. *)

Lemma len_app {A} (a b : list A) : len (a ++ b) = len a + len b.
Proof. unfold len. rewrite length_app. lia. Qed.
Lemma len_take {A} (n : N) (l : list A) : n <= len l → len (take (N.to_nat n) l) = n.
Proof. unfold len. rewrite length_take. lia. Qed.

(** ** The first line end *)
Lemma first_at_app p (a b : bytes) :
  first_at p (a ++ b) = match first_at p a with Some i => Some i | None => (λ i, length a + i)%nat <$> first_at p b end.
Proof.
  induction a as [|c a IH]; cbn; [by destruct (first_at p b)|]. destruct (p c); [done|]. rewrite IH.
  destruct (first_at p a); cbn; [done|]. by destruct (first_at p b).
Qed.

Lemma first_at_bound p (a : bytes) i : first_at p a = Some i → (i < length a)%nat.
Proof.
  revert i. induction a as [|c a IH]; intros i; cbn; [done|]. destruct (p c); [intros [= <-]; lia|].
  destruct (first_at p a) as [j|]; cbn; [|done]. intros [= <-]. specialize (IH j eq_refl). lia.
Qed.

(** ** An empty line *)
Definition line_ends (c d : N) (b : bytes) : bool :=
  ((c =? LF) && (d =? LF)) || ((c =? LF) && (d =? CR) && match b with e :: _ => e =? LF | [] => false end).

Lemma empty_line_step c d b : has_empty_line (c :: d :: b) = line_ends c d b || has_empty_line (d :: b).
Proof. done. Qed.

Lemma line_ends_more c d b x : line_ends c d b = true → line_ends c d (b ++ x) = true.
Proof.
  unfold line_ends. rewrite !orb_true_iff. intros [?|Hb]; [by left|right]. destruct b; [|done]. by rewrite andb_false_r in Hb.
Qed.

Lemma empty_line_cons c b : has_empty_line b = true → has_empty_line (c :: b) = true.
Proof. intros Hb. destruct b as [|d b]; [done|]. rewrite empty_line_step, Hb. by rewrite orb_true_r. Qed.

Lemma empty_line_more a x : has_empty_line a = true → has_empty_line (a ++ x) = true.
Proof.
  induction a as [|c [|d a] IH]; [done|done|]. change ((c :: d :: a) ++ x) with (c :: d :: a ++ x).
  rewrite !empty_line_step, !orb_true_iff. intros [Ha|Ha]; [left; by apply line_ends_more|right; by apply IH].
Qed.

(** It is looked for behind what was searched before. *)
Lemma empty_line_drop s b : has_empty_line (take s b) = false → has_empty_line b = has_empty_line (drop (s - 2) b).
Proof.
  revert b. induction s as [|s IH]; intros b Hs; [by rewrite drop_0|].
  destruct s as [|s]; [by rewrite drop_0|]. destruct s as [|s]; [by rewrite drop_0|].
  destruct b as [|c b]; [by rewrite drop_nil|]. replace (S (S (S s)) - 2)%nat with (S (S (S s) - 2))%nat by lia. cbn [drop].
  cbn [take] in Hs. destruct (has_empty_line (take (S (S s)) b)) eqn:E; [apply (empty_line_cons c) in E; congruence|].
  rewrite <-IH by done. destruct b as [|d b]; [done|]. change (take (S (S s)) (d :: b)) with (d :: take (S s) b) in Hs.
  rewrite empty_line_step in *. apply orb_false_iff in Hs as [Hs _].
  assert (line_ends c d b = line_ends c d (take (S s) b)) as -> by (by destruct b). by rewrite Hs.
Qed.

Lemma ended_whole s b : has_empty_line (take s b) = false → is_ended s b = has_empty_line b.
Proof.
  intros Hs. unfold is_ended. destruct (decide (s <= length b)%nat).
  - rewrite Nat.min_l by done. by rewrite <-empty_line_drop.
  - rewrite Nat.min_r by lia. rewrite take_ge in Hs by lia. rewrite <-empty_line_drop by (by rewrite take_ge). done.
Qed.

Lemma empty_line_lf b : has_empty_line b = true → LF ∈ b.
Proof.
  induction b as [|c [|d b] IH]; [done|done|]. rewrite empty_line_step. unfold line_ends. intros Hb.
  destruct (N.eqb_spec c LF) as [->|]; [left|]. right. by apply IH.
Qed.

(** ** The method *)
Lemma take_till_app p (a b : list N) : Exists (λ c, p c = true) a → take_till p (a ++ b) = take_till p a.
Proof. induction 1 as [c a Hc|c a _ IH]; cbn; [by rewrite Hc|]. destruct (p c); [done|]. by rewrite IH. Qed.
Lemma take_till_all p (a : list N) : Forall (λ c, p c = false) a → take_till p a = a.
Proof. induction 1 as [|c a Hc _ IH]; cbn; [done|]. by rewrite Hc, IH. Qed.
Lemma take_till_prefix p (a b : list N) : ∃ t, take_till p (a ++ b) = take_till p a ++ t.
Proof.
  induction a as [|c a [t IH]]; [by eexists|]. cbn. destruct (p c); [by exists []|]. exists t. by rewrite IH.
Qed.
Lemma exists_or_forall (p : N → bool) (a : list N) : Exists (λ c, p c = true) a ∨ Forall (λ c, p c = false) a.
Proof.
  induction a as [|c a [IH|IH]]; [by right|by left; right|]. destruct (p c) eqn:E; [by left; left|right; by constructor].
Qed.

Lemma no_method_more a x : no_method a = true → no_method (a ++ x) = true.
Proof.
  unfold no_method. rewrite take_app. set (k := N.to_nat (METHOD_MAX + 1)). set (t := take (k - length a) x).
  destruct (take_till_prefix (N.eqb SP) (take k a) t) as [u ->]. rewrite !orb_true_iff. intros [[Hl|Hs]|Ht].
  - left. left. rewrite len_app. apply N.ltb_lt. apply N.ltb_lt in Hl. lia.
  - left. right. by destruct (take k a).
  - right. rewrite forallb_app, negb_andb, Ht. done.
Qed.

Lemma lf_no_token : is_token LF = false.
Proof. done. Qed.

(** Once a line has ended the method is known. *)
Lemma no_method_known a x : no_method a = false → LF ∈ a → no_method (a ++ x) = false.
Proof.
  unfold no_method. rewrite take_app. set (k := N.to_nat (METHOD_MAX + 1)). set (t := take (k - length a) x).
  rewrite !orb_false_iff. intros [[Hl Hs] Ht] Hlf. destruct (exists_or_forall (N.eqb SP) (take k a)) as [Hsp|Hsp].
  - rewrite take_till_app by done. split_and!; [done| |done]. destruct Hsp; done.
  - exfalso. rewrite take_till_all in Hl, Ht by done. apply N.ltb_ge in Hl.
    rewrite take_ge in Ht by (unfold len, k in *; rewrite length_take in Hl; unfold METHOD_MAX in *; lia).
    apply negb_false_iff in Ht. rewrite forallb_forall in Ht. specialize (Ht LF). rewrite lf_no_token in Ht.
    apply list_elem_of_In in Hlf. by apply Ht in Hlf.
Qed.
