(* ===== verification/HttpReads.v ===== *)
(** * The reader reads what the connection says

    However the bytes arrive, each operation of the reader gives what the
    reference gives of all of them; so it never spins and never panics. *)

From S2P Require Import Prelude Http HttpSpec.

Open Scope N_scope.

(** What the reader relies on of httparse: what it says of bytes it says of
    them with more behind them; with an empty line behind a method the head
    is whole; a head ends with an empty line, within the bytes; there are no
    more headers than there is room for. *)
Record ParseLaws (parse : N → bytes → Parsed) : Prop := {
  complete_more n b x l m p v hs : parse n b = Complete l m p v hs → parse n (b ++ x) = Complete l m p v hs;
  failed_more n b x : parse n b = TooManyHeaders ∨ parse n b = Malformed →
    parse n (b ++ x) = TooManyHeaders ∨ parse n (b ++ x) = Malformed;
  whole_head n b : no_method b = false → has_empty_line b = true → parse n b ≠ Partial;
  complete_within n b l m p v hs : parse n b = Complete l m p v hs → l <= len b ∧ has_empty_line (take (N.to_nat l) b) = true;
  complete_headers n b l m p v hs : parse n b = Complete l m p v hs → len hs <= n;
}.

Section reads.
Context {E R : Type} (parse : N → bytes → Parsed) (room : R → N → bool * R) (laws : ParseLaws parse).
Notation Reader := (Reader E R).
Notation Act := (Act E R).

(** How the stream ends. *)
Fixpoint ending (s : list (Read E)) : Next E :=
  match s with
  | [] | Data [] :: _ => End
  | Failed e :: _ => Broken e
  | _ :: s => ending s
  end.

(** What is left of the stream ends as the stream does. *)
Definition same_end (r r' : Reader) : Prop := ending (stream r') = ending (stream r) ∧ (stream r = [] → stream r' = []).

Definition answer {A} (r : Reader) (x : Res E A * Reader) (a : Ans R A) : Prop :=
  match a with
  | Got a rest y => ∃ r', x = (Done a, r') ∧ to_come r' = rest ∧ held r' = y ∧ same_end r r'
  | Refuses => ∃ y r', x = (Stop (NextRefused y), r')
  | Ends => ∃ r', x = (Stop (ending (stream r)), r')
  end.
Definition answers {A} (m : Act A) (f : Reading A) : Prop := ∀ r, answer r (m r) (f (held r) (to_come r)).

Lemma answers_ret {A} (a : A) : answers (ret a) (got a).
Proof. intros r. by exists r. Qed.
Lemma answers_refuse {A} y : answers (refuse y : Act A) fails.
Proof. intros r. by exists y, r. Qed.

Lemma answer_bind {A A'} r (m : Act A) (k : A → Act A') f g :
  answer r (m r) (f (held r) (to_come r)) →
  (∀ a r', f (held r) (to_come r) = Got a (to_come r') (held r') → answer r' (k a r') (g a (held r') (to_come r'))) →
  answer r (and_then m k r) (andthen f g (held r) (to_come r)).
Proof.
  intros Hm Hk. unfold and_then, andthen. destruct (f (held r) (to_come r)) as [a rest x| |]; cbn in Hm.
  - destruct Hm as (r' & -> & <- & <- & He & Hs). specialize (Hk a r' eq_refl). unfold answer, same_end in *. rewrite He in Hk.
    destruct (g a (held r') (to_come r')); [|done..]. destruct Hk as (r2 & -> & ? & ? & ? & ?). exists r2. by auto 10.
  - destruct Hm as (y & r' & ->). by exists y, r'.
  - destruct Hm as (r' & ->). by exists r'.
Qed.

Lemma answers_bind {A A'} (m : Act A) (k : A → Act A') f g :
  answers m f → (∀ a, answers (k a) (g a)) → answers (and_then m k) (andthen f g).
Proof. intros Hm Hk r. apply answer_bind; [apply Hm|]. intros a r' _. apply Hk. Qed.

(** ** More bytes *)
Lemma more_from_spec s (r : Reader) :
  (∃ r' bs, more_from s r = (Done true, r') ∧ buf r' = buf r ++ bs ∧ bs ++ data (stream r') = data s ∧ held r' = held r ∧
     ending (stream r') = ending s ∧ (length (stream r') < length s)%nat) ∨
  (data s = [] ∧ ((∃ r', more_from s r = (Done false, r') ∧ ending s = End) ∨ ∃ e r', more_from s r = (Stop (Broken e), r') ∧ ending s = Broken e)).
Proof.
  induction s as [|[[|c bs]| |e] s IH]; cbn.
  - right. split; [done|]. left. by eexists.
  - right. split; [done|]. left. by eexists.
  - left. eexists _, (c :: bs). split; [done|]. cbn. split_and!; [done|done|done|done|lia].
  - destruct IH as [(r' & bs & H1 & H2 & H3 & H4 & H5 & H6)|IH]; [left|by right].
    exists r', bs. split_and!; [done..|lia].
  - right. split; [done|]. right. by do 2 eexists.
Qed.

Lemma more_spec (r : Reader) :
  (∃ r' bs, to_come r' = to_come r ∧ buf r' = buf r ++ bs ∧ held r' = held r ∧ ending (stream r') = ending (stream r) ∧
     (length (stream r') < length (stream r))%nat ∧ ∀ A (k : Act A), more_or_end k r = k r') ∨
  (to_come r = buf r ∧ ∀ A (k : Act A), ∃ r', more_or_end k r = (Stop (ending (stream r)), r')).
Proof.
  unfold more_or_end, and_then, more, to_come. destruct (more_from_spec (stream r) r) as [(r' & bs & -> & Hb & Hd & Hh & He & Hl)|(Hd & H)].
  - left. exists r', bs. rewrite Hb, <-app_assoc, Hd. done.
  - right. split; [by rewrite Hd, app_nil_r|]. intros A k. destruct H as [(r' & -> & ->)|(e & r' & -> & ->)]; by eexists.
Qed.

(** A loop that asks for more goes on as it would with more there. *)
Lemma answer_more {A} r (k : Act A) (a : Ans R A) :
  (∀ r' bs, to_come r' = to_come r → buf r' = buf r ++ bs → held r' = held r → (length (stream r') < length (stream r))%nat →
     answer r' (k r') a) →
  (to_come r = buf r → a = Ends) → answer r (more_or_end k r) a.
Proof.
  intros Hk He. destruct (more_spec r) as [(r' & bs & Ht & Hb & Hh & Hen & Hl & ->)|(Ht & H)].
  - specialize (Hk r' bs Ht Hb Hh Hl). unfold answer, same_end in *. rewrite Hen in Hk. destruct a; [|done..].
    destruct Hk as (r2 & -> & ? & ? & ? & ?). exists r2. split_and!; try done. intros Hs. rewrite Hs in Hl. cbn in Hl. lia.
  - rewrite (He Ht). cbn. apply H.
Qed.

(** ** So many bytes, a line *)
Lemma to_come_drop (r : Reader) n : (n <= length (buf r))%nat → to_come (with_buf r (drop n (buf r))) = drop n (to_come r).
Proof. intros Hn. unfold to_come. cbn. by rewrite drop_app_le. Qed.

Lemma exactly_loop_answers fuel n r : (length (stream r) < fuel)%nat → answer r (exactly_loop fuel n r) (so_many n (held r) (to_come r)).
Proof.
  revert r. induction fuel as [|fuel IH]; intros r Hf; [lia|]. cbn [exactly_loop]. destruct (N.ltb_spec (len (buf r)) n).
  - apply answer_more.
    + intros r' bs Ht _ Hh Hl. rewrite <-Ht, <-Hh. apply IH. lia.
    + intros Ht. unfold so_many. rewrite Ht. by apply N.ltb_lt in H as ->.
  - unfold so_many. assert (len (to_come r) <? n = false) as -> by (apply N.ltb_ge; unfold to_come; rewrite len_app; lia).
    eexists. split; [|split; [apply to_come_drop; unfold len in *; lia|done]]. f_equal. f_equal. unfold to_come.
    rewrite take_app_le by (unfold len in *; lia). done.
Qed.

Lemma exactly_answers n : answers (exactly n) (so_many n).
Proof. intros r. apply exactly_loop_answers. lia. Qed.

Lemma line_loop_answers fuel limit y r : (length (stream r) < fuel)%nat → answer r (line_loop fuel limit y r) (a_line limit (held r) (to_come r)).
Proof.
  revert r. induction fuel as [|fuel IH]; intros r Hf; [lia|]. cbn [line_loop]. unfold a_line.
  assert (first_at (N.eqb LF) (to_come r) = match first_at (N.eqb LF) (buf r) with Some i => Some i
    | None => (λ i, length (buf r) + i)%nat <$> first_at (N.eqb LF) (data (stream r)) end) as Hp by apply first_at_app.
  destruct (first_at (N.eqb LF) (buf r)) as [e|] eqn:Ep.
  - rewrite Hp. apply first_at_bound in Ep as Hb. destruct (_ <? N.of_nat e); [apply answers_refuse|].
    assert (take e (to_come r) = take e (buf r)) as -> by (unfold to_come; rewrite take_app_le by lia; done).
    destruct (_ || _).
    + by do 2 eexists.
    + eexists. split; [done|]. split; [apply to_come_drop; lia|done].
  - destruct (N.ltb_spec (limit + 1) (len (buf r))) as [Hl|Hl].
    + assert ((limit + 1 <? len (to_come r)) = true) as Ht by (apply N.ltb_lt; unfold to_come; rewrite len_app; lia).
      rewrite Hp, Ht. destruct (first_at _ (data _)) as [i|]; cbn; [|apply answers_refuse].
      assert ((limit + 1 <? N.of_nat (length (buf r) + i)) = true) as -> by (apply N.ltb_lt; unfold len in Hl; lia). apply answers_refuse.
    + apply answer_more.
      * intros r' bs Ht _ Hh Hs. rewrite <-Ht, <-Hh. apply IH. lia.
      * intros Ht. rewrite Ht, Ep. by apply N.ltb_ge in Hl as ->.
Qed.

Lemma line_answers limit y : answers (line limit y) (a_line limit).
Proof. intros r. apply line_loop_answers. lia. Qed.

(** ** A head *)
Notation read_head := (read_head (E:=E) (R:=R) parse).
Notation head_loop := (head_loop (E:=E) (R:=R) parse).
Notation head_behind := (head_behind (R:=R) parse).
Notation a_head := (a_head (R:=R) parse).

Lemma read_head_answers r :
  no_method (buf r) = false → has_empty_line (buf r) = true → answer r (read_head r) (head_behind (held r) (to_come r)).
Proof.
  intros Hm He. unfold Http.read_head, HttpSpec.head_behind.
  assert (no_method (to_come r) = false) as -> by (apply no_method_known; [done|by apply empty_line_lf]).
  assert (has_empty_line (to_come r) = true) as -> by (by apply empty_line_more).
  destruct (parse HEADERS_MAX (buf r)) as [l m p v hs| | |] eqn:Ep.
  - destruct (complete_within _ laws _ _ _ _ _ _ _ Ep) as [Hl _]. unfold to_come. rewrite (complete_more _ laws _ _ _ _ _ _ _ _ Ep).
    destruct (HEAD_MAX <? l); [apply answers_refuse|]. assert ((len (buf r) <? l) = false) as -> by (by apply N.ltb_ge).
    rewrite take_app_le by (unfold len in *; lia). destruct (lone _ _); [apply answers_refuse|].
    eexists. split; [done|]. split; [apply to_come_drop; unfold len in *; lia|done].
  - by destruct (whole_head _ laws _ _ Hm He Ep).
  - destruct (failed_more _ laws HEADERS_MAX (buf r) (data (stream r)) (or_introl Ep)) as [Hp|Hp]; unfold to_come; rewrite Hp; apply answers_refuse.
  - destruct (failed_more _ laws HEADERS_MAX (buf r) (data (stream r)) (or_intror Ep)) as [Hp|Hp]; unfold to_come; rewrite Hp; apply answers_refuse.
Qed.

(** A head that is not whole in as many bytes as a head may have. *)
Lemma head_too_large b x : HEAD_MAX <= len b → has_empty_line b = false → ∀ y, head_behind y (b ++ x) = Refuses.
Proof.
  intros Hl He y. unfold HttpSpec.head_behind. destruct (no_method _); [done|]. destruct (has_empty_line (b ++ x)).
  - destruct (parse HEADERS_MAX (b ++ x)) as [l m p v hs| | |] eqn:Ep; try done. destruct (N.ltb_spec HEAD_MAX l); [done|].
    destruct (complete_within _ laws _ _ _ _ _ _ _ Ep) as [_ Hw]. rewrite take_app_le in Hw by (unfold len in *; lia).
    exfalso. apply (empty_line_more _ (drop (N.to_nat l) b)) in Hw. rewrite take_drop in Hw. congruence.
  - assert ((HEAD_MAX <=? len (b ++ x)) = true) as -> by (apply N.leb_le; rewrite len_app; lia). done.
Qed.

Lemma no_method_answers r : no_method (buf r) = true → answer r (refuse BAD_REQUEST r : Res E Head * _) (head_behind (held r) (to_come r)).
Proof. intros Hm. unfold HttpSpec.head_behind, to_come. rewrite no_method_more by done. apply answers_refuse. Qed.

Section head_loop.
Context (fuel : nat) (passed_over : bool) (searched : nat) (r : Reader) (a : Ans R Head).
Hypothesis more_ok : has_empty_line (buf r) = false → ∀ r' bs, to_come r' = to_come r → buf r' = buf r ++ bs → held r' = held r →
  (length (stream r') < length (stream r))%nat → answer r' (head_loop fuel passed_over (length (buf r)) r') a.
Hypothesis not_yet : has_empty_line (take searched (buf r)) = false.

Notation rest := (if is_ended searched (buf r) then read_head
  else if HEAD_MAX <=? len (buf r) then refuse HEAD_TOO_LARGE
  else more_or_end (head_loop fuel passed_over (length (buf r)))).

(** Behind a method: what the buffer has is looked at, or more is asked for. *)
Lemma rest_answers : a = head_behind (held r) (to_come r) → answer r ((if no_method (buf r) then refuse BAD_REQUEST else rest) r) a.
Proof.
  intros Ha. destruct (no_method (buf r)) eqn:Em; [rewrite Ha; by apply no_method_answers|]. rewrite ended_whole by done.
  destruct (has_empty_line (buf r)) eqn:He; [rewrite Ha; by apply read_head_answers|].
  destruct (N.leb_spec HEAD_MAX (len (buf r))) as [Hl|Hl].
  - rewrite Ha. unfold to_come. rewrite head_too_large by done. apply answers_refuse.
  - apply answer_more; [by apply more_ok|]. intros Ht. rewrite Ha, Ht. unfold HttpSpec.head_behind. rewrite Em, He.
    by assert ((HEAD_MAX <=? len (buf r)) = false) as -> by (by apply N.leb_gt).
Qed.

(** Nothing, or a CR whose LF may still come. *)
Lemma short_answers : (length (buf r) <= 1)%nat → (to_come r = buf r → a = Ends) → answer r (rest r) a.
Proof.
  intros Hb Ha. rewrite ended_whole by done.
  assert (has_empty_line (buf r) = false) as He by (destruct (buf r) as [|? [|]]; cbn in *; [done|done|lia]). rewrite He.
  assert ((HEAD_MAX <=? len (buf r)) = false) as -> by (apply N.leb_gt; unfold len, HEAD_MAX; lia).
  apply answer_more; [by apply more_ok|done].
Qed.
End head_loop.

Lemma head_loop_answers fuel passed_over searched r :
  has_empty_line (take searched (buf r)) = false →
  (passed_over = false → (searched <= 1)%nat ∨ take 2 (buf r) ≠ [CR; LF]) →
  (length (stream r) + (if passed_over then 0 else 1) < fuel)%nat →
  answer r (head_loop fuel passed_over searched r) ((if passed_over then head_behind else a_head) (held r) (to_come r)).
Proof.
  revert passed_over searched r. induction fuel as [|fuel IH]; intros passed_over searched r Hn Hc Hf; [lia|]. cbn [Http.head_loop].
  set (a := (if passed_over then head_behind else a_head) (held r) (to_come r)).
  assert (has_empty_line (buf r) = false → (passed_over = false → (length (buf r) <= 1)%nat ∨ take 2 (buf r) ≠ [CR; LF]) →
    ∀ r' bs, to_come r' = to_come r → buf r' = buf r ++ bs → held r' = held r →
    (length (stream r') < length (stream r))%nat → answer r' (head_loop fuel passed_over (length (buf r)) r') a) as Hmore.
  { intros He Hp r' bs Ht Hb Hh Hl. unfold a. rewrite <-Ht, <-Hh. apply IH.
    - by rewrite Hb, take_app_length.
    - intros Hpo. specialize (Hp Hpo). rewrite Hb. destruct (buf r) as [|c [|d b]]; cbn in *; [left; lia..|right].
      destruct Hp; [lia|done].
    - destruct passed_over; lia. }
  set (rest := if is_ended searched (buf r) then read_head else _).
  assert ((passed_over = false → (length (buf r) <= 1)%nat ∨ take 2 (buf r) ≠ [CR; LF]) → a = head_behind (held r) (to_come r) →
    answer r ((if no_method (buf r) then refuse BAD_REQUEST else rest) r) a) as Hrest.
  { intros Hp Ha. apply rest_answers; [|done|done]. intros He. by apply Hmore. }
  assert ((length (buf r) <= 1)%nat → (to_come r = buf r → a = Ends) → answer r (rest r) a) as Hshort.
  { intros Hb Ha. apply short_answers; [|done|done|done]. intros He. apply Hmore; [done|]. by left. }
  assert (∀ d : bytes, (if no_method d then refuse BAD_REQUEST r else rest r) = (if no_method d then refuse BAD_REQUEST else rest) r) as Hif
    by (intros d; by destruct (no_method d)).
  clearbody rest. clear Hmore. unfold a in *. clear a. destruct (buf r) as [|c [|d b]] eqn:Hb; rewrite ?Hif.
  - destruct passed_over; [by apply Hrest|]. apply Hshort; [cbn; lia|]. by intros ->.
  - destruct passed_over; [rewrite andb_false_r; by apply Hrest|]. rewrite andb_true_r. destruct (N.eqb_spec c CR) as [->|Hc'].
    + apply Hshort; [cbn; lia|]. by intros ->.
    + apply Hrest; [intros _; left; cbn; lia|]. unfold to_come. rewrite Hb. cbn. apply N.eqb_neq in Hc'. rewrite Hc'. by destruct (data _).
  - destruct ((c =? CR) && (d =? LF) && negb passed_over) eqn:E3.
    + apply andb_true_iff in E3 as [[Ec%N.eqb_eq Ed%N.eqb_eq]%andb_true_iff Ep%negb_true_iff]. subst.
      assert (a_head (held r) (to_come r) = head_behind (held (with_buf r b)) (to_come (with_buf r b))) as ->
        by (unfold to_come; rewrite Hb; done).
      apply (IH true searched (with_buf r b)); [|done|cbn in *; lia].
      destruct (Hc eq_refl) as [Hs|Hs]; [|done]. cbn. destruct searched as [|[|]]; [done| |lia]. by destruct b.
    + apply Hrest.
      * intros ->. right. rewrite andb_true_r in E3. cbn. intros [= -> ->]. done.
      * destruct passed_over; [done|]. unfold to_come. rewrite Hb. cbn. rewrite andb_true_r in E3. by rewrite E3.
Qed.

Lemma head_answers : answers (head parse) a_head.
Proof. intros r. apply (head_loop_answers _ false 0 r); [by rewrite take_0|by left; lia|lia]. Qed.

(** ** A body in chunks *)
Lemma room_answers {A} n (k : Act A) g : answers k g →
  answers (and_then (ask_room room n) (λ yes, if negb yes then refuse NO_ROOM else k)) (andthen (has_room room n) (λ _, g)).
Proof.
  intros Hk r. unfold and_then, ask_room, andthen, has_room. destruct (room (held r) n) as [[] x]; cbn; [|by do 2 eexists].
  apply (Hk (mkReader (stream r) (buf r) (begun r) x)).
Qed.

(** What is behind what was read is shorter. *)
Lemma a_line_rest limit x bs l rest y : a_line (R:=R) limit x bs = Got l rest y → (length rest < length bs)%nat.
Proof.
  unfold a_line. destruct (first_at _ bs) as [e|] eqn:Ep; repeat case_match; try done. intros [= _ <- _].
  apply first_at_bound in Ep. rewrite length_drop. lia.
Qed.
Lemma so_many_rest n x bs l rest y : so_many (R:=R) n x bs = Got l rest y → (length rest <= length bs)%nat ∧ len l = n.
Proof.
  unfold so_many. destruct (N.ltb_spec (len bs) n) as [|Hl]; [done|]. intros [= <- <- _]. rewrite length_drop. split; [lia|].
  by apply len_take.
Qed.
Lemma has_room_rest n x bs l rest y : has_room room n x bs = Got l rest y → rest = bs.
Proof. unfold has_room. destruct (room x n) as [[] ?]; [|done]. by intros [= _ -> _]. Qed.

Lemma chunk_loop_answers fuel body_ fr r : len body_ <= BODY_MAX → (length (to_come r) < fuel)%nat →
  answer r (chunk_loop room fuel body_ fr r) (chunks room fuel body_ fr (held r) (to_come r)).
Proof.
  revert body_ fr r. induction fuel as [|fuel IH]; intros body_ fr r Hb Hf; [lia|]. cbn [chunk_loop chunks].
  apply answer_bind; [apply line_answers|]. intros l r1 Hl%a_line_rest. destruct (_ <? _); [apply answers_refuse|].
  destruct (chunk_size l) as [size|]; [|apply answers_refuse]. destruct (size =? 0); [apply answers_ret|].
  assert ((BODY_MAX <? len body_) = false) as -> by (by apply N.ltb_ge).
  assert ((BODY_MAX - len body_ <? size) = (BODY_MAX <? len body_ + size)) as ->
    by (apply eq_true_iff_eq; rewrite !N.ltb_lt; lia).
  destruct (N.ltb_spec BODY_MAX (len body_ + size)) as [|Hs]; [apply answers_refuse|].
  unfold and_then at 1, ask_room, andthen at 1, has_room. destruct (room (held r1) size) as [[] x]; cbn [negb]; [|apply answers_refuse].
  set (r2 := mkReader (stream r1) (buf r1) (begun r1) x).
  assert (to_come r2 = to_come r1) as Ht by done. change x with (held r2). rewrite <-Ht. change (answer r1) with (answer (A:=bytes) r2).
  apply answer_bind; [apply exactly_answers|]. intros bs r3 [Hr3 Hlen]%so_many_rest.
  apply answer_bind; [apply line_answers|]. intros [|] r4 Hr4%a_line_rest; [|apply answers_refuse].
  apply IH; [rewrite len_app; lia|]. rewrite Ht in Hr3. lia.
Qed.

Lemma trailer_loop_answers fuel n r : (length (to_come r) < fuel)%nat →
  answer r (trailer_loop fuel n r) (trailers fuel n (held r) (to_come r)).
Proof.
  revert n r. induction fuel as [|fuel IH]; intros n r Hf; [lia|]. cbn [trailer_loop trailers].
  apply answer_bind; [apply line_answers|]. intros [|c l] r1 Hl%a_line_rest; [apply answers_ret|].
  destruct (_ <? _); [apply answers_refuse|]. apply IH. lia.
Qed.

Lemma chunks_rest fuel body_ fr x bs l rest y : chunks room fuel body_ fr x bs = Got l rest y → (length rest <= length bs)%nat.
Proof.
  revert body_ fr x bs. induction fuel as [|fuel IH]; intros body_ fr x bs; [done|]. cbn [chunks]. unfold andthen, got, fails.
  destruct (a_line _ x bs) as [l1 bs1 x1| |] eqn:E1; [|done..]. apply a_line_rest in E1. repeat (case_match; try done).
  - intros [= _ <- _]. lia.
  - intros Hr%IH. repeat match goal with H : a_line _ _ _ = _ |- _ => apply a_line_rest in H | H : so_many _ _ _ = _ |- _ => apply so_many_rest in H as [? ?]
      | H : has_room _ _ _ _ = _ |- _ => apply has_room_rest in H as -> end. lia.
Qed.

Lemma chunked_answers : answers (chunked room) (in_chunks room).
Proof.
  intros r. unfold chunked, in_chunks. apply answer_bind; [apply chunk_loop_answers; unfold len; cbn; lia|].
  intros body_ r1 Hr%chunks_rest. apply answer_bind; [apply trailer_loop_answers; lia|]. intros _ r2 _. apply answers_ret.
Qed.

(** ** A request *)
Lemma framing_answers h : answers (lift (framing h)) (of_res (framing h)).
Proof.
  intros r. unfold lift, framing. repeat case_match; cbn; try (by do 2 eexists); by eexists.
Qed.
Lemma expects_answers h : answers (lift (expects_continue h)) (of_res (expects_continue h)).
Proof. intros r. unfold lift, expects_continue. repeat case_match; cbn; try (by do 2 eexists); by eexists. Qed.

Section announced.
Context (before_body : bool → option E) (announced : ∀ w, before_body w = None).

Lemma read_body_answers waits f : answers (read_body room before_body waits f) (a_body room f).
Proof.
  assert (∀ A (m : Act A) g, answers m g → answers (and_then (announce before_body waits) (λ _, m)) g) as Ha.
  { intros A m g Hm r. unfold and_then, announce. rewrite announced. apply Hm. }
  destruct f as [|n|]; cbn; [apply answers_ret| |].
  - destruct (n =? 0); [apply answers_ret|]. apply room_answers, Ha, exactly_answers.
  - apply Ha, chunked_answers.
Qed.

Lemma request_answers r : answer r (request parse room before_body r) (a_request parse room (held r) (to_come r)).
Proof.
  unfold request, a_request. change (answer r) with (answer (A:=Request) (store_begun r)).
  change (held r) with (held (store_begun r)). change (to_come r) with (to_come (store_begun r)).
  generalize (store_begun r). clear r. intros r. apply answer_bind; [apply head_answers|]. intros h r1 _.
  apply answer_bind; [apply framing_answers|]. intros f r2 _. destruct (_ || _); [apply answers_refuse|].
  apply answer_bind; [apply expects_answers|]. intros waits r3 _. apply answer_bind; [apply read_body_answers|]. intros b r4 _.
  apply answers_ret.
Qed.

(** What [next] gives. *)
Definition next_answer (r : Reader) (x : Res E (Next E) * Reader) (a : Ans R Request) : Prop :=
  match a with
  | Got q rest y => ∃ r', x = (Done (NextRequest q), r') ∧ to_come r' = rest ∧ held r' = y ∧ same_end r r'
  | Refuses => ∃ y r', x = (Done (NextRefused y), r')
  | Ends => ∃ r', x = (Done (ending (stream r)), r')
  end.
Lemma next_answers r : next_answer r (next parse room before_body r) (a_request parse room (held r) (to_come r)).
Proof.
  pose proof (request_answers r) as H. unfold next. destruct (a_request parse room (held r) (to_come r)); cbn in *.
  - destruct H as (r' & -> & H). by exists r'.
  - destruct H as (y & r' & ->). by exists y, r'.
  - destruct H as (r' & ->). by exists r'.
Qed.
End announced.
End reads.

(** * What was said does not change

    What the reference reads of some bytes it reads of them with more
    behind: so a request that is among the bytes that were read already
    needs no read. *)

Section stable.
Context {R : Type} (parse : N → bytes → Parsed) (room : R → N → bool * R) (laws : ParseLaws parse).

Definition keeps {A} (a b : Ans R A) (more : bytes) : Prop :=
  match a with
  | Got v rest y => b = Got v (rest ++ more) y
  | Refuses => b = Refuses
  | Ends => True
  end.
Definition stable {A} (f : Reading A) : Prop := ∀ x bs more, keeps (f x bs) (f x (bs ++ more)) more.

Lemma stable_got {A} (a : A) : stable (got a).
Proof. done. Qed.
Lemma stable_fails {A} : stable (fails (A:=A)).
Proof. done. Qed.

Lemma keeps_bind {A A'} (f f' : Reading A) (g g' : A → Reading A') x bs more :
  keeps (f x bs) (f' x (bs ++ more)) more →
  (∀ a y rest, f x bs = Got a rest y → keeps (g a y rest) (g' a y (rest ++ more)) more) →
  keeps (andthen f g x bs) (andthen f' g' x (bs ++ more)) more.
Proof.
  unfold andthen. destruct (f x bs) as [a rest y| |]; cbn.
  - intros -> Hg. by apply Hg.
  - by intros ->.
  - done.
Qed.
Lemma stable_bind {A A'} (f : Reading A) (g : A → Reading A') : stable f → (∀ a, stable (g a)) → stable (andthen f g).
Proof. intros Hf Hg x bs more. apply keeps_bind; [apply Hf|]. intros a y rest _. apply Hg. Qed.

Lemma stable_room n : stable (has_room room n).
Proof. intros x bs more. unfold has_room. by destruct (room x n) as [[] y]. Qed.

Lemma stable_so_many n : stable (so_many (R:=R) n).
Proof.
  intros x bs more. unfold so_many. destruct (N.ltb_spec (len bs) n); [done|].
  assert (len (bs ++ more) <? n = false) as -> by (apply N.ltb_ge; rewrite len_app; lia). cbn.
  by rewrite take_app_le, drop_app_le by (unfold len in *; lia).
Qed.

Lemma stable_line limit : stable (a_line (R:=R) limit).
Proof.
  intros x bs more. unfold a_line. rewrite first_at_app. destruct (first_at _ bs) as [e|] eqn:Ep.
  - apply first_at_bound in Ep. destruct (_ <? _); [done|]. rewrite take_app_le by lia. destruct (_ || _); [done|]. cbn.
    by rewrite drop_app_le by lia.
  - destruct (N.ltb_spec (limit + 1) (len bs)) as [Hl|]; [|done]. cbn. destruct (first_at _ more) as [i|]; cbn.
    + by assert ((limit + 1 <? N.of_nat (length bs + i)) = true) as -> by (apply N.ltb_lt; unfold len in Hl; lia).
    + by assert ((limit + 1 <? len (bs ++ more)) = true) as -> by (apply N.ltb_lt; rewrite len_app; lia).
Qed.

Lemma stable_head_behind : stable (head_behind (R:=R) parse).
Proof.
  intros x bs more. unfold head_behind. destruct (no_method bs) eqn:Em; [by rewrite no_method_more|].
  destruct (has_empty_line bs) eqn:He.
  - rewrite no_method_known, empty_line_more by (done || by apply empty_line_lf).
    destruct (parse HEADERS_MAX bs) as [l m p v hs| | |] eqn:Ep.
    + rewrite (complete_more _ laws _ _ _ _ _ _ _ _ Ep). destruct (complete_within _ laws _ _ _ _ _ _ _ Ep) as [Hl _].
      rewrite take_app_le by (unfold len in *; lia). destruct (_ || _); [done|]. cbn. by rewrite drop_app_le by (unfold len in *; lia).
    + by destruct (whole_head _ laws _ _ Em He Ep).
    + destruct (failed_more _ laws HEADERS_MAX bs more (or_introl Ep)) as [->| ->]; done.
    + destruct (failed_more _ laws HEADERS_MAX bs more (or_intror Ep)) as [->| ->]; done.
  - destruct (N.leb_spec HEAD_MAX (len bs)); [|done]. cbn. by apply (head_too_large parse laws).
Qed.

Lemma stable_head : stable (a_head (R:=R) parse).
Proof.
  intros x [|c [|d bs]] more; unfold a_head.
  - destruct (no_method []) eqn:E; [by vm_compute in E|]. done.
  - destruct (N.eqb_spec c CR) as [->|Hc]; [done|]. destruct more as [|d more]; [rewrite app_nil_r|].
    + apply N.eqb_neq in Hc. rewrite Hc. unfold keeps. case_match; [by rewrite app_nil_r|done..].
    + cbn [app]. apply N.eqb_neq in Hc. rewrite Hc. apply (stable_head_behind x [c] (d :: more)).
  - cbn [app]. destruct (_ && _); [apply stable_head_behind|apply (stable_head_behind x (c :: d :: bs) more)].
Qed.

(** The loops, with any fuel that is enough. *)
Lemma stable_chunks fuel fuel' body_ fr x bs more :
  (length bs < fuel)%nat → (length bs < fuel')%nat →
  keeps (chunks room fuel body_ fr x bs) (chunks room fuel' body_ fr x (bs ++ more)) more.
Proof.
  revert fuel' body_ fr x bs. induction fuel as [|fuel IH]; intros [|fuel'] body_ fr x bs Hf Hf'; [lia..|]. cbn [chunks].
  apply keeps_bind; [apply stable_line|]. intros l y rest Hl%a_line_rest. destruct (_ <? _); [done|].
  destruct (chunk_size l) as [size|]; [|done]. destruct (size =? 0); [done|]. destruct (_ <? _); [done|].
  apply keeps_bind; [apply stable_room|]. intros _ y1 rest1 Hr%has_room_rest. subst.
  apply keeps_bind; [apply stable_so_many|]. intros b y2 rest2 [Hb _]%so_many_rest.
  apply keeps_bind; [apply stable_line|]. intros [|] y3 rest3 Ha%a_line_rest; [|done]. apply IH; lia.
Qed.

Lemma stable_trailers fuel fuel' n x bs more : (length bs < fuel)%nat → (length bs < fuel')%nat →
  keeps (trailers fuel n x bs) (trailers fuel' n x (bs ++ more)) more.
Proof.
  revert fuel' n x bs. induction fuel as [|fuel IH]; intros [|fuel'] n x bs Hf Hf'; [lia..|]. cbn [trailers].
  apply keeps_bind; [apply stable_line|]. intros [|c l] y rest Hl%a_line_rest; [done|]. destruct (_ <? _); [done|]. apply IH; lia.
Qed.

Lemma stable_in_chunks : stable (in_chunks room).
Proof.
  intros x bs more. unfold in_chunks.
  assert ((length bs < S (length (bs ++ more)))%nat) as Hl by (rewrite length_app; lia).
  apply keeps_bind; [apply stable_chunks; lia|]. intros b y rest Hr%chunks_rest.
  apply keeps_bind; [apply stable_trailers; lia|]. done.
Qed.

Lemma stable_of_res {A} (m : Res unit A) : stable (of_res m).
Proof. by destruct m. Qed.

Lemma stable_body f : stable (a_body room f).
Proof.
  destruct f as [|n|]; cbn; [done| |apply stable_in_chunks]. destruct (n =? 0); [done|].
  apply stable_bind; [apply stable_room|intros _; apply stable_so_many].
Qed.

Lemma stable_request : stable (a_request parse room).
Proof.
  apply stable_bind; [apply stable_head|]. intros h. apply stable_bind; [apply stable_of_res|]. intros f. cbv zeta. case_match; [done|].
  apply stable_bind; [apply stable_of_res|]. intros _. apply stable_bind; [apply stable_body|]. done.
Qed.
End stable.
