(* ===== verification/HttpParse.v ===== *)
(** * A parser of heads

    A plain one with the laws the reader relies on: the reader can be run
    with it, and what is proved of the reader holds of something. *)

From S2P Require Import Prelude Http HttpSpec HttpReads.

Open Scope N_scope.

(** Where the first empty line ends. *)
Fixpoint head_end (b : bytes) : option nat :=
  match b with
  | c :: b' =>
      match b' with
      | d :: b'' =>
          if (c =? LF) && (d =? LF) then Some 2%nat
          else if (c =? LF) && (d =? CR) && match b'' with e :: _ => e =? LF | [] => false end then Some 3%nat
          else S <$> head_end b'
      | [] => None
      end
  | [] => None
  end.

Lemma head_end_step c d b : head_end (c :: d :: b) =
  if (c =? LF) && (d =? LF) then Some 2%nat
  else if (c =? LF) && (d =? CR) && match b with e :: _ => e =? LF | [] => false end then Some 3%nat
  else S <$> head_end (d :: b).
Proof. done. Qed.

Lemma head_end_found b : has_empty_line b = true → is_Some (head_end b).
Proof.
  induction b as [|c [|d b] IH]; [done|done|]. rewrite empty_line_step, head_end_step. unfold line_ends. intros Hb.
  destruct (_ && _); [by eexists|]. destruct (_ && _ && _); [by eexists|]. destruct (IH Hb) as [n ->]. by eexists.
Qed.

Lemma head_end_within b e : head_end b = Some e → (e <= length b)%nat ∧ has_empty_line (take e b) = true.
Proof.
  revert e. induction b as [|c [|d b] IH]; intros e; [done|done|]. rewrite head_end_step.
  destruct ((c =? LF) && (d =? LF)) eqn:E1; [intros [= <-]; cbn; rewrite E1; split; [lia|done]|].
  destruct ((c =? LF) && (d =? CR) && _) eqn:E2.
  - intros [= <-]. destruct b as [|x b]; [by rewrite andb_false_r in E2|]. cbn. rewrite E1, E2. split; [lia|done].
  - destruct (head_end (d :: b)) as [n|] eqn:E3; [|done]. intros [= <-]. destruct (IH n eq_refl) as [Hl Hh]. cbn in *.
    split; [lia|]. change (has_empty_line (c :: take n (d :: b)) = true). by apply empty_line_cons.
Qed.

Lemma head_end_more b x e : head_end b = Some e → head_end (b ++ x) = Some e.
Proof.
  revert e. induction b as [|c [|d b] IH]; intros e; [done|done|]. change ((c :: d :: b) ++ x) with (c :: d :: b ++ x).
  rewrite !head_end_step. destruct (_ && _); [done|].
  destruct ((c =? LF) && (d =? CR) && match b with e :: _ => e =? LF | [] => false end) eqn:E2.
  - destruct b as [|y b]; [by rewrite andb_false_r in E2|]. cbn [app]. by rewrite E2.
  - destruct (head_end (d :: b)) as [n|] eqn:E3; [|done]. intros [= <-]. pose proof (IH n eq_refl) as IH'.
    destruct ((c =? LF) && (d =? CR) && match b ++ x with e :: _ => e =? LF | [] => false end) eqn:E4.
    + destruct b as [|y b]; [done|]. cbn [app] in E4. congruence.
    + cbn [app] in IH'. by rewrite IH'.
Qed.

(** The lines of a head, and what is made of them. *)
Definition simple_line (l : bytes) : bytes := match last l with Some 13 => take (length l - 1) l | _ => l end.
Definition simple_header (l : bytes) : option (text * bytes) :=
  i ← first_at (N.eqb 58) l;
  let name := take i l in
  if match name with [] => true | _ => negb (forallb is_token name) end then None
  else Some (name, trim_by is_blank (drop (S i) l)).
Definition simple_version (v : bytes) : option N :=
  if bool_decide (v = str "HTTP/1.1") then Some 1 else if bool_decide (v = str "HTTP/1.0") then Some 0 else None.
Definition simple_head (n : N) (e : nat) (raw : bytes) : Parsed :=
  match simple_line <$> split_on LF raw with
  | first :: lines =>
      match split_on SP first, mapM simple_header (take (length lines - 2) lines) with
      | [m; p; v], Some hs =>
          match simple_version v with
          | Some v => if n <? len hs then TooManyHeaders else Complete (N.of_nat e) (Some m) (Some p) (Some v) hs
          | None => Malformed
          end
      | _, _ => Malformed
      end
  | [] => Malformed
  end.
Definition simple_parse (n : N) (b : bytes) : Parsed :=
  match head_end b with Some e => simple_head n e (take e b) | None => Partial end.

Lemma simple_head_cases n e raw :
  (simple_head n e raw = TooManyHeaders ∨ simple_head n e raw = Malformed) ∨
  ∃ m p v hs, simple_head n e raw = Complete (N.of_nat e) m p v hs ∧ len hs <= n.
Proof.
  unfold simple_head. repeat case_match; try (left; by auto). right. do 4 eexists. split; [done|]. by apply N.ltb_ge.
Qed.

Lemma simple_parse_laws : ParseLaws simple_parse.
Proof.
  assert (∀ n b x e, head_end b = Some e → simple_parse n (b ++ x) = simple_parse n b) as Hmore.
  { intros n b x e He. unfold simple_parse. rewrite (head_end_more _ _ _ He), He. f_equal. apply take_app_le.
    by destruct (head_end_within _ _ He). }
  split.
  - intros n b x l m p v hs Hp. assert (is_Some (head_end b)) as [e He].
    { unfold simple_parse in Hp. destruct (head_end b); [by eexists|done]. }
    by rewrite (Hmore _ _ _ _ He).
  - intros n b x Hp. assert (is_Some (head_end b)) as [e He].
    { unfold simple_parse in Hp. destruct (head_end b); [by eexists|naive_solver]. }
    by rewrite (Hmore _ _ _ _ He).
  - intros n b _ He. apply head_end_found in He as [e He]. unfold simple_parse. rewrite He.
    destruct (simple_head_cases n e (take e b)) as [[->| ->]|(m & p & v & hs & -> & _)]; done.
  - intros n b l m p v hs Hp. unfold simple_parse in Hp. destruct (head_end b) as [e|] eqn:He; [|done].
    apply head_end_within in He as [Hl Hh]. destruct (simple_head_cases n e (take e b)) as [[Hc|Hc]|(m' & p' & v' & hs' & Hc & _)]; rewrite Hc in Hp; try done.
    injection Hp as <- <- <- <- <-. rewrite Nat2N.id. split; [unfold len; lia|done].
  - intros n b l m p v hs Hp. unfold simple_parse in Hp. destruct (head_end b) as [e|] eqn:He; [|done].
    destruct (simple_head_cases n e (take e b)) as [[Hc|Hc]|(m' & p' & v' & hs' & Hc & Hn)]; rewrite Hc in Hp; try done.
    by injection Hp as <- <- <- <- <-.
Qed.

(** A request, in one piece and byte by byte. *)
Definition crlf_lines (ls : list string) : bytes := concat ((λ l, str l ++ CRLF) <$> ls).
Definition a_post : bytes :=
  crlf_lines ["POST /a HTTP/1.1"; "Host: h"; "Transfer-Encoding: chunked"; ""; "3;x=1"]%string ++ str "abc" ++
  crlf_lines [""; "2"; "de"; "0"; "X: y"; ""; "GET / HTTP/1.1"]%string.

Definition run (s : list (Read unit)) : Res unit (Next unit) * bytes :=
  let '(x, r) := next simple_parse always_room (λ _, None) (with_room s tt) in (x, to_come r).

Example a_post_is_read :
  run [Data a_post] = (Done (NextRequest (mkRequest (str "POST") (str "/a") [(str "Host", str "h"); (str "Transfer-Encoding", str "chunked")] (str "abcde") false false)),
    str "GET / HTTP/1.1" ++ CRLF) ∧
  run ((λ b, Data [b]) <$> a_post) = run [Data a_post].
Proof. by vm_compute. Qed.

(** * Bodies in chunks and responses, as they are sent

    What is sent in chunks is read back; what a request says of its length;
    the lines of a response; a closure that fails before a body. *)

(** ** Chunks as they are sent *)
Definition hex_char (d : N) : N := if d <? 10 then 48 + d else 87 + d.
Fixpoint hex_loop (fuel : nat) (n : N) (digits : text) : text :=
  match fuel with
  | O => digits
  | S fuel => let digits := hex_char (n mod 16) :: digits in if n / 16 =? 0 then digits else hex_loop fuel (n / 16) digits
  end.
Definition show_hex (n : N) : text := hex_loop 16 n [].

Definition encode_chunk (c : bytes) : bytes := show_hex (len c) ++ CRLF ++ c ++ CRLF.
Definition encode_chunks (cs : list bytes) : bytes := concat (encode_chunk <$> cs) ++ str "0" ++ CRLF ++ CRLF.
Definition framing_bytes (cs : list bytes) : N := foldr (λ c n, len (show_hex (len c)) + 4 + n) 5 cs.

Lemma hex_char_digit d : d < 16 → hex_digit (hex_char d) = d ∧ is_ascii_hexdigit (hex_char d) = true ∧ control (hex_char d) = false.
Proof.
  intros Hd. assert (Forall (λ d, hex_digit (hex_char d) = d ∧ is_ascii_hexdigit (hex_char d) = true ∧ control (hex_char d) = false)
    (N.of_nat <$> seq 0 16)) as Ha by (repeat constructor).
  rewrite Forall_forall in Ha. apply Ha. apply list_elem_of_fmap. exists (N.to_nat d). rewrite N2Nat.id. split; [done|].
  apply elem_of_seq. lia.
Qed.

Lemma hexadecimal_app a b : hexadecimal (a ++ b) = foldl (λ n c, 16 * n + hex_digit c) (hexadecimal a) b.
Proof. apply foldl_app. Qed.

Lemma hex_loop_spec fuel n acc : n < 16 ^ N.of_nat fuel → (0 < fuel)%nat →
  ∃ ds, hex_loop fuel n acc = ds ++ acc ∧ ds ≠ [] ∧ (length ds <= fuel)%nat ∧ hexadecimal ds = n ∧
    Forall (λ c, is_ascii_hexdigit c = true ∧ control c = false) ds.
Proof.
  revert n acc. induction fuel as [|fuel IH]; intros n acc Hn Hf; [lia|]. cbn [hex_loop].
  destruct (hex_char_digit (n mod 16)) as (Hd & Hx & Hc); [apply N.mod_lt; lia|].
  pose proof (N.div_mod n 16 ltac:(lia)) as Hdm. destruct (N.eqb_spec (n / 16) 0) as [Hz|Hz].
  - exists [hex_char (n mod 16)]. split_and!; [done|done|cbn; lia| |by repeat constructor]. unfold hexadecimal. cbn [foldl]. rewrite Hd. lia.
  - rewrite Nat2N.inj_succ, N.pow_succ_r' in Hn. assert (n / 16 < 16 ^ N.of_nat fuel) as Hlt by (apply N.Div0.div_lt_upper_bound; lia).
    assert (0 < fuel)%nat by (destruct fuel; [by apply N.lt_1_r in Hlt|lia]).
    destruct (IH (n / 16) (hex_char (n mod 16) :: acc) Hlt ltac:(lia)) as (ds & -> & Hne & Hl & Hv & Hall).
    exists (ds ++ [hex_char (n mod 16)]). split_and!.
    + by rewrite <-app_assoc.
    + by destruct ds.
    + rewrite length_app. cbn. lia.
    + rewrite hexadecimal_app. cbn [foldl]. rewrite Hv, Hd. lia.
    + apply Forall_app. split; [done|]. by repeat constructor.
Qed.

Lemma show_hex_spec n : n <= USIZE_MAX → show_hex n ≠ [] ∧ len (show_hex n) <= 16 ∧ hexadecimal (show_hex n) = n ∧
  Forall (λ c, is_ascii_hexdigit c = true ∧ control c = false) (show_hex n).
Proof.
  intros Hn. destruct (hex_loop_spec 16 n []) as (ds & E & Hne & Hl & Hv & Hall); [unfold USIZE_MAX in Hn; cbn; lia|lia|].
  unfold show_hex. rewrite E, app_nil_r. split_and!; try done. unfold len. lia.
Qed.

Lemma hexdigit_ascii c : is_ascii_hexdigit c = true → c < 128 ∧ c ≠ 59 ∧ is_blank c = false ∧ c ≠ LF.
Proof.
  unfold is_ascii_hexdigit, is_ascii_digit, between, is_blank, SP, TAB, LF. rewrite !orb_true_iff, !andb_true_iff, !N.leb_le.
  intros H. split_and!; [lia|lia| |lia]. apply orb_false_iff. rewrite !N.eqb_neq. lia.
Qed.

Lemma utf8_ascii (s : bytes) : Forall (λ c, c < 128) s → from_utf8 s = Some s.
Proof.
  intros Hs. unfold from_utf8. induction Hs as [|c s Hc _ IH]; [done|]. cbn. apply N.ltb_lt in Hc. rewrite Hc. cbn in *. by rewrite IH.
Qed.

Lemma trim_end_none p (s : text) : Forall (λ c, p c = false) s → trim_end_by p s = s.
Proof.
  intros Hs. unfold trim_end_by. rewrite <-(rev_involutive s) at 2. f_equal.
  assert (Forall (λ c, p c = false) (rev s)) as Hr by (by rewrite <-Permutation_rev). destruct Hr as [|c r Hc]; [done|]. cbn. by rewrite Hc.
Qed.

Lemma chunk_size_hex n : n <= USIZE_MAX → chunk_size (show_hex n) = Some n.
Proof.
  intros Hn. destruct (show_hex_spec n Hn) as (Hne & Hl & Hv & Hall). unfold chunk_size.
  rewrite take_till_all. 2: { eapply Forall_impl; [exact Hall|]. intros c [(_ & H59 & _)%hexdigit_ascii _]. apply N.eqb_neq. congruence. }
  rewrite utf8_ascii. 2: { eapply Forall_impl; [exact Hall|]. intros c [(H128 & _)%hexdigit_ascii _]. done. }
  cbn [default]. unfold id. rewrite trim_end_none. 2: { eapply Forall_impl; [exact Hall|]. intros c [(_ & _ & Hb & _)%hexdigit_ascii _]. done. }
  assert (forallb is_ascii_hexdigit (show_hex n) = true) as ->.
  { apply forallb_forall. intros c Hc%list_elem_of_In. by apply (proj1 (Forall_forall _ _) Hall). }
  assert ((16 <? len (show_hex n)) = false) as -> by (by apply N.ltb_ge). unfold parse_u64_hex. rewrite Hv.
  assert ((n <=? USIZE_MAX) = true) as -> by (by apply N.leb_le). by destruct (show_hex n).
Qed.

(** A line as it is sent is read. *)
Lemma first_at_line (l : bytes) rest : Forall (λ c, c ≠ LF) l → first_at (N.eqb LF) (l ++ CRLF ++ rest) = Some (S (length l)).
Proof.
  intros Hl. rewrite first_at_app. assert (first_at (N.eqb LF) l = None) as ->; [|cbn; f_equal; lia].
  induction Hl as [|c l Hc _ IH]; [done|]. cbn [first_at]. apply not_eq_sym, N.eqb_neq in Hc. by rewrite Hc, IH.
Qed.

Lemma line_sent {R} limit (x : R) (l : bytes) rest : len l <= limit → Forall (λ c, control c = false) l →
  a_line limit x (l ++ CRLF ++ rest) = Got l rest x.
Proof.
  intros Hl Hc. unfold a_line. rewrite first_at_line.
  2: { eapply Forall_impl; [exact Hc|]. intros c Hcc ->. done. }
  assert ((limit + 1 <? N.of_nat (S (length l))) = false) as -> by (apply N.ltb_ge; unfold len in Hl; lia).
  assert (take (S (length l)) (l ++ CRLF ++ rest) = l ++ [CR]) as ->.
  { rewrite (app_assoc l CRLF rest), take_app_le by (rewrite length_app; cbn; lia). rewrite take_app_ge by lia.
    by replace (S (length l) - length l)%nat with 1%nat by lia. }
  rewrite last_snoc, N.eqb_refl. cbn [negb orb]. rewrite Nat.sub_succ, Nat.sub_0_r, take_app_length.
  assert (existsb control l = false) as ->.
  { apply not_true_is_false. intros (c & Hin%list_elem_of_In & Ht)%existsb_exists. rewrite Forall_forall in Hc. rewrite (Hc c Hin) in Ht. done. }
  f_equal. rewrite (app_assoc l CRLF rest), drop_app_ge by (rewrite length_app; cbn; lia).
  rewrite length_app. cbn. by replace (S (S (length l)) - (length l + 2))%nat with 0%nat by lia.
Qed.

Lemma line_empty {R} limit (x : R) rest : a_line limit x (CRLF ++ rest) = Got [] rest x.
Proof. apply (line_sent limit x []); [unfold len; cbn; lia|done]. Qed.

Section chunks_sent.
Context {R : Type} (room : R → N → bool * R) (roomy : ∀ x n, (room x n).1 = true).

Lemma chunks_sent cs fuel body_ fr (x : R) rest :
  Forall (λ c, c ≠ []) cs → len body_ + len (concat cs) <= BODY_MAX → fr + framing_bytes cs <= CHUNK_FRAMING_MAX → (length cs < fuel)%nat →
  ∃ y, chunks room fuel body_ fr x (encode_chunks cs ++ rest) = Got (body_ ++ concat cs) (CRLF ++ rest) y.
Proof.
  revert fuel body_ fr x. induction cs as [|c cs IH]; intros [|fuel] body_ fr x Hne Hlen Hfr Hf; [cbn in Hf; lia| |cbn in Hf; lia|].
  - exists x. unfold encode_chunks. cbn [fmap list_fmap concat app]. rewrite <-!app_assoc. cbn [chunks]. unfold andthen.
    rewrite (line_sent CHUNK_LINE_MAX x (str "0")) by (done || by repeat constructor).
    assert ((CHUNK_FRAMING_MAX <? fr + (len (str "0") + 4)) = false) as ->
      by (apply N.ltb_ge; change (len (str "0")) with 1; change (framing_bytes []) with 5 in Hfr; lia).
    change (chunk_size (str "0")) with (Some 0). cbn. by rewrite app_nil_r.
  - apply Forall_cons in Hne as [Hc Hne]. cbn [concat] in Hlen. rewrite len_app in Hlen.
    assert (len c <= USIZE_MAX) as Hu by (unfold USIZE_MAX, BODY_MAX in *; lia). destruct (show_hex_spec _ Hu) as (_ & Hl & _ & Hall).
    assert (0 < len c) as Hpos by (unfold len; destruct c; [done|cbn; lia]).
    unfold encode_chunks. cbn [fmap list_fmap concat]. unfold encode_chunk at 1. rewrite <-!app_assoc. cbn [chunks]. unfold andthen.
    rewrite line_sent. 2: { unfold CHUNK_LINE_MAX. lia. } 2: { eapply Forall_impl; [exact Hall|]. by intros ? [_ ?]. }
    cbn [framing_bytes foldr] in Hfr. fold (framing_bytes cs) in Hfr.
    assert ((CHUNK_FRAMING_MAX <? fr + (len (show_hex (len c)) + 4)) = false) as -> by (apply N.ltb_ge; lia).
    rewrite chunk_size_hex by done. assert ((len c =? 0) = false) as -> by (apply N.eqb_neq; lia).
    assert ((BODY_MAX <? len body_ + len c) = false) as -> by (apply N.ltb_ge; lia).
    unfold has_room. pose proof (roomy x (len c)) as Hr. destruct (room x (len c)) as [b y]. cbn in Hr. subst b.
    unfold so_many. assert (len (c ++ CRLF ++ concat (encode_chunk <$> cs) ++ str "0" ++ CRLF ++ CRLF ++ rest) <? len c = false) as ->
      by (apply N.ltb_ge; rewrite len_app; lia).
    unfold len at 1 2. rewrite Nat2N.id, take_app_length, drop_app_length, line_empty.
    destruct (IH fuel (body_ ++ c) (fr + (len (show_hex (len c)) + 4)) y Hne) as [z Hz].
    + rewrite len_app. lia.
    + lia.
    + cbn in Hf. lia.
    + exists z. unfold encode_chunks in Hz. rewrite <-!app_assoc in Hz. by rewrite Hz.
Qed.

Lemma in_chunks_sent cs (x : R) rest :
  Forall (λ c, c ≠ []) cs → len (concat cs) <= BODY_MAX → framing_bytes cs <= CHUNK_FRAMING_MAX →
  ∃ y, in_chunks room x (encode_chunks cs ++ rest) = Got (concat cs) rest y.
Proof.
  intros Hne Hlen Hfr. unfold in_chunks, andthen.
  assert (length cs < S (length (encode_chunks cs ++ rest)))%nat as Hl.
  { rewrite length_app. unfold encode_chunks. rewrite length_app. assert (length cs <= length (concat (encode_chunk <$> cs)))%nat; [|lia].
    clear. induction cs as [|c cs IH]; [done|]. rewrite fmap_cons. cbn [concat length]. rewrite length_app.
    unfold encode_chunk at 1. rewrite !length_app. change (length CRLF) with 2%nat. lia. }
  destruct (chunks_sent cs (S (length (encode_chunks cs ++ rest))) [] 0 x rest Hne) as [y ->]; [unfold len at 1; cbn; lia|lia|exact Hl|].
  exists y. cbn [trailers]. unfold andthen. by rewrite line_empty.
Qed.
End chunks_sent.

(** ** What a request says of its length *)

(** The length of the body is given once: by nothing, by one number, or by
    the coding [chunked]. *)
Definition length_is_certain (q : Request) : Prop :=
  let all_of wanted := trim_by is_blank <$> values_of (str wanted) (headers q) in
  match all_of "content-length"%string, all_of "transfer-encoding"%string with
  | [], [] => body q = []
  | [n], [] => n ≠ [] ∧ forallb is_ascii_digit n = true ∧ decimal n = len (body q)
  | [], [coding] => eq_ignore_ascii_case coding (str "chunked") = true ∧ http10 q = false
  | _, _ => False
  end.

Section certain.
Context {R : Type} (parse : N → bytes → Parsed) (room : R → N → bool * R) (laws : ParseLaws parse).

Lemma chunks_bound fuel body_ fr (x : R) bs b rest y : len body_ <= BODY_MAX → chunks room fuel body_ fr x bs = Got b rest y → len b <= BODY_MAX.
Proof.
  revert body_ fr x bs. induction fuel as [|fuel IH]; intros body_ fr x bs Hb; [done|]. cbn [chunks]. unfold andthen, got, fails.
  repeat (case_match; try done).
  - by intros [= <- _ _].
  - apply IH. rewrite len_app. repeat match goal with H : so_many _ _ _ = _ |- _ => apply so_many_rest in H as [_ ->] end.
    match goal with H : (BODY_MAX <? _) = false |- _ => apply N.ltb_ge in H end. lia.
Qed.

Lemma a_head_headers (x : R) bs h rest y : a_head parse x bs = Got h rest y → len (h_headers h) <= HEADERS_MAX.
Proof.
  assert (∀ bs, head_behind parse x bs = Got h rest y → len (h_headers h) <= HEADERS_MAX) as Hb.
  { intros b. unfold head_behind. repeat (case_match; try done). intros [= <- _ _]. cbn. unfold len. rewrite length_fmap.
    match goal with H : parse _ _ = _ |- _ => by apply (complete_headers _ laws) in H end. }
  unfold a_head. repeat (case_match; try done); apply Hb.
Qed.

Lemma body_certain f (x : R) bs b rest y : a_body room f x bs = Got b rest y →
  match f with FNone => b = [] | FLength n => len b = n | FChunked => len b <= BODY_MAX end.
Proof.
  destruct f as [|n|]; cbn.
  - by intros [= <- _ _].
  - destruct (N.eqb_spec n 0) as [->|]; [by intros [= <- _ _]|]. unfold andthen. destruct (has_room _ _ _ _); [|done..].
    by intros [_ ?]%so_many_rest.
  - unfold in_chunks, andthen. destruct (chunks _ _ _ _ _ _) as [b' r' y'| |] eqn:E; [|done..]. destruct (trailers _ _ _ _); [|done..].
    intros [= <- _ _]. apply (chunks_bound _ _ _ _ _ _ _ _) in E; [done|]. unfold len, BODY_MAX. cbn. lia.
Qed.

Lemma framing_certain h f b : framing (E:=unit) h = Done f →
  match f with FNone => b = [] | FLength n => len b = n | FChunked => len b <= BODY_MAX end →
  length_is_certain (request_of h b) ∧ len b <= BODY_MAX.
Proof.
  unfold framing, length_is_certain. cbn [body headers http10 request_of]. cbv zeta.
  destruct (trim_by is_blank <$> values_of (str "content-length") (h_headers h)) as [|n []];
    destruct (trim_by is_blank <$> values_of (str "transfer-encoding") (h_headers h)) as [|c []]; try done.
  - intros [= <-] ->. by split.
  - destruct (eq_ignore_ascii_case _ _) eqn:Ec; [|done]. destruct (N.leb_spec 1 (minor h)); [|done]. intros [= <-] Hb.
    split_and!; [done|apply N.eqb_neq; lia|done].
  - destruct n as [|d n]; [done|]. destruct (forallb is_ascii_digit (d :: n)) eqn:Ed; [|done]. cbn [negb]. unfold parse_usize.
    destruct (_ <=? USIZE_MAX); [|by case_match]. destruct (N.leb_spec (decimal (d :: n)) BODY_MAX); [|done]. intros [= <-] Hb.
    split_and!; [done|done|done|lia].
Qed.

Lemma request_certain (x : R) bs q rest y : a_request parse room x bs = Got q rest y →
  length_is_certain q ∧ len (body q) <= BODY_MAX ∧ len (headers q) <= HEADERS_MAX.
Proof.
  unfold a_request, andthen at 1. destruct (a_head parse x bs) as [h bs1 x1| |] eqn:Eh; [|done..]. apply a_head_headers in Eh.
  unfold andthen at 1. destruct (of_res _ x1 bs1) as [f bs2 x2| |] eqn:Ef; [|done..]. cbv zeta. case_match; [done|].
  unfold andthen at 1. destruct (of_res _ x2 bs2) as [w bs3 x3| |]; [|done..]. unfold andthen. destruct (a_body room f x3 bs3) as [b bs4 x4| |] eqn:Eb; [|done..].
  intros [= <- _ _]. apply body_certain in Eb. unfold of_res in Ef. destruct (framing h) eqn:Eff; try done. injection Ef as -> _ _.
  destruct (framing_certain h f b Eff Eb). done.
Qed.
End certain.

(** ** Responses *)

(** The lines of the head of a response. *)
Definition head_lines (status_ : N) (hs : list (bytes * bytes)) (body_ : bytes) (how : Sending) : list bytes :=
  [str "HTTP/1.1 " ++ show_decimal status_ ++ [SP] ++ reason status_] ++
  ((λ h : bytes * bytes, h.1 ++ str ": " ++ h.2) <$> filter (λ h, sent h = true) hs) ++
  (match date how with [] => [] | _ => [str "Date: " ++ date how] end) ++
  (if has_body status_ then [str "Content-Length: " ++ show_decimal (len body_)] else []) ++
  (if how_close how then [str "Connection: close"] else if keep_alive how then [str "Connection: keep-alive"] else []).

Definition no_line_end (l : bytes) : bool := forallb (λ c, negb ((c =? CR) || (c =? LF))) l.

Lemma header_lines (hs : list (bytes * bytes)) :
  concat ((λ h : bytes * bytes, if sent h then h.1 ++ str ": " ++ h.2 ++ CRLF else []) <$> hs) =
  concat ((λ l, l ++ CRLF) <$> ((λ h : bytes * bytes, h.1 ++ str ": " ++ h.2) <$> filter (λ h, sent h = true) hs)).
Proof.
  induction hs as [|h hs IH]; [done|]. rewrite filter_cons, fmap_cons. cbn [concat]. rewrite IH. destruct (sent h).
  - rewrite decide_True by done. rewrite !fmap_cons. cbn [concat]. by rewrite <-!app_assoc.
  - by rewrite decide_False.
Qed.

Lemma response_lines status_ hs body_ how : response status_ hs body_ how =
  concat ((λ l, l ++ CRLF) <$> head_lines status_ hs body_ how) ++ CRLF ++ (if negb (has_body status_) || head_only how then [] else body_).
Proof.
  unfold response, head_lines. rewrite header_lines, !fmap_app, !concat_app, <-!app_assoc. cbn [fmap list_fmap concat]. rewrite <-!app_assoc. do 4 f_equal.
  cbn [app]. do 2 f_equal.
  f_equal; [|f_equal; [|f_equal]].
  - destruct (date how); [done|]. rewrite fmap_cons. cbn [concat fmap list_fmap]. by rewrite app_nil_r, <-app_assoc.
  - destruct (has_body status_); [|done]. rewrite fmap_cons. cbn [concat negb fmap list_fmap]. by rewrite app_nil_r, <-app_assoc.
  - destruct (how_close how), (keep_alive how); done.
Qed.

(** Where the head of lines ends. *)
Lemma head_end_cons c X : c ≠ LF → head_end (c :: X) = S <$> head_end X.
Proof. intros Hc%N.eqb_neq. destruct X as [|d X]; [done|]. rewrite head_end_step. by rewrite Hc. Qed.
Lemma head_end_line l X : no_line_end l = true → head_end (l ++ CRLF ++ X) = (λ e, length l + 1 + e)%nat <$> head_end (LF :: X).
Proof.
  intros Hl. unfold no_line_end in Hl. rewrite forallb_forall in Hl. induction l as [|c l IH].
  - cbn [app CRLF length]. rewrite head_end_cons by done. by destruct (head_end (LF :: X)).
  - assert (c ≠ LF) as Hc. { intros ->. specialize (Hl LF (or_introl eq_refl)). done. }
    cbn [app]. rewrite head_end_cons by done. rewrite IH by (intros; apply Hl; by right). by destruct (head_end (LF :: X)).
Qed.

Lemma head_end_lines ls b : ls ≠ [] → Forall (λ l, no_line_end l = true ∧ l ≠ []) ls →
  head_end (concat ((λ l, l ++ CRLF) <$> ls) ++ CRLF ++ b) = Some (length (concat ((λ l, l ++ CRLF) <$> ls) ++ CRLF)).
Proof.
  intros Hne Hls. induction Hls as [|l ls [Hl Hn] Hls IH]; [done|]. rewrite fmap_cons. cbn [concat].
  replace (((l ++ CRLF) ++ concat ((λ l, l ++ CRLF) <$> ls)) ++ CRLF ++ b) with (l ++ CRLF ++ (concat ((λ l, l ++ CRLF) <$> ls) ++ CRLF ++ b))
    by (by rewrite <-!app_assoc).
  rewrite head_end_line by done. destruct Hls as [|l2 ls [Hl2 Hn2] Hls].
  - cbn. f_equal. rewrite !length_app. cbn. lia.
  - specialize (IH ltac:(done)). rewrite fmap_cons in *. cbn [concat] in *. destruct l2 as [|c l2]; [done|].
    rewrite <-!app_assoc in IH |- *. cbn [app] in IH |- *. rewrite head_end_step.
    unfold no_line_end in Hl2. cbn in Hl2. apply andb_true_iff in Hl2 as [Hc _]. apply negb_true_iff, orb_false_iff in Hc as [Hcr Hlf].
    change ((LF =? LF) && (c =? LF)) with (c =? LF). change ((LF =? LF) && (c =? CR)) with (c =? CR). rewrite Hlf, Hcr. cbn [andb].
    rewrite IH. cbn. f_equal. repeat (rewrite ?length_app; cbn). lia.
Qed.

Lemma no_line_end_app a b : no_line_end (a ++ b) = no_line_end a && no_line_end b.
Proof. apply forallb_app. Qed.
Lemma forallb_impl {A} (p q : A → bool) l : (∀ x, p x = true → q x = true) → forallb p l = true → forallb q l = true.
Proof. rewrite !forallb_forall. auto. Qed.

Lemma plain_no_end l : plain l = true → no_line_end l = true.
Proof.
  apply forallb_impl. intros c Hc. apply negb_true_iff, orb_false_iff. rewrite !N.eqb_neq. unfold CR, LF, TAB in *.
  apply orb_true_iff in Hc as [Hc%N.eqb_eq|[Hc%N.leb_le _]%andb_true_iff]; lia.
Qed.
Lemma token_no_end l : forallb is_token l = true → no_line_end l = true.
Proof. apply forallb_impl. intros c Hc. destruct (N.eqb_spec c CR) as [->|]; [done|]. by destruct (N.eqb_spec c LF) as [->|]. Qed.
Lemma show_decimal_no_end n : no_line_end (show_decimal n) = true ∧ show_decimal n ≠ [].
Proof.
  unfold show_decimal. set (f := S _). assert (0 < f)%nat as Hf by lia. clearbody f.
  assert (∀ f n ds, no_line_end ds = true → no_line_end (decimal_loop f n ds) = true ∧ (ds ≠ [] ∨ (0 < f)%nat → decimal_loop f n ds ≠ [])) as H.
  2: { destruct (H f n []) as [? H']; [done|]. split; [done|]. apply H'. by right. }
  clear. induction f as [|f IH]; intros n ds Hd; [split; [done|]; intros [?|?]; [done|lia]|]. cbn [decimal_loop].
  assert (no_line_end ((48 + n mod 10) :: ds) = true) as Hd'.
  { set (d := 48 + n mod 10). assert (48 <= d) by apply N.le_add_r. clearbody d. unfold no_line_end in *. cbn [forallb]. rewrite Hd, andb_true_r. apply negb_true_iff, orb_false_iff. rewrite !N.eqb_neq. unfold CR, LF. lia. }
  destruct (_ =? 0); [done|]. destruct (IH (n / 10) _ Hd') as [? H]. split; [done|]. intros _. apply H. by left.
Qed.
Lemma reason_no_end n : no_line_end (reason n) = true.
Proof.
  unfold reason. destruct (find _ reasons) as [[a s]|] eqn:E.
  - apply find_some in E as [Hin _]. assert (Forall (λ p : N * string, no_line_end (str p.2) = true) reasons) as Ha by (by repeat constructor).
    rewrite Forall_forall in Ha. by apply (Ha (a, s)), list_elem_of_In.
  - by repeat case_match.
Qed.

Lemma head_lines_plain status_ hs body_ how : plain (date how) = true →
  Forall (λ l, no_line_end l = true ∧ l ≠ []) (head_lines status_ hs body_ how).
Proof.
  intros Hd. unfold head_lines. rewrite !Forall_app. split_and!.
  - apply Forall_singleton. split; [|done]. rewrite !no_line_end_app, reason_no_end. by destruct (show_decimal_no_end status_) as [-> _].
  - apply Forall_fmap, Forall_forall. intros h [Hs _]%list_elem_of_filter. unfold sent in Hs. apply andb_true_iff in Hs as [[Ht Hp]%andb_true_iff _].
    change (no_line_end (h.1 ++ str ": " ++ h.2) = true ∧ h.1 ++ str ": " ++ h.2 ≠ []).
    rewrite !no_line_end_app, (plain_no_end h.2) by done. destruct h.1 as [|c n] eqn:E; [done|].
    rewrite (token_no_end (c :: n)) by exact Ht. by split.
  - destruct (date how) as [|c d]; [done|]. apply Forall_singleton. split; [|done]. rewrite no_line_end_app, (plain_no_end (c :: d)) by exact Hd. done.
  - destruct (has_body status_); [|done]. apply Forall_singleton. split; [|done]. rewrite no_line_end_app. by destruct (show_decimal_no_end (len body_)) as [-> _].
  - destruct (how_close how), (keep_alive how); by repeat constructor.
Qed.

(** ** A closure that fails *)
Lemma before_body_fails {E R} (parse : N → bytes → Parsed) (room : R → N → bool * R) (b : bool → option E) (r : Reader E R) :
  next parse room b r = next parse room (λ _, None) r ∨ ∃ e r', next parse room b r = (Done (Broken e), r').
Proof.
  assert (∀ w f r, read_body room b w f r = read_body room (λ _, None) w f r ∨ ∃ e r', read_body room b w f r = (Stop (Broken e), r')) as Hb.
  { clear r. intros w f r. assert (∀ A (m : Act E R A) r, and_then (announce b w) (λ _, m) r = and_then (announce (λ _, None) w) (λ _, m) r ∨
      ∃ e r', and_then (announce b w) (λ _, m) r = (Stop (Broken e), r')) as Ha.
    { intros A m r1. unfold and_then, announce. destruct (b _); [right; by do 2 eexists|by left]. }
    destruct f as [|n|]; cbn; [by left| |apply Ha]. destruct (n =? 0); [by left|]. unfold and_then at 1 3 5. destruct (ask_room room n r) as [[[]| | |] r1]; try (by left).
    apply Ha. }
  unfold next. set (x1 := request parse room b r). set (x2 := request parse room (λ _, None) r).
  assert (x1 = x2 ∨ ∃ e r', x1 = (Stop (Broken e), r')) as [->|(e & r' & ->)]; [|by left|right; by do 2 eexists].
  unfold x1, x2, request. unfold and_then at 1 5 9. destruct (head parse (store_begun r)) as [[h| | |] r1]; try (by left).
  unfold and_then at 1 4 7. destruct (lift (framing h) r1) as [[f| | |] r2]; try (by left). cbv zeta. case_match; [by left|].
  unfold and_then at 1 3 5. destruct (lift (expects_continue h) r2) as [[w| | |] r3]; try (by left).
  unfold and_then. destruct (Hb w f r3) as [->|(e & r' & ->)]; [by left|right; by do 2 eexists].
Qed.

(** * What the reader and the writer of HTTP promise

    Whatever the pieces the bytes arrive in, a connection says the same; the
    length of a request is certain; chunks are read back; what was read
    already needs no read; a response is not split by its headers. *)

Section claims.
Context {E R : Type} (parse : N → bytes → Parsed) (room : R → N → bool * R) (laws : ParseLaws parse).

(** What two readers give that have the same bytes before them. *)
Definition gives_alike (x1 x2 : Res E (Next E) * Reader E R) : Prop :=
  match x1, x2 with
  | (Done (NextRequest q1), r1), (Done (NextRequest q2), r2) =>
      q1 = q2 ∧ to_come r1 = to_come r2 ∧ held r1 = held r2 ∧ ending (stream r1) = ending (stream r2)
  | (Done (NextRefused _), _), (Done (NextRefused _), _) => True
  | (Done End, _), (Done End, _) => True
  | (Done (Broken e1), _), (Done (Broken e2), _) => e1 = e2
  | _, _ => False
  end.

(** C11. However the bytes of a connection arrive (in what pieces, which of them
    were read before), the reader gives the same request and has the same
    bytes before it afterwards, or refuses it, or comes to the end; it never
    panics and always ends. *)
Theorem requests_do_not_depend_on_reads (b1 b2 : bool → option E) (r1 r2 : Reader E R) :
  (∀ w, b1 w = None) → (∀ w, b2 w = None) →
  to_come r1 = to_come r2 → held r1 = held r2 → ending (stream r1) = ending (stream r2) →
  gives_alike (next parse room b1 r1) (next parse room b2 r2).
Proof.
  intros H1 H2 Ht Hh He. pose proof (next_answers parse room laws b1 H1 r1) as A1. pose proof (next_answers parse room laws b2 H2 r2) as A2.
  rewrite <-Ht, <-Hh in A2. destruct (a_request parse room (held r1) (to_come r1)) as [q rest y| |]; cbn in A1, A2.
  - destruct A1 as (r1' & -> & T1 & S1 & E1 & _), A2 as (r2' & -> & T2 & S2 & E2 & _). cbn. split_and!; congruence.
  - by destruct A1 as (y1 & r1' & ->), A2 as (y2 & r2' & ->).
  - destruct A1 as (r1' & ->), A2 as (r2' & ->). rewrite He. cbn. destruct (ending (stream r2)) eqn:En; try done.
    all: exfalso; revert En; clear; induction (stream r2) as [|[[|]| |] s IH]; cbn; congruence || auto.
Qed.

(** C35. A request that is given says the length of its body once and for all,
    and the body has that length: no other reader can take what follows for
    a part of it, or a part of it for what follows; body and headers are
    within their limits. *)
Theorem request_length_is_certain (b : bool → option E) (r r' : Reader E R) (q : Request) :
  (∀ w, b w = None) → next parse room b r = (Done (NextRequest q), r') →
  length_is_certain q ∧ len (body q) <= BODY_MAX ∧ len (headers q) <= HEADERS_MAX.
Proof.
  intros Hb Hn. pose proof (next_answers parse room laws b Hb r) as A. rewrite Hn in A.
  destruct (a_request parse room (held r) (to_come r)) as [q' rest y| |] eqn:Eq; cbn in A.
  - destruct A as (r1 & [= <- <-] & _). by eapply request_certain.
  - by destruct A as (y & r1 & [=]).
  - destruct A as (r1 & [= He _]). exfalso. revert He. clear. induction (stream r) as [|[[|]| |] s IH]; cbn; congruence || auto.
Qed.

(** A body that is sent in chunks is read back, whatever bytes are in it,
    and what is behind it is left. *)
Theorem chunks_are_read_back (r : Reader E R) (cs : list bytes) (rest : bytes) :
  (∀ x n, (room x n).1 = true) → Forall (λ c, c ≠ []) cs → len (concat cs) <= BODY_MAX → framing_bytes cs <= CHUNK_FRAMING_MAX →
  to_come r = encode_chunks cs ++ rest →
  ∃ r', chunked room r = (Done (concat cs), r') ∧ to_come r' = rest.
Proof.
  intros Hroom Hne Hlen Hfr Ht. pose proof (chunked_answers room r) as A. rewrite Ht in A.
  destruct (in_chunks_sent room Hroom cs (held r) rest Hne Hlen Hfr) as [y Hy]. rewrite Hy in A. cbn in A.
  destruct A as (r' & -> & Hr & _). by exists r'.
Qed.
End claims.

(** What is taken from the bytes that were read already is what a read of
    the connection gives; nothing is changed when nothing is taken. *)
Theorem buffered_is_next {E} (parse : N → bytes → Parsed) (laws : ParseLaws parse) (waiting : E) (r : Reader E unit) :
  match buffered parse waiting r with
  | (Done (Some (NextRequest q)), r1) => ∃ r2, next parse always_room (λ _, None) r = (Done (NextRequest q), r2) ∧ to_come r1 = to_come r2
  | (Done (Some (NextRefused _)), _) => ∃ y r2, next parse always_room (λ _, None) r = (Done (NextRefused y), r2)
  | (Done None, r1) => r1 = r
  | _ => False
  end.
Proof.
  unfold buffered. destruct (_ || _); [done|]. set (ahead := mkReader [] (buf r) false tt).
  pose proof (next_answers parse always_room laws (λ _, None) ltac:(done) ahead) as A.
  pose proof (next_answers parse always_room laws (λ _, None) ltac:(done) r) as B.
  pose proof (stable_request parse always_room laws tt (buf r) (data (stream r))) as S.
  assert (to_come ahead = buf r) as Ha by apply app_nil_r. rewrite Ha in A. change (buf r ++ data (stream r)) with (to_come r) in S.
  change (held ahead) with tt in A. destruct (held r).
  destruct (before_body_fails parse always_room (never_waits waiting) ahead) as [->|(e & r' & ->)]; [|done].
  destruct (a_request parse always_room tt (buf r)) as [q rest y| |]; cbn in A, S.
  - rewrite S in B. destruct A as (r1 & -> & Hr & Hh & He), B as (r2 & -> & Hr2 & _). exists r2. split; [done|]. rewrite Hr2.
    unfold to_come in Hr |- *. cbn. f_equal.
    destruct He as [_ Hs]. rewrite (Hs eq_refl) in Hr. by rewrite app_nil_r in Hr.
  - rewrite S in B. destruct A as (y1 & r1 & ->), B as (y2 & r2 & ->). by do 2 eexists.
  - by destruct A as (r1 & ->).
Qed.

(** C36. A response is its lines and its body: the first empty line of it is the
    end of its head, whatever the handler put into the headers, where the
    date the server writes has no line break. *)
Theorem responses_are_not_split (status_ : N) (hs : list (bytes * bytes)) (body_ : bytes) (how : Sending) :
  plain (date how) = true →
  let lines := head_lines status_ hs body_ how in
  ∃ e, head_end (response status_ hs body_ how) = Some e ∧
    take e (response status_ hs body_ how) = concat ((λ l, l ++ CRLF) <$> lines) ++ CRLF ∧
    drop e (response status_ hs body_ how) = (if negb (has_body status_) || head_only how then [] else body_) ∧
    Forall (λ l, no_line_end l = true ∧ l ≠ []) lines.
Proof.
  intros Hd lines. pose proof (head_lines_plain status_ hs body_ how Hd) as Hl. rewrite response_lines. fold lines in Hl |- *.
  set (b := if negb (has_body status_) || head_only how then [] else body_). eexists. split; [apply head_end_lines; [done|exact Hl]|].
  rewrite app_assoc. rewrite take_app_length, drop_app_length. done.
Qed.

(** *** The claims at work *)
Definition whole : Reader unit unit := with_room [Data a_post] tt.
Definition in_pieces : Reader unit unit := with_room (Data (take 5 a_post) :: Interrupted :: ((λ b, Data [b]) <$> drop 5 a_post)) tt.
Definition the_post : Request :=
  mkRequest (str "POST") (str "/a") [(str "Host", str "h"); (str "Transfer-Encoding", str "chunked")] (str "abcde") false false.

Lemma requests_do_not_depend_on_reads_witness :
  to_come whole = to_come in_pieces ∧
  gives_alike (next simple_parse always_room (λ _, None) whole) (next simple_parse always_room (λ _, None) in_pieces).
Proof.
  split; [by vm_compute|]. apply (requests_do_not_depend_on_reads simple_parse always_room simple_parse_laws); try done; by vm_compute.
Defined.

Lemma request_length_is_certain_witness :
  ∃ r', next simple_parse always_room (λ _, None) whole = (Done (NextRequest the_post), r') ∧
    length_is_certain the_post ∧ len (body the_post) <= BODY_MAX ∧ len (headers the_post) <= HEADERS_MAX.
Proof.
  eexists.
  assert (next simple_parse always_room (λ _, None) whole = (Done (NextRequest the_post), (next simple_parse always_room (λ _, None) whole).2)) as H by (by vm_compute).
  split; [exact H|]. exact (request_length_is_certain simple_parse always_room simple_parse_laws (λ _, None) whole _ the_post (λ _, eq_refl) H).
Defined.

Definition sent_chunks : list bytes := [str "abc"; [13; 10; 48; 13; 10]; replicate 20 255].

Lemma chunks_are_read_back_witness :
  ∃ r', chunked always_room (mkReader [Data (encode_chunks sent_chunks ++ str "GET")] [] false tt : Reader unit unit) =
    (Done (concat sent_chunks), r') ∧ to_come r' = str "GET".
Proof.
  apply (chunks_are_read_back always_room) with (cs := sent_chunks); [done|by repeat constructor|by vm_compute|by vm_compute|by vm_compute].
Defined.

Lemma buffered_is_next_witness :
  ∃ r1 r2, buffered simple_parse tt (feed whole a_post) = (Done (Some (NextRequest the_post)), r1) ∧
    next simple_parse always_room (λ _, None) (feed whole a_post) = (Done (NextRequest the_post), r2) ∧ to_come r1 = to_come r2.
Proof.
  pose proof (buffered_is_next simple_parse simple_parse_laws tt (feed whole a_post)) as H.
  assert (buffered simple_parse tt (feed whole a_post) = (Done (Some (NextRequest the_post)), (buffered simple_parse tt (feed whole a_post)).2)) as Hb by (by vm_compute).
  rewrite Hb in H. destruct H as (r2 & Hn & Ht). do 2 eexists. split; [exact Hb|]. split; [exact Hn|exact Ht].
Defined.

Definition an_answer : bytes :=
  response 200 [(str "X", str "a" ++ CRLF ++ str "Y: b"); (str "Content-Length", str "7"); (str "A", str "b")] (str "hi") (mkSending (str "now") true false false).

Lemma responses_are_not_split_witness :
  an_answer = crlf_lines ["HTTP/1.1 200 OK"; "A: b"; "Date: now"; "Content-Length: 2"; "Connection: close"; ""]%string ++ str "hi" ∧
  ∃ e, head_end an_answer = Some e ∧ drop e an_answer = str "hi".
Proof.
  split; [by vm_compute|].
  destruct (responses_are_not_split 200 [(str "X", str "a" ++ CRLF ++ str "Y: b"); (str "Content-Length", str "7"); (str "A", str "b")]
    (str "hi") (mkSending (str "now") true false false) eq_refl) as (e & He & _ & Hd & _). by exists e.
Defined.
