(* ===== verification/Tree.v ===== *)
(** * The syntax tree (src/ast.rs)

    Expressions, patterns, statements and the declarations that hold them,
    with what a name was resolved to (src/defs.rs) and the mark of a pattern
    that always matches.  Left out are what the
    modelled walks do not read: spans, types that are written or inferred,
    evidence and selections, and what the declarations other than functions
    and [let]s hold.  A symbol and the id of a definition or of a module are
    their numbers; a float literal is its bits. *)

From S2P Require Import Prelude.

Open Scope nat_scope.

Notation Symbol := N (only parsing).
Notation DefId := N (only parsing).

Inductive Res := Local | Def (id : DefId) | Module_ (id : N) | Error.
#[export] Instance res_eq_dec : EqDecision Res.
Proof. solve_decision. Defined.

Inductive BinOp := Add | Sub | Mul | Div | Mod | Eq_ | Neq | Lt_ | Gt_ | Leq | Geq | And_ | Or_.
Inductive UnaryOp := Neg | Not_.

Inductive Pattern := mkPattern (res : option Res) (irrefutable : bool) (kind : PatternKind)
with PatternKind :=
  | PWildcard
  | PIdent (name : Symbol)
  | PInt (n : Z)
  | PFloat (bits : N)
  | PBool (b : bool)
  | PStringLit (s : string)
  | PTuple (pats : list Pattern)
  | PConstructor (qualifier : list Symbol) (name : Symbol) (args : list Pattern)
  | PRecord (module name : option Symbol) (fields : list (Symbol * option Pattern)) (has_rest : bool)
  | PAnonRecord (fields : list (Symbol * option Pattern)) (rest : option Symbol)
  | PList (pats : list Pattern) (rest : option Pattern)
  | POr (pats : list Pattern)
  | PRange (lo hi : Z)
  | PFloatRange (lo hi : N)
  | PMap (entries : list (string * Pattern))
  | PPin (name : Symbol).

Inductive Expr := mkExpr (res : option Res) (kind : ExprKind)
with ExprKind :=
  | EInt (n : Z)
  | EFloat (bits : N)
  | EBool (b : bool)
  | EStringLit (s : string)
  | EStringInterp (parts : list StringPart)
  | EList (elems : list ListElem)
  | EMap (entries : list (Expr * Expr))
  | ESetLit (elems : list Expr)
  | ETuple (elems : list Expr)
  | EIdent (name : Symbol)
  | EFieldAccess (e : Expr) (field : Symbol)
  | EBinary (l : Expr) (op : BinOp) (r : Expr)
  | EUnary (op : UnaryOp) (e : Expr)
  | EPipe (l r : Expr)
  | ERange (l r : Expr)
  | EQuestionMark (e : Expr)
  | EAscription (e : Expr)
  | ECall (callee : Expr) (args : list Expr)
  | ELambda (params : list Pattern) (body : Expr)
  | ERecordCreate (module : option Symbol) (name : Symbol) (fields : list (Symbol * Expr))
  | ERecordUpdate (base : Expr) (fields : list (Symbol * Expr))
  | EAnonRecord (spread : option Expr) (fields : list (Symbol * Expr))
  | EMatch (scrutinee : option Expr) (arms : list MatchArm)
  | EReturn (e : option Expr)
  | EBlock (stmts : list Stmt)
  | ELoop (bindings : list (Symbol * Expr)) (body : Expr)
  | ERecur (args : list Expr)
  | EUnit
with StringPart := PartLit (s : string) | PartExpr (e : Expr)
with ListElem := Single (e : Expr) | Spread (e : Expr)
with MatchArm := mkArm (pattern : Pattern) (guard : option Expr) (body : Expr)
with Stmt :=
  | SLet (pattern : Pattern) (value : Expr)
  | SWhen (pattern : Pattern) (e else_body : Expr)
  | SWhenBool (condition else_body : Expr)
  | SExpr (e : Expr).

Inductive Decl :=
  | DFn (name : Symbol) (params : list Pattern) (body : Expr)
  | DLet (pattern : Pattern) (value : Expr)
  | DOther.

(** [collect_pattern_vars] (src/typechecker/infer/pattern.rs). *)
Fixpoint collect_pattern_vars (p : Pattern) : list Symbol :=
  let field (f : Symbol * option Pattern) := match f.2 with Some p => collect_pattern_vars p | None => [f.1] end in
  match p with
  | mkPattern _ _ kind =>
      match kind with
      | PIdent name => [name]
      | PTuple pats | PConstructor _ _ pats => concat (collect_pattern_vars <$> pats)
      | PList pats rest => concat (collect_pattern_vars <$> pats) ++ match rest with Some p => collect_pattern_vars p | None => [] end
      | PRecord _ _ fields _ => concat (field <$> fields)
      | PAnonRecord fields rest => concat (field <$> fields) ++ match rest with Some r => [r] | None => [] end
      | POr pats => match pats with p :: _ => collect_pattern_vars p | [] => [] end
      | PMap entries => concat ((λ e, collect_pattern_vars e.2) <$> entries)
      | PWildcard | PInt _ | PFloat _ | PBool _ | PStringLit _ | PRange _ _ | PFloatRange _ _ | PPin _ => []
      end
  end.
