(* ===== verification/PatternCode.v ===== *)
(** * The code of patterns (src/compiler/patterns.rs, and the matches of
      src/compiler/mod.rs)

    What the instructions of patterns do (src/vm/run.rs), the compiler's
    context as far as patterns change it, and the code a pattern and a
    [match] are compiled to: the tests, the names a pattern binds, the ways
    of an or-pattern under a guard.  The code is a list of instructions with
    labels, all of whose jumps go forward; a constant stands in its
    instruction.  The refusals of the emitter (limits of the bytecode) are
    Emit's.  An expression is compiled to one instruction ([IRun]) that
    pushes its value. *)

From S2P Require Import Prelude Float Tree.
Open Scope nat_scope.

(** ** Values, and what the instructions ask of them *)
Record Tag := mkTag { tag_type : N; tag_ordinal : N }.
#[export] Instance tag_eq_dec : EqDecision Tag.
Proof. solve_decision. Defined.

(** A record has its fields by name, in the order of its type (of an
    anonymous one the order of the names' spellings); of a map the entries
    with a string for a key. *)
Inductive Val :=
  | VInt (n : Z)
  | VFloat (f : Z)
  | VBool (b : bool)
  | VString (s : string)
  | VUnit
  | VTuple (items : list Val)
  | VList (items : list Val)
  | VMap (entries : list (string * Val))
  | VVariant (tag : Tag) (fields : list Val)
  | VRecord (ty : N) (fields : list (Symbol * Val))
  | VOther (k : N).

(** The type of anonymous records. *)
Definition ANON : N := 28.

Definition field (name : Symbol) (fields : list (Symbol * Val)) : option Val := snd <$> (snd <$> list_find (λ f, f.1 = name) fields).
Definition entry (key : string) (entries : list (string * Val)) : option Val := snd <$> (snd <$> list_find (λ e, e.1 = key) entries).

Inductive Test :=
  | TestEqual (k : Val)
  | TestTag (tag : Tag)
  | TestTupleLen (len : nat)
  | TestListMin (len : nat)
  | TestListExact (len : nat)
  | TestIntRange (lo hi : Z)
  | TestFloatRange (lo hi : Z)
  | TestRecordTag (ty : N)
  | TestMapHasKey (key : string).

(** Equality with a constant of a pattern. *)
Definition is_constant (v k : Val) : bool :=
  match v, k with
  | VInt m, VInt n => (m =? n)%Z
  | VFloat f, VFloat g => match float_cmp f g with Eq => true | _ => false end
  | VBool b, VBool c => Bool.eqb b c
  | VString s, VString t => bool_decide (s = t)
  | VUnit, VUnit => true
  | _, _ => false
  end.

Definition holds (t : Test) (v : Val) : bool :=
  match t, v with
  | TestEqual k, _ => is_constant v k
  | TestTag tag, VVariant t _ => bool_decide (t = tag)
  | TestTupleLen len, VTuple items => length items =? len
  | TestListMin len, VList items => len <=? length items
  | TestListExact len, VList items => length items =? len
  | TestIntRange lo hi, VInt n => ((lo <=? n) && (n <=? hi))%Z
  | TestFloatRange lo hi, VFloat f => match float_cmp lo f, float_cmp f hi with Gt, _ | _, Gt => false | _, _ => true end
  | TestRecordTag ty, VRecord t _ => (t =? ty)%N
  | TestMapHasKey key, VMap entries => match entry key entries with Some _ => true | None => false end
  | _, _ => false
  end.

Inductive Destruct :=
  | DestructTuple (index : nat)
  | DestructVariant (index : nat)
  | DestructList (index : nat)
  | DestructListRest (start : nat)
  | DestructRecordField (index : nat)
  | DestructRecordFieldNamed (name : Symbol)
  | DestructMapValue (key : string).

(** The part of a value; nothing where the program is stopped for a value
    of another shape. *)
Definition part (d : Destruct) (v : Val) : option Val :=
  match d, v with
  | DestructTuple i, VTuple items => items !! i
  | DestructVariant i, VVariant _ fields => fields !! i
  | DestructList i, VList items => items !! i
  | DestructListRest start, VList items => if start <=? length items then Some (VList (drop start items)) else None
  | DestructRecordField i, VRecord _ fields => snd <$> fields !! i
  | DestructRecordFieldNamed name, VRecord _ fields => field name fields
  | DestructMapValue key, VMap entries => entry key entries
  | _, _ => None
  end.

Definition is_truthy (v : Val) : bool := match v with VBool b => b | VUnit => false | _ => true end.

(** ** Instructions *)
Record Local_ := mkLocal { l_name : Symbol; l_depth : nat; l_slot : nat }.

Inductive Instr :=
  | IConstant (v : Val)
  | IPop
  | IDup
  | IGetLocal (slot : nat)
  | ISetLocal (slot : nat)
  | IGetUpvalue (index : nat)
  | IGlobal (def : DefId)
  | IEq
  | ITest (t : Test)
  | IDestruct (d : Destruct)
  | IRecordRest (excluded : list Symbol)
  | ISlide (slot : nat)
  | IJump (to : nat)
  | IJumpIfFalse (to : nat)
  | IJumpIfTrue (to : nat)
  | IBind (l : nat)
  | IPanic
  | IRun (e : Expr) (locals : list Local_).

(** The frame's values, the top one first; a slot counts from below. *)
Notation Stack := (list Val) (only parsing).
Definition slot_of (st : Stack) (slot : nat) : option Val := reverse st !! slot.
Definition set_slot (st : Stack) (slot : nat) (v : Val) : Stack := reverse (<[slot := v]> (reverse st)).

(** The innermost local of a name. *)
Definition find_local (ls : list Local_) (name : Symbol) : option nat := l_slot <$> last (List.filter (λ l, (l_name l =? name)%N) ls).
Definition env_of (ls : list Local_) (st : Stack) (name : Symbol) : option Val := find_local ls name ≫= slot_of st.

(** Running at this frame; on the way to a label; stopped for a value of
    another shape; stopped with a message. *)
Inductive State := At (st : Stack) | To (l : nat) (st : Stack) | Confused | Panicked (message : Val).

(** What is outside a function's frame: the values it captured, the
    globals, the equality of [==], and what expressions evaluate to where
    names stand for values; and how a name is spelled. *)
Class World := mkWorld {
  spelling : Symbol → string;
  upvalues : nat → Val;
  globals : DefId → Val;
  equal : Val → Val → option bool;
  eval : Expr → (Symbol → option Val) → option Val;
}.
Section machine.
Context `{!World}.

(** [Record::anon]: the fields sorted by name. *)
Definition by_spelling (f g : Symbol * Val) : Prop := String.leb (spelling f.1) (spelling g.1) = true.
#[local] Instance by_spelling_dec : RelDecision by_spelling.
Proof. intros f g. unfold by_spelling. apply _. Defined.
Definition anon (fields : list (Symbol * Val)) : Val := VRecord ANON (merge_sort by_spelling fields).
(** [Record::rest]. *)
Definition record_rest (excluded : list Symbol) (v : Val) : option Val :=
  match v with
  | VRecord ty fields =>
      let kept (f : Symbol * Val) := negb (bool_decide (f.1 ∈ excluded)) in
      if (ty =? ANON)%N && forallb kept fields then Some v else Some (anon (List.filter kept fields))
  | _ => None
  end.

Definition exec_at (i : Instr) (st : Stack) : State :=
  match i, st with
  | IConstant v, _ => At (v :: st)
  | IPop, _ :: st => At st
  | IDup, v :: _ => At (v :: st)
  | IGetLocal slot, _ => match slot_of st slot with Some v => At (v :: st) | None => Confused end
  | ISetLocal slot, v :: _ => At (set_slot st slot v)
  | IGetUpvalue index, _ => At (upvalues index :: st)
  | IGlobal def, _ => At (globals def :: st)
  | IEq, b :: a :: st => match equal a b with Some r => At (VBool r :: st) | None => Confused end
  | ITest t, v :: _ => At (VBool (holds t v) :: st)
  | IDestruct d, v :: _ => match part d v with Some w => At (w :: st) | None => Confused end
  | IRecordRest excluded, v :: st => match record_rest excluded v with Some w => At (w :: st) | None => Confused end
  | ISlide slot, v :: _ => At (v :: drop (length st - slot) st)
  | IJump to, _ => To to st
  | IJumpIfFalse to, v :: st => if is_truthy v then At st else To to st
  | IJumpIfTrue to, v :: st => if is_truthy v then To to st else At st
  | IBind _, _ => At st
  | IPanic, v :: _ => Panicked v
  | IRun e locals, _ => match eval e (env_of locals st) with Some v => At (v :: st) | None => Confused end
  | _, _ => Confused
  end.
Definition exec (s : State) (i : Instr) : State :=
  match s with
  | At st => exec_at i st
  | To l st => match i with IBind l' => if l' =? l then At st else s | _ => s end
  | _ => s
  end.
Definition run (code : list Instr) (s : State) : State := foldl exec s code.
End machine.

(** ** The compiler *)

(** The code, the frame's height at its end, whether its end is reached,
    the lowest height a jump to each label has. *)
Record CodeState := mkCode { code : list Instr; height : nat; reachable : bool; arriving : gmap nat nat; next_label : nat }.
Record Ctx := mkCtx { emitter : CodeState; locals : list Local_; scope_depth : nat; scope_starts : list nat; pattern_floor : option nat }.

Inductive Refusal :=
  | NameWithoutBinding (name : Symbol)
  | Unresolved (name : Symbol)
  | NoFloat (bits : N)
  | LocalWithoutValue (name : Symbol)
  | OrBindsDifferentNames
  | NoGuard
  | TooManyWays (count : N)
  | PatternPanics.
Inductive Compiled (A : Type) := Done (x : A) (c : Ctx) | Refused (why : Refusal).
Arguments Done {A} _ _.
Arguments Refused {A} _.
Definition Compile (A : Type) : Type := Ctx → Compiled A.
#[export] Instance compile_ret : MRet Compile := λ A x c, Done x c.
#[export] Instance compile_bind : MBind Compile := λ A B k m c, match m c with Done x c => k x c | Refused why => Refused why end.
Definition refuse {A} (why : Refusal) : Compile A := λ _, Refused why.
Definition tried {A} (why : Refusal) (x : option A) : Compile A := λ c, match x with Some x => Done x c | None => Refused why end.
Definition look {A} (f : Ctx → A) : Compile A := λ c, Done (f c) c.

Definition with_emitter (c : Ctx) (e : CodeState) : Ctx := mkCtx e (locals c) (scope_depth c) (scope_starts c) (pattern_floor c).
Definition with_locals (c : Ctx) (ls : list Local_) : Ctx := mkCtx (emitter c) ls (scope_depth c) (scope_starts c) (pattern_floor c).
Definition with_floor (c : Ctx) (floor : option nat) : Ctx := mkCtx (emitter c) (locals c) (scope_depth c) (scope_starts c) floor.
Definition changed (f : Ctx → Ctx) : Compile unit := λ c, Done tt (f c).

(** *** The emitter *)
Definition height_after (i : Instr) (h : nat) : nat :=
  match i with
  | IConstant _ | IGetLocal _ | IGetUpvalue _ | IGlobal _ | IDup | ITest _ | IDestruct _ | IRun _ _ => S h
  | IPop | IEq | IJumpIfFalse _ | IJumpIfTrue _ | IPanic => pred h
  | ISlide slot => S slot
  | ISetLocal _ | IRecordRest _ | IJump _ | IBind _ => h
  end.
Definition emit_code (i : Instr) (e : CodeState) : CodeState :=
  let after := height_after i (height e) in
  let arrives l := if reachable e then <[l := match arriving e !! l with Some known => known `min` after | None => after end]> (arriving e) else arriving e in
  match i with
  | IJump l => mkCode (code e ++ [i]) after false (arrives l) (next_label e)
  | IJumpIfFalse l | IJumpIfTrue l => mkCode (code e ++ [i]) after (reachable e) (arrives l) (next_label e)
  | IPanic => mkCode (code e ++ [i]) after false (arriving e) (next_label e)
  | IBind l =>
      match arriving e !! l with
      | Some a => mkCode (code e ++ [i]) (if reachable e then height e `min` a else a) true (arriving e) (next_label e)
      | None => mkCode (code e ++ [i]) (height e) (reachable e) (arriving e) (next_label e)
      end
  | _ => mkCode (code e ++ [i]) after (reachable e) (arriving e) (next_label e)
  end.
Definition emit (i : Instr) : Compile unit := changed (λ c, with_emitter c (emit_code i (emitter c))).
Definition new_label : Compile nat := λ c,
  let e := emitter c in Done (next_label e) (with_emitter c (mkCode (code e) (height e) (reachable e) (arriving e) (S (next_label e)))).
(** Where it cannot be reached there is no jump, only the label. *)
Definition jump : Compile nat := l ← new_label; live ← look (λ c, reachable (emitter c)); (if live : bool then emit (IJump l) else mret tt);; mret l.
Definition jump_if_false : Compile nat := l ← new_label; emit (IJumpIfFalse l);; mret l.
Definition jump_if_true : Compile nat := l ← new_label; emit (IJumpIfTrue l);; mret l.
Definition bind (l : nat) : Compile unit := emit (IBind l).
Definition bind_all (ls : list nat) : Compile unit := foldr (λ l more, bind l;; more) (mret tt) ls.
Definition height_now : Compile nat := look (λ c, height (emitter c)).

(** *** Locals and scopes *)
Definition add_local (name : Symbol) : Compile nat :=
  h ← height_now;
  match h with
  | O => refuse (LocalWithoutValue name)
  | S slot => changed (λ c, with_locals c (locals c ++ [mkLocal name (scope_depth c) slot]));; mret slot
  end.
Definition resolve_local (name : Symbol) : Compile (option nat) := look (λ c, find_local (locals c) name).
Definition locals_outside (c : Ctx) : list Local_ := take (default (length (locals c)) (pattern_floor c)) (locals c).
Definition begin_scope_at (start : nat) : Compile unit :=
  changed (λ c, mkCtx (emitter c) (locals c) (S (scope_depth c)) (start :: scope_starts c) (pattern_floor c)).
Definition begin_scope : Compile unit := h ← height_now; begin_scope_at h.
Definition begin_scope_with_top : Compile unit := h ← height_now; begin_scope_at (pred h).
Fixpoint drop_deep (depth : nat) (innermost_first : list Local_) : list Local_ :=
  match innermost_first with
  | l :: ls => if depth <=? l_depth l then drop_deep depth ls else innermost_first
  | [] => []
  end.
Definition end_scope : Compile nat := λ c,
  match scope_starts c with
  | [] => Refused PatternPanics
  | start :: starts =>
      Done start (mkCtx (emitter c) (reverse (drop_deep (scope_depth c) (reverse (locals c)))) (pred (scope_depth c)) starts (pattern_floor c))
  end.
Definition end_scope_with_result (tail : bool) : Compile unit :=
  end_ ← height_now;
  start ← end_scope;
  if (S start <? end_) && negb tail then emit (ISlide start) else mret tt.
Definition compile_expr (e : Expr) : Compile unit := ls ← look locals; emit (IRun e ls).

(** ** The tests of a pattern *)
Record RecordType := mkRecordType { rt_id : N; rt_fields : list Symbol }.
Inductive FieldRead := Slot (index : nat) | Named (name : Symbol).
Definition field_read (ty : option RecordType) (name : Symbol) : FieldRead :=
  match ty ≫= λ ty, fst <$> list_find (λ f, f = name) (rt_fields ty) with Some index => Slot index | None => Named name end.
Definition destruct_field (f : FieldRead) : Destruct :=
  match f with Slot index => DestructRecordField index | Named name => DestructRecordFieldNamed name end.

Definition irrefutable (p : Pattern) : bool := match p with mkPattern _ irr _ => irr end.
Definition kind (p : Pattern) : PatternKind := match p with mkPattern _ _ k => k end.

(** Jumps to where a test failed, each with the number of sub-values it
    leaves above the value. *)
Notation Fails := (list (nat * nat)) (only parsing).

(** What the rest of the compiler tells of a program: the variant and the
    record type a name stands for, the captured variable and the definition
    it reads. *)
Class Program := mkProgram {
  variant_tag : option Res → option Tag;
  record_type : option Res → Symbol → option RecordType;
  upvalue : Symbol → option nat;
  value_def : option Res → option DefId;
}.
(** The names of the locals a program does not write: [__bind_parent__] and
    the others. *)
Class HiddenNames := mkHidden {
  BIND_PARENT : Symbol;
  OR_BIND_SCRUT : Symbol;
  BIND_SRC : Symbol;
  SCRUTINEE : Symbol;
  BIND_MATCHED : Symbol;
}.

Section compile.
Context `{!Program, !HiddenNames}.

Definition pattern_tag (res : option Res) (name : Symbol) : Compile Tag := tried (Unresolved name) (variant_tag res).
Definition pattern_record_type (res : option Res) (name : option Symbol) : Compile (option RecordType) :=
  match name with Some name => ty ← tried (Unresolved name) (record_type res name); mret (Some ty) | None => mret None end.
Definition float_constant (bits : N) : Compile Val := f ← tried (NoFloat bits) (float_new (Z.of_N bits)); mret (VFloat f).

(** Where a pinned name is read. *)
Definition pin_source (c : Ctx) (res : option Res) (name : Symbol) : option Instr :=
  match find_local (locals_outside c) name with
  | Some slot => Some (IGetLocal slot)
  | None =>
      match upvalue name with
      | Some index => Some (IGetUpvalue index)
      | None => IGlobal <$> value_def res
      end
  end.

Definition test_one (t : Test) (base : nat) : Compile Fails := emit (ITest t);; j ← jump_if_false; mret [(j, base)].

Fixpoint binds_for (depth : nat) (fails : Fails) : Compile unit :=
  match fails with [] => mret tt | (j, d) :: fails => (if d =? depth then bind j else mret tt);; binds_for depth fails end.
Fixpoint pops_down (base n : nat) (fails : Fails) : Compile unit :=
  match n with O => mret tt | S m => binds_for (base + n) fails;; emit IPop;; pops_down base m fails end.
Definition max_depth (fails : Fails) (base : nat) : nat := match fails with [] => base | _ => foldr Nat.max 0 (snd <$> fails) end.
Definition emit_trampolines (fails : Fails) (base : nat) : Compile unit :=
  pops_down base (max_depth fails base - base) fails;;
  bind_all (fst <$> List.filter (λ f, f.2 <=? base) fails).

(** What is done with each of a list and its place, in order. *)
Definition each {A B} (f : nat → A → Compile (list B)) : nat → list A → Compile (list B) :=
  fix each (i : nat) (l : list A) : Compile (list B) :=
    match l with [] => mret [] | a :: l => x ← f i a; y ← each (S i) l; mret (x ++ y) end.

(** The test of a part, if it can fail. *)
Definition test_part (d : Destruct) (p : Pattern) (test : Compile Fails) : Compile Fails :=
  if irrefutable p then mret [] else emit (IDestruct d);; fails ← test; emit IPop;; mret fails.

(** The end of the last alternative: its failures, cleaned up. *)
Definition last_alternative (fails : Fails) (base : nat) : Compile Fails :=
  if max_depth fails base <=? base then mret fails
  else
    skip ← jump;
    emit_trampolines (List.filter (λ f, base <? f.2) fails) base;;
    exit ← jump;
    bind skip;;
    mret (List.filter (λ f, f.2 <=? base) fails ++ [(exit, base)]).
Definition test_alternatives (test : Pattern → Compile Fails) (base : nat) : list Pattern → Compile (Fails * list nat) :=
  fix alternatives (alts : list Pattern) : Compile (Fails * list nat) :=
    match alts with
    | [] => mret ([], [])
    | alt :: alts =>
        fails ← test alt;
        match alts with
        | [] => fails ← last_alternative fails base; mret (fails, [])
        | _ =>
            success ← jump;
            emit_trampolines fails base;;
            r ← alternatives alts;
            mret (r.1, success :: r.2)
        end
    end.

Fixpoint compile_pattern_test_tracked (p : Pattern) (base : nat) : Compile Fails :=
  match p with
  | mkPattern res irr k =>
      if irr then mret [] else
      match k with
      | PWildcard | PIdent _ => mret []
      | PInt n => test_one (TestEqual (VInt n)) base
      | PFloat bits => f ← float_constant bits; test_one (TestEqual f) base
      | PBool b => test_one (TestEqual (VBool b)) base
      | PStringLit s => test_one (TestEqual (VString s)) base
      | PRange lo hi => test_one (TestIntRange lo hi) base
      | PFloatRange lo hi =>
          lo ← tried (NoFloat lo) (float_new (Z.of_N lo)); hi ← tried (NoFloat hi) (float_new (Z.of_N hi)); test_one (TestFloatRange lo hi) base
      | PPin name =>
          emit IDup;;
          c ← look id;
          read ← tried (NameWithoutBinding name) (pin_source c res name);
          emit read;; emit IEq;; j ← jump_if_false; mret [(j, base)]
      | PConstructor _ name args =>
          tag ← pattern_tag res name;
          j ← test_one (TestTag tag) base;
          fails ← each (λ i p, test_part (DestructVariant i) p (compile_pattern_test_tracked p (S base))) 0 args;
          mret (j ++ fails)
      | PTuple pats =>
          j ← test_one (match pats with [] => TestEqual VUnit | _ => TestTupleLen (length pats) end) base;
          fails ← each (λ i p, test_part (DestructTuple i) p (compile_pattern_test_tracked p (S base))) 0 pats;
          mret (j ++ fails)
      | PList pats rest =>
          j ← test_one (match rest with Some _ => TestListMin (length pats) | None => TestListExact (length pats) end) base;
          fails ← each (λ i p, test_part (DestructList i) p (compile_pattern_test_tracked p (S base))) 0 pats;
          more ← match rest with
                 | Some p => test_part (DestructListRest (length pats)) p (compile_pattern_test_tracked p (S base))
                 | None => mret []
                 end;
          mret (j ++ fails ++ more)
      | PRecord _ name fields _ =>
          ty ← pattern_record_type res name;
          j ← match ty with Some ty => test_one (TestRecordTag (rt_id ty)) base | None => mret [] end;
          fails ← each (λ _ f, match f.2 with
                               | Some p => test_part (destruct_field (field_read ty f.1)) p (compile_pattern_test_tracked p (S base))
                               | None => mret []
                               end) 0 fields;
          mret (j ++ fails)
      | PAnonRecord fields _ =>
          each (λ _ f, match f.2 with
                       | Some p => test_part (DestructRecordFieldNamed f.1) p (compile_pattern_test_tracked p (S base))
                       | None => mret []
                       end) 0 fields
      | PMap entries =>
          each (λ _ e, j ← test_one (TestMapHasKey e.1) base;
                       fails ← test_part (DestructMapValue e.1) e.2 (compile_pattern_test_tracked e.2 (S base));
                       mret (j ++ fails)) 0 entries
      | POr alts =>
          r ← test_alternatives (λ p, compile_pattern_test_tracked p base) base alts;
          bind_all r.2;; mret r.1
      end
  end.
Definition compile_pattern_test (p : Pattern) : Compile (list nat) := fails ← compile_pattern_test_tracked p 0; mret (fst <$> fails).

(** ** The names of a pattern *)
Fixpoint pattern_has_bindings (p : Pattern) : bool :=
  let field_binds (f : Symbol * option Pattern) := match f.2 with Some p => pattern_has_bindings p | None => true end in
  match p with
  | mkPattern _ _ k =>
      match k with
      | PIdent _ => true
      | PConstructor _ _ pats | PTuple pats | POr pats => existsb pattern_has_bindings pats
      | PList pats rest => existsb pattern_has_bindings pats || match rest with Some p => pattern_has_bindings p | None => false end
      | PRecord _ _ fields _ => existsb field_binds fields
      | PAnonRecord fields rest => match rest with Some _ => true | None => existsb field_binds fields end
      | PMap entries => existsb (λ e, pattern_has_bindings e.2) entries
      | PWildcard | PInt _ | PFloat _ | PBool _ | PStringLit _ | PRange _ _ | PFloatRange _ _ | PPin _ => false
      end
  end.

(** [collect_binding_names] is what [collect_pattern_vars] is. *)
Definition binding_names_in_order (p : Pattern) : list Symbol :=
  foldl (λ names n, if bool_decide (n ∈ names) then names else names ++ [n]) [] (collect_pattern_vars p).
Definition pattern_binding_names (p : Pattern) : list Symbol := merge_sort N.le (remove_dups (collect_pattern_vars p)).

(** ** The binding of a pattern *)

(** The names of a pattern come after the locals a pin of it can mean. *)
Definition with_pattern_floor (m : Compile unit) : Compile unit := λ c,
  match pattern_floor c with
  | Some _ => m c
  | None => (m;; changed (λ c, with_floor c None)) (with_floor c (Some (length (locals c))))
  end.

(** What is taken of the value, and how that is bound. *)
Inductive BindDestruct := BPart (d : Destruct) | BRecordRest (names : list Symbol).
Notation Item := (BindDestruct * Compile unit)%type (only parsing).

Definition bind_ident (name : Symbol) : Compile unit := emit IDup;; slot ← add_local name; emit (ISetLocal slot).
Fixpoint bind_items (parent_slot : nat) (items : list Item) : Compile unit :=
  match items with
  | [] => mret tt
  | (d, sub) :: items =>
      emit (IGetLocal parent_slot);;
      match d with
      | BPart d => emit (IDestruct d)
      | BRecordRest names => emit IDup;; emit (IRecordRest names)
      end;;
      with_pattern_floor sub;;
      bind_items parent_slot items
  end.
Definition compile_compound_bind (items : list Item) : Compile unit :=
  match items with
  | [] => mret tt
  | _ => emit IDup;; parent_slot ← add_local BIND_PARENT; emit (ISetLocal parent_slot);; bind_items parent_slot items
  end.

(** The items of a list of parts, in order. *)
Definition items_of {A} (f : nat → A → list Item) : nat → list A → list Item :=
  fix items_of (i : nat) (l : list A) : list Item := match l with [] => [] | a :: l => f i a ++ items_of (S i) l end.
Definition item_of (d : Destruct) (p : Pattern) (sub : Compile unit) : list Item := if pattern_has_bindings p then [(BPart d, sub)] else [].

(** Each name's value into its slot. *)
Fixpoint copy_names (why : Refusal) (names : list Symbol) (slots : list nat) : Compile unit :=
  match names, slots with
  | name :: names, slot :: slots =>
      temp ← resolve_local name;
      temp ← tried why temp;
      emit (IGetLocal temp);; emit (ISetLocal slot);; emit IPop;;
      copy_names why names slots
  | _, _ => mret tt
  end.
Fixpoint pops (n : nat) : Compile unit := match n with O => mret tt | S n => emit IPop;; pops n end.
Definition pop_down_to (height : nat) : Compile unit := h ← height_now; pops (h - height).
Fixpoint reserve_names (names : list Symbol) : Compile (list nat) :=
  match names with
  | [] => mret []
  | name :: names => emit (IConstant VUnit);; slot ← add_local name; slots ← reserve_names names; mret (slot :: slots)
  end.
Definition truncate_locals (n : nat) : Compile unit := changed (λ c, with_locals c (take n (locals c))).

(** The alternatives, each from a copy of the value; the jumps of those that
    are not the last. *)
Definition bind_alternatives (test : Pattern → Compile Fails) (sub : Pattern → Compile unit)
    (scrut_slot : nat) (names : list Symbol) (slots : list nat) (baseline_locals baseline_height : nat) : list Pattern → Compile (list nat) :=
  fix alternatives (alts : list Pattern) : Compile (list nat) :=
    match alts with
    | [] => mret []
    | alt :: alts =>
        emit (IGetLocal scrut_slot);;
        fails ← match alts with [] => mret [] | _ => test alt end;
        with_pattern_floor (sub alt);;
        copy_names PatternPanics names slots;;
        pop_down_to baseline_height;;
        truncate_locals baseline_locals;;
        match alts with
        | [] => mret []
        | _ =>
            done ← jump;
            emit_trampolines fails 0;;
            emit IPop;;
            more ← alternatives alts;
            mret (done :: more)
        end
    end.

Fixpoint compile_pattern_bind_parts (p : Pattern) : Compile unit :=
  match p with
  | mkPattern res irr k =>
      match k with
      | PIdent name => bind_ident name
      | PConstructor _ _ args => compile_compound_bind (items_of (λ i p, item_of (DestructVariant i) p (compile_pattern_bind_parts p)) 0 args)
      | PTuple pats => compile_compound_bind (items_of (λ i p, item_of (DestructTuple i) p (compile_pattern_bind_parts p)) 0 pats)
      | PList pats rest =>
          compile_compound_bind (items_of (λ i p, item_of (DestructList i) p (compile_pattern_bind_parts p)) 0 pats ++
            match rest with Some p => item_of (DestructListRest (length pats)) p (compile_pattern_bind_parts p) | None => [] end)
      | PRecord _ name fields _ =>
          ty ← pattern_record_type res name;
          compile_compound_bind (items_of (λ _ f, let d := destruct_field (field_read ty f.1) in
            match f.2 with Some p => item_of d p (compile_pattern_bind_parts p) | None => [(BPart d, bind_ident f.1)] end) 0 fields)
      | PAnonRecord fields rest =>
          compile_compound_bind (items_of (λ _ f, let d := DestructRecordFieldNamed f.1 in
            match f.2 with Some p => item_of d p (compile_pattern_bind_parts p) | None => [(BPart d, bind_ident f.1)] end) 0 fields ++
            match rest with Some name => [(BRecordRest (fst <$> fields), bind_ident name)] | None => [] end)
      | PMap entries => compile_compound_bind (items_of (λ _ e, item_of (DestructMapValue e.1) e.2 (compile_pattern_bind_parts e.2)) 0 entries)
      | POr alts =>
          match alts with
          | [] => mret tt
          | first :: others =>
              let expected := pattern_binding_names first in
              if existsb (λ alt, negb (bool_decide (pattern_binding_names alt = expected))) others then refuse OrBindsDifferentNames
              else
                match expected, others with
                | [], _ => mret tt
                | _, [] => with_pattern_floor (compile_pattern_bind_parts first)
                | _, _ =>
                    emit IDup;;
                    scrut_slot ← add_local OR_BIND_SCRUT;
                    emit (ISetLocal scrut_slot);;
                    slots ← reserve_names expected;
                    c ← look id;
                    ends ← bind_alternatives (λ p, compile_pattern_test_tracked p 0) (λ p, compile_pattern_bind_parts p)
                             scrut_slot expected slots (length (locals c)) (height (emitter c)) alts;
                    bind_all ends
                end
          end
      | PWildcard | PInt _ | PFloat _ | PBool _ | PStringLit _ | PRange _ _ | PFloatRange _ _ | PPin _ => mret tt
      end
  end.
Definition compile_pattern_bind (p : Pattern) : Compile unit := with_pattern_floor (compile_pattern_bind_parts p).

(** Where a failed match has nowhere to go. *)
Definition NO_MATCH : Val := VString "the value does not match the pattern it is bound to".
Definition compile_pattern_bind_checked (p : Pattern) : Compile unit :=
  if irrefutable p then compile_pattern_bind p
  else
    h ← height_now;
    let value_slot := pred h in
    fails ← compile_pattern_test p;
    emit (IConstant (VBool true));;
    tested ← jump;
    bind_all fails;;
    emit (IGetLocal value_slot);; emit (ISlide value_slot);; emit (IConstant (VBool false));;
    bind tested;;
    matched_slot ← add_local BIND_MATCHED;
    emit (IGetLocal value_slot);;
    compile_pattern_bind p;;
    emit (IGetLocal matched_slot);;
    matched ← jump_if_true;
    emit (IConstant NO_MATCH);; emit IPanic;;
    bind matched.


(** ** The ways of an or-pattern under a guard *)
Definition MAX_GUARDED_OR_WAYS : N := 1024.
Definition USIZE_MAX : N := 2 ^ 64 - 1.
Definition saturating_mul (a b : N) : N := (a * b) `min` USIZE_MAX.
Definition saturating_add (a b : N) : N := (a + b) `min` USIZE_MAX.
Fixpoint or_way_count (p : Pattern) : N :=
  let product {A} (f : A → N) (l : list A) := foldl (λ ways a, saturating_mul ways (f a)) 1%N l in
  let field (f : Symbol * option Pattern) := match f.2 with Some p => or_way_count p | None => 1%N end in
  match p with
  | mkPattern _ _ k =>
      match k with
      | POr alts => match pattern_binding_names p with [] => 1%N | _ => foldl (λ ways alt, saturating_add ways (or_way_count alt)) 0%N alts end
      | PConstructor _ _ pats | PTuple pats | PList pats _ => product or_way_count pats
      | PRecord _ _ fields _ | PAnonRecord fields _ => product field fields
      | PMap entries => product (λ e, or_way_count e.2) entries
      | _ => 1%N
      end
  end.

(** Every choice of a way for each part, the first part's slowest. *)
Definition choices {A} (parts : list (list A)) : list (list A) :=
  foldl (λ made ways, made ≫= λ chosen, (λ way, chosen ++ [way]) <$> ways) [[]] parts.
Fixpoint or_ways (p : Pattern) : list Pattern :=
  let field (f : Symbol * option Pattern) := match f.2 with Some p => (λ way, (f.1, Some way)) <$> or_ways p | None => [(f.1, None)] end in
  match p with
  | mkPattern res irr k =>
      if (or_way_count p <=? 1)%N then [p] else
      match k with
      | POr alts => concat (or_ways <$> alts)
      | PTuple pats => (λ pats, mkPattern res false (PTuple pats)) <$> choices (or_ways <$> pats)
      | PList pats rest => (λ pats, mkPattern res false (PList pats rest)) <$> choices (or_ways <$> pats)
      | PConstructor q name args => (λ args, mkPattern res false (PConstructor q name args)) <$> choices (or_ways <$> args)
      | PRecord m name fields has_rest => (λ fields, mkPattern res false (PRecord m name fields has_rest)) <$> choices (field <$> fields)
      | PAnonRecord fields rest => (λ fields, mkPattern res false (PAnonRecord fields rest)) <$> choices (field <$> fields)
      | PMap entries => (λ entries, mkPattern res false (PMap entries)) <$> choices ((λ e, (λ way, (e.1, way)) <$> or_ways e.2) <$> entries)
      | _ => [p]
      end
  end.
Definition guarded_or_ways (arm : MatchArm) : Compile (option (list Pattern)) :=
  match arm with
  | mkArm p None _ => mret None
  | mkArm p (Some _) _ =>
      let count := or_way_count p in
      if (count <=? 1)%N then mret None
      else if (MAX_GUARDED_OR_WAYS <? count)%N then refuse (TooManyWays count)
      else mret (Some (or_ways p))
  end.

(** ** Matches *)
Definition pattern_of (arm : MatchArm) : Pattern := match arm with mkArm p _ _ => p end.
Definition guard_of (arm : MatchArm) : option Expr := match arm with mkArm _ g _ => g end.
Definition body_of (arm : MatchArm) : Expr := match arm with mkArm _ _ b => b end.

(** The ways of an arm, each with the guard behind it; the jumps to the
    body. *)
Fixpoint guarded_ways (guard : Expr) (names : list Symbol) (slots : list nat) (floor scrutinee_slot baseline_locals baseline_height : nat) (ways : list Pattern)
    : Compile (list nat) :=
  match ways with
  | [] => mret []
  | way :: ways =>
      emit (IGetLocal scrutinee_slot);;
      changed (λ c, with_floor c (Some floor));;
      fails ← compile_pattern_test_tracked way 0;
      compile_pattern_bind way;;
      copy_names OrBindsDifferentNames names slots;;
      changed (λ c, with_floor c None);;
      pop_down_to baseline_height;;
      truncate_locals baseline_locals;;
      compile_expr guard;;
      guard_failed ← jump_if_false;
      body ← jump;
      (match fails with [] => mret tt | _ => emit_trampolines fails 0;; emit IPop end);;
      bind guard_failed;;
      more ← guarded_ways guard names slots floor scrutinee_slot baseline_locals baseline_height ways;
      mret (body :: more)
  end.
Definition compile_guarded_or_arm (arm : MatchArm) (ways : list Pattern) (scrutinee_slot : nat) : Compile (nat * list nat) :=
  guard ← tried NoGuard (guard_of arm);
  emit IPop;;
  begin_scope;;
  c ← look id;
  let floor := length (locals c) in
  let names := binding_names_in_order (pattern_of arm) in
  slots ← reserve_names names;
  c ← look id;
  body_jumps ← guarded_ways guard names slots floor scrutinee_slot (length (locals c)) (height (emitter c)) ways;
  next_arm ← jump;
  bind_all body_jumps;;
  compile_expr (body_of arm);;
  end_scope;;
  end_ ← jump;
  mret (end_, [next_arm]).

(** An arm for the scrutinee, of which a copy is on top. *)
Definition compile_arm (arm : MatchArm) (scrutinee_slot : nat) : Compile nat :=
  ways ← guarded_or_ways arm;
  match ways with
  | Some ways =>
      r ← compile_guarded_or_arm arm ways scrutinee_slot;
      bind_all r.2;;
      mret r.1
  | None =>
      fail_jumps ← compile_pattern_test (pattern_of arm);
      emit IPop;;
      begin_scope;;
      emit (IGetLocal scrutinee_slot);;
      bind_copy ← add_local BIND_SRC;
      emit (ISetLocal bind_copy);;
      compile_pattern_bind (pattern_of arm);;
      guard_jump ← match guard_of arm with Some guard => compile_expr guard;; j ← jump_if_false; mret [j] | None => mret [] end;
      compile_expr (body_of arm);;
      end_scope;;
      end_jump ← jump;
      bind_all guard_jump;;
      bind_all fail_jumps;;
      mret end_jump
  end.
Fixpoint compile_arms (first : bool) (scrutinee_slot arm_height : nat) (arms : list MatchArm) : Compile (list nat) :=
  match arms with
  | [] => mret []
  | arm :: arms =>
      emit (IGetLocal scrutinee_slot);;
      (if first then mret tt else emit (ISlide arm_height));;
      end_jump ← compile_arm arm scrutinee_slot;
      end_jumps ← compile_arms false scrutinee_slot arm_height arms;
      mret (end_jump :: end_jumps)
  end.

(** A match on literals. *)
Definition is_literal (k : PatternKind) : bool := match k with PInt _ | PFloat _ | PStringLit _ => true | _ => false end.
Definition unguarded_arm (arm : MatchArm) : bool := match guard_of arm with None => true | Some _ => false end.
Fixpoint literal_arms (tests : list MatchArm) : Compile (list nat) :=
  match tests with
  | [] => mret []
  | arm :: tests =>
      fail_jumps ← compile_pattern_test (pattern_of arm);
      emit IPop;;
      compile_expr (body_of arm);;
      end_jump ← jump;
      bind_all fail_jumps;;
      end_jumps ← literal_arms tests;
      mret (end_jump :: end_jumps)
  end.
Definition compile_literal_match (arms : list MatchArm) (tail : bool) : Compile bool :=
  match reverse arms with
  | last_arm :: (_ :: _) as before =>
      let tests := reverse before in
      if negb (forallb unguarded_arm arms) then mret false else
      let last_kind := kind (pattern_of last_arm) in
      match last_kind with
      | PWildcard | PIdent _ | PBool _ =>
          let last_name := match last_kind with PIdent name => Some name | _ => None end in
          match tests, last_kind with
          | [mkArm (mkPattern _ _ (PBool first)) _ body], _ =>
              if match last_kind with PBool second => Bool.eqb second first | _ => false end then mret false
              else
                otherwise ← (if first then jump_if_false else jump_if_true);
                compile_expr body;;
                end_jump ← jump;
                bind otherwise;;
                (match last_name with
                 | Some name =>
                     begin_scope;;
                     emit (IConstant (VBool (negb first)));;
                     _ ← add_local name;
                     compile_expr (body_of last_arm);;
                     end_scope_with_result tail
                 | None => compile_expr (body_of last_arm)
                 end);;
                bind end_jump;;
                mret true
          | _, PWildcard | _, PIdent _ =>
              if forallb (λ arm, is_literal (kind (pattern_of arm))) tests then
                end_jumps ← literal_arms tests;
                (match last_name with
                 | Some name =>
                     begin_scope_with_top;;
                     _ ← add_local name;
                     compile_expr (body_of last_arm);;
                     end_scope_with_result tail
                 | None => emit IPop;; compile_expr (body_of last_arm)
                 end);;
                bind_all end_jumps;;
                mret true
              else mret false
          | _, _ => mret false
          end
      | _ => mret false
      end
  | _ => mret false
  end.

Definition NO_ARM : Val := VString "non-exhaustive match: no arm matched".
Definition NO_CONDITION : Val := VString "non-exhaustive match: no condition was true".
Fixpoint guardless_arms (arms : list MatchArm) : Compile (list nat) :=
  match arms with
  | [] => mret []
  | arm :: arms =>
      (match guard_of arm with
       | Some guard =>
           compile_expr guard;;
           fail_jump ← jump_if_false;
           compile_expr (body_of arm);;
           end_jump ← jump;
           bind fail_jump;;
           more ← guardless_arms arms;
           mret (end_jump :: more)
       | None =>
           compile_expr (body_of arm);;
           end_jump ← jump;
           more ← guardless_arms arms;
           mret (end_jump :: more)
       end)
  end.
Definition compile_guardless_match (arms : list MatchArm) : Compile unit :=
  end_jumps ← guardless_arms arms;
  emit (IConstant NO_CONDITION);; emit IPanic;;
  bind_all end_jumps.
Definition compile_match (scrutinee : option Expr) (arms : list MatchArm) (tail : bool) : Compile unit :=
  match scrutinee with
  | None => compile_guardless_match arms
  | Some scrutinee =>
      compile_expr scrutinee;;
      done ← compile_literal_match arms tail;
      if done : bool then mret tt
      else
        begin_scope_with_top;;
        scrutinee_slot ← add_local SCRUTINEE;
        emit (ISetLocal scrutinee_slot);;
        arm_height ← height_now;
        end_jumps ← compile_arms true scrutinee_slot arm_height arms;
        emit (IConstant NO_ARM);; emit IPanic;;
        result_height ← end_scope;
        bind_all end_jumps;;
        if tail then mret tt else emit (ISlide result_height)
  end.
End compile.
