(* ===== verification/PatternFacts.v ===== *)
(** * What the code of a pattern's test does (src/compiler/patterns.rs)

    The meaning of a pattern as a function of the value ([pattern_test]),
    and that the code of the test computes it: it falls through where the
    pattern matches, goes to one of its failures where it does not, and
    stops the program only where the value has another shape than the
    pattern asks of.  The height the compiler keeps is the frame's. *)

From S2P Require Import Prelude Float Tree PatternCode.
Open Scope nat_scope.

(** ** What is meant *)
Definition and_then (a b : option bool) : option bool := match a with Some true => b | _ => a end.
Definition all_parts {A} (f : nat → A → option bool) : nat → list A → option bool :=
  fix all_parts (i : nat) (l : list A) : option bool := match l with [] => Some true | a :: l => and_then (f i a) (all_parts (S i) l) end.
Definition some_alternative (f : Pattern → option bool) : list Pattern → option bool :=
  fix some_alternative (l : list Pattern) : option bool :=
    match l with [] => Some false | p :: l => match f p with Some false => some_alternative l | r => r end end.

Section meaning.
Context {program : Program} {world : World} (pin : option Res → Symbol → option Val).

Definition part_test (d : Destruct) (p : Pattern) (v : Val) (test : Val → option bool) : option bool :=
  if irrefutable p then Some true else w ← part d v; test w.

(** Whether the pattern matches, its marks believed; nothing where the value
    has another shape. *)
Fixpoint pattern_test (p : Pattern) (v : Val) : option bool :=
  match p with
  | mkPattern res irr k =>
      if irr then Some true else
      match k with
      | PWildcard | PIdent _ => Some true
      | PInt n => Some (is_constant v (VInt n))
      | PFloat bits => f ← float_new (Z.of_N bits); Some (is_constant v (VFloat f))
      | PBool b => Some (is_constant v (VBool b))
      | PStringLit s => Some (is_constant v (VString s))
      | PRange lo hi => Some (holds (TestIntRange lo hi) v)
      | PFloatRange lo hi => lo ← float_new (Z.of_N lo); hi ← float_new (Z.of_N hi); Some (holds (TestFloatRange lo hi) v)
      | PPin name => w ← pin res name; equal v w
      | PConstructor _ _ args =>
          tag ← variant_tag res;
          and_then (Some (holds (TestTag tag) v)) (all_parts (λ i p, part_test (DestructVariant i) p v (pattern_test p)) 0 args)
      | PTuple pats =>
          and_then (Some (holds (match pats with [] => TestEqual VUnit | _ => TestTupleLen (length pats) end) v))
            (all_parts (λ i p, part_test (DestructTuple i) p v (pattern_test p)) 0 pats)
      | PList pats rest =>
          and_then (Some (holds (match rest with Some _ => TestListMin (length pats) | None => TestListExact (length pats) end) v))
            (and_then (all_parts (λ i p, part_test (DestructList i) p v (pattern_test p)) 0 pats)
               match rest with Some p => part_test (DestructListRest (length pats)) p v (pattern_test p) | None => Some true end)
      | PRecord _ name fields _ =>
          ty ← match name with Some name => Some <$> record_type res name | None => Some None end;
          and_then match ty with Some ty => Some (holds (TestRecordTag (rt_id ty)) v) | None => Some true end
            (all_parts (λ _ f, match f.2 with
                               | Some p => part_test (destruct_field (field_read ty f.1)) p v (pattern_test p)
                               | None => Some true
                               end) 0 fields)
      | PAnonRecord fields _ =>
          all_parts (λ _ f, match f.2 with Some p => part_test (DestructRecordFieldNamed f.1) p v (pattern_test p) | None => Some true end) 0 fields
      | PMap entries =>
          all_parts (λ _ e, and_then (Some (holds (TestMapHasKey e.1) v)) (part_test (DestructMapValue e.1) e.2 v (pattern_test e.2))) 0 entries
      | POr alts => some_alternative (λ p, pattern_test p v) alts
      end
  end.
End meaning.

(** What a pattern names is there, and its alternatives bind the same. *)
Section resolved.
Context {program : Program} (pinned : option Res → Symbol → bool).
Definition is_there {A} (x : option A) : bool := match x with Some _ => true | None => false end.
Fixpoint resolved (p : Pattern) : bool :=
  let field (f : Symbol * option Pattern) := match f.2 with Some p => resolved p | None => true end in
  match p with
  | mkPattern res _ k =>
      match k with
      | PFloat bits => is_there (float_new (Z.of_N bits))
      | PFloatRange lo hi => is_there (float_new (Z.of_N lo)) && is_there (float_new (Z.of_N hi))
      | PPin name => pinned res name
      | PConstructor _ _ args => is_there (variant_tag res) && forallb resolved args
      | PTuple pats => forallb resolved pats
      | PList pats rest => forallb resolved pats && match rest with Some p => resolved p | None => true end
      | PRecord _ name fields _ => match name with Some name => is_there (record_type res name) | None => true end && forallb field fields
      | PAnonRecord fields _ => forallb field fields
      | PMap entries => forallb (λ e, resolved e.2) entries
      | POr alts =>
          match alts with
          | [] => false
          | first :: others =>
              forallb resolved alts && forallb (λ alt, bool_decide (pattern_binding_names alt = pattern_binding_names first)) others
          end
      | PWildcard | PIdent _ | PInt _ | PBool _ | PStringLit _ | PRange _ _ => true
      end
  end.
End resolved.

(** Induction on patterns, with the parts. *)
Definition field_parts (fields : list (Symbol * option Pattern)) : list Pattern := omap snd fields.
Lemma Pattern_ind' (P : Pattern → Prop) :
  (∀ res irr k, match k with
                | PConstructor _ _ pats | PTuple pats | POr pats => Forall P pats
                | PList pats rest => Forall P pats ∧ (∀ p, rest = Some p → P p)
                | PRecord _ _ fields _ | PAnonRecord fields _ => Forall (λ f, ∀ p, f.2 = Some p → P p) fields
                | PMap entries => Forall (λ e, P e.2) entries
                | _ => True
                end → P (mkPattern res irr k)) → ∀ p, P p.
Proof.
  intros H. fix IH 1. intros [res irr k]. apply H.
  assert (∀ pats, Forall P pats) as Hl by (fix IHl 1; intros [|p pats]; constructor; [apply IH|apply IHl]).
  assert (∀ fields : list (Symbol * option Pattern), Forall (λ f, ∀ p, f.2 = Some p → P p) fields) as Hf.
  { fix IHl 1. intros [|[n [p|]] fields]; constructor; try apply IHl; intros q E; [injection E as <-; apply IH|discriminate E]. }
  assert (∀ entries : list (string * Pattern), Forall (λ e, P e.2) entries) as He by (fix IHl 1; intros [|[s p] entries]; constructor; [apply IH|apply IHl]).
  destruct k as [| | | | | |pats|q n pats|m n fields r|fields r|pats rest|pats| | |entries|]; try exact I; try apply Hl; try apply Hf; try apply He.
  split; [apply Hl|]. intros p E. destruct rest as [r|]; [|discriminate E]. injection E as <-. apply IH.
Qed.

(** ** Slots *)
Lemma slot_of_app k st slot : slot < length st → slot_of (k ++ st) slot = slot_of st slot.
Proof. intros H. unfold slot_of. rewrite reverse_app. apply lookup_app_l. by rewrite length_reverse. Qed.
Lemma slot_of_cons v st slot : slot < length st → slot_of (v :: st) slot = slot_of st slot.
Proof. apply (slot_of_app [v]). Qed.
Lemma slot_of_top v st : slot_of (v :: st) (length st) = Some v.
Proof. unfold slot_of. rewrite reverse_cons, lookup_app_r; rewrite length_reverse; [|done]. by rewrite Nat.sub_diag. Qed.
Lemma set_slot_top v w st : set_slot (w :: st) (length st) v = v :: st.
Proof.
  unfold set_slot. rewrite reverse_cons, insert_app_r_alt; rewrite length_reverse; [|done]. rewrite Nat.sub_diag. cbn.
  by rewrite reverse_app, reverse_involutive.
Qed.
Lemma set_slot_app k st slot v : slot < length st → set_slot (k ++ st) slot v = k ++ set_slot st slot v.
Proof.
  intros H. unfold set_slot. rewrite reverse_app, insert_app_l by by rewrite length_reverse. by rewrite reverse_app, reverse_involutive.
Qed.
Lemma set_slot_length st slot v : length (set_slot st slot v) = length st.
Proof. unfold set_slot. by rewrite length_reverse, length_insert, length_reverse. Qed.
Lemma slot_of_set st slot v k : slot < length st → slot_of (set_slot st slot v) k = if decide (k = slot) then Some v else slot_of st k.
Proof.
  intros H. unfold slot_of, set_slot. rewrite reverse_involutive. destruct (decide (k = slot)) as [->|Hne].
  - apply list_lookup_insert_eq. by rewrite length_reverse.
  - by apply list_lookup_insert_ne.
Qed.

(** ** Running *)
Section running.
Context {world : World}.

Lemma run_app a b s : run (a ++ b) s = run b (run a s).
Proof. apply foldl_app. Qed.
Lemma run_cons i code s : run (i :: code) s = run code (exec s i).
Proof. done. Qed.
Definition binds_from (lo : nat) (code : list Instr) : Prop := ∀ l, IBind l ∈ code → lo ≤ l.
Definition not_bound (l : nat) (code : list Instr) : Prop := IBind l ∉ code.
Lemma run_past l st code : not_bound l code → run code (To l st) = To l st.
Proof.
  unfold not_bound. induction code as [|i code IH]; intros H; [done|]. rewrite not_elem_of_cons in H. destruct H as [Hi H]. rewrite run_cons. cbn [exec].
  destruct i; try (by apply IH). destruct (Nat.eqb_spec l0 l) as [->|]; [done|by apply IH].
Qed.
Lemma binds_from_past lo l code : binds_from lo code → l < lo → not_bound l code.
Proof. intros H Hl Hin. apply H in Hin. lia. Qed.
Lemma run_confused code : run code Confused = Confused.
Proof. induction code as [|i code IH]; [done|]. by rewrite run_cons. Qed.
Lemma run_panicked code m : run code (Panicked m) = Panicked m.
Proof. induction code as [|i code IH]; [done|]. by rewrite run_cons. Qed.
Lemma run_binds_at ls st : run (IBind <$> ls) (At st) = At st.
Proof. induction ls as [|l ls IH]; [done|]. by rewrite fmap_cons, run_cons. Qed.
Lemma run_binds_to ls l st : l ∈ ls → run (IBind <$> ls) (To l st) = At st.
Proof.
  induction ls as [|l' ls IH]; intros H; [by apply elem_of_nil in H|]. rewrite fmap_cons, run_cons. cbn [exec].
  destruct (Nat.eqb_spec l' l) as [->|Hne]; [apply run_binds_at|]. apply IH. by apply elem_of_cons in H as [->|H].
Qed.
Lemma bound_in_binds l (ls : list nat) : IBind l ∈ IBind <$> ls ↔ l ∈ ls.
Proof. rewrite list_elem_of_fmap. split; [intros (? & [= ->] & ?); done|intros H; by exists l]. Qed.
End running.

(** ** The emitter *)
Definition emits (l : list Instr) (e : CodeState) : CodeState := foldl (λ e i, emit_code i e) e l.
Arguments emits : simpl never.
Arguments run : simpl never.
Lemma emits_app a b e : emits (a ++ b) e = emits b (emits a e).
Proof. apply foldl_app. Qed.
Lemma emits_code l : ∀ e, code (emits l e) = code e ++ l ∧ next_label (emits l e) = next_label e.
Proof.
  induction l as [|i l IH]; intros e; [by rewrite app_nil_r|]. change (emits (i :: l) e) with (emits l (emit_code i e)). destruct (IH (emit_code i e)) as [-> ->].
  split; [|destruct i; cbn; try done; by destruct (arriving e !! _)]. rewrite (cons_middle i (code e)), app_assoc. f_equal.
  destruct i; cbn; try done. by destruct (arriving e !! _).
Qed.
Lemma with_emitter_twice c e e' : with_emitter (with_emitter c e) e' = with_emitter c e'.
Proof. done. Qed.
Lemma with_own_emitter c : with_emitter c (emitter c) = c.
Proof. by destruct c. Qed.

Lemma bind_all_is ls : ∀ c, bind_all ls c = Done tt (with_emitter c (emits (IBind <$> ls) (emitter c))).
Proof.
  induction ls as [|l ls IH]; intros c; [by rewrite with_own_emitter|]. cbn [bind_all foldr]. unfold mbind, compile_bind, bind, emit, changed.
  fold (bind_all ls). by rewrite IH.
Qed.
Lemma pops_is n : ∀ c, pops n c = Done tt (with_emitter c (emits (replicate n IPop) (emitter c))).
Proof.
  induction n as [|n IH]; intros c; [by rewrite with_own_emitter|]. cbn [pops]. unfold mbind, compile_bind, emit, changed. by rewrite IH.
Qed.

(** A new label. *)
Definition fresh (e : CodeState) : CodeState := mkCode (code e) (height e) (reachable e) (arriving e) (S (next_label e)).

(** The trampolines are these instructions. *)
Definition binds_of (depth : nat) (fails : list (nat * nat)) : list Instr := IBind <$> (fst <$> List.filter (λ f, f.2 =? depth) fails).
Fixpoint pops_code (base n : nat) (fails : list (nat * nat)) : list Instr :=
  match n with O => [] | S m => binds_of (base + n) fails ++ IPop :: pops_code base m fails end.
Definition trampolines (fails : list (nat * nat)) (base : nat) : list Instr :=
  pops_code base (max_depth fails base - base) fails ++ (IBind <$> (fst <$> List.filter (λ f, f.2 <=? base) fails)).

Lemma binds_for_is depth fails : ∀ c, binds_for depth fails c = Done tt (with_emitter c (emits (binds_of depth fails) (emitter c))).
Proof.
  induction fails as [|[j d] fails IH]; intros c; [by rewrite with_own_emitter|]. cbn [binds_for]. unfold binds_of in *. cbn [List.filter snd].
  destruct (d =? depth); cbn [fmap list_fmap fst]; unfold mbind, compile_bind, mret, compile_ret, bind, emit, changed; by rewrite IH.
Qed.
Lemma pops_down_is base n fails : ∀ c, pops_down base n fails c = Done tt (with_emitter c (emits (pops_code base n fails) (emitter c))).
Proof.
  induction n as [|n IH]; intros c; [by rewrite with_own_emitter|]. cbn [pops_down pops_code]. unfold mbind at 1, compile_bind at 1. rewrite binds_for_is.
  unfold mbind, compile_bind, emit, changed. rewrite IH. by rewrite emits_app.
Qed.
Lemma emit_trampolines_is fails base c : emit_trampolines fails base c = Done tt (with_emitter c (emits (trampolines fails base) (emitter c))).
Proof.
  unfold emit_trampolines, trampolines, mbind, compile_bind. rewrite pops_down_is, bind_all_is. by rewrite emits_app.
Qed.

(** *** What the trampolines do *)
Section trampolines.
Context {world : World}.
Notation Fails := (list (nat * nat)) (only parsing).

Lemma in_binds_of l depth (fails : Fails) : IBind l ∈ binds_of depth fails ↔ (l, depth) ∈ fails.
Proof.
  unfold binds_of. rewrite bound_in_binds, list_elem_of_fmap. setoid_rewrite list_elem_of_In. setoid_rewrite filter_In. split.
  - intros ([l' d] & -> & Hin & Hd%Nat.eqb_eq). cbn in *. by subst.
  - intros H. exists (l, depth). split_and!; [done|done|apply Nat.eqb_refl].
Qed.
Lemma in_last_binds l base (fails : Fails) : IBind l ∈ IBind <$> (fst <$> List.filter (λ f, f.2 <=? base) fails) ↔ ∃ d, (l, d) ∈ fails ∧ d ≤ base.
Proof.
  rewrite bound_in_binds, list_elem_of_fmap. setoid_rewrite list_elem_of_In. setoid_rewrite filter_In. split.
  - intros ([l' d] & -> & Hin & Hd%Nat.leb_le). by exists d.
  - intros (d & Hin & Hd). exists (l, d). split_and!; [done|done|by apply Nat.leb_le].
Qed.
Lemma in_pops_code l base n (fails : Fails) : IBind l ∈ pops_code base n fails ↔ ∃ d, (l, d) ∈ fails ∧ base < d ≤ base + n.
Proof.
  induction n as [|n IH]; cbn [pops_code]; [rewrite elem_of_nil; split; [done|intros (d & _ & ?); lia]|].
  rewrite elem_of_app, elem_of_cons, in_binds_of, IH. split.
  - intros [Hin|[?|(d & Hin & Hd)]]; [exists (base + S n); split; [done|lia]|done|exists d; split; [done|lia]].
  - intros (d & Hin & Hd). destruct (decide (d = base + S n)) as [->|]; [by left|right; right]. exists d. split; [done|lia].
Qed.
Lemma max_depth_max base (fails : Fails) l d : (l, d) ∈ fails → d ≤ max_depth fails base.
Proof.
  assert (∀ fs : Fails, (l, d) ∈ fs → d ≤ foldr Nat.max 0 (snd <$> fs)) as Hmax.
  { induction fs as [|[l' d'] fs IH]; intros H; [by apply elem_of_nil in H|]. cbn. apply elem_of_cons in H as [[= -> ->]|H]; [lia|]. specialize (IH H). lia. }
  intros H. unfold max_depth. destruct fails; [by apply elem_of_nil in H|]. by apply Hmax.
Qed.
Lemma in_trampolines l base (fails : Fails) : IBind l ∈ trampolines fails base ↔ l ∈ fails.*1.
Proof.
  unfold trampolines. rewrite elem_of_app, in_pops_code, in_last_binds, list_elem_of_fmap. split.
  - intros [(d & H & _)|(d & H & _)]; by exists (l, d).
  - intros ([l' d] & -> & H). pose proof (max_depth_max base fails l' d H). destruct (decide (d ≤ base)); [right|left]; exists d; (split; [done|]); lia.
Qed.

Lemma run_pops_at base n (fails : Fails) : ∀ subs rest, length subs = n → run (pops_code base n fails) (At (subs ++ rest)) = At rest.
Proof.
  induction n as [|n IH]; intros subs rest Hlen; [by destruct subs|]. destruct subs as [|x subs]; [done|]. injection Hlen as Hlen.
  cbn [pops_code]. rewrite run_app. unfold binds_of. rewrite run_binds_at. by apply IH.
Qed.
Lemma same_label (fails : Fails) l d d' : NoDup (fails.*1) → (l, d) ∈ fails → (l, d') ∈ fails → d = d'.
Proof.
  intros Hnd [i Hi]%list_elem_of_lookup_1 [j Hj]%list_elem_of_lookup_1. assert (i = j) as ->; [|congruence].
  eapply NoDup_lookup; [exact Hnd| |]; rewrite list_lookup_fmap; [by rewrite Hi|by rewrite Hj].
Qed.
Lemma run_pops_to base n (fails : Fails) l d : NoDup (fails.*1) → (l, d) ∈ fails → base < d ≤ base + n →
  ∀ subs rest, length subs = d - base → run (pops_code base n fails) (To l (subs ++ rest)) = At rest.
Proof.
  intros Hnd Hin. induction n as [|n IH]; intros Hd subs rest Hlen; [lia|]. cbn [pops_code]. rewrite run_app.
  destruct (decide (d = base + S n)) as [->|Hne].
  - unfold binds_of. rewrite run_binds_to by (apply bound_in_binds; by apply in_binds_of). destruct subs as [|x subs]; [cbn in Hlen; lia|].
    cbn [app]. rewrite run_cons. cbn [exec exec_at]. apply run_pops_at. cbn in Hlen. lia.
  - rewrite run_past; [apply IH; [lia|done]|]. intros H%in_binds_of. by pose proof (same_label _ _ _ _ Hnd Hin H).
Qed.
Lemma run_trampolines base (fails : Fails) l d : NoDup (fails.*1) → (l, d) ∈ fails → base ≤ d →
  ∀ subs rest, length subs = d - base → run (trampolines fails base) (To l (subs ++ rest)) = At rest.
Proof.
  intros Hnd Hin Hd subs rest Hlen. unfold trampolines. rewrite run_app. pose proof (max_depth_max base fails l d Hin).
  destruct (decide (d = base)) as [->|Hne].
  - rewrite Nat.sub_diag in Hlen. destruct subs; [|done]. rewrite run_past.
    + apply run_binds_to, bound_in_binds, in_last_binds. by exists base.
    + intros (d & H' & ?)%in_pops_code. pose proof (same_label _ _ _ _ Hnd Hin H'). lia.
  - rewrite (run_pops_to base _ fails l d Hnd Hin) by (done || lia). apply run_binds_at.
Qed.

(** *** The heights *)
Definition level (e : CodeState) (h : nat) : Prop := reachable e = true → height e = h.
Definition arrives (e : CodeState) (l : nat) : Prop := is_Some (arriving e !! l).
Definition arrives_at (e : CodeState) (l h : nat) : Prop := ∀ a, arriving e !! l = Some a → a = h.

Lemma binds_level ls h : ∀ e, level e h → (∀ l, l ∈ ls → arrives_at e l h) → let e' := emits (IBind <$> ls) e in
  level e' h ∧ arriving e' = arriving e ∧ (reachable e' = true ↔ reachable e = true ∨ ∃ l, l ∈ ls ∧ arrives e l).
Proof.
  induction ls as [|l ls IH]; intros e He Hls; [split_and!; [done|done|]; split; [by left|intros [?|(? & []%elem_of_nil & _)]; done]|].
  cbn zeta. change (emits (IBind <$> l :: ls) e) with (emits (IBind <$> ls) (emit_code (IBind l) e)).
  assert (level (emit_code (IBind l) e) h ∧ arriving (emit_code (IBind l) e) = arriving e ∧
    (reachable (emit_code (IBind l) e) = true ↔ reachable e = true ∨ arrives e l)) as (H1 & H2 & H3).
  { unfold level, arrives in *. specialize (Hls l ltac:(left)). unfold arrives_at in Hls. cbn. destruct (arriving e !! l) as [a|] eqn:E; cbn.
    - specialize (Hls a eq_refl) as ->. split_and!; [|done|split; [eauto|done]]. intros _. destruct (reachable e); [rewrite He by done; lia|done].
    - split_and!; [done|done|]. split; [by left|intros [?|[? ?]]; done]. }
  destruct (IH (emit_code (IBind l) e) H1) as (I1 & I2 & I3).
  { intros l' Hl'. unfold arrives_at. rewrite H2. apply Hls. by right. }
  split_and!; [done|congruence|]. rewrite I3, H3. unfold arrives. rewrite H2. setoid_rewrite elem_of_cons. naive_solver.
Qed.
Lemma pops_level base (fails : Fails) h n : ∀ e, level e (h + n) → (∀ l d, (l, d) ∈ fails → base < d ≤ base + n → arrives_at e l (h + (d - base))) →
  let e' := emits (pops_code base n fails) e in
  level e' h ∧ arriving e' = arriving e ∧ (reachable e' = true ↔ reachable e = true ∨ ∃ l d, (l, d) ∈ fails ∧ base < d ≤ base + n ∧ arrives e l).
Proof.
  induction n as [|n IH]; intros e He Hf; cbn zeta; cbn [pops_code].
  { rewrite Nat.add_0_r in He. split_and!; [done|done|]. split; [by left|intros [?|(? & ? & _ & ? & _)]; [done|lia]]. }
  rewrite emits_app. destruct (binds_level (fst <$> List.filter (λ f, f.2 =? base + S n) fails) (h + S n) e He) as (H1 & H2 & H3).
  { intros l Hl. replace (h + S n) with (h + (base + S n - base)) by lia. apply Hf; [|lia]. by apply in_binds_of, bound_in_binds. }
  fold (binds_of (base + S n) fails) in *. set (e1 := emits (binds_of (base + S n) fails) e) in *.
  change (emits (IPop :: pops_code base n fails) e1) with (emits (pops_code base n fails) (emit_code IPop e1)).
  destruct (IH (emit_code IPop e1)) as (I1 & I2 & I3).
  - intros Hr. cbn in *. rewrite H1 by done. lia.
  - intros l d Hin Hd. unfold arrives_at. cbn. rewrite H2. apply Hf; [done|lia].
  - change (arriving (emit_code IPop e1)) with (arriving e1) in I2. change (reachable (emit_code IPop e1)) with (reachable e1) in I3.
    unfold arrives in *. change (arriving (emit_code IPop e1)) with (arriving e1) in I3. rewrite H2 in I2, I3.
    split_and!; [done|done|]. rewrite I3, H3. split.
    + intros [[?|(l & Hl & Ha)]|(l & d & Hin & Hd & Ha)]; [by left|right; exists l, (base + S n)|right; exists l, d].
      * split_and!; [by apply in_binds_of, bound_in_binds|lia|lia|done].
      * split_and!; [done|lia|lia|done].
    + intros [?|(l & d & Hin & Hd & Ha)]; [by left; left|]. destruct (decide (d = base + S n)) as [->|]; [left; right|right].
      * exists l. split; [|done]. by apply bound_in_binds, in_binds_of.
      * exists l, d. split_and!; [done|lia|lia|done].
Qed.
Lemma trampolines_level base (fails : Fails) h e : reachable e = false → (∀ l d, (l, d) ∈ fails → base ≤ d ∧ arrives_at e l (h + (d - base))) →
  let e' := emits (trampolines fails base) e in
  level e' h ∧ arriving e' = arriving e ∧ (reachable e' = true ↔ ∃ l d, (l, d) ∈ fails ∧ arrives e l).
Proof.
  intros He Hf. cbn zeta. unfold trampolines. rewrite emits_app. set (n := max_depth fails base - base).
  destruct (pops_level base fails h n e) as (H1 & H2 & H3); [intros Hr; congruence|intros l d Hin _; by apply Hf|].
  set (e1 := emits (pops_code base n fails) e) in *.
  destruct (binds_level (fst <$> List.filter (λ f, f.2 <=? base) fails) h e1 H1) as (I1 & I2 & I3).
  { intros l Hl. apply bound_in_binds, in_last_binds in Hl as (d & Hin & Hd). destruct (Hf l d Hin) as [Hb Ha]. unfold arrives_at in *. rewrite H2.
    by replace (h + (d - base)) with h in Ha by lia. }
  split_and!; [done|congruence|]. rewrite I3, H3. unfold arrives. rewrite H2. split.
  - intros [[?|(l & d & Hin & _ & Ha)]|(l & Hl & Ha)]; [congruence|by exists l, d|].
    apply bound_in_binds, in_last_binds in Hl as (d & Hin & _). by exists l, d.
  - intros (l & d & Hin & Ha). destruct (decide (d ≤ base)) as [Hd|Hd].
    + right. exists l. split; [|done]. apply bound_in_binds, in_last_binds. by exists d.
    + left. right. exists l, d. pose proof (max_depth_max base fails l d Hin). split_and!; [done|lia|unfold n; lia|done].
Qed.
End trampolines.

(** ** The tests *)

(** The value of a pinned name in a frame. *)
Definition pin_value `{!Program, !World} (outside : list Local_) (st : list Val) (res : option Res) (name : Symbol) : option Val :=
  match find_local outside name with
  | Some slot => slot_of st slot
  | None => match upvalue name with Some index => Some (upvalues index) | None => globals <$> value_def res end
  end.
(** The names of the compiler's own locals. *)
Definition is_hidden `{!HiddenNames} (name : Symbol) : Prop := name ∈ [BIND_PARENT; OR_BIND_SCRUT; BIND_SRC; SCRUTINEE; BIND_MATCHED].
#[export] Instance is_hidden_dec `{!HiddenNames} name : Decision (is_hidden name).
Proof. unfold is_hidden. apply _. Defined.
Definition well_labelled (e : CodeState) : Prop := ∀ l, arrives e l → l < next_label e.

Section tests.
Context {program : Program} {hidden : HiddenNames} {world : World}.
Context (outside : list Local_) (pin : option Res → Symbol → option Val).
Notation Fails := (list (nat * nat)) (only parsing).

(** The names from outside the pattern are in the frame. *)
Record agrees (st : list Val) : Prop := {
  ag_slots name slot : find_local outside name = Some slot → slot < length st;
  ag_value res name : ¬ is_hidden name → pin_value outside st res name = pin res name;
}.
Lemma agrees_push k st : agrees st → agrees (k ++ st).
Proof.
  intros [Hs Hv]. split.
  - intros name slot H%Hs. rewrite length_app. lia.
  - intros res name Hn. rewrite <-Hv by done. unfold pin_value. destruct (find_local outside name) as [slot|] eqn:E; [|done]. apply slot_of_app. by apply (Hs name).
Qed.

(** Where the code goes from a value. *)
Definition leads (base h : nat) (e' : CodeState) (fails : Fails) (code : list Instr) (v : Val) (st : list Val) (r : option bool) : Prop :=
  match r with
  | Some true => run code (At (v :: st)) = At (v :: st)
  | None => run code (At (v :: st)) = Confused
  | Some false => ∃ l d subs, (l, d) ∈ fails ∧ length subs = d - base ∧ run code (At (v :: st)) = To l (subs ++ v :: st) ∧
      arriving e' !! l = Some (h + (d - base))
  end.

(** What a test has done to the context, and what its code does. *)
Record tested (base : nat) (f : Val → option bool) (c c' : Ctx) (fails : Fails) : Prop := {
  te_rest : c' = with_emitter c (emitter c');
  te_next : next_label (emitter c) ≤ next_label (emitter c');
  te_labelled : well_labelled (emitter c');
  te_range l d : (l, d) ∈ fails → next_label (emitter c) ≤ l < next_label (emitter c') ∧ base ≤ d;
  te_once : NoDup (fails.*1);
  te_live : reachable (emitter c) = true → reachable (emitter c') = true ∧ height (emitter c') = height (emitter c) ∧
    ∀ l d, (l, d) ∈ fails → arrives_at (emitter c') l (height (emitter c) + (d - base));
  te_dead : reachable (emitter c) = false → reachable (emitter c') = false ∧ arriving (emitter c') = arriving (emitter c);
  te_old l : l < next_label (emitter c) → arriving (emitter c') !! l = arriving (emitter c) !! l;
  te_code : ∃ new, code (emitter c') = code (emitter c) ++ new ∧ binds_from (next_label (emitter c)) new ∧
    ∀ v st, reachable (emitter c) = true → agrees st → leads base (height (emitter c)) (emitter c') fails new v st (f v);
}.
Definition tests (base : nat) (m : Compile Fails) (f : Val → option bool) : Prop := ∀ c, locals_outside c = outside → well_labelled (emitter c) →
  ∃ c' fails, m c = Done fails c' ∧ tested base f c c' fails.

Lemma tests_ext base m f g : (∀ v, f v = g v) → tests base m f → tests base m g.
Proof.
  intros Hfg Hm c Hc Hw. destruct (Hm c Hc Hw) as (c' & fails & E & H). exists c', fails. split; [done|].
  destruct H as [? ? ? ? ? ? ? ? (new & ? & ? & Hrun)]. split; try done. exists new. split_and!; [done|done|]. intros v st Hlive Hst. rewrite <-Hfg. by apply Hrun.
Qed.
Lemma tests_same base m n f : (∀ c, m c = n c) → tests base n f → tests base m f.
Proof. intros Hmn Hn c Hc Hw. rewrite Hmn. by apply Hn. Qed.
Lemma tests_nil base : tests base (mret []) (λ _, Some true).
Proof.
  intros c Hc Hw. exists c, []. split; [done|]. split; [by destruct c|done|done|intros ? ? []%elem_of_nil|constructor| |done|done|].
  - intros Hr. split_and!; [done|done|intros ? ? []%elem_of_nil].
  - exists []. rewrite app_nil_r. split_and!; [done|intros ? []%elem_of_nil|done].
Qed.

(** A test that jumps where it fails. *)
Lemma tests_jump base (before : list Instr) f :
  (∀ e, reachable (emits before e) = reachable e ∧ height (emits before e) = S (height e) ∧ arriving (emits before e) = arriving e) →
  binds_from 0 before → (∀ l, not_bound l before) →
  (∀ v st, agrees st → run before (At (v :: st)) = match f v with Some b => At (VBool b :: v :: st) | None => Confused end) →
  tests base (λ c, (j ← jump_if_false; mret [(j, base)]) (with_emitter c (emits before (emitter c)))) f.
Proof.
  intros Hstatic _ Hnb Hrun c Hc Hw. destruct (emits_code before (emitter c)) as [Hcode Hnext]. destruct (Hstatic (emitter c)) as (Hr & Hh & Ha).
  set (e1 := emits before (emitter c)) in *. set (l0 := next_label e1) in *.
  exists (with_emitter c (emit_code (IJumpIfFalse l0) (fresh e1))), [(l0, base)]. split; [done|].
  assert (arriving e1 !! l0 = None) as Hfresh by (apply eq_None_not_Some; rewrite Ha; intros H%Hw; lia).
  assert (arriving (emit_code (IJumpIfFalse l0) (fresh e1)) = if reachable (emitter c) then <[l0 := height (emitter c)]> (arriving (emitter c)) else arriving (emitter c)) as Harr.
  { cbn. rewrite Hfresh, Hr, Ha, Hh. done. }
  assert (reachable (emit_code (IJumpIfFalse l0) (fresh e1)) = reachable (emitter c) ∧ height (emit_code (IJumpIfFalse l0) (fresh e1)) = height (emitter c)) as [Hr' Hh'].
  { cbn. by rewrite Hr, Hh. }
  split; cbn [emitter with_emitter].
  - done.
  - cbn. lia.
  - intros l Hl. unfold arrives in Hl. rewrite Harr in Hl. cbn. fold l0. destruct (reachable (emitter c)); [|by apply Hw in Hl; lia].
    destruct (decide (l = l0)) as [->|Hne]; [lia|]. rewrite lookup_insert_ne in Hl by done. apply Hw in Hl. lia.
  - intros l d [= -> ->]%list_elem_of_singleton. cbn. fold l0. lia.
  - apply NoDup_singleton.
  - intros Hlive. split_and!; [congruence|done|].
    intros l d [= -> ->]%list_elem_of_singleton. unfold arrives_at. rewrite Harr, Hlive, lookup_insert_eq. intros a [= <-]. lia.
  - intros Hdead. rewrite Harr, Hdead. split; [congruence|done].
  - intros l Hl. rewrite Harr. destruct (reachable (emitter c)); [|done]. rewrite lookup_insert_ne by lia. done.
  - exists (before ++ [IJumpIfFalse l0]). split_and!.
    + cbn. rewrite Hcode. by rewrite app_assoc.
    + intros l [H|H]%elem_of_app; [by apply Hnb in H|]. by apply list_elem_of_singleton in H.
    + intros v st Hlive Hst. specialize (Hrun v st Hst). unfold leads. rewrite run_app, Hrun.
      destruct (f v) as [[|]|]; [done| |done]. exists l0, base, []. split_and!; [left|cbn; lia|done|].
      rewrite Harr, Hlive, lookup_insert_eq. f_equal. lia.
Qed.
Lemma tests_one base t : tests base (test_one t base) (λ v, Some (holds t v)).
Proof.
  apply (tests_jump base [ITest t]).
  - intros e. done.
  - intros l Hl. lia.
  - intros l H. by apply list_elem_of_singleton in H.
  - done.
Qed.

Lemma tests_seq base m n f g : tests base m f → tests base n g → tests base (x ← m; y ← n; mret (x ++ y)) (λ v, and_then (f v) (g v)).
Proof.
  intros Hm Hn c Hc Hw. destruct (Hm c Hc Hw) as (c1 & F1 & E1 & T1). pose proof (te_rest _ _ _ _ _ T1) as R1.
  assert (locals_outside c1 = outside) as Hc1 by (rewrite R1; exact Hc).
  destruct (Hn c1 Hc1 (te_labelled _ _ _ _ _ T1)) as (c2 & F2 & E2 & T2). exists c2, (F1 ++ F2).
  split; [unfold mbind, compile_bind; by rewrite E1, E2|]. destruct T1 as [_ N1 _ G1 O1 L1 D1 K1 (new1 & C1 & B1 & X1)], T2 as [R2 N2 W2 G2 O2 L2 D2 K2 (new2 & C2 & B2 & X2)].
  split.
  - rewrite R2, R1. done.
  - lia.
  - done.
  - intros l d [H|H]%elem_of_app; [apply G1 in H|apply G2 in H]; lia.
  - rewrite fmap_app. apply NoDup_app. split_and!; [done| |done]. intros l ([? d] & -> & Hin1)%list_elem_of_fmap ([? d'] & E & Hin2)%list_elem_of_fmap.
    cbn in *. subst. apply G1 in Hin1. apply G2 in Hin2. lia.
  - intros Hlive. destruct (L1 Hlive) as (Hl1 & Hh1 & Ha1), (L2 Hl1) as (Hl2 & Hh2 & Ha2). split_and!; [done|congruence|].
    intros l d [H|H]%elem_of_app; [|rewrite <-Hh1; by apply Ha2]. unfold arrives_at. rewrite K2 by (apply G1 in H; lia). by apply Ha1.
  - intros Hdead. destruct (D1 Hdead) as [Hd1 Ha1], (D2 Hd1) as [Hd2 Ha2]. split; [done|congruence].
  - intros l Hl. rewrite K2 by lia. by apply K1.
  - exists (new1 ++ new2). rewrite C2, C1, app_assoc. split_and!; [done| |].
    + intros l [H|H]%elem_of_app; [by apply B1|]. apply B2 in H. lia.
    + intros v st Hlive Hst. specialize (X1 v st Hlive Hst). destruct (L1 Hlive) as (Hl1 & Hh1 & _). unfold leads in *. destruct (f v) as [[|]|] eqn:Ef; cbn [and_then].
      * specialize (X2 v st Hl1 Hst). unfold leads in X2. rewrite run_app, X1. destruct (g v) as [[|]|]; [done| |done].
        destruct X2 as (l & d & subs & Hin & Hlen & Hrun & Ha). exists l, d, subs. split_and!; [set_solver|done|done|].
        by rewrite <-Hh1.
      * destruct X1 as (l & d & subs & Hin & Hlen & Hrun & Ha). exists l, d, subs. split_and!; [set_solver|done| |].
        { rewrite run_app, Hrun. apply run_past. eapply binds_from_past; [exact B2|]. apply G1 in Hin. lia. }
        rewrite K2 by (apply G1 in Hin; lia). exact Ha.
      * by rewrite run_app, X1, run_confused.
Qed.

Lemma tests_seq3 base m n k f g h : tests base m f → tests base n g → tests base k h →
  tests base (x ← m; y ← n; z ← k; mret (x ++ y ++ z)) (λ v, and_then (f v) (and_then (g v) (h v))).
Proof.
  intros Hm Hn Hk. apply (tests_same base _ (x ← m; w ← (y ← n; z ← k; mret (y ++ z)); mret (x ++ w))); [|by apply tests_seq, tests_seq].
  intros c. unfold mbind, compile_bind. destruct (m c) as [x c1|]; [|done]. destruct (n c1) as [y c2|]; [|done]. by destruct (k c2).
Qed.

Lemma tests_part base d p m f : tests (S base) m f → tests base (test_part d p m) (λ v, part_test d p v f).
Proof.
  unfold test_part, part_test. destruct (irrefutable p); [intros _; apply tests_nil|]. intros Hm c Hc Hw.
  set (c1 := with_emitter c (emit_code (IDestruct d) (emitter c))).
  destruct (Hm c1 Hc Hw) as (c2 & F & E & [R N W G O L D K (new & C & B & X)]). cbn [c1 emitter with_emitter] in *.
  exists (with_emitter c2 (emit_code IPop (emitter c2))), F. split.
  { unfold mbind, compile_bind, emit, changed, mret, compile_ret. fold c1. by rewrite E. }
  split; cbn [emitter with_emitter].
  - rewrite R. done.
  - exact N.
  - exact W.
  - intros l d' H. apply G in H. cbn in *. lia.
  - done.
  - intros Hlive. destruct (L Hlive) as (Hl & Hh & Ha). split_and!; [exact Hl|cbn; rewrite Hh; done|]. intros l d' Hin.
    pose proof (G l d' Hin) as [_ ?]. unfold arrives_at. intros a E'. rewrite (Ha l d' Hin a E'). cbn. lia.
  - exact D.
  - exact K.
  - exists (IDestruct d :: new ++ [IPop]). split_and!.
    + cbn. rewrite C. cbn. by rewrite <-!app_assoc.
    + intros l [H|[H|H]%elem_of_app]%elem_of_cons; [done|by apply B|by apply list_elem_of_singleton in H].
    + intros v st Hlive Hst. unfold leads. rewrite run_cons. cbn [exec exec_at]. destruct (part d v) as [w|] eqn:Ed; [|cbn [mbind option_bind]; by rewrite run_confused].
      cbn [mbind option_bind]. rewrite run_app. specialize (X w (v :: st) Hlive (agrees_push [v] st Hst)). unfold leads in X. cbn in X.
      destruct (f w) as [[|]|]; [by rewrite X| |by rewrite X].
      destruct X as (l & d' & subs & Hin & Hlen & Hrun & Ha). pose proof (G l d' Hin) as [_ ?]. exists l, d', (subs ++ [w]).
      split_and!; [done|rewrite length_app; cbn; lia|rewrite Hrun, <-app_assoc; done|].
      etrans; [exact Ha|]. f_equal. lia.
Qed.

Lemma tests_each {A} base (m : nat → A → Compile Fails) (f : nat → A → Val → option bool) l : ∀ i, (∀ i a, a ∈ l → tests base (m i a) (f i a)) →
  tests base (each m i l) (λ v, all_parts (λ i a, f i a v) i l).
Proof.
  induction l as [|a l IH]; intros i H; [apply tests_nil|]. apply (tests_seq base (m i a) (each m (S i) l) (f i a)); [apply H; left|].
  apply IH. intros j b Hb. apply H. by right.
Qed.

Lemma tests_pin base res name : ¬ is_hidden name → is_Some (pin_source (mkCtx (mkCode [] 0 true ∅ 0) outside 0 [] None) res name) →
  tests base (compile_pattern_test_tracked (mkPattern res false (PPin name)) base) (λ v, w ← pin res name; equal v w).
Proof.
  intros Hn [read Hread]. assert (∀ c, locals_outside c = outside → pin_source c res name = Some read) as Hsource.
  { intros c Hc. unfold pin_source in *. rewrite Hc. cbn in Hread. unfold locals_outside in Hread. cbn in Hread. by rewrite firstn_all in Hread. }
  intros c Hc. pose proof (Hsource c Hc) as Hr.
  assert (compile_pattern_test_tracked (mkPattern res false (PPin name)) base c =
    (j ← jump_if_false; mret [(j, base)]) (with_emitter c (emits [IDup; read; IEq] (emitter c)))) as ->.
  { cbn [compile_pattern_test_tracked]. unfold mbind at 1 2 3, compile_bind at 1 2 3, emit at 1, changed at 1, look, tried.
    change (pin_source (id (with_emitter c (emit_code IDup (emitter c)))) res name) with (pin_source c res name). by rewrite Hr. }
  pose proof Hc as Hc0. revert Hc. apply (tests_jump base [IDup; read; IEq]).
  - intros e. unfold pin_source in Hr. unfold emits. cbn [foldl]. destruct (find_local _ name), (upvalue name), (value_def res); simplify_eq/=; done.
  - intros l Hl. lia.
  - intros l H. unfold not_bound in *. apply elem_of_cons in H as [?|[<-|[?|[]%elem_of_nil]%elem_of_cons]%elem_of_cons]; try done.
    unfold pin_source in Hr. destruct (find_local _ name), (upvalue name), (value_def res); simplify_eq/=.
  - intros v st Hst. rewrite run_cons. cbn [exec exec_at]. rewrite run_cons. cbn [exec].
    assert (exec_at read (v :: v :: st) = match pin res name with Some w => At (w :: v :: v :: st) | None => Confused end) as ->.
    { rewrite <-(ag_value _ Hst) by done. unfold pin_value, pin_source in *. rewrite Hc0 in Hr. destruct (find_local outside name) as [slot|] eqn:E.
      - injection Hr as <-. cbn. pose proof (ag_slots _ Hst name slot E). rewrite !slot_of_cons by (cbn; lia). done.
      - destruct (upvalue name); [by injection Hr as <-|]. destruct (value_def res); [by injection Hr as <-|done]. }
    destruct (pin res name) as [w|]; cbn [mbind option_bind]; [|by rewrite run_confused]. unfold run. cbn. destruct (equal v w); done.
Qed.

(** *** Alternatives *)

Lemma bind_facts l e : code (emit_code (IBind l) e) = code e ++ [IBind l] ∧ next_label (emit_code (IBind l) e) = next_label e ∧
  arriving (emit_code (IBind l) e) = arriving e.
Proof. cbn. by destruct (arriving e !! l). Qed.
Lemma bind_dead_arrived l e h : reachable e = false → arriving e !! l = Some h → reachable (emit_code (IBind l) e) = true ∧ height (emit_code (IBind l) e) = h.
Proof. intros Hr Ha. cbn. by rewrite Ha, Hr. Qed.
Lemma bind_not_arrived l e : arriving e !! l = None → reachable (emit_code (IBind l) e) = reachable e ∧ height (emit_code (IBind l) e) = height e.
Proof. intros Ha. cbn. by rewrite Ha. Qed.

(** A jump to a new label, where it can be reached. *)
Definition jump_code (e : CodeState) : list Instr := if reachable e then [IJump (next_label e)] else [].
Definition jumped (e : CodeState) : CodeState := if reachable e then emit_code (IJump (next_label e)) (fresh e) else fresh e.
Lemma jump_is c : jump c = Done (next_label (emitter c)) (with_emitter c (jumped (emitter c))).
Proof.
  unfold jump, look, jumped, mbind, compile_bind. cbn.
  destruct (reachable (emitter c)) eqn:E; unfold emit, changed, mret, compile_ret, fresh; cbn; by rewrite ?E.
Qed.
Lemma jumped_facts e : code (jumped e) = code e ++ jump_code e ∧ next_label (jumped e) = S (next_label e) ∧ reachable (jumped e) = false ∧ height (jumped e) = height e.
Proof.
  unfold jumped, jump_code. destruct (reachable e) eqn:E; cbn; [done|]. by rewrite app_nil_r.
Qed.
Lemma in_jump_code e i : i ∈ jump_code e → i = IJump (next_label e).
Proof. unfold jump_code. destruct (reachable e); [by intros ?%list_elem_of_singleton|by intros []%elem_of_nil]. Qed.
Lemma run_jump e st : reachable e = true → run (jump_code e) (At st) = To (next_label e) st.
Proof. unfold jump_code. by intros ->. Qed.
Lemma run_past_jump e l st : run (jump_code e) (To l st) = To l st.
Proof. apply run_past. by intros ?%in_jump_code. Qed.
Lemma jump_arriving e : well_labelled e → arriving (jumped e) = if reachable e then <[next_label e := height e]> (arriving e) else arriving e.
Proof.
  intros Hw. unfold jumped. destruct (reachable e) eqn:E; [|done]. cbn. rewrite E. assert (arriving e !! next_label e = None) as -> by (apply eq_None_not_Some; intros H%Hw; lia). done.
Qed.
Lemma jump_labelled e : well_labelled e → well_labelled (jumped e).
Proof.
  intros Hw l. unfold arrives. rewrite jump_arriving by done. destruct (jumped_facts e) as (_ & -> & _). destruct (reachable e); [|intros H%Hw; lia].
  destruct (decide (l = next_label e)) as [->|Hne]; [lia|]. rewrite lookup_insert_ne by done. intros H%Hw. lia.
Qed.

(** After the jump over it and the trampolines. *)
Lemma past_test base (m : Compile Fails) f c : tests base m f → locals_outside c = outside → well_labelled (emitter c) →
  ∃ c1 F, m c = Done F c1 ∧ tested base f c c1 F ∧
  let e2 := jumped (emitter c1) in
  ∀ G, (∀ l d, (l, d) ∈ G → (l, d) ∈ F) →
  let e3 := emits (trampolines G base) e2 in
    code e3 = code (emitter c1) ++ jump_code (emitter c1) ++ trampolines G base ∧ next_label e3 = S (next_label (emitter c1)) ∧
    well_labelled e3 ∧ arriving e3 = arriving e2 ∧
    (reachable (emitter c) = true → level e3 (height (emitter c)) ∧ (reachable e3 = true ↔ ∃ l d, (l, d) ∈ G ∧ arrives (emitter c1) l)) ∧
    (reachable (emitter c) = false → reachable e3 = false ∧ arriving e3 = arriving (emitter c)).
Proof.
  intros Hm Hc Hw. destruct (Hm c Hc Hw) as (c1 & F & E & T). exists c1, F. split_and!; [done|done|]. cbn zeta. intros G HG.
  destruct T as [_ N W R O L D K _]. set (e1 := emitter c1) in *. set (e2 := jumped e1). destruct (jumped_facts e1) as (Cj & Nj & Rj & _).
  destruct (emits_code (trampolines G base) e2) as [Hcode Hnext]. fold e2 in Cj, Nj, Rj.
  assert (arriving e2 = if reachable e1 then <[next_label e1 := height e1]> (arriving e1) else arriving e1) as Ha2 by (by apply jump_arriving).
  assert (∀ l d, (l, d) ∈ G → arriving e2 !! l = arriving e1 !! l) as Hsame.
  { intros l d H%HG. pose proof (R l d H) as [? _]. rewrite Ha2. destruct (reachable e1); [|done]. by rewrite lookup_insert_ne by lia. }
  destruct (trampolines_level base G (height (emitter c)) e2) as (Hlevel & Harr & Hreach); [done| |].
  { intros l d Hin. split; [by apply (R l d), HG|]. unfold arrives_at. rewrite (Hsame l d Hin). destruct (reachable (emitter c)) eqn:Er.
    - apply L; [done|by apply HG].
    - destruct (D eq_refl) as [_ ->]. intros a Ha. assert (arrives (emitter c) l) as H by (by exists a). apply Hw in H. pose proof (R l d (HG l d Hin)). lia. }
  split_and!.
  - by rewrite Hcode, Cj, <-app_assoc.
  - by rewrite Hnext.
  - intros l Hl. unfold arrives in Hl. rewrite Harr in Hl. rewrite Hnext. by apply (jump_labelled e1 W).
  - done.
  - intros Hlive. split; [done|]. rewrite Hreach. unfold arrives. split; intros (l & d & Hin & H); exists l, d; (split; [done|]); by rewrite (Hsame l d Hin) in *.
  - intros Hdead. destruct (D Hdead) as [Hd Ha]. split.
    + apply not_true_is_false. rewrite Hreach. intros (l & d & Hin & H). unfold arrives in H. rewrite (Hsame l d Hin), Ha in H.
      apply Hw in H. pose proof (R l d (HG l d Hin)). lia.
    + rewrite Harr, Ha2, Hd. done.
Qed.

Lemma in_filter (p : nat * nat → bool) (F : Fails) x : x ∈ List.filter p F ↔ x ∈ F ∧ p x = true.
Proof. by rewrite list_elem_of_In, filter_In, list_elem_of_In. Qed.
Lemma nodup_filter_labels (p : nat * nat → bool) (F : Fails) : NoDup (F.*1) → NoDup ((List.filter p F).*1).
Proof.
  induction F as [|[l d] F IH]; cbn; [done|]. intros [Hl Hnd]%NoDup_cons. destruct (p (l, d)); [|by apply IH]. cbn. constructor; [|by apply IH].
  intros ([l' d'] & -> & [H _]%in_filter)%list_elem_of_fmap. apply Hl, list_elem_of_fmap. by exists (l', d').
Qed.

Lemma tests_last base (m : Compile Fails) f : tests base m f → tests base (F ← m; last_alternative F base) f.
Proof.
  intros Hm c Hc Hw. destruct (past_test base m f c Hm Hc Hw) as (c1 & F & E & T & Hover).
  unfold mbind, compile_bind. rewrite E. unfold last_alternative. destruct (max_depth F base <=? base) eqn:Emax; [by exists c1, F|].
  set (deep := List.filter (λ x, base <? x.2) F). set (shallow := List.filter (λ x, x.2 <=? base) F).
  destruct (Hover deep) as (C3 & N3 & W3 & A3 & L3 & D3); [by intros l d [? _]%in_filter|]. pose proof T as [R1 N1 W1 G1 O1 L1 D1 K1 (new & C1 & B1 & X1)].
  set (e1 := emitter c1) in *. set (skip := next_label e1) in *. set (e2 := jumped e1) in *. set (e3 := emits (trampolines deep base) e2) in *.
  set (exit := next_label e3) in *. set (e4 := jumped e3). set (e5 := emit_code (IBind skip) e4).
  destruct (jumped_facts e3) as (C4 & N4 & R4 & H4). fold e4 in C4, N4, R4, H4.
  exists (with_emitter c e5), (shallow ++ [(exit, base)]). split.
  { unfold mbind, compile_bind, mret, compile_ret. rewrite jump_is. fold e1 skip e2. rewrite emit_trampolines_is. cbn [emitter with_emitter]. fold deep e3.
    rewrite jump_is. cbn [emitter with_emitter]. fold exit e4. unfold bind, emit, changed. cbn [emitter with_emitter]. fold e5. by rewrite R1. }
  assert (arriving e2 = if reachable e1 then <[skip := height e1]> (arriving e1) else arriving e1) as A2 by (by apply jump_arriving).
  assert (arriving e4 = if reachable e3 then <[exit := height e3]> (arriving e3) else arriving e3) as A4 by (by apply jump_arriving).
  destruct (bind_facts skip e4) as (Cb & Nb & A5). fold e5 in Cb, Nb, A5. assert (next_label e5 = S exit) as N5 by (by rewrite Nb).
  assert (code e5 = code e1 ++ jump_code e1 ++ trampolines deep base ++ jump_code e3 ++ [IBind skip]) as C5 by (by rewrite Cb, C4, C3, <-!app_assoc).
  assert (arriving e4 !! skip = arriving e2 !! skip) as A4s.
  { rewrite A4, A3. destruct (reachable e3); [|done]. apply lookup_insert_ne. lia. }
  assert (∀ l, l < skip → arriving e5 !! l = arriving e1 !! l) as Hsame.
  { intros l Hl. rewrite A5, A4, A3, A2. destruct (reachable e3), (reachable e1); by rewrite ?lookup_insert_ne by lia. }
  split; cbn [emitter with_emitter].
  - done.
  - lia.
  - intros l. unfold arrives. rewrite A5, N5. intros H. apply (jump_labelled e3 W3) in H. fold e4 in H. by rewrite N4 in H.
  - intros l d [[H _]%in_filter|[= -> ->]%list_elem_of_singleton]%elem_of_app; [apply G1 in H; lia|lia].
  - rewrite fmap_app. apply NoDup_app. split_and!; [by apply nodup_filter_labels| |apply NoDup_singleton].
    intros l ([l' d'] & -> & [H _]%in_filter)%list_elem_of_fmap Hl%list_elem_of_singleton. apply G1 in H. cbn in Hl. lia.
  - intros Hlive. destruct (L1 Hlive) as (Hl1 & Hh1 & Ha1), (L3 Hlive) as [Hlev _].
    assert (arriving e4 !! skip = Some (height (emitter c))) as Hskip by (rewrite A4s, A2, Hl1, lookup_insert_eq; by rewrite Hh1).
    destruct (bind_dead_arrived skip e4 (height (emitter c))) as [Hr5 Hh5]; [done|done|]. split_and!; [done|done|].
    intros l d [[H Hd]%in_filter|[= -> ->]%list_elem_of_singleton]%elem_of_app; unfold arrives_at.
    + rewrite Hsame by (apply G1 in H; lia). by apply Ha1.
    + rewrite A5, A4. destruct (reachable e3) eqn:E3.
      * rewrite lookup_insert_eq. intros a [= <-]. rewrite Hlev by done. lia.
      * intros a Ha. assert (arrives e3 exit) as H by (by exists a). apply W3 in H. lia.
  - intros Hdead. destruct (D1 Hdead) as [Hd1 Ha1], (D3 Hdead) as [Hd3 Ha3].
    assert (arriving e4 = arriving (emitter c)) as Ha4 by (by rewrite A4, Hd3). rewrite A5, Ha4. split; [|done].
    destruct (bind_not_arrived skip e4) as [Hr5 _]; [|by unfold e5; rewrite Hr5]. rewrite A4s, A2, Hd1. apply eq_None_not_Some. intros H%W1. lia.
  - intros l Hl. rewrite Hsame by lia. by apply K1.
  - exists (new ++ jump_code e1 ++ trampolines deep base ++ jump_code e3 ++ [IBind skip]). split_and!.
    + rewrite C5, C1. by rewrite <-app_assoc.
    + intros l [H|[H|[H|[H|H]%elem_of_app]%elem_of_app]%elem_of_app]%elem_of_app; [by apply B1|by apply in_jump_code in H| |by apply in_jump_code in H|].
      * apply in_trampolines in H. apply list_elem_of_fmap in H as ([l' d'] & -> & [H _]%in_filter). apply G1 in H. cbn. lia.
      * apply list_elem_of_singleton in H. injection H as ->. lia.
    + intros v st Hlive Hst. specialize (X1 v st Hlive Hst). destruct (L1 Hlive) as (Hl1 & _), (L3 Hlive) as [Hlev Hreach]. unfold leads in *. rewrite run_app. destruct (f v) as [[|]|]; [rewrite X1| |by rewrite X1, run_confused].
      * rewrite run_app, (run_jump e1) by done. rewrite run_app, run_past.
        { rewrite run_app, run_past_jump. unfold run. cbn. fold skip. by rewrite Nat.eqb_refl. }
        intros H%in_trampolines. apply list_elem_of_fmap in H as ([l' d'] & El & [H _]%in_filter). cbn in El. apply G1 in H. lia.
      * destruct X1 as (l & d & subs & Hin & Hlen & Hrun & Ha). pose proof (G1 l d Hin) as [Hl Hd]. rewrite Hrun, run_app, run_past_jump, run_app.
        destruct (decide (d ≤ base)) as [Hle|Hgt].
        -- exists l, d, subs. split_and!.
           ++ apply elem_of_app. left. apply in_filter. split; [done|]. by apply Nat.leb_le.
           ++ done.
           ++ rewrite run_past.
              { rewrite run_app, run_past_jump. unfold run. cbn. destruct (Nat.eqb_spec skip l); [lia|done]. }
              intros H%in_trampolines. apply list_elem_of_fmap in H as ([l' d'] & El & [H Hd']%in_filter). cbn in El, Hd'. subst l'.
              apply Nat.ltb_lt in Hd'. pose proof (same_label F l d d' O1 Hin H). lia.
           ++ rewrite Hsame by lia. exact Ha.
        -- assert ((l, d) ∈ deep) as Hdeep by (apply in_filter; split; [done|]; apply Nat.ltb_lt; cbn; lia).
           rewrite (run_trampolines base deep l d) by (done || by apply nodup_filter_labels).
           assert (reachable e3 = true) as E3 by (apply Hreach; exists l, d; split; [done|]; unfold arrives; by rewrite Ha).
           exists exit, base, []. split_and!; [set_solver|cbn; lia| |].
           ++ rewrite run_app, run_jump by done. unfold run. cbn. fold exit. destruct (Nat.eqb_spec skip exit); [lia|done].
           ++ rewrite A5, A4, E3, lookup_insert_eq. f_equal. rewrite Hlev by done. lia.
Qed.

(** The alternatives before their ends are bound. *)
Record alternated (base : nat) (f : Val → option bool) (c c' : Ctx) (fails : Fails) (ends : list nat) : Prop := {
  al_rest : c' = with_emitter c (emitter c');
  al_next : next_label (emitter c) ≤ next_label (emitter c');
  al_labelled : well_labelled (emitter c');
  al_range l d : (l, d) ∈ fails → next_label (emitter c) ≤ l < next_label (emitter c') ∧ base ≤ d;
  al_once : NoDup (fails.*1);
  al_ends l : l ∈ ends → next_label (emitter c) ≤ l < next_label (emitter c') ∧ ∀ d, (l, d) ∉ fails;
  al_live : reachable (emitter c) = true → level (emitter c') (height (emitter c)) ∧ (∀ l, l ∈ ends → arrives_at (emitter c') l (height (emitter c))) ∧
    (reachable (emitter c') = true ∨ ∃ l, l ∈ ends ∧ arrives (emitter c') l) ∧
    ∀ l d, (l, d) ∈ fails → arrives_at (emitter c') l (height (emitter c) + (d - base));
  al_dead : reachable (emitter c) = false → reachable (emitter c') = false ∧ arriving (emitter c') = arriving (emitter c);
  al_old l : l < next_label (emitter c) → arriving (emitter c') !! l = arriving (emitter c) !! l;
  al_code : ∃ new, code (emitter c') = code (emitter c) ++ new ∧ binds_from (next_label (emitter c)) new ∧
    ∀ v st, reachable (emitter c) = true → agrees st → match f v with
                        | Some true => run new (At (v :: st)) = At (v :: st) ∨ ∃ l, l ∈ ends ∧ run new (At (v :: st)) = To l (v :: st)
                        | r => leads base (height (emitter c)) (emitter c') fails new v st r
                        end;
}.

Lemma alternatives_alternate base (test : Pattern → Compile Fails) (f : Pattern → Val → option bool) alts : alts ≠ [] →
  (∀ p, p ∈ alts → tests base (test p) (f p)) → ∀ c, locals_outside c = outside → well_labelled (emitter c) →
  ∃ c' fails ends, test_alternatives test base alts c = Done (fails, ends) c' ∧ alternated base (λ v, some_alternative (λ p, f p v) alts) c c' fails ends.
Proof.
  induction alts as [|alt alts IH]; [done|]. intros _ Htests c Hc Hw.
  pose proof (Htests alt ltac:(left)) as Halt. destruct alts as [|alt2 alts].
  - destruct (tests_last base _ _ Halt c Hc Hw) as (c' & fails & E & [R N W G O L D K (new & C & B & X)]).
    exists c', fails, []. split.
    { cbn [test_alternatives]. unfold mbind, compile_bind in *. destruct (test alt c) as [F c1|]; [|done]. by rewrite E. }
    split; try done.
    + intros l []%elem_of_nil.
    + intros Hlive. destruct (L Hlive) as (Hl & Hh & Ha). split_and!; [by intros _|intros l []%elem_of_nil|by left|done].
    + exists new. split_and!; [done|done|]. intros v st Hlive Hst. specialize (X v st Hlive Hst). cbn [some_alternative].
      destruct (f alt v) as [[|]|]; [by left|done|done].
  - destruct (past_test base _ _ c Halt Hc Hw) as (c1 & F & E & [R1 N1 W1 G1 O1 L1 D1 K1 (new1 & C1 & B1 & X1)] & Hover).
    destruct (Hover F) as (C3 & N3 & W3 & A3 & L3 & D3); [done|]. clear Hover.
    set (success := next_label (emitter c1)) in *. set (e2 := jumped (emitter c1)) in *. set (e3 := emits (trampolines F base) e2) in *.
    destruct (IH ltac:(done) (λ p Hp, Htests p ltac:(by right)) (with_emitter c e3) Hc W3) as (c' & fails & ends & E' & [R N W G O S L D K (new & C & B & X)]).
    clear IH. cbn [emitter with_emitter] in *.
    assert (arriving e3 = if reachable (emitter c1) then <[success := height (emitter c1)]> (arriving (emitter c1)) else arriving (emitter c1)) as A2.
    { rewrite A3. by apply jump_arriving. }
    exists c', fails, (success :: ends). split.
    { change (test_alternatives test base (alt :: alt2 :: alts) c) with
        ((fails ← test alt; success ← jump; emit_trampolines fails base;; r ← test_alternatives test base (alt2 :: alts); mret (r.1, success :: r.2)) c).
      unfold mbind, compile_bind in *. rewrite E, jump_is, emit_trampolines_is. cbn [emitter with_emitter]. fold success e2 e3.
      rewrite R1. rewrite !with_emitter_twice. rewrite E'. done. }
    assert (∀ l, l < success → arriving (emitter c') !! l = arriving (emitter c1) !! l) as Hsame.
    { intros l Hl. rewrite K by lia. rewrite A2. destruct (reachable (emitter c1)); [|done]. by rewrite lookup_insert_ne by lia. }
    split.
    + exact R.
    + lia.
    + done.
    + intros l d H%G. lia.
    + done.
    + intros l [->|H]%elem_of_cons; [|apply S in H as [? ?]; split; [lia|done]]. split; [lia|]. intros d H%G. lia.
    + intros Hlive. destruct (L1 Hlive) as (Hl1 & Hh1 & _), (L3 Hlive) as [Hlev _].
      assert (arriving (emitter c') !! success = Some (height (emitter c))) as Hsucc by (rewrite K, A2, Hl1, lookup_insert_eq by lia; by rewrite Hh1).
      assert (∀ l h, next_label e3 ≤ l → reachable e3 = false → arrives_at (emitter c') l h) as Hnone.
      { intros l h Hl Hr a. destruct (D Hr) as [_ ->]. intros Ha. assert (arrives e3 l) as H by (by exists a). apply W3 in H. lia. }
      destruct (reachable e3) eqn:Er.
      * destruct (L eq_refl) as (H1 & H2 & _ & H3). rewrite Hlev in * by done. split_and!; [done| |right; exists success; split; [left|by eexists]|done].
        intros l [->|Hl]%elem_of_cons; [|by apply H2]. intros a Ha. congruence.
      * destruct (D eq_refl) as [Hd _]. split_and!; [intros ?; congruence| |right; exists success; split; [left|by eexists]|].
        -- intros l [->|Hl]%elem_of_cons; [intros a Ha; congruence|]. apply Hnone; [|done]. apply S in Hl. lia.
        -- intros l d Hl. apply Hnone; [|done]. apply G in Hl. lia.
    + intros Hdead. destruct (D3 Hdead) as [Hr Ha], (D Hr) as [Hr' Ha']. split; [done|congruence].
    + intros l Hl. rewrite Hsame by lia. by apply K1.
    + exists (new1 ++ (jump_code (emitter c1) ++ trampolines F base) ++ new). split_and!.
      * rewrite C, C3, C1. by rewrite <-!app_assoc.
      * intros l [H|[[H|H]%elem_of_app|H]%elem_of_app]%elem_of_app; [by apply B1|by apply in_jump_code in H| |apply B in H; lia].
        apply in_trampolines in H. apply list_elem_of_fmap in H as ([l' d'] & -> & H). apply G1 in H. cbn. lia.
      * intros v st Hc' Hst. specialize (X1 v st Hc' Hst). destruct (L1 Hc') as (Hl1 & _), (L3 Hc') as [Hlev Hreach]. unfold leads in X1 |- *.
        change (some_alternative (λ p, f p v) (alt :: alt2 :: alts)) with (match f alt v with Some false => some_alternative (λ p, f p v) (alt2 :: alts) | r => r end).
        destruct (f alt v) as [[|]|].
        -- right. exists success. split; [left|]. rewrite run_app, X1, run_app, (run_app (jump_code (emitter c1))), run_jump by done. fold success. rewrite run_past.
           { apply run_past. eapply binds_from_past; [exact B|lia]. }
           intros H%in_trampolines. apply list_elem_of_fmap in H as ([l' d'] & El & H). cbn in El. apply G1 in H. lia.
        -- destruct X1 as (l & d & subs & Hin & Hlen & Hrun & Ha). pose proof (G1 l d Hin) as [Hl Hd].
           assert (run (new1 ++ (jump_code (emitter c1) ++ trampolines F base) ++ new) (At (v :: st)) = run new (At (v :: st))) as ->.
           { rewrite run_app, Hrun, run_app, (run_app (jump_code (emitter c1))), run_past_jump. by rewrite (run_trampolines base F l d) by done. }
           assert (reachable e3 = true) as Hr by (apply Hreach; exists l, d; split; [done|by eexists]). pose proof (Hlev Hr) as Hh.
           specialize (X v st Hr Hst). unfold leads in X. destruct (some_alternative _ (alt2 :: alts)) as [[|]|]; [| |exact X].
           ++ destruct X as [X|(l' & Hl' & X)]; [by left|right]. exists l'. split; [by right|done].
           ++ unfold leads in *. destruct X as (l' & d' & subs' & Hin' & Hlen' & Hrun' & Ha'). exists l', d', subs'. split_and!; [done|done|done|].
              by rewrite <-Hh.
        -- by rewrite run_app, X1, run_confused.
Qed.

Lemma tests_or base (test : Pattern → Compile Fails) (f : Pattern → Val → option bool) alts : alts ≠ [] → (∀ p, p ∈ alts → tests base (test p) (f p)) →
  tests base (r ← test_alternatives test base alts; bind_all r.2;; mret r.1) (λ v, some_alternative (λ p, f p v) alts).
Proof.
  intros Hne Htests c Hc Hw. destruct (alternatives_alternate base test f alts Hne Htests c Hc Hw) as (c1 & fails & ends & E & [R N W G O S L D K (new & C & B & X)]).
  set (e2 := emits (IBind <$> ends) (emitter c1)). destruct (emits_code (IBind <$> ends) (emitter c1)) as [Hcode Hnext]. fold e2 in Hcode, Hnext.
  exists (with_emitter c e2), fails. split.
  { unfold mbind, compile_bind in *. rewrite E. cbn [fst snd]. rewrite bind_all_is. fold e2. by rewrite R at 1. }
  assert (arriving e2 = arriving (emitter c1) ∧ (reachable (emitter c) = true → reachable e2 = true ∧ height e2 = height (emitter c)) ∧
    (reachable (emitter c) = false → reachable e2 = false)) as (A2 & L2 & D2).
  { destruct (reachable (emitter c)) eqn:Er.
    - destruct (L eq_refl) as (H1 & H2 & H3 & _). destruct (binds_level ends _ _ H1 H2) as (I1 & I2 & I3). fold e2 in I1, I2, I3.
      split_and!; [done| |done]. intros _. assert (reachable e2 = true) as H by (by apply I3). by split; [|apply I1].
    - destruct (D eq_refl) as [Hd Ha]. assert (∀ l, l ∈ ends → ¬ arrives (emitter c1) l) as Hnone.
      { intros l Hl H. unfold arrives in H. rewrite Ha in H. apply Hw in H. apply S in Hl. lia. }
      destruct (binds_level ends 0 (emitter c1)) as (I1 & I2 & I3); [intros H; congruence| |].
      { intros l Hl a Ha'. destruct (Hnone l Hl). by exists a. }
      fold e2 in I1, I2, I3. split_and!; [done|done|]. intros _. apply not_true_is_false. rewrite I3. intros [H|(l & Hl & H)]; [congruence|by apply (Hnone l)]. }
  split; cbn [emitter with_emitter].
  - done.
  - lia.
  - intros l. unfold arrives. rewrite A2, Hnext. apply W.
  - rewrite Hnext. exact G.
  - done.
  - intros Hlive. destruct (L2 Hlive) as [? ?], (L Hlive) as (_ & _ & _ & Ha). split_and!; [done|done|]. unfold arrives_at. rewrite A2. exact Ha.
  - intros Hdead. rewrite A2. split; [by apply D2|by apply D].
  - rewrite A2. exact K.
  - exists (new ++ (IBind <$> ends)). rewrite Hcode, C, app_assoc. split_and!; [done| |].
    + intros l [H|H%bound_in_binds]%elem_of_app; [by apply B|]. apply S in H. lia.
    + intros v st Hlive Hst. specialize (X v st Hlive Hst). unfold leads in *. rewrite run_app. destruct (some_alternative _ alts) as [[|]|].
      * destruct X as [->|(l & Hl & ->)]; [apply run_binds_at|by apply run_binds_to].
      * destruct X as (l & d & subs & Hin & Hlen & -> & Ha). exists l, d, subs. rewrite A2. split_and!; [done|done| |done].
        apply run_past. intros H%bound_in_binds. apply S in H as [_ H]. by apply (H d).
      * by rewrite X, run_confused.
Qed.

(** ** Every pattern *)
Definition pinned (res : option Res) (name : Symbol) : bool := negb (bool_decide (is_hidden name)) && is_there (pin_source (mkCtx (mkCode [] 0 true ∅ 0) outside 0 [] None) res name).
Lemma forallb_elem {A} (g : A → bool) l x : forallb g l = true → x ∈ l → g x = true.
Proof. intros H Hx. rewrite forallb_forall in H. apply H. by apply list_elem_of_In. Qed.
Lemma tests_tried {A} base why (x : option A) (m : A → Compile Fails) (f : A → Val → option bool) : is_there x = true → (∀ a, tests base (m a) (f a)) →
  tests base (a ← tried why x; m a) (λ v, a ← x; f a v).
Proof. intros Hx H. destruct x as [a|]; [|done]. apply H. Qed.

Lemma compile_test_tests p : ∀ base, resolved pinned p = true → tests base (compile_pattern_test_tracked p base) (pattern_test pin p).
Proof.
  induction p as [res irr k IH] using Pattern_ind'. intros base Hp. destruct irr; [apply tests_nil|].
  assert (∀ d q, resolved pinned q = true → (resolved pinned q = true → tests (S base) (compile_pattern_test_tracked q (S base)) (pattern_test pin q)) →
    tests base (test_part d q (compile_pattern_test_tracked q (S base))) (λ v, part_test d q v (pattern_test pin q))) as Hpart.
  { intros d q Hq Hi. by apply tests_part, Hi. }
  assert (∀ (dest : Symbol → Destruct) fields, Forall (λ f, ∀ q, f.2 = Some q → ∀ base, resolved pinned q = true →
      tests base (compile_pattern_test_tracked q base) (pattern_test pin q)) fields →
    forallb (λ f : Symbol * option Pattern, match f.2 with Some q => resolved pinned q | None => true end) fields = true →
    tests base (each (λ _ f, match f.2 with Some q => test_part (dest f.1) q (compile_pattern_test_tracked q (S base)) | None => mret [] end) 0 fields)
      (λ v, all_parts (λ _ f, match f.2 with Some q => part_test (dest f.1) q v (pattern_test pin q) | None => Some true end) 0 fields)) as Hfields.
  { intros dest fields IHf Hf. apply tests_each. intros i [name [q|]] Hin; cbn [fst snd]; [|apply tests_nil]. rewrite Forall_forall in IHf.
    pose proof (forallb_elem _ _ _ Hf Hin) as Hq. apply Hpart; [done|]. by apply (IHf _ Hin). }
  destruct k as [| |n|bits|b|s|pats|q n args|m n fields r|fields r|pats rest|alts|lo hi|lo hi|entries|name].
  - apply tests_nil.
  - apply tests_nil.
  - apply (tests_one base (TestEqual (VInt n))).
  - cbn in Hp. cbn [compile_pattern_test_tracked pattern_test]. unfold float_constant. destruct (float_new (Z.of_N bits)) as [f|]; [|done]. apply (tests_one base (TestEqual (VFloat f))).
  - apply (tests_one base (TestEqual (VBool b))).
  - apply (tests_one base (TestEqual (VString s))).
  - apply tests_seq; [apply tests_one|]. apply tests_each. intros i p Hin. rewrite Forall_forall in IH. apply Hpart; [by apply (forallb_elem _ pats)|by apply IH].
  - cbn in Hp. apply andb_true_iff in Hp as [Ht Hp]. apply tests_tried; [done|]. intros tag. apply tests_seq; [apply tests_one|].
    apply tests_each. intros i p Hin. rewrite Forall_forall in IH. apply Hpart; [by apply (forallb_elem _ args)|by apply IH].
  - cbn in Hp. apply andb_true_iff in Hp as [Ht Hp]. cbn [compile_pattern_test_tracked pattern_test]. destruct n as [n|].
    + cbn [pattern_record_type]. destruct (record_type res n) as [ty|]; [|done].
      apply (tests_seq base (test_one (TestRecordTag (rt_id ty)) base)); [apply tests_one|by apply (Hfields (λ f, destruct_field (field_read (Some ty) f)))].
    + apply (tests_seq base (mret [])); [apply tests_nil|by apply (Hfields (λ f, destruct_field (field_read None f)))].
  - by apply (Hfields DestructRecordFieldNamed).
  - destruct IH as [IH IHr]. cbn in Hp. apply andb_true_iff in Hp as [Hp Hr]. cbn [compile_pattern_test_tracked pattern_test].
    apply tests_seq3; [apply tests_one| |].
    + apply tests_each. intros i p Hin. rewrite Forall_forall in IH. apply Hpart; [by apply (forallb_elem _ pats)|by apply IH].
    + destruct rest as [p|]; [|apply tests_nil]. apply Hpart; [done|by apply IHr].
  - cbn in Hp. destruct alts as [|first others] eqn:Ea; [done|]. rewrite <-Ea in *. apply andb_true_iff in Hp as [Hp _].
    apply (tests_or base (λ p, compile_pattern_test_tracked p base) (pattern_test pin)); [by subst|]. intros p Hin. rewrite Forall_forall in IH.
    apply IH; [done|by apply (forallb_elem _ alts)].
  - apply (tests_one base (TestIntRange lo hi)).
  - cbn in Hp. apply andb_true_iff in Hp as [Hlo Hhi]. cbn [compile_pattern_test_tracked pattern_test]. destruct (float_new (Z.of_N lo)) as [f|]; [|done].
    destruct (float_new (Z.of_N hi)) as [g|]; [|done]. apply (tests_one base (TestFloatRange f g)).
  - cbn in Hp. apply tests_each. intros i [key p] Hin. rewrite Forall_forall in IH. apply tests_seq; [apply (tests_one base (TestMapHasKey key))|].
    apply Hpart; [by apply (forallb_elem _ _ _ Hp Hin)|by apply (IH _ Hin)].
  - cbn in Hp. unfold pinned, is_there in Hp. apply andb_true_iff in Hp as [Hn%negb_true_iff%bool_decide_eq_false Hp]. apply tests_pin; [done|]. by destruct (pin_source _ res name) as [i|] eqn:E.
Qed.
End tests.
