(* ===== verification/PatternBind.v ===== *)
(** * What the code that binds a pattern's names does
      (src/compiler/patterns.rs)

    The values a pattern's names stand for ([pattern_binds]), and that the
    code leaves each of them in the slot of a local of that name, the local
    the name then means. *)

From S2P Require Import Prelude Float Tree PatternCode PatternFacts.
Open Scope nat_scope.

(** ** What is meant *)
Notation Binds := (list (Symbol * Val)) (only parsing).
Definition value_of (b : Binds) (name : Symbol) : option Val := snd <$> last (List.filter (λ x, (x.1 =? name)%N) b).

Definition values_of (b : Binds) (names : list Symbol) : Binds := omap (λ name, pair name <$> value_of b name) names.

Section meaning.
Context {program : Program} {world : World} (pin : option Res → Symbol → option Val).

Definition part_binds (d : Destruct) (p : Pattern) (v : Val) (binds : Val → option Binds) : option Binds :=
  if pattern_has_bindings p then w ← part d v; binds w else Some [].
Definition name_binds (d : Destruct) (name : Symbol) (v : Val) : option Binds := w ← part d v; Some [(name, w)].
Definition all_binds {A} (f : nat → A → option Binds) : nat → list A → option Binds :=
  fix all_binds (i : nat) (l : list A) : option Binds := match l with [] => Some [] | a :: l => x ← f i a; y ← all_binds (S i) l; Some (x ++ y) end.
(** The alternative that matches; the last is not asked. *)
Definition chosen {A} (test : Pattern → option bool) (f : Pattern → option A) : list Pattern → option A :=
  fix chosen (l : list Pattern) : option A :=
    match l with
    | [] => None
    | p :: l =>
        match l with
        | [] => f p
        | _ => t ← test p; if t : bool then f p else chosen l
        end
    end.

(** The names of a pattern with their values. *)
Fixpoint pattern_binds (p : Pattern) (v : Val) : option Binds :=
  match p with
  | mkPattern res _ k =>
      match k with
      | PIdent name => Some [(name, v)]
      | PConstructor _ _ args => all_binds (λ i p, part_binds (DestructVariant i) p v (pattern_binds p)) 0 args
      | PTuple pats => all_binds (λ i p, part_binds (DestructTuple i) p v (pattern_binds p)) 0 pats
      | PList pats rest =>
          x ← all_binds (λ i p, part_binds (DestructList i) p v (pattern_binds p)) 0 pats;
          y ← match rest with Some p => part_binds (DestructListRest (length pats)) p v (pattern_binds p) | None => Some [] end;
          Some (x ++ y)
      | PRecord _ name fields _ =>
          ty ← match name with Some name => Some <$> record_type res name | None => Some None end;
          all_binds (λ _ f, let d := destruct_field (field_read ty f.1) in
                            match f.2 with Some p => part_binds d p v (pattern_binds p) | None => name_binds d f.1 v end) 0 fields
      | PAnonRecord fields rest =>
          x ← all_binds (λ _ f, let d := DestructRecordFieldNamed f.1 in
                                match f.2 with Some p => part_binds d p v (pattern_binds p) | None => name_binds d f.1 v end) 0 fields;
          y ← match rest with Some name => w ← record_rest (fst <$> fields) v; Some [(name, w)] | None => Some [] end;
          Some (x ++ y)
      | PMap entries => all_binds (λ _ e, part_binds (DestructMapValue e.1) e.2 v (pattern_binds e.2)) 0 entries
      | POr alts =>
          match alts with
          | [] => Some []
          | first :: others =>
              match pattern_binding_names first, others with
              | [], _ => Some []
              | _, [] => pattern_binds first v
              | names, _ =>
                  b ← chosen (λ p, pattern_test pin p v) (λ p, pattern_binds p v) alts;
                  Some (values_of b names)
              end
          end
      | PWildcard | PInt _ | PFloat _ | PBool _ | PStringLit _ | PRange _ _ | PFloatRange _ _ | PPin _ => Some []
      end
  end.
End meaning.

(** ** Locals and values *)
Lemma find_local_app a b name : find_local (a ++ b) name = match find_local b name with Some slot => Some slot | None => find_local a name end.
Proof. unfold find_local. rewrite List.filter_app, last_app. by destruct (last _). Qed.
Lemma find_local_slot ls name slot : find_local ls name = Some slot → ∃ l, l ∈ ls ∧ l_name l = name ∧ l_slot l = slot.
Proof.
  unfold find_local. destruct (last _) as [l|] eqn:E; [|done]. intros [= <-]. apply last_Some_elem_of in E. apply list_elem_of_In, filter_In in E as [Hin E%N.eqb_eq].
  exists l. split_and!; [by apply list_elem_of_In|done|done].
Qed.
Lemma value_of_app a b name : value_of (a ++ b) name = match value_of b name with Some v => Some v | None => value_of a name end.
Proof. unfold value_of. rewrite List.filter_app, last_app. by destruct (last _). Qed.
Lemma value_of_one n v name : value_of [(n, v)] name = if (n =? name)%N then Some v else None.
Proof. unfold value_of. cbn. by destruct (n =? name)%N. Qed.
Lemma value_of_values b names name : value_of (values_of b names) name = if decide (name ∈ names) then value_of b name else None.
Proof.
  induction names as [|n names IH]; [done|]. unfold values_of in *. cbn [omap list_omap]. destruct (value_of b n) as [w|] eqn:Ew; cbn [fmap option_fmap option_map].
  - change ((n, w) :: ?l) with ([(n, w)] ++ l). rewrite value_of_app, IH, value_of_one. destruct (N.eqb_spec n name) as [->|Hne].
    + rewrite (decide_True (P := name ∈ name :: names)) by left. rewrite Ew. by destruct (decide _).
    + destruct (decide (name ∈ names)) as [Hin|Hin].
      * rewrite decide_True by by right. by destruct (value_of b name).
      * rewrite decide_False; [done|]. intros [->|]%elem_of_cons; done.
  - rewrite IH. destruct (decide (name ∈ names)) as [Hin|Hin]; [by rewrite decide_True by by right|]. destruct (decide (name ∈ n :: names)) as [[->|]%elem_of_cons|]; done.
Qed.
Lemma find_local_some ls l : l ∈ ls → is_Some (find_local ls (l_name l)).
Proof.
  intros H. unfold find_local. destruct (last _) as [l'|] eqn:E; [done|]. apply last_None in E. assert (l ∈ List.filter (λ l', (l_name l' =? l_name l)%N) ls) as Hin; [|rewrite E in Hin; by apply elem_of_nil in Hin].
  apply list_elem_of_In, filter_In. split; [by apply list_elem_of_In|apply N.eqb_refl].
Qed.
Lemma find_local_one n d s name : find_local [mkLocal n d s] name = if (n =? name)%N then Some s else None.
Proof. unfold find_local. cbn. by destruct (n =? name)%N. Qed.

Section binding.
Context {program : Program} {hidden : HiddenNames} {world : World}.
Context (floor : nat) (outside : list Local_) (pin : option Res → Symbol → option Val).
Notation Agrees := (agrees outside pin).

(** A context in which names are bound: a pin means what is outside. *)
Record binding (c : Ctx) : Prop := {
  bi_floor : pattern_floor c = Some floor;
  bi_below : floor ≤ length (locals c);
  bi_outside : locals_outside c = outside;
  bi_labelled : well_labelled (emitter c);
}.

(** What a binding has done to the context, and what its code does: values
    are pushed, and each name is a local with its value. *)
Record bound (Q : list Val → Prop) (vars : list Symbol) (g : list Val → option Binds) (c c' : Ctx) : Prop := {
  bd_next : next_label (emitter c) ≤ next_label (emitter c');
  bd_labelled : well_labelled (emitter c');
  bd_live : reachable (emitter c) = true → reachable (emitter c') = true ∧ height (emitter c) ≤ height (emitter c');
  bd_dead : reachable (emitter c) = false → reachable (emitter c') = false ∧ arriving (emitter c') = arriving (emitter c);
  bd_old l : l < next_label (emitter c) → arriving (emitter c') !! l = arriving (emitter c) !! l;
  bd_code : ∃ more new, c' = mkCtx (emitter c') (locals c ++ more) (scope_depth c) (scope_starts c) (pattern_floor c) ∧
    (∀ name, name ∈ vars → is_Some (find_local more name)) ∧ (∀ l, l ∈ more → l_depth l = scope_depth c) ∧
    code (emitter c') = code (emitter c) ++ new ∧ binds_from (next_label (emitter c)) new ∧
    ∀ st, Q st → reachable (emitter c) = true → height (emitter c) = length st →
      match g st with
      | None => run new (At st) = Confused
      | Some b => ∃ k, run new (At st) = At (k ++ st) ∧ height (emitter c') = length k + length st ∧
          (∀ l, l ∈ more → length st ≤ l_slot l < length k + length st) ∧
          ∀ name, ¬ is_hidden name → env_of more (k ++ st) name = value_of b name
      end;
}.
Definition binds_as (Q : list Val → Prop) (vars : list Symbol) (g : list Val → option Binds) (m : Compile unit) : Prop :=
  ∀ c, binding c → ∃ c', m c = Done tt c' ∧ bound Q vars g c c'.

Lemma bound_binding Q vars g c c' : binding c → bound Q vars g c c' → binding c'.
Proof.
  intros [Hf Hb Ho Hw] [_ W _ _ _ (more & new & R & _)]. split; [by rewrite R| | |done].
  - rewrite R. cbn. rewrite length_app. lia.
  - rewrite R. unfold locals_outside in *. cbn. rewrite Hf in *. cbn in *. by rewrite take_app_le.
Qed.

(** The same but for names that are not written, and fewer names. *)
Definition same_binds (a b : option Binds) : Prop :=
  match a, b with Some x, Some y => ∀ name, ¬ is_hidden name → value_of x name = value_of y name | None, None => True | _, _ => False end.
Lemma same_refl a : same_binds a a.
Proof. by destruct a. Qed.
Lemma binds_weaken (Q Q' : list Val → Prop) vars vars' g g' m : (∀ st, Q' st → Q st) → (∀ name, name ∈ vars' → name ∈ vars) →
  (∀ st, Q' st → same_binds (g st) (g' st)) → binds_as Q vars g m → binds_as Q' vars' g' m.
Proof.
  intros HQ Hv Hg Hm c Hc. destruct (Hm c Hc) as (c' & E & [N W L D K (more & new & R & V & P & C & B & X)]). exists c'. split; [done|]. split; try done.
  exists more, new. split_and!; try done; [by intros name H%Hv; apply V|]. intros st Hst Hr Hh. specialize (X st (HQ st Hst) Hr Hh). specialize (Hg st Hst).
  destruct (g st) as [b|], (g' st) as [b'|]; try done. destruct X as (k & H1 & H2 & H3 & H4). exists k. split_and!; try done.
  intros name Hn. rewrite H4 by done. by apply Hg.
Qed.
Lemma binds_nothing Q : binds_as Q [] (λ _, Some []) (mret tt).
Proof.
  intros c Hc. exists c. split; [done|]. split; try done; [apply Hc|]. exists [], []. rewrite !app_nil_r. split_and!; [by destruct c|intros ? []%elem_of_nil|intros ? []%elem_of_nil|done|intros ? []%elem_of_nil|].
  intros st _ _ Hh. exists []. split_and!; [done|done|intros ? []%elem_of_nil|]. intros name _. done.
Qed.

(** One after the other, where the second does not look at what the first
    pushes. *)
Lemma binds_seq (Q : list Val → Prop) vars1 vars2 g1 g2 m1 m2 : (∀ k st, Q st → Q (k ++ st) ∧ g2 (k ++ st) = g2 st) →
  binds_as Q vars1 g1 m1 → binds_as Q vars2 g2 m2 → binds_as Q (vars1 ++ vars2) (λ st, x ← g1 st; y ← g2 st; Some (x ++ y)) (m1;; m2).
Proof.
  intros HQ H1 H2 c Hc. destruct (H1 c Hc) as (c1 & E1 & B1). destruct (H2 c1 (bound_binding _ _ _ _ _ Hc B1)) as (c2 & E2 & B2).
  exists c2. split; [unfold mbind, compile_bind; by rewrite E1|].
  destruct B1 as [N1 W1 L1 D1 K1 (more1 & new1 & R1 & V1 & P1 & C1 & F1 & X1)], B2 as [N2 W2 L2 D2 K2 (more2 & new2 & R2 & V2 & P2 & C2 & F2 & X2)]. split.
  - lia.
  - done.
  - intros Hr. destruct (L1 Hr) as [Hr1 ?], (L2 Hr1) as [? ?]. split; [done|lia].
  - intros Hd. destruct (D1 Hd) as [Hd1 Ha1], (D2 Hd1) as [Hd2 Ha2]. split; [done|congruence].
  - intros l Hl. rewrite K2 by lia. by apply K1.
  - exists (more1 ++ more2), (new1 ++ new2). split_and!.
    + rewrite R2, R1. cbn. by rewrite app_assoc.
    + intros name [H|H]%elem_of_app; rewrite find_local_app; [|by destruct (V2 name H) as [? ->]]. destruct (find_local more2 name); [done|by apply V1].
    + intros l [H|H]%elem_of_app; [by apply P1|]. rewrite (P2 l H), R1. done.
    + by rewrite C2, C1, app_assoc.
    + intros l [H|H]%elem_of_app; [by apply F1|]. apply F2 in H. lia.
    + intros st Hst Hr Hh. specialize (X1 st Hst Hr Hh). destruct (g1 st) as [b1|]; cbn [mbind option_bind]; [|by rewrite run_app, X1, run_confused].
      destruct X1 as (k1 & Y1 & Y2 & Y3 & Y4). destruct (HQ k1 st Hst) as [Hst' Hg].
      specialize (X2 (k1 ++ st) Hst' (proj1 (L1 Hr))). rewrite length_app in X2. specialize (X2 Y2). rewrite Hg in X2. rewrite run_app, Y1.
      destruct (g2 st) as [b2|]; cbn [mbind option_bind]; [|done]. destruct X2 as (k2 & Z1 & Z2 & Z3 & Z4). exists (k2 ++ k1). rewrite <-app_assoc, length_app. split_and!; [done|lia| |].
      * intros l [H|H]%elem_of_app; [apply Y3 in H|apply Z3 in H]; lia.
      * intros name Hn. unfold env_of in *. rewrite find_local_app, value_of_app. specialize (Z4 name Hn). specialize (Y4 name Hn).
        destruct (find_local more2 name) as [slot|] eqn:E; cbn [mbind option_bind] in *.
        -- rewrite <-Z4. destruct (find_local_slot _ _ _ E) as (l & Hl & _ & <-). apply Z3 in Hl.
           destruct (slot_of (k2 ++ k1 ++ st) (l_slot l)) eqn:Es; [done|]. exfalso. unfold slot_of in Es. apply lookup_ge_None in Es. rewrite length_reverse, !length_app in Es. lia.
        -- rewrite <-Z4. rewrite <-Y4. destruct (find_local more1 name) as [slot|] eqn:E1'; [|done]. cbn [mbind option_bind]. apply slot_of_app.
           destruct (find_local_slot _ _ _ E1') as (l & Hl & _ & <-). apply Y3 in Hl. rewrite length_app. lia.
Qed.

(** After some values are pushed. *)
Lemma binds_pushes (Q Q' : list Val → Prop) vars g m (before : list Instr) n (h : list Val → option (list Val)) :
  (∀ e, reachable (emits before e) = reachable e ∧ height (emits before e) = n + height e ∧ arriving (emits before e) = arriving e) →
  (∀ l, not_bound l before) →
  (∀ st, Q st → match h st with Some k => length k = n ∧ Q' (k ++ st) ∧ run before (At st) = At (k ++ st) | None => run before (At st) = Confused end) →
  binds_as Q' vars g m → binds_as Q vars (λ st, k ← h st; g (k ++ st)) (λ c, m (with_emitter c (emits before (emitter c)))).
Proof.
  intros Hs Hnb Hrun Hm c Hc. destruct (Hs (emitter c)) as (Sr & Sh & Sa). destruct (emits_code before (emitter c)) as [Sc Sn]. set (c0 := with_emitter c (emits before (emitter c))).
  assert (binding c0) as Hc0.
  { destruct Hc as [Hf Hb Ho Hw]. split; [done|done|done|]. intros l. unfold arrives. cbn. rewrite Sa, Sn. apply Hw. }
  destruct (Hm c0 Hc0) as (c' & E & [N W L D K (more & new & R & V & P & C & B & X)]). cbn [c0 emitter with_emitter] in *. rewrite Sr, Sa, Sn, Sc, Sh in *.
  exists c'. split; [done|]. split; try done; [intros Hr; destruct (L Hr); split; [done|lia]|]. exists more, (before ++ new). rewrite C, app_assoc. split_and!; try done.
  - intros l [H|H]%elem_of_app; [by apply Hnb in H|by apply B].
  - intros st Hst Hr Hh. specialize (Hrun st Hst). destruct (h st) as [k|]; cbn [mbind option_bind]; [|by rewrite run_app, Hrun, run_confused].
    destruct Hrun as (Hn & HQ & Hrun). specialize (X (k ++ st) HQ Hr). rewrite length_app, Hn, Hh in X. specialize (X eq_refl). rewrite run_app, Hrun.
    destruct (g (k ++ st)) as [b|]; [|done]. destruct X as (k' & X1 & X2 & X3 & X4). exists (k' ++ k). rewrite <-app_assoc, length_app. split_and!; [done|lia| |done].
    intros l Hl. apply X3 in Hl. lia.
Qed.

Lemma binds_same Q vars g m n : (∀ c, m c = n c) → binds_as Q vars g n → binds_as Q vars g m.
Proof. intros Hmn Hn c Hc. rewrite Hmn. by apply Hn. Qed.

(** A pushed value is made a local. *)
Lemma binds_local (set : bool) (Q : list Val → Prop) (Q2 : nat → list Val → Prop) vars g2 push name (k : nat → Compile unit) (h : list Val → option Val) :
  (∀ e, reachable (emit_code push e) = reachable e ∧ height (emit_code push e) = S (height e) ∧ arriving (emit_code push e) = arriving e) →
  (∀ l, not_bound l [push]) →
  (∀ st, Q st → match h st with Some w => Q2 (length st) (w :: st) ∧ exec_at push st = At (w :: st) | None => exec_at push st = Confused end) →
  (∀ slot, binds_as (Q2 slot) vars (g2 slot) (k slot)) →
  binds_as Q (name :: vars) (λ st, w ← h st; b ← g2 (length st) (w :: st); Some ((name, w) :: b))
    (emit push;; slot ← add_local name; (if set then emit (ISetLocal slot) else mret tt);; k slot).
Proof.
  intros Hs Hnb Hrun Hk c Hc. destruct (Hs (emitter c)) as (Sr & Sh & Sa). destruct (emits_code [push] (emitter c)) as [Sc Sn].
  set (slot := height (emitter c)). set (l0 := mkLocal name (scope_depth c) slot).
  set (before := push :: if set then [ISetLocal slot] else []).
  assert (reachable (emits before (emitter c)) = reachable (emitter c) ∧ height (emits before (emitter c)) = S (height (emitter c)) ∧
    arriving (emits before (emitter c)) = arriving (emitter c)) as (Tr & Th & Ta) by (unfold before; destruct set; by split_and!).
  destruct (emits_code before (emitter c)) as [Tc Tn].
  set (c1 := mkCtx (emits before (emitter c)) (locals c ++ [l0]) (scope_depth c) (scope_starts c) (pattern_floor c)).
  assert (binding c1) as Hc1.
  { destruct Hc as [Hf Hb Ho Hw]. split; [done|cbn; rewrite length_app; lia| |].
    - unfold locals_outside in *. cbn. rewrite Hf in *. cbn in *. by rewrite take_app_le.
    - intros l. unfold arrives. cbn [c1 emitter]. rewrite Ta, Tn. apply Hw. }
  destruct (Hk slot c1 Hc1) as (c' & E & [N W L D K (more & new & R & V & P & C & B & X)]). cbn [c1 emitter locals scope_depth scope_starts pattern_floor] in *.
  rewrite Tr, Ta, Tn, Tc, Th in *. exists c'. split.
  { unfold mbind, compile_bind, emit at 1, changed at 1, add_local, height_now, look. unfold mbind, compile_bind. cbn [emitter with_emitter]. rewrite Sh. fold slot.
    unfold changed, mret, compile_ret. destruct set; exact E. }
  split; try done; [intros Hr; destruct (L Hr); split; [done|lia]|]. exists (l0 :: more), (before ++ new). rewrite C. split_and!.
  - rewrite R. by rewrite <-app_assoc.
  - intros n [->|H]%elem_of_cons; change (l0 :: more) with ([l0] ++ more); rewrite find_local_app, ?find_local_one.
    + destruct (find_local more name); [done|]. unfold l0. by rewrite find_local_one, N.eqb_refl.
    + by destruct (V n H) as [? ->].
  - intros l [->|H]%elem_of_cons; [done|by apply P].
  - by rewrite <-app_assoc.
  - intros l [H|H]%elem_of_app; [|by apply B]. unfold before in H. apply elem_of_cons in H as [H|H]; [exfalso; apply (Hnb l); rewrite H; left|].
    destruct set; [by apply list_elem_of_singleton in H|by apply elem_of_nil in H].
  - intros st Hst Hr Hh. specialize (Hrun st Hst). assert (slot = length st) as Hslot by done.
    destruct (h st) as [w|]; cbn [mbind option_bind].
    2: { rewrite run_app. unfold before. rewrite run_cons. cbn [exec]. rewrite Hrun. by rewrite !run_confused. }
    destruct Hrun as [HQ Hrun]. rewrite <-Hslot in HQ. specialize (X (w :: st) HQ Hr). cbn [length] in X. specialize (X ltac:(lia)).
    assert (run before (At st) = At (w :: st)) as Hbefore.
    { unfold before. rewrite run_cons. cbn [exec]. rewrite Hrun. destruct set; [|done]. unfold run. cbn. by rewrite Hslot, set_slot_top. }
    rewrite run_app, Hbefore, <-Hslot. destruct (g2 slot (w :: st)) as [b|]; cbn [mbind option_bind]; [|done]. destruct X as (k' & X1 & X2 & X3 & X4).
    exists (k' ++ [w]). rewrite <-app_assoc, length_app. cbn [length app]. split_and!; [done|lia| |].
    + intros l [->|H]%elem_of_cons; [cbn; lia|]. apply X3 in H. lia.
    + intros n Hn. specialize (X4 n Hn). unfold env_of in *. change (l0 :: more) with ([l0] ++ more). change ((name, w) :: b) with ([(name, w)] ++ b).
      rewrite find_local_app, value_of_app. destruct (find_local more n) as [s|] eqn:Ef; cbn [mbind option_bind] in *.
      * rewrite <-X4. destruct (find_local_slot _ _ _ Ef) as (l & Hl & _ & <-). apply X3 in Hl.
        destruct (slot_of (k' ++ w :: st) (l_slot l)) eqn:Es; [done|]. exfalso. unfold slot_of in Es. apply lookup_ge_None in Es. rewrite length_reverse, length_app in Es. cbn in Es. lia.
      * rewrite <-X4. unfold l0. rewrite find_local_one, value_of_one. destruct (name =? n)%N; [|done]. cbn [mbind option_bind]. rewrite slot_of_app by (cbn; lia).
        rewrite Hslot. apply slot_of_top.
Qed.

(** There is a value on top. *)
Definition on_top (st : list Val) : Prop := Agrees st ∧ 0 < length st.
Lemma on_top_push v st : Agrees st → on_top (v :: st).
Proof. intros Hst. split; [by apply (agrees_push _ _ [v])|cbn; lia]. Qed.
Notation of_top g := (λ st : list Val, v ← head st; g v) (only parsing).
Lemma binds_floor Q vars g m : binds_as Q vars g m → binds_as Q vars g (with_pattern_floor m).
Proof. intros Hm c Hc. unfold with_pattern_floor. rewrite (bi_floor _ Hc). by apply Hm. Qed.

Lemma bind_ident_binds name : binds_as on_top [name] (of_top (λ v, Some [(name, v)])) (bind_ident name).
Proof.
  apply (binds_same _ _ _ _ (emit IDup;; slot ← add_local name; (if true then emit (ISetLocal slot) else mret tt);; mret tt)).
  { intros c. unfold bind_ident, mbind, compile_bind. destruct (emit IDup c) as [? c1|]; [|done]. by destruct (add_local name c1). }
  eapply binds_weaken; [| | |apply (binds_local true on_top (λ _, Agrees) [] (λ _ _, Some []) IDup name (λ _, mret tt) head)]; try done.
  - intros st _. by destruct st.
  - intros l H. by apply list_elem_of_singleton in H.
  - intros st [Hst _]. destruct st as [|v st]; [done|]. split; [by apply (agrees_push _ _ [v])|done].
  - intros _. apply binds_nothing.
Qed.

(** *** The parts of a value *)
Definition part_of (d : BindDestruct) (v : Val) : option Val := match d with BPart d => part d v | BRecordRest names => record_rest names v end.
Inductive items_bind : list (BindDestruct * Compile unit) → list Symbol → (Val → option Binds) → Prop :=
  | items_nil : items_bind [] [] (λ _, Some [])
  | items_cons d sub vars g items vars' g' : binds_as on_top vars (of_top g) sub → items_bind items vars' g' →
      items_bind ((d, sub) :: items) (vars ++ vars') (λ v, x ← (w ← part_of d v; g w); y ← g' v; Some (x ++ y))
  | items_ext items vars g g' : (∀ v, g v = g' v) → items_bind items vars g → items_bind items vars g'.

Lemma bind_items_bind parent items vars g : items_bind items vars g →
  binds_as (λ st, Agrees st ∧ parent < length st) vars (λ st, v ← slot_of st parent; g v) (bind_items parent items).
Proof.
  induction 1 as [|d sub vars g items vars' g' Hsub _ IH|items vars g g' Hg _ IH].
  - cbn [bind_items]. eapply binds_weaken; [| | |apply (binds_nothing Agrees)]; [by intros st [? _]|done|].
    intros st [_ Hp]. unfold slot_of. destruct (lookup_lt_is_Some_2 (reverse st) parent) as [v ->]; [by rewrite length_reverse|done].
  - set (before := IGetLocal parent :: match d with BPart d => [IDestruct d] | BRecordRest names => [IDup; IRecordRest names] end).
    apply (binds_same _ _ _ _ ((λ c, with_pattern_floor sub (with_emitter c (emits before (emitter c))));; bind_items parent items)).
    { intros c. unfold before. by destruct d. }
    eapply binds_weaken; [| | |apply (binds_seq (λ st, Agrees st ∧ parent < length st) vars vars' (λ st, k ← (v ← slot_of st parent; w ← part_of d v; Some [w; v]); (of_top g) (k ++ st)) (λ st, v ← slot_of st parent; g' v))].
    + done.
    + done.
    + intros st [_ Hp]. unfold slot_of. destruct (reverse st !! parent) as [v|]; [|done]. cbn [mbind option_bind].
      destruct (part_of d v) as [w|]; cbn [mbind option_bind head app]; [|done]. destruct (g w) as [x|]; cbn [mbind option_bind]; [|done]. apply same_refl.
    + intros k st [Hst Hp]. split; [split; [by apply agrees_push|rewrite length_app; lia]|]. by rewrite slot_of_app.
    + apply (binds_pushes _ on_top _ (of_top g) _ before 2); [| | |by apply binds_floor].
      * intros e. unfold before. by destruct d.
      * intros l H. unfold before in H. destruct d; set_solver.
      * intros st [Hst Hp]. unfold before. rewrite run_cons. cbn [exec exec_at].
        destruct (slot_of st parent) as [v|]; cbn [mbind option_bind]; [|by rewrite run_confused]. unfold run. destruct d as [d|names]; cbn.
        -- destruct (part d v) as [w|]; cbn [mbind option_bind]; [|done]. split_and!; [done|by apply on_top_push, (agrees_push _ _ [v])|done].
        -- destruct (record_rest names v) as [w|]; cbn [mbind option_bind]; [|done]. split_and!; [done|by apply on_top_push, (agrees_push _ _ [v])|done].
    + exact IH.
  - eapply binds_weaken; [| | |exact IH]; [done|done|]. intros st _. cbn beta. destruct (slot_of st parent) as [v|]; cbn [mbind option_bind]; [rewrite Hg|]; apply same_refl.
Qed.

Lemma items_nil_inv items vars g : items_bind items vars g → items = [] → vars = [] ∧ ∀ v, g v = Some [].
Proof.
  induction 1 as [| |items vars g g' Hg _ IH]; intros E; [done|done|]. destruct (IH E) as [-> Hg']. split; [done|]. intros v. by rewrite <-Hg.
Qed.
Lemma compound_binds items vars g : items_bind items vars g → binds_as on_top vars (of_top g) (compile_compound_bind items).
Proof.
  intros H. unfold compile_compound_bind. destruct items as [|item items'] eqn:Ei.
  - destruct (items_nil_inv _ _ _ H eq_refl) as [-> Hg]. eapply binds_weaken; [| | |apply (binds_nothing on_top)]; [done|done|].
    intros st [_ Hlen]. destruct st as [|v st]; [cbn in Hlen; lia|]. cbn. by rewrite Hg.
  - rewrite <-Ei in *. eapply binds_weaken; [| | |apply (binds_local true on_top (λ slot st, Agrees st ∧ slot < length st) vars (λ slot st, v ← slot_of st slot; g v) IDup BIND_PARENT (λ slot, bind_items slot items) head)].
    + done.
    + intros name Hname. by right.
    + intros st _. destruct st as [|v st]; [done|]. cbn [head mbind option_bind]. rewrite (slot_of_top v (v :: st)). cbn [mbind option_bind]. destruct (g v) as [b|]; cbn; [|done].
      intros name Hn. change ((BIND_PARENT, v) :: b) with ([(BIND_PARENT, v)] ++ b). rewrite value_of_app, value_of_one. destruct (N.eqb_spec BIND_PARENT name) as [<-|]; [|by destruct (value_of b name)].
      destruct Hn. left.
    + done.
    + intros l Hl. by apply list_elem_of_singleton in Hl.
    + intros st [Hst _]. destruct st as [|v st]; [done|]. split; [split; [by apply (agrees_push _ _ [v])|cbn; lia]|done].
    + intros slot. by apply bind_items_bind.
Qed.

Lemma items_app a b va vb ga gb : items_bind a va ga → items_bind b vb gb → items_bind (a ++ b) (va ++ vb) (λ v, x ← ga v; y ← gb v; Some (x ++ y)).
Proof.
  intros Ha Hb. induction Ha as [|d sub vars g items vars' g' Hsub _ IH|items vars g g' Hg _ IH]; cbn [app].
  - eapply items_ext; [|exact Hb]. intros v. cbn. by destruct (gb v).
  - rewrite <-app_assoc. eapply items_ext; [|apply items_cons; [exact Hsub|exact IH]]. intros v. cbn beta.
    destruct (part_of d v ≫= g) as [x|]; cbn [mbind option_bind]; [|done]. destruct (g' v) as [y|]; cbn [mbind option_bind]; [|done].
    destruct (gb v) as [z|]; cbn [mbind option_bind]; [|done]. by rewrite app_assoc.
  - eapply items_ext; [|exact IH]. intros v. cbn beta. by rewrite Hg.
Qed.
Lemma items_one d sub vars g : binds_as on_top vars (of_top g) sub → items_bind [(d, sub)] vars (λ v, w ← part_of d v; g w).
Proof.
  intros H. rewrite <-(app_nil_r vars). eapply items_ext; [|apply items_cons; [exact H|apply items_nil]]. intros v. cbn beta.
  destruct (part_of d v ≫= g) as [x|]; [|done]. cbn. by rewrite app_nil_r.
Qed.
Lemma items_of_bind {A} (f : nat → A → list (BindDestruct * Compile unit)) (vars : A → list Symbol) (g : nat → A → Val → option Binds) l : ∀ i,
  (∀ i a, a ∈ l → items_bind (f i a) (vars a) (g i a)) → items_bind (items_of f i l) (concat (vars <$> l)) (λ v, all_binds (λ i a, g i a v) i l).
Proof.
  induction l as [|a l IH]; intros i H; [apply items_nil|]. apply items_app; [apply H; left|]. apply IH. intros j b Hb. apply H. by right.
Qed.

Lemma no_bindings_no_names p : pattern_has_bindings p = false → collect_pattern_vars p = [].
Proof.
  assert (∀ pats, Forall (λ p, pattern_has_bindings p = false → collect_pattern_vars p = []) pats → existsb pattern_has_bindings pats = false →
    concat (collect_pattern_vars <$> pats) = []) as Hl.
  { induction 1 as [|x pats Hx _ IH]; cbn; [done|]. intros [H1 H2]%orb_false_iff. rewrite Hx by done. by apply IH. }
  assert (∀ fields : list (Symbol * option Pattern), Forall (λ f, ∀ p, f.2 = Some p → pattern_has_bindings p = false → collect_pattern_vars p = []) fields →
    existsb (λ f : Symbol * option Pattern, match f.2 with Some p => pattern_has_bindings p | None => true end) fields = false →
    concat ((λ f : Symbol * option Pattern, match f.2 with Some p => collect_pattern_vars p | None => [f.1] end) <$> fields) = []) as Hf.
  { induction 1 as [|[n q] fields Hq _ IH]; cbn; [done|]. intros [H1 H2]%orb_false_iff. destruct q as [q|]; [|done]. rewrite (Hq q) by done. by apply IH. }
  induction p as [res irr k IH] using Pattern_ind'.
  destruct k as [| | | | | |pats|q n pats|m n fields r|fields r|pats rest|alts| | |entries|]; cbn; intros H; try done; try by apply Hl.
  - by apply Hf.
  - destruct r; [done|]. rewrite app_nil_r. by apply Hf.
  - apply orb_false_iff in H as [H1 H2]. destruct IH as [IH IHr]. rewrite Hl by done. destruct rest as [p|]; [|done]. by apply IHr.
  - destruct alts as [|p alts]; [done|]. cbn in H. apply orb_false_iff in H as [H _]. apply Forall_cons in IH as [IH _]. by apply IH.
  - clear Hl Hf. induction IH as [|[s p] entries Hp _ IH]; cbn in *; [done|]. apply orb_false_iff in H as [H1 H2]. rewrite Hp by done. by apply IH.
Qed.
Lemma item_of_binds d p sub g : binds_as on_top (collect_pattern_vars p) (of_top g) sub →
  items_bind (item_of d p sub) (collect_pattern_vars p) (λ v, part_binds d p v g).
Proof.
  intros H. unfold item_of, part_binds. destruct (pattern_has_bindings p) eqn:E; [by apply (items_one (BPart d))|]. rewrite no_bindings_no_names by done. apply items_nil.
Qed.

(** ** Alternatives *)

(** The values of the names in their slots, above the copy of the value. *)
Definition results (ws : list Val) (v : Val) (stk : list Val) : list Val := reverse ws ++ v :: stk.
Lemma results_length ws v stk : length (results ws v stk) = S (length stk) + length ws.
Proof. unfold results. rewrite length_app, length_reverse. cbn. lia. Qed.
Lemma slot_of_value ws v stk : slot_of (results ws v stk) (length stk) = Some v.
Proof. unfold results. rewrite slot_of_app by (cbn; lia). apply slot_of_top. Qed.
Lemma set_result ws v stk i x : i < length ws → set_slot (results ws v stk) (S (length stk) + i) x = results (<[i := x]> ws) v stk.
Proof.
  intros Hi. unfold set_slot, results. rewrite reverse_app, reverse_involutive, reverse_cons, <-app_assoc. cbn [app].
  rewrite (insert_app_r_alt (reverse stk)) by (rewrite length_reverse; lia). rewrite length_reverse.
  replace (S (length stk) + i - length stk) with (S i) by lia. cbn [insert list_insert]. rewrite !reverse_app, reverse_cons, reverse_involutive. by rewrite <-app_assoc.
Qed.

(** The values of a binding copied to the slots. *)
Fixpoint copy_code (more : list Local_) (names : list Symbol) (slots : list nat) : list Instr :=
  match names, slots with
  | name :: names, slot :: slots => IGetLocal (default 0 (find_local more name)) :: ISetLocal slot :: IPop :: copy_code more names slots
  | _, _ => []
  end.
Lemma copy_names_is why more names : ∀ slots c ls, locals c = ls ++ more → (∀ name, name ∈ names → is_Some (find_local more name)) →
  copy_names why names slots c = Done tt (with_emitter c (emits (copy_code more names slots) (emitter c))).
Proof.
  induction names as [|name names IH]; intros slots c ls Hls Hfound; [by destruct c|]. destruct slots as [|slot slots]; [by destruct c|].
  cbn [copy_names copy_code]. destruct (Hfound name ltac:(left)) as [temp Htemp]. unfold resolve_local, look, tried. unfold mbind at 1, compile_bind at 1.
  rewrite Hls, find_local_app, Htemp. cbn [default from_option id]. unfold mbind at 1 2 3 4, compile_bind at 1 2 3 4, emit, changed.
  rewrite (IH slots _ ls); [done|done|]. intros n Hn. apply Hfound. by right.
Qed.
Lemma copy_code_static more names : ∀ slots e, reachable (emits (copy_code more names slots) e) = reachable e ∧ height (emits (copy_code more names slots) e) = height e ∧
  arriving (emits (copy_code more names slots) e) = arriving e.
Proof.
  induction names as [|name names IH]; intros slots e; [done|]. destruct slots as [|slot slots]; [done|]. cbn [copy_code].
  change (emits (?a :: ?b :: ?d :: ?l) e) with (emits l (emit_code d (emit_code b (emit_code a e)))). destruct (IH slots (emit_code IPop (emit_code (ISetLocal slot) (emit_code (IGetLocal (default 0 (find_local more name))) e)))) as (H1 & H2 & H3).
  rewrite H1, H2, H3. done.
Qed.
Lemma copy_code_binds l more names : ∀ slots, not_bound l (copy_code more names slots).
Proof.
  unfold not_bound. induction names as [|name names IH]; intros slots; [cbn; set_solver|]. destruct slots as [|slot slots]; cbn [copy_code]; [set_solver|].
  specialize (IH slots). set_solver.
Qed.
Lemma run_copy more names : ∀ i0 k ws v stk, (∀ name, name ∈ names → is_Some (find_local more name)) →
  (∀ l, l ∈ more → length (results ws v stk) ≤ l_slot l < length k + length (results ws v stk)) → i0 + length names ≤ length ws →
  ∃ ws', length ws' = length ws ∧ run (copy_code more names (seq (S (length stk) + i0) (length names))) (At (k ++ results ws v stk)) = At (k ++ results ws' v stk) ∧
    (∀ i, i < i0 → ws' !! i = ws !! i) ∧ ∀ i name, names !! i = Some name → ws' !! (i0 + i) = env_of more (k ++ results ws v stk) name.
Proof.
  induction names as [|name names IH]; intros i0 k ws v stk Hfound Hslots Hlen; [by exists ws|]. cbn [length seq copy_code].
  destruct (Hfound name ltac:(left)) as [temp Htemp]. destruct (find_local_slot _ _ _ Htemp) as (l & Hl & _ & Hls). pose proof (Hslots l Hl) as Hin. rewrite Hls in Hin.
  destruct (slot_of (k ++ results ws v stk) temp) as [x|] eqn:Ex.
  2: { exfalso. unfold slot_of in Ex. apply lookup_ge_None in Ex. rewrite length_reverse, length_app in Ex. lia. }
  cbn [length] in Hlen. assert (i0 < length ws) as Hi0 by lia.
  rewrite run_cons. cbn [exec exec_at]. rewrite Htemp. cbn [default from_option id]. rewrite Ex. rewrite run_cons. cbn [exec exec_at]. rewrite run_cons.
  assert (set_slot (x :: k ++ results ws v stk) (S (length stk) + i0) x = x :: k ++ results (<[i0 := x]> ws) v stk) as ->.
  { change (x :: k ++ results ws v stk) with ((x :: k) ++ results ws v stk). rewrite set_slot_app by (rewrite results_length; lia). by rewrite set_result by lia. }
  cbn [exec exec_at].
  assert (∀ t, length (results ws v stk) ≤ t → slot_of (k ++ results (<[i0 := x]> ws) v stk) t = slot_of (k ++ results ws v stk) t) as Hsame.
  { intros t Ht. rewrite <-set_result, <-set_slot_app by (rewrite ?results_length; lia). rewrite slot_of_set by (rewrite length_app, results_length; lia).
    rewrite results_length in Ht. destruct (decide (t = S (length stk) + i0)); [lia|done]. }
  destruct (IH (S i0) k (<[i0 := x]> ws) v stk) as (ws' & H1 & H2 & H3 & H4).
  - intros n Hn. apply Hfound. by right.
  - intros l' Hl'. rewrite results_length, length_insert, <-results_length with (v := v) (stk := stk). by apply Hslots.
  - rewrite length_insert. lia.
  - rewrite length_insert in H1. exists ws'. split_and!; [done| |intros i Hi; rewrite H3 by lia; by rewrite list_lookup_insert_ne by lia|].
    + replace (S (S (length stk) + i0)) with (S (length stk) + S i0) by lia. exact H2.
    + intros [|i] n Hn; cbn in Hn.
      * injection Hn as <-. rewrite Nat.add_0_r, H3 by lia. rewrite list_lookup_insert_eq by lia. unfold env_of. rewrite Htemp. by cbn.
      * replace (i0 + S i) with (S i0 + i) by lia. rewrite (H4 i n Hn). unfold env_of. destruct (Hfound n) as [t Ht]; [right; by apply list_elem_of_lookup_2 in Hn|].
        rewrite Ht. cbn [mbind option_bind]. apply Hsame. destruct (find_local_slot _ _ _ Ht) as (l' & Hl' & _ & <-). by apply Hslots.
Qed.

Lemma pops_static n : ∀ e, reachable (emits (replicate n IPop) e) = reachable e ∧ height (emits (replicate n IPop) e) = height e - n ∧
  arriving (emits (replicate n IPop) e) = arriving e.
Proof.
  induction n as [|n IH]; intros e; [split_and!; [done|cbn; unfold emits; cbn; lia|done]|]. cbn [replicate].
  change (emits (IPop :: ?l) e) with (emits l (emit_code IPop e)). destruct (IH (emit_code IPop e)) as (H1 & H2 & H3). rewrite H1, H2, H3. split_and!; [done|cbn; lia|done].
Qed.
Lemma run_pops k st : run (replicate (length k) IPop) (At (k ++ st)) = At st.
Proof. induction k as [|x k IH]; [done|]. cbn [length replicate app]. rewrite run_cons. exact IH. Qed.

(** What a step does to the emitter alone. *)
Record steps (e e' : CodeState) (new : list Instr) : Prop := {
  st_next : next_label e ≤ next_label e';
  st_labelled : well_labelled e → well_labelled e';
  st_dead : reachable e = false → reachable e' = false ∧ arriving e' = arriving e;
  st_old l : l < next_label e → arriving e' !! l = arriving e !! l;
  st_code : code e' = code e ++ new;
  st_binds : binds_from (next_label e) new;
}.

(** From a copy of the value to the names in their slots. *)
Definition named_values (names : list Symbol) (ws : list Val) (b : Binds) : Prop :=
  length ws = length names ∧ ∀ i name, names !! i = Some name → ¬ is_hidden name → ws !! i = value_of b name.
Definition bind_into (why : Refusal) (sub : Compile unit) (names : list Symbol) (slots : list nat) (baseline_locals baseline_height : nat) : Compile unit :=
  with_pattern_floor sub;; copy_names why names slots;; pop_down_to baseline_height;; truncate_locals baseline_locals.
Lemma bind_into_binds why sub vars g names slots h c : binds_as on_top vars (of_top g) sub → (∀ name, name ∈ names → name ∈ vars) → binding c →
  ∃ e2 new, bind_into why sub names slots (length (locals c)) h c = Done tt (with_emitter c e2) ∧ steps (emitter c) e2 new ∧
    (reachable (emitter c) = true → height (emitter c) = S h → reachable e2 = true ∧ height e2 = h) ∧
    ∀ stk v ws, Agrees (v :: stk) → slots = seq (S (length stk)) (length names) → h = length (results ws v stk) → length ws = length names →
      reachable (emitter c) = true → height (emitter c) = S h →
      match g v with
      | None => run new (At (v :: results ws v stk)) = Confused
      | Some b => ∃ ws', named_values names ws' b ∧ run new (At (v :: results ws v stk)) = At (results ws' v stk)
      end.
Proof.
  intros Hsub Hvars Hc. destruct (binds_floor _ _ _ _ Hsub c Hc) as (c1 & E1 & [N W L D K (more & new & R & V & P & C & B & X)]).
  assert (∀ name, name ∈ names → is_Some (find_local more name)) as Hfound by (intros name Hn; by apply V, Hvars).
  set (ea := emits (copy_code more names slots) (emitter c1)). set (m := height ea - h). set (e2 := emits (replicate m IPop) ea).
  destruct (copy_code_static more names slots (emitter c1)) as (Sr & Sh & Sa). fold ea in Sr, Sh, Sa. destruct (pops_static m ea) as (Tr & Th & Ta). fold e2 in Tr, Th, Ta.
  destruct (emits_code (copy_code more names slots) (emitter c1)) as [Ca Na]. fold ea in Ca, Na. destruct (emits_code (replicate m IPop) ea) as [C2 N2]. fold e2 in C2, N2.
  exists e2, (new ++ copy_code more names slots ++ replicate m IPop). split_and!.
  - unfold bind_into, mbind, compile_bind. rewrite E1. rewrite (copy_names_is why more names slots c1 (locals c)); [|by rewrite R|done]. fold ea.
    unfold pop_down_to, height_now, look, mbind, compile_bind. cbn [emitter with_emitter]. fold m. rewrite pops_is. cbn [emitter with_emitter]. fold e2.
    unfold truncate_locals, changed. rewrite R. unfold with_emitter, with_locals. cbn. rewrite take_app_length. by destruct c.
  - split.
    + lia.
    + intros _ l. unfold arrives. rewrite Ta, Sa, N2, Na. apply W.
    + intros Hd. destruct (D Hd) as [Hd' Ha]. split; [congruence|]. by rewrite Ta, Sa.
    + intros l Hl. rewrite Ta, Sa. by apply K.
    + by rewrite C2, Ca, C, <-!app_assoc.
    + intros l [H|[H|H]%elem_of_app]%elem_of_app; [by apply B|by apply copy_code_binds in H|]. apply elem_of_replicate in H as [? _]. done.
  - intros Hr Hh. destruct (L Hr) as [Hr1 Hh1]. split; [congruence|]. rewrite Th. unfold m. rewrite Sh. lia.
  - intros stk v ws Hst Hslots Hh Hlen Hr Hheight. specialize (X (v :: results ws v stk)). unfold results in X at 1.
    assert (Agrees (results ws v stk)) as Hst' by (unfold results; by apply agrees_push).
    specialize (X (on_top_push v _ Hst') Hr). cbn [length] in X. specialize (X ltac:(lia)). cbn [head mbind option_bind] in X. rewrite run_app.
    destruct (g v) as [b|]; [|by rewrite X, run_confused]. destruct X as (k & X1 & X2 & X3 & X4). rewrite X1, run_app.
    destruct (run_copy more names 0 (k ++ [v]) ws v stk) as (ws' & H1 & H2 & _ & H4); [done| |lia|].
    { intros l Hl. apply X3 in Hl. rewrite length_app. cbn. cbn in Hl. lia. }
    rewrite Nat.add_0_r, <-Hslots, <-app_assoc in H2. cbn [app] in H2. exists ws'. split.
    + split; [congruence|]. intros i name Hi Hn. rewrite <-(X4 name Hn). rewrite <-(Nat.add_0_l i), (H4 i name Hi). by rewrite <-app_assoc.
    + rewrite H2. assert (m = length (k ++ [v])) as ->.
      { unfold m. rewrite Sh, X2, length_app. cbn. lia. }
      rewrite (cons_middle v k). rewrite app_assoc. apply run_pops.
Qed.

(** Where the failures of a test land, behind what its success runs. *)
Lemma failures_land base f c0 c1 F e2 new : tested outside pin base f c0 c1 F → well_labelled (emitter c0) → steps (emitter c1) e2 new →
  let e3 := jumped e2 in let e4 := emits (trampolines F base) e3 in
  code e4 = code e2 ++ jump_code e2 ++ trampolines F base ∧ next_label e4 = S (next_label e2) ∧ well_labelled e4 ∧ arriving e4 = arriving e3 ∧
  (reachable (emitter c0) = true → level e4 (height (emitter c0)) ∧ (reachable e4 = true ↔ ∃ l d, (l, d) ∈ F ∧ arrives (emitter c1) l)) ∧
  (reachable (emitter c0) = false → reachable e4 = false ∧ arriving e4 = arriving (emitter c0)).
Proof.
  intros T Hw [N2 W2 D2 K2 _ _]. destruct T as [_ N W R _ L D K _]. cbn zeta. set (e3 := jumped e2). destruct (jumped_facts e2) as (Cj & Nj & Rj & _). fold e3 in Cj, Nj, Rj.
  destruct (emits_code (trampolines F base) e3) as [Hcode Hnext].
  assert (arriving e3 = if reachable e2 then <[next_label e2 := height e2]> (arriving e2) else arriving e2) as Ha3 by (apply jump_arriving; auto).
  assert (∀ l d, (l, d) ∈ F → arriving e3 !! l = arriving (emitter c1) !! l) as Hsame.
  { intros l d H. pose proof (R l d H) as [? _]. rewrite Ha3, <-K2 by lia. destruct (reachable e2); [|done]. by rewrite lookup_insert_ne by lia. }
  assert (reachable (emitter c0) = false → ∀ l d, (l, d) ∈ F → arriving (emitter c1) !! l = None) as Hnone.
  { intros Hd l d H. destruct (D Hd) as [_ ->]. apply eq_None_not_Some. intros H'%Hw. pose proof (R l d H). lia. }
  destruct (trampolines_level base F (height (emitter c0)) e3) as (Hlevel & Harr & Hreach); [done| |].
  { intros l d Hin. split; [by apply (R l d)|]. unfold arrives_at. rewrite (Hsame l d Hin). destruct (reachable (emitter c0)) eqn:Er.
    - by apply L.
    - intros a. by rewrite (Hnone eq_refl l d Hin). }
  split_and!.
  - by rewrite Hcode, Cj, <-app_assoc.
  - by rewrite Hnext.
  - intros l Hl. unfold arrives in Hl. rewrite Harr in Hl. rewrite Hnext. apply (jump_labelled e2); [auto|done].
  - done.
  - intros Hlive. split; [done|]. rewrite Hreach. unfold arrives. split; intros (l & d & Hin & H); exists l, d; (split; [done|]); by rewrite (Hsame l d Hin) in *.
  - intros Hdead. destruct (D Hdead) as [Hd Ha], (D2 Hd) as [Hd2 Ha2]. split.
    + apply not_true_is_false. rewrite Hreach. intros (l & d & Hin & H). unfold arrives in H. rewrite (Hsame l d Hin), (Hnone Hdead l d Hin) in H. by destruct H.
    + rewrite Harr, Ha3, Hd2. congruence.
Qed.

Definition lands (names : list Symbol) (v : Val) (stk : list Val) (ends : list nat) (new : list Instr) (ws : list Val) (r : option Binds) : Prop :=
  match r with
  | None => run new (At (results ws v stk)) = Confused
  | Some b => ∃ ws', named_values names ws' b ∧
      (run new (At (results ws v stk)) = At (results ws' v stk) ∨ ∃ l, l ∈ ends ∧ run new (At (results ws v stk)) = To l (results ws' v stk))
  end.
Lemma alternatives_bind (test : Pattern → Compile (list (nat * nat))) (f : Pattern → Val → option bool) sub vars (g : Pattern → Val → option Binds) names s slots h alts : alts ≠ [] →
  (∀ p, p ∈ alts → tests outside pin 0 (test p) (f p) ∧ binds_as on_top (vars p) (of_top (g p)) (sub p) ∧ ∀ name, name ∈ names → name ∈ vars p) →
  ∀ c, binding c → ∃ e' ends new, bind_alternatives test sub s names slots (length (locals c)) h alts c = Done ends (with_emitter c e') ∧ steps (emitter c) e' new ∧
    (∀ l, l ∈ ends → next_label (emitter c) ≤ l < next_label e') ∧
    (reachable (emitter c) = true → height (emitter c) = h → level e' h ∧ (∀ l, l ∈ ends → arrives_at e' l h) ∧ (reachable e' = true ∨ ∃ l, l ∈ ends ∧ arrives e' l)) ∧
    ∀ stk v ws, Agrees stk → s = length stk → slots = seq (S (length stk)) (length names) → h = length (results ws v stk) → length ws = length names →
      reachable (emitter c) = true → height (emitter c) = h → lands names v stk ends new ws (chosen (λ p, f p v) (λ p, g p v) alts).
Proof.
  induction alts as [|alt alts IH]; [done|]. intros _ Halts c Hc. destruct (Halts alt ltac:(left)) as (Htest & Hsub & Hvars).
  set (c0 := with_emitter c (emit_code (IGetLocal s) (emitter c))).
  assert (binding c0) as Hc0 by (by destruct Hc).
  assert (∀ stk v ws, s = length stk → exec_at (IGetLocal s) (results ws v stk) = At (v :: results ws v stk)) as Hget.
  { intros stk v ws ->. cbn [exec_at]. by rewrite slot_of_value. }
  assert (∀ stk v ws, Agrees stk → Agrees (results ws v stk)) as Hagrees.
  { intros stk v ws Hst. unfold results. by apply agrees_push, (agrees_push _ _ [v]). }
  destruct alts as [|alt2 alts].
  - destruct (bind_into_binds PatternPanics (sub alt) (vars alt) (g alt) names slots h c0 Hsub Hvars Hc0) as (e2 & new & E & St & Live & X). cbn [c0 emitter with_emitter locals] in *.
    exists e2, [], (IGetLocal s :: new). split_and!.
    + unfold bind_into, mbind, compile_bind in E. cbn [bind_alternatives]. unfold mbind, compile_bind, emit, changed, mret, compile_ret. fold c0.
      destruct (with_pattern_floor (sub alt) c0) as [? c1|]; [|done]. destruct (copy_names PatternPanics names slots c1) as [? c2|]; [|done]. destruct (pop_down_to h c2) as [? c3|]; [|done].
      by rewrite E.
    + destruct St as [N W D K C B]. split; [exact N|exact W|exact D|exact K|rewrite C; cbn; by rewrite <-app_assoc|].
      intros l [H|H]%elem_of_cons; [done|by apply B].
    + intros l []%elem_of_nil.
    + intros Hr Hh. destruct (Live Hr) as [Hr2 Hh2]; [cbn; lia|]. split_and!; [by intros _|intros l []%elem_of_nil|by left].
    + intros stk v ws Hst Hs Hslots Hh Hlen Hr Hheight. unfold lands. cbn [chosen]. rewrite run_cons. cbn [exec]. rewrite Hget by done.
      specialize (X stk v ws (agrees_push _ _ [v] _ Hst) Hslots Hh Hlen Hr ltac:(cbn; lia)). destruct (g alt v) as [b|]; [|done]. destruct X as (ws' & H1 & H2). exists ws'. split; [done|by left].
  - destruct (Htest c0 (bi_outside _ Hc0) (bi_labelled _ Hc0)) as (c1 & F & E1 & T). pose proof T as [R1 N1 W1 G1 O1 L1 D1 K1 (new1 & C1 & B1 & X1)].
    assert (binding c1) as Hc1 by (rewrite R1; destruct Hc; split; [done|done|done|exact W1]).
    assert (locals c1 = locals c) as Hloc by (by rewrite R1).
    destruct (bind_into_binds PatternPanics (sub alt) (vars alt) (g alt) names slots h c1 Hsub Hvars Hc1) as (e2 & new2 & E2 & St2 & Live2 & X2).
    destruct (failures_land 0 _ c0 c1 F e2 new2 T (bi_labelled _ Hc0) St2) as (C4 & N4 & W4 & A4 & L4 & D4).
    set (done_ := next_label e2) in *. set (e3 := jumped e2) in *. set (e4 := emits (trampolines F 0) e3) in *.
    set (e5 := emit_code IPop e4). set (c5 := with_emitter c e5).
    assert (binding c5) as Hc5 by (destruct Hc; split; [done|done|done|exact W4]).
    destruct (IH ltac:(done) (λ p Hp, Halts p ltac:(by right)) c5 Hc5) as (e' & ends & new & E & St & Hends & Live & X). clear IH.
    cbn [c0 c5 emitter with_emitter locals] in *.
    exists e', (done_ :: ends), (IGetLocal s :: new1 ++ new2 ++ (jump_code e2 ++ trampolines F 0) ++ IPop :: new).
    assert (arriving e3 = if reachable e2 then <[done_ := height e2]> (arriving e2) else arriving e2) as A3 by (apply jump_arriving, (st_labelled _ _ _ St2), W1).
    assert (next_label e5 = S done_ ∧ arriving e5 = arriving e3 ∧ reachable e5 = reachable e4 ∧ height e5 = pred (height e4) ∧ code e5 = code e4 ++ [IPop]) as (N5 & A5 & R5 & H5 & C5)
      by (by split_and!).
    pose proof (st_next _ _ _ St2) as N2. fold done_ in N2. pose proof (st_next _ _ _ St) as N'. rewrite N5 in N'. cbn [next_label emit_code] in N1.
    assert (next_label (emitter c) ≤ next_label (emitter c1)) as N01 by exact N1.
    assert (∀ l, l < done_ → arriving e' !! l = arriving e2 !! l) as Hsame.
    { intros l Hl. rewrite (st_old _ _ _ St) by lia. rewrite A5, A3. destruct (reachable e2); [|done]. by rewrite lookup_insert_ne by lia. }
    split_and!.
    + change (bind_alternatives test sub s names slots (length (locals c)) h (alt :: alt2 :: alts) c) with
        ((fails ← test alt; with_pattern_floor (sub alt);; copy_names PatternPanics names slots;; pop_down_to h;; truncate_locals (length (locals c));;
          done ← jump; emit_trampolines fails 0;; emit IPop;; more ← bind_alternatives test sub s names slots (length (locals c)) h (alt2 :: alts); mret (done :: more)) c0).
      unfold bind_into in E2. rewrite Hloc in E2. unfold mbind, compile_bind in E2 |- *. rewrite E1.
      destruct (with_pattern_floor (sub alt) c1) as [? x1|]; [|done]. destruct (copy_names PatternPanics names slots x1) as [? x2|]; [|done].
      destruct (pop_down_to h x2) as [? x3|]; [|done]. rewrite E2, jump_is, emit_trampolines_is. cbn [emitter with_emitter]. fold done_ e3 e4.
      unfold emit, changed. cbn [emitter with_emitter]. fold e5. rewrite !with_emitter_twice.
      rewrite R1, with_emitter_twice. unfold c0. rewrite with_emitter_twice. fold c5. by rewrite E.
    + split.
      * lia.
      * intros _. apply (st_labelled _ _ _ St W4).
      * intros Hd. destruct (D4 Hd) as [Hr4 Ha4], (st_dead _ _ _ St Hr4) as [? Ha']. split; [done|]. rewrite Ha'. change (arriving e5) with (arriving e4). by rewrite Ha4.
      * intros l Hl. rewrite Hsame by lia. rewrite (st_old _ _ _ St2) by lia. by apply K1.
      * rewrite (st_code _ _ _ St), C5, C4, (st_code _ _ _ St2), C1. cbn. by rewrite <-!app_assoc.
      * intros l [H|[H|[H|[[H|H]%elem_of_app|[H|H]%elem_of_cons]%elem_of_app]%elem_of_app]%elem_of_app]%elem_of_cons; try done.
        -- by apply B1.
        -- apply (st_binds _ _ _ St2) in H. lia.
        -- by apply in_jump_code in H.
        -- apply in_trampolines in H. apply list_elem_of_fmap in H as ([l' d'] & -> & H). apply G1 in H. cbn in *. lia.
        -- apply (st_binds _ _ _ St) in H. lia.
    + intros l [->|H%Hends]%elem_of_cons; lia.
    + intros Hr Hh. destruct (L1 Hr) as (Hr1 & Hh1 & _). cbn in Hh1. destruct (Live2 Hr1) as [Hr2 Hh2]; [lia|]. destruct (L4 Hr) as [Hlev _].
      assert (arriving e' !! done_ = Some h) as Hdone by (rewrite (st_old _ _ _ St), A5, A3, Hr2, lookup_insert_eq by lia; by rewrite Hh2).
      assert (right' : ∃ l, l ∈ done_ :: ends ∧ arrives e' l) by (exists done_; split; [left|by eexists]).
      destruct (reachable e4) eqn:Er.
      * destruct (Live Er) as (I1 & I2 & _); [cbn; rewrite Hlev by done; cbn; lia|]. split_and!; [done| |by right].
        intros l [->|Hl]%elem_of_cons; [intros a Ha; congruence|by apply I2].
      * destruct (st_dead _ _ _ St Er) as [Hd Ha']. split_and!; [intros ?; congruence| |by right].
        intros l [->|Hl]%elem_of_cons; intros a Ha; [congruence|]. rewrite Ha' in Ha. assert (arrives e5 l) as H%W4 by (by exists a). apply Hends in Hl. lia.
    + intros stk v ws Hst Hs Hslots Hh Hlen Hr Hheight. unfold lands. change (run (IGetLocal s :: ?l) ?st) with (run l (exec st (IGetLocal s))). cbn [exec].
      rewrite (Hget stk v ws Hs). destruct (L1 Hr) as (Hr1 & Hh1 & _). cbn in Hh1. specialize (X1 v (results ws v stk) Hr (Hagrees stk v ws Hst)). destruct (Live2 Hr1) as [Hr2 _]; [lia|].
      specialize (X2 stk v ws (agrees_push _ _ [v] _ Hst) Hslots Hh Hlen Hr1 ltac:(lia)).
      change (chosen (λ p, f p v) (λ p, g p v) (alt :: alt2 :: alts)) with (t ← f alt v; if t : bool then g alt v else chosen (λ p, f p v) (λ p, g p v) (alt2 :: alts)).
      unfold leads in X1. destruct (f alt v) as [[|]|]; cbn [mbind option_bind].
      * rewrite run_app, X1, run_app. destruct (g alt v) as [b|]; [|by rewrite X2, run_confused]. destruct X2 as (ws' & Hn & Hrun). exists ws'. split; [done|]. right.
        exists done_. split; [left|]. rewrite Hrun, run_app, run_app, (run_jump e2) by done. fold done_. rewrite run_past; [rewrite run_cons; cbn [exec]; apply run_past|].
        -- eapply binds_from_past; [exact (st_binds _ _ _ St)|lia].
        -- intros H%in_trampolines. apply list_elem_of_fmap in H as ([l' d'] & El & H). cbn in El. apply G1 in H. lia.
      * destruct X1 as (l & d & subs & Hin & Hlen' & Hrun & Ha). pose proof (G1 l d Hin) as [Hl Hd].
        assert (run (new1 ++ new2 ++ (jump_code e2 ++ trampolines F 0) ++ IPop :: new) (At (v :: results ws v stk)) = run new (At (results ws v stk))) as ->.
        { rewrite run_app, Hrun, run_app, run_past by (eapply binds_from_past; [exact (st_binds _ _ _ St2)|lia]).
          rewrite run_app, run_app, run_past_jump. by rewrite (run_trampolines 0 F l d). }
        destruct (L4 Hr) as [Hlev Hreach]. assert (reachable e4 = true) as Hr4 by (apply Hreach; exists l, d; split; [done|]; eexists; by apply Ha).
        specialize (X stk v ws Hst Hs Hslots Hh Hlen Hr4). rewrite H5, Hlev in X by done. specialize (X ltac:(cbn; lia)). unfold lands in X.
        destruct (chosen _ _ _) as [b|]; [|done]. destruct X as (ws' & Hn & [Hrun'|(l' & Hl' & Hrun')]); exists ws'; (split; [done|]); [by left|right].
        exists l'. split; [by right|done].
      * by rewrite run_app, X1, run_confused.
Qed.

(** The locals of the names, above the copy of the value. *)
Definition reserved (depth slot : nat) (names : list Symbol) : list Local_ := zip_with (λ name slot, mkLocal name depth slot) names (seq slot (length names)).
Lemma in_reserved depth slot names l : l ∈ reserved depth slot names ↔ ∃ i, names !! i = Some (l_name l) ∧ l = mkLocal (l_name l) depth (slot + i).
Proof.
  unfold reserved. rewrite list_elem_of_lookup. setoid_rewrite lookup_zip_with_Some. split.
  - intros (i & name & s & -> & H & [-> _]%lookup_seq). by exists i.
  - intros (i & H & ->). exists i, (l_name l), (slot + i). split_and!; [done|done|]. apply lookup_seq. split; [done|by eapply lookup_lt_Some].
Qed.
Lemma reserve_is names : ∀ c, reserve_names names c = Done (seq (height (emitter c)) (length names))
  (mkCtx (emits (replicate (length names) (IConstant VUnit)) (emitter c)) (locals c ++ reserved (scope_depth c) (height (emitter c)) names)
     (scope_depth c) (scope_starts c) (pattern_floor c)).
Proof.
  induction names as [|name names IH]; intros c; [cbn; unfold emits; cbn; rewrite app_nil_r; by destruct c|].
  cbn [reserve_names]. unfold mbind, compile_bind, emit, changed, add_local, height_now, look, mbind, compile_bind. cbn -[reserve_names emits]. unfold changed, mbind, compile_bind, mret, compile_ret.
  rewrite IH. cbn -[emits]. by rewrite <-app_assoc.
Qed.
Lemma reserve_static n e : let e' := emits (replicate n (IConstant VUnit)) e in reachable e' = reachable e ∧ height e' = n + height e ∧ arriving e' = arriving e.
Proof.
  revert e. induction n as [|n IH]; intros e; cbn zeta; [done|]. cbn [replicate]. change (emits (?i :: ?l) e) with (emits l (emit_code i e)).
  destruct (IH (emit_code (IConstant VUnit) e)) as (-> & -> & ->). cbn. split_and!; [done|lia|done].
Qed.
Lemma run_reserve n st : run (replicate n (IConstant VUnit)) (At st) = At (replicate n VUnit ++ st).
Proof.
  revert st. induction n as [|n IH]; intros st; [done|]. cbn [replicate]. rewrite run_cons. cbn [exec exec_at]. rewrite IH. by rewrite (replicate_cons_app n), <-app_assoc.
Qed.
Lemma slot_of_result ws v st i : slot_of (results ws v st) (S (length st) + i) = ws !! i.
Proof.
  unfold slot_of, results. rewrite reverse_app, reverse_cons, reverse_involutive, <-app_assoc. cbn [app]. rewrite lookup_app_r by (rewrite length_reverse; lia).
  rewrite length_reverse. by replace (S (length st) + i - length st) with (S i) by lia.
Qed.
Lemma env_of_reserved depth ws v st names name : name ≠ OR_BIND_SCRUT → length ws = length names →
  env_of (mkLocal OR_BIND_SCRUT depth (length st) :: reserved depth (S (length st)) names) (results ws v st) name =
  match find_local (reserved depth (S (length st)) names) name with Some slot => ws !! (slot - S (length st)) | None => None end.
Proof.
  intros Hn Hlen. unfold env_of. change (?l :: reserved ?a ?b ?d) with ([l] ++ reserved a b d). rewrite find_local_app, find_local_one.
  destruct (find_local _ name) as [slot|] eqn:E.
  - destruct (find_local_slot _ _ _ E) as (l & (i & Hi & El)%in_reserved & _ & <-). rewrite El. cbn [mbind option_bind l_slot]. rewrite slot_of_result.
    f_equal. lia.
  - destruct (N.eqb_spec OR_BIND_SCRUT name); [done|]. done.
Qed.

(** The names' locals are of the names, and the copy's of none written. *)
Lemma reserved_found depth slot names name : name ∈ names → ∃ i, names !! i = Some name ∧ find_local (reserved depth slot names) name = Some (slot + i).
Proof.
  intros [i Hi]%list_elem_of_lookup_1. destruct (find_local_some (reserved depth slot names) (mkLocal name depth (slot + i))) as [s E]; [by apply in_reserved; exists i|].
  cbn [l_name] in E. destruct (find_local_slot _ _ _ E) as (l & (j & Hj & El)%in_reserved & Hname & Hslot). exists j. rewrite El in Hslot. cbn in Hslot.
  split; [congruence|]. by rewrite E, Hslot.
Qed.
Lemma named_env depth names ws v st b name : name ≠ OR_BIND_SCRUT → ¬ is_hidden name → named_values names ws b →
  env_of (mkLocal OR_BIND_SCRUT depth (length st) :: reserved depth (S (length st)) names) (results ws v st) name = value_of (values_of b names) name.
Proof.
  intros Hne Hn [Hlen Hws]. rewrite env_of_reserved, value_of_values by done. destruct (decide (name ∈ names)) as [Hin|Hin].
  - destruct (reserved_found depth (S (length st)) names name Hin) as (i & Hi & ->). rewrite <-(Hws i name Hi Hn). f_equal. lia.
  - destruct (find_local _ name) as [slot|] eqn:E; [|done]. destruct (find_local_slot _ _ _ E) as (l & (i & Hi & _)%in_reserved & Hname & _).
    destruct Hin. apply list_elem_of_lookup_2 in Hi. by rewrite Hname in Hi.
Qed.

(** The alternatives' ends, bound. *)
Lemma ends_bound e0 e' new ends h : well_labelled e0 → steps e0 e' new → (∀ l, l ∈ ends → next_label e0 ≤ l < next_label e') →
  (reachable e0 = true → level e' h ∧ (∀ l, l ∈ ends → arrives_at e' l h) ∧ (reachable e' = true ∨ ∃ l, l ∈ ends ∧ arrives e' l)) →
  let e2 := emits (IBind <$> ends) e' in steps e0 e2 (new ++ (IBind <$> ends)) ∧ (reachable e0 = true → reachable e2 = true ∧ height e2 = h).
Proof.
  intros Hw [N W D K C B] Hends L e2. destruct (emits_code (IBind <$> ends) e') as [Hcode Hnext]. fold e2 in Hcode, Hnext.
  assert (arriving e2 = arriving e' ∧ (reachable e0 = true → reachable e2 = true ∧ height e2 = h) ∧ (reachable e0 = false → reachable e2 = false)) as (A2 & L2 & D2).
  { destruct (reachable e0) eqn:Er.
    - destruct (L eq_refl) as (H1 & H2 & H3). destruct (binds_level ends _ _ H1 H2) as (I1 & I2 & I3). fold e2 in I1, I2, I3.
      split_and!; [done| |done]. intros _. assert (reachable e2 = true) as H by (by apply I3). by split; [|apply I1].
    - destruct (D eq_refl) as [Hd Ha]. assert (∀ l, l ∈ ends → ¬ arrives e' l) as Hnone.
      { intros l Hl H. unfold arrives in H. rewrite Ha in H. apply Hw in H. apply Hends in Hl. lia. }
      destruct (binds_level ends 0 e') as (I1 & I2 & I3); [intros H; congruence| |].
      { intros l Hl a Ha'. destruct (Hnone l Hl). by exists a. }
      fold e2 in I1, I2, I3. split_and!; [done|done|]. intros _. apply not_true_is_false. rewrite I3. intros [H|(l & Hl & H)]; [congruence|by apply (Hnone l)]. }
  split; [|done]. split.
  - lia.
  - intros _ l. unfold arrives. rewrite A2, Hnext. by apply W.
  - intros Hd. rewrite A2. split; [by apply D2|by apply D].
  - by rewrite A2.
  - by rewrite Hcode, C, app_assoc.
  - intros l [H|H%bound_in_binds]%elem_of_app; [by apply B|]. apply Hends in H. lia.
Qed.

Lemma or_binds (test : Pattern → Compile (list (nat * nat))) (f : Pattern → Val → option bool) sub vars (g : Pattern → Val → option Binds) names alts : alts ≠ [] →
  (∀ p, p ∈ alts → tests outside pin 0 (test p) (f p) ∧ binds_as on_top (vars p) (of_top (g p)) (sub p) ∧ ∀ name, name ∈ names → name ∈ vars p) →
  binds_as on_top names (of_top (λ v, b ← chosen (λ p, f p v) (λ p, g p v) alts; Some (values_of b names)))
    (emit IDup;; scrut_slot ← add_local OR_BIND_SCRUT; emit (ISetLocal scrut_slot);; slots ← reserve_names names; c ← look id;
     ends ← bind_alternatives test sub scrut_slot names slots (length (locals c)) (height (emitter c)) alts; bind_all ends).
Proof.
  intros Hne Halts c Hc. set (n := length names). set (s := height (emitter c)). set (before := IDup :: ISetLocal s :: replicate n (IConstant VUnit)).
  set (more := mkLocal OR_BIND_SCRUT (scope_depth c) s :: reserved (scope_depth c) (S s) names).
  set (e1 := emits before (emitter c)). set (c1 := mkCtx e1 (locals c ++ more) (scope_depth c) (scope_starts c) (pattern_floor c)).
  assert (reachable e1 = reachable (emitter c) ∧ height e1 = n + S s ∧ arriving e1 = arriving (emitter c)) as (Sr & Sh & Sa)
    by apply (reserve_static n (emit_code (ISetLocal s) (emit_code IDup (emitter c)))).
  destruct (emits_code before (emitter c)) as [Sc Sn]. fold e1 in Sc, Sn.
  assert (binding c1) as Hc1.
  { destruct Hc as [Hf Hb Ho Hw]. split; [done|cbn; rewrite length_app; lia| |intros l; unfold arrives; cbn; rewrite Sa, Sn; apply Hw].
    unfold locals_outside in *. cbn. rewrite Hf in *. cbn in *. by rewrite take_app_le. }
  destruct (alternatives_bind test f sub vars g names s (seq (S s) n) (height e1) alts Hne Halts c1 Hc1) as (e2 & ends & new & E & St & Hends & Live & X).
  cbn [c1 emitter] in *. fold c1 in E.
  destruct (ends_bound e1 e2 new ends (height e1) (bi_labelled _ Hc1) St Hends) as [[N W D K C B] L]; [intros Hr; by apply Live|].
  set (e3 := emits (IBind <$> ends) e2) in *. rewrite Sr, Sa, Sn in *.
  exists (mkCtx e3 (locals c ++ more) (scope_depth c) (scope_starts c) (pattern_floor c)). split.
  { unfold mbind, compile_bind, emit, changed, add_local, height_now, look, mbind, compile_bind. cbn -[bind_alternatives reserve_names]. unfold changed, mbind, compile_bind, mret, compile_ret.
    rewrite reserve_is. cbn -[bind_alternatives emits]. rewrite <-(app_assoc (locals c)). fold s n. change (id ?x) with x. cbn [emitter locals].
    change (emits (replicate n (IConstant VUnit)) _) with e1. change ([_] ++ reserved (scope_depth c) (S s) names) with more. fold c1.
    change (locals c ++ more) with (locals c1). rewrite E, bind_all_is. done. }
  split; cbn [emitter scope_depth].
  - done.
  - by apply W, Hc1.
  - intros Hr. destruct (L Hr) as [? H]. split; [done|]. rewrite H, Sh. fold s. lia.
  - done.
  - done.
  - exists more, (before ++ new ++ (IBind <$> ends)). split_and!.
    + done.
    + intros name Hname. unfold more. change (?l :: reserved ?a ?b ?d) with ([l] ++ reserved a b d). rewrite find_local_app.
      by destruct (reserved_found (scope_depth c) (S s) names name Hname) as (i & _ & ->).
    + intros l [->|(i & _ & ->)%in_reserved]%elem_of_cons; done.
    + by rewrite C, Sc, <-app_assoc.
    + intros l [H|H]%elem_of_app; [|by apply B]. apply elem_of_cons in H as [?|[?|[? _]%elem_of_replicate]%elem_of_cons]; done.
    + intros st [Hst Hpos] Hr Hheight. fold s in Hheight. destruct st as [|v st]; [cbn in Hpos; lia|]. cbn [head mbind option_bind].
      specialize (X (v :: st) v (replicate n VUnit) Hst Hheight). rewrite Hheight in X at 1. specialize (X eq_refl).
      rewrite results_length, length_replicate, Sh, Hheight in X. specialize (X ltac:(lia) eq_refl Hr eq_refl).
      assert (run before (At (v :: st)) = At (results (replicate n VUnit) v (v :: st))) as Hbefore.
      { unfold before. rewrite run_cons. cbn [exec exec_at]. rewrite run_cons. cbn [exec exec_at]. rewrite Hheight, set_slot_top, run_reserve.
        unfold results. by rewrite reverse_replicate. }
      rewrite run_app, Hbefore, run_app. unfold lands in X. destruct (chosen _ _ alts) as [b|]; cbn [mbind option_bind]; [|by rewrite X, run_confused].
      destruct X as (ws & Hws & Hrun). exists (reverse ws ++ [v]). pose proof Hws as [Hlen _]. fold n in Hlen.
      assert (run (IBind <$> ends) (run new (At (results (replicate n VUnit) v (v :: st)))) = At (results ws v (v :: st))) as ->.
      { destruct Hrun as [->|(l & Hl & ->)]; [apply run_binds_at|by apply run_binds_to]. }
      rewrite length_app, length_reverse, Hlen. cbn [length] in *. split_and!.
      * unfold results. by rewrite <-app_assoc.
      * destruct (L Hr) as [_ ->]. rewrite Sh. lia.
      * intros l [->|(i & Hi & El)%in_reserved]%elem_of_cons; [cbn [l_slot]; lia|]. rewrite El. cbn [l_slot]. apply lookup_lt_Some in Hi. fold n in Hi. lia.
      * intros name Hn. unfold more. rewrite Hheight. rewrite <-app_assoc. cbn [app]. apply (named_env _ names ws v (v :: st) b name); [|done|done].
        intros ->. apply Hn. unfold is_hidden. set_solver.
Qed.

(** ** Every pattern *)
Lemma in_binding_names p name : name ∈ pattern_binding_names p ↔ name ∈ collect_pattern_vars p.
Proof. unfold pattern_binding_names. rewrite (merge_sort_Permutation N.le). apply elem_of_remove_dups. Qed.
Lemma binds_none g : (∀ v, g v = Some []) → binds_as on_top [] (of_top g) (mret tt).
Proof.
  intros Hg. eapply binds_weaken; [| | |apply (binds_nothing on_top)]; [done|done|]. intros st [_ Hlen]. destruct st as [|v st]; [cbn in Hlen; lia|]. cbn. by rewrite Hg.
Qed.
Lemma fields_bind (dest : Symbol → Destruct) fields :
  Forall (λ f : Symbol * option Pattern, ∀ q, f.2 = Some q → resolved (pinned outside) q = true → binds_as on_top (collect_pattern_vars q) (of_top (pattern_binds pin q)) (compile_pattern_bind_parts q)) fields →
  forallb (λ f : Symbol * option Pattern, match f.2 with Some q => resolved (pinned outside) q | None => true end) fields = true →
  items_bind (items_of (λ _ f, match f.2 with Some q => item_of (dest f.1) q (compile_pattern_bind_parts q) | None => [(BPart (dest f.1), bind_ident f.1)] end) 0 fields)
    (concat ((λ f : Symbol * option Pattern, match f.2 with Some q => collect_pattern_vars q | None => [f.1] end) <$> fields))
    (λ v, all_binds (λ _ f, match f.2 with Some q => part_binds (dest f.1) q v (pattern_binds pin q) | None => name_binds (dest f.1) f.1 v end) 0 fields).
Proof.
  intros IH Hf. apply (items_of_bind _ (λ f : Symbol * option Pattern, match f.2 with Some q => collect_pattern_vars q | None => [f.1] end)
    (λ _ f v, match f.2 with Some q => part_binds (dest f.1) q v (pattern_binds pin q) | None => name_binds (dest f.1) f.1 v end)).
  intros i [name [q|]] Hin; cbn [fst snd].
  - apply item_of_binds. rewrite Forall_forall in IH. apply (IH _ Hin q eq_refl). exact (forallb_elem _ _ _ Hf Hin).
  - apply (items_one (BPart (dest name)) (bind_ident name) [name] (λ w, Some [(name, w)])). apply bind_ident_binds.
Qed.
Lemma parts_bind (dest : nat → Destruct) pats :
  Forall (λ q, resolved (pinned outside) q = true → binds_as on_top (collect_pattern_vars q) (of_top (pattern_binds pin q)) (compile_pattern_bind_parts q)) pats →
  forallb (resolved (pinned outside)) pats = true →
  items_bind (items_of (λ i q, item_of (dest i) q (compile_pattern_bind_parts q)) 0 pats) (concat (collect_pattern_vars <$> pats))
    (λ v, all_binds (λ i q, part_binds (dest i) q v (pattern_binds pin q)) 0 pats).
Proof.
  intros IH Hf. apply (items_of_bind _ collect_pattern_vars (λ i q v, part_binds (dest i) q v (pattern_binds pin q))). intros i q Hin.
  apply item_of_binds. rewrite Forall_forall in IH. apply (IH _ Hin). exact (forallb_elem _ _ _ Hf Hin).
Qed.

Lemma compile_bind_binds p : resolved (pinned outside) p = true →
  binds_as on_top (collect_pattern_vars p) (of_top (pattern_binds pin p)) (compile_pattern_bind_parts p).
Proof.
  induction p as [res irr k IH] using Pattern_ind'. intros Hp.
  destruct k as [|name|n|bits|b|s|pats|q n args|m n fields r|fields r|pats rest|alts|lo hi|lo hi|entries|name]; try by apply binds_none.
  - apply bind_ident_binds.
  - by apply compound_binds, (parts_bind DestructTuple).
  - cbn in Hp. apply andb_true_iff in Hp as [_ Hp]. by apply compound_binds, (parts_bind DestructVariant).
  - cbn in Hp. apply andb_true_iff in Hp as [Ht Hp]. destruct n as [n|].
    + cbn [compile_pattern_bind_parts pattern_binds pattern_record_type]. destruct (record_type res n) as [ty|]; [|done].
      by apply compound_binds, (fields_bind (λ f, destruct_field (field_read (Some ty) f))).
    + by apply compound_binds, (fields_bind (λ f, destruct_field (field_read None f))).
  - apply compound_binds. apply items_app; [by apply (fields_bind DestructRecordFieldNamed)|]. destruct r as [name|]; [|apply items_nil].
    apply (items_one (BRecordRest (fst <$> fields)) (bind_ident name) [name] (λ w, Some [(name, w)])). apply bind_ident_binds.
  - destruct IH as [IH IHr]. cbn in Hp. apply andb_true_iff in Hp as [Hp Hr]. apply compound_binds. apply items_app; [by apply (parts_bind DestructList)|].
    destruct rest as [p|]; [|apply items_nil]. by apply item_of_binds, IHr.
  - cbn in Hp. destruct alts as [|first others]; [done|]. apply andb_true_iff in Hp as [Hp Hsame]. rewrite Forall_forall in IH.
    pose proof (IH first ltac:(left) (forallb_elem _ _ _ Hp ltac:(left))) as Hfirst.
    assert (∀ p, p ∈ first :: others → pattern_binding_names p = pattern_binding_names first) as Hnames.
    { intros p [->|Hin]%elem_of_cons; [done|]. by pose proof (forallb_elem _ _ _ Hsame Hin) as H%bool_decide_eq_true. }
    cbn [compile_pattern_bind_parts pattern_binds collect_pattern_vars].
    assert (existsb (λ alt, negb (bool_decide (pattern_binding_names alt = pattern_binding_names first))) others = false) as ->.
    { apply not_true_is_false. intros (p & Hin & H)%existsb_exists. rewrite Hnames in H by (right; by apply list_elem_of_In). by rewrite bool_decide_true in H. }
    destruct (pattern_binding_names first) as [|n names] eqn:En.
    { eapply binds_weaken; [| | |apply (binds_none (λ _, Some []))]; try done; [|intros st _; apply same_refl].
      intros name Hin%in_binding_names. by rewrite En in Hin. }
    rewrite <-En. destruct others as [|second others]; [by apply binds_floor|].
    eapply binds_weaken; [| | |apply (or_binds _ (pattern_test pin) compile_pattern_bind_parts collect_pattern_vars (pattern_binds pin) (pattern_binding_names first) (first :: second :: others))].
    + done.
    + intros name. by rewrite in_binding_names.
    + intros st _. cbn beta. rewrite ?En. apply same_refl.
    + done.
    + intros p Hin. split_and!.
      * by apply compile_test_tests, (forallb_elem _ _ _ Hp Hin).
      * by apply IH, (forallb_elem _ _ _ Hp Hin).
      * intros name. rewrite En, <-(Hnames p Hin). by rewrite in_binding_names.
  - cbn in Hp. apply compound_binds. apply (items_of_bind _ (λ e : string * Pattern, collect_pattern_vars e.2) (λ _ e v, part_binds (DestructMapValue e.1) e.2 v (pattern_binds pin e.2))).
    intros i e Hin. apply item_of_binds. rewrite Forall_forall in IH. apply (IH _ Hin). exact (forallb_elem _ _ _ Hp Hin).
Qed.
End binding.
