(* ===== verification/MatchFacts.v ===== *)
(** * What the code of a match does (src/compiler/mod.rs)

    The value of a [match] as a function of the names in scope
    ([match_result]), and that its code computes it: the arms are tried in
    order, the first whose pattern matches and whose guard holds gives the
    value, in the scope of the pattern's names; an or-pattern under a guard
    is tried way by way. *)

From S2P Require Import Prelude Float Tree PatternCode PatternFacts PatternBind.
Open Scope nat_scope.
Notation Binds := (list (Symbol * Val)) (only parsing).
Notation Env := (Symbol → option Val) (only parsing).

(** ** What is meant *)
Inductive Result := Gives (v : Val) | Panics (message : Val) | Stuck.
Definition gives (v : option Val) : Result := match v with Some v => Gives v | None => Stuck end.
Definition over (b : Binds) (env : Env) : Env := λ name, match value_of b name with Some v => Some v | None => env name end.

Section meaning.
Context {program : Program} {world : World}.

(** The value of a pinned name. *)
Definition pin_of (env : Env) (res : option Res) (name : Symbol) : option Val :=
  match env name with
  | Some v => Some v
  | None => match upvalue name with Some index => Some (upvalues index) | None => globals <$> value_def res end
  end.
Definition guard_holds (guard : option Expr) (env : Env) : option bool :=
  match guard with Some g => is_truthy <$> eval g env | None => Some true end.

(** The names of the first way that matches and whose guard holds. *)
Fixpoint chosen_way (env : Env) (guard : option Expr) (ways : list Pattern) (v : Val) : option (option Binds) :=
  match ways with
  | [] => Some None
  | way :: ways =>
      matches ← pattern_test (pin_of env) way v;
      if matches : bool then
        b ← pattern_binds (pin_of env) way v;
        holds ← guard_holds guard (over b env);
        if holds : bool then Some (Some b) else chosen_way env guard ways v
      else chosen_way env guard ways v
  end.
Definition ways_of (arm : MatchArm) : list Pattern :=
  match guard_of arm with Some _ => if (or_way_count (pattern_of arm) <=? 1)%N then [pattern_of arm] else or_ways (pattern_of arm) | None => [pattern_of arm] end.
Definition arm_result (env : Env) (v : Val) (arm : MatchArm) (otherwise : Result) : Result :=
  match chosen_way env (guard_of arm) (ways_of arm) v with
  | None => Stuck
  | Some None => otherwise
  | Some (Some b) => gives (eval (body_of arm) (over b env))
  end.
Definition arms_result (env : Env) (v : Val) (arms : list MatchArm) : Result := foldr (arm_result env v) (Panics NO_ARM) arms.

(** Without a scrutinee the guards are asked. *)
Definition condition_result (env : Env) (arm : MatchArm) (otherwise : Result) : Result :=
  match guard_holds (guard_of arm) env with Some true => gives (eval (body_of arm) env) | Some false => otherwise | None => Stuck end.
Definition match_result (env : Env) (scrutinee : option Expr) (arms : list MatchArm) : Result :=
  match scrutinee with
  | None => foldr (condition_result env) (Panics NO_CONDITION) arms
  | Some scrutinee => match eval scrutinee env with Some v => arms_result env v arms | None => Stuck end
  end.
End meaning.

(** ** The emitter, from a label on *)
Definition dead_since (lo : nat) (e : CodeState) : Prop := reachable e = false ∧ ∀ l, lo ≤ l → arriving e !! l = None.
Record grows (lo : nat) (e e' : CodeState) (new : list Instr) : Prop := {
  gr_next : next_label e ≤ next_label e';
  gr_labelled : well_labelled e → well_labelled e';
  gr_dead : dead_since lo e → dead_since lo e' ∧ arriving e' = arriving e;
  gr_old l : l < lo → arriving e' !! l = arriving e !! l;
  gr_code : code e' = code e ++ new;
  gr_binds : binds_from lo new;
}.
Definition plain (i : Instr) : bool := match i with IJump _ | IJumpIfFalse _ | IJumpIfTrue _ | IBind _ | IPanic => false | _ => true end.

Section growing.
Lemma grows_refl lo e : grows lo e e [].
Proof. split; try done; [by rewrite app_nil_r|intros ? []%elem_of_nil]. Qed.
Lemma grows_trans lo e1 e2 e3 a b : grows lo e1 e2 a → grows lo e2 e3 b → grows lo e1 e3 (a ++ b).
Proof.
  intros [N1 W1 D1 O1 C1 B1] [N2 W2 D2 O2 C2 B2]. split.
  - lia.
  - auto.
  - intros H. destruct (D1 H) as [H1 E1], (D2 H1) as [H2 E2]. split; [done|congruence].
  - intros l Hl. by rewrite O2, O1.
  - by rewrite C2, C1, app_assoc.
  - intros l [H|H]%elem_of_app; [by apply B1|by apply B2].
Qed.
Lemma grows_weaken lo lo' e e' new : lo ≤ lo' → grows lo' e e' new → grows lo e e' new.
Proof.
  intros Hlo [N W D K C B]. split; try done.
  - intros [Hr Hd]. assert (dead_since lo' e) as Hd' by (split; [done|]; intros l Hl; apply Hd; lia). destruct (D Hd') as [[? _] Ha]. split; [|done]. split; [done|]. by rewrite Ha.
  - intros l Hl. apply K. lia.
  - intros l Hl%B. lia.
Qed.
Lemma grows_plain lo e i : plain i = true → grows lo e (emit_code i e) [i].
Proof.
  intros Hi. assert (reachable (emit_code i e) = reachable e ∧ arriving (emit_code i e) = arriving e ∧ next_label (emit_code i e) = next_label e ∧
    code (emit_code i e) = code e ++ [i]) as (Hr & Ha & Hn & Hc) by (by destruct i).
  split; unfold dead_since, well_labelled, arrives; rewrite ?Hr, ?Ha, ?Hn; try done.
  intros l H%list_elem_of_singleton. by subst.
Qed.
Lemma grows_panic lo e : grows lo e (emit_code IPanic e) [IPanic].
Proof. split; try done; [by intros [? ?]|]. by intros l H%list_elem_of_singleton. Qed.
Lemma emits_cons i l e : emits (i :: l) e = emits l (emit_code i e).
Proof. done. Qed.
(** A jump to a new label on a condition, and a plain one. *)
Definition jumps (i : nat → Instr) : Prop := i = IJumpIfFalse ∨ i = IJumpIfTrue.
Lemma grows_jump lo e i : jumps i → lo ≤ next_label e → well_labelled e →
  let e' := emit_code (i (next_label e)) (fresh e) in
  grows lo e e' [i (next_label e)] ∧ next_label e' = S (next_label e) ∧
  arriving e' = if reachable e then <[next_label e := height_after (i (next_label e)) (height e)]> (arriving e) else arriving e.
Proof.
  intros Hi Hlo Hw. cbn zeta.
  assert (arriving e !! next_label e = None) as Hnone by (apply eq_None_not_Some; intros H%Hw; lia).
  assert (arriving (emit_code (i (next_label e)) (fresh e)) =
    if reachable e then <[next_label e := height_after (i (next_label e)) (height e)]> (arriving e) else arriving e) as Ha.
  { destruct Hi as [->| ->]; cbn; by rewrite Hnone. }
  assert (next_label (emit_code (i (next_label e)) (fresh e)) = S (next_label e)) as Hn by (by destruct Hi as [->| ->]).
  split_and!; [|done|done]. split.
  - lia.
  - intros _ l. unfold arrives. rewrite Ha, Hn. destruct (reachable e); [|intros H%Hw; lia].
    destruct (decide (l = next_label e)) as [->|Hne]; [lia|]. rewrite lookup_insert_ne by done. intros H%Hw. lia.
  - intros [Hr Hd]. rewrite Hr in Ha. split; [|done]. split; [by destruct Hi as [->| ->]|]. by rewrite Ha.
  - intros l Hl. rewrite Ha. destruct (reachable e); [|done]. by rewrite lookup_insert_ne by lia.
  - by destruct Hi as [->| ->].
  - intros l H%list_elem_of_singleton. by destruct Hi as [->| ->].
Qed.
Lemma grows_jumped lo e : lo ≤ next_label e → well_labelled e → grows lo e (jumped e) (jump_code e).
Proof.
  intros Hlo Hw. destruct (jumped_facts e) as (C & N & R & _). pose proof (jump_arriving e Hw) as A. split.
  - lia.
  - apply jump_labelled.
  - intros [Hr Hd]. rewrite Hr in A. split; [|done]. split; [done|]. by rewrite A.
  - intros l Hl. rewrite A. destruct (reachable e); [|done]. by rewrite lookup_insert_ne by lia.
  - done.
  - by intros l H%in_jump_code.
Qed.
Lemma grows_bind lo e l : lo ≤ l → grows lo e (emit_code (IBind l) e) [IBind l].
Proof.
  intros Hl. destruct (bind_facts l e) as (Hc & Hn & Ha). split; unfold dead_since, well_labelled, arrives; rewrite ?Ha, ?Hn; try done.
  - intros [Hr Hd]. split_and!; [|done|done]. destruct (bind_not_arrived l e) as [-> _]; [by apply Hd|done].
  - intros l' H'%list_elem_of_singleton. by injection H' as ->.
Qed.
Lemma grows_all lo new : ∀ e, (∀ i, i ∈ new → plain i = true ∨ ∃ l, i = IBind l ∧ lo ≤ l) → grows lo e (emits new e) new.
Proof.
  induction new as [|i new IH]; intros e H; [apply grows_refl|]. rewrite emits_cons.
  apply (grows_trans lo e (emit_code i e) _ [i]); [|apply IH; intros ? ?; apply H; by right].
  destruct (H i ltac:(left)) as [Hi|(l & -> & Hl)]; [by apply grows_plain|by apply grows_bind].
Qed.
Lemma grows_binds lo ls e : (∀ l, l ∈ ls → lo ≤ l) → grows lo e (emits (IBind <$> ls) e) (IBind <$> ls).
Proof. intros H. apply grows_all. intros i (l & -> & Hl)%list_elem_of_fmap. right. exists l. split; [done|by apply H]. Qed.
Lemma in_trampolines_only base (F : list (nat * nat)) i : i ∈ trampolines F base → i = IPop ∨ ∃ l, i = IBind l ∧ l ∈ F.*1.
Proof.
  assert (∀ l, IBind l ∈ trampolines F base → IBind l = IPop ∨ ∃ l', IBind l = IBind l' ∧ l' ∈ F.*1) as Hb by (intros l Hl%in_trampolines; right; by exists l).
  intros Hi. assert (i = IPop ∨ ∃ l, i = IBind l) as [->|[l ->]]; [|by left|by apply Hb]. clear Hb. unfold trampolines in Hi. apply elem_of_app in Hi as [Hi|Hi].
  - induction (max_depth F base - base) as [|n IH]; cbn [pops_code] in Hi; [by apply elem_of_nil in Hi|].
    apply elem_of_app in Hi as [Hi|[->|Hi]%elem_of_cons]; [|by left|by apply IH]. unfold binds_of in Hi. apply list_elem_of_fmap in Hi as (l & -> & _). right. by exists l.
  - apply list_elem_of_fmap in Hi as (l & -> & _). right. by exists l.
Qed.
Lemma binds_arriving ls : ∀ e, arriving (emits (IBind <$> ls) e) = arriving e.
Proof. induction ls as [|l ls IH]; intros e; [done|]. rewrite fmap_cons, emits_cons, IH. apply bind_facts. Qed.
Lemma binds_next ls e : next_label (emits (IBind <$> ls) e) = next_label e.
Proof. apply emits_code. Qed.
Lemma binds_reach ls : ∀ e, reachable e = true ∨ (∃ l, l ∈ ls ∧ arrives e l) → reachable (emits (IBind <$> ls) e) = true.
Proof.
  induction ls as [|l ls IH]; intros e H; [by destruct H as [?|(? & []%elem_of_nil & _)]|]. rewrite fmap_cons, emits_cons. apply IH.
  destruct (bind_facts l e) as (_ & _ & Ha). unfold arrives. rewrite Ha. destruct H as [H|(l' & [->|Hl']%elem_of_cons & H)].
  - left. cbn. by destruct (arriving e !! l).
  - left. destruct H as [a Ha']. cbn. by rewrite Ha'.
  - right. by exists l'.
Qed.
Lemma steps_grows lo e e' new : steps e e' new → lo ≤ next_label e → well_labelled e → grows lo e e' new.
Proof.
  intros [N W D K C B] Hlo Hw. split; try done.
  - intros [Hr Hd]. destruct (D Hr) as [Hr' Ha]. split; [|done]. split; [done|]. by rewrite Ha.
  - intros l Hl. apply K. lia.
  - intros l H%B. lia.
Qed.
Lemma grows_steps e e' new : grows (next_label e) e e' new → well_labelled e → steps e e' new.
Proof.
  intros [N W D K C B] Hw. split; try done. intros Hr. assert (dead_since (next_label e) e) as H; [|by destruct (D H) as [[? _] ?]].
  split; [done|]. intros l Hl. apply eq_None_not_Some. intros H%Hw. lia.
Qed.
End growing.

(** ** The names of a pattern, and of its ways *)
Lemma value_of_in b name w : value_of b name = Some w → (name, w) ∈ b.
Proof.
  unfold value_of. destruct (last _) as [[n x]|] eqn:E; [|done]. intros [= ->]. apply last_Some_elem_of, list_elem_of_In, filter_In in E as [Hin E%N.eqb_eq].
  cbn in E. subst. by apply list_elem_of_In.
Qed.
Lemma in_values_of b names name w : (name, w) ∈ values_of b names → name ∈ names ∧ value_of b name = Some w.
Proof.
  unfold values_of. intros (n & Hn & E)%list_elem_of_omap. destruct (value_of b n) as [x|] eqn:Ex; [|done]. by injection E as <- <-.
Qed.
Section ways.
Context {program : Program} {hidden : HiddenNames} {world : World}.

Lemma in_all_binds {A} (f : nat → A → option Binds) l x : ∀ i b, all_binds f i l = Some b → x ∈ b → ∃ j a y, a ∈ l ∧ f j a = Some y ∧ x ∈ y.
Proof.
  induction l as [|a l IH]; intros i b E Hx; cbn in E; [injection E as <-; by apply elem_of_nil in Hx|].
  destruct (f i a) as [y|] eqn:Ef; [|done]. destruct (all_binds f (S i) l) as [z|] eqn:Ez; [|done]. injection E as <-. apply elem_of_app in Hx as [Hx|Hx].
  - exists i, a, y. split_and!; [left|done|done].
  - destruct (IH (S i) z Ez Hx) as (j & a' & y' & Hin & H). exists j, a', y'. split; [by right|done].
Qed.
Lemma chosen_in {A} test (f : Pattern → option A) l x : chosen test f l = Some x → ∃ p, p ∈ l ∧ f p = Some x.
Proof.
  induction l as [|p l IH]; [done|]. destruct l as [|q l]; cbn [chosen]; [intros E; exists p; by split; [left|]|].
  destruct (test p) as [[|]|]; cbn [mbind option_bind]; [|intros E|done].
  - intros E. exists p. by split; [left|].
  - destruct (IH E) as (q' & Hin & H). exists q'. by split; [right|].
Qed.
Lemma binds_vars pin p : ∀ v b x, pattern_binds pin p v = Some b → x ∈ b → x.1 ∈ collect_pattern_vars p.
Proof.
  assert (∀ (d : Destruct) q v b x, (∀ v b x, pattern_binds pin q v = Some b → x ∈ b → x.1 ∈ collect_pattern_vars q) →
    part_binds d q v (pattern_binds pin q) = Some b → x ∈ b → x.1 ∈ collect_pattern_vars q) as Hpart.
  { intros d q v b x H E Hx. unfold part_binds in E. destruct (pattern_has_bindings q); [|injection E as <-; by apply elem_of_nil in Hx].
    destruct (part d v) as [w|]; [|done]. by apply (H w b x). }
  assert (∀ (d : nat → Destruct) pats v b x, Forall (λ q, ∀ v b x, pattern_binds pin q v = Some b → x ∈ b → x.1 ∈ collect_pattern_vars q) pats →
    all_binds (λ i q, part_binds (d i) q v (pattern_binds pin q)) 0 pats = Some b → x ∈ b → x.1 ∈ concat (collect_pattern_vars <$> pats)) as Hparts.
  { intros d pats v b x IH E Hx. destruct (in_all_binds _ _ _ _ _ E Hx) as (j & q & y & Hq & Ey & Hy). rewrite Forall_forall in IH.
    apply list_elem_of_In, in_concat. exists (collect_pattern_vars q). split; apply list_elem_of_In; [apply list_elem_of_fmap; by exists q|].
    by apply (Hpart (d j) q v y x (IH q Hq)). }
  assert (∀ (d : Symbol → Destruct) fields v b x, Forall (λ f : Symbol * option Pattern, ∀ q, f.2 = Some q → ∀ v b x, pattern_binds pin q v = Some b → x ∈ b → x.1 ∈ collect_pattern_vars q) fields →
    all_binds (λ _ f, match f.2 with Some q => part_binds (d f.1) q v (pattern_binds pin q) | None => name_binds (d f.1) f.1 v end) 0 fields = Some b → x ∈ b →
    x.1 ∈ concat ((λ f : Symbol * option Pattern, match f.2 with Some q => collect_pattern_vars q | None => [f.1] end) <$> fields)) as Hfields.
  { intros d fields v b x IH E Hx. destruct (in_all_binds _ _ _ _ _ E Hx) as (j & f & y & Hf & Ey & Hy). rewrite Forall_forall in IH.
    apply list_elem_of_In, in_concat. eexists. split; apply list_elem_of_In; [apply list_elem_of_fmap; by exists f|].
    destruct f as [name [q|]]; cbn [fst snd] in *; [by apply (Hpart (d name) q v y x (IH _ Hf q eq_refl))|].
    unfold name_binds in Ey. destruct (part (d name) v); [|done]. injection Ey as <-. apply list_elem_of_singleton in Hy as ->. by apply list_elem_of_singleton. }
  induction p as [res irr k IH] using Pattern_ind'. intros v b x E Hx.
  destruct k as [|name|n|bits|c|s|pats|q n args|m n fields r|fields r|pats rest|alts|lo hi|lo hi|entries|name]; cbn [pattern_binds collect_pattern_vars] in *;
    try (injection E as <-; by apply elem_of_nil in Hx).
  - injection E as <-. apply list_elem_of_singleton in Hx as ->. by apply list_elem_of_singleton.
  - by apply (Hparts DestructTuple pats v b x).
  - by apply (Hparts DestructVariant args v b x).
  - destruct n as [n|]; cbn [mbind option_bind] in E; [destruct (record_type res n) as [ty|]; [|done]|]; cbn [fmap option_fmap option_map mbind option_bind] in E.
    + by apply (Hfields (λ f, destruct_field (field_read (Some ty) f)) fields v b x).
    + by apply (Hfields (λ f, destruct_field (field_read None f)) fields v b x).
  - destruct (all_binds _ 0 fields) as [y|] eqn:Ey; [|done]. cbn [mbind option_bind] in E. apply elem_of_app. destruct r as [r|].
    + destruct (record_rest (fst <$> fields) v) as [w|]; [|done]. injection E as <-. apply elem_of_app in Hx as [Hx| ->%list_elem_of_singleton]; [left|right; by apply list_elem_of_singleton].
      by apply (Hfields DestructRecordFieldNamed fields v y x).
    + injection E as <-. rewrite app_nil_r in Hx. left. by apply (Hfields DestructRecordFieldNamed fields v y x).
  - destruct IH as [IH IHr]. destruct (all_binds _ 0 pats) as [y|] eqn:Ey; [|done]. cbn [mbind option_bind] in E. apply elem_of_app. destruct rest as [r|].
    + destruct (part_binds _ r v _) as [z|] eqn:Ez; [|done]. injection E as <-. apply elem_of_app in Hx as [Hx|Hx]; [left; by apply (Hparts DestructList pats v y x)|right].
      exact (Hpart _ r v z x (IHr r eq_refl) Ez Hx).
    + injection E as <-. rewrite app_nil_r in Hx. left. by apply (Hparts DestructList pats v y x).
  - destruct alts as [|first others]; [injection E as <-; by apply elem_of_nil in Hx|]. destruct (pattern_binding_names first) as [|n names] eqn:En.
    { injection E as <-. by apply elem_of_nil in Hx. }
    apply Forall_cons in IH as [IH _]. destruct others as [|second others]; [by apply (IH v b x)|].
    destruct (chosen _ _ _) as [y|]; [|done]. injection E as <-. destruct x as [name w]. change (match pair n <$> value_of y n with Some z => z :: values_of y names | None => values_of y names end) with (values_of y (n :: names)) in Hx.
    apply in_values_of in Hx as [Hx _]. rewrite <-En in Hx.
    cbn. by apply in_binding_names.
  - destruct (in_all_binds _ _ _ _ _ E Hx) as (j & e & y & He & Ey & Hy). rewrite Forall_forall in IH. apply list_elem_of_In, in_concat.
    eexists. split; apply list_elem_of_In; [apply list_elem_of_fmap; by exists e|]. exact (Hpart _ e.2 v y x (IH e He) Ey Hy).
Qed.

(** The ways bind what the pattern binds. *)
Lemma choices_snoc {A} (parts : list (list A)) ways : choices (parts ++ [ways]) = choices parts ≫= λ chosen, (λ way, chosen ++ [way]) <$> ways.
Proof. unfold choices. by rewrite foldl_app. Qed.
Lemma in_choices {A} (parts : list (list A)) c : c ∈ choices parts → Forall2 (λ way ways, way ∈ ways) c parts.
Proof.
  revert c. induction parts as [|ways parts IH] using rev_ind; intros c H.
  - apply list_elem_of_singleton in H as ->. constructor.
  - rewrite choices_snoc in H. apply list_elem_of_bind in H as (c' & H & Hc'). apply list_elem_of_fmap in H as (way & -> & Hway).
    apply Forall2_app; [by apply IH|]. by constructor.
Qed.
Definition way_like (pins : option Res → Symbol → bool) (way p : Pattern) : Prop :=
  resolved pins way = true ∧ ∀ name, name ∈ collect_pattern_vars way ↔ name ∈ collect_pattern_vars p.
Lemma ways_concat {A} (vars : A → list Symbol) l1 l2 : Forall2 (λ a b, ∀ name, name ∈ vars a ↔ name ∈ vars b) l1 l2 →
  ∀ name, name ∈ concat (vars <$> l1) ↔ name ∈ concat (vars <$> l2).
Proof. induction 1 as [|a b l1 l2 H _ IH]; intros name; [done|]. cbn. by rewrite !elem_of_app, H, IH. Qed.
Lemma choices_like {A} (part_ways : A → list A) (like : A → A → Prop) parts c : (∀ p way, p ∈ parts → way ∈ part_ways p → like way p) →
  c ∈ choices (part_ways <$> parts) → Forall2 like c parts.
Proof.
  intros H Hc%in_choices. rewrite Forall2_fmap_r in Hc. revert H. induction Hc as [|way p c0 parts0 Hway _ IH]; intros H; constructor.
  - apply H; [left|done].
  - apply IH. intros q w Hq. apply H. by right.
Qed.
Lemma ways_like pins p : resolved pins p = true → ∀ way, way ∈ or_ways p → way_like pins way p.
Proof.
  assert (∀ pats c, Forall (λ p, resolved pins p = true → ∀ way, way ∈ or_ways p → way_like pins way p) pats → forallb (resolved pins) pats = true →
    c ∈ choices (or_ways <$> pats) → length c = length pats ∧ forallb (resolved pins) c = true ∧
    ∀ name, name ∈ concat (collect_pattern_vars <$> c) ↔ name ∈ concat (collect_pattern_vars <$> pats)) as Hparts.
  { intros pats c IH Hr Hc. rewrite Forall_forall in IH. apply (choices_like or_ways (way_like pins)) in Hc.
    - split_and!; [by eapply Forall2_length| |].
      + apply forallb_forall. intros way Hway%list_elem_of_In. apply list_elem_of_lookup in Hway as [i Hi]. by destruct (Forall2_lookup_l _ _ _ _ _ Hc Hi) as (q0 & _ & H & _).
      + apply ways_concat. eapply Forall2_impl; [exact Hc|]. by intros ? ? [_ H].
    - intros q way Hq. apply IH; [done|]. exact (forallb_elem _ _ _ Hr Hq). }
  assert (∀ fields c, Forall (λ f : Symbol * option Pattern, ∀ q, f.2 = Some q → resolved pins q = true → ∀ way, way ∈ or_ways q → way_like pins way q) fields →
    forallb (λ f : Symbol * option Pattern, match f.2 with Some p => resolved pins p | None => true end) fields = true →
    c ∈ choices ((λ f : Symbol * option Pattern, match f.2 with Some p => (λ way, (f.1, Some way)) <$> or_ways p | None => [(f.1, None)] end) <$> fields) →
    fst <$> c = fst <$> fields ∧ forallb (λ f : Symbol * option Pattern, match f.2 with Some p => resolved pins p | None => true end) c = true ∧
    ∀ name, name ∈ concat ((λ f : Symbol * option Pattern, match f.2 with Some p => collect_pattern_vars p | None => [f.1] end) <$> c) ↔
      name ∈ concat ((λ f : Symbol * option Pattern, match f.2 with Some p => collect_pattern_vars p | None => [f.1] end) <$> fields)) as Hfields.
  { intros fields c IH Hr Hc. rewrite Forall_forall in IH.
    apply (choices_like _ (λ a b : Symbol * option Pattern, a.1 = b.1 ∧ match a.2, b.2 with Some w, Some p => way_like pins w p | None, None => True | _, _ => False end)) in Hc.
    - split_and!.
      + clear -Hc. induction Hc as [|a b c fields [H _] _ IH]; [done|]. cbn. by rewrite H, IH.
      + apply forallb_forall. intros f Hf%list_elem_of_In. apply list_elem_of_lookup in Hf as [i Hi]. destruct (Forall2_lookup_l _ _ _ _ _ Hc Hi) as (g & _ & _ & H).
        destruct f as [n [w|]], g as [n' [q|]]; cbn in *; try done. by apply H.
      + apply ways_concat. eapply Forall2_impl; [exact Hc|]. intros [n [w|]] [n' [q|]] [Hn H]; cbn in *; subst; try done. apply H.
    - intros [n [q|]] way Hq; cbn.
      + intros (w & -> & Hw)%list_elem_of_fmap. split; [done|]. apply (IH _ Hq q eq_refl); [|done]. exact (forallb_elem _ _ _ Hr Hq).
      + by intros ->%list_elem_of_singleton. }
  induction p as [res irr k IH] using Pattern_ind'. intros Hp way Hway. cbn [or_ways] in Hway.
  destruct (or_way_count (mkPattern res irr k) <=? 1)%N; [apply list_elem_of_singleton in Hway as ->; done|].
  destruct k as [|name|n|bits|c|s|pats|q n args|m n fields r|fields r|pats rest|alts|lo hi|lo hi|entries|name];
    try (by apply list_elem_of_singleton in Hway as ->).
  - apply list_elem_of_fmap in Hway as (c & -> & Hc). by apply (Hparts pats c).
  - cbn in Hp. apply andb_true_iff in Hp as [Ht Hp]. apply list_elem_of_fmap in Hway as (c & -> & Hc). destruct (Hparts args c IH Hp Hc) as (_ & Hr & Hv).
    split; [|done]. cbn. by rewrite Ht, Hr.
  - cbn in Hp. apply andb_true_iff in Hp as [Ht Hp]. apply list_elem_of_fmap in Hway as (c & -> & Hc). destruct (Hfields fields c IH Hp Hc) as (_ & Hr & Hv).
    split; [|done]. cbn. by rewrite Ht, Hr.
  - cbn in Hp. apply list_elem_of_fmap in Hway as (c & -> & Hc). destruct (Hfields fields c IH Hp Hc) as (_ & Hr & Hv).
    split; [done|]. intros name. cbn. by rewrite !elem_of_app, Hv.
  - destruct IH as [IH _]. cbn in Hp. apply andb_true_iff in Hp as [Hp Hrest]. apply list_elem_of_fmap in Hway as (c & -> & Hc). destruct (Hparts pats c IH Hp Hc) as (_ & Hr & Hv).
    split; [cbn; by rewrite Hr|]. intros name. cbn. by rewrite !elem_of_app, Hv.
  - cbn in Hp. destruct alts as [|first others]; [done|]. apply andb_true_iff in Hp as [Hp Hsame]. rewrite Forall_forall in IH.
    apply list_elem_of_In, in_concat in Hway as (ways & Hways & Hway). apply list_elem_of_In, list_elem_of_fmap in Hways as (alt & -> & Halt).
    apply list_elem_of_In in Hway. destruct (IH alt Halt (forallb_elem _ _ _ Hp Halt) way Hway) as [Hr Hv]. split; [done|]. intros name. rewrite Hv. cbn.
    apply elem_of_cons in Halt as [->|Halt]; [done|]. pose proof (forallb_elem _ _ _ Hsame Halt) as H%bool_decide_eq_true. by rewrite <-!in_binding_names, H.
  - cbn in Hp. apply list_elem_of_fmap in Hway as (c & -> & Hc). rewrite Forall_forall in IH.
    apply (choices_like _ (λ a b : string * Pattern, way_like pins a.2 b.2)) in Hc.
    + split; cbn.
      * apply forallb_forall. intros f Hf%list_elem_of_In. apply list_elem_of_lookup in Hf as [i Hi]. by destruct (Forall2_lookup_l _ _ _ _ _ Hc Hi) as (g & _ & H & _).
      * apply ways_concat. eapply Forall2_impl; [exact Hc|]. by intros a b [_ H].
    + intros e way He. cbn. intros (w & -> & Hw)%list_elem_of_fmap. apply (IH e He); [|done]. exact (forallb_elem _ _ _ Hp He).
Qed.
(** There are as many ways as are counted. *)
Definition product {A} (f : A → N) (l : list A) : N := foldr (λ a n, (f a * n)%N) 1%N l.
Lemma product_cons {A} (f : A → N) a l : product f (a :: l) = (f a * product f l)%N.
Proof. done. Qed.
Lemma product_pos {A} (f : A → N) l : (∀ a, a ∈ l → (1 ≤ f a)%N) → (1 ≤ product f l)%N.
Proof. induction l as [|a l IH]; intros H; [done|]. rewrite product_cons. specialize (H a ltac:(left)) as Ha. assert (1 ≤ product f l)%N by (apply IH; intros b Hb; apply H; by right). nia. Qed.
Lemma product_part {A} (f : A → N) l a : (∀ a, a ∈ l → (1 ≤ f a)%N) → a ∈ l → (f a ≤ product f l)%N.
Proof.
  induction l as [|b l IH]; intros H Hin; [by apply elem_of_nil in Hin|]. rewrite product_cons. pose proof (product_pos f l (λ a Ha, H a ltac:(by right))). specialize (H b ltac:(left)) as Hb.
  apply elem_of_cons in Hin as [->|Hin]; [nia|]. specialize (IH (λ a Ha, H a ltac:(by right)) Hin). nia.
Qed.
Lemma saturating_product {A} (f : A → N) l : ∀ acc, (∀ a, a ∈ l → (1 ≤ f a)%N) → (1 ≤ acc)%N → let r := foldl (λ ways a, saturating_mul ways (f a)) acc l in
  (1 ≤ r)%N ∧ ((r < USIZE_MAX)%N → r = (acc * product f l)%N).
Proof.
  induction l as [|a l IH]; intros acc H Hacc; cbn [foldl]; [split; [done|cbn; lia]|]. rewrite product_cons. specialize (H a ltac:(left)) as Ha.
  assert (1 ≤ saturating_mul acc (f a))%N as Hpos by (unfold saturating_mul, USIZE_MAX; nia).
  destruct (IH (saturating_mul acc (f a)) (λ a Ha, H a ltac:(by right)) Hpos) as [H1 H2]. split; [done|]. intros Hr. specialize (H2 Hr). rewrite H2 in Hr |- *.
  pose proof (product_pos f l (λ a Ha, H a ltac:(by right))). unfold saturating_mul in *. destruct (N.min_spec (acc * f a) USIZE_MAX) as [[? E]|[? E]]; rewrite E in *; nia.
Qed.
Lemma saturating_sum {A} (f : A → N) l : ∀ acc, let r := foldl (λ ways a, saturating_add ways (f a)) acc l in
  (acc `min` USIZE_MAX ≤ r)%N ∧ (∀ a, a ∈ l → (f a `min` USIZE_MAX ≤ r)%N) ∧ ((r < USIZE_MAX)%N → r = (acc + foldr (λ a n, f a + n) 0 l)%N).
Proof.
  induction l as [|a l IH]; intros acc; cbn; [split_and!; [lia|intros a []%elem_of_nil|lia]|]. destruct (IH (saturating_add acc (f a))) as (H1 & H2 & H3). unfold saturating_add in *. split_and!.
  - lia.
  - intros b [->|Hb]%elem_of_cons; [lia|by apply H2].
  - intros Hr. rewrite (H3 Hr) in *. lia.
Qed.
Lemma choices_length {A} (parts : list (list A)) : N.of_nat (length (choices parts)) = product (λ ways, N.of_nat (length ways)) parts.
Proof.
  assert (∀ (made : list (list A)), N.of_nat (length (foldl (λ made ways, made ≫= λ chosen, (λ way, chosen ++ [way]) <$> ways) made parts)) =
    (N.of_nat (length made) * product (λ ways, N.of_nat (length ways)) parts)%N) as H; [|unfold choices; rewrite (H [[]]); cbn [length]; lia].
  induction parts as [|ways parts IH]; intros made; [cbn; lia|]. cbn [foldl]. rewrite IH, product_cons.
  assert (length (made ≫= λ chosen, (λ way, chosen ++ [way]) <$> ways) = length made * length ways) as ->; [|lia].
  induction made as [|c made IHm]; [done|]. cbn [mbind list_bind]. rewrite length_app, length_fmap. change (list_bind _ _ _ made) with (made ≫= λ chosen, (λ way, chosen ++ [way]) <$> ways). rewrite IHm. cbn. lia.
Qed.
Lemma product_fmap {A B} (g : A → B) (f : B → N) l : product f (g <$> l) = product (f ∘ g) l.
Proof. induction l as [|a l IH]; [done|]. rewrite fmap_cons, !product_cons. by rewrite IH. Qed.
Lemma product_ext {A} (f g : A → N) l : (∀ a, a ∈ l → f a = g a) → product f l = product g l.
Proof. induction l as [|a l IH]; intros H; [done|]. rewrite !product_cons, (H a) by left. f_equal. apply IH. intros b Hb. apply H. by right. Qed.
Definition field_count (f : Symbol * option Pattern) : N := match f.2 with Some p => or_way_count p | None => 1%N end.
Lemma or_way_count_pos p : (1 ≤ or_way_count p)%N.
Proof.
  assert (∀ {A} (f : A → N) l, (∀ a, a ∈ l → (1 ≤ f a)%N) → (1 ≤ foldl (λ ways a, saturating_mul ways (f a)) 1 l)%N) as Hprod by (intros A f l H; by apply saturating_product).
  induction p as [res irr k IH] using Pattern_ind'.
  assert (∀ fields, Forall (λ f : Symbol * option Pattern, ∀ p, f.2 = Some p → (1 ≤ or_way_count p)%N) fields → ∀ f, f ∈ fields → (1 ≤ field_count f)%N) as Hfields.
  { intros fields Hf [n [q|]] Hin; [|done]. rewrite Forall_forall in Hf. by apply (Hf _ Hin). }
  destruct k as [|name|n|bits|c|s|pats|q n args|m n fields r|fields r|pats rest|alts|lo hi|lo hi|entries|name]; try done; cbn [or_way_count].
  - apply (Hprod _ or_way_count). by rewrite Forall_forall in IH.
  - apply (Hprod _ or_way_count). by rewrite Forall_forall in IH.
  - apply (Hprod _ field_count). by apply Hfields.
  - apply (Hprod _ field_count). by apply Hfields.
  - apply (Hprod _ or_way_count). destruct IH as [IH _]. by rewrite Forall_forall in IH.
  - destruct (pattern_binding_names _) as [|n names] eqn:En; [done|]. destruct alts as [|first others]; [done|].
    destruct (saturating_sum or_way_count (first :: others) 0) as (_ & H & _). specialize (H first ltac:(left)). apply Forall_cons in IH as [IH _]. cbn [foldl] in *. unfold USIZE_MAX in *. lia.
  - apply (Hprod _ (λ e : string * Pattern, or_way_count e.2)). by rewrite Forall_forall in IH.
Qed.
Lemma count_ways p : (or_way_count p < USIZE_MAX)%N → N.of_nat (length (or_ways p)) = or_way_count p.
Proof.
  assert (∀ {A} (ways : A → list A) (f : A → N) l, (∀ a, a ∈ l → (1 ≤ f a)%N) → (∀ a, a ∈ l → (f a < USIZE_MAX)%N → N.of_nat (length (ways a)) = f a) →
    (foldl (λ ways a, saturating_mul ways (f a)) 1 l < USIZE_MAX)%N → N.of_nat (length (choices (ways <$> l))) = foldl (λ ways a, saturating_mul ways (f a)) 1%N l) as Hprod.
  { intros A ways f l Hpos Hw Hr. destruct (saturating_product f l 1 Hpos ltac:(lia)) as [_ H]. rewrite (H Hr) in Hr |- *. rewrite choices_length, product_fmap, N.mul_1_l in *.
    apply product_ext. intros a Ha. cbn. apply Hw; [done|]. pose proof (product_part f l a Hpos Ha). lia. }
  assert (∀ fields, Forall (λ f : Symbol * option Pattern, ∀ p, f.2 = Some p → (or_way_count p < USIZE_MAX)%N → N.of_nat (length (or_ways p)) = or_way_count p) fields →
    (foldl (λ ways f, saturating_mul ways (field_count f)) 1 fields < USIZE_MAX)%N →
    N.of_nat (length (choices ((λ f : Symbol * option Pattern, match f.2 with Some p => (λ way, (f.1, Some way)) <$> or_ways p | None => [(f.1, None)] end) <$> fields))) =
    foldl (λ ways f, saturating_mul ways (field_count f)) 1%N fields) as Hfields.
  { intros fields Hf. apply Hprod.
    - intros [n [q|]] _; [apply or_way_count_pos|done].
    - intros [n [q|]] Hin Hlt; [|done]. cbn [snd] in *. rewrite length_fmap. rewrite Forall_forall in Hf. by apply (Hf _ Hin). }
  induction p as [res irr k IH] using Pattern_ind'. pose proof (or_way_count_pos (mkPattern res irr k)) as Hpos. intros Hlt. cbn [or_ways].
  destruct (or_way_count (mkPattern res irr k) <=? 1)%N eqn:E1; [apply N.leb_le in E1; cbn [length]; lia|]. apply N.leb_gt in E1.
  destruct k as [|name|n|bits|c|s|pats|q n args|m n fields r|fields r|pats rest|alts|lo hi|lo hi|entries|name]; try (cbn in E1; lia); rewrite ?length_fmap.
  - apply Hprod; [intros; apply or_way_count_pos|by rewrite Forall_forall in IH|done].
  - apply Hprod; [intros; apply or_way_count_pos|by rewrite Forall_forall in IH|done].
  - by apply Hfields.
  - by apply Hfields.
  - destruct IH as [IH _]. apply Hprod; [intros; apply or_way_count_pos|by rewrite Forall_forall in IH|done].
  - assert (or_way_count (mkPattern res irr (POr alts)) = foldl (λ ways alt, saturating_add ways (or_way_count alt)) 0%N alts) as E.
    { cbn [or_way_count] in E1 |- *. destruct (pattern_binding_names _); [lia|done]. }
    rewrite E in *. destruct (saturating_sum or_way_count alts 0) as (_ & Hpart & Hsum). rewrite (Hsum Hlt). rewrite Forall_forall in IH.
    assert (∀ a, a ∈ alts → N.of_nat (length (or_ways a)) = or_way_count a) as Hlen.
    { intros a Ha. apply IH; [done|]. specialize (Hpart a Ha). lia. }
    clear -Hlen. induction alts as [|a alts IH]; [done|]. cbn [fmap list_fmap concat foldr]. rewrite length_app, Nat2N.inj_add, (Hlen a) by left. rewrite IH; [lia|]. intros b Hb. apply Hlen. by right.
  - apply (Hprod _ (λ e : string * Pattern, (λ way, (e.1, way)) <$> or_ways e.2) (λ e, or_way_count e.2)).
    + intros; apply or_way_count_pos.
    + intros e He Hl. rewrite length_fmap. rewrite Forall_forall in IH. by apply IH.
    + done.
Qed.
Lemma resolved_mono (pins1 pins2 : option Res → Symbol → bool) p : (∀ res name, pins1 res name = true → pins2 res name = true) → resolved pins1 p = true → resolved pins2 p = true.
Proof.
  intros Hpins.
  assert (∀ pats, Forall (λ p, resolved pins1 p = true → resolved pins2 p = true) pats → forallb (resolved pins1) pats = true → forallb (resolved pins2) pats = true) as Hparts.
  { intros pats IH H. rewrite Forall_forall in IH. apply forallb_forall. intros q Hq%list_elem_of_In. apply IH; [done|]. exact (forallb_elem _ _ _ H Hq). }
  assert (∀ fields, Forall (λ f : Symbol * option Pattern, ∀ q, f.2 = Some q → resolved pins1 q = true → resolved pins2 q = true) fields →
    forallb (λ f : Symbol * option Pattern, match f.2 with Some p => resolved pins1 p | None => true end) fields = true →
    forallb (λ f : Symbol * option Pattern, match f.2 with Some p => resolved pins2 p | None => true end) fields = true) as Hfields.
  { intros fields IH H. rewrite Forall_forall in IH. apply forallb_forall. intros [n [q|]] Hq%list_elem_of_In; [|done]. apply (IH _ Hq q eq_refl).
    exact (forallb_elem _ _ _ H Hq). }
  induction p as [res irr k IH] using Pattern_ind'. destruct k as [|name|n|bits|c|s|pats|q n args|m n fields r|fields r|pats rest|alts|lo hi|lo hi|entries|name]; cbn; try done.
  - by apply Hparts.
  - intros [-> H]%andb_true_iff. by apply Hparts.
  - intros [-> H]%andb_true_iff. by apply Hfields.
  - by apply Hfields.
  - destruct IH as [IH IHr]. intros [H Hr]%andb_true_iff. rewrite Hparts by done. destruct rest as [r|]; [|done]. by apply IHr.
  - destruct alts as [|first others]; [done|]. intros [H Hsame]%andb_true_iff. change (resolved pins2 first && forallb (resolved pins2) others) with (forallb (resolved pins2) (first :: others)).
    by rewrite (Hparts (first :: others)).
  - intros H. rewrite Forall_forall in IH. apply forallb_forall. intros e He%list_elem_of_In. apply IH; [done|]. exact (forallb_elem _ _ _ H He).
  - apply Hpins.
Qed.
End ways.

(** ** Names in the frame *)

(** What an expression means does not depend on the compiler's names. *)
Class Respects {hidden : HiddenNames} {world : World} : Prop := eval_respects e env env' : (∀ name, ¬ is_hidden name → env name = env' name) → eval e env = eval e env'.

Section framed.
Context {program : Program} {hidden : HiddenNames} {world : World}.

(** The names in scope have their values in the frame. *)
Record framed (ls : list Local_) (env : Env) (st : list Val) : Prop := {
  fr_slots l : l ∈ ls → l_slot l < length st;
  fr_env name : ¬ is_hidden name → env_of ls st name = env name;
}.
Lemma slot_of_some st slot : slot < length st → is_Some (slot_of st slot).
Proof. intros H. unfold slot_of. apply lookup_lt_is_Some_2. by rewrite length_reverse. Qed.
Lemma framed_push k ls env st : framed ls env st → framed ls env (k ++ st).
Proof.
  intros [Hs He]. split; [intros l Hl; rewrite length_app; specialize (Hs l Hl); lia|]. intros name Hn. rewrite <-(He name Hn). unfold env_of.
  destruct (find_local ls name) as [slot|] eqn:E; [|done]. cbn [mbind option_bind]. apply slot_of_app. destruct (find_local_slot _ _ _ E) as (l & Hl & _ & <-). by apply Hs.
Qed.
Lemma framed_agrees ls env st : framed ls env st → agrees ls (pin_of env) st.
Proof.
  intros [Hs He]. split.
  - intros name slot E. destruct (find_local_slot _ _ _ E) as (l & Hl & _ & <-). by apply Hs.
  - intros res name Hn. unfold pin_value, pin_of. rewrite <-(He name Hn). unfold env_of. destruct (find_local ls name) as [slot|] eqn:E; [|done]. cbn [mbind option_bind].
    destruct (find_local_slot _ _ _ E) as (l & Hl & _ & <-). by destruct (slot_of_some st (l_slot l) (Hs l Hl)) as [v ->].
Qed.
Lemma framed_hidden n d s ls env st : is_hidden n → s < length st → framed ls env st → framed (ls ++ [mkLocal n d s]) env st.
Proof.
  intros Hn Hlt [Hs He]. split.
  - intros l [Hl|Hl]%elem_of_app; [by apply Hs|]. by apply list_elem_of_singleton in Hl as ->.
  - intros name Hname. rewrite <-(He name Hname). unfold env_of. rewrite find_local_app, find_local_one. by destruct (N.eqb_spec n name) as [->|].
Qed.
Lemma framed_over ls env st more k b : framed ls env st → (∀ l, l ∈ more → length st ≤ l_slot l < length k + length st) →
  (∀ name, ¬ is_hidden name → env_of more (k ++ st) name = value_of b name) → framed (ls ++ more) (over b env) (k ++ st).
Proof.
  intros [Hs He] Hm Hb. split.
  - intros l [Hl|Hl]%elem_of_app; rewrite length_app; [specialize (Hs l Hl)|specialize (Hm l Hl)]; lia.
  - intros name Hn. unfold over. rewrite <-(Hb name Hn), <-(He name Hn). unfold env_of. rewrite find_local_app. destruct (find_local more name) as [slot|] eqn:E; cbn [mbind option_bind].
    + destruct (find_local_slot _ _ _ E) as (l & Hl & _ & <-). destruct (slot_of_some (k ++ st) (l_slot l)) as [v ->]; [|done]. rewrite length_app. specialize (Hm l Hl). lia.
    + destruct (find_local ls name) as [slot|] eqn:E'; [|done]. cbn [mbind option_bind]. apply slot_of_app. destruct (find_local_slot _ _ _ E') as (l & Hl & _ & <-). by apply Hs.
Qed.
Lemma pinned_hidden n d s ls res name : is_hidden n → pinned ls res name = true → pinned (ls ++ [mkLocal n d s]) res name = true.
Proof.
  intros Hn. assert (∀ ls, locals_outside (mkCtx (mkCode [] 0 true ∅ 0) ls 0 [] None) = ls) as Hout by (intros ?; apply firstn_all).
  unfold pinned, pin_source. rewrite !Hout, find_local_app, find_local_one.
  intros [Hname%negb_true_iff%bool_decide_eq_false H]%andb_true_iff. rewrite bool_decide_false by done. destruct (N.eqb_spec n name) as [->|]; [done|]. exact H.
Qed.
Lemma run_expr `{!Respects} e ls env st : framed ls env st → exec_at (IRun e ls) st = match eval e env with Some w => At (w :: st) | None => Confused end.
Proof. intros [_ He]. cbn [exec_at]. by rewrite (eval_respects e (env_of ls st) env). Qed.

(** *** The pieces of an arm *)
Context {respects : Respects} (env : Env).

Lemma test_steps L base f c c1 F : tested L (pin_of env) base f c c1 F → ∃ new, steps (emitter c) (emitter c1) new ∧
  code (emitter c1) = code (emitter c) ++ new ∧ binds_from (next_label (emitter c)) new.
Proof. intros [R N W G O Li D K (new & C & B & X)]. exists new. by split_and!. Qed.

Lemma bind_code p c : pattern_floor c = None → well_labelled (emitter c) → resolved (pinned (locals c)) p = true → ∃ e' more new,
  compile_pattern_bind p c = Done tt (mkCtx e' (locals c ++ more) (scope_depth c) (scope_starts c) None) ∧ steps (emitter c) e' new ∧
  (reachable (emitter c) = true → reachable e' = true) ∧ (∀ l, l ∈ more → l_depth l = scope_depth c) ∧
  ∀ v st, framed (locals c) env (v :: st) → reachable (emitter c) = true → height (emitter c) = S (length st) →
    match pattern_binds (pin_of env) p v with
    | None => run new (At (v :: st)) = Confused
    | Some b => ∃ k, run new (At (v :: st)) = At (k ++ v :: st) ∧ framed (locals c ++ more) (over b env) (k ++ v :: st)
    end.
Proof.
  intros Hf Hw Hp. set (n := length (locals c)). set (c0 := with_floor c (Some n)).
  assert (binding n (locals c) c0) as Hc0.
  { split; [done|done| |done]. apply firstn_all. }
  destruct (compile_bind_binds n (locals c) (pin_of env) p Hp c0 Hc0) as (c' & E & [N W L D K (more & new & R & V & P & C & B & X)]).
  cbn [c0 with_floor emitter locals scope_depth scope_starts pattern_floor] in *. exists (emitter c'), more, new. split_and!.
  - unfold compile_pattern_bind, with_pattern_floor. rewrite Hf. unfold mbind, compile_bind. fold n c0. rewrite E, R. done.
  - done.
  - intros Hr. by apply L.
  - done.
  - intros v st Hst Hr Hh. specialize (X (v :: st)). cbn [head mbind option_bind] in X. assert (0 < length (v :: st)) as Hpos by (cbn; lia). specialize (X (conj (framed_agrees _ _ _ Hst) Hpos) Hr Hh).
    destruct (pattern_binds (pin_of env) p v) as [b|]; [|done]. destruct X as (k & X1 & X2 & X3 & X4). exists k. split; [done|]. by apply framed_over.
Qed.

Lemma drop_deep_all d (inner outer : list Local_) : (∀ l, l ∈ inner → d ≤ l_depth l) → (∀ l, l ∈ outer → l_depth l < d) → drop_deep d (reverse (outer ++ inner)) = reverse outer.
Proof.
  intros Hi Ho. rewrite reverse_app. assert (∀ l, l ∈ reverse inner → d ≤ l_depth l) as Hr by (intros l Hl; rewrite elem_of_reverse in Hl; by apply Hi).
  assert (∀ l, l ∈ reverse outer → l_depth l < d) as Hs by (intros l Hl; rewrite elem_of_reverse in Hl; by apply Ho). clear Hi Ho.
  induction (reverse inner) as [|l ls IH]; cbn [app drop_deep].
  - destruct (reverse outer) as [|l ls]; [done|]. cbn. specialize (Hs l ltac:(left)). by destruct (Nat.leb_spec d (l_depth l)); [lia|].
  - specialize (Hr l ltac:(left)) as Hl. destruct (Nat.leb_spec d (l_depth l)); [|lia]. apply IH. intros x Hx. apply Hr. by right.
Qed.
(** A scope's end leaves the locals from before it. *)
Lemma end_scope_is e outer inner d start starts fl : (∀ l, l ∈ inner → l_depth l = S d) → (∀ l, l ∈ outer → l_depth l ≤ d) →
  end_scope (mkCtx e (outer ++ inner) (S d) (start :: starts) fl) = Done start (mkCtx e outer d starts fl).
Proof.
  intros Hi Ho. unfold end_scope. cbn [scope_starts emitter locals scope_depth pattern_floor pred].
  rewrite drop_deep_all; [by rewrite reverse_involutive|intros l Hl; by rewrite (Hi l Hl)|]. intros l Hl. specialize (Ho l Hl). lia.
Qed.

(** A guard: on, to its failure, or nowhere. *)
Definition compile_guard (guard : option Expr) : Compile (list nat) :=
  match guard with Some g => compile_expr g;; j ← jump_if_false; mret [j] | None => mret [] end.
Lemma guard_code guard lo c : lo ≤ next_label (emitter c) → well_labelled (emitter c) → ∃ failed e' new, compile_guard guard c = Done failed (with_emitter c e') ∧
  grows lo (emitter c) e' new ∧ (∀ l, l ∈ failed → next_label (emitter c) ≤ l < next_label e') ∧ (∀ l, not_bound l new) ∧
  (reachable (emitter c) = true → reachable e' = true ∧ ∀ l, l ∈ failed → arrives e' l) ∧
  height e' = height (emitter c) ∧ (reachable (emitter c) = true → ∀ l, l ∈ failed → arriving e' !! l = Some (height (emitter c))) ∧
  ∀ st env', framed (locals c) env' st → match guard_holds guard env' with
    | None => run new (At st) = Confused
    | Some true => run new (At st) = At st
    | Some false => ∃ l, l ∈ failed ∧ run new (At st) = To l st
    end.
Proof.
  intros Hlo Hw. destruct guard as [g|].
  - set (e1 := emit_code (IRun g (locals c)) (emitter c)). assert (well_labelled e1) as Hw1 by exact Hw.
    destruct (grows_jump lo e1 IJumpIfFalse) as (G & N & A); [by left|done|done|]. set (l := next_label e1) in *. set (e2 := emit_code (IJumpIfFalse l) (fresh e1)) in *.
    exists [l], e2, ([IRun g (locals c)] ++ [IJumpIfFalse l]). split_and!.
    + done.
    + apply (grows_trans lo _ e1); [by apply grows_plain|done].
    + intros l' ->%list_elem_of_singleton. rewrite N. change (next_label (emitter c)) with l. lia.
    + intros l' H. apply elem_of_cons in H as [?|H%list_elem_of_singleton]; done.
    + intros Hr. split; [done|]. intros l' ->%list_elem_of_singleton. unfold arrives. change (reachable e1) with (reachable (emitter c)) in A. rewrite A, Hr, lookup_insert_eq. done.
    + done.
    + intros Hr l' ->%list_elem_of_singleton. change (reachable e1) with (reachable (emitter c)) in A. by rewrite A, Hr, lookup_insert_eq.
    + intros st env' Hst. cbn [app]. rewrite run_cons. cbn [exec guard_holds]. rewrite (run_expr g (locals c) env' st Hst). destruct (eval g env') as [w|]; cbn [fmap option_fmap option_map]; [|done].
      unfold run. cbn. destruct (is_truthy w); [done|]. exists l. split; [left|done].
  - exists [], (emitter c), []. split_and!.
    + by destruct c.
    + apply grows_refl.
    + intros l []%elem_of_nil.
    + intros l []%elem_of_nil.
    + intros Hr. split; [done|]. intros l []%elem_of_nil.
    + done.
    + intros _ l []%elem_of_nil.
    + done.
Qed.

(** Where an arm's code goes from a copy of the scrutinee: to its end with
    the value, on to the next arm, or nowhere. *)
Inductive goes (ends : list nat) (base : list Val) (live : Prop) (s : State) (r : Result → Result) : Prop :=
  | goes_gives l w k : l ∈ ends → (∀ o, r o = Gives w) → s = To l (w :: k ++ base) → goes ends base live s r
  | goes_on k : (∀ o, r o = o) → s = At (k ++ base) → live → goes ends base live s r
  | goes_wrong : (∀ o, r o = Stuck) → s = Confused → goes ends base live s r.

(** An arm in a context: what its code does, the frame below the scrutinee's
    slot given. *)
Definition shallow (c : Ctx) : Prop := ∀ l, l ∈ locals c → l_depth l ≤ scope_depth c.
Definition arm_goes (slot : nat) (r : Val → Result → Result) (m : Compile nat) (c : Ctx) : Prop := ∃ end_ e' new, m c = Done end_ (with_emitter c e') ∧
  grows (next_label (emitter c)) (emitter c) e' new ∧ next_label (emitter c) ≤ end_ < next_label e' ∧ (reachable (emitter c) = true → arrives e' end_) ∧
  ∀ v st, framed (locals c) env (v :: st) → slot = length st → reachable (emitter c) = true → height (emitter c) = S (S (length st)) →
    goes [end_] (v :: st) (reachable e' = true) (run new (At (v :: v :: st))) (r v).

(** The end of an arm: its body, its scope's end and a jump. *)
Definition compile_body (body : Expr) : Compile nat := compile_expr body;; end_scope;; jump.
Lemma body_code body lo e outer inner d start starts fl : lo ≤ next_label e → well_labelled e → (∀ l, l ∈ inner → l_depth l = S d) → (∀ l, l ∈ outer → l_depth l ≤ d) →
  ∃ e', compile_body body (mkCtx e (outer ++ inner) (S d) (start :: starts) fl) = Done (next_label e) (mkCtx e' outer d starts fl) ∧
    next_label e' = S (next_label e) ∧ grows lo e e' (IRun body (outer ++ inner) :: jump_code e) ∧
    reachable e' = false ∧ (reachable e = true → arrives e' (next_label e)) ∧ (∀ l, l < next_label e → arriving e' !! l = arriving e !! l) ∧
    ∀ st env', reachable e = true → framed (outer ++ inner) env' st → run (IRun body (outer ++ inner) :: jump_code e) (At st) =
      match eval body env' with Some w => To (next_label e) (w :: st) | None => Confused end.
Proof.
  intros Hlo Hw Hi Ho. set (e1 := emit_code (IRun body (outer ++ inner)) e). assert (well_labelled e1) as Hw1 by exact Hw.
  pose proof (grows_jumped lo e1 Hlo Hw1) as G. destruct (jumped_facts e1) as (_ & N & R & _). pose proof (jump_arriving e1 Hw1) as A.
  change (reachable e1) with (reachable e) in A. change (jump_code e1) with (jump_code e) in G. change (next_label e1) with (next_label e) in *.
  set (e2 := jumped e1) in *. exists e2. split_and!.
  - unfold compile_body, mbind, compile_bind. change (compile_expr body ?c) with (Done tt (with_emitter c (emit_code (IRun body (locals c)) (emitter c)))). cbn [with_emitter emitter locals scope_depth scope_starts pattern_floor].
    unfold with_emitter. cbn [emitter locals scope_depth scope_starts pattern_floor]. fold e1. by rewrite end_scope_is, jump_is.
  - done.
  - apply (grows_trans lo _ e1 _ [_]); [by apply grows_plain|done].
  - done.
  - intros Hr. unfold arrives. rewrite A, Hr, lookup_insert_eq. done.
  - intros l Hl. rewrite A. destruct (reachable e); [|done]. by rewrite lookup_insert_ne by lia.
  - intros st env' Hr Hst. rewrite run_cons. cbn [exec]. rewrite (run_expr body _ env' st Hst). destruct (eval body env'); cbn; [by apply run_jump|by apply run_confused].
Qed.

Lemma plain_arm arm slot c : guarded_or_ways arm c = Done None c → pattern_floor c = None → shallow c → well_labelled (emitter c) →
  resolved (pinned (locals c)) (pattern_of arm) = true →
  arm_goes slot (λ v o, match chosen_way env (guard_of arm) [pattern_of arm] v with None => Stuck | Some None => o | Some (Some b) => gives (eval (body_of arm) (over b env)) end)
    (compile_arm arm slot) c.
Proof.
  intros Hways Hf Hsh Hw Hp. destruct arm as [p guard body]. cbn [pattern_of guard_of body_of] in *. set (lo := next_label (emitter c)). set (d := scope_depth c).
  assert (locals_outside c = locals c) as Hout by (unfold locals_outside; rewrite Hf; apply firstn_all).
  destruct (compile_test_tests (locals c) (pin_of env) p 0 Hp c Hout Hw) as (c1 & F & E1 & T). pose proof T as [R1 N1 W1 G1 O1 L1 D1 K1 (nt & C1 & B1 & X1)].
  set (e1 := emitter c1) in *. set (s' := height (emit_code IPop e1)). set (e4 := emits [IPop; IGetLocal slot; ISetLocal s'] e1). set (L1' := locals c ++ [mkLocal BIND_SRC (S d) s']).
  set (c4 := mkCtx e4 L1' (S d) (s' :: scope_starts c) None). assert (well_labelled e4) as W4 by exact W1.
  destruct (bind_code p c4) as (e5 & more & nb & E5 & St5 & Live5 & Deep5 & X5); [done|done| |].
  { eapply resolved_mono; [|exact Hp]. intros res name. apply pinned_hidden. unfold is_hidden. set_solver. }
  cbn [c4 emitter locals scope_depth scope_starts] in *.
  set (c5 := mkCtx e5 (L1' ++ more) (S d) (s' :: scope_starts c) None) in *.
  pose proof (st_labelled _ _ _ St5 W4) as W5. pose proof (st_next _ _ _ St5) as N5. change (next_label e4) with (next_label e1) in N5.
  destruct (guard_code guard (next_label e1) c5) as (lgs & e7 & gc & E7 & G7 & R7 & NB7 & Live7 & _ & _ & X7); [done|done|]. cbn [c5 emitter locals] in *.
  pose proof (gr_labelled _ _ _ _ G7 W5) as W7. pose proof (gr_next _ _ _ _ G7) as N7.
  assert ((L1' ++ more) = locals c ++ ([mkLocal BIND_SRC (S d) s'] ++ more)) as HL by (unfold L1'; by rewrite <-app_assoc).
  destruct (body_code body lo e7 (locals c) ([mkLocal BIND_SRC (S d) s'] ++ more) d s' (scope_starts c) None) as (e9 & E9 & N9 & G9 & R9 & A9 & O9 & X9); [lia|done| |exact Hsh|].
  { intros l [->%list_elem_of_singleton|Hl]%elem_of_app; [done|by apply Deep5]. }
  rewrite <-HL in *. set (end_ := next_label e7) in *. set (ls := lgs ++ F.*1). set (e11 := emits (IBind <$> ls) e9).
  assert (∀ l, l ∈ ls → lo ≤ l < end_) as Hls.
  { intros l [Hl%R7|([l' d'] & -> & Hl)%list_elem_of_fmap]%elem_of_app; [lia|]. apply G1 in Hl. cbn. unfold end_. lia. }
  assert (grows lo e1 e9 ([IPop; IGetLocal slot; ISetLocal s'] ++ nb ++ gc ++ (IRun body (L1' ++ more) :: jump_code e7))) as G19.
  { apply (grows_trans _ _ e4); [apply grows_all; intros i Hi; left; by repeat (apply elem_of_cons in Hi as [->|Hi]; [done|]); apply elem_of_nil in Hi|]. apply (grows_trans _ _ e5); [apply steps_grows; done|]. apply (grows_trans _ _ e7); [|done]. by apply (grows_weaken _ (next_label e1)). }
  destruct (test_steps _ _ _ _ _ _ T) as (nt' & St1 & C1' & _). fold e1 in C1'. rewrite C1 in C1'. apply app_inv_head in C1' as <-.
  exists end_, e11, (nt ++ ([IPop; IGetLocal slot; ISetLocal s'] ++ nb ++ gc ++ (IRun body (L1' ++ more) :: jump_code e7)) ++ (IBind <$> ls)). split_and!.
  - set (rest := λ fail_jumps : list nat, compile_pattern_bind p;; guard_jump ← compile_guard guard; compile_expr body;; end_scope;;
      end_jump ← jump; bind_all guard_jump;; bind_all fail_jumps;; mret end_jump).
    change (compile_arm (mkArm p guard body) slot) with (ways ← guarded_or_ways (mkArm p guard body); match ways with
      | Some ways => r ← compile_guarded_or_arm (mkArm p guard body) ways slot; bind_all r.2;; mret r.1
      | None => fail_jumps ← compile_pattern_test p; emit IPop;; begin_scope;; emit (IGetLocal slot);; bind_copy ← add_local BIND_SRC; emit (ISetLocal bind_copy);; rest fail_jumps
      end).
    assert (∀ k : Compile nat, (emit IPop;; begin_scope;; emit (IGetLocal slot);; bind_copy ← add_local BIND_SRC; emit (ISetLocal bind_copy);; k) c1 = k c4) as H4.
    { intros k. unfold mbind, compile_bind, emit, changed, begin_scope, begin_scope_at, add_local, height_now, look, mbind, compile_bind. cbn. rewrite R1. unfold c4, L1', e4, s', e1, d. cbn. by rewrite Hf. }
    unfold mbind at 1, compile_bind at 1. rewrite Hways. transitivity ((emit IPop;; begin_scope;; emit (IGetLocal slot);; bind_copy ← add_local BIND_SRC; emit (ISetLocal bind_copy);; rest F.*1) c1).
    { unfold mbind at 1, compile_bind at 1. unfold compile_pattern_test at 1, mbind at 1, compile_bind at 1. by rewrite E1. }
    rewrite H4. unfold rest, mbind, compile_bind. rewrite E5. fold c5. rewrite E7. change (with_emitter c5 e7) with (mkCtx e7 (L1' ++ more) (S d) (s' :: scope_starts c) None).
    unfold compile_body, mbind, compile_bind in E9. destruct (compile_expr body _) as [? y1|]; [|done]. destruct (end_scope y1) as [? y2|]; [|done]. rewrite E9, !bind_all_is.
    cbn [emitter with_emitter mret compile_ret]. unfold e11, ls. rewrite fmap_app, emits_app. unfold with_emitter. cbn. by rewrite Hf.
  - apply (grows_trans _ _ e1); [by apply steps_grows|]. apply (grows_trans _ _ e9); [done|]. apply grows_binds. intros l Hl. by apply Hls.
  - unfold end_, lo. lia.
  - unfold e11. rewrite binds_next, N9. unfold end_. lia.
  - intros Hr. unfold arrives, e11. rewrite binds_arriving. apply A9, Live7, Live5. by apply L1.
  - intros v st Hst Hslot Hr Hh. destruct (L1 Hr) as (Hr1 & Hh1 & _). fold e1 in Hr1, Hh1. pose proof (Live5 Hr1) as Hr5. destruct (Live7 Hr5) as [Hr7 Ha7].
    assert (reachable e4 = true) as Hr4 by exact Hr1. assert (s' = length (v :: st)) as Hs' by (unfold s'; cbn; rewrite Hh1, Hh; done).
    specialize (X1 v (v :: st) Hr (framed_agrees _ _ _ Hst)). unfold leads in X1. cbn [chosen_way]. rewrite run_app.
    assert (∀ l, l ∈ ls → arrives e9 l → reachable e11 = true) as Hreach by (intros l Hl Ha; apply binds_reach; right; by exists l).
    destruct (pattern_test (pin_of env) p v) as [[|]|]; cbn [mbind option_bind].
    + rewrite X1, run_app. assert (framed L1' env (v :: v :: st)) as Hst1.
      { apply framed_hidden; [unfold is_hidden; set_solver|cbn; lia|]. by apply (framed_push [v]). }
      assert (run [IPop; IGetLocal slot; ISetLocal s'] (At (v :: v :: st)) = At (v :: v :: st)) as Hcopy.
      { unfold run. cbn [foldl exec exec_at]. rewrite Hslot, (slot_of_top v st). cbn [exec exec_at]. by rewrite Hs', (set_slot_top v v (v :: st)). }
      specialize (X5 v (v :: st) Hst1 Hr4). assert (height e4 = S (length (v :: st))) as Hh4 by (unfold e4, emits; cbn; rewrite Hh1, Hh; done). specialize (X5 Hh4).
      rewrite run_app, Hcopy, run_app. destruct (pattern_binds (pin_of env) p v) as [b|]; cbn [mbind option_bind].
      2: { apply goes_wrong; [done|]. by rewrite X5, !run_confused. }
      destruct X5 as (k & -> & Hfr). specialize (X7 _ _ Hfr). rewrite run_app. destruct (guard_holds guard (over b env)) as [[|]|]; cbn [mbind option_bind].
      * rewrite X7, (X9 _ _ Hr7 Hfr). destruct (eval body (over b env)) as [w|]; cbn [gives]; [|apply goes_wrong; [done|]; by rewrite run_confused].
        apply (goes_gives _ _ _ _ _ end_ w (k ++ [v])); [left|done|]. rewrite <-app_assoc. cbn [app]. rewrite run_past; [done|]. intros H%bound_in_binds%Hls. lia.
      * destruct X7 as (l & Hl & ->). pose proof (R7 l Hl) as Hl'. rewrite run_past.
        2: { by intros [?|?%in_jump_code]%elem_of_cons. }
        rewrite run_binds_to by (apply elem_of_app; by left). apply (goes_on _ _ _ _ _ (k ++ [v])); [done|by rewrite <-app_assoc|].
        apply (Hreach l); [apply elem_of_app; by left|]. unfold arrives. rewrite O9 by lia. by apply Ha7.
      * apply goes_wrong; [done|]. by rewrite X7, !run_confused.
    + destruct X1 as (l & dl & subs & Hin & Hlen & Hrun & Ha). pose proof (G1 l dl Hin) as [Hl _]. assert (l ∈ ls) as Hls' by (apply elem_of_app; right; apply list_elem_of_fmap; by exists (l, dl)).
      rewrite Hrun, run_app, run_past.
      * rewrite run_binds_to by done. apply (goes_on _ _ _ _ _ (subs ++ [v])); [done|by rewrite <-app_assoc|]. apply (Hreach l); [done|]. unfold arrives.
        assert (l < next_label e4 ∧ l < end_) as [? ?] by (change (next_label e4) with (next_label e1); unfold end_; fold e1 in Hl; lia). rewrite O9 by done. rewrite (gr_old _ _ _ _ G7) by apply Hl. rewrite (st_old _ _ _ St5) by done. change (arriving e4) with (arriving e1). by rewrite Ha.
      * unfold not_bound. rewrite !elem_of_app. intros [H|[H|[H|H]]]; [|apply (st_binds _ _ _ St5) in H; change (next_label e4) with (next_label e1) in H; fold e1 in Hl; lia|by apply NB7 in H|by apply elem_of_cons in H as [?|?%in_jump_code]]; rewrite !elem_of_cons, elem_of_nil in H; naive_solver.
    + apply goes_wrong; [done|]. by rewrite X1, !run_confused.
Qed.

(** *** The ways of an or-pattern, each with the guard *)
Lemma named_framed L d names ws v st b : named_values names ws b → (∀ x, x ∈ b → x.1 ∈ names) → framed L env (v :: st) →
  framed (L ++ reserved d (S (length st)) names) (over b env) (results ws v st).
Proof.
  intros [Hlen Hws] Hkeys Hst. apply (framed_over L env (v :: st) _ (reverse ws) b Hst).
  - intros l (i & Hi & ->)%in_reserved. cbn [l_slot]. apply lookup_lt_Some in Hi. rewrite length_reverse. cbn. lia.
  - intros name Hn. change (reverse ws ++ v :: st) with (results ws v st). unfold env_of. destruct (decide (name ∈ names)) as [Hin|Hin].
    + destruct (reserved_found d (S (length st)) names name Hin) as (i & Hi & ->). cbn [mbind option_bind]. rewrite slot_of_result. by apply Hws.
    + destruct (find_local _ name) as [slot|] eqn:E.
      * destruct (find_local_slot _ _ _ E) as (l & (i & Hi & _)%in_reserved & Hname & _). destruct Hin. apply list_elem_of_lookup_2 in Hi. by rewrite Hname in Hi.
      * destruct (value_of b name) as [w|] eqn:Ew; [|done]. by apply value_of_in, Hkeys in Ew.
Qed.
Lemma floor_after h n c : (changed (λ c, with_floor c None);; pop_down_to h;; truncate_locals n) c =
  match (pop_down_to h;; truncate_locals n) c with Done _ c' => Done tt (with_floor c' None) | Refused why => Refused why end.
Proof.
  unfold mbind, compile_bind, changed. unfold pop_down_to, height_now, look, mbind, compile_bind. cbn [emitter with_floor]. by rewrite !pops_is.
Qed.

(** A way's code, to where its guard has failed. *)
Definition compile_way (guard : Expr) (names : list Symbol) (slots : list nat) (floor s n h : nat) (way : Pattern) : Compile nat :=
  emit (IGetLocal s);;
  changed (λ c, with_floor c (Some floor));;
  fails ← compile_pattern_test_tracked way 0;
  compile_pattern_bind way;;
  copy_names OrBindsDifferentNames names slots;;
  changed (λ c, with_floor c None);;
  pop_down_to h;;
  truncate_locals n;;
  compile_expr guard;;
  guard_failed ← jump_if_false;
  body ← jump;
  (match fails with [] => mret tt | _ => emit_trampolines fails 0;; emit IPop end);;
  bind guard_failed;;
  mret body.
Definition way_lands (bodies : list nat) (names : list Symbol) (ls : list Local_) (v : Val) (st : list Val) (s : State) (chosen : option (option Binds)) : Prop :=
  match chosen with
  | None => s = Confused
  | Some None => ∃ ws, length ws = length names ∧ s = At (results ws v st)
  | Some (Some b) => ∃ ws l, l ∈ bodies ∧ framed ls (over b env) (results ws v st) ∧ s = To l (results ws v st)
  end.
(** What the code of ways is to do. *)
Definition ways_go (guard : Expr) (names : list Symbol) (slots : list nat) (L : list Local_) (s h : nat) (ways : list Pattern) (c : Ctx) (e' : CodeState) (bodies : list nat) (new : list Instr) : Prop :=
  grows (next_label (emitter c)) (emitter c) e' new ∧ (∀ l, l ∈ bodies → next_label (emitter c) ≤ l < next_label e') ∧
  (reachable (emitter c) = true → height (emitter c) = h → reachable e' = true ∧ height e' = h ∧ ∀ l, l ∈ bodies → arriving e' !! l = Some h) ∧
  ∀ v st ws d, framed L env (v :: st) → s = length st → slots = seq (S (length st)) (length names) → locals c = L ++ reserved d (S (length st)) names →
    h = length (results ws v st) → length ws = length names → reachable (emitter c) = true → height (emitter c) = h →
    way_lands bodies names (locals c) v st (run new (At (results ws v st))) (chosen_way env (Some guard) ways v).
Lemma way_code guard names slots L s h way c R : pattern_floor c = None → locals c = L ++ R → well_labelled (emitter c) → resolved (pinned L) way = true →
  (∀ name, name ∈ names ↔ name ∈ collect_pattern_vars way) →
  ∃ body e' new, compile_way guard names slots (length L) s (length (locals c)) h way c = Done body (with_emitter c e') ∧ ways_go guard names slots L s h [way] c e' [body] new.
Proof.
  intros Hf Hloc Hw Hp Hnames. set (lo := next_label (emitter c)). set (eg := emit_code (IGetLocal s) (emitter c)). set (cf := with_floor (with_emitter c eg) (Some (length L))).
  assert (locals_outside cf = L) as Hout by (unfold locals_outside; cbn; rewrite Hloc; apply take_app_length).
  destruct (compile_test_tests L (pin_of env) way 0 Hp cf Hout Hw) as (c1 & F & E1 & T). pose proof T as [R1 N1 W1 G1 O1 L1 D1 K1 (nt & C1 & B1 & X1)].
  assert (binding (length L) L c1) as Hc1.
  { rewrite R1. split; [done|cbn; rewrite Hloc, length_app; lia|exact Hout|done]. }
  destruct (bind_into_binds (length L) L (pin_of env) OrBindsDifferentNames (compile_pattern_bind_parts way) (collect_pattern_vars way) (pattern_binds (pin_of env) way) names slots h c1) as (e2 & nb & E2 & St2 & Live2 & X2).
  { by apply compile_bind_binds. }
  { intros name. apply Hnames. }
  { done. }
  assert (locals c1 = locals c) as Hl1 by (by rewrite R1). set (ls := locals c) in *.
  set (e3 := emit_code (IRun guard ls) e2). assert (well_labelled e2) as W2 by (by apply (st_labelled _ _ _ St2)). set (lg := next_label e2). pose proof (st_next _ _ _ St2) as N2. fold lg in N2.
  destruct (grows_jump (next_label (emitter c1)) e3 IJumpIfFalse) as (G4 & N4 & A4); [by left|done|done|]. change (next_label e3) with lg in *. change (reachable e3) with (reachable e2) in A4.
  change (height_after (IJumpIfFalse lg) (height e3)) with (height e2) in A4. change (arriving e3) with (arriving e2) in A4. set (e4 := emit_code (IJumpIfFalse lg) (fresh e3)) in *.
  assert (steps (emitter c1) e4 (nb ++ [IRun guard ls] ++ [IJumpIfFalse lg])) as St4.
  { apply grows_steps; [|done]. apply (grows_trans _ _ e2); [by apply steps_grows|]. apply (grows_trans _ _ e3); [by apply grows_plain|done]. }
  destruct (failures_land L (pin_of env) 0 _ cf c1 F e4 _ T Hw St4) as (C6 & N6 & W6 & A6 & L6 & D6). set (lb := next_label e4) in *. set (e5 := jumped e4) in *. set (e6 := emits (trampolines F 0) e5) in *.
  destruct (jumped_facts e4) as (_ & N5 & R5 & _). fold e5 in N5, R5.
  assert (arriving e5 = if reachable e4 then <[lb := height e4]> (arriving e4) else arriving e4) as A5 by (apply jump_arriving, (st_labelled _ _ _ St4), W1).
  set (tr := match F with [] => [] | _ => trampolines F 0 ++ [IPop] end). set (e7 := emits tr e5).
  assert (arriving e7 = arriving e5 ∧ next_label e7 = S lb ∧ well_labelled e7) as (A7 & N7 & W7) by (unfold e7, tr; destruct F; [split_and!; [done|done|exact W6]|rewrite emits_app; by split_and!]).
  assert (reachable (emitter c) = true → height (emitter c) = h → level e7 h ∧ ∀ l d, (l, d) ∈ F → arrives (emitter c1) l → reachable e7 = true) as L7.
  { intros Hr Hh. destruct (L6 Hr) as [Hlev Hreach]. change (height (emitter cf)) with (S (height (emitter c))) in Hlev. unfold e7, tr. destruct F as [|x F]; [split; [change (reachable e5 = true → height e5 = h); rewrite R5; done|intros l d []%elem_of_nil]|].
    rewrite emits_app. fold e6. split; [intros Hr6; change (pred (height e6) = h); change (reachable e6 = true) in Hr6; rewrite Hlev by done; cbn; lia|]. intros l d Hin Ha. apply Hreach. by exists l, d. }
  set (e8 := emit_code (IBind lg) e7). destruct (bind_facts lg e7) as (C8 & N8 & A8). fold e8 in C8, N8, A8.
  assert (next_label eg ≤ next_label (emitter c1)) as N1' by exact N1. change (next_label eg) with lo in N1'.
  assert (∀ l d, (l, d) ∈ F → lo ≤ l < next_label (emitter c1)) as HF by (intros l d Hin; by apply (G1 l d)).
  assert (∀ i, i ∈ tr → i = IPop ∨ ∃ l d, i = IBind l ∧ (l, d) ∈ F) as Htr.
  { intros i Hi. unfold tr in Hi. destruct F as [|x F']; [by apply elem_of_nil in Hi|]. apply elem_of_app in Hi as [[->|(l & -> & ([l' d] & -> & Hin)%list_elem_of_fmap)]%in_trampolines_only| ->%list_elem_of_singleton]; [by left|right; by exists l', d|by left]. }
  assert (reachable (emitter c) = true → height (emitter c) = h → reachable e2 = true ∧ height e2 = h ∧ arriving e7 !! lg = Some h ∧ arriving e7 !! lb = Some h) as Live.
  { intros Hr Hh. destruct (L1 Hr) as (Hr1 & Hh1 & _). change (height (emitter cf)) with (S (height (emitter c))) in Hh1. destruct (Live2 Hr1) as [Hr2 Hh2]; [lia|]. split_and!; [done|done| |].
    - rewrite A7, A5. change (reachable e4) with (reachable e2). rewrite Hr2, lookup_insert_ne by lia. by rewrite A4, Hr2, lookup_insert_eq, Hh2.
    - rewrite A7, A5. change (reachable e4) with (reachable e2). rewrite Hr2, lookup_insert_eq. change (height e4) with (height e2). by rewrite Hh2. }
  exists lb, e8, ([IGetLocal s] ++ nt ++ (nb ++ [IRun guard ls] ++ [IJumpIfFalse lg]) ++ jump_code e4 ++ tr ++ [IBind lg]). split; [|split_and!].
  - unfold compile_way, mbind, compile_bind. change (emit (IGetLocal s) c) with (Done tt (with_emitter c eg)). cbn beta iota. change (changed _ (with_emitter c eg)) with (Done tt cf). cbn beta iota. rewrite E1.
    change (compile_pattern_bind way c1) with (with_pattern_floor (compile_pattern_bind_parts way) c1). rewrite Hl1 in E2. unfold bind_into, mbind, compile_bind in E2.
    destruct (with_pattern_floor (compile_pattern_bind_parts way) c1) as [? x1|]; [|done]. destruct (copy_names OrBindsDifferentNames names slots x1) as [? x2|]; [|done].
    pose proof (floor_after h (length ls) x2) as Hfl. unfold mbind, compile_bind in Hfl. rewrite E2 in Hfl. destruct (changed _ x2) as [[] y3|]; [|done]. destruct (pop_down_to h y3) as [[] y4|]; [|done]. rewrite Hfl.
    assert (with_floor (with_emitter c1 e2) None = with_emitter c e2) as -> by (rewrite R1; unfold with_floor, with_emitter; cbn; by rewrite Hf).
    change (compile_expr guard (with_emitter c e2)) with (Done tt (with_emitter c e3)). cbn beta iota. change (jump_if_false (with_emitter c e3)) with (Done lg (with_emitter c e4)). cbn beta iota.
    rewrite jump_is. change (with_emitter (with_emitter c e4) ?e) with (with_emitter c e5). cbn [emitter with_emitter]. fold lb e5.
    assert ((match F with [] => mret tt | _ => emit_trampolines F 0;; emit IPop end) (with_emitter c e5) = Done tt (with_emitter c e7)) as H7.
    { unfold e7, tr. destruct F as [|fst_ F']; [done|]. unfold mbind, compile_bind. by rewrite emit_trampolines_is, emits_app. }
    unfold mbind, compile_bind in H7. rewrite H7. done.
  - apply (grows_trans _ _ eg); [by apply grows_plain|]. apply (grows_trans _ _ (emitter c1)).
    { destruct (test_steps _ _ _ _ _ _ T) as (nt' & St1 & C1' & _). rewrite C1 in C1'. apply app_inv_head in C1' as <-. by apply steps_grows. }
    apply (grows_trans _ _ e4); [apply steps_grows; [done|fold lo; lia|done]|]. apply (grows_trans _ _ e5).
    { apply grows_jumped; [fold lb lo; lia|]. by apply (st_labelled _ _ _ St4). }
    apply (grows_trans _ _ e7); [|apply grows_bind; fold lo; lia]. apply grows_all. intros i [->|(l & d & -> & Hin)]%Htr; [by left|right]. exists l. split; [done|]. by apply (HF l d).
  - intros l ->%list_elem_of_singleton. rewrite N8, N7. fold lo. lia.
  - intros Hr Hh. destruct (Live Hr Hh) as (_ & _ & Ha & Hb). destruct (L7 Hr Hh) as [Hlev _]. split_and!.
    + unfold e8. cbn. by rewrite Ha.
    + unfold e8. cbn. rewrite Ha. cbn. destruct (reachable e7) eqn:E7; [rewrite Hlev by done; lia|done].
    + intros l ->%list_elem_of_singleton. by rewrite A8.
  - intros v st ws d Hst Hs Hslots HR Hh' Hlen Hr Hh. destruct (L1 Hr) as (Hr1 & Hh1 & _). change (height (emitter cf)) with (S (height (emitter c))) in Hh1.
    assert (framed L env (results ws v st)) as Hres by (by apply (framed_push (reverse ws))).
    specialize (X1 v (results ws v st) Hr (framed_agrees _ _ _ Hres)). destruct (Live Hr Hh) as [Hr2 _]. specialize (X2 st v ws (framed_agrees _ _ _ Hst) Hslots Hh' Hlen Hr1 ltac:(lia)).
    assert (run [IGetLocal s] (At (results ws v st)) = At (v :: results ws v st)) as Hget by (unfold run; cbn [foldl exec exec_at]; by rewrite Hs, slot_of_value).
    rewrite run_app, Hget, run_app. unfold leads in X1. cbn [chosen_way]. destruct (pattern_test (pin_of env) way v) as [[|]|]; cbn [mbind option_bind].
    + rewrite X1, run_app, (run_app nb). destruct (pattern_binds (pin_of env) way v) as [b|] eqn:Eb; cbn [mbind option_bind]; [|by rewrite X2, !run_confused].
      destruct X2 as (ws' & Hws & ->). assert (framed ls (over b env) (results ws' v st)) as Hfr.
      { unfold ls. rewrite HR. apply named_framed; [done| |done]. intros x Hx. apply Hnames. by apply (binds_vars (pin_of env) way v b). }
      cbn [app]. rewrite (run_cons (IRun guard ls)). cbn [exec]. rewrite (run_expr guard ls _ _ Hfr). cbn [guard_holds]. destruct (eval guard (over b env)) as [w|]; cbn [fmap option_fmap option_map mbind option_bind]; [|by rewrite !run_confused].
      rewrite (run_cons (IJumpIfFalse lg)). cbn [exec exec_at]. destruct (is_truthy w).
      * exists ws', lb. split_and!; [left|done|]. change (run [] ?x) with x. rewrite run_app, (run_jump e4) by done. fold lb. apply run_past. intros [[?|(l & d' & [= ->] & Hin)]%Htr|[= E]%list_elem_of_singleton]%elem_of_app; [done| |lia].
        apply HF in Hin. lia.
      * exists ws'. split; [apply Hws|]. change (run [] ?x) with x. rewrite run_app, run_past_jump, run_app, run_past; [unfold run; cbn; by rewrite Nat.eqb_refl|].
        intros [?|(l & d' & [= ->] & Hin)]%Htr; [done|]. apply HF in Hin. lia.
    + destruct X1 as (l & d' & subs & Hin & Hlen' & Hrun & Ha). pose proof (HF l d' Hin) as Hl. exists ws. split; [done|].
      rewrite Hrun, run_app, run_past; [|eapply binds_from_past; [exact (st_binds _ _ _ St4)|lia]]. rewrite run_app, run_past_jump.
      rewrite run_app. unfold tr. destruct F as [|x F']; [by apply elem_of_nil in Hin|]. rewrite run_app, (run_trampolines 0 _ l d') by (done || lia). done.
    + by rewrite X1, !run_confused.
Qed.
Lemma chosen_cons guard way ways v : chosen_way env guard (way :: ways) v = match chosen_way env guard [way] v with Some None => chosen_way env guard ways v | r => r end.
Proof.
  cbn [chosen_way]. destruct (pattern_test (pin_of env) way v) as [[|]|]; cbn [mbind option_bind]; try done. destruct (pattern_binds (pin_of env) way v) as [b|]; cbn [mbind option_bind]; [|done].
  by destruct (guard_holds guard (over b env)) as [[|]|].
Qed.
Lemma guarded_ways_cons guard names slots floor s n h way ways c : guarded_ways guard names slots floor s n h (way :: ways) c =
  (body ← compile_way guard names slots floor s n h way; more ← guarded_ways guard names slots floor s n h ways; mret (body :: more)) c.
Proof.
  cbn [guarded_ways]. unfold compile_way, mbind, compile_bind.
  repeat match goal with |- context [match ?x with Done _ _ => _ | Refused _ => _ end] =>
    match x with context [match _ with Done _ _ => _ | Refused _ => _ end] => fail 1 | _ => destruct x as [? ?|?]; try reflexivity end end.
  match goal with |- match ?m ?c with _ => _ end = _ => destruct (m c) as [? ca|?]; [|done] end. destruct (bind _ ca) as [? cb|?]; done.
Qed.
Lemma ways_code guard names slots L s h ways : (∀ way, way ∈ ways → resolved (pinned L) way = true ∧ ∀ name, name ∈ names ↔ name ∈ collect_pattern_vars way) →
  ∀ c R, pattern_floor c = None → locals c = L ++ R → well_labelled (emitter c) →
  ∃ bodies e' new, guarded_ways guard names slots (length L) s (length (locals c)) h ways c = Done bodies (with_emitter c e') ∧ ways_go guard names slots L s h ways c e' bodies new ∧
    (ways ≠ [] → bodies ≠ []).
Proof.
  induction ways as [|way ways IH]; intros Hways c R Hf Hloc Hw.
  - exists [], (emitter c), []. split_and!; [by destruct c| |done]. split_and!; [apply grows_refl|intros l []%elem_of_nil|intros Hr Hh; split_and!; [done|done|intros l []%elem_of_nil]|].
    intros v st ws d _ _ _ _ _ Hlen _ _. by exists ws.
  - destruct (Hways way ltac:(left)) as [Hp Hn]. destruct (way_code guard names slots L s h way c R Hf Hloc Hw Hp Hn) as (body & e1 & new1 & E1 & (G1 & B1 & Live1 & X1)).
    assert (well_labelled e1) as W1 by (by apply (gr_labelled _ _ _ _ G1)). pose proof (gr_next _ _ _ _ G1) as N1.
    destruct (IH (λ way Hway, Hways way ltac:(by right)) (with_emitter c e1) R Hf Hloc W1) as (bodies & e2 & new2 & E2 & (G2 & B2 & Live2 & X2) & _). cbn [emitter locals with_emitter] in *.
    pose proof (gr_next _ _ _ _ G2) as N2. specialize (B1 body ltac:(left)) as Hbody. exists (body :: bodies), e2, (new1 ++ new2). split_and!; [|split_and!|done].
    + rewrite guarded_ways_cons. unfold mbind, compile_bind. by rewrite E1, E2.
    + apply (grows_trans _ _ e1); [done|]. by apply (grows_weaken _ (next_label e1)).
    + intros l [->|Hl%B2]%elem_of_cons; lia.
    + intros Hr Hh. destruct (Live1 Hr Hh) as (Hr1 & Hh1 & Ha1), (Live2 Hr1 Hh1) as (Hr2 & Hh2 & Ha2). split_and!; [done|done|].
      intros l [->|Hl]%elem_of_cons; [|by apply Ha2]. rewrite (gr_old _ _ _ _ G2) by lia. apply Ha1. left.
    + intros v st ws d Hst Hs Hslots HR Hh' Hlen Hr Hh. destruct (Live1 Hr Hh) as (Hr1 & Hh1 & _). specialize (X1 v st ws d Hst Hs Hslots HR Hh' Hlen Hr Hh).
      rewrite run_app, chosen_cons. unfold way_lands in X1 |- *. destruct (chosen_way env (Some guard) [way] v) as [[b|]|].
      * destruct X1 as (ws' & l & Hl & Hfr & ->). apply list_elem_of_singleton in Hl as ->. exists ws', body. split_and!; [left|done|]. apply run_past. eapply binds_from_past; [exact (gr_binds _ _ _ _ G2)|lia].
      * destruct X1 as (ws' & Hlen' & ->). specialize (X2 v st ws' d Hst Hs Hslots HR). rewrite Hh', !results_length in X2. rewrite Hlen, Hlen' in X2. specialize (X2 eq_refl eq_refl Hr1).
        rewrite Hh1, Hh', results_length, Hlen in X2. specialize (X2 eq_refl). unfold way_lands in X2. destruct (chosen_way env (Some guard) ways v) as [[b|]|]; try done.
        destruct X2 as (ws2 & l & Hl & H). exists ws2, l. split; [by right|done].
      * by rewrite X1, run_confused.
Qed.

Lemma in_order_names p name : name ∈ binding_names_in_order p ↔ name ∈ collect_pattern_vars p.
Proof.
  unfold binding_names_in_order. assert (∀ vars names, name ∈ foldl (λ names n, if bool_decide (n ∈ names) then names else names ++ [n]) names vars ↔ name ∈ names ∨ name ∈ vars) as ->.
  { induction vars as [|n vars IH]; intros names; cbn [foldl]; [set_solver|]. rewrite IH. case_bool_decide; set_solver. }
  set_solver.
Qed.

Lemma or_arm p guard body ways slot c : guarded_or_ways (mkArm p (Some guard) body) c = Done (Some ways) c → pattern_floor c = None → shallow c → well_labelled (emitter c) →
  (∀ way, way ∈ ways → way_like (pinned (locals c)) way p) → ways ≠ [] →
  arm_goes slot (λ v o, match chosen_way env (Some guard) ways v with None => Stuck | Some None => o | Some (Some b) => gives (eval body (over b env)) end)
    (compile_arm (mkArm p (Some guard) body) slot) c.
Proof.
  intros Hways Hf Hsh Hw Hlike Hne. set (lo := next_label (emitter c)). set (d := scope_depth c). set (L := locals c). set (names := binding_names_in_order p). set (n := length names).
  set (e1 := emit_code IPop (emitter c)). set (s1 := height e1). set (e2 := emits (replicate n (IConstant VUnit)) e1). set (R := reserved (S d) s1 names).
  set (c2 := mkCtx e2 (L ++ R) (S d) (s1 :: scope_starts c) None).
  destruct (reserve_static n e1) as (Sr & Sh & Sa). fold e2 in Sr, Sh, Sa. destruct (emits_code (replicate n (IConstant VUnit)) e1) as [_ Sn]. fold e2 in Sn.
  change (arriving e1) with (arriving (emitter c)) in Sa. change (next_label e1) with lo in Sn. change (reachable e1) with (reachable (emitter c)) in Sr.
  assert (well_labelled e2) as W2 by (intros l; unfold arrives; rewrite Sa, Sn; apply Hw).
  destruct (ways_code guard names (seq s1 n) L slot (height e2) ways) with (c := c2) (R := R) as (bodies & e3 & new & E3 & (G3 & B3 & Live3 & X3) & Hb); [|done|done|done|].
  { intros way Hway. destruct (Hlike way Hway) as [Hr Hv]. split; [done|]. intros name. unfold names. by rewrite Hv, in_order_names. }
  cbn [c2 emitter locals] in *. rewrite Sn in *. pose proof (gr_labelled _ _ _ _ G3 W2) as W3. pose proof (gr_next _ _ _ _ G3) as N3. rewrite Sn in N3.
  pose proof (grows_jumped lo e3 N3 W3) as G4. destruct (jumped_facts e3) as (_ & N4 & R4 & _). pose proof (jump_arriving e3 W3) as A4. set (ln := next_label e3) in *. set (e4 := jumped e3) in *.
  set (e5 := emits (IBind <$> bodies) e4). assert (grows lo e4 e5 (IBind <$> bodies)) as G5 by (apply grows_binds; intros l Hl; by apply B3).
  assert (next_label e5 = S ln ∧ arriving e5 = arriving e4) as [N5 A5] by (split; [unfold e5; by rewrite binds_next|apply binds_arriving]).
  destruct (body_code body lo e5 L R d s1 (scope_starts c) None) as (e6 & E6 & N6 & G6 & R6 & A6 & O6 & X6); [lia| | |exact Hsh|].
  { apply (gr_labelled _ _ _ _ G5), (gr_labelled _ _ _ _ G4), W3. }
  { by intros l (i & _ & ->)%in_reserved. }
  set (end_ := next_label e5) in *. set (e7 := emit_code (IBind ln) e6). destruct (bind_facts ln e6) as (_ & N7 & A7). fold e7 in N7, A7.
  assert (reachable (emitter c) = true → reachable e3 = true ∧ height e3 = height e2 ∧ arriving e6 !! ln = Some (height e2) ∧ reachable e5 = true) as Live.
  { intros Hr. destruct Live3 as (Hr3 & Hh3 & Ha3); [congruence|done|]. split_and!; [done|done| |].
    - rewrite O6 by lia. rewrite A5, A4, Hr3, lookup_insert_eq. cbn. by rewrite Hh3.
    - destruct bodies as [|l bodies]; [by destruct (Hb Hne)|]. apply binds_reach. right. exists l. split; [left|]. unfold arrives. rewrite A4, Hr3, lookup_insert_ne; [by rewrite Ha3 by left|].
      specialize (B3 l ltac:(left)). lia. }
  exists end_, e7, ([IPop] ++ replicate n (IConstant VUnit) ++ new ++ jump_code e3 ++ (IBind <$> bodies) ++ (IRun body (L ++ R) :: jump_code e5) ++ [IBind ln]). split_and!.
  - change (compile_arm (mkArm p (Some guard) body) slot) with (ways ← guarded_or_ways (mkArm p (Some guard) body); match ways with
      | Some ways => r ← compile_guarded_or_arm (mkArm p (Some guard) body) ways slot; bind_all r.2;; mret r.1
      | None => fail_jumps ← compile_pattern_test p; emit IPop;; begin_scope;; emit (IGetLocal slot);; bind_copy ← add_local BIND_SRC; emit (ISetLocal bind_copy);;
          compile_pattern_bind p;; guard_jump ← compile_guard (Some guard); compile_expr body;; end_scope;; end_jump ← jump; bind_all guard_jump;; bind_all fail_jumps;; mret end_jump
      end).
    unfold mbind at 1, compile_bind at 1. rewrite Hways.
    assert (compile_guarded_or_arm (mkArm p (Some guard) body) ways slot c = Done (end_, [ln]) (with_emitter c e6)) as E.
    { unfold compile_guarded_or_arm, tried, mbind, compile_bind. cbn [guard_of pattern_of body_of]. change (emit IPop c) with (Done tt (with_emitter c e1)). cbn beta iota.
      change (begin_scope (with_emitter c e1)) with (Done tt (mkCtx e1 L (S d) (s1 :: scope_starts c) (pattern_floor c))). rewrite Hf. cbn beta iota. unfold look at 1. cbn beta iota. unfold id at 1. cbn [locals].
      fold names. rewrite reserve_is. cbn [emitter locals scope_depth scope_starts pattern_floor]. fold n s1 e2 R c2. unfold look. cbn beta iota. unfold id. cbn [locals emitter c2]. fold c2. rewrite E3, jump_is.
      cbn [emitter with_emitter]. fold ln e4. rewrite bind_all_is. cbn [emitter with_emitter]. fold e5. unfold compile_body, mbind, compile_bind in E6.
      change (with_emitter (with_emitter (with_emitter c2 e3) e4) e5) with (mkCtx e5 (L ++ R) (S d) (s1 :: scope_starts c) None).
      destruct (compile_expr body _) as [? y1|]; [|done]. destruct (end_scope y1) as [? y2|]; [|done]. rewrite E6. unfold with_emitter. by rewrite Hf. }
    unfold mbind, compile_bind. by rewrite E.
  - apply (grows_trans _ _ e1); [by apply grows_plain|]. apply (grows_trans _ _ e2); [apply grows_all; intros i [-> _]%elem_of_replicate; by left|]. apply (grows_trans _ _ e3); [done|].
    apply (grows_trans _ _ e4); [done|]. apply (grows_trans _ _ e5); [done|]. apply (grows_trans _ _ e6); [done|]. apply grows_bind. lia.
  - lia.
  - lia.
  - intros Hr. unfold arrives. rewrite A7. apply A6. by apply Live.
  - intros v st Hst Hslot Hr Hh. destruct (Live Hr) as (Hr3 & Hh3 & Ha & Hr5). assert (s1 = S (length st)) as Hs1 by (unfold s1; cbn; by rewrite Hh).
    assert (height e2 = length (results (replicate n VUnit) v st)) as Hh2 by (rewrite results_length, length_replicate, Sh; fold s1; lia).
    specialize (X3 v st (replicate n VUnit) (S d) Hst Hslot). rewrite Hs1 in X3 at 1. specialize (X3 eq_refl). unfold R in X3 at 1. rewrite Hs1 in X3 at 1.
    specialize (X3 eq_refl Hh2 (length_replicate _ _)). specialize (X3 ltac:(congruence) eq_refl).
    rewrite run_app. change (run [IPop] (At (v :: v :: st))) with (At (v :: st)). rewrite run_app, run_reserve. rewrite run_app.
    assert (replicate n VUnit ++ v :: st = results (replicate n VUnit) v st) as -> by (unfold results; by rewrite reverse_replicate).
    unfold way_lands in X3. destruct (chosen_way env (Some guard) ways v) as [[b|]|].
    + destruct X3 as (ws & l & Hl & Hfr & ->). pose proof (B3 l Hl) as Hl'. rewrite run_app, run_past_jump, run_app, run_binds_to by done.
      rewrite run_app, (X6 _ _ Hr5 Hfr). destruct (eval body (over b env)) as [w|]; cbn [gives]; [|by apply goes_wrong].
      apply (goes_gives _ _ _ _ _ end_ w (reverse ws)); [left|done|]. apply run_past. intros [= E]%list_elem_of_singleton. lia.
    + destruct X3 as (ws & Hlen & ->). apply (goes_on _ _ _ _ _ (reverse ws)); [done| |unfold e7; cbn; by rewrite Ha]. rewrite run_app, (run_jump e3) by done. fold ln. rewrite run_app, run_past.
      * change (IRun body (L ++ R) :: jump_code e5) with ([IRun body (L ++ R)] ++ jump_code e5). rewrite <-app_assoc, run_app, run_past by (by intros [=]%list_elem_of_singleton). rewrite run_app, run_past_jump. unfold run. cbn. by rewrite Nat.eqb_refl.
      * intros Hl%bound_in_binds%B3. lia.
    + apply goes_wrong; [done|]. by rewrite X3, !run_confused.
Qed.
End framed.
