(* ===== verification/MatchClaims.v ===== *)
(** * The code of matches: the theorems (src/compiler/mod.rs,
      src/compiler/patterns.rs)

    The code of a [match] of every form has the value of the arms tried in
    order. *)

From S2P Require Import Prelude Float Tree PatternCode PatternFacts PatternBind MatchFacts.
Open Scope nat_scope.

Section matches.
Context {program : Program} {hidden : HiddenNames} {world : World} {respects : Respects} (env : Env).

(** ** The arms *)

(** An arm whose names are there, and of not too many ways. *)
Definition arm_compiles (ls : list Local_) (arm : MatchArm) : Prop :=
  resolved (pinned ls) (pattern_of arm) = true ∧ match guard_of arm with Some _ => (or_way_count (pattern_of arm) ≤ MAX_GUARDED_OR_WAYS)%N | None => True end.
Lemma arm_code arm slot c : pattern_floor c = None → shallow c → well_labelled (emitter c) → arm_compiles (locals c) arm →
  arm_goes env slot (λ v, arm_result env v arm) (compile_arm arm slot) c.
Proof.
  intros Hf Hsh Hw [Hp Hc]. destruct arm as [p [guard|] body]; cbn [pattern_of guard_of] in *.
  - unfold arm_result, ways_of. cbn [pattern_of guard_of body_of]. destruct (or_way_count p <=? 1)%N eqn:E1.
    + apply (plain_arm env (mkArm p (Some guard) body)); try done. unfold guarded_or_ways. by rewrite E1.
    + apply (or_arm env p guard body (or_ways p)); try done.
      * unfold guarded_or_ways. rewrite E1. destruct (N.ltb_spec MAX_GUARDED_OR_WAYS (or_way_count p)); [lia|done].
      * by apply ways_like.
      * intros E. apply N.leb_gt in E1. assert (or_way_count p < USIZE_MAX)%N as H by (unfold MAX_GUARDED_OR_WAYS, USIZE_MAX in *; lia).
        apply count_ways in H. rewrite E in H. cbn in H. lia.
  - by apply (plain_arm env (mkArm p None body)).
Qed.

(** Arms in order. *)
Lemma arms_code slot h arms : ∀ (first : bool) c, pattern_floor c = None → shallow c → well_labelled (emitter c) → (∀ arm, arm ∈ arms → arm_compiles (locals c) arm) →
  ∃ ends e' new, compile_arms first slot h arms c = Done ends (with_emitter c e') ∧ grows (next_label (emitter c)) (emitter c) e' new ∧
    (∀ l, l ∈ ends → next_label (emitter c) ≤ l < next_label e') ∧ (reachable (emitter c) = true → arms ≠ [] → ∃ l, l ∈ ends ∧ arrives e' l) ∧
    ∀ v st k, framed (locals c) env (v :: st) → slot = length st → h = S (length st) → reachable (emitter c) = true →
      (first = true → k = [] ∧ height (emitter c) = h) →
      goes ends (v :: st) (reachable e' = true) (run new (At (k ++ v :: st))) (λ o, foldr (arm_result env v) o arms).
Proof.
  induction arms as [|arm arms IH]; intros first c Hf Hsh Hw Harms.
  - exists [], (emitter c), []. split_and!; [by destruct c|apply grows_refl|intros l []%elem_of_nil|done|]. intros v st k _ _ _ Hr _. by apply (goes_on _ _ _ _ _ k).
  - set (before := IGetLocal slot :: if first then [] else [ISlide h]). set (e1 := emits before (emitter c)). set (c1 := with_emitter c e1).
    assert (grows (next_label (emitter c)) (emitter c) e1 before) as G1.
    { apply grows_all. intros i Hi. left. unfold before in Hi. destruct first; set_solver. }
    destruct (emits_code before (emitter c)) as [_ N1]. fold e1 in N1. pose proof (gr_labelled _ _ _ _ G1 Hw) as W1.
    assert (reachable e1 = reachable (emitter c)) as Sr1 by (unfold e1, before; by destruct first).
    destruct (arm_code arm slot c1 Hf Hsh W1 (Harms arm ltac:(left))) as (end_ & e2 & new2 & E2 & G2 & R2 & A2 & X2). cbn [c1 emitter with_emitter locals] in *. rewrite N1 in *.
    pose proof (gr_next _ _ _ _ G2) as N2. rewrite N1 in N2. pose proof (gr_labelled _ _ _ _ G2 W1) as W2.
    destruct (IH false (with_emitter c e2) Hf Hsh W2 (λ a Ha, Harms a ltac:(by right))) as (ends & e3 & new3 & E3 & G3 & R3 & _ & X3). cbn [emitter with_emitter locals] in *.
    pose proof (gr_next _ _ _ _ G3) as N3. exists (end_ :: ends), e3, (before ++ new2 ++ new3). split_and!.
    + cbn [compile_arms]. unfold mbind, compile_bind.
      assert ((if first then mret tt else emit (ISlide h)) (with_emitter c (emit_code (IGetLocal slot) (emitter c))) = Done tt c1) as H1 by (unfold c1, e1, before; by destruct first).
      change (emit (IGetLocal slot) c) with (Done tt (with_emitter c (emit_code (IGetLocal slot) (emitter c)))). cbn beta iota. rewrite H1, E2. unfold c1. rewrite with_emitter_twice. by rewrite E3.
    + apply (grows_trans _ _ e1); [done|]. apply (grows_trans _ _ e2); [done|]. apply (grows_weaken _ (next_label e2)); [lia|done].
    + intros l [->|Hl%R3]%elem_of_cons; lia.
    + intros Hr _. exists end_. split; [left|]. unfold arrives. rewrite (gr_old _ _ _ _ G3) by lia. apply A2. congruence.
    + intros v st k Hst Hslot Hh Hr Hfirst. rewrite run_app.
      assert (height e1 = S (S (length st)) ∧ run before (At (k ++ v :: st)) = At (v :: v :: st)) as [Hh1 ->].
      { assert (exec_at (IGetLocal slot) (k ++ v :: st) = At (v :: k ++ v :: st)) as Hget.
        { cbn [exec_at]. rewrite Hslot, slot_of_app by (cbn; lia). by rewrite slot_of_top. }
        unfold before, e1, before. destruct first.
        - destruct (Hfirst eq_refl) as [-> Hhc]. split; [change (S (height (emitter c)) = S (S (length st))); by rewrite Hhc, Hh|]. exact Hget.
        - split; [change (S h = S (S (length st))); by rewrite Hh|]. rewrite run_cons. cbn [exec]. rewrite Hget. unfold run. cbn [foldl exec exec_at]. do 2 f_equal. rewrite Hh.
          change (v :: k ++ v :: st) with ((v :: k) ++ v :: st). rewrite length_app. cbn [length]. rewrite drop_app_ge by (cbn; lia). cbn [length].
          by replace (S (length k) + S (length st) - S (length st) - S (length k)) with 0 by lia. }
      specialize (X2 v st Hst Hslot). rewrite Sr1 in X2. specialize (X2 Hr Hh1). rewrite run_app. destruct X2 as [l w k' Hl Hr' ->|k' Hr' -> Hlive|Hr' ->].
      * apply list_elem_of_singleton in Hl as ->. apply (goes_gives _ _ _ _ _ end_ w k'); [left|intros o; apply Hr'|]. apply run_past. eapply binds_from_past; [exact (gr_binds _ _ _ _ G3)|lia].
      * specialize (X3 v st k' Hst Hslot Hh Hlive ltac:(done)). destruct X3 as [l w k2 Hl Hr3 ->|k2 Hr3 -> Hlive3|Hr3 ->].
        -- apply (goes_gives _ _ _ _ _ l w k2); [by right|intros o; cbn; by rewrite Hr'|done].
        -- apply (goes_on _ _ _ _ _ k2); [intros o; cbn; by rewrite Hr'|done|done].
        -- apply goes_wrong; [intros o; cbn; by rewrite Hr'|done].
      * apply goes_wrong; [intros o; apply Hr'|apply run_confused].
Qed.

(** ** The whole of a match *)

(** What the code leaves on the frame, and what the compiler knows of it. *)
Definition computes (tail : bool) (st : list Val) (e' : CodeState) (s : State) (r : Result) : Prop :=
  match r with
  | Gives w => (if tail then ∃ k, s = At (w :: k ++ st) else s = At (w :: st) ∧ height e' = S (length st)) ∧ reachable e' = true
  | Panics m => s = Panicked m
  | Stuck => s = Confused
  end.
Definition general_match (arms : list MatchArm) (tail : bool) : Compile unit :=
  begin_scope_with_top;;
  scrutinee_slot ← add_local SCRUTINEE;
  emit (ISetLocal scrutinee_slot);;
  arm_height ← height_now;
  end_jumps ← compile_arms true scrutinee_slot arm_height arms;
  emit (IConstant NO_ARM);; emit IPanic;;
  result_height ← end_scope;
  bind_all end_jumps;;
  if tail then mret tt else emit (ISlide result_height).
Lemma general_code arms tail c : pattern_floor c = None → shallow c → well_labelled (emitter c) → 0 < height (emitter c) → (∀ arm, arm ∈ arms → arm_compiles (locals c) arm) →
  ∃ e' new, general_match arms tail c = Done tt (with_emitter c e') ∧ grows (next_label (emitter c)) (emitter c) e' new ∧
    ∀ v st, framed (locals c) env st → reachable (emitter c) = true → height (emitter c) = S (length st) →
      computes tail st e' (run new (At (v :: st))) (arms_result env v arms).
Proof.
  intros Hf Hsh Hw Hpos Harms. set (lo := next_label (emitter c)). set (s := pred (height (emitter c))). set (d := scope_depth c). set (sl := mkLocal SCRUTINEE (S d) s).
  set (e1 := emit_code (ISetLocal s) (emitter c)). set (c1 := mkCtx e1 (locals c ++ [sl]) (S d) (s :: scope_starts c) None). assert (is_hidden SCRUTINEE) as Hhid by (unfold is_hidden; set_solver).
  destruct (arms_code s (height (emitter c)) arms true c1) as (ends & e2 & new & E2 & G2 & R2 & A2 & X2); [done| |done| |].
  { intros l [Hl| ->%list_elem_of_singleton]%elem_of_app; cbn; [specialize (Hsh l Hl); fold d in Hsh; lia|done]. }
  { intros arm Harm. destruct (Harms arm Harm) as [Hp Hc]. split; [|done]. eapply resolved_mono; [|exact Hp]. intros res name. by apply pinned_hidden. }
  cbn [c1 emitter locals] in *. change (next_label e1) with lo in *. change (reachable e1) with (reachable (emitter c)) in *. change (height e1) with (height (emitter c)) in *.
  assert (well_labelled e2) as W2 by (by apply (gr_labelled _ _ _ _ G2)).
  set (e3 := emits [IConstant NO_ARM; IPanic] e2). set (e4 := emits (IBind <$> ends) e3). set (slide := if tail then [] else [ISlide s]). set (e5 := emits slide e4).
  exists e5, ((ISetLocal s :: new) ++ [IConstant NO_ARM; IPanic] ++ (IBind <$> ends) ++ slide). split_and!.
  - unfold general_match, mbind, compile_bind. unfold begin_scope_with_top, begin_scope_at, height_now, look, mbind, compile_bind, changed. fold s.
    unfold add_local, height_now, look, mbind, compile_bind, changed. cbn [emitter locals scope_depth scope_starts pattern_floor].
    assert (height (emitter c) = S s) as Hs by (unfold s; lia). rewrite Hs. unfold with_locals. cbn [emitter locals scope_depth scope_starts pattern_floor mret compile_ret].
    change (emit (ISetLocal s) _) with (Done tt (mkCtx e1 (locals c ++ [sl]) (S d) (s :: scope_starts c) (pattern_floor c))). cbn beta iota. rewrite Hf. fold c1. change (height (emitter c1)) with (height (emitter c)). rewrite E2.
    change (emit (IConstant NO_ARM) (with_emitter c1 e2)) with (Done tt (with_emitter c1 (emit_code (IConstant NO_ARM) e2))). cbn beta iota.
    change (emit IPanic (with_emitter c1 (emit_code (IConstant NO_ARM) e2))) with (Done tt (mkCtx e3 (locals c ++ [sl]) (S d) (s :: scope_starts c) None)). cbn beta iota.
    rewrite end_scope_is; [|by intros l ->%list_elem_of_singleton|exact Hsh]. rewrite bind_all_is. cbn [emitter]. fold e4. unfold e5, slide. destruct c as [e ls dd ss fl]. cbn in *. subst fl. by destruct tail.
  - apply (grows_trans _ _ e2); [apply (grows_trans _ _ e1 _ [_]); [by apply grows_plain|done]|]. apply (grows_trans _ _ e3); [apply (grows_trans _ _ (emit_code (IConstant NO_ARM) e2) _ [_]); [by apply grows_plain|apply grows_panic]|].
    apply (grows_trans _ _ e4); [apply grows_binds; intros l Hl; by apply R2|]. apply grows_all. intros i Hi. left. unfold slide in Hi. destruct tail; set_solver.
  - intros v st Hst Hr Hh. assert (s = length st) as Hs by (unfold s; lia).
    assert (framed (locals c ++ [sl]) env (v :: st)) as Hst1 by (apply framed_hidden; [done|cbn; lia|by apply (framed_push [v])]).
    specialize (X2 v st [] Hst1 Hs Hh Hr ltac:(done)). cbn [app] in X2 |- *. rewrite run_cons. cbn [exec exec_at]. rewrite Hs at 1. rewrite set_slot_top, run_app.
    change (IConstant NO_ARM :: IPanic :: ?l) with ([IConstant NO_ARM; IPanic] ++ l). unfold arms_result. destruct X2 as [l w k Hl Hres ->|k Hres -> _|Hres ->]; rewrite Hres; cbn [computes].
    + assert (reachable e4 = true) as Hr4.
      { apply binds_reach. right. destruct arms as [|arm arms]; [by specialize (Hres Stuck)|]. destruct (A2 Hr ltac:(done)) as (l' & Hl' & Ha). by exists l'. }
      assert (run ([IConstant NO_ARM; IPanic] ++ (IBind <$> ends) ++ slide) (To l (w :: k ++ v :: st)) = run slide (At (w :: k ++ v :: st))) as ->.
      { rewrite run_app. change (run [IConstant NO_ARM; IPanic] (To l ?x)) with (To l x). by rewrite run_app, run_binds_to. }
      unfold e5, slide. destruct tail; [split; [|done]; exists (k ++ [v]); by rewrite <-app_assoc|]. split_and!; [|cbn; by rewrite Hs|done].
      unfold run. cbn [foldl exec exec_at]. do 2 f_equal. rewrite Hs. change (w :: k ++ v :: st) with ((w :: k) ++ [v] ++ st). rewrite app_assoc. apply drop_app_length'. rewrite !length_app. cbn. lia.
    + rewrite run_app. change (run [IConstant NO_ARM; IPanic] (At ?x)) with (Panicked NO_ARM). apply run_panicked.
    + apply run_confused.
Qed.

(** ** Alternatives that leave nothing behind *)
Inductive exits (ends : list nat) (e' : CodeState) (st rest : list Val) (s : State) (r : Result → Result) : Prop :=
  | exits_gives l w : l ∈ ends → arrives e' l → (∀ o, r o = Gives w) → s = To l (w :: st) → exits ends e' st rest s r
  | exits_on : (∀ o, r o = o) → s = At rest → reachable e' = true → exits ends e' st rest s r
  | exits_wrong : (∀ o, r o = Stuck) → s = Confused → exits ends e' st rest s r.

(** Code that asks the values above the frame, and leaves them to the next
    alternative or the result in their place. *)
Definition tries (falls : bool) (n : nat) (L : list Local_) (r : list Val → Result → Result) (m : Compile (list nat)) : Prop := ∀ c, pattern_floor c = None → locals c = L → well_labelled (emitter c) →
  ∃ ends e' new, m c = Done ends (with_emitter c e') ∧ grows (next_label (emitter c)) (emitter c) e' new ∧ (∀ l, l ∈ ends → next_label (emitter c) ≤ l < next_label e') ∧
    (falls = true → reachable (emitter c) = true → reachable e' = true) ∧
    (∀ h, reachable (emitter c) = true → height (emitter c) = n + h → level e' (n + h) ∧ ∀ l, l ∈ ends → arrives_at e' l (S h)) ∧
    ∀ asked st, length asked = n → framed L env st → reachable (emitter c) = true → height (emitter c) = n + length st →
      exits ends e' st (asked ++ st) (run new (At (asked ++ st))) (r asked).
Lemma tries_each {A} falls n L (r : A → list Val → Result → Result) (m : A → Compile (list nat)) l : ∀ i, (∀ a, a ∈ l → tries falls n L (r a) (m a)) →
  tries falls n L (λ asked o, foldr (λ a o, r a asked o) o l) (each (λ _ a, m a) i l).
Proof.
  induction l as [|a l IH]; intros i H c Hf HL Hw.
  - exists [], (emitter c), []. split_and!; [by destruct c|apply grows_refl|intros l []%elem_of_nil| | |].
    + done.
    + intros h _ Hh. split; [by intros _|intros l []%elem_of_nil].
    + intros asked st _ _ Hr _. by apply exits_on.
  - destruct (H a ltac:(left) c Hf HL Hw) as (ends1 & e1 & new1 & E1 & G1 & R1 & F1 & L1 & X1). pose proof (gr_labelled _ _ _ _ G1 Hw) as W1. pose proof (gr_next _ _ _ _ G1) as N1.
    destruct (IH (S i) (λ a Ha, H a ltac:(by right)) (with_emitter c e1) Hf HL W1) as (ends2 & e2 & new2 & E2 & G2 & R2 & F2 & L2 & X2). cbn [emitter with_emitter] in *. pose proof (gr_next _ _ _ _ G2) as N2.
    exists (ends1 ++ ends2), e2, (new1 ++ new2). split_and!.
    + cbn [each]. unfold mbind, compile_bind. by rewrite E1, E2.
    + apply (grows_trans _ _ e1); [done|]. by apply (grows_weaken _ (next_label e1)).
    + intros l' [Hl%R1|Hl%R2]%elem_of_app; lia.
    + intros Hfalls Hr. by apply F2, F1.
    + intros h Hr Hh. destruct (L1 h Hr Hh) as [Hlev Ha]. assert (∀ l', l' ∈ ends1 → arrives_at e2 l' (S h)) as Ha1.
      { intros l' Hl. unfold arrives_at. rewrite (gr_old _ _ _ _ G2) by (by apply R1). by apply Ha. }
      destruct (reachable e1) eqn:Er.
      * destruct (L2 h eq_refl (Hlev Er)) as [Hlev2 Ha2]. split; [done|]. intros l' [Hl|Hl]%elem_of_app; [by apply Ha1|by apply Ha2].
      * destruct (gr_dead _ _ _ _ G2) as [[Hd _] Harr]; [split; [done|]; intros l' Hl; apply eq_None_not_Some; intros Ha'%W1; lia|].
        split; [intros ?; congruence|]. intros l' [Hl|Hl]%elem_of_app; [by apply Ha1|]. intros b. rewrite Harr. intros Hb. assert (arrives e1 l') as Ha'%W1 by (by exists b). apply R2 in Hl. lia.
    + intros asked st Hn Hst Hr Hh. destruct (L1 _ Hr Hh) as [Hlev _]. rewrite run_app. destruct (X1 asked st Hn Hst Hr Hh) as [l' w Hl Ha Hres ->|Hres -> Hr1|Hres ->].
      * pose proof (R1 l' Hl) as Hl'. apply (exits_gives _ _ _ _ _ _ l' w); [apply elem_of_app; by left| |intros o; apply Hres|].
        -- unfold arrives. by rewrite (gr_old _ _ _ _ G2) by lia.
        -- apply run_past. eapply binds_from_past; [exact (gr_binds _ _ _ _ G2)|lia].
      * destruct (X2 asked st Hn Hst Hr1 (Hlev Hr1)) as [l' w Hl Ha Hres2 ->|Hres2 -> Hr2|Hres2 ->].
        -- apply (exits_gives _ _ _ _ _ _ l' w); [apply elem_of_app; by right|done|intros o; cbn; by rewrite Hres|done].
        -- apply exits_on; [intros o; cbn; by rewrite Hres|done|done].
        -- apply exits_wrong; [intros o; cbn; by rewrite Hres|done].
      * apply exits_wrong; [intros o; apply Hres|apply run_confused].
Qed.

(** A body and the jump behind it, then where the alternative has failed. *)
Lemma try_end body failed lo e L : lo ≤ next_label e → well_labelled e → (∀ l, l ∈ failed → lo ≤ l < next_label e) →
  let end_ := next_label e in let e1 := jumped (emit_code (IRun body L) e) in let e2 := emits (IBind <$> failed) e1 in
  let new := (IRun body L :: jump_code e) ++ (IBind <$> failed) in
  grows lo e e2 new ∧ next_label e2 = S end_ ∧ (∀ l, l < end_ → arriving e2 !! l = arriving e !! l) ∧
  (reachable e = true → arriving e2 !! end_ = Some (S (height e))) ∧ (∀ k, (∀ l, l ∈ failed → arrives_at e l k) → level e2 k) ∧
  (∀ l, l ∈ failed → arrives e l → reachable e2 = true) ∧
  (∀ st env', reachable e = true → framed L env' st → run new (At st) = match eval body env' with Some w => To end_ (w :: st) | None => Confused end) ∧
  (∀ l st, l ∈ failed → run new (To l st) = At st).
Proof.
  intros Hlo Hw Hfailed. cbn zeta. set (end_ := next_label e). set (e0 := emit_code (IRun body L) e). assert (well_labelled e0) as W0 by exact Hw. set (e1 := jumped e0).
  pose proof (grows_jumped lo e0 Hlo W0) as G. destruct (jumped_facts e0) as (_ & N & R & _). pose proof (jump_arriving e0 W0) as A. fold e1 in G, N, R, A.
  change (jump_code e0) with (jump_code e) in G. change (next_label e0) with end_ in N, A. change (reachable e0) with (reachable e) in A. change (arriving e0) with (arriving e) in A. change (height e0) with (S (height e)) in A.
  assert (∀ l, l < end_ → arriving e1 !! l = arriving e !! l) as Hold by (intros l Hl; rewrite A; destruct (reachable e); [by rewrite lookup_insert_ne by lia|done]). split_and!.
  - apply (grows_trans _ _ e1); [apply (grows_trans _ _ e0 _ [_]); [by apply grows_plain|done]|]. apply grows_binds. intros l Hl. by apply Hfailed.
  - by rewrite binds_next.
  - intros l Hl. rewrite binds_arriving. by apply Hold.
  - intros Hr. by rewrite binds_arriving, A, Hr, lookup_insert_eq.
  - intros k Hk. apply (binds_level failed k e1); [by intros Hr; rewrite R in Hr|]. intros l Hl. unfold arrives_at. rewrite Hold by (by apply Hfailed). by apply Hk.
  - intros l Hl Ha. apply binds_reach. right. exists l. split; [done|]. unfold arrives. rewrite Hold; [done|]. by apply Hfailed.
  - intros st env' Hr Hst. rewrite run_app, run_cons. cbn [exec]. rewrite (run_expr body L env' st Hst). destruct (eval body env') as [w|].
    + cbn [fmap option_fmap option_map]. rewrite (run_jump e) by done. fold end_. apply run_past. intros Hl%bound_in_binds%Hfailed. unfold end_ in Hl. lia.
    + cbn. by rewrite !run_confused.
  - intros l st Hl. rewrite run_app, run_cons. cbn [exec]. rewrite run_past_jump. by apply run_binds_to.
Qed.

(** *** Conditions *)
Definition condition_arm (arm : MatchArm) : Compile (list nat) :=
  failed ← compile_guard (guard_of arm); compile_expr (body_of arm);; end_ ← jump; bind_all failed;; mret [end_].
Lemma guardless_each arms : ∀ i c, guardless_arms arms c = each (λ _ arm, condition_arm arm) i arms c.
Proof.
  induction arms as [|arm arms IH]; intros i c; [done|]. cbn [guardless_arms each]. specialize (IH (S i)).
  set (rest := each (λ _ arm, condition_arm arm) (S i) arms) in *. clearbody rest. unfold condition_arm, compile_guard. destruct (guard_of arm) as [g|]; unfold mbind, compile_bind.
  - destruct (compile_expr g c) as [? c1|]; [|done]. destruct (jump_if_false c1) as [j c2|]; [|done]. cbn [mret compile_ret]. destruct (compile_expr (body_of arm) c2) as [? c3|]; [|done].
    destruct (jump c3) as [? c4|]; [|done]. rewrite bind_all_is. change (bind j c4) with (Done tt (with_emitter c4 (emits (IBind <$> [j]) (emitter c4)))). cbn beta iota. cbn [mret compile_ret]. rewrite IH. by destruct (rest _).
  - cbn [mret compile_ret]. destruct (compile_expr (body_of arm) c) as [? c1|]; [|done]. destruct (jump c1) as [? c2|]; [|done]. rewrite bind_all_is. cbn [fmap list_fmap].
    change (emits [] (emitter c2)) with (emitter c2). cbn [mret compile_ret]. rewrite with_own_emitter, IH. by destruct (rest _).
Qed.
Lemma condition_tries L arm : tries false 0 L (λ _ o, condition_result env arm o) (condition_arm arm).
Proof.
  intros c Hf HL Hw. set (lo := next_label (emitter c)). destruct (guard_code (guard_of arm) lo c) as (failed & e1 & gc & E1 & G1 & R1 & NB1 & Live1 & Hh1 & A1 & X1); [done|done|].
  pose proof (gr_labelled _ _ _ _ G1 Hw) as W1. pose proof (gr_next _ _ _ _ G1) as N1. rewrite HL in *.
  destruct (try_end (body_of arm) failed lo e1 L N1 W1 R1) as (G2 & N2 & O2 & A2 & L2 & Live2 & X2 & Y2). set (end_ := next_label e1) in *.
  set (e2 := emits (IBind <$> failed) _) in *. exists [end_], e2, (gc ++ (IRun (body_of arm) L :: jump_code e1) ++ (IBind <$> failed)). split_and!.
  - unfold condition_arm, mbind, compile_bind. rewrite E1. change (compile_expr (body_of arm) (with_emitter c e1)) with (Done tt (with_emitter c (emit_code (IRun (body_of arm) (locals c)) e1))). cbn beta iota.
    rewrite jump_is, bind_all_is. by rewrite HL.
  - by apply (grows_trans _ _ e1).
  - intros l ->%list_elem_of_singleton. unfold end_. lia.
  - done.
  - intros h Hr Hh. split.
    + apply L2. intros l Hl. unfold arrives_at. rewrite (A1 Hr l Hl), Hh. by intros a [= <-].
    + intros l ->%list_elem_of_singleton. destruct (Live1 Hr) as [Hr1 _]. unfold arrives_at. rewrite (A2 Hr1), Hh1, Hh. by intros a [= <-].
  - intros asked st Hn Hst Hr Hh. destruct asked; [|done]. change ([] ++ st) with st. specialize (X1 st env Hst). rewrite run_app. destruct (Live1 Hr) as [Hr1 Ha1]. unfold condition_result.
    destruct (guard_holds (guard_of arm) env) as [[|]|].
    + rewrite X1, (X2 st env Hr1 Hst). destruct (eval (body_of arm) env) as [w|]; [|by apply exits_wrong]. apply (exits_gives _ _ _ _ _ _ end_ w); [left| |done|done]. unfold arrives. by rewrite (A2 Hr1).
    + destruct X1 as (l & Hl & ->). rewrite (Y2 l st Hl). apply exits_on; [done|done|]. apply (Live2 l Hl). by apply Ha1.
    + rewrite X1, run_confused. by apply exits_wrong.
Qed.

(** *** Literals *)
Definition literal_arm (arm : MatchArm) : Compile (list nat) :=
  failed ← compile_pattern_test (pattern_of arm); emit IPop;; compile_expr (body_of arm);; end_ ← jump; bind_all failed;; mret [end_].
Lemma literal_each arms : ∀ i c, literal_arms arms c = each (λ _ arm, literal_arm arm) i arms c.
Proof.
  induction arms as [|arm arms IH]; intros i c; [done|]. cbn [literal_arms each]. specialize (IH (S i)).
  set (rest := each (λ _ arm, literal_arm arm) (S i) arms) in *. clearbody rest. unfold literal_arm, mbind, compile_bind.
  destruct (compile_pattern_test (pattern_of arm) c) as [failed c1|]; [|done]. destruct (emit IPop c1) as [? c2|]; [|done]. destruct (compile_expr (body_of arm) c2) as [? c3|]; [|done].
  destruct (jump c3) as [? c4|]; [|done]. rewrite bind_all_is. cbn [mret compile_ret]. rewrite IH. by destruct (rest _).
Qed.
Lemma literal_depth p c F c' : is_literal (kind p) = true → compile_pattern_test_tracked p 0 c = Done F c' → ∀ l d, (l, d) ∈ F → d = 0.
Proof.
  destruct p as [res [|] k]; cbn [kind]; intros Hk E l d Hin; [injection E as <- _; by apply elem_of_nil in Hin|].
  destruct k; try done; cbn [compile_pattern_test_tracked] in E; unfold float_constant, tried, mbind, compile_bind in E; try destruct (float_new _); try done;
    unfold test_one, mbind, compile_bind in E; cbn in E; injection E as <- _; by apply list_elem_of_singleton in Hin as [= _ ->].
Qed.
Lemma literal_fails p c F c' : is_literal (kind p) = true → irrefutable p = false → compile_pattern_test_tracked p 0 c = Done F c' → reachable (emitter c) = true →
  ∃ l, (l, 0) ∈ F ∧ arrives (emitter c') l.
Proof.
  destruct p as [res irr k]; cbn [kind irrefutable]; intros Hk -> E Hr.
  assert (∀ t, test_one t 0 c = Done F c' → ∃ l, (l, 0) ∈ F ∧ arrives (emitter c') l) as Hone.
  { intros t Et. unfold test_one, mbind, compile_bind in Et. cbn in Et. injection Et as <- <-. eexists. split; [left|]. unfold arrives. cbn. by rewrite Hr, lookup_insert_eq. }
  destruct k; try done; cbn [compile_pattern_test_tracked] in E; unfold float_constant, tried in E; try (by eapply Hone).
  unfold mbind at 1, compile_bind at 1 in E. destruct (float_new _) as [f|]; [|done]. by apply (Hone (TestEqual (VFloat f))).
Qed.
Lemma literal_binds p v : is_literal (kind p) = true → pattern_binds (pin_of env) p v = Some [].
Proof. destruct p as [res irr k]. by destruct k. Qed.
Lemma no_names e : eval e (over [] env) = eval e env.
Proof. by apply eval_respects. Qed.
Lemma literal_result arm v o : is_literal (kind (pattern_of arm)) = true → guard_of arm = None → arm_result env v arm o =
  match pattern_test (pin_of env) (pattern_of arm) v with None => Stuck | Some true => gives (eval (body_of arm) env) | Some false => o end.
Proof.
  intros Hl Hg. unfold arm_result, ways_of. rewrite Hg. cbn [chosen_way]. destruct (pattern_test _ _ v) as [[|]|]; cbn [mbind option_bind]; [|done|done].
  rewrite literal_binds by done. cbn [mbind option_bind guard_holds]. by rewrite no_names.
Qed.
Lemma literal_tries L arm : is_literal (kind (pattern_of arm)) = true → irrefutable (pattern_of arm) = false → guard_of arm = None → resolved (pinned L) (pattern_of arm) = true →
  tries true 1 L (λ asked o, match asked with v :: _ => arm_result env v arm o | [] => o end) (literal_arm arm).
Proof.
  intros Hlit Hirr Hg Hp c Hf HL Hw. set (lo := next_label (emitter c)). set (p := pattern_of arm) in *.
  assert (locals_outside c = L) as Hout by (unfold locals_outside; rewrite Hf, HL; apply firstn_all).
  destruct (compile_test_tests L (pin_of env) p 0 Hp c Hout Hw) as (c1 & F & E1 & T). pose proof T as [R1 N1 W1 G1 O1 L1 D1 K1 (nt & C1 & B1 & X1)].
  pose proof (literal_depth p c F c1 Hlit E1) as Hdepth. set (e1 := emit_code IPop (emitter c1)). assert (well_labelled e1) as W1' by exact W1.
  assert (∀ l, l ∈ F.*1 → lo ≤ l < next_label e1 ∧ (l, 0) ∈ F) as HF.
  { intros l ([l' d] & -> & Hin)%list_elem_of_fmap. destruct (G1 l' d Hin) as [Hr _]. rewrite (Hdepth l' d Hin) in Hin. split; [exact Hr|done]. }
  destruct (try_end (body_of arm) F.*1 lo e1 L) as (G2 & N2 & O2 & A2 & L2 & Live2 & X2 & Y2); [exact N1|done|intros l Hl; by apply HF|].
  set (end_ := next_label e1) in *. set (e2 := emits (IBind <$> F.*1) _) in *. exists [end_], e2, (nt ++ [IPop] ++ (IRun (body_of arm) L :: jump_code e1) ++ (IBind <$> F.*1)). split_and!.
  - unfold literal_arm, compile_pattern_test, mbind, compile_bind. fold p. rewrite E1. cbn [mret compile_ret]. change (emit IPop c1) with (Done tt (with_emitter c1 e1)). cbn beta iota.
    change (compile_expr (body_of arm) (with_emitter c1 e1)) with (Done tt (with_emitter c1 (emit_code (IRun (body_of arm) (locals c1)) e1))). cbn beta iota. rewrite jump_is, bind_all_is.
    rewrite R1. cbn [locals with_emitter emitter]. by rewrite HL.
  - destruct (test_steps env _ _ _ _ _ _ T) as (nt' & St1 & C1' & _). rewrite C1 in C1'. apply app_inv_head in C1' as <-.
    apply (grows_trans _ _ (emitter c1)); [by apply steps_grows|]. apply (grows_trans _ _ e1 _ [_]); [by apply grows_plain|done].
  - intros l ->%list_elem_of_singleton. split; [exact N1|lia].
  - intros _ Hr. destruct (literal_fails p c F c1 Hlit Hirr E1 Hr) as (l & Hin & Ha). apply (Live2 l); [apply list_elem_of_fmap; by exists (l, 0)|exact Ha].
  - intros h Hr Hh. destruct (L1 Hr) as (Hr1 & Hh1 & Ha1). split.
    + apply L2. intros l Hl. apply HF in Hl as [_ Hl]. specialize (Ha1 l 0 Hl). rewrite Nat.add_0_r, Hh in Ha1. exact Ha1.
    + intros l ->%list_elem_of_singleton. unfold arrives_at. rewrite (A2 Hr1). unfold e1. cbn. rewrite Hh1, Hh. by intros a [= <-].
  - intros asked st Hn Hst Hr Hh. destruct asked as [|v [|]]; [done| |done]. change ([v] ++ st) with (v :: st). destruct (L1 Hr) as (Hr1 & Hh1 & Ha1). rewrite (run_app nt).
    assert (framed L env st) as Hst' by done. specialize (X1 v st Hr (framed_agrees _ _ _ Hst)). unfold leads in X1.
    assert (∀ o, arm_result env v arm o = match pattern_test (pin_of env) p v with None => Stuck | Some true => gives (eval (body_of arm) env) | Some false => o end) as Hres by (intros o; by apply literal_result).
    destruct (pattern_test (pin_of env) p v) as [[|]|].
    + rewrite X1, run_app. change (run [IPop] (At (v :: st))) with (At st). rewrite (X2 st env Hr1 Hst). destruct (eval (body_of arm) env) as [w|]; [|by apply exits_wrong].
      apply (exits_gives _ _ _ _ _ _ end_ w); [left| |done|done]. unfold arrives. by rewrite (A2 Hr1).
    + destruct X1 as (l & d & subs & Hin & Hlen & Hrun & Ha). pose proof (Hdepth l d Hin) as ->. destruct subs; [|done]. cbn [app] in Hrun. rewrite Hrun, run_app.
      assert (l ∈ F.*1) as Hl by (apply list_elem_of_fmap; by exists (l, 0)). change (run [IPop] (To l (v :: st))) with (To l (v :: st)). rewrite (Y2 l _ Hl). apply exits_on; [done|done|].
      apply (Live2 l Hl). unfold arrives. change (arriving e1) with (arriving (emitter c1)). by rewrite Ha.
    + rewrite X1, run_confused. by apply exits_wrong.
Qed.

(** *** The forms of a match on literals *)
Definition named_last (name : Symbol) (body : Expr) (tail : bool) : Compile unit :=
  begin_scope_with_top;; _ ← add_local name; compile_expr body;; end_scope_with_result tail.
Definition compile_literals (tests : list MatchArm) (last : MatchArm) (tail : bool) : Compile bool :=
  end_jumps ← literal_arms tests;
  match kind (pattern_of last) with PIdent name => named_last name (body_of last) tail | _ => emit IPop;; compile_expr (body_of last) end;;
  bind_all end_jumps;; mret true.
Definition compile_bools (first : bool) (body : Expr) (last : MatchArm) (tail : bool) : Compile bool :=
  otherwise ← (if first then jump_if_false else jump_if_true);
  compile_expr body;;
  end_jump ← jump;
  bind otherwise;;
  match kind (pattern_of last) with PIdent name => emit (IConstant (VBool (negb first)));; named_last name (body_of last) tail | _ => compile_expr (body_of last) end;;
  bind end_jump;; mret true.
Definition covers (last : MatchArm) : Prop := match kind (pattern_of last) with PWildcard | PIdent _ => True | _ => False end.
Inductive literal_form (arms : list MatchArm) (tail : bool) : Prop :=
  | form_none : (∀ c, compile_literal_match arms tail c = Done false c) → literal_form arms tail
  | form_bools res irr first body last : arms = [mkArm (mkPattern res irr (PBool first)) None body; last] → guard_of last = None →
      covers last ∨ kind (pattern_of last) = PBool (negb first) → (∀ c, compile_literal_match arms tail c = compile_bools first body last tail c) → literal_form arms tail
  | form_literals tests last : arms = tests ++ [last] → (∀ arm, arm ∈ tests → is_literal (kind (pattern_of arm)) = true ∧ guard_of arm = None) → guard_of last = None → covers last →
      (∀ c, compile_literal_match arms tail c = compile_literals tests last tail c) → literal_form arms tail.
Lemma literal_forms arms tail : literal_form arms tail.
Proof.
  destruct (reverse arms) as [|last before] eqn:Er; [apply form_none; intros c; unfold compile_literal_match; by rewrite Er|].
  destruct before as [|second before']; [apply form_none; intros c; unfold compile_literal_match; by rewrite Er|]. set (before := second :: before') in *. set (tests := reverse before).
  assert (arms = tests ++ [last]) as Earms by (rewrite <-(reverse_involutive arms), Er; apply reverse_cons).
  assert (tests ≠ []) as Hne.
  { intros E. assert (length tests = 0) as Hlen by (by rewrite E). unfold tests in Hlen. rewrite length_reverse in Hlen. done. }
  assert (∀ c, compile_literal_match arms tail c = (if negb (forallb unguarded_arm arms) then mret false else
    match kind (pattern_of last) with
    | PWildcard | PIdent _ | PBool _ =>
        match tests, kind (pattern_of last) with
        | [mkArm (mkPattern _ _ (PBool first)) _ body], _ =>
            if match kind (pattern_of last) with PBool second => Bool.eqb second first | _ => false end then mret false else compile_bools first body last tail
        | _, PWildcard | _, PIdent _ => if forallb (λ arm, is_literal (kind (pattern_of arm))) tests then compile_literals tests last tail else mret false
        | _, _ => mret false
        end
    | _ => mret false
    end) c) as Hcode.
  { intros c. unfold compile_literal_match. rewrite Er. unfold before. fold before tests. destruct (negb (forallb unguarded_arm arms)); [done|].
    unfold compile_bools, compile_literals, named_last. destruct (kind (pattern_of last)) eqn:Ek; try reflexivity;
      destruct tests as [|[[res irr k] g body] [|? ?]]; try reflexivity; destruct k; try reflexivity; by destruct (Bool.eqb _ _). }
  destruct (forallb unguarded_arm arms) eqn:Eg; cbn [negb] in Hcode; [|by apply form_none].
  assert (∀ arm, arm ∈ arms → guard_of arm = None) as Hg.
  { intros arm Harm. pose proof (forallb_elem _ _ _ Eg Harm) as H. unfold unguarded_arm in H. by destruct (guard_of arm). }
  assert (guard_of last = None) as Hlast by (apply Hg; rewrite Earms; set_solver).
  assert (∀ arm, arm ∈ tests → guard_of arm = None) as Hgt by (intros arm Harm; apply Hg; rewrite Earms; set_solver).
  assert (covers last → (∀ c, compile_literal_match arms tail c = (if forallb (λ arm, is_literal (kind (pattern_of arm))) tests then compile_literals tests last tail else mret false) c) → literal_form arms tail) as Hlits.
  { intros Hcov H. destruct (forallb _ tests) eqn:El; [|by apply form_none]. apply (form_literals _ _ tests last); try done. intros arm Harm. split; [exact (forallb_elem _ _ _ El Harm)|by apply Hgt]. }
  assert (∀ res irr first g body, tests = [mkArm (mkPattern res irr (PBool first)) g body] → covers last ∨ kind (pattern_of last) = PBool (negb first) →
    (∀ c, compile_literal_match arms tail c = compile_bools first body last tail c) → literal_form arms tail) as Hbools.
  { intros res irr first g body Et Hcov H. specialize (Hgt (mkArm (mkPattern res irr (PBool first)) g body)). rewrite Et in Hgt. specialize (Hgt ltac:(left)). cbn in Hgt. subst g.
    apply (form_bools _ _ res irr first body last); [by rewrite Earms, Et|done|done|done]. }
  unfold covers in *. destruct (kind (pattern_of last)) as [| | | |other| | | | | | | | | | |] eqn:Ek; try (by apply form_none);
    destruct tests as [|[[res irr k] g body] [|t2 ts]]; try done; try (by apply Hlits); try (by apply form_none); destruct k; try (by apply Hlits); try (by apply form_none);
    try (eapply Hbools; [done|by left|done]).
  destruct (Bool.eqb other b) eqn:E; [by apply form_none|]. eapply Hbools; [done|right|done]. by destruct other, b.
Qed.

(** A value named for the last arm. *)
Definition named_code (body : Expr) (L : list Local_) (slot : nat) (tail : bool) : list Instr := IRun body L :: if tail then [] else [ISlide slot].
Lemma named_last_is name body tail c : shallow c → 0 < height (emitter c) → let s := pred (height (emitter c)) in let L := locals c ++ [mkLocal name (S (scope_depth c)) s] in
  named_last name body tail c = Done tt (with_emitter c (emits (named_code body L s tail) (emitter c))).
Proof.
  intros Hsh Hpos s L. assert (height (emitter c) = S s) as Hs by (unfold s; lia).
  unfold named_last, end_scope_with_result, mbind, compile_bind, height_now, look. unfold begin_scope_with_top, begin_scope_at, height_now, look, mbind, compile_bind, changed. fold s.
  unfold add_local, height_now, look, mbind, compile_bind, changed. cbn [emitter locals scope_depth scope_starts pattern_floor]. rewrite Hs. unfold with_locals. cbn [emitter locals scope_depth scope_starts pattern_floor mret compile_ret].
  fold L. change (compile_expr body _) with (Done tt (mkCtx (emit_code (IRun body L) (emitter c)) L (S (scope_depth c)) (s :: scope_starts c) (pattern_floor c))). cbn beta iota. cbn [emitter].
  unfold L at 1 2 3. rewrite end_scope_is; [|by intros l ->%list_elem_of_singleton|exact Hsh]. change (height (emit_code (IRun body ?L) (emitter c))) with (S (height (emitter c))). rewrite Hs.
  assert ((S s <? S (S s)) = true) as -> by (apply Nat.ltb_lt; lia). unfold named_code. destruct c as [e ls dd ss fl]. by destruct tail.
Qed.
Lemma run_named name body tail c v st : framed (locals c) env st → height (emitter c) = S (length st) →
  let s := pred (height (emitter c)) in let L := locals c ++ [mkLocal name (S (scope_depth c)) s] in
  run (named_code body L s tail) (At (v :: st)) = match eval body (over [(name, v)] env) with Some w => At (if tail then w :: v :: st else w :: st) | None => Confused end.
Proof.
  intros Hst Hh s L. assert (s = length st) as Hs by (unfold s; lia). assert (framed L (over [(name, v)] env) ([v] ++ st)) as Hfr.
  { apply framed_over; [done|intros l ->%list_elem_of_singleton; cbn; lia|]. intros n _. unfold env_of. rewrite find_local_one, value_of_one. destruct (name =? n)%N; [|done].
    cbn [mbind option_bind]. rewrite Hs. apply slot_of_top. }
  unfold named_code. rewrite run_cons. cbn [exec]. cbn [app] in Hfr. rewrite (run_expr body L _ _ Hfr). destruct (eval body _) as [w|]; [|by rewrite run_confused]. destruct tail; [done|].
  unfold run. cbn [foldl exec exec_at]. do 2 f_equal. rewrite Hs. change (w :: v :: st) with ([w; v] ++ st). apply drop_app_length'. rewrite length_app. cbn. lia.
Qed.
Lemma named_static body L s tail e : height e = S s → let e' := emits (named_code body L s tail) e in
  reachable e' = reachable e ∧ arriving e' = arriving e ∧ height e' = (if tail then S (S s) else S s) ∧ next_label e' = next_label e.
Proof. intros Hs. destruct tail; split_and!; try done. change (S (height e) = S (S s)). by rewrite Hs. Qed.
Lemma last_result last v o : guard_of last = None → covers last → arm_result env v last o =
  match kind (pattern_of last) with PIdent name => gives (eval (body_of last) (over [(name, v)] env)) | _ => gives (eval (body_of last) env) end.
Proof.
  intros Hg Hc. unfold arm_result, ways_of, covers in *. rewrite Hg. cbn [chosen_way]. destruct (pattern_of last) as [res irr k]. cbn [kind] in *.
  destruct k; try done; destruct irr; cbn [pattern_test pattern_binds mbind option_bind guard_holds]; by rewrite ?no_names.
Qed.

(** The code's end, where the values meet. *)
Lemma ends_meet ends e h : level e h → (∀ l, l ∈ ends → arrives_at e l h) → let e' := emits (IBind <$> ends) e in
  reachable e = true ∨ (∃ l, l ∈ ends ∧ arrives e l) → reachable e' = true ∧ height e' = h.
Proof. intros H1 H2 e' H. destruct (binds_level ends h e H1 H2) as (L & _ & R). assert (reachable e' = true) as Hr by (by apply R). by split; [|apply L]. Qed.

(** Without a scrutinee. *)
Definition match_code (tail : bool) (r : Result) (m : Compile unit) (c : Ctx) : Prop := ∃ e' new, m c = Done tt (with_emitter c e') ∧ grows (next_label (emitter c)) (emitter c) e' new ∧
  ∀ st, framed (locals c) env st → reachable (emitter c) = true → height (emitter c) = length st → computes tail st e' (run new (At st)) r.
Lemma computes_exact tail st e' s w : s = At (w :: st) → reachable e' = true → height e' = S (length st) → computes tail st e' s (Gives w).
Proof. intros -> Hr Hh. split; [|done]. destruct tail; [by exists []|done]. Qed.
Lemma guardless_code arms tail c : pattern_floor c = None → well_labelled (emitter c) → match_code tail (foldr (condition_result env) (Panics NO_CONDITION) arms) (compile_guardless_match arms) c.
Proof.
  intros Hf Hw. destruct (tries_each false 0 (locals c) (λ arm _ o, condition_result env arm o) condition_arm arms 0 (λ arm _, condition_tries (locals c) arm) c Hf eq_refl Hw) as (ends & e1 & new & E1 & G1 & R1 & _ & L1 & X1).
  pose proof (gr_labelled _ _ _ _ G1 Hw) as W1. set (e2 := emits [IConstant NO_CONDITION; IPanic] e1). set (e3 := emits (IBind <$> ends) e2). exists e3, (new ++ [IConstant NO_CONDITION; IPanic] ++ (IBind <$> ends)). split_and!.
  - unfold compile_guardless_match, mbind, compile_bind. rewrite (guardless_each arms 0), E1. change (emit (IConstant NO_CONDITION) (with_emitter c e1)) with (Done tt (with_emitter c (emit_code (IConstant NO_CONDITION) e1))). cbn beta iota.
    change (emit IPanic (with_emitter c _)) with (Done tt (with_emitter c e2)). cbn beta iota. by rewrite bind_all_is.
  - apply (grows_trans _ _ e1); [done|]. apply (grows_trans _ _ e2); [apply (grows_trans _ _ (emit_code (IConstant NO_CONDITION) e1) _ [_]); [by apply grows_plain|apply grows_panic]|]. apply grows_binds. intros l Hl. by apply R1.
  - intros st Hst Hr Hh. destruct (L1 (length st) Hr Hh) as [_ Ha]. rewrite run_app. destruct (X1 [] st eq_refl Hst Hr Hh) as [l w Hl Harr Hres E|Hres E Hr1|Hres E]; cbn beta in Hres; rewrite Hres; cbn [app] in E; rewrite E.
    + destruct (ends_meet ends e2 (S (length st))) as [Hr3 Hh3]; [by intros ?|done|right; by exists l|]. apply computes_exact; [|done|done]. rewrite run_app. change (run [IConstant NO_CONDITION; IPanic] (To l ?x)) with (To l x). by apply run_binds_to.
    + cbn [computes]. rewrite run_app. change (run [IConstant NO_CONDITION; IPanic] (At st)) with (Panicked NO_CONDITION). apply run_panicked.
    + apply run_confused.
Qed.

(** With a scrutinee, whose value is on the frame. *)
Definition asked_code (tail : bool) (r : Val → Result) (m : Compile unit) (c : Ctx) : Prop := ∃ e' new, m c = Done tt (with_emitter c e') ∧ grows (next_label (emitter c)) (emitter c) e' new ∧
  ∀ v st, framed (locals c) env st → height (emitter c) = S (length st) → computes tail st e' (run new (At (v :: st))) (r v).
Definition last_value (last : MatchArm) (v : Val) : Result :=
  match kind (pattern_of last) with PIdent name => gives (eval (body_of last) (over [(name, v)] env)) | _ => gives (eval (body_of last) env) end.

(** The last arm's code, where the value is on the frame. *)
Definition compile_last (last : MatchArm) (tail : bool) : Compile unit :=
  match kind (pattern_of last) with PIdent name => named_last name (body_of last) tail | _ => emit IPop;; compile_expr (body_of last) end.
Lemma last_code last tail c : shallow c → 0 < height (emitter c) → ∃ new, forallb plain new = true ∧ compile_last last tail c = Done tt (with_emitter c (emits new (emitter c))) ∧
  let e' := emits new (emitter c) in reachable e' = reachable (emitter c) ∧ arriving e' = arriving (emitter c) ∧ next_label e' = next_label (emitter c) ∧
  (tail = false → height e' = height (emitter c)) ∧
  ∀ v st, framed (locals c) env st → height (emitter c) = S (length st) →
    match last_value last v with Gives w => (if tail then ∃ k, run new (At (v :: st)) = At (w :: k ++ st) else run new (At (v :: st)) = At (w :: st)) | _ => run new (At (v :: st)) = Confused end.
Proof.
  intros Hsh Hpos. assert (∃ s, height (emitter c) = S s) as [s Hs] by (exists (pred (height (emitter c))); lia). unfold compile_last, last_value.
  assert (∃ new, forallb plain new = true ∧ (emit IPop;; compile_expr (body_of last)) c = Done tt (with_emitter c (emits new (emitter c))) ∧
    let e' := emits new (emitter c) in reachable e' = reachable (emitter c) ∧ arriving e' = arriving (emitter c) ∧ next_label e' = next_label (emitter c) ∧ (tail = false → height e' = height (emitter c)) ∧
    ∀ (v : Val) st, framed (locals c) env st → height (emitter c) = S (length st) →
      match gives (eval (body_of last) env) with Gives w => (if tail then ∃ k, run new (At (v :: st)) = At (w :: k ++ st) else run new (At (v :: st)) = At (w :: st)) | _ => run new (At (v :: st)) = Confused end) as Hplain.
  { exists [IPop; IRun (body_of last) (locals c)]. cbn zeta. split_and!; try done.
    - intros _. change (S (pred (height (emitter c))) = height (emitter c)). by rewrite Hs.
    - intros v st Hst _. rewrite run_cons. cbn [exec exec_at]. rewrite run_cons. cbn [exec]. rewrite (run_expr _ _ _ _ Hst). destruct (eval (body_of last) env) as [w|]; cbn [gives]; [|done].
      destruct tail; [by exists []|done]. }
  destruct (kind (pattern_of last)) as [|name| | | | | | | | | | | | | |]; try exact Hplain.
  set (L := locals c ++ [mkLocal name (S (scope_depth c)) (pred (height (emitter c)))]). exists (named_code (body_of last) L (pred (height (emitter c))) tail).
  destruct (named_static (body_of last) L (pred (height (emitter c))) tail (emitter c)) as (Sr & Sa & Sh & Sn); [lia|]. cbn zeta. split_and!; try done.
  - by destruct tail.
  - by apply named_last_is.
  - intros ->. rewrite Sh. lia.
  - intros v st Hst Hh. pose proof (run_named name (body_of last) tail c v st Hst Hh) as Hrun. cbn zeta in Hrun. fold L in Hrun. rewrite Hrun. destruct (eval (body_of last) (over [(name, v)] env)) as [w|]; cbn [gives]; [|done]. destruct tail; [by exists [v]|done].
Qed.
Lemma grows_plains lo e new : forallb plain new = true → grows lo e (emits new e) new.
Proof. intros H. apply grows_all. intros i Hi. left. exact (forallb_elem _ _ _ H Hi). Qed.

Definition as_match (m : Compile bool) : Compile unit := _ ← m; mret tt.
Lemma literals_code tests last tail c : pattern_floor c = None → shallow c → well_labelled (emitter c) → reachable (emitter c) = true → 0 < height (emitter c) →
  (∀ arm, arm ∈ tests → is_literal (kind (pattern_of arm)) = true ∧ guard_of arm = None ∧ irrefutable (pattern_of arm) = false ∧ resolved (pinned (locals c)) (pattern_of arm) = true) →
  guard_of last = None → covers last → (∃ c', compile_literals tests last tail c = Done true c') ∧ asked_code tail (λ v, arms_result env v (tests ++ [last])) (as_match (compile_literals tests last tail)) c.
Proof.
  intros Hf Hsh Hw Hr Hpos Htests Hlast Hcov.
  set (res := λ (arm : MatchArm) (asked : list Val) (o : Result), match asked with v :: _ => arm_result env v arm o | [] => o end).
  assert (tries true 1 (locals c) (λ asked o, foldr (λ arm o, res arm asked o) o tests) (each (λ _ arm, literal_arm arm) 0 tests)) as Ht.
  { apply tries_each. intros arm Harm. destruct (Htests arm Harm) as (H1 & H2 & H3 & H4). by apply literal_tries. }
  destruct (Ht c Hf eq_refl Hw) as (ends & e1 & new & E1 & G1 & R1 & F1 & L1 & X1).
  specialize (F1 eq_refl Hr). set (h := pred (height (emitter c))). assert (height (emitter c) = 1 + h) as Hh0 by (unfold h; lia). destruct (L1 h Hr Hh0) as [Hlev1 Ha1]. specialize (Hlev1 F1).
  pose proof (gr_labelled _ _ _ _ G1 Hw) as W1. destruct (last_code last tail (with_emitter c e1)) as (nl & Pl & El & Sr & Sa & Sn & Sh & Xl); [exact Hsh|cbn; lia|]. cbn [emitter with_emitter locals] in *.
  set (e2 := emits nl e1) in *. set (e3 := emits (IBind <$> ends) e2).
  assert (compile_literals tests last tail c = Done true (with_emitter c e3)) as E.
  { change (compile_literals tests last tail) with (end_jumps ← literal_arms tests; compile_last last tail;; bind_all end_jumps;; mret true).
    unfold mbind, compile_bind. rewrite (literal_each tests 0), E1.
    rewrite El, bind_all_is. done. }
  split; [by exists (with_emitter c e3)|]. exists e3, (new ++ nl ++ (IBind <$> ends)). split_and!.
  - unfold as_match, mbind, compile_bind. by rewrite E.
  - apply (grows_trans _ _ e1); [done|]. apply (grows_trans _ _ e2); [by apply grows_plains|]. apply grows_binds. intros l Hl. by apply R1.
  - intros v st Hst Hh. rewrite run_app. assert (h = length st) as Hlen by lia. specialize (X1 [v] st eq_refl Hst Hr Hh). change ([v] ++ st) with (v :: st) in X1.
    assert (reachable e3 = true) as Hr3 by (apply binds_reach; left; congruence).
    assert (tail = false → height e3 = S (length st)) as Hh3.
    { intros Hnt. apply (ends_meet ends e2); [intros _; rewrite Sh by done; lia| |left; congruence]. intros l Hl. unfold arrives_at. rewrite Sa, <-Hlen. by apply Ha1. }
    unfold arms_result. rewrite foldr_app. cbn [foldr]. destruct X1 as [l w Hl Harr Hres ->|Hres -> _|Hres ->]; cbn beta iota in Hres; rewrite Hres; cbn [computes].
    + assert (run (nl ++ (IBind <$> ends)) (To l (w :: st)) = At (w :: st)) as ->.
      { rewrite run_app, run_past; [by apply run_binds_to|]. intros Hin. by pose proof (forallb_elem _ _ _ Pl Hin). }
      split; [|done]. destruct tail; [by exists []|]. split; [done|by apply Hh3].
    + rewrite last_result by done. fold (last_value last v). specialize (Xl v st Hst). rewrite run_app. specialize (Xl ltac:(lia)). destruct (last_value last v) as [w|m|] eqn:Ev; cbn [computes].
      * split; [|done]. destruct tail; [destruct Xl as [k Xl]; exists k; by rewrite Xl, run_binds_at|]. split; [by rewrite Xl, run_binds_at|by apply Hh3].
      * unfold last_value in Ev. destruct (kind (pattern_of last)); by destruct (eval _ _).
      * by rewrite Xl, run_confused.
    + apply run_confused.
Qed.

Lemma bool_test res b v first : pattern_test (pin_of env) (mkPattern res false (PBool first)) v = Some true → v = VBool b → b = first.
Proof. intros E ->. cbn in E. injection E as E. by apply Bool.eqb_prop. Qed.
Lemma last_bool last first v o : guard_of last = None → covers last ∨ kind (pattern_of last) = PBool (negb first) → v = VBool (negb first) →
  arm_result env v last o = last_value last v.
Proof.
  intros Hg [Hc|Hk] Hv; [by apply last_result|]. unfold arm_result, ways_of, last_value. rewrite Hg, Hk. cbn [chosen_way]. destruct (pattern_of last) as [res irr k]. cbn [kind] in Hk. subst k v.
  destruct irr; cbn [pattern_test pattern_binds mbind option_bind guard_holds is_constant]; rewrite ?Bool.eqb_reflx; cbn [pattern_binds mbind option_bind guard_holds]; by rewrite no_names.
Qed.
Definition compile_last_bool (first : bool) (last : MatchArm) (tail : bool) : Compile unit :=
  match kind (pattern_of last) with PIdent name => emit (IConstant (VBool (negb first)));; named_last name (body_of last) tail | _ => compile_expr (body_of last) end.
Lemma last_bool_code first last tail c : shallow c → ∃ new, forallb plain new = true ∧ compile_last_bool first last tail c = Done tt (with_emitter c (emits new (emitter c))) ∧
  let e' := emits new (emitter c) in reachable e' = reachable (emitter c) ∧ arriving e' = arriving (emitter c) ∧ next_label e' = next_label (emitter c) ∧
  (tail = false → height e' = S (height (emitter c))) ∧
  ∀ st, framed (locals c) env st → height (emitter c) = length st →
    match last_value last (VBool (negb first)) with Gives w => (if tail then ∃ k, run new (At st) = At (w :: k ++ st) else run new (At st) = At (w :: st)) | _ => run new (At st) = Confused end.
Proof.
  intros Hsh. unfold compile_last_bool.
  assert (∃ new, forallb plain new = true ∧ compile_expr (body_of last) c = Done tt (with_emitter c (emits new (emitter c))) ∧
    let e' := emits new (emitter c) in reachable e' = reachable (emitter c) ∧ arriving e' = arriving (emitter c) ∧ next_label e' = next_label (emitter c) ∧ (tail = false → height e' = S (height (emitter c))) ∧
    ∀ st, framed (locals c) env st → height (emitter c) = length st →
      match gives (eval (body_of last) env) with Gives w => (if tail then ∃ k, run new (At st) = At (w :: k ++ st) else run new (At st) = At (w :: st)) | _ => run new (At st) = Confused end) as Hplain.
  { exists [IRun (body_of last) (locals c)]. cbn zeta. split_and!; try done. intros st Hst _. rewrite run_cons. cbn [exec]. rewrite (run_expr _ _ _ _ Hst). destruct (eval (body_of last) env) as [w|]; cbn [gives]; [|done].
    destruct tail; [by exists []|done]. }
  unfold last_value. destruct (kind (pattern_of last)) as [|name| | | | | | | | | | | | | |] eqn:Ek; try exact Hplain.
  set (e1 := emit_code (IConstant (VBool (negb first))) (emitter c)). destruct (last_code last tail (with_emitter c e1)) as (new & Pn & En & Sr & Sa & Sn & Sh & X); [exact Hsh|cbn; lia|].
  cbn [emitter with_emitter locals] in *. exists (IConstant (VBool (negb first)) :: new). cbn zeta. rewrite emits_cons. fold e1. split_and!; try done.
  - unfold compile_last in En. rewrite Ek in En. unfold mbind, compile_bind. change (emit (IConstant (VBool (negb first))) c) with (Done tt (with_emitter c e1)). cbn beta iota. by rewrite En.
  - intros st Hst Hh. specialize (X (VBool (negb first)) st Hst). unfold last_value in X. rewrite Ek in X. rewrite run_cons. cbn [exec exec_at]. apply X. unfold e1. cbn. by rewrite Hh.
Qed.
Lemma bools_code res first body last tail c : pattern_floor c = None → shallow c → well_labelled (emitter c) → reachable (emitter c) = true → 0 < height (emitter c) →
  guard_of last = None → covers last ∨ kind (pattern_of last) = PBool (negb first) →
  ∃ e' new, compile_bools first body last tail c = Done true (with_emitter c e') ∧ grows (next_label (emitter c)) (emitter c) e' new ∧
  ∀ b st, framed (locals c) env st → height (emitter c) = S (length st) →
    computes tail st e' (run new (At (VBool b :: st))) (arms_result env (VBool b) [mkArm (mkPattern res false (PBool first)) None body; last]).
Proof.
  intros Hf Hsh Hw Hr Hpos Hlast Hcov. set (lo := next_label (emitter c)). set (J := if first then IJumpIfFalse else IJumpIfTrue).
  destruct (grows_jump lo (emitter c) J) as (G1 & N1 & A1); [unfold J, jumps; destruct first; tauto|done|done|]. fold lo in G1, N1, A1. set (e1 := emit_code (J lo) (fresh (emitter c))) in *.
  pose proof (gr_labelled _ _ _ _ G1 Hw) as W1. assert (reachable e1 = true ∧ height e1 = pred (height (emitter c)) ∧ height_after (J lo) (height (emitter c)) = pred (height (emitter c))) as (Hr1 & Hh1 & HJ).
  { unfold e1, J. by destruct first. }
  rewrite Hr, HJ in A1. destruct (try_end body [lo] lo e1 (locals c)) as (G2 & N2 & O2 & A2 & L2 & Live2 & X2 & Y2); [lia|done|intros l ->%list_elem_of_singleton; lia|].
  set (end_ := next_label e1) in *. set (e2 := emits (IBind <$> [lo]) _) in *. assert (reachable e2 = true) as Hr2 by (apply (Live2 lo); [left|]; unfold arrives; by rewrite A1, lookup_insert_eq).
  assert (height e2 = pred (height (emitter c))) as Hh2.
  { apply L2; [|done]. intros l ->%list_elem_of_singleton. unfold arrives_at. rewrite A1, lookup_insert_eq. by intros a [= <-]. }
  destruct (last_bool_code first last tail (with_emitter c e2)) as (nl & Pl & El & Sr & Sa & Sn & Sh & Xl); [exact Hsh|]. cbn [emitter with_emitter locals] in *. set (e3 := emits nl e2) in *.
  set (e4 := emit_code (IBind end_) e3). assert (e4 = emits (IBind <$> [end_]) e3) as E4 by done.
  exists e4, ([J lo] ++ ((IRun body (locals c) :: jump_code e1) ++ (IBind <$> [lo])) ++ nl ++ [IBind end_]). split_and!.
  - transitivity ((otherwise ← (if first then jump_if_false else jump_if_true); compile_expr body;; end_jump ← jump; bind otherwise;; compile_last_bool first last tail;; bind end_jump;; mret true) c); [done|].
    unfold mbind, compile_bind. assert ((if first then jump_if_false else jump_if_true) c = Done lo (with_emitter c e1)) as -> by (unfold e1, J; by destruct first).
    change (compile_expr body (with_emitter c e1)) with (Done tt (with_emitter c (emit_code (IRun body (locals c)) e1))). cbn beta iota. rewrite jump_is.
    change (bind lo _) with (Done tt (with_emitter c e2)). cbn beta iota. rewrite El. done.
  - apply (grows_trans _ _ e1 _ [_]); [done|]. apply (grows_trans _ _ e2); [done|]. apply (grows_trans _ _ e3); [by apply grows_plains|]. apply grows_bind. unfold end_. lia.
  - intros b st Hst Hh. assert (height e2 = length st) as Hlen by (rewrite Hh2, Hh; done). unfold arms_result. cbn [foldr].
    assert (arriving e3 !! end_ = Some (S (height e2))) as Hend by (rewrite Sa, (A2 Hr1), Hh1, Hh2; done). assert (reachable e3 = true) as Hr3 by congruence.
    assert (reachable e4 = true) as Hr4 by (rewrite E4; apply binds_reach; by left).
    assert (tail = false → height e4 = S (length st)) as Hh4.
    { intros Hnt. rewrite E4. apply (ends_meet [end_] e3); [intros _; rewrite Sh by done; by rewrite Hlen| |by left]. intros l ->%list_elem_of_singleton. unfold arrives_at. rewrite Hend, Hlen. by intros a [= <-]. }
    destruct (decide (b = first)) as [->|Hne].
    + assert (∀ o, arm_result env (VBool first) (mkArm (mkPattern res false (PBool first)) None body) o = gives (eval body env)) as ->.
      { intros o. unfold arm_result, ways_of. cbn. rewrite Bool.eqb_reflx. cbn. by rewrite no_names. }
      assert (run [J lo] (At (VBool first :: st)) = At st) as Hj by (unfold J; by destruct first). rewrite run_app, Hj, run_app, (X2 st env Hr1 Hst). destruct (eval body env) as [w|]; cbn [gives computes]; [|apply run_confused].
      assert (run (nl ++ [IBind end_]) (To end_ (w :: st)) = At (w :: st)) as ->.
      { rewrite run_app, run_past; [by apply (run_binds_to [end_]), list_elem_of_singleton|]. intros Hin. by pose proof (forallb_elem _ _ _ Pl Hin). }
      split; [|done]. destruct tail; [by exists []|]. split; [done|by apply Hh4].
    + assert (b = negb first) as -> by (by destruct b, first).
      assert (∀ o, arm_result env (VBool (negb first)) (mkArm (mkPattern res false (PBool first)) None body) o = o) as ->.
      { intros o. unfold arm_result, ways_of. cbn. by destruct first. }
      rewrite (last_bool last first) by done. assert (run [J lo] (At (VBool (negb first) :: st)) = To lo st) as Hj by (unfold J; by destruct first).
      rewrite run_app, Hj, run_app, (Y2 lo st) by left. rewrite run_app. specialize (Xl st Hst Hlen). destruct (last_value last _) as [w|m|] eqn:Ev; cbn [computes].
      * split; [|done]. destruct tail; [destruct Xl as [k Xl]; exists k; by rewrite Xl|]. split; [by rewrite Xl|by apply Hh4].
      * unfold last_value in Ev. destruct (kind (pattern_of last)); by destruct (eval _ _).
      * by rewrite Xl.
Qed.

(** ** The theorems *)

(** The mark of a literal is not set, and what bools are asked of is one. *)
Definition literal_marks (arms : list MatchArm) : Prop := ∀ arm, arm ∈ arms →
  match kind (pattern_of arm) with PBool _ | PInt _ | PFloat _ | PStringLit _ => irrefutable (pattern_of arm) = false | _ => True end.
Definition bools_are_asked (arms : list MatchArm) (v : Val) : Prop := (∃ arm b, arm ∈ arms ∧ kind (pattern_of arm) = PBool b) → ∃ b, v = VBool b.

(** C5. The code of a match of any form leaves on the frame the value of the
    first arm that matches and whose guard holds, in the scope of its
    pattern's names, nothing else but in tail position, and the height the
    compiler has is the frame's; without such an arm the program is stopped
    with the message of the form, and on a value of another shape too. *)
Theorem match_is_its_arms scrutinee arms tail c :
  pattern_floor c = None → shallow c → well_labelled (emitter c) → reachable (emitter c) = true →
  (∀ arm, arm ∈ arms → arm_compiles (locals c) arm) → literal_marks arms →
  (∀ e v, scrutinee = Some e → eval e env = Some v → bools_are_asked arms v) →
  ∃ e' new, compile_match scrutinee arms tail c = Done tt (with_emitter c e') ∧ code e' = code (emitter c) ++ new ∧
    ∀ st, framed (locals c) env st → height (emitter c) = length st → computes tail st e' (run new (At st)) (match_result env scrutinee arms).
Proof.
  intros Hf Hsh Hw Hr Harms Hmarks Hbools. destruct scrutinee as [e|].
  2: { destruct (guardless_code arms tail c Hf Hw) as (e' & new & E & G & X). exists e', new. split_and!; [done|apply (gr_code _ _ _ _ G)|]. intros st Hst Hh. by apply X. }
  set (e1 := emit_code (IRun e (locals c)) (emitter c)). set (c1 := with_emitter c e1).
  assert (∃ e' new, compile_match (Some e) arms tail c = Done tt (with_emitter c e') ∧ grows (next_label (emitter c)) e1 e' new ∧
    ∀ v st, eval e env = Some v → framed (locals c) env st → height (emitter c) = length st → computes tail st e' (run new (At (v :: st))) (arms_result env v arms)) as (e' & new & E & G & X).
  2: { exists e', (IRun e (locals c) :: new). split_and!; [done|rewrite (gr_code _ _ _ _ G); cbn; by rewrite <-app_assoc|]. intros st Hst Hh. rewrite run_cons. cbn [exec match_result].
    rewrite (run_expr e _ _ _ Hst). destruct (eval e env) as [v|] eqn:Ev; [by apply X|apply run_confused]. }
  assert (compile_match (Some e) arms tail c = (done ← compile_literal_match arms tail; if done : bool then mret tt else general_match arms tail) c1) as -> by done.
  destruct (literal_forms arms tail) as [Hn|res irr first body last Ha Hl Hc Hm|tests last Ha Ht Hl Hc Hm].
  - destruct (general_code arms tail c1 Hf Hsh Hw) as (e' & new & E & G & X); [cbn; lia|done|]. exists e', new. split_and!; [unfold mbind, compile_bind; by rewrite Hn, E|exact G|].
    intros v st _ Hst Hh. apply X; [done|done|]. change (S (height (emitter c)) = S (length st)). by rewrite Hh.
  - assert (irr = false) as -> by (specialize (Hmarks (mkArm (mkPattern res irr (PBool first)) None body)); rewrite Ha in Hmarks; by apply Hmarks; left).
    destruct (bools_code res first body last tail c1 Hf Hsh Hw Hr) as (e' & new & E & G & X); [cbn; lia|done|done|]. exists e', new. split_and!; [unfold mbind, compile_bind; by rewrite Hm, E|exact G|].
    intros v st Ev Hst Hh. destruct (Hbools e v eq_refl Ev) as [b ->].
    { eexists _, first. rewrite Ha. split; [left|done]. }
    rewrite Ha. apply X; [done|]. change (S (height (emitter c)) = S (length st)). by rewrite Hh.
  - destruct (literals_code tests last tail c1 Hf Hsh Hw Hr) as ((c' & Ec) & e' & new & E & G & X); [cbn; lia| |done|done|].
    { intros arm Harm. destruct (Ht arm Harm) as [Hlit Hg]. assert (arm ∈ arms) as Hin by (rewrite Ha; set_solver). split_and!; [done|done| |by apply Harms].
      specialize (Hmarks arm Hin). by destruct (kind (pattern_of arm)). }
    exists e', new. split_and!; [|exact G|].
    + unfold as_match, mbind, compile_bind in E |- *. rewrite Hm. rewrite Ec in E |- *. exact E.
    + intros v st _ Hst Hh. rewrite Ha. apply X; [done|]. change (S (height (emitter c)) = S (length st)). by rewrite Hh.
Qed.

(** C14. The code that binds a pattern's names makes each a local with its
    value above the frame, the local that the name then means; other names
    mean what they did, and the height the compiler has is the frame's. *)
Theorem pattern_names_are_bound p c :
  pattern_floor c = None → well_labelled (emitter c) → reachable (emitter c) = true → resolved (pinned (locals c)) p = true →
  ∃ e' more new, compile_pattern_bind p c = Done tt (mkCtx e' (locals c ++ more) (scope_depth c) (scope_starts c) None) ∧ code e' = code (emitter c) ++ new ∧
    (∀ name, name ∈ collect_pattern_vars p → is_Some (find_local more name)) ∧
    ∀ v st, framed (locals c) env (v :: st) → height (emitter c) = S (length st) →
      match pattern_binds (pin_of env) p v with
      | None => run new (At (v :: st)) = Confused
      | Some b => ∃ k, run new (At (v :: st)) = At (k ++ v :: st) ∧ height e' = length (k ++ v :: st) ∧
          ∀ name, ¬ is_hidden name → env_of (locals c ++ more) (k ++ v :: st) name = over b env name
      end.
Proof.
  intros Hf Hw Hr Hp. set (n := length (locals c)). set (c0 := with_floor c (Some n)).
  assert (binding n (locals c) c0) as Hc0 by (split; [done|done|apply firstn_all|done]).
  destruct (compile_bind_binds n (locals c) (pin_of env) p Hp c0 Hc0) as (c' & E & [N W L D K (more & new & R & V & P & C & B & X)]).
  cbn [c0 with_floor emitter locals scope_depth scope_starts pattern_floor] in *. exists (emitter c'), more, new. split_and!; [|done|done|].
  - unfold compile_pattern_bind, with_pattern_floor. rewrite Hf. unfold mbind, compile_bind. fold n c0. by rewrite E, R.
  - intros v st Hst Hh. specialize (X (v :: st)). cbn [head mbind option_bind] in X. assert (0 < length (v :: st)) as Hpos by (cbn; lia).
    specialize (X (conj (framed_agrees _ _ _ Hst) Hpos) Hr Hh). destruct (pattern_binds (pin_of env) p v) as [b|]; [|done]. destruct X as (k & X1 & X2 & X3 & X4). exists k.
    split_and!; [done|by rewrite X2, length_app|]. intros name Hn. exact (fr_env _ _ _ (framed_over _ _ _ _ _ _ Hst X3 X4) name Hn).
Qed.
End matches.

(** C40. An or-pattern under a guard is refused exactly where it has more ways
    than the limit; else the ways are as many as were counted, and each
    binds the names of the pattern. *)
Theorem guarded_ways_are_counted `{!Program} arm c :
  match guarded_or_ways arm c with
  | Refused why => is_Some (guard_of arm) ∧ why = TooManyWays (or_way_count (pattern_of arm)) ∧ (MAX_GUARDED_OR_WAYS < or_way_count (pattern_of arm))%N
  | Done None c' => c' = c ∧ (is_Some (guard_of arm) → or_way_count (pattern_of arm) = 1%N)
  | Done (Some ways) c' => c' = c ∧ is_Some (guard_of arm) ∧ N.of_nat (length ways) = or_way_count (pattern_of arm) ∧ (1 < N.of_nat (length ways) ≤ MAX_GUARDED_OR_WAYS)%N ∧
      ∀ pins way, resolved pins (pattern_of arm) = true → way ∈ ways → resolved pins way = true ∧ ∀ name, name ∈ collect_pattern_vars way ↔ name ∈ collect_pattern_vars (pattern_of arm)
  end.
Proof.
  destruct arm as [p [guard|] body]; cbn [guard_of pattern_of]; [|by split]. unfold guarded_or_ways. pose proof (or_way_count_pos p).
  destruct (N.leb_spec (or_way_count p) 1) as [|H1]; [split; [done|]; lia|]. destruct (N.ltb_spec MAX_GUARDED_OR_WAYS (or_way_count p)) as [|H2]; [by split_and!|].
  assert (N.of_nat (length (or_ways p)) = or_way_count p) as E by (apply count_ways; unfold MAX_GUARDED_OR_WAYS, USIZE_MAX in *; lia).
  split_and!; [done|done|done|lia|lia|]. intros pins way Hp Hway. by apply ways_like.
Qed.

(** ** A program *)
Module Sample.
Definition pv n := mkPattern None true (PIdent n).
Definition pw := mkPattern None true PWildcard.
Definition pi n := mkPattern None false (PInt n).
Definition pt l := mkPattern None false (PTuple l).
Definition por l := mkPattern None false (POr l).
Definition ident n := mkExpr None (EIdent n).
#[local] Instance program : Program := mkProgram (λ _, None) (λ _ _, None) (λ _, None) (λ _, None).
#[local] Instance hidden : HiddenNames := mkHidden 100%N 101%N 102%N 103%N 104%N.
Definition equal_ints (a b : Val) : option bool := match a, b with VInt m, VInt n => Some (m =? n)%Z | _, _ => None end.

(** Expressions that write any name, and ones that write a program's. *)
Definition eval_with (read : (Symbol → option Val) → Symbol → option Val) (e : Expr) (env : Symbol → option Val) : option Val :=
  match e with
  | mkExpr _ (EIdent n) => read env n
  | mkExpr _ (EInt n) => Some (VInt n)
  | mkExpr _ (EBinary (mkExpr _ (EIdent n)) Gt_ (mkExpr _ (EInt k))) => match read env n with Some (VInt x) => Some (VBool (k <? x)%Z) | _ => None end
  | _ => None
  end.
Definition read_written (env : Symbol → option Val) (n : Symbol) : option Val := if bool_decide (is_hidden n) then None else env n.
Definition any_name : World := mkWorld (λ _, EmptyString) (λ _, VUnit) (λ _, VUnit) equal_ints (eval_with (λ env n, env n)).
#[local] Instance world : World := mkWorld (λ _, EmptyString) (λ _, VUnit) (λ _, VUnit) equal_ints (eval_with read_written).
#[local] Instance respects : Respects.
Proof.
  intros e env env' H. cbn [eval world]. assert (∀ n, read_written env n = read_written env' n) as Hr.
  { intros n. unfold read_written. case_bool_decide; [done|by apply H]. }
  unfold eval_with. destruct e as [res k]. destruct k; try done.
  match goal with |- match ?a with mkExpr _ _ => _ end = _ => destruct a as [? ka] end. destruct ka; try done.
  repeat match goal with |- match ?x with _ => _ end = match ?x with _ => _ end => destruct x; try done end. by rewrite Hr.
Qed.

(** The scrutinee is the name 7, in slot 0. *)
Definition start : Ctx := mkCtx (mkCode [] 1 true ∅ 0) [mkLocal 7%N 0 0] 0 [] None.
Definition env_in (v : Val) (n : Symbol) : option Val := if (n =? 7)%N then Some v else None.
Lemma start_framed v : framed (locals start) (env_in v) [v].
Proof.
  split; [intros l ->%list_elem_of_singleton; cbn; lia|]. intros n _. unfold env_of, env_in. cbn [locals start]. rewrite find_local_one.
  rewrite (N.eqb_sym 7 n). by destruct (n =? 7)%N.
Qed.
Lemma start_labelled : well_labelled (emitter start).
Proof. by intros l [a Ha]. Qed.
Lemma start_shallow : shallow start.
Proof. by intros l ->%list_elem_of_singleton. Qed.

Definition arms : list MatchArm :=
  [mkArm (pt [pi 1; pv 1]) None (ident 1); mkArm (por [pt [pv 2; pi 5]; pt [pi 6; pv 2]]) None (ident 2);
   mkArm (por [pt [pv 2; pw]; pt [pw; pv 2]]) (Some (mkExpr None (EBinary (ident 2) Gt_ (mkExpr None (EInt 10))))) (ident 2); mkArm pw None (mkExpr None (EInt 0))].
Lemma arms_compile arm : arm ∈ arms → arm_compiles (locals start) arm.
Proof. intros H. repeat (apply elem_of_cons in H as [->|H]; [split; [by vm_compute|by vm_compute]|]). by apply elem_of_nil in H. Qed.
Lemma arms_marks : literal_marks arms.
Proof. intros arm H. by repeat (apply elem_of_cons in H as [->|H]; [done|]); apply elem_of_nil in H. Qed.
Definition pair_of (m n : Z) : Val := VTuple [VInt m; VInt n].

(** Where the second way of the guarded or-pattern is the one. *)
Lemma match_is_its_arms_witness : arm_compiles (locals start) (mkArm pw None (mkExpr None (EInt 0))) ∧
  ∃ e' new, compile_match (Some (ident 7)) arms false start = Done tt (with_emitter start e') ∧ run new (At [pair_of 4 18]) = At [VInt 18; pair_of 4 18] ∧ height e' = 2.
Proof.
  split; [apply arms_compile; set_solver|].
  destruct (match_is_its_arms (env_in (pair_of 4 18)) (Some (ident 7)) arms false start eq_refl start_shallow start_labelled eq_refl arms_compile arms_marks) as (e' & new & E & _ & X).
  { intros e v _ _ (arm & b & H & Hk). by repeat (apply elem_of_cons in H as [->|H]; [done|]); apply elem_of_nil in H. }
  exists e', new. destruct (X [pair_of 4 18] (start_framed _) eq_refl) as ([H Hh] & _). by split_and!.
Defined.
Lemma pattern_names_are_bound_witness : resolved (pinned (locals start)) (por [pt [pv 2; pi 5]; pt [pi 6; pv 2]]) = true ∧
  ∃ e' more k new, compile_pattern_bind (por [pt [pv 2; pi 5]; pt [pi 6; pv 2]]) start = Done tt (mkCtx e' (locals start ++ more) 0 [] None) ∧
    run new (At [pair_of 6 8]) = At (k ++ [pair_of 6 8]) ∧ env_of (locals start ++ more) (k ++ [pair_of 6 8]) 2%N = Some (VInt 8).
Proof.
  split; [by vm_compute|].
  destruct (pattern_names_are_bound (env_in (pair_of 6 8)) (por [pt [pv 2; pi 5]; pt [pi 6; pv 2]]) start eq_refl start_labelled eq_refl) as (e' & more & new & E & _ & _ & X); [by vm_compute|].
  destruct (X (pair_of 6 8) [] (start_framed _) eq_refl) as (k & H1 & _ & H2). exists e', more, k, new. split_and!; [done|done|]. rewrite H2; [by vm_compute|]. by apply (bool_decide_eq_false_1 (is_hidden 2%N)); vm_compute.
Defined.
Lemma guarded_ways_are_counted_witness : ∃ ways, guarded_or_ways (mkArm (por [pt [pv 2; pw]; pt [pw; pv 2]]) (Some (ident 2)) (ident 2)) start = Done (Some ways) start ∧ length ways = 2.
Proof.
  pose proof (guarded_ways_are_counted (mkArm (por [pt [pv 2; pw]; pt [pw; pv 2]]) (Some (ident 2)) (ident 2)) start) as H.
  eexists. split; [by vm_compute|]. destruct H as (_ & _ & H & _). by apply Nat2N.inj.
Defined.

(** The compiler's name for the scrutinee is one a program can write: inside
    an arm it means the scrutinee and not what the program means by it. *)
Example hidden_name_is_the_scrutinee : let c := mkCtx (mkCode [] 1 true ∅ 0) [mkLocal SCRUTINEE 0 0] 0 [] None in
  let named (n : Symbol) := if (n =? SCRUTINEE)%N then Some (VInt 1) else None in let arms := [mkArm (pv 2) None (ident SCRUTINEE)] in
  match_result (world := any_name) named (Some (mkExpr None (EInt 4))) arms = Gives (VInt 1) ∧
  match compile_match (Some (mkExpr None (EInt 4))) arms false c with Done _ c => @run any_name (code (emitter c)) (At [VInt 1]) = At [VInt 4; VInt 1] | Refused _ => False end.
Proof. by vm_compute. Qed.
End Sample.
