(* ===== verification/Order.v ===== *)
(** * The order definitions are checked in (src/typechecker/order.rs)

    What a body mentions, the graph of a module's definitions, and its
    strongly connected components by Tarjan's algorithm without recursion.

    The top of a stack comes first.  A node that has no index yet
    ([UNSEEN]) has [None].  An index out of range, at which the source
    panics, is [None]; so is a search that has not ended when the fuel is
    used up. *)

From S2P Require Import Prelude Tree.

Open Scope nat_scope.

(** *** Mentions *)
Record Mention := mkMention { m_res : option Res; m_expr : option Expr }.

(** [references_in_pattern]. *)
Fixpoint references_in_pattern (p : Pattern) : list Mention :=
  let field (f : Symbol * option Pattern) := match f.2 with Some p => references_in_pattern p | None => [] end in
  match p with
  | mkPattern res _ kind =>
      mkMention res None ::
      match kind with
      | PTuple pats | POr pats => concat (references_in_pattern <$> pats)
      | PList pats rest => concat (references_in_pattern <$> pats) ++ match rest with Some p => references_in_pattern p | None => [] end
      | PConstructor _ _ args => concat (references_in_pattern <$> args)
      | PRecord _ _ fields _ | PAnonRecord fields _ => concat (field <$> fields)
      | PMap entries => concat ((λ e, references_in_pattern e.2) <$> entries)
      | PWildcard | PIdent _ | PInt _ | PFloat _ | PBool _ | PStringLit _ | PRange _ _ | PFloatRange _ _ | PPin _ => []
      end
  end.

(** [references_in_expr]. *)
Fixpoint references_in_expr (e : Expr) : list Mention :=
  let some (o : option Expr) := match o with Some e => references_in_expr e | None => [] end in
  let all (es : list Expr) := concat (references_in_expr <$> es) in
  let named (fields : list (Symbol * Expr)) := concat ((λ f, references_in_expr f.2) <$> fields) in
  match e with
  | mkExpr res kind =>
      mkMention res (Some e) ::
      match kind with
      | EInt _ | EFloat _ | EBool _ | EStringLit _ | EIdent _ | EUnit => []
      | EStringInterp parts => concat ((λ p, match p with PartExpr e => references_in_expr e | PartLit _ => [] end) <$> parts)
      | EList elems => concat ((λ x, match x with Single e | Spread e => references_in_expr e end) <$> elems)
      | EMap entries => concat ((λ kv, references_in_expr kv.1 ++ references_in_expr kv.2) <$> entries)
      | ESetLit elems | ETuple elems | ERecur elems => all elems
      | EFieldAccess e _ | EUnary _ e | EQuestionMark e | EAscription e => references_in_expr e
      | EReturn o => some o
      | EBinary l _ r | EPipe l r | ERange l r => references_in_expr l ++ references_in_expr r
      | ECall callee args => references_in_expr callee ++ all args
      | ELambda params body => concat (references_in_pattern <$> params) ++ references_in_expr body
      | ERecordCreate _ _ fields => named fields
      | ERecordUpdate base fields => references_in_expr base ++ named fields
      | EAnonRecord spread fields => some spread ++ named fields
      | EMatch scrutinee arms =>
          some scrutinee ++
          concat ((λ arm, match arm with mkArm p guard body => references_in_pattern p ++ some guard ++ references_in_expr body end) <$> arms)
      | EBlock stmts =>
          concat ((λ s,
            match s with
            | SLet p value => references_in_pattern p ++ references_in_expr value
            | SWhen p e else_body => references_in_pattern p ++ references_in_expr e ++ references_in_expr else_body
            | SWhenBool condition else_body => references_in_expr condition ++ references_in_expr else_body
            | SExpr e => references_in_expr e
            end) <$> stmts)
      | ELoop bindings body => named bindings ++ references_in_expr body
      end
  end.

(** *** Strongly connected components *)
Record Component := mkComponent { members : list nat; cyclic : bool }.

Record Search := mkSearch {
  index : list (option nat);
  low : list nat;
  on_stack : list bool;
  stack : list nat;
  next_index : nat;
  components : list Component;
  work : list (nat * nat);
}.
Definition with_work (s : Search) (w : list (nat * nat)) : Search :=
  mkSearch (index s) (low s) (on_stack s) (stack s) (next_index s) (components s) w.
Definition with_low (s : Search) (l : list nat) : Search :=
  mkSearch (index s) l (on_stack s) (stack s) (next_index s) (components s) (work s).

Section tarjan.
Context (edges : list (list nat)).

(** A node that is met first. *)
Definition enter (v : nat) (s : Search) : option Search :=
  if decide (v < length (index s))
  then Some (mkSearch (<[v := Some (next_index s)]> (index s)) (<[v := next_index s]> (low s)) (<[v := true]> (on_stack s))
    (v :: stack s) (S (next_index s)) (components s) (work s))
  else None.

Fixpoint pop_until (v : nat) (st : list nat) : option (list nat * list nat) :=
  match st with
  | [] => None
  | w :: st => if decide (w = v) then Some ([w], st) else '(ws, st) ← pop_until v st; Some (w :: ws, st)
  end.

(** The component of the root [v] is taken off the stack. *)
Definition emit (v : nat) (s : Search) : option Search :=
  '(ws, st) ← pop_until v (stack s);
  es ← edges !! v;
  let cyclic := bool_decide (1 < length ws) || bool_decide (v ∈ (es : list nat)) in
  Some (mkSearch (index s) (low s) (foldl (λ l w, <[w := false]> l) (on_stack s) ws) st (next_index s)
    (components s ++ [mkComponent (merge_sort le ws) cyclic]) (work s)).

(** One turn of the loop on the work stack. *)
Definition turn (v followed : nat) (rest : list (nat * nat)) (s : Search) : option Search :=
  s ← (if decide (followed = 0) then enter v s else Some s);
  es ← edges !! v;
  match es !! followed with
  | Some w =>
      let s := with_work s ((v, S followed) :: rest) in
      iw ← index s !! w;
      match iw with
      | None => Some (with_work s ((w, 0) :: (v, S followed) :: rest))
      | Some iw =>
          on ← on_stack s !! w;
          if on : bool then lv ← low s !! v; Some (with_low s (<[v := lv `min` iw]> (low s))) else Some s
      end
  | None =>
      lv ← low s !! v;
      let s := with_work s rest in
      s ← match rest with
          | (parent, _) :: _ => lp ← low s !! parent; Some (with_low s (<[parent := lp `min` lv]> (low s)))
          | [] => Some s
          end;
      lv ← low s !! v;
      iv ← index s !! v;
      if decide (iv = Some lv) then emit v s else Some s
  end.

Fixpoint search_loop (fuel : nat) (s : Search) : option Search :=
  match work s with
  | [] => Some s
  | (v, followed) :: rest =>
      match fuel with
      | 0 => None
      | S fuel => s ← turn v followed rest s; search_loop fuel s
      end
  end.

(** Each turn follows an edge or leaves a node. *)
Definition enough_turns : nat := length edges + sum_list (length <$> edges).

Definition from_root (s : option Search) (root : nat) : option Search :=
  s ← s;
  i ← index s !! root;
  match i with
  | Some _ => Some s
  | None => search_loop enough_turns (with_work s [(root, 0)])
  end.

Definition new_search : Search :=
  let n := length edges in mkSearch (replicate n None) (replicate n 0) (replicate n false) [] 0 [] [].

Definition strongly_connected (nodes : list nat) : option (list Component) :=
  s ← foldl from_root (Some new_search) nodes; Some (components s).
End tarjan.

(** *** The graph of a module's definitions *)

(** [names]: the definitions of the module that are a function or a [let],
    with their names; [complete i]: whether the [i]th declaration has a
    complete signature. *)
Section definitions.
Context (decls : list Decl) (names : list (DefId * Symbol)) (complete : nat → bool).

Definition declared (d : Decl) : option (list Symbol) :=
  match d with
  | DFn name _ _ => Some [name]
  | DLet p _ => Some (collect_pattern_vars p)
  | DOther => None
  end.
Definition graph_nodes : list nat := filter (λ i, is_Some (decls !! i ≫= declared)) (seq 0 (length decls)).

(** Of declarations of one name the last has it. *)
Definition by_name : gmap Symbol nat :=
  foldl (λ m i, foldl (λ m name, <[name := i]> m) m (default [] (decls !! i ≫= declared))) ∅ (seq 0 (length decls)).
Definition by_def : gmap DefId nat :=
  foldl (λ m d, match by_name !! d.2 with Some i => <[d.1 := i]> m | None => m end) ∅ names.

Definition mentions (d : Decl) : list Mention :=
  match d with
  | DFn _ params body => concat (references_in_pattern <$> params) ++ references_in_expr body
  | DLet _ value => references_in_expr value
  | DOther => []
  end.
Definition note (targets : list nat) (m : Mention) : list nat :=
  match m_res m with
  | Some (Def id) =>
      match by_def !! id with
      | Some j => if negb (complete j) && negb (bool_decide (j ∈ targets)) then targets ++ [j] else targets
      | None => targets
      end
  | _ => targets
  end.
Definition definition_edges : list (list nat) := (λ d, foldl note [] (mentions d)) <$> decls.

(** [definition_order]. *)
Definition definition_order : option (list Component) := strongly_connected definition_edges graph_nodes.
End definitions.

(** A small module: 0 calls 1, 1 and 2 call each other, 3 calls itself and 0. *)
Example four_groups : (λ c, (members c, cyclic c)) <$> default [] (strongly_connected [[1]; [2]; [1]; [3; 0]] [0; 1; 2; 3]) =
  [([1; 2], true); ([0], false); ([3], true)].
Proof. reflexivity. Qed.
