(* ===== verification/OrderScc.v ===== *)
(** * The invariant of the search (src/typechecker/order.rs)

    The nodes on the stack lie in segments, one for each node the work stack
    is at: the node and what was met below it and is not in a component yet.
    A segment reaches its node and its node reaches it; each node on the work
    stack is reached from the one below. *)

From S2P Require Import Prelude Tree Order.

Open Scope nat_scope.

Section scc.
Context (edges : list (list nat)).
Notation n := (length edges).
Hypothesis in_range : ∀ v es w, edges !! v = Some es → w ∈ es → w < n.

Definition edge (u v : nat) : Prop := ∃ es, edges !! u = Some es ∧ v ∈ es.
Notation reach := (rtc edge).

Definition idx (s : Search) (x : nat) : nat := default 0 (mjoin (index s !! x)).
Definition lowest (s : Search) (x : nat) : nat := default 0 (low s !! x).
Definition seen (s : Search) (x : nat) : Prop := ∃ i, index s !! x = Some (Some i).
Definition done_of (cs : list Component) : list nat := concat (members <$> cs).
Notation done_nodes s := (done_of (components s)).

(** An edge the search has followed: of a node it is at the first so many,
    of the others all. *)
Definition followed (W : list (nat * nat)) (x y : nat) : Prop :=
  ∃ es k, edges !! x = Some es ∧ es !! k = Some y ∧ ∀ f, (x, f) ∈ W → k < f.

(** A component: its nodes reach each other, and their edges lead into it or
    into one before it. *)
Record good_component (before : list nat) (c : Component) : Prop := {
  g_sorted : Sorted le (members c);
  g_mutual : ∀ x y, x ∈ members c → y ∈ members c → reach x y;
  g_closed : ∀ x y, x ∈ members c → edge x y → y ∈ before ++ members c;
  g_cyclic : cyclic c = true ↔ ∃ x y, x ∈ members c ∧ y ∈ members c ∧ edge x y;
  g_some : members c ≠ [];
}.
Definition good_components (cs : list Component) : Prop :=
  ∀ i c, cs !! i = Some c → good_component (done_of (take i cs)) c.

(** Each node reached by an edge of the next. *)
Fixpoint chained (l : list nat) : Prop :=
  match l with
  | a :: l' => match l' with b :: _ => edge b a | [] => True end ∧ chained l'
  | [] => True
  end.

(** One node of the work stack and its segment. *)
Record frame_ok (s : Search) (W : list (nat * nat)) (v : nat) (seg : list nat) : Prop := {
  f_bottom : last seg = Some v;
  f_reach : ∀ x, x ∈ seg → reach x v ∧ reach v x;
  f_low_le : lowest s v <= idx s v;
  f_low : ∃ y, y ∈ stack s ∧ idx s y = lowest s v ∧ reach v y;
  f_least : ∀ x y, x ∈ seg → followed W x y → y ∈ stack s → lowest s v <= idx s y;
}.

(** [W]: the nodes the work stack is at that have been met; [fresh]: one
    above them that has not. *)
Record inv (from : nat → Prop) (s : Search) (W : list (nat * nat)) (segs : list (list nat)) (fresh : option nat) : Prop := {
  i_index : length (index s) = n;
  i_low : length (low s) = n;
  i_on : ∀ x, x < n → on_stack s !! x = Some (bool_decide (x ∈ (stack s : list nat)));
  i_on_len : length (on_stack s) = n;
  i_stack : stack s = concat segs;
  i_nodup : NoDup (stack s ++ done_nodes s);
  i_seen : ∀ x, seen s x ↔ x ∈ stack s ++ done_nodes s;
  i_order : StronglySorted (λ x y, idx s y < idx s x) (stack s);
  i_next : ∀ x, x ∈ stack s ++ done_nodes s → idx s x < next_index s;
  i_followed : ∀ x y, x ∈ stack s → followed W x y → seen s y ∨ fresh = Some y;
  i_chain : chained (option_list fresh ++ W.*1);
  i_fresh : ∀ x, fresh = Some x → x < n ∧ ¬ seen s x;
  i_frames : Forall2 (λ vf seg, frame_ok s W vf.1 seg) W segs;
  i_comps : good_components (components s);
  i_from : ∀ x, seen s x ∨ fresh = Some x → from x;
}.

(** ** Lists *)
Lemma chained_reach a l u : chained (a :: l) → u ∈ a :: l → reach u a.
Proof.
  revert a. induction l as [|b l IH]; intros a Hc Hu.
  - apply list_elem_of_singleton in Hu as ->. apply rtc_refl.
  - destruct Hc as [He Hc]. apply elem_of_cons in Hu as [->|Hu]; [apply rtc_refl|].
    eapply rtc_r; [by apply IH|done].
Qed.

Lemma chained_tail a l : chained (a :: l) → chained l.
Proof. by intros [_ ?]. Qed.

Lemma last_in {A} (l : list A) x : last l = Some x → x ∈ l.
Proof. apply last_Some_elem_of. Qed.

Lemma seen_lt s x : length (index s) = n → seen s x → x < n.
Proof. intros <- [i Hi]. by eapply lookup_lt_Some. Qed.

Lemma edge_lt u v : edge u v → u < n ∧ v < n.
Proof. intros (es & He & Hv). split; [by eapply lookup_lt_Some|by eapply in_range]. Qed.

(** The last of a sorted segment has the least index. *)
Lemma bottom_least s (seg rest : list nat) v x :
  StronglySorted (λ x y, idx s y < idx s x) (seg ++ rest) → last seg = Some v → x ∈ seg → idx s v <= idx s x.
Proof.
  intros Hs Hl Hx. apply last_Some in Hl as [l ->]. apply elem_of_app in Hx as [Hx|Hx%list_elem_of_singleton]; [|by subst].
  rewrite <-app_assoc in Hs. clear -Hs Hx. induction l as [|z l IH]; [by apply elem_of_nil in Hx|].
  cbn in Hs. apply StronglySorted_inv in Hs as [Hs Hall]. apply elem_of_cons in Hx as [->|Hx]; [|by apply IH].
  rewrite Forall_forall in Hall. assert (v ∈ l ++ [v] ++ rest) as Hv by set_solver. specialize (Hall v Hv). lia.
Qed.

Lemma sorted_app_lt s (a b : list nat) x y :
  StronglySorted (λ x y, idx s y < idx s x) (a ++ b) → x ∈ a → y ∈ b → idx s y < idx s x.
Proof.
  intros Hs Hx Hy. induction a as [|z a IH]; [by apply elem_of_nil in Hx|].
  cbn in Hs. apply StronglySorted_inv in Hs as [Hs Hall]. apply elem_of_cons in Hx as [->|Hx]; [|by apply IH].
  rewrite Forall_forall in Hall. apply Hall. set_solver.
Qed.

Lemma sorted_app_r s (a b : list nat) : StronglySorted (λ x y, idx s y < idx s x) (a ++ b) → StronglySorted (λ x y, idx s y < idx s x) b.
Proof. induction a as [|z a IH]; [done|]. cbn. intros [Hs _]%StronglySorted_inv. by apply IH. Qed.

(** The nodes of the work stack are on the stack. *)
Lemma frames_in s W0 W segs v f : Forall2 (λ (vf : nat * nat) seg, frame_ok s W0 vf.1 seg) W segs → (v, f) ∈ W → v ∈ concat segs.
Proof.
  induction 1 as [|vf seg W segs Hf _ IH]; intros Hv; [by apply elem_of_nil in Hv|]. cbn. apply elem_of_app.
  apply elem_of_cons in Hv as [<-|Hv]; [left|right; by apply IH]. apply last_in, (f_bottom _ _ _ _ Hf).
Qed.

Lemma work_on_stack from s W segs fresh v f : inv from s W segs fresh → (v, f) ∈ W → v ∈ stack s.
Proof. intros Hi Hv. rewrite (i_stack _ _ _ _ _ Hi). eapply frames_in; [apply (i_frames _ _ _ _ _ Hi)|done]. Qed.

Lemma stack_seen from s W segs fresh x : inv from s W segs fresh → x ∈ stack s → seen s x.
Proof. intros Hi Hx. apply (i_seen _ _ _ _ _ Hi). set_solver. Qed.

Lemma followed_other W v f x y : x ≠ v → followed ((v, f) :: W) x y ↔ followed W x y.
Proof.
  intros Hx. unfold followed. split; intros (es & k & H1 & H2 & H3); exists es, k; (split_and!; [done|done|]); intros g Hg; apply H3; set_solver.
Qed.

Lemma followed_edge W x y : followed W x y → edge x y.
Proof. intros (es & k & H1 & H2 & _). exists es. split; [done|]. by eapply list_elem_of_lookup_2. Qed.

Lemma frames_impl s s' W0 W1 W segs :
  Forall2 (λ (vf : nat * nat) seg, frame_ok s W0 vf.1 seg) W segs →
  (∀ v seg, v ∈ W.*1 → seg ∈ segs → frame_ok s W0 v seg → frame_ok s' W1 v seg) →
  Forall2 (λ (vf : nat * nat) seg, frame_ok s' W1 vf.1 seg) W segs.
Proof.
  induction 1 as [|vf seg W segs Hf _ IH]; intros Himp; constructor; [|apply IH; intros; apply Himp; set_solver].
  apply Himp; set_solver.
Qed.

Lemma seg_in_stack from s W segs fresh seg x : inv from s W segs fresh → seg ∈ segs → x ∈ seg → x ∈ stack s.
Proof.
  intros Hi Hs Hx. rewrite (i_stack _ _ _ _ _ Hi). apply list_elem_of_In, in_concat. exists seg. by rewrite <-!list_elem_of_In.
Qed.

(** ** A node is met *)
(** What holds of indices that have not changed. *)
Lemma sorted_same s s' (l : list nat) : (∀ x, x ∈ l → idx s' x = idx s x) →
  StronglySorted (λ x y, idx s y < idx s x) l → StronglySorted (λ x y, idx s' y < idx s' x) l.
Proof.
  intros Hix. induction 1 as [|x l Hs IH Hall]; [constructor|]. constructor; [apply IH; set_solver|].
  rewrite Forall_forall in *. intros y Hy. rewrite !Hix by set_solver. by apply Hall.
Qed.

Lemma frame_entered s s' W v u seg : frame_ok s W u seg → v ∉ stack s → (∀ x, x ∈ seg → x ∈ stack s) → stack s' = v :: stack s →
  (∀ x, x ≠ v → idx s' x = idx s x) → (∀ x, x ≠ v → lowest s' x = lowest s x) → (∀ x, x ∈ stack s → idx s x < idx s' v) →
  frame_ok s' ((v, 0) :: W) u seg.
Proof.
  intros [Hb Hr Hle Hlo Hle2] Hnv Hin Hst Hix Hlx Hiv. assert (∀ x, x ∈ stack s → x ≠ v) as Hne by (by intros x Hx ->).
  assert (u ∈ stack s) as Hu by (by apply Hin, last_in). split; [done|done|..].
  - by rewrite Hlx, Hix by (by apply Hne).
  - destruct Hlo as (y & Hy & Hyi & Hyr). exists y. rewrite Hlx, Hix by (by apply Hne). rewrite Hst. split; [by right|done].
  - intros x y Hx Hf Hy. rewrite Hlx by (by apply Hne). apply followed_other in Hf; [|by apply Hne, Hin].
    rewrite Hst in Hy. apply elem_of_cons in Hy as [->|Hy].
    + specialize (Hiv u Hu). lia.
    + rewrite Hix by (by apply Hne). by eapply Hle2.
Qed.

Lemma enter_inv from s W segs v : inv from s W segs (Some v) →
  ∃ s', enter v s = Some s' ∧ work s' = work s ∧ components s' = components s ∧ inv from s' ((v, 0) :: W) ([v] :: segs) None.
Proof.
  intros Hi. destruct (i_fresh _ _ _ _ _ Hi v eq_refl) as [Hv Hns]. unfold enter.
  rewrite decide_True by (by rewrite (i_index _ _ _ _ _ Hi)). eexists. split; [done|]. split; [done|]. split; [done|].
  set (s' := mkSearch _ _ _ _ _ _ _).
  assert (v ∉ stack s ++ done_nodes s) as Hnv by (by rewrite <-(i_seen _ _ _ _ _ Hi)).
  assert (idx s' v = next_index s) as Hiv.
  { unfold idx. cbn. rewrite list_lookup_insert_eq by (by rewrite (i_index _ _ _ _ _ Hi)). done. }
  assert (∀ x, x ≠ v → idx s' x = idx s x) as Hix by (intros x Hx; unfold idx; cbn; by rewrite list_lookup_insert_ne).
  assert (lowest s' v = next_index s) as Hlv.
  { unfold lowest. cbn. rewrite list_lookup_insert_eq by (by rewrite (i_low _ _ _ _ _ Hi)). done. }
  assert (∀ x, x ≠ v → lowest s' x = lowest s x) as Hlx by (intros x Hx; unfold lowest; cbn; by rewrite list_lookup_insert_ne).
  assert (∀ x, seen s' x ↔ x = v ∨ seen s x) as Hseen.
  { intros x. unfold seen. cbn. destruct (decide (x = v)) as [->|Hx].
    - rewrite list_lookup_insert_eq by (by rewrite (i_index _ _ _ _ _ Hi)). naive_solver.
    - rewrite list_lookup_insert_ne by done. naive_solver. }
  assert (∀ x, x ∈ stack s → x ≠ v) as Hst by (intros x Hx ->; set_solver).
  assert (∀ x, x ∈ stack s ++ done_nodes s → x ≠ v) as Hsd by (intros x Hx ->; set_solver).
  split.
  - cbn. rewrite length_insert. apply Hi.
  - cbn. rewrite length_insert. apply Hi.
  - intros x Hx. cbn. destruct (decide (x = v)) as [->|Hxv].
    + rewrite list_lookup_insert_eq by (by rewrite (i_on_len _ _ _ _ _ Hi)). f_equal. symmetry. apply bool_decide_eq_true. set_solver.
    + rewrite list_lookup_insert_ne, (i_on _ _ _ _ _ Hi) by done. f_equal. apply bool_decide_ext. set_solver.
  - cbn. rewrite length_insert. apply Hi.
  - cbn. by rewrite (i_stack _ _ _ _ _ Hi).
  - cbn. apply NoDup_cons. split; [done|apply Hi].
  - intros x. rewrite Hseen, (i_seen _ _ _ _ _ Hi). cbn. set_solver.
  - cbn. apply SSorted_cons.
    + eapply sorted_same; [|apply (i_order _ _ _ _ _ Hi)]. intros x Hx. by apply Hix, Hst.
    + apply Forall_forall. intros x Hx. rewrite Hiv, Hix by (by apply Hst). apply (i_next _ _ _ _ _ Hi). set_solver.
  - intros x Hx. cbn in *. destruct (decide (x = v)) as [->|Hxv]; [rewrite Hiv; lia|]. rewrite Hix by done.
    assert (idx s x < next_index s) by (apply (i_next _ _ _ _ _ Hi); set_solver). lia.
  - intros x y Hx Hf. left. apply Hseen. cbn in Hx. apply elem_of_cons in Hx as [->|Hx].
    + destruct Hf as (es & k & _ & _ & Hk). specialize (Hk 0). set_solver by lia.
    + apply followed_other in Hf; [|by apply Hst]. destruct (i_followed _ _ _ _ _ Hi x y Hx Hf) as [?|[= ->]]; auto.
  - apply Hi.
  - done.
  - constructor.
    + split; cbn.
      * done.
      * intros x ->%list_elem_of_singleton. split; apply rtc_refl.
      * rewrite Hlv, Hiv. done.
      * exists v. split; [set_solver|]. rewrite Hlv, Hiv. split; [done|apply rtc_refl].
      * intros x y ->%list_elem_of_singleton (es & k & _ & _ & Hk) _. specialize (Hk 0). set_solver by lia.
    + eapply frames_impl; [apply (i_frames _ _ _ _ _ Hi)|]. intros u seg Hu Hseg Hf. eapply frame_entered; [done| | |done|done|done|].
      * set_solver.
      * intros x Hx. by eapply seg_in_stack.
      * intros x Hx. rewrite Hiv. apply (i_next _ _ _ _ _ Hi). set_solver.
  - apply Hi.
  - intros x. rewrite Hseen. intros [[->|?]|[=]]; apply (i_from _ _ _ _ _ Hi); auto.
Qed.

(** ** An edge is followed *)
Lemma followed_next W v f x y es w : edges !! v = Some es → es !! f = Some w →
  followed ((v, S f) :: W) x y → followed ((v, f) :: W) x y ∨ (x = v ∧ y = w).
Proof.
  intros He Hw (es' & k & H1 & H2 & H3). destruct (decide (x = v)) as [->|Hx].
  - rewrite He in H1. injection H1 as <-. destruct (decide (k = f)) as [->|Hk]; [right; split; [done|congruence]|].
    left. exists es, k. split_and!; [done|done|]. intros g [[= ->]|Hg]%elem_of_cons; [|apply H3; set_solver].
    assert (k < S f) by (apply H3; set_solver). lia.
  - left. exists es', k. split_and!; [done|done|]. intros g [[= -> _]|Hg]%elem_of_cons; [done|]. apply H3. set_solver.
Qed.

Lemma followed_pop v f es W x y : edges !! v = Some es → es !! f = None → followed W x y → followed ((v, f) :: W) x y.
Proof.
  intros He Hf (es' & k & H1 & H2 & H3). exists es', k. split_and!; [done|done|]. intros g [[= -> ->]|Hg]%elem_of_cons; [|by apply H3].
  assert (es' = es) as -> by congruence. apply lookup_ge_None in Hf. apply lookup_lt_Some in H2. lia.
Qed.

Lemma advance_inv from s W segs v f es w fresh : (∀ x y, from x → edge x y → from y) →
  inv from s ((v, f) :: W) segs None → edges !! v = Some es → es !! f = Some w →
  (seen s w ∧ fresh = None) ∨ (¬ seen s w ∧ fresh = Some w) → (w ∈ stack s → lowest s v <= idx s w) →
  inv from s ((v, S f) :: W) segs fresh.
Proof.
  intros Hclosed Hi He Hw Hfresh Hlow. assert (edge v w) as Hvw by (exists es; split; [done|by eapply list_elem_of_lookup_2]).
  assert (v ∈ stack s) as Hv by (eapply (work_on_stack _ _ _ _ _ _ f); [done|]; apply elem_of_cons; by left).
  assert (seen s v) as Hsv by (by eapply stack_seen).
  pose proof (i_frames _ _ _ _ _ Hi) as Hfr. destruct Hi as [H1 H2 H3 H4 H5 H6 H7 H8 H9 H10 H11 H12 H13 H14 H15]. split; try done.
  - intros x y Hx Hf. destruct (followed_next _ _ _ _ _ _ _ He Hw Hf) as [Hf'|[-> ->]]; [|naive_solver].
    destruct (H10 x y Hx Hf') as [?|[=]]. by left.
  - destruct Hfresh as [[_ ->]|[_ ->]]; [done|]. cbn. split; [exact Hvw|exact H11].
  - intros x ->. destruct Hfresh as [[_ [=]]|[Hn [= ->]]]. split; [by apply (edge_lt v w)|done].
  - clear -in_range Hfr He Hw Hlow H5 H6. inversion Hfr as [|vf seg W' segs' Hf Hrest]; subst. constructor.
    + destruct Hf as [? ? ? ? Hl]. split; try done. intros x y Hx Hfo Hy. cbn in *.
      destruct (followed_next _ _ _ _ _ _ _ He Hw Hfo) as [?|[-> ->]]; [by eapply Hl|by apply Hlow].
    + eapply frames_impl; [exact Hrest|]. intros u sg Hu Hsg [? ? ? ? Hl]. split; try done. intros x y Hx Hfo Hy.
      destruct (followed_next _ _ _ _ _ _ _ He Hw Hfo) as [?|[-> ->]]; [by eapply Hl|].
      exfalso. rewrite H5 in H6. apply NoDup_app in H6 as [H6 _]. cbn in H6. apply NoDup_app in H6 as (_ & H6 & _).
      eapply H6; [by eapply last_in, f_bottom|]. apply list_elem_of_In, in_concat. exists sg. by rewrite <-!list_elem_of_In.
  - intros x [?|Hx]; [apply H15; by left|]. destruct Hfresh as [[_ ->]|[_ ->]]; [done|]. injection Hx as <-.
    eapply Hclosed; [|exact Hvw]. apply H15. by left.
Qed.

(** A node's [low] takes the index of a node it reaches. *)
Lemma lower_inv from s W segs fresh v w : inv from s W segs fresh → v < n → w ∈ stack s → reach v w →
  inv from (with_low s (<[v := lowest s v `min` idx s w]> (low s))) W segs fresh.
Proof.
  intros Hi Hv Hw Hr. set (s' := with_low _ _).
  assert (lowest s' v = lowest s v `min` idx s w) as Hlv.
  { unfold lowest. cbn. by rewrite list_lookup_insert_eq by (by rewrite (i_low _ _ _ _ _ Hi)). }
  assert (∀ x, x ≠ v → lowest s' x = lowest s x) as Hlx by (intros x Hx; unfold lowest; cbn; by rewrite list_lookup_insert_ne).
  assert (∀ x, lowest s' x <= lowest s x) as Hle by (intros x; destruct (decide (x = v)) as [->|Hx]; [lia|by rewrite Hlx]).
  pose proof (i_frames _ _ _ _ _ Hi) as Hfr. destruct Hi as [H1 H2 H3 H4 H5 H6 H7 H8 H9 H10 H11 H12 H13 H14 H15]. split; try done.
  - cbn. by rewrite length_insert.
  - eapply frames_impl; [exact Hfr|]. intros u seg Hu Hseg [Hb Hre Hl Hlo Hls]. split; [done|done|..].
    + specialize (Hle u). change (idx s' u) with (idx s u). lia.
    + destruct Hlo as (y & Hy & Hyi & Hyr). destruct (decide (u = v)) as [->|Hu'].
      * destruct (decide (lowest s v <= idx s w)).
        -- exists y. split_and!; [done| |done]. change (idx s' y) with (idx s y). lia.
        -- exists w. split_and!; [done| |done]. change (idx s' w) with (idx s w). lia.
      * exists y. split_and!; [done| |done]. by rewrite Hlx.
    + intros x y Hx Hf Hy. specialize (Hls x y Hx Hf Hy). specialize (Hle u). change (idx s' y) with (idx s y). lia.
Qed.

(** ** A node is left that is not the first of its component *)
Lemma segs_reach s W segs W0 x : Forall2 (λ (vf : nat * nat) seg, frame_ok s W0 vf.1 seg) W segs → x ∈ concat segs →
  ∃ u, u ∈ W.*1 ∧ reach x u.
Proof.
  induction 1 as [|vf seg W segs Hf _ IH]; cbn; intros Hx; [by apply elem_of_nil in Hx|].
  apply elem_of_app in Hx as [Hx|Hx].
  - exists vf.1. split; [set_solver|]. by apply (f_reach _ _ _ _ Hf).
  - destruct (IH Hx) as (u & ? & ?). exists u. split; [set_solver|done].
Qed.

Lemma merge_inv from s v f es p g W seg seg2 segs : inv from s ((v, f) :: (p, g) :: W) (seg :: seg2 :: segs) None →
  edges !! v = Some es → es !! f = None → lowest s p <= lowest s v → lowest s v < idx s v →
  inv from s ((p, g) :: W) ((seg ++ seg2) :: segs) None.
Proof.
  intros Hi He Hf Hlp Hlv. pose proof (i_frames _ _ _ _ _ Hi) as Hfr. pose proof (i_order _ _ _ _ _ Hi) as Ho.
  destruct Hi as [H1 H2 H3 H4 H5 H6 H7 H8 H9 H10 H11 H12 H13 H14 H15]. cbn in H5, H11. clear H13.
  destruct H11 as [Hpv Hchain]. apply Forall2_cons in Hfr as [Hfv [Hfp Hrest]%Forall2_cons]. cbn in Hfv, Hfp.
  split; try done.
  - by rewrite H5, app_assoc.
  - intros x y Hx Hfo. apply (H10 x); [done|]. by eapply followed_pop.
  - constructor.
    + cbn. split.
      * rewrite last_app, (f_bottom _ _ _ _ Hfp). done.
      * assert (reach v p) as Hvp.
        { destruct (f_low _ _ _ _ Hfv) as (y & Hy & Hyi & Hyr). rewrite H5 in Hy. apply elem_of_app in Hy as [Hy|Hy].
          - pose proof (bottom_least s seg (concat (seg2 :: segs)) v y) as Hb. rewrite H5 in Ho.
            specialize (Hb Ho (f_bottom _ _ _ _ Hfv) Hy). lia.
          - destruct (segs_reach s ((p, g) :: W) (seg2 :: segs) ((v, f) :: (p, g) :: W) y) as (u & Hu & Hyu); [by constructor|exact Hy|].
            etransitivity; [exact Hyr|]. etransitivity; [exact Hyu|]. by apply (chained_reach p W.*1). }
        assert (reach p v) as Hpv' by (by apply rtc_once).
        intros x [Hx|Hx]%elem_of_app; [|by apply Hfp]. destruct (f_reach _ _ _ _ Hfv x Hx). split; etransitivity; done.
      * apply Hfp.
      * apply Hfp.
      * intros x y [Hx|Hx]%elem_of_app Hfo Hy.
        -- pose proof (f_least _ _ _ _ Hfv x y Hx (followed_pop _ _ _ _ _ _ He Hf Hfo) Hy). lia.
        -- apply (f_least _ _ _ _ Hfp x y Hx); [|done]. by eapply followed_pop.
    + eapply frames_impl; [exact Hrest|]. intros u sg Hu Hsg [? ? ? ? Hl]. split; try done.
      intros x y Hx Hfo Hy. apply (Hl x y Hx); [|done]. by eapply followed_pop.
Qed.

(** ** A component is left *)
Lemma pop_until_seg v seg rest : NoDup (seg ++ rest) → last seg = Some v → pop_until v (seg ++ rest) = Some (seg, rest).
Proof.
  intros Hnd Hl. apply last_Some in Hl as [l ->]. rewrite <-app_assoc in Hnd |- *. induction l as [|w l IH]; cbn in *.
  - by rewrite decide_True.
  - apply NoDup_cons in Hnd as [Hw Hnd]. rewrite decide_False by set_solver. by rewrite IH.
Qed.

Lemma cleared (on : list bool) (ws : list nat) x : x < length on →
  foldl (λ l w, <[w := false]> l) on ws !! x = if bool_decide (x ∈ ws) then Some false else on !! x.
Proof.
  revert on. induction ws as [|w ws IH]; intros on Hx; cbn; [done|]. rewrite IH by (by rewrite length_insert).
  destruct (decide (x ∈ ws)) as [Hw|Hw].
  - rewrite !bool_decide_eq_true_2 by set_solver. done.
  - rewrite bool_decide_eq_false_2 by done. destruct (decide (x = w)) as [->|Hxw].
    + rewrite list_lookup_insert_eq by done. rewrite bool_decide_eq_true_2 by set_solver. done.
    + rewrite list_lookup_insert_ne by done. rewrite bool_decide_eq_false_2 by set_solver. done.
Qed.

Lemma cleared_length (on : list bool) (ws : list nat) : length (foldl (λ l w, <[w := false]> l) on ws) = length on.
Proof. revert on. induction ws as [|w ws IH]; intros on; cbn; [done|]. by rewrite IH, length_insert. Qed.

Lemma done_snoc cs c : done_of (cs ++ [c]) = done_of cs ++ members c.
Proof. unfold done_of. by rewrite fmap_app, concat_app; cbn; rewrite app_nil_r. Qed.

Lemma good_snoc cs c : good_components cs → good_component (done_of cs) c → good_components (cs ++ [c]).
Proof.
  intros Hg Hc i c' Hi. apply lookup_app_Some in Hi as [Hi|[Hle Hi]].
  - rewrite take_app_le by (by apply Nat.lt_le_incl; eapply lookup_lt_Some). by apply Hg.
  - apply list_lookup_singleton_Some in Hi as [Hi <-]. replace i with (length cs) by lia. by rewrite take_app_length.
Qed.

Lemma in_component cs x : x ∈ done_of cs → ∃ i c, cs !! i = Some c ∧ x ∈ members c.
Proof.
  unfold done_of. intros Hx. apply list_elem_of_In, in_concat in Hx as (l & Hl & Hx).
  apply list_elem_of_In, list_elem_of_fmap in Hl as (c & -> & Hc). apply list_elem_of_lookup in Hc as [i Hi].
  exists i, c. by rewrite list_elem_of_In.
Qed.

Lemma component_done cs i c x : cs !! i = Some c → x ∈ members c → x ∈ done_of (take (S i) cs).
Proof. intros Hi Hx. rewrite (take_S_r _ _ _ Hi), done_snoc. set_solver. Qed.

Lemma done_take cs i x : x ∈ done_of (take i cs) → x ∈ done_of cs.
Proof.
  intros Hx. rewrite <-(take_drop i cs). unfold done_of in *. rewrite fmap_app, concat_app. set_solver.
Qed.

(** What a component reaches is in it or in one before it. *)
Lemma good_take cs i : good_components cs → good_components (take i cs).
Proof.
  intros Hg j c Hj. apply lookup_take_Some in Hj as [Hj Hlt]. rewrite take_take, Nat.min_l by lia. by apply Hg.
Qed.

Lemma done_edge cs x y : good_components cs → x ∈ done_of cs → edge x y → y ∈ done_of cs.
Proof.
  intros Hg Hx He. apply in_component in Hx as (i & c & Hi & Hx). pose proof (g_closed _ _ (Hg i c Hi) x y Hx He) as Hy.
  apply (done_take _ (S i)). by rewrite (take_S_r _ _ _ Hi), done_snoc.
Qed.

Lemma done_reach cs x y : good_components cs → x ∈ done_of cs → reach x y → y ∈ done_of cs.
Proof. intros Hg Hx Hr. induction Hr as [|x z y He _ IH]; [done|]. by eapply IH, done_edge. Qed.

Lemma component_of_root before seg v es (cs : list Component) : before = done_of cs → good_components cs → NoDup (seg ++ before) →
  last seg = Some v → edges !! v = Some es →
  (∀ x, x ∈ seg → reach x v ∧ reach v x) → (∀ x y, x ∈ seg → edge x y → y ∈ before ++ seg) →
  good_component before (mkComponent (merge_sort le seg) (bool_decide (1 < length seg) || bool_decide (v ∈ (es : list nat)))).
Proof.
  intros -> Hg Hnd Hl He Hr Hclosed. assert (∀ x, x ∈ merge_sort le seg ↔ x ∈ seg) as Hin by (intros x; by rewrite (merge_sort_Permutation le seg)).
  pose proof (last_in _ _ Hl) as Hv. split; cbn.
  - apply Sorted_merge_sort; apply _.
  - intros x y Hx Hy. rewrite Hin in Hx, Hy. etransitivity; [by apply Hr|]. by apply Hr.
  - intros x y Hx Hxy. rewrite Hin in Hx. pose proof (Hclosed x y Hx Hxy). rewrite elem_of_app, Hin. set_solver.
  - rewrite orb_true_iff, !bool_decide_eq_true. split.
    + intros [Hlen|Hve]; [|exists v, v; rewrite !Hin; split_and!; [done|done|by exists es]].
      assert (∃ x, x ∈ seg ∧ x ≠ v) as (x & Hx & Hxv).
      { destruct seg as [|a [|b seg]]; cbn in Hlen; [lia|lia|]. destruct (decide (a = v)) as [->|Ha]; [|exists a; set_solver].
        exists b. cbn in Hnd. apply NoDup_cons in Hnd as [Hnd _]. set_solver. }
      pose proof (proj2 (Hr x Hx)) as Hrx. apply rtc_inv in Hrx as [?|(z & Hvz & Hzx)]; [by subst|].
      exists v, z. rewrite !Hin. split_and!; [done| |done]. pose proof (Hclosed v z Hv Hvz) as [Hz|Hz]%elem_of_app; [|done].
      exfalso. pose proof (done_reach _ _ _ Hg Hz Hzx) as Hd. apply NoDup_app in Hnd as (_ & Hnd & _). by eapply Hnd.
    + intros (x & y & Hx & Hy & Hxy). rewrite Hin in Hx, Hy. destruct seg as [|a [|b seg]]; [done| |left; cbn; lia].
      right. injection Hl as ->. apply list_elem_of_singleton in Hx as ->. apply list_elem_of_singleton in Hy as ->. destruct Hxy as (es' & He' & ?). congruence.
  - intros Hnil. pose proof (proj2 (Hin v) Hv) as H. rewrite Hnil in H. by apply elem_of_nil in H.
Qed.

Lemma on_after from s W seg rest segs fresh x : inv from s W segs fresh → stack s = seg ++ rest → x < n →
  foldl (λ l w, <[w := false]> l) (on_stack s) seg !! x = Some (bool_decide (x ∈ (rest : list nat))).
Proof.
  intros Hi Hs Hx. pose proof (i_nodup _ _ _ _ _ Hi) as Hnd. rewrite Hs in Hnd. apply NoDup_app in Hnd as [Hnd _].
  apply NoDup_app in Hnd as (_ & Hnd & _). rewrite cleared by (by rewrite (i_on_len _ _ _ _ _ Hi)).
  destruct (decide (x ∈ seg)) as [Hin|Hin].
  - rewrite bool_decide_eq_true_2, bool_decide_eq_false_2 by auto. done.
  - rewrite bool_decide_eq_false_2, (i_on _ _ _ _ _ Hi), Hs by done. f_equal. apply bool_decide_ext. set_solver.
Qed.

(** At the first node of a component each node of its segment has had all
    its edges followed. *)
Lemma all_followed s v f es W seg segs x y : NoDup (seg ++ concat segs) → last seg = Some v →
  Forall2 (λ (vf : nat * nat) seg, frame_ok s ((v, f) :: W) vf.1 seg) W segs →
  edges !! v = Some es → es !! f = None → x ∈ seg → edge x y → followed ((v, f) :: W) x y.
Proof.
  intros Hnd Hb Hrest He Hf Hx (es' & He' & Hy). apply list_elem_of_lookup in Hy as [k Hk].
  assert (∀ g, (x, g) ∉ W) as Hout.
  { intros g Hg. apply NoDup_app in Hnd as (_ & Hnd & _). eapply (Hnd x); [done|]. by eapply frames_in. }
  destruct (decide (x = v)) as [->|Hxv].
  - apply (followed_pop _ _ _ _ _ _ He Hf). exists es', k. split_and!; [done..|]. intros g Hg. by destruct (Hout g).
  - exists es', k. split_and!; [done..|]. intros g [[= -> _]|Hg]%elem_of_cons; [done|]. by destruct (Hout g).
Qed.

Lemma root_closed from s v f es W seg segs x y : inv from s ((v, f) :: W) (seg :: segs) None →
  edges !! v = Some es → es !! f = None → lowest s v = idx s v → x ∈ seg → edge x y → y ∈ done_nodes s ++ seg.
Proof.
  intros Hi He Hf Hlow Hx Hxy. pose proof (i_frames _ _ _ _ _ Hi) as Hfr. pose proof (i_order _ _ _ _ _ Hi) as Ho.
  pose proof (i_nodup _ _ _ _ _ Hi) as Hnd. pose proof (i_stack _ _ _ _ _ Hi) as Hst. cbn in Hst.
  apply Forall2_cons in Hfr as [Hfv Hrest]. cbn in Hfv. pose proof (f_bottom _ _ _ _ Hfv) as Hb.
  rewrite Hst in Hnd. apply NoDup_app in Hnd as [Hnd _].
  assert (followed ((v, f) :: W) x y) as Hfo by (by eapply all_followed).
  assert (x ∈ stack s) as Hxs by (rewrite Hst; set_solver).
  destruct (i_followed _ _ _ _ _ Hi x y Hxs Hfo) as [Hy|[=]]. apply (i_seen _ _ _ _ _ Hi) in Hy.
  apply elem_of_app in Hy as [Hy|Hy]; [|set_solver]. pose proof (f_least _ _ _ _ Hfv x y Hx Hfo Hy) as Hle.
  rewrite Hst in Hy. apply elem_of_app in Hy as [Hy|Hy]; [set_solver|]. exfalso. rewrite Hst in Ho.
  pose proof (sorted_app_lt _ _ _ _ _ Ho (last_in _ _ Hb) Hy). lia.
Qed.

Lemma emit_inv from s v f es W seg segs : inv from s ((v, f) :: W) (seg :: segs) None →
  edges !! v = Some es → es !! f = None → lowest s v = idx s v →
  ∃ s', emit edges v s = Some s' ∧ work s' = work s ∧ index s' = index s ∧ inv from s' W segs None.
Proof.
  intros Hi He Hf Hlow. pose proof (i_frames _ _ _ _ _ Hi) as Hfr. pose proof (i_order _ _ _ _ _ Hi) as Ho.
  pose proof (i_nodup _ _ _ _ _ Hi) as Hnd. pose proof (i_stack _ _ _ _ _ Hi) as Hst. cbn in Hst.
  apply Forall2_cons in Hfr as [Hfv Hrest]. cbn in Hfv. pose proof (f_bottom _ _ _ _ Hfv) as Hb.
  assert (NoDup (seg ++ concat segs)) as Hnds by (rewrite Hst in Hnd; by apply NoDup_app in Hnd as [? _]).
  unfold emit. rewrite Hst, (pop_until_seg v seg (concat segs)) by done. cbn. rewrite He. cbn.
  eexists. split; [done|]. split; [done|]. split; [done|]. set (s' := mkSearch _ _ _ _ _ _ _).
  set (c := mkComponent _ _) in *.
  assert (done_nodes s' = done_nodes s ++ merge_sort le seg) as Hdone by exact (done_snoc (components s) c).
  assert (stack s' ++ done_nodes s' ≡ₚ stack s ++ done_nodes s) as Hperm.
  { rewrite Hdone, (merge_sort_Permutation le seg), Hst. cbn. rewrite (Permutation_app_comm seg), <-!app_assoc.
    f_equiv. apply Permutation_app_comm. }
  assert (good_component (done_nodes s) c) as Hgood.
  { eapply component_of_root; [done|apply Hi| |done|done|apply Hfv|].
    - rewrite Hst in Hnd. apply NoDup_app in Hnd as (_ & H1 & H2). apply NoDup_app in Hnds as (H3 & _ & _).
      apply NoDup_app. split_and!; [done| |done]. intros x Hx. apply H1. set_solver.
    - intros x y. by apply (root_closed _ _ _ _ _ _ _ _ _ _ Hi He Hf Hlow). }
  split.
  - apply Hi.
  - apply Hi.
  - intros x Hx. by eapply on_after.
  - cbn. rewrite cleared_length. apply Hi.
  - done.
  - by rewrite Hperm.
  - intros x. rewrite Hperm. apply (i_seen _ _ _ _ _ Hi).
  - cbn. rewrite Hst in Ho. by eapply sorted_app_r.
  - intros x. rewrite Hperm. apply (i_next _ _ _ _ _ Hi).
  - intros x y Hx Hfo. eapply (i_followed _ _ _ _ _ Hi x); [rewrite Hst; set_solver|]. by eapply followed_pop.
  - cbn. by eapply chained_tail, (i_chain _ _ _ _ _ Hi).
  - done.
  - eapply frames_impl; [exact Hrest|]. intros u sg Hu Hsg [Hub Hur Hul Hulo Huls]. split; [done|done|done|..].
    + destruct Hulo as (y & Hy & Hyi & Hyr). exists y. split_and!; [|done|done]. rewrite Hst in Hy.
      apply elem_of_app in Hy as [Hy|Hy]; [|done]. exfalso. rewrite Hst in Ho.
      assert (u ∈ concat segs) as Hus by (apply list_elem_of_In, in_concat; exists sg; rewrite <-!list_elem_of_In; split; [done|by apply last_in]).
      pose proof (sorted_app_lt _ _ _ _ _ Ho Hy Hus). lia.
    + intros x y Hx Hfo Hy. apply (Huls x y Hx); [by eapply followed_pop|]. rewrite Hst. cbn in Hy. set_solver.
  - apply good_snoc; [apply Hi|done].
  - intros x Hx. by apply (i_from _ _ _ _ _ Hi).
Qed.
End scc.

(** * The search ends with the components (src/typechecker/order.rs)

    Each turn of the loop keeps the invariant and uses one of the turns
    counted for an edge or for a node, so the search from a root ends within
    [enough_turns]. *)

Section turns.
Context (edges : list (list nat)).
Notation n := (length edges).
Hypothesis in_range : ∀ v es w, edges !! v = Some es → w ∈ es → w < n.
Notation reach := (rtc (edge edges)).
Notation inv := (inv edges).
Notation frame_ok := (frame_ok edges).
Context (from : nat → Prop).
Hypothesis from_closed : ∀ x y, from x → edge edges x y → from y.

(** ** How many turns are left *)
Definition degree (v : nat) : nat := length (default [] (edges !! v)).

(** The turns for the nodes that have not been met. *)
Fixpoint unmet_turns (index : list (option nat)) (edges : list (list nat)) : nat :=
  match index, edges with
  | i :: index, es :: edges => match i with Some _ => 0 | None => S (length es) end + unmet_turns index edges
  | _, _ => 0
  end.
Definition work_turns (W : list (nat * nat)) : nat := sum_list ((λ vf, S (degree vf.1) - vf.2) <$> W).

Lemma unmet_turns_met (ix : list (option nat)) (ess : list (list nat)) v i es : ix !! v = Some None → ess !! v = Some es →
  unmet_turns ix ess = S (length es) + unmet_turns (<[v := Some i]> ix) ess.
Proof.
  revert v ess. induction ix as [|o ix IH]; intros v ess Hv He; [done|]. destruct ess as [|e ess]; [done|].
  destruct v as [|v]; cbn in *; [by injection Hv as ->; injection He as ->|]. specialize (IH v ess Hv He). rewrite IH. unfold insert. cbn. destruct o; cbn; unfold insert; lia.
Qed.

Lemma unmet_turns_le ix (ess : list (list nat)) : unmet_turns ix ess <= length ess + sum_list (length <$> ess).
Proof.
  revert ix. induction ess as [|e ess IH]; intros [|[i|] ix]; rewrite ?fmap_cons; simpl; try lia; specialize (IH ix); unfold sum_list in *; simpl in *; lia.
Qed.

(** The state at a turn's start, with [m] turns left. *)
Definition loop_inv (s : Search) (m : nat) : Prop :=
  ∃ W segs fresh, work s = ((λ x, (x, 0)) <$> option_list fresh) ++ W ∧ Forall (λ vf, 0 < vf.2 ∧ vf.2 <= degree vf.1) W ∧
    inv from s W segs fresh ∧ m = unmet_turns (index s) edges + work_turns W.

(** What the work stack holds matters to the loop only. *)
Lemma frame_work s l W v seg : frame_ok s W v seg → frame_ok (with_work s l) W v seg.
Proof. by intros [? ? ? ? ?]. Qed.

Lemma inv_work s l W segs fresh : inv from s W segs fresh → inv from (with_work s l) W segs fresh.
Proof.
  intros Hi. pose proof (i_frames _ _ _ _ _ _ Hi) as Hfr. destruct Hi. split; try done.
  eapply Forall2_impl; [exact Hfr|]. intros vf seg. apply frame_work.
Qed.

Lemma low_at s W segs fresh v : inv from s W segs fresh → v < n → low s !! v = Some (lowest s v).
Proof.
  intros Hi Hv. unfold lowest. destruct (low s !! v) eqn:E; [done|]. apply lookup_ge_None in E.
  rewrite (i_low _ _ _ _ _ _ Hi) in E. lia.
Qed.

Lemma index_at s W segs fresh v : inv from s W segs fresh → v < n →
  (index s !! v = Some None ∧ ¬ seen s v) ∨ (index s !! v = Some (Some (idx s v)) ∧ seen s v).
Proof.
  intros Hi Hv. unfold idx, seen. destruct (index s !! v) as [[i|]|] eqn:E; [right; by eauto|left; naive_solver|].
  apply lookup_ge_None in E. rewrite (i_index _ _ _ _ _ _ Hi) in E. lia.
Qed.

Lemma top_seen s v f W segs : inv from s ((v, f) :: W) segs None → v ∈ stack s ∧ seen s v ∧ v < n.
Proof.
  intros Hi. assert (v ∈ stack s) as Hv by (eapply (work_on_stack _ _ _ _ _ _ _ f); [done|]; apply elem_of_cons; by left).
  assert (seen s v) by (by eapply stack_seen). split_and!; [done|done|]. eapply seen_lt; [apply Hi|done].
Qed.

Lemma parent_other s v f p g W segs : inv from s ((v, f) :: (p, g) :: W) segs None → p ≠ v.
Proof.
  intros Hi ->. pose proof (i_frames _ _ _ _ _ _ Hi) as Hfr. pose proof (i_nodup _ _ _ _ _ _ Hi) as Hnd.
  rewrite (i_stack _ _ _ _ _ _ Hi) in Hnd. inversion Hfr as [|? seg ? segs' Hv [|? seg2 ? segs2 Hp Hr]]; subst.
  apply NoDup_app in Hnd as [Hnd _]. cbn in Hnd. apply NoDup_app in Hnd as (_ & Hnd & _).
  eapply (Hnd v); [by eapply last_in, f_bottom|]. apply elem_of_app. left. by eapply last_in, (f_bottom _ _ _ _ _ Hp).
Qed.

(** The turn after the node was met. *)
Definition after_met (v followed : nat) (rest : list (nat * nat)) (s : Search) : option Search :=
  es ← edges !! v;
  match es !! followed with
  | Some w =>
      let s := with_work s ((v, S followed) :: rest) in
      iw ← index s !! w;
      match iw with
      | None => Some (with_work s ((w, 0) :: (v, S followed) :: rest))
      | Some iw =>
          on ← on_stack s !! w;
          if on : bool then lv ← low s !! v; Some (with_low s (<[v := lv `min` iw]> (low s))) else Some s
      end
  | None =>
      lv ← low s !! v;
      let s := with_work s rest in
      s ← match rest with
          | (parent, _) :: _ => lp ← low s !! parent; Some (with_low s (<[parent := lp `min` lv]> (low s)))
          | [] => Some s
          end;
      lv ← low s !! v;
      iv ← index s !! v;
      if decide (iv = Some lv) then emit edges v s else Some s
  end.
Lemma turn_follow v f rest s : turn edges v f rest s = (s ← (if decide (f = 0) then enter v s else Some s); after_met v f rest s).
Proof. done. Qed.

Lemma work_turns_cons v f W : work_turns ((v, f) :: W) = S (degree v) - f + work_turns W.
Proof. done. Qed.

#[local] Arguments work_turns : simpl never.

Lemma follow_edge s v f es w W segs : inv from s ((v, f) :: W) segs None → Forall (λ vf, 0 < vf.2 ∧ vf.2 <= degree vf.1) W →
  edges !! v = Some es → es !! f = Some w →
  ∃ s', after_met v f W s = Some s' ∧ loop_inv s' (unmet_turns (index s) edges + work_turns W + (degree v - f)).
Proof.
  intros Hi HW He Hw. destruct (top_seen _ _ _ _ _ Hi) as (Hvst & Hvs & Hv). unfold after_met. rewrite He. cbn. rewrite Hw. cbn.
  assert (edge edges v w) as Hvw by (exists es; split; [done|by eapply list_elem_of_lookup_2]).
  destruct (edge_lt edges in_range _ _ Hvw) as [_ Hwn].
  assert (degree v = length es) as Hd by (unfold degree; by rewrite He).
  assert (f < length es) as Hf by (by eapply lookup_lt_Some).
  assert (Forall (λ vf, 0 < vf.2 ∧ vf.2 <= degree vf.1) ((v, S f) :: W)) as HW' by (constructor; [cbn; lia|done]).
  assert (work_turns ((v, S f) :: W) = work_turns W + (degree v - f)) as Hm by (rewrite work_turns_cons; lia).
  destruct (index_at _ _ _ _ w Hi Hwn) as [[-> Hns]|[-> Hs]]; cbn.
  - eexists. split; [done|]. exists ((v, S f) :: W), segs, (Some w). split_and!; [done|done| |cbn [index with_work with_low]; lia].
    do 2 apply inv_work. eapply (advance_inv edges in_range _ _ _ _ _ _ _ _ _ from_closed); [done..|by right|].
    intros Hst. destruct Hns. by eapply stack_seen.
  - rewrite (i_on _ _ _ _ _ _ Hi) by done. cbn. destruct (bool_decide_reflect (w ∈ (stack s : list nat))) as [Hst|Hst].
    + rewrite (low_at _ _ _ _ _ Hi) by done. cbn. eexists. split; [done|].
      exists ((v, S f) :: W), segs, None. split_and!; [done|done| |cbn [index with_work with_low]; lia].
      pose proof (lower_inv edges in_range from s _ _ _ v w Hi Hv Hst (rtc_once _ _ Hvw)) as Hi'.
      apply (inv_work _ ((v, S f) :: W)) in Hi'.
      eapply (advance_inv edges in_range _ _ _ _ _ _ _ _ _ from_closed); [exact Hi'|done|done|by left|].
      intros _. unfold lowest. cbn. rewrite list_lookup_insert_eq by (by rewrite (i_low _ _ _ _ _ _ Hi)). cbn. unfold idx. cbn. lia.
    + eexists. split; [done|]. exists ((v, S f) :: W), segs, None. split_and!; [done|done| |cbn [index with_work with_low]; lia].
      apply inv_work. eapply (advance_inv edges in_range _ _ _ _ _ _ _ _ _ from_closed); [done..|by left|done].
Qed.

(** The node below takes the [low] of the node that is left. *)
Lemma parent_lowered s v f p g W segs : inv from s ((v, f) :: (p, g) :: W) segs None →
  inv from (with_low s (<[p := lowest s p `min` lowest s v]> (low s))) ((v, f) :: (p, g) :: W) segs None.
Proof.
  intros Hi. pose proof (i_frames _ _ _ _ _ _ Hi) as Hfr. inversion Hfr as [|? seg ? segs' Hv _]; subst. cbn in Hv.
  destruct (f_low _ _ _ _ _ Hv) as (y & Hy & <- & Hvy). destruct (i_chain _ _ _ _ _ _ Hi) as [Hpv _].
  apply (lower_inv edges in_range); [done| |done|].
  - by apply (edge_lt edges in_range p v).
  - by eapply rtc_l.
Qed.

(** Left with nothing below, a node is the first of its component. *)
Lemma root_low s v f segs : inv from s [(v, f)] segs None → lowest s v = idx s v.
Proof.
  intros Hi. pose proof (i_frames _ _ _ _ _ _ Hi) as Hfr. pose proof (i_order _ _ _ _ _ _ Hi) as Ho.
  inversion Hfr as [|? seg ? segs' Hv Hr]; subst. inversion Hr; subst. cbn in Hv.
  destruct (f_low _ _ _ _ _ Hv) as (y & Hy & Hyi & _). pose proof (f_low_le _ _ _ _ _ Hv).
  rewrite (i_stack _ _ _ _ _ _ Hi) in Hy, Ho. cbn in Hy, Ho. rewrite app_nil_r in Hy.
  pose proof (bottom_least s seg [] v y Ho (f_bottom _ _ _ _ _ Hv) Hy). lia.
Qed.

(** What is left of a turn once the node below has been given the [low]. *)
Lemma leave_inv s v f es W seg segs : inv from s ((v, f) :: W) (seg :: segs) None → edges !! v = Some es → es !! f = None →
  (∀ p, head W.*1 = Some p → lowest s p <= lowest s v) →
  ∃ s' segs', (lv ← low s !! v; iv ← index s !! v; if decide (iv = Some lv) then emit edges v s else Some s) = Some s' ∧
    work s' = work s ∧ index s' = index s ∧ inv from s' W segs' None.
Proof.
  intros Hi He Hf Hp. destruct (top_seen _ _ _ _ _ Hi) as (_ & Hs & Hv).
  destruct (index_at _ _ _ _ _ Hi Hv) as [[_ Hns]|[Hix _]]; [done|]. rewrite (low_at _ _ _ _ _ Hi Hv), Hix. cbn.
  destruct (decide (Some (idx s v) = Some (lowest s v))) as [Heq|Hne].
  - injection Heq as Heq. destruct (emit_inv edges in_range _ _ _ _ _ _ _ _ Hi He Hf (eq_sym Heq)) as (s' & ? & ? & ? & ?).
    by exists s', segs.
  - destruct W as [|[p g] W]; [by rewrite (root_low _ _ _ _ Hi) in Hne|].
    pose proof (i_frames _ _ _ _ _ _ Hi) as Hfr. inversion Hfr as [|? ? ? segs1 Hfv Hr]; subst. inversion Hr as [|? seg2 ? segs2 _ _]; subst.
    pose proof (f_low_le _ _ _ _ _ Hfv). cbn in *. assert (lowest s v ≠ idx s v) by congruence.
    exists s. eexists. split_and!; [done..|]. apply (merge_inv edges in_range _ _ _ _ _ _ _ _ _ _ _ Hi He Hf); [by apply Hp|lia].
Qed.

Lemma follow_leave s v f es W segs : inv from s ((v, f) :: W) segs None → Forall (λ vf, 0 < vf.2 ∧ vf.2 <= degree vf.1) W →
  edges !! v = Some es → es !! f = None →
  ∃ s', after_met v f W s = Some s' ∧ loop_inv s' (unmet_turns (index s) edges + work_turns W).
Proof.
  intros Hi HW He Hf. destruct (top_seen _ _ _ _ _ Hi) as (_ & Hs & Hv). unfold after_met. rewrite He. cbn. rewrite Hf.
  rewrite (low_at _ _ _ _ _ Hi Hv). cbn. destruct segs as [|seg segs]; [by pose proof (i_frames _ _ _ _ _ _ Hi) as Hfr; inversion Hfr|].
  set (s1 := match W with (p, _) :: _ => with_low (with_work s W) (<[p := lowest s p `min` lowest s v]> (low s)) | [] => with_work s W end).
  assert (inv from s1 ((v, f) :: W) (seg :: segs) None ∧ (∀ p, head W.*1 = Some p → lowest s1 p <= lowest s1 v) ∧
    (match W with (parent, _) :: _ => lp ← low s !! parent;
       Some (with_low (with_work s W) (<[parent := lp `min` lowest s v]> (low s)))
     | [] => Some (with_work s W) end) = Some s1 ∧ work s1 = W ∧ index s1 = index s) as (Hi1 & Hp & -> & Hw1 & Hix1).
  { unfold s1. destruct W as [|[p g] W]; [split_and!; try done; by apply inv_work|].
    pose proof (parent_lowered _ _ _ _ _ _ _ Hi) as Hi'. pose proof (parent_other _ _ _ _ _ _ _ Hi) as Hne.
    destruct (i_chain _ _ _ _ _ _ Hi) as [Hpv _]. destruct (edge_lt edges in_range _ _ Hpv) as [Hpn _].
    split_and!; [|intros p' [= <-]| |done|done].
    - by apply (inv_work _ ((p, g) :: W)) in Hi'.
    - unfold lowest at 1 4. cbn. rewrite list_lookup_insert_eq by (by rewrite (i_low _ _ _ _ _ _ Hi)).
      rewrite list_lookup_insert_ne by done. apply Nat.le_min_r.
    - cbn [low with_work]. rewrite (low_at _ _ _ _ p Hi Hpn). done. }
  cbn. destruct (leave_inv _ _ _ _ _ _ _ Hi1 He Hf Hp) as (s' & segs' & -> & Hw & Hix & Hi2).
  exists s'. split; [done|]. exists W, segs', None. rewrite Hw, Hix, Hw1, Hix1. done.
Qed.

(** ** The loop *)
Lemma one_turn_inv s m v f rest : loop_inv s m → work s = (v, f) :: rest →
  ∃ s' m', turn edges v f rest s = Some s' ∧ loop_inv s' m' ∧ m' < m.
Proof.
  intros (W & segs & fresh & Hw & HW & Hi & ->) Hwork. rewrite turn_follow. rewrite Hwork in Hw. destruct fresh as [x|]; cbn in Hw.
  - injection Hw as -> -> ->. rewrite decide_True by done. destruct (i_fresh _ _ _ _ _ _ Hi x eq_refl) as [Hx Hns].
    destruct (enter_inv edges in_range _ _ _ _ _ Hi) as (s1 & He & Hw1 & _ & Hi1). rewrite He. cbn.
    destruct (lookup_lt_is_Some_2 edges x Hx) as [es Hes].
    assert (unmet_turns (index s) edges = S (degree x) + unmet_turns (index s1) edges) as Hm.
    { unfold degree. rewrite Hes. unfold enter in He. case_decide; [|done]. injection He as <-. cbn. apply (unmet_turns_met _ _ x _ es); [|done].
      by destruct (index_at _ _ _ _ x Hi Hx) as [[? _]|[_ ?]]. }
    destruct (es !! 0) as [w|] eqn:E.
    + destruct (follow_edge _ _ _ _ _ _ _ Hi1 HW Hes E) as (s' & ? & Hl). exists s'. eexists. split_and!; [done|exact Hl|lia].
    + destruct (follow_leave _ _ _ _ _ _ Hi1 HW Hes E) as (s' & ? & Hl). exists s'. eexists. split_and!; [done|exact Hl|lia].
  - subst W. apply Forall_cons in HW as [[Hf Hfd] HW]. cbn in Hf, Hfd. rewrite decide_False by lia. cbn.
    destruct (top_seen _ _ _ _ _ Hi) as (_ & _ & Hv). destruct (lookup_lt_is_Some_2 edges v Hv) as [es Hes].
    pose proof (work_turns_cons v f rest). destruct (es !! f) as [w|] eqn:E.
    + destruct (follow_edge _ _ _ _ _ _ _ Hi HW Hes E) as (s' & ? & Hl). exists s'. eexists. split_and!; [done|exact Hl|lia].
    + destruct (follow_leave _ _ _ _ _ _ Hi HW Hes E) as (s' & ? & Hl). exists s'. eexists. split_and!; [done|exact Hl|lia].
Qed.

Definition rested (s : Search) : Prop := inv from s [] [] None.

Lemma search_loop_ends s m fuel : loop_inv s m → m <= fuel → ∃ s', search_loop edges fuel s = Some s' ∧ rested s'.
Proof.
  revert s m. induction fuel as [|fuel IH]; intros s m Hl Hm; cbn; destruct (work s) as [|[v f] rest] eqn:E.
  1, 3: destruct Hl as (W & segs & fresh & Hw & HW & Hi & _); rewrite E in Hw; destruct fresh; [done|]; cbn in Hw; subst W;
    pose proof (i_frames _ _ _ _ _ _ Hi) as Hfr; inversion Hfr; subst; by exists s.
  all: destruct (one_turn_inv s m v f rest Hl E) as (s1 & m1 & Ht & Hl1 & Hlt).
  1: lia.
  rewrite Ht. cbn. apply (IH s1 m1); [done|lia].
Qed.

(** What is met stays met. *)
Lemma follow_index v f W s s' : after_met v f W s = Some s' → index s' = index s.
Proof.
  unfold after_met. intros (es & _ & H)%bind_Some. destruct (es !! f) as [w|].
  - apply bind_Some in H as ([iw|] & _ & H); [|by injection H as <-]. apply bind_Some in H as ([] & _ & H); [|by injection H as <-].
    apply bind_Some in H as (lv & _ & H). by injection H as <-.
  - apply bind_Some in H as (lv & _ & H). apply bind_Some in H as (s1 & H1 & H). assert (index s1 = index s) as <-.
    { destruct W as [|[p g] W]; [by injection H1 as <-|]. apply bind_Some in H1 as (lp & _ & H1). by injection H1 as <-. }
    apply bind_Some in H as (lv' & _ & H). apply bind_Some in H as (iv & _ & H). case_decide; [|by injection H as <-].
    unfold emit in H. apply bind_Some in H as ([ws st] & _ & H). apply bind_Some in H as (es' & _ & H). by injection H as <-.
Qed.

Lemma turn_seen v f W s s' x : turn edges v f W s = Some s' → seen s x ∨ (f = 0 ∧ x = v) → seen s' x.
Proof.
  rewrite turn_follow. intros (s1 & Hs1 & Hf)%bind_Some Hx. apply follow_index in Hf. unfold seen. rewrite Hf. clear Hf. case_decide.
  - unfold enter in Hs1. case_decide; [|done]. injection Hs1 as <-. cbn. destruct (decide (x = v)) as [->|Hne].
    + rewrite list_lookup_insert_eq by done. by eexists.
    + rewrite list_lookup_insert_ne by done. by destruct Hx as [?|[_ ->]].
  - injection Hs1 as <-. by destruct Hx as [?|[? _]].
Qed.

Lemma loop_seen fuel s s' x : search_loop edges fuel s = Some s' → seen s x → seen s' x.
Proof.
  revert s. induction fuel as [|fuel IH]; intros s; cbn; destruct (work s) as [|[v f] W]; [by intros [= ->]|done|by intros [= ->]|].
  intros (s1 & Ht & Hl)%bind_Some Hx. eapply IH; [done|]. eapply turn_seen; [done|by left].
Qed.

Lemma from_root_rests s root : rested s → root < n → from root →
  ∃ s', from_root edges (Some s) root = Some s' ∧ rested s' ∧ seen s' root ∧ ∀ x, seen s x → seen s' x.
Proof.
  intros Hi Hr Hf. cbn. destruct (index_at _ _ _ _ _ Hi Hr) as [[-> Hns]|[-> Hs]]; cbn; [|by exists s].
  assert (loop_inv (with_work s [(root, 0)]) (unmet_turns (index s) edges)) as Hl.
  { exists [], [], (Some root). split_and!; [done|done| |by rewrite Nat.add_0_r]. apply inv_work. pose proof (i_stack _ _ _ _ _ _ Hi) as Hst. pose proof (i_from _ _ _ _ _ _ Hi) as Hfrom. destruct Hi. split; try done.
    - intros x y Hx Hfo. rewrite Hst in Hx. by apply elem_of_nil in Hx.
    - by intros x [= <-].
    - intros x [?|[= <-]]; [auto|done]. }
  destruct (search_loop_ends _ _ (enough_turns edges) Hl (unmet_turns_le _ _)) as (s' & Hs' & Hr'). exists s'. split_and!; [done|done|..].
  - unfold enough_turns in Hs'. destruct (length edges + sum_list (length <$> edges)) as [|fuel] eqn:E; [lia|]. cbn in Hs'.
    apply bind_Some in Hs' as (s1 & Ht & Hs'). eapply loop_seen; [done|]. eapply turn_seen; [done|by right].
  - intros x Hx. by eapply loop_seen.
Qed.

Lemma roots_rest nodes s : rested s → (∀ r, r ∈ nodes → r < n ∧ from r) →
  ∃ s', foldl (from_root edges) (Some s) nodes = Some s' ∧ rested s' ∧ ∀ x, seen s x ∨ x ∈ nodes → seen s' x.
Proof.
  revert s. induction nodes as [|r nodes IH]; intros s Hi Hn.
  - exists s. split_and!; [done|done|]. intros x [?|Hx]; [done|by apply elem_of_nil in Hx].
  - destruct (from_root_rests s r Hi) as (s1 & Hs1 & Hi1 & Hr1 & Hm1); [apply Hn; set_solver..|]. cbn [foldl]. rewrite Hs1.
    destruct (IH s1 Hi1) as (s' & Hs' & Hi' & Hm'); [intros; apply Hn; set_solver|]. exists s'. split_and!; [done|done|].
    intros x [?|[->|?]%elem_of_cons]; apply Hm'; auto.
Qed.

Lemma new_rested : rested (new_search edges).
Proof.
  assert (∀ x, ¬ seen (new_search edges) x) as Hns.
  { intros x [i Hi]. unfold new_search in Hi. cbn in Hi. apply lookup_replicate in Hi as [? _]. done. }
  split; cbn; try done; rewrite ?length_replicate; try done.
  - intros x Hx. by rewrite lookup_replicate_2.
  - apply NoDup_nil_2.
  - intros x. split; [by intros ?%Hns|]. intros Hx. by apply elem_of_nil in Hx.
  - constructor.
  - intros x Hx. by apply elem_of_nil in Hx.
  - intros x y Hx. by apply elem_of_nil in Hx.
  - intros x [?%Hns|[=]]. done.
Qed.
End turns.

(** * The groups definitions are inferred in (src/typechecker/order.rs)

    What the search returns, read off its invariant, and the graph it is run
    on: an edge is a reference of the source. *)

(** ** Any graph *)
Section components.
Context (edges : list (list nat)).
Hypothesis in_range : ∀ v es w, edges !! v = Some es → w ∈ es → w < length edges.
Notation reach := (rtc (edge edges)).

Lemma components_found nodes : (∀ r, r ∈ nodes → r < length edges) → ∃ cs, strongly_connected edges nodes = Some cs ∧
  NoDup (done_of cs) ∧ (∀ x, x ∈ done_of cs ↔ ∃ r, r ∈ nodes ∧ reach r x) ∧ good_components edges cs.
Proof.
  intros Hn. set (from := λ x, ∃ r, r ∈ nodes ∧ reach r x).
  assert (∀ x y, from x → edge edges x y → from y) as Hclosed.
  { intros x y (r & Hr & Hrx) He. exists r. split; [done|]. by eapply rtc_r. }
  destruct (roots_rest edges in_range from Hclosed nodes (new_search edges)) as (s & Hs & Hi & Hm).
  - apply new_rested.
  - intros r Hr. split; [by apply Hn|]. by exists r.
  - exists (components s). unfold strongly_connected. rewrite Hs.
    pose proof (i_nodup _ _ _ _ _ _ Hi) as Hnd. pose proof (i_seen _ _ _ _ _ _ Hi) as Hseen.
    rewrite (i_stack _ _ _ _ _ _ Hi) in Hnd, Hseen. cbn in Hnd, Hseen. pose proof (i_comps _ _ _ _ _ _ Hi) as Hg.
    split_and!; [done|done| |done]. intros x. split.
    + intros Hx. apply (i_from _ _ _ _ _ _ Hi). left. by apply Hseen.
    + intros (r & Hr & Hrx). eapply done_reach; [done..| |done]. apply Hseen, Hm. by right.
Qed.

(** Of two components one comes first, and nothing leads from it to the other. *)
Lemma same_component cs i j c d x y : good_components edges cs → NoDup (done_of cs) →
  cs !! i = Some c → cs !! j = Some d → x ∈ members c → y ∈ members d → (reach x y ∧ reach y x ↔ i = j).
Proof.
  intros Hg Hnd Hi Hj Hx Hy. split; [|intros <-; rewrite Hi in Hj; injection Hj as <-; by split; eapply (g_mutual _ _ _ (Hg _ _ Hi))].
  assert (∀ i j c d x y, cs !! i = Some c → cs !! j = Some d → x ∈ members c → y ∈ members d → i < j → ¬ reach x y) as Hone.
  { clear -Hg Hnd in_range. intros i j c d x y Hi Hj Hx Hy Hlt Hr.
    pose proof (done_reach edges in_range _ _ _ (good_take edges _ (S i) Hg) (component_done edges in_range _ _ _ _ Hi Hx) Hr) as Hd.
    assert (y ∈ done_of (drop (S i) cs)) as Hd'.
    { apply list_elem_of_In, in_concat. exists (members d). rewrite <-!list_elem_of_In. split; [|done].
      apply list_elem_of_fmap. exists d. split; [done|]. apply list_elem_of_lookup. exists (j - S i).
      rewrite lookup_drop. by replace (S i + (j - S i)) with j by lia. }
    rewrite <-(take_drop (S i) cs) in Hnd. unfold done_of in Hnd, Hd, Hd'. rewrite fmap_app, concat_app in Hnd.
    apply NoDup_app in Hnd as (_ & Hnd & _). by eapply Hnd. }
  intros [Hxy Hyx]. destruct (lt_eq_lt_dec i j) as [[Hlt|?]|Hlt]; [|done|].
  - by destruct (Hone i j c d x y).
  - by destruct (Hone j i d c y x).
Qed.
End components.

(** ** The graph of a module *)
Section graph.
Context (decls : list Decl) (names : list (DefId * Symbol)) (complete : nat → bool).
Notation definition_edges := (definition_edges decls names complete).
Notation by_def := (by_def decls names).
Notation graph_nodes := (graph_nodes decls).

(** The body of [i] names the definition [j], whose type its declaration
    does not give. *)
Definition refers (i j : nat) : Prop :=
  ∃ d m id, decls !! i = Some d ∧ m ∈ mentions d ∧ m_res m = Some (Def id) ∧ by_def !! id = Some j ∧ complete j = false.

Lemma in_graph i : i ∈ graph_nodes ↔ ∃ d, decls !! i = Some d ∧ is_Some (declared d).
Proof.
  unfold Order.graph_nodes. rewrite list_elem_of_filter, elem_of_seq. split.
  - intros [[x (d & Hd & Hx)%bind_Some] _]. by exists d.
  - intros (d & Hd & [x Hx]). split; [exists x; by rewrite Hd|]. apply lookup_lt_Some in Hd. lia.
Qed.

Lemma fold_kept {A B} (P : A → Prop) (f : A → B → A) l a : (∀ a b, b ∈ l → P a → P (f a b)) → P a → P (foldl f a l).
Proof.
  revert a. induction l as [|b l IH]; intros a Hf Ha; cbn; [done|]. apply IH; [intros; apply Hf; [by right|done]|].
  apply Hf; [by left|done].
Qed.

Lemma by_name_node name i : by_name decls !! name = Some i → i ∈ graph_nodes.
Proof.
  unfold by_name. set (P := λ m : gmap Symbol nat, ∀ name i, m !! name = Some i → i ∈ graph_nodes). revert name i. change (P (by_name decls)).
  unfold by_name. apply fold_kept; [|by intros ? ? ?]. intros m k _ Hm.
  destruct (decls !! k ≫= declared) as [ns|] eqn:E; [|done]. cbn. apply fold_kept; [|done]. intros m' name _ Hm' name' i.
  rewrite lookup_insert_Some. intros [[_ <-]|[_ ?]]; [|by eapply Hm']. apply bind_Some in E as (d & Hd & Hn). apply in_graph. by exists d.
Qed.

Lemma by_def_node id i : by_def !! id = Some i → i ∈ graph_nodes.
Proof.
  set (P := λ m : gmap DefId nat, ∀ id i, m !! id = Some i → i ∈ graph_nodes). revert id i. change (P by_def).
  unfold Order.by_def. apply fold_kept; [|by intros ? ? ?]. intros m d _ Hm id i.
  destruct (by_name decls !! d.2) as [k|] eqn:E; [|apply Hm]. rewrite lookup_insert_Some. intros [[_ <-]|[_ ?]]; [|by eapply Hm].
  by eapply by_name_node.
Qed.

(** What one mention adds. *)
Lemma note_in targets m j : j ∈ note decls names complete targets m ↔
  j ∈ targets ∨ ∃ id, m_res m = Some (Def id) ∧ by_def !! id = Some j ∧ complete j = false.
Proof.
  unfold note. destruct (m_res m) as [[|id| |]|]; try naive_solver. destruct (by_def !! id) as [k|] eqn:E; [|naive_solver].
  destruct (complete k) eqn:Ek; cbn [negb andb].
  { split; [by left|]. intros [?|(id' & [= <-] & Hb & Hc)]; [done|congruence]. }
  assert ((∃ id0, Some (Def id) = Some (Def id0) ∧ by_def !! id0 = Some j ∧ complete j = false) ↔ j = k) as ->.
  { split; [intros (id' & [= <-] & Hb & _); congruence|]. intros ->. by exists id. }
  destruct (bool_decide_reflect (k ∈ targets)) as [Hk|Hk]; cbn [negb]; [|by rewrite elem_of_app, list_elem_of_singleton].
  split; [by left|]. by intros [?| ->].
Qed.

Lemma noted_in ms targets j : j ∈ foldl (note decls names complete) targets ms ↔
  j ∈ targets ∨ ∃ m id, m ∈ ms ∧ m_res m = Some (Def id) ∧ by_def !! id = Some j ∧ complete j = false.
Proof.
  revert targets. induction ms as [|m ms IH]; intros targets; cbn.
  - split; [by left|]. intros [?|(m & id & Hm & _)]; [done|]. by apply elem_of_nil in Hm.
  - rewrite IH, note_in. setoid_rewrite elem_of_cons. naive_solver.
Qed.

Lemma edge_refers i j : edge definition_edges i j ↔ refers i j.
Proof.
  unfold edge, refers, Order.definition_edges. split.
  - intros (es & He & Hj). apply list_lookup_fmap_Some in He as (d & -> & Hd). apply noted_in in Hj as [Hj|(m & id & ? & ? & ? & ?)].
    + by apply elem_of_nil in Hj.
    + by exists d, m, id.
  - intros (d & m & id & Hd & Hm & Hr & Hby & Hc). eexists. rewrite list_lookup_fmap, Hd. split; [done|]. apply noted_in. right. by exists m, id.
Qed.

Lemma refers_node i j : refers i j → j ∈ graph_nodes.
Proof. intros (d & m & id & _ & _ & _ & Hb & _). by eapply by_def_node. Qed.

Lemma node_lt i : i ∈ graph_nodes → i < length definition_edges.
Proof.
  intros (d & Hd & _)%in_graph. unfold Order.definition_edges. rewrite length_fmap. by eapply lookup_lt_Some.
Qed.

Lemma edges_in_range v es w : definition_edges !! v = Some es → w ∈ es → w < length definition_edges.
Proof. intros Hv Hw. eapply node_lt, (refers_node v), edge_refers. by exists es. Qed.

Lemma rtc_refers i j : rtc (edge definition_edges) i j ↔ rtc refers i j.
Proof. split; apply rtc_subrel; intros x y; apply edge_refers. Qed.

Lemma reached_node r x : r ∈ graph_nodes → rtc refers r x → x ∈ graph_nodes.
Proof. intros Hr H. induction H as [|x y z Hxy _ IH]; [done|]. by eapply IH, refers_node. Qed.
End graph.

(** ** Claims *)

(** C19. [definition_order] always gives an order of a module's definitions. Each
    function and [let] is in just one group. Two are in the same group when,
    and only when, each refers to the other, itself or through others. What a
    member of a group refers to is in the group or in one before it, so a
    definition is inferred after all it needs. Members are in source order,
    and a group is marked cyclic when a member refers to a member. What has
    a complete signature is not counted as referred to. *)
Theorem groups_are_components (decls : list Decl) (names : list (DefId * Symbol)) (complete : nat → bool) :
  ∃ groups, definition_order decls names complete = Some groups ∧
    let all := concat (members <$> groups) in
    NoDup all ∧ (∀ i, i ∈ all ↔ ∃ d, decls !! i = Some d ∧ is_Some (declared d)) ∧
    (∀ g h c d i j, groups !! g = Some c → groups !! h = Some d → i ∈ members c → j ∈ members d →
      (g = h ↔ rtc (refers decls names complete) i j ∧ rtc (refers decls names complete) j i)) ∧
    (∀ g c i j, groups !! g = Some c → i ∈ members c → refers decls names complete i j →
      j ∈ concat (members <$> take (S g) groups)) ∧
    (∀ c, c ∈ groups → members c ≠ [] ∧ Sorted le (members c) ∧
      (cyclic c = true ↔ ∃ i j, i ∈ members c ∧ j ∈ members c ∧ refers decls names complete i j)).
Proof.
  pose proof (edges_in_range decls names complete) as Hin.
  destruct (components_found (definition_edges decls names complete) Hin (graph_nodes decls)) as (cs & Hcs & Hnd & Hall & Hg).
  { intros r. apply node_lt. }
  exists cs. split; [done|]. cbn zeta. change (concat (members <$> ?l)) with (done_of l). split_and!; [done|..].
  - intros i. rewrite Hall, <-in_graph. split.
    + intros (r & Hr & Hri). apply rtc_refers in Hri. by eapply reached_node.
    + intros Hi. by exists i.
  - intros g h c d i j Hgc Hhd Hi Hj. rewrite <-!rtc_refers. symmetry. by eapply (same_component _ Hin).
  - intros g c i j Hc Hi Hij. apply edge_refers in Hij. rewrite (take_S_r _ _ _ Hc), done_snoc. by eapply (g_closed _ _ _ (Hg _ _ Hc)).
  - intros c Hc. apply list_elem_of_lookup in Hc as [g Hc]. destruct (Hg _ _ Hc) as [Hs _ _ Hcy Hne]. split_and!; [done|done|].
    rewrite Hcy. by setoid_rewrite edge_refers.
Qed.
