(* ===== verification/Lexer.v ===== *)
(** * The lexer (src/lexer.rs)

    A character is its code point and a text is a list of characters; an
    offset in a text counts the bytes of its UTF-8, and one that is kept as
    a [u32] is cut to 32 bits as the source cuts it.  A name is its text:
    what the interner makes of it is another part's.  A message is a
    constructor with what it shows.  The Unicode property Alphanumeric of
    the characters outside ASCII is an argument ([alphanumeric]).  How the
    standard library reads and writes an [f64] is written out in front of
    the tokens.

    A scan is a function of the lexer's state that gives a value and the
    state behind it, or [None] where the source would panic and where the
    fuel of a loop is used up. *)

From S2P Require Import Prelude Int64 Float.
From Stdlib Require Import NArith Strings.Ascii.

Open Scope N_scope.

Notation text := (list N).
Definition ch (c : ascii) : N := N_of_ascii c.
Arguments ch _%_char_scope.
Definition str (s : string) : text := ch <$> String.list_ascii_of_string s.
Definition u32 (n : N) : N := n mod 2 ^ 32.

(** *** Characters, as the standard library has them *)
Definition within (lo hi c : N) : bool := (lo <=? c) && (c <=? hi).
Definition len_utf8 (c : N) : N := if c <? 128 then 1 else if c <? 2048 then 2 else if c <? 65536 then 3 else 4.
Definition byte_len (t : text) : N := foldr (λ c n, len_utf8 c + n) 0 t.
Definition is_digit (c : N) : bool := within 48 57 c.
Definition is_letter (c : N) : bool := within 65 90 c || within 97 122 c.
Definition is_hexdigit (c : N) : bool := is_digit c || within 65 70 c || within 97 102 c.
Definition is_alnum (c : N) : bool := is_digit c || is_letter c.
Definition is_control (c : N) : bool := (c <? 32) || within 127 159 c.
Definition is_white (c : N) : bool :=
  within 9 13 c || (c =? 32) || (c =? 133) || (c =? 160) || (c =? 5760) || within 8192 8202 c ||
  (c =? 8232) || (c =? 8233) || (c =? 8239) || (c =? 8287) || (c =? 12288).

(** [from_str_radix] of a type of [2^bits] values. *)
Definition digit_value (c : N) : option N :=
  if is_digit c then Some (c - 48) else if within 97 122 c then Some (c - 87) else if within 65 90 c then Some (c - 55) else None.
Definition from_str_radix (bits radix : N) (digits : text) : option N :=
  match digits with
  | [] => None
  | _ =>
      foldl (λ acc c, n ← acc; d ← digit_value c;
        if (d <? radix) && (n * radix + d <? 2 ^ bits) then Some (n * radix + d) else None) (Some 0) digits
  end.
Definition char_from_u32 (code : N) : option N :=
  if (code <? 55296) || within 57344 1114111 code then Some code else None.

(** [str::parse] of an [f64] from decimal digits with a point and an
    exponent: the bits of the Float nearest to [m * 10^e], of two the even
    one, or of infinity.  [num / den] is scaled to [a / b] of 53 bits, or
    to units of 2^-1074. *)
Definition over_power (num den q : Z) : Z * Z := (num * 2 ^ Z.max (- q) 0, den * 2 ^ Z.max q 0)%Z.
Definition top_bit (num den : Z) : Z :=
  (let top := Z.log2 num - Z.log2 den in
   let '(a, b) := over_power num den top in
   if a <? b then top - 1 else top)%Z.
Definition round_ratio (num den : Z) : Z :=
  (if num =? 0 then 0 else
   let q := Z.max (top_bit num den - 52) (-1074) in
   let '(a, b) := over_power num den q in
   let whole := a / b in
   let twice := 2 * (a mod b) in
   let up := (b <? twice) || ((b =? twice) && Z.odd whole) in
   Z.min ((q + 1074) * 2 ^ 52 + whole + Z.b2z up) (2047 * 2 ^ 52))%Z.
Definition nearest (m e : Z) : Z :=
  (if 0 <=? e then round_ratio (m * 10 ^ e) 1 else round_ratio m (10 ^ (- e)))%Z.
Definition decimal (digits : text) : Z := foldl (λ n c, n * 10 + Z.of_N (c - 48))%Z 0%Z digits.
Definition parse_f64 (whole fraction : text) (exponent : option (bool * text)) : Z :=
  let e := match exponent with Some (negative, digits) => if negative : bool then (- decimal digits)%Z else decimal digits | None => 0%Z end in
  nearest (decimal (whole ++ fraction)) (e - Z.of_nat (length fraction)).

(** The Display of a finite [f64]: the decimal of the fewest digits that
    reads back as the number, of two the nearer one (half-way: the upper),
    with no exponent.  The number is [m] units of 2^-1074; the digits [d]
    are looked for at the place [p] of the last of them, from one place in
    front of the first digit on; at place -1074 there is nothing left over. *)
Definition candidates (m p : Z) : list Z :=
  (let '(a, b) := (m * 10 ^ Z.max (- p) 0, 2 ^ 1074 * 10 ^ Z.max p 0) in
   if 2 * (a mod b) <? b then [a / b; a / b + 1] else [a / b + 1; a / b])%Z.
Fixpoint shortest (fuel : nat) (bits m p : Z) : option (Z * Z) :=
  match fuel with
  | O => None
  | S fuel =>
      match find (λ d, nearest d p =? bits)%Z (candidates m p) with
      | Some d => Some (d, p)
      | None => shortest fuel bits m (p - 1)%Z
      end
  end.
(** The decimal digits of a number, as many as are asked or as it has. *)
Fixpoint padded (n : nat) (m : Z) : text :=
  match n with O => [] | S n => padded n (m / 10) ++ [Z.to_N (48 + m mod 10)] end%Z.
Fixpoint digit_count (fuel : nat) (m : Z) : nat :=
  match fuel with O => 1%nat | S fuel => if (m <? 10)%Z then 1%nat else S (digit_count fuel (m / 10)%Z) end.
Definition width (m : Z) : nat := digit_count (S (Z.to_nat (Z.log2 m))) m.
(** The place in front of the first digit. *)
Fixpoint place_below (fuel : nat) (m p : Z) : Z :=
  match fuel with O => p | S fuel => if (10 * m <? 2 ^ 1074)%Z then place_below fuel (10 * m)%Z (p - 1)%Z else p end.
Definition first_place (m : Z) : Z :=
  if (m <? 2 ^ 1074)%Z then place_below 324 m 0 else Z.of_nat (width (m / 2 ^ 1074)%Z).
(** The digits [d] with the last of them at the place [p]. *)
Definition placed_digits (d p : Z) : text :=
  if (0 <=? p)%Z then padded (width d) d ++ replicate (Z.to_nat p) (ch "0")
  else let unit := (10 ^ (- p))%Z in
    padded (width (d / unit)%Z) (d / unit) ++ ch "." :: padded (Z.to_nat (- p)) (d mod unit).
Definition show_f64 (bits : Z) : text :=
  let m := magnitude bits in
  (if negative bits then [ch "-"] else []) ++
  if (m =? 0)%Z then [ch "0"] else
  let p := first_place m in
  match shortest (Z.to_nat (p + 1075)) (low bits) m p with Some (d, p) => placed_digits d p | None => [] end.
(** [Float::write_text]; a number's fraction is 0 when it is a whole number
    of [2^1074] units. *)
Definition write_text (bits : Z) : text :=
  if (magnitude bits mod 2 ^ 1074 =? 0)%Z then show_f64 bits ++ str ".0" else show_f64 bits.

(** *** Tokens *)
Inductive Token :=
  | Let | Fn | Type_ | Trait | Match | When | Return | Pub | Opaque_ | Import_ | As | Else | Where | Loop
  | Int (n : Z) | Float_ (bits : Z) | Bool (b : bool)
  | StringLit (s : text) | StringStart (s : text) | StringMiddle (s : text) | StringEnd (s : text)
  | Ident (name : text)
  | Plus | Minus | Star | Slash | Percent | EqEq | NotEq | Lt | Gt | LtEq | GtEq | AndAnd | OrOr | Not
  | Pipe | Bar | Question | Caret | DotDot | DotDotDot | Arrow
  | LParen | RParen | LBrace | RBrace | LBracket | RBracket | HashBrace | HashBracket
  | Comma | Colon | ColonColon | Dot | Eq
  | Error
  | Eof.

Record Span := mkSpan { sp_file : N; sp_start : N; sp_end : N }.
Definition point (file at_ : N) : Span := mkSpan file at_ at_.

Inductive CommentKind := Line | Block.
Record Comment := mkComment { c_kind : CommentKind; c_span : Span; c_newlines_before : N }.
Record Tok := mkTok { kind : Token; span : Span; newlines_before : N; comments : N * N }.

Inductive Code := UnexpectedChar | UnterminatedString | UnterminatedComment | InvalidEscape | InvalidNumber.
Inductive Message :=
  | OpenComment | OpenInterpolation | OpenString | OpenEscape | OpenTriple
  | UnknownControlEscape (c : N) | UnknownEscape (c : N)
  | EscapeWithoutBraces | EscapeWithoutEnd | EscapeDigits | EscapeSurrogate (digits : text) | EscapeTooLarge (digits : text)
  | ExponentDigit | TooLarge | NotFinite | NoHexDigit | HexTooLarge | NoBinaryDigit | BinaryTooLarge
  | Semicolons | SingleAmpersand | NotAscii (c : N) | Unexpected (c : N) | ByteOrderMark | UnexpectedControl (c : N) | UnexpectedInvisible (c : N).
Inductive Note := GoesOnBehind (line col : N) | WrittenAgain (written : text) (more : nat).
Record Diagnostic := mkDiagnostic { d_code : Code; d_span : Span; d_message : Message; d_notes : list Note }.
Definition diagnostic (c : Code) (sp : Span) (m : Message) : Diagnostic := mkDiagnostic c sp m [].

Record Lexed := mkLexed {
  tokens : list Tok;
  l_comments : list Comment;
  l_errors : list Diagnostic;
  l_more_errors : N;
  l_cut_short : bool;
  l_quotes_off : bool;
  l_semicolons : list N;
}.

Definition MAX_SYNTAX_ERRORS : nat := 50.

(** *** The state of the lexer *)
Record Lexer := mkLexer {
  file : N;
  source : text;
  pos : nat;
  byte_offset : N;
  interp_stack : list (nat * Span);
  interpolations : list (N * N);
  brace_depth : nat;
  read_comments : list Comment;
  gap_newlines : N;
  gap_comments : N;
  errors : list Diagnostic;
  more_errors : N;
  cut_short : bool;
  quotes_off : bool;
  repeats : gmap text (nat * nat);
  semicolons : list N;
}.
Definition with_place (p : nat) (b : N) (s : Lexer) : Lexer :=
  mkLexer (file s) (source s) p b (interp_stack s) (interpolations s) (brace_depth s) (read_comments s) (gap_newlines s) (gap_comments s)
    (errors s) (more_errors s) (cut_short s) (quotes_off s) (repeats s) (semicolons s).
Definition with_braces (st : list (nat * Span)) (i : list (N * N)) (d : nat) (s : Lexer) : Lexer :=
  mkLexer (file s) (source s) (pos s) (byte_offset s) st i d (read_comments s) (gap_newlines s) (gap_comments s)
    (errors s) (more_errors s) (cut_short s) (quotes_off s) (repeats s) (semicolons s).
Definition with_trivia (c : list Comment) (nl gap : N) (s : Lexer) : Lexer :=
  mkLexer (file s) (source s) (pos s) (byte_offset s) (interp_stack s) (interpolations s) (brace_depth s) c nl gap
    (errors s) (more_errors s) (cut_short s) (quotes_off s) (repeats s) (semicolons s).
Definition with_errors (e : list Diagnostic) (more : N) (r : gmap text (nat * nat)) (s : Lexer) : Lexer :=
  mkLexer (file s) (source s) (pos s) (byte_offset s) (interp_stack s) (interpolations s) (brace_depth s) (read_comments s) (gap_newlines s)
    (gap_comments s) e more (cut_short s) (quotes_off s) r (semicolons s).
Definition with_flags (cut off : bool) (semi : list N) (s : Lexer) : Lexer :=
  mkLexer (file s) (source s) (pos s) (byte_offset s) (interp_stack s) (interpolations s) (brace_depth s) (read_comments s) (gap_newlines s)
    (gap_comments s) (errors s) (more_errors s) cut off (repeats s) semi.

Definition Scan (A : Type) : Type := Lexer → option (A * Lexer).
#[export] Instance scan_ret : MRet Scan := λ A a s, Some (a, s).
#[export] Instance scan_bind : MBind Scan := λ A B f m s, match m s with Some (a, s') => f a s' | None => None end.
Definition asks {A} (f : Lexer → A) : Scan A := λ s, Some (f s, s).
Definition does (f : Lexer → Lexer) : Scan unit := λ s, Some (tt, f s).
Definition stuck {A} : Scan A := λ _, None.
Definition left (s : Lexer) : nat := (length (source s) - pos s)%nat.

(** *** Steps of every scan *)
Definition peek : Scan (option N) := asks (λ s, source s !! pos s).
Definition peek_ahead (offset : nat) : Scan (option N) := asks (λ s, source s !! (pos s + offset)%nat).
Definition advance_char : Scan (option N) := λ s,
  match source s !! pos s with
  | Some c => Some (Some c, with_place (S (pos s)) (byte_offset s + len_utf8 c) s)
  | None => Some (None, s)
  end.
Definition here : Scan Span := asks (λ s, point (file s) (u32 (byte_offset s))).
Definition since_in (start : Span) (s : Lexer) : Span := mkSpan (sp_file start) (sp_start start) (u32 (byte_offset s)).
Definition since (start : Span) : Scan Span := asks (since_in start).

(** Whether a character that was looked at is the character [c], and is one of those of [p]. *)
Definition is_some_and (p : N → bool) (o : option N) : bool := match o with Some c => p c | None => false end.
Definition sees (c : N) (o : option N) : bool := is_some_and (N.eqb c) o.

Definition add_error (d : Diagnostic) (s : Lexer) : Lexer :=
  if decide (length (errors s) < MAX_SYNTAX_ERRORS)%nat then with_errors (errors s ++ [d]) (more_errors s) (repeats s) s
  else with_errors (errors s) (more_errors s + 1) (repeats s) s.
Definition error (d : Diagnostic) : Scan unit := does (add_error d).
Definition add_repeatable (written : text) (d : Diagnostic) (s : Lexer) : Lexer :=
  match repeats s !! written with
  | Some (i, more) => with_errors (errors s) (more_errors s) (<[written := (i, S more)]> (repeats s)) s
  | None =>
      if decide (length (errors s) < MAX_SYNTAX_ERRORS)%nat
      then with_errors (errors s ++ [d]) (more_errors s) (<[written := (length (errors s), 0%nat)]> (repeats s)) s
      else with_errors (errors s) (more_errors s + 1) (repeats s) s
  end.
Definition repeatable_error (written : text) (d : Diagnostic) : Scan unit := does (add_repeatable written d).
Definition record_comment (k : CommentKind) (start : Span) : Scan unit := does (λ s,
  with_trivia (read_comments s ++ [mkComment k (since_in start s) (gap_newlines s)]) 0 (gap_comments s) s).

(** The characters in front of which [p] holds, read. *)
Fixpoint while_loop (fuel : nat) (p : N → bool) : Scan text :=
  match fuel with
  | O => stuck
  | S fuel =>
      o ← peek;
      match o with
      | Some c => if p c then _ ← advance_char; cs ← while_loop fuel p; mret (c :: cs) else mret []
      | None => mret []
      end
  end.
Definition read_while (p : N → bool) : Scan text := n ← asks left; while_loop (S n) p.

(** *** White space and comments *)
Fixpoint white_loop (fuel : nat) : Scan unit :=
  match fuel with
  | O => stuck
  | S fuel =>
      o ← peek;
      match o with
      | Some c =>
          if (c =? ch " ") || (c =? 9) || (c =? 13) then _ ← advance_char; white_loop fuel
          else if c =? 10 then
            _ ← does (λ s, with_trivia (read_comments s) (N.min (gap_newlines s + 1) 2) (gap_comments s) s);
            _ ← advance_char; white_loop fuel
          else mret tt
      | None => mret tt
      end
  end.
Definition skip_whitespace : Scan unit := n ← asks left; white_loop (S n).
Definition skip_line_comment : Scan unit := _ ← read_while (λ c, negb (c =? 10)); mret tt.

Fixpoint block_loop (fuel depth : nat) (start : Span) : Scan bool :=
  match depth, fuel with
  | O, _ => mret true
  | _, O => stuck
  | S d, S fuel =>
      o ← advance_char;
      next ← peek;
      match o with
      | Some c =>
          if (c =? ch "{") && sees (ch "-") next then _ ← advance_char; block_loop fuel (S depth) start
          else if (c =? ch "-") && sees (ch "}") next then _ ← advance_char; block_loop fuel d start
          else block_loop fuel depth start
      | None =>
          _ ← does (λ s, with_flags true (quotes_off s) (semicolons s) s);
          _ ← error (diagnostic UnterminatedComment start OpenComment);
          mret false
      end
  end.
Definition skip_block_comment : Scan bool := start ← here; n ← asks left; block_loop (S n) 1 start.

(** *** Strings *)
Notation Scanned := (Token * Span)%type.

(** The 1-based line and column of the byte [at_]. *)
Fixpoint line_col_from (t : text) (at_ byte line col : N) : N * N :=
  match t with
  | c :: t =>
      if at_ <=? byte then (line, col)
      else if c =? 10 then line_col_from t at_ (byte + len_utf8 c) (line + 1) 1
      else line_col_from t at_ (byte + len_utf8 c) line (col + 1)
  | [] => (line, col)
  end.
Definition line_col (s : Lexer) (at_ : N) : N * N := line_col_from (source s) at_ 0 1 1.

Definition unterminated (start : Span) (m : Message) : Scan Scanned :=
  _ ← does (λ s, with_flags true (quotes_off s) (semicolons s) s);
  _ ← error (diagnostic UnterminatedString start m);
  mret (Error, start).

Section lexer.
Context (alphanumeric : N → bool).
Definition is_alphanumeric (c : N) : bool := if c <? 128 then is_alnum c else alphanumeric c.

Definition unicode_escape (esc : Span) : Scan (option N) :=
  o ← peek;
  if negb (sees (ch "{") o) then
    at_ ← since esc;
    _ ← error (diagnostic InvalidEscape at_ EscapeWithoutBraces);
    mret None
  else
    _ ← advance_char;
    digits ← read_while is_hexdigit;
    o ← peek;
    let n := length digits in
    if (n =? 0)%nat || (6 <? n)%nat || negb (sees (ch "}") o) then
      at_ ← since esc;
      let missing_brace := (1 <=? n)%nat && (n <=? 6)%nat && negb (is_some_and is_alphanumeric o) in
      _ ← error (diagnostic InvalidEscape at_ (if missing_brace then EscapeWithoutEnd else EscapeDigits));
      mret None
    else
      _ ← advance_char;
      match from_str_radix 32 16 digits with
      | None => mret None
      | Some code =>
          match char_from_u32 code with
          | Some c => mret (Some c)
          | None =>
              at_ ← since esc;
              _ ← error (diagnostic InvalidEscape at_ (if within 55296 57343 code then EscapeSurrogate digits else EscapeTooLarge digits));
              mret None
          end
      end.

(** The string that is not closed where the text ends. *)
Definition open_string (start opened : Span) : Scan Scanned :=
  in_interpolation ← asks (λ s, negb (bool_decide (interp_stack s = [])));
  if in_interpolation : bool then unterminated start OpenInterpolation
  else
    _ ← does (λ s, with_flags true (quotes_off s) (semicolons s) s);
    note ← asks (λ s,
      let quote_line := (line_col s (sp_start opened)).1 in
      let places := (λ qb, line_col s qb.2) <$> filter (λ qb, qb.1 = sp_start opened) (interpolations s) in
      head (filter (λ lc, lc.1 ≠ quote_line) places));
    let d := diagnostic UnterminatedString opened OpenString in
    _ ← error (match note with Some (line, col) => mkDiagnostic (d_code d) (d_span d) (d_message d) [GoesOnBehind line col] | None => d end);
    mret (Error, start).

Definition escape_of (c : N) : option N :=
  if c =? ch "n" then Some 10 else if c =? ch "r" then Some 13 else if c =? ch "t" then Some 9 else if c =? ch "0" then Some 0
  else if (c =? ch "\") || (c =? 34) || (c =? ch "{") || (c =? ch "}") then Some c else None.

(** A backslash in a string and what is behind it: what it stands for, or
    [None] at the end of the text. *)
Definition scan_escape : Scan (option text) :=
  esc_span ← here;
  _ ← advance_char;
  o ← advance_char;
  match o with
  | Some c =>
      if c =? ch "u" then u ← unicode_escape esc_span; mret (Some (option_list u))
      else match escape_of c with
      | Some e => mret (Some [e])
      | None =>
          if is_control c then at_ ← here; _ ← error (diagnostic InvalidEscape at_ (UnknownControlEscape c)); mret (Some [])
          else _ ← error (diagnostic InvalidEscape esc_span (UnknownEscape c)); mret (Some [])
      end
  | None => mret None
  end.

Fixpoint string_loop (fuel : nat) (start opened : Span) (is_continuation : bool) (t : text) : Scan Scanned :=
  match fuel with
  | O => stuck
  | S fuel =>
      o ← peek;
      match o with
      | None => open_string start opened
      | Some c =>
          next ← peek_ahead 1;
          if c =? ch "\" then
            e ← scan_escape;
            match e with
            | Some more => string_loop fuel start opened is_continuation (t ++ more)
            | None => unterminated start OpenEscape
            end
          else if c =? ch "{" then
            brace ← here;
            _ ← advance_char;
            _ ← does (λ s, with_braces ((brace_depth s, opened) :: interp_stack s)
                  (interpolations s ++ [(sp_start opened, sp_start brace)]) (S (brace_depth s)) s);
            mret (if is_continuation then StringMiddle t else StringStart t, start)
          else if c =? 34 then
            _ ← advance_char;
            mret (if is_continuation then StringEnd t else StringLit t, start)
          else if (c =? 13) && sees 10 next then
            _ ← advance_char; string_loop fuel start opened is_continuation t
          else
            _ ← advance_char; string_loop fuel start opened is_continuation (t ++ [c])
      end
  end.
Definition scan_string (start opened : Span) (is_continuation : bool) : Scan Scanned :=
  n ← asks left; string_loop (S n) start opened is_continuation [].

(** [split] at line feeds, and [join]. *)
Fixpoint split_lines (t : text) : list text :=
  match t with
  | [] => [[]]
  | c :: t => if c =? 10 then [] :: split_lines t else match split_lines t with l :: ls => (c :: l) :: ls | [] => [[c]] end
  end.
Fixpoint join_lines (ls : list text) : text :=
  match ls with [] => [] | l :: ls' => match ls' with [] => l | _ => l ++ 10 :: join_lines ls' end end.
Definition strip_cr (l : text) : text := match last l with Some c => if c =? 13 then removelast l else l | None => l end.

Definition is_blank (c : N) : bool := (c =? ch " ") || (c =? 9).
Definition strip_line (indent : nat) (line : text) : text :=
  if (indent <=? length line)%nat && forallb is_blank (take indent line) then drop indent line
  else if forallb is_blank line then [] else line.
Definition strip_triple_string_indentation (raw : text) : text :=
  let lines := strip_cr <$> split_lines raw in
  let last_line := default [] (last lines) in
  let indent := if forallb is_blank last_line then length last_line else 0%nat in
  let result_lines := strip_line indent <$> lines in
  let result_lines := match result_lines with [] :: ls => ls | ls => ls end in
  let result_lines := match last result_lines with Some [] => removelast result_lines | _ => result_lines end in
  join_lines result_lines.

(** The quotes in front of the last three of a run. *)
Fixpoint quotes_loop (fuel : nat) (raw : text) : Scan text :=
  match fuel with
  | O => stuck
  | S fuel =>
      o ← peek_ahead 3;
      if sees 34 o then _ ← advance_char; quotes_loop fuel (raw ++ [34])
      else _ ← advance_char; _ ← advance_char; _ ← advance_char; mret raw
  end.
Fixpoint triple_loop (fuel : nat) (start : Span) (raw : text) : Scan Scanned :=
  match fuel with
  | O => stuck
  | S fuel =>
      o ← peek;
      o1 ← peek_ahead 1;
      o2 ← peek_ahead 2;
      match o with
      | None => unterminated start OpenTriple
      | Some c =>
          if (c =? 34) && sees 34 o1 && sees 34 o2 then
            n ← asks left;
            raw ← quotes_loop (S n) raw;
            mret (StringLit (strip_triple_string_indentation raw), start)
          else _ ← advance_char; triple_loop fuel start (raw ++ [c])
      end
  end.
Definition scan_triple_string (start : Span) : Scan Scanned := n ← asks left; triple_loop (S n) start [].

(** *** Numbers and names *)
Definition invalid_number (start : Span) (m : Message) : Scan Scanned :=
  sp ← since start;
  _ ← error (diagnostic InvalidNumber sp m);
  mret (Error, start).

Definition int_magnitude (digits : text) (radix : N) : option Z :=
  match from_str_radix 64 radix digits with
  | Some n => if n =? 2 ^ 63 then Some (- 2 ^ 63)%Z else if n <? 2 ^ 63 then Some (Z.of_N n) else None
  | None => None
  end.

(** Digits with underscores between them. *)
Definition read_digits (p : N → bool) : Scan text :=
  cs ← read_while (λ c, p c || (c =? ch "_"));
  mret (filter (λ c, c ≠ ch "_") cs).

Definition scan_radix_int (p : N → bool) (radix : N) (none large : Message) (start : Span) : Scan Scanned :=
  digits ← read_digits p;
  match digits with
  | [] => invalid_number start none
  | _ => match int_magnitude digits radix with Some val => mret (Int val, start) | None => invalid_number start large end
  end.
Definition scan_hex_int : Span → Scan Scanned := scan_radix_int is_hexdigit 16 NoHexDigit HexTooLarge.
Definition scan_binary_int : Span → Scan Scanned := scan_radix_int (λ c, (c =? ch "0") || (c =? ch "1")) 2 NoBinaryDigit BinaryTooLarge.

Definition scan_decimal (first : N) (start : Span) : Scan Scanned :=
  more ← read_digits is_digit;
  let whole := first :: more in
  o ← peek;
  o1 ← peek_ahead 1;
  fraction ← (if sees (ch ".") o && is_some_and is_digit o1 then _ ← advance_char; f ← read_digits is_digit; mret (Some f) else mret None);
  o ← peek;
  if is_some_and (λ e, (e =? ch "e") || (e =? ch "E")) o then
    _ ← advance_char;
    sign ← peek;
    _ ← (if is_some_and (λ c, (c =? ch "+") || (c =? ch "-")) sign then _ ← advance_char; mret tt else mret tt);
    o ← peek;
    if negb (is_some_and is_digit o) then invalid_number start ExponentDigit
    else
      digits ← read_digits is_digit;
      let val := parse_f64 whole (default [] fraction) (Some (sees (ch "-") sign, digits)) in
      if Float.is_finite val then mret (Float_ val, start) else invalid_number start NotFinite
  else
    match fraction with
    | Some f =>
        let val := parse_f64 whole f None in
        if Float.is_finite val then mret (Float_ val, start) else invalid_number start NotFinite
    | None =>
        match int_magnitude whole 10 with
        | Some val => mret (Int val, start)
        | None => invalid_number start TooLarge
        end
    end.

Definition scan_number (first : N) (start : Span) : Scan Scanned :=
  prefix ← peek;
  if (first =? ch "0") && is_some_and (λ p, (p =? ch "x") || (p =? ch "X")) prefix then _ ← advance_char; scan_hex_int start
  else if (first =? ch "0") && is_some_and (λ p, (p =? ch "b") || (p =? ch "B")) prefix then _ ← advance_char; scan_binary_int start
  else scan_decimal first start.

Definition keywords : list (text * Token) :=
  [(str "let", Let); (str "fn", Fn); (str "type", Type_); (str "trait", Trait); (str "match", Match); (str "when", When);
   (str "return", Return); (str "pub", Pub); (str "opaque", Opaque_); (str "import", Import_); (str "as", As); (str "else", Else);
   (str "where", Where); (str "loop", Loop); (str "true", Bool true); (str "false", Bool false)].
Definition keyword_or_name (name : text) : Token :=
  match find (λ k, bool_decide (k.1 = name)) keywords with Some k => k.2 | None => Ident name end.
Definition scan_ident_or_keyword (first : N) (start : Span) : Scan Scanned :=
  more ← read_while (λ c, is_alnum c || (c =? ch "_"));
  mret (keyword_or_name (first :: more), start).

(** *** Text that is no token *)
Definition unexpected (start : Span) (m : Message) : Scan Scanned :=
  sp ← since start;
  _ ← error (diagnostic UnexpectedChar sp m);
  mret (Error, start).

Definition is_invisible (c : N) : bool :=
  is_white c || (c =? 173) || within 8203 8207 c || within 8234 8238 c || within 8288 8303 c || within 65024 65039 c.
Definition is_typographic (c : N) : bool := (c =? 8220) || (c =? 8221) || (c =? 8216) || (c =? 8217).
Definition is_stray (c : N) : bool :=
  if (c =? ch " ") || (c =? 9) || (c =? 13) || (c =? 10) then false
  else if (c =? ch "@") || (c =? ch "$") || (c =? ch "~") || (c =? ch "\") then true
  else if c <? 128 then (c <? 32) || (c =? 127)
  else if is_typographic c then false
  else negb (is_alphanumeric c).

Definition is_word (c : N) : bool := is_alphanumeric c || (c =? ch "_").
(** Where the word around [begin_] begins. *)
Fixpoint word_begin (src : text) (begin_ : nat) : option nat :=
  match begin_ with
  | O => Some O
  | S b => match src !! b with Some c => if is_word c then word_begin src b else Some (S b) | None => None end
  end.
Definition scan_word (c : N) (start : Span) : Scan Scanned :=
  sp ← since start;
  src ← asks source;
  p ← asks pos;
  match word_begin src (p - 1) with
  | None => stuck
  | Some b =>
      _ ← read_while is_word;
      p ← asks pos;
      _ ← repeatable_error (ch "'" :: take (p - b) (drop b src) ++ [ch "'"]) (diagnostic UnexpectedChar sp (NotAscii c));
      mret (Error, start)
  end.

Definition is_partner (c d : N) : bool := if (c =? ch "'") || (c =? ch "`") then d =? c else is_typographic d.
Fixpoint partner_loop (fuel : nat) (c : N) (ahead : nat) : Scan (option nat) :=
  match fuel with
  | O => stuck
  | S fuel =>
      o ← peek_ahead ahead;
      match o with
      | None => mret None
      | Some d => if d =? 10 then mret None else if is_partner c d then mret (Some ahead) else partner_loop fuel c (S ahead)
      end
  end.
Fixpoint advance_times (n : nat) : Scan unit :=
  match n with O => mret tt | S n => _ ← advance_char; advance_times n end.
Definition scan_quotation (c : N) (start : Span) : Scan Scanned :=
  e ← unexpected start (Unexpected c);
  n ← asks left;
  partner ← partner_loop (S n) c 0;
  _ ← match partner with Some p => advance_times (S p) | None => mret tt end;
  mret e.

Definition stray_message (c : N) : Message :=
  if c =? 65279 then ByteOrderMark else if is_control c then UnexpectedControl c
  else if is_invisible c then UnexpectedInvisible c else Unexpected c.
Definition scan_stray (c : N) (start : Span) : Scan Scanned :=
  _ ← does (λ s, with_flags (cut_short s) (quotes_off s || (c =? ch "\")) (semicolons s) s);
  e ← unexpected start (stray_message c);
  _ ← read_while is_stray;
  mret e.

(** *** The next token *)
Fixpoint trivia_loop (fuel : nat) : Scan (option Scanned) :=
  match fuel with
  | O => stuck
  | S fuel =>
      o ← peek;
      o1 ← peek_ahead 1;
      if sees (ch "-") o && sees (ch "-") o1 then
        start ← here;
        _ ← skip_line_comment;
        _ ← record_comment Line start;
        _ ← skip_whitespace;
        trivia_loop fuel
      else if sees (ch "{") o && sees (ch "-") o1 then
        start ← here;
        _ ← advance_char;
        _ ← advance_char;
        closed ← skip_block_comment;
        more ← asks more_errors;
        if negb closed && (0 <? more) then mret (Some (Error, start))
        else
          _ ← record_comment Block start;
          _ ← skip_whitespace;
          trivia_loop fuel
      else if sees (ch ";") o then
        start ← here;
        _ ← does (λ s, with_flags (cut_short s) (quotes_off s) (semicolons s ++ [sp_start start]) s);
        _ ← advance_char;
        sp ← since start;
        _ ← read_while (N.eqb (ch ";"));
        _ ← repeatable_error (str "a semicolon") (diagnostic UnexpectedChar sp Semicolons);
        _ ← does (λ s, with_trivia (read_comments s) (N.min (gap_newlines s + 1) 2) (gap_comments s) s);
        _ ← skip_whitespace;
        trivia_loop fuel
      else mret None
  end.

Definition plain_tokens : list (N * Token) :=
  [(ch "+", Plus); (ch "*", Star); (ch "%", Percent); (ch "?", Question); (ch "^", Caret); (ch ",", Comma);
   (ch "(", LParen); (ch ")", RParen); (ch "[", LBracket); (ch "]", RBracket); (ch "/", Slash)].
(** The token of two characters, if [c] is next, or of the one that was read. *)
Definition if_next (c : N) (two one : Token) (start : Span) : Scan Scanned :=
  o ← peek;
  if sees c o then _ ← advance_char; mret (two, start) else mret (one, start).

Definition open_brace (t : Token) (start : Span) : Scan Scanned :=
  _ ← does (λ s, with_braces (interp_stack s) (interpolations s) (S (brace_depth s)) s);
  mret (t, start).
Definition close_brace (start : Span) : Scan Scanned :=
  st ← asks interp_stack;
  depth ← asks brace_depth;
  match st with
  | (interp_depth, opened) :: st =>
      if (depth =? S interp_depth)%nat then
        _ ← does (λ s, with_braces st (interpolations s) (depth - 1) s);
        cont_start ← here;
        scan_string cont_start opened true
      else
        _ ← does (λ s, with_braces (interp_stack s) (interpolations s) (depth - 1) s);
        mret (RBrace, start)
  | [] =>
      _ ← does (λ s, with_braces (interp_stack s) (interpolations s) (depth - 1) s);
      mret (RBrace, start)
  end.

(** The token that starts with the character [c], which was read. [again]
    reads the next token. *)
Definition scan_token (again : Scan Scanned) (c : N) (start : Span) : Scan Scanned :=
  o ← peek;
  o1 ← peek_ahead 1;
  if c =? 34 then
    if sees 34 o && sees 34 o1 then _ ← advance_char; _ ← advance_char; scan_triple_string start
    else scan_string start start false
  else if is_digit c then scan_number c start
  else if is_letter c || (c =? ch "_") then scan_ident_or_keyword c start
  else match find (λ k, k.1 =? c) plain_tokens with
  | Some k => mret (k.2, start)
  | None =>
  if c =? ch ":" then if_next (ch ":") ColonColon Colon start
  else if (c =? ch "#") && sees (ch "{") o then _ ← advance_char; open_brace HashBrace start
  else if (c =? ch "#") && sees (ch "[") o then _ ← advance_char; mret (HashBracket, start)
  else if c =? ch "{" then open_brace LBrace start
  else if c =? ch "}" then close_brace start
  else if c =? ch "-" then
    if sees (ch ">") o then _ ← advance_char; mret (Arrow, start)
    else if sees (ch "-") o then _ ← skip_line_comment; _ ← record_comment Line start; again
    else mret (Minus, start)
  else if c =? ch "." then
    if sees (ch ".") o then _ ← advance_char; if_next (ch ".") DotDotDot DotDot start
    else mret (Dot, start)
  else if c =? ch "=" then if_next (ch "=") EqEq Eq start
  else if c =? ch "!" then if_next (ch "=") NotEq Not start
  else if c =? ch "<" then if_next (ch "=") LtEq Lt start
  else if c =? ch ">" then if_next (ch "=") GtEq Gt start
  else if c =? ch "|" then
    if sees (ch ">") o then _ ← advance_char; mret (Pipe, start)
    else if_next (ch "|") OrOr Bar start
  else if c =? ch "&" then
    if sees (ch "&") o then _ ← advance_char; mret (AndAnd, start)
    else unexpected start SingleAmpersand
  else if is_alphanumeric c then scan_word c start
  else if (c =? ch "'") || (c =? ch "`") || is_typographic c then scan_quotation c start
  else scan_stray c start
  end.

Fixpoint next_token (fuel : nat) : Scan Scanned :=
  match fuel with
  | O => stuck
  | S fuel =>
      _ ← skip_whitespace;
      n ← asks left;
      cut ← trivia_loop (S n);
      match cut with
      | Some sc => mret sc
      | None =>
          start ← here;
          o ← advance_char;
          match o with
          | Some c => scan_token (next_token fuel) c start
          | None => mret (Eof, start)
          end
      end
  end.

(** *** The tokens of a text *)
Definition push_token (ts : list Tok) (t : Token) (start : Span) : Scan (list Tok) := λ s,
  let e := u32 (N.of_nat (length (read_comments s))) in
  Some (ts ++ [mkTok t (since_in start s) (gap_newlines s) (gap_comments s, e)], with_trivia (read_comments s) 0 e s).

Definition is_eof (t : Token) : bool := match t with Eof => true | _ => false end.

(** The last token, if there is one, ends here. *)
Definition end_rest (ts : list Tok) (s : Lexer) : list Tok :=
  match last ts with
  | Some t => removelast ts ++ [mkTok (kind t) (since_in (span t) s) (newlines_before t) (comments t)]
  | None => ts
  end.

Fixpoint tokenize_loop (fuel : nat) (cut : bool) (ts : list Tok) : Scan (list Tok) :=
  match fuel with
  | O => stuck
  | S fuel =>
      n ← asks left;
      '(t, start) ← next_token (S n);
      if cut then
        _ ← does (λ s, with_trivia (take (N.to_nat (gap_comments s)) (read_comments s)) (gap_newlines s) (gap_comments s) s);
        if negb (is_eof t) then tokenize_loop fuel cut ts
        else
          ts ← asks (end_rest ts);
          _ ← does (λ s, with_trivia (read_comments s) 0 (gap_comments s) s);
          push_token ts t start
      else
        more ← asks more_errors;
        if 0 <? more then
          ts ← push_token ts Error start;
          tokenize_loop fuel true ts
        else
          ts ← push_token ts t start;
          if is_eof t then mret ts else tokenize_loop fuel false ts
  end.

(** A mistake that was made again is noted at its error. *)
Definition note_repeats (r : gmap text (nat * nat)) (es : list Diagnostic) : option (list Diagnostic) :=
  foldl (λ acc (w : text * (nat * nat)), es ← acc;
    let '(written, (i, more)) := w in
    if (more =? 0)%nat then Some es
    else d ← (es : list Diagnostic) !! i; Some (<[i := mkDiagnostic (d_code d) (d_span d) (d_message d) (d_notes d ++ [WrittenAgain written more])]> es))
    (Some es) (map_to_list r).

Definition new_lexer (f : N) (src : text) : Lexer :=
  let s := mkLexer f src 0 0 [] [] 0 [] 0 0 [] 0 false false ∅ [] in
  match src !! 0%nat with
  | Some c => if c =? 65279 then with_place 1 (len_utf8 c) s else s
  | None => s
  end.

Definition tokenize (s : Lexer) : option Lexed :=
  '(ts, s) ← tokenize_loop (S (S (S (left s)))) false [] s;
  es ← note_repeats (repeats s) (errors s);
  Some (mkLexed ts (read_comments s) es (more_errors s) (cut_short s) (quotes_off s) (semicolons s)).

Definition lex (f : N) (src : text) : option Lexed := tokenize (new_lexer f src).
End lexer.

(** *** What is asked of the tokens *)
Definition is_error (t : Token) : bool := match t with Error => true | _ => false end.

Definition checked (l : Lexed) : Lexed + Diagnostic := match l_errors l with [] => inl l | e :: _ => inr e end.
Definition is_cut_short (l : Lexed) : bool := l_cut_short l || l_quotes_off l.

(** What is open, the innermost first. *)
Inductive Open := OpenCode | OpenText.
Fixpoint close_text (open : list Open) : option (list Open) :=
  match open with [] => None | OpenText :: open => Some open | OpenCode :: open => close_text open end.
Definition open_step (open : list Open) (t : Token) : list Open :=
  match t with
  | LParen | LBracket | LBrace | HashBrace | HashBracket => OpenCode :: open
  | StringStart _ => OpenText :: open
  | RParen | RBracket | RBrace => match open with OpenCode :: open => open | _ => open end
  | StringEnd _ => default open (close_text open)
  | _ => open
  end.
Definition ends_open (l : Lexed) : bool :=
  let open := foldl open_step [] (kind <$> tokens l) in
  if 0 <? l_more_errors l then false
  else if l_cut_short l then negb (existsb (λ o, match o with OpenText => true | OpenCode => false end) open)
  else negb (bool_decide (length open = 0%nat)).

Definition ends_in_operator (l : Lexed) : bool :=
  match find (λ t, negb (is_eof (kind t))) (rev (tokens l)) with
  | Some t =>
      match kind t with
      | Plus | Minus | Star | Slash | Percent | EqEq | NotEq | Lt | Gt | LtEq | GtEq | AndAnd | OrOr | DotDot | Pipe | Eq | Arrow => true
      | _ => false
      end
  | None => false
  end.

(** A slice of a list; [None] where it is out of range. *)
Definition slice {A} (l : list A) (a b : N) : option (list A) :=
  if (a <=? b) && (b <=? N.of_nat (length l)) then Some (take (N.to_nat b - N.to_nat a) (drop (N.to_nat a) l)) else None.
Definition comments_before (l : Lexed) (t : Tok) : option (list Comment) := slice (l_comments l) (comments t).1 (comments t).2.
Definition line_break_before (l : Lexed) (t : Tok) : option bool :=
  if 0 <? newlines_before t then Some true else existsb (λ c, 0 <? c_newlines_before c) <$> comments_before l t.

(** *** The invariants that are fuzzed (src/fuzz_invariants.rs) *)
Fixpoint tokens_in_order (src_len : N) (prev : option Span) (seen_eof : bool) (ts : list Tok) : bool :=
  match ts with
  | [] => seen_eof
  | t :: ts =>
      let sp := span t in
      negb seen_eof && (sp_start sp <=? sp_end sp) && (sp_end sp <=? src_len) &&
      match prev with Some p => (sp_start p <=? sp_start sp) && (sp_end p <=? sp_start sp) | None => true end &&
      (if is_eof (kind t) then sp_start sp =? src_len else true) &&
      tokens_in_order src_len (Some sp) (is_eof (kind t)) ts
  end.
(** Where the comments end, if they are in order behind [floor]. *)
Fixpoint comments_in_order (floor : N) (cs : list Comment) : option N :=
  match cs with
  | [] => Some floor
  | c :: cs =>
      if (floor <=? sp_start (c_span c)) && (sp_start (c_span c) <=? sp_end (c_span c)) then comments_in_order (sp_end (c_span c)) cs else None
  end.
Fixpoint comments_between (cs : list Comment) (next_comment floor : N) (ts : list Tok) : bool :=
  match ts with
  | [] => next_comment =? N.of_nat (length cs)
  | t :: ts =>
      ((comments t).1 =? next_comment) && ((comments t).1 <=? (comments t).2) &&
      match slice cs (comments t).1 (comments t).2 with
      | Some part =>
          match comments_in_order floor part with
          | Some floor => (floor <=? sp_start (span t)) && comments_between cs (comments t).2 (sp_end (span t)) ts
          | None => false
          end
      | None => false
      end
  end.
Definition check_lexer_invariants (src : text) (l : Lexed) : bool :=
  let ts := tokens l in
  let src_len := byte_len src in
  negb (bool_decide (length ts = 0%nat)) &&
  tokens_in_order src_len None false ts &&
  comments_between (l_comments l) 0 0 ts &&
  negb (bool_decide (length (l_errors l) = 0%nat) && existsb (λ t, is_error (kind t)) ts) &&
  (length (l_errors l) <=? MAX_SYNTAX_ERRORS)%nat &&
  (if 0 <? l_more_errors l then
     (length (l_errors l) =? MAX_SYNTAX_ERRORS)%nat &&
     match (if (2 <=? length ts)%nat then ts !! (length ts - 2)%nat else None) with
     | Some t => is_error (kind t) && (sp_end (span t) =? src_len)
     | None => false
     end
   else true) &&
  forallb (λ d, (sp_start (d_span d) <=? sp_end (d_span d)) && (sp_end (d_span d) <=? src_len)) (l_errors l).
