(* ===== verification/LexerFacts.v ===== *)
(** * The scans keep the lexer's state in order (src/lexer.rs)

    A scan from a good state ends, in a good state that is further on in
    the text. *)

From S2P Require Import Prelude Int64 Float Lexer.
From Stdlib Require Import NArith Strings.Ascii.

Open Scope N_scope.

(** ** Bytes *)
Lemma len_utf8_pos c : 1 <= len_utf8 c.
Proof. unfold len_utf8. repeat case_match; lia. Qed.

Lemma byte_len_app a b : byte_len (a ++ b) = byte_len a + byte_len b.
Proof. unfold byte_len. induction a as [|c a IH]; cbn; [lia|]. rewrite IH. lia. Qed.

Lemma byte_len_length t : N.of_nat (length t) <= byte_len t.
Proof. unfold byte_len. induction t as [|c t IH]; cbn [length foldr]; [lia|]. pose proof (len_utf8_pos c). lia. Qed.

Definition offset_of (t : text) (i : nat) : N := byte_len (take i t).
#[global] Arguments offset_of : simpl never.

Lemma offset_succ t i c : t !! i = Some c → offset_of t (S i) = offset_of t i + len_utf8 c.
Proof. intros H. unfold offset_of. rewrite (take_S_r _ _ _ H), byte_len_app. unfold byte_len at 2. cbn. lia. Qed.

Lemma offset_mono t i j : (i <= j)%nat → offset_of t i <= offset_of t j.
Proof.
  intros H. unfold offset_of. replace (take j t) with (take i t ++ take (j - i) (drop i t)).
  - rewrite byte_len_app. lia.
  - rewrite take_take_drop. by f_equal; lia.
Qed.

Lemma offset_strict t i j : (i < j)%nat → (i < length t)%nat → offset_of t i < offset_of t j.
Proof.
  intros H Hi. destruct (lookup_lt_is_Some_2 t i Hi) as [c Hc]. pose proof (offset_succ _ _ _ Hc). pose proof (len_utf8_pos c).
  pose proof (offset_mono t (S i) j). lia.
Qed.

Lemma offset_end t : offset_of t (length t) = byte_len t.
Proof. unfold offset_of. by rewrite firstn_all. Qed.

Lemma offset_le t i : offset_of t i <= byte_len t.
Proof. unfold offset_of. rewrite <-(take_drop i t) at 2. rewrite byte_len_app. lia. Qed.

(** ** Scans that end *)
Definition wp {A} (m : Scan A) (s : Lexer) (Q : A → Lexer → Prop) : Prop := ∃ a s', m s = Some (a, s') ∧ Q a s'.

Lemma wp_ret {A} (a : A) s (Q : A → Lexer → Prop) : Q a s → wp (mret a) s Q.
Proof. intros H. by exists a, s. Qed.

Lemma wp_bind {A B} (m : Scan A) (f : A → Scan B) s (Q : B → Lexer → Prop) : wp m s (λ a s', wp (f a) s' Q) → wp (m ≫= f) s Q.
Proof. intros (a & s1 & H1 & b & s2 & H2 & H). exists b, s2. split; [|done]. unfold mbind, scan_bind. by rewrite H1. Qed.

Lemma wp_mono {A} (m : Scan A) s (P Q : A → Lexer → Prop) : wp m s P → (∀ a s', P a s' → Q a s') → wp m s Q.
Proof. intros (a & s' & H & HP) HPQ. exists a, s'. auto. Qed.

Lemma wp_asks {A} (f : Lexer → A) s (Q : A → Lexer → Prop) : Q (f s) s → wp (asks f) s Q.
Proof. intros H. by exists (f s), s. Qed.

Lemma wp_does f s (Q : unit → Lexer → Prop) : Q tt (f s) → wp (does f) s Q.
Proof. intros H. by exists tt, (f s). Qed.

Section scans.
Context (alphanumeric : N → bool) (src : text).
Hypothesis small : byte_len src < 2 ^ 32.

Definition span_ok (b : N) (sp : Span) : Prop := sp_start sp <= sp_end sp ∧ sp_end sp <= b.

Record good (s : Lexer) : Prop := {
  g_source : source s = src;
  g_pos : (pos s <= length src)%nat;
  g_offset : byte_offset s = offset_of src (pos s);
  g_errors : (length (errors s) <= MAX_SYNTAX_ERRORS)%nat;
  g_more : 0 < more_errors s → length (errors s) = MAX_SYNTAX_ERRORS;
  g_spans : Forall (λ d, span_ok (byte_offset s) (d_span d)) (errors s);
  g_stack : Forall (λ p, span_ok (byte_offset s) p.2) (interp_stack s);
  g_repeats : map_Forall (λ _ v, (v.1 < length (errors s))%nat) (repeats s);
}.

(** A scan goes on in the text, and leaves the comments alone. *)
Record calm (s s' : Lexer) : Prop := {
  c_comments : read_comments s' = read_comments s;
  c_newlines : gap_newlines s' = gap_newlines s;
  c_gap : gap_comments s' = gap_comments s;
  c_pos : (pos s <= pos s')%nat;
  c_errors : (length (errors s) <= length (errors s'))%nat;
  c_more : more_errors s <= more_errors s';
}.
Definition step (s s' : Lexer) : Prop := good s' ∧ calm s s'.

Lemma calm_refl s : calm s s.
Proof. by split. Qed.
Lemma calm_trans s1 s2 s3 : calm s1 s2 → calm s2 s3 → calm s1 s3.
Proof. intros [] []. split; congruence || lia. Qed.
Lemma step_trans s1 s2 s3 : step s1 s2 → step s2 s3 → step s1 s3.
Proof. intros [_ H1] [H H2]. split; [done|by eapply calm_trans]. Qed.
Lemma step_refl s : good s → step s s.
Proof. split; [done|apply calm_refl]. Qed.

Lemma span_ok_mono b b' sp : span_ok b sp → b <= b' → span_ok b' sp.
Proof. unfold span_ok. lia. Qed.

Lemma step_offset s s' : good s → step s s' → byte_offset s <= byte_offset s'.
Proof. intros Hg [Hg' Hc]. rewrite (g_offset _ Hg), (g_offset _ Hg'). apply offset_mono, Hc. Qed.

Lemma offset_u32 s : good s → u32 (byte_offset s) = byte_offset s.
Proof. intros Hg. unfold u32. apply N.mod_small. rewrite (g_offset _ Hg). pose proof (offset_le src (pos s)). lia. Qed.

(** ** The steps *)
Lemma placed_good s p : good s → (pos s <= p <= length src)%nat → good (with_place p (offset_of src p) s).
Proof.
  intros [] Hp. assert (byte_offset s <= offset_of src p) by (rewrite g_offset0; apply offset_mono; lia).
  split; cbn; try done; [lia| |].
  - eapply Forall_impl; [exact g_spans0|]. intros d Hd. exact (span_ok_mono _ _ _ Hd H).
  - eapply Forall_impl; [exact g_stack0|]. intros d Hd. exact (span_ok_mono _ _ _ Hd H).
Qed.

Lemma wp_advance s c (Q : option N → Lexer → Prop) : good s → source s !! pos s = Some c →
  (∀ s', step s s' → pos s' = S (pos s) → errors s' = errors s → interp_stack s' = interp_stack s → Q (Some c) s') → wp advance_char s Q.
Proof.
  intros Hg Hc HQ. exists (Some c). eexists. unfold advance_char. rewrite Hc. split; [done|].
  pose proof Hc as Hc'. rewrite (g_source _ Hg) in Hc'. apply HQ; [|done..]. split; [|split; cbn; done || lia].
  rewrite (g_offset _ Hg), <-(offset_succ _ _ _ Hc'). apply placed_good; [done|]. apply lookup_lt_Some in Hc'. lia.
Qed.

(** An advance that may be at the end. *)
Lemma wp_advance_any s (Q : option N → Lexer → Prop) : good s →
  (∀ s', step s s' → source s !! pos s = None → s' = s → Q None s') →
  (∀ c s', step s s' → source s !! pos s = Some c → pos s' = S (pos s) → Q (Some c) s') → wp advance_char s Q.
Proof.
  intros Hg HN HS. destruct (source s !! pos s) as [c|] eqn:E.
  - eapply wp_advance; [done..|]. intros; by apply HS.
  - exists None, s. unfold advance_char. rewrite E. split; [done|]. apply HN; [by apply step_refl|done..].
Qed.

Lemma wp_here s (Q : Span → Lexer → Prop) : good s →
  (∀ sp, span_ok (byte_offset s) sp → sp_start sp = byte_offset s → sp_end sp = byte_offset s → sp_file sp = file s → Q sp s) → wp here s Q.
Proof.
  intros Hg HQ. apply wp_asks, HQ; unfold span_ok; cbn; rewrite ?offset_u32 by done; done || lia.
Qed.

Lemma since_ok s start : good s → span_ok (byte_offset s) start → span_ok (byte_offset s) (since_in start s) ∧
  sp_start (since_in start s) = sp_start start ∧ sp_end (since_in start s) = byte_offset s.
Proof. intros Hg [? ?]. unfold span_ok, since_in. cbn. rewrite offset_u32 by done. lia. Qed.

Lemma wp_since s start (Q : Span → Lexer → Prop) : good s → span_ok (byte_offset s) start →
  (∀ sp, span_ok (byte_offset s) sp → Q sp s) → wp (since start) s Q.
Proof. intros Hg Hs HQ. apply wp_asks, HQ. by apply since_ok. Qed.

Lemma add_error_good s d : good s → span_ok (byte_offset s) (d_span d) → step s (add_error d s) ∧ errors (add_error d s) ≠ [].
Proof.
  intros Hg Hd. unfold add_error. case_decide as Hlt.
  - split; [|cbn; by destruct (errors s)]. split; [|split; cbn; rewrite ?length_app; done || lia]. destruct Hg. split; cbn; rewrite ?length_app; cbn; try done.
    + lia.
    + intros ?%g_more0. lia.
    + apply Forall_app. by split; [|constructor].
    + intros k v Hv. specialize (g_repeats0 k v Hv). cbn in *. lia.
  - pose proof (g_errors _ Hg). unfold MAX_SYNTAX_ERRORS in *. split; [|cbn; intros E; rewrite E in Hlt; cbn in Hlt; lia].
    split; [|split; cbn; done || lia]. destruct Hg. unfold MAX_SYNTAX_ERRORS in *. split; cbn; try done. unfold MAX_SYNTAX_ERRORS. lia.
Qed.

Lemma wp_error s d (Q : unit → Lexer → Prop) : good s → span_ok (byte_offset s) (d_span d) →
  (∀ s', step s s' → errors s' ≠ [] → pos s' = pos s → interp_stack s' = interp_stack s → Q tt s') → wp (error d) s Q.
Proof.
  intros Hg Hd HQ. apply wp_does. destruct (add_error_good s d Hg Hd). apply HQ; [done|done|..]; unfold add_error; by case_decide.
Qed.

Lemma wp_repeatable s w d (Q : unit → Lexer → Prop) : good s → span_ok (byte_offset s) (d_span d) →
  (∀ s', step s s' → errors s' ≠ [] → pos s' = pos s → interp_stack s' = interp_stack s → Q tt s') → wp (repeatable_error w d) s Q.
Proof.
  intros Hg Hd HQ. apply wp_does. unfold add_repeatable. destruct (repeats s !! w) as [[i more]|] eqn:E.
  - apply HQ; [|..]; try done.
    + split; [|by split]. destruct Hg. split; cbn; try done. apply map_Forall_insert_2; [|done]. apply (g_repeats0 w (i, more) E).
    + cbn. pose proof (g_repeats _ Hg w (i, more) E). cbn in *. intros Hn. rewrite Hn in *. cbn in *. lia.
  - destruct (add_error_good s d Hg Hd) as [[Hg' Hc] Hne]. unfold add_error in *. case_decide as Hlt; [|by apply HQ].
    apply HQ; try done. split; [|by destruct Hc; split]. destruct Hg'. split; cbn in *; try done.
    apply map_Forall_insert_2; [|done]. cbn. rewrite length_app. cbn. lia.
Qed.

(** Changes of what no other part of the state is about. *)
Lemma flags_step s a b c : good s → step s (with_flags a b c s).
Proof. intros []. by split; split. Qed.

Lemma braces_step s st i d : good s → Forall (λ p, span_ok (byte_offset s) p.2) st → step s (with_braces st i d s).
Proof. intros [] Hst. by split; split. Qed.

Lemma trivia_good s c nl gap : good s → good (with_trivia c nl gap s).
Proof. intros []. by split. Qed.

(** ** Loops *)
Lemma left_lt s c : source s !! pos s = Some c → (0 < left s)%nat.
Proof. intros H%lookup_lt_Some. unfold left. lia. Qed.
Lemma left_step s s' : good s → step s s' → (pos s < pos s')%nat → (left s' < left s)%nat.
Proof. intros Hg [Hg' Hc] Hp. unfold left. rewrite (g_source _ Hg), (g_source _ Hg'). pose proof (g_pos _ Hg'). lia. Qed.
Lemma left_mono s s' : good s → step s s' → (left s' <= left s)%nat.
Proof. intros Hg [Hg' Hc]. unfold left. rewrite (g_source _ Hg), (g_source _ Hg'). pose proof (c_pos _ _ Hc). lia. Qed.

(** What was read between two states. *)
Definition read_between (s s' : Lexer) (cs : text) : Prop :=
  pos s' = (pos s + length cs)%nat ∧ take (length cs) (drop (pos s) src) = cs.

Lemma wp_while_loop fuel p s (Q : text → Lexer → Prop) : good s → (left s < fuel)%nat →
  (∀ cs s', step s s' → errors s' = errors s → interp_stack s' = interp_stack s → Forall (λ c, p c = true) cs → read_between s s' cs →
    Q cs s') → wp (while_loop fuel p) s Q.
Proof.
  revert s Q. induction fuel as [|fuel IH]; intros s Q Hg Hf HQ; [lia|]. cbn. apply wp_bind, wp_asks.
  assert (∀ t, t = [] → Q t s) as Hnil.
  { intros t ->. apply HQ; [by apply step_refl|done|done|constructor|]. split; [cbn; lia|done]. }
  destruct (source s !! pos s) as [c|] eqn:E; [|by apply wp_ret, Hnil]. destruct (p c) eqn:Hp; [|by apply wp_ret, Hnil].
  apply wp_bind. eapply wp_advance; [done..|]. intros s1 Hs1 Hp1 He1 Hi1. apply wp_bind. apply IH; [apply Hs1| |].
  { pose proof (left_step s s1 Hg Hs1). lia. }
  intros cs s2 Hs2 He2 Hi2 Hcs [Hpos Hcs2]. apply wp_ret, HQ.
  - by eapply step_trans.
  - congruence.
  - congruence.
  - by constructor.
  - split; [cbn; lia|]. rewrite (g_source _ Hg) in E. rewrite (drop_S _ _ _ E). cbn. rewrite Hp1 in Hcs2. by rewrite Hcs2.
Qed.

Lemma wp_read_while p s (Q : text → Lexer → Prop) : good s →
  (∀ cs s', step s s' → errors s' = errors s → interp_stack s' = interp_stack s → Forall (λ c, p c = true) cs → read_between s s' cs →
    Q cs s') → wp (read_while p) s Q.
Proof. intros Hg HQ. apply wp_bind, wp_asks, wp_while_loop; [done|lia|done]. Qed.

Lemma wp_read_digits p s (Q : text → Lexer → Prop) : good s →
  (∀ cs s', step s s' → errors s' = errors s → Q cs s') → wp (read_digits p) s Q.
Proof. intros Hg HQ. apply wp_bind, wp_read_while; [done|]. intros cs s' ? ? _ _ _. by apply wp_ret, HQ. Qed.

(** ** Tokens *)
(** A scan from [s] has given a token that starts at [start]. *)
Definition gives (start : Span) (s : Lexer) (ts : Scanned) (s' : Lexer) : Prop :=
  step s s' ∧ ts.2 = start ∧ (is_error ts.1 = true → errors s' ≠ []) ∧ is_eof ts.1 = false.

Lemma gives_step start s s1 ts s' : step s s1 → gives start s1 ts s' → gives start s ts s'.
Proof. intros Hs (H & ? & ? & ?). split_and!; try done. by eapply step_trans. Qed.

Lemma gives_plain start s t : good s → is_error t = false → is_eof t = false → gives start s (t, start) s.
Proof. intros Hg He Hf. split_and!; [by apply step_refl|done|cbn; by rewrite He|done]. Qed.

Lemma wp_error_token start s d : good s → span_ok (byte_offset s) (d_span d) →
  wp (_ ← error d; mret (Error, start)) s (gives start s).
Proof. intros Hg Hd. apply wp_bind, wp_error; [done..|]. intros s' Hs He _ _. apply wp_ret. by split_and!. Qed.

Lemma start_ok s s' start : good s → step s s' → span_ok (byte_offset s) start → span_ok (byte_offset s') start.
Proof. intros Hg Hs Hk. eapply span_ok_mono; [done|by apply step_offset]. Qed.

Lemma wp_unterminated start m s : good s → span_ok (byte_offset s) start → wp (unterminated start m) s (gives start s).
Proof.
  intros Hg Hs. apply wp_bind, wp_does. pose proof (flags_step s true (quotes_off s) (semicolons s) Hg) as Hst.
  eapply wp_mono; [apply wp_error_token; [apply Hst|done]|]. intros ts s'. by apply gives_step.
Qed.

Lemma wp_unexpected start m s : good s → span_ok (byte_offset s) start → wp (unexpected start m) s (gives start s).
Proof. intros Hg Hs. apply wp_bind, wp_since; [done..|]. intros sp Hsp. by apply wp_error_token. Qed.

Lemma wp_invalid_number start m s : good s → span_ok (byte_offset s) start → wp (invalid_number start m) s (gives start s).
Proof. intros Hg Hs. apply wp_bind, wp_since; [done..|]. intros sp Hsp. by apply wp_error_token. Qed.

(** The rules for a scan in the middle of a token: what is known of the
    state moves along. *)
Definition scanning (start : Span) (s : Lexer) : Prop := good s ∧ span_ok (byte_offset s) start.

Lemma scanning_step start s s' : scanning start s → step s s' → scanning start s'.
Proof. intros [Hg Hk] Hs. split; [apply Hs|by eapply start_ok]. Qed.

Lemma gives_from {start s s1} {m : Scan Scanned} : step s s1 → wp m s1 (gives start s1) → wp m s1 (gives start s).
Proof. intros Hs H. eapply wp_mono; [exact H|]. intros ts s'. by apply gives_step. Qed.

(** A claim of a scan from a state, true from an earlier one too. *)
Class Carried {A} (Q : Lexer → A → Lexer → Prop) := carried s s1 a s' : step s s1 → Q s1 a s' → Q s a s'.
#[local] Instance gives_carried start : Carried (gives start).
Proof. intros s s1 ts s'. apply gives_step. Qed.
Definition goes_on {A} (s : Lexer) (_ : A) (s' : Lexer) : Prop := step s s'.
#[local] Instance goes_on_carried A : Carried (@goes_on A).
Proof. intros s s1 a s'. apply step_trans. Qed.

Lemma wp_carried {A} (Q : Lexer → A → Lexer → Prop) `{!Carried Q} s s1 m : step s s1 → wp m s1 (Q s1) → wp m s1 (Q s).
Proof. intros Hs H. eapply wp_mono; [exact H|]. intros a s'. by apply carried. Qed.

Section rules.
Context {B} (Q : Lexer → B → Lexer → Prop) `{!Carried Q}.

Lemma rule_advance f start s : scanning start s →
  (∀ o s', scanning start s' → step s s' → (0 < left s → left s' < left s)%nat → wp (f o) s' (Q s')) → wp (advance_char ≫= f) s (Q s).
Proof.
  intros Hsc Hf. apply wp_bind, wp_advance_any; [apply Hsc| |].
  - intros s' Hs Hn ->. apply Hf; [done|done|]. apply lookup_ge_None in Hn. unfold left. lia.
  - intros c s' Hs Hc Hp. eapply wp_carried; [done..|]. apply Hf; [by eapply scanning_step|done|]. intros _.
    apply left_step; [apply Hsc|done|lia].
Qed.

Lemma rule_digits p f start s : scanning start s →
  (∀ cs s', scanning start s' → step s s' → wp (f cs) s' (Q s')) → wp (read_digits p ≫= f) s (Q s).
Proof.
  intros Hsc Hf. apply wp_bind, wp_read_digits; [apply Hsc|]. intros cs s' Hs _. eapply wp_carried; [done..|].
  apply Hf; [by eapply scanning_step|done].
Qed.

Lemma rule_while p f start s : scanning start s →
  (∀ cs s', scanning start s' → step s s' → wp (f cs) s' (Q s')) → wp (read_while p ≫= f) s (Q s).
Proof.
  intros Hsc Hf. apply wp_bind, wp_read_while; [apply Hsc|]. intros cs s' Hs _ _ _ _. eapply wp_carried; [done..|].
  apply Hf; [by eapply scanning_step|done].
Qed.

Lemma rule_ask {A} (g : Lexer → A) f s : wp (f (g s)) s (Q s) → wp (asks g ≫= f) s (Q s).
Proof. intros H. by apply wp_bind, wp_asks. Qed.

Lemma rule_here f start s : scanning start s → (∀ sp, span_ok (byte_offset s) sp → wp (f sp) s (Q s)) → wp (here ≫= f) s (Q s).
Proof. intros Hsc Hf. apply wp_bind, wp_here; [apply Hsc|]. intros sp Hsp _ _ _. by apply Hf. Qed.

Lemma rule_since f start s : scanning start s → (∀ sp, span_ok (byte_offset s) sp → wp (f sp) s (Q s)) → wp (since start ≫= f) s (Q s).
Proof. intros [Hg Hk] Hf. apply wp_bind, wp_since; [done..|]. exact Hf. Qed.

Lemma rule_flags f a b c start s : scanning start s →
  (∀ s', scanning start s' → step s s' → wp (f tt) s' (Q s')) → wp (does (λ s, with_flags (a s) (b s) (c s) s) ≫= f) s (Q s).
Proof.
  intros Hsc Hf. apply wp_bind, wp_does. assert (step s (with_flags (a s) (b s) (c s) s)) as Hs by apply flags_step, Hsc.
  eapply wp_carried; [done..|]. apply Hf; [by eapply scanning_step|done].
Qed.

Lemma rule_error f d start s : scanning start s → span_ok (byte_offset s) (d_span d) →
  (∀ s', scanning start s' → step s s' → errors s' ≠ [] → wp (f tt) s' (Q s')) → wp (error d ≫= f) s (Q s).
Proof.
  intros Hsc Hd Hf. apply wp_bind, wp_error; [apply Hsc|done|]. intros s' Hs He _ _. eapply wp_carried; [done..|].
  apply Hf; [by eapply scanning_step|done|done].
Qed.
End rules.

Lemma gives_done start s t : scanning start s → is_error t = false → is_eof t = false → wp (mret (t, start)) s (gives start s).
Proof. intros [Hg _] He Hf. by apply wp_ret, gives_plain. Qed.

Lemma wp_bind_bind {A B C} (m : Scan A) (g : A → Scan B) (f : B → Scan C) s Q :
  wp (m ≫= λ x, g x ≫= f) s Q → wp ((m ≫= g) ≫= f) s Q.
Proof. intros (c & s' & H & HQ). exists c, s'. split; [|done]. unfold mbind, scan_bind in *. by destruct (m s) as [[a s1]|]. Qed.

Lemma wp_bind_ret {A B} (a : A) (f : A → Scan B) s Q : wp (f a) s Q → wp (mret a ≫= f) s Q.
Proof. done. Qed.

Ltac known := match goal with H : scanning _ ?s |- scanning _ ?s => exact H end.
Ltac scan_rule :=
  lazymatch goal with
  | |- wp (mbind _ advance_char) _ _ => eapply rule_advance; [apply _|known|intros ? ? ? ? ?]
  | |- wp (mbind _ (read_digits _)) _ _ => eapply rule_digits; [apply _|known|intros ? ? ? ?]
  | |- wp (mbind _ (read_while _)) _ _ => eapply rule_while; [apply _|known|intros ? ? ? ?]
  | |- wp (mbind _ (error _)) _ _ => eapply rule_error; [apply _|known|try assumption|intros ? ? ? ?]
  | |- wp (mbind _ (since _)) _ _ => eapply rule_since; [known|intros ? ?]
  | |- wp (mbind _ here) _ _ => eapply rule_here; [known|intros ? ?]
  | |- wp (mbind _ peek) _ _ => apply rule_ask
  | |- wp (mbind _ (peek_ahead _)) _ _ => apply rule_ask
  | |- wp (mbind _ (asks _)) _ _ => apply rule_ask
  | |- wp (mbind _ (mbind _ _)) _ _ => apply wp_bind_bind
  | |- wp (mbind _ (mret _)) _ _ => apply wp_bind_ret
  | |- wp (mbind _ (if ?b then _ else _)) _ _ => destruct b eqn:?
  | |- wp (mbind _ (match ?x with _ => _ end)) _ _ => destruct x eqn:?
  | |- wp (mret _) _ _ => apply gives_done; [eassumption|done|done]
  | |- wp (invalid_number _ _) _ _ => apply wp_invalid_number; match goal with H : scanning _ _ |- _ => apply H end
  | |- wp (unterminated _ _) _ _ => apply wp_unterminated; match goal with H : scanning _ ?s |- good ?s => apply H | H : scanning ?st ?s |- span_ok (byte_offset ?s) ?st => apply H end
  | |- wp (unexpected _ _) _ _ => apply wp_unexpected; match goal with H : scanning _ ?s |- good ?s => apply H | H : scanning ?st ?s |- span_ok (byte_offset ?s) ?st => apply H end
  | |- wp (if ?b then _ else _) _ _ => destruct b eqn:?
  | |- wp (match ?x with _ => _ end) _ _ => destruct x eqn:?
  end.

Lemma radix_int_gives p radix none large start s : scanning start s → wp (scan_radix_int p radix none large start) s (gives start s).
Proof. intros Hsc. unfold scan_radix_int. repeat scan_rule. Qed.

Lemma decimal_gives first start s : scanning start s → wp (scan_decimal first start) s (gives start s).
Proof.
  intros Hsc. unfold scan_decimal. repeat scan_rule.
Qed.

Lemma number_gives first start s : scanning start s → wp (scan_number first start) s (gives start s).
Proof.
  intros Hsc. unfold scan_number, scan_hex_int, scan_binary_int. do 3 scan_rule.
  all: repeat scan_rule.
  all: by apply radix_int_gives || apply decimal_gives.
Qed.

Lemma keyword_or_name_plain name : is_error (keyword_or_name name) = false ∧ is_eof (keyword_or_name name) = false.
Proof.
  unfold keyword_or_name. destruct (find _ keywords) as [k|] eqn:E; [|done]. apply find_some in E as [Hk _].
  assert (Forall (λ k : text * Token, is_error k.2 = false ∧ is_eof k.2 = false) keywords) as H by (repeat constructor).
  rewrite Forall_forall in H. apply H. by apply list_elem_of_In.
Qed.

Lemma ident_gives first start s : scanning start s → wp (scan_ident_or_keyword first start) s (gives start s).
Proof.
  intros Hsc. unfold scan_ident_or_keyword. scan_rule. apply gives_done; [done|apply keyword_or_name_plain..].
Qed.

(** ** Strings *)
Lemma goes_on_done {A} start (a : A) s : scanning start s → wp (mret a) s (goes_on s).
Proof. intros [Hg _]. by apply wp_ret, step_refl. Qed.

Lemma unicode_escape_step esc s : scanning esc s → wp (unicode_escape alphanumeric esc) s (goes_on s).
Proof.
  intros Hsc. unfold unicode_escape. repeat scan_rule; try (by eapply goes_on_done). all: try assumption.
Qed.

Lemma carry x s s' : scanning x s → step s s' → scanning x s'.
Proof. apply scanning_step. Qed.

Lemma open_string_gives start opened s : scanning start s → scanning opened s → wp (open_string start opened) s (gives start s).
Proof.
  intros Hsc Hop. unfold open_string. scan_rule. scan_rule.
  - by apply wp_unterminated; apply Hsc.
  - eapply rule_flags; [apply _|exact Hsc|]. intros s1 Hsc1 Hs1. scan_rule. eapply rule_error; [apply _|exact Hsc1| |].
    + assert (span_ok (byte_offset s1) opened) by (by eapply (scanning_step opened)).
      by destruct (head _) as [[line col]|].
    + intros s2 Hsc2 Hs2 He. apply wp_ret. split_and!; [by apply step_refl, Hsc2|done|done|done].
Qed.

Lemma rule_goes_on {A B} (Q : Lexer → B → Lexer → Prop) `{!Carried Q} (m : Scan A) f start s : scanning start s → wp m s (goes_on s) →
  (∀ a s', scanning start s' → step s s' → wp (f a) s' (Q s')) → wp (m ≫= f) s (Q s).
Proof.
  intros Hsc Hm Hf. apply wp_bind. eapply wp_mono; [exact Hm|]. intros a s' Hs. eapply wp_carried; [done..|]. apply Hf; [by eapply scanning_step|done].
Qed.

(** An escape goes on in the text. *)
Lemma escape_step start s : scanning start s → wp (scan_escape alphanumeric) s (λ _ s', step s s' ∧ (0 < left s → left s' < left s)%nat).
Proof.
  intros Hsc. unfold scan_escape. apply wp_bind, wp_here; [apply Hsc|]. intros esc Hesc _ _ _.
  assert (scanning esc s) as Hsce by (split; [apply Hsc|done]). clear Hsc Hesc.
  match goal with |- wp (mbind (λ _, ?rest) advance_char) _ _ => assert (∀ s, scanning esc s → wp rest s (goes_on s)) as Hrest end.
  { clear -small. intros s Hsc. scan_rule. destruct o as [c|]; [|by eapply goes_on_done]. destruct (c =? ch "u").
    - eapply rule_goes_on; [apply _|done|by apply unicode_escape_step|]. intros u s2 Hs2 _. by eapply goes_on_done.
    - repeat scan_rule; try (by eapply goes_on_done). by match goal with H : scanning esc ?s |- span_ok (byte_offset ?s) _ => apply H end. }
  apply wp_bind, wp_advance_any; [apply Hsce|..].
  - intros s' Hs Hn ->. eapply wp_mono; [by apply Hrest|]. intros a s' Hs'. split; [done|]. apply lookup_ge_None in Hn. unfold left. lia.
  - intros c s' Hs Hc Hp. eapply wp_mono; [by eapply Hrest, scanning_step|]. intros a s2 Hs2. split; [by eapply step_trans|]. intros _.
    apply left_step; [apply Hsce|by eapply step_trans|]. destruct Hs2 as [_ Hs2]. pose proof (c_pos _ _ Hs2). lia.
Qed.

(** A token of a string ends it or opens an interpolation. *)
Lemma string_loop_gives fuel start opened k t s : scanning start s → scanning opened s → (left s < fuel)%nat →
  wp (string_loop alphanumeric fuel start opened k t) s (gives start s).
Proof.
  revert t s. induction fuel as [|fuel IH]; intros t s Hsc Hop Hf; [lia|]. cbn [string_loop]. scan_rule.
  destruct (source s !! pos s) as [c|] eqn:E; [|by apply open_string_gives]. pose proof (left_lt _ _ E) as Hl. scan_rule.
  destruct (c =? ch "\").
  { apply wp_bind. eapply wp_mono; [by eapply escape_step|]. intros e s1 [Hs1 Hl1]. eapply wp_carried; [apply _|done|].
    destruct e as [more|]; [|by apply wp_unterminated; apply (scanning_step start s s1 Hsc Hs1)]. apply IH; [by eapply scanning_step..|lia]. }
  destruct (c =? ch "{").
  { scan_rule. eapply rule_advance; [apply _|exact Hsc|]. intros o s1 Hsc1 Hs1 _. apply wp_bind, wp_does.
    eapply wp_carried; [apply _|apply braces_step; [apply Hsc1|]|].
    - constructor; [by eapply (scanning_step opened)|apply Hsc1].
    - apply wp_ret, gives_plain; [|by destruct k..]. apply braces_step; [apply Hsc1|]. constructor; [by eapply (scanning_step opened)|apply Hsc1]. }
  destruct (c =? 34).
  { eapply rule_advance; [apply _|exact Hsc|]. intros o s1 Hsc1 _ _. apply gives_done; [done|by destruct k..]. }
  destruct ((c =? 13) && _).
  all: eapply rule_advance; [apply _|exact Hsc|]; intros o s1 Hsc1 Hs1 Hl1; apply IH; [done|by eapply scanning_step|lia].
Qed.

Lemma scan_string_gives start opened k s : scanning start s → scanning opened s → wp (scan_string alphanumeric start opened k) s (gives start s).
Proof. intros Hsc Hop. unfold scan_string. scan_rule. apply string_loop_gives; [done..|lia]. Qed.

Lemma quotes_loop_step fuel raw start s : scanning start s → (left s < fuel)%nat → wp (quotes_loop fuel raw) s (goes_on s).
Proof.
  revert raw s. induction fuel as [|fuel IH]; intros raw s Hsc Hf; [lia|]. cbn [quotes_loop]. scan_rule.
  destruct (source s !! (pos s + 3)%nat) as [c|] eqn:E; cbn [sees is_some_and].
  - apply lookup_lt_Some in E. assert (0 < left s)%nat by (unfold left; lia). destruct (34 =? c).
    + eapply rule_advance; [apply _|exact Hsc|]. intros o s1 Hsc1 _ Hl. apply IH; [done|lia].
    + repeat scan_rule. by eapply goes_on_done.
  - repeat scan_rule. by eapply goes_on_done.
Qed.

Lemma triple_loop_gives fuel start raw s : scanning start s → (left s < fuel)%nat → wp (triple_loop fuel start raw) s (gives start s).
Proof.
  revert raw s. induction fuel as [|fuel IH]; intros raw s Hsc Hf; [lia|]. cbn [triple_loop]. do 3 scan_rule.
  destruct (source s !! pos s) as [c|] eqn:E; [|by apply wp_unterminated; apply Hsc]. pose proof (left_lt _ _ E) as Hl.
  destruct (_ && _ && _).
  - scan_rule. eapply rule_goes_on; [apply _|exact Hsc|apply (quotes_loop_step _ _ start); [done|lia]|]. intros raw' s1 Hsc1 _. by apply gives_done.
  - eapply rule_advance; [apply _|exact Hsc|]. intros o s1 Hsc1 _ Hl1. apply IH; [done|lia].
Qed.

Lemma scan_triple_gives start s : scanning start s → wp (scan_triple_string start) s (gives start s).
Proof. intros Hsc. unfold scan_triple_string. scan_rule. apply triple_loop_gives; [done|lia]. Qed.

(** ** Text that is no token *)
Lemma gives_then start s ts s1 s2 : gives start s ts s1 → step s1 s2 → gives start s ts s2.
Proof.
  intros (H1 & H2 & H3 & H4) Hs. split_and!; [by eapply step_trans|done| |done]. intros He. specialize (H3 He).
  destruct Hs as [_ Hc]. pose proof (c_errors _ _ Hc). by destruct (errors s1), (errors s2); cbn in *; done || lia.
Qed.

Lemma word_begin_some t b : (b <= length t)%nat → ∃ b', word_begin alphanumeric t b = Some b' ∧ (b' <= b)%nat.
Proof.
  induction b as [|b IH]; intros Hb; cbn; [by exists 0%nat|]. destruct (lookup_lt_is_Some_2 t b) as [c ->]; [lia|].
  destruct (is_word alphanumeric c); [|by exists (S b)]. destruct IH as (b' & ? & ?); [lia|]. exists b'. split; [done|lia].
Qed.

Lemma word_gives c start s : scanning start s → wp (scan_word alphanumeric c start) s (gives start s).
Proof.
  intros Hsc. unfold scan_word. eapply rule_since; [exact Hsc|]. intros sp Hsp. scan_rule. scan_rule. pose proof Hsc as [Hg _].
  destruct (word_begin_some (source s) (pos s - 1)) as (b & -> & _); [rewrite (g_source _ Hg); pose proof (g_pos _ Hg); lia|].
  eapply rule_while; [apply _|exact Hsc|]. intros cs s1 Hsc1 Hs1. scan_rule. apply wp_bind, wp_repeatable; [apply Hsc1| |].
  - by apply (start_ok s).
  - intros s2 Hs2 He _ _. apply wp_ret. by split_and!.
Qed.

Lemma partner_loop_stays fuel c ahead s : (left s - ahead < fuel)%nat → wp (partner_loop fuel c ahead) s (λ _ s', s' = s).
Proof.
  revert ahead. induction fuel as [|fuel IH]; intros ahead Hf; [lia|]. cbn [partner_loop]. apply wp_bind, wp_asks.
  destruct (source s !! (pos s + ahead)%nat) as [d|] eqn:E; [|by apply wp_ret]. destruct (d =? 10); [by apply wp_ret|].
  destruct (is_partner c d); [by apply wp_ret|]. apply IH. apply lookup_lt_Some in E. unfold left in *. lia.
Qed.

Lemma advance_times_step n start s : scanning start s → wp (advance_times n) s (goes_on s).
Proof.
  revert s. induction n as [|n IH]; intros s Hsc; [by eapply goes_on_done|]. cbn [advance_times].
  eapply rule_advance; [apply _|exact Hsc|]. intros o s1 Hsc1 _ _. by apply IH.
Qed.

Lemma quotation_gives c start s : scanning start s → wp (scan_quotation c start) s (gives start s).
Proof.
  intros Hsc. unfold scan_quotation. apply wp_bind. eapply wp_mono; [apply wp_unexpected; apply Hsc|]. intros e s1 He.
  assert (scanning start s1) as Hsc1 by (eapply scanning_step; [done|apply He]).
  apply wp_bind, wp_asks, wp_bind. eapply wp_mono; [apply partner_loop_stays; lia|]. intros p s' ->. apply wp_bind.
  destruct p as [p|]; [|by do 2 apply wp_ret]. eapply wp_mono; [by eapply (advance_times_step _ start)|]. intros ? s2 Hs2.
  apply wp_ret. by eapply gives_then.
Qed.

Lemma stray_gives c start s : scanning start s → wp (scan_stray alphanumeric c start) s (gives start s).
Proof.
  intros Hsc. unfold scan_stray. eapply rule_flags; [apply _|exact Hsc|]. intros s1 Hsc1 _.
  apply wp_bind. eapply wp_mono; [apply wp_unexpected; apply Hsc1|]. intros e s2 He.
  apply wp_bind, wp_read_while; [apply He|]. intros cs s3 Hs3 _ _ _ _. apply wp_ret. by eapply gives_then.
Qed.

(** ** A token by its first character *)
Lemma if_next_gives c two one start s : scanning start s → is_error two = false → is_eof two = false → is_error one = false → is_eof one = false →
  wp (if_next c two one start) s (gives start s).
Proof. intros Hsc ? ? ? ?. unfold if_next. scan_rule. scan_rule; [scan_rule|]; by apply gives_done. Qed.

Lemma open_brace_gives t start s : scanning start s → is_error t = false → is_eof t = false → wp (open_brace t start) s (gives start s).
Proof.
  intros Hsc He Hf. unfold open_brace. apply wp_bind, wp_does. assert (step s (with_braces (interp_stack s) (interpolations s) (S (brace_depth s)) s)) as Hs.
  { apply braces_step; apply Hsc. }
  apply wp_ret. eapply gives_step; [exact Hs|]. by apply gives_plain; [apply Hs|..].
Qed.

Lemma plain_token_plain c k : find (λ k : N * Token, k.1 =? c) plain_tokens = Some k → is_error k.2 = false ∧ is_eof k.2 = false.
Proof.
  intros [Hk _]%find_some. assert (Forall (λ k : N * Token, is_error k.2 = false ∧ is_eof k.2 = false) plain_tokens) as H by (repeat constructor).
  rewrite Forall_forall in H. apply H. by apply list_elem_of_In.
Qed.

(** The token behind the end of an interpolation starts behind the brace. *)
Definition token_from (c : N) (start : Span) (s : Lexer) (ts : Scanned) (s' : Lexer) : Prop :=
  ∃ st, gives st s ts s' ∧ (st = start ∨ (c = ch "}" ∧ span_ok (byte_offset s) st ∧ sp_start st = byte_offset s)).

Lemma gives_token c start s (m : Scan Scanned) : wp m s (gives start s) → wp m s (token_from c start s).
Proof. intros H. eapply wp_mono; [exact H|]. intros ts s' Hg. exists start. split; [done|by left]. Qed.

Lemma close_brace_token start s : scanning start s → wp (close_brace alphanumeric start) s (token_from (ch "}") start s).
Proof.
  intros Hsc. unfold close_brace. apply wp_bind, wp_asks, wp_bind, wp_asks.
  assert (∀ st i d, Forall (λ p, span_ok (byte_offset s) p.2) st → step s (with_braces st i d s)) as Hb by (intros; apply braces_step; [apply Hsc|done]).
  assert (∀ d, wp (_ ← does (λ s, with_braces (interp_stack s) (interpolations s) d s); mret (RBrace, start)) s (token_from (ch "}") start s)) as Hplain.
  { intros d. apply gives_token, wp_bind, wp_does, wp_ret. assert (step s (with_braces (interp_stack s) (interpolations s) d s)) as Hs by apply Hb, Hsc.
    eapply gives_step; [exact Hs|]. by apply gives_plain; [apply Hs|..]. }
  destruct (interp_stack s) as [|[depth opened] st] eqn:E; [apply Hplain|]. case_match; [|apply Hplain].
  pose proof (g_stack _ (proj1 Hsc)) as Hst. rewrite E in Hst. apply Forall_cons in Hst as [Hop Hst]. cbn in Hop.
  apply wp_bind, wp_does. set (s1 := with_braces _ _ _ _). assert (step s s1) as Hs1 by (apply Hb, Hst).
  apply wp_bind, wp_here; [apply Hs1|]. intros sp Hsp Hst1 _ _. eapply wp_mono.
  - apply scan_string_gives; [split; [apply Hs1|done]|]. split; [apply Hs1|exact Hop].
  - intros ts s2 Hg. exists sp. split; [by eapply gives_step|]. right. by split_and!.
Qed.

Lemma scan_token_from again c start s : scanning start s → (c = ch "-" → source s !! pos s ≠ Some (ch "-")) →
  wp (scan_token alphanumeric again c start) s (token_from c start s).
Proof.
  intros Hsc Hdash. unfold scan_token. apply wp_bind, wp_asks, wp_bind, wp_asks.
  destruct (c =? 34).
  { apply gives_token. repeat scan_rule; [by apply scan_triple_gives|by apply scan_string_gives]. }
  destruct (is_digit c); [by apply gives_token, number_gives|].
  destruct (_ || _); [by apply gives_token, ident_gives|].
  destruct (find _ plain_tokens) as [k|] eqn:Ek; [apply plain_token_plain in Ek as [??]; by apply gives_token, gives_done|].
  destruct (c =? ch ":"); [by apply gives_token, if_next_gives|].
  destruct (_ && _); [apply gives_token; scan_rule; by apply open_brace_gives|].
  destruct (_ && _); [apply gives_token; scan_rule; by apply gives_done|].
  destruct (c =? ch "{"); [by apply gives_token, open_brace_gives|].
  destruct (c =? ch "}") eqn:Eb; [apply N.eqb_eq in Eb as ->; by apply close_brace_token|].
  destruct (c =? ch "-") eqn:Ed.
  { apply N.eqb_eq in Ed. specialize (Hdash Ed). apply gives_token. destruct (sees (ch ">") _); [scan_rule; by apply gives_done|].
    destruct (source s !! pos s) as [d|]; [|by apply gives_done]. cbn [sees is_some_and].
    destruct (ch "-" =? d) eqn:E; [apply N.eqb_eq in E as <-; done|]. by apply gives_done. }
  apply gives_token. repeat scan_rule; try (by apply if_next_gives); try (by apply gives_done).
  - by apply word_gives.
  - by apply quotation_gives.
  - by apply stray_gives.
Qed.
End scans.

(** * What is between the tokens (src/lexer.rs)

    White space, comments and semicolons, the next token behind them, and
    the tokens of a text one after the other. *)

(** ** Comments in order *)
Lemma comments_lower f g cs e : comments_in_order g cs = Some e → f <= g → ∃ e', comments_in_order f cs = Some e' ∧ e' <= e ∧ (cs = [] → e' = f).
Proof.
  destruct cs as [|c cs]; cbn; intros H Hfg.
  - injection H as <-. exists f. done.
  - destruct (_ && _) eqn:E in H; [|done]. apply andb_true_iff in E as [E1 E2]. apply N.leb_le in E1. exists e.
    rewrite (proj2 (N.leb_le f _)) by lia. rewrite E2. cbn. done.
Qed.

Lemma comments_app f a b e : comments_in_order f a = Some e → comments_in_order f (a ++ b) = comments_in_order e b.
Proof.
  revert f. induction a as [|c a IH]; intros f; cbn; [by intros [= ->]|]. destruct (_ && _); [apply IH|done].
Qed.

Lemma comments_end f cs e : comments_in_order f cs = Some e → f <= e.
Proof.
  revert f. induction cs as [|c cs IH]; intros f; cbn; [intros [= ->]; lia|].
  destruct (_ && _) eqn:E; [|done]. apply andb_true_iff in E as [E1 E2]. apply N.leb_le in E1, E2. intros H%IH. lia.
Qed.

Section tokens.
Context (alphanumeric : N → bool) (src : text).
Hypothesis small : byte_len src < 2 ^ 32.
Notation good := (good src).
Notation step := (step src).

(** Characters that are in no token. *)
Definition is_free (c : N) : bool := (c =? ch " ") || (c =? 9) || (c =? 13) || (c =? 10) || (c =? ch ";").
Definition in_comment (o : N) (cs : list Comment) : Prop := ∃ c, c ∈ cs ∧ sp_start (c_span c) <= o < sp_end (c_span c).

(** Between two states lie comments, white space and semicolons. *)
Record passed (s s' : Lexer) (new : list Comment) : Prop := {
  p_good : good s';
  p_comments : read_comments s' = read_comments s ++ new;
  p_gap : gap_comments s' = gap_comments s;
  p_count : (pos s + length new <= pos s')%nat;
  p_errors : (length (errors s) <= length (errors s'))%nat;
  p_more : more_errors s <= more_errors s';
  p_order : ∃ e, comments_in_order (byte_offset s) new = Some e ∧ e <= byte_offset s';
  p_free : ∀ i c, (pos s <= i < pos s')%nat → src !! i = Some c → is_free c = true ∨ in_comment (offset_of src i) new;
}.

Lemma passed_offset s s' new : good s → passed s s' new → byte_offset s <= byte_offset s'.
Proof.
  intros Hg Hp. rewrite (g_offset _ _ Hg), (g_offset _ _ (p_good _ _ _ Hp)). apply offset_mono. pose proof (p_count _ _ _ Hp). lia.
Qed.

Lemma passed_trans s1 s2 s3 a b : good s1 → passed s1 s2 a → passed s2 s3 b → passed s1 s3 (a ++ b).
Proof.
  intros Hg H1 H2. pose proof (passed_offset _ _ _ Hg H1). pose proof (passed_offset _ _ _ (p_good _ _ _ H1) H2).
  pose proof (p_count _ _ _ H1). pose proof (p_count _ _ _ H2). split.
  - apply H2.
  - rewrite (p_comments _ _ _ H2), (p_comments _ _ _ H1). by rewrite app_assoc.
  - rewrite (p_gap _ _ _ H2). apply H1.
  - rewrite length_app. lia.
  - pose proof (p_errors _ _ _ H1). pose proof (p_errors _ _ _ H2). lia.
  - pose proof (p_more _ _ _ H1). pose proof (p_more _ _ _ H2). lia.
  - destruct (p_order _ _ _ H1) as (e1 & He1 & Hle1). destruct (p_order _ _ _ H2) as (e2 & He2 & Hle2).
    rewrite (comments_app _ _ _ _ He1). destruct (comments_lower e1 _ _ _ He2 Hle1) as (e & He & Hle & _). exists e. split; [done|lia].
  - intros i c Hi Hc. destruct (decide (i < pos s2)%nat).
    + destruct (p_free _ _ _ H1 i c) as [?|(x & Hx & ?)]; [lia|done|by left|]. right. exists x. set_solver.
    + destruct (p_free _ _ _ H2 i c) as [?|(x & Hx & ?)]; [lia|done|by left|]. right. exists x. set_solver.
Qed.

Lemma passed_refl s : good s → passed s s [].
Proof. intros Hg. split; try done; [by rewrite app_nil_r|cbn; lia|exists (byte_offset s); split; [done|lia]|]. intros i c Hi. lia. Qed.

(** A step over characters that are free. *)
Lemma passed_step s s' : good s → step s s' → (∀ i c, (pos s <= i < pos s')%nat → src !! i = Some c → is_free c = true) → passed s s' [].
Proof.
  intros Hg Hs Hf. pose proof (step_offset _ _ _ Hg Hs). destruct Hs as [Hg' Hc]. split.
  - done.
  - rewrite app_nil_r. apply Hc.
  - apply Hc.
  - cbn. pose proof (c_pos _ _ Hc). lia.
  - apply Hc.
  - apply Hc.
  - exists (byte_offset s). done.
  - intros i c Hi Hi'. left. by eapply Hf.
Qed.

(** What is between tokens changes the count of line breaks too. *)
Lemma passed_newlines s s' new nl : passed s s' new → passed s (with_trivia (read_comments s') nl (gap_comments s') s') new.
Proof. intros []. split; try done. by apply trivia_good. Qed.

Lemma white_passed fuel s : good s → (left s < fuel)%nat → wp (white_loop fuel) s (λ _ s', passed s s' []).
Proof.
  revert s. induction fuel as [|fuel IH]; intros s Hg Hf; [lia|]. cbn [white_loop]. apply wp_bind, wp_asks.
  destruct (source s !! pos s) as [c|] eqn:E; [|by apply wp_ret, passed_refl].
  assert (∀ s0, good s0 → pos s0 = pos s → source s0 = source s → is_free c = true → passed s s0 [] →
    wp (_ ← advance_char; white_loop fuel) s0 (λ _ s', passed s s' [])) as Hgo.
  { intros s0 Hg0 Hp0 Hs0 Hc H0. apply wp_bind. eapply (wp_advance _ small); [done|by rewrite Hs0, Hp0|]. intros s1 Hs1 Hp1 _ _.
    assert (passed s0 s1 []) as H1.
    { apply passed_step; [done|done|]. intros i d Hi Hd. assert (i = pos s) as -> by lia. rewrite (g_source _ _ Hg) in E. congruence. }
    eapply wp_mono; [apply IH; [apply Hs1|]|].
    - pose proof (left_step _ small _ _ Hg0 Hs1). unfold left in *. rewrite Hs0, Hp0 in *. lia.
    - intros ? s2 H2. apply (passed_trans s s0 s2 [] []); [done|done|]. by apply (passed_trans s0 s1 s2 [] []). }
  destruct (_ || _ || _) eqn:Ec; [|destruct (c =? 10) eqn:En; [|by apply wp_ret, passed_refl]].
  - apply Hgo; [done..| |by apply passed_refl]. unfold is_free. rewrite Ec. done.
  - apply wp_bind, wp_does. apply Hgo; [by apply trivia_good|done|done| |by apply passed_newlines, passed_refl].
    unfold is_free. rewrite En. by rewrite orb_true_r.
Qed.

Lemma whitespace_passed s : good s → wp skip_whitespace s (λ _ s', passed s s' []).
Proof. intros Hg. unfold skip_whitespace. apply wp_bind, wp_asks. apply white_passed; [done|lia]. Qed.

(** A comment that was read from [s] to [s']. *)
Lemma recorded_passed k start s s' : good s → step s s' → (pos s < pos s')%nat → span_ok (byte_offset s) start → sp_start start = byte_offset s →
  wp (record_comment k start) s' (λ _ s'', passed s s'' [mkComment k (since_in start s') (gap_newlines s')]).
Proof.
  intros Hg Hs Hp Hk Hst. pose proof (step_offset _ _ _ Hg Hs). pose proof Hs as [Hg' Hc]. apply wp_does.
  destruct (since_ok _ small s' start Hg') as (_ & H1 & H2); [by apply (start_ok _ small s)|]. split.
  - by apply trivia_good.
  - cbn. by rewrite (c_comments _ _ Hc).
  - apply Hc.
  - cbn. lia.
  - apply Hc.
  - apply Hc.
  - exists (byte_offset s'). cbn [comments_in_order c_span]. rewrite H1, H2, Hst. rewrite !(proj2 (N.leb_le _ _)) by lia. done.
  - intros i c Hi Hic. right. eexists. split; [by left|]. cbn [c_span]. rewrite H1, H2, Hst, (g_offset _ _ Hg), (g_offset _ _ Hg').
    split; [apply offset_mono; lia|]. apply offset_strict; [cbn in Hi; lia|]. by eapply lookup_lt_Some.
Qed.

(** ** White space, comments and semicolons *)
Lemma line_comment_step s : good s → source s !! pos s = Some (ch "-") → wp skip_line_comment s (λ _ s', step s s' ∧ (pos s < pos s')%nat).
Proof.
  intros Hg Hc. apply wp_bind. unfold read_while. apply wp_bind, wp_asks. cbn [while_loop]. apply wp_bind, wp_asks. rewrite Hc. cbn [negb].
  change (negb (ch "-" =? 10)) with true. apply wp_bind. eapply (wp_advance _ small); [done..|]. intros s1 Hs1 Hp1 _ _.
  apply wp_bind, (wp_while_loop _ small); [apply Hs1| |].
  - pose proof (left_step _ small _ _ Hg Hs1). lia.
  - intros cs s2 Hs2 _ _ _ _. do 2 apply wp_ret. split; [by eapply (step_trans _ small)|]. destruct Hs2 as [_ Hc2]. pose proof (c_pos _ _ Hc2). lia.
Qed.

(** A comment that is not closed is an error. *)
Lemma block_loop_step fuel depth start s : good s → span_ok (byte_offset s) start → (left s < fuel)%nat →
  wp (block_loop fuel depth start) s (λ closed s', step s s' ∧ (closed = false → errors s' ≠ [])).
Proof.
  revert depth s. induction fuel as [|fuel IH]; intros depth s Hg Hk Hf; [lia|].
  destruct depth as [|d]; [apply wp_ret; split; [by apply step_refl|done]|]. cbn [block_loop].
  apply wp_bind, (wp_advance_any _ small); [done|..].
  - intros s1 Hs1 _ ->. apply wp_bind, wp_asks, wp_bind, wp_does, wp_bind. set (s2 := with_flags _ _ _ _).
    assert (step s s2) as Hs2 by (by apply flags_step). apply (wp_error _ small); [apply Hs2|by apply (start_ok _ small s)|].
    intros s3 Hs3 He _ _. apply wp_ret. split; [by eapply step_trans|done].
  - intros c s1 Hs1 Hc Hp. apply wp_bind, wp_asks.
    assert (left s1 < left s)%nat as Hl by (apply (left_step _ small); [done|done|lia]).
    assert (∀ s2 d', step s s2 → (left s2 < left s)%nat → wp (block_loop fuel d' start) s2 (λ closed s', step s s' ∧ (closed = false → errors s' ≠ []))) as Hgo.
    { intros s2 d' Hs2 Hl2. eapply wp_mono; [apply IH; [apply Hs2|by apply (start_ok _ small s)|lia]|]. intros b s3 [Hs3 He]. split; [by eapply step_trans|done]. }
    assert (∀ d', wp (_ ← advance_char; block_loop fuel d' start) s1 (λ closed s', step s s' ∧ (closed = false → errors s' ≠ []))) as Hadv.
    { intros d'. apply wp_bind, (wp_advance_any _ small); [apply Hs1|..].
      - intros s2 Hs2 _ ->. by apply Hgo.
      - intros c' s2 Hs2 _ Hp2. apply Hgo; [by eapply step_trans|]. pose proof (left_mono _ small _ _ (proj1 Hs1) Hs2). lia. }
    repeat (case_match; [apply Hadv|]). by apply Hgo.
Qed.

Lemma block_comment_step s : good s → wp skip_block_comment s (λ closed s', step s s' ∧ (closed = false → errors s' ≠ [])).
Proof.
  intros Hg. apply wp_bind, (wp_here _ small); [done|]. intros sp Hsp _ _ _. apply wp_bind, wp_asks. apply block_loop_step; [done..|lia].
Qed.

(** A token that starts at [s1], or behind the brace there. *)
Record token_at (s1 : Lexer) (ts : Scanned) (s' : Lexer) : Prop := {
  t_step : step s1 s';
  t_start : sp_start ts.2 = byte_offset s1 ∨ (src !! pos s1 = Some (ch "}") ∧ sp_start ts.2 = byte_offset s1 + 1);
  t_span : span_ok (byte_offset s') ts.2;
  t_error : is_error ts.1 = true → errors s' ≠ [];
  t_eof : is_eof ts.1 = true → pos s1 = length src ∧ s' = s1;
  t_some : is_eof ts.1 = false → (pos s1 < pos s')%nat;
}.
Definition trivia_then (s : Lexer) (o : option Scanned) (s' : Lexer) : Prop :=
  match o with
  | None => ∃ new, passed s s' new ∧ sees (ch "-") (source s' !! pos s') && sees (ch "-") (source s' !! (pos s' + 1)%nat) = false
  | Some ts => ∃ s1 new, passed s s1 new ∧ token_at s1 ts s' ∧ is_eof ts.1 = false
  end.

Lemma trivia_then_passed s s1 new o s' : good s → passed s s1 new → trivia_then s1 o s' → trivia_then s o s'.
Proof.
  intros Hg H1. destruct o as [ts|]; cbn.
  - intros (s2 & more & H2 & ?). exists s2, (new ++ more). split; [by eapply passed_trans|done].
  - intros (more & H2 & ?). exists (new ++ more). split; [by eapply passed_trans|done].
Qed.

(** Behind a comment or a semicolon. *)
Lemma trivia_again fuel s s1 new : (∀ s, good s → (left s < fuel)%nat → wp (trivia_loop fuel) s (trivia_then s)) →
  good s → (left s < S fuel)%nat → passed s s1 new → (pos s < pos s1)%nat → wp (_ ← skip_whitespace; trivia_loop fuel) s1 (trivia_then s).
Proof.
  intros IH Hg Hf H1 Hp. apply wp_bind. eapply wp_mono; [apply whitespace_passed, H1|]. intros ? s2 H2. cbn in H2.
  pose proof (passed_trans _ _ _ _ _ Hg H1 H2) as H12. eapply wp_mono; [apply IH; [apply H2|]|].
  - unfold left in *. pose proof (p_count _ _ _ H2). pose proof (g_pos _ _ (p_good _ _ _ H2)). rewrite (g_source _ _ Hg) in Hf.
    rewrite (g_source _ _ (p_good _ _ _ H2)). lia.
  - intros o s3. by apply trivia_then_passed with (new := new ++ []).
Qed.

Lemma semicolons_passed s (f : unit → Scan (option Scanned)) (Q : option Scanned → Lexer → Prop) : good s → source s !! pos s = Some (ch ";") →
  (∀ s', passed s s' [] → (pos s < pos s')%nat → wp (f tt) s' Q) →
  wp (start ← here;
      _ ← does (λ s, with_flags (cut_short s) (quotes_off s) (semicolons s ++ [sp_start start]) s);
      _ ← advance_char;
      sp ← since start;
      _ ← read_while (N.eqb (ch ";"));
      _ ← repeatable_error (str "a semicolon") (diagnostic UnexpectedChar sp Semicolons);
      x ← does (λ s, with_trivia (read_comments s) (N.min (gap_newlines s + 1) 2) (gap_comments s) s);
      f x) s Q.
Proof.
  intros Hg Hc Hf. apply wp_bind, (wp_here _ small); [done|]. intros start Hk _ _ _. apply wp_bind, wp_does. set (s1 := with_flags _ _ _ _).
  assert (step s s1) as Hs1 by (by apply flags_step). apply wp_bind, (wp_advance _ small _ (ch ";")); [apply Hs1|done|].
  intros s2 Hs2 Hp2 _ _. assert (step s s2) as Hs12 by (by eapply (step_trans _ small)).
  apply wp_bind, (wp_since _ small); [apply Hs2|by apply (start_ok _ small s)|]. intros sp Hsp.
  apply wp_bind, (wp_read_while _ small); [apply Hs2|]. intros cs s3 Hs3 _ _ Hcs [Hp3 Hread].
  apply wp_bind, (wp_repeatable _ small); [apply Hs3|by apply (start_ok _ small s2); [apply Hs2|..]|]. intros s4 Hs4 _ Hp4 _.
  apply wp_bind, wp_does. apply Hf; [|cbn in *; lia]. apply passed_newlines, passed_step; [done| |].
  - eapply (step_trans _ small); [exact Hs12|]. by eapply (step_trans _ small).
  - intros i c Hi Hic. cbn in Hp2. destruct (decide (i = pos s)) as [->|Hne].
    + rewrite (g_source _ _ Hg) in Hc. assert (c = ch ";") as -> by congruence. done.
    + rewrite Forall_forall in Hcs. assert (c ∈ cs) as Hin; [|specialize (Hcs c Hin); apply N.eqb_eq in Hcs as <-; done].
      rewrite <-Hread. apply list_elem_of_lookup. exists (i - pos s2)%nat.
      rewrite lookup_take_lt, lookup_drop by lia. by replace (pos s2 + (i - pos s2))%nat with i by lia.
Qed.

Lemma sees_some c o : sees c o = true → o = Some c.
Proof. destruct o as [d|]; [|done]. cbn. by intros ->%N.eqb_eq. Qed.

(** What is done behind a comment in braces. *)
Lemma block_recorded fuel closed start s s3 : (∀ s, good s → (left s < fuel)%nat → wp (trivia_loop fuel) s (trivia_then s)) →
  good s → (left s < S fuel)%nat → step s s3 → (pos s < pos s3)%nat → span_ok (byte_offset s) start → sp_start start = byte_offset s →
  (closed = false → errors s3 ≠ []) →
  wp (if negb closed && (0 <? more_errors s3) then mret (Some (Error, start))
      else _ ← record_comment Block start; _ ← skip_whitespace; trivia_loop fuel) s3 (trivia_then s).
Proof.
  intros IH Hg Hf Hs Hp Hk Hst He. destruct (negb closed && _) eqn:E.
  - apply andb_true_iff in E as [E%negb_true_iff _]. apply wp_ret. exists s, []. split; [by apply passed_refl|]. split; [|done]. split; try done.
    + by left.
    + by apply (start_ok _ small s).
    + intros _. by apply He.
  - apply wp_bind. eapply wp_mono; [by apply (recorded_passed Block start s s3)|]. intros [] s4 H4. eapply trivia_again; [done..|exact H4|].
    pose proof (p_count _ _ _ H4). cbn in *. lia.
Qed.

Lemma trivia_loop_then fuel s : good s → (left s < fuel)%nat → wp (trivia_loop fuel) s (trivia_then s).
Proof.
  revert s. induction fuel as [|fuel IH]; intros s Hg Hf; [lia|]. cbn [trivia_loop]. apply wp_bind, wp_asks, wp_bind, wp_asks.
  destruct (sees (ch "-") _ && sees (ch "-") _) eqn:Ed.
  { apply andb_true_iff in Ed as [Ed _]. apply sees_some in Ed. apply wp_bind, (wp_here _ small); [done|]. intros start Hk Hst _ _.
    apply wp_bind. eapply wp_mono; [by apply line_comment_step|]. intros ? s1 [Hs1 Hlt]. apply wp_bind.
    eapply wp_mono; [by apply (recorded_passed Line start s s1)|]. intros [] s2 H2. eapply trivia_again; [done|done|done|exact H2|].
    pose proof (p_count _ _ _ H2). cbn in *. lia. }
  destruct (sees (ch "{") _ && _) eqn:Eb.
  { apply andb_true_iff in Eb as [Eb _]. apply sees_some in Eb. apply wp_bind, (wp_here _ small); [done|]. intros start Hk Hst _ _.
    apply wp_bind. eapply (wp_advance _ small); [done..|]. intros s1 Hs1 Hp1 _ _.
    apply wp_bind, (wp_advance_any _ small); [apply Hs1|..].
    1: intros s2 Hs2 _ _. 2: intros c s2 Hs2 _ _.
    all: assert (step s s2) as Hs12 by (by eapply (step_trans _ small)); assert (pos s < pos s2)%nat as Hlt by (destruct Hs2 as [_ Hc2]; pose proof (c_pos _ _ Hc2); lia).
    all: apply wp_bind; eapply wp_mono; [by eapply block_comment_step, Hs12|]; intros closed s3 [Hs3 He]; apply wp_bind, wp_asks.
    all: assert (step s s3) as Hs13 by (by eapply (step_trans _ small)).
    all: assert (pos s < pos s3)%nat as Hlt3 by (destruct Hs3 as [_ Hc3]; pose proof (c_pos _ _ Hc3); lia).
    all: by apply block_recorded. }
  destruct (sees (ch ";") _) eqn:Es; [|by apply wp_ret; exists []; split; [by apply passed_refl|]].
  apply sees_some in Es. eapply semicolons_passed; [done..|]. intros s1 H1 Hp. by apply (trivia_again fuel s s1 []).
Qed.

(** ** The next token *)
Definition found (s : Lexer) (ts : Scanned) (s' : Lexer) : Prop := ∃ s1 new, passed s s1 new ∧ token_at s1 ts s'.

Lemma token_found c start s1 s2 ts s3 : good s1 → step s1 s2 → source s1 !! pos s1 = Some c → pos s2 = S (pos s1) →
  span_ok (byte_offset s1) start → sp_start start = byte_offset s1 → token_from src c start s2 ts s3 → token_at s1 ts s3.
Proof.
  intros Hg Hs Hc Hp Hk Hst (st & (Hs3 & Hts & He & Hf) & Hwhere). rewrite (g_source _ _ Hg) in Hc. assert (pos s1 < pos s3)%nat.
  { destruct Hs3 as [_ Hc3]. pose proof (c_pos _ _ Hc3). lia. }
  split; try done.
  - by eapply (step_trans _ small).
  - rewrite Hts. destruct Hwhere as [->|(-> & _ & ->)]; [by left|right; split; [done|]].
    rewrite (g_offset _ _ (proj1 Hs)), (g_offset _ _ Hg), Hp. by rewrite (offset_succ _ _ _ Hc).
  - rewrite Hts. apply (start_ok _ small s2); [apply Hs|done|]. destruct Hwhere as [->|(_ & ? & _)]; [|done]. by apply (start_ok _ small s1).
  - by rewrite Hf.
Qed.

Lemma next_token_found fuel s : good s → wp (next_token alphanumeric (S fuel)) s (found s).
Proof.
  intros Hg. cbn [next_token]. apply wp_bind. eapply wp_mono; [by apply whitespace_passed|]. intros ? s0 H0. cbn in H0.
  apply wp_bind, wp_asks, wp_bind. eapply wp_mono; [apply trivia_loop_then; [apply H0|lia]|]. intros o s1 H1.
  apply (trivia_then_passed _ _ _ _ _ Hg H0) in H1. destruct o as [ts|].
  { destruct H1 as (s2 & new & H2 & Ht & _). apply wp_ret. by exists s2, new. }
  destruct H1 as (new & H1 & Hdash). pose proof (p_good _ _ _ H1) as Hg1. apply wp_bind, (wp_here _ small); [done|]. intros start Hk Hst Hend _.
  apply wp_bind. destruct (source s1 !! pos s1) as [c|] eqn:Ec.
  - eapply (wp_advance _ small); [done..|]. intros s2 Hs2 Hp2 _ _. eapply wp_mono.
    + apply (scan_token_from alphanumeric src small); [split; [apply Hs2|by apply (start_ok _ small s1)]|].
      intros -> Hd. rewrite (g_source _ _ (proj1 Hs2)), Hp2 in Hd. rewrite (g_source _ _ Hg1), Nat.add_1_r, Hd in Hdash. done.
    + intros ts s3 H3. exists s1, new. split; [done|]. by eapply token_found.
  - exists None, s1. unfold advance_char. rewrite Ec. split; [done|]. apply wp_ret. exists s1, new. split; [done|].
    rewrite (g_source _ _ Hg1) in Ec. apply lookup_ge_None in Ec. pose proof (g_pos _ _ Hg1). split; try done.
    + by left.
    + intros _. split; [lia|done].
Qed.

(** ** The tokens laid over the text *)
Notation offset := (offset_of src).
Definition count (cs : list Comment) : N := N.of_nat (length cs).

(** A token, with the comments in front of it, over the characters from
    [n] to [n']; [cs] are the comments before. *)
Record tok_placed (cs : list Comment) (n : nat) (new : list Comment) (t : Tok) (n' : nat) : Prop := {
  tp_comments : comments t = (count cs, count (cs ++ new));
  tp_order : ∃ e, comments_in_order (offset n) new = Some e ∧ e <= sp_start (span t);
  tp_from : offset n <= sp_start (span t);
  tp_span : sp_start (span t) <= sp_end (span t);
  tp_end : sp_end (span t) = offset n';
  tp_pos : (n <= n' <= length src)%nat;
  tp_cover : ∀ i c, (n <= i < n')%nat → src !! i = Some c →
    is_free c = true ∨ in_comment (offset i) new ∨ sp_start (span t) <= offset i ∨ (c = ch "}" ∧ offset i + 1 = sp_start (span t));
}.
Inductive laid : list Comment → nat → list Tok → list Comment → nat → Prop :=
  | laid_nil cs n : laid cs n [] cs n
  | laid_cons cs n new t n1 ts cs' n2 : tok_placed cs n new t n1 → laid (cs ++ new) n1 ts cs' n2 → laid cs n (t :: ts) cs' n2.

Lemma laid_snoc cs n ts cs1 n1 new t n2 : laid cs n ts cs1 n1 → tok_placed cs1 n1 new t n2 → laid cs n (ts ++ [t]) (cs1 ++ new) n2.
Proof. induction 1; intros Ht; cbn; econstructor; eauto. constructor. Qed.

(** The end of a token may be put off to where the text goes on. *)
Lemma placed_longer cs n new t n1 n2 sp : tok_placed cs n new t n1 → (n1 <= n2 <= length src)%nat →
  sp_start sp = sp_start (span t) → sp_end sp = offset n2 → tok_placed cs n new (mkTok (kind t) sp (newlines_before t) (comments t)) n2.
Proof.
  intros [Hc Ho Hf Hs He Hp Hv] Hn Hst Hend. pose proof (offset_mono src n1 n2 (proj1 Hn)). split; cbn; rewrite ?Hst, ?Hend; try done; try lia.
  intros i c Hi Hic. destruct (decide (i < n1)%nat); [apply Hv; [lia|done]|]. right. right. left.
  pose proof (offset_mono src n1 i). lia.
Qed.

(** Comments are no more than characters. *)
Record at_boundary (s : Lexer) : Prop := {
  b_good : good s;
  b_gap : gap_comments s = count (read_comments s);
  b_few : (length (read_comments s) <= pos s)%nat;
}.

Lemma count_u32 s : good s → (length (read_comments s) <= pos s)%nat → u32 (count (read_comments s)) = count (read_comments s).
Proof.
  intros Hg Hf. apply N.mod_small. pose proof (g_pos _ _ Hg). pose proof (byte_len_length src). unfold count. lia.
Qed.

(** What [push_token] makes of a token that was found. *)
Lemma pushed s ts s' k nl : at_boundary s → found s ts s' → ∃ new,
  tok_placed (read_comments s) (pos s) new (mkTok k (since_in ts.2 s') nl (gap_comments s', u32 (count (read_comments s')))) (pos s') ∧
  read_comments s' = read_comments s ++ new ∧ (length (read_comments s') <= pos s')%nat.
Proof.
  intros [Hg Hgap Hfew] (s1 & new & H1 & Ht). exists new. pose proof (p_good _ _ _ H1) as Hg1. pose proof (t_step _ _ _ Ht) as [Hg' Hc].
  assert (read_comments s' = read_comments s ++ new) as Hcs by (rewrite (c_comments _ _ Hc); apply H1).
  pose proof (p_count _ _ _ H1) as Hn. pose proof (c_pos _ _ Hc) as Hp.
  assert (length (read_comments s') <= pos s')%nat as Hfew' by (rewrite Hcs, length_app; lia).
  split; [|by split]. destruct (since_ok _ small s' ts.2 Hg' (t_span _ _ _ Ht)) as (Hk & Hst & Hend). destruct Hk as [Hk _].
  assert (byte_offset s1 <= sp_start ts.2) as Hle by (destruct (t_start _ _ _ Ht) as [->|[_ ->]]; lia).
  pose proof (offset_mono src (pos s) (pos s1)) as Hm. rewrite (g_offset _ _ Hg1) in Hle. split; cbn; rewrite ?Hst.
  - rewrite count_u32 by done. by rewrite Hcs, (c_gap _ _ Hc), (p_gap _ _ _ H1), Hgap.
  - destruct (p_order _ _ _ H1) as (e & He & Hle'). rewrite (g_offset _ _ Hg) in He. rewrite (g_offset _ _ Hg1) in Hle'.
    exists e. split; [exact He|lia].
  - lia.
  - by rewrite <-Hst.
  - rewrite offset_u32 with (src := src) by done. apply Hg'.
  - pose proof (g_pos _ _ Hg'). lia.
  - intros i c Hi Hic. destruct (decide (i < pos s1)%nat).
    + destruct (p_free _ _ _ H1 i c) as [?|?]; [lia|done|by left|by right; left].
    + right. right. destruct (t_start _ _ _ Ht) as [->|[Hb ->]]; rewrite (g_offset _ _ Hg1).
      * left. apply offset_mono. lia.
      * destruct (decide (i = pos s1)) as [->|Hne]; [right; split; [rewrite Hb in Hic; by injection Hic as <-|done]|]. left.
        pose proof (offset_mono src (S (pos s1)) i). rewrite (offset_succ _ _ _ Hb) in *. change (len_utf8 (ch "}")) with 1 in *. lia.
Qed.

(** ** The loop *)
Definition has_error (ts : list Tok) : bool := existsb (λ t, is_error (kind t)) ts.
Definition no_eof (ts : list Tok) : Prop := Forall (λ t, is_eof (kind t) = false) ts.

Lemma has_error_snoc ts t : has_error (ts ++ [t]) = has_error ts || is_error (kind t).
Proof. unfold has_error. rewrite existsb_app. cbn. by rewrite orb_false_r. Qed.

Section loop.
Context (st : nat).

(** Before the tokens have ended. *)
Record going (ts : list Tok) (s : Lexer) : Prop := {
  go_boundary : at_boundary s;
  go_laid : laid [] st ts (read_comments s) (pos s);
  go_eof : no_eof ts;
  go_error : has_error ts = true → errors s ≠ [];
}.
(** Behind the first error that is not kept: the last token is that of
    the rest. *)
Definition counting (ts : list Tok) (s : Lexer) : Prop :=
  good s ∧ 0 < more_errors s ∧ ∃ ts0 r cs0 n0 new n1, ts = ts0 ++ [r] ∧ laid [] st ts0 cs0 n0 ∧ tok_placed cs0 n0 new r n1 ∧ (n1 <= pos s)%nat ∧
    take (length (cs0 ++ new)) (read_comments s) = cs0 ++ new ∧ gap_comments s = count (cs0 ++ new) ∧ (length (cs0 ++ new) <= n1)%nat ∧
    is_error (kind r) = true ∧ no_eof ts0.
(** All the tokens. *)
Definition finished (ts : list Tok) (s : Lexer) : Prop :=
  good s ∧ ∃ ts0 e, ts = ts0 ++ [e] ∧ laid [] st ts (read_comments s) (length src) ∧ no_eof ts0 ∧ is_eof (kind e) = true ∧
    sp_start (span e) = byte_len src ∧ (has_error ts = true → errors s ≠ []) ∧
    (0 < more_errors s → ∃ ts1 r, ts0 = ts1 ++ [r] ∧ is_error (kind r) = true ∧ sp_end (span r) = byte_len src).

Lemma kept_errors s s' : (length (errors s) <= length (errors s'))%nat → errors s ≠ [] → errors s' ≠ [].
Proof. destruct (errors s), (errors s'); cbn; done || lia. Qed.

Lemma found_later s ts s' : good s → found s ts s' → good s' ∧ (length (errors s) <= length (errors s'))%nat ∧ more_errors s <= more_errors s' ∧
  (pos s <= pos s')%nat ∧ gap_comments s' = gap_comments s ∧ (∃ new, read_comments s' = read_comments s ++ new) ∧
  (is_eof ts.1 = false → (pos s < pos s')%nat) ∧ (is_eof ts.1 = true → pos s' = length src ∧ sp_start ts.2 = byte_len src).
Proof.
  intros Hg (s1 & new & H1 & Ht). pose proof (t_step _ _ _ Ht) as [Hg' Hc]. pose proof (p_count _ _ _ H1). pose proof (c_pos _ _ Hc).
  split_and!; [done|..].
  - pose proof (p_errors _ _ _ H1). pose proof (c_errors _ _ Hc). lia.
  - pose proof (p_more _ _ _ H1). pose proof (c_more _ _ Hc). lia.
  - lia.
  - rewrite (c_gap _ _ Hc). apply H1.
  - exists new. rewrite (c_comments _ _ Hc). apply H1.
  - intros He. pose proof (t_some _ _ _ Ht He). lia.
  - intros He. destruct (t_eof _ _ _ Ht He) as [Hp ->]. split; [done|]. destruct (t_start _ _ _ Ht) as [->|[Hb _]].
    + by rewrite (g_offset _ _ Hg'), Hp, offset_end.
    + rewrite Hp in Hb. by rewrite lookup_ge_None_2 in Hb.
Qed.

Lemma going_push ts s k start s' nl : going ts s → found s (k, start) s' → is_eof k = false → going (ts ++ [mkTok k (since_in start s') nl
    (gap_comments s', u32 (count (read_comments s')))]) (with_trivia (read_comments s') 0 (u32 (count (read_comments s'))) s').
Proof.
  intros [Hb Hl He Her] Hf Hk. destruct (found_later _ _ _ (b_good _ Hb) Hf) as (Hg' & Hes & _).
  destruct (pushed _ _ _ k nl Hb Hf) as (new & Hp & Hcs & Hfew). split; cbn.
  - split; cbn; [by apply trivia_good|by apply count_u32|done].
  - rewrite Hcs at 2. eapply laid_snoc; [done|]. exact Hp.
  - apply Forall_app. by split; [|constructor].
  - rewrite has_error_snoc. cbn. intros [Her'|Her']%orb_true_iff; [by eapply kept_errors; [|apply Her]|].
    destruct Hf as (s1 & new' & _ & Ht). by apply (t_error _ _ _ Ht).
Qed.

Lemma going_cut ts s k start s' nl : going ts s → found s (k, start) s' → 0 < more_errors s' → counting (ts ++ [mkTok Error (since_in start s') nl
    (gap_comments s', u32 (count (read_comments s')))]) (with_trivia (read_comments s') 0 (u32 (count (read_comments s'))) s').
Proof.
  intros [Hb Hl He Her] Hf Hm. destruct (found_later _ _ _ (b_good _ Hb) Hf) as (Hg' & _).
  destruct (pushed _ _ _ Error nl Hb Hf) as (new & Hp & Hcs & Hfew). split; [by apply trivia_good|]. split; [done|].
  exists ts. eexists. exists (read_comments s), (pos s), new, (pos s'). cbn. rewrite <-Hcs. split_and!; try done.
  - by rewrite firstn_all.
  - by apply count_u32.
Qed.

Lemma finished_push ts s k start s' nl : going ts s → found s (k, start) s' → is_eof k = true → more_errors s' = 0 → finished (ts ++ [mkTok k (since_in start s') nl
    (gap_comments s', u32 (count (read_comments s')))]) (with_trivia (read_comments s') 0 (u32 (count (read_comments s'))) s').
Proof.
  intros [Hb Hl He Her] Hf Hk Hm. destruct (found_later _ _ _ (b_good _ Hb) Hf) as (Hg' & Hes & _ & _ & _ & _ & _ & Heof).
  destruct (Heof Hk) as [Hpos Hst]. destruct (pushed _ _ _ k nl Hb Hf) as (new & Hp & Hcs & Hfew). split; [by apply trivia_good|].
  eexists ts, _. split_and!; cbn; try done; [| |lia].
  - rewrite Hcs at 2. rewrite Hpos in Hp. eapply laid_snoc; [done|exact Hp].
  - rewrite has_error_snoc. cbn. destruct k; try done. rewrite orb_false_r. intros Her'. by eapply kept_errors; [|apply Her].
Qed.

Lemma truncated (cs0 new more : list Comment) l : take (length (cs0 ++ new)) l = cs0 ++ new → take (length (cs0 ++ new)) (l ++ more) = cs0 ++ new.
Proof. intros H. rewrite take_app_le; [done|]. pose proof (length_take l (length (cs0 ++ new))). rewrite H in *. lia. Qed.

Lemma counting_on ts s t s' : counting ts s → found s t s' →
  counting ts (with_trivia (take (N.to_nat (gap_comments s')) (read_comments s')) (gap_newlines s') (gap_comments s') s').
Proof.
  intros (Hg & Hm & ts0 & r & cs0 & n0 & new & n1 & -> & Hl & Hp & Hn & Hcs & Hgap & Hfew & Hr & He) Hf.
  destruct (found_later _ _ _ Hg Hf) as (Hg' & _ & Hm' & Hpos & Hgap' & [more Hmore] & _). split; [by apply trivia_good|]. split; [cbn; lia|].
  exists ts0, r, cs0, n0, new, n1. cbn. rewrite Hgap', Hgap. unfold count. rewrite Nat2N.id, Hmore, truncated by done.
  split_and!; try done; [lia|by rewrite firstn_all].
Qed.

Lemma counting_end ts s k start s' : counting ts s → found s (k, start) s' → is_eof k = true →
  let s2 := with_trivia (take (N.to_nat (gap_comments s')) (read_comments s')) (gap_newlines s') (gap_comments s') s' in
  let e := u32 (count (read_comments s2)) in
  finished (end_rest ts s2 ++ [mkTok k (since_in start s2) 0 (gap_comments s2, e)]) (with_trivia (read_comments s2) 0 e (with_trivia (read_comments s2) 0 (gap_comments s2) s2)).
Proof.
  intros (Hg & Hm & ts0 & r & cs0 & n0 & new & n1 & -> & Hl & Hp & Hn & Hcs & Hgap & Hfew & Hr & He) Hf Hk.
  destruct (found_later _ _ _ Hg Hf) as (Hg' & _ & Hm' & Hpos & Hgap' & [more Hmore] & _ & Heof). destruct (Heof Hk) as [Hend Hst].
  cbn [fst snd] in Hst. cbn zeta. cbn [read_comments with_trivia gap_comments gap_newlines].
  assert (take (N.to_nat (gap_comments s')) (read_comments s') = cs0 ++ new) as ->.
  { rewrite Hgap', Hgap. unfold count. by rewrite Nat2N.id, Hmore, truncated. }
  rewrite Hgap', Hgap. unfold end_rest. rewrite last_snoc, removelast_last. unfold since_in. cbn [byte_offset with_trivia].
  rewrite (offset_u32 _ small s') by done. pose proof (g_offset _ _ Hg') as Hoff. rewrite Hend in Hoff.
  assert (tok_placed cs0 n0 new (mkTok (kind r) (mkSpan (sp_file (span r)) (sp_start (span r)) (byte_offset s')) (newlines_before r) (comments r)) (length src)) as Hr'.
  { eapply placed_longer; [exact Hp|pose proof (g_pos _ _ Hg'); lia|done|done]. }
  assert (u32 (count (cs0 ++ new)) = count (cs0 ++ new)) as Hu.
  { apply N.mod_small. pose proof (byte_len_length src). pose proof (tp_pos _ _ _ _ _ Hp). unfold count. lia. }
  rewrite Hu. split; [by do 3 apply trivia_good|]. eexists (ts0 ++ [_]), _. split; [done|]. split_and!; cbn; try done.
  - rewrite <-(app_nil_r (cs0 ++ new)). eapply laid_snoc; [by eapply laid_snoc|]. split; cbn; rewrite ?app_nil_r, ?Hst; try done.
    + exists (offset (length src)). by rewrite offset_end.
    + by rewrite offset_end.
    + rewrite Hoff. by rewrite offset_end.
    + intros i c Hi. lia.
  - apply Forall_app. split; [done|]. constructor; [|done]. cbn. by destruct (kind r).
  - intros _ Hnil. pose proof (g_more _ _ Hg') as Hfull. rewrite Hnil in Hfull. assert (0 < more_errors s') as H by lia. by specialize (Hfull H).
  - intros _. exists ts0. eexists. split; [done|]. cbn. split; [done|]. by rewrite Hoff, offset_end.
Qed.

Lemma tokenize_loop_finishes fuel (cut : bool) ts s : (if cut then counting ts s else going ts s) → (left s + (if cut then 0 else 1) < fuel)%nat →
  wp (tokenize_loop alphanumeric fuel cut ts) s finished.
Proof.
  revert cut ts s. induction fuel as [|fuel IH]; intros cut ts s Hi Hf; [lia|]. cbn [tokenize_loop]. apply wp_bind, wp_asks, wp_bind.
  assert (good s) as Hg by (destruct cut; [apply Hi|apply (go_boundary _ _ Hi)]).
  eapply wp_mono; [by apply next_token_found|]. intros [k start] s' Hfound.
  pose proof (found_later _ _ _ Hg Hfound) as (Hg' & _ & _ & Hpos & _ & _ & Hsome & _). cbn [fst snd] in Hsome.
  assert (left s' <= left s ∧ (is_eof k = false → left s' < left s))%nat as [Hleft Hless].
  { unfold left. rewrite (g_source _ _ Hg), (g_source _ _ Hg'). pose proof (g_pos _ _ Hg'). split; [lia|]. intros Hlt%Hsome. lia. }
  destruct cut.
  - apply wp_bind, wp_does. destruct (is_eof k) eqn:Hk; cbn [negb].
    + apply wp_bind, wp_asks, wp_bind, wp_does. eexists _, _. split; [done|]. by apply (counting_end _ s).
    + apply IH; [by eapply counting_on|]. specialize (Hless eq_refl). unfold left in *. cbn. lia.
  - apply wp_bind, wp_asks. destruct (0 <? more_errors s') eqn:Hm.
    + apply N.ltb_lt in Hm. apply wp_bind. eexists _, _. split; [done|]. apply IH; [by eapply going_cut|]. unfold left in *. cbn. lia.
    + apply N.ltb_ge in Hm. apply wp_bind. eexists _, _. split; [done|]. destruct (is_eof k) eqn:Hk.
      * apply wp_ret. eapply finished_push; [done..|lia].
      * apply IH; [by eapply going_push|]. specialize (Hless eq_refl). unfold left in *. cbn. lia.
Qed.
End loop.
End tokens.
