(* ===== verification/LexerClaims.v ===== *)
(** * What the lexer promises (src/lexer.rs, src/fuzz_invariants.rs) *)

From S2P Require Import Prelude Int64 Float Lexer LexerFacts.
From Stdlib Require Import NArith Strings.Ascii.

Open Scope N_scope.

Section claims.
Context (alphanumeric : N → bool) (src : text).
Hypothesis small : byte_len src < 2 ^ 32.
Notation offset := (offset_of src).

(** ** The start *)
Lemma new_going f : going src (pos (new_lexer f src)) [] (new_lexer f src).
Proof.
  set (s0 := mkLexer f src 0 0 [] [] 0 [] 0 0 [] 0 false false ∅ []).
  assert (good src s0) as Hg by (split; cbn; try done; try lia; try constructor; apply map_Forall_empty).
  assert (good src (new_lexer f src)) as Hg'.
  { unfold new_lexer. destruct (src !! 0%nat) as [c|] eqn:E; [|done]. destruct (c =? 65279); [|done].
    pose proof (offset_succ _ _ _ E) as Ho. change (offset 0) with 0 in Ho. rewrite N.add_0_l in Ho. rewrite <-Ho.
    apply (placed_good _ small s0); [done|]. apply lookup_lt_Some in E. cbn. lia. }
  assert (read_comments (new_lexer f src) = [] ∧ gap_comments (new_lexer f src) = 0) as [H1 H2].
  { unfold new_lexer. destruct (src !! 0%nat) as [c|]; [|done]. by destruct (c =? 65279). }
  split; [split; [done|by rewrite H1, H2|rewrite H1; cbn; lia]|rewrite H1; constructor|constructor|done].
Qed.

(** Which errors there are, and where, does not depend on the notes. *)
Lemma notes_added r es : map_Forall (λ _ v, (v.1 < length es)%nat) r → ∃ es', note_repeats r es = Some es' ∧ d_span <$> es' = d_span <$> es.
Proof.
  intros Hr. unfold note_repeats. assert (∀ l es0, (∀ w, w ∈ l → (w.2.1 < length es0)%nat) → ∃ es', foldl (λ acc (w : text * (nat * nat)), es ← acc;
    let '(written, (i, more)) := w in
    if (more =? 0)%nat then Some es
    else d ← (es : list Diagnostic) !! i; Some (<[i := mkDiagnostic (d_code d) (d_span d) (d_message d) (d_notes d ++ [WrittenAgain written more])]> es))
    (Some es0) l = Some es' ∧ d_span <$> es' = d_span <$> es0) as H.
  { induction l as [|[w [i more]] l IH]; intros es0 Hl; cbn [foldl]; [by exists es0|]. cbn.
    destruct (more =? 0)%nat; [apply IH; intros; apply Hl; by right|].
    destruct (lookup_lt_is_Some_2 es0 i) as [d Hd]; [apply (Hl (w, (i, more))); by left|]. rewrite Hd. cbn.
    destruct (IH (<[i:=mkDiagnostic (d_code d) (d_span d) (d_message d) (d_notes d ++ [WrittenAgain w more])]> es0)) as (es' & -> & Hs).
    - intros w' Hw'. rewrite length_insert. apply Hl. by right.
    - exists es'. split; [done|]. rewrite Hs, list_fmap_insert. cbn. apply list_insert_id. by rewrite list_lookup_fmap, Hd. }
  apply H. intros [w v] Hw. apply elem_of_map_to_list in Hw. by apply (Hr w v).
Qed.

Definition begins (f : N) : nat := pos (new_lexer f src).

Lemma lex_finishes f : ∃ l s, lex alphanumeric f src = Some l ∧ finished src (begins f) (tokens l) s ∧
  l_comments l = read_comments s ∧ l_more_errors l = more_errors s ∧ d_span <$> l_errors l = d_span <$> errors s.
Proof.
  pose proof (new_going f) as Hi. destruct (tokenize_loop_finishes alphanumeric src small (begins f) (S (S (S (left (new_lexer f src))))) false [] (new_lexer f src) Hi)
    as (ts & s & Hts & Hf); [lia|]. unfold lex, tokenize. rewrite Hts. cbn.
  destruct (notes_added (repeats s) (errors s)) as (es & -> & Hes); [apply Hf|]. cbn. eexists. exists s. split_and!; [done..|exact Hes].
Qed.

(** ** The invariants *)
Lemma laid_end cs n ts cs' n' : laid src cs n ts cs' n' → ∃ more, cs' = cs ++ more.
Proof.
  induction 1 as [cs n|cs n new t n1 ts cs' n2 _ _ [more ->]]; [exists []; by rewrite app_nil_r|]. exists (new ++ more). by rewrite app_assoc.
Qed.

Lemma laid_in_order cs n ts e cs' n' prev : laid src cs n (ts ++ [e]) cs' n' → no_eof ts → is_eof (kind e) = true → sp_start (span e) = byte_len src →
  match prev with Some p => sp_start p <= sp_end p ∧ sp_end p <= offset n | None => True end →
  tokens_in_order (byte_len src) prev false (ts ++ [e]) = true.
Proof.
  revert cs n prev. induction ts as [|t ts IH]; intros cs n prev Hl Hne He Hst Hprev; cbn in Hl; inversion Hl as [|? ? new ? n1 ? ? ? Hp Hl']; subst.
  - pose proof (offset_le src n1). destruct Hp. cbn. rewrite He, Hst, N.eqb_refl, !(proj2 (N.leb_le _ _)) by lia. cbn.
    destruct prev as [p|]; [|done]. rewrite !(proj2 (N.leb_le _ _)) by lia. done.
  - apply Forall_cons in Hne as [Ht Hne]. pose proof (offset_le src n1). cbn [app tokens_in_order]. rewrite Ht.
    rewrite (IH _ _ (Some (span t)) Hl' Hne He Hst) by (destruct Hp; lia). destruct Hp. rewrite !(proj2 (N.leb_le _ _)) by lia.
    destruct prev as [p|]; [|done]. rewrite !(proj2 (N.leb_le _ _)) by lia. done.
Qed.

Lemma slice_middle (a b c : list Comment) : slice ((a ++ b) ++ c) (count a) (count (a ++ b)) = Some b.
Proof.
  rewrite <-app_assoc. unfold slice, count. rewrite !length_app. rewrite !(proj2 (N.leb_le _ _)) by lia. cbn. f_equal. rewrite !Nat2N.id.
  rewrite drop_app_length. replace (length a + length b - length a)%nat with (length b) by lia. by rewrite take_app_length.
Qed.

Lemma laid_comments cs n ts cs' n' floor : laid src cs n ts cs' n' → floor <= offset n → comments_between cs' (count cs) floor ts = true.
Proof.
  intros Hl. revert floor. induction Hl as [cs n|cs n new t n1 ts cs' n2 Hp Hl IH]; intros floor Hf; cbn; [apply N.eqb_refl|].
  destruct (laid_end _ _ _ _ _ Hl) as [more ->]. destruct Hp as [Hc (e & Ho & Hle) _ Hs He _ _]. rewrite Hc. cbn [fst snd]. rewrite N.eqb_refl.
  rewrite slice_middle, (proj2 (N.leb_le (count cs) _)) by (unfold count; rewrite length_app; lia). cbn.
  destruct (comments_lower _ _ _ _ Ho Hf) as (e' & -> & Hle' & _). rewrite (proj2 (N.leb_le _ _)) by lia. apply IH. lia.
Qed.
End claims.

(** ** Claims *)

(** C20. The lexer ends on every text of less than 4 GiB, without a panic, and
    what it makes of it passes the checks of the fuzzer: spans that end no
    earlier than they start and lie in the text, tokens that do not overlap,
    one end-of-file token, the last, at the end of the text, every comment
    between the token before it and the one that carries it, an error for an
    error token, at most fifty errors kept, and one error token for the rest
    when there are more. *)
Theorem lexer_keeps_its_invariants (alphanumeric : N → bool) (f : N) (src : text) : byte_len src < 2 ^ 32 →
  ∃ l, lex alphanumeric f src = Some l ∧ check_lexer_invariants src l = true.
Proof.
  intros small. destruct (lex_finishes alphanumeric src small f) as (l & s & Hl & (Hg & ts0 & e & Hts & Hlaid & Hne & He & Hst & Her & Hmore) & Hcs & Hm & Hes).
  exists l. split; [done|]. assert (length (l_errors l) = length (errors s)) as Hlen by (by rewrite <-(length_fmap d_span), Hes, length_fmap).
  unfold check_lexer_invariants. rewrite Hcs, Hm, Hts, Hlen in *. repeat (apply andb_true_iff; split).
  - rewrite length_app. cbn. by rewrite bool_decide_eq_false_2 by lia.
  - eapply laid_in_order; try done.
  - refine (laid_comments src small [] _ _ _ _ 0 Hlaid _). lia.
  - change (existsb _ (ts0 ++ [e])) with (has_error (ts0 ++ [e])). destruct (has_error (ts0 ++ [e])); [|by rewrite andb_false_r].
    rewrite bool_decide_eq_false_2; [done|]. specialize (Her eq_refl). by destruct (errors s).
  - apply Nat.leb_le, Hg.
  - destruct (0 <? more_errors s) eqn:E; [|done]. apply N.ltb_lt in E. destruct (Hmore E) as (ts1 & r & -> & Hr & Hend).
    rewrite (g_more _ _ Hg E), Nat.eqb_refl. rewrite !length_app. cbn [length]. rewrite (proj2 (Nat.leb_le _ _)) by lia.
    replace (length ts1 + 1 + 1 - 2)%nat with (length ts1) by lia. rewrite <-app_assoc, lookup_app_r, Nat.sub_diag by lia. cbn.
    by rewrite Hr, Hend, N.eqb_refl.
  - apply forallb_forall. intros d Hd. apply list_elem_of_In in Hd. assert (d_span d ∈ d_span <$> errors s) as Hin by (rewrite <-Hes; by apply list_elem_of_fmap_2).
    apply list_elem_of_fmap in Hin as (d' & -> & Hd'). pose proof (g_spans _ _ Hg) as Hsp. rewrite Forall_forall in Hsp. destruct (Hsp d' Hd') as [H1 H2].
    rewrite (g_offset _ _ Hg) in H2. pose proof (offset_le src (pos s)). rewrite !(proj2 (N.leb_le _ _)) by lia. done.
Qed.

Lemma lexer_keeps_its_invariants_witness :
  byte_len (str "let x = {- a {- b -} -} y;; @") < 2 ^ 32 ∧
  ∃ l, lex (λ _, false) 0 (str "let x = {- a {- b -} -} y;; @") = Some l ∧ check_lexer_invariants (str "let x = {- a {- b -} -} y;; @") l = true.
Proof. split; [reflexivity|]. apply lexer_keeps_its_invariants. reflexivity. Defined.

(** C21. No character is passed over: each lies in a token or in a comment, or is
    a space, a tab, a line end or a semicolon, or the closing brace of an
    interpolation right in front of a token, or the byte-order mark the text
    starts with. *)
Theorem no_character_is_lost (alphanumeric : N → bool) (f : N) (src : text) (l : Lexed) (i : nat) (c : N) :
  byte_len src < 2 ^ 32 → lex alphanumeric f src = Some l → src !! i = Some c →
  let o := byte_len (take i src) in
  (∃ t, t ∈ tokens l ∧ sp_start (span t) <= o < sp_end (span t)) ∨
  (∃ k, k ∈ l_comments l ∧ sp_start (c_span k) <= o < sp_end (c_span k)) ∨
  c ∈ str " ;" ++ [9; 10; 13] ∨
  (c = ch "}" ∧ ∃ t, t ∈ tokens l ∧ sp_start (span t) = o + 1) ∨
  (c = 65279 ∧ i = 0%nat).
Proof.
  intros small Hlex Hc. cbn zeta. fold (offset_of src i).
  destruct (lex_finishes alphanumeric src small f) as (l' & s & Hl & (Hg & ts0 & e & Hts & Hlaid & _) & Hcs & _). rewrite Hlex in Hl. injection Hl as <-.
  rewrite Hcs. set (P := λ (ts : list Tok) (cs : list Comment), (∃ t, t ∈ ts ∧ sp_start (span t) <= offset_of src i < sp_end (span t)) ∨
    (∃ k, k ∈ cs ∧ sp_start (c_span k) <= offset_of src i < sp_end (c_span k)) ∨ is_free c = true ∨
    (c = ch "}" ∧ ∃ t, t ∈ ts ∧ sp_start (span t) = offset_of src i + 1)).
  assert (∀ cs n ts cs' n', laid src cs n ts cs' n' → (n <= i < n')%nat → P ts cs') as Hcover.
  { induction 1 as [cs n|cs n new t n1 ts cs' n2 Hp Hl IH]; intros Hi; [lia|]. destruct (decide (i < n1)%nat) as [Hlt|Hge].
    - destruct (laid_end _ _ _ _ _ _ Hl) as [more ->]. unfold P. pose proof (offset_strict src i n1 Hlt (lookup_lt_Some _ _ _ Hc)).
      destruct (tp_cover _ _ _ _ _ _ Hp i c) as [Hf|[(k & Hk & Hok)|[Ht|[-> Hb]]]]; [lia|done|..].
      + auto.
      + right. left. exists k. set_solver.
      + left. exists t. rewrite (tp_end _ _ _ _ _ _ Hp). set_solver.
      + right. right. right. split; [done|]. exists t. split; [by left|done].
    - destruct IH as [(t' & ? & ?)|[?|[?|(? & t' & ? & ?)]]]; [lia|..]; unfold P.
      + left. exists t'. split; [by right|done].
      + auto.
      + auto.
      + right. right. right. split; [done|]. exists t'. split; [by right|done]. }
  destruct (decide (begins src f <= i)%nat) as [Hle|Hlt].
  - destruct (Hcover _ _ _ _ _ Hlaid) as [?|[?|[Hf|?]]]; [split; [done|by eapply lookup_lt_Some]|by left|by right; left| |by right; right; right; left].
    right. right. left. unfold is_free in Hf. rewrite !orb_true_iff, !N.eqb_eq in Hf. cbn. set_solver.
  - right. right. right. right. unfold begins, new_lexer in Hlt. destruct (src !! 0%nat) as [d|] eqn:E; [|cbn in Hlt; lia].
    destruct (d =? 65279) eqn:Ed; cbn in Hlt; [|lia]. apply N.eqb_eq in Ed. assert (i = 0%nat) as -> by lia. split; [congruence|done].
Qed.

Lemma no_character_is_lost_witness :
  let src := str "a -- b" in
  ∃ l, lex (λ _, false) 0 src = Some l ∧
  let o := byte_len (take 5 src) in
  ((∃ t, t ∈ tokens l ∧ sp_start (span t) <= o < sp_end (span t)) ∨
  (∃ k, k ∈ l_comments l ∧ sp_start (c_span k) <= o < sp_end (c_span k)) ∨
  ch "b" ∈ str " ;" ++ [9; 10; 13] ∨
  (ch "b" = ch "}" ∧ ∃ t, t ∈ tokens l ∧ sp_start (span t) = o + 1) ∨
  (ch "b" = 65279 ∧ 5%nat = 0%nat)).
Proof. eexists. split; [vm_compute; reflexivity|]. apply (no_character_is_lost (λ _, false) 0 (str "a -- b") _ 5 (ch "b")); vm_compute; reflexivity. Defined.

(** * A token as it is written, and read again (src/lexer.rs)

    [Token]'s Display, and the lexer on tokens that are written with a
    space in front of each. *)

(** The digits of a number; a number below [2^64] has no more than 64. *)
Definition digit_char (d : N) : N := if d <? 10 then 48 + d else 87 + d.
Fixpoint digits_loop (fuel : nat) (radix n : N) (acc : text) : text :=
  match fuel with
  | O => acc
  | S fuel => if n <? radix then digit_char n :: acc else digits_loop fuel radix (n / radix) (digit_char (n mod radix) :: acc)
  end.
Definition digits_of (radix n : N) : text := digits_loop 64 radix n [].

Definition escape_default (c : N) : text :=
  if c =? 9 then str "\t" else if c =? 13 then str "\r" else if c =? 10 then str "\n"
  else str "\u{" ++ digits_of 16 c ++ str "}".
Definition escape_control_chars (s : text) : text := concat ((λ c, if is_control c then escape_default c else [c]) <$> s).

Definition show_token (t : Token) : text :=
  match t with
  | Let => str "let" | Fn => str "fn" | Type_ => str "type" | Trait => str "trait" | Match => str "match" | When => str "when"
  | Return => str "return" | Pub => str "pub" | Opaque_ => str "opaque" | Import_ => str "import" | As => str "as" | Else => str "else"
  | Where => str "where" | Loop => str "loop"
  | Int n => digits_of 10 (Z.abs_N n)
  | Float_ bits => write_text bits
  | Bool b => if b then str "true" else str "false"
  | StringLit s => [34] ++ escape_control_chars s ++ [34]
  | StringStart s => [34] ++ escape_control_chars s ++ str "{"
  | StringMiddle s => str "}" ++ escape_control_chars s ++ str "{"
  | StringEnd s => str "}" ++ escape_control_chars s ++ [34]
  | Ident s => s
  | Plus => str "+" | Minus => str "-" | Star => str "*" | Slash => str "/" | Percent => str "%" | EqEq => str "==" | NotEq => str "!="
  | Lt => str "<" | Gt => str ">" | LtEq => str "<=" | GtEq => str ">=" | AndAnd => str "&&" | OrOr => str "||" | Not => str "!"
  | Pipe => str "|>" | Bar => str "|" | Question => str "?" | Caret => str "^" | DotDot => str ".." | DotDotDot => str "..." | Arrow => str "->"
  | LParen => str "(" | RParen => str ")" | LBrace => str "{" | RBrace => str "}" | LBracket => str "[" | RBracket => str "]"
  | HashBrace => str "#{" | HashBracket => str "#["
  | Comma => str "," | Colon => str ":" | ColonColon => str "::" | Dot => str "." | Eq => str "="
  | Error => str "invalid token"
  | Eof => str "EOF"
  end.

(** ** Numbers *)
Lemma digit_read d : d < 10 → digit_value (digit_char d) = Some d ∧ is_digit (digit_char d) = true ∧ digit_char d ≠ ch "_".
Proof.
  intros H. unfold digit_char. rewrite (proj2 (N.ltb_lt d 10)) by done. unfold digit_value, is_digit, within.
  rewrite !(proj2 (N.leb_le _ _)) by lia. cbn. split; [f_equal; lia|]. split; [done|]. unfold ch. cbn. lia.
Qed.

Definition decimal_value (ds : text) (n : N) : option N :=
  foldl (λ acc c, n ← acc; d ← digit_value c; if (d <? 10) && (n * 10 + d <? 2 ^ 64) then Some (n * 10 + d) else None) (Some n) ds.

Lemma digits_loop_app fuel n acc : digits_loop fuel 10 n acc = digits_loop fuel 10 n [] ++ acc.
Proof.
  revert n acc. induction fuel as [|fuel IH]; intros n acc; cbn [digits_loop]; [done|]. destruct (n <? 10); [done|].
  rewrite IH, (IH _ [_]). by rewrite <-app_assoc.
Qed.

Lemma digits_loop_digits fuel n : Forall (λ c, is_digit c = true ∧ c ≠ ch "_") (digits_loop fuel 10 n []).
Proof.
  revert n. induction fuel as [|fuel IH]; intros n; cbn [digits_loop]; [constructor|]. destruct (n <? 10) eqn:E.
  - apply N.ltb_lt in E. constructor; [|constructor]. by apply (digit_read n).
  - rewrite digits_loop_app. apply Forall_app. split; [apply IH|]. constructor; [|constructor]. apply (digit_read (n mod 10)). by apply N.mod_lt.
Qed.

Lemma digits_value fuel n : n < 2 ^ N.of_nat fuel → n < 2 ^ 64 → decimal_value (digits_loop fuel 10 n []) 0 = Some n.
Proof.
  revert n. induction fuel as [|fuel IH]; intros n Hn H64; [cbn in Hn; by replace n with 0 by lia|]. cbn [digits_loop].
  destruct (n <? 10) eqn:E.
  - unfold decimal_value. cbn. apply N.ltb_lt in E. destruct (digit_read n E) as (-> & _). cbn.
    rewrite (proj2 (N.ltb_lt n 10)) by done. by rewrite (proj2 (N.ltb_lt n _)).
  - apply N.ltb_ge in E. rewrite digits_loop_app. unfold decimal_value. rewrite foldl_app. fold (decimal_value (digits_loop fuel 10 (n / 10) []) 0).
    assert (n = 10 * (n / 10) + n mod 10) as Hdm by (by apply N.div_mod). assert (n mod 10 < 10) as Hm by (by apply N.mod_lt). rewrite IH.
    + cbn. destruct (digit_read (n mod 10)) as (-> & _); [lia|]. cbn.
      rewrite (proj2 (N.ltb_lt (n mod 10) 10)) by lia. replace (n / 10 * 10 + n mod 10) with n by lia. by rewrite (proj2 (N.ltb_lt n _)).
    + apply N.Div0.div_lt_upper_bound. rewrite Nat2N.inj_succ, N.pow_succ_r' in Hn. lia.
    + apply N.Div0.div_lt_upper_bound. lia.
Qed.

Lemma digits_first n : ∃ c cs, digits_of 10 n = c :: cs.
Proof.
  unfold digits_of. change 64%nat with (S 63). generalize 63%nat. intros k. cbn [digits_loop]. destruct (n <? 10); [by eexists _, []|].
  rewrite digits_loop_app. destruct (digits_loop k 10 (n / 10) []) as [|c cs]; [by eexists _, []|]. by exists c, (cs ++ [digit_char (n mod 10)]).
Qed.

Lemma decimal_read n : n < 2 ^ 64 → from_str_radix 64 10 (digits_of 10 n) = Some n.
Proof.
  intros Hn. destruct (digits_first n) as (c & cs & E). unfold from_str_radix. rewrite E. rewrite <-E. by apply digits_value.
Qed.

(** ** Rounding to 53 bits *)
Section rounding.
Open Scope Z_scope.

(** [den * 2^s] is no more than [num], scaled so that nothing is a fraction. *)
Definition reaches_bit (num den s : Z) : Prop := den * 2 ^ Z.max s 0 ≤ num * 2 ^ Z.max (- s) 0.

Lemma reaches_scaled num den s n : Z.abs s ≤ n → reaches_bit num den s ↔ den * 2 ^ (n + s) ≤ num * 2 ^ n.
Proof.
  intros Hn. unfold reaches_bit. set (r := n - Z.max (- s) 0).
  rewrite (Z.mul_le_mono_pos_r _ _ (2 ^ r)) by (apply Z.pow_pos_nonneg; lia).
  rewrite <-!Z.mul_assoc, <-!Z.pow_add_r by lia. by replace (Z.max s 0 + r) with (n + s) by lia; replace (Z.max (- s) 0 + r) with n by lia.
Qed.

Lemma reaches_unique num den s t : 0 < num → 0 < den → reaches_bit num den s → ¬ reaches_bit num den (s + 1) →
  reaches_bit num den t → ¬ reaches_bit num den (t + 1) → s = t.
Proof.
  intros Hn Hd. set (n := Z.abs s + Z.abs t + 1). rewrite !(reaches_scaled _ _ _ n) by lia. intros H1 H2 H3 H4.
  assert (∀ a b, a + 1 ≤ b → den * 2 ^ (n + b) ≤ num * 2 ^ n → 0 ≤ n + a → den * 2 ^ (n + (a + 1)) ≤ num * 2 ^ n) as H.
  { intros a b Hab Hb Ha. etransitivity; [|exact Hb]. apply Z.mul_le_mono_nonneg_l; [lia|]. apply Z.pow_le_mono_r; lia. }
  destruct (Z.lt_trichotomy s t) as [Hlt|[?|Hlt]]; [|done|].
  - destruct H2. apply (H s t); lia || done.
  - destruct H4. apply (H t s); lia || done.
Qed.

Lemma top_bit_spec num den : 0 < num → 0 < den → reaches_bit num den (top_bit num den) ∧ ¬ reaches_bit num den (top_bit num den + 1).
Proof.
  intros Hn Hd. unfold top_bit, over_power. set (top := Z.log2 num - Z.log2 den).
  pose proof (Z.log2_spec num Hn) as [Hn1 Hn2]. pose proof (Z.log2_spec den Hd) as [Hd1 Hd2].
  pose proof (Z.log2_nonneg num). pose proof (Z.log2_nonneg den).
  set (n := Z.abs top + 2). assert (0 < 2 ^ n) by (apply Z.pow_pos_nonneg; lia).
  assert (∀ s, Z.abs s ≤ n → 0 < 2 ^ (n + s)) as Hpos by (intros; apply Z.pow_pos_nonneg; lia).
  assert (reaches_bit num den (top - 1)) as Hlo.
  { apply (reaches_scaled _ _ _ n); [lia|]. etransitivity; [|apply Z.mul_le_mono_nonneg_r; [lia|exact Hn1]].
    etransitivity; [apply Z.mul_le_mono_nonneg_r; [specialize (Hpos (top - 1)); lia|apply Z.lt_le_incl, Hd2]|].
    rewrite <-!Z.pow_add_r by lia. apply Z.pow_le_mono_r; lia. }
  assert (¬ reaches_bit num den (top + 1)) as Hhi.
  { rewrite (reaches_scaled _ _ _ n) by lia. intros H'. assert (num * 2 ^ n < den * 2 ^ (n + (top + 1))); [|lia].
    eapply Z.lt_le_trans; [apply Z.mul_lt_mono_pos_r; [lia|exact Hn2]|].
    etransitivity; [|apply Z.mul_le_mono_nonneg_r; [specialize (Hpos (top + 1)); lia|exact Hd1]].
    rewrite <-!Z.pow_add_r by lia. apply Z.pow_le_mono_r; lia. }
  destruct (_ <? _) eqn:E.
  - apply Z.ltb_lt in E. split; [done|]. replace (top - 1 + 1) with top by lia. unfold reaches_bit. lia.
  - apply Z.ltb_ge in E. by split.
Qed.

Lemma top_bit_is num den s : 0 < num → 0 < den → reaches_bit num den s → ¬ reaches_bit num den (s + 1) → top_bit num den = s.
Proof. intros Hn Hd H1 H2. destruct (top_bit_spec num den Hn Hd). by apply (reaches_unique num den). Qed.

(** What a number rounds to depends on the number only, not on its fraction. *)
Lemma round_ratio_scaled k num den : 0 < k → 0 ≤ num → 0 < den → round_ratio (k * num) (k * den) = round_ratio num den.
Proof.
  intros Hk Hn Hd. unfold round_ratio. destruct (num =? 0) eqn:E0; [apply Z.eqb_eq in E0 as ->; by rewrite Z.mul_0_r|].
  apply Z.eqb_neq in E0. rewrite (proj2 (Z.eqb_neq _ _)) by nia.
  assert (top_bit (k * num) (k * den) = top_bit num den) as ->.
  { destruct (top_bit_spec num den) as [H1 H2]; [lia|lia|]. unfold reaches_bit in *. apply top_bit_is; [nia|nia| |]; unfold reaches_bit;
      rewrite <-!Z.mul_assoc, <-Z.mul_le_mono_pos_l by done; done. }
  unfold over_power. set (q := Z.max _ (-1074)). rewrite <-!Z.mul_assoc. set (a := num * _). set (b := den * _).
  assert (0 < b) by (unfold b; apply Z.mul_pos_pos; [done|apply Z.pow_pos_nonneg; lia]).
  rewrite Z.div_mul_cancel_l, Zmult_mod_distr_l by lia. replace (2 * (k * (a mod b))) with (k * (2 * (a mod b))) by lia.
  assert (∀ x y, (k * x <? k * y) = (x <? y)) as Hlt by (intros; apply eq_true_iff_eq; rewrite !Z.ltb_lt; symmetry; by apply Z.mul_lt_mono_pos_l).
  assert (∀ x y, (k * x =? k * y) = (x =? y)) as Heq by (intros; apply eq_true_iff_eq; rewrite !Z.eqb_eq; split; [apply Z.mul_reg_l; lia|by intros ->]).
  by rewrite Hlt, Heq.
Qed.

(** A number of at most 53 bits is itself. *)
Lemma magnitude_of_bits j w : 0 ≤ j → 0 ≤ w ≤ 2 ^ 53 → 2 ^ 52 ≤ w ∨ j = 0 → j * 2 ^ 52 + w < 2047 * 2 ^ 52 → magnitude (j * 2 ^ 52 + w) = w * 2 ^ j.
Proof.
  intros Hj Hw Hn Hb. unfold magnitude, exponent, mantissa. rewrite Z.shiftr_div_pow2 by lia.
  assert (∀ e m, 0 ≤ e < 2047 → 0 ≤ m < 2 ^ 52 → j * 2 ^ 52 + w = e * 2 ^ 52 + m →
    (if (j * 2 ^ 52 + w) / 2 ^ 52 mod 2 ^ 11 =? 0 then (j * 2 ^ 52 + w) mod 2 ^ 52
     else (2 ^ 52 + (j * 2 ^ 52 + w) mod 2 ^ 52) * 2 ^ ((j * 2 ^ 52 + w) / 2 ^ 52 mod 2 ^ 11 - 1)) =
    if e =? 0 then m else (2 ^ 52 + m) * 2 ^ (e - 1)) as H.
  { intros e m He Hm ->. rewrite Z.div_add_l by lia. rewrite (Z.div_small m) by lia. rewrite Z.add_0_r, (Z.mod_small e) by lia.
    by rewrite Z.add_comm, Z.mod_add, (Z.mod_small m) by lia. }
  destruct (decide (w < 2 ^ 52)) as [Hlt|Hge].
  - destruct Hn as [?| -> ]; [lia|]. rewrite (H 0 w) by lia. cbn [Z.eqb]. lia.
  - destruct (decide (w = 2 ^ 53)) as [->|Hne].
    + rewrite (H (j + 2) 0) by lia. rewrite (proj2 (Z.eqb_neq _ _)) by lia. replace (j + 2 - 1) with (1 + j) by lia. rewrite Z.pow_add_r by lia. lia.
    + rewrite (H (j + 1) (w - 2 ^ 52)) by lia. rewrite (proj2 (Z.eqb_neq _ _)) by lia. replace (j + 1 - 1) with j by lia. lia.
Qed.
Lemma bits_of_magnitude b : 0 ≤ b < 2047 * 2 ^ 52 →
  ∃ j w, 0 ≤ j ∧ 0 ≤ w < 2 ^ 53 ∧ (2 ^ 52 ≤ w ∨ j = 0) ∧ b = j * 2 ^ 52 + w ∧ magnitude b = w * 2 ^ j.
Proof.
  intros Hb. pose proof (Z.div_mod b (2 ^ 52) ltac:(lia)) as E. pose proof (Z.mod_pos_bound b (2 ^ 52) ltac:(lia)) as Hm.
  set (e := b / 2 ^ 52) in *. set (m := b mod 2 ^ 52) in *. assert (0 ≤ e < 2047) by lia. destruct (decide (e = 0)) as [He|He].
  - exists 0, m. split_and!; [lia..|by right|lia|]. replace b with (0 * 2 ^ 52 + m) by lia. apply magnitude_of_bits; try lia.
  - exists (e - 1), (2 ^ 52 + m). split_and!; [lia..|]. replace b with ((e - 1) * 2 ^ 52 + (2 ^ 52 + m)) by lia. apply magnitude_of_bits; lia.
Qed.

Lemma round_magnitude b : 0 ≤ b < 2047 * 2 ^ 52 → round_ratio (magnitude b) (2 ^ 1074) = b.
Proof.
  intros Hb. destruct (bits_of_magnitude b Hb) as (j & w & Hj & Hw & Hn & Eb & ->). assert (0 < 2 ^ j) by (apply Z.pow_pos_nonneg; lia).
  unfold round_ratio. destruct (decide (w = 0)) as [->|Hw0]; [destruct Hn as [?| -> ]; [lia|]; rewrite Z.mul_0_l; cbn iota; rewrite Eb; done|].
  rewrite (proj2 (Z.eqb_neq _ _)) by nia. set (s := Z.log2 w + j - 1074).
  pose proof (Z.log2_spec w ltac:(lia)) as [Hl1 Hl2]. pose proof (Z.log2_nonneg w).
  assert (top_bit (w * 2 ^ j) (2 ^ 1074) = s) as ->.
  { set (n := Z.abs s + 1). apply top_bit_is; [nia|apply Z.pow_pos_nonneg; lia| |]; rewrite (reaches_scaled _ _ _ n) by lia;
      rewrite <-Z.mul_assoc, <-!Z.pow_add_r by lia.
    - replace (1074 + (n + s)) with (Z.log2 w + (j + n)) by lia. rewrite Z.pow_add_r by lia. apply Z.mul_le_mono_nonneg_r; [apply Z.pow_nonneg; lia|done].
    - replace (1074 + (n + (s + 1))) with (Z.succ (Z.log2 w) + (j + n)) by lia. rewrite (Z.pow_add_r 2 (Z.succ _)) by lia.
      apply Z.lt_nge, Z.mul_lt_mono_pos_r; [apply Z.pow_pos_nonneg; lia|done]. }
  assert (Z.max (s - 52) (-1074) = j - 1074) as ->.
  { assert (Z.log2 w < 53) by (apply Z.log2_lt_pow2; lia). destruct Hn as [Hn| ->]; [|lia].
    assert (52 ≤ Z.log2 w) by (apply Z.log2_le_pow2; lia). lia. }
  unfold over_power. set (b' := 2 ^ 1074 * _). assert (0 < b') by (unfold b'; rewrite <-Z.pow_add_r by lia; apply Z.pow_pos_nonneg; lia).
  assert (w * 2 ^ j * 2 ^ Z.max (- (j - 1074)) 0 = w * b') as ->.
  { unfold b'. rewrite <-Z.mul_assoc, <-!Z.pow_add_r by lia. do 2 f_equal. lia. }
  rewrite Z.div_mul, Z.mod_mul by lia. rewrite Z.mul_0_r, (proj2 (Z.ltb_ge b' 0)), (proj2 (Z.eqb_neq b' 0)) by lia. cbn [orb andb Z.b2z]. lia.
Qed.

(** Digits with no fraction are a whole number, rounded or not. *)
Lemma round_whole n : 0 ≤ n → round_ratio n 1 < 2047 * 2 ^ 52 → magnitude (round_ratio n 1) mod 2 ^ 1074 = 0.
Proof.
  intros Hn Hb. destruct (decide (n = 0)) as [->|Hn0]; [done|]. unfold round_ratio in *. rewrite (proj2 (Z.eqb_neq _ _)) in * by lia.
  pose proof (Z.log2_spec n ltac:(lia)) as [Hl1 Hl2]. pose proof (Z.log2_nonneg n). set (s := Z.log2 n) in *.
  assert (top_bit n 1 = s) as E.
  { apply top_bit_is; [lia|lia| |]; unfold reaches_bit; replace (Z.max (- s) 0) with 0 by lia; replace (Z.max (- (s + 1)) 0) with 0 by lia.
    - replace (Z.max s 0) with s by lia. lia.
    - replace (Z.max (s + 1) 0) with (Z.succ s) by lia. lia. }
  rewrite E in *. replace (Z.max (s - 52) (-1074)) with (s - 52) in * by lia. unfold over_power in *.
  destruct (decide (52 ≤ s)) as [Hs|Hs].
  - replace (Z.max (- (s - 52)) 0) with 0 in * by lia. replace (Z.max (s - 52) 0) with (s - 52) in * by lia.
    rewrite Z.pow_0_r, Z.mul_1_r, Z.mul_1_l in *. assert (0 < 2 ^ (s - 52)) by (apply Z.pow_pos_nonneg; lia). set (w := n / 2 ^ (s - 52)) in *.
    assert (2 ^ 52 ≤ w < 2 ^ 53) as Hw.
    { unfold w. split; [apply Z.div_le_lower_bound; [done|]|apply Z.div_lt_upper_bound; [done|]]; rewrite <-Z.pow_add_r by lia.
      - by replace (s - 52 + 52) with s by lia.
      - by replace (s - 52 + 53) with (Z.succ s) by lia. }
    set (up := (_ || _)%bool) in *. assert (0 ≤ Z.b2z up ≤ 1) by (destruct up; cbn; lia).
    rewrite Z.min_l in * by lia. rewrite <-Z.add_assoc. rewrite magnitude_of_bits by lia.
    replace (s - 52 + 1074) with ((s - 52) + 1074) by lia. rewrite Z.pow_add_r, Z.mul_assoc by lia. apply Z.mod_mul. lia.
  - replace (Z.max (- (s - 52)) 0) with (52 - s) in * by lia. replace (Z.max (s - 52) 0) with 0 in * by lia.
    rewrite Z.pow_0_r, Z.mul_1_r, Z.div_1_r, Z.mod_1_r in *. cbn [Z.mul Z.ltb Z.compare Z.eqb orb andb Z.b2z] in *.
    assert (2 ^ 52 ≤ n * 2 ^ (52 - s) < 2 ^ 53) as Hw.
    { split; [etransitivity; [|apply Z.mul_le_mono_nonneg_r; [apply Z.pow_nonneg; lia|exact Hl1]]|eapply Z.lt_le_trans; [apply Z.mul_lt_mono_pos_r; [apply Z.pow_pos_nonneg; lia|exact Hl2]|]];
        rewrite <-Z.pow_add_r by lia; apply Z.pow_le_mono_r; lia. }
    rewrite Z.add_0_r, Z.min_l in * by lia. rewrite magnitude_of_bits by lia.
    rewrite <-Z.mul_assoc, <-Z.pow_add_r by lia. replace (52 - s + (s - 52 + 1074)) with 1074 by lia. apply Z.mod_mul. lia.
Qed.
End rounding.

(** ** The digits of a number *)
Section decimals.
Open Scope Z_scope.

Lemma decimal_app a b : decimal (a ++ b) = decimal a * 10 ^ Z.of_nat (length b) + decimal b.
Proof.
  unfold decimal. rewrite foldl_app. generalize (foldl (λ n c, n * 10 + Z.of_N (c - 48)) 0 a) as x. intros x.
  induction b as [|c b IH] using rev_ind; [cbn; lia|]. rewrite !foldl_app, length_app, Nat2Z.inj_add, Z.pow_add_r, IH by lia. cbn. lia.
Qed.

Definition plain_digits (t : text) : Prop := Forall (λ c, is_digit c = true ∧ c ≠ ch "_") t.
Lemma padded_digits n m : 0 ≤ m → plain_digits (padded n m).
Proof.
  revert m. induction n as [|n IH]; intros m Hm; [constructor|]. cbn [padded]. pose proof (Z.mod_pos_bound m 10 ltac:(lia)).
  apply Forall_app. split; [apply IH, Z.div_pos; lia|]. constructor; [|constructor]. unfold is_digit, within, ch. cbn.
  split; [|lia]. apply andb_true_iff. rewrite !N.leb_le. lia.
Qed.
Lemma padded_length n m : length (padded n m) = n.
Proof. revert m. induction n as [|n IH]; intros m; [done|]. cbn [padded]. rewrite length_app, IH. cbn. lia. Qed.
Lemma padded_value n m : 0 ≤ m → decimal (padded n m) = m mod 10 ^ Z.of_nat n.
Proof.
  revert m. induction n as [|n IH]; intros m Hm; [by rewrite Z.mod_1_r|]. cbn [padded]. rewrite decimal_app, IH by (apply Z.div_pos; lia).
  pose proof (Z.mod_pos_bound m 10 ltac:(lia)). assert (0 < 10 ^ Z.of_nat n) by (apply Z.pow_pos_nonneg; lia).
  rewrite Nat2Z.inj_succ, Z.pow_succ_r, Z.rem_mul_r by lia. cbn. lia.
Qed.
Lemma width_bound m : 0 ≤ m → m < 10 ^ Z.of_nat (width m).
Proof.
  intros Hm. unfold width. set (fuel := S (Z.to_nat (Z.log2 m))). assert (m < 2 ^ Z.of_nat fuel) as Hf.
  { unfold fuel. rewrite Nat2Z.inj_succ, Z2Nat.id by apply Z.log2_nonneg. destruct (decide (m = 0)) as [->|]; [done|]. apply Z.log2_spec. lia. }
  clearbody fuel. revert m Hm Hf. induction fuel as [|fuel IH]; intros m Hm Hf; cbn [digit_count]; [change (10 ^ Z.of_nat 1) with 10; change (2 ^ Z.of_nat 0) with 1 in Hf; lia|].
  destruct (m <? 10) eqn:E; [apply Z.ltb_lt in E; exact E|]. apply Z.ltb_ge in E. rewrite Nat2Z.inj_succ, Z.pow_succ_r in Hf by lia. rewrite Nat2Z.inj_succ, Z.pow_succ_r by lia.
  assert (m / 10 < 10 ^ Z.of_nat (digit_count fuel (m / 10))) as H; [|pose proof (Z.div_mod m 10 ltac:(lia)); pose proof (Z.mod_pos_bound m 10 ltac:(lia)); lia].
  apply IH; [apply Z.div_pos; lia|]. apply Z.div_lt_upper_bound; lia.
Qed.
Lemma width_value m : 0 ≤ m → decimal (padded (width m) m) = m.
Proof. intros Hm. rewrite padded_value by done. apply Z.mod_small. split; [done|by apply width_bound]. Qed.
Lemma width_pos m : (0 < width m)%nat.
Proof. unfold width. cbn. destruct (m <? 10); lia. Qed.
Lemma zeros_value n : decimal (replicate n (ch "0")) = 0.
Proof.
  induction n as [|n IH]; [done|]. change (replicate (S n) (ch "0")) with ([ch "0"] ++ replicate n (ch "0")). rewrite decimal_app, IH. cbn. lia.
Qed.
Lemma zeros_digits n : plain_digits (replicate n (ch "0")).
Proof. by apply Forall_replicate. Qed.
End decimals.

(** ** The text of a Float is read back *)
Section floats.
Open Scope Z_scope.
Context (bits : Z) (Hbits : 0 ≤ bits < 2047 * 2 ^ 52).
Notation m := (magnitude bits).

Lemma magnitude_pos : 0 ≤ m.
Proof using Hbits. destruct (bits_of_magnitude bits Hbits) as (j & w & Hj & Hw & _ & _ & ->). apply Z.mul_nonneg_nonneg; [lia|]. apply Z.pow_nonneg. lia. Qed.

(** There is nothing left over at place -1074, nor of a whole number at 0. *)
Lemma nearest_exact d p : d * 2 ^ 1074 * 10 ^ Z.max p 0 = m * 10 ^ Z.max (- p) 0 → nearest d p = bits.
Proof using Hbits.
  intros E. pose proof magnitude_pos as Hm. rewrite <-(round_magnitude bits Hbits). unfold nearest.
  assert (∀ n, 0 < 10 ^ Z.max n 0) as Hten by (intros; apply Z.pow_pos_nonneg; lia).
  assert (0 < 2 ^ 1074) as Htwo by done. set (two := 2 ^ 1074) in *. clearbody two. assert (0 ≤ d).
  { apply Z.nlt_ge. intros Hd. specialize (Hten p) as H1. specialize (Hten (- p)) as H2.
    assert (0 ≤ m * 10 ^ Z.max (- p) 0) by (apply Z.mul_nonneg_nonneg; lia).
    assert (0 < - d * two * 10 ^ Z.max p 0) by (repeat apply Z.mul_pos_pos; lia). lia. }
  destruct (0 <=? p) eqn:Hp.
  - apply Z.leb_le in Hp. replace (Z.max p 0) with p in * by lia. replace (Z.max (- p) 0) with 0 in * by lia.
    assert (0 < 10 ^ p) by (apply Z.pow_pos_nonneg; lia). rewrite <-(round_ratio_scaled two (d * 10 ^ p) 1) by (lia || apply Z.mul_nonneg_nonneg; lia).
    f_equal; lia.
  - apply Z.leb_gt in Hp. replace (Z.max p 0) with 0 in * by lia. replace (Z.max (- p) 0) with (- p) in * by lia.
    assert (0 < 10 ^ (- p)) by (apply Z.pow_pos_nonneg; lia).
    rewrite <-(round_ratio_scaled two d (10 ^ (- p))), <-(round_ratio_scaled (10 ^ (- p)) m two) by lia. f_equal; lia.
Qed.
Lemma candidates_exact p : m * 10 ^ Z.max (- p) 0 mod (2 ^ 1074 * 10 ^ Z.max p 0) = 0 → ∃ d, find (λ d, nearest d p =? bits) (candidates m p) = Some d.
Proof using Hbits.
  intros E. unfold candidates. set (b := 2 ^ 1074 * 10 ^ Z.max p 0) in *. assert (0 < b) by (apply Z.mul_pos_pos; [done|apply Z.pow_pos_nonneg; lia]).
  rewrite E, (proj2 (Z.ltb_lt _ _)) by lia. pose proof (Z.div_mod (m * 10 ^ Z.max (- p) 0) b ltac:(lia)) as Hd. cbn [find].
  exists (m * 10 ^ Z.max (- p) 0 / b). rewrite (proj2 (Z.eqb_eq _ _)); [done|]. apply nearest_exact. subst b. lia.
Qed.

Lemma shortest_ends fuel p : -1074 ≤ p → p + 1075 ≤ Z.of_nat fuel → is_Some (shortest fuel bits m p).
Proof using Hbits.
  revert p. induction fuel as [|fuel IH]; intros p Hp Hf; [lia|]. cbn [shortest].
  destruct (find _ _) as [d|] eqn:E; [by eexists|]. destruct (decide (p = -1074)) as [->|]; [|apply IH; lia].
  exfalso. destruct (candidates_exact (-1074)) as [d Hd]; [|congruence]. change (Z.max (- -1074) 0) with 1074. change (Z.max (-1074) 0) with 0.
  rewrite Z.pow_0_r, Z.mul_1_r. replace 10 with (5 * 2) at 1 by done. rewrite Z.pow_mul_l, Z.mul_assoc. by apply Z.mod_mul.
Qed.

Lemma shortest_nearest fuel p d q : shortest fuel bits m p = Some (d, q) → nearest d q = bits ∧ 0 ≤ d.
Proof using Hbits.
  revert p. induction fuel as [|fuel IH]; intros p; cbn [shortest]; [done|]. destruct (find _ _) as [d'|] eqn:E; [|apply IH].
  intros [= -> ->]. apply find_some in E as [Hin Hd%Z.eqb_eq]. split; [done|]. unfold candidates in Hin. pose proof magnitude_pos.
  set (a := m * _) in *. set (b := 2 ^ 1074 * _) in *. assert (0 ≤ a / b).
  { apply Z.div_pos; [apply Z.mul_nonneg_nonneg; [done|apply Z.pow_nonneg; lia]|apply Z.mul_pos_pos; [done|apply Z.pow_pos_nonneg; lia]]. }
  destruct (_ <? _); cbn in Hin; lia.
Qed.

(** A whole number's digits end in front of the point, another's do not. *)
Lemma shortest_whole fuel p d q : m mod 2 ^ 1074 = 0 → 0 ≤ p → shortest fuel bits m p = Some (d, q) → 0 ≤ q.
Proof using Hbits.
  intros Hw. revert p. induction fuel as [|fuel IH]; intros p Hp; cbn [shortest]; [done|]. destruct (find _ _) as [d'|] eqn:E.
  - intros [= -> ->]. done.
  - destruct (decide (p = 0)) as [->|]; [|apply IH; lia]. destruct (candidates_exact 0) as [d' Hd']; [|congruence].
    cbn [Z.max Z.opp Z.compare]. by rewrite Z.pow_0_r, !Z.mul_1_r.
Qed.
Lemma nearest_whole d q : 0 ≤ d → 0 ≤ q → nearest d q = bits → m mod 2 ^ 1074 = 0.
Proof using Hbits.
  intros Hd Hq <-. unfold nearest in *. rewrite (proj2 (Z.leb_le _ _)) in * by done. apply round_whole; [|lia].
  apply Z.mul_nonneg_nonneg; [done|apply Z.pow_nonneg; lia].
Qed.

Lemma place_below_bound fuel x p : p - Z.of_nat fuel ≤ place_below fuel x p ≤ p.
Proof. revert x p. induction fuel as [|fuel IH]; intros x p; cbn [place_below]; [lia|]. destruct (_ <? _); [|lia]. specialize (IH (10 * x) (p - 1)). lia. Qed.
Lemma first_place_bound : -324 ≤ first_place m ∧ (2 ^ 1074 ≤ m → 0 ≤ first_place m).
Proof.
  unfold first_place. destruct (m <? 2 ^ 1074) eqn:E; [|lia]. apply Z.ltb_lt in E. pose proof (place_below_bound 324 m 0). lia.
Qed.

(** The text of a number that is not negative: digits, a point, digits, and
    these are read as the number. *)
Lemma written_float : ∃ whole frac, write_text bits = whole ++ ch "." :: frac ∧ plain_digits whole ∧ plain_digits frac ∧
  whole ≠ [] ∧ frac ≠ [] ∧ parse_f64 whole frac None = bits.
Proof using Hbits.
  pose proof magnitude_pos as Hm. unfold write_text, show_f64.
  assert (negative bits = false) as -> by (unfold negative; apply Z.bits_above_log2; [lia|]; destruct (decide (bits = 0)) as [->|]; [done|]; apply Z.log2_lt_pow2; lia).
  assert (low bits = bits) as -> by (apply Z.mod_small; lia). cbn [app].
  destruct (m =? 0) eqn:E0.
  { apply Z.eqb_eq in E0. rewrite E0. exists [ch "0"], [ch "0"]. split_and!; [done|by repeat constructor..|done|done|].
    rewrite <-(round_magnitude bits Hbits), E0. done. }
  apply Z.eqb_neq in E0. destruct first_place_bound as [Hf1 Hf2].
  destruct (shortest_ends (Z.to_nat (first_place m + 1075)) (first_place m)) as [[d p] E]; [lia|lia|]. rewrite E.
  pose proof (shortest_nearest _ _ _ _ E) as [Hn Hd]. destruct (m mod 2 ^ 1074 =? 0) eqn:Ew.
  - apply Z.eqb_eq in Ew. assert (2 ^ 1074 ≤ m). { apply Z.nlt_ge. intros Hlt. rewrite Z.mod_small in Ew by lia. done. }
    pose proof (shortest_whole _ _ _ _ Ew (Hf2 ltac:(done)) E) as Hp. unfold placed_digits. rewrite (proj2 (Z.leb_le _ _)) by done.
    eexists _, [ch "0"]. split_and!; [done|apply Forall_app; split; [by apply padded_digits|apply zeros_digits]|by repeat constructor| |done|].
    + pose proof (width_pos d). intros H'%(f_equal length). rewrite length_app, padded_length in H'. change (length []) with 0%nat in H'. lia.
    + unfold parse_f64. rewrite !decimal_app, width_value, zeros_value, length_replicate by done. cbn [length Z.of_nat Pos.of_succ_nat].
      rewrite Z2Nat.id by done. change (decimal [ch "0"]) with 0. unfold nearest in *. cbn [Z.leb Z.sub Z.add Z.opp Z.compare Z.pos_sub].
      rewrite (proj2 (Z.leb_le _ _)) in Hn by done. rewrite <-Hn. rewrite <-(round_ratio_scaled 10 (d * 10 ^ p) 1); [|done|apply Z.mul_nonneg_nonneg; [done|apply Z.pow_nonneg; lia]|done].
      f_equal. lia.
  - apply Z.eqb_neq in Ew. assert (p < 0) as Hp by (apply Z.nle_gt; intros Hp; by apply Ew, (nearest_whole d p)).
    unfold placed_digits. rewrite (proj2 (Z.leb_gt _ _)) by done. assert (0 < 10 ^ (- p)) by (apply Z.pow_pos_nonneg; lia).
    pose proof (Z.mod_pos_bound d (10 ^ (- p)) ltac:(lia)). assert (0 ≤ d / 10 ^ (- p)) by (apply Z.div_pos; lia).
    eexists _, _. split_and!; [done|by apply padded_digits|apply padded_digits; lia| | |].
    + pose proof (width_pos (d / 10 ^ (- p))). intros H'%(f_equal length). rewrite padded_length in H'. change (length []) with 0%nat in H'. lia.
    + intros H'%(f_equal length). rewrite padded_length in H'. change (length []) with 0%nat in H'. lia.
    + unfold parse_f64. rewrite decimal_app, width_value, padded_value, padded_length, !Z2Nat.id by lia. rewrite (Z.mod_small (d mod _)) by lia.
      rewrite <-Hn. f_equal; [|lia]. rewrite Z.mul_comm, <-Z.div_mod; lia.
Qed.
End floats.

(** ** Reading from a place *)
Definition at_rest (s : Lexer) (w : text) : Prop := drop (pos s) (source s) = w.
Record quiet (s s' : Lexer) : Prop := {
  q_stack : interp_stack s' = interp_stack s;
  q_errors : errors s' = errors s;
  q_more : more_errors s' = more_errors s;
  q_repeats : repeats s' = repeats s;
  q_cut : cut_short s' = cut_short s;
  q_quotes : quotes_off s' = quotes_off s;
}.
#[local] Instance quiet_preorder : PreOrder quiet.
Proof. split; [by intros s; split|]. intros s1 s2 s3 [] []. split; congruence. Qed.

Lemma rest_at s w k : at_rest s w → source s !! (pos s + k)%nat = w !! k.
Proof. intros <-. by rewrite lookup_drop. Qed.
Lemma rest_head s w : at_rest s w → source s !! pos s = w !! 0%nat.
Proof. intros H. rewrite <-(rest_at _ _ 0 H). by rewrite Nat.add_0_r. Qed.
Lemma rest_left s w : at_rest s w → left s = length w.
Proof. intros <-. unfold left. by rewrite length_drop. Qed.

(** A scan that reads up to [w] and leaves the rest of the state. *)
Definition reaching {A} (s : Lexer) (w : text) (P : A → Prop) (a : A) (s' : Lexer) : Prop := P a ∧ at_rest s' w ∧ quiet s s'.

Lemma read_peek {B} (f : option N → Scan B) s w Q : at_rest s w → wp (f (w !! 0%nat)) s Q → wp (peek ≫= f) s Q.
Proof. intros H HQ. apply wp_bind, wp_asks. by rewrite (rest_head _ _ H). Qed.

Lemma read_ahead {B} k (f : option N → Scan B) s w Q : at_rest s w → wp (f (w !! k)) s Q → wp (peek_ahead k ≫= f) s Q.
Proof. intros H HQ. apply wp_bind, wp_asks. by rewrite (rest_at _ _ _ H). Qed.

Lemma read_advance {B} (f : option N → Scan B) s c w Q : at_rest s (c :: w) →
  (∀ s', at_rest s' w → quiet s s' → wp (f (Some c)) s' Q) → wp (advance_char ≫= f) s Q.
Proof.
  intros H HQ. apply wp_bind. exists (Some c). eexists. unfold advance_char. rewrite (rest_head _ _ H). split; [done|]. apply HQ; [|by split].
  unfold at_rest in *. cbn. rewrite <-Nat.add_1_r, <-drop_drop, H. done.
Qed.

Lemma read_many {B} p (f : text → Scan B) s cs w Q : at_rest s (cs ++ w) → Forall (λ c, p c = true) cs → is_some_and p (w !! 0%nat) = false →
  (∀ s', at_rest s' w → quiet s s' → wp (f cs) s' Q) → wp (read_while p ≫= f) s Q.
Proof.
  intros H Hcs Hw HQ. assert (∀ fuel cs s (Q : text → Lexer → Prop), at_rest s (cs ++ w) → Forall (λ c, p c = true) cs → (length cs < fuel)%nat →
    (∀ s', at_rest s' w → quiet s s' → Q cs s') → wp (while_loop fuel p) s Q) as Hloop.
  { clear -Hw. induction fuel as [|fuel IH]; intros cs s Q H Hcs Hf HQ; [lia|]. cbn [while_loop]. eapply read_peek; [exact H|].
    destruct cs as [|c cs]; cbn.
    - destruct (w !! 0%nat) as [c|]; [cbn in Hw; rewrite Hw|]; by apply wp_ret, HQ.
    - apply Forall_cons in Hcs as [Hc Hcs]. rewrite Hc. eapply read_advance; [exact H|]. intros s1 H1 Hq1. apply wp_bind. apply (IH cs s1); [done|done|cbn in Hf; lia|].
      intros s2 H2 Hq2. apply wp_ret, HQ; [done|by etransitivity]. }
  apply wp_bind, wp_bind, wp_asks. apply (Hloop _ cs s); [done|done| |exact HQ]. rewrite (rest_left _ _ H), length_app. lia.
Qed.

Section words.
Context (alphanumeric : N → bool).

(** ** Behind a space *)
Definition starts_word (c : N) (w : text) : bool :=
  negb (is_white c) && negb (c =? ch ";") && negb (((c =? ch "-") || (c =? ch "{")) && sees (ch "-") (w !! 0%nat)).

Lemma next_word fuel s c w Q : at_rest s (ch " " :: c :: w) → starts_word c w = true →
  (∀ s1 start, at_rest s1 w → quiet s s1 → wp (scan_token alphanumeric (next_token alphanumeric fuel) c start) s1 Q) →
  wp (next_token alphanumeric (S fuel)) s Q.
Proof.
  intros H Hw HQ. unfold starts_word in Hw. rewrite !andb_true_iff, !negb_true_iff in Hw. destruct Hw as [[Hwhite Hsemi] Hcom].
  cbn [next_token]. unfold skip_whitespace. apply wp_bind. apply wp_bind, wp_asks. rewrite (rest_left _ _ H). cbn [length white_loop].
  eapply read_peek; [exact H|]. cbn [lookup list_lookup]. change ((ch " " =? ch " ") || (ch " " =? 9) || (ch " " =? 13)) with true. cbn iota.
  eapply read_advance; [exact H|]. intros s1 H1 Hq1. eapply read_peek; [exact H1|]. cbn [lookup list_lookup].
  assert (c ≠ ch " " ∧ c ≠ 9 ∧ c ≠ 13 ∧ c ≠ 10) as (Hc1 & Hc2 & Hc3 & Hc4) by (split_and!; intros ->; done).
  rewrite !(proj2 (N.eqb_neq c _)) by done. cbn [orb]. apply wp_ret, wp_bind, wp_asks, wp_bind. cbn [trivia_loop].
  eapply read_peek; [exact H1|]. eapply read_ahead; [exact H1|]. change ((c :: w) !! 1%nat) with (w !! 0%nat).
  change ((c :: w) !! 0%nat) with (Some c). cbn [sees is_some_and]. rewrite !(N.eqb_sym (ch _) c). rewrite andb_orb_distrib_l in Hcom. apply orb_false_iff in Hcom as [-> ->].
  rewrite Hsemi. apply wp_ret. apply wp_bind, wp_asks. eapply read_advance; [exact H1|]. intros s2 H2 Hq2. apply HQ; [done|by etransitivity].
Qed.

(** ** One token *)
Definition is_name_start (c : N) : bool := is_letter c || (c =? ch "_").
Definition is_name_char (c : N) : bool := is_alnum c || (c =? ch "_").
Definition is_name (s : text) : bool := match s with c :: cs => is_name_start c && forallb is_name_char cs | [] => false end.
(** The tokens that are written as they are read: no string, and no name
    that is a keyword; a number has no sign but the least Int, whose is a
    part of it. *)
Definition is_written (t : Token) : bool :=
  match t with
  | Float_ bits => ((0 <=? bits) && (bits <? 2047 * 2 ^ 52))%Z
  | StringLit _ | StringStart _ | StringMiddle _ | StringEnd _ | Error | Eof => false
  | Int n => ((0 <=? n) && (n <? 2 ^ 63) || (n =? - 2 ^ 63))%Z
  | Ident s => is_name s && negb (existsb (λ k, bool_decide (k.1 = s)) keywords)
  | _ => true
  end.

Definition read_as (t : Token) (w : text) (s : Lexer) (ts : Scanned) (s' : Lexer) : Prop := ts.1 = t ∧ at_rest s' w ∧ quiet s s'.

Lemma name_start_range c : is_name_start c = true → 65 <= c <= 122.
Proof.
  unfold is_name_start, is_letter, within. rewrite !orb_true_iff, !andb_true_iff, !N.leb_le, N.eqb_eq. unfold ch. cbn. lia.
Qed.

Lemma name_read again c cs w start s : is_name (c :: cs) = true → at_rest s (cs ++ ch " " :: w) →
  wp (scan_token alphanumeric again c start) s (read_as (keyword_or_name (c :: cs)) (ch " " :: w) s).
Proof.
  cbn [is_name]. intros [Hc Hcs]%andb_true_iff H. pose proof (name_start_range _ Hc) as Hr. unfold scan_token. apply wp_bind, wp_asks, wp_bind, wp_asks.
  rewrite (proj2 (N.eqb_neq c 34)) by lia. assert (is_digit c = false) as ->.
  { unfold is_digit, within. apply andb_false_iff. right. apply N.leb_gt. lia. }
  unfold is_name_start in Hc. rewrite Hc. unfold scan_ident_or_keyword. eapply read_many; [exact H| |done|].
  - apply Forall_forall. intros d Hd. apply (proj1 (forallb_forall _ _) Hcs). by apply list_elem_of_In.
  - intros s' H' Hq. by apply wp_ret.
Qed.

Lemma name_starts_word c cs w : is_name (c :: cs) = true → starts_word c w = true.
Proof.
  cbn [is_name]. intros [Hc _]%andb_true_iff. unfold is_name_start, is_letter, within in Hc.
  rewrite !orb_true_iff, !andb_true_iff, !N.leb_le, N.eqb_eq in Hc. unfold ch in Hc. cbn in Hc.
  unfold starts_word, is_white, within. rewrite !(proj2 (N.eqb_neq c _)) by (unfold ch; cbn; lia).
  rewrite !(proj2 (N.leb_gt c _)) by lia. rewrite !andb_false_r, ?orb_false_r. cbn.
  destruct (8192 <=? c) eqn:E; [apply N.leb_le in E; lia|done].
Qed.

Lemma name_token fuel c cs w s : is_name (c :: cs) = true → at_rest s (ch " " :: (c :: cs) ++ ch " " :: w) →
  wp (next_token alphanumeric (S fuel)) s (read_as (keyword_or_name (c :: cs)) (ch " " :: w) s).
Proof.
  intros Hn H. eapply next_word; [exact H|by eapply name_starts_word|]. intros s1 start H1 Hq. eapply wp_mono; [by apply name_read|].
  intros ts s' (Ht & ? & ?). split_and!; [done|done|by etransitivity].
Qed.

Lemma digit_range c : is_digit c = true → 48 <= c <= 57.
Proof. unfold is_digit, within. rewrite andb_true_iff, !N.leb_le. done. Qed.

Lemma digit_starts_word c w : is_digit c = true → starts_word c w = true.
Proof.
  intros Hr%digit_range. unfold starts_word, is_white, within. rewrite !(proj2 (N.eqb_neq c _)) by (unfold ch; cbn; lia).
  rewrite (proj2 (N.leb_gt c 13)), (proj2 (N.leb_gt 8192 c)) by lia. by rewrite !andb_false_r.
Qed.

Lemma int_token fuel n w s : n < 2 ^ 64 → at_rest s (ch " " :: digits_of 10 n ++ ch " " :: w) →
  wp (next_token alphanumeric (S fuel)) s (λ ts s', at_rest s' (ch " " :: w) ∧ (n <= 2 ^ 63 → quiet s s') ∧
    ts.1 = if n <? 2 ^ 63 then Int (Z.of_N n) else if n =? 2 ^ 63 then Int (- 2 ^ 63) else Error).
Proof.
  intros Hn H. pose proof (decimal_read n Hn) as Hval. pose proof (digits_loop_digits 64 n) as Hds. fold (digits_of 10 n) in Hds.
  destruct (digits_first n) as (c & cs & E). rewrite E in *. cbn [app] in H. apply Forall_cons in Hds as [[Hc Hcu] Hcs].
  pose proof (digit_range _ Hc) as Hr. eapply next_word; [exact H|by apply digit_starts_word|].
  intros s1 start H1 Hq. unfold scan_token. apply wp_bind, wp_asks, wp_bind, wp_asks. rewrite (proj2 (N.eqb_neq c 34)) by lia. rewrite Hc.
  unfold scan_number. eapply read_peek; [exact H1|]. set (next := (cs ++ ch " " :: w) !! 0%nat).
  assert (∀ p, (∀ d, is_digit d = true → p d = false) → p (ch " ") = false → is_some_and p next = false) as Hnext.
  { intros p Hp Hsp. unfold next. destruct cs as [|d cs]; [done|]. apply Forall_cons in Hcs as [[Hd _] _]. cbn. by apply Hp. }
  rewrite !Hnext, !andb_false_r by (done || (intros d Hd%digit_range; rewrite !(proj2 (N.eqb_neq d _)) by (unfold ch; cbn; lia); done)).
  unfold scan_decimal. unfold read_digits at 1. apply wp_bind_bind. eapply read_many; [exact H1| |done|].
  { eapply Forall_impl; [exact Hcs|]. intros d [Hd _]. by rewrite Hd. }
  intros s2 H2 Hq2. apply wp_bind_ret. rewrite filter_Forall_id by (eapply Forall_impl; [exact Hcs|]; by intros d [_ ?]).
  eapply read_peek; [exact H2|]. eapply read_ahead; [exact H2|]. cbn [lookup list_lookup sees is_some_and]. change (ch "." =? ch " ") with false. cbn [andb].
  apply wp_bind_ret. eapply read_peek; [exact H2|].
  change (is_some_and _ ((ch " " :: w) !! 0%nat)) with false. cbn iota. unfold int_magnitude. rewrite Hval.
  destruct (n =? 2 ^ 63) eqn:E63; [apply N.eqb_eq in E63 as ->; apply wp_ret; split_and!; [done|intros _; by etransitivity|done]|].
  destruct (n <? 2 ^ 63) eqn:El; [apply wp_ret; split_and!; [done|intros _; by etransitivity|done]|].
  apply N.eqb_neq in E63. apply N.ltb_ge in El. unfold invalid_number. apply wp_bind, wp_asks, wp_bind, wp_does, wp_ret.
  split_and!; [|lia|done]. unfold at_rest, add_error in *. by case_decide.
Qed.

(** An operator: every test is of characters that are known. *)
Ltac run :=
  repeat match goal with
  | |- wp (mret _) _ _ => apply wp_ret
  | |- wp (mbind _ (mret _)) _ _ => apply wp_bind_ret
  | H : at_rest ?s _ |- wp (mbind _ advance_char) ?s _ => eapply read_advance; [exact H|]; intros ? ? ?
  | H : at_rest ?s _ |- wp (mbind _ peek) ?s _ => eapply read_peek; [exact H|]
  | H : at_rest ?s _ |- wp (mbind _ (peek_ahead _)) ?s _ => eapply read_ahead; [exact H|]
  | |- wp (if ?b then _ else _) _ _ => let v := eval vm_compute in b in change b with v; cbn iota
  | |- wp (match ?x with _ => _ end) _ _ => let v := eval vm_compute in x in change x with v; cbn iota
  | |- wp (if_next _ _ _ _) _ _ => unfold if_next
  | |- wp (scan_token _ _ _ _) _ _ => unfold scan_token
  end.

Lemma op_token fuel c cs t w s : at_rest s (ch " " :: c :: cs ++ ch " " :: w) → starts_word c (cs ++ ch " " :: w) = true →
  (∀ s1 start, at_rest s1 (cs ++ ch " " :: w) → interp_stack s1 = interp_stack s →
    wp (scan_token alphanumeric (next_token alphanumeric fuel) c start) s1 (read_as t (ch " " :: w) s1)) →
  wp (next_token alphanumeric (S fuel)) s (read_as t (ch " " :: w) s).
Proof.
  intros H Hw Ht. eapply next_word; [exact H|done|]. intros s1 start H1 Hq. eapply wp_mono; [apply Ht; [done|apply Hq]|].
  intros ts s' (? & ? & ?). split_and!; [done|done|by etransitivity].
Qed.

Lemma int_read fuel n w s : is_written (Int n) = true → at_rest s (ch " " :: show_token (Int n) ++ ch " " :: w) →
  wp (next_token alphanumeric (S fuel)) s (read_as (Int n) (ch " " :: w) s).
Proof.
  cbn [is_written show_token]. intros Ht H. assert ((0 <= n < 2 ^ 63)%Z ∨ n = (- 2 ^ 63)%Z) as Hn by lia.
  assert (Z.abs_N n <= 2 ^ 63) as Hle by lia. eapply wp_mono; [apply (int_token fuel (Z.abs_N n)); [lia|done]|].
  intros ts s' (H' & Hq & Hts). split_and!; [|done|by apply Hq]. rewrite Hts. destruct Hn as [Hn| ->]; [|done].
  rewrite (proj2 (N.ltb_lt _ _)) by lia. f_equal. lia.
Qed.

Lemma float_token fuel whole frac w s : plain_digits whole → plain_digits frac → whole ≠ [] → frac ≠ [] →
  Float.is_finite (parse_f64 whole frac None) = true → at_rest s (ch " " :: (whole ++ ch "." :: frac) ++ ch " " :: w) →
  wp (next_token alphanumeric (S fuel)) s (read_as (Float_ (parse_f64 whole frac None)) (ch " " :: w) s).
Proof.
  intros Hw Hf Hw0 Hf0 Hfin H. destruct whole as [|c cs]; [done|]. cbn [app] in H. rewrite <-app_assoc in H. cbn [app] in H.
  pose proof Hw as [[Hc Hcu] Hcs]%Forall_cons. pose proof (digit_range _ Hc) as Hr. eapply next_word; [exact H|by apply digit_starts_word|].
  intros s1 start H1 Hq. unfold scan_token. apply wp_bind, wp_asks, wp_bind, wp_asks. rewrite (proj2 (N.eqb_neq c 34)) by lia. rewrite Hc.
  unfold scan_number. eapply read_peek; [exact H1|].
  assert (∀ p, (∀ d, is_digit d = true → p d = false) → p (ch ".") = false → is_some_and p ((cs ++ ch "." :: frac ++ ch " " :: w) !! 0%nat) = false) as Hnext.
  { intros p Hp Hdot. destruct cs as [|d cs]; [done|]. apply Forall_cons in Hcs as [[Hd _] _]. cbn. by apply Hp. }
  rewrite !Hnext, !andb_false_r by (done || (intros d Hd%digit_range; rewrite !(proj2 (N.eqb_neq d _)) by (unfold ch; cbn; lia); done)).
  unfold scan_decimal. unfold read_digits at 1. apply wp_bind_bind. eapply read_many; [exact H1| |done|].
  { eapply Forall_impl; [exact Hcs|]. intros d [Hd _]. by rewrite Hd. }
  intros s2 H2 Hq2. apply wp_bind_ret. rewrite filter_Forall_id by (eapply Forall_impl; [exact Hcs|]; by intros d [_ ?]).
  eapply read_peek; [exact H2|]. eapply read_ahead; [exact H2|]. destruct frac as [|d ds]; [done|]. pose proof Hf as [[Hd _] _]%Forall_cons.
  cbn [app lookup list_lookup sees is_some_and]. change (ch "." =? ch ".") with true. rewrite Hd. cbn [andb app]. apply wp_bind_bind. cbn [app] in H2.
  eapply read_advance; [exact H2|]. intros s3 H3 Hq3. unfold read_digits at 1. apply wp_bind_bind, wp_bind_bind.
  eapply (read_many _ _ s3 (d :: ds) (ch " " :: w)); [exact H3| |done|].
  { eapply Forall_impl; [exact Hf|]. intros e [He _]. by rewrite He. }
  intros s4 H4 Hq4. apply wp_bind_ret, wp_bind_ret. rewrite filter_Forall_id by (eapply Forall_impl; [exact Hf|]; by intros e [_ ?]).
  eapply read_peek; [exact H4|]. change (is_some_and _ ((ch " " :: w) !! 0%nat)) with false. cbn iota. cbn zeta. rewrite Hfin.
  apply wp_ret. split_and!; [done|done|]. repeat (etransitivity; [eassumption|]). reflexivity.
Qed.

Lemma finite_below bits : (0 ≤ bits < 2047 * 2 ^ 52)%Z → Float.is_finite bits = true.
Proof.
  intros Hb. unfold is_finite, exponent. rewrite Z.shiftr_div_pow2 by lia. rewrite Z.mod_small; [|split; [apply Z.div_pos|apply Z.div_lt_upper_bound]; lia].
  apply negb_true_iff, Z.eqb_neq. assert (bits / 2 ^ 52 < 2047)%Z by (apply Z.div_lt_upper_bound; lia). lia.
Qed.

Lemma float_read fuel bits w s : is_written (Float_ bits) = true → at_rest s (ch " " :: show_token (Float_ bits) ++ ch " " :: w) →
  wp (next_token alphanumeric (S fuel)) s (read_as (Float_ bits) (ch " " :: w) s).
Proof.
  cbn [is_written show_token]. intros Hb H. assert (0 ≤ bits < 2047 * 2 ^ 52)%Z as Hbits by lia.
  destruct (written_float bits Hbits) as (whole & frac & Et & Hw & Hf & Hw0 & Hf0 & Hp). rewrite Et in H.
  rewrite <-Hp. apply float_token; try done. rewrite Hp. by apply finite_below.
Qed.

Lemma ident_read fuel name w s : is_written (Ident name) = true → at_rest s (ch " " :: show_token (Ident name) ++ ch " " :: w) →
  wp (next_token alphanumeric (S fuel)) s (read_as (Ident name) (ch " " :: w) s).
Proof.
  cbn [is_written show_token]. intros [Hn Hk%negb_true_iff]%andb_true_iff H. destruct name as [|c cs]; [done|].
  pose proof (name_token fuel c cs w s Hn H) as Hr. unfold keyword_or_name in Hr. destruct (find _ keywords) as [k|] eqn:E; [|exact Hr].
  apply find_some in E as [Hin Hk']. assert (existsb (λ k, bool_decide (k.1 = c :: cs)) keywords = true) as Hex; [|by rewrite Hk in Hex].
  apply existsb_exists. by exists k.
Qed.

Lemma token_read fuel t w s : is_written t = true → at_rest s (ch " " :: show_token t ++ ch " " :: w) → interp_stack s = [] →
  wp (next_token alphanumeric (S fuel)) s (read_as t (ch " " :: w) s).
Proof.
  intros Ht H Hst. destruct t as [ |  |  |  |  |  |  |  |  |  |  |  |  |  | n | bits | b |  |  |  |  | name |  |  |  |  |  |  |  |  |  |  |  |  |  |  |  |  |  |  |  |  |  |  |  |  |  |  |  |  |  |  |  |  |  |  |  | ]; try done.
  15: by apply int_read.
  15: by apply float_read.
  15: by destruct b; [apply (name_token fuel (ch "t") (str "rue"))|apply (name_token fuel (ch "f") (str "alse"))].
  15: by apply ident_read.
  all: match goal with |- wp _ _ (read_as ?t _ _) =>
    let v := eval vm_compute in (show_token t) in
    match v with ?c :: ?cs =>
      change (at_rest s (ch " " :: c :: cs ++ ch " " :: w)) in H;
      let b := eval vm_compute in (is_name (c :: cs)) in
      match b with
      | true => exact (name_token fuel c cs w s eq_refl H)
      | false => refine (op_token fuel c cs _ w s H eq_refl _); clear H; intros s1 start H1 Hst1
      end end end.
  all: unfold scan_token; eapply read_peek; [exact H1|]; eapply read_ahead; [exact H1|]; run.
  all: try (split_and!; [done|assumption|by repeat first [assumption|reflexivity|etransitivity; [eassumption|]]]).
  1, 3: unfold open_brace; apply wp_bind, wp_does, wp_ret; split_and!; [done|assumption|]; etransitivity; [eassumption || reflexivity|by split].
  unfold close_brace. apply wp_bind, wp_asks, wp_bind, wp_asks. rewrite Hst1, Hst. apply wp_bind, wp_does, wp_ret. by split_and!.
Qed.

(** ** A text of tokens *)
Lemma end_read fuel s : at_rest s [ch " "] → wp (next_token alphanumeric (S fuel)) s (read_as Eof [] s).
Proof.
  intros H. cbn [next_token]. unfold skip_whitespace. apply wp_bind, wp_bind, wp_asks. rewrite (rest_left _ _ H). cbn [length white_loop].
  eapply read_peek; [exact H|]. change ([ch " "] !! 0%nat) with (Some (ch " ")). cbn iota. change ((ch " " =? ch " ") || (ch " " =? 9) || (ch " " =? 13)) with true. cbn iota.
  eapply read_advance; [exact H|]. intros s1 H1 Hq1. eapply read_peek; [exact H1|]. apply wp_ret, wp_bind, wp_asks, wp_bind. cbn [trivia_loop].
  eapply read_peek; [exact H1|]. eapply read_ahead; [exact H1|]. apply wp_ret, wp_bind, wp_asks, wp_bind.
  exists None, s1. unfold advance_char. rewrite (rest_head _ _ H1). split; [done|]. by apply wp_ret.
Qed.

Definition write_tokens (ts : list Token) : text := concat ((λ t, ch " " :: show_token t) <$> ts) ++ [ch " "].

Lemma loop_read fuel ts done_ s : forallb is_written ts = true → at_rest s (write_tokens ts) → interp_stack s = [] → more_errors s = 0 →
  (length ts < fuel)%nat →
  wp (tokenize_loop alphanumeric fuel false done_) s (λ all s', kind <$> all = (kind <$> done_) ++ ts ++ [Eof] ∧ quiet s s').
Proof.
  revert ts done_ s. induction fuel as [|fuel IH]; intros ts done_ s Hts H Hst Hm Hf; [lia|]. cbn [tokenize_loop]. apply wp_bind, wp_asks, wp_bind.
  destruct ts as [|t ts].
  - eapply wp_mono; [by apply end_read|]. intros [k start] s1 (Hk & _ & Hq). cbn in Hk. subst k.
    apply wp_bind, wp_asks. rewrite (q_more _ _ Hq), Hm. apply wp_bind. eexists _, _. split; [done|]. apply wp_ret. split; [by rewrite fmap_app|].
    etransitivity; [exact Hq|by split].
  - cbn [forallb] in Hts. apply andb_true_iff in Hts as [Ht Hts]. assert (∃ w, write_tokens ts = ch " " :: w) as [w Hw].
    { destruct ts; by eexists. }
    assert (at_rest s (ch " " :: show_token t ++ ch " " :: w)) as H'.
    { unfold at_rest in *. rewrite H. unfold write_tokens in *. rewrite <-Hw. rewrite fmap_cons. cbn [concat]. by rewrite <-app_assoc. }
    eapply wp_mono; [by apply token_read|]. intros [k start] s1 (Hk & H1 & Hq). cbn in Hk. subst k.
    apply wp_bind, wp_asks. rewrite (q_more _ _ Hq), Hm. apply wp_bind. eexists _, _. split; [done|].
    assert (is_eof t = false) as -> by (by destruct t). eapply wp_mono; [apply (IH ts)|].
    + done.
    + unfold at_rest in *. by rewrite Hw.
    + cbn. by rewrite (q_stack _ _ Hq).
    + cbn. by rewrite (q_more _ _ Hq).
    + cbn in Hf. lia.
    + intros all s2 [Hall Hq2]. split; [by rewrite Hall, fmap_app, <-app_assoc|]. etransitivity; [exact Hq|]. etransitivity; [|exact Hq2]. by split.
Qed.
End words.

(** C22. Tokens that are written with spaces between them are read as they are:
    the keywords, the operators, the names and the numbers of the lexer are
    those of a token's Display, and nothing of one runs over into the next.
    A Float, every finite one that is not negative, is written as the
    decimal of the fewest digits that is it, and read as the same 64 bits.
    (The text of a string is for messages.) *)
Theorem written_tokens_are_read (alphanumeric : N → bool) (f : N) (ts : list Token) : forallb is_written ts = true →
  ∃ l, lex alphanumeric f (write_tokens ts) = Some l ∧ kind <$> tokens l = ts ++ [Eof] ∧ l_errors l = [] ∧
    l_more_errors l = 0 ∧ is_cut_short l = false.
Proof.
  intros Hts. set (src := write_tokens ts). assert (∃ w, src = ch " " :: w) as [w Hw] by (unfold src; destruct ts; by eexists).
  set (s0 := mkLexer f src 0 0 [] [] 0 [] 0 0 [] 0 false false ∅ []). assert (new_lexer f src = s0) as Hnew.
  { unfold new_lexer. assert (src !! 0%nat = Some (ch " ")) as -> by (by rewrite Hw). done. }
  unfold lex, tokenize. rewrite Hnew.
  destruct (loop_read alphanumeric (S (S (S (left s0)))) ts [] s0) as (all & s & Hr & Hk & Hq); [done|done|done|done| |].
  - unfold left. cbn. unfold src, write_tokens. rewrite length_app. assert (length ts <= length (concat ((λ t, ch " " :: show_token t) <$> ts)))%nat; [|lia].
    clear. induction ts as [|t ts IH]; [cbn; lia|]. rewrite fmap_cons. cbn [concat length]. rewrite length_app. cbn [length]. lia.
  - rewrite Hr. cbn. rewrite (q_repeats _ _ Hq), (q_errors _ _ Hq). cbn. unfold note_repeats. rewrite map_to_list_empty. cbn. eexists. split; [done|]. cbn.
    split_and!; [done|done|by rewrite (q_more _ _ Hq)|]. unfold is_cut_short. cbn. by rewrite (q_cut _ _ Hq), (q_quotes _ _ Hq).
Qed.

Lemma written_tokens_are_read_witness :
  let ts := [Let; Ident (str "x"); Eq; Int 9223372036854775807; DotDotDot; LBrace; RBrace; Int (-9223372036854775808); ColonColon;
    Float_ 4614253070214989087] in
  forallb is_written ts = true ∧ write_text 4614253070214989087 = str "3.14" ∧
  ∃ l, lex (λ _, false) 0 (write_tokens ts) = Some l ∧ kind <$> tokens l = ts ++ [Eof] ∧ l_errors l = [] ∧
    l_more_errors l = 0 ∧ is_cut_short l = false.
Proof. cbv zeta. split; [reflexivity|]. split; [vm_compute; reflexivity|]. apply written_tokens_are_read. reflexivity. Defined.

(** ** Strings *)
Definition escape_char (c : N) : text :=
  if (c =? 34) || (c =? ch "\") || (c =? ch "{") then [ch "\"; c] else if c =? 13 then str "\r" else [c].
(** A text between quotes, as it can be written for any text. *)
Definition literal (t : text) : text := [34] ++ concat (escape_char <$> t) ++ [34].

Section strings.
Context (alphanumeric : N → bool).

Lemma read_here {B} (f : Span → Scan B) s Q : (∀ sp, wp (f sp) s Q) → wp (here ≫= f) s Q.
Proof. intros H. apply wp_bind, wp_asks, H. Qed.

Lemma escape_read c e w s : at_rest s (ch "\" :: c :: w) → c ≠ ch "u" → escape_of c = Some e →
  wp (scan_escape alphanumeric) s (λ r s', r = Some [e] ∧ at_rest s' w ∧ quiet s s').
Proof.
  intros H Hu He. unfold scan_escape. apply read_here. intros sp. eapply read_advance; [exact H|]. intros s1 H1 Hq1.
  eapply read_advance; [exact H1|]. intros s2 H2 Hq2. rewrite (proj2 (N.eqb_neq c _)), He by done. apply wp_ret. split_and!; [done|done|by etransitivity].
Qed.

Lemma string_read fuel start opened acc t w s : at_rest s (concat (escape_char <$> t) ++ 34 :: w) → (length t < fuel)%nat →
  wp (string_loop alphanumeric fuel start opened false acc) s (read_as (StringLit (acc ++ t)) w s).
Proof.
  revert acc t s. induction fuel as [|fuel IH]; intros acc t s H Hf; [lia|]. cbn [string_loop].
  eapply read_peek; [exact H|]. destruct t as [|c t].
  { cbn [fmap list_fmap concat app]. change ((34 :: w) !! 0%nat) with (Some 34). eapply read_ahead; [exact H|].
    change (34 =? ch "\") with false. change (34 =? ch "{") with false. change (34 =? 34) with true. cbn iota.
    eapply read_advance; [exact H|]. intros s1 H1 Hq. apply wp_ret. by rewrite app_nil_r. }
  assert (∀ s1, at_rest s1 (concat (escape_char <$> t) ++ 34 :: w) → quiet s s1 →
    wp (string_loop alphanumeric fuel start opened false (acc ++ [c])) s1 (read_as (StringLit (acc ++ c :: t)) w s)) as Hgo.
  { intros s1 H1 Hq1. eapply wp_mono; [apply (IH _ t); [done|cbn in Hf; lia]|]. intros ts s2 (Ht & H2 & Hq2).
    split_and!; [by rewrite Ht, <-app_assoc|done|by etransitivity]. }
  rewrite fmap_cons in H |- *. cbn [concat] in H |- *. rewrite <-app_assoc in H |- *. unfold escape_char in H at 1 |- * at 1.
  assert (∀ d, d ≠ ch "u" → escape_of d = Some c → at_rest s (ch "\" :: d :: concat (escape_char <$> t) ++ 34 :: w) →
    wp (e ← scan_escape alphanumeric; match e with Some more => string_loop alphanumeric fuel start opened false (acc ++ more) | None => unterminated start OpenEscape end)
      s (read_as (StringLit (acc ++ c :: t)) w s)) as Hesc.
  { intros d Hd He H'. apply wp_bind. eapply wp_mono; [by apply (escape_read d c)|]. intros r s1 (-> & H1 & Hq1). by apply Hgo. }
  destruct ((c =? 34) || (c =? ch "\") || (c =? ch "{")) eqn:E.
  { eapply read_ahead; [exact H|]. apply (Hesc c).
    - intros ->. done.
    - unfold escape_of. rewrite !orb_true_iff, !N.eqb_eq in E. by destruct E as [[-> | ->]| ->].
    - exact H. }
  rewrite !orb_false_iff in E. destruct E as [[E1 E2] E3]. destruct (c =? 13) eqn:E4.
  { apply N.eqb_eq in E4 as ->. eapply read_ahead; [exact H|]. by apply (Hesc (ch "r")). }
  cbn [app] in H |- *. change ((c :: ?l) !! 0%nat) with (Some c). eapply read_ahead; [exact H|]. rewrite E2, E3, E1, E4. cbn [andb].
  eapply read_advance; [exact H|]. intros s1 H1 Hq1. by apply Hgo.
Qed.

Lemma literal_token fuel t w s : at_rest s (ch " " :: literal t ++ ch " " :: w) →
  wp (next_token alphanumeric (S fuel)) s (read_as (StringLit t) (ch " " :: w) s).
Proof.
  unfold literal. cbn [app]. rewrite <-app_assoc. intros H. eapply next_word; [exact H|done|]. intros s1 start H1 Hq1. cbn [app] in H1.
  unfold scan_token. eapply read_peek; [exact H1|]. eapply read_ahead; [exact H1|]. change (34 =? 34) with true. cbn iota.
  set (rest := concat (escape_char <$> t) ++ 34 :: ch " " :: w) in *.
  assert (sees 34 (rest !! 0%nat) && sees 34 (rest !! 1%nat) = false) as ->.
  { unfold rest. destruct t as [|c t]; [done|]. rewrite fmap_cons. cbn [concat]. unfold escape_char at 1 3.
    destruct (c =? 34) eqn:E; [done|]. destruct (c =? ch "\"); [done|]. destruct (c =? ch "{"); [done|]. cbn [orb]. destruct (c =? 13); [done|].
    apply andb_false_iff. left. cbn [app]. change (sees 34 (Some c) = false). unfold sees, is_some_and. by rewrite N.eqb_sym. }
  unfold scan_string. apply wp_bind, wp_asks. rewrite (rest_left _ _ H1). eapply wp_mono; [apply (string_read _ _ _ _ t); [exact H1|]|].
  - unfold rest. rewrite length_app. assert (length t <= length (concat (escape_char <$> t)))%nat; [|cbn; lia]. clear.
    induction t as [|c t IH]; [cbn; lia|]. rewrite fmap_cons. cbn [concat]. rewrite length_app. unfold escape_char at 1.
    destruct (_ || _ || _); [cbn; lia|]. destruct (c =? 13); cbn; lia.
  - intros ts s2 (? & ? & ?). split_and!; [done|done|by etransitivity].
Qed.
End strings.

(** C23. Every text has a literal, and the lexer reads the text back from it:
    one string token, whatever quotes, backslashes, braces, line ends and
    control characters the text has. *)
Theorem literal_is_read (alphanumeric : N → bool) (f : N) (t : text) :
  ∃ l, lex alphanumeric f (ch " " :: literal t ++ [ch " "]) = Some l ∧ kind <$> tokens l = [StringLit t; Eof] ∧ l_errors l = [].
Proof.
  set (src := ch " " :: literal t ++ [ch " "]). set (s0 := mkLexer f src 0 0 [] [] 0 [] 0 0 [] 0 false false ∅ []).
  unfold lex, tokenize. change (new_lexer f src) with s0. set (fuel := S (left s0)).
  assert (wp (tokenize_loop alphanumeric (S (S fuel)) false []) s0 (λ all s', kind <$> all = [StringLit t; Eof] ∧ quiet s0 s')) as (all & s & Hr & Hk & Hq).
  { cbn [tokenize_loop]. apply wp_bind, wp_asks, wp_bind. eapply wp_mono; [by apply (literal_token _ _ t [])|].
    intros [k start] s1 (Hk & H1 & Hq1). cbn in Hk. subst k. apply wp_bind, wp_asks. rewrite (q_more _ _ Hq1). apply wp_bind. eexists _, _. split; [done|].
    cbn [is_eof]. apply wp_bind, wp_asks, wp_bind. eapply wp_mono; [by apply end_read|]. intros [k start'] s2 (Hk & _ & Hq2). cbn in Hk. subst k.
    apply wp_bind, wp_asks. rewrite (q_more _ _ Hq2). cbn. rewrite (q_more _ _ Hq1). cbn. apply wp_bind. eexists _, _. split; [done|]. apply wp_ret.
    split; [done|]. etransitivity; [exact Hq1|]. etransitivity; [|etransitivity; [exact Hq2|]]; by split. }
  rewrite Hr. cbn. rewrite (q_repeats _ _ Hq), (q_errors _ _ Hq). cbn. unfold note_repeats. rewrite map_to_list_empty. cbn. by eexists.
Qed.
