(* ===== verification/Types.v ===== *)
(** * Types, substitutions and canonical forms (src/types/mod.rs, src/types/canonical.rs)

    A type is what inference works on.  A definition, a trait, an
    annotation's variable is its id: the names that go with ids are for
    messages and no comparison looks at them.  [builtin_type_id] is the
    table of the builtin types by name (src/defs.rs). *)

From S2P Require Import Prelude.

(** ** The data *)
Notation TyVar := nat (only parsing).
Notation RigidId := nat (only parsing).
Notation Symbol := N (only parsing).
Notation TypeRef := N (only parsing).
Notation TraitKey := N (only parsing).

Inductive RowTail :=
| Closed
| RowVar (v : TyVar)
| RowRigid (r : RigidId).
#[export] Instance RowTail_eq_dec : EqDecision RowTail.
Proof. solve_decision. Defined.

Inductive Head :=
| Named (r : TypeRef)
| HList
| HMap
| HSet
| HChannel.
#[export] Instance Head_eq_dec : EqDecision Head.
Proof. solve_decision. Defined.

(** The fields of a record are in the order of their names, each once
    (a BTreeMap): see [bt_get], [bt_insert]. *)
Inductive Type_ :=
| Int
| Float
| Bool
| String_
| Unit
| Var (v : TyVar)
| Rigid (r : RigidId)
| Fun (params : list Type_) (ret : Type_)
| List (inner : Type_)
| Tuple (parts : list Type_)
| Generic (name : TypeRef) (args : list Type_)
| Map (k v : Type_)
| Set_ (inner : Type_)
| Channel (inner : Type_)
| Error
| Never
| AssocProj (receiver : Type_) (trait_name : TraitKey) (assoc_name : Symbol)
| AnonRecord (fields : list (Symbol * Type_)) (tail : RowTail)
| App (head arg : Type_)
| Con (head : Head) (rest : list Type_).

(** ** Maps in the order of their keys *)
Section fields.
Context {A : Type}.

Definition bt_get (k : Symbol) (m : list (Symbol * A)) : option A := snd <$> List.find (λ p, p.1 =? k)%N m.
Definition bt_has (k : Symbol) (m : list (Symbol * A)) : bool := existsb (λ p, p.1 =? k)%N m.

(** [entry(k).or_insert(x)]: what is there stays. *)
Fixpoint bt_or_insert (k : Symbol) (x : A) (m : list (Symbol * A)) : list (Symbol * A) :=
  match m with
  | [] => [(k, x)]
  | (j, y) :: m =>
      if (k <? j)%N then (k, x) :: (j, y) :: m
      else if (k =? j)%N then (j, y) :: m
      else (j, y) :: bt_or_insert k x m
  end.
Definition bt_merge (fields more : list (Symbol * A)) : list (Symbol * A) :=
  foldl (λ m p, bt_or_insert p.1 p.2 m) fields more.
End fields.

(** ** Equality *)
Section list_eqb.
Context {A : Type} (eqb : A → A → bool).
Fixpoint list_eqb (l k : list A) : bool :=
  match l, k with
  | [], [] => true
  | x :: l, y :: k => eqb x y && list_eqb l k
  | _, _ => false
  end.
End list_eqb.

Fixpoint type_eqb (t u : Type_) {struct t} : bool :=
  match t, u with
  | Int, Int | Float, Float | Bool, Bool | String_, String_ | Unit, Unit | Error, Error | Never, Never => true
  | Var v, Var w => (v =? w)%nat
  | Rigid r, Rigid s => (r =? s)%nat
  | Fun p r, Fun q s => list_eqb type_eqb p q && type_eqb r s
  | List x, List y | Set_ x, Set_ y | Channel x, Channel y => type_eqb x y
  | Tuple l, Tuple k => list_eqb type_eqb l k
  | Generic n l, Generic m k => (n =? m)%N && list_eqb type_eqb l k
  | Map a b, Map c d | App a b, App c d => type_eqb a c && type_eqb b d
  | AssocProj x t n, AssocProj y s m => type_eqb x y && (t =? s)%N && (n =? m)%N
  | AnonRecord f t, AnonRecord g s =>
      list_eqb (λ p q, (p.1 =? q.1)%N && type_eqb p.2 q.2) f g && bool_decide (t = s)
  | Con h l, Con i k => bool_decide (h = i) && list_eqb type_eqb l k
  | _, _ => false
  end.

(** ** Constructors *)

(** [Head::apply]: the full type of a constructor with the arguments after
    its first, applied to [arg]. *)
Definition head_apply (h : Head) (rest : list Type_) (arg : Type_) : Type_ :=
  match h with
  | Named r => Generic r (arg :: rest)
  | HList => List arg
  | HSet => Set_ arg
  | HChannel => Channel arg
  | HMap => Map arg (default Error (last rest))
  end.

(** [Type::applied]. *)
Definition applied (head arg : Type_) : Type_ :=
  match head with
  | Con h rest => head_apply h rest arg
  | other => App other arg
  end.

Section builtins.
Context (builtin_type_id : string → option TypeRef).

Definition is_builtin (name : string) (r : TypeRef) : bool := bool_decide (builtin_type_id name = Some r).
Definition TYPE_OF : string := "TypeOf".

Definition split_constructor (t : Type_) : option (Head * list Type_ * Type_) :=
  match t with
  | Generic r (x :: args) => if is_builtin TYPE_OF r then None else Some (Named r, args, x)
  | List x => Some (HList, [], x)
  | Set_ x => Some (HSet, [], x)
  | Channel x => Some (HChannel, [], x)
  | Map k v => Some (HMap, [v], k)
  | _ => None
  end.
End builtins.

(** ** Questions *)
Fixpoint holds_error (t : Type_) : bool :=
  match t with
  | Error => true
  | Generic _ ts | Tuple ts => existsb holds_error ts
  | Fun params ret => existsb holds_error params || holds_error ret
  | List t | Set_ t | Channel t => holds_error t
  | Map k v => holds_error k || holds_error v
  | AssocProj receiver _ _ => holds_error receiver
  | AnonRecord fields _ => existsb (λ p, holds_error p.2) fields
  | App head arg => holds_error head || holds_error arg
  | Con _ rest => existsb holds_error rest
  | Int | Float | Bool | String_ | Unit | Var _ | Rigid _ | Never => false
  end.

(** Every named type a type mentions. *)
Fixpoint collect_refs (t : Type_) : list TypeRef :=
  match t with
  | Generic r args => r :: flat_map collect_refs args
  | Fun params ret => flat_map collect_refs params ++ collect_refs ret
  | List t | Set_ t | Channel t => collect_refs t
  | Map k v => collect_refs k ++ collect_refs v
  | Tuple ts => flat_map collect_refs ts
  | AssocProj receiver _ _ => collect_refs receiver
  | AnonRecord fields _ => flat_map (λ p, collect_refs p.2) fields
  | Con head rest => match head with Named r => [r] | _ => [] end ++ flat_map collect_refs rest
  | App head arg => collect_refs head ++ collect_refs arg
  | _ => []
  end.

(** [Distinct]: items each kept once, in the order first pushed. *)
Definition push_distinct (out : list TyVar) (v : TyVar) : list TyVar :=
  if bool_decide (v ∈ out) then out else out ++ [v].

Fixpoint vars_walk (t : Type_) (out : list TyVar) {struct t} : list TyVar :=
  match t with
  | Var v => push_distinct out v
  | Fun params ret => vars_walk ret (fold_left (λ out t, vars_walk t out) params out)
  | List t | Set_ t | Channel t => vars_walk t out
  | Map k v => vars_walk v (vars_walk k out)
  | Tuple ts | Generic _ ts | Con _ ts => fold_left (λ out t, vars_walk t out) ts out
  | AssocProj receiver _ _ => vars_walk receiver out
  | AnonRecord fields tail =>
      let out := fold_left (λ out p, vars_walk p.2 out) fields out in
      match tail with RowVar v => push_distinct out v | _ => out end
  | App head arg => vars_walk arg (vars_walk head out)
  | Int | Float | Bool | String_ | Unit | Rigid _ | Error | Never => out
  end.
Definition free_vars_in (t : Type_) : list TyVar := vars_walk t [].

Fixpoint heads_walk (t : Type_) (out : list TyVar) {struct t} : list TyVar :=
  match t with
  | App head arg =>
      let out := match head with Var v => push_distinct out v | _ => out end in
      heads_walk arg (heads_walk head out)
  | Fun params ret => heads_walk ret (fold_left (λ out t, heads_walk t out) params out)
  | List t | Set_ t | Channel t => heads_walk t out
  | Map k v => heads_walk v (heads_walk k out)
  | Tuple ts | Generic _ ts | Con _ ts => fold_left (λ out t, heads_walk t out) ts out
  | AnonRecord fields _ => fold_left (λ out p, heads_walk p.2 out) fields out
  | AssocProj receiver _ _ => heads_walk receiver out
  | _ => out
  end.
(** The variables a type applies as type constructors. *)
Definition constructor_heads (t : Type_) : list TyVar := heads_walk t [].

(** The occurs check. *)
Fixpoint occurs_in (var : TyVar) (t : Type_) : bool :=
  match t with
  | Var v => (v =? var)%nat
  | Fun params ret => existsb (occurs_in var) params || occurs_in var ret
  | List t => occurs_in var t
  | Tuple ts => existsb (occurs_in var) ts
  | Generic _ ts => existsb (occurs_in var) ts
  | Map k v => occurs_in var k || occurs_in var v
  | Set_ t => occurs_in var t
  | Channel t => occurs_in var t
  | AssocProj receiver _ _ => occurs_in var receiver
  | AnonRecord fields tail =>
      existsb (λ p, occurs_in var p.2) fields || match tail with RowVar v => (v =? var)%nat | _ => false end
  | App head arg => occurs_in var head || occurs_in var arg
  | Con _ rest => existsb (occurs_in var) rest
  | Int | Float | Bool | String_ | Unit | Rigid _ | Error | Never => false
  end.

Definition or_else {A} (a b : option A) : option A := match a with Some x => Some x | None => b end.
Section find_map.
Context {A B : Type} (f : A → option B).
Fixpoint find_map (l : list A) : option B := match l with [] => None | x :: l => or_else (f x) (find_map l) end.
End find_map.

(** A rigid variable of a type, if it has one. *)
Fixpoint rigid_in (t : Type_) : option RigidId :=
  match t with
  | Rigid r => Some r
  | Fun params ret => or_else (find_map rigid_in params) (rigid_in ret)
  | List t | Set_ t | Channel t => rigid_in t
  | Tuple ts => find_map rigid_in ts
  | Generic _ ts => find_map rigid_in ts
  | Map k v => or_else (rigid_in k) (rigid_in v)
  | AssocProj receiver _ _ => rigid_in receiver
  | AnonRecord fields tail =>
      match tail with RowRigid r => Some r | _ => find_map (λ p, rigid_in p.2) fields end
  | App head arg => or_else (rigid_in head) (rigid_in arg)
  | Con _ rest => find_map rigid_in rest
  | Int | Float | Bool | String_ | Unit | Var _ | Error | Never => None
  end.

(** ** Substitutions *)
Section values.
Context {A B : Type} (f : A → option B).
Definition mapM_values (fields : list (Symbol * A)) : option (list (Symbol * B)) :=
  mapM (λ p, x ← f p.2; Some (p.1, x)) fields.
End values.

(** [substitute_vars].  What a row's variable stands for is merged into the
    record, and what stands there already stays; the fields that come in
    are substituted too, so that a row that stands for a record with the
    row in it has no end ([fuel]). *)
Fixpoint substitute_vars (fuel : nat) (mapping : gmap TyVar Type_) (t : Type_) : option Type_ :=
  match fuel with
  | O => None
  | S fuel =>
      let subst := substitute_vars fuel mapping in
      match t with
      | Var v => Some (default t (mapping !! v))
      | Fun params ret => params ← mapM subst params; ret ← subst ret; Some (Fun params ret)
      | List t => List <$> subst t
      | Tuple ts => Tuple <$> mapM subst ts
      | Generic n ts => Generic n <$> mapM subst ts
      | Map k v => k ← subst k; v ← subst v; Some (Map k v)
      | Set_ t => Set_ <$> subst t
      | Channel t => Channel <$> subst t
      | AssocProj receiver tr n => receiver ← subst receiver; Some (AssocProj receiver tr n)
      | AnonRecord fields tail =>
          new_fields ← mapM_values subst fields;
          match tail with
          | RowVar v =>
              match mapping !! v with
              | Some (AnonRecord extra_fields extra_tail) =>
                  merged ← foldl (λ merged p,
                    merged ← merged;
                    if bt_has p.1 merged then Some merged
                    else x ← subst p.2; Some (bt_or_insert p.1 x merged)) (Some new_fields) extra_fields;
                  Some (AnonRecord merged extra_tail)
              | Some (Var w) => Some (AnonRecord new_fields (RowVar w))
              | Some (Rigid r) => Some (AnonRecord new_fields (RowRigid r))
              | Some other => Some other
              | None => Some (AnonRecord new_fields (RowVar v))
              end
          | Closed => Some (AnonRecord new_fields Closed)
          | RowRigid r => Some (AnonRecord new_fields (RowRigid r))
          end
      | App head arg => head ← subst head; arg ← subst arg; Some (applied head arg)
      | Con head rest => Con head <$> mapM subst rest
      | _ => Some t
      end
  end.

(** The type parameters of an enum at type arguments. *)
Definition position (v : TyVar) (ids : list TyVar) : option nat := fst <$> list_find (λ id, id = v) ids.
Fixpoint substitute_enum_params (param_var_ids : list TyVar) (type_args : list Type_) (t : Type_) : Type_ :=
  let subst := substitute_enum_params param_var_ids type_args in
  match t with
  | Var v =>
      match position v param_var_ids with
      | Some pos => default t (type_args !! pos)
      | None => t
      end
  | Fun params ret => Fun (map subst params) (subst ret)
  | List t => List (subst t)
  | Tuple ts => Tuple (map subst ts)
  | Generic n ts => Generic n (map subst ts)
  | Channel t => Channel (subst t)
  | Map k v => Map (subst k) (subst v)
  | Set_ t => Set_ (subst t)
  | AssocProj receiver tr n => AssocProj (subst receiver) tr n
  | AnonRecord fields tail => AnonRecord (map (λ p, (p.1, subst p.2)) fields) tail
  | _ => t
  end.

(** [map_rigid], with what its function keeps. *)
Section map_acc.
Context {A B S : Type} (f : A → S → B * S).
Fixpoint map_acc (l : list A) (s : S) : list B * S :=
  match l with
  | [] => ([], s)
  | x :: l => let '(y, s) := f x s in let '(l, s) := map_acc l s in (y :: l, s)
  end.
End map_acc.

Section map_rigid.
Context {S : Type} (f : RigidId → S → Type_ * S).

Definition tail_rigid (tail : RowTail) (s : S) : RowTail * S :=
  match tail with
  | RowRigid r =>
      let '(t, s) := f r s in
      (match t with Var v => RowVar v | Rigid other => RowRigid other | _ => tail end, s)
  | _ => (tail, s)
  end.

Fixpoint map_rigid (t : Type_) (s : S) : Type_ * S :=
  match t with
  | Rigid r => f r s
  | Fun params ret =>
      let '(params, s) := map_acc map_rigid params s in
      let '(ret, s) := map_rigid ret s in (Fun params ret, s)
  | List t => let '(t, s) := map_rigid t s in (List t, s)
  | Set_ t => let '(t, s) := map_rigid t s in (Set_ t, s)
  | Channel t => let '(t, s) := map_rigid t s in (Channel t, s)
  | Tuple ts => let '(ts, s) := map_acc map_rigid ts s in (Tuple ts, s)
  | Generic n ts => let '(ts, s) := map_acc map_rigid ts s in (Generic n ts, s)
  | Map k v => let '(k, s) := map_rigid k s in let '(v, s) := map_rigid v s in (Map k v, s)
  | AssocProj receiver tr n => let '(receiver, s) := map_rigid receiver s in (AssocProj receiver tr n, s)
  | AnonRecord fields tail =>
      let '(fields, s) := map_acc (λ p s, let '(t, s) := map_rigid p.2 s in ((p.1, t), s)) fields s in
      let '(tail, s) := tail_rigid tail s in (AnonRecord fields tail, s)
  | App head arg => let '(head, s) := map_rigid head s in let '(arg, s) := map_rigid arg s in (applied head arg, s)
  | Con head rest => let '(rest, s) := map_acc map_rigid rest s in (Con head rest, s)
  | Int | Float | Bool | String_ | Unit | Var _ | Error | Never => (t, s)
  end.
End map_rigid.

(** The rigid variables of a type as the variables a scheme quantifies, and
    back. *)
Definition unrigidify (t : Type_) : Type_ * list TyVar :=
  map_rigid (λ r vars, (Var r, push_distinct vars r)) t [].
Definition release_rigid (own : list RigidId) (t : Type_) : Type_ * list TyVar :=
  map_rigid (λ r vars, if bool_decide (r ∈ own) then (Var r, push_distinct vars r) else (Rigid r, vars)) t [].
Definition rigidify (fuel : nat) (rigid : list RigidId) (t : Type_) : option Type_ :=
  match rigid with
  | [] => Some t
  | _ => substitute_vars fuel (list_to_map ((λ r, (r, Rigid r)) <$> rigid)) t
  end.

(** ** Instances *)
Notation Stands := (gmap TyVar Type_) (only parsing).
Section all_instances.
Context (instance : Type_ → Type_ → Stands → bool * Stands).
Fixpoint zip_all (general at_ : list Type_) (stands : Stands) : bool * Stands :=
  match general, at_ with
  | g :: general, a :: at_ =>
      let '(b, stands) := instance g a stands in
      if b then zip_all general at_ stands else (false, stands)
  | _, _ => (true, stands)
  end.
Definition all_instances (general at_ : list Type_) (stands : Stands) : bool * Stands :=
  if (length general =? length at_)%nat then zip_all general at_ stands else (false, stands).
End all_instances.

Section zip_fields.
Context (instance : Type_ → Type_ → Stands → bool * Stands).
Fixpoint zip_fields (general at_ : list (Symbol * Type_)) (stands : Stands) : bool * Stands :=
  match general, at_ with
  | (gn, g) :: general, (an, a) :: at_ =>
      if (gn =? an)%N then
        let '(b, stands) := instance g a stands in
        if b then zip_fields general at_ stands else (false, stands)
      else (false, stands)
  | _, _ => (true, stands)
  end.
End zip_fields.

(** Whether [at_] is [general] with a type for each of its variables, which
    [stands] then holds. *)
Fixpoint instance_of (general at_ : Type_) (stands : Stands) {struct general} : bool * Stands :=
  match general, at_ with
  | Var v, _ =>
      match stands !! v with
      | Some known => (type_eqb known at_, stands)
      | None => (true, <[v := at_]> stands)
      end
  | Fun gp gr, Fun ap ar =>
      let '(b, stands) := all_instances instance_of gp ap stands in
      if b then instance_of gr ar stands else (false, stands)
  | List g, List a | Set_ g, Set_ a | Channel g, Channel a => instance_of g a stands
  | Tuple g, Tuple a => all_instances instance_of g a stands
  | Generic gn g, Generic an a => if (gn =? an)%N then all_instances instance_of g a stands else (false, stands)
  | Map gk gv, Map ak av =>
      let '(b, stands) := instance_of gk ak stands in
      if b then instance_of gv av stands else (false, stands)
  | App gh ga, App ah aa =>
      let '(b, stands) := instance_of gh ah stands in
      if b then instance_of ga aa stands else (false, stands)
  | Con gh g, Con ah a => if bool_decide (gh = ah) then all_instances instance_of g a stands else (false, stands)
  | AnonRecord g Closed, AnonRecord a Closed =>
      if (length g =? length a)%nat then zip_fields instance_of g a stands else (false, stands)
  | _, _ => (type_eqb general at_, stands)
  end.

(** ** Canonical forms (canonical.rs) *)
Record AliasInfo := mkAlias {
  param_var_ids : list TyVar;
  target : Type_;
}.
Record AssocBinding := mkBinding {
  bound_ty : Type_;
  bound_of : Type_;
}.
(** The trait, the head of the impl's target, the name. *)
Definition AssocKey := (TraitKey * TypeRef * Symbol)%type.

Record Resolver := mkResolver {
  aliases : gmap TypeRef AliasInfo;
  assoc_bindings : gmap AssocKey AssocBinding;
}.
Definition register_alias (alias : TypeRef) (info : AliasInfo) (r : Resolver) : Resolver :=
  mkResolver (<[alias := info]> (aliases r)) (assoc_bindings r).
Definition lookup_alias (r : Resolver) (alias : TypeRef) : option AliasInfo := aliases r !! alias.
Definition unregister_alias (alias : TypeRef) (r : Resolver) : Resolver :=
  mkResolver (delete alias (aliases r)) (assoc_bindings r).
Definition unregister_assoc_bindings (trait_name : TraitKey) (target_head : TypeRef) (r : Resolver) : Resolver :=
  mkResolver (aliases r)
    (filter (λ p, ¬ (p.1.1.1 = trait_name ∧ p.1.1.2 = target_head)) (assoc_bindings r)).

Section canonical.
Context (builtin_type_id : string → option TypeRef).

(** [head_of_canon]; the outer [None] is the panic of a builtin type that
    is not in the table. *)
Definition builtin_head (name : string) : option (option TypeRef) := Some <$> builtin_type_id name.
Definition head_name (h : Head) : TypeRef + string :=
  match h with
  | Named r => inl r
  | HList => inr "List"
  | HMap => inr "Map"
  | HSet => inr "Set"
  | HChannel => inr "Channel"
  end.
Definition head_of_canon (t : Type_) : option (option TypeRef) :=
  match t with
  | Int => builtin_head "Int"
  | Float => builtin_head "Float"
  | Bool => builtin_head "Bool"
  | String_ => builtin_head "String"
  | Unit => builtin_head "Unit"
  | List _ => builtin_head "List"
  | Map _ _ => builtin_head "Map"
  | Set_ _ => builtin_head "Set"
  | Channel _ => builtin_head "Channel"
  | Tuple _ => builtin_head "Tuple"
  | Fun _ _ => builtin_head "Fn"
  | Generic r _ => Some (Some r)
  | Con h _ => match head_name h with inl r => Some (Some r) | inr name => builtin_head name end
  | App _ _ | Var _ | Rigid _ | Error | Never | AssocProj _ _ _ | AnonRecord _ _ => Some None
  end.

Definition expand_alias (fuel : nat) (info : AliasInfo) (args : list Type_) : option Type_ :=
  substitute_vars fuel (list_to_map (reverse (zip (param_var_ids info) args))) (target info).

(** [canonicalize] and [canonical_head], which call each other;
    [None]: they go on for ever, or a builtin type is missing. *)
Fixpoint canonicalize (fuel : nat) (resolver : Resolver) (t : Type_) : option Type_ :=
  match fuel with
  | O => None
  | S fuel =>
      let canon := canonicalize fuel resolver in
      match t with
      | Generic n args =>
          match lookup_alias resolver n with
          | Some info =>
              canon_args ← mapM canon args;
              substituted ← expand_alias fuel info canon_args;
              canon substituted
          | None => Generic n <$> mapM canon args
          end
      | List t => List <$> canon t
      | Set_ t => Set_ <$> canon t
      | Channel t => Channel <$> canon t
      | Map k v => k ← canon k; v ← canon v; Some (Map k v)
      | Fun params ret => params ← mapM canon params; ret ← canon ret; Some (Fun params ret)
      | Tuple ts => Tuple <$> mapM canon ts
      | App head arg => head ← canon head; arg ← canon arg; Some (applied head arg)
      | Con head rest => Con head <$> mapM canon rest
      | AnonRecord fields tail => fields ← mapM_values canon fields; Some (AnonRecord fields tail)
      | AssocProj receiver tr name =>
          canon_recv ← canon receiver;
          head ← head_of_canon canon_recv;
          binding ← match head with
                    | Some head => lookup_assoc_binding fuel resolver tr head name
                    | None => Some None
                    end;
          match binding with
          | Some binding =>
              let '(matches, stands) := instance_of (bound_of binding) canon_recv ∅ in
              bound ← if matches : bool then substitute_vars fuel stands (bound_ty binding) else Some (bound_ty binding);
              canon bound
          | None => Some (AssocProj canon_recv tr name)
          end
      | Int | Float | Bool | String_ | Unit | Var _ | Rigid _ | Error | Never => Some t
      end
  end
with canonical_head (fuel : nat) (resolver : Resolver) (t : TypeRef) : option TypeRef :=
  match fuel with
  | O => None
  | S fuel =>
      if is_builtin builtin_type_id "Fun" t then builtin_type_id "Fn"
      else match lookup_alias resolver t with
           | Some info =>
               canon_target ← canonicalize fuel resolver (target info);
               head ← head_of_canon canon_target;
               match head with
               | Some head => canonical_head fuel resolver head
               | None => Some t
               end
           | None => Some t
           end
  end
with lookup_assoc_binding (fuel : nat) (resolver : Resolver) (tr : TraitKey) (target_head : TypeRef) (name : Symbol)
    : option (option AssocBinding) :=
  match fuel with
  | O => None
  | S fuel =>
      head_canon ← canonical_head fuel resolver target_head;
      Some (assoc_bindings resolver !! (tr, head_canon, name))
  end.

Definition types_equal (fuel : nat) (resolver : Resolver) (a b : Type_) : option bool :=
  a ← canonicalize fuel resolver a; b ← canonicalize fuel resolver b; Some (type_eqb a b).

(** ** Registering the binding of an associated type *)
Section find_first.
Context {A B S : Type} (f : A → S → option (option B * S)).
Fixpoint find_first (l : list A) (s : S) : option (option B * S) :=
  match l with
  | [] => Some (None, s)
  | x :: l =>
      r ← f x s;
      match r.1 with Some _ => Some r | None => find_first l r.2 end
  end.
End find_first.

Fixpoint find_assoc_cycle (fuel : nat) (r : Resolver) (t : Type_) (visited : gset AssocKey)
    : option (option AssocKey * gset AssocKey) :=
  match fuel with
  | O => None
  | S fuel =>
      let find := find_assoc_cycle fuel r in
      match t with
      | AssocProj receiver tr name =>
          head ← head_of_canon receiver;
          found ← match head with
                  | Some head =>
                      head_canon ← canonical_head fuel r head;
                      let triple := (tr, head_canon, name) in
                      if bool_decide (triple ∈ visited) then Some (Some triple, visited)
                      else match assoc_bindings r !! triple with
                           | Some binding => find (bound_ty binding) ({[triple]} ∪ visited)
                           | None => Some (None, visited)
                           end
                  | None => Some (None, visited)
                  end;
          match found.1 with Some _ => Some found | None => find receiver found.2 end
      | List t | Set_ t | Channel t => find t visited
      | Map k v => find_first find [k; v] visited
      | App head arg => find_first find [head; arg] visited
      | Con _ ts | Tuple ts | Generic _ ts => find_first find ts visited
      | Fun params ret => find_first find (params ++ [ret]) visited
      | AnonRecord fields _ => find_first find (snd <$> fields) visited
      | Int | Float | Bool | String_ | Unit | Var _ | Rigid _ | Error | Never => Some (None, visited)
      end
  end.

Inductive Registered :=
| Inserted (r : Resolver)
| Cycle (at_ via : AssocKey).

Definition register_assoc_binding (fuel : nat) (trait_name : TraitKey) (target_head : TypeRef) (assoc_name : Symbol)
    (ty of_ : Type_) (r : Resolver) : option Registered :=
  head_canon ← canonical_head fuel r target_head;
  canon_ty ← canonicalize fuel r ty;
  let target_triple := (trait_name, head_canon, assoc_name) in
  found ← find_assoc_cycle fuel r canon_ty {[target_triple]};
  match found.1 with
  | Some cycle => Some (Cycle target_triple cycle)
  | None =>
      of_ ← canonicalize fuel r of_;
      Some (Inserted (mkResolver (aliases r) (<[target_triple := mkBinding canon_ty of_]> (assoc_bindings r))))
  end.
End canonical.
