(* ===== verification/TypesFacts.v ===== *)
(** * Types as trees, and substitutions on them (src/types/mod.rs)

    One view of a type, its parts and how it is put together from parts,
    under which the functions on types that go through all the shapes are
    each one equation. *)

From S2P Require Import Prelude Types.

(** ** The parts of a type *)
Definition children (t : Type_) : list Type_ :=
  match t with
  | Fun params ret => params ++ [ret]
  | List t | Set_ t | Channel t => [t]
  | Tuple ts | Generic _ ts | Con _ ts => ts
  | Map a b | App a b => [a; b]
  | AssocProj t _ _ => [t]
  | AnonRecord fields _ => snd <$> fields
  | _ => []
  end.

(** A type of the same shape with other parts. *)
Fixpoint refill (fields : list (Symbol * Type_)) (l : list Type_) : list (Symbol * Type_) :=
  match fields, l with
  | (k, _) :: fields, x :: l => (k, x) :: refill fields l
  | _, _ => fields
  end.
Definition rebuild (t : Type_) (l : list Type_) : Type_ :=
  match t, l with
  | Fun _ _, _ => Fun (removelast l) (default Unit (last l))
  | List _, [x] => List x
  | Set_ _, [x] => Set_ x
  | Channel _, [x] => Channel x
  | Tuple _, _ => Tuple l
  | Generic n _, _ => Generic n l
  | Con h _, _ => Con h l
  | Map _ _, [a; b] => Map a b
  | App _ _, [a; b] => App a b
  | AssocProj _ tr n, [x] => AssocProj x tr n
  | AnonRecord fields tail, _ => AnonRecord (refill fields l) tail
  | _, _ => t
  end.

Lemma Type_tree_ind (P : Type_ → Prop) : (∀ t, Forall P (children t) → P t) → ∀ t, P t.
Proof.
  intros H. fix IH 1. intros t.
  assert (∀ l : list Type_, (∀ x, P x) → Forall P l) as Hall by (intros l Hx; induction l; auto).
  apply H. destruct t as [| | | | |v|r|params ret|t|ts|n ts|a b|t|t| | |t tr n|fields tail|a b|h ts]; cbn [children];
    try exact (Forall_nil_2 _); repeat (apply Forall_cons_2; [apply IH|]); try exact (Forall_nil_2 _).
  - apply Forall_app. split.
    + induction params as [|x params IHp]; [apply Forall_nil_2|apply Forall_cons_2; [apply IH|exact IHp]].
    + apply Forall_cons_2; [apply IH|apply Forall_nil_2].
  - induction ts as [|x ts IHp]; [apply Forall_nil_2|apply Forall_cons_2; [apply IH|exact IHp]].
  - induction ts as [|x ts IHp]; [apply Forall_nil_2|apply Forall_cons_2; [apply IH|exact IHp]].
  - induction fields as [|[k x] fields IHp]; [apply Forall_nil_2|apply Forall_cons_2; [apply IH|exact IHp]].
  - induction ts as [|x ts IHp]; [apply Forall_nil_2|apply Forall_cons_2; [apply IH|exact IHp]].
Qed.

(** Induction on a type by its parts. *)
Ltac tree_induction t := induction t as [t IH] using Type_tree_ind.

Lemma map_snd {A B} (f : A → B) (fields : list (Symbol * A)) : snd <$> map (λ p, (p.1, f p.2)) fields = map f (snd <$> fields).
Proof. induction fields as [|[k x] l IHl]; cbn; [done|]. by rewrite <-IHl. Qed.
Lemma map_fst {A B} (f : A → B) (fields : list (Symbol * A)) : fst <$> map (λ p, (p.1, f p.2)) fields = fst <$> fields.
Proof. induction fields as [|[k x] l IHl]; cbn; [done|]. by rewrite <-IHl. Qed.
Lemma refill_map (f : Type_ → Type_) (fields : list (Symbol * Type_)) :
  refill fields (map f (snd <$> fields)) = map (λ p, (p.1, f p.2)) fields.
Proof. induction fields as [|[k x] l IHl]; cbn; [done|]. by rewrite <-IHl. Qed.
Lemma refill_self fields : refill fields (snd <$> fields) = fields.
Proof. induction fields as [|[k x] l IHl]; cbn; [done|]. by rewrite IHl. Qed.

Lemma last_snoc_default {A} (d x : A) l : default d (last (l ++ [x])) = x.
Proof. by rewrite last_snoc. Qed.

Lemma rebuild_children t : rebuild t (children t) = t.
Proof. destruct t; cbn; try done; [by rewrite removelast_last, last_snoc|by rewrite refill_self]. Qed.

(** ** Questions asked of every node *)
Lemma forallb_Forall_true {A} (f : A → bool) l : forallb f l = true ↔ Forall (λ x, f x = true) l.
Proof. rewrite forallb_forall, Forall_forall. split; intros H x Hx; apply H; by apply list_elem_of_In. Qed.
Lemma existsb_Exists_true {A} (f : A → bool) l : existsb f l = true ↔ ∃ x, x ∈ l ∧ f x = true.
Proof. rewrite existsb_exists. split; intros (x & Hx & H); exists x; split; by try apply list_elem_of_In. Qed.

Section all_nodes.
Context (p : Type_ → bool).
Fixpoint all_nodes (t : Type_) : bool :=
  p t &&
  match t with
  | Fun params ret => forallb all_nodes params && all_nodes ret
  | List t | Set_ t | Channel t => all_nodes t
  | Tuple ts | Generic _ ts | Con _ ts => forallb all_nodes ts
  | Map a b | App a b => all_nodes a && all_nodes b
  | AssocProj t _ _ => all_nodes t
  | AnonRecord fields _ => forallb (λ q, all_nodes q.2) fields
  | _ => true
  end.

Lemma all_nodes_eq t : all_nodes t = p t && forallb all_nodes (children t).
Proof.
  destruct t; cbn; rewrite ?andb_true_r; try done.
  - by rewrite forallb_app; cbn; rewrite andb_true_r.
  - f_equal. by induction fields as [|[k x] l IHl]; cbn; [|rewrite IHl].
Qed.
Lemma all_nodes_parts t : all_nodes t = true ↔ p t = true ∧ Forall (λ u, all_nodes u = true) (children t).
Proof. by rewrite all_nodes_eq, andb_true_iff, forallb_Forall_true. Qed.
End all_nodes.

(** ** Size *)
Fixpoint size (t : Type_) : nat :=
  S match t with
    | Fun params ret => sum_list_with size params + size ret
    | List t | Set_ t | Channel t => size t
    | Tuple ts | Generic _ ts | Con _ ts => sum_list_with size ts
    | Map a b | App a b => size a + size b
    | AssocProj t _ _ => size t
    | AnonRecord fields _ => sum_list_with (λ q, size q.2) fields
    | _ => 0
    end.
Lemma sum_list_with_snd (f : Type_ → nat) (fields : list (Symbol * Type_)) : sum_list_with (λ q, f q.2) fields = sum_list_with f (snd <$> fields).
Proof. induction fields as [|[k x] l IHl]; cbn; [done|]. by rewrite IHl. Qed.
Lemma size_eq t : size t = S (sum_list_with size (children t)).
Proof. destruct t; cbn; rewrite ?sum_list_with_app; cbn; rewrite ?sum_list_with_snd; lia. Qed.

Lemma size_part t u : u ∈ children t → (size u < size t)%nat.
Proof. intros Hu. rewrite (size_eq t). pose proof (sum_list_with_in u size _ Hu). lia. Qed.

(** ** Equality *)
Lemma list_eqb_true {A} (eqb : A → A → bool) (l k : list A) :
  Forall (λ x, ∀ y, eqb x y = true ↔ x = y) l → list_eqb eqb l k = true ↔ l = k.
Proof.
  intros H. revert k. induction H as [|x l Hx Hl IH]; intros [|y k]; cbn; try done.
  rewrite andb_true_iff, Hx, IH. naive_solver.
Qed.

Lemma type_eqb_true t u : type_eqb t u = true ↔ t = u.
Proof.
  revert u. tree_induction t. intros u. rewrite Forall_forall in IH.
  assert (∀ l k, l ⊆ children t → list_eqb type_eqb l k = true ↔ l = k) as Hlist.
  { intros l k Hl. apply list_eqb_true, Forall_forall. intros x Hx. by apply IH, Hl. }
  destruct t as [| | | | |v|r|params ret|x|ts|n ts|a b|x|x| | |x tr n|fields tail|a b|h ts], u; cbn [type_eqb children] in *;
    try (split; [discriminate 1|discriminate 1]); try (split; reflexivity);
    rewrite ?andb_true_iff, ?Nat.eqb_eq, ?N.eqb_eq, ?bool_decide_eq_true.
  all: try (rewrite ?Hlist by done; rewrite ?IH by (repeat constructor); split; [intuition congruence|injection 1; auto]).
  - rewrite Hlist, IH by set_solver. naive_solver.
  - rewrite list_eqb_true; [naive_solver|]. apply Forall_forall. intros [k x] Hkx [j y]. cbn.
    rewrite andb_true_iff, N.eqb_eq, IH; [naive_solver|]. by apply (list_elem_of_fmap_2 snd) in Hkx.
Qed.
#[export] Instance Type_eq_dec : EqDecision Type_.
Proof. intros t u. destruct (type_eqb t u) eqn:E; [left; by apply type_eqb_true|right; rewrite <-type_eqb_true, E; done]. Defined.

(** ** Replacing variables and annotation variables *)
Fixpoint hom (σ : TyVar → Type_) (ρ : RigidId → RigidId) (t : Type_) : Type_ :=
  match t with
  | Var v => σ v
  | Rigid r => Rigid (ρ r)
  | Fun params ret => Fun (map (hom σ ρ) params) (hom σ ρ ret)
  | List t => List (hom σ ρ t)
  | Tuple ts => Tuple (map (hom σ ρ) ts)
  | Generic n ts => Generic n (map (hom σ ρ) ts)
  | Map k v => Map (hom σ ρ k) (hom σ ρ v)
  | Set_ t => Set_ (hom σ ρ t)
  | Channel t => Channel (hom σ ρ t)
  | AssocProj t tr n => AssocProj (hom σ ρ t) tr n
  | AnonRecord fields tail => AnonRecord (map (λ p, (p.1, hom σ ρ p.2)) fields) tail
  | App head arg => applied (hom σ ρ head) (hom σ ρ arg)
  | Con head rest => Con head (map (hom σ ρ) rest)
  | _ => t
  end.

Definition is_leaf (t : Type_) : bool :=
  match t with Var _ | Rigid _ | App _ _ => true | _ => false end.
Lemma hom_eq σ ρ t : hom σ ρ t =
  match t with
  | Var v => σ v
  | Rigid r => Rigid (ρ r)
  | App head arg => applied (hom σ ρ head) (hom σ ρ arg)
  | _ => rebuild t (map (hom σ ρ) (children t))
  end.
Proof.
  destruct t; cbn; try done.
  - rewrite map_app. cbn [map]. by rewrite removelast_last, last_snoc.
  - by rewrite refill_map.
Qed.

Lemma last_map {A B} (f : A → B) l : last (map f l) = f <$> last l.
Proof. apply (fmap_last f). Qed.
Lemma hom_head_apply σ ρ h rest arg : hom σ ρ (head_apply h rest arg) = head_apply h (map (hom σ ρ) rest) (hom σ ρ arg).
Proof. destruct h; cbn; try done. rewrite last_map. by destruct (last rest). Qed.
Lemma hom_applied σ ρ head arg : hom σ ρ (applied head arg) = applied (hom σ ρ head) (hom σ ρ arg).
Proof. destruct head; try done. cbn [applied hom]. apply hom_head_apply. Qed.

Lemma map_ext_Forall {A B} (f g : A → B) l : Forall (λ x, f x = g x) l → map f l = map g l.
Proof. induction 1; cbn; congruence. Qed.

(** Two homomorphisms that agree on the parts agree on the whole. *)
Lemma hom_ext_parts σ ρ σ' ρ' t :
  (∀ v, t = Var v → σ v = σ' v) → (∀ r, t = Rigid r → ρ r = ρ' r) →
  Forall (λ u, hom σ ρ u = hom σ' ρ' u) (children t) → hom σ ρ t = hom σ' ρ' t.
Proof.
  intros Hv Hr Hc. pose proof (map_ext_Forall _ _ _ Hc) as Hm. rewrite !(hom_eq _ _ t), Hm.
  destruct t; try done; [by apply Hv|by rewrite (Hr r)|].
  injection Hm as -> ->. done.
Qed.

Lemma hom_compose σ ρ σ' ρ' t : hom σ' ρ' (hom σ ρ t) = hom (λ v, hom σ' ρ' (σ v)) (λ r, ρ' (ρ r)) t.
Proof.
  tree_induction t.
  assert (map (hom σ' ρ') (map (hom σ ρ) (children t)) = map (hom (λ v, hom σ' ρ' (σ v)) (λ r, ρ' (ρ r))) (children t)) as Hm
    by (rewrite map_map; by apply map_ext_Forall).
  destruct t; cbn in *; try done; try (by injection Hm as -> ->); try (by injection Hm as ->); try (by rewrite Hm).
  - rewrite !map_app in Hm. apply app_inj_2 in Hm as [-> ?]; [|done]. cbn in *. by f_equal; simplify_eq.
  - f_equal. rewrite map_map. cbn. clear -Hm. induction fields as [|[k x] l IHl]; cbn in *; [done|]. injection Hm as -> Hm. by rewrite IHl.
  - rewrite hom_applied. by injection Hm as -> ->.
Qed.

(** ** Types in normal form: no constructor is left applied *)
Definition normal_node (t : Type_) : bool := match t with App (Con _ _) _ => false | _ => true end.
Definition normal : Type_ → bool := all_nodes normal_node.

(** The rows and projections that are left out: a record's fields are in
    the order of their names. *)
Fixpoint ascending (l : list Symbol) : bool :=
  match l with k :: ((j :: _) as l) => (k <? j)%N && ascending l | _ => true end.
Definition plain_node (t : Type_) : bool :=
  match t with
  | AssocProj _ _ _ => false
  | AnonRecord fields tail => match tail with RowVar _ => false | _ => ascending (fst <$> fields) end
  | _ => true
  end.
Definition plain : Type_ → bool := all_nodes plain_node.

(** No type that meets every type, and each constructor with as many
    arguments after its first as it takes. *)
Definition wild (t : Type_) : bool := match t with Error | Never => true | _ => false end.
Definition kinded_node (t : Type_) : bool :=
  match t with
  | Con HMap rest => (length rest =? 1)%nat
  | Con (HList | HSet | HChannel) rest => (length rest =? 0)%nat
  | _ => true
  end.
Definition tame_node (t : Type_) : bool := negb (wild t) && kinded_node t.
Definition tame : Type_ → bool := all_nodes tame_node.

(** Every variable of a type is one of some. *)
Definition over (V : TyVar → bool) : Type_ → bool := all_nodes (λ t, match t with Var v => V v | _ => true end).

(** *** What a homomorphism keeps *)
Record stable (p : Type_ → bool) : Prop := {
  st_rigid r : p (Rigid r) = true;
  st_rebuild t l : length l = length (children t) → is_leaf t = false → p t = true → p (rebuild t l) = true;
  st_applied head arg : all_nodes p head = true → all_nodes p arg = true → all_nodes p (applied head arg) = true;
}.

Lemma refill_snd fields l : length l = length (snd <$> fields) → snd <$> refill fields l = l.
Proof. revert l. induction fields as [|[k x] fields IH]; intros [|y l]; cbn; try done. intros [= H]. by rewrite IH. Qed.
Lemma refill_fst fields l : fst <$> refill fields l = fst <$> fields.
Proof. revert l. induction fields as [|[k x] fields IH]; intros [|y l]; cbn; try done. by rewrite IH. Qed.

Lemma rebuild_parts t l : length l = length (children t) → children (rebuild t l) = l.
Proof.
  destruct t; cbn; try (by destruct l as [|? [|? [|]]]); intros H; try done; [|by apply refill_snd].
  rewrite length_app in H. cbn in H. destruct (exists_last (l := l)) as (l' & x & ->); [by intros ->; cbn in *; lia|].
  by rewrite removelast_last, last_snoc.
Qed.

Lemma all_nodes_rebuild p t l : stable p → length l = length (children t) → is_leaf t = false → p t = true →
  Forall (λ u, all_nodes p u = true) l → all_nodes p (rebuild t l) = true.
Proof. intros Hs Hl Hf Hp Hall. apply all_nodes_parts. rewrite rebuild_parts by done. split; [by apply (st_rebuild p Hs)|done]. Qed.

Lemma all_nodes_app p a b : all_nodes p (App a b) = true → all_nodes p a = true ∧ all_nodes p b = true.
Proof. rewrite all_nodes_parts. cbn [children]. rewrite !Forall_cons. tauto. Qed.

(** Induction that treats a variable, an annotation variable and an
    application apart from all the others. *)
Lemma Type_shape_ind (P : Type_ → Prop) : (∀ v, P (Var v)) → (∀ r, P (Rigid r)) → (∀ a b, P a → P b → P (App a b)) →
  (∀ t, is_leaf t = false → Forall P (children t) → P t) → ∀ t, P t.
Proof.
  intros Hv Hr Ha Hn. tree_induction t. destruct (is_leaf t) eqn:E; [|by apply Hn].
  destruct t; try discriminate E; [apply Hv|apply Hr|]. cbn [children] in IH. rewrite !Forall_cons in IH. destruct IH as (? & ? & _). by apply Ha.
Qed.
Lemma hom_rebuild σ ρ t : is_leaf t = false → hom σ ρ t = rebuild t (map (hom σ ρ) (children t)).
Proof. rewrite hom_eq. by destruct t. Qed.

Lemma all_nodes_hom p σ ρ t : stable p → all_nodes (λ u, is_leaf u || p u) t = true →
  all_nodes (λ u, match u with Var v => all_nodes p (σ v) | _ => true end) t = true → all_nodes p (hom σ ρ t) = true.
Proof.
  intros Hs. induction t as [v|r|a b IHa IHb|t Hl IH] using Type_shape_ind.
  - intros _. cbn. by rewrite andb_true_r.
  - intros _ _. cbn. by rewrite st_rigid.
  - intros [? ?]%all_nodes_app [? ?]%all_nodes_app. cbn. apply st_applied; auto.
  - intros [Hp Hc]%all_nodes_parts [_ Hv]%all_nodes_parts. rewrite hom_rebuild by done. rewrite Hl in Hp. cbn in Hp.
    apply all_nodes_rebuild; [done|by rewrite length_map|done|done|]. apply Forall_fmap. rewrite Forall_forall in *. intros u Hu. cbn. auto.
Qed.

Lemma all_nodes_mono p q t : (∀ u, p u = true → q u = true) → all_nodes p t = true → all_nodes q t = true.
Proof.
  intros Hpq. tree_induction t. rewrite !all_nodes_parts. intros [? Hc]. split; [auto|]. rewrite Forall_forall in *. auto.
Qed.
Lemma all_nodes_true t : all_nodes (λ _, true) t = true.
Proof. tree_induction t. rewrite all_nodes_parts. done. Qed.

Lemma head_apply_parts p h rest arg : p (head_apply h rest arg) = true → p Error = true ∨ h ≠ HMap ∨ rest ≠ [] →
  Forall (λ u, all_nodes p u = true) rest → all_nodes p arg = true → all_nodes p (head_apply h rest arg) = true.
Proof.
  intros Hp He Hr Ha. apply all_nodes_parts. split; [done|].
  destruct h; cbn; repeat (apply Forall_cons; split); try done.
  destruct (last rest) as [x|] eqn:E; cbn.
  - apply last_Some_elem_of in E. rewrite Forall_forall in Hr. auto.
  - apply last_None in E as ->. destruct He as [He|[]]; [|done..]. cbn. by rewrite He.
Qed.

Lemma applied_cases head arg : (∃ h rest, head = Con h rest) ∨ (normal_node (App head arg) = true ∧ applied head arg = App head arg).
Proof. destruct head; eauto. Qed.

Lemma applied_nodes p head arg : (∀ h rest, p (Con h rest) = true → p (head_apply h rest arg) = true ∧ (p Error = true ∨ h ≠ HMap ∨ rest ≠ [])) →
  (∀ a, normal_node (App a arg) = true → p (App a arg) = true) →
  all_nodes p head = true → all_nodes p arg = true → all_nodes p (applied head arg) = true.
Proof.
  intros Hc Happ Hh Ha. destruct (applied_cases head arg) as [(h & rest & ->)|[Hn ->]].
  - apply all_nodes_parts in Hh as [Hp Hr]. apply Hc in Hp as [Hp He]. by apply head_apply_parts.
  - apply all_nodes_parts. split; [by apply Happ|by repeat constructor].
Qed.

Lemma stable_normal : stable normal_node.
Proof.
  split; [done| |].
  - intros [] l; try done; by destruct l as [|? [|? [|]]].
  - intros head arg. apply applied_nodes; [|done]. intros h rest _. split; [by destruct h|by left].
Qed.
Lemma stable_plain : stable plain_node.
Proof.
  split; [done| |].
  - intros [] l; try done; try (by destruct l as [|? [|? [|]]]). intros Hl _. cbn. by rewrite refill_fst.
  - intros head arg. apply applied_nodes; [|done]. intros h rest _. split; [by destruct h|by left].
Qed.
Lemma stable_tame : stable tame_node.
Proof.
  split; [done| |].
  - intros [] l; try done; try (by destruct l as [|? [|? [|]]]). cbn. unfold tame_node. cbn. by intros ->.
  - intros head arg. apply applied_nodes; [|done]. intros h rest Hp. split; [by destruct h|]. right. destruct h; try (by left). right. by intros ->.
Qed.
Lemma stable_over V : stable (λ t, match t with Var v => V v | _ => true end).
Proof.
  split; [done| |].
  - intros [] l; try done; try (by destruct l as [|? [|? [|]]]).
  - intros head arg. apply applied_nodes; [|done]. intros h rest _. split; [by destruct h|by left].
Qed.
#[export] Hint Resolve stable_normal stable_plain stable_tame stable_over : silt.

Lemma all_nodes_vars (p : TyVar → bool) t : (∀ v, p v = true) → all_nodes (λ u, match u with Var v => p v | _ => true end) t = true.
Proof. intros H. apply (all_nodes_mono (λ _, true)); [by intros []|apply all_nodes_true]. Qed.

Lemma normal_hom σ ρ t : (∀ v, normal (σ v) = true) → normal (hom σ ρ t) = true.
Proof.
  intros H. apply all_nodes_hom; [auto with silt| |by apply all_nodes_vars].
  apply (all_nodes_mono (λ _, true)); [by intros []|apply all_nodes_true].
Qed.
Lemma plain_hom σ ρ t : (∀ v, plain (σ v) = true) → plain t = true → plain (hom σ ρ t) = true.
Proof.
  intros H Hp. apply all_nodes_hom; [auto with silt| |by apply all_nodes_vars].
  apply (all_nodes_mono plain_node); [|done]. intros u ->. apply orb_true_r.
Qed.
Lemma tame_hom σ ρ t : (∀ v, tame (σ v) = true) → tame t = true → tame (hom σ ρ t) = true.
Proof.
  intros H Hp. apply all_nodes_hom; [auto with silt| |by apply all_nodes_vars].
  apply (all_nodes_mono tame_node); [|done]. intros u ->. apply orb_true_r.
Qed.

(** *** The variables of a type *)
Lemma occurs_parts v t : plain t = true → occurs_in v t = true ↔ t = Var v ∨ ∃ u, u ∈ children t ∧ occurs_in v u = true.
Proof.
  intros Hp. destruct t; cbn [occurs_in children]; rewrite ?orb_true_iff, ?existsb_Exists_true, ?Nat.eqb_eq; try (set_solver by congruence).
  apply all_nodes_parts in Hp as [Hp _]. cbn in Hp. split.
  - intros [([k x] & Hx & Hv)|H]; [|by destruct tail]. right. exists x. split; [by apply (list_elem_of_fmap_2 snd) in Hx|done].
  - intros [?|(x & Hx & Hv)]; [done|]. left. apply list_elem_of_fmap in Hx as ([k y] & -> & Hy). by exists (k, y).
Qed.
Lemma plain_parts t u : plain t = true → u ∈ children t → plain u = true.
Proof. intros [_ H]%all_nodes_parts Hu. rewrite Forall_forall in H. auto. Qed.

Lemma over_occurs V t : plain t = true → over V t = true ↔ ∀ v, occurs_in v t = true → V v = true.
Proof.
  tree_induction t. intros Hp. unfold over. rewrite all_nodes_parts, Forall_forall. rewrite Forall_forall in IH. split.
  - intros [Hv Hc] v Ho. apply occurs_parts in Ho as [->|(u & Hu & Ho)]; [done| |done].
    apply (IH u Hu); [by apply (plain_parts t)|by apply Hc|done].
  - intros H. split.
    + destruct t; try done. apply H. cbn. apply Nat.eqb_refl.
    + intros u Hu. apply IH; [done|by apply (plain_parts t)|]. intros v Hv. apply H. apply occurs_parts; [done|eauto].
Qed.

Lemma hom_ext σ ρ σ' ρ' t : plain t = true → (∀ v, occurs_in v t = true → σ v = σ' v) → (∀ r, ρ r = ρ' r) → hom σ ρ t = hom σ' ρ' t.
Proof.
  intros Hp Hσ Hρ. revert Hp Hσ. tree_induction t. intros Hp Hσ. apply hom_ext_parts; [|done|].
  - intros v ->. apply Hσ. cbn. apply Nat.eqb_refl.
  - rewrite Forall_forall in *. intros u Hu. apply IH; [done|by apply (plain_parts t)|]. intros v Hv. apply Hσ, occurs_parts; eauto.
Qed.
Lemma hom_id t : normal t = true → hom Var id t = t.
Proof.
  tree_induction t. intros [Hn Hc]%all_nodes_parts. rewrite hom_eq.
  assert (map (hom Var id) (children t) = children t) as E.
  { clear Hn. rewrite <-(map_id (children t)) at 2. apply map_ext_Forall. rewrite Forall_forall in *. auto. }
  rewrite E, rebuild_children. destruct t; try done. cbn in E. injection E as -> ->. by destruct t1.
Qed.

Lemma occurs_applied w head arg : occurs_in w (applied head arg) = true → occurs_in w head = true ∨ occurs_in w arg = true.
Proof.
  destruct (applied_cases head arg) as [(h & rest & ->)|[_ ->]]; [|cbn; by rewrite orb_true_iff].
  destruct h; cbn; rewrite ?orb_true_iff; try tauto. intros [?|H]; [by right|left].
  destruct (last rest) as [x|] eqn:E; [|done]. apply last_Some_elem_of in E. apply existsb_Exists_true. eauto.
Qed.
Lemma rebuild_not_var t l w : is_leaf t = false → length l = length (children t) → rebuild t l ≠ Var w.
Proof. destruct t; try done; by destruct l as [|? [|? [|]]]. Qed.
Lemma occurs_hom w σ ρ t : plain t = true → (∀ v, plain (σ v) = true) → occurs_in w (hom σ ρ t) = true →
  ∃ v, occurs_in v t = true ∧ occurs_in w (σ v) = true.
Proof.
  intros Hp Hσ. revert Hp. induction t as [v|r|a b IHa IHb|t Hl IH] using Type_shape_ind; intros Hp H.
  - exists v. cbn. by rewrite Nat.eqb_refl.
  - done.
  - apply all_nodes_app in Hp as [? ?]. cbn in H. apply occurs_applied in H as [H|H]; [apply IHa in H|apply IHb in H]; try done;
      destruct H as (v & ? & ?); exists v; cbn; rewrite orb_true_iff; auto.
  - pose proof (plain_hom σ ρ t Hσ Hp) as Hph. rewrite hom_rebuild in H, Hph by done. apply occurs_parts in H as [H|(u & Hu & Hw)]; [| |done].
    + by apply rebuild_not_var in H; [|done|rewrite length_map].
    + rewrite rebuild_parts in Hu by (by rewrite length_map). apply list_elem_of_fmap in Hu as (x & -> & Hx).
      rewrite Forall_forall in IH. destruct (IH x Hx) as (v & Hv & ?); [by apply (plain_parts t)|done|].
      exists v. split; [|done]. apply occurs_parts; [done|]. eauto.
Qed.

Lemma vars_walk_elem t : ∀ out v, v ∈ vars_walk t out ↔ v ∈ out ∨ occurs_in v t = true.
Proof.
  assert (∀ out v w, w ∈ push_distinct out v ↔ w ∈ out ∨ v = w) as Hpush.
  { intros out v w. unfold push_distinct. case_bool_decide; set_solver. }
  assert (∀ l, Forall (λ t, ∀ out v, v ∈ vars_walk t out ↔ v ∈ out ∨ occurs_in v t = true) l →
    ∀ out v, v ∈ fold_left (λ out t, vars_walk t out) l out ↔ v ∈ out ∨ existsb (occurs_in v) l = true) as Hfold.
  { induction 1 as [|x l Hx Hl IHl]; intros out v; cbn; [naive_solver|]. rewrite IHl, Hx, orb_true_iff. tauto. }
  tree_induction t. intros out v. destruct t as [| | | | |v'|r|params ret|x|ts|n ts|a b|x|x| | |x tr n|fields tail|a b|h ts];
    cbn [vars_walk occurs_in children] in *; rewrite ?Forall_app, ?Forall_cons in IH; splits;
    try (rewrite ?Hpush;
         repeat match goal with H : ∀ out v, v ∈ vars_walk _ out ↔ _ |- _ => rewrite H; clear H end;
         rewrite ?Hfold by assumption; rewrite ?orb_true_iff, ?Nat.eqb_eq; intuition (discriminate || congruence)).
  assert (∀ out, v ∈ fold_left (λ out p, vars_walk p.2 out) fields out ↔ v ∈ out ∨ existsb (λ p, occurs_in v p.2) fields = true) as Hf.
  { clear out. induction fields as [|[k x] l IHl]; intros out; cbn; [intuition discriminate|]. cbn in IH. apply Forall_cons in IH as [Hx IH].
    rewrite IHl, Hx, orb_true_iff by done. tauto. }
  destruct tail; rewrite ?Hpush, Hf, ?orb_true_iff, ?Nat.eqb_eq; intuition (discriminate || congruence).
Qed.
Lemma free_vars_elem t v : v ∈ free_vars_in t ↔ occurs_in v t = true.
Proof. unfold free_vars_in. rewrite vars_walk_elem. set_solver. Qed.

(** ** Types that are the same where both are known

    Equal but for parts where one of them is [Error] or [Never], which meet
    every type. *)
Inductive agree : Type_ → Type_ → Prop :=
| agree_wild_l t u : wild t = true → agree t u
| agree_wild_r t u : wild u = true → agree t u
| agree_parts t u : u = rebuild t (children u) → Forall2 agree (children t) (children u) → agree t u
| agree_app_l head arg h rest first : agree head (Con h rest) → agree arg first → agree (App head arg) (head_apply h rest first)
| agree_app_r head arg h rest first : agree (Con h rest) head → agree first arg → agree (head_apply h rest first) (App head arg).

Lemma agree_tree_ind (P : Type_ → Type_ → Prop) :
  (∀ t u, wild t = true → P t u) → (∀ t u, wild u = true → P t u) →
  (∀ t u, u = rebuild t (children u) → Forall2 agree (children t) (children u) → Forall2 P (children t) (children u) → P t u) →
  (∀ head arg h rest first, agree head (Con h rest) → P head (Con h rest) → agree arg first → P arg first →
    P (App head arg) (head_apply h rest first)) →
  (∀ head arg h rest first, agree (Con h rest) head → P (Con h rest) head → agree first arg → P first arg →
    P (head_apply h rest first) (App head arg)) →
  ∀ t u, agree t u → P t u.
Proof.
  intros H1 H2 H3 H4 H5. fix IH 3. intros t u [t1 u1 ?|t1 u1 ?|t1 u1 E F|head arg h rest first ? ?|head arg h rest first ? ?].
  - by apply H1.
  - by apply H2.
  - apply H3; [exact E|exact F|]. clear E. revert F. generalize (children t1) (children u1). clear -IH.
    intros l k F. induction F as [|x y l k Hxy F IHF]; constructor; [exact (IH _ _ Hxy)|exact IHF].
  - apply H4; auto.
  - apply H5; auto.
Qed.

Lemma rebuild_rebuild t l l' : length l = length (children t) → length l' = length l → rebuild (rebuild t l) l' = rebuild t l'.
Proof.
  intros Hl Hl'. destruct t; cbn in *; try done; try (by destruct l as [|? [|? [|]]], l' as [|? [|? [|]]]). f_equal.
  revert l l' Hl Hl'. induction fields as [|[k x] fs IH]; intros [|y l] [|z l']; cbn; try done. intros [= ?] [= ?]. by rewrite (IH l).
Qed.

Lemma agree_rebuild t l l' : length l = length (children t) → Forall2 agree l l' → agree (rebuild t l) (rebuild t l').
Proof.
  intros Hl H. pose proof (Forall2_length _ _ _ H). apply agree_parts; rewrite !rebuild_parts by lia; [|done].
  by rewrite rebuild_rebuild by lia.
Qed.
Lemma agree_refl t : agree t t.
Proof. tree_induction t. apply agree_parts; [by rewrite rebuild_children|]. by apply Forall_Forall2_diag. Qed.
Lemma rebuild_flip t u : length (children u) = length (children t) → u = rebuild t (children u) → t = rebuild u (children t).
Proof. intros Hl E. rewrite E at 1. rewrite rebuild_rebuild by done. by rewrite rebuild_children. Qed.
Lemma agree_sym t u : agree t u → agree u t.
Proof.
  intros H. induction H as [| |t u E _ H| |] using agree_tree_ind; eauto using agree.
  apply agree_parts; [|by apply Forall2_flip]. apply rebuild_flip; [|done]. by rewrite (Forall2_length _ _ _ H).
Qed.

Lemma Forall2_last {A} (R : A → A → Prop) l k d : R d d → Forall2 R l k → R (default d (last l)) (default d (last k)).
Proof. intros Hd. induction 1 as [|x y l k Hxy Hlk IH]; [done|]. destruct Hlk; cbn in *; done. Qed.
Lemma agree_con h1 r1 h2 r2 : agree (Con h1 r1) (Con h2 r2) → h1 = h2 ∧ Forall2 agree r1 r2.
Proof. inversion 1 as [| |? ? E H'|? ? h|? ? h]; subst; try done; [cbn in E; by simplify_eq|by destruct h..]. Qed.
Lemma agree_applied h1 h2 a1 a2 : agree h1 h2 → agree a1 a2 → agree (applied h1 a1) (applied h2 a2).
Proof.
  intros Hh Ha. destruct (applied_cases h1 a1) as [(c1 & r1 & ->)|[_ ->]], (applied_cases h2 a2) as [(c2 & r2 & ->)|[_ ->]].
  - apply agree_con in Hh as [-> Hr]. destruct c2; cbn [applied head_apply]; apply agree_parts; cbn [children rebuild]; try done;
      repeat (apply Forall2_cons; split); try done; try apply Forall2_nil_2. apply Forall2_last; [apply agree_refl|done].
  - by apply agree_app_r.
  - by apply agree_app_l.
  - apply agree_parts; [done|]. cbn [children]. by repeat (apply Forall2_cons; split).
Qed.

Lemma agree_hom σ ρ t u : agree t u → agree (hom σ ρ t) (hom σ ρ u).
Proof.
  intros H. induction H as [t u H|t u H|t u E H IH|head arg h rest first _ IHh _ IHa|head arg h rest first _ IHh _ IHa] using agree_tree_ind.
  - apply agree_wild_l. by destruct t.
  - apply agree_wild_r. by destruct u.
  - pose proof (Forall2_length _ _ _ H) as Hl. destruct (is_leaf t) eqn:Ht.
    + destruct t; try discriminate Ht.
      * rewrite E. apply agree_refl.
      * rewrite E. apply agree_refl.
      * clear H. destruct (children u) as [|x [|y [|]]]; try discriminate Hl. cbn in E. subst u. cbn in IH.
        apply Forall2_cons in IH as [Hh IH]. apply Forall2_cons in IH as [Ha _]. by apply agree_applied.
    + assert (is_leaf u = false) as Hu by (rewrite E; clear -Ht Hl; destruct t; try done; cbn in *; by destruct (children u) as [|? [|? [|]]]).
      rewrite !hom_rebuild by done. rewrite E at 1. rewrite rebuild_rebuild by (by rewrite ?length_map).
      apply agree_rebuild; [by rewrite length_map|]. apply Forall2_fmap. done.
  - rewrite hom_head_apply. cbn. apply (agree_applied _ (Con h (map (hom σ ρ) rest)) _ (hom σ ρ first)); done.
  - rewrite hom_head_apply. cbn. apply (agree_applied (Con h (map (hom σ ρ) rest)) _ (hom σ ρ first)); done.
Qed.

Lemma agree_con_head head h rest : agree head (Con h rest) → wild head = false → ∃ rest', head = Con h rest'.
Proof.
  intros H Hw. inversion H; subst; try congruence; try done; try (by destruct h0).
  rename H0 into E. clear -E. cbn [children] in E. destruct head; cbn in E; try done; try (by destruct rest as [|? [|? [|]]]). injection E as <-. eauto.
Qed.
Lemma agree_eq t u : agree t u → tame t = true → tame u = true → normal t = true → normal u = true → t = u.
Proof.
  assert (∀ t, tame t = true → wild t = false) as Hw.
  { intros v [H _]%all_nodes_parts. unfold tame_node in H. apply andb_true_iff in H as [H _]. by apply negb_true_iff in H. }
  assert (∀ head arg h rest, tame (App head arg) = true → normal (App head arg) = true → agree head (Con h rest) → False) as Hcon.
  { intros head arg h rest [Ht _]%all_nodes_app [Hn _]%all_nodes_parts H. apply agree_con_head in H as [? ->]; [done|auto]. }
  intros H. induction H as [t u H|t u H|t u E _ IH|head arg h rest first Hh _ _ _|head arg h rest first Hh _ _ _] using agree_tree_ind; intros Tt Tu Nt Nu.
  - rewrite Hw in H; done.
  - rewrite Hw in H; done.
  - apply all_nodes_parts in Tt as [_ Tt], Tu as [_ Tu], Nt as [_ Nt], Nu as [_ Nu]. rewrite E, <-(rebuild_children t) at 1. f_equal.
    clear E. induction IH as [|x y l k Hxy _ IHl]; [done|]. apply Forall_cons in Tt as [? ?], Tu as [? ?], Nt as [? ?], Nu as [? ?]. f_equal; auto.
  - destruct (Hcon _ _ _ _ Tt Nt Hh).
  - destruct (Hcon _ _ _ _ Tu Nu (agree_sym _ _ Hh)).
Qed.


(** ** The size of what a variable stands for *)
Lemma size_applied head arg : tame head = true → (size head + size arg ≤ size (applied head arg))%nat.
Proof.
  intros [Hn _]%all_nodes_parts. unfold tame_node in Hn. apply andb_true_iff in Hn as [_ Hk].
  destruct (applied_cases head arg) as [(h & rest & ->)|[_ ->]]; [|cbn; lia].
  destruct h; cbn in *; try lia; destruct rest as [|x [|]]; cbn in *; try done; lia.
Qed.

Lemma size_occurs v σ ρ t : plain t = true → tame t = true → (∀ w, tame (σ w) = true) → occurs_in v t = true →
  (size (σ v) ≤ size (hom σ ρ t))%nat ∧ (t ≠ Var v → size (σ v) < size (hom σ ρ t))%nat.
Proof.
  intros Hp Ht Hσ. revert Hp Ht. induction t as [w|r|a b IHa IHb|t Hl IH] using Type_shape_ind; intros Hp Ht Ho.
  - cbn in *. apply Nat.eqb_eq in Ho as ->. done.
  - done.
  - apply all_nodes_app in Hp as [? ?], Ht as [? ?]. cbn in Ho. apply orb_true_iff in Ho. cbn [hom].
    pose proof (size_applied (hom σ ρ a) (hom σ ρ b) (tame_hom σ ρ a Hσ ltac:(done))).
    assert (0 < size (hom σ ρ a) ∧ 0 < size (hom σ ρ b))%nat by (rewrite !(size_eq (hom _ _ _)); lia).
    assert (size (σ v) < size (applied (hom σ ρ a) (hom σ ρ b)))%nat; [|split; [lia|done]].
    destruct Ho as [Ho|Ho]; [apply IHa in Ho|apply IHb in Ho]; try done; lia.
  - apply occurs_parts in Ho as [->|(u & Hu & Ho)]; [done| |done]. rewrite Forall_forall in IH.
    apply all_nodes_parts in Ht as [_ Ht]. rewrite Forall_forall in Ht.
    destruct (IH u Hu) as [Hle _]; [by apply (plain_parts t)|by apply Ht|done|].
    assert (size (hom σ ρ u) < size (hom σ ρ t))%nat; [|lia].
    apply size_part. rewrite (hom_rebuild _ _ t), rebuild_parts by (by rewrite ?length_map). by apply list_elem_of_fmap_2.
Qed.

Lemma size_rename ρ t : normal t = true → size (hom Var ρ t) = size t.
Proof.
  induction t as [w|r|a b IHa IHb|t Hl IH] using Type_shape_ind; intros Hn; try done.
  - pose proof Hn as [? ?]%all_nodes_app. apply all_nodes_parts in Hn as [Hn _]. cbn [hom].
    destruct (applied_cases (hom Var ρ a) (hom Var ρ b)) as [(h & rest & E)|[_ ->]]; [|cbn; rewrite IHa, IHb by done; lia].
    destruct a; try discriminate E; try discriminate Hn. cbn in E. apply (f_equal (λ t, match t with App _ _ | Con _ _ => t | _ => Int end)) in E.
    exfalso. clear -E. by destruct (applied_cases (hom Var ρ a1) (hom Var ρ a2)) as [([] & ? & E')|[_ E']]; rewrite ?E' in E.
  - rewrite hom_rebuild, size_eq, rebuild_parts, (size_eq t) by (by rewrite ?length_map). f_equal.
    apply all_nodes_parts in Hn as [_ Hn]. revert IH Hn. clear. induction (children t) as [|x l IHl]; [done|].
    intros [Hx Hl]%Forall_cons [? ?]%Forall_cons. cbn. rewrite Hx, IHl by done. done.
Qed.
