(* ===== verification/Unify.v ===== *)
(** * Unification (src/typechecker/unify.rs)

    The supply of type variables with its substitution, and the unifier.
    What a fault says is the types, fields and names it shows; what the
    checker knows of records, opaque types and impls for every function
    or tuple is in [Tables].  [None] is a panic (an index out of range) or
    a recursion without end. *)

From S2P Require Import Prelude Types.

(** ** The supply of type variables *)
Notation ModuleId := N (only parsing).
Record TyVarSupply := mkSupply {
  subst : list (option Type_);
  levels : list nat;
  level : nat;
  next : TyVar;
  base : TyVar;
  trail : list TyVar;
  ranges : list (ModuleId * TyVar * bool);
}.
Definition with_subst (f : list (option Type_) → list (option Type_)) (s : TyVarSupply) : TyVarSupply :=
  mkSupply (f (subst s)) (levels s) (level s) (next s) (base s) (trail s) (ranges s).
Definition with_levels (f : list nat → list nat) (s : TyVarSupply) : TyVarSupply :=
  mkSupply (subst s) (f (levels s)) (level s) (next s) (base s) (trail s) (ranges s).
Definition with_level (f : nat → nat) (s : TyVarSupply) : TyVarSupply :=
  mkSupply (subst s) (levels s) (f (level s)) (next s) (base s) (trail s) (ranges s).
Definition with_trail (f : list TyVar → list TyVar) (s : TyVarSupply) : TyVarSupply :=
  mkSupply (subst s) (levels s) (level s) (next s) (base s) (f (trail s)) (ranges s).

(** A new variable, at the current level. *)
Definition fresh (s : TyVarSupply) : TyVar * TyVarSupply :=
  (next s, mkSupply (subst s ++ [None]) (levels s ++ [level s]) (level s) (S (next s)) (base s) (trail s) (ranges s)).

Fixpoint holds_never (t : Type_) : bool :=
  match t with
  | Never => true
  | Fun params ret => existsb holds_never params || holds_never ret
  | List t | Set_ t | Channel t => holds_never t
  | Map k v | App k v => holds_never k || holds_never v
  | Tuple ts | Generic _ ts | Con _ ts => existsb holds_never ts
  | AnonRecord fields _ => existsb (λ p, holds_never p.2) fields
  | AssocProj receiver _ _ => holds_never receiver
  | _ => false
  end.

(** A type with a new variable for each [Never] in it. *)
Fixpoint without_never (t : Type_) (s : TyVarSupply) {struct t} : Type_ * TyVarSupply :=
  if negb (holds_never t) then (t, s) else
  match t with
  | Never => let '(v, s) := fresh s in (Var v, s)
  | Fun params ret =>
      let '(params, s) := map_acc without_never params s in
      let '(ret, s) := without_never ret s in (Fun params ret, s)
  | List t => let '(t, s) := without_never t s in (List t, s)
  | Set_ t => let '(t, s) := without_never t s in (Set_ t, s)
  | Channel t => let '(t, s) := without_never t s in (Channel t, s)
  | Map k v => let '(k, s) := without_never k s in let '(v, s) := without_never v s in (Map k v, s)
  | App head arg =>
      let '(head, s) := without_never head s in let '(arg, s) := without_never arg s in (applied head arg, s)
  | Tuple ts => let '(ts, s) := map_acc without_never ts s in (Tuple ts, s)
  | Generic n ts => let '(ts, s) := map_acc without_never ts s in (Generic n ts, s)
  | Con head ts => let '(ts, s) := map_acc without_never ts s in (Con head ts, s)
  | AnonRecord fields tail =>
      let '(fields, s) := map_acc (λ p s, let '(t, s) := without_never p.2 s in ((p.1, t), s)) fields s in
      (AnonRecord fields tail, s)
  | AssocProj receiver tr name => let '(receiver, s) := without_never receiver s in (AssocProj receiver tr name, s)
  | other => (other, s)
  end.

Section fold_option.
Context {A S : Type} (f : S → A → option S).
Fixpoint fold_option (s : S) (l : list A) : option S :=
  match l with [] => Some s | x :: l => s ← f s x; fold_option s l end.
End fold_option.

(** Lower the unresolved variables of [t] to [level]; a variable that is
    resolved is taken out while what it stands for is looked at. *)
Fixpoint lower (fuel : nat) (t : Type_) (level : nat) (s : TyVarSupply) : option TyVarSupply :=
  match fuel with
  | O => None
  | S fuel =>
      fold_option (λ s v,
        slot ← subst s !! v;
        match slot with
        | Some resolved =>
            s ← lower fuel resolved level (with_subst (<[v := None]>) s);
            Some (with_subst (<[v := Some resolved]>) s)
        | None => l ← levels s !! v; Some (with_levels (<[v := l `min` level]>) s)
        end) s (free_vars_in t)
  end.

(** Resolve the variable [v] to [t]. *)
Definition bind (v : TyVar) (t : Type_) (s : TyVarSupply) : option TyVarSupply :=
  let s := if bool_decide (v < base s)%nat then with_trail (λ l, l ++ [v]) s else s in
  let '(t, s) := without_never t s in
  l ← levels s !! v;
  s ← lower (S (length (subst s))) t l s;
  _ ← subst s !! v;
  Some (with_subst (<[v := Some t]>) s).

Definition is_outermost (v : TyVar) (s : TyVarSupply) : option bool := l ← levels s !! v; Some (l =? 0)%nat.
Definition is_generalizable (v : TyVar) (s : TyVarSupply) : option bool := l ← levels s !! v; Some (level s <? l)%nat.
Definition level_of (v : TyVar) (s : TyVarSupply) : option nat := levels s !! v.

(** Start the check of [module]; forget it. *)
Definition begin (module : ModuleId) (s : TyVarSupply) : TyVarSupply :=
  mkSupply (subst s) (levels s) 0 (next s) (next s) [] (ranges s ++ [(module, next s, false)]).
(** The loop at the end of [forget], from the last range on. *)
Fixpoint give_back (rev_ranges : list (ModuleId * TyVar * bool)) (s : TyVarSupply) : TyVarSupply :=
  match rev_ranges with
  | (_, start, true) :: rest =>
      give_back rest (mkSupply (take start (subst s)) (take start (levels s)) (level s) start (base s) (trail s) (reverse rest))
  | _ => s
  end.
Definition forget (module : ModuleId) (trail_ : list TyVar) (s : TyVarSupply) : TyVarSupply :=
  let s := with_subst (λ sub, foldl (λ sub v, <[v := None]> sub) sub trail_) s in
  let ranges := (λ r, if (r.1.1 =? module)%N then (r.1.1, r.1.2, true) else r) <$> ranges s in
  give_back (reverse ranges) (mkSupply (subst s) (levels s) (level s) (next s) (base s) (trail s) ranges).

(** ** The checker's state *)
Record Checker := mkChecker {
  vars : TyVarSupply;
  rigid_alias : gmap TyVar RigidId;
  group_rigid : gmap TyVar (list nat);
  bounds : gmap TyVar (list (TraitKey * list Type_));
  escaped_vars : gset TyVar;
}.
Definition with_vars (f : TyVarSupply → TyVarSupply) (c : Checker) : Checker :=
  mkChecker (f (vars c)) (rigid_alias c) (group_rigid c) (bounds c) (escaped_vars c).

Definition M (A : Type) : Type := Checker → option (A * Checker).
#[export] Instance check_ret : MRet M := λ A a c, Some (a, c).
#[export] Instance check_bind : MBind M := λ A B f m c, match m c with Some (a, c) => f a c | None => None end.
Definition reads {A} (f : Checker → option A) : M A := λ c, a ← f c; Some (a, c).
Definition does (f : Checker → Checker) : M () := λ c, Some (tt, f c).
Definition tries (f : TyVarSupply → option TyVarSupply) : M () := λ c,
  s ← f (vars c); Some (tt, with_vars (λ _, s) c).

Definition fresh_tyvar_id : M TyVar := λ c, let '(v, s) := fresh (vars c) in Some (v, with_vars (λ _, s) c).
Definition fresh_var : M Type_ := v ← fresh_tyvar_id; mret (Var v).
Definition reopen_level : M () := does (with_vars (with_level S)).
Definition close_level : M () := does (with_vars (with_level pred)).
Definition keep_monomorphic (t : Type_) : M () := λ c,
  tries (λ s, lower (S (length (subst s))) t (level s) s) c.

(** The annotation variable [r] stands for, among those the group has made
    the same. *)
Fixpoint rigid_rep (fuel : nat) (alias : gmap TyVar RigidId) (r : RigidId) : option RigidId :=
  match fuel with
  | O => None
  | S fuel => match alias !! r with Some next => rigid_rep fuel alias next | None => Some r end
  end.

(** A record with its row resolved: what the row's record lists comes in
    unless it is listed already. *)
Definition apply_row (new_fields : list (Symbol * Type_)) (resolved : Type_) : Type_ :=
  match resolved with
  | AnonRecord rfields rtail => AnonRecord (bt_merge new_fields rfields) rtail
  | Var w => AnonRecord new_fields (RowVar w)
  | other => other
  end.

(** [apply]: a type with what its variables stand for. *)
Fixpoint apply (fuel : nat) (c : Checker) (t : Type_) : option Type_ :=
  match fuel with
  | O => None
  | S fuel =>
      let go := apply fuel c in
      match t with
      | Var v => match subst (vars c) !! v with Some (Some resolved) => go resolved | _ => Some t end
      | Fun params ret => params ← mapM go params; ret ← go ret; Some (Fun params ret)
      | List t => List <$> go t
      | Tuple ts => Tuple <$> mapM go ts
      | Generic n ts => Generic n <$> mapM go ts
      | Map k v => k ← go k; v ← go v; Some (Map k v)
      | Set_ t => Set_ <$> go t
      | Channel t => Channel <$> go t
      | AssocProj receiver tr name => receiver ← go receiver; Some (AssocProj receiver tr name)
      | AnonRecord fields tail =>
          new_fields ← mapM_values go fields;
          match tail with
          | RowVar v =>
              match subst (vars c) !! v with
              | Some (Some resolved) => resolved ← go resolved; Some (apply_row new_fields resolved)
              | _ => Some (AnonRecord new_fields (RowVar v))
              end
          | Closed => Some (AnonRecord new_fields Closed)
          | RowRigid r => Some (AnonRecord new_fields (RowRigid r))
          end
      | Rigid r => Rigid <$> rigid_rep fuel (rigid_alias c) r
      | App head arg => head ← go head; arg ← go arg; Some (applied head arg)
      | Con head rest => Con head <$> mapM go rest
      | _ => Some t
      end
  end.

(** Make two annotation variables the same, if they are variables of two
    different functions of the group. *)
Definition same_in_group (r1 r2 : RigidId) : M bool := λ c,
  match group_rigid c !! r1, group_rigid c !! r2 with
  | Some owners1, Some owners2 =>
      if existsb (λ owner, bool_decide (owner ∈ owners2)) owners1 then Some (false, c)
      else
        let merged := match bounds c !! r2 with
                      | Some more =>
                          <[r1 := foldl (λ merged b,
                                    if existsb (λ b', (b.1 =? b'.1)%N && list_eqb type_eqb b.2 b'.2) merged then merged
                                    else merged ++ [b]) (default [] (bounds c !! r1)) more]> (bounds c)
                      | None => bounds c
                      end in
        Some (true, mkChecker (vars c) (<[r2 := r1]> (rigid_alias c))
                (<[r1 := owners1 ++ owners2]> (group_rigid c)) merged (escaped_vars c))
  | _, _ => Some (false, c)
  end.

(** ** What the checker knows *)
Record Tables := mkTables {
  builtin_type_id : string → option TypeRef;
  records : gmap TypeRef (list (Symbol * Type_));
  record_param_var_ids : gmap TypeRef (list TyVar);
  resolver : Resolver;
  (** The self variables of the impls for every function ([true]) and for
      every tuple. *)
  shape_vars : gmap TyVar bool;
  (** The module of the definition a row's variable came with. *)
  use_owners : gmap TyVar ModuleId;
  (** Whether a type is opaque, and its module. *)
  defs : gmap TypeRef (bool * ModuleId);
  module_names : gmap ModuleId Symbol;
  this_module : ModuleId;
}.

(** ** Faults *)
Inductive Code := TypeMismatch | ArityMismatch | NoSuchField | MissingField | InfiniteType | OpaqueType | UnknownField | AmbiguousType.
Inductive Message :=
| WouldEscape (r : RigidId)
| UnexpectedFields (names : list Symbol)
| MissingRequired (names : list Symbol)
| OpenSideHas (names : list Symbol)
| AppearsInside (t : Type_)
| SharedRow
| HasNoFields (type : TypeRef) (fields : list Symbol)
| WantedAType (got : Type_)
| WantedAValue (expected given : Type_)
| Mismatched (expected got : Type_)
| DescriptorReturned
| FunctionExpects (expected got : nat)
| TupleLength (expected got : nat)
| OpaqueField (type : TypeRef) (module : Symbol) (field : Symbol)
| OpaqueSpread (type : TypeRef) (module : Symbol)
| WantedField (field : Symbol) (given : Type_)
| HasNoField (t : Type_) (field : Symbol)
| TypeArguments (type : TypeRef)
| CannotDetermine (other : Type_).
(** [MethodHelp]: how a method of that name is called, if there is one. *)
Inductive Help := ChainResult | ChainOption | OpaqueHelp (module : Symbol) | WriteRecord (type : TypeRef) | ConvertRecord (type : TypeRef)
| MethodHelp (t : Type_) (field : Symbol).
Inductive Note := MatchesConstructor (head : Type_) | AgainstFirst (applied first : Type_).

Record Fault := mkFault {
  code : Code;
  message : Message;
  help : option Help;
  apart : option (Type_ * Type_);
  note : option Note;
}.
Definition new_fault (c : Code) (m : Message) : Fault := mkFault c m None None None.
Definition with_help (h : option Help) (f : Fault) : Fault := mkFault (code f) (message f) h (apart f) (note f).
Definition with_note (n : option Note) (f : Fault) : Fault := mkFault (code f) (message f) (help f) (apart f) n.
Definition infinite_type (t : Type_) : Fault := new_fault InfiniteType (AppearsInside t).

Section unify.
Context (tables : Tables).

Definition is_named (name : string) (t : Type_) : bool :=
  match t with Generic r _ => is_builtin (builtin_type_id tables) name r | _ => false end.

(** The help for a [Result] or an [Option] where another type is expected. *)
Definition chain_hint (got expected : Type_) : option Help :=
  match got with
  | Con _ _ => None
  | _ =>
      if is_named "Result" expected || is_named "Option" expected then None
      else if is_named "Result" got then Some ChainResult
      else if is_named "Option" got then Some ChainOption
      else None
  end.

(** The type a type given as a value ([type Int]) holds. *)
Definition held_in (t : Type_) : option Type_ :=
  match t with Generic r args => if is_builtin (builtin_type_id tables) TYPE_OF r then head args else None | _ => None end.
Definition held (fuel : nat) (t : Type_) : M (option Type_) := t ← reads (λ c, apply fuel c t); mret (held_in t).

Definition mismatch_message (fuel : nat) (got expected : Type_) (got_held expected_held : option Type_) : M Message :=
  match got_held, expected_held with
  | None, Some _ => mret (WantedAType got)
  | Some given, None => given ← reads (λ c, apply fuel c given); mret (WantedAValue expected given)
  | _, _ => mret (Mismatched expected got)
  end.
Definition type_mismatch (fuel : nat) (got expected : Type_) : M Fault :=
  got_held ← held fuel got;
  expected_held ← held fuel expected;
  message ← mismatch_message fuel got expected got_held expected_held;
  mret (mkFault TypeMismatch message (chain_hint got expected) (Some (got, expected)) None).
Definition constructor_mismatch (fuel : nat) (got expected : Type_) : M Fault :=
  fault ← type_mismatch fuel got expected; mret (with_help None fault).

(** The module of the opaque type [ty] when it is another one than the one
    being checked. *)
Definition opaque_outside (ty : TypeRef) : option Symbol :=
  match defs tables !! ty with
  | Some (true, m) => if (m =? this_module tables)%N then None else module_names tables !! m
  | _ => None
  end.
Definition row_of_types_module (ty : TypeRef) (tail : RowTail) : bool :=
  match tail with
  | RowVar v =>
      match use_owners tables !! v with
      | Some owner => match defs tables !! ty with Some (_, m) => (owner =? m)%N | None => false end
      | None => false
      end
  | _ => false
  end.

(** Resolve [v] to [t], unless a variable of something outside would become
    a type only one declaration knows. *)
Definition bind_checked (fuel : nat) (v : TyVar) (t : Type_) : M (list Fault) :=
  outermost ← reads (λ c, is_outermost v (vars c));
  escapes ← if outermost : bool then t ← reads (λ c, apply fuel c t); mret (rigid_in t) else mret None;
  match escapes with
  | Some r =>
      said ← reads (λ c, Some (bool_decide (v ∈ escaped_vars c)));
      if said : bool then mret []
      else _ ← does (λ c, mkChecker (vars c) (rigid_alias c) (group_rigid c) (bounds c) ({[v]} ∪ escaped_vars c));
           mret [new_fault TypeMismatch (WouldEscape r)]
  | None => _ ← tries (bind v t); mret []
  end.

(** The fields of the record [name] at type arguments. *)
Fixpoint fresh_each (ids : list TyVar) : M (list (TyVar * Type_)) :=
  match ids with
  | [] => mret []
  | v :: ids => t ← fresh_var; rest ← fresh_each ids; mret ((v, t) :: rest)
  end.
Definition instantiate_record_fields_with_args (fuel : nat) (name : TypeRef) (args : list Type_) : M (list (Symbol * Type_)) :=
  match records tables !! name with
  | Some fields =>
      match record_param_var_ids tables !! name with
      | Some ids =>
          mapping ← if (length args =? length ids)%nat then mret (zip ids args) else fresh_each ids;
          reads (λ _, mapM_values (substitute_vars fuel (list_to_map (reverse mapping))) fields)
      | None => mret fields
      end
  | None => mret []
  end.

(** A projection from the self of an impl for every function or tuple. *)
Definition of_shape_self (t : Type_) : Type_ :=
  match t with
  | AssocProj (Rigid r) tr name =>
      match shape_vars tables !! r with
      | Some true => AssocProj (Fun [] Unit) tr name
      | Some false => AssocProj (Tuple []) tr name
      | None => t
      end
  | _ => t
  end.
Definition reduced (fuel : nat) (t : Type_) : M Type_ :=
  match t with
  | AssocProj _ _ _ =>
      t ← reads (λ c, apply fuel c t);
      reads (λ _, canonicalize (builtin_type_id tables) fuel (resolver tables) (of_shape_self t))
  | _ => mret t
  end.

(** *** The arms of the unifier, over the unifier of the parts *)
Section arms.
Context (fuel : nat) (unify_into : Type_ → Type_ → M (list Fault)).

Fixpoint unify_each (ts us : list Type_) : M (list Fault) :=
  match ts, us with
  | t :: ts, u :: us => f ← unify_into t u; fs ← unify_each ts us; mret (f ++ fs)
  | _, _ => mret []
  end.

(** The parts of fields both records have. *)
Fixpoint unify_common (f1 f2 : list (Symbol * Type_)) : M (list Fault) :=
  match f1 with
  | [] => mret []
  | (k, a) :: f1 =>
      match bt_get k f2 with
      | Some b => f ← unify_into a b; fs ← unify_common f1 f2; mret (f ++ fs)
      | None => unify_common f1 f2
      end
  end.
Definition only_in (f1 f2 : list (Symbol * Type_)) : list (Symbol * Type_) := List.filter (λ p, negb (bt_has p.1 f2)) f1.

Definition bind_or_infinite (v : TyVar) (t : Type_) : M (list Fault) :=
  if occurs_in v t then mret [infinite_type t] else bind_checked fuel v t.

Definition unify_open_closed (open_extras closed_extras : list (Symbol * Type_)) (v : TyVar) : M (list Fault) :=
  match open_extras with
  | _ :: _ => mret [new_fault TypeMismatch (OpenSideHas (fst <$> open_extras))]
  | [] => bind_or_infinite v (AnonRecord closed_extras Closed)
  end.

Definition unify_tails (f1 : list (Symbol * Type_)) (tail1 : RowTail) (f2 : list (Symbol * Type_)) (tail2 : RowTail) : M (list Fault) :=
  let only_in_1 := only_in f1 f2 in
  let only_in_2 := only_in f2 f1 in
  let apart := fault ← type_mismatch fuel (AnonRecord f1 tail1) (AnonRecord f2 tail2); mret [fault] in
  match tail1, tail2 with
  | RowRigid r1, RowRigid r2 =>
      if (r1 =? r2)%nat && bool_decide (only_in_1 = []) && bool_decide (only_in_2 = []) then mret [] else apart
  | RowRigid r, RowVar v =>
      match only_in_2 with [] => bind_checked fuel v (AnonRecord only_in_1 (RowRigid r)) | _ => apart end
  | RowVar v, RowRigid r =>
      match only_in_1 with [] => bind_checked fuel v (AnonRecord only_in_2 (RowRigid r)) | _ => apart end
  | RowRigid _, Closed | Closed, RowRigid _ => apart
  | Closed, Closed =>
      mret (match only_in_1 with [] => [] | _ => [new_fault NoSuchField (UnexpectedFields (fst <$> only_in_1))] end ++
            match only_in_2 with [] => [] | _ => [new_fault MissingField (MissingRequired (fst <$> only_in_2))] end)
  | RowVar v, Closed => unify_open_closed only_in_1 only_in_2 v
  | Closed, RowVar v => unify_open_closed only_in_2 only_in_1 v
  | RowVar v1, RowVar v2 =>
      if (v1 =? v2)%nat then
        mret match only_in_1, only_in_2 with [], [] => [] | _, _ => [new_fault TypeMismatch SharedRow] end
      else
        new_tail_id ← fresh_tyvar_id;
        fs1 ← bind_or_infinite v1 (AnonRecord only_in_2 (RowVar new_tail_id));
        fs2 ← bind_or_infinite v2 (AnonRecord only_in_1 (RowVar new_tail_id));
        mret (fs1 ++ fs2)
  end.

Definition unify_anon_anon (f1 : list (Symbol * Type_)) (tail1 : RowTail) (f2 : list (Symbol * Type_)) (tail2 : RowTail) : M (list Fault) :=
  let same := match tail1, tail2 with
              | RowVar v1, RowVar v2 => (v1 =? v2)%nat && type_eqb (AnonRecord f1 Closed) (AnonRecord f2 Closed)
              | _, _ => false
              end in
  if same : bool then mret []
  else fs ← unify_common f1 f2; more ← unify_tails f1 tail1 f2 tail2; mret (fs ++ more).

(** The fields of a row that is a nominal record. *)
Fixpoint unify_declared (fields declared : list (Symbol * Type_)) : M (list Fault * list Symbol) :=
  match fields with
  | [] => mret ([], [])
  | (field, ty) :: fields =>
      match bt_get field declared with
      | Some declared_ty => f ← unify_into ty declared_ty; r ← unify_declared fields declared; mret (f ++ r.1, r.2)
      | None => r ← unify_declared fields declared; mret (r.1, field :: r.2)
      end
  end.
Definition open_row_is (fields : list (Symbol * Type_)) (v : TyVar) (name : TypeRef) (args : list Type_) : M (list Fault) :=
  declared ← instantiate_record_fields_with_args fuel name args;
  r ← unify_declared fields declared;
  match r.2 with
  | [] => fs ← bind_or_infinite v (Generic name args); mret (r.1 ++ fs)
  | missing =>
      let help := match missing with [field] => Some (MethodHelp (Generic name args) field) | _ => None end in
      mret (r.1 ++ [with_help help (new_fault NoSuchField (HasNoFields name missing))])
  end.

Definition unify_nominal (t1 t2 : Type_) (fields : list (Symbol * Type_)) (tail : RowTail) (name : TypeRef) (args : list Type_)
    (anon_is_got : bool) : M (list Fault) :=
  match (if match tail with Closed => true | _ => row_of_types_module name tail end then None else opaque_outside name) with
  | Some module =>
      let first := match fields with
                   | (field, _) :: _ => Some field
                   | [] => match records tables !! name with Some ((n, _) :: _) => Some n | _ => None end
                   end in
      mret [with_help (Some (OpaqueHelp module))
              (new_fault OpaqueType match first with Some field => OpaqueField name module field | None => OpaqueSpread name module end)]
  | None =>
      match tail with
      | RowVar v => open_row_is fields v name args
      | RowRigid _ => fault ← type_mismatch fuel t1 t2; mret [fault]
      | Closed =>
          fault ← type_mismatch fuel t1 t2;
          mret [with_help (Some match opaque_outside name with
                                | Some module => OpaqueHelp module
                                | None => if anon_is_got then WriteRecord name else ConvertRecord name
                                end) fault]
      end
  end.

(** An open row and a type with no fields. *)
Definition row_of_no_fields (field : Symbol) (other : Type_) : M (list Fault) :=
  given ← reads (λ c, apply fuel c other);
  fault ← match given with
          | Generic r args =>
              if is_builtin (builtin_type_id tables) TYPE_OF r then
                reads (λ c, arg ← args !! 0%nat; arg ← apply fuel c arg; Some (new_fault TypeMismatch (WantedField field arg)))
              else mret (new_fault UnknownField (HasNoField other field))
          | _ => mret (new_fault UnknownField (HasNoField other field))
          end;
  mret [with_help (Some (MethodHelp other field)) fault].

Definition unify_var (v : TyVar) (t : Type_) : M (list Fault) :=
  if occurs_in v t then
    mret match t with
         | Generic r [Var inner] =>
             if is_builtin (builtin_type_id tables) TYPE_OF r && (inner =? v)%nat then [new_fault TypeMismatch DescriptorReturned]
             else [new_fault InfiniteType (AppearsInside t)]
         | _ => [new_fault InfiniteType (AppearsInside t)]
         end
  else bind_checked fuel v t.

(** A type constructor variable applied, and a type. *)
Definition unify_applied (t1 t2 head arg other : Type_) : M (list Fault) :=
  let expected_applied := match t2 with App _ _ => true | _ => false end in
  let shown := match t1 with App _ _ => t1 | _ => t2 end in
  match split_constructor (builtin_type_id tables) other with
  | None =>
      fault ← constructor_mismatch fuel t1 t2;
      mret [if expected_applied then with_note (Some (MatchesConstructor head)) fault else fault]
  | Some (con, rest, first) =>
      heads ← unify_into head (Con con rest);
      match heads with
      | _ :: _ => fault ← constructor_mismatch fuel t1 t2; mret [fault]
      | [] =>
          args ← unify_into arg first;
          match args with
          | _ :: _ =>
              fault ← constructor_mismatch fuel t1 t2;
              shown_first ← reads (λ c, apply fuel c first);
              mret [if negb (bool_decide (rest = [])) && expected_applied
                    then with_note (Some (AgainstFirst shown shown_first)) fault else fault]
          | [] => mret []
          end
      end
  end.

(** What is left when no other arm is taken. *)
Definition unify_apart (t1 t2 : Type_) : M (list Fault) :=
  match t1, t2 with
  | Error, _ | _, Error => mret []
  | Var _, other | other, Var _ => mret [new_fault AmbiguousType (CannotDetermine other)]
  | _, _ => fault ← type_mismatch fuel t1 t2; mret [fault]
  end.
Definition unify_row (t1 t2 : Type_) (fields : list (Symbol * Type_)) (tail : RowTail) (other : Type_) (anon_is_got : bool) : M (list Fault) :=
  let no_fields := match tail, fields with
                   | RowVar _, (field, _) :: _ => row_of_no_fields field other
                   | _, _ => unify_apart t1 t2
                   end in
  match other with
  | Generic name args =>
      if bool_decide (is_Some (records tables !! name)) then unify_nominal t1 t2 fields tail name args anon_is_got
      else no_fields
  | _ => no_fields
  end.

(** The arms, in the order they are tried. *)
Definition unify_heads (t1 t2 : Type_) : M (list Fault) :=
  match t1, t2 with
  | Var v, Error | Error, Var v => bind_checked fuel v Error
  | Error, _ | _, Error | Never, _ | _, Never => mret []
  | Int, Int | Float, Float | Bool, Bool | String_, String_ | Unit, Unit => mret []
  | Var v1, Var v2 =>
      if (v1 =? v2)%nat then mret [] else bind_checked fuel (v1 `max` v2)%nat (Var (v1 `min` v2)%nat)
  | Rigid r1, Rigid r2 =>
      same ← (if (r1 =? r2)%nat then mret true else same_in_group r1 r2);
      if same : bool then mret [] else unify_apart t1 t2
  | Var v, t | t, Var v => unify_var v t
  | App h1 a1, App h2 a2 =>
      heads ← unify_into h1 h2;
      match heads with
      | _ :: _ => fault ← constructor_mismatch fuel t1 t2; mret [fault]
      | [] => unify_into a1 a2
      end
  | App head arg, other | other, App head arg => unify_applied t1 t2 head arg other
  | Con c1 r1, Con c2 r2 =>
      if bool_decide (c1 = c2) && (length r1 =? length r2)%nat then unify_each r1 r2 else unify_apart t1 t2
  | Fun p1 r1, Fun p2 r2 =>
      if (length p1 =? length p2)%nat then fs ← unify_each p1 p2; more ← unify_into r1 r2; mret (fs ++ more)
      else mret [new_fault ArityMismatch (FunctionExpects (length p2) (length p1))]
  | List a, List b => unify_into a b
  | Map k1 v1, Map k2 v2 => fs ← unify_into k1 k2; more ← unify_into v1 v2; mret (fs ++ more)
  | Set_ a, Set_ b => unify_into a b
  | Channel a, Channel b => unify_into a b
  | Tuple a, Tuple b =>
      if (length a =? length b)%nat then unify_each a b
      else mret [new_fault TypeMismatch (TupleLength (length b) (length a))]
  | AnonRecord f1 tail1, AnonRecord f2 tail2 => unify_anon_anon f1 tail1 f2 tail2
  | AnonRecord fields tail, other => unify_row t1 t2 fields tail other true
  | other, AnonRecord fields tail => unify_row t1 t2 fields tail other false
  | Generic n1 a1, Generic n2 a2 =>
      if negb (n1 =? n2)%N then fault ← type_mismatch fuel t1 t2; mret [fault]
      else if (length a1 =? length a2)%nat then unify_each a1 a2
      else mret [new_fault ArityMismatch (TypeArguments n1)]
  | AssocProj r1 tn1 an1, AssocProj r2 tn2 an2 =>
      if (tn1 =? tn2)%N && (an1 =? an2)%N then unify_into r1 r2
      else mret [new_fault TypeMismatch (Mismatched t2 t1)]
  | _, _ => unify_apart t1 t2
  end.
End arms.

Fixpoint unify_into (fuel : nat) (t1 t2 : Type_) : M (list Fault) :=
  match fuel with
  | O => λ _, None
  | S fuel =>
      t1 ← reads (λ c, apply fuel c t1);
      t2 ← reads (λ c, apply fuel c t2);
      t1 ← reduced fuel t1;
      t2 ← reduced fuel t2;
      unify_heads fuel (unify_into fuel) t1 t2
  end.

(** [unify_types]: every part that does unify is unified; the error has a
    fault for each that does not. *)
Definition unify_types (fuel : nat) (t1 t2 : Type_) : M (() + list Fault) :=
  faults ← unify_into fuel t1 t2;
  mret match faults with [] => inl tt | _ => inr faults end.
End unify.
