(* ===== verification/UnifyFacts.v ===== *)
(** * What the substitution stands for, and binding (src/typechecker/unify.rs)

    The solved form of a checker's substitution: what each variable stands
    for once everything is replaced.  [apply] computes it, [bind] adds to
    it. *)

From S2P Require Import Prelude Types TypesFacts Unify.

(** ** Computations that end

    [ends m c Q]: from some fuel on, [m] gives one result, which is as [Q]
    says. *)
Definition ends {A} (m : nat → M A) (c : Checker) (Q : A → Checker → Prop) : Prop :=
  ∃ n a c', (∀ k, (n ≤ k)%nat → m k c = Some (a, c')) ∧ Q a c'.

Lemma ends_ret {A} (a : A) c (Q : A → Checker → Prop) : Q a c → ends (λ _, mret a) c Q.
Proof. intros H. by exists 0%nat, a, c. Qed.
Lemma ends_bind {A B} (m : nat → M A) (f : nat → A → M B) c (Q : B → Checker → Prop) :
  ends m c (λ a c', ends (λ n, f n a) c' Q) → ends (λ n, m n ≫= f n) c Q.
Proof.
  intros (n & a & c1 & Hm & k & b & c2 & Hf & HQ). exists (n `max` k)%nat, b, c2. split; [|done].
  intros j Hj. unfold mbind, check_bind. rewrite Hm, Hf by lia. done.
Qed.
Lemma ends_mono {A} (m : nat → M A) c (P Q : A → Checker → Prop) : ends m c P → (∀ a c', P a c' → Q a c') → ends m c Q.
Proof. intros (n & a & c' & Hm & HP) H. exists n, a, c'. auto. Qed.
Lemma ends_ext {A} (m m' : nat → M A) c (Q : A → Checker → Prop) : (∀ n, m n = m' n) → ends m' c Q → ends m c Q.
Proof. intros E (n & a & c' & Hm & HQ). exists n, a, c'. split; [|done]. intros k Hk. rewrite E. auto. Qed.
Lemma ends_succ {A} (m : nat → M A) c (Q : A → Checker → Prop) : ends (λ n, m (S n)) c Q → ends m c Q.
Proof. intros (n & a & c' & Hm & HQ). exists (S n), a, c'. split; [|done]. intros [|k] Hk; [lia|]. apply Hm. lia. Qed.
Lemma ends_reads {A} (f : nat → Checker → option A) (a : A) c (Q : A → Checker → Prop) :
  (∃ n, ∀ k, (n ≤ k)%nat → f k c = Some a) → Q a c → ends (λ n, reads (f n)) c Q.
Proof. intros (n & Hf) HQ. exists n, a, c. split; [|done]. intros k Hk. unfold reads. by rewrite Hf. Qed.
Lemma ends_const {A} (m : M A) a c c' (Q : A → Checker → Prop) : m c = Some (a, c') → Q a c' → ends (λ _, m) c Q.
Proof. intros Hm HQ. exists 0%nat, a, c'. auto. Qed.

(** Results that are there from some fuel on. *)
Definition eventually {A} (f : nat → option A) (a : A) : Prop := ∃ n, ∀ k, (n ≤ k)%nat → f k = Some a.

Lemma eventually_ret {A} (a : A) : eventually (λ _, Some a) a.
Proof. by exists 0%nat. Qed.
Lemma eventually_succ {A} (f : nat → option A) a : eventually (λ n, f (S n)) a → eventually f a.
Proof. intros (n & H). exists (S n). intros [|k] Hk; [lia|]. apply H. lia. Qed.
Lemma eventually_bind {A B} (f : nat → option A) (g : nat → A → option B) a b :
  eventually f a → eventually (λ n, g n a) b → eventually (λ n, f n ≫= g n) b.
Proof. intros (n & Hf) (m & Hg). exists (n `max` m)%nat. intros k Hk. rewrite Hf by lia. cbn. apply Hg. lia. Qed.
Lemma eventually_fmap {A B} (f : nat → option A) (g : A → B) a : eventually f a → eventually (λ n, g <$> f n) (g a).
Proof. intros (n & Hf). exists n. intros k Hk. by rewrite Hf. Qed.
Lemma eventually_mapM {A B} (f : nat → A → option B) (g : A → B) l :
  Forall (λ x, eventually (λ n, f n x) (g x)) l → eventually (λ n, mapM (f n) l) (map g l).
Proof.
  induction 1 as [|x l Hx Hl IH]; [by exists 0%nat|]. cbn [mapM map]. apply (eventually_bind _ _ (g x)); [done|].
  apply (eventually_bind _ _ (map g l)); [done|]. apply eventually_ret.
Qed.
Lemma eventually_values {A B} (f : nat → A → option B) (g : A → B) (fields : list (Symbol * A)) :
  Forall (λ x, eventually (λ n, f n x) (g x)) (snd <$> fields) →
  eventually (λ n, mapM_values (f n) fields) (map (λ p, (p.1, g p.2)) fields).
Proof.
  intros H. apply eventually_mapM. rewrite Forall_forall in H. apply Forall_forall. intros [k x] Hx. cbn.
  apply (eventually_bind _ _ (g x)); [apply H; by apply (list_elem_of_fmap_2 snd) in Hx|apply eventually_ret].
Qed.

(** ** Solved forms *)
Notation slot c v := (subst (vars c) !! v).
Definition lev (c : Checker) (v : TyVar) : nat := default 0%nat (levels (vars c) !! v).
Definition unbound (c : Checker) (v : TyVar) : Prop := ∀ t, slot c v ≠ Some (Some t).

Record solves (c : Checker) (σ : TyVar → Type_) (ρ : RigidId → RigidId) : Prop := {
  so_subst : length (subst (vars c)) = next (vars c);
  so_levels : length (levels (vars c)) = next (vars c);
  so_bound v t : slot c v = Some (Some t) → σ v = hom σ ρ t;
  so_free v : unbound c v → σ v = Var v;
  so_alias r q : rigid_alias c !! r = Some q → ρ r = ρ q;
  so_rep r : rigid_alias c !! r = None → ρ r = r;
  so_plain v t : slot c v = Some (Some t) → plain t = true;
  so_never v t : slot c v = Some (Some t) → holds_never t = false;
  so_over v t w : slot c v = Some (Some t) → occurs_in w t = true → (w < next (vars c))%nat;
  so_rank : ∃ rk : TyVar → nat, ∀ v t w, slot c v = Some (Some t) → occurs_in w t = true → (rk w < rk v)%nat;
  so_alias_rank : ∃ rk : RigidId → nat, ∀ r q, rigid_alias c !! r = Some q → (rk q < rk r)%nat;
  so_lower v w : is_Some (slot c v) → occurs_in w (σ v) = true → (lev c w ≤ lev c v)%nat;
}.

Lemma slot_cases c v : (∃ t, slot c v = Some (Some t)) ∨ unbound c v.
Proof. unfold unbound. destruct (slot c v) as [[t|]|] eqn:E; eauto; right; congruence. Qed.

Section solved.
Context (c : Checker) (σ : TyVar → Type_) (ρ : RigidId → RigidId).
Hypothesis Hs : solves c σ ρ.

(** Induction on a variable by what it stands for. *)
Lemma var_ind (P : nat → Prop) :
  (∀ v, unbound c v → P v) → (∀ v t, slot c v = Some (Some t) → (∀ w, occurs_in w t = true → P w) → P v) → ∀ v, P v.
Proof.
  intros Hf Hb. destruct (so_rank _ _ _ Hs) as [rk Hrk].
  assert (∀ n v, (rk v < n)%nat → P v) as H; [|intros v; by apply (H (S (rk v))); lia].
  induction n as [|n IH]; [lia|]. intros v Hv. destruct (slot_cases c v) as [[t Ht]|Hu]; [|by apply Hf].
  apply (Hb v t Ht). intros w Hw. apply IH. specialize (Hrk _ _ _ Ht Hw). lia.
Qed.

Lemma unbound_next v : (next (vars c) ≤ v)%nat → unbound c v.
Proof. intros Hv t. rewrite lookup_ge_None_2; [done|]. by rewrite (so_subst _ _ _ Hs). Qed.

Lemma sol_plain v : plain (σ v) = true.
Proof.
  induction v as [v Hu|v t Ht IH] using var_ind; [by rewrite (so_free _ _ _ Hs)|].
  rewrite (so_bound _ _ _ Hs v t Ht). set (σ' := λ w, if occurs_in w t then σ w else Var w).
  rewrite (hom_ext σ ρ σ' ρ); [|by apply (so_plain _ _ _ Hs v)|by intros w Hw; unfold σ'; rewrite Hw|done].
  apply plain_hom; [|by apply (so_plain _ _ _ Hs v)]. intros w. unfold σ'. destruct (occurs_in w t) eqn:E; [by apply IH|done].
Qed.
Lemma sol_normal v : normal (σ v) = true.
Proof.
  induction v as [v Hu|v t Ht IH] using var_ind; [by rewrite (so_free _ _ _ Hs)|].
  rewrite (so_bound _ _ _ Hs v t Ht). set (σ' := λ w, if occurs_in w t then σ w else Var w).
  rewrite (hom_ext σ ρ σ' ρ); [|by apply (so_plain _ _ _ Hs v)|by intros w Hw; unfold σ'; rewrite Hw|done].
  apply normal_hom. intros w. unfold σ'. destruct (occurs_in w t) eqn:E; [by apply IH|done].
Qed.

(** The variables a solved form has are not bound, and the ones of the
    supply. *)
Lemma sol_unbound v w : occurs_in w (σ v) = true → unbound c w.
Proof.
  revert w. induction v as [v Hu|v t Ht IH] using var_ind; intros w.
  - rewrite (so_free _ _ _ Hs v Hu). cbn. by intros ->%Nat.eqb_eq.
  - rewrite (so_bound _ _ _ Hs v t Ht). intros Hw.
    apply occurs_hom in Hw as (u & Hu & Hw); [by eapply IH|by apply (so_plain _ _ _ Hs v)|apply sol_plain].
Qed.
Lemma sol_next v w : (v < next (vars c))%nat → occurs_in w (σ v) = true → (w < next (vars c))%nat.
Proof.
  revert w. induction v as [v Hu|v t Ht IH] using var_ind; intros w Hv.
  - rewrite (so_free _ _ _ Hs v Hu). cbn. by intros <-%Nat.eqb_eq.
  - rewrite (so_bound _ _ _ Hs v t Ht). intros Hw.
    apply occurs_hom in Hw as (u & Hu & Hw); [|by apply (so_plain _ _ _ Hs v)|apply sol_plain].
    apply (IH u Hu); [by apply (so_over _ _ _ Hs v t)|done].
Qed.

Lemma rep_ind (P : nat → Prop) :
  (∀ r : TyVar, rigid_alias c !! r = None → P r) → (∀ (r : TyVar) q, rigid_alias c !! r = Some q → P q → P r) → ∀ r : nat, P r.
Proof.
  intros Hn Hb. destruct (so_alias_rank _ _ _ Hs) as [rk Hrk].
  assert (∀ n r, (rk r < n)%nat → P r) as H; [|intros r; by apply (H (S (rk r))); lia].
  induction n as [|n IH]; [lia|]. intros r Hr. destruct (rigid_alias c !! r) as [q|] eqn:E; [|by apply Hn].
  apply (Hb r q E), IH. specialize (Hrk _ _ E). lia.
Qed.
Lemma rep_rep r : rigid_alias c !! ρ r = None ∧ ρ (ρ r) = ρ r.
Proof.
  induction r as [r Hr|r q Hr IH] using rep_ind; [by rewrite !(so_rep _ _ _ Hs)|]. by rewrite (so_alias _ _ _ Hs r q Hr).
Qed.

(** A solved form is its own. *)
Lemma sol_sol v : hom σ ρ (σ v) = σ v.
Proof.
  induction v as [v Hu|v t Ht IH] using var_ind; [rewrite (so_free _ _ _ Hs v Hu); cbn; by rewrite (so_free _ _ _ Hs v Hu)|].
  rewrite (so_bound _ _ _ Hs v t Ht), hom_compose. apply hom_ext; [by apply (so_plain _ _ _ Hs v)|done|].
  intros r. by apply rep_rep.
Qed.
Lemma hom_sol t : plain t = true → hom σ ρ (hom σ ρ t) = hom σ ρ t.
Proof. intros Hp. rewrite hom_compose. apply hom_ext; [done|by intros v _; apply sol_sol|]. intros r. by apply rep_rep. Qed.

(** *** [apply] computes it *)
Lemma eventually_rep r : eventually (λ n, rigid_rep n (rigid_alias c) r) (ρ r).
Proof.
  induction r as [r Hr|r q Hr IH] using rep_ind; apply eventually_succ; cbn [rigid_rep]; rewrite Hr.
  - rewrite (so_rep _ _ _ Hs r Hr). apply eventually_ret.
  - rewrite (so_alias _ _ _ Hs r q Hr). done.
Qed.

Lemma eventually_apply_parts t : plain t = true → (∀ v, t = Var v → eventually (λ n, apply n c (Var v)) (σ v)) →
  Forall (λ u, eventually (λ n, apply n c u) (hom σ ρ u)) (children t) → eventually (λ n, apply n c t) (hom σ ρ t).
Proof.
  intros Hp Hv Hc. destruct t as [| | | | |v|r|params ret|x|ts|n ts|a b|x|x| | |x tr n|fields tail|a b|h ts]; cbn [children] in Hc;
    rewrite ?Forall_app, ?Forall_cons in Hc; splits.
  all: try (by apply Hv).
  all: apply eventually_succ; cbn [apply hom].
  all: try apply eventually_ret.
  all: try (by apply eventually_fmap).
  all: try (by apply eventually_fmap, eventually_mapM).
  all: try (by repeat (eapply eventually_bind; [eassumption|]); apply eventually_ret).
  - apply eventually_fmap, eventually_rep.
  - eapply eventually_bind; [by apply eventually_mapM|]. eapply eventually_bind; [eassumption|]. apply eventually_ret.
  - eapply eventually_bind; [by apply (eventually_values _ (hom σ ρ))|]. apply all_nodes_parts in Hp as [Hp _]. cbn in Hp.
    destruct tail; try done; apply eventually_ret.
Qed.
Lemma eventually_apply t : plain t = true → eventually (λ n, apply n c t) (hom σ ρ t).
Proof.
  assert (∀ v, eventually (λ n, apply n c (Var v)) (σ v)) as Hv.
  { intros v. induction v as [v Hu|v t' Ht IH] using var_ind; apply eventually_succ; cbn [apply].
    - rewrite (so_free _ _ _ Hs v Hu). destruct (slot c v) as [[x|]|] eqn:E; [by destruct (Hu x)|apply eventually_ret..].
    - rewrite Ht, (so_bound _ _ _ Hs v t' Ht). pose proof (so_plain _ _ _ Hs v t' Ht) as Hp. clear Ht. revert Hp IH.
      tree_induction t'. intros Hp Hw. apply eventually_apply_parts; [done| |].
      + intros w ->. apply Hw. cbn. apply Nat.eqb_refl.
      + rewrite Forall_forall in *. intros u Hu. apply IH; [done|by apply (plain_parts t')|]. intros w Ho. apply Hw, occurs_parts; eauto. }
  tree_induction t. intros Hp. apply eventually_apply_parts; [done|by intros v ->|].
  rewrite Forall_forall in *. intros u Hu. apply IH; [done|by apply (plain_parts t)].
Qed.
End solved.

(** ** A variable for each [Never] *)
Fixpoint nevers (t : Type_) : nat :=
  match t with
  | Never => 1
  | Fun params ret => sum_list_with nevers params + nevers ret
  | List t | Set_ t | Channel t => nevers t
  | Tuple ts | Generic _ ts | Con _ ts => sum_list_with nevers ts
  | Map a b | App a b => nevers a + nevers b
  | AssocProj t _ _ => nevers t
  | AnonRecord fields _ => sum_list_with (λ q, nevers q.2) fields
  | _ => 0
  end.
Lemma nevers_eq t : nevers t = match t with Never => 1%nat | _ => sum_list_with nevers (children t) end.
Proof. destruct t; cbn; rewrite ?sum_list_with_app; cbn; rewrite ?sum_list_with_snd; lia. Qed.
Lemma nevers_part t u : u ∈ children t → (nevers u ≤ nevers t)%nat.
Proof. intros Hu. rewrite (nevers_eq t). pose proof (sum_list_with_in u nevers _ Hu). destruct t; try done. cbn in *. lia. Qed.

Lemma holds_never_eq t : holds_never t = match t with Never => true | _ => existsb holds_never (children t) end.
Proof.
  destruct t; cbn; rewrite ?existsb_app; cbn; rewrite ?orb_false_r; try done.
  induction fields as [|[k x] l IHl]; cbn; [done|]. by rewrite IHl.
Qed.
Lemma holds_never_nevers t : holds_never t = false ↔ nevers t = 0%nat.
Proof.
  tree_induction t. rewrite holds_never_eq, nevers_eq.
  assert (existsb holds_never (children t) = false ↔ sum_list_with nevers (children t) = 0%nat) as E; [|by destruct t].
  induction IH as [|x l Hx _ IHl]; cbn; [done|]. rewrite orb_false_iff, Hx, IHl. lia.
Qed.

Definition grow (k : nat) (s : TyVarSupply) : TyVarSupply :=
  mkSupply (subst s ++ replicate k None) (levels s ++ replicate k (level s)) (level s) (next s + k)%nat (base s) (trail s) (ranges s).
Lemma grow_0 s : grow 0 s = s.
Proof. unfold grow. cbn. rewrite !app_nil_r, Nat.add_0_r. by destruct s. Qed.
Lemma grow_grow j k s : grow k (grow j s) = grow (j + k) s.
Proof. unfold grow. cbn. by rewrite <-!app_assoc, <-!replicate_add, Nat.add_assoc. Qed.
Lemma fresh_grow s : fresh s = (next s, grow 1 s).
Proof. unfold fresh, grow. cbn. by rewrite Nat.add_1_r. Qed.

Lemma map_acc_app {A B S} (f : A → S → B * S) l k s :
  map_acc f (l ++ k) s = let '(l', s) := map_acc f l s in let '(k', s) := map_acc f k s in (l' ++ k', s).
Proof.
  revert s. induction l as [|x l IH]; intros s; cbn; [by destruct (map_acc f k s)|].
  destruct (f x s) as [y s1]. rewrite IH. destruct (map_acc f l s1) as [l' s2]. by destruct (map_acc f k s2).
Qed.
Lemma map_acc_length {A B S} (f : A → S → B * S) l s : length (map_acc f l s).1 = length l.
Proof.
  revert s. induction l as [|x l IH]; intros s; cbn; [done|]. destruct (f x s) as [y s1]. specialize (IH s1).
  destruct (map_acc f l s1). cbn in *. by rewrite IH.
Qed.

Lemma without_never_eq t s : without_never t s =
  if negb (holds_never t) then (t, s) else
  match t with
  | Never => (Var (next s), grow 1 s)
  | _ => let '(l, s') := map_acc without_never (children t) s in
         (match t, l with App _ _, [head; arg] => applied head arg | _, _ => rebuild t l end, s')
  end.
Proof.
  destruct t; cbn [without_never children]; destruct (negb _) eqn:E; try done; cbn [map_acc rebuild];
    repeat match goal with |- context [without_never ?t ?s] => destruct (without_never t s) as [? ?] end; try done.
  - rewrite map_acc_app. destruct (map_acc without_never params s) as [l s1]. cbn [map_acc].
    destruct (without_never t s1). by rewrite removelast_last, last_snoc.
  - by rewrite fresh_grow.
  - clear E. assert (∀ s, map_acc (λ (p : N * Type_) s0, let '(t, s1) := without_never p.2 s0 in (p.1, t, s1)) fields s =
      let '(l, s') := map_acc without_never fields.*2 s in (refill fields l, s')) as ->; [|by destruct (map_acc without_never _ s)].
    induction fields as [|[k x] fs IH]; intros s0; cbn; [done|]. destruct (without_never x s0) as [y s1]. rewrite IH.
    by destruct (map_acc without_never fs.*2 s1).
Qed.

(** What the new variables keep of a type. *)
Record without (n k : nat) (t t' : Type_) : Prop := {
  wo_agree : agree t t';
  wo_plain : plain t = true → plain t' = true;
  wo_normal : normal t = true → normal t' = true;
  wo_never : nevers t' = 0%nat;
  wo_occurs w : plain t = true → occurs_in w t' = true → occurs_in w t = true ∨ (n ≤ w < n + k)%nat;
  wo_same : nevers t = 0%nat → t' = t;
  wo_rigid ρ : hom Var ρ t = t → hom Var ρ t' = t';
}.
Lemma without_wider n k n' k' t t' : without n k t t' → (n' ≤ n)%nat → (n + k ≤ n' + k')%nat → without n' k' t t'.
Proof. intros [] ? ?. split; try done. intros w ? [?|?]%wo_occurs0; [by left|right; lia|done]. Qed.

Lemma map_acc_without l : Forall (λ t, ∀ s, ∃ t', without_never t s = (t', grow (nevers t) s) ∧ without (next s) (nevers t) t t') l →
  ∀ s, ∃ l', map_acc without_never l s = (l', grow (sum_list_with nevers l) s) ∧
             Forall2 (without (next s) (sum_list_with nevers l)) l l'.
Proof.
  induction 1 as [|t l Ht _ IH]; intros s; cbn [map_acc sum_list_with]; [exists []; by rewrite grow_0|].
  destruct (Ht s) as (t' & -> & Hw). destruct (IH (grow (nevers t) s)) as (l' & -> & Hl).
  exists (t' :: l'). rewrite grow_grow. split; [done|]. constructor; [eapply without_wider; [done|lia..]|].
  eapply Forall2_impl; [exact Hl|]. intros x y Hxy. eapply without_wider; [done|cbn; lia..].
Qed.

Lemma sum_zero {A} (f : A → nat) l : sum_list_with f l = 0%nat → Forall (λ x, f x = 0%nat) l.
Proof. induction l as [|x l IH]; cbn; intros H; constructor; [lia|]. apply IH. lia. Qed.
Lemma sum_zero_2 {A} (f : A → nat) l : Forall (λ x, f x = 0%nat) l → sum_list_with f l = 0%nat.
Proof. induction 1 as [|x l Hx _ IH]; cbn; lia. Qed.

Lemma nevers_applied head arg : (nevers (applied head arg) ≤ nevers head + nevers arg)%nat.
Proof.
  destruct (applied_cases head arg) as [(h & rest & ->)|[_ ->]]; [|done]. destruct h; cbn; try lia.
  destruct (last rest) as [x|] eqn:E; cbn; [|lia]. apply last_Some_elem_of in E. pose proof (sum_list_with_in x nevers _ E). lia.
Qed.

Lemma is_leaf_rebuild t l : is_leaf t = false → length l = length (children t) → is_leaf (rebuild t l) = false.
Proof. intros Hl Hlen. destruct t; try done; by destruct l as [|? [|? [|]]]. Qed.

Lemma without_rebuild n k t l : is_leaf t = false → t ≠ Never → Forall2 (without n k) (children t) l → without n k t (rebuild t l).
Proof.
  intros Hl Hn H. pose proof (Forall2_length _ _ _ H) as Hlen. split.
  - rewrite <-(rebuild_children t) at 1. apply agree_rebuild; [done|]. eapply Forall2_impl; [done|]. by intros ? ? [].
  - intros [Hp Hc]%all_nodes_parts. apply all_nodes_rebuild; auto with silt. eapply Forall2_Forall_r; [exact H|].
    eapply Forall_impl; [exact Hc|]. intros x Hx y Hy. by apply (wo_plain _ _ _ _ Hy).
  - intros [Hp Hc]%all_nodes_parts. apply all_nodes_rebuild; auto with silt. eapply Forall2_Forall_r; [exact H|].
    eapply Forall_impl; [exact Hc|]. intros x Hx y Hy. by apply (wo_normal _ _ _ _ Hy).
  - rewrite nevers_eq, rebuild_parts by done.
    assert (sum_list_with nevers l = 0%nat) as E; [|destruct (rebuild t l) eqn:Er; try done; destruct t; try done; destruct l as [|? [|? [|]]]; done].
    apply sum_zero_2. eapply Forall2_Forall_r; [exact H|]. apply Forall_forall. intros x _ y Hy. apply Hy.
  - intros w Hp Ho. assert (plain (rebuild t l) = true) as Hpr.
    { apply all_nodes_parts in Hp as [Hp Hc]. apply all_nodes_rebuild; auto with silt. eapply Forall2_Forall_r; [exact H|].
      eapply Forall_impl; [exact Hc|]. intros x Hx y Hy. by apply (wo_plain _ _ _ _ Hy). }
    apply occurs_parts in Ho as [E|(u & Hu & Ho)]; [by apply rebuild_not_var in E| |done].
    rewrite rebuild_parts in Hu by done. apply list_elem_of_lookup_1 in Hu as [i Hi].
    destruct (Forall2_lookup_r _ _ _ _ _ H Hi) as (x & Hx & Hw). apply list_elem_of_lookup_2 in Hx.
    apply (wo_occurs _ _ _ _ Hw) in Ho as [Ho|?]; [|by right|by apply (plain_parts t)]. left. apply occurs_parts; eauto.
  - rewrite nevers_eq. intros Hz. rewrite <-(rebuild_children t) at 2. f_equal.
    assert (sum_list_with nevers (children t) = 0%nat) as Hz' by (by destruct t). apply sum_zero in Hz'. clear -H Hz'.
    induction H as [|x y l k' Hxy _ IH]; [done|]. apply Forall_cons in Hz' as [? ?]. rewrite IH by done. f_equal. by apply (wo_same _ _ _ _ Hxy).
  - intros ρ. rewrite !hom_rebuild, rebuild_parts by (try done; by apply is_leaf_rebuild). rewrite rebuild_rebuild by (by rewrite ?length_map).
    intros E. apply (f_equal children) in E. rewrite rebuild_parts in E by (by rewrite length_map). f_equal. clear -H E.
    induction H as [|x y l k' Hxy _ IH]; [done|]. cbn in *. injection E as Ex E. rewrite IH by done. f_equal. by apply (wo_rigid _ _ _ _ Hxy).
Qed.

Lemma without_id n k t : nevers t = 0%nat → without n k t t.
Proof. intros H. split; try done; [apply agree_refl|by left]. Qed.

Lemma without_applied n k a b x y : nevers (App a b) ≠ 0%nat → without n k a x → without n k b y → without n k (App a b) (applied x y).
Proof.
  intros Hn Ha Hb. split.
  - destruct (applied_cases x y) as [(h & rest & ->)|[_ ->]].
    + apply agree_app_l; [apply (wo_agree _ _ _ _ Ha)|apply (wo_agree _ _ _ _ Hb)].
    + apply agree_parts; [done|]. repeat (apply Forall2_cons; split); [apply (wo_agree _ _ _ _ Ha)|apply (wo_agree _ _ _ _ Hb)|done].
  - intros [? ?]%all_nodes_app. apply (st_applied _ stable_plain); [by apply (wo_plain _ _ _ _ Ha)|by apply (wo_plain _ _ _ _ Hb)].
  - intros [? ?]%all_nodes_app. apply (st_applied _ stable_normal); [by apply (wo_normal _ _ _ _ Ha)|by apply (wo_normal _ _ _ _ Hb)].
  - pose proof (nevers_applied x y). rewrite (wo_never _ _ _ _ Ha), (wo_never _ _ _ _ Hb) in H. lia.
  - intros w [? ?]%all_nodes_app Ho. cbn. rewrite orb_true_iff. apply occurs_applied in Ho as [Ho|Ho];
      [apply (wo_occurs _ _ _ _ Ha) in Ho|apply (wo_occurs _ _ _ _ Hb) in Ho]; tauto.
  - done.
  - intros ρ E. rewrite hom_applied. cbn [hom] in E.
    destruct (applied_cases (hom Var ρ a) (hom Var ρ b)) as [(h & rest & Ec)|[_ Ec]]; [rewrite Ec in E; by destruct h|].
    rewrite Ec in E. injection E as E1 E2. by rewrite (wo_rigid _ _ _ _ Ha ρ E1), (wo_rigid _ _ _ _ Hb ρ E2).
Qed.

Lemma without_never_spec t : ∀ s, ∃ t', without_never t s = (t', grow (nevers t) s) ∧ without (next s) (nevers t) t t'.
Proof.
  tree_induction t. intros s. rewrite without_never_eq. destruct (holds_never t) eqn:E; cbn [negb]; [|].
  2: { apply holds_never_nevers in E. rewrite E, grow_0. exists t. split; [done|]. by apply without_id. }
  assert (nevers t ≠ 0%nat) as Hnz by (rewrite <-holds_never_nevers; congruence).
  destruct (decide (t = Never)) as [->|Hnever].
  { exists (Var (next s)). split; [done|]. split; try done; [by apply agree_wild_l|]. cbn. intros w _ <-%Nat.eqb_eq. right. lia. }
  assert (nevers t = sum_list_with nevers (children t)) as En by (rewrite nevers_eq; by destruct t).
  destruct (map_acc_without _ IH s) as (l & Hl & Hw). rewrite Hl, <-En in *. destruct (is_leaf t) eqn:Ht.
  - destruct t as [| | | | |v|r|params ret|x|ts|n ts|a b|x|x| | |x tr n|fields tail|a b|h ts]; try discriminate Ht; [by inversion Hw|by inversion Hw|].
    cbn [children] in Hw. pose proof (Forall2_length _ _ _ Hw) as Hlen. destruct l as [|x [|y [|]]]; try discriminate Hlen.
    rewrite !Forall2_cons in Hw. destruct Hw as (Hx & Hy & _). eexists. split; [done|]. by apply without_applied.
  - exists (rebuild t l). split; [by destruct t|]. by apply without_rebuild.
Qed.

(** ** Binding a variable *)
Lemma fold_lower f L l s : Forall (λ v, subst s !! v = Some None ∧ (v < length (levels s))%nat) l →
  ∃ lv, fold_option (λ s v,
      slot ← subst s !! v;
      match slot with
      | Some resolved => f s v resolved
      | None => x ← levels s !! v; Some (with_levels (<[v := x `min` L]>) s)
      end) s l = Some (with_levels (λ _, lv) s) ∧ length lv = length (levels s) ∧
    ∀ w, lv !! w = if decide (w ∈ l) then (λ x, x `min` L)%nat <$> levels s !! w else levels s !! w.
Proof.
  revert s. induction l as [|v l IH]; intros s Hl; cbn [fold_option].
  { exists (levels s). split_and!; [by destruct s|done|]. intros w. by rewrite decide_False by set_solver. }
  apply Forall_cons in Hl as [[Hv Hlt] Hl]. destruct (lookup_lt_is_Some_2 _ _ Hlt) as [x Hx].
  rewrite Hv. cbn [mbind option_bind]. rewrite Hx. cbn [mbind option_bind].
  destruct (IH (with_levels (<[v := x `min` L]>) s)%nat) as (lv & E & Hlen & Hlv).
  { eapply Forall_impl; [exact Hl|]. cbn. intros w [? ?]. by rewrite length_insert. }
  exists lv. split_and!; [by rewrite E|by rewrite Hlen; cbn; rewrite length_insert|]. intros w. rewrite Hlv. cbn.
  destruct (decide (w = v)) as [->|Hne].
  - rewrite list_lookup_insert_eq, Hx, (decide_True (P := v ∈ v :: l)) by (done || set_solver). cbn. case_decide; cbn; f_equal; lia.
  - rewrite list_lookup_insert_ne by done. by repeat case_decide; set_solver.
Qed.

Lemma lower_unbound fuel t L s : (∀ v, occurs_in v t = true → subst s !! v = Some None ∧ (v < length (levels s))%nat) →
  ∃ lv, lower (S fuel) t L s = Some (with_levels (λ _, lv) s) ∧ length lv = length (levels s) ∧
    ∀ w, lv !! w = if occurs_in w t then (λ x, x `min` L)%nat <$> levels s !! w else levels s !! w.
Proof.
  intros H. cbn [lower].
  destruct (fold_lower (λ s v resolved, s ← lower fuel resolved L (with_subst (<[v := None]>) s); Some (with_subst (<[v := Some resolved]>) s))
    L (free_vars_in t) s) as (lv & E & Hlen & Hlv).
  { apply Forall_forall. intros v Hv. by apply H, free_vars_elem. }
  exists lv. split_and!; [exact E|done|]. intros w. rewrite Hlv. destruct (occurs_in w t) eqn:Ew.
  - by rewrite decide_True by (by apply free_vars_elem).
  - rewrite decide_False; [done|]. rewrite free_vars_elem. congruence.
Qed.

Definition single (v : TyVar) (t : Type_) : TyVar → Type_ := λ u, if (u =? v)%nat then t else Var u.
Definition then_single (σ : TyVar → Type_) (v : TyVar) (t : Type_) : TyVar → Type_ := λ u, hom (single v t) id (σ u).

(** What binding [v] to [t] makes of a state, when [t'] is [t] without
    [Never]. *)
Record bound_to (v : TyVar) (t t' : Type_) (s s' : TyVarSupply) : Prop := {
  bo_without : without (next s) (nevers t) t t';
  bo_subst : subst s' = <[v := Some t']> (subst s ++ replicate (nevers t) None);
  bo_next : next s' = (next s + nevers t)%nat;
  bo_level : level s' = level s;
  bo_base : base s' = base s;
  bo_ranges : ranges s' = ranges s;
  bo_trail : trail s' = trail s ++ if decide (v < base s)%nat then [v] else [];
  bo_length : length (levels s') = (length (levels s) + nevers t)%nat;
  bo_levels w : (w < next s')%nat → levels s' !! w =
    (if occurs_in w t' then (λ x, x `min` default 0 (levels s !! v)) else id)%nat <$> (levels s ++ replicate (nevers t) (level s)) !! w;
}.

Lemma bind_bound v t s : length (subst s) = next s → length (levels s) = next s → (v < next s)%nat → subst s !! v = Some None →
  plain t = true → (∀ w, occurs_in w t = true → (w < next s)%nat ∧ subst s !! w = Some None) →
  ∃ t' s', bind v t s = Some s' ∧ bound_to v t t' s s'.
Proof.
  intros Hsub Hlev Hv Hfree Hp Ht. unfold bind. set (s0 := if bool_decide (v < base s)%nat then with_trail (λ l, l ++ [v]) s else s).
  assert (subst s0 = subst s ∧ levels s0 = levels s ∧ next s0 = next s ∧ level s0 = level s ∧ base s0 = base s ∧ ranges s0 = ranges s ∧
    trail s0 = trail s ++ if decide (v < base s)%nat then [v] else []) as (E1 & E2 & E3 & E4 & E5 & E6 & E7).
  { unfold s0. case_bool_decide; rewrite ?decide_True, ?decide_False by done; cbn; by rewrite ?app_nil_r. }
  destruct (without_never_spec t s0) as (t' & -> & Hw). destruct (lookup_lt_is_Some_2 (levels s) v) as [L HL]; [lia|].
  assert (levels (grow (nevers t) s0) !! v = Some L) as HL' by (cbn; rewrite lookup_app_l; rewrite ?E2; [done|lia]).
  rewrite HL'. cbn [mbind option_bind]. set (s1 := grow (nevers t) s0) in *.
  destruct (lower_unbound (length (subst s1)) t' L s1) as (lv & -> & Hlen & Hlv).
  { intros w Hw'. apply (wo_occurs _ _ _ _ Hw) in Hw' as [Hw'|Hw']; [|split|done].
    - destruct (Ht w Hw') as [? Hs]. cbn. rewrite E1, E2, length_app, lookup_app_l by lia. split; [done|lia].
    - cbn. rewrite E1, lookup_app_r, lookup_replicate_2 by lia. done.
    - cbn. rewrite E2, length_app, length_replicate. lia. }
  cbn [mbind option_bind]. assert (subst s1 !! v = Some None) as Hv1 by (cbn; rewrite E1, lookup_app_l; [done|lia]).
  cbn [with_levels subst]. rewrite Hv1. cbn [mbind option_bind]. eexists t', _. split; [done|]. split; cbn [with_subst with_levels subst next level base ranges trail levels].
  - by rewrite <-E3.
  - cbn. by rewrite E1.
  - cbn. by rewrite E3.
  - done.
  - done.
  - done.
  - done.
  - rewrite Hlen. cbn. by rewrite length_app, length_replicate, E2.
  - intros w Hlt. rewrite Hlv, HL. cbn. rewrite E2, E4. destruct (occurs_in w t'); [done|]. by rewrite option_fmap_id.
Qed.

Lemma lookup_grown (sub : list (option Type_)) k v t : (sub ++ replicate k None) !! v = Some (Some t) ↔ sub !! v = Some (Some t).
Proof.
  rewrite lookup_app. destruct (sub !! v) as [x|] eqn:E; [done|]. rewrite lookup_replicate. naive_solver.
Qed.

Section bind_solves.
Context (c : Checker) (σ : TyVar → Type_) (ρ : RigidId → RigidId) (v : TyVar) (t t' : Type_) (s' : TyVarSupply).
Hypothesis (Hs : solves c σ ρ) (Hv : (v < next (vars c))%nat) (Hfree : unbound c v).
Hypothesis (Hplain : plain t = true) (Hclosed : hom σ ρ t = t) (Hnext : ∀ w, occurs_in w t = true → (w < next (vars c))%nat).
Hypothesis (Hoccurs : occurs_in v t = false) (Hb : bound_to v t t' (vars c) s').
Let c' := with_vars (λ _, s') c.
Let σ' := then_single σ v t'.

Lemma closed_unbound w : occurs_in w t = true → unbound c w.
Proof using Hs Hplain Hclosed.
  rewrite <-Hclosed. intros Hw. apply occurs_hom in Hw as (u & _ & Hw); [by eapply sol_unbound|done|by intros u; eapply sol_plain].
Qed.
Lemma plain_bound : plain t' = true.
Proof using All. by apply (wo_plain _ _ _ _ (bo_without _ _ _ _ _ Hb)). Qed.
Lemma occurs_bound w : occurs_in w t' = true → unbound c w ∧ w ≠ v ∧ (w < next s')%nat.
Proof using All.
  intros Hw. apply (wo_occurs _ _ _ _ (bo_without _ _ _ _ _ Hb)) in Hw as [Hw|Hw]; [| |done]; rewrite (bo_next _ _ _ _ _ Hb).
  - split_and!; [by apply closed_unbound|congruence|]. specialize (Hnext w Hw). lia.
  - split_and!; [apply (unbound_next _ _ _ Hs); lia|lia|lia].
Qed.

Lemma slot_bound u x : slot c' u = Some (Some x) ↔ (u = v ∧ x = t') ∨ (u ≠ v ∧ slot c u = Some (Some x)).
Proof using Hs Hv Hb.
  cbn. rewrite (bo_subst _ _ _ _ _ Hb). destruct (decide (u = v)) as [->|Hne].
  - rewrite list_lookup_insert_eq by (rewrite length_app, (so_subst _ _ _ Hs); lia). naive_solver.
  - rewrite list_lookup_insert_ne, lookup_grown by done. naive_solver.
Qed.
Lemma unbound_bound w : unbound c' w ↔ w ≠ v ∧ unbound c w.
Proof using Hs Hv Hb.
  unfold unbound. setoid_rewrite slot_bound. split.
  - intros H. split; [intros ->; by apply (H t'); left|]. intros x Hx. destruct (decide (w = v)) as [->|]; [by apply (H t'); left|]. apply (H x). by right.
  - intros [Hne H] x [[-> _]|[_ Hx]]; [done|by apply (H x)].
Qed.

Lemma sol_other w : unbound c w → w ≠ v → σ' w = Var w.
Proof using All. intros Hw Hne. unfold σ', then_single. rewrite (so_free _ _ _ Hs) by done. cbn. unfold single. by rewrite (proj2 (Nat.eqb_neq w v)). Qed.
Lemma sol_bound : σ' v = t'.
Proof using All. unfold σ', then_single. rewrite (so_free _ _ _ Hs) by done. cbn. unfold single. by rewrite Nat.eqb_refl. Qed.
Lemma closed_bound : hom σ' ρ t' = t'.
Proof using All.
  rewrite (hom_ext σ' ρ Var ρ); [|apply plain_bound| |done].
  - apply (wo_rigid _ _ _ _ (bo_without _ _ _ _ _ Hb)). rewrite <-Hclosed at 2. apply hom_ext; [done| |done].
    intros w Hw. symmetry. apply (so_free _ _ _ Hs). by apply closed_unbound.
  - intros w Hw. by apply sol_other; apply occurs_bound.
Qed.

Lemma lev_bound w : (w < next s')%nat → lev c' w =
  ((if occurs_in w t' then λ x, x `min` lev c v else id) (if decide (w < next (vars c)) then lev c w else level (vars c)))%nat.
Proof using Hs Hv Hb.
  intros Hw. unfold lev at 1. cbn [vars c' with_vars]. rewrite (bo_levels _ _ _ _ _ Hb w Hw). rewrite (bo_next _ _ _ _ _ Hb) in Hw.
  destruct (decide (w < next (vars c))%nat) as [Hlt|Hge].
  - rewrite lookup_app_l by (by rewrite (so_levels _ _ _ Hs)). unfold lev.
    destruct (levels (vars c) !! w) as [x|] eqn:E; [cbn; by destruct (occurs_in w t')|].
    apply lookup_ge_None in E. rewrite (so_levels _ _ _ Hs) in E. lia.
  - rewrite lookup_app_r, lookup_replicate_2 by (rewrite (so_levels _ _ _ Hs); lia). cbn. by destruct (occurs_in w t').
Qed.
Lemma lev_bound_le w : (w < next (vars c))%nat → (lev c' w ≤ lev c w)%nat.
Proof using Hs Hv Hb.
  intros Hw. rewrite lev_bound by (rewrite (bo_next _ _ _ _ _ Hb); lia). rewrite decide_True by done. destruct (occurs_in w t'); cbn; lia.
Qed.
Lemma lev_bound_same w : (w < next (vars c))%nat → occurs_in w t' = false → lev c' w = lev c w.
Proof using Hs Hv Hb.
  intros Hw Ho. rewrite lev_bound by (rewrite (bo_next _ _ _ _ _ Hb); lia). by rewrite Ho, decide_True.
Qed.
Lemma lev_bound_occurs w : occurs_in w t' = true → (lev c' w ≤ lev c v)%nat.
Proof using All.
  intros Ho. destruct (occurs_bound w Ho) as (_ & _ & Hw). rewrite lev_bound, Ho by done. lia.
Qed.

Lemma bind_solves : solves c' σ' ρ.
Proof using All.
  split.
  - cbn. rewrite (bo_subst _ _ _ _ _ Hb), (bo_next _ _ _ _ _ Hb), length_insert, length_app, length_replicate, (so_subst _ _ _ Hs). lia.
  - cbn. rewrite (bo_length _ _ _ _ _ Hb), (bo_next _ _ _ _ _ Hb), (so_levels _ _ _ Hs). lia.
  - intros u x [[-> ->]|[Hne Hx]]%slot_bound; [by rewrite sol_bound, closed_bound|]. unfold σ', then_single.
    by rewrite (so_bound _ _ _ Hs u x Hx), hom_compose.
  - intros w [? ?]%unbound_bound. by apply sol_other.
  - apply (so_alias _ _ _ Hs).
  - apply (so_rep _ _ _ Hs).
  - intros u x [[-> ->]|[Hne Hx]]%slot_bound; [apply plain_bound|by apply (so_plain _ _ _ Hs u)].
  - intros u x [[-> ->]|[Hne Hx]]%slot_bound; [|by apply (so_never _ _ _ Hs u)]. apply holds_never_nevers, Hb.
  - intros u x w [[-> ->]|[Hne Hx]]%slot_bound Ho; [by apply occurs_bound|]. cbn. rewrite (bo_next _ _ _ _ _ Hb).
    pose proof (so_over _ _ _ Hs u x w Hx Ho). lia.
  - destruct (so_rank _ _ _ Hs) as [rk Hrk].
    exists (λ u, match slot c u with Some (Some _) => rk u + 2 | _ => if (u =? v)%nat then 1 else 0 end)%nat.
    intros u x w Hx Ho. apply slot_bound in Hx as [[-> ->]|[Hne Hx]].
    + destruct (occurs_bound w Ho) as (Hu & Hwv & _).
      destruct (slot c w) as [[y|]|] eqn:E; [by destruct (Hu y)|..];
        (destruct (slot c v) as [[y|]|] eqn:E'; [by destruct (Hfree y)|..]); by rewrite (proj2 (Nat.eqb_neq w v)), Nat.eqb_refl by done; lia.
    + rewrite Hx. specialize (Hrk _ _ _ Hx Ho). destruct (slot c w) as [[y|]|]; [lia|..]; destruct (w =? v)%nat; lia.
  - apply (so_alias_rank _ _ _ Hs).
  - intros u w Hu Ho. unfold σ', then_single in Ho. apply occurs_hom in Ho as (z & Hz & Ho); [|by eapply sol_plain|].
    2: { intros z. unfold single. destruct (z =? v)%nat; [apply plain_bound|done]. }
    destruct (decide (occurs_in u t' = true)) as [Hut|Hut%not_true_is_false].
    { destruct (occurs_bound u Hut) as (Hub & Huv & _). rewrite (so_free _ _ _ Hs u Hub) in Hz. cbn in Hz. apply Nat.eqb_eq in Hz as <-.
      unfold single in Ho. rewrite (proj2 (Nat.eqb_neq _ _) Huv) in Ho. cbn in Ho. by apply Nat.eqb_eq in Ho as ->. }
    destruct (decide (u < next (vars c))%nat) as [Hlt|Hge].
    2: { rewrite (so_free _ _ _ Hs) in Hz by (apply (unbound_next _ _ _ Hs); lia). cbn in Hz. apply Nat.eqb_eq in Hz as <-.
         unfold single in Ho. rewrite (proj2 (Nat.eqb_neq _ _)) in Ho by lia. cbn in Ho. by apply Nat.eqb_eq in Ho as ->. }
    rewrite (lev_bound_same u) by done. assert (is_Some (slot c u)) as Hsu by (apply lookup_lt_is_Some_2; by rewrite (so_subst _ _ _ Hs)).
    pose proof (so_lower _ _ _ Hs u z Hsu Hz) as Hle. unfold single in Ho. destruct (z =? v)%nat eqn:E.
    + apply Nat.eqb_eq in E as ->. pose proof (lev_bound_occurs w Ho). lia.
    + cbn in Ho. apply Nat.eqb_eq in Ho as ->. pose proof (lev_bound_le w (sol_next _ _ _ Hs u w Hlt Hz)). lia.
Qed.
End bind_solves.
