(* ===== verification/UnifySpec.v ===== *)
(** * What unifying two types does (src/typechecker/unify.rs)

    One statement for every arm of the unifier: how far the substitution
    grows, what the types are then, and that no more was decided than
    needed. *)

From S2P Require Import Prelude Types TypesFacts Unify UnifyFacts.

(** ** Substitutions that grow *)
Record extends (c : Checker) (σ : nat → Type_) (ρ : nat → nat) (c' : Checker) (σ' : nat → Type_) (ρ' : nat → nat) : Prop := {
  ex_solves : solves c' σ' ρ';
  ex_next : (next (vars c) ≤ next (vars c'))%nat;
  ex_sol v : hom σ' ρ' (σ v) = σ' v;
  ex_rep r : ρ' (ρ r) = ρ' r;
  ex_kept v t : slot c v = Some (Some t) → slot c' v = Some (Some t);
  ex_lev w : (w < next (vars c))%nat → (lev c' w ≤ lev c w)%nat;
  ex_level : level (vars c') = level (vars c);
  ex_base : base (vars c') = base (vars c);
  ex_ranges : ranges (vars c') = ranges (vars c);
  ex_trail : ∃ more, trail (vars c') = trail (vars c) ++ more ∧
    (∀ v, v ∈ more → unbound c v) ∧
    ∀ v, (v < base (vars c))%nat → unbound c v → unbound c' v ∨ v ∈ more;
}.

Lemma ex_hom c σ ρ c' σ' ρ' t : extends c σ ρ c' σ' ρ' → plain t = true → hom σ' ρ' (hom σ ρ t) = hom σ' ρ' t.
Proof.
  intros H Hp. rewrite hom_compose. apply hom_ext; [done|by intros v _; apply (ex_sol _ _ _ _ _ _ H)|].
  intros r. apply (ex_rep _ _ _ _ _ _ H).
Qed.
Lemma extends_refl c σ ρ : solves c σ ρ → extends c σ ρ c σ ρ.
Proof.
  intros Hs. split; try done; [by apply sol_sol with c|by intros r; apply (rep_rep c σ ρ)|].
  exists []. rewrite app_nil_r. split_and!; [done|by intros v Hv%not_elem_of_nil|auto].
Qed.
Lemma extends_trans c σ ρ c1 σ1 ρ1 c2 σ2 ρ2 : solves c σ ρ →
  extends c σ ρ c1 σ1 ρ1 → extends c1 σ1 ρ1 c2 σ2 ρ2 → extends c σ ρ c2 σ2 ρ2.
Proof.
  intros Hs H1 H2. split.
  - apply H2.
  - pose proof (ex_next _ _ _ _ _ _ H1). pose proof (ex_next _ _ _ _ _ _ H2). lia.
  - intros v. rewrite <-(ex_sol _ _ _ _ _ _ H2 v), <-(ex_sol _ _ _ _ _ _ H1 v).
    symmetry. apply (ex_hom _ _ _ _ _ _ _ H2). by apply (sol_plain c σ ρ).
  - intros r. by rewrite <-(ex_rep _ _ _ _ _ _ H2), (ex_rep _ _ _ _ _ _ H1), (ex_rep _ _ _ _ _ _ H2).
  - intros v t Ht. by apply H2, H1.
  - intros w Hw. pose proof (ex_lev _ _ _ _ _ _ H1 w Hw). pose proof (ex_next _ _ _ _ _ _ H1).
    pose proof (ex_lev _ _ _ _ _ _ H2 w ltac:(lia)). lia.
  - by rewrite (ex_level _ _ _ _ _ _ H2), (ex_level _ _ _ _ _ _ H1).
  - by rewrite (ex_base _ _ _ _ _ _ H2), (ex_base _ _ _ _ _ _ H1).
  - by rewrite (ex_ranges _ _ _ _ _ _ H2), (ex_ranges _ _ _ _ _ _ H1).
  - destruct (ex_trail _ _ _ _ _ _ H1) as (m1 & E1 & U1 & T1), (ex_trail _ _ _ _ _ _ H2) as (m2 & E2 & U2 & T2).
    exists (m1 ++ m2). rewrite E2, E1, app_assoc. split_and!; [done| |].
    { intros v [Hv|Hv]%elem_of_app; [by apply U1|]. intros t Ht. apply (U2 v Hv t). by apply (ex_kept _ _ _ _ _ _ H1). }
    intros v Hv Hu. rewrite elem_of_app.
    destruct (T1 v Hv Hu) as [Hu1|?]; [|by right; left]. destruct (T2 v ltac:(by rewrite (ex_base _ _ _ _ _ _ H1)) Hu1); tauto.
Qed.

(** How many variables are unbound. *)
Definition open_count (c : Checker) : nat := length (filter (λ o, o = None) (subst (vars c))).

(** ** The other answers

    An assignment [θ] of types to variables that solves what is bound
    already. *)
Section answers.
Context (tables : Tables).
Definition answer_node (t : Type_) : bool :=
  normal_node t && tame_node t && match t with Con (Named r) _ => negb (is_builtin (builtin_type_id tables) TYPE_OF r) | _ => true end.
Record answer (θ : nat → Type_) (c : Checker) : Prop := {
  an_nodes v : all_nodes answer_node (θ v) = true;
  an_bound v t : slot c v = Some (Some t) → θ v = hom θ id t;
}.
(** A state in which nothing keeps two types that could be made the same
    apart but themselves: no annotation variables of a group, no variable
    of something outside. *)
Record ordinary (c : Checker) : Prop := {
  or_alias : rigid_alias c = ∅;
  or_group : group_rigid c = ∅;
  or_tame v t : slot c v = Some (Some t) → tame t = true;
  or_inside v : (v < next (vars c))%nat → unbound c v → (0 < lev c v)%nat;
}.

(** ** What unifying the types of two lists, pair by pair, does *)
Record unified (c : Checker) (σ : nat → Type_) (ρ : nat → nat) (l k : list Type_) (out : list Fault)
    (c' : Checker) (σ' : nat → Type_) (ρ' : nat → nat) : Prop := {
  un_extends : extends c σ ρ c' σ' ρ';
  un_count : (open_count c' ≤ open_count c + sum_list_with nevers l + sum_list_with nevers k)%nat;
  un_progress : (open_count c' < open_count c + sum_list_with nevers l + sum_list_with nevers k)%nat ∨
    (∀ t, plain t = true → size (hom σ' ρ' t) = size (hom σ ρ t));
  un_agree : escaped_vars c = ∅ → out = [] →
    escaped_vars c' = ∅ ∧ Forall2 agree (map (hom σ' ρ') l) (map (hom σ' ρ') k);
  un_general θ : ordinary c → answer θ c → Forall (λ t, tame t = true) l → Forall (λ t, tame t = true) k →
    map (hom θ id) l = map (hom θ id) k → out = [] ∧ ordinary c' ∧ answer θ c';
}.
Definition uni (c : Checker) (σ : nat → Type_) (ρ : nat → nat) (l k : list Type_) (m : nat → M (list Fault)) : Prop :=
  ends m c (λ out c', ∃ σ' ρ', unified c σ ρ l k out c' σ' ρ').

(** The types that the statement is about: closed under what is bound. *)
Record closed (c : Checker) (σ : nat → Type_) (ρ : nat → nat) (t : Type_) : Prop := {
  cl_plain : plain t = true;
  cl_fixed : hom σ ρ t = t;
  cl_next v : occurs_in v t = true → (v < next (vars c))%nat;
}.

Lemma unified_nil c σ ρ : solves c σ ρ → unified c σ ρ [] [] [] c σ ρ.
Proof. intros Hs. split; [by apply extends_refl|cbn; lia|by right|by intros|by intros]. Qed.

Lemma nevers_hom σ ρ t : (∀ v, nevers (σ v) = 0%nat) → (nevers (hom σ ρ t) ≤ nevers t)%nat.
Proof.
  intros Hσ. induction t as [v|r|a b IHa IHb|t Hl IH] using Type_shape_ind; [cbn [hom]; by rewrite (Hσ v)|done|..].
  - cbn. pose proof (nevers_applied (hom σ ρ a) (hom σ ρ b)). lia.
  - destruct (decide (t = Never)) as [->|Hn]; [done|]. rewrite hom_rebuild by done.
    rewrite (nevers_eq (rebuild _ _)), (nevers_eq t), rebuild_parts by (by rewrite length_map).
    assert (sum_list_with nevers (map (hom σ ρ) (children t)) ≤ sum_list_with nevers (children t))%nat as Hle.
    { induction IH as [|x l Hx _ IHl]; cbn; lia. }
    destruct (rebuild _ _) eqn:Er; destruct t; try done; cbn in *; lia.
Qed.
Lemma sol_nevers c σ ρ v : solves c σ ρ → nevers (σ v) = 0%nat.
Proof.
  intros Hs. induction v as [v Hu|v t Ht IH] using (var_ind c σ ρ Hs); [by rewrite (so_free _ _ _ Hs)|].
  rewrite (so_bound _ _ _ Hs v t Ht). set (σ' := λ w, if occurs_in w t then σ w else Var w).
  rewrite (hom_ext σ ρ σ' ρ); [|by apply (so_plain _ _ _ Hs v)|by intros w Hw; unfold σ'; rewrite Hw|done].
  pose proof (so_never _ _ _ Hs v t Ht) as Hz%holds_never_nevers.
  assert (∀ w, nevers (σ' w) = 0%nat) as Hw by (intros w; unfold σ'; destruct (occurs_in w t) eqn:E; [by apply IH|done]).
  pose proof (nevers_hom σ' ρ t Hw). lia.
Qed.

Lemma answer_sol c σ ρ θ v : solves c σ ρ → ordinary c → answer θ c → hom θ id (σ v) = θ v.
Proof.
  intros Hs Ho Ha. assert (∀ r, ρ r = r) as Hρ by (intros r; apply (so_rep _ _ _ Hs); by rewrite (or_alias _ Ho)).
  induction v as [v Hu|v t Ht IH] using (var_ind c σ ρ Hs); [by rewrite (so_free _ _ _ Hs)|].
  rewrite (so_bound _ _ _ Hs v t Ht), (an_bound _ _ Ha v t Ht), hom_compose.
  apply hom_ext; [by apply (so_plain _ _ _ Hs v)|done|done].
Qed.
Lemma answer_hom c σ ρ θ t : solves c σ ρ → ordinary c → answer θ c → plain t = true → hom θ id (hom σ ρ t) = hom θ id t.
Proof.
  intros Hs Ho Ha Hp. rewrite hom_compose. apply hom_ext; [done|by intros v _; eapply answer_sol|].
  intros r. apply (so_rep _ _ _ Hs). by rewrite (or_alias _ Ho).
Qed.
Lemma sol_tame c σ ρ v : solves c σ ρ → ordinary c → tame (σ v) = true.
Proof.
  intros Hs Ho. induction v as [v Hu|v t Ht IH] using (var_ind c σ ρ Hs); [by rewrite (so_free _ _ _ Hs)|].
  rewrite (so_bound _ _ _ Hs v t Ht). set (σ' := λ w, if occurs_in w t then σ w else Var w).
  rewrite (hom_ext σ ρ σ' ρ); [|by apply (so_plain _ _ _ Hs v)|by intros w Hw; unfold σ'; rewrite Hw|done].
  apply tame_hom; [|by apply (or_tame _ Ho v)]. intros w. unfold σ'. destruct (occurs_in w t) eqn:E; [by apply IH|done].
Qed.

(** What is shown of the resolved types holds of the types. *)
Lemma unified_resolved c σ ρ t u out c' σ' ρ' : solves c σ ρ → plain t = true → plain u = true →
  unified c σ ρ [hom σ ρ t] [hom σ ρ u] out c' σ' ρ' → unified c σ ρ [t] [u] out c' σ' ρ'.
Proof.
  intros Hs Ht Hu H. pose proof (un_extends _ _ _ _ _ _ _ _ _ H) as He.
  pose proof (nevers_hom σ ρ t (λ v, sol_nevers c σ ρ v Hs)). pose proof (nevers_hom σ ρ u (λ v, sol_nevers c σ ρ v Hs)).
  split; [done|..].
  - pose proof (un_count _ _ _ _ _ _ _ _ _ H). cbn in *. lia.
  - destruct (un_progress _ _ _ _ _ _ _ _ _ H); [left; cbn in *; lia|by right].
  - intros Hesc Hout. destruct (un_agree _ _ _ _ _ _ _ _ _ H Hesc Hout) as [? Ha]. split; [done|].
    cbn [map] in *. by rewrite !(ex_hom _ _ _ _ _ _ _ He) in Ha.
  - intros θ Ho Ha Tt Tu E. rewrite !Forall_singleton in *. apply (un_general _ _ _ _ _ _ _ _ _ H); rewrite ?Forall_singleton; try done.
    + apply tame_hom; [|done]. intros v. by apply (sol_tame c σ ρ).
    + apply tame_hom; [|done]. intros v. by apply (sol_tame c σ ρ).
    + cbn [map] in *. by rewrite !(answer_hom c).
Qed.

Lemma unified_app c σ ρ l1 k1 out1 c1 σ1 ρ1 l2 k2 out2 c2 σ2 ρ2 : solves c σ ρ → length l1 = length k1 →
  Forall (λ t, plain t = true) l1 → Forall (λ t, plain t = true) k1 →
  unified c σ ρ l1 k1 out1 c1 σ1 ρ1 → unified c1 σ1 ρ1 l2 k2 out2 c2 σ2 ρ2 →
  unified c σ ρ (l1 ++ l2) (k1 ++ k2) (out1 ++ out2) c2 σ2 ρ2.
Proof.
  intros Hs Hlen Hl Hk H1 H2. pose proof (un_extends _ _ _ _ _ _ _ _ _ H1) as He1. pose proof (un_extends _ _ _ _ _ _ _ _ _ H2) as He2.
  pose proof (un_count _ _ _ _ _ _ _ _ _ H1) as C1. pose proof (un_count _ _ _ _ _ _ _ _ _ H2) as C2.
  assert (∀ t, plain t = true → hom σ2 ρ2 (hom σ1 ρ1 t) = hom σ2 ρ2 t) as Hh by (intros t Ht; by apply (ex_hom _ _ _ _ _ _ _ He2)).
  split.
  - by eapply extends_trans.
  - rewrite !sum_list_with_app. lia.
  - rewrite !sum_list_with_app. destruct (un_progress _ _ _ _ _ _ _ _ _ H1) as [P1|P1]; [left; lia|].
    destruct (un_progress _ _ _ _ _ _ _ _ _ H2) as [P2|P2]; [left; lia|right]. intros t Ht. by rewrite P2, P1.
  - intros Hesc [-> ->]%app_nil. destruct (un_agree _ _ _ _ _ _ _ _ _ H1 Hesc eq_refl) as [Hesc1 A1].
    destruct (un_agree _ _ _ _ _ _ _ _ _ H2 Hesc1 eq_refl) as [Hesc2 A2]. split; [done|]. rewrite !map_app. apply Forall2_app; [|done].
    clear -A1 Hl Hk Hh. revert k1 A1 Hk. induction Hl as [|x l Hx _ IH]; intros [|y k] A Hk; inversion A; subst; cbn; constructor.
    + apply Forall_cons in Hk as [Hy _]. rewrite <-(Hh x), <-(Hh y) by done. by apply agree_hom.
    + apply Forall_cons in Hk as [_ Hk]. by apply IH.
  - intros θ Ho Ha [T1 T2]%Forall_app [S1 S2]%Forall_app E. rewrite !map_app in E. apply app_inj_1 in E as [E1 E2]; [|by rewrite !length_map].
    destruct (un_general _ _ _ _ _ _ _ _ _ H1 θ Ho Ha T1 S1 E1) as (-> & Ho1 & Ha1).
    destruct (un_general _ _ _ _ _ _ _ _ _ H2 θ Ho1 Ha1 T2 S2 E2) as (-> & ? & ?). done.
Qed.

(** The parts of two types of one shape. *)
Lemma unified_parts c σ ρ t u out c' σ' ρ' : is_leaf t = false → u = rebuild t (children u) → length (children u) = length (children t) →
  unified c σ ρ (children t) (children u) out c' σ' ρ' → unified c σ ρ [t] [u] out c' σ' ρ'.
Proof.
  intros Hl E Hlen H.
  assert (is_leaf u = false) as Hu by (rewrite E; by apply is_leaf_rebuild).
  assert (∀ τ r, hom τ r u = rebuild t (map (hom τ r) (children u))) as Hhu.
  { intros τ r. rewrite hom_rebuild by done. rewrite E at 1. rewrite rebuild_rebuild; by rewrite ?length_map. }
  assert (∀ x, (sum_list_with nevers (children x) ≤ nevers x)%nat) as Hn.
  { intros x. rewrite (nevers_eq x). destruct x; cbn; lia. }
  pose proof (Hn t). pose proof (Hn u). split.
  - apply H.
  - pose proof (un_count _ _ _ _ _ _ _ _ _ H). cbn. lia.
  - destruct (un_progress _ _ _ _ _ _ _ _ _ H); [left; cbn; lia|by right].
  - intros Hesc Hout. destruct (un_agree _ _ _ _ _ _ _ _ _ H Hesc Hout) as [? Ha]. split; [done|]. cbn [map]. apply Forall2_cons; split; [|by apply Forall2_nil_2].
    rewrite Hhu, hom_rebuild by done. apply agree_rebuild; [by rewrite length_map|done].
  - intros θ Ho Ha Tt Tu Eq. rewrite !Forall_singleton in *. apply all_nodes_parts in Tt as [_ Tt], Tu as [_ Tu].
    apply (un_general _ _ _ _ _ _ _ _ _ H); try done. cbn [map] in Eq. injection Eq as Eq. rewrite Hhu, hom_rebuild in Eq by done.
    apply (f_equal children) in Eq. by rewrite !rebuild_parts in Eq by (by rewrite length_map).
Qed.
End answers.

(** ** The arms *)
Section arms.
Context (tables : Tables).
Notation uni := (uni tables).
Notation unified := (unified tables).

Lemma uni_mono c σ ρ l k l' k' m : (∀ out c' σ' ρ', unified c σ ρ l k out c' σ' ρ' → unified c σ ρ l' k' out c' σ' ρ') →
  uni c σ ρ l k m → uni c σ ρ l' k' m.
Proof. intros H Hm. eapply ends_mono; [exact Hm|]. intros out c' (σ' & ρ' & Hu). eauto. Qed.

(** Nothing is to do. *)
Lemma unified_skip c σ ρ t u : solves c σ ρ → closed c σ ρ t → closed c σ ρ u → agree t u → unified c σ ρ [t] [u] [] c σ ρ.
Proof.
  intros Hs Ht Hu Ha. split; [by apply extends_refl|lia|by right| |done].
  intros Hesc _. split; [done|]. cbn [map]. apply Forall2_cons; split; [|by apply Forall2_nil_2].
  by rewrite (cl_fixed _ _ _ _ Ht), (cl_fixed _ _ _ _ Hu).
Qed.
Lemma uni_skip c σ ρ t u : solves c σ ρ → closed c σ ρ t → closed c σ ρ u → agree t u → uni c σ ρ [t] [u] (λ _, mret []).
Proof. intros. apply ends_ret. exists σ, ρ. by apply unified_skip. Qed.

(** The types cannot be made the same. *)
Definition never_same (t u : Type_) : Prop :=
  ∀ θ, (∀ v, all_nodes (answer_node tables) (θ v) = true) → tame t = true → tame u = true → hom θ id t ≠ hom θ id u.
Lemma unified_fault c σ ρ t u out : solves c σ ρ → never_same t u → out ≠ [] → unified c σ ρ [t] [u] out c σ ρ.
Proof.
  intros Hs Hne Hout. split; [by apply extends_refl|lia|by right|done|].
  intros θ _ Ha Tt Tu E. rewrite !Forall_singleton in *. cbn in E. injection E as E. by destruct (Hne θ (an_nodes _ _ _ Ha) Tt Tu).
Qed.
Lemma uni_fault c σ ρ t u m : solves c σ ρ → never_same t u → ends m c (λ out c', out ≠ [] ∧ c' = c) → uni c σ ρ [t] [u] m.
Proof. intros Hs Hne Hm. eapply ends_mono; [exact Hm|]. intros out c' [Hout ->]. exists σ, ρ. by apply unified_fault. Qed.

Lemma ends_apply c σ ρ t (Q : Type_ → Checker → Prop) : solves c σ ρ → plain t = true → Q (hom σ ρ t) c →
  ends (λ n, reads (λ c, apply n c t)) c Q.
Proof. intros Hs Hp HQ. eapply (ends_reads (λ n c, apply n c t)); [by apply eventually_apply|done]. Qed.

Lemma ends_mismatch c σ ρ t u (Q : Fault → Checker → Prop) : solves c σ ρ → plain t = true → plain u = true →
  (∀ f, Q f c) → ends (λ n, type_mismatch tables n t u) c Q.
Proof.
  intros Hs Ht Hu HQ. unfold type_mismatch, held.
  assert (∀ x, plain x = true → plain (hom σ ρ x) = true) as Hhom by (intros x; apply plain_hom; intros v; by apply (sol_plain c σ ρ)).
  apply ends_bind, ends_bind. eapply ends_apply; [done|exact Ht|]. apply ends_ret.
  apply ends_bind, ends_bind. eapply ends_apply; [done|exact Hu|]. apply ends_ret.
  apply ends_bind. assert (∀ x g, plain x = true → held_in tables x = Some g → plain g = true) as Hheld.
  { intros x g Hx Hg. destruct x; try discriminate Hg. cbn in Hg. destruct (is_builtin _ _ _); [|discriminate Hg].
    destruct args as [|y args]; [discriminate Hg|]. injection Hg as <-. eapply plain_parts; [exact Hx|]. by left. }
  unfold mismatch_message.
  destruct (held_in tables (hom σ ρ t)) as [g|] eqn:Eg, (held_in tables (hom σ ρ u)) as [g'|]; try (by apply ends_ret, ends_ret, HQ).
  apply ends_bind. eapply ends_apply; [done|by eapply Hheld; [apply Hhom, Ht|]|]. by apply ends_ret, ends_ret, HQ.
Qed.
Lemma uni_mismatch c σ ρ t u : solves c σ ρ → closed c σ ρ t → closed c σ ρ u → never_same t u →
  uni c σ ρ [t] [u] (λ n, fault ← type_mismatch tables n t u; mret [fault]).
Proof. intros Hs Ht Hu Hn. apply uni_fault; [done..|]. apply ends_bind. eapply ends_mismatch; [done|apply Ht|apply Hu|]. intros f. by apply ends_ret. Qed.

(** One after the other. *)
Lemma uni_app c σ ρ l1 k1 l2 k2 (m1 m2 : nat → M (list Fault)) : solves c σ ρ → length l1 = length k1 →
  Forall (λ t, plain t = true) l1 → Forall (λ t, plain t = true) k1 →
  uni c σ ρ l1 k1 m1 →
  (∀ out1 c1 σ1 ρ1, unified c σ ρ l1 k1 out1 c1 σ1 ρ1 → uni c1 σ1 ρ1 l2 k2 m2) →
  uni c σ ρ (l1 ++ l2) (k1 ++ k2) (λ n, fs ← m1 n; more ← m2 n; mret (fs ++ more)).
Proof.
  intros Hs Hlen Hl Hk H1 H2. apply ends_bind. eapply ends_mono; [exact H1|]. intros out1 c1 (σ1 & ρ1 & U1).
  apply ends_bind. eapply ends_mono; [exact (H2 _ _ _ _ U1)|]. intros out2 c2 (σ2 & ρ2 & U2).
  apply ends_ret. exists σ2, ρ2. by eapply unified_app.
Qed.

Lemma unified_sym c σ ρ l k out c' σ' ρ' : unified c σ ρ l k out c' σ' ρ' → unified c σ ρ k l out c' σ' ρ'.
Proof.
  intros H. split.
  - apply H.
  - pose proof (un_count _ _ _ _ _ _ _ _ _ _ H). lia.
  - destruct (un_progress _ _ _ _ _ _ _ _ _ _ H); [left; lia|by right].
  - intros Hesc Hout. destruct (un_agree _ _ _ _ _ _ _ _ _ _ H Hesc Hout) as [? Ha]. split; [done|].
    apply Forall2_flip. eapply Forall2_impl; [exact Ha|]. intros ? ?. apply agree_sym.
  - intros θ Ho Ha Tt Tu E. by apply (un_general _ _ _ _ _ _ _ _ _ _ H).
Qed.
Lemma uni_sym c σ ρ l k m : uni c σ ρ l k m → uni c σ ρ k l m.
Proof. apply uni_mono. intros. by apply unified_sym. Qed.

Lemma tame_nevers t : tame t = true → nevers t = 0%nat.
Proof.
  tree_induction t. intros [Hn Hc]%all_nodes_parts. rewrite nevers_eq. rewrite Forall_forall in *.
  assert (sum_list_with nevers (children t) = 0%nat) as E by (apply sum_zero_2, Forall_forall; auto).
  by destruct t.
Qed.

Lemma filter_replicate_None k : length (filter (λ o : option Type_, o = None) (replicate k None)) = k.
Proof. induction k as [|k IH]; [done|]. cbn [replicate]. rewrite filter_cons_True by done. cbn [length]. by rewrite IH. Qed.
Lemma filter_insert_Some (sub : list (option Type_)) v t : sub !! v = Some None →
  length (filter (λ o, o = None) sub) = S (length (filter (λ o, o = None) (<[v := Some t]> sub))).
Proof.
  revert v. induction sub as [|o sub IH]; intros [|v] Hv; try done; cbn in Hv.
  - injection Hv as ->. change (<[0%nat:=Some t]> (None :: sub)) with (Some t :: sub). by rewrite filter_cons_True, filter_cons_False.
  - change (<[S v:=Some t]> (o :: sub)) with (o :: <[v:=Some t]> sub). rewrite !filter_cons. specialize (IH v Hv). destruct (decide (o = None)); cbn [length]; by rewrite IH.
Qed.

(** A variable that is bound to a type it does not occur in. *)
Lemma unified_bind c σ ρ v t t' s' : solves c σ ρ → unbound c v → (v < next (vars c))%nat → closed c σ ρ t → occurs_in v t = false →
  bound_to v t t' (vars c) s' → unified c σ ρ [Var v] [t] [] (with_vars (λ _, s') c) (then_single σ v t') ρ.
Proof.
  intros Hs Hfree Hv [Hp Hfix Hnext] Hocc Hb. pose proof (bind_solves c σ ρ v t t' s' Hs Hv Hfree Hp Hfix Hnext Hocc Hb) as Hs'.
  set (c' := with_vars (λ _, s') c) in *. set (σ' := then_single σ v t') in *.
  assert (∀ w, unbound c w → σ' w = single v t' w) as Hsingle.
  { intros w Hw. unfold σ', then_single. by rewrite (so_free _ _ _ Hs w Hw). }
  assert (open_count c' + 1 = open_count c + nevers t)%nat as Hcount.
  { unfold open_count. cbn. rewrite (bo_subst _ _ _ _ _ Hb). assert (slot c v = Some None) as Hsv.
    { destruct (lookup_lt_is_Some_2 (subst (vars c)) v) as [[x|] Hx]; [by rewrite (so_subst _ _ _ Hs)|by destruct (Hfree x)|done]. }
    pose proof (filter_insert_Some (subst (vars c) ++ replicate (nevers t) None) v t') as Hf.
    rewrite lookup_app_l in Hf by (by rewrite (so_subst _ _ _ Hs)). specialize (Hf Hsv).
    rewrite filter_app, length_app, filter_replicate_None in Hf. lia. }
  assert (hom σ' ρ t = t) as Hfix'.
  { rewrite <-Hfix at 2. apply hom_ext; [done| |done]. intros w Hw. pose proof (closed_unbound c σ ρ t Hs Hp Hfix w Hw) as Hu.
    rewrite Hsingle, (so_free _ _ _ Hs w Hu) by done. unfold single. destruct (w =? v)%nat eqn:E; [|done].
    apply Nat.eqb_eq in E as ->. congruence. }
  split; cbn [sum_list_with nevers map].
  - split.
    + done.
    + cbn. rewrite (bo_next _ _ _ _ _ Hb). lia.
    + intros w. transitivity (hom (single v t') ρ (σ w)).
      { apply hom_ext; [by apply (sol_plain c σ ρ)| |done]. intros u Hu. apply Hsingle. by eapply sol_unbound. }
      unfold σ', then_single. rewrite <-(sol_sol c σ ρ Hs w) at 2. rewrite !hom_compose.
      apply hom_ext; [by apply (sol_plain c σ ρ)| |done]. intros u Hu. assert (unbound c u) as Hun by (by eapply sol_unbound).
      rewrite (so_free _ _ _ Hs u Hun). done.
    + intros r. by apply (rep_rep c σ ρ).
    + intros w x Hx. apply (slot_bound c σ ρ v t t' s' Hs Hv Hb). right. split; [intros ->; by destruct (Hfree x)|done].
    + intros w Hw. by apply (lev_bound_le c σ ρ v t t' s' Hs Hv Hb).
    + apply Hb.
    + apply Hb.
    + apply Hb.
    + exists (if decide (v < base (vars c))%nat then [v] else []). split_and!; [apply Hb|case_decide; [by intros w ->%list_elem_of_singleton|by intros w Hw%not_elem_of_nil]|].
      intros w Hw Hu.
      destruct (decide (w = v)) as [->|Hne]; [right; rewrite decide_True by done; by left|].
      left. by apply (unbound_bound c σ ρ v t t' s' Hs Hv Hb).
  - lia.
  - left. lia.
  - intros Hesc _. split; [done|]. apply Forall2_cons; split; [|by apply Forall2_nil_2]. cbn [hom].
    rewrite Hfix', Hsingle by done. unfold single. rewrite Nat.eqb_refl. apply agree_sym. apply Hb.
  - intros θ Ho Ha _ Tt E. rewrite Forall_singleton in Tt. injection E as E. cbn in E.
    pose proof (tame_nevers _ Tt) as Hz. assert (t' = t) as -> by (by apply (wo_same _ _ _ _ (bo_without _ _ _ _ _ Hb))).
    split; [done|]. split.
    + split.
      * apply Ho.
      * apply Ho.
      * intros w x [[_ ->]|[_ Hx]]%(slot_bound c σ ρ v t t s' Hs Hv Hb); [done|by apply (or_tame _ Ho w)].
      * intros w Hw [Hne Hu]%(unbound_bound c σ ρ v t t s' Hs Hv Hb).
        rewrite (lev_bound c σ ρ v t t s') by done. cbn in Hw. rewrite (bo_next _ _ _ _ _ Hb), Hz, Nat.add_0_r in Hw.
        pose proof (or_inside _ Ho w Hw Hu). pose proof (or_inside _ Ho v Hv Hfree). rewrite decide_True by done. destruct (occurs_in w t); cbn; lia.
    + split; [apply Ha|]. intros w x [[-> ->]|[_ Hx]]%(slot_bound c σ ρ v t t s' Hs Hv Hb); [done|by apply (an_bound _ _ _ Ha)].
Qed.

(** A binding that would let an annotation variable out is refused. *)
Definition refused (v : nat) (c : Checker) : Checker :=
  mkChecker (vars c) (rigid_alias c) (group_rigid c) (bounds c) ({[v]} ∪ escaped_vars c).
Lemma solves_refused v c σ ρ : solves c σ ρ → solves (refused v c) σ ρ.
Proof. by intros []. Qed.
Lemma unified_refused c σ ρ v t out c' : solves c σ ρ → unbound c v → (v < next (vars c))%nat → lev c v = 0%nat →
  (out = [] ∧ v ∈ escaped_vars c ∧ c' = c) ∨ (out ≠ [] ∧ c' = refused v c) → unified c σ ρ [Var v] [t] out c' σ ρ.
Proof.
  intros Hs Hu Hv Hl H.
  assert (solves c' σ ρ ∧ vars c' = vars c) as [Hs' Hvars] by (destruct H as [(_ & _ & ->)|[_ ->]]; [done|split; [by apply solves_refused|done]]).
  split.
  - destruct (extends_refl _ _ _ Hs) as [? ? ? ? ? ? ? ? ? ?]. unfold lev, unbound in *. split; unfold lev, unbound; rewrite ?Hvars; done.
  - unfold open_count. rewrite Hvars. lia.
  - by right.
  - intros Hesc Hout. destruct H as [(_ & Hin & _)|[? _]]; [rewrite Hesc in Hin; set_solver|done].
  - intros θ Ho. pose proof (or_inside _ Ho v Hv Hu). lia.
Qed.

Lemma uni_bind c σ ρ v t : solves c σ ρ → unbound c v → (v < next (vars c))%nat → closed c σ ρ t → occurs_in v t = false →
  uni c σ ρ [Var v] [t] (λ n, bind_checked n v t).
Proof.
  intros Hs Hfree Hv Ht Hocc. unfold bind_checked.
  destruct (lookup_lt_is_Some_2 (levels (vars c)) v) as [L HL]; [by rewrite (so_levels _ _ _ Hs)|].
  assert (lev c v = L) as Hlev by (unfold lev; by rewrite HL).
  apply ends_bind. eapply (ends_const _ (L =? 0)%nat c); [unfold reads, is_outermost; by rewrite HL|].
  apply ends_bind.
  assert (∀ e, (∀ r, e = Some r → L = 0%nat) →
    ends (λ _, match e with
      | Some r => said ← reads (λ c, Some (bool_decide (v ∈ escaped_vars c)));
                  if said : bool then mret []
                  else _ ← does (λ c, mkChecker (vars c) (rigid_alias c) (group_rigid c) (bounds c) ({[v]} ∪ escaped_vars c));
                       mret [new_fault TypeMismatch (WouldEscape r)]
      | None => _ ← tries (bind v t); mret []
      end) c (λ out c', ∃ σ' ρ', unified c σ ρ [Var v] [t] out c' σ' ρ')) as H.
  { intros [r|] HL0.
    - specialize (HL0 r eq_refl). destruct (decide (v ∈ escaped_vars c)) as [Hin|Hin].
      + eapply (ends_const _ [] c); [unfold mbind, check_bind, reads; cbn; by rewrite bool_decide_true|].
        exists σ, ρ. apply unified_refused; try done; [congruence|]. by left.
      + eapply (ends_const _ [new_fault TypeMismatch (WouldEscape r)] c (refused v c)); [unfold mbind, check_bind, reads; cbn; by rewrite bool_decide_false|].
        exists σ, ρ. apply unified_refused; try done; [congruence|]. by right.
    - destruct (bind_bound v t (vars c)) as (t' & s' & Hbind & Hb).
      + apply Hs.
      + apply Hs.
      + done.
      + destruct (lookup_lt_is_Some_2 (subst (vars c)) v) as [[x|] Hx]; [by rewrite (so_subst _ _ _ Hs)|by destruct (Hfree x)|done].
      + apply Ht.
      + intros w Hw. pose proof (cl_next _ _ _ _ Ht w Hw) as Hlt. split; [done|].
        pose proof (closed_unbound c σ ρ t Hs (cl_plain _ _ _ _ Ht) (cl_fixed _ _ _ _ Ht) w Hw) as Hu.
        destruct (lookup_lt_is_Some_2 (subst (vars c)) w) as [[x|] Hx]; [by rewrite (so_subst _ _ _ Hs)|by destruct (Hu x)|done].
      + eapply (ends_const _ [] c (with_vars (λ _, s') c)); [unfold mbind, check_bind, tries; by rewrite Hbind|].
        exists (then_single σ v t'), ρ. by apply unified_bind. }
  destruct (L =? 0)%nat eqn:E.
  - apply ends_bind. eapply ends_apply; [done|apply Ht|]. apply ends_ret, H. intros _ _. by apply Nat.eqb_eq.
  - apply ends_ret, (H None). done.
Qed.

(** Two types from pairs of types that say the same of them. *)
Record stands_for (l k : list Type_) (t u : Type_) : Prop := {
  sf_agree τ r : Forall2 agree (map (hom τ r) l) (map (hom τ r) k) → agree (hom τ r t) (hom τ r u);
  sf_nevers : (sum_list_with nevers l + sum_list_with nevers k ≤ nevers t + nevers u)%nat;
  sf_tame_l : tame t = true → Forall (λ x, tame x = true) l;
  sf_tame_r : tame u = true → Forall (λ x, tame x = true) k;
  sf_same θ : (∀ v, all_nodes (answer_node tables) (θ v) = true) → tame t = true → tame u = true →
    hom θ id t = hom θ id u → map (hom θ id) l = map (hom θ id) k;
}.
Lemma unified_from c σ ρ l k t u out c' σ' ρ' : stands_for l k t u → unified c σ ρ l k out c' σ' ρ' → unified c σ ρ [t] [u] out c' σ' ρ'.
Proof.
  intros F H. pose proof (sf_nevers _ _ _ _ F). pose proof (un_count _ _ _ _ _ _ _ _ _ _ H). split.
  - apply H.
  - cbn. lia.
  - destruct (un_progress _ _ _ _ _ _ _ _ _ _ H); [left; cbn; lia|by right].
  - intros Hesc Hout. destruct (un_agree _ _ _ _ _ _ _ _ _ _ H Hesc Hout) as [? Ha]. split; [done|]. cbn [map].
    apply Forall2_cons; split; [|by apply Forall2_nil_2]. by apply (sf_agree _ _ _ _ F).
  - intros θ Ho Ha Tt Tu E. rewrite !Forall_singleton in *. cbn [map] in E. injection E as E.
    apply (un_general _ _ _ _ _ _ _ _ _ _ H); [done..|by apply F|by apply F|]. apply (sf_same _ _ _ _ F θ); [apply Ha|done..].
Qed.
(** The first of them already fail: the fault is of the two. *)
Lemma unified_stop c σ ρ l k l' k' t u out out' c' σ' ρ' : stands_for (l ++ l') (k ++ k') t u → length l = length k →
  unified c σ ρ l k out c' σ' ρ' → out ≠ [] → out' ≠ [] → unified c σ ρ [t] [u] out' c' σ' ρ'.
Proof.
  intros F Hlen H Hout Hout'. pose proof (sf_nevers _ _ _ _ F). pose proof (un_count _ _ _ _ _ _ _ _ _ _ H).
  rewrite !sum_list_with_app in *. split.
  - apply H.
  - cbn. lia.
  - destruct (un_progress _ _ _ _ _ _ _ _ _ _ H); [left; cbn; lia|by right].
  - done.
  - intros θ Ho Ha Tt Tu E. rewrite !Forall_singleton in *. cbn [map] in E. injection E as E.
    pose proof (sf_same _ _ _ _ F θ (an_nodes _ _ _ Ha) Tt Tu E) as Em. rewrite !map_app in Em. apply app_inj_1 in Em as [Em _]; [|by rewrite !length_map].
    apply (sf_tame_l _ _ _ _ F) in Tt. apply (sf_tame_r _ _ _ _ F) in Tu. apply Forall_app in Tt as [Tt _], Tu as [Tu _].
    destruct (un_general _ _ _ _ _ _ _ _ _ _ H θ Ho Ha Tt Tu Em) as [? _]. done.
Qed.

Lemma tame_kinded h rest : tame (Con h rest) = true → kinded_node (Con h rest) = true.
Proof. intros [H _]%all_nodes_parts. unfold tame_node in H. by apply andb_true_iff in H as [_ ?]. Qed.
Lemma applied_inj h1 a1 h2 a2 : tame h1 = true → tame h2 = true → applied h1 a1 = applied h2 a2 → h1 = h2 ∧ a1 = a2.
Proof.
  intros T1 T2. destruct (applied_cases h1 a1) as [(c1 & r1 & ->)|[_ ->]], (applied_cases h2 a2) as [(c2 & r2 & ->)|[_ ->]]; cbn [applied].
  - apply tame_kinded in T1, T2. destruct c1, c2; cbn in *; try done; intros E; injection E; intros; subst; try done;
      destruct r1 as [|x [|]], r2 as [|y [|]]; try done; by simplify_eq/=.
  - by destruct c1.
  - by destruct c2.
  - by intros [= -> ->].
Qed.

Lemma answer_tame (θ : nat → Type_) : (∀ v, all_nodes (answer_node tables) (θ v) = true) → ∀ v, tame (θ v) = true.
Proof.
  intros H v. eapply all_nodes_mono; [|apply H]. intros u Hu. unfold answer_node in Hu.
  apply andb_true_iff in Hu as [Hu _]. by apply andb_true_iff in Hu as [_ ?].
Qed.
Lemma stands_app a b x y : stands_for ([a] ++ [b]) ([x] ++ [y]) (App a b) (App x y).
Proof.
  split; cbn [app map].
  - intros τ r. rewrite !Forall2_cons. intros (Ha & Hb & _). by apply agree_applied.
  - cbn. lia.
  - intros [? ?]%all_nodes_app. by repeat constructor.
  - intros [? ?]%all_nodes_app. by repeat constructor.
  - intros θ Hθ [Ta Tb]%all_nodes_app [Tx Ty]%all_nodes_app E. cbn [hom] in E.
    apply applied_inj in E as [-> ->]; [done|..]; by apply tame_hom; [by apply answer_tame|].
Qed.
Lemma split_head_apply t con rest first : split_constructor (builtin_type_id tables) t = Some (con, rest, first) →
  t = head_apply con rest first ∧ kinded_node (Con con rest) = true ∧ is_leaf t = false ∧ t ≠ Never.
Proof.
  destruct t as [| | | | | | | | | |n l| | | | | | | | |]; cbn [split_constructor]; try done; [by intros [= <- <- <-]| |by intros [= <- <- <-]..].
  destruct l as [|x l]; [done|]. case_match; [done|]. by intros [= <- <- <-].
Qed.
Lemma stands_split head arg other con rest first : split_constructor (builtin_type_id tables) other = Some (con, rest, first) →
  stands_for ([head] ++ [arg]) ([Con con rest] ++ [first]) (App head arg) other.
Proof.
  intros (-> & Hk & _ & _)%split_head_apply. split; cbn [app map].
  - intros τ r. rewrite !Forall2_cons. intros (Ha & Hb & _). rewrite hom_head_apply. by apply (agree_applied _ (Con con (map (hom τ r) rest))).
  - cbn. destruct con, rest as [|x [|]]; try discriminate Hk; cbn; lia.
  - intros [? ?]%all_nodes_app. by repeat constructor.
  - intros T. assert (Forall (λ x, tame x = true) rest ∧ tame first = true) as [Tr Tf].
    { apply all_nodes_parts in T as [_ T]. destruct con, rest as [|x [|]]; try discriminate Hk; cbn in T; rewrite !Forall_cons in T; naive_solver. }
    repeat constructor; [|done]. apply all_nodes_parts. split; [|done]. unfold tame_node. by rewrite Hk.
  - intros θ Hθ [Ta Tb]%all_nodes_app T E. cbn [hom] in E. rewrite hom_head_apply in E.
    apply (applied_inj _ _ (Con con (map (hom θ id) rest))) in E as [-> ->]; [done|by apply tame_hom; [by apply answer_tame|]|].
    assert (Forall (λ x, tame x = true) rest) as Tr.
    { apply all_nodes_parts in T as [_ T]. destruct con, rest as [|x [|]]; try discriminate Hk; cbn in T; rewrite !Forall_cons in T; naive_solver. }
    apply (tame_hom θ id (Con con rest)); [by apply answer_tame|]. apply all_nodes_parts. split; [|done]. unfold tame_node. by rewrite Hk.
Qed.

End arms.
