(* ===== verification/UnifyArms.v ===== *)
(** * The arms of the unifier (src/typechecker/unify.rs)

    Each arm of [unify_heads] does what [unified] says, given that the
    unifier does so for types of less weight. *)

From S2P Require Import Prelude Types TypesFacts Unify UnifyFacts UnifySpec.

(** ** Records by the names of their fields *)
Lemma bt_get_in {A} k (m : list (Symbol * A)) x : bt_get k m = Some x → (k, x) ∈ m.
Proof.
  unfold bt_get. destruct (List.find _ m) as [[j y]|] eqn:E; [|done]. intros [= <-]. apply find_some in E as [Hin E].
  apply N.eqb_eq in E as <-. by apply list_elem_of_In.
Qed.
Lemma bt_has_get {A} k (m : list (Symbol * A)) : bt_has k m = match bt_get k m with Some _ => true | None => false end.
Proof.
  unfold bt_has, bt_get. induction m as [|[j y] m IH]; [done|]. cbn. by destruct (j =? k)%N.
Qed.
Lemma bt_has_elem {A} k (m : list (Symbol * A)) : bt_has k m = true ↔ k ∈ m.*1.
Proof.
  unfold bt_has. rewrite existsb_Exists_true. split.
  - intros ([j x] & Hin & <-%N.eqb_eq). by apply (list_elem_of_fmap_2 fst) in Hin.
  - intros ([j x] & -> & Hin)%list_elem_of_fmap. exists (j, x). by rewrite N.eqb_refl.
Qed.
Lemma bt_get_first {A} k x (m : list (Symbol * A)) : NoDup m.*1 → (k, x) ∈ m → bt_get k m = Some x.
Proof.
  unfold bt_get. induction m as [|[j y] m IH]; cbn; [set_solver|]. intros [Hj Hm]%NoDup_cons [[= -> ->]|Hin]%elem_of_cons; [by rewrite N.eqb_refl|].
  destruct (j =? k)%N eqn:E; [|by apply IH]. apply N.eqb_eq in E as ->. by apply (list_elem_of_fmap_2 fst) in Hin.
Qed.

Lemma ascending_sorted l : ascending l = true → StronglySorted N.lt l.
Proof.
  intros H. apply Sorted_StronglySorted; [intros ? ? ?; apply N.lt_trans|]. induction l as [|k l IH]; [constructor|].
  destruct l as [|j l]; [by repeat constructor|]. cbn in H. apply andb_true_iff in H as [Hk H]. constructor; [by apply IH|].
  constructor. by apply N.ltb_lt.
Qed.
Lemma ascending_nodup l : ascending l = true → NoDup l.
Proof.
  intros H%ascending_sorted. induction H as [|k l _ IH Hk]; constructor; [|done]. intros Hin. rewrite Forall_forall in Hk.
  specialize (Hk k Hin). lia.
Qed.
Lemma ascending_same l k : ascending l = true → ascending k = true → (∀ x, x ∈ l ↔ x ∈ k) → l = k.
Proof.
  intros Hl Hk H. apply (StronglySorted_unique_strong N.lt); [intros; lia|by apply ascending_sorted..|].
  apply NoDup_Permutation; [by apply ascending_nodup..|done].
Qed.

Definition common_left (f1 f2 : list (Symbol * Type_)) : list Type_ := omap (λ p, if bt_has p.1 f2 then Some p.2 else None) f1.
Definition common_right (f1 f2 : list (Symbol * Type_)) : list Type_ := omap (λ p, bt_get p.1 f2) f1.

Lemma common_length f1 f2 : length (common_left f1 f2) = length (common_right f1 f2).
Proof.
  unfold common_left, common_right. induction f1 as [|[k x] f1 IH]; [done|]. cbn. rewrite bt_has_get.
  destruct (bt_get k f2); cbn; by rewrite IH.
Qed.
Lemma common_left_in f1 f2 x : x ∈ common_left f1 f2 → x ∈ f1.*2.
Proof.
  intros ([k y] & Hin & H)%list_elem_of_omap. destruct (bt_has _ f2); [|done]. injection H as <-. by apply (list_elem_of_fmap_2 snd) in Hin.
Qed.
Lemma common_right_in f1 f2 x : x ∈ common_right f1 f2 → x ∈ f2.*2.
Proof. intros ([k y] & _ & H%bt_get_in)%list_elem_of_omap. by apply (list_elem_of_fmap_2 snd) in H. Qed.

Lemma common_left_sum (g : Type_ → nat) f1 f2 : (sum_list_with g (common_left f1 f2) ≤ sum_list_with g f1.*2)%nat.
Proof.
  unfold common_left. induction f1 as [|[k x] f1 IH]; cbn; [lia|]. destruct (bt_has k f2); cbn; lia.
Qed.
Lemma common_right_sum (g : Type_ → nat) f1 : ∀ f2, NoDup f1.*1 → (sum_list_with g (common_right f1 f2) ≤ sum_list_with g f2.*2)%nat.
Proof.
  unfold common_right. induction f1 as [|[k x] f1 IH]; intros f2 Hd; cbn; [lia|]. cbn in Hd. apply NoDup_cons in Hd as [Hk Hd].
  destruct (bt_get k f2) as [b|] eqn:E; cbn; [|by apply IH]. pose proof (bt_get_in _ _ _ E) as (A & B & ->)%list_elem_of_split.
  rewrite fmap_app, sum_list_with_app. cbn. specialize (IH (A ++ B) Hd). rewrite fmap_app, sum_list_with_app in IH.
  assert (omap (λ p, bt_get p.1 (A ++ (k, b) :: B)) f1 = omap (λ p, bt_get p.1 (A ++ B)) f1) as ->; [|lia].
  apply list_omap_ext, Forall_Forall2_diag, Forall_forall. intros [j y] Hj. cbn. assert (k ≠ j) as Hne.
  { intros ->. by apply (list_elem_of_fmap_2 fst) in Hj. }
  unfold bt_get. clear -Hne. induction A as [|[i z] A IHA]; cbn; [by rewrite (proj2 (N.eqb_neq k j))|]. by destruct (i =? j)%N.
Qed.

Lemma common_same f1 f2 : f1.*1 = f2.*1 → NoDup f1.*1 → common_left f1 f2 = f1.*2 ∧ common_right f1 f2 = f2.*2.
Proof.
  intros E Hd. split.
  - assert (∀ x, x ∈ f1.*1 → bt_has x f2 = true) as H by (intros x; by rewrite bt_has_elem, E). clear E Hd. unfold common_left.
    induction f1 as [|[k x] f1 IH]; cbn in *; [done|]. rewrite H by (by left). rewrite IH; [done|]. intros y Hy. apply H. by right.
  - assert (common_right f1 f2 = omap (λ k, bt_get k f2) f1.*1) as ->.
    { unfold common_right. clear. induction f1 as [|[k x] f1 IH]; cbn; [done|]. by rewrite IH. }
    assert (∀ (g : Symbol → option Type_) m, (∀ p, p ∈ m → g p.1 = Some p.2) → omap g m.*1 = m.*2) as H.
    { clear. intros g m H. induction m as [|[k x] m IH]; cbn; [done|]. pose proof (H (k, x) ltac:(by left)) as E. cbn in E. rewrite E, IH; [done|].
      intros p Hp. apply H. by right. }
    rewrite E in *. apply H. intros [k x]. by apply bt_get_first.
Qed.
Lemma only_in_nil f1 f2 : only_in f1 f2 = [] ↔ ∀ k, k ∈ f1.*1 → k ∈ f2.*1.
Proof.
  unfold only_in. induction f1 as [|[k x] f1 IH]; cbn; [set_solver|]. destruct (bt_has k f2) eqn:E; cbn.
  - apply bt_has_elem in E. rewrite IH. set_solver.
  - split; [done|]. intros H. specialize (H k ltac:(set_solver)). apply bt_has_elem in H. congruence.
Qed.

Section arms.
Context (tables : Tables).
Notation uni := (uni tables).
Notation unified := (unified tables).
Notation stands_for := (stands_for tables).
Notation never_same := (never_same tables).

(** ** Annotation variables *)
Definition joined (r1 r2 r : nat) : nat := if (r =? r2)%nat then r1 else r.

Section joined.
Context (c c' : Checker) (σ : nat → Type_) (ρ : nat → nat) (r1 r2 : nat).
Hypothesis (Hs : solves c σ ρ) (H1 : ρ r1 = r1) (H2 : ρ r2 = r2) (Hne : r1 ≠ r2).
Hypothesis (Hvars : vars c' = vars c) (Halias : rigid_alias c' = <[r2 := r1]> (rigid_alias c)).
Let σ' v := hom Var (joined r1 r2) (σ v).
Let ρ' r := joined r1 r2 (ρ r).

Lemma joined_same : joined r1 r2 r2 = r1 ∧ joined r1 r2 r1 = r1.
Proof using Hne. unfold joined. by rewrite Nat.eqb_refl, (proj2 (Nat.eqb_neq r1 r2)). Qed.
Lemma hom_joined t : hom σ' ρ' t = hom Var (joined r1 r2) (hom σ ρ t).
Proof using All. by rewrite hom_compose. Qed.
Lemma alias_free r : ρ r = r → rigid_alias c !! r = None.
Proof using Hs. intros E. rewrite <-E. by apply (rep_rep c σ ρ Hs). Qed.

Lemma solves_joined : solves c' σ' ρ'.
Proof using All.
  destruct joined_same as [J2 J1]. pose proof Hs as [? ? Hb Hf Ha Hr ? ? ? ? [rk Hrk] Hlow]. unfold unbound, lev in *.
  split; unfold unbound, lev; rewrite ?Hvars; try done.
  - intros v t Ht. unfold σ'. by rewrite (Hb v t Ht), <-hom_joined.
  - intros v Hv. unfold σ'. by rewrite Hf.
  - intros r q. rewrite Halias. unfold ρ'. destruct (decide (r = r2)) as [->|Hn].
    + rewrite lookup_insert_eq. intros [= <-]. by rewrite H1, H2, J1, J2.
    + rewrite lookup_insert_ne by done. intros E. by rewrite (Ha r q).
  - intros r. rewrite Halias. unfold ρ'. destruct (decide (r = r2)) as [->|Hn]; [by rewrite lookup_insert_eq|].
    rewrite lookup_insert_ne by done. intros E. rewrite Hr by done. unfold joined. by rewrite (proj2 (Nat.eqb_neq r r2)).
  - exists (λ r, match rigid_alias c !! r with Some _ => rk r + 2 | None => if (r =? r2)%nat then 1 else 0 end)%nat.
    intros r q. rewrite Halias. destruct (decide (r = r2)) as [->|Hn].
    + rewrite lookup_insert_eq. intros [= <-]. rewrite !alias_free, Nat.eqb_refl by done. rewrite (proj2 (Nat.eqb_neq r1 r2)) by done. lia.
    + rewrite lookup_insert_ne by done. intros E. rewrite E. specialize (Hrk r q E). destruct (rigid_alias c !! q); [lia|]. destruct (q =? r2)%nat; lia.
  - intros v w Hv Ho. apply Hlow; [done|]. unfold σ' in Ho. apply occurs_hom in Ho as (u & Hu & Ho); [|by apply (sol_plain c σ ρ)|done].
    cbn in Ho. by apply Nat.eqb_eq in Ho as ->.
Qed.

Lemma unified_joined : (ordinary c → False) → escaped_vars c' = escaped_vars c →
  unified c σ ρ [Rigid r1] [Rigid r2] [] c' σ' ρ'.
Proof using All.
  intros Hord Hesc. destruct joined_same as [J2 J1]. split.
  - destruct (extends_refl _ _ _ Hs) as [_ ? ? ? ? ? ? ? ? ?]. unfold unbound, lev in *. split; unfold unbound, lev; rewrite ?Hvars; try done.
    + apply solves_joined.
    + intros v. rewrite hom_joined. by rewrite (sol_sol c σ ρ Hs).
    + intros r. unfold ρ'. f_equal. by apply (rep_rep c σ ρ).
  - unfold open_count. rewrite Hvars. cbn. lia.
  - right. intros t Ht. rewrite hom_joined. apply size_rename, normal_hom. intros v. by apply (sol_normal c σ ρ).
  - intros E _. split; [congruence|]. cbn [map hom]. unfold ρ'. rewrite H1, H2, J1, J2. apply Forall2_cons; split; [apply agree_refl|by apply Forall2_nil_2].
  - intros θ Ho. by destruct (Hord Ho).
Qed.
End joined.

Lemma uni_rigid c σ ρ r1 r2 n' : solves c σ ρ → closed c σ ρ (Rigid r1) → closed c σ ρ (Rigid r2) →
  uni c σ ρ [Rigid r1] [Rigid r2] (λ n, unify_heads tables n (n' n) (Rigid r1) (Rigid r2)).
Proof.
  intros Hs C1 C2. cbn [unify_heads]. destruct (r1 =? r2)%nat eqn:E.
  { apply Nat.eqb_eq in E as ->. apply ends_bind, ends_ret. by apply uni_skip; [..|apply agree_refl]. }
  apply Nat.eqb_neq in E. pose proof (cl_fixed _ _ _ _ C1) as [= E1]. pose proof (cl_fixed _ _ _ _ C2) as [= E2].
  assert (uni c σ ρ [Rigid r1] [Rigid r2] (λ n, unify_apart tables n (Rigid r1) (Rigid r2))) as Happart.
  { apply uni_mismatch; [done..|]. by intros θ _ _ _ [= Eq]. }
  apply ends_bind. destruct (same_in_group r1 r2 c) as [[[|] c']|] eqn:Eg.
  - eapply ends_const; [exact Eg|]. apply ends_ret. unfold same_in_group in Eg.
    destruct (group_rigid c !! r1) as [o1|] eqn:G1; [|done]. destruct (group_rigid c !! r2) as [o2|]; [|done].
    destruct (existsb _ _); [done|]. injection Eg as <-. eexists _, _. apply unified_joined; try done.
    intros Ho. rewrite (or_group _ Ho) in G1. done.
  - eapply ends_const; [exact Eg|]. unfold same_in_group in Eg.
    destruct (group_rigid c !! r1) as [o1|]; [destruct (group_rigid c !! r2) as [o2|]; [destruct (existsb _ _)|]|]; try discriminate Eg; by injection Eg as <-.
  - unfold same_in_group in Eg. by repeat case_match.
Qed.

(** ** Induction on what is open and on size *)
Definition weight (c : Checker) (l k : list Type_) : nat := open_count c + sum_list_with nevers l + sum_list_with nevers k.
Definition sizes (σ : nat → Type_) (ρ : nat → nat) (l k : list Type_) : nat :=
  sum_list_with size (map (hom σ ρ) l) + sum_list_with size (map (hom σ ρ) k).
Definition fits (N S : nat) (c : Checker) (σ : nat → Type_) (ρ : nat → nat) (l k : list Type_) : Prop :=
  (weight c l k < N ∨ weight c l k ≤ N ∧ sizes σ ρ l k < S)%nat.
Record ready (c : Checker) (t : Type_) : Prop := {
  rd_plain : plain t = true;
  rd_next v : occurs_in v t = true → (v < next (vars c))%nat;
}.

Lemma ready_extends c σ ρ c' σ' ρ' t : extends c σ ρ c' σ' ρ' → ready c t → ready c' t.
Proof. intros H [Hp Hn]. split; [done|]. intros v Hv. pose proof (ex_next _ _ _ _ _ _ H). specialize (Hn v Hv). lia. Qed.
Lemma ready_part c t u : ready c t → u ∈ children t → ready c u.
Proof.
  intros [Hp Hn] Hu. split; [by apply (plain_parts t)|]. intros v Hv. apply Hn, occurs_parts; eauto.
Qed.
Lemma ready_plain c l : Forall (ready c) l → Forall (λ t, plain t = true) l.
Proof. intros H. eapply Forall_impl; [exact H|]. by intros t []. Qed.
Lemma closed_ready c σ ρ t : closed c σ ρ t → ready c t.
Proof. by intros []. Qed.
Lemma ready_closed c σ ρ t : solves c σ ρ → ready c t → closed c σ ρ (hom σ ρ t).
Proof.
  intros Hs [Hp Hn]. split.
  - apply plain_hom; [|done]. intros v. by apply (sol_plain c σ ρ).
  - by apply (hom_sol c σ ρ).
  - intros v Hv. apply occurs_hom in Hv as (w & Hw & Hv); [|done|intros u; by apply (sol_plain c σ ρ)].
    by apply (sol_next c σ ρ Hs w); [apply Hn|].
Qed.

Lemma fits_rest N S c σ ρ l1 k1 out c1 σ1 ρ1 l2 k2 : unified c σ ρ l1 k1 out c1 σ1 ρ1 → fits N S c σ ρ (l1 ++ l2) (k1 ++ k2) →
  Forall (λ t, plain t = true) l2 → Forall (λ t, plain t = true) k2 → fits N S c1 σ1 ρ1 l2 k2.
Proof.
  intros H. unfold fits, weight, sizes. rewrite !map_app, !sum_list_with_app. intros Hf Hl Hk.
  pose proof (un_count _ _ _ _ _ _ _ _ _ _ H). destruct (un_progress _ _ _ _ _ _ _ _ _ _ H) as [|Hsz]; [lia|].
  assert (∀ l, Forall (λ t, plain t = true) l → sum_list_with size (map (hom σ1 ρ1) l) = sum_list_with size (map (hom σ ρ) l)) as E.
  { induction 1 as [|x l Hx _ IHl]; cbn; [done|]. by rewrite IHl, Hsz. }
  rewrite (E l2), (E k2) by done. lia.
Qed.
Lemma fits_part N S c σ ρ l l1 l2 k k1 k2 : l = l1 ++ l2 → k = k1 ++ k2 → fits N S c σ ρ l k → fits N S c σ ρ l1 k1.
Proof. intros -> ->. unfold fits, weight, sizes. rewrite !map_app, !sum_list_with_app. lia. Qed.

Section induction.
Context (N Z : nat).
Hypothesis IH : ∀ c σ ρ t u, solves c σ ρ → ready c t → ready c u → fits N Z c σ ρ [t] [u] →
  uni c σ ρ [t] [u] (λ n, unify_into tables n t u).

Lemma uni_each l : ∀ k c σ ρ, length l = length k → solves c σ ρ → Forall (ready c) l → Forall (ready c) k → fits N Z c σ ρ l k →
  uni c σ ρ l k (λ n, unify_each (unify_into tables n) l k).
Proof.
  induction l as [|x l IHl]; intros [|y k] c σ ρ Hlen Hs Hl Hk Hf; try done; cbn [unify_each].
  - apply ends_ret. exists σ, ρ. by apply unified_nil.
  - apply Forall_cons in Hl as [Hx Hl], Hk as [Hy Hk]. injection Hlen as Hlen.
    apply (uni_app tables c σ ρ [x] [y] l k (λ n, unify_into tables n x y)); try done.
    + apply Forall_singleton, Hx.
    + apply Forall_singleton, Hy.
    + apply IH; try done. by apply (fits_part N Z c σ ρ (x :: l) [x] l (y :: k) [y] k).
    + intros out1 c1 σ1 ρ1 U. pose proof (un_extends _ _ _ _ _ _ _ _ _ _ U) as He. apply IHl; [done|apply He|..].
      * eapply Forall_impl; [exact Hl|]. intros t. by apply (ready_extends c σ ρ c1 σ1 ρ1).
      * eapply Forall_impl; [exact Hk|]. intros t. by apply (ready_extends c σ ρ c1 σ1 ρ1).
      * apply (fits_rest N Z c σ ρ [x] [y] out1 c1 σ1 ρ1 l k U Hf); by eapply ready_plain.
Qed.

(** A pair of one shape. *)
Record pair_fits (c : Checker) (σ : nat → Type_) (ρ : nat → nat) (t u : Type_) : Prop := {
  pf_left : closed c σ ρ t;
  pf_right : closed c σ ρ u;
  pf_weight : (weight c [t] [u] ≤ N)%nat;
  pf_size : (size t + size u ≤ Z)%nat;
}.
Lemma closed_app c σ ρ a b : closed c σ ρ (App a b) → closed c σ ρ a ∧ closed c σ ρ b.
Proof.
  intros [Hp Hf Hn]. apply all_nodes_app in Hp as [? ?]. cbn [hom] in Hf.
  destruct (applied_cases (hom σ ρ a) (hom σ ρ b)) as [(h & rest & E)|[_ E]]; [rewrite E in Hf; by destruct h|].
  rewrite E in Hf. injection Hf as Ea Eb. split; split; try done; intros v Hv; apply Hn; cbn; rewrite Hv, ?orb_true_r; done.
Qed.
Lemma fixed_size σ ρ t : hom σ ρ t = t → match t with Var _ | Rigid _ => False | _ => True end →
  S (sum_list_with size (map (hom σ ρ) (children t))) = size t.
Proof.
  intros Hf Ht. destruct (is_leaf t) eqn:Hl.
  - destruct t; try done. cbn [hom] in Hf.
    destruct (applied_cases (hom σ ρ t1) (hom σ ρ t2)) as [(h & rest & E)|[_ E]]; [rewrite E in Hf; by destruct h|].
    rewrite E in Hf. injection Hf as Ea Eb. cbn. rewrite Ea, Eb. lia.
  - rewrite <-Hf at 2. rewrite hom_rebuild, (size_eq (rebuild _ _)), rebuild_parts by (by rewrite ?length_map). done.
Qed.
Lemma fits_children c σ ρ t u : pair_fits c σ ρ t u →
  match t with Var _ | Rigid _ => False | _ => True end → match u with Var _ | Rigid _ => False | _ => True end →
  fits N Z c σ ρ (children t) (children u).
Proof.
  intros [Ht Hu Hw Hsz] Ct Cu. right. pose proof (fixed_size σ ρ t (cl_fixed _ _ _ _ Ht) Ct). pose proof (fixed_size σ ρ u (cl_fixed _ _ _ _ Hu) Cu).
  unfold sizes, weight in *. split; [|lia]. cbn in Hw. rewrite (nevers_eq t), (nevers_eq u) in Hw.
  assert (∀ x, (sum_list_with nevers (children x) ≤ match x with Never => 1 | _ => sum_list_with nevers (children x) end)%nat) as Hle
    by (intros []; cbn; lia). pose proof (Hle t). pose proof (Hle u). lia.
Qed.
Lemma ready_children c σ ρ t : closed c σ ρ t → Forall (ready c) (children t).
Proof. intros H. apply Forall_forall. intros u Hu. eapply ready_part; [by eapply closed_ready|done]. Qed.

Lemma uni_parts c σ ρ t u m : pair_fits c σ ρ t u → is_leaf t = false → u = rebuild t (children u) → length (children u) = length (children t) →
  (fits N Z c σ ρ (children t) (children u) → uni c σ ρ (children t) (children u) m) → uni c σ ρ [t] [u] m.
Proof.
  intros Hf Hl E Hlen Hm. eapply uni_mono; [intros; by apply unified_parts|]. apply Hm, fits_children; [done|by destruct t|].
  rewrite E. destruct t; try done; by destruct (children u) as [|? [|? [|]]].
Qed.

(** The unifier's arms whose types have the same shape. *)
Lemma uni_list c σ ρ t u : solves c σ ρ → pair_fits c σ ρ t u → is_leaf t = false → u = rebuild t (children u) →
  length (children t) = length (children u) → uni c σ ρ [t] [u] (λ n, unify_each (unify_into tables n) (children t) (children u)).
Proof.
  intros Hs Hf Hl E Hlen. apply uni_parts; try done. intros Hc. apply uni_each; try done; eapply ready_children; [apply (pf_left _ _ _ _ _ Hf)|apply (pf_right _ _ _ _ _ Hf)].
Qed.
Lemma uni_one c σ ρ t u x y : solves c σ ρ → pair_fits c σ ρ t u → is_leaf t = false → u = rebuild t (children u) →
  children t = [x] → children u = [y] → uni c σ ρ [t] [u] (λ n, unify_into tables n x y).
Proof.
  intros Hs Hf Hl E Ex Ey. apply uni_parts; try done; [by rewrite Ex, Ey|]. rewrite Ex, Ey. intros Hc.
  apply IH; try done; [apply (ready_part c t)|apply (ready_part c u)];
    rewrite ?Ex, ?Ey; try (by left); eapply closed_ready; [apply (pf_left _ _ _ _ _ Hf)|apply (pf_right _ _ _ _ _ Hf)].
Qed.
Lemma uni_two c σ ρ t u l x k y (m1 : nat → M (list Fault)) : solves c σ ρ → pair_fits c σ ρ t u → is_leaf t = false → u = rebuild t (children u) →
  children t = l ++ [x] → children u = k ++ [y] → length l = length k →
  (fits N Z c σ ρ l k → uni c σ ρ l k m1) →
  uni c σ ρ [t] [u] (λ n, fs ← m1 n; more ← unify_into tables n x y; mret (fs ++ more)).
Proof.
  intros Hs Hf Hl E Ex Ey Hlen Hm.
  pose proof (ready_children _ _ _ _ (pf_left _ _ _ _ _ Hf)) as Ht. pose proof (ready_children _ _ _ _ (pf_right _ _ _ _ _ Hf)) as Hu.
  rewrite Ex in Ht. rewrite Ey in Hu. apply Forall_app in Ht as [Ht Hx], Hu as [Hu Hy]. rewrite Forall_singleton in Hx, Hy.
  apply uni_parts; try done; [rewrite Ex, Ey, !length_app; cbn; lia|]. rewrite Ex, Ey. intros Hc.
  apply uni_app; try done; [by eapply ready_plain|by eapply ready_plain|apply Hm; by apply (fits_part N Z c σ ρ (l ++ [x]) l [x] (k ++ [y]) k [y])|].
  intros out1 c1 σ1 ρ1 U. pose proof (un_extends _ _ _ _ _ _ _ _ _ _ U) as He. apply IH.
  - apply He.
  - by apply (ready_extends c σ ρ c1 σ1 ρ1).
  - by apply (ready_extends c σ ρ c1 σ1 ρ1).
  - apply (fits_rest N Z c σ ρ l k out1 c1 σ1 ρ1 [x] [y] U Hc); apply Forall_singleton; [apply Hx|apply Hy].
Qed.

Lemma ends_constructor_mismatch c σ ρ t u (Q : Fault → Checker → Prop) : solves c σ ρ → plain t = true → plain u = true →
  (∀ f, Q f c) → ends (λ n, constructor_mismatch tables n t u) c Q.
Proof. intros Hs Ht Hu HQ. apply ends_bind. eapply ends_mismatch; [done..|]. intros f. by apply ends_ret. Qed.

(** Faults in other words. *)
Lemma unified_other c σ ρ l k out out' c' σ' ρ' : out ≠ [] → out' ≠ [] →
  unified c σ ρ l k out c' σ' ρ' → unified c σ ρ l k out' c' σ' ρ'.
Proof.
  intros Ho Ho' H. split; try apply H; [done|]. intros θ Hor Ha Tl Tk E.
  by destruct (un_general _ _ _ _ _ _ _ _ _ _ H θ Hor Ha Tl Tk E).
Qed.

(** A constructor variable applied: the constructors, and then their first
    arguments. *)
Lemma uni_heads_then c σ ρ h1 a1 h2 a2 t u (m : nat → list Fault → M (list Fault)) :
  solves c σ ρ → stands_for ([h1] ++ [a1]) ([h2] ++ [a2]) t u → Forall (ready c) ([h1] ++ [a1]) → Forall (ready c) ([h2] ++ [a2]) →
  fits N Z c σ ρ ([h1] ++ [a1]) ([h2] ++ [a2]) →
  (∀ fs c1 σ1 ρ1, fs ≠ [] → solves c1 σ1 ρ1 → ends (λ n, m n fs) c1 (λ out c', out ≠ [] ∧ c' = c1)) →
  (∀ c1 σ1 ρ1, unified c σ ρ [h1] [h2] [] c1 σ1 ρ1 → uni c1 σ1 ρ1 [a1] [a2] (λ n, unify_into tables n a1 a2) →
    ends (λ n, m n []) c1 (λ out c', ∃ σ' ρ', unified c σ ρ [t] [u] out c' σ' ρ')) →
  uni c σ ρ [t] [u] (λ n, heads ← unify_into tables n h1 h2; m n heads).
Proof.
  intros Hs F Hl Hk Hf Hbad Hgood. apply Forall_app in Hl as [Hh1 Ha1], Hk as [Hh2 Ha2]. rewrite Forall_singleton in *.
  apply ends_bind. eapply ends_mono; [apply (IH c σ ρ h1 h2); try done; by apply (fits_part N Z c σ ρ ([h1] ++ [a1]) [h1] [a1] ([h2] ++ [a2]) [h2] [a2])|].
  intros heads c1 (σ1 & ρ1 & U). pose proof (un_extends _ _ _ _ _ _ _ _ _ _ U) as He. destruct heads as [|f fs].
  - apply (Hgood c1 σ1 ρ1 U), IH.
    + apply He.
    + by apply (ready_extends c σ ρ c1 σ1 ρ1).
    + by apply (ready_extends c σ ρ c1 σ1 ρ1).
    + apply (fits_rest N Z c σ ρ [h1] [h2] [] c1 σ1 ρ1 [a1] [a2] U Hf); apply Forall_singleton; [apply Ha1|apply Ha2].
  - eapply ends_mono; [apply (Hbad (f :: fs) c1 σ1 ρ1); [done|apply He]|]. intros out c' [Hout ->]. exists σ1, ρ1.
    by eapply unified_stop.
Qed.

Lemma heads_then_args c σ ρ h1 a1 h2 a2 t u c1 σ1 ρ1 out c2 σ2 ρ2 : solves c σ ρ → stands_for ([h1] ++ [a1]) ([h2] ++ [a2]) t u →
  ready c h1 → ready c h2 → unified c σ ρ [h1] [h2] [] c1 σ1 ρ1 → unified c1 σ1 ρ1 [a1] [a2] out c2 σ2 ρ2 →
  unified c σ ρ [t] [u] out c2 σ2 ρ2.
Proof.
  intros Hs F Hh1 Hh2 U1 U2. eapply unified_from; [exact F|]. apply (unified_app tables c σ ρ _ _ [] c1 σ1 ρ1 _ _ out); try done.
  - apply Forall_singleton, Hh1.
  - apply Forall_singleton, Hh2.
Qed.

Lemma uni_apps c σ ρ h1 a1 h2 a2 : solves c σ ρ → pair_fits c σ ρ (App h1 a1) (App h2 a2) →
  uni c σ ρ [App h1 a1] [App h2 a2] (λ n, unify_heads tables n (unify_into tables n) (App h1 a1) (App h2 a2)).
Proof.
  intros Hs Hf. pose proof (ready_children _ _ _ _ (pf_left _ _ _ _ _ Hf)) as Hl. pose proof (ready_children _ _ _ _ (pf_right _ _ _ _ _ Hf)) as Hk.
  apply (uni_heads_then c σ ρ h1 a1 h2 a2); try done; [apply stands_app|by apply (fits_children _ _ _ (App h1 a1) (App h2 a2))|..].
  - intros fs c1 σ1 ρ1 Hfs Hs1. destruct fs as [|f fs]; [done|]. apply ends_bind. eapply ends_constructor_mismatch; [done|apply Hf|apply Hf|].
    intros g. by apply ends_ret.
  - intros c1 σ1 ρ1 U H. eapply ends_mono; [exact H|]. intros out c2 (σ2 & ρ2 & U2). exists σ2, ρ2.
    cbn in Hl, Hk. rewrite !Forall_cons in Hl, Hk. eapply heads_then_args; try done; [apply stands_app|apply Hl|apply Hk].
Qed.
(** A constructor variable applied and another type. *)
Lemma size_head_apply h rest first : kinded_node (Con h rest) = true → size (head_apply h rest first) = (size (Con h rest) + size first)%nat.
Proof. destruct h, rest as [|x [|]]; try done; cbn; lia. Qed.
Lemma head_apply_children h rest first : kinded_node (Con h rest) = true → ∀ x, x ∈ first :: rest ↔ x ∈ children (head_apply h rest first).
Proof. destruct h, rest as [|y [|]]; try done; cbn; set_solver. Qed.
Lemma ready_head c h rest first : kinded_node (Con h rest) = true → ready c (head_apply h rest first) →
  Forall (ready c) ([Con h rest] ++ [first]).
Proof.
  intros Hk Hr. assert (∀ x, x ∈ first :: rest → ready c x) as H.
  { intros x Hx%(head_apply_children h) ; [|done]. by eapply ready_part. }
  repeat (apply Forall_cons; split); [| |by apply Forall_nil].
  - split.
    + apply all_nodes_parts. split; [done|]. apply Forall_forall. intros x Hx. apply H. by right.
    + intros v Hv. cbn in Hv. apply existsb_Exists_true in Hv as (x & Hx & Hv). apply (H x); [by right|done].
  - apply H. by left.
Qed.

Lemma uni_applied c σ ρ head arg other t1 t2 : solves c σ ρ → pair_fits c σ ρ (App head arg) other →
  (∀ a b, other ≠ App a b) → match other with Var _ | Error | Never => False | _ => True end → plain t1 = true → plain t2 = true →
  uni c σ ρ [App head arg] [other] (λ n, unify_applied tables n (unify_into tables n) t1 t2 head arg other).
Proof.
  intros Hs Hf Hna Hother Hp1 Hp2. unfold unify_applied.
  destruct (split_constructor (builtin_type_id tables) other) as [[[con rest] first]|] eqn:Esplit.
  - pose proof (stands_split tables head arg other con rest first Esplit) as F.
    apply split_head_apply in Esplit as (-> & Hk & _ & _). pose proof (pf_right _ _ _ _ _ Hf) as Hr. pose proof (pf_left _ _ _ _ _ Hf) as Hl.
    apply (uni_heads_then c σ ρ head arg (Con con rest) first); [done|done|by apply (ready_children c σ ρ (App head arg))|by apply ready_head; [|by eapply closed_ready]|..].
    + right. pose proof (pf_weight _ _ _ _ _ Hf) as Hw. pose proof (pf_size _ _ _ _ _ Hf) as Hz. pose proof (sf_nevers _ _ _ _ _ F).
      pose proof (fixed_size σ ρ (App head arg) (cl_fixed _ _ _ _ Hl) I) as Hsz. cbn [children map sum_list_with] in Hsz.
      pose proof (cl_fixed _ _ _ _ Hr) as Hfix. rewrite hom_head_apply in Hfix. apply (f_equal size) in Hfix.
      assert (kinded_node (Con con (map (hom σ ρ) rest)) = true) as Hk' by (destruct con; cbn in *; by rewrite ?length_map).
      rewrite size_head_apply in Hfix by done. unfold weight, sizes in *. cbn [app map sum_list_with] in *.
      change (hom σ ρ (Con con rest)) with (Con con (map (hom σ ρ) rest)). lia.
    + intros fs c1 σ1 ρ1 Hfs Hs1. destruct fs as [|f fs]; [done|]. apply ends_bind. eapply ends_constructor_mismatch; [done..|].
      intros g. by apply ends_ret.
    + intros c1 σ1 ρ1 U H. pose proof (ready_head c con rest first Hk (closed_ready _ _ _ _ Hr)) as Hrd. apply Forall_cons in Hrd as [Hrc Hrf].
      rewrite Forall_singleton in Hrf. pose proof (ready_children _ _ _ _ Hl) as Hrl. cbn in Hrl. rewrite !Forall_cons in Hrl. destruct Hrl as (Hrh & Hra & _).
      apply ends_bind. eapply ends_mono; [exact H|]. intros out c2 (σ2 & ρ2 & U2). destruct out as [|f out].
      * apply ends_ret. exists σ2, ρ2. by eapply heads_then_args.
      * pose proof (un_extends _ _ _ _ _ _ _ _ _ _ U2) as He. apply ends_bind.
        eapply ends_constructor_mismatch; [apply He|done..|]. intros g. apply ends_bind. eapply ends_apply; [apply He|apply Hrf|].
        apply ends_ret. exists σ2, ρ2. eapply unified_other; [| |by eapply heads_then_args]; done.
  - apply uni_fault; [done| |apply ends_bind; eapply ends_constructor_mismatch; [done..|]; intros g; by apply ends_ret].
    intros θ Hθ Ta Tb E. pose proof (cl_fixed _ _ _ _ (pf_left _ _ _ _ _ Hf)) as Hfix. cbn [hom] in E, Hfix.
    destruct (applied_cases (hom θ id head) arg) as [(h & rest & Eh)|[Hn Eh]].
    2: { assert (applied (hom θ id head) (hom θ id arg) = App (hom θ id head) (hom θ id arg)) as Ea by (by destruct (hom θ id head)).
         rewrite Ea in E. destruct other; try done. by destruct (Hna _ _ eq_refl). }
    rewrite Eh in E. cbn [applied] in E.
    assert (∀ r, h = Named r → is_builtin (builtin_type_id tables) TYPE_OF r = false) as Hbuiltin.
    { intros r ->. destruct head as [| | | | |v| | | | | | | | | | | | |a b|h l]; try done.
      - pose proof (Hθ v) as Hv. cbn in Eh. rewrite Eh in Hv. apply all_nodes_parts in Hv as [Hv _].
        unfold answer_node in Hv. apply andb_true_iff in Hv as [_ Hv]. by apply negb_true_iff in Hv.
      - exfalso. cbn [hom] in Eh. destruct (applied_cases (hom θ id a) (hom θ id b)) as [([] & ? & Ec)|[_ Ec]]; rewrite Ec in Eh; done.
      - exfalso. cbn in Hfix. by destruct h. }
    destruct other; cbn in E, Esplit; try done; try (by destruct (Hna _ _ eq_refl)); destruct h; try discriminate E. injection E as -> E. destruct args as [|x args]; [done|].
    by rewrite Hbuiltin in Esplit.
Qed.
(** *** Records without open rows *)
Lemma unify_common_each r f1 f2 : unify_common r f1 f2 = unify_each r (common_left f1 f2) (common_right f1 f2).
Proof using.
  induction f1 as [|[k a] f1 IHf]; [done|]. cbn [unify_common]. unfold common_left, common_right in *. cbn [omap list_omap fst snd].
  rewrite bt_has_get. destruct (bt_get k f2) as [b|] eqn:E; cbn; by rewrite IHf.
Qed.

(** What was unified of two types that cannot be the same. *)
Lemma unified_apart c σ ρ l k t u out out' c' σ' ρ' : never_same t u →
  (sum_list_with nevers l + sum_list_with nevers k ≤ nevers t + nevers u)%nat →
  unified c σ ρ l k out c' σ' ρ' → out' ≠ [] → unified c σ ρ [t] [u] out' c' σ' ρ'.
Proof using.
  intros Hne Hn H Hout. pose proof (un_count _ _ _ _ _ _ _ _ _ _ H). split.
  - apply H.
  - cbn. lia.
  - destruct (un_progress _ _ _ _ _ _ _ _ _ _ H); [left; cbn; lia|by right].
  - done.
  - intros θ _ Ha Tt Tu E. rewrite !Forall_singleton in *. cbn in E. injection E as E. by destruct (Hne θ (an_nodes _ _ _ Ha) Tt Tu).
Qed.

Lemma plain_record fields tail : plain (AnonRecord fields tail) = true →
  ascending fields.*1 = true ∧ match tail with RowVar _ => False | _ => True end.
Proof using. intros [H _]%all_nodes_parts. cbn in H. by destruct tail. Qed.

Lemma never_same_records f1 tail1 f2 tail2 : f1.*1 ≠ f2.*1 ∨ tail1 ≠ tail2 → never_same (AnonRecord f1 tail1) (AnonRecord f2 tail2).
Proof using.
  intros H θ _ _ _ E. cbn in E. injection E as Ef Et. destruct H as [H|H]; [|done]. apply H. apply (f_equal (λ l, l.*1)) in Ef.
  by rewrite !map_fst in Ef.
Qed.

Lemma unify_tails_ends c σ ρ f1 tail1 f2 tail2 : solves c σ ρ → plain (AnonRecord f1 tail1) = true → plain (AnonRecord f2 tail2) = true →
  ends (λ n, unify_tails tables n f1 tail1 f2 tail2) c (λ out c', c' = c ∧ (out = [] ↔ f1.*1 = f2.*1 ∧ tail1 = tail2)).
Proof using.
  intros Hs P1 P2. destruct (plain_record _ _ P1) as [A1 T1], (plain_record _ _ P2) as [A2 T2].
  assert (only_in f1 f2 = [] → only_in f2 f1 = [] → f1.*1 = f2.*1) as Hsame.
  { rewrite !only_in_nil. intros H1 H2. apply ascending_same; [done..|]. split; auto. }
  assert (f1.*1 = f2.*1 → only_in f1 f2 = [] ∧ only_in f2 f1 = []) as Hnil.
  { intros E. rewrite !only_in_nil, E. done. }
  assert (f1.*1 ≠ f2.*1 ∨ tail1 ≠ tail2 → ends (λ n, fault ← type_mismatch tables n (AnonRecord f1 tail1) (AnonRecord f2 tail2); mret [fault]) c
    (λ out c', c' = c ∧ (out = [] ↔ f1.*1 = f2.*1 ∧ tail1 = tail2))) as Hbad.
  { intros H. apply ends_bind. eapply ends_mismatch; [done..|]. intros f. apply ends_ret. split; [done|]. naive_solver. }
  unfold unify_tails. destruct tail1 as [|v1|r1], tail2 as [|v2|r2]; try done; try (apply Hbad; by right).
  - apply ends_ret. split; [done|]. split.
    + intros E. split; [|done]. destruct (only_in f1 f2), (only_in f2 f1); try discriminate E. auto.
    + intros [E _]. by destruct (Hnil E) as [-> ->].
  - destruct (_ && _) eqn:E.
    + apply andb_true_iff in E as [[->%Nat.eqb_eq E1%bool_decide_eq_true]%andb_true_iff E2%bool_decide_eq_true]. apply ends_ret. naive_solver.
    + apply Hbad. destruct (decide (r1 = r2)) as [->|Hn]; [|right; congruence]. left. intros Ef. destruct (Hnil Ef) as [E1 E2].
      by rewrite Nat.eqb_refl, E1, E2 in E.
Qed.

Lemma fits_fewer c σ ρ l k l' k' : fits N Z c σ ρ l k →
  (∀ g, sum_list_with g l' ≤ sum_list_with g l)%nat → (∀ g, sum_list_with g k' ≤ sum_list_with g k)%nat → fits N Z c σ ρ l' k'.
Proof using.
  intros Hf Hl Hk. unfold fits, weight, sizes in *.
  assert (∀ m : list Type_, sum_list_with size (map (hom σ ρ) m) = sum_list_with (λ t, size (hom σ ρ t)) m) as E
    by (intros m; induction m as [|x m IHm]; cbn; [done|by rewrite IHm]).
  rewrite !E in *. pose proof (Hl nevers). pose proof (Hk nevers). pose proof (Hl (λ t, size (hom σ ρ t))). pose proof (Hk (λ t, size (hom σ ρ t))). lia.
Qed.

Lemma uni_records c σ ρ f1 tail1 f2 tail2 : solves c σ ρ → pair_fits c σ ρ (AnonRecord f1 tail1) (AnonRecord f2 tail2) →
  uni c σ ρ [AnonRecord f1 tail1] [AnonRecord f2 tail2] (λ n, unify_anon_anon tables n (unify_into tables n) f1 tail1 f2 tail2).
Proof.
  intros Hs Hf. pose proof (cl_plain _ _ _ _ (pf_left _ _ _ _ _ Hf)) as P1. pose proof (cl_plain _ _ _ _ (pf_right _ _ _ _ _ Hf)) as P2.
  destruct (plain_record _ _ P1) as [A1 T1], (plain_record _ _ P2) as [A2 T2].
  set (l := common_left f1 f2). set (k := common_right f1 f2).
  pose proof (common_left_sum) as Sl. pose proof (λ g, common_right_sum g f1 f2 (ascending_nodup _ A1)) as Sk.
  assert (uni c σ ρ l k (λ n, unify_common (unify_into tables n) f1 f2)) as Hcommon.
  { eapply ends_ext; [intros n; apply unify_common_each|]. apply uni_each; [apply common_length|done|..].
    - pose proof (ready_children _ _ _ _ (pf_left _ _ _ _ _ Hf)) as H. rewrite Forall_forall in H. apply Forall_forall.
      intros x Hx%common_left_in. by apply H.
    - pose proof (ready_children _ _ _ _ (pf_right _ _ _ _ _ Hf)) as H. rewrite Forall_forall in H. apply Forall_forall.
      intros x Hx%common_right_in. by apply H.
    - eapply fits_fewer; [by apply (fits_children c σ ρ _ _ Hf)|intros g; apply Sl|apply Sk]. }
  assert (uni c σ ρ [AnonRecord f1 tail1] [AnonRecord f2 tail2] (λ n, fs ← unify_common (unify_into tables n) f1 f2;
    more ← unify_tails tables n f1 tail1 f2 tail2; mret (fs ++ more))) as H; [|by destruct tail1].
  apply ends_bind. eapply ends_mono; [exact Hcommon|]. intros out1 c1 (σ1 & ρ1 & U). apply ends_bind.
  eapply ends_mono; [eapply unify_tails_ends; [apply U|done|done]|]. intros out2 c2 (-> & Hout). apply ends_ret. exists σ1, ρ1.
  destruct (decide (f1.*1 = f2.*1 ∧ tail1 = tail2)) as [[Ek Et]|Hne].
  - rewrite (proj2 Hout), app_nil_r by done. subst tail2. destruct (common_same f1 f2 Ek (ascending_nodup _ A1)) as [El Er].
    apply unified_parts; [done|..]; cbn [children rebuild]; [|by apply (f_equal length) in Ek; rewrite !length_fmap in *|].
    + f_equal. clear -Ek. revert f2 Ek. induction f1 as [|[j x] f1 IHf]; intros [|[j2 y] f2]; try done. intros [= -> Ek]. cbn. by rewrite <-IHf.
    + unfold l, k in U. by rewrite El, Er in U.
  - apply (unified_apart c σ ρ l k _ _ out1); [apply never_same_records; destruct (decide (f1.*1 = f2.*1)); naive_solver| |done|].
    + rewrite (nevers_eq (AnonRecord f1 _)), (nevers_eq (AnonRecord f2 _)). cbn [children]. specialize (Sl nevers f1 f2). specialize (Sk nevers).
      unfold l, k. lia.
    + intros [_ E]%app_nil. by apply Hne, Hout.
Qed.
(** *** The other arms *)
Lemma closed_var c σ ρ v : solves c σ ρ → closed c σ ρ (Var v) → unbound c v ∧ (v < next (vars c))%nat.
Proof using.
  intros Hs [_ Hf Hn]. cbn [hom] in Hf. split.
  - apply (sol_unbound c σ ρ Hs v v). rewrite Hf. cbn. apply Nat.eqb_refl.
  - apply Hn. cbn. apply Nat.eqb_refl.
Qed.

Lemma uni_var c σ ρ v t : solves c σ ρ → closed c σ ρ (Var v) → closed c σ ρ t → t ≠ Var v →
  uni c σ ρ [Var v] [t] (λ n, unify_var tables n v t).
Proof using.
  intros Hs Hv Ht Hne. destruct (closed_var c σ ρ v Hs Hv) as [Hu Hlt]. unfold unify_var. destruct (occurs_in v t) eqn:E; [|by apply uni_bind].
  apply uni_fault; [done|..].
  - intros θ Hθ _ Tt Eq. pose proof (answer_tame tables θ Hθ) as Hθt.
    destruct (size_occurs v θ id t) as [_ Hlt']; [apply Ht|done|done|done|]. specialize (Hlt' Hne). rewrite <-Eq in Hlt'. cbn in Hlt'. lia.
  - apply ends_ret. split; [|done]. by repeat case_match.
Qed.
Lemma uni_vars c σ ρ v w n' : solves c σ ρ → closed c σ ρ (Var v) → closed c σ ρ (Var w) →
  uni c σ ρ [Var v] [Var w] (λ n, unify_heads tables n (n' n) (Var v) (Var w)).
Proof using.
  intros Hs Hv Hw. cbn [unify_heads]. destruct (v =? w)%nat eqn:E.
  { apply Nat.eqb_eq in E as ->. apply uni_skip; try done. apply agree_refl. }
  apply Nat.eqb_neq in E. destruct (closed_var c σ ρ v Hs Hv) as [Hu Hlt], (closed_var c σ ρ w Hs Hw) as [Hu' Hlt'].
  destruct (Nat.le_gt_cases v w).
  - rewrite Nat.max_r, Nat.min_l by lia. apply uni_sym, uni_bind; try done. cbn. by apply Nat.eqb_neq.
  - rewrite Nat.max_l, Nat.min_r by lia. apply uni_bind; try done. cbn. apply Nat.eqb_neq. lia.
Qed.


Lemma pair_fits_sym c σ ρ t u : pair_fits c σ ρ t u → pair_fits c σ ρ u t.
Proof using. intros []. unfold weight in *. split; try done; unfold weight; cbn in *; lia. Qed.
Lemma never_same_sym t u : never_same t u → never_same u t.
Proof using. intros H θ Hθ Tt Tu E. by apply (H θ). Qed.

(** A row that is closed or an annotation's, and a type that is none. *)
Lemma uni_row c σ ρ t u fields tail other got : solves c σ ρ → closed c σ ρ t → closed c σ ρ u → never_same t u →
  match tail with RowVar _ => False | _ => True end → match t, u with Error, _ | _, Error | Var _, _ | _, Var _ => False | _, _ => True end →
  uni c σ ρ [t] [u] (λ n, unify_row tables n (unify_into tables n) t u fields tail other got).
Proof using.
  intros Hs Ht Hu Hne Htail Hshape.
  assert (uni c σ ρ [t] [u] (λ n, unify_apart tables n t u)) as Hapart.
  { pose proof (uni_mismatch tables c σ ρ t u Hs Ht Hu Hne) as H. by destruct t, u. }
  assert (∀ (f : Fault → Fault), ends (λ n, fault ← type_mismatch tables n t u; mret [f fault]) c (λ out c', out ≠ [] ∧ c' = c)) as Hmis.
  { intros f. apply ends_bind. eapply ends_mismatch; [done|apply Ht|apply Hu|]. intros g. by apply ends_ret. }
  assert (∀ name args, uni c σ ρ [t] [u] (λ n, unify_nominal tables n (unify_into tables n) t u fields tail name args got)) as Hnom.
  { intros name args. apply uni_fault; [done..|]. unfold unify_nominal. destruct tail as [|v|r]; [apply Hmis|done|].
    cbn [row_of_types_module]. destruct (opaque_outside tables name) as [m|]; [by apply ends_ret|]. apply (Hmis id). }
  unfold unify_row. assert (∀ n', match tail, fields with RowVar _, (field, _) :: _ => row_of_no_fields tables n' field other | _, _ => unify_apart tables n' t u end
    = unify_apart tables n' t u) as Etail by (intros n'; by destruct tail).
  destruct other; try (eapply ends_ext; [intros n; apply Etail|done]). destruct (bool_decide _); [apply Hnom|eapply ends_ext; [intros n'; apply Etail|done]].
Qed.

(** Types of two shapes. *)
Ltac shapes_apart := intros θ _ _ _ E; cbn [hom] in E; discriminate E.

Lemma uni_heads c σ ρ t u : solves c σ ρ → pair_fits c σ ρ t u →
  uni c σ ρ [t] [u] (λ n, unify_heads tables n (unify_into tables n) t u).
Proof.
  intros Hs Hf. pose proof (pf_left _ _ _ _ _ Hf) as Ct. pose proof (pf_right _ _ _ _ _ Hf) as Cu.
  pose proof (cl_plain _ _ _ _ Ct) as Pt. pose proof (cl_plain _ _ _ _ Cu) as Pu.
  assert (pair_fits c σ ρ u t) as Hf' by (by apply pair_fits_sym).
  assert (∀ v, t = Var v → u ≠ Var v → uni c σ ρ [t] [u] (λ n, unify_var tables n v u)) as Hvar
    by (intros v -> ?; by apply uni_var).
  assert (∀ v, u = Var v → t ≠ Var v → uni c σ ρ [t] [u] (λ n, unify_var tables n v t)) as Hvar'
    by (intros v -> ?; by apply uni_sym, uni_var).
  destruct t, u; cbn [unify_heads].
  all: try (by apply uni_skip; [..|constructor]).
  all: try (by apply uni_skip; [..|apply agree_refl]).
  all: try (apply uni_vars; done).
  all: try (apply uni_rigid; done).
  all: try (by apply uni_apps).
  all: try (by apply uni_bind; [done|by apply (closed_var c σ ρ)..|done|done]).
  all: try (by apply uni_sym, uni_bind; [done|by apply (closed_var c σ ρ)..|done|done]).
  all: try (by apply Hvar).
  all: try (by apply Hvar').
  all: try (by apply uni_applied).
  all: try (by apply uni_sym, uni_applied).
  all: try discriminate Pt.
  all: try discriminate Pu.
  all: try (by apply uni_records).
  all: try (apply uni_row; [done..|shapes_apart|by apply (plain_record _ _ Pt)|done]).
  all: try (apply uni_row; [done..|shapes_apart|by apply (plain_record _ _ Pu)|done]).
  all: try (apply uni_mismatch; [done..|shapes_apart]).
  - by apply (uni_vars c σ ρ _ _ (unify_into tables)).
  - by apply (uni_rigid c σ ρ _ _ (unify_into tables)).
  - destruct (length params =? length params0)%nat eqn:El.
    + apply Nat.eqb_eq in El. apply (uni_two c σ ρ _ _ params t params0 u (λ n, unify_each (unify_into tables n) params params0)); try done.
      { symmetry. apply (rebuild_children (Fun params0 u)). }
      intros Hc. apply uni_each; try done.
      * pose proof (ready_children _ _ _ _ Ct) as H. by apply Forall_app in H as [H _].
      * pose proof (ready_children _ _ _ _ Cu) as H. by apply Forall_app in H as [H _].
    + apply uni_fault; [done| |by apply ends_ret]. intros θ _ _ _ E. cbn in E. injection E as E _. apply (f_equal length) in E.
      rewrite !length_map in E. by apply Nat.eqb_neq in El.
  - by apply (uni_one c σ ρ (List t) (List u)).
  - destruct (length parts =? length parts0)%nat eqn:El.
    + apply Nat.eqb_eq in El. by apply (uni_list c σ ρ (Tuple parts) (Tuple parts0)).
    + apply uni_fault; [done| |by apply ends_ret]. intros θ _ _ _ E. cbn in E. injection E as E. apply (f_equal length) in E.
      rewrite !length_map in E. by apply Nat.eqb_neq in El.
  - destruct (name =? name0)%N eqn:En; cbn [negb].
    + apply N.eqb_eq in En as ->. destruct (length args =? length args0)%nat eqn:El.
      * apply Nat.eqb_eq in El. by apply (uni_list c σ ρ (Generic name0 args) (Generic name0 args0)).
      * apply uni_fault; [done| |by apply ends_ret]. intros θ _ _ _ E. cbn in E. injection E as E. apply (f_equal length) in E.
        rewrite !length_map in E. by apply Nat.eqb_neq in El.
    + apply uni_mismatch; try done. intros θ _ _ _ E. cbn in E. injection E as E _. by apply N.eqb_neq in En.
  - apply (uni_two c σ ρ (Map t1 t2) (Map u1 u2) [t1] t2 [u1] u2 (λ n, unify_into tables n t1 u1)); try done.
    intros Hc. pose proof (ready_children _ _ _ _ Ct) as Ht. pose proof (ready_children _ _ _ _ Cu) as Hu. cbn in Ht, Hu.
    apply Forall_cons in Ht as [? _], Hu as [? _]. by apply IH.
  - by apply (uni_one c σ ρ (Set_ t) (Set_ u)).
  - by apply (uni_one c σ ρ (Channel t) (Channel u)).
  - assert (head ≠ head0 ∨ length rest ≠ length rest0 → never_same (Con head rest) (Con head0 rest0)) as Hne.
    { intros H θ _ _ _ E. cbn in E. injection E as E1 E2. destruct H as [H|H]; [done|]. apply H. apply (f_equal length) in E2. by rewrite !length_map in E2. }
    destruct (_ && _) eqn:E.
    + apply andb_true_iff in E as [->%bool_decide_eq_true El%Nat.eqb_eq]. by apply (uni_list c σ ρ (Con head0 rest) (Con head0 rest0)).
    + apply uni_mismatch; try done. apply Hne. apply andb_false_iff in E as [E%bool_decide_eq_false|E%Nat.eqb_neq]; auto.
Qed.
End induction.

(** ** The unifier *)
Lemma unify_step N Z c σ ρ t u :
  (∀ c σ ρ t u, solves c σ ρ → ready c t → ready c u → fits N Z c σ ρ [t] [u] → uni c σ ρ [t] [u] (λ n, unify_into tables n t u)) →
  solves c σ ρ → ready c t → ready c u → (weight c [t] [u] ≤ N)%nat → (sizes σ ρ [t] [u] ≤ Z)%nat →
  uni c σ ρ [t] [u] (λ n, unify_into tables n t u).
Proof.
  intros IH Hs Ht Hu Hw Hz. pose proof (ready_closed c σ ρ t Hs Ht) as Ct. pose proof (ready_closed c σ ρ u Hs Hu) as Cu.
  assert (∀ x, plain x = true → ∀ n, reduced tables n x = mret x) as Hred by (intros [] Hx n; done).
  eapply uni_mono; [intros; eapply unified_resolved; [done|apply Ht|apply Hu|eassumption]|].
  apply ends_succ. cbn [unify_into]. apply ends_bind. eapply ends_apply; [done|apply Ht|].
  apply ends_bind. eapply ends_apply; [done|apply Hu|].
  eapply ends_ext; [intros n; by rewrite (Hred _ (cl_plain _ _ _ _ Ct))|]. apply ends_bind, ends_ret.
  eapply ends_ext; [intros n; by rewrite (Hred _ (cl_plain _ _ _ _ Cu))|]. apply ends_bind, ends_ret.
  apply (uni_heads N Z IH); [done|]. split; [done|done| |].
  - unfold weight in *. cbn in *. pose proof (nevers_hom σ ρ t (λ v, sol_nevers c σ ρ v Hs)). pose proof (nevers_hom σ ρ u (λ v, sol_nevers c σ ρ v Hs)). lia.
  - unfold sizes in Hz. cbn in Hz. lia.
Qed.

Lemma uni_fits N Z : ∀ c σ ρ t u, solves c σ ρ → ready c t → ready c u → fits N Z c σ ρ [t] [u] →
  uni c σ ρ [t] [u] (λ n, unify_into tables n t u).
Proof.
  revert Z. induction N as [|N IHN]; intros Z; induction Z as [|Z IHZ]; intros c σ ρ t u Hs Ht Hu Hf; unfold fits in Hf.
  - lia.
  - apply (unify_step 0 Z); try done; lia.
  - apply (IHN (S (sizes σ ρ [t] [u]))); try done. unfold fits. lia.
  - destruct (decide (weight c [t] [u] < S N)%nat) as [Hw|Hw]; [apply IHZ; try done; unfold fits; lia|].
    apply (unify_step (S N) Z); try done; lia.
Qed.

(** The unifier ends, and does what [unified] says. *)
Lemma unify_unified c σ ρ t u : solves c σ ρ → ready c t → ready c u → uni c σ ρ [t] [u] (λ n, unify_into tables n t u).
Proof. intros Hs Ht Hu. apply (uni_fits (S (weight c [t] [u])) 0); try done. unfold fits. lia. Qed.
End arms.
