(* ===== verification/UnifyClaims.v ===== *)
(** * Unification is right (src/typechecker/unify.rs)

    What [unified] gives of [unify_types] and of the supply, and where the
    unifier is wrong: on records with a row left open.

    The theorems are of _ready_ types, in checkers that [solves] says are
    in order. A ready type is plain (it holds no record with a row left open
    and no projection of an associated type, and its records' fields are in
    the order of their names) and its variables have been made; in a checker
    in order every type a variable stands for is plain too, and no variable
    leads back to itself. Open rows are left out because the theorems are
    false of them: [open_row_resolved_twice] and [open_row_of_itself], at the
    end, are runs of the code. *)

From S2P Require Import Prelude Types TypesFacts Unify UnifyFacts UnifySpec UnifyArms.

(** The unifier's result from some fuel on. *)
Definition unifies_to (tables : Tables) (c : Checker) (t1 t2 : Type_) (r : () + list Fault) (c' : Checker) : Prop :=
  ∃ n, ∀ k, (n ≤ k)%nat → unify_types tables k t1 t2 c = Some (r, c').
Definition resolves_to (c : Checker) (t a : Type_) : Prop := eventually (λ n, apply n c t) a.

Lemma unify_types_unified tables c σ ρ t1 t2 : solves c σ ρ → ready c t1 → ready c t2 →
  ∃ out c' σ' ρ', unifies_to tables c t1 t2 match out with [] => inl tt | _ => inr out end c' ∧
    unified tables c σ ρ [t1] [t2] out c' σ' ρ'.
Proof.
  intros Hs H1 H2. destruct (unify_unified tables c σ ρ t1 t2 Hs H1 H2) as (n & out & c' & Hn & σ' & ρ' & U).
  exists out, c', σ', ρ'. split; [|done]. exists n. intros k Hk. unfold unify_types, mbind, check_bind. rewrite Hn by done. by destruct out.
Qed.

(** ** States to try the theorems at *)
Definition no_tables : Tables := mkTables (λ s, if String.eqb s "TypeOf" then Some 0%N else None) ∅ ∅ (mkResolver ∅ ∅) ∅ ∅ ∅ ∅ 0%N.
Definition unbound_vars (n : nat) : Checker := mkChecker (mkSupply (replicate n None) (replicate n 1%nat) 1 n 0 [] []) ∅ ∅ ∅ ∅.
Lemma unbound_slot n v t : slot (unbound_vars n) v ≠ Some (Some t).
Proof. cbn. intros H%lookup_replicate. naive_solver. Qed.
Lemma solves_unbound n : solves (unbound_vars n) Var id.
Proof.
  split; try done; try (intros v t H; by destruct (unbound_slot n v t)); try (intros v t w H; by destruct (unbound_slot n v t)).
  - cbn. apply length_replicate.
  - cbn. apply length_replicate.
  - exists (λ _, 0%nat). intros v t w H. by destruct (unbound_slot n v t).
  - by exists (λ _, 0%nat).
  - intros v w _ Ho. cbn in Ho. by apply Nat.eqb_eq in Ho as ->.
Qed.
Lemma ordinary_unbound n : ordinary (unbound_vars n).
Proof.
  split; try done; [intros v t H; by destruct (unbound_slot n v t)|]. intros v Hv _. unfold lev. cbn in *.
  rewrite lookup_replicate_2 by done. cbn. lia.
Qed.
(** What is asked of a type, by evaluation. *)
Lemma ready_by c t : plain t && forallb (λ v, v <? next (vars c))%nat (free_vars_in t) = true → ready c t.
Proof.
  intros [Hp Hn]%andb_true_iff. split; [done|]. intros v Hv%free_vars_elem. rewrite forallb_Forall_true, Forall_forall in Hn.
  by apply Nat.ltb_lt, Hn.
Qed.

(** ** Resolving a type *)

(** [apply] ends, and leaves no variable that is bound: applied again, it
    changes nothing. *)
Theorem apply_resolves c σ ρ t : solves c σ ρ → ready c t →
  ∃ a, resolves_to c t a ∧ resolves_to c a a ∧ ∀ v, occurs_in v a = true → unbound c v ∧ (v < next (vars c))%nat.
Proof.
  intros Hs Ht. pose proof (ready_closed c σ ρ t Hs Ht) as Hc. exists (hom σ ρ t). split_and!.
  - apply (eventually_apply c σ ρ Hs), Ht.
  - rewrite <-(cl_fixed _ _ _ _ Hc) at 2. apply (eventually_apply c σ ρ Hs), Hc.
  - intros v Hv. split; [|by apply Hc]. eapply closed_unbound; [exact Hs|apply Hc|apply Hc|done].
Qed.

(** ** Unifying *)

(** C12. Unifying two ready types (no open rows, no projections) ends: with
    success or with faults the checker is in a state whose substitution has
    a solved form, in which what was resolved still is and the level is as
    it was. *)
Theorem unify_ends tables c σ ρ t1 t2 : solves c σ ρ → ready c t1 → ready c t2 →
  ∃ r c' σ' ρ', unifies_to tables c t1 t2 r c' ∧ solves c' σ' ρ' ∧ level (vars c') = level (vars c) ∧
    (∀ v t, slot c v = Some (Some t) → slot c' v = Some (Some t)) ∧
    (∀ t a, ready c t → resolves_to c t a → ∀ b, resolves_to c' t b → resolves_to c' a b).
Proof.
  intros Hs H1 H2. destruct (unify_types_unified tables c σ ρ t1 t2 Hs H1 H2) as (out & c' & σ' & ρ' & Hn & U).
  pose proof (un_extends _ _ _ _ _ _ _ _ _ _ U) as He. pose proof (ex_solves _ _ _ _ _ _ He) as Hs'.
  eexists _, c', σ', ρ'. split_and!; [exact Hn|done|apply He|apply He|].
  intros t a Ht (n1 & Ha) b (n2 & Hb). destruct (eventually_apply c σ ρ Hs t (rd_plain _ _ Ht)) as (n3 & Ha').
  destruct (eventually_apply c' σ' ρ' Hs' t (rd_plain _ _ Ht)) as (n4 & Hb').
  assert (a = hom σ ρ t) as -> by (specialize (Ha (n1 `max` n3)%nat ltac:(lia)); specialize (Ha' (n1 `max` n3)%nat ltac:(lia)); congruence).
  assert (b = hom σ' ρ' t) as -> by (specialize (Hb (n2 `max` n4)%nat ltac:(lia)); specialize (Hb' (n2 `max` n4)%nat ltac:(lia)); congruence).
  rewrite <-(ex_hom _ _ _ _ _ _ t He) by apply Ht. apply (eventually_apply c' σ' ρ' Hs'). eapply cl_plain, (ready_closed c σ ρ); done.
Qed.

(** C6. Two ready types (no open rows, no projections) that unify without a
    fault, where no variable has escaped its annotation, are then the same
    type, but for parts where one of them is [Error] or [Never]; if neither
    has such a part they are equal. *)
Theorem unify_makes_equal tables c σ ρ t1 t2 : solves c σ ρ → escaped_vars c = ∅ → ready c t1 → ready c t2 →
  ∃ r c', unifies_to tables c t1 t2 r c' ∧
    (r = inl tt → ∃ a b, resolves_to c' t1 a ∧ resolves_to c' t2 b ∧ agree a b ∧
      (tame a = true → tame b = true → a = b)).
Proof.
  intros Hs Hesc H1 H2. destruct (unify_types_unified tables c σ ρ t1 t2 Hs H1 H2) as (out & c' & σ' & ρ' & Hn & U).
  pose proof (un_extends _ _ _ _ _ _ _ _ _ _ U) as He. pose proof (ex_solves _ _ _ _ _ _ He) as Hs'.
  eexists _, c'. split; [exact Hn|]. intros Hr. assert (out = []) as -> by (by destruct out).
  destruct (un_agree _ _ _ _ _ _ _ _ _ _ U Hesc eq_refl) as [_ Ha]. apply Forall2_cons in Ha as [Ha _].
  exists (hom σ' ρ' t1), (hom σ' ρ' t2). split_and!; [apply (eventually_apply c' σ' ρ' Hs'), H1|apply (eventually_apply c' σ' ρ' Hs'), H2|done|].
  intros T1 T2. apply agree_eq; [done..| |]; apply normal_hom; intros v; by apply (sol_normal c' σ' ρ').
Qed.

(** C7. Unifying decides no more than is needed: two ready types without
    [Error] and [Never] that an assignment of types to variables makes equal
    unify without a fault, and what the checker then knows is still true of
    that assignment. It is so in a checker with no annotation variables of a
    group and no variable of something outside ([ordinary]), of an assignment
    that answers what the checker knew already ([answer]). *)
Theorem unify_most_general tables c σ ρ t1 t2 θ : solves c σ ρ → ordinary c → answer tables θ c →
  ready c t1 → ready c t2 → tame t1 = true → tame t2 = true → hom θ id t1 = hom θ id t2 →
  ∃ c', unifies_to tables c t1 t2 (inl tt) c' ∧ answer tables θ c' ∧
    ∀ t, ready c t → ∃ a, resolves_to c' t a ∧ hom θ id a = hom θ id t.
Proof.
  intros Hs Ho Ha H1 H2 T1 T2 E. destruct (unify_types_unified tables c σ ρ t1 t2 Hs H1 H2) as (out & c' & σ' & ρ' & Hn & U).
  pose proof (un_extends _ _ _ _ _ _ _ _ _ _ U) as He. pose proof (ex_solves _ _ _ _ _ _ He) as Hs'.
  destruct (un_general _ _ _ _ _ _ _ _ _ _ U θ Ho Ha) as (-> & Ho' & Ha'); [by apply Forall_singleton..|by cbn; rewrite E|].
  exists c'. split_and!; [done|done|]. intros t Ht. exists (hom σ' ρ' t). split; [apply (eventually_apply c' σ' ρ' Hs'), Ht|].
  eapply answer_hom; [done..|apply Ht].
Qed.

(** C13. Unifying two ready types (no open rows, no projections) never lets a
    variable out of its scope: every variable that a variable then stands
    for is at that variable's level or further out, so what an outer binding
    has reached is not generalised. *)
Theorem unify_keeps_levels tables c σ ρ t1 t2 : solves c σ ρ → ready c t1 → ready c t2 →
  ∃ r c', unifies_to tables c t1 t2 r c' ∧
    ∀ v, (v < next (vars c))%nat → ∃ a, resolves_to c' (Var v) a ∧
      ∀ w, w ∈ free_vars_in a → (lev c' w ≤ lev c v)%nat ∧
        ((lev c v ≤ level (vars c))%nat → is_generalizable w (vars c') = Some false).
Proof.
  intros Hs H1 H2. destruct (unify_types_unified tables c σ ρ t1 t2 Hs H1 H2) as (out & c' & σ' & ρ' & Hn & U).
  pose proof (un_extends _ _ _ _ _ _ _ _ _ _ U) as He. pose proof (ex_solves _ _ _ _ _ _ He) as Hs'.
  eexists _, c'. split; [exact Hn|]. intros v Hv. exists (σ' v). split; [by apply (eventually_apply c' σ' ρ' Hs' (Var v))|].
  intros w Hw%free_vars_elem. pose proof (ex_next _ _ _ _ _ _ He). pose proof (ex_lev _ _ _ _ _ _ He v Hv).
  assert (lev c' w ≤ lev c' v)%nat as Hle by (apply (so_lower _ _ _ Hs'); [apply lookup_lt_is_Some_2; rewrite (so_subst _ _ _ Hs'); lia|done]).
  assert (w < next (vars c'))%nat as Hwn by (eapply (sol_next c' σ' ρ' Hs' v); [lia|done]).
  split; [lia|]. intros Hl. unfold is_generalizable. destruct (lookup_lt_is_Some_2 (levels (vars c')) w) as [x Hx]; [by rewrite (so_levels _ _ _ Hs')|].
  unfold lev in Hle at 1. rewrite Hx in *. cbn in *. rewrite (ex_level _ _ _ _ _ _ He). f_equal. apply Nat.ltb_ge. lia.
Qed.

(** ** A module's check, and forgetting it *)

Fixpoint fresh_vars (k : nat) (s : TyVarSupply) : TyVarSupply := match k with O => s | S k => snd (fresh (fresh_vars k s)) end.
Lemma iter_fresh k s : fresh_vars k s = grow k s.
Proof.
  induction k as [|k IH]; cbn [fresh_vars]; [by rewrite grow_0|]. rewrite IH, fresh_grow. cbn [snd]. rewrite grow_grow. f_equal. lia.
Qed.

(** A module's check begins, and makes [k] variables. *)
Definition checking (m : ModuleId) (k : nat) (c : Checker) : Checker :=
  with_vars (λ s, fresh_vars k (begin m s)) c.
Lemma solves_checking m k c σ ρ : solves c σ ρ → solves (checking m k c) σ ρ.
Proof.
  intros Hs. pose proof Hs as [Hsub Hlev Hb Hf Ha Hr Hp Hn Hov [rk Hrk] Hark Hlow]. unfold checking, with_vars. rewrite iter_fresh.
  assert (∀ v t, (subst (vars c) ++ replicate k None) !! v = Some (Some t) ↔ slot c v = Some (Some t)) as Hslot by (intros; apply lookup_grown).
  split; cbn; try done.
  - by rewrite length_app, length_replicate, Hsub.
  - by rewrite length_app, length_replicate, Hlev.
  - intros v t Ht%Hslot. by apply Hb.
  - intros v Hv. apply Hf. intros t Ht%Hslot. by apply (Hv t).
  - intros v t Ht%Hslot. by apply (Hp v).
  - intros v t Ht%Hslot. by apply (Hn v).
  - intros v t w Ht%Hslot Ho. specialize (Hov v t w Ht Ho). lia.
  - exists rk. intros v t w Ht%Hslot. by apply Hrk.
  - intros v w _ Ho. unfold lev. cbn. destruct (decide (v < next (vars c))%nat) as [Hlt|Hge].
    + pose proof (sol_next c σ ρ Hs v w Hlt Ho). rewrite !lookup_app_l by lia. apply Hlow; [|done].
      apply lookup_lt_is_Some_2. by rewrite Hsub.
    + rewrite Hf in Ho by (apply (unbound_next c σ ρ Hs); lia). cbn in Ho. by apply Nat.eqb_eq in Ho as ->.
Qed.

(** The earlier checks: none of [m], and the last is not forgotten. *)
Definition kept_ranges (m : ModuleId) (l : list (ModuleId * TyVar * bool)) : Prop :=
  Forall (λ r, r.1.1 ≠ m) l ∧ ∀ r, last l = Some r → r.2 = false.
Lemma give_back_kept m l s : kept_ranges m l → ranges s = l → give_back (reverse l) s = s.
Proof.
  intros [_ Hk] E. destruct l as [|r l _] using rev_ind; [done|]. rewrite reverse_snoc. specialize (Hk r (last_snoc _ _)).
  by destruct r as [[j start] []].
Qed.
Lemma forget_ranges m s sub lev l start : kept_ranges m l → ranges s = l ++ [(m, start, false)] → subst s = sub → levels s = lev →
  ∀ tr, forget m tr s = mkSupply (take start (foldl (λ sub v, <[v := None]> sub) sub tr)) (take start lev) (level s) start (base s) (trail s) l.
Proof.
  intros Hk Er Es El tr. unfold forget. cbn [with_subst ranges subst levels level next base trail]. rewrite Er, fmap_app.
  assert ((λ r, if (r.1.1 =? m)%N then (r.1.1, r.1.2, true) else r) <$> l = l) as ->.
  { destruct Hk as [Hk _]. clear Er. induction Hk as [|r l Hr _ IH]; cbn; [done|]. rewrite IH. by rewrite (proj2 (N.eqb_neq _ _)) by done. }
  cbn [fmap list_fmap fst snd]. rewrite N.eqb_refl, reverse_snoc. cbn [give_back]. rewrite reverse_involutive. subst.
  by rewrite (give_back_kept m l).
Qed.
Lemma foldl_cleared (tr : list nat) (sub : list (option Type_)) v :
  foldl (λ sub v, <[v := None]> sub) sub tr !! v = if decide (v ∈ tr) then (λ _, None) <$> sub !! v else sub !! v.
Proof.
  revert sub. induction tr as [|w tr IH]; intros sub; cbn [foldl]; [by rewrite decide_False by set_solver|].
  rewrite IH. destruct (decide (v = w)) as [->|Hne].
  - rewrite (decide_True (P := w ∈ w :: tr)) by set_solver. destruct (decide (w < length sub)%nat).
    + destruct (lookup_lt_is_Some_2 sub w) as [x Hx]; [done|]. rewrite list_lookup_insert_eq, Hx by done. by case_decide.
    + rewrite list_insert_ge, lookup_ge_None_2 by lia. by case_decide.
  - rewrite list_lookup_insert_ne by done. by repeat case_decide; set_solver.
Qed.

Lemma vars_checking m k c : vars (checking m k c) = grow k (begin m (vars c)).
Proof. unfold checking, with_vars. cbn [vars]. apply iter_fresh. Qed.
Lemma slot_checking m k c v t : slot (checking m k c) v = Some (Some t) ↔ slot c v = Some (Some t).
Proof. rewrite vars_checking. apply lookup_grown. Qed.
Lemma unbound_checking m k c v : unbound (checking m k c) v ↔ unbound c v.
Proof. unfold unbound. by setoid_rewrite slot_checking. Qed.
Lemma lev_checking m k c v : length (levels (vars c)) = next (vars c) → (v < next (vars c))%nat → lev (checking m k c) v = lev c v.
Proof. intros Hl Hv. unfold lev. rewrite vars_checking. cbn. by rewrite lookup_app_l by lia. Qed.

Section checked.
Context (m : ModuleId) (k : nat) (c c' : Checker) (σ σ' : nat → Type_) (ρ ρ' : nat → nat).
Hypothesis (Hs : solves c σ ρ) (He : extends (checking m k c) σ ρ c' σ' ρ').

Lemma checked_next : (next (vars c) ≤ next (vars c'))%nat.
Proof using He. pose proof (ex_next _ _ _ _ _ _ He) as H. rewrite vars_checking in H. cbn in H. lia. Qed.

Lemma checked_subst : take (next (vars c)) (foldl (λ sub v, <[v := None]> sub) (subst (vars c')) (trail (vars c'))) = subst (vars c).
Proof using All.
  pose proof (ex_solves _ _ _ _ _ _ He) as Hs'. pose proof checked_next as Hnext.
  destruct (ex_trail _ _ _ _ _ _ He) as (more & Htr & Hfree & Hmore). rewrite vars_checking in Htr, Hmore. cbn in Htr, Hmore.
  apply list_eq. intros v. destruct (decide (v < next (vars c))%nat) as [Hv|Hv].
  2: { rewrite lookup_take_ge, lookup_ge_None_2; [done|rewrite (so_subst _ _ _ Hs); lia|lia]. }
  rewrite lookup_take_lt, foldl_cleared, Htr by done.
  destruct (lookup_lt_is_Some_2 (subst (vars c')) v) as [x Hx]; [rewrite (so_subst _ _ _ Hs'); lia|].
  destruct (lookup_lt_is_Some_2 (subst (vars c)) v) as [y Hy]; [by rewrite (so_subst _ _ _ Hs)|]. rewrite Hx, Hy. cbn.
  destruct y as [t|].
  - pose proof (ex_kept _ _ _ _ _ _ He v t (proj2 (slot_checking m k c v t) Hy)) as Hc'. rewrite decide_False; [congruence|].
    intros Hin%Hfree. by apply (Hin t), slot_checking.
  - case_decide as Hin; [done|]. destruct (Hmore v Hv) as [Hu|]; [|by destruct x; [destruct (Hu _ Hx)|]|done].
    apply unbound_checking. intros t. congruence.
Qed.
Lemma checked_levels v : (v < next (vars c))%nat → (default 0 (take (next (vars c)) (levels (vars c')) !! v) ≤ lev c v)%nat.
Proof using All.
  intros Hv. rewrite lookup_take_lt by done. rewrite <-(lev_checking m k c v) by (done || apply Hs). apply (ex_lev _ _ _ _ _ _ He).
  rewrite vars_checking. cbn. lia.
Qed.
End checked.

(** C28. Forgetting the check of a module that made [k] variables and unified
    ready types pair by pair, with faults or without, leaves the substitution
    as it was before: the variables the check made are given back, and the
    earlier modules' variables that it resolved are unresolved again. The
    module had no range before, and the last range there was is in use
    ([kept_ranges]). *)
Theorem forget_undoes_check tables c σ ρ m k ts us : solves c σ ρ → kept_ranges m (ranges (vars c)) → length ts = length us →
  Forall (ready (checking m k c)) ts → Forall (ready (checking m k c)) us →
  ∃ n out c', (∀ j, (n ≤ j)%nat → unify_each (unify_into tables j) ts us (checking m k c) = Some (out, c')) ∧
    let s := forget m (trail (vars c')) (vars c') in
    subst s = subst (vars c) ∧ next s = next (vars c) ∧ ranges s = ranges (vars c) ∧ length (levels s) = length (levels (vars c)) ∧
    ∀ v, (v < next (vars c))%nat → (default 0 (levels s !! v) ≤ lev c v)%nat.
Proof.
  intros Hs Hk Hlen Hts Hus. pose proof (solves_checking m k c σ ρ Hs) as Hs1.
  assert (uni tables (checking m k c) σ ρ ts us (λ n, unify_each (unify_into tables n) ts us)) as (n & out & c' & Hn & σ' & ρ' & U).
  { apply (uni_each tables (S (weight (checking m k c) ts us)) 0); try done; [|unfold fits; lia]. intros. by apply unify_unified. }
  exists n, out, c'. split; [done|]. pose proof (un_extends _ _ _ _ _ _ _ _ _ _ U) as He. pose proof (ex_solves _ _ _ _ _ _ He) as Hs'.
  pose proof (ex_ranges _ _ _ _ _ _ He) as Hr. rewrite vars_checking in Hr. cbn in Hr.
  pose proof (checked_next m k c c' σ σ' ρ ρ' He). cbn zeta.
  rewrite (forget_ranges m (vars c') _ _ _ (next (vars c)) Hk Hr eq_refl eq_refl). cbn [subst next ranges levels].
  split_and!; [by eapply checked_subst|done|done| |by apply (checked_levels m k c c' σ σ' ρ ρ')].
  rewrite length_take, (so_levels _ _ _ Hs'), (so_levels _ _ _ Hs). lia.
Qed.

(** ** The theorems at a state with three variables *)
Definition sample_left : Type_ := Fun [Var 0; List (Var 1)] (Var 0).
Definition sample_right : Type_ := Fun [Map Int Bool; Var 2] (Map (Var 1) Bool).
Definition sample_answer (v : nat) : Type_ := match v with 0 => Map Int Bool | 1 => Int | 2 => List Int | _ => Unit end%nat.

Lemma apply_resolves_witness : ∃ a, resolves_to (unbound_vars 3) sample_left a ∧ resolves_to (unbound_vars 3) a a ∧
  ∀ v, occurs_in v a = true → unbound (unbound_vars 3) v ∧ (v < next (vars (unbound_vars 3)))%nat.
Proof. apply (apply_resolves _ Var id sample_left (solves_unbound 3)), ready_by. vm_compute. reflexivity. Defined.

Lemma unify_ends_witness : ∃ r c' σ' ρ', unifies_to no_tables (unbound_vars 3) sample_left sample_right r c' ∧ solves c' σ' ρ' ∧
  level (vars c') = 1%nat ∧ (∀ v t, slot (unbound_vars 3) v = Some (Some t) → slot c' v = Some (Some t)) ∧
  (∀ t a, ready (unbound_vars 3) t → resolves_to (unbound_vars 3) t a → ∀ b, resolves_to c' t b → resolves_to c' a b).
Proof. apply (unify_ends no_tables _ Var id sample_left sample_right (solves_unbound 3)); apply ready_by; vm_compute; reflexivity. Defined.

Lemma unify_makes_equal_witness : ∃ r c', unifies_to no_tables (unbound_vars 3) sample_left sample_right r c' ∧
  (r = inl tt → ∃ a b, resolves_to c' sample_left a ∧ resolves_to c' sample_right b ∧ agree a b ∧ (tame a = true → tame b = true → a = b)).
Proof. apply (unify_makes_equal no_tables _ Var id _ _ (solves_unbound 3) eq_refl); apply ready_by; vm_compute; reflexivity. Defined.

Lemma sample_answers : answer no_tables sample_answer (unbound_vars 3).
Proof. split; [by intros [|[|[|v]]]|]. intros v t H. by destruct (unbound_slot 3 v t). Qed.
Lemma unify_most_general_witness : ∃ c', unifies_to no_tables (unbound_vars 3) sample_left sample_right (inl tt) c' ∧
  answer no_tables sample_answer c' ∧
  ∀ t, ready (unbound_vars 3) t → ∃ a, resolves_to c' t a ∧ hom sample_answer id a = hom sample_answer id t.
Proof.
  apply (unify_most_general no_tables _ Var id _ _ _ (solves_unbound 3) (ordinary_unbound 3) sample_answers);
    first [apply ready_by; vm_compute; reflexivity|vm_compute; reflexivity].
Defined.

Lemma unify_keeps_levels_witness : ∃ r c', unifies_to no_tables (unbound_vars 3) sample_left sample_right r c' ∧
  ∀ v, (v < 3)%nat → ∃ a, resolves_to c' (Var v) a ∧
    ∀ w, w ∈ free_vars_in a → (lev c' w ≤ lev (unbound_vars 3) v)%nat ∧
      ((lev (unbound_vars 3) v ≤ 1)%nat → is_generalizable w (vars c') = Some false).
Proof. apply (unify_keeps_levels no_tables _ Var id _ _ (solves_unbound 3)); apply ready_by; vm_compute; reflexivity. Defined.

Lemma forget_undoes_check_witness : ∃ n out c',
  (∀ j, (n ≤ j)%nat → unify_each (unify_into no_tables j) [Var 0] [List (Var 2)] (checking 5%N 1 (unbound_vars 2)) = Some (out, c')) ∧
  let s := forget 5%N (trail (vars c')) (vars c') in
  subst s = [None; None] ∧ next s = 2%nat ∧ ranges s = [] ∧ length (levels s) = 2%nat ∧
  ∀ v, (v < 2)%nat → (default 0 (levels s !! v) ≤ lev (unbound_vars 2) v)%nat.
Proof.
  apply (forget_undoes_check no_tables (unbound_vars 2) Var id 5%N 1 [Var 0] [List (Var 2)] (solves_unbound 2)).
  - split; [constructor|intros r H; discriminate H].
  - reflexivity.
  - constructor; [apply ready_by; vm_compute; reflexivity|constructor].
  - constructor; [apply ready_by; vm_compute; reflexivity|constructor].
Defined.

(** ** Records with a row left open

    The fields both records have are unified first; what that decides of
    the rows is not looked at again. *)
Definition stale_left : Type_ := AnonRecord [(1%N, AnonRecord [(7%N, Int)] (RowVar 0))] (RowVar 0).
Definition stale_right : Type_ := AnonRecord [(1%N, AnonRecord [(7%N, Int); (8%N, Int)] Closed); (2%N, Int)] Closed.

(** The row is resolved twice, and the first of the two is lost: the
    records unify without a fault and are not the same. *)
Lemma open_row_resolved_twice : ∃ c' a b, unify_types no_tables 10 stale_left stale_right (unbound_vars 1) = Some (inl tt, c') ∧
  apply 10 c' stale_left = Some a ∧ apply 10 c' stale_right = Some b ∧ a ≠ b.
Proof.
  destruct (unify_types no_tables 10 stale_left stale_right (unbound_vars 1)) as [[[[]|] c']|] eqn:E; vm_compute in E; try discriminate E.
  injection E as <-. eexists _, _, _. split; [reflexivity|]. split; [vm_compute; reflexivity|]. split; [vm_compute; reflexivity|discriminate].
Qed.

Definition cyclic_left : Type_ := AnonRecord [(1%N, Var 0)] (RowVar 1).
Definition cyclic_right : Type_ := AnonRecord [(1%N, AnonRecord [(7%N, Int)] (RowVar 1)); (2%N, Var 0)] Closed.

(** The row is looked for in what is left over as it was before: it
    unifies without a fault, and then stands for a type that holds itself,
    which [apply] never comes to the end of. *)
Lemma open_row_of_itself : ∃ c', unify_types no_tables 10 cyclic_left cyclic_right (unbound_vars 2) = Some (inl tt, c') ∧
  ∀ n, apply n c' cyclic_left = None.
Proof.
  destruct (unify_types no_tables 10 cyclic_left cyclic_right (unbound_vars 2)) as [[[[]|] c']|] eqn:E; vm_compute in E; try discriminate E.
  injection E as <-. eexists. split; [reflexivity|].
  match goal with |- ∀ n, apply n ?c _ = None => set (c' := c) end.
  assert (slot c' 0 = Some (Some (AnonRecord [(7%N, Int)] (RowVar 1))) ∧ slot c' 1 = Some (Some (AnonRecord [(2%N, Var 0)] Closed))) as [H0 H1] by done.
  clearbody c'. assert (∀ n, (∀ k, (k ≤ n)%nat → apply k c' (Var 0) = None)) as H.
  { induction n as [|n IH]; intros k Hk; [by assert (k = 0%nat) as -> by lia|]. destruct k as [|k]; [done|]. cbn [apply]. rewrite H0.
    destruct k as [|k]; [done|]. cbn [apply]. unfold mapM_values. cbn [mapM mbind option_bind fst snd]. rewrite H1.
    destruct k as [|k]; [done|]. cbn [apply]. unfold mapM_values. cbn [mapM mbind option_bind fst snd].
    by rewrite IH by lia. }
  intros [|n]; [done|]. unfold cyclic_left. cbn [apply]. unfold mapM_values. cbn [mapM mbind option_bind fst snd]. by rewrite (H n) by lia.
Qed.
