(* ===== verification/TypesClaims.v ===== *)
(** * The functions on types are right (src/types/mod.rs, canonical.rs)

    Instances of a type, annotation variables put in and taken out, and
    canonical forms; and where the registry of associated types is wrong. *)

From S2P Require Import Prelude Types TypesFacts Unify UnifyFacts.

(** ** Instances *)
Definition assignment (stands : Stands) (v : TyVar) : Type_ := default (Var v) (stands !! v).

(** The types [instance_of] goes into: no projections, and records without
    rows. *)
Definition firm_node (t : Type_) : bool :=
  match t with AssocProj _ _ _ => false | AnonRecord _ tail => bool_decide (tail = Closed) | _ => true end.
Definition firm : Type_ → bool := all_nodes firm_node.

(** What a question about an instance answers and keeps. *)
Record finds (g a : Type_) (s : Stands) (b : bool) (s' : Stands) : Prop := {
  fd_more v t : s !! v = Some t → s' !! v = Some t;
  fd_all : b = true → ∀ v, occurs_in v g = true → is_Some (s' !! v);
  fd_same : b = true → normal a = true → hom (assignment s') id g = a;
  fd_finds θ : all_nodes (λ u, match u with App _ _ => false | _ => true end) g = true →
    (∀ v t, s !! v = Some t → θ v = t) → hom θ id g = a → b = true ∧ ∀ v t, s' !! v = Some t → θ v = t;
}.

Lemma assignment_more g s s' : (∀ v, occurs_in v g = true → is_Some (s !! v)) → (∀ v t, s !! v = Some t → s' !! v = Some t) →
  plain g = true → hom (assignment s) id g = hom (assignment s') id g.
Proof.
  intros Hall Hmore Hp. apply hom_ext; [done| |done]. intros v Hv. destruct (Hall v Hv) as [t Ht]. unfold assignment.
  by rewrite Ht, (Hmore v t Ht).
Qed.

(** The same of lists. *)
Record finds_all (g a : list Type_) (s : Stands) (b : bool) (s' : Stands) : Prop := {
  fa_more v t : s !! v = Some t → s' !! v = Some t;
  fa_all : b = true → ∀ v, existsb (occurs_in v) g = true → is_Some (s' !! v);
  fa_same : b = true → Forall (λ x, normal x = true) a → map (hom (assignment s') id) g = a;
  fa_finds θ : Forall (λ x, all_nodes (λ u, match u with App _ _ => false | _ => true end) x = true) g →
    (∀ v t, s !! v = Some t → θ v = t) → map (hom θ id) g = a → b = true ∧ ∀ v t, s' !! v = Some t → θ v = t;
}.

Lemma zip_all_finds g : Forall (λ x, plain x = true ∧ ∀ a s, finds x a s (instance_of x a s).1 (instance_of x a s).2) g →
  ∀ a s, length g = length a → finds_all g a s (zip_all instance_of g a s).1 (zip_all instance_of g a s).2.
Proof.
  induction 1 as [|x g [Hp Hx] _ IH]; intros [|y a] s Hlen; try done; cbn [zip_all].
  specialize (Hx y s). destruct (instance_of x y s) as [b s1] eqn:E. cbn [fst snd] in Hx. destruct b.
  - specialize (IH a s1 ltac:(cbn in Hlen; lia)). destruct (zip_all instance_of g a s1) as [b s2]. cbn [fst snd] in *. split.
    + intros v t Hv. by apply (fa_more _ _ _ _ _ IH), (fd_more _ _ _ _ _ Hx).
    + intros Hb v. cbn. rewrite orb_true_iff. intros [Hv|Hv]; [|by apply (fa_all _ _ _ _ _ IH)].
      destruct (fd_all _ _ _ _ _ Hx eq_refl v Hv) as [t Ht]. exists t. by apply (fa_more _ _ _ _ _ IH).
    + intros Hb [Hy Ha]%Forall_cons. cbn. rewrite (fa_same _ _ _ _ _ IH Hb Ha). f_equal.
      rewrite <-(assignment_more x s1 s2); [by apply (fd_same _ _ _ _ _ Hx)|by apply (fd_all _ _ _ _ _ Hx)|by apply (fa_more _ _ _ _ _ IH)|done].
    + intros θ [Hnx Hng]%Forall_cons Hs [= E1 E2]. destruct (fd_finds _ _ _ _ _ Hx θ Hnx Hs E1) as [_ Hs1]. by apply (fa_finds _ _ _ _ _ IH).
  - cbn [fst snd]. split; try done; [apply (fd_more _ _ _ _ _ Hx)|]. intros θ [Hnx Hng]%Forall_cons Hs [= E1 E2].
    by destruct (fd_finds _ _ _ _ _ Hx θ Hnx Hs E1).
Qed.
Lemma all_instances_finds g : Forall (λ x, plain x = true ∧ ∀ a s, finds x a s (instance_of x a s).1 (instance_of x a s).2) g →
  ∀ a s, finds_all g a s (all_instances instance_of g a s).1 (all_instances instance_of g a s).2.
Proof.
  intros H a s. unfold all_instances. destruct (length g =? length a)%nat eqn:E; [apply Nat.eqb_eq in E; by apply zip_all_finds|].
  split; try done. intros θ _ _ Em. apply (f_equal length) in Em. rewrite length_map in Em. by apply Nat.eqb_neq in E.
Qed.

Lemma finds_parts g a s b s' : is_leaf g = false → plain g = true → a = rebuild g (children a) →
  finds_all (children g) (children a) s b s' → finds g a s b s'.
Proof.
  intros Hl Hp Ha H. split.
  - apply H.
  - intros Hb v Hv. apply (fa_all _ _ _ _ _ H Hb). apply occurs_parts in Hv as [->|(u & Hu & Hv)]; [done| |done].
    apply existsb_Exists_true. eauto.
  - intros Hb [_ Hn]%all_nodes_parts. rewrite hom_rebuild, (fa_same _ _ _ _ _ H Hb Hn) by done. done.
  - intros θ [_ Hn]%all_nodes_parts Hs E. apply (fa_finds _ _ _ _ _ H θ Hn Hs).
    rewrite hom_rebuild in E by done. rewrite <-E, rebuild_parts by (by rewrite length_map). done.
Qed.
Lemma finds_false g a s s' : (∀ v t, s !! v = Some t → s' !! v = Some t) →
  (∀ θ, all_nodes (λ u, match u with App _ _ => false | _ => true end) g = true → hom θ id g ≠ a) → finds g a s false s'.
Proof. intros Hm Hn. split; try done. intros θ Hf _ E. by destruct (Hn θ Hf). Qed.
Lemma finds_equal g a s : children g = [] → is_leaf g = false ∨ (∃ r, g = Rigid r) → plain g = true → finds g a s (type_eqb g a) s.
Proof.
  intros Hc Hl Hp. assert (∀ τ, hom τ id g = g) as Hg.
  { intros τ. destruct Hl as [Hl|[r ->]]; [|done]. rewrite hom_rebuild, Hc by done. rewrite <-(rebuild_children g) at 2. by rewrite Hc. }
  split; [done|..].
  - intros Hb v Hv. apply occurs_parts in Hv as [->|(u & Hu & _)]; [|rewrite Hc in Hu; set_solver|done]. by destruct Hl as [|[]].
  - intros Hb%type_eqb_true _. by rewrite Hg.
  - intros θ _ Hs E. rewrite Hg in E. split; [by apply type_eqb_true|done].
Qed.

Lemma instance_one x y s : instance_of x y s = all_instances instance_of [x] [y] s.
Proof. cbn. by destruct (instance_of x y s) as [[] s']. Qed.
Lemma instance_two x y z w s : (let '(b, s) := instance_of x z s in if b then instance_of y w s else (false, s)) = all_instances instance_of [x; y] [z; w] s.
Proof. cbn. destruct (instance_of x z s) as [[] s1]; [|done]. by destruct (instance_of y w s1) as [[] s2]. Qed.
Lemma instance_last g x a y s : (let '(b, s) := all_instances instance_of g a s in if b then instance_of x y s else (false, s)) =
  all_instances instance_of (g ++ [x]) (a ++ [y]) s.
Proof.
  unfold all_instances. rewrite !length_app. cbn [length]. rewrite !Nat.add_1_r. cbn [Nat.eqb]. destruct (_ =? _)%nat eqn:E; [|done].
  apply Nat.eqb_eq in E. revert a s E. induction g as [|z g IH]; intros [|w a] s E; try done; cbn [zip_all app].
  - by destruct (instance_of x y s) as [[] s1].
  - destruct (instance_of z w s) as [[] s1]; [|done]. apply IH. by injection E.
Qed.
Lemma zip_fields_zip g : ∀ a s, g.*1 = a.*1 → zip_fields instance_of g a s = zip_all instance_of g.*2 a.*2 s.
Proof.
  induction g as [|[k x] g IH]; intros [|[j y] a] s E; try done. cbn in E. injection E as -> E. cbn. rewrite N.eqb_refl.
  destruct (instance_of x y s) as [[] s1]; [|done]. by apply IH.
Qed.
Lemma zip_fields_other g : Forall (λ x, ∀ a s v t, s !! v = Some t → (instance_of x a s).2 !! v = Some t) g.*2 →
  ∀ a s, length g = length a → g.*1 ≠ a.*1 → (zip_fields instance_of g a s).1 = false ∧
    ∀ v t, s !! v = Some t → (zip_fields instance_of g a s).2 !! v = Some t.
Proof.
  induction g as [|[k x] g IH]; intros Hg [|[j y] a] s Hlen Hne; try done. cbn in *. apply Forall_cons in Hg as [Hx Hg].
  destruct (k =? j)%N eqn:E; [|done]. apply N.eqb_eq in E as ->. specialize (Hx y s). destruct (instance_of x y s) as [[] s1]; [|done].
  destruct (IH Hg a s1) as [Hf Hm]; [by injection Hlen|congruence|]. split; [done|]. intros v t Ht. by apply Hm, Hx.
Qed.

Lemma finds_var v a s : finds (Var v) a s (instance_of (Var v) a s).1 (instance_of (Var v) a s).2.
Proof.
  cbn [instance_of]. destruct (s !! v) as [known|] eqn:E; cbn [fst snd].
  - split; [done|..].
    + intros _ w Hw. cbn in Hw. apply Nat.eqb_eq in Hw as <-. eauto.
    + intros <-%type_eqb_true _. cbn. unfold assignment. by rewrite E.
    + intros θ _ Hs <-. split; [|done]. apply type_eqb_true. symmetry. by apply Hs.
  - split.
    + intros w t Hw. rewrite lookup_insert_ne; [done|congruence].
    + intros _ w Hw. cbn in Hw. apply Nat.eqb_eq in Hw as <-. rewrite lookup_insert_eq. eauto.
    + intros _ _. cbn. unfold assignment. by rewrite lookup_insert_eq.
    + intros θ _ Hs <-. split; [done|]. intros w t. destruct (decide (v = w)) as [->|]; [rewrite lookup_insert_eq; by intros [= <-]|].
      rewrite lookup_insert_ne by done. apply Hs.
Qed.
Lemma finds_app g1 g2 a1 a2 s b s' : finds_all [g1; g2] [a1; a2] s b s' → finds (App g1 g2) (App a1 a2) s b s'.
Proof.
  intros H. split; [apply H|..].
  - intros Hb v Hv. apply (fa_all _ _ _ _ _ H Hb). cbn in *. by rewrite orb_false_r.
  - intros Hb Hn. pose proof Hn as [Hna Hnc]%all_nodes_parts. pose proof (fa_same _ _ _ _ _ H Hb Hnc) as [= E1 E2]. cbn. rewrite E1, E2. by destruct a1.
  - intros θ Hn. by apply all_nodes_parts in Hn as [Hn _].
Qed.

Lemma instance_of_finds g : plain g = true → firm g = true → ∀ a s, finds g a s (instance_of g a s).1 (instance_of g a s).2.
Proof.
  tree_induction g. intros Hp Hf a s. pose proof Hp as [_ Hpc]%all_nodes_parts. pose proof Hf as [Hfn Hfc]%all_nodes_parts.
  assert (Forall (λ x, plain x = true ∧ ∀ a s, finds x a s (instance_of x a s).1 (instance_of x a s).2) (children g)) as Hc.
  { rewrite Forall_forall in *. intros x Hx. split; [by apply Hpc|]. apply IH; auto. }
  pose proof (all_instances_finds _ Hc) as Hall. clear IH Hpc Hfc.
  assert ((∃ v, g = Var v) ∨ ∀ v, g ≠ Var v) as [[v ->]|Hnv] by (destruct g; eauto; by right); [apply finds_var|].
  assert (∀ fields tail, g = AnonRecord fields tail → tail = Closed) as Htail.
  { intros fields tail ->. cbn in Hfn. by apply bool_decide_eq_true in Hfn. }
  assert (∀ l b, is_leaf g = false → a = rebuild g (children a) → children a = l →
    b = all_instances instance_of (children g) l s → finds g a s b.1 b.2) as Hparts.
  { intros l b Hl Ha <- ->. by apply finds_parts. }
  destruct g, a; try (by destruct (Hnv _ eq_refl)); try discriminate Hfn; try (by apply finds_equal; eauto).
  all: try (rewrite (Htail _ _ eq_refl) in *; clear Htail).
  all: try (by apply finds_false; [done|by intros θ _ E]).
  all: try (by apply finds_false; [done|by intros θ Hn E; apply all_nodes_parts in Hn as [Hn _]]).
  all: cbn [instance_of fst snd].
  all: try (by eapply Hparts; [..|apply instance_one]).
  all: try (by eapply Hparts; [..|apply instance_two]).
  - eapply Hparts; [done|symmetry; apply (rebuild_children (Fun params0 a))|done|apply instance_last].
  - by eapply Hparts.
  - destruct (name =? name0)%N eqn:E; [apply N.eqb_eq in E as ->; by eapply Hparts|].
    apply finds_false; [done|]. intros θ _ [= En _]. by apply N.eqb_neq in E.
  - assert (∀ t, t ≠ Closed → type_eqb (AnonRecord fields Closed) (AnonRecord fields0 t) = false) as Hneq.
    { intros t Ht. apply not_true_iff_false. rewrite type_eqb_true. congruence. }
    destruct tail0; [|by rewrite Hneq; [apply finds_false; [done|by intros θ _ [=]]|]..]. destruct (length fields =? length fields0)%nat eqn:El.
    2: { apply finds_false; [done|]. intros θ _ [= E]. apply Nat.eqb_neq in El. apply El. by rewrite <-E, length_map. }
    apply Nat.eqb_eq in El. destruct (decide (fields.*1 = fields0.*1)) as [Ek|Hne].
    + rewrite zip_fields_zip by done. eapply Hparts; [done| |done|].
      * cbn. f_equal. clear -Ek. revert fields0 Ek. induction fields as [|[j x] f1 IHf]; intros [|[j2 y] f2]; try done. intros [= -> Ek]. cbn. by rewrite <-IHf.
      * cbn [children]. unfold all_instances. by rewrite (proj2 (Nat.eqb_eq _ _)) by (by rewrite !length_fmap).
    + destruct (zip_fields_other fields) with (a := fields0) (s := s) as [Hb Hm]; [|done|done|].
      * eapply Forall_impl; [exact Hc|]. intros x [_ Hx] a' s' v t. apply (fd_more _ _ _ _ _ (Hx a' s')).
      * rewrite Hb. apply finds_false; [exact Hm|]. intros θ _ [= E]. apply Hne. by rewrite <-E, map_fst.
  - apply finds_app. cbn [children] in Hall. rewrite instance_two. apply Hall.
  - case_bool_decide as E; [subst; by eapply Hparts|]. apply finds_false; [done|]. by intros θ _ [= En _].
Qed.

(** C26. Of a general type without projections whose records are closed, and a
    type in normal form, [instance_of] answers yes only of instances, and
    keeps the types that make the general type the other one; where also no
    constructor is applied that stands for an unknown one, it answers yes of
    every instance. *)
Theorem instance_of_correct g a : plain g = true → firm g = true → normal a = true →
  let '(b, stands) := instance_of g a ∅ in
  (b = true → hom (assignment stands) id g = a) ∧
  (all_nodes (λ u, match u with App _ _ => false | _ => true end) g = true →
    (b = true ↔ ∃ θ, hom θ id g = a) ∧ ∀ θ, hom θ id g = a → ∀ v t, stands !! v = Some t → θ v = t).
Proof.
  intros Hp Hf Hn. pose proof (instance_of_finds g Hp Hf a ∅) as H. destruct (instance_of g a ∅) as [b s]. cbn in H. split.
  - intros Hb. by apply (fd_same _ _ _ _ _ H).
  - intros Happ. split; [split|].
    + intros Hb. exists (assignment s). by apply (fd_same _ _ _ _ _ H).
    + intros [θ E]. by destruct (fd_finds _ _ _ _ _ H θ Happ).
    + intros θ E. by destruct (fd_finds _ _ _ _ _ H θ Happ).
Qed.
Lemma instance_of_correct_witness : let '(b, stands) := instance_of (Fun [Var 0] (Var 1)) (Fun [Int] (List Int)) ∅ in
  (b = true → hom (assignment stands) id (Fun [Var 0] (Var 1)) = Fun [Int] (List Int)) ∧
  (all_nodes (λ u, match u with App _ _ => false | _ => true end) (Fun [Var 0] (Var 1)) = true →
    (b = true ↔ ∃ θ, hom θ id (Fun [Var 0] (Var 1)) = Fun [Int] (List Int)) ∧
    ∀ θ, hom θ id (Fun [Var 0] (Var 1)) = Fun [Int] (List Int) → ∀ v t, stands !! v = Some t → θ v = t).
Proof. apply (instance_of_correct (Fun [Var 0] (Var 1)) (Fun [Int] (List Int))); reflexivity. Defined.

(** ** Substitution *)
Lemma eventually_substitute_parts m t : plain t = true →
  Forall (λ u, eventually (λ n, substitute_vars n m u) (hom (assignment m) id u)) (children t) →
  eventually (λ n, substitute_vars n m t) (hom (assignment m) id t).
Proof.
  intros Hp Hc. destruct t as [| | | | |v|r|params ret|x|ts|n ts|a b|x|x| | |x tr n|fields tail|a b|h ts]; cbn [children] in Hc;
    rewrite ?Forall_app, ?Forall_cons in Hc; splits.
  all: apply eventually_succ; cbn [substitute_vars hom].
  all: try apply eventually_ret.
  all: try (by apply eventually_fmap).
  all: try (by apply eventually_fmap, eventually_mapM).
  all: try (by repeat (eapply eventually_bind; [eassumption|]); apply eventually_ret).
  - eapply eventually_bind; [by apply eventually_mapM|]. eapply eventually_bind; [eassumption|]. apply eventually_ret.
  - eapply eventually_bind; [by apply (eventually_values _ (hom (assignment m) id))|]. apply all_nodes_parts in Hp as [Hp _]. cbn in Hp.
    destruct tail; try done; apply eventually_ret.
Qed.
Lemma eventually_substitute m t : plain t = true → eventually (λ n, substitute_vars n m t) (hom (assignment m) id t).
Proof.
  tree_induction t. intros Hp. apply eventually_substitute_parts; [done|]. rewrite Forall_forall in *. intros u Hu.
  apply IH; [done|by apply (plain_parts t)].
Qed.

(** ** Canonical forms *)
Section canonical.
Context (builtin_type_id : string → option TypeRef) (r : Resolver).
Notation canonical := (λ t u, eventually (λ n, canonicalize builtin_type_id n r t) u).

(** Aliases that are given in terms of lower ones only; a constructor with
    no arguments yet is not one. *)
Context (rank : TypeRef → nat).
Definition is_alias (n : TypeRef) : bool := bool_decide (is_Some (aliases r !! n)).
Definition below_node (k : nat) (t : Type_) : bool :=
  match t with
  | Generic n _ => negb (is_alias n) || (rank n <? k)%nat
  | Con (Named n) _ => negb (is_alias n)
  | _ => true
  end.
Definition below (k : nat) : Type_ → bool := all_nodes (below_node k).
Definition ranked : Prop := ∀ n info, aliases r !! n = Some info → plain (target info) = true ∧ below (rank n) (target info) = true.

Lemma stable_below k : stable (below_node k).
Proof.
  split; [done| |].
  - intros [] l; try done; try (by destruct l as [|? [|? [|]]]).
  - intros head arg. apply applied_nodes; [|done]. intros h rest Hp. split; [|by left]. destruct h; try done. cbn in *. by rewrite Hp.
Qed.
Lemma not_alias n : is_alias n = false → lookup_alias r n = None.
Proof. unfold is_alias, lookup_alias. intros H%bool_decide_eq_false. by apply eq_None_not_Some. Qed.

(** A canonical form. *)
Record form (u : Type_) : Prop := { fm_plain : plain u = true; fm_normal : normal u = true; fm_below : below 0 u = true }.

Lemma form_fixed u : form u → canonical u u.
Proof.
  tree_induction u. intros [Hp Hn Hb]. pose proof Hp as [_ Hpc]%all_nodes_parts. pose proof Hn as [Hnn Hnc]%all_nodes_parts.
  pose proof Hb as [Hbn Hbc]%all_nodes_parts.
  assert (Forall (λ x, canonical x x) (children u)) as Hc by (rewrite Forall_forall in *; intros x Hx; apply IH; [done|split; [by apply Hpc|by apply Hnc|by apply Hbc]]).
  clear IH Hpc Hnc Hbc Hn Hb.
  destruct u as [| | | | |v|q|params ret|x|ts|n ts|a b|x|x| | |x tr n|fields tail|a b|h ts]; cbn [children] in Hc;
    rewrite ?Forall_app, ?Forall_cons in Hc; splits.
  all: apply eventually_succ; cbn [canonicalize].
  all: try apply eventually_ret.
  all: try (by apply (eventually_fmap _ _ x)).
  all: try (by repeat (eapply eventually_bind; [eassumption|]); apply eventually_ret).
  all: assert (∀ l, Forall (λ x, canonical x x) l → eventually (λ n, mapM (canonicalize builtin_type_id n r) l) l) as Hl
    by (clear; intros l Hl; pose proof (eventually_mapM (λ n, canonicalize builtin_type_id n r) (λ x, x) l Hl) as H; by rewrite map_id in H).
  - eapply eventually_bind; [by apply Hl|]. eapply eventually_bind; [eassumption|]. apply eventually_ret.
  - by apply eventually_fmap, Hl.
  - cbn in Hbn. rewrite orb_false_r in Hbn. apply negb_true_iff, not_alias in Hbn. rewrite Hbn. by apply eventually_fmap, Hl.
  - done.
  - eapply eventually_bind; [by apply (eventually_values (λ n, canonicalize builtin_type_id n r) (λ x, x))|].
    replace (map (λ p, (p.1, p.2)) fields) with fields; [apply eventually_ret|]. clear. induction fields as [|[k x] l IHl]; cbn; congruence.
  - eapply eventually_bind; [eassumption|]. eapply eventually_bind; [eassumption|]. replace (App a b) with (applied a b) at 1; [apply eventually_ret|by destruct a].
  - by apply eventually_fmap, Hl.
Qed.

Lemma canonical_lists l : Forall (λ t, ∃ u, canonical t u ∧ form u) l →
  ∃ us, eventually (λ n, mapM (canonicalize builtin_type_id n r) l) us ∧ Forall form us ∧ length us = length l.
Proof.
  induction 1 as [|t l (u & Ht & Hu) _ (us & Hl & Hus & Hlen)]; [exists []; split_and!; [apply eventually_ret|done..]|].
  exists (u :: us). split_and!; [|by constructor|cbn; lia]. cbn [mapM]. eapply eventually_bind; [exact Ht|]. eapply eventually_bind; [exact Hl|]. apply eventually_ret.
Qed.
Lemma form_intro t : is_leaf t = false → plain_node t = true → below_node 0 t = true → Forall form (children t) → form t.
Proof.
  intros Hl Hp Hb Hc. split; apply all_nodes_parts; (split; [first [done|by destruct t]|]); (eapply Forall_impl; [exact Hc|]); by intros ? [].
Qed.
Lemma form_applied a b : form a → form b → form (applied a b).
Proof. intros [] []. split; apply st_applied; auto using stable_below with silt. Qed.

Ltac form_parts := apply form_intro; [done..|repeat (apply Forall_cons_2; [assumption|]); apply Forall_nil_2].
Lemma mapM_values_refill (f : Type_ → option Type_) fields : ∀ us, mapM f fields.*2 = Some us → mapM_values f fields = Some (refill fields us).
Proof.
  unfold mapM_values. induction fields as [|[k x] fields IH]; intros us; cbn; [by intros [= <-]|].
  destruct (f x) as [u|]; [|done]. cbn. destruct (mapM f fields.*2) as [us'|]; [|done]. cbn. intros [= <-]. by rewrite (IH us' eq_refl).
Qed.

(** The arguments of an alias put into what it stands for. *)
Lemma below_expand k info us : ranked → is_Some (aliases r !! k) → aliases r !! k = Some info → Forall form us →
  let t := hom (assignment (list_to_map (reverse (zip (param_var_ids info) us)))) id (target info) in
  plain t = true ∧ below (rank k) t = true.
Proof.
  intros Hr _ Hi Hus. destruct (Hr k info Hi) as [Hp Hb]. set (m := list_to_map (reverse (zip (param_var_ids info) us))).
  assert (∀ v, form (assignment m v)) as Hm.
  { intros v. unfold assignment. destruct (m !! v) as [u|] eqn:E; [|by split]. cbn. apply elem_of_list_to_map_2 in E.
    rewrite elem_of_reverse in E. apply elem_of_zip_r in E. rewrite Forall_forall in Hus. auto. }
  split.
  - apply plain_hom; [|done]. intros v. apply Hm.
  - apply all_nodes_hom; [apply stable_below|eapply all_nodes_mono; [|exact Hb]; by intros u ->; rewrite orb_true_r|].
    apply all_nodes_vars. intros v. apply (all_nodes_mono (below_node 0)); [|apply fm_below, Hm]. intros u Hu; destruct u; try done. cbn [below_node] in *. by destruct (is_alias _).
Qed.

Lemma canonical_ends k : ranked → ∀ t, plain t = true → below k t = true → ∃ u, canonical t u ∧ form u.
Proof.
  intros Hr. induction k as [k IHk] using lt_wf_ind. intros t. tree_induction t. intros Hp Hb.
  pose proof Hp as [Hpn Hpc]%all_nodes_parts. pose proof Hb as [Hbn Hbc]%all_nodes_parts.
  assert (Forall (λ x, ∃ u, canonical x u ∧ form u) (children t)) as Hc by (rewrite Forall_forall in *; intros x Hx; apply IH; [done|by apply Hpc|by apply Hbc]).
  clear IH. pose proof (canonical_lists _ Hc) as (us & Hus & Hfus & Hlen).
  destruct t as [| | | | |v|q|params ret|x|ts|n ts|a b|x|x| | |x tr n|fields tail|a b|h ts]; cbn [children] in *.
  all: rewrite ?Forall_app, ?Forall_cons in Hc; splits.
  all: try (by eexists; split; [apply eventually_succ; cbn [canonicalize]; apply eventually_ret|split]).
  all: repeat match goal with H : ∃ u, _ |- _ => destruct H as (? & ? & ?) end.
  all: try (by eexists; split; [apply eventually_succ; cbn [canonicalize]; apply eventually_fmap; eassumption|form_parts]).
  - destruct (canonical_lists params ltac:(done)) as (ps & Hps & Hfps & _). eexists. split; [apply eventually_succ; cbn [canonicalize]|].
    { eapply eventually_bind; [exact Hps|]. eapply eventually_bind; [eassumption|]. apply eventually_ret. }
    apply form_intro; try done. cbn. apply Forall_app. split; [done|by apply Forall_singleton].
  - eexists. split; [apply eventually_succ; cbn [canonicalize]; apply eventually_fmap; exact Hus|by apply form_intro].
  - destruct (is_alias n) eqn:Ea.
    + unfold is_alias in Ea. apply bool_decide_eq_true in Ea as [info Hi].
      cbn in Hbn. unfold is_alias in Hbn. rewrite Hi, bool_decide_true in Hbn by eauto. cbn in Hbn. apply Nat.ltb_lt in Hbn.
      destruct (below_expand n info us) as [Hpe Hbe]; [done|eauto|done|done|].
      destruct (IHk (rank n) Hbn _ Hpe Hbe) as (u & Hu & Hfu). exists u. split; [|done]. apply eventually_succ. cbn [canonicalize].
      unfold lookup_alias. rewrite Hi. eapply eventually_bind; [exact Hus|]. eapply eventually_bind; [apply eventually_substitute, (Hr n info Hi)|]. exact Hu.
    + eexists. split; [apply eventually_succ; cbn [canonicalize]; rewrite (not_alias n Ea); apply eventually_fmap; exact Hus|].
      apply form_intro; try done. cbn. by rewrite Ea.
  - eexists. split; [apply eventually_succ; cbn [canonicalize]; do 2 (eapply eventually_bind; [eassumption|]); apply eventually_ret|].
    form_parts.
  - done.
  - exists (AnonRecord (refill fields us) tail). split.
    + apply eventually_succ. cbn [canonicalize]. eapply eventually_bind; [|apply eventually_ret].
      destruct Hus as [n0 Hus]. exists n0. intros k' Hk'. by apply mapM_values_refill, Hus.
    + apply form_intro; try done; cbn [children plain_node]; [by rewrite refill_fst|by rewrite refill_snd].
  - eexists. split; [apply eventually_succ; cbn [canonicalize]; do 2 (eapply eventually_bind; [eassumption|]); apply eventually_ret|]. by apply form_applied.
  - eexists. split; [apply eventually_succ; cbn [canonicalize]; apply eventually_fmap; exact Hus|]. by apply form_intro; [| |destruct h|].
Qed.
End canonical.

(** C27. Where aliases are given in terms of lower ones only, and neither they
    nor the type holds an open row or a projection of an associated type,
    the canonical form of the type is there: no alias is left in it, it is
    its own canonical form, and [types_equal] takes the two for one type.
    (Of projections it is false: [bindings_go_round] below.) *)
Theorem canonicalize_ends builtin_type_id r rank k t : ranked r rank → plain t = true → below r rank k t = true →
  ∃ u, eventually (λ n, canonicalize builtin_type_id n r t) u ∧ eventually (λ n, canonicalize builtin_type_id n r u) u ∧
    all_nodes (λ v, match v with Generic n _ => negb (is_alias r n) | _ => true end) u = true ∧
    eventually (λ n, types_equal builtin_type_id n r t u) true.
Proof.
  intros Hr Hp Hb. destruct (canonical_ends builtin_type_id r rank k Hr t Hp Hb) as (u & Hu & Hf). exists u.
  pose proof (form_fixed builtin_type_id r rank u Hf) as Hfix. split_and!; [done|done| |].
  - apply (all_nodes_mono (below_node r rank 0)); [|by apply (fm_below r rank)]. intros v Hv. destruct v; try done. cbn [below_node] in Hv. by destruct (is_alias r _).
  - unfold types_equal. eapply eventually_bind; [exact Hu|]. eapply eventually_bind; [exact Hfix|].
    rewrite (proj2 (type_eqb_true u u) eq_refl). apply eventually_ret.
Qed.

(** An alias of pairs, and one of lists of them. *)
Definition sample_aliases : Resolver :=
  register_alias 20%N (mkAlias [7%nat] (List (Generic 10%N [Var 7; Int])))
    (register_alias 10%N (mkAlias [5; 6]%nat (Tuple [Var 5; Var 6])) (mkResolver ∅ ∅)).
Lemma sample_ranked : ranked sample_aliases N.to_nat.
Proof.
  intros n info. unfold sample_aliases, register_alias. cbn [aliases]. destruct (decide (n = 20%N)) as [->|Hn].
  - rewrite lookup_insert_eq. intros [= <-]. split; vm_compute; reflexivity.
  - rewrite lookup_insert_ne by done. destruct (decide (n = 10%N)) as [->|Hn'].
    + rewrite lookup_insert_eq. intros [= <-]. split; vm_compute; reflexivity.
    + by rewrite lookup_insert_ne by done.
Qed.
Lemma canonicalize_ends_witness : ∃ u, eventually (λ n, canonicalize (λ _, None) n sample_aliases (Generic 20%N [Bool])) u ∧
  eventually (λ n, canonicalize (λ _, None) n sample_aliases u) u ∧
  all_nodes (λ v, match v with Generic n _ => negb (is_alias sample_aliases n) | _ => true end) u = true ∧
  eventually (λ n, types_equal (λ _, None) n sample_aliases (Generic 20%N [Bool]) u) true.
Proof. apply (canonicalize_ends (λ _, None) sample_aliases N.to_nat 21 (Generic 20%N [Bool]) sample_ranked); vm_compute; reflexivity. Defined.

(** ** Associated types that go round

    [Item] of [Box(a)] is that of [List(Box(a))], and [Item] of [List(a)]
    is that of [a].  Each is registered without a cycle: the first before
    [List] has one, the second of a variable. *)
Definition box_ids (s : string) : option TypeRef :=
  if String.eqb s "List" then Some 1%N else if String.eqb s "Int" then Some 2%N else None.
Definition box (t : Type_) : Type_ := Generic 5%N [t].
Definition item (t : Type_) : Type_ := AssocProj t 9%N 3%N.
Definition box_then_list : option Registered :=
  first ← register_assoc_binding box_ids 10 9%N 5%N 3%N (item (List (box (Var 0)))) (box (Var 0)) (mkResolver ∅ ∅);
  match first with
  | Inserted r => register_assoc_binding box_ids 10 9%N 1%N 3%N (item (Var 1)) (List (Var 1)) r
  | Cycle _ _ => None
  end.

Section round.
Context (r : Resolver).
Hypothesis (Ha : aliases r = ∅) (Hb : assoc_bindings r !! (9%N, 5%N, 3%N) = Some (mkBinding (item (List (box (Var 0)))) (box (Var 0))))
  (Hl : assoc_bindings r !! (9%N, 1%N, 3%N) = Some (mkBinding (item (Var 1)) (List (Var 1)))).
Notation up_to t := (λ o : option Type_, o = None ∨ o = Some t).

Lemma canonical_box n : up_to (box Int) (canonicalize box_ids n r (box Int)).
Proof using Ha.
  destruct n as [|n]; [by left|]. cbn [canonicalize box]. unfold lookup_alias. rewrite Ha, lookup_empty.
  destruct n as [|n]; cbn; [by left|by right].
Qed.
Lemma canonical_list n : up_to (List (box Int)) (canonicalize box_ids n r (List (box Int))).
Proof using Ha.
  destruct n as [|n]; [by left|]. cbn [canonicalize]. destruct (canonical_box n) as [->| ->]; [by left|by right].
Qed.
Lemma head_itself n h : lookup_assoc_binding box_ids n r 9%N h 3%N = None ∨
  lookup_assoc_binding box_ids n r 9%N h 3%N = Some (assoc_bindings r !! (9%N, h, 3%N)).
Proof using Ha.
  destruct n as [|[|n]]; [by left|by left|]. cbn. right. unfold lookup_alias. by rewrite Ha, lookup_empty.
Qed.
Lemma substitute_box n : up_to (item (List (box Int))) (substitute_vars n {[0%nat := Int]} (item (List (box (Var 0))))).
Proof using. destruct n as [|[|[|[|n]]]]; first [by left|by right]. Qed.
Lemma substitute_item n : up_to (item (box Int)) (substitute_vars n {[1%nat := box Int]} (item (Var 1))).
Proof using. destruct n as [|[|n]]; first [by left|by right]. Qed.

(** No fuel is enough for what comes round to itself. *)
Lemma item_round n : canonicalize box_ids n r (item (box Int)) = None ∧ canonicalize box_ids n r (item (List (box Int))) = None.
Proof using All.
  induction n as [|n [IHb IHl]]; [done|]. split; cbn [canonicalize item].
  - destruct (canonical_box n) as [->| ->]; [done|]. cbn [mbind option_bind head_of_canon box].
    destruct (head_itself n 5%N) as [->| ->]; [done|]. rewrite Hb. cbn [mbind option_bind bound_of bound_ty].
    replace (instance_of (box (Var 0)) (box Int) ∅) with (true, {[0%nat := Int]} : gmap nat Type_) by (vm_compute; reflexivity).
    destruct (substitute_box n) as [->| ->]; [done|]. exact IHl.
  - destruct (canonical_list n) as [->| ->]; [done|]. cbn [mbind option_bind head_of_canon]. change (builtin_head box_ids "List") with (Some (Some 1%N)).
    cbn [mbind option_bind]. destruct (head_itself n 1%N) as [->| ->]; [done|]. rewrite Hl. cbn [mbind option_bind bound_of bound_ty].
    replace (instance_of (List (Var 1)) (List (box Int)) ∅) with (true, {[1%nat := box Int]} : gmap nat Type_) by (vm_compute; reflexivity).
    destruct (substitute_item n) as [->| ->]; [done|]. exact IHb.
Qed.
End round.
(** Both are accepted, and then no canonical form of [Item] of [Box(Int)]
    is ever found. *)
Lemma bindings_go_round : ∃ r, box_then_list = Some (Inserted r) ∧ ∀ n, canonicalize box_ids n r (item (box Int)) = None.
Proof.
  destruct box_then_list as [[r|]|] eqn:E; vm_compute in E; try discriminate E. injection E as <-.
  eexists. split; [reflexivity|]. match goal with |- ∀ n, canonicalize _ n ?r _ = None => set (r' := r) end.
  intros n. by apply (item_round r').
Qed.
