(* ===== verification/InitOrder.v ===== *)
(** * The order top-level definitions are initialised in
      (src/typechecker/init_order.rs)

    From what each node of a module's graph mentions: what each [let]
    needs, the ones that reach themselves, and the order.  A node is an
    index, 0 the code outside the module.  [None] is a panic (an index out
    of range, a key that is not there) or a loop that has not ended. *)

From S2P Require Import Prelude.
Open Scope nat_scope.

Notation Name := N (only parsing).
(** [plain] is what [plain_value] found of a [let]'s value: nothing when
    it runs something, else what the names it reads stand for. *)
Record Node := mkNode {
  name : Name;
  let_decl : bool;
  plain : option (list (option nat));
}.
(** The graph is given: how the nodes and what they mention come of the
    declarations is not modelled.  [named] is the name a [let] is mentioned by in another node;
    [bound_twice], the nodes whose names are bound twice. *)
Record Graph := mkGraph {
  nodes : list Node;
  edges : list (list nat);
  named : gmap (nat * nat) Name;
  bound_twice : list nat;
}.

Definition is_let (g : Graph) (n : nat) : bool := match nodes g !! n with Some node => let_decl node | None => false end.
Definition lets (g : Graph) : list nat := List.filter (is_let g) (seq 0 (length (nodes g))).

(** ** What a [let] reaches *)

(** Where each node was found from, and the nodes still to look at. *)
Record Search := mkSearch { from : gmap nat nat; queue : list nat }.
Definition note_target (node : nat) (s : Search) (target : nat) : Search :=
  match from s !! target with
  | Some _ => s
  | None => mkSearch (<[target := node]> (from s)) (queue s ++ [target])
  end.

(** The way back from [at_] to what was found from [start]. *)
Fixpoint walk_back (fuel : nat) (from : gmap nat nat) (start at_ : nat) (way : list nat) : option (list nat) :=
  match fuel with
  | O => None
  | S fuel =>
      p ← from !! at_;
      if p =? start then Some way else walk_back fuel from start p (way ++ [p])
  end.

Notation Ways := (gmap (nat * nat) (list nat)) (only parsing).
Fixpoint reach_loop (fuel : nat) (g : Graph) (start : nat) (s : Search) (reached : list nat) (ways : Ways) : option (list nat * Ways) :=
  match fuel with
  | O => None
  | S fuel =>
      match queue s with
      | [] => Some (reached, ways)
      | node :: rest =>
          found ← (if is_let g node then
                     way ← walk_back (S (size (from s))) (from s) start node [node];
                     Some (reached ++ [node], <[(start, node) := reverse way]> ways)
                   else Some (reached, ways));
          targets ← edges g !! node;
          reach_loop fuel g start (foldl (note_target node) (mkSearch (from s) rest) targets) found.1 found.2
      end
  end.

(** The [let]s a plain value reads. *)
Fixpoint reads_of (g : Graph) (start : nat) (reads : list (option nat)) (read : list nat) (ways : Ways) : list nat * Ways :=
  match reads with
  | [] => (read, ways)
  | Some target :: reads =>
      if is_let g target && negb (bool_decide (target ∈ read))
      then reads_of g start reads (read ++ [target]) (<[(start, target) := [target]]> ways)
      else reads_of g start reads read ways
  | None :: reads => reads_of g start reads read ways
  end.

Definition needs_of (g : Graph) (start : nat) (ways : Ways) : option (list nat * Ways) :=
  node ← nodes g !! start;
  match plain node with
  | Some reads => Some (reads_of g start reads [] ways)
  | None =>
      targets ← edges g !! start;
      reach_loop (S (length (nodes g))) g start (foldl (note_target start) (mkSearch ∅ []) targets) [] ways
  end.

Notation Needs := (gmap nat (list nat)) (only parsing).
Fixpoint all_needs (g : Graph) (starts : list nat) (needs : Needs) (ways : Ways) : option (Needs * Ways) :=
  match starts with
  | [] => Some (needs, ways)
  | start :: starts =>
      r ← needs_of g start ways;
      all_needs g starts (<[start := r.1]> needs) r.2
  end.

(** ** The rings *)

(** The needs of one [let] on the way back to [start]: it is found, or what
    is new is looked at later. *)
Fixpoint back_step (start at_ : nat) (ns : list nat) (s : Search) : gmap nat nat + Search :=
  match ns with
  | [] => inr s
  | next :: ns =>
      if next =? start then inl (<[start := at_]> (from s))
      else back_step start at_ ns (note_target at_ s next)
  end.
Fixpoint back_loop (fuel : nat) (needs : Needs) (start : nat) (s : Search) : option (option (gmap nat nat)) :=
  match fuel with
  | O => None
  | S fuel =>
      match queue s with
      | [] => Some None
      | at_ :: rest =>
          ns ← needs !! at_;
          match back_step start at_ ns (mkSearch (from s) rest) with
          | inl from => Some (Some from)
          | inr s => back_loop fuel needs start s
          end
      end
  end.

(** The ring from [start] back to it, last first. *)
Fixpoint walk_ring (fuel : nat) (from : gmap nat nat) (start at_ : nat) (ring : list nat) : option (list nat) :=
  match fuel with
  | O => None
  | S fuel =>
      if at_ =? start then Some (ring ++ [start])
      else p ← from !! at_; walk_ring fuel from start p (ring ++ [at_])
  end.

(** The way round, through the nodes between. *)
Fixpoint way_round (ways : Ways) (ring : list nat) : option (list nat) :=
  match ring with
  | a :: (b :: _) as rest => way ← ways !! (a, b); more ← way_round ways rest; Some (way ++ more)
  | _ => Some []
  end.

Fixpoint names_of (g : Graph) (way : list nat) : option (list Name) :=
  match way with
  | a :: (b :: _) as rest =>
      node ← nodes g !! b;
      let n := match named g !! (a, b) with
               | Some n => if let_decl node then n else name node
               | None => name node
               end in
      more ← names_of g rest;
      Some (n :: more)
  | _ => Some []
  end.

(** That a [let] needs its own value: its name, and the way round. *)
Record CycleReport := mkCycle { at_let : nat; own : Name; round : list Name }.

Definition ring_of (g : Graph) (needs : Needs) (ways : Ways) (start : nat) : option (option (list nat)) :=
  found ← back_loop (S (length (nodes g))) needs start (mkSearch ∅ [start]);
  match found with
  | None => Some None
  | Some from =>
      first ← from !! start;
      ring ← walk_ring (S (size from)) from start first [start];
      way ← way_round ways (reverse ring);
      Some (Some (start :: way))
  end.
Fixpoint rings (g : Graph) (needs : Needs) (ways : Ways) (starts : list nat) (in_ring : gset nat) (reports : list CycleReport)
    : option (gset nat * list CycleReport) :=
  match starts with
  | [] => Some (in_ring, reports)
  | start :: starts =>
      if bool_decide (start ∈ in_ring) then rings g needs ways starts in_ring reports
      else
        found ← ring_of g needs ways start;
        match found with
        | None => rings g needs ways starts in_ring reports
        | Some way =>
            names ← names_of g way;
            let own := default 0%N (last names) in
            let in_ring := list_to_set (List.filter (is_let g) way) ∪ in_ring in
            if existsb (λ n, bool_decide (n ∈ bound_twice g)) way then rings g needs ways starts in_ring reports
            else rings g needs ways starts in_ring (reports ++ [mkCycle start own (own :: names)])
        end
  end.

(** ** The order *)

(** The heap of those ready: the first written of them. *)
Fixpoint least (l : list nat) : option nat :=
  match l with
  | [] => None
  | x :: l => Some match least l with Some y => x `min` y | None => x end
  end.
Fixpoint remove_one (x : nat) (l : list nat) : list nat :=
  match l with [] => [] | y :: l => if y =? x then l else y :: remove_one x l end.

(** One fewer to wait for. *)
Definition one_fewer (s : list nat * list nat) (dependent : nat) : option (list nat * list nat) :=
  w ← s.1 !! dependent;
  match w with
  | O => None
  | S w => Some (<[dependent := w]> s.1, if w =? 0 then s.2 ++ [dependent] else s.2)
  end.
Fixpoint tell_all (dependents : list nat) (s : list nat * list nat) : option (list nat * list nat) :=
  match dependents with [] => Some s | d :: ds => s ← one_fewer s d; tell_all ds s end.
Fixpoint order_loop (fuel : nat) (needed_by : list (list nat)) (s : list nat * list nat) (order : list nat) : option (list nat) :=
  match fuel with
  | O => None
  | S fuel =>
      match least s.2 with
      | None => Some order
      | Some k =>
          dependents ← needed_by !! k;
          s ← tell_all dependents (s.1, remove_one k s.2);
          order_loop fuel needed_by s (order ++ [k])
      end
  end.

(** Where each [let] is among the [let]s, and who needs it. *)
Definition place (ls : list nat) (n : nat) : option nat := fst <$> list_find (λ m, m = n) ls.
Definition push_need (needed_by : list (list nat)) (j k : nat) : list (list nat) := alter (λ l, l ++ [k]) j needed_by.
Fixpoint needed_by_of (ls : list nat) (k : nat) (needs : list (list nat)) (needed_by : list (list nat)) : option (list (list nat)) :=
  match needs with
  | [] => Some needed_by
  | ns :: needs =>
      js ← mapM (place ls) ns;
      needed_by_of ls (S k) needs (foldl (λ nb j, push_need nb j k) needed_by js)
  end.
Definition order_of (ls : list nat) (needs : Needs) : option (list nat) :=
  ns ← mapM (λ n, needs !! n) ls;
  let waits := length <$> ns in
  needed_by ← needed_by_of ls 0 ns (replicate (length ls) []);
  let ready := List.filter (λ k, match waits !! k with Some w => w =? 0 | None => false end) (seq 0 (length ls)) in
  order ← order_loop (S (length ls)) needed_by (waits, ready) [];
  mapM (λ k, ls !! k) order.

(** [init_order], from the graph on: the [let]s in order, those of a ring,
    and what is reported. *)
Record Initialised := mkInitialised { order : list nat; let_rings : gset nat; reports : list CycleReport }.
Definition init_order (g : Graph) : option Initialised :=
  match lets g with
  | [] => Some (mkInitialised [] ∅ [])
  | ls =>
      nw ← all_needs g ls ∅ ∅;
      r ← rings g nw.1 nw.2 ls ∅ [];
      let needs := (List.filter (λ n, negb (bool_decide (n ∈ r.1)))) <$> nw.1 in
      order ← order_of ls needs;
      Some (mkInitialised order r.1 r.2)
  end.
