(* ===== verification/InitOrderClaims.v ===== *)
(** * The order of initialisation is right (src/typechecker/init_order.rs)

    The searches find what a [let] needs and what needs itself; the order
    has each [let] once, after those it needs. *)

From stdpp Require Import finite.
From S2P Require Import Prelude InitOrder.
Open Scope nat_scope.

(** ** What is meant *)
Definition mentions (g : Graph) (a b : nat) : Prop := ∃ ts, edges g !! a = Some ts ∧ b ∈ ts.
Definition reads (g : Graph) (a b : nat) : Prop := ∃ node rs, nodes g !! a = Some node ∧ plain node = Some rs ∧ Some b ∈ rs.
(** A [let] needs another: it reads it, or what it runs reaches it. *)
Definition needs_let (g : Graph) (a b : nat) : Prop := is_let g b = true ∧
  match nodes g !! a with
  | Some node => match plain node with Some rs => Some b ∈ rs | None => tc (mentions g) a b end
  | None => False
  end.
Definition step (g : Graph) (a b : nat) : Prop := mentions g a b ∨ reads g a b.

Record well_formed (g : Graph) : Prop := {
  wf_edges : length (edges g) = length (nodes g);
  wf_targets a b : mentions g a b → b < length (nodes g);
  wf_reads a b : reads g a b → b < length (nodes g);
}.

(** ** Paths *)
Section paths.
Context (R : nat → nat → Prop).
Fixpoint chain (a : nat) (l : list nat) : Prop := match l with [] => True | b :: l => R a b ∧ chain b l end.

Lemma chain_over_app a l k : chain a (l ++ k) ↔ chain a l ∧ chain (default a (last l)) k.
Proof.
  revert a. induction l as [|b l IH]; intros a; cbn [app chain]; [naive_solver|]. rewrite IH.
  rewrite last_cons. destruct (last l); naive_solver.
Qed.
Lemma chain_over_snoc a l b : chain a (l ++ [b]) ↔ chain a l ∧ R (default a (last l)) b.
Proof. rewrite chain_over_app. cbn. naive_solver. Qed.
Lemma chain_reaches a l b : chain a l → b ∈ l → tc R a b.
Proof.
  revert a. induction l as [|c l IH]; intros a; cbn; [set_solver|]. intros [H1 H2] [->|Hb]%elem_of_cons; [by apply tc_once|].
  eapply tc_l; [exact H1|by apply IH].
Qed.
Lemma chain_on a l b : chain a l → b ∈ l → last l = Some a → tc R b b.
Proof.
  intros Hc Hb Hl. apply list_elem_of_split in Hb as (A & B & ->). apply chain_over_app in Hc as [HA [Hb HB]].
  assert (tc R a b) as Hab.
  { apply (chain_reaches a (A ++ [b])); [|set_solver]. by apply chain_over_snoc. }
  destruct B as [|x B]; [rewrite last_snoc in Hl; by injection Hl as ->|].
  etrans; [|exact Hab]. apply (chain_reaches b (x :: B)); [done|]. rewrite last_app_cons, last_cons_cons in Hl. by apply last_Some_elem_of in Hl.
Qed.
Lemma chain_between a l i j x y : chain a l → i < j → (a :: l) !! i = Some x → (a :: l) !! j = Some y → tc R x y.
Proof.
  revert a i j. induction l as [|b l IH]; intros a i j Hc Hij Hx Hy.
  - destruct j as [|j]; [lia|]. by destruct j.
  - destruct i as [|i].
    + injection Hx as ->. destruct j as [|j]; [lia|]. cbn in Hy. apply list_elem_of_lookup_2 in Hy. by apply (chain_reaches x (b :: l)).
    + destruct j as [|j]; [lia|]. apply (IH b i j); [apply Hc|lia|done|done].
Qed.

Lemma tc_within (P : nat → Prop) a b : (∀ p x, p = a ∨ P p → R p x → P x) → tc R a b → P b.
Proof.
  intros H Ht. assert (∀ c, tc R c b → c = a ∨ P c → P b) as Hall.
  { intros c. induction 1 as [c d Hcd|c d e Hcd _ IH]; intros Hc; [by apply (H c)|]. apply IH; [done|]. right. by apply (H c). }
  apply (Hall a); auto.
Qed.

(** Where everything in a finite set leads on within it, something leads to
    itself. *)
Lemma leads_round l : l ≠ [] → (∀ x, x ∈ l → ∃ y, y ∈ l ∧ R x y) → ∃ x, x ∈ l ∧ tc R x x.
Proof.
  intros Hne Hon. destruct l as [|a0 l0] eqn:El; [done|]. rewrite <-El in *. assert (a0 ∈ l) as Ha0 by (rewrite El; left).
  assert (∀ k, ∃ w, length w = k ∧ chain a0 w ∧ Forall (λ x, x ∈ l) w) as Hpath.
  { induction k as [|k (w & Hlen & Hc & Hw)]; [by exists []|].
    assert (default a0 (last w) ∈ l) as Hlast.
    { destruct (last w) as [x|] eqn:E; [|done]. apply last_Some_elem_of in E. rewrite Forall_forall in Hw. by apply Hw. }
    destruct (Hon _ Hlast) as (y & Hy & HR). exists (w ++ [y]). rewrite length_app. split_and!; [cbn; lia|by apply chain_over_snoc|].
    apply Forall_app. by split; [|apply Forall_singleton]. }
  destruct (Hpath (length l)) as (w & Hlen & Hc & Hw).
  destruct (list_pigeonhole (a0 :: w) l) as (i & j & x & Hij & Hi & Hj).
  - intros x [->|Hx]%elem_of_cons; [done|]. rewrite Forall_forall in Hw. by apply Hw.
  - cbn. lia.
  - exists x. split; [|by apply (chain_between a0 w i j)].
    apply list_elem_of_lookup_2 in Hi. apply elem_of_cons in Hi as [->|Hx]; [done|]. rewrite Forall_forall in Hw. by apply Hw.
Qed.
End paths.

(** ** Searches *)
Section search.
Context (R : nat → nat → Prop) (start : nat) (keep : nat → Prop).

(** What was found so far, from [start] on: what was looked at, then the
    queue, each found from [start] or an earlier one. *)
Record found (P : list nat) (s : Search) : Prop := {
  fo_nodup : NoDup (P ++ queue s);
  fo_dom x : is_Some (from s !! x) ↔ x ∈ P ++ queue s ∧ keep x;
  fo_from x p : from s !! x = Some p → R p x ∧
    (p = start ∨ ∃ i j, i < j ∧ (P ++ queue s) !! i = Some p ∧ (P ++ queue s) !! j = Some x);
}.

Lemma found_note P s node t : found P s → node = start ∨ node ∈ P → R node t → keep t →
  let s' := note_target node s t in
  found P s' ∧ (∃ more, queue s' = queue s ++ more) ∧ t ∈ P ++ queue s' ∧ ∀ x, x ∈ P ++ queue s' → x ∈ P ++ queue s ∨ R node x.
Proof.
  intros Hf Hn HR Hk. unfold note_target. destruct (from s !! t) as [p|] eqn:E; cbn zeta.
  - split_and!; [done|exists []; by rewrite app_nil_r| |by left]. apply (fo_dom _ _ Hf). eauto.
  - assert (t ∉ P ++ queue s) as Ht.
    { intros Hin. assert (is_Some (from s !! t)) as [? ?] by (by apply (fo_dom _ _ Hf)). congruence. }
    cbn [from queue]. split_and!; [|by exists [t]|set_solver|set_solver]. split; cbn [from queue]; rewrite app_assoc.
    + apply NoDup_app. split_and!; [apply Hf| |by apply NoDup_singleton]. intros x Hx ->%list_elem_of_singleton. done.
    + intros x. rewrite elem_of_app, list_elem_of_singleton. destruct (decide (t = x)) as [->|Hne].
      * rewrite lookup_insert_eq. split; [by split; [right|]|eauto].
      * rewrite lookup_insert_ne by done. rewrite (fo_dom _ _ Hf). naive_solver.
    + intros x p. destruct (decide (t = x)) as [->|Hne].
      * rewrite lookup_insert_eq. intros [= <-]. split; [done|]. destruct Hn as [->|Hn]; [by left|right].
        apply list_elem_of_lookup_1 in Hn as [i Hi]. pose proof (lookup_lt_Some _ _ _ Hi).
        exists i, (length (P ++ queue s)). rewrite length_app. split_and!; [lia| |].
        { rewrite lookup_app_l by (rewrite length_app; lia). by rewrite lookup_app_l. }
        { by rewrite <-length_app, lookup_app_r, Nat.sub_diag by lia. }
      * rewrite lookup_insert_ne by done. intros Hp. destruct (fo_from _ _ Hf x p Hp) as [? [->|(i & j & Hij & Hi & Hj)]]; [by split; [|left]|].
        split; [done|right]. exists i, j. split_and!; [done|by apply lookup_app_l_Some..].
Qed.

Lemma found_notes P node ts : ∀ s, found P s → node = start ∨ node ∈ P → Forall (R node) ts → Forall keep ts →
  let s' := foldl (note_target node) s ts in
  found P s' ∧ (∃ more, queue s' = queue s ++ more) ∧ Forall (λ t, t ∈ P ++ queue s') ts ∧ ∀ x, x ∈ P ++ queue s' → x ∈ P ++ queue s ∨ R node x.
Proof.
  induction ts as [|t ts IH]; intros s Hf Hn HR Hk; cbn [foldl]; [split_and!; [done|exists []; by rewrite app_nil_r|done|by left]|].
  apply Forall_cons in HR as [HRt HR], Hk as [Hkt Hk]. destruct (found_note P s node t Hf Hn HRt Hkt) as (Hf1 & [m1 E1] & Ht & Hx1).
  destruct (IH _ Hf1 Hn HR Hk) as (Hf2 & [m2 E2] & Hts & Hx2). split_and!; [done|exists (m1 ++ m2); by rewrite E2, E1, app_assoc| |].
  - constructor; [|done]. rewrite E2. set_solver.
  - intros x [Hx|?]%Hx2; [by apply Hx1|by right].
Qed.

(** The next of the queue is looked at. *)
Lemma found_pop P s x rest : found P s → queue s = x :: rest → found (P ++ [x]) (mkSearch (from s) rest).
Proof.
  intros Hf Hq. pose proof Hf as [Hnd Hdom Hfr]. rewrite Hq in *.
  assert (P ++ x :: rest = (P ++ [x]) ++ rest) as E by (by rewrite <-app_assoc). rewrite E in *. by split.
Qed.

Lemma found_size P s : found P s → (∀ x, x ∈ P ++ queue s → keep x) → size (from s) = length (P ++ queue s).
Proof.
  intros Hf Hk. rewrite <-size_dom. rewrite <-(size_list_to_set (C := gset nat)) by apply Hf. f_equal. apply set_eq. intros x.
  rewrite elem_of_dom, elem_of_list_to_set, (fo_dom _ _ Hf). naive_solver.
Qed.

(** The way back. *)
Lemma walk_back_finds P s : found P s → (∀ x, x ∈ P ++ queue s → keep x) →
  ∀ j x fuel way, (P ++ queue s) !! j = Some x → j < fuel →
  ∃ b, walk_back fuel (from s) start x way = Some (way ++ b) ∧ chain R start (reverse b ++ [x]).
Proof.
  intros Hf Hk. induction j as [j IH] using lt_wf_ind. intros x fuel way Hj Hlt. destruct fuel as [|fuel]; [lia|]. cbn [walk_back].
  assert (x ∈ P ++ queue s) as Hx by (by apply list_elem_of_lookup_2 in Hj).
  assert (is_Some (from s !! x)) as [p Hp] by (apply (fo_dom _ _ Hf); auto). rewrite Hp. cbn [mbind option_bind].
  destruct (fo_from _ _ Hf x p Hp) as [HR Hcase]. destruct (p =? start) eqn:E.
  - apply Nat.eqb_eq in E as ->. exists []. by rewrite app_nil_r.
  - apply Nat.eqb_neq in E. destruct Hcase as [|(i & j' & Hij & Hi & Hj')]; [done|].
    assert (j' = j) as -> by (eapply NoDup_lookup; [apply Hf|done|done]).
    destruct (IH i Hij p fuel (way ++ [p]) Hi ltac:(lia)) as (b & Hb & Hc). exists (p :: b). rewrite Hb, <-app_assoc. split; [done|].
    rewrite reverse_cons. apply chain_over_snoc. split; [done|]. by rewrite last_snoc.
Qed.

(** All that was found is reached. *)
Lemma found_reached P s : found P s → (∀ x, x ∈ P ++ queue s → keep x ∨ x = start) → ∀ x, x ∈ P ++ queue s → x = start ∨ tc R start x.
Proof.
  intros Hf Hk x Hx. apply list_elem_of_lookup_1 in Hx as [j Hj]. revert x Hj. induction j as [j IH] using lt_wf_ind. intros x Hj.
  assert (x ∈ P ++ queue s) as Hx by (by apply list_elem_of_lookup_2 in Hj). destruct (Hk x Hx) as [Hkx|]; [right|by left].
  assert (is_Some (from s !! x)) as [p Hp] by (apply (fo_dom _ _ Hf); auto).
  destruct (fo_from _ _ Hf x p Hp) as [HR [->|(i & j' & Hij & Hi & Hj')]]; [by apply tc_once|].
  assert (j' = j) as -> by (eapply NoDup_lookup; [apply Hf|done|done]).
  destruct (IH i Hij p Hi) as [->|Ht]; [by apply tc_once|]. eapply tc_r; done.
Qed.
End search.

Lemma nodup_below l n : NoDup l → Forall (λ x, x < n) l → length l ≤ n.
Proof.
  intros Hd Hl. destruct (decide (length l ≤ n)) as [|Hgt]; [done|]. exfalso.
  destruct (list_pigeonhole l (seq 0 n)) as (i & j & x & Hij & Hi & Hj); [|rewrite length_seq; lia|].
  - intros x Hx. rewrite Forall_forall in Hl. apply elem_of_seq. specialize (Hl x Hx). lia.
  - pose proof (NoDup_lookup _ _ _ _ Hd Hi Hj). lia.
Qed.
Lemma filter_app_let g l k : List.filter (is_let g) (l ++ k) = List.filter (is_let g) l ++ List.filter (is_let g) k.
Proof. apply List.filter_app. Qed.
Lemma elem_of_lets_of (p : nat → bool) l x : x ∈ List.filter p l ↔ x ∈ l ∧ p x = true.
Proof. by rewrite list_elem_of_In, filter_In, list_elem_of_In. Qed.
Lemma nodup_lets_of (p : nat → bool) l : NoDup l → NoDup (List.filter p l).
Proof.
  induction 1 as [|x l Hx _ IH]; cbn; [constructor|]. destruct (p x); [|done]. constructor; [|done]. rewrite elem_of_lets_of. tauto.
Qed.
Lemma elem_of_lets g x : x ∈ lets g ↔ is_let g x = true.
Proof.
  unfold lets. rewrite elem_of_lets_of, elem_of_seq. split; [tauto|]. intros H. split; [|done]. unfold is_let in H.
  destruct (nodes g !! x) eqn:E; [|done]. apply lookup_lt_Some in E. lia.
Qed.

(** A way from one node to another. *)
Definition leads (R : nat → nat → Prop) (a b : nat) (w : list nat) : Prop := chain R a w ∧ last w = Some b.

(** ** What a [let] reaches *)
Section reach.
Context (g : Graph) (Hg : well_formed g) (start : nat).
Notation R := (mentions g).
Notation every := (λ _ : nat, True).

Lemma reach_loop_finds fuel : ∀ P s ways, found R start every P s →
  (∀ p x, p = start ∨ p ∈ P → R p x → x ∈ P ++ queue s) → Forall (λ x, x < length (nodes g)) (P ++ queue s) → length (nodes g) < fuel + length P →
  (∀ b, b ∈ P → is_let g b = true → ∃ w, ways !! (start, b) = Some w ∧ leads R start b w) →
  ∃ P' ways', reach_loop fuel g start s (List.filter (is_let g) P) ways = Some (List.filter (is_let g) P', ways') ∧ NoDup P' ∧
    (∀ x, x ∈ P' ↔ tc R start x) ∧ (∀ a b, a ≠ start → ways' !! (a, b) = ways !! (a, b)) ∧
    ∀ b, b ∈ P' → is_let g b = true → ∃ w, ways' !! (start, b) = Some w ∧ leads R start b w.
Proof using Hg.
  induction fuel as [|fuel IH]; intros P s ways Hf Hclosed Hbelow Hfuel Hways; cbn [reach_loop].
  { exfalso. pose proof (nodup_below _ _ (fo_nodup _ _ _ _ _ Hf) Hbelow) as H. rewrite length_app in H. lia. }
  destruct (queue s) as [|x rest] eqn:Hq.
  - exists P, ways. rewrite app_nil_r in *. split_and!; try done; [by pose proof (fo_nodup _ _ _ _ _ Hf) as H; rewrite Hq, app_nil_r in H|].
    assert (∀ x, x ∈ P → tc R start x) as Hreached.
    { intros y Hy. assert (is_Some (from s !! y)) as [p Hp] by (apply (fo_dom _ _ _ _ _ Hf); rewrite Hq, app_nil_r; done).
      destruct (fo_from _ _ _ _ _ Hf y p Hp) as [HR [->|(i & j & _ & Hi & _)]]; [by apply tc_once|]. rewrite Hq, app_nil_r in Hi.
      destruct (found_reached R start every P s Hf ltac:(by left) p) as [->|Ht]; [rewrite Hq, app_nil_r; by apply list_elem_of_lookup_2 in Hi|by apply tc_once|].
      by eapply tc_r. }
    intros y. split; [apply Hreached|]. by apply (tc_within R (λ x, x ∈ P)).
  - assert (x ∈ P ++ x :: rest) as Hx by set_solver.
    assert (x < length (nodes g)) as Hlt by (rewrite Forall_forall in Hbelow; by apply Hbelow).
    destruct (lookup_lt_is_Some_2 (edges g) x) as [ts Hts]; [by rewrite (wf_edges _ Hg)|].
    assert (∀ t, t ∈ ts → R x t) as HR by (intros t Ht; by exists ts).
    assert (∃ ways1, (if is_let g x then way ← walk_back (S (size (from s))) (from s) start x [x];
                        Some (List.filter (is_let g) P ++ [x], <[(start, x) := reverse way]> ways)
                      else Some (List.filter (is_let g) P, ways)) = Some (List.filter (is_let g) (P ++ [x]), ways1) ∧
      (∀ a b, (a, b) ≠ (start, x) → ways1 !! (a, b) = ways !! (a, b)) ∧ (is_let g x = true → ∃ w, ways1 !! (start, x) = Some w ∧ leads R start x w))
      as (ways1 & Eways & Hother & Hown).
    { rewrite filter_app_let. cbn [List.filter]. destruct (is_let g x) eqn:El; [|by exists ways; rewrite app_nil_r].
      assert ((P ++ queue s) !! length P = Some x) as Hix by (by rewrite lookup_app_r, Nat.sub_diag, Hq by lia).
      destruct (walk_back_finds R start every P s Hf ltac:(done) (length P) x (S (size (from s))) [x] Hix) as (b & Hb & Hc).
      { rewrite (found_size R start every P s Hf) by done. rewrite length_app. lia. }
      rewrite Hb. cbn [mbind option_bind]. eexists. split; [done|]. split; [intros a c Hne; by rewrite lookup_insert_ne|].
      intros _. rewrite lookup_insert_eq. eexists. split; [done|]. cbn [app]. rewrite reverse_cons. split; [done|by rewrite last_snoc]. }
    rewrite Eways. cbn [mbind option_bind fst snd]. rewrite Hts. cbn [mbind option_bind].
    pose proof (found_pop R start every P s x rest Hf Hq) as Hpop.
    destruct (found_notes R start every (P ++ [x]) x ts _ Hpop) as (Hf' & [more Emore] & Hall & Honly); [right; set_solver|by apply Forall_forall|by apply Forall_true|].
    cbn [queue] in Emore, Honly.
    destruct (IH (P ++ [x]) _ ways1 Hf') as (P' & ways' & E & Hnd & Hiff & Hkeep & Hw).
    + intros p y Hp HRy. rewrite elem_of_app, list_elem_of_singleton in Hp.
      assert (p = x ∨ (p = start ∨ p ∈ P)) as [->|Hp'] by tauto.
      * destruct HRy as (ts' & E & Hy). rewrite Hts in E. injection E as <-. rewrite Forall_forall in Hall. by apply Hall.
      * specialize (Hclosed p y Hp' HRy). rewrite Emore. set_solver.
    + apply Forall_forall. intros y [Hy|Hy]%Honly; [rewrite Forall_forall in Hbelow; apply Hbelow; set_solver|by apply (wf_targets _ Hg x)].
    + rewrite length_app. cbn. lia.
    + intros b [Hb|Hb%list_elem_of_singleton]%elem_of_app Hl; [|subst b; by apply Hown]. destruct (decide (b = x)) as [->|Hne]; [by apply Hown|].
      rewrite Hother by congruence. by apply Hways.
    + exists P', ways'. split_and!; try done. intros a b Ha. rewrite Hkeep by done. apply Hother. congruence.
Qed.
End reach.

Lemma chain_weaken (R Q : nat → nat → Prop) : (∀ a b, R a b → Q a b) → ∀ l a, chain R a l → chain Q a l.
Proof. intros H. induction l as [|b l IH]; intros a; cbn; [done|]. intros [? ?]. auto. Qed.

Section needs.
Context (g : Graph) (Hg : well_formed g).

(** What is known of a [let]: what it needs, each once, and the way there. *)
Definition known (needs : Needs) (ways : Ways) (a : nat) : Prop := ∃ ns, needs !! a = Some ns ∧ NoDup ns ∧ (∀ b, b ∈ ns ↔ needs_let g a b) ∧
  ∀ b, b ∈ ns → ∃ w, ways !! (a, b) = Some w ∧ leads (step g) a b w.

Lemma reads_of_finds start rs : ∀ read ways, NoDup read → (∀ b, Some b ∈ rs → reads g start b) →
  (∀ b, b ∈ read → ∃ w, ways !! (start, b) = Some w ∧ leads (step g) start b w) →
  ∃ read' ways', reads_of g start rs read ways = (read', ways') ∧ NoDup read' ∧ (∀ b, b ∈ read' ↔ b ∈ read ∨ Some b ∈ rs ∧ is_let g b = true) ∧
    (∀ a b, a ≠ start → ways' !! (a, b) = ways !! (a, b)) ∧ ∀ b, b ∈ read' → ∃ w, ways' !! (start, b) = Some w ∧ leads (step g) start b w.
Proof.
  induction rs as [|[t|] rs IH]; intros read ways Hnd Hrs Hways; cbn [reads_of].
  - exists read, ways. split_and!; try done. intros b. set_solver.
  - assert (∀ b, Some b ∈ rs → reads g start b) as Hrs' by (intros b Hb; apply Hrs; set_solver).
    destruct (is_let g t) eqn:El, (bool_decide_reflect (t ∈ read)) as [Ht|Ht]; cbn [andb negb].
    2: { destruct (IH (read ++ [t]) (<[(start, t) := [t]]> ways)) as (read' & ways' & E & Hnd' & Hiff & Hk & Hw).
      - apply NoDup_app. split_and!; [done|intros x Hx ->%list_elem_of_singleton; done|apply NoDup_singleton].
      - done.
      - intros b [Hb|Hb%list_elem_of_singleton]%elem_of_app.
        + destruct (decide (b = t)) as [->|Hne]; [done|]. rewrite lookup_insert_ne by congruence. by apply Hways.
        + subst b. rewrite lookup_insert_eq. exists [t]. split; [done|]. split; [|done]. split; [|done]. right. apply Hrs. left.
      - exists read', ways'. split_and!; try done.
        + intros b. rewrite Hiff. rewrite elem_of_app, list_elem_of_singleton, elem_of_cons. split; [|naive_solver]. intros [[?| ->]|?]; naive_solver.
        + intros a b Ha. rewrite Hk by done. by rewrite lookup_insert_ne by congruence. }
    all: destruct (IH read ways Hnd Hrs' Hways) as (read' & ways' & E & Hnd' & Hiff & Hk & Hw); exists read', ways'; split_and!; try done;
      intros b; rewrite Hiff, elem_of_cons; split; (intros [?|[Hb ?]]; [by left|]); [by right; split; [right|]|];
      destruct Hb as [Hb|?]; [injection Hb as ->; first [by left|congruence]|by right].
  - destruct (IH read ways) as (read' & ways' & E & Hnd' & Hiff & Hk & Hw); [done|intros b Hb; apply Hrs; set_solver|done|].
    exists read', ways'. split_and!; try done. intros b. rewrite Hiff. set_solver.
Qed.

Lemma needs_of_finds start ways : is_let g start = true → ∃ ns ways', needs_of g start ways = Some (ns, ways') ∧ NoDup ns ∧
  (∀ b, b ∈ ns ↔ needs_let g start b) ∧ (∀ a b, a ≠ start → ways' !! (a, b) = ways !! (a, b)) ∧
  ∀ b, b ∈ ns → ∃ w, ways' !! (start, b) = Some w ∧ leads (step g) start b w.
Proof using Hg.
  intros Hl. unfold needs_of, needs_let. unfold is_let in Hl. destruct (nodes g !! start) as [node|] eqn:En; [|done]. cbn [mbind option_bind].
  destruct (plain node) as [rs|] eqn:Ep.
  - destruct (reads_of_finds start rs [] ways) as (ns & ways' & E & Hnd & Hiff & Hk & Hw); [constructor|by exists node, rs|set_solver|].
    exists ns, ways'. split_and!; try done; [by f_equal|]. intros b. rewrite Hiff. set_solver.
  - destruct (lookup_lt_is_Some_2 (edges g) start) as [ts Hts]; [rewrite (wf_edges _ Hg); by apply lookup_lt_Some in En|].
    rewrite Hts. cbn [mbind option_bind].
    destruct (found_notes (mentions g) start (λ _, True) [] start ts (mkSearch ∅ [])) as (Hf & _ & Hall & Honly);
      [|by left|apply Forall_forall; intros t Ht; by exists ts|by apply Forall_true|].
    { split; cbn; [constructor|intros x; rewrite lookup_empty; split; [by intros []|set_solver]|intros x p; by rewrite lookup_empty]. }
    destruct (reach_loop_finds g Hg start (S (length (nodes g))) [] _ ways Hf) as (P & ways' & E & Hnd & Hiff & Hk & Hw).
    + intros p x [->|Hp] (ts' & Ets & Hx); [|set_solver]. rewrite Hts in Ets. injection Ets as <-. rewrite Forall_forall in Hall. by apply Hall.
    + apply Forall_forall. intros x [Hx|Hx]%Honly; [set_solver|]. by apply (wf_targets _ Hg start).
    + cbn. lia.
    + set_solver.
    + exists (List.filter (is_let g) P), ways'. split_and!; try done; [by apply nodup_lets_of| |].
      * intros b. rewrite elem_of_lets_of, Hiff. tauto.
      * intros b [Hb Hlb]%elem_of_lets_of. destruct (Hw b Hb Hlb) as (w & Ew & Hc & Hlast). exists w. split; [done|]. split; [|done].
        apply (chain_weaken (mentions g)); [by left|done].
Qed.

Lemma all_needs_finds starts : ∀ before needs ways, Forall (λ a, is_let g a = true) starts → NoDup (before ++ starts) →
  Forall (known needs ways) before →
  ∃ needs' ways', all_needs g starts needs ways = Some (needs', ways') ∧ Forall (known needs' ways') (before ++ starts).
Proof using Hg.
  induction starts as [|a starts IH]; intros before needs ways Hl Hnd Hb; cbn [all_needs]; [exists needs, ways; by rewrite app_nil_r|].
  apply Forall_cons in Hl as [Hla Hl]. destruct (needs_of_finds a ways Hla) as (ns & ways' & E & Hns & Hiff & Hk & Hw).
  rewrite E. cbn [mbind option_bind fst snd]. assert (before ++ a :: starts = (before ++ [a]) ++ starts) as Eapp by (by rewrite <-app_assoc).
  rewrite Eapp in *. apply IH; [done|done|]. apply NoDup_app in Hnd as (Hnd & _ & _). apply NoDup_app in Hnd as (_ & Hdisj & _).
  apply Forall_app. split.
  - apply Forall_forall. intros c Hc. assert (c ≠ a) as Hne by (intros ->; apply (Hdisj a Hc); set_solver).
    rewrite Forall_forall in Hb. destruct (Hb c Hc) as (ns' & E' & Hns' & Hiff' & Hw'). exists ns'. rewrite lookup_insert_ne by done.
    split_and!; try done. intros b Hbn. rewrite Hk by done. by apply Hw'.
  - apply Forall_singleton. exists ns. by rewrite lookup_insert_eq.
Qed.
End needs.

(** ** The rings *)
Section ring.
Context (g : Graph) (Hg : well_formed g) (needs : Needs) (ways : Ways) (Hknown : Forall (known g needs ways) (lets g)).
Notation N := (needs_let g).

Lemma known_let a : is_let g a = true → known g needs ways a.
Proof using Hknown. intros Ha. rewrite Forall_forall in Hknown. apply Hknown. by apply elem_of_lets. Qed.
Lemma let_below a : is_let g a = true → a < length (nodes g).
Proof. intros Ha. apply elem_of_lets in Ha. unfold lets in Ha. apply elem_of_lets_of in Ha as [Ha%elem_of_seq _]. lia. Qed.
Lemma step_below a b : step g a b → b < length (nodes g).
Proof using Hg. intros [H|H]; [by apply (wf_targets _ Hg a)|by apply (wf_reads _ Hg a)]. Qed.

Section start.
Context (start : nat) (Hstart : is_let g start = true).
Notation back := (found N start (λ x, x ≠ start)).

Lemma back_step_finds P at_ ns : ∀ s, back P s → at_ ∈ P → Forall (N at_) ns →
  (∃ s1, back_step start at_ ns s = inl (<[start := at_]> (from s1)) ∧ back P s1 ∧ N at_ start) ∨
  (∃ s1, back_step start at_ ns s = inr s1 ∧ back P s1 ∧ (∃ more, queue s1 = queue s ++ more) ∧ Forall (λ t, t ∈ P ++ queue s1 ∧ t ≠ start) ns ∧
    ∀ x, x ∈ P ++ queue s1 → x ∈ P ++ queue s ∨ N at_ x).
Proof.
  induction ns as [|next ns IH]; intros s Hs Hat Hns; cbn [back_step].
  - right. exists s. split_and!; [done|done|exists []; by rewrite app_nil_r|done|by left].
  - apply Forall_cons in Hns as [Hnext Hns]. destruct (next =? start) eqn:E.
    + apply Nat.eqb_eq in E as ->. left. by exists s.
    + apply Nat.eqb_neq in E. destruct (found_note N start _ P s at_ next Hs ltac:(by right) Hnext E) as (Hs' & [m Em] & Hin & Honly).
      destruct (IH _ Hs' Hat Hns) as [?|(s1 & E1 & Hs1 & [m1 Em1] & Hall & Honly1)]; [by left|right]. exists s1. split_and!; [done|done| | |].
      * exists (m ++ m1). by rewrite Em1, Em, app_assoc.
      * constructor; [|done]. split; [|done]. rewrite Em1. set_solver.
      * intros x [Hx|?]%Honly1; [by apply Honly|by right].
Qed.

Lemma back_loop_finds fuel : ∀ P s, back P s → start ∈ P ++ queue s → Forall (λ x, is_let g x = true) (P ++ queue s) →
  (∀ p x, p ∈ P → N p x → x ∈ P ++ queue s ∧ x ≠ start) → length (nodes g) < fuel + length P →
  (back_loop fuel needs start s = Some None ∧ ¬ tc N start start) ∨
  (∃ P1 s1 at_, back_loop fuel needs start s = Some (Some (<[start := at_]> (from s1))) ∧ back P1 s1 ∧ at_ ∈ P1 ∧ N at_ start).
Proof using Hg Hknown Hstart.
  induction fuel as [|fuel IH]; intros P s Hs Hin Hlets Hclosed Hfuel; cbn [back_loop].
  { exfalso. pose proof (nodup_below (P ++ queue s) (length (nodes g)) (fo_nodup _ _ _ _ _ Hs)) as H. rewrite length_app in H.
    assert (length P + length (queue s) ≤ length (nodes g)); [|lia]. apply H. eapply Forall_impl; [done|]. apply let_below. }
  destruct (queue s) as [|at_ rest] eqn:Hq.
  - left. split; [done|]. rewrite app_nil_r in *. intros Ht.
    enough (start ∈ P ∧ start ≠ start) by tauto. apply (tc_within N (λ x, x ∈ P ∧ x ≠ start) start start); [|done].
    intros p x Hp HR. apply (Hclosed p); [|done]. destruct Hp as [->|[? _]]; done.
  - assert (is_let g at_ = true) as Hat by (rewrite Forall_forall in Hlets; apply Hlets; set_solver).
    destruct (known_let at_ Hat) as (ns & Ens & _ & Hiff & _). rewrite Ens. cbn [mbind option_bind].
    pose proof (found_pop N start _ P s at_ rest Hs Hq) as Hpop.
    destruct (back_step_finds (P ++ [at_]) at_ ns _ Hpop) as [(s1 & E1 & Hs1 & Hb)|(s1 & E1 & Hs1 & [m Em] & Hall & Honly)];
      [set_solver|by apply Forall_forall; intros b Hb%Hiff| |]; rewrite E1.
    + right. exists (P ++ [at_]), s1, at_. split_and!; [done|done|set_solver|done].
    + cbn [queue] in Em, Honly. apply (IH (P ++ [at_])); [done| | | |rewrite length_app; cbn; lia].
      * rewrite Em. set_solver.
      * apply Forall_forall. intros x [Hx|Hx]%Honly; [|apply Hx]. rewrite Forall_forall in Hlets. apply Hlets. set_solver.
      * intros p x Hp HR. rewrite elem_of_app, list_elem_of_singleton in Hp. destruct Hp as [Hp|Hp].
        { destruct (Hclosed p x Hp HR) as [Hx ?]. split; [|done]. rewrite Em. set_solver. }
        { subst p. rewrite Forall_forall in Hall. apply Hall. by apply Hiff. }
Qed.

Lemma walk_ring_finds P s from' : back P s → (∀ x, x ≠ start → from' !! x = from s !! x) →
  ∀ j x fuel ring, (P ++ queue s) !! j = Some x → S j < fuel →
  ∃ b, walk_ring fuel from' start x ring = Some (ring ++ b ++ [start]) ∧ chain N start (reverse b) ∧ default start (last (reverse b)) = x.
Proof.
  intros Hs Hfrom. induction j as [j IH] using lt_wf_ind. intros x fuel ring Hj Hlt. destruct fuel as [|fuel]; [lia|]. cbn [walk_ring].
  destruct (x =? start) eqn:E; [apply Nat.eqb_eq in E as ->; by exists []|]. apply Nat.eqb_neq in E.
  assert (x ∈ P ++ queue s) as Hx by (by apply list_elem_of_lookup_2 in Hj).
  assert (is_Some (from s !! x)) as [p Hp] by (by apply (fo_dom _ _ _ _ _ Hs)). rewrite Hfrom, Hp by done. cbn [mbind option_bind].
  destruct (fo_from _ _ _ _ _ Hs x p Hp) as [HR Hcase].
  assert (∃ b, walk_ring fuel from' start p (ring ++ [x]) = Some ((ring ++ [x]) ++ b ++ [start]) ∧ chain N start (reverse b) ∧ default start (last (reverse b)) = p)
    as (b & Hb & Hc & Hl).
  { destruct (decide (p = start)) as [->|Hne].
    - exists []. destruct fuel as [|fuel]; [lia|]. cbn [walk_ring]. by rewrite Nat.eqb_refl.
    - destruct Hcase as [|(i & j' & Hij & Hi & Hj')]; [done|]. assert (j' = j) as -> by (eapply NoDup_lookup; [apply Hs|done|done]).
      apply (IH i Hij p fuel); [done|lia]. }
  exists (x :: b). rewrite Hb, <-!app_assoc. split; [done|]. rewrite reverse_cons. split; [|by rewrite last_snoc]. apply chain_over_snoc. by rewrite Hl.
Qed.
End start.

Lemma way_round_finds l : ∀ a, is_let g a = true → chain N a l →
  ∃ w, way_round ways (a :: l) = Some w ∧ chain (step g) a w ∧ last w = last l.
Proof using Hknown.
  induction l as [|b l IH]; intros a Ha Hc; [by exists []|]. destruct Hc as [HR Hc].
  destruct (known_let a Ha) as (ns & _ & _ & Hiff & Hways). destruct (Hways b) as (w & Ew & Hcw & Hlw); [by apply Hiff|].
  destruct (IH b ltac:(apply HR) Hc) as (w' & Ew' & Hcw' & Hlw'). exists (w ++ w'). split_and!.
  - change (way_round ways (a :: b :: l)) with (way ← ways !! (a, b); more ← way_round ways (b :: l); Some (way ++ more)).
    rewrite Ew. cbn [mbind option_bind]. by rewrite Ew'.
  - apply chain_over_app. split; [done|]. by rewrite Hlw.
  - by rewrite last_app, last_cons, Hlw', Hlw.
Qed.

Lemma names_of_finds way : ∀ a, Forall (λ x, x < length (nodes g)) way → ∃ names, names_of g (a :: way) = Some names ∧ length names = length way.
Proof.
  induction way as [|b way IH]; intros a Hw; [by exists []|]. apply Forall_cons in Hw as [Hb Hw].
  destruct (lookup_lt_is_Some_2 (nodes g) b Hb) as [node En]. destruct (IH b Hw) as (names & E & Hlen).
  change (names_of g (a :: b :: way)) with (node ← nodes g !! b; let n := match named g !! (a, b) with
    | Some n => if let_decl node then n else name node | None => name node end in more ← names_of g (b :: way); Some (n :: more)).
  rewrite En. cbn [mbind option_bind]. rewrite E. eexists. split; [done|]. cbn. by rewrite Hlen.
Qed.

Lemma chain_below l : ∀ a, chain (step g) a l → Forall (λ x, x < length (nodes g)) l.
Proof using Hg. induction l as [|b l IH]; intros a; [done|]. intros [H1 H2]. constructor; [by apply (step_below a)|by apply (IH b)]. Qed.

(** The ring of a [let]: there is none and it does not need itself, or it
    does and this is the way round. *)
Lemma ring_of_finds start : is_let g start = true →
  (ring_of g needs ways start = Some None ∧ ¬ tc N start start) ∨
  (∃ way names, ring_of g needs ways start = Some (Some (start :: way)) ∧ tc N start start ∧ chain (step g) start way ∧ last way = Some start ∧
    names_of g (start :: way) = Some names ∧ names ≠ []).
Proof using Hg Hknown.
  intros Hl. unfold ring_of.
  destruct (back_loop_finds start Hl (S (length (nodes g))) [] (mkSearch ∅ [start])) as [[E Hno]|(P & s1 & at_ & E & Hs & Hat & Hback)].
  - split; cbn; [apply NoDup_singleton| |intros x p; by rewrite lookup_empty]. intros x. rewrite lookup_empty. split; [by intros []|]. set_solver.
  - cbn. set_solver.
  - by apply Forall_singleton.
  - set_solver.
  - cbn. lia.
  - left. rewrite E. cbn [mbind option_bind]. done.
  - right. rewrite E. cbn [mbind option_bind]. rewrite lookup_insert_eq. cbn [mbind option_bind].
    apply list_elem_of_lookup_1 in Hat as [j Hj]. pose proof (lookup_lt_Some _ _ _ Hj) as Hlt.
    assert (length (P ++ queue s1) ≤ S (size (from s1))) as Hsize.
    { rewrite <-size_dom. transitivity (size ({[start]} ∪ dom (from s1))).
      - rewrite <-(size_list_to_set (C := gset nat)) by apply Hs. apply subseteq_size. intros x Hx%elem_of_list_to_set.
        destruct (decide (x = start)) as [->|Hne]; [set_solver|]. apply elem_of_union_r, elem_of_dom, (fo_dom _ _ _ _ _ Hs). done.
      - rewrite size_union_alt, size_singleton. pose proof (subseteq_size (dom (from s1) ∖ {[start]}) (dom (from s1)) ltac:(set_solver)). lia. }
    assert (start ∉ dom (from s1)) as Hns by (rewrite elem_of_dom; intros H; apply (fo_dom _ _ _ _ _ Hs) in H; tauto).
    destruct (walk_ring_finds start P s1 (<[start := at_]> (from s1)) Hs) with (j := j) (x := at_) (fuel := S (size (<[start := at_]> (from s1)))) (ring := [start])
      as (b & Eb & Hc & Hlast).
    + intros x Hx. by rewrite lookup_insert_ne.
    + by apply lookup_app_l_Some.
    + rewrite map_size_insert_None by (by apply not_elem_of_dom). rewrite length_app in Hsize. lia.
    + rewrite Eb. cbn [mbind option_bind].
      assert (chain N start (reverse b ++ [start])) as Hround by (apply chain_over_snoc; by rewrite Hlast).
      replace (reverse ([start] ++ b ++ [start])) with (start :: reverse b ++ [start])
        by (cbn [app]; rewrite reverse_cons, reverse_app; done).
      destruct (way_round_finds _ start Hl Hround) as (way & Ew & Hcw & Hlw). rewrite Ew. cbn [mbind option_bind]. exists way.
      rewrite last_snoc in Hlw.
      destruct (names_of_finds way start (chain_below _ _ Hcw)) as (names & En & Hlen). exists names. split_and!; try done.
      * apply (chain_reaches N start _ start Hround). set_solver.
      * intros ->. by destruct way.
Qed.

(** What is reported of a [let]: that it needs itself, and a way round
    from its name to its name. *)
Definition reported (in_ring : gset nat) (r : CycleReport) : Prop :=
  is_let g (at_let r) = true ∧ tc N (at_let r) (at_let r) ∧ at_let r ∈ in_ring ∧ head (round r) = Some (own r) ∧ last (round r) = Some (own r) ∧ 2 ≤ length (round r).

Lemma reported_more in1 in2 r : in1 ⊆ in2 → reported in1 r → reported in2 r.
Proof. unfold reported. set_solver. Qed.

Lemma rings_finds starts : ∀ in_ring reports, Forall (λ a, is_let g a = true) starts →
  ∃ in' more, rings g needs ways starts in_ring reports = Some (in', reports ++ more) ∧ in_ring ⊆ in' ∧
    (∀ n, n ∈ in' → n ∈ in_ring ∨ is_let g n = true ∧ tc (step g) n n) ∧ (∀ a, a ∈ starts → tc N a a → a ∈ in') ∧
    Forall (reported in') more ∧ (bound_twice g = [] → more = [] → in' = in_ring).
Proof using Hg Hknown.
  induction starts as [|a starts IH]; intros in_ring reports Hl; cbn [rings].
  { exists in_ring, []. rewrite app_nil_r. split_and!; [done|done|by left|set_solver|done|done]. }
  apply Forall_cons in Hl as [Ha Hl]. destruct (bool_decide_reflect (a ∈ in_ring)) as [Hin|Hin].
  { destruct (IH in_ring reports Hl) as (in' & more & E & Hsub & Hfrom & Hall & Hrep & Hnone). exists in', more. split_and!; try done. set_solver. }
  destruct (ring_of_finds a Ha) as [[E0 Hno]|(way & names & E0 & Ht & Hc & Hlast & En & Hne)]; rewrite E0; cbn [mbind option_bind].
  { destruct (IH in_ring reports Hl) as (in' & more & E & Hsub & Hfrom & Hall & Hrep & Hnone). exists in', more. split_and!; try done. set_solver. }
  rewrite En. cbn [mbind option_bind]. set (in1 := list_to_set _ ∪ in_ring).
  assert (∀ n, n ∈ in1 → n ∈ in_ring ∨ is_let g n = true ∧ tc (step g) n n) as Hin1.
  { intros n [Hn|Hn]%elem_of_union; [right|by left]. apply elem_of_list_to_set, elem_of_lets_of in Hn as [Hn Hln]. split; [done|].
    apply (chain_on (step g) a way); [done| |done]. apply elem_of_cons in Hn as [->|Hn]; [by apply last_Some_elem_of|done]. }
  assert (a ∈ in1) as Ha1 by (apply elem_of_union_l, elem_of_list_to_set, elem_of_lets_of; split; [left|done]).
  destruct (existsb _ (a :: way)) eqn:Eb.
  - destruct (IH in1 reports Hl) as (in' & more & E & Hsub & Hfrom & Hall & Hrep & Hnone). exists in', more. split_and!; try done.
    + set_solver.
    + intros n [Hn|?]%Hfrom; [by apply Hin1|by right].
    + set_solver.
    + intros Hb. rewrite Hb in Eb. apply existsb_exists in Eb as (n & _ & Hn%bool_decide_eq_true_1). set_solver.
  - destruct (IH in1 (reports ++ [mkCycle a (default 0%N (last names)) (default 0%N (last names) :: names)]) Hl)
      as (in' & more & E & Hsub & Hfrom & Hall & Hrep & Hnone).
    exists in', (mkCycle a (default 0%N (last names)) (default 0%N (last names) :: names) :: more). rewrite E, <-app_assoc. split_and!; try done.
    + set_solver.
    + intros n [Hn|?]%Hfrom; [by apply Hin1|by right].
    + set_solver.
    + constructor; [|done]. split_and!; try done; cbn; [set_solver| |destruct names; cbn; [done|lia]].
      rewrite last_cons. destruct (last names) eqn:El; [done|]. by apply last_None in El.
Qed.
End ring.

(** ** The order *)
Lemma least_is l : match least l with Some x => x ∈ l ∧ ∀ y, y ∈ l → x ≤ y | None => l = [] end.
Proof.
  induction l as [|x l IH]; cbn; [done|]. destruct (least l) as [y|] eqn:E.
  - destruct IH as [Hy Hle]. split.
    + destruct (Nat.min_spec x y) as [[_ ->]|[_ ->]]; set_solver.
    + intros z [->|Hz]%elem_of_cons; [lia|]. specialize (Hle z Hz). lia.
  - subst l. split; [set_solver|]. intros z ->%list_elem_of_singleton. lia.
Qed.
Lemma remove_one_splits x l : x ∈ l → l ≡ₚ x :: remove_one x l.
Proof.
  induction l as [|y l IH]; cbn; [set_solver|]. destruct (y =? x) eqn:E; [by apply Nat.eqb_eq in E as ->|]. apply Nat.eqb_neq in E.
  intros [->|Hx]%elem_of_cons; [done|]. rewrite (IH Hx) at 1. by rewrite Permutation_swap.
Qed.

(** Who is told of [j]: those that need it, from [k] on. *)
Fixpoint who (j k : nat) (D : list (list nat)) : list nat :=
  match D with [] => [] | js :: D => (if bool_decide (j ∈ js) then [k] else []) ++ who j (S k) D end.
Lemma elem_of_who j d D : ∀ k, d ∈ who j k D ↔ ∃ js, k ≤ d ∧ D !! (d - k) = Some js ∧ j ∈ js.
Proof.
  induction D as [|js D IH]; intros k; cbn [who]; [set_solver|]. rewrite elem_of_app, IH.
  assert (d ∈ (if bool_decide (j ∈ js) then [k] else []) ↔ d = k ∧ j ∈ js) as -> by (case_bool_decide; set_solver).
  split.
  - intros [[-> Hj]|(js' & Hle & E & Hj)]; [exists js; by rewrite Nat.sub_diag|]. exists js'. split_and!; [lia| |done].
    by replace (d - k) with (S (d - S k)) by lia.
  - intros (js' & Hle & E & Hj). destruct (decide (d = k)) as [->|Hne]; [left; rewrite Nat.sub_diag in E; by injection E as <-|right].
    exists js'. split_and!; [lia| |done]. by replace (d - k) with (S (d - S k)) in E by lia.
Qed.
Lemma nodup_who j D : ∀ k, NoDup (who j k D).
Proof.
  induction D as [|js D IH]; intros k; cbn [who]; [constructor|]. apply NoDup_app. split_and!; [case_bool_decide; repeat constructor; set_solver| |done].
  intros d Hd (? & ? & _)%elem_of_who. case_bool_decide; [|set_solver]. apply list_elem_of_singleton in Hd. lia.
Qed.

Lemma push_needs_finds js k : ∀ nb, NoDup js → length (foldl (λ nb j, push_need nb j k) nb js) = length nb ∧
  ∀ j l, nb !! j = Some l → foldl (λ nb j, push_need nb j k) nb js !! j = Some (l ++ if bool_decide (j ∈ js) then [k] else []).
Proof.
  induction js as [|i js IH]; intros nb Hnd; cbn [foldl].
  - split; [done|]. intros j l. case_bool_decide; [set_solver|]. by rewrite app_nil_r.
  - inversion Hnd as [|? ? Hi Hnd']; subst. destruct (IH (push_need nb i k) Hnd') as [Hlen Hat]. unfold push_need in *.
    split; [by rewrite Hlen, length_alter|]. intros j l Hj. destruct (decide (i = j)) as [->|Hne].
    + rewrite (Hat j (l ++ [k])) by (by rewrite list_lookup_alter_eq, Hj). rewrite bool_decide_eq_false_2 by done.
      rewrite bool_decide_eq_true_2 by set_solver. by rewrite app_nil_r.
    + rewrite (Hat j l) by (by rewrite list_lookup_alter_ne). do 2 f_equal. repeat case_bool_decide; set_solver.
Qed.

Lemma needed_by_of_finds ls nss D : Forall2 (λ ns js, mapM (place ls) ns = Some js) nss D → Forall NoDup D → ∀ k nb,
  ∃ nb', needed_by_of ls k nss nb = Some nb' ∧ length nb' = length nb ∧ ∀ j l, nb !! j = Some l → nb' !! j = Some (l ++ who j k D).
Proof.
  induction 1 as [|ns js nss D Hjs HD IH]; intros Hnd k nb; cbn [needed_by_of who].
  - exists nb. split_and!; [done|done|]. intros j l. by rewrite app_nil_r.
  - apply Forall_cons in Hnd as [Hnd Hnds]. rewrite Hjs. cbn [mbind option_bind]. destruct (push_needs_finds js k nb Hnd) as [Hlen Hat].
    destruct (IH Hnds (S k) (foldl (λ nb j, push_need nb j k) nb js)) as (nb' & E & Hl & Hw). exists nb'. split_and!; [done|congruence|].
    intros j l Hj. rewrite (Hw j _ (Hat j l Hj)). by rewrite app_assoc.
Qed.

Lemma tell_finds ds : ∀ w r, NoDup ds → Forall (λ d, ∃ m, w !! d = Some (S m)) ds →
  ∃ w' r', tell_all ds (w, r) = Some (w', r ++ r') ∧ length w' = length w ∧
    (∀ d, w' !! d = (if bool_decide (d ∈ ds) then pred else id) <$> w !! d) ∧ NoDup r' ∧ ∀ d, d ∈ r' ↔ d ∈ ds ∧ w !! d = Some 1.
Proof.
  induction ds as [|d ds IH]; intros w r Hnd Hw; cbn [tell_all].
  - exists w, []. rewrite app_nil_r. split_and!; [done|done| |constructor|set_solver]. intros d. by rewrite option_fmap_id.
  - inversion Hnd as [|? ? Hd Hnd']; subst. apply Forall_cons in Hw as [[m Hm] Hw]. unfold one_fewer. cbn [fst snd]. rewrite Hm. cbn [mbind option_bind].
    destruct (IH (<[d := m]> w) (if m =? 0 then r ++ [d] else r) Hnd') as (w' & r' & E & Hlen & Hat & Hndr & Hr).
    { apply Forall_forall. intros e He. rewrite list_lookup_insert_ne by (intros ->; done). rewrite Forall_forall in Hw. by apply Hw. }
    assert (∀ e, e ∈ r' ↔ e ∈ ds ∧ w !! e = Some 1) as Hr'.
    { intros e. rewrite Hr. split; intros [He H1]; (split; [done|]); by rewrite list_lookup_insert_ne in * by (intros ->; done). }
    exists w', (if m =? 0 then d :: r' else r'). rewrite E. split_and!.
    + destruct (m =? 0); [by rewrite <-app_assoc|done].
    + by rewrite Hlen, length_insert.
    + intros e. rewrite Hat. destruct (decide (e = d)) as [->|Hne].
      * rewrite list_lookup_insert_eq by (by apply lookup_lt_Some in Hm). rewrite bool_decide_eq_false_2 by done.
        rewrite bool_decide_eq_true_2 by set_solver. by rewrite Hm.
      * rewrite list_lookup_insert_ne by done. f_equal. repeat case_bool_decide; set_solver.
    + destruct (m =? 0); [|done]. constructor; [|done]. rewrite Hr'. tauto.
    + intros e. destruct (Nat.eqb_spec m 0) as [->|Hm0].
      * rewrite !elem_of_cons, Hr'. split; [intros [->|[? ?]]; auto|]. intros [[->|?] ?]; auto.
      * rewrite elem_of_cons, Hr'. split; [intros [? ?]; auto|]. intros [[->|?] He]; [|auto]. rewrite Hm in He. congruence.
Qed.

Section kahn.
Context (D : list (list nat)) (HD : Forall NoDup D).
Definition waiting_for (k j : nat) : Prop := ∃ js, D !! k = Some js ∧ j ∈ js.
Context (Hbelow : ∀ k j, waiting_for k j → j < length D) (Hacyclic : ∀ k, ¬ tc waiting_for k k).

Definition left_of (order js : list nat) : nat := length (filter (λ j, j ∉ order) js).
(** Those that can be next, and the first of them. *)
Definition can_be_next (order : list nat) (k : nat) : Prop := k ∉ order ∧ k < length D ∧ ∀ j, waiting_for k j → j ∈ order.
Definition is_next (order : list nat) (k : nat) : Prop := can_be_next order k ∧ ∀ j, can_be_next order j → k ≤ j.

Lemma left_of_none order js : left_of order js = 0 ↔ ∀ j, j ∈ js → j ∈ order.
Proof.
  unfold left_of. rewrite length_zero_iff_nil. split.
  - intros H j Hj. destruct (decide (j ∈ order)) as [|Hn]; [done|]. exfalso. assert (j ∈ filter (λ j, j ∉ order) js) as Hin by (by apply list_elem_of_filter).
    rewrite H in Hin. set_solver.
  - intros H. apply elem_of_nil_inv. intros j [Hn Hj]%list_elem_of_filter. auto.
Qed.
Lemma left_of_snoc order k js : NoDup js → k ∉ order → left_of order js = (if bool_decide (k ∈ js) then S else id) (left_of (order ++ [k]) js).
Proof.
  unfold left_of. induction 1 as [|j js Hj _ IH]; intros Hk; [by case_bool_decide; [set_solver|]|]. rewrite !filter_cons.
  specialize (IH Hk). destruct (decide (j = k)) as [->|Hne].
  - rewrite bool_decide_eq_false_2 in IH by done. rewrite bool_decide_eq_true_2 by set_solver. rewrite decide_True by done. rewrite decide_False by set_solver.
    cbn. by rewrite IH.
  - assert (bool_decide (k ∈ j :: js) = bool_decide (k ∈ js)) as -> by (apply bool_decide_ext; set_solver).
    destruct (decide (j ∉ order)) as [Ho|Ho].
    + rewrite decide_True by set_solver. cbn. rewrite IH. by case_bool_decide.
    + rewrite decide_False by set_solver. done.
Qed.

Lemma left_of_nil js : left_of [] js = length js.
Proof using.
  unfold left_of. induction js as [|j js IH]; [done|]. rewrite filter_cons, decide_True by apply not_elem_of_nil. cbn. by rewrite IH.
Qed.

Record so_far (s : list nat * list nat) (order : list nat) : Prop := {
  sf_waits k : s.1 !! k = left_of order <$> D !! k;
  sf_nodup : NoDup s.2;
  sf_ready k : k ∈ s.2 ↔ can_be_next order k;
  sf_once : NoDup order;
  sf_next i k : order !! i = Some k → is_next (take i order) k;
}.

Lemma so_far_closed s order k j : so_far s order → k ∈ order → waiting_for k j → j ∈ order.
Proof.
  intros Hs [i Hi]%list_elem_of_lookup_1 Hw. apply (sf_next _ _ Hs) in Hi as [(_ & _ & Hall) _]. apply Hall in Hw. by eapply elem_of_take in Hw as (? & ? & _); eapply list_elem_of_lookup_2.
Qed.
Lemma so_far_below s order : so_far s order → Forall (λ k, k < length D) order.
Proof. intros Hs. apply Forall_forall. intros k [i Hi]%list_elem_of_lookup_1. by apply (sf_next _ _ Hs) in Hi as [(_ & ? & _) _]. Qed.
Lemma waiting_below k j : waiting_for k j → k < length D.
Proof. intros (js & E & _). by apply lookup_lt_Some in E. Qed.

Lemma tell_next s order k : so_far s order → is_next order k →
  ∃ s', tell_all (who k 0 D) (s.1, remove_one k s.2) = Some s' ∧ so_far s' (order ++ [k]).
Proof using All.
  intros Hs Hk. pose proof Hk as [(Hko & Hkn & Hkall) _].
  assert (k ∈ s.2) as Hks by (by apply (sf_ready _ _ Hs); apply Hk). pose proof (remove_one_splits k s.2 Hks) as Hperm.
  assert (∀ d, d ∈ who k 0 D ↔ waiting_for d k) as Hwho.
  { intros d. rewrite elem_of_who. unfold waiting_for. rewrite Nat.sub_0_r. split; [intros (js & _ & E & H); by exists js|intros (js & E & H)].
    exists js. split_and!; [lia|done|done]. }
  assert (∀ d js, D !! d = Some js → left_of order js = (if bool_decide (k ∈ js) then S else id) (left_of (order ++ [k]) js)) as Hleft.
  { intros d js E. apply left_of_snoc; [|done]. rewrite Forall_lookup in HD. by apply (HD d). }
  destruct (tell_finds (who k 0 D) s.1 (remove_one k s.2) (nodup_who k D 0)) as (w' & r' & E & Hlen & Hat & Hndr & Hr).
  { apply Forall_forall. intros d Hd. apply Hwho in Hd as (js & Ed & Hin). rewrite (sf_waits _ _ Hs), Ed. cbn. rewrite (Hleft d js Ed).
    rewrite bool_decide_eq_true_2 by done. eauto. }
  exists (w', remove_one k s.2 ++ r'). split; [done|].
  assert (∀ d, can_be_next (order ++ [k]) d ↔ (d ≠ k ∧ can_be_next order d) ∨ d ∈ r') as Hnext.
  { intros d. rewrite Hr, Hwho. split.
    - intros (Hdo & Hdn & Hdall). destruct (lookup_lt_is_Some_2 D d Hdn) as [js Ed]. rewrite (sf_waits _ _ Hs), Ed. cbn. rewrite (Hleft d js Ed).
      assert (left_of (order ++ [k]) js = 0) as H0 by (apply left_of_none; intros j Hj; apply Hdall; by exists js).
      rewrite H0. case_bool_decide as Hkj; [right; split; [by exists js|done]|left]. split; [set_solver|]. split_and!; [set_solver|done|].
      intros j (js' & E' & Hj). rewrite Ed in E'. injection E' as <-. specialize (Hdall j ltac:(by exists js)). set_solver.
    - intros [[Hne (Hdo & Hdn & Hdall)]|[Hw H1]]; [split_and!; [set_solver|done|]; intros j Hj; specialize (Hdall j Hj); set_solver|].
      split_and!; [|by apply (waiting_below d k)|].
      + intros [Hd|Hd%list_elem_of_singleton]%elem_of_app; [by pose proof (so_far_closed s order d k Hs Hd Hw)|]. subst d. by apply Hkall in Hw.
      + destruct Hw as (js & Ed & Hin). rewrite (sf_waits _ _ Hs), Ed in H1. cbn in H1. rewrite (Hleft d js Ed), bool_decide_eq_true_2 in H1 by done.
        intros j (js' & E' & Hj). rewrite Ed in E'. injection E' as <-. injection H1 as H1. by apply (proj1 (left_of_none (order ++ [k]) js)). }
  pose proof (sf_nodup _ _ Hs) as Hnd. rewrite Hperm in Hnd. apply NoDup_cons in Hnd as [Hkr Hndr0].
  assert (∀ d, d ∈ remove_one k s.2 ↔ d ≠ k ∧ can_be_next order d) as Hrest.
  { intros d. assert (d ∈ s.2 ↔ d = k ∨ d ∈ remove_one k s.2) as Hsplit by (rewrite Hperm at 1; apply elem_of_cons).
    rewrite <-(sf_ready _ _ Hs), Hsplit. split; [intros Hd; split; [by intros ->|auto]|intros [? [?|?]]; done]. }
  split; cbn [fst snd].
  - intros d. rewrite Hat, (sf_waits _ _ Hs). destruct (D !! d) as [js|] eqn:Ed; [|done]. cbn. rewrite (Hleft d js Ed).
    assert (bool_decide (d ∈ who k 0 D) = bool_decide (k ∈ js)) as ->.
    { apply bool_decide_ext. rewrite Hwho. split; [intros (js' & E' & ?); congruence|by exists js]. }
    by case_bool_decide.
  - apply NoDup_app. split_and!; [done| |done]. intros d [_ (Hdo & Hdn & Hdall)]%Hrest [_ H1]%Hr.
    destruct (lookup_lt_is_Some_2 D d Hdn) as [js Ed]. rewrite (sf_waits _ _ Hs), Ed in H1. cbn in H1.
    rewrite (proj2 (left_of_none order js)) in H1; [done|]. intros j Hj. apply Hdall. by exists js.
  - intros d. by rewrite elem_of_app, Hnext, Hrest.
  - apply NoDup_app. split_and!; [apply Hs|intros x Hx ->%list_elem_of_singleton; done|apply NoDup_singleton].
  - intros i d Hi. apply lookup_app_Some in Hi as [Hi|[Hge Hi]].
    + rewrite take_app_le by (apply lookup_lt_Some in Hi; lia). by apply (sf_next _ _ Hs).
    + apply list_lookup_singleton_Some in Hi as [Hi ->]. replace i with (length order) by lia. by rewrite take_app_length.
Qed.

Lemma all_in_order s order : so_far s order → s.2 = [] → order ≡ₚ seq 0 (length D).
Proof using All.
  intros Hs Hempty. pose proof (so_far_below s order Hs) as Hb. rewrite Forall_forall in Hb.
  apply NoDup_Permutation; [apply Hs|apply NoDup_seq|]. intros k. rewrite elem_of_seq. split; [intros Hk; specialize (Hb k Hk); lia|].
  intros [_ Hk]. destruct (decide (k ∈ order)) as [|Hout]; [done|]. exfalso.
  destruct (leads_round waiting_for (filter (λ j, j ∉ order) (seq 0 (length D)))) as (x & _ & Hx); [| |by apply (Hacyclic x)].
  - intros E. assert (k ∈ filter (λ j, j ∉ order) (seq 0 (length D))) as Hin by (apply list_elem_of_filter; split; [done|apply elem_of_seq; lia]).
    rewrite E in Hin. set_solver.
  - intros x [Hxo Hx]%list_elem_of_filter. apply elem_of_seq in Hx. destruct (lookup_lt_is_Some_2 D x) as [js Ex]; [lia|].
    destruct (decide (left_of order js = 0)) as [H0|H0].
    + exfalso. assert (x ∈ s.2) as Hxs; [|by rewrite Hempty in Hxs; set_solver]. apply (sf_ready _ _ Hs). split_and!; [done|lia|].
      intros j (js' & E' & Hj). rewrite Ex in E'. injection E' as <-. by apply (proj1 (left_of_none order js)).
    + unfold left_of in H0. destruct (filter (λ j, j ∉ order) js) as [|y ys] eqn:Ef; [done|]. exists y.
      assert (y ∈ filter (λ j, j ∉ order) js) as [Hyo Hy]%list_elem_of_filter by (rewrite Ef; left).
      assert (waiting_for x y) as Hw by (by exists js). split; [|done]. apply list_elem_of_filter. split; [done|]. apply elem_of_seq.
      specialize (Hbelow x y Hw). lia.
Qed.

Lemma order_loop_finds nb (Hnb : ∀ j, j < length D → nb !! j = Some (who j 0 D)) fuel : ∀ s order, so_far s order → length D < fuel + length order →
  ∃ out, order_loop fuel nb s order = Some out ∧ out ≡ₚ seq 0 (length D) ∧ ∀ i k, out !! i = Some k → is_next (take i out) k.
Proof using All.
  induction fuel as [|fuel IH]; intros s order Hs Hfuel; cbn [order_loop].
  { exfalso. pose proof (nodup_below order (length D) (sf_once _ _ Hs) (so_far_below _ _ Hs)). lia. }
  pose proof (least_is s.2) as Hleast. destruct (least s.2) as [k|].
  - destruct Hleast as [Hk Hle]. assert (is_next order k) as Hnext.
    { split; [by apply (sf_ready _ _ Hs)|]. intros j Hj. apply Hle. by apply (sf_ready _ _ Hs). }
    rewrite Hnb by apply Hnext. cbn [mbind option_bind]. destruct (tell_next s order k Hs Hnext) as (s' & E & Hs'). rewrite E. cbn [mbind option_bind].
    apply IH; [done|]. rewrite length_app. cbn. lia.
  - exists order. split_and!; [done|by apply (all_in_order s)|apply Hs].
Qed.
End kahn.

Lemma mapM_total {A B : Type} (f : A → option B) (h : A → B) l : (∀ x, x ∈ l → f x = Some (h x)) → mapM f l = Some (h <$> l).
Proof.
  induction l as [|x l IH]; intros H; [done|]. cbn. rewrite (H x) by left. cbn. rewrite IH; [done|]. intros y Hy. apply H. by right.
Qed.
Lemma sorted_lookup l : StronglySorted lt l → ∀ i j x y, l !! i = Some x → l !! j = Some y → i ≤ j → x ≤ y.
Proof.
  induction 1 as [|z l _ IH Hz]; intros i j x y Hi Hj Hij; [done|]. destruct i as [|i], j as [|j]; cbn in Hi, Hj; [|  |lia|].
  - assert (x = y) by congruence. lia.
  - injection Hi as ->. rewrite Forall_forall in Hz. apply list_elem_of_lookup_2, Hz in Hj. lia.
  - apply (IH i j); [done|done|lia].
Qed.
Lemma lets_sorted g : StronglySorted lt (lets g).
Proof.
  unfold lets. generalize 0 as k. generalize (length (nodes g)) as n. induction n as [|n IH]; intros k; cbn; [constructor|]. destruct (is_let g k); [|done].
  constructor; [done|]. apply Forall_forall. intros x [Hx%elem_of_seq _]%elem_of_lets_of. lia.
Qed.

Section order_of.
Context (ls : list nat) (Hls : NoDup ls) (Hsorted : StronglySorted lt ls) (needs : Needs).
Definition kept (a : nat) : list nat := default [] (needs !! a).
Context (Hneeds : ∀ a, a ∈ ls → is_Some (needs !! a) ∧ NoDup (kept a) ∧ ∀ b, b ∈ kept a → b ∈ ls).
Context (Hacyclic : ∀ a, ¬ tc (λ a b, a ∈ ls ∧ b ∈ kept a) a a).

Notation at_ := (λ k, default 0 (ls !! k)).
Notation idx := (λ b, default 0 (place ls b)).
Notation D := ((λ a, idx <$> kept a) <$> ls).

Lemma place_finds b : b ∈ ls → place ls b = Some (idx b) ∧ ls !! idx b = Some b.
Proof.
  intros Hb. unfold place. destruct (list_find (λ m, m = b) ls) as [[k x]|] eqn:E.
  - apply list_find_Some in E as (Hk & -> & _). done.
  - apply list_find_None in E. rewrite Forall_forall in E. by destruct (E b Hb).
Qed.
Lemma idx_at k a : ls !! k = Some a → idx a = k.
Proof using Hls. intros Hk. destruct (place_finds a) as [_ H]; [by apply list_elem_of_lookup_2 in Hk|]. by eapply NoDup_lookup. Qed.
Lemma waiting_kept k j : waiting_for D k j ↔ ∃ a b, ls !! k = Some a ∧ b ∈ kept a ∧ idx b = j.
Proof.
  unfold waiting_for. split.
  - intros (js & E & Hj). rewrite list_lookup_fmap in E. destruct (ls !! k) as [a|]; [|done]. injection E as <-.
    apply list_elem_of_fmap in Hj as (b & -> & Hb). by exists a, b.
  - intros (a & b & Ha & Hb & <-). exists (idx <$> kept a). rewrite list_lookup_fmap, Ha. split; [done|]. by apply (list_elem_of_fmap_2 idx).
Qed.
Lemma waiting_acyclic k : ¬ tc (waiting_for D) k k.
Proof using All.
  assert (∀ k j, tc (waiting_for D) k j → ∃ a b, ls !! k = Some a ∧ ls !! j = Some b ∧ tc (λ a b, a ∈ ls ∧ b ∈ kept a) a b) as H.
  { intros k' j. induction 1 as [k' j H|k' j l H _ (c & d & Hc & Hd & IH)]; apply waiting_kept in H as (a & b & Ha & Hb & Hj);
      assert (a ∈ ls) as Hal by (by apply list_elem_of_lookup_2 in Ha); destruct (Hneeds a Hal) as (_ & _ & Hin);
      destruct (place_finds b (Hin b Hb)) as [_ Hbj]; rewrite Hj in Hbj; exists a.
    - exists b. split_and!; [done|done|by apply tc_once].
    - exists d. split_and!; [done|done|]. eapply tc_l; [|exact IH]. split; [done|]. congruence. }
  intros (a & b & Ha & Hb & Ht)%H. assert (a = b) as -> by congruence. by apply (Hacyclic b).
Qed.

(** What can be initialised, the first of it. *)
Definition ready_after (before : list nat) (a : nat) : Prop := a ∈ ls ∧ a ∉ before ∧ ∀ b, b ∈ kept a → b ∈ before.

Lemma at_elem before b : Forall (λ k, k < length ls) before → b ∈ ls → b ∈ at_ <$> before ↔ idx b ∈ before.
Proof using Hls.
  intros Hbefore Hb. rewrite list_elem_of_fmap. rewrite Forall_forall in Hbefore. split.
  - intros (k & -> & Hk). destruct (lookup_lt_is_Some_2 ls k) as [c Hc]; [by apply Hbefore|]. rewrite Hc. change (default 0 (Some c)) with c. by rewrite (idx_at k c Hc).
  - intros Hi. exists (idx b). split; [|done]. by rewrite (proj2 (place_finds b Hb)).
Qed.
Lemma ready_next before k a : Forall (λ k, k < length ls) before → ls !! k = Some a → ready_after (at_ <$> before) a ↔ can_be_next D before k.
Proof using Hls Hneeds.
  intros Hbefore Hk. assert (a ∈ ls) as Ha by (by apply list_elem_of_lookup_2 in Hk). destruct (Hneeds a Ha) as (_ & _ & Hin).
  unfold ready_after, can_be_next. rewrite at_elem, (idx_at k a Hk), length_fmap by done. split.
  - intros (_ & Hn & Hall). split_and!; [done|by apply lookup_lt_Some in Hk|]. intros j (a' & b & Ha' & Hb & <-)%waiting_kept.
    assert (a' = a) as -> by congruence. apply at_elem; auto.
  - intros (Hn & _ & Hall). split_and!; [done|done|]. intros b Hb. apply at_elem; [done|auto|]. apply Hall, waiting_kept. by exists a, b.
Qed.

Lemma order_of_finds : ∃ o, order_of ls needs = Some o ∧ o ≡ₚ ls ∧
  ∀ i a, o !! i = Some a → ready_after (take i o) a ∧ ∀ b, ready_after (take i o) b → a ≤ b.
Proof using All.
  unfold order_of. rewrite (mapM_total (λ n, needs !! n) kept) by (intros a Ha; unfold kept; by destruct (Hneeds a Ha) as [[ns ->] _]).
  cbn [mbind option_bind]. assert (Forall NoDup D) as HD.
  { apply Forall_fmap, Forall_forall. intros a Ha. destruct (Hneeds a Ha) as (_ & Hnd & Hin). cbn. apply NoDup_fmap_2_strong; [|done].
    intros x y Hx Hy E. destruct (place_finds x (Hin x Hx)) as [_ Hx'], (place_finds y (Hin y Hy)) as [_ Hy']. rewrite E in Hx'. congruence. }
  destruct (needed_by_of_finds ls (kept <$> ls) D) with (k := 0) (nb := replicate (length ls) (@nil nat)) as (nb & Enb & Hlen & Hnb); [|done|].
  { apply Forall2_fmap, Forall_Forall2_diag, Forall_forall. intros a Ha. apply (mapM_total (place ls) idx). intros b Hb. apply place_finds. by apply (Hneeds a Ha). }
  rewrite Enb. cbn [mbind option_bind].
  destruct (order_loop_finds D HD) with (nb := nb) (fuel := S (length ls)) (order := @nil nat)
    (s := (length <$> (kept <$> ls), List.filter (λ k, match (length <$> (kept <$> ls)) !! k with Some w => w =? 0 | None => false end) (seq 0 (length ls))))
    as (out & Eout & Hperm & Hnext).
  - intros k j (a & b & Ha & Hb & <-)%waiting_kept. rewrite length_fmap. destruct (Hneeds a) as (_ & _ & Hin); [by apply list_elem_of_lookup_2 in Ha|].
    destruct (place_finds b (Hin b Hb)) as [_ Hj]. by apply lookup_lt_Some in Hj.
  - apply waiting_acyclic.
  - intros j Hj. rewrite length_fmap in Hj. apply (Hnb j []). by apply lookup_replicate_2.
  - assert (∀ k, k ∈ List.filter (λ k, match (length <$> (kept <$> ls)) !! k with Some w => w =? 0 | None => false end) (seq 0 (length ls)) ↔ can_be_next D [] k) as Hready.
    { intros k. rewrite elem_of_lets_of, elem_of_seq, !list_lookup_fmap. unfold can_be_next. rewrite length_fmap. split.
      - intros [[_ Hk] Hw]. split_and!; [set_solver|done|]. intros j (a & b & Ha & Hb & _)%waiting_kept. rewrite Ha in Hw. cbn in Hw.
        apply Nat.eqb_eq, length_zero_iff_nil in Hw. rewrite Hw in Hb. set_solver.
      - intros (_ & Hk & Hall). split; [lia|]. destruct (lookup_lt_is_Some_2 ls k Hk) as [a Ha]. rewrite Ha. cbn. apply Nat.eqb_eq, length_zero_iff_nil.
        destruct (kept a) as [|b bs] eqn:Eb; [done|]. exfalso. assert (idx b ∈ @nil nat); [|set_solver]. apply Hall, waiting_kept. exists a, b.
        rewrite Eb. split_and!; [done|left|done]. }
    split; cbn [fst snd]; [|apply nodup_lets_of, NoDup_seq|exact Hready|constructor|done].
    intros k. rewrite !list_lookup_fmap. destruct (ls !! k) as [a|]; [|done]. change (Some (length (kept a)) = Some (left_of [] (idx <$> kept a))). by rewrite left_of_nil, length_fmap.
  - cbn. rewrite length_fmap. lia.
  - rewrite length_fmap in Hperm. rewrite Eout. cbn [mbind option_bind].
    assert (∀ k, k ∈ out → k < length ls) as Hout by (intros k Hk; rewrite Hperm in Hk; apply elem_of_seq in Hk; lia).
    rewrite (mapM_total (λ k, ls !! k) at_).
    2: { intros k Hk%Hout. by destruct (lookup_lt_is_Some_2 ls k Hk) as [a ->]. }
    exists (at_ <$> out). split; [done|]. split.
    + rewrite Hperm. enough (at_ <$> seq 0 (length ls) = ls) as -> by done. apply list_eq. intros k. rewrite list_lookup_fmap. destruct (decide (k < length ls)) as [Hk|Hk].
      * rewrite lookup_seq_lt by done. cbn. by destruct (lookup_lt_is_Some_2 ls k Hk) as [a ->].
      * rewrite lookup_seq_ge, lookup_ge_None_2 by lia. done.
    + intros i a Hi. rewrite list_lookup_fmap in Hi. destruct (out !! i) as [k|] eqn:Ek; [|done]. injection Hi as Hi.
      destruct (lookup_lt_is_Some_2 ls k) as [c Hc]; [apply Hout; by apply list_elem_of_lookup_2 in Ek|]. rewrite Hc in Hi. cbn in Hi. subst c.
      assert (Forall (λ k, k < length ls) (take i out)) as Hbefore.
      { apply Forall_forall. intros j Hj. apply Hout. apply elem_of_take in Hj as (? & ? & _). by eapply list_elem_of_lookup_2. }
      destruct (Hnext i k Ek) as [Hcan Hfirst]. rewrite <-fmap_take. split; [by apply (ready_next _ k)|].
      intros b Hb. assert (b ∈ ls) as Hbl by apply Hb. destruct (place_finds b Hbl) as [_ Hib]. apply (ready_next _ _ _ Hbefore Hib), Hfirst in Hb.
      by apply (sorted_lookup ls Hsorted k (idx b)).
Qed.
End order_of.

(** ** What is done *)

(** A [let] can be initialised after others: every [let] it needs is there,
    or is of a ring; it is the first written of those. *)
Definition can_initialise (g : Graph) (in_ring : gset nat) (before : list nat) (a : nat) : Prop :=
  is_let g a = true ∧ a ∉ before ∧ ∀ b, needs_let g a b → b ∈ in_ring ∨ b ∈ before.

Lemma init_order_finds g : well_formed g → ∃ r, init_order g = Some r ∧
  (order r ≡ₚ lets g ∧ ∀ i a, order r !! i = Some a →
    can_initialise g (let_rings r) (take i (order r)) a ∧ ∀ b, can_initialise g (let_rings r) (take i (order r)) b → a ≤ b) ∧
  (∀ n, n ∈ let_rings r → is_let g n = true ∧ tc (step g) n n) ∧ (∀ a, is_let g a = true → tc (needs_let g) a a → a ∈ let_rings r) ∧
  Forall (reported g (let_rings r)) (reports r) ∧ (bound_twice g = [] → reports r = [] → let_rings r = ∅).
Proof.
  intros Hg. assert (Forall (λ a, is_let g a = true) (lets g)) as Hl by (by apply Forall_forall; intros a Ha; apply elem_of_lets).
  assert (NoDup (lets g)) as Hnd by (apply nodup_lets_of, NoDup_seq).
  destruct (all_needs_finds g Hg (lets g) [] ∅ ∅ Hl Hnd ltac:(constructor)) as (needs & ways & Eneeds & Hknown). cbn [app] in Hknown.
  destruct (rings_finds g Hg needs ways Hknown (lets g) ∅ [] Hl) as (rs & more & Erings & _ & Hfrom & Hall & Hrep & Hnone). cbn [app] in Erings.
  set (without := (List.filter (λ n, negb (bool_decide (n ∈ rs)))) <$> needs).
  assert (∀ a, a ∈ lets g → is_Some (without !! a) ∧ NoDup (kept without a) ∧ ∀ b, b ∈ kept without a ↔ needs_let g a b ∧ b ∉ rs) as Hkept.
  { intros a Ha. rewrite Forall_forall in Hknown. destruct (Hknown a Ha) as (ns & Ens & Hns & Hiff & _). unfold kept, without. rewrite lookup_fmap, Ens. cbn.
    split_and!; [done|by apply nodup_lets_of|]. intros b. rewrite elem_of_lets_of, Hiff, negb_true_iff, bool_decide_eq_false. done. }
  destruct (order_of_finds (lets g) Hnd (lets_sorted g) without) as (o & Eo & Hperm & Hnext).
  - intros a Ha. destruct (Hkept a Ha) as (? & ? & Hiff). split_and!; [done|done|]. intros b [[Hb _] _]%Hiff. by apply elem_of_lets.
  - assert (∀ a b, tc (λ a b, a ∈ lets g ∧ b ∈ kept without a) a b → tc (needs_let g) a b ∧ a ∈ lets g ∧ b ∉ rs) as Htc.
    { induction 1 as [a b [Ha Hb]|a b c [Ha Hb] _ (IH1 & _ & IH2)]; apply (Hkept a Ha) in Hb as [Hb ?]; [split_and!; [by apply tc_once|done|done]|].
      split_and!; [by eapply tc_l|done|done]. }
    intros a (Ht & Ha & Hno)%Htc. by apply Hno, Hall.
  - assert (∀ before a, ready_after (lets g) without before a ↔ can_initialise g rs before a) as Hready.
    { intros before a. unfold ready_after, can_initialise. rewrite elem_of_lets. split; intros (Ha & Hn & Hb); (split_and!; [done|done|]);
        pose proof (proj2 (elem_of_lets g a) Ha) as Hin; destruct (Hkept a Hin) as (_ & _ & Hiff).
      - intros b Hab. destruct (decide (b ∈ rs)); [by left|right]. by apply Hb, Hiff.
      - intros b [Hab Hr]%Hiff. by destruct (Hb b Hab). }
    assert (init_order g = Some (mkInitialised o rs more)) as E.
    { unfold init_order. destruct (lets g) as [|l ls] eqn:El.
      - cbn in Eneeds, Erings. injection Erings as <- <-. by apply Permutation_nil_r in Hperm as ->.
      - rewrite Eneeds. cbn [mbind option_bind fst snd]. rewrite Erings. cbn [mbind option_bind fst snd]. unfold without in Eo. by rewrite Eo. }
    exists (mkInitialised o rs more). split; [done|]. cbn [order let_rings reports]. split_and!; [done| | | |done|done].
    + intros i a Hi. destruct (Hnext i a Hi) as [Ha Hle]. split; [by apply Hready|]. intros b Hb. by apply Hle, Hready.
    + intros n Hn. destruct (Hfrom n Hn); [set_solver|done].
    + intros a Ha Ht. apply Hall; [by apply elem_of_lets|done].
Qed.

Lemma well_formed_check g : length (edges g) = length (nodes g) → Forall (Forall (λ b, b < length (nodes g))) (edges g) →
  Forall (λ node, Forall (λ r, default 0 r < length (nodes g)) (default [] (plain node))) (nodes g) → well_formed g.
Proof.
  intros Hlen He Hn. rewrite Forall_forall in He. rewrite Forall_forall in Hn. split; [done| |].
  - intros a b (ts & E & Hb). apply list_elem_of_lookup_2, He in E. rewrite Forall_forall in E. by apply E.
  - intros a b (node & rs & E & Ep & Hb). apply list_elem_of_lookup_2, Hn in E. rewrite Ep in E. cbn in E. rewrite Forall_forall in E. by apply (E (Some b)).
Qed.

(** [let total = sum()], [let rates = [2]], [fn sum() = rates],
    [let again = loop()], [fn loop() = again]: the second is first, and the
    fourth needs itself through the fifth. *)
Definition example : Graph :=
  mkGraph [mkNode 0 false (Some []); mkNode 1 true None; mkNode 2 true (Some []); mkNode 3 false None; mkNode 4 true None; mkNode 5 false None]
    [[]; [3]; []; [2]; [5]; [4]] {[(5, 4) := 4%N]} [].
Example example_order : (λ r, (order r, elements (let_rings r), reports r)) <$> init_order example = Some ([2; 1; 4], [4], [mkCycle 4 4 [4%N; 5%N; 4%N]]).
Proof. vm_compute. reflexivity. Qed.
Lemma example_well_formed : well_formed example.
Proof. apply well_formed_check; [reflexivity|repeat constructor..]. Qed.

(** C15. The [let]s are all put in an order, each once, and at each point of it
    the next is the first written of those whose needs are all before it
    (or in a ring, which is reported): what a value needs is initialised
    before it. *)
Theorem initialised_after_its_needs g : well_formed g → ∃ r, init_order g = Some r ∧ order r ≡ₚ lets g ∧
  ∀ i a, order r !! i = Some a →
    can_initialise g (let_rings r) (take i (order r)) a ∧ ∀ b, can_initialise g (let_rings r) (take i (order r)) b → a ≤ b.
Proof. intros Hg. destruct (init_order_finds g Hg) as (r & E & H & _). by exists r. Qed.
Lemma initialised_after_its_needs_witness : well_formed example ∧ ∃ r, init_order example = Some r ∧ order r ≡ₚ lets example.
Proof.
  split; [exact example_well_formed|]. destruct (initialised_after_its_needs example example_well_formed) as (r & E & H & _). by exists r.
Defined.

(** C16. A [let] that needs its own value is never left out: it is in the rings;
    what is in the rings is on a way round; each error names a [let] that
    needs itself with a way from its name to its name; and no error (where
    no name is bound twice) means that there is no ring. *)
Theorem rings_are_reported g : well_formed g → ∃ r, init_order g = Some r ∧
  (∀ a, is_let g a = true → tc (needs_let g) a a → a ∈ let_rings r) ∧
  (∀ n, n ∈ let_rings r → is_let g n = true ∧ tc (step g) n n) ∧
  Forall (reported g (let_rings r)) (reports r) ∧ (bound_twice g = [] → reports r = [] → let_rings r = ∅).
Proof. intros Hg. destruct (init_order_finds g Hg) as (r & E & _ & H1 & H2 & H3 & H4). by exists r. Qed.
Lemma rings_are_reported_witness : well_formed example ∧ ∃ r, init_order example = Some r ∧ Forall (reported example (let_rings r)) (reports r).
Proof.
  split; [exact example_well_formed|]. destruct (rings_are_reported example example_well_formed) as (r & E & _ & _ & H & _). by exists r.
Defined.
